(* ===== verification/_CoqProject ===== *)
-Q . S2P
Prelude.v
Bytes.v
Ordered.v
DbError.v
DbWire.v
DbState.v
OverlayIndex.v
Overlay.v
OverlayReplay.v
Merge.v
MergeFacts.v
IndexFacts.v
DbWriter.v
Store.v
WriterRefines.v
StoreFacts.v
WriterFacts.v
Layout.v
Crc.v
Snapshot.v
SnapshotFacts.v
SnapshotWrite.v
SnapshotWriteFacts.v
SnapshotTyped.v
Wal.v
WalRecovery.v
Database.v
Topology.v
BfsSpec.v
Bfs.v
BfsFacts.v
BfsBounded.v
Algo.v
AlgoFacts.v
ToposortFacts.v
ComponentsFacts.v
Scc.v
Csr.v
CsrFacts.v
CsrBuild.v
CsrBuildFacts.v
CsrFreeze.v
Search.v
Bcsr.v
BcsrFacts.v
BcsrBuild.v
BcsrBuildFacts.v
BcsrFreeze.v
Projection.v
ProjectionFacts.v
Traversal.v
HyperProjectionFacts.v
Query.v
QueryFacts.v
QueryExec.v
Reader.v
ReaderFacts.v
BaseWire.v
BaseFile.v
BorrowedIndex.v
BaseView.v
BaseFileFacts.v
BaseViewFacts.v
BorrowedFacts.v
BaseRoundTrip.v
Files.v
Checkpoint.v
CheckpointFacts.v
CheckpointSafety.v
PgCatalog.v
PgOverlay.v
PgOverlayFacts.v
PgBuild.v
PgTopology.v
PgTopologyFacts.v
PgEngine.v
PgEngineFacts.v
PgBuildFacts.v
