(* ===== verification/Prelude.v ===== *)
(** * OxGraph verification library: root file

    OxGraph is a Rust workspace for graphs and hypergraphs: layout primitives,
    a section container for snapshots, borrowed and built compressed sparse row
    graphs, traversal and whole-graph algorithms over topology traits, an
    embedded graph database with a write-ahead log, and the engine behind a
    PostgreSQL extension. This library is a shallow
    embedding of its core: each Rust function is a Rocq function, executable
    wherever the code is, and the theorems are about those functions. Paths
    below are relative to [src/crates/].

    ** Conventions

    - A Rust integer is a [Z] in the range of its type; checked, wrapping and
      saturating operations are written out. [usize] is the [usize] of a 64-bit
      target ([Layout]). A [Vec] index that would panic panics in the model.
    - [res E A] below is the outcome of a function body: [Ok], [Err], [Panic],
      or [NoFuel] for a loop whose fuel ran out. Theorems about loops conclude
      [Ok] or [Err] with the fuel the definition itself supplies, so they
      include termination; none concludes or assumes [NoFuel].
    - A method on [&mut self] returns the new state; where it can fail and the
      code leaves a partly updated state behind, the state comes back next to
      the error.
    - A [BTreeMap] is a [gmap] with its iteration in key order ([Ordered]); a
      [HashMap] whose iteration order is not observed is a [gmap]; a [Vec] or
      slice is a list; bytes are [list Byte.byte] or [Z]s below 256.
    - Traits are operational type classes ([Topology]) with their documented
      contract as a class of laws; the algorithms are proved against the
      interface and the CSR view discharges it.
    - Code outside the repository is a parameter: the section checksum and the
      [crc32c] crate are an arbitrary function ([ck]), the file system is a map of
      files with an arbitrary outcome for each call ([io]), a mapped file lies at
      an arbitrary address ([place]), the caller's comparison and weight
      functions are arguments.

    ** Parts

    Foundations.
    - [Prelude] (this file): outcomes, checked arithmetic, bytes, list lemmas,
      the hint databases and tactics of the library.
    - [Bytes]: fields of byte strings, shared by every codec. [Ordered]:
      iteration of maps and sets in key order.

    Layout ([oxgraph-layout-util]).
    - [Layout]: index widths, native and little-endian words, offset-array
      validation ([integrity.rs]), dense ids and [build_offset_index]
      ([build.rs]), the composite key encoder. Theorems: validation accepts
      exactly the well formed offset arrays and names a true fault; validated
      rows tile the payload; a built index validates and reads back its input;
      encoded keys are distinct. [Crc]: the software CRC-32C, equal to the bit-serial definition and detecting bursts.

    Snapshot container ([oxgraph-snapshot]).
    - [Snapshot]: the wire records, [Snapshot::open] with every error branch,
      section lookup and typed sections. [SnapshotWrite]: the plan encoder, the
      streaming writer and the checksum patcher. [SnapshotFacts],
      [SnapshotWriteFacts], [SnapshotTyped]: opening accepts exactly the well
      formed files; sections are in bounds and disjoint; what any run of the
      writer's calls finishes opens again with the sections written; the two
      encoders agree byte for byte.

    Traversal and algorithms ([oxgraph-topology], [oxgraph-algo]).
    - [Topology]: the traits, their laws, walks, distances and reachability.
    - [BfsSpec]: one abstract layered search, proved to compute distances. [Bfs]
      and [BfsFacts]: the concrete iterator with its five visited-set policies
      ([bfs/]), each a refinement of the abstract machine, reused scratch and
      epoch wrap-around included. [BfsBounded]: the depth-bounded
      multi-seed search with visitor and cap.
    - [Algo] with [AlgoFacts], [ToposortFacts], [ComponentsFacts], and [Scc]:
      shortest path lengths, topological sort, longest chain, union-find
      components, iterative Tarjan.

    Compressed sparse rows ([oxgraph-csr], [oxgraph-csc]).
    - [Csr], [CsrFacts]: validation, checked accessors, iterators, the trait
      instances, opening from a snapshot, the inbound view of a transposed graph.
      [CsrBuild], [CsrBuildFacts], [CsrFreeze]: the builders, the counting sort that freezes
      them, transposition, the borrowed view and the snapshot export, with the
      round trip from a builder through a file back to the same adjacency.

    Bipartite compressed sparse rows ([oxgraph-hyper-bcsr]).
    - [Search]: the standard library's binary search of a slice. [Bcsr],
      [BcsrFacts]: the eight sections of a directed hypergraph, their layout and
      strict validation, the view, its accessors and iterators, opening from a
      snapshot. Validation accepts exactly the well formed sections; a validated
      view is four arrays of rows and no accessor panics on a contained id.
    - [BcsrBuild], [BcsrBuildFacts], [BcsrFreeze]: the plain and weighted
      builders, the arrays they freeze into, the frozen accessors and the
      export: what a builder accepts, the rows of the frozen view, the weights
      that follow the incidence ids, the round trip through a file, and the
      incidence ids a graph past the incidence width cannot name.

    Database ([oxgraph-db]).
    - [DbError]: the error enums. [DbWire]: property values, ids, tags and the
      fixed-size records of the formats ([wire.rs], [value.rs]).
    - [Wal], [WalRecovery]: the delta log and the superblock
      ([wal.rs]): a log cut anywhere replays to the commits whole in it; replay
      of arbitrary bytes is classified exactly; an append under any file system
      outcome costs at most the commit being appended.
    - [DbState]: projection and index definition bodies ([wire/defs.rs]),
      canonical records, id watermarks and the catalog ([state.rs],
      [catalog.rs]). [OverlayIndex]: base and overlay postings with every hook
      and the merged lookups ([index.rs]). [Overlay]: the write overlay, its
      log and the replay of one logged operation ([overlay/write.rs],
      [overlay/log.rs], [overlay/frozen.rs]). [OverlayReplay]: a logged
      transaction replays to the very state it left.
    - [Merge], [MergeFacts]: a base under an overlay as one state: the merge
      iterators, point reads, scans and index-backed lookups
      ([overlay/merge.rs]); the iterators list the merged map and end.
      [IndexFacts]: every mutator keeps the postings coherent with
      the records, so an index-backed lookup is the scan it replaces.
    - [DbWriter]: the guarded writer, reconciliation and schema binding
      ([database/writer.rs], [typed.rs], [schema.rs]), written against an
      interface of primitive operations. [Store]: the abstract store, four maps,
      a catalog and allocators, as a second implementation of the interface.
      [WriterRefines]: the methods preserve any simulation between
      implementations, and the overlay simulates the store. [StoreFacts]: every
      method keeps the integrity of the store. [WriterFacts]: the theorems, over
      all states published by sequences of transactions.
    - [Database]: [Db::open] with recovery, [begin_write] and
      [commit] ([database/]), composed from the log, the overlay and the
      superblock: a store whose log is cut anywhere opens to the state after
      the last whole commit, and a second stale handle makes it unopenable.
    - [Projection], [ProjectionFacts], [HyperProjectionFacts]: the graph and
      hypergraph projections of a state ([projection.rs]): which states have
      one, and that every accessor agrees with the selected relations.
      [Traversal]: bounded walks over a graph projection
      ([traversal.rs]).
    - [Query], [QueryFacts], [QueryExec]: the query language ([query.rs]):
      tokens, the predicate parser against its grammar and its printer, binding
      to a catalog and execution: every plan returns the rows the text denotes.
    - [Reader], [ReaderFacts]: the read handle
      ([database/reader.rs], [read.rs], and [Db::bind], [Db::prepare]): point
      reads, neighbours, index lookups, projections, walks and longest chains,
      stated over the published state.

    Store on disk ([oxgraph-db]).
    - [BaseWire]: the records and section kinds of a base file ([wire.rs]).
      [BaseFile]: the freeze of a merged view into the sections of the file
      ([freeze.rs], the posting encoder of [index.rs], the definition encoder of
      [wire/defs.rs]). [BorrowedIndex]: the postings read in place, by bisection
      ([index.rs]). [BaseView]: attaching a view to the bytes of a file, with
      every integrity check, and decoding its records ([backing.rs],
      [overlay/frozen.rs]). [BaseFileFacts], [BaseViewFacts], [BorrowedFacts],
      [BaseRoundTrip]: borrowed postings answer as the owned maps
      they were written from; a frozen view attaches and decodes to the store it
      was frozen from; attaching arbitrary bytes returns.
    - [Files]: the directory of a store, the outcome of every call on it, the
      writer lock, atomic publication, the log file and the superblock file
      ([storage.rs], [lock.rs], [wal.rs], [database/open.rs]), and what each call
      leaves behind when it, or the process, fails.
    - [Checkpoint]: [Db::create], [Db::open], [Db::write] with its auto-fold,
      [Db::compact] and [Db::validate] composed from all of the above
      ([database/open.rs], [maintenance.rs], [mod.rs], [writer.rs]).
      [CheckpointFacts], [CheckpointSafety]: whatever call of a checkpoint fails
      or kills the process, the directory opens to the state that was folded;
      what a handle whose checkpoint failed half way loses; what [create] leaves.

    PostgreSQL engine ([oxgraph-postgres]).
    - [PgCatalog]: errors, roles, configuration, search predicates, node keys,
      the catalog of registered tables and its scan queries. [PgOverlay]: the
      overlay with its adjacency indexes ([overlay.rs]), sync rows from their
      wire form to replay ([sync.rs]), dense node ids ([build.rs]).
      [PgOverlayFacts]: replay is the model of its actions up to the first row
      out of order; how far the ids of sync rows drift from an artifact's.
    - [PgBuild]: artifacts, that is metadata, the sections of both views, the
      builds from rows and from dense edges ([artifact/], [build.rs],
      [rebuild.rs]). [PgTopology]: opening both views, node-unique rows and the
      overlay views a traversal expands ([topology.rs]); [PgTopologyFacts]: what
      they expand. [PgEngine]: the engine, its queries, rebuilds and status
      ([engine.rs], [builder.rs], [traverse/]).
    - [PgEngineFacts]: the invariant of every engine that operations leave, and
      traversal, counting and search of such an engine against the live edges
      of base and overlay; the bounded search is that of [BfsBounded], used
      through the topology laws. [PgBuildFacts]: a set of rows builds into a
      file that opens into the engine of those rows.

    ** Fuel

    Loops that are structural on a list or a bounded counter are fixpoints. The
    others take a [nat] the calling definition computes from its input, as the
    number of elements for a queue, the nodes plus edges for the work stack of
    Tarjan's algorithm, the bytes left for a log; the theorems show it is
    enough.

    ** Not modelled

    - PageRank: floating-point power iteration, whose statements need error
      analysis of IEEE arithmetic.
    - The property-column crate and the CSR property layer: their data are
      arrays of a third-party crate. Memory mapping, Python bindings, the
      server and the PostgreSQL extension: glue. The plan text of a query and
      the JSON text of the engine's status.
    - The page cache: a call that returned has taken effect, so a crash is the
      death of the process, not of the machine, and a sync has no effect of its
      own beyond its failure.
    - [Display] texts, [tracing] and the threads of a single process. *)

From stdpp Require Import base gmap sets list sorting.
From coqutil Require Byte Word.LittleEndianList.

(** ** Outcomes of Rust code

    A Rust function body either returns, returns [Err], panics, or loops.
    [res E A] has one constructor for each; [NoFuel] is the value of a loop
    whose fuel ran out, and no theorem about a loop concludes it. *)

Inductive res (E A : Type) : Type :=
  | Ok (a : A)
  | Err (e : E)
  | Panic
  | NoFuel.
Arguments Ok {E A} _.
Arguments Err {E A} _.
Arguments Panic {E A}.
Arguments NoFuel {E A}.

#[export] Instance res_ret E : MRet (res E) := λ A a, Ok a.
#[export] Instance res_bind E : MBind (res E) := λ A B f m,
  match m with
  | Ok a => f a
  | Err e => Err e
  | Panic => Panic
  | NoFuel => NoFuel
  end.

(** [?] over an error conversion: [Result::map_err]. *)
Definition map_err {E F A} (f : E → F) (m : res E A) : res F A :=
  match m with
  | Ok a => Ok a
  | Err e => Err (f e)
  | Panic => Panic
  | NoFuel => NoFuel
  end.

(** [Option::ok_or]. *)
Definition ok_or {E A} (e : E) (o : option A) : res E A :=
  match o with Some a => Ok a | None => Err e end.

(** [Option::unwrap], [unreachable!] on [None]. *)
Definition or_panic {E A} (o : option A) : res E A :=
  match o with Some a => Ok a | None => Panic end.

(** [for x in l { s = f s x }] with early exit on anything but [Ok]. *)
Fixpoint for_each {E A S} (f : S → A → res E S) (l : list A) (s : S) : res E S :=
  match l with
  | [] => Ok s
  | x :: l => s' ← f s x; for_each f l s'
  end.

(** Guard [if c { return Err(e) }]. *)
Definition fail_if {E} (c : bool) (e : E) : res E () :=
  if c then Err e else Ok ().

(** ** Slice access *)

(** [l[i]]: panics out of range. *)
Definition vget {E A} (l : list A) (i : nat) : res E A := or_panic (l !! i).

(** [l[i] = x]: panics out of range. *)
Definition vset {E A} (l : list A) (i : nat) (x : A) : res E (list A) :=
  if decide (i < length l) then Ok (<[i := x]> l) else Panic.

(** [&l[a..b]]: panics when [a > b] or [b > l.len()]. *)
Definition vslice {E A} (l : list A) (a b : nat) : res E (list A) :=
  if decide (a ≤ b ∧ b ≤ length l) then Ok (take (b - a) (drop a l)) else Panic.

(** [l[a..a + s.len()].copy_from_slice(s)]: panics when the range leaves [l]. *)
Definition vcopy {E A} (l : list A) (a : nat) (s : list A) : res E (list A) :=
  if decide (a + length s ≤ length l)
  then Ok (take a l ++ s ++ drop (a + length s) l)
  else Panic.

Section res_lemmas.
Context {E : Type}.

Lemma bind_Ok {A B} (f : A → res E B) a : (Ok a ≫= f) = f a.
Proof. done. Qed.

Lemma bind_Ok_inv {A B} (m : res E A) (f : A → res E B) b :
  (m ≫= f) = Ok b ↔ ∃ a, m = Ok a ∧ f a = Ok b.
Proof. destruct m; naive_solver. Qed.

Lemma Ok_inj {A} (a b : A) : Ok (E:=E) a = Ok b → a = b.
Proof. by intros [= ->]. Qed.

Lemma ok_or_Ok {A} (e : E) (o : option A) a : ok_or e o = Ok a ↔ o = Some a.
Proof. destruct o; naive_solver. Qed.

Lemma or_panic_Ok {A} (o : option A) (a : A) :
  or_panic (E:=E) o = Ok a ↔ o = Some a.
Proof. destruct o; naive_solver. Qed.

Lemma fail_if_Ok (c : bool) (e : E) u : fail_if c e = Ok u ↔ c = false.
Proof. destruct c, u; naive_solver. Qed.

Lemma vget_Ok {A} (l : list A) i (x : A) :
  vget (E:=E) l i = Ok x ↔ l !! i = Some x.
Proof. apply or_panic_Ok. Qed.

Lemma vset_Ok {A} (l : list A) i (x : A) l' :
  vset (E:=E) l i x = Ok l' ↔ i < length l ∧ l' = <[i := x]> l.
Proof. unfold vset. case_decide; naive_solver. Qed.

Lemma vset_lt {A} (l : list A) i (x : A) : i < length l → vset (E:=E) l i x = Ok (<[i := x]> l).
Proof. intros Hi. unfold vset. by rewrite decide_True. Qed.

Lemma vslice_Ok {A} (l : list A) a b l' :
  vslice (E:=E) l a b = Ok l' ↔
  (a ≤ b ∧ b ≤ length l) ∧ l' = take (b - a) (drop a l).
Proof. unfold vslice. case_decide; naive_solver. Qed.

Lemma vcopy_Ok {A} (l : list A) a (s : list A) l' :
  vcopy (E:=E) l a s = Ok l' ↔
  a + length s ≤ length l ∧ l' = take a l ++ s ++ drop (a + length s) l.
Proof. unfold vcopy. case_decide; naive_solver. Qed.

Lemma map_err_Ok {F A} (f : E → F) (m : res E A) a :
  map_err f m = Ok a ↔ m = Ok a.
Proof. destruct m; naive_solver. Qed.

Lemma map_err_Err {F A} (f : E → F) (m : res E A) e :
  map_err f m = Err e ↔ ∃ e', m = Err e' ∧ e = f e'.
Proof. destruct m; naive_solver. Qed.

Lemma for_each_app {A S} (f : S → A → res E S) l1 l2 s :
  for_each f (l1 ++ l2) s = (for_each f l1 s ≫= for_each f l2).
Proof. revert s. induction l1 as [|x l1 IH]; intros s; [done|]; simpl. destruct (f s x); simpl; auto. Qed.

(** Loop rule: an invariant over the processed prefix, kept by every
    iteration, makes the loop return and holds at its end. *)
Lemma for_each_inv {A S} (I : list A → S → Prop) (f : S → A → res E S) l s :
  I [] s →
  (∀ pre x post s, l = pre ++ x :: post → I pre s →
    ∃ s', f s x = Ok s' ∧ I (pre ++ [x]) s') →
  ∃ s', for_each f l s = Ok s' ∧ I l s'.
Proof.
  intros HI Hstep.
  cut (∀ suf pre s, l = pre ++ suf → I pre s →
    ∃ s', for_each f suf s = Ok s' ∧ I l s'); [intros Hc; by apply (Hc l [])|].
  clear s HI. induction suf as [|x suf IH]; intros pre s -> HI.
  - exists s. by rewrite app_nil_r.
  - destruct (Hstep pre x suf s) as (s' & Hf & HI'); [done..|]. simpl.
    rewrite Hf. simpl. apply (IH (pre ++ [x])); [by rewrite <-app_assoc|done].
Qed.

(** The same rule for a loop that may leave early: what holds at every
    normal end of the loop. *)
Lemma for_each_inv_Ok {A S} (I : list A → S → Prop) (f : S → A → res E S) l s s' :
  I [] s →
  (∀ pre x post s s', l = pre ++ x :: post → I pre s → f s x = Ok s' →
    I (pre ++ [x]) s') →
  for_each f l s = Ok s' → I l s'.
Proof.
  intros HI Hstep.
  cut (∀ suf pre s, l = pre ++ suf → I pre s →
    for_each f suf s = Ok s' → I l s'); [intros Hc; by apply (Hc l [])|].
  clear s HI. induction suf as [|x suf IH]; intros pre s -> HI; simpl.
  - intros [= ->]. by rewrite app_nil_r.
  - intros (s1 & Hf & Hrest)%bind_Ok_inv.
    apply (IH (pre ++ [x]) s1); [by rewrite <-app_assoc| |done].
    by eapply Hstep.
Qed.

(** A loop that ends in an error did so at some element, after a normal run
    over the elements before it. *)
Lemma for_each_Err {A S} (f : S → A → res E S) l s e :
  for_each f l s = Err e →
  ∃ pre x post s', l = pre ++ x :: post ∧ for_each f pre s = Ok s' ∧ f s' x = Err e.
Proof.
  revert s. induction l as [|x l IH]; intros s; simpl; [done|].
  destruct (f s x) as [s1|e1| |] eqn:Hf; simpl; try done.
  - intros (pre & y & post & s' & -> & Hpre & Hy)%IH.
    exists (x :: pre), y, post, s'. simpl. by rewrite Hf.
  - intros [= ->]. by exists [], x, l, s.
Qed.

(** *** Code that always returns, normally or with a typed error *)

Definition returns {A} (m : res E A) : Prop :=
  match m with Ok _ | Err _ => True | Panic | NoFuel => False end.

Lemma returns_Ok {A} (a : A) : returns (Ok a).
Proof. done. Qed.
Lemma returns_Err {A} (e : E) : returns (A:=A) (Err e).
Proof. done. Qed.
Lemma returns_mret {A} (a : A) : returns (mret a).
Proof. done. Qed.
Lemma returns_ok_or {A} (e : E) (o : option A) : returns (ok_or e o).
Proof. by destruct o. Qed.
Lemma returns_fail_if c (e : E) : returns (fail_if c e).
Proof. by destruct c. Qed.

Lemma returns_bind {A B} (m : res E A) (f : A → res E B) :
  returns m → (∀ a, m = Ok a → returns (f a)) → returns (m ≫= f).
Proof. destruct m; simpl; auto. Qed.

Lemma returns_for_each {A S} (f : S → A → res E S) l s :
  (∀ s x, x ∈ l → returns (f s x)) → returns (for_each f l s).
Proof.
  revert s. induction l as [|x l IH]; intros s Hf; simpl; [done|].
  apply returns_bind; [apply Hf; set_solver|]. intros s' _. apply IH. set_solver.
Qed.
End res_lemmas.

Lemma returns_map_err {E F A} (f : E → F) (m : res E A) : returns m → returns (map_err f m).
Proof. by destruct m. Qed.

(** [res_inv] opens every hypothesis [m ≫= f = Ok b] and the slice and
    option operations under it. *)
Ltac res_inv :=
  repeat match goal with
  | H : mbind _ _ = Ok _ |- _ => apply bind_Ok_inv in H as (? & ? & ?)
  | H : mret _ = Ok _ |- _ => injection H as H
  | H : Ok _ = Ok _ |- _ => injection H as H
  | H : Err _ = Ok _ |- _ => discriminate H
  | H : Panic = Ok _ |- _ => discriminate H
  | H : NoFuel = Ok _ |- _ => discriminate H
  | H : fail_if _ _ = Ok _ |- _ => apply fail_if_Ok in H
  | H : ok_or _ _ = Ok _ |- _ => apply ok_or_Ok in H
  | H : or_panic _ = Ok _ |- _ => apply or_panic_Ok in H
  | H : vget _ _ = Ok _ |- _ => apply vget_Ok in H
  | H : vset _ _ _ = Ok _ |- _ => apply vset_Ok in H as [? H]
  | H : vslice _ _ _ = Ok _ |- _ => apply vslice_Ok in H as [[? ?] H]
  | H : vcopy _ _ _ = Ok _ |- _ => apply vcopy_Ok in H as [? H]
  | H : map_err _ _ = Ok _ |- _ => apply map_err_Ok in H
  end; subst.

(** ** Machine integers

    Every machine integer is a [Z]; the width's wrap-around or check is
    written where the code has it. [usize] is the only width that depends on
    the compilation target. *)

Definition u8_max : Z := 2 ^ 8 - 1.
Definition u16_max : Z := 2 ^ 16 - 1.
Definition u32_max : Z := 2 ^ 32 - 1.
Definition u64_max : Z := 2 ^ 64 - 1.

Class Target := {
  usize_bits : Z;
  usize_bits_cases : usize_bits = 16%Z ∨ usize_bits = 32%Z ∨ usize_bits = 64%Z
}.

Definition usize_max `{Target} : Z := 2 ^ usize_bits - 1.

Definition target64 : Target := {| usize_bits := 64; usize_bits_cases := or_intror (or_intror eq_refl) |}.
Definition target32 : Target := {| usize_bits := 32; usize_bits_cases := or_intror (or_introl eq_refl) |}.

(** [uN::try_from(v)] for an unsigned source value. *)
Definition try_into (max v : Z) : option Z := if (v <=? max)%Z then Some v else None.
Definition checked_add (max a b : Z) : option Z := try_into max (a + b)%Z.
Definition checked_mul (max a b : Z) : option Z := try_into max (a * b)%Z.
Definition saturating_add (max a b : Z) : Z := Z.min max (a + b).
Definition saturating_mul (max a b : Z) : Z := Z.min max (a * b).

(** [l.len()] as a [usize]. *)
Definition zlen {A} (l : list A) : Z := Z.of_nat (length l).

Lemma try_into_Some max v v' : try_into max v = Some v' ↔ (v ≤ max)%Z ∧ v' = v.
Proof. unfold try_into. destruct (Z.leb_spec v max); naive_solver lia. Qed.

Lemma try_into_None max v : try_into max v = None ↔ (max < v)%Z.
Proof. unfold try_into. destruct (Z.leb_spec v max); naive_solver lia. Qed.

Lemma try_into_fits max v : (v ≤ max)%Z → try_into max v = Some v.
Proof. intros ?. by apply try_into_Some. Qed.

Lemma checked_add_Some max a b c :
  checked_add max a b = Some c ↔ (a + b ≤ max)%Z ∧ c = (a + b)%Z.
Proof. apply try_into_Some. Qed.

Lemma checked_mul_Some max a b c :
  checked_mul max a b = Some c ↔ (a * b ≤ max)%Z ∧ c = (a * b)%Z.
Proof. apply try_into_Some. Qed.

Lemma checked_add_fits max a b : (a + b ≤ max)%Z → checked_add max a b = Some (a + b)%Z.
Proof. apply try_into_fits. Qed.

Lemma checked_mul_fits max a b : (a * b ≤ max)%Z → checked_mul max a b = Some (a * b)%Z.
Proof. apply try_into_fits. Qed.

Lemma usize_max_bounds `{Target} : (2 ^ 16 - 1 ≤ usize_max ≤ 2 ^ 64 - 1)%Z.
Proof. unfold usize_max. destruct usize_bits_cases as [->|[->| ->]]; lia. Qed.

Lemma zlen_nonneg {A} (l : list A) : (0 ≤ zlen l)%Z.
Proof. unfold zlen; lia. Qed.

Lemma zlen_app {A} (l k : list A) : zlen (l ++ k) = (zlen l + zlen k)%Z.
Proof. unfold zlen. rewrite length_app. lia. Qed.

(** [slice.get(a..b)]. *)
Definition get_range {A} (l : list A) (a b : Z) : option (list A) :=
  if decide (a ≤ b ∧ b ≤ zlen l)%Z then Some (take (Z.to_nat (b - a)) (drop (Z.to_nat a) l)) else None.

Lemma get_range_middle {A} (pre run post : list A) :
  get_range (pre ++ run ++ post) (zlen pre) (zlen pre + zlen run) = Some run.
Proof.
  unfold get_range. pose proof (zlen_nonneg pre). pose proof (zlen_nonneg run). pose proof (zlen_nonneg post).
  rewrite decide_True by (rewrite !zlen_app; lia). f_equal. unfold zlen. rewrite Nat2Z.id.
  rewrite drop_app_length. replace (Z.to_nat _) with (length run) by lia. apply take_app_length.
Qed.

(** ** Growing a [Vec<u8>]

    A capacity above [isize::MAX] bytes panics; running out of memory is not
    modelled. *)

Definition isize_max `{Target} : Z := 2 ^ (usize_bits - 1) - 1.

Definition vec_with_capacity `{Target} {E} (n : Z) : res E () :=
  if decide (n ≤ isize_max)%Z then Ok () else Panic.

(** [v.resize(n, x)]. *)
Definition vec_resize `{Target} {E A} (l : list A) (n : Z) (x : A) : res E (list A) :=
  if decide (n ≤ isize_max)%Z then Ok (resize (Z.to_nat n) x l) else Panic.

(** [v.extend_from_slice(s)]. *)
Definition vec_extend `{Target} {E A} (l s : list A) : res E (list A) :=
  if decide (zlen l + zlen s ≤ isize_max)%Z then Ok (l ++ s) else Panic.

Lemma isize_usize_max `{Target} : (2 ^ 15 - 1 ≤ isize_max ∧ 2 * isize_max + 1 = usize_max)%Z.
Proof. unfold isize_max, usize_max. destruct usize_bits_cases as [->|[->| ->]]; lia. Qed.

Lemma vec_resize_Ok `{Target} {E A} (l : list A) n x l' :
  vec_resize (E:=E) l n x = Ok l' ↔ (n ≤ isize_max)%Z ∧ l' = resize (Z.to_nat n) x l.
Proof. unfold vec_resize. case_decide; naive_solver. Qed.

Lemma vec_extend_Ok `{Target} {E A} (l s l' : list A) :
  vec_extend (E:=E) l s = Ok l' ↔ (zlen l + zlen s ≤ isize_max)%Z ∧ l' = l ++ s.
Proof. unfold vec_extend. case_decide; naive_solver. Qed.

(** ** Sorted lists by index *)

Lemma StronglySorted_lookup {A} (R : A → A → Prop) l :
  StronglySorted R l ↔
  ∀ i j x y, i < j → l !! i = Some x → l !! j = Some y → R x y.
Proof.
  induction l as [|z l IH]; [split; [done|constructor]|].
  rewrite StronglySorted_cons, IH, Forall_forall. split.
  - intros [Hz Hl] [|i] [|j] x y ? Hx Hy; simplify_eq/=; [lia| |lia|].
    + apply Hz. by eapply list_elem_of_lookup_2.
    + eapply Hl; [|done..]. lia.
  - intros H. split.
    + intros y [j Hj]%list_elem_of_lookup. by apply (H 0 (S j) z y); [lia|..].
    + intros i j x y ???. by apply (H (S i) (S j) x y); [lia|..].
Qed.

(** ** Bytes *)

Abbreviation byte := Init.Byte.byte.
Abbreviation byte_val := Byte.byte.unsigned.
Abbreviation byte_of := Byte.byte.of_Z.
Abbreviation le_bytes := LittleEndianList.le_split.
Abbreviation le_val := LittleEndianList.le_combine.

#[export] Instance byte_eq_dec : EqDecision byte.
Proof. intros x y. apply Byte.byte_eq_dec. Defined.

Lemma le_val_bytes n z : (0 ≤ z < 2 ^ (8 * Z.of_nat n))%Z → le_val (le_bytes n z) = z.
Proof.
  intros Hz. rewrite LittleEndianList.le_combine_split.
  apply Z.mod_small. by rewrite Z.mul_comm.
Qed.

Lemma le_bytes_val n bs : length bs = n → le_bytes n (le_val bs) = bs.
Proof. apply LittleEndianList.split_le_combine'. Qed.

Lemma length_le_bytes n z : length (le_bytes n z) = n.
Proof. apply LittleEndianList.length_le_split. Qed.

Lemma le_val_bound n bs :
  length bs = n → (0 ≤ le_val bs < 2 ^ (8 * Z.of_nat n))%Z.
Proof. intros <-. apply LittleEndianList.le_combine_bound. Qed.

(** ** Automation *)

Create HintDb oxg discriminated.
#[export] Hint Resolve zlen_nonneg : oxg.
#[export] Hint Resolve returns_Ok returns_Err returns_mret returns_ok_or returns_fail_if
  returns_bind returns_for_each returns_map_err : oxg.
#[export] Hint Rewrite @zlen_app length_le_bytes @length_app @length_cons @length_nil
  @length_insert @length_replicate @length_fmap @length_take @length_drop : lens.

(** Length arithmetic: normalise lengths, then [lia]. *)
Ltac len := autorewrite with lens in *; simpl in *; lia.

(** ** [slice::binary_search_by] of the standard library

    [cmp i] compares element [i] with the target; the loop halves [size] while
    it exceeds one. The fuel is the initial size, which drops every round. *)

Fixpoint binary_search_base (fuel : nat) (cmp : nat → comparison) (base size : nat) : nat :=
  match fuel with
  | O => base
  | S fuel =>
      if decide (size ≤ 1) then base
      else
        let half := size / 2 in
        let mid := base + half in
        binary_search_base fuel cmp (match cmp mid with Gt => base | _ => mid end) (size - half)
  end.

Definition binary_search (len : nat) (cmp : nat → comparison) : option nat :=
  if decide (len = 0) then None
  else
    let base := binary_search_base len cmp 0 len in
    match cmp base with Eq => Some base | _ => None end.

Lemma binary_search_base_spec (key : nat → Z) (target : Z) fuel base size j :
  (∀ a b, base ≤ a → a < b → b < base + size → (key a < key b)%Z) →
  1 ≤ size ≤ fuel → base ≤ j < base + size → key j = target →
  binary_search_base fuel (λ i, Z.compare (key i) target) base size = j.
Proof.
  revert base size. induction fuel as [|fuel IH]; intros base size Hmono Hsize Hj Hkey; [lia|].
  cbn [binary_search_base]. cbv zeta. case_decide; [lia|].
  pose proof (Nat.div_lt size 2 ltac:(lia) ltac:(lia)).
  assert (1 ≤ size / 2) by (apply Nat.div_le_lower_bound; lia).
  pose proof (Nat.mul_div_le size 2 ltac:(lia)).
  set (half := size / 2) in *.
  destruct (Z.compare_spec (key (base + half)) target) as [He|He|He].
  - assert (j = base + half) as ->.
    { destruct (Nat.lt_trichotomy j (base + half)) as [Hlt|[->|Hlt]]; [|done|].
      - pose proof (Hmono j (base + half) ltac:(lia) ltac:(lia) ltac:(lia)). lia.
      - pose proof (Hmono (base + half) j ltac:(lia) ltac:(lia) ltac:(lia)). lia. }
    apply IH; [|lia..|done]. intros a b ???. apply Hmono; lia.
  - apply IH; [|lia| |done]; [intros a b ???; apply Hmono; lia|].
    destruct (decide (base + half ≤ j)); [lia|].
    pose proof (Hmono j (base + half) ltac:(lia) ltac:(lia) ltac:(lia)). lia.
  - apply IH; [|lia| |done]; [intros a b ???; apply Hmono; lia|].
    destruct (decide (j < base + half)); [lia|].
    destruct (decide (j = base + half)) as [->|]; [lia|].
    pose proof (Hmono (base + half) j ltac:(lia) ltac:(lia) ltac:(lia)). lia.
Qed.

(** On strictly ascending keys the search finds exactly the target's index. *)
Lemma binary_search_spec (key : nat → Z) (target : Z) len :
  (∀ a b, a < b → b < len → (key a < key b)%Z) →
  ∀ j, binary_search len (λ i, Z.compare (key i) target) = Some j ↔ j < len ∧ key j = target.
Proof.
  intros Hmono j. unfold binary_search. case_decide as Hlen; [naive_solver lia|].
  assert (∀ i, i < len → key i = target →
    binary_search_base len (λ i, Z.compare (key i) target) 0 len = i) as Hfind.
  { intros i Hi Hk. apply binary_search_base_spec; [|lia..|done]. intros a b ???. apply Hmono; lia. }
  split.
  - destruct (Z.compare_spec (key (binary_search_base len (λ i, Z.compare (key i) target) 0 len)) target)
      as [He| |]; [|done..].
    intros [= <-]. split; [|done]. clear -Hlen.
    cut (∀ fuel base size, 1 ≤ size → base + size ≤ len →
      binary_search_base fuel (λ i, Z.compare (key i) target) base size < len); [intros Hc; apply Hc; lia|].
    induction fuel as [|fuel IH]; intros base size H1 H2;
      cbn [binary_search_base]; cbv zeta; [lia|].
    case_decide; [lia|]. pose proof (Nat.div_lt size 2 ltac:(lia) ltac:(lia)).
    assert (1 ≤ size / 2) by (apply Nat.div_le_lower_bound; lia).
    case_match; apply IH; lia.
  - intros [Hj Hk]. rewrite (Hfind j Hj Hk), Hk, Z.compare_refl. done.
Qed.
