(* ===== verification/Bytes.v ===== *)
(** * Bytes: fields of byte strings

    The fixed-size records of the on-disk formats are read field by field:
    [field bs off n] is the [n] bytes at [off]. The [repr(C)] records of the
    formats are rows of little-endian words of four or eight bytes; their codec is
    written once, over the widths of the fields, and a record type is an instance
    of [WireRecord]. Shared by every codec. *)

From stdpp Require Import base list.
From S2P Require Import Prelude.

Local Open Scope Z_scope.

Definition is_uint (bits v : Z) : Prop := 0 ≤ v < 2 ^ bits.

(** [n] bytes at offset [off] of a record. *)
Definition field (bs : list byte) (off n : nat) : list byte := take n (drop off bs).

Lemma field_app_l (a b : list byte) off n :
  (off + n ≤ length a)%nat → field (a ++ b) off n = field a off n.
Proof. intros H. unfold field. rewrite drop_app_le, take_app_le by (rewrite ?length_drop; lia). done. Qed.

Lemma field_app_r (a b : list byte) off n :
  (length a ≤ off)%nat → field (a ++ b) off n = field b (off - length a) n.
Proof. intros H. unfold field. by rewrite drop_app_ge. Qed.

Lemma field_full (a : list byte) n : length a = n → field a 0 n = a.
Proof. intros <-. unfold field. by rewrite drop_0, firstn_all. Qed.

Lemma field_head (a b : list byte) n : length a = n → field (a ++ b) 0 n = a.
Proof. intros H. rewrite field_app_l by lia. by apply field_full. Qed.

(** A field behind the leading fields of a record. *)
Lemma field_skip (a b : list byte) off n m :
  length a = m → (m ≤ off)%nat → field (a ++ b) off n = field b (off - m) n.
Proof. intros <- ?. by apply field_app_r. Qed.

Lemma length_field (bs : list byte) off n :
  (off + n ≤ length bs)%nat → length (field bs off n) = n.
Proof. intros. unfold field. rewrite length_take, length_drop. lia. Qed.

Lemma field_field (bs : list byte) o1 n1 o2 n2 :
  (o2 + n2 ≤ n1)%nat → field (field bs o1 n1) o2 n2 = field bs (o1 + o2) n2.
Proof.
  intros H. unfold field. rewrite skipn_firstn_comm, take_take, drop_drop. f_equal. lia.
Qed.

Lemma le_field n z : is_uint (8 * Z.of_nat n) z → le_val (le_bytes n z) = z.
Proof. apply le_val_bytes. Qed.

Ltac field_side := rewrite ?length_le_bytes; first [lia|done].
Ltac skip_field k := rewrite field_skip with (m := k) by field_side.
Ltac solve_field :=
  repeat first [skip_field 8%nat|skip_field 4%nat|skip_field 2%nat|skip_field 1%nat];
  match goal with |- context [field _ ?o _] => let o' := eval vm_compute in o in change o with o' end;
  first [rewrite field_head by field_side|rewrite field_full by field_side];
  try (by apply le_field); try done.

(** Fields of bytes read back, and adjacent fields joined. *)
Lemma le_val_field bs off n : is_uint (8 * Z.of_nat n) (le_val (field bs off n)).
Proof.
  unfold is_uint. pose proof (LittleEndianList.le_combine_bound (field bs off n)) as [? H].
  split; [done|]. eapply Z.lt_le_trans; [exact H|]. apply Z.pow_le_mono_r; [lia|].
  unfold field. rewrite length_take. lia.
Qed.

Lemma bytes_8 (bs : list byte) a b : (a + b ≤ length bs)%nat →
  le_bytes b (le_val (field bs a b)) = field bs a b.
Proof. intros. apply le_bytes_val. by apply length_field. Qed.

Lemma field_split bs off n off' m :
  off' = (off + n)%nat → field bs off n ++ field bs off' m = field bs off (n + m).
Proof.
  intros ->. unfold field. rewrite <-drop_drop, <-(take_drop n (take (n + m) (drop off bs))).
  rewrite take_take, Nat.min_l by lia. f_equal. rewrite skipn_firstn_comm. f_equal. lia.
Qed.

(** ** Runs of records of one size *)

(** [bs.chunks_exact(k)], the first [n] of them. *)
Definition chunks (k n : nat) (bs : list byte) : list (list byte) := (λ i, field bs (k * i) k) <$> seq 0 n.

Lemma length_chunks k n bs : length (chunks k n bs) = n.
Proof. unfold chunks. by rewrite length_fmap, length_seq. Qed.

Lemma length_concat_all {A} k (l : list (list A)) :
  Forall (λ c, length c = k) l → length (concat l) = (k * length l)%nat.
Proof. induction 1 as [|c l Hc _ IH]; [cbn; lia|]. cbn [concat length]. rewrite length_app, IH, Hc. lia. Qed.

Lemma chunks_cons k n c rest : length c = k → chunks k (S n) (c ++ rest) = c :: chunks k n rest.
Proof.
  intros Hc. unfold chunks. cbn [seq fmap list_fmap]. f_equal.
  - rewrite Nat.mul_0_r. by apply field_head.
  - rewrite <-fmap_S_seq, <-list_fmap_compose. apply list_fmap_ext. intros _ i _. cbn [compose].
    unfold compose. rewrite field_app_r by lia. f_equal. lia.
Qed.

Lemma chunks_concat k l rest :
  Forall (λ c, length c = k) l → chunks k (length l) (concat l ++ rest) = l.
Proof.
  induction 1 as [|c l Hc _ IH]; [done|]. cbn [concat length]. rewrite <-app_assoc, chunks_cons by done. by rewrite IH.
Qed.

Lemma concat_chunks k n bs : length bs = (k * n)%nat → concat (chunks k n bs) = bs.
Proof.
  revert bs. induction n as [|n IH]; intros bs Hl.
  - cbn. symmetry. apply nil_length_inv. lia.
  - rewrite <-(take_drop k bs) at 1. rewrite chunks_cons by (rewrite length_take; lia). cbn [concat].
    rewrite IH by (rewrite length_drop; lia). apply take_drop.
Qed.

Lemma chunks_length k n bs : (k * n ≤ length bs)%nat → Forall (λ c, length c = k) (chunks k n bs).
Proof.
  intros Hl. unfold chunks. apply Forall_fmap, Forall_forall. intros i Hi%elem_of_seq. cbn [compose].
  unfold compose. apply length_field. nia.
Qed.

(** ** Runs of little-endian words *)

Definition words_bytes (k : nat) (ws : list Z) : list byte := concat (le_bytes k <$> ws).
Definition words_of (k n : nat) (bs : list byte) : list Z := le_val <$> chunks k n bs.

Lemma length_words_bytes k ws : length (words_bytes k ws) = (k * length ws)%nat.
Proof.
  unfold words_bytes. rewrite (length_concat_all k), length_fmap; [done|].
  apply Forall_fmap, Forall_forall. intros w _. cbn. apply length_le_bytes.
Qed.

Lemma words_codec k ws rest :
  Forall (is_uint (8 * Z.of_nat k)) ws → words_of k (length ws) (words_bytes k ws ++ rest) = ws.
Proof.
  intros Hws. unfold words_of, words_bytes. rewrite <-(length_fmap (le_bytes k)), chunks_concat.
  - rewrite <-list_fmap_compose. rewrite <-(list_fmap_id ws) at 2. apply list_fmap_ext. intros i w Hw.
    cbn [compose]. unfold compose. apply le_field. by eapply Forall_lookup_1.
  - apply Forall_fmap, Forall_forall. intros w _. cbn. apply length_le_bytes.
Qed.

Lemma words_codec_back k n bs : length bs = (k * n)%nat → words_bytes k (words_of k n bs) = bs.
Proof.
  intros Hl. unfold words_of, words_bytes. rewrite <-list_fmap_compose.
  rewrite <-(concat_chunks k n bs) at 2 by done. f_equal. rewrite <-(list_fmap_id (chunks k n bs)) at 2.
  apply list_fmap_ext. intros i c Hc. cbn [compose]. unfold compose. apply le_bytes_val.
  apply (Forall_lookup_1 _ _ i c (chunks_length k n bs ltac:(lia)) Hc).
Qed.

Lemma words_of_fit k n bs : Forall (is_uint (8 * Z.of_nat k)) (words_of k n bs).
Proof.
  unfold words_of, chunks. apply Forall_fmap, Forall_fmap, Forall_forall. intros i _. cbn. apply le_val_field.
Qed.

(** ** Rows of words *)

Fixpoint fields_bytes (widths : list nat) (vals : list Z) : list byte :=
  match widths, vals with
  | w :: widths, v :: vals => le_bytes w v ++ fields_bytes widths vals
  | _, _ => []
  end.

Fixpoint fields_of (widths : list nat) (bs : list byte) : list Z :=
  match widths with
  | [] => []
  | w :: widths => le_val (take w bs) :: fields_of widths (drop w bs)
  end.

Definition fields_fit (widths : list nat) (vals : list Z) : Prop :=
  Forall2 (λ w v, is_uint (8 * Z.of_nat w) v) widths vals.

Lemma length_fields_bytes widths vals :
  length widths = length vals → length (fields_bytes widths vals) = sum_list widths.
Proof.
  revert vals. induction widths as [|w widths IH]; intros [|v vals]; cbn; try done.
  intros [= Hl]. by rewrite length_app, length_le_bytes, IH.
Qed.

Lemma fields_codec widths vals rest :
  fields_fit widths vals → fields_of widths (fields_bytes widths vals ++ rest) = vals.
Proof.
  induction 1 as [|w v widths vals Hv _ IH]; [done|]. cbn [fields_bytes fields_of]. rewrite <-app_assoc.
  rewrite take_app_length', drop_app_length' by (by rewrite length_le_bytes).
  f_equal; [by apply le_field|done].
Qed.

(** A record type: the widths of its fields, its words in order, and back. *)
Class WireRecord (T : Type) := {
  wire_widths : list nat;
  wire_fields : T → list Z;
  wire_of_fields : list Z → T;
  wire_arity r : length (wire_fields r) = length wire_widths;
  wire_fields_of r : wire_of_fields (wire_fields r) = r;
  wire_not_empty : (0 < sum_list wire_widths)%nat
}.

(** [size_of::<T>()]. *)
Definition wire_size (T : Type) `{WireRecord T} : nat := sum_list (wire_widths (T := T)).

Section wire.
Context {T : Type} `{WireRecord T}.

(** [as_bytes] and [ref_from_bytes]. *)
Definition wire_bytes (r : T) : list byte := fields_bytes (wire_widths (T := T)) (wire_fields r).
Definition wire_of_bytes (bs : list byte) : T := wire_of_fields (fields_of (wire_widths (T := T)) bs).

(** Every word in the range of its field. *)
Definition wire_fits (r : T) : Prop := fields_fit (wire_widths (T := T)) (wire_fields r).

Lemma length_wire_bytes r : length (wire_bytes r) = wire_size T.
Proof. apply length_fields_bytes. by rewrite wire_arity. Qed.

Lemma wire_codec r : wire_fits r → wire_of_bytes (wire_bytes r) = r.
Proof.
  intros Hr. unfold wire_of_bytes, wire_bytes. rewrite <-(app_nil_r (fields_bytes _ _)), fields_codec by done.
  apply wire_fields_of.
Qed.

(** The bytes of a run of records. *)
Definition records_bytes (rs : list T) : list byte := concat (wire_bytes <$> rs).

Lemma length_records_bytes rs : length (records_bytes rs) = (wire_size T * length rs)%nat.
Proof.
  unfold records_bytes. rewrite (length_concat_all (wire_size T)), length_fmap; [done|].
  apply Forall_fmap, Forall_forall. intros r _. apply length_wire_bytes.
Qed.

Lemma records_bytes_app rs rs' : records_bytes (rs ++ rs') = records_bytes rs ++ records_bytes rs'.
Proof. unfold records_bytes. by rewrite fmap_app, concat_app. Qed.

Lemma records_codec rs rest :
  Forall wire_fits rs → wire_of_bytes <$> chunks (wire_size T) (length rs) (records_bytes rs ++ rest) = rs.
Proof.
  intros Hrs. unfold records_bytes. rewrite <-(length_fmap wire_bytes rs), chunks_concat.
  - rewrite <-list_fmap_compose. rewrite <-(list_fmap_id rs) at 2. apply list_fmap_ext. intros i r Hr.
    cbn [compose]. unfold compose. apply wire_codec. by eapply Forall_lookup_1.
  - apply Forall_fmap, Forall_forall. intros r _. apply length_wire_bytes.
Qed.

End wire.

(** Every word of a record in range. *)
Ltac fit_row := repeat (constructor; [assumption|]); constructor.

(** [U64<LE>]. *)
#[export] Program Instance wire_u64 : WireRecord Z := {|
  wire_widths := [8%nat]; wire_fields w := [w]; wire_of_fields l := match l with [w] => w | _ => 0 end
|}.
Solve All Obligations with first [done|cbn; lia].
