(* ===== verification/Ordered.v ===== *)
(** * Ordered: iteration in key order

    A [BTreeMap] or [BTreeSet] is a finite map or set; what its order adds is
    the order of iteration. [map_iter] and [set_iter] list a map and a set in
    ascending key order, and a strictly ascending list is determined by its
    elements. *)

From stdpp Require Import base gmap sets list sorting lexico.
From S2P Require Import Prelude.

(** The order of a key type ([Ord]). *)
Class KeyOrder (K : Type) `{EqDecision K} := {
  key_le : relation K;
  key_le_dec : RelDecision key_le;
  key_le_total : Total key_le;
  key_le_po : PartialOrder key_le
}.
#[export] Existing Instances key_le_dec key_le_total key_le_po.

Definition key_lt `{KeyOrder K} (a b : K) : Prop := key_le a b ∧ a ≠ b.

#[export] Instance key_lt_dec `{KeyOrder K} (a b : K) : Decision (key_lt a b).
Proof. unfold key_lt. apply _. Defined.

#[export] Instance Z_key_order : KeyOrder Z := {| key_le := Z.le |}.

Section order.
Context `{KeyOrder K}.

Lemma key_lt_trans a b c : key_lt a b → key_lt b c → key_lt a c.
Proof.
  intros [Hab Hn] [Hbc Hn']. split; [by etrans|]. intros ->. apply Hn. by apply (anti_symm key_le).
Qed.

Lemma key_lt_irrefl a : ¬ key_lt a a.
Proof. by intros [_ ?]. Qed.

Lemma key_lt_cases a b : key_lt a b ∨ a = b ∨ key_lt b a.
Proof.
  destruct (decide (a = b)) as [->|Hn]; [by right; left|]. destruct (total key_le a b); [left|right; right]; by split.
Qed.

Lemma key_nlt a b : ¬ key_lt a b ↔ key_le b a.
Proof.
  split.
  - intros Hn. destruct (key_lt_cases a b) as [?|[->|[? _]]]; [done|reflexivity|done].
  - intros Hle [Hle' Hn]. apply Hn. by apply (anti_symm key_le).
Qed.

(** Two strictly ascending lists with the same elements are equal. *)
Lemma ascending_unique {A} (f : A → K) (l k : list A) :
  StronglySorted (λ a b, key_lt (f a) (f b)) l → StronglySorted (λ a b, key_lt (f a) (f b)) k →
  (∀ x, x ∈ l ↔ x ∈ k) → l = k.
Proof.
  intros Hl. revert k. induction Hl as [|a l Hl IH Ha]; intros k Hk Hiff.
  - destruct k as [|b k]; [done|]. exfalso. apply (not_elem_of_nil b), Hiff. by left.
  - destruct Hk as [|b k Hk Hb].
    { exfalso. apply (not_elem_of_nil a), Hiff. by left. }
    rewrite Forall_forall in Ha, Hb.
    assert (a = b) as ->.
    { pose proof (proj1 (Hiff a) ltac:(by left)) as Hab. pose proof (proj2 (Hiff b) ltac:(by left)) as Hba.
      apply elem_of_cons in Hab as [?|Hab], Hba as [?|Hba]; try done.
      destruct (key_lt_irrefl (f a)). by eapply key_lt_trans; [apply Ha|apply Hb]. }
    f_equal. apply IH; [done|]. intros x. split; intros Hx.
    + pose proof (proj1 (Hiff x) ltac:(by right)) as Hx'. apply elem_of_cons in Hx' as [->|?]; [|done].
      by destruct (key_lt_irrefl (f b)); apply Ha.
    + pose proof (proj2 (Hiff x) ltac:(by right)) as Hx'. apply elem_of_cons in Hx' as [->|?]; [|done].
      by destruct (key_lt_irrefl (f b)); apply Hb.
Qed.

Lemma sorted_ascending {A} (f : A → K) (l : list A) :
  StronglySorted (λ a b, key_le (f a) (f b)) l → NoDup (f <$> l) →
  StronglySorted (λ a b, key_lt (f a) (f b)) l.
Proof.
  induction 1 as [|a l Hl IH Ha]; intros Hn; [constructor|]. cbn [fmap list_fmap] in Hn.
  apply NoDup_cons in Hn as [Hna Hn]. constructor; [by apply IH|]. rewrite Forall_forall in *.
  intros b Hb. split; [by apply Ha|]. intros He. apply Hna. rewrite He. by apply list_elem_of_fmap_2.
Qed.

Context `{!Countable K}.

Definition pair_le {V} (p q : K * V) : Prop := key_le p.1 q.1.
#[export] Instance pair_le_dec {V} : RelDecision (pair_le (V:=V)).
Proof. intros p q. apply key_le_dec. Defined.
#[export] Instance pair_le_total {V} : Total (pair_le (V:=V)).
Proof. intros p q. apply (total key_le). Qed.
#[export] Instance pair_le_trans {V} : Transitive (pair_le (V:=V)).
Proof. intros p q r ??. unfold pair_le in *. by etrans. Qed.

Definition set_iter (X : gset K) : list K := merge_sort key_le (elements X).

Definition map_iter {V} (m : gmap K V) : list (K * V) :=
  merge_sort pair_le (map_to_list m).

Lemma elem_of_set_iter X x : x ∈ set_iter X ↔ x ∈ X.
Proof. unfold set_iter. rewrite merge_sort_Permutation. apply elem_of_elements. Qed.

Lemma set_iter_ascending X : StronglySorted key_lt (set_iter X).
Proof.
  apply (sorted_ascending id).
  - apply (StronglySorted_merge_sort key_le).
  - rewrite list_fmap_id. unfold set_iter. rewrite merge_sort_Permutation. apply NoDup_elements.
Qed.

Lemma list_to_set_iter X : list_to_set (set_iter X) = X.
Proof. apply set_eq. intros x. rewrite elem_of_list_to_set. apply elem_of_set_iter. Qed.

Lemma NoDup_set_iter X : NoDup (set_iter X).
Proof. unfold set_iter. rewrite merge_sort_Permutation. apply NoDup_elements. Qed.

Lemma length_set_iter X : length (set_iter X) = size X.
Proof. unfold set_iter. by rewrite (Permutation_length (merge_sort_Permutation _ _)). Qed.

(** [v.sort_unstable(); v.dedup()]. *)
Definition sorted_dedup (l : list K) : list K := set_iter (list_to_set l).

Lemma elem_of_sorted_dedup l x : x ∈ sorted_dedup l ↔ x ∈ l.
Proof. unfold sorted_dedup. by rewrite elem_of_set_iter, elem_of_list_to_set. Qed.

Lemma elem_of_map_iter {V} (m : gmap K V) k v : (k, v) ∈ map_iter m ↔ m !! k = Some v.
Proof. unfold map_iter. rewrite merge_sort_Permutation. apply elem_of_map_to_list. Qed.

Lemma map_iter_ascending {V} (m : gmap K V) : StronglySorted (λ p q, key_lt p.1 q.1) (map_iter m).
Proof.
  apply (sorted_ascending fst).
  - apply (StronglySorted_merge_sort (pair_le (V:=V))).
  - unfold map_iter. rewrite merge_sort_Permutation. apply NoDup_fst_map_to_list.
Qed.

End order.

(** ** Derived orders

    A [#[derive(Ord)]] compares the variant first and then the fields, which is
    the lexicographic order of an injective key. *)

Section derived.
Context `{EqDecision K} `{Lexico B} `{!StrictOrder (@lexico B _)} `{!TrichotomyT (@lexico B _)}.
Context (key : K → B) (key_inj : ∀ a b, key a = key b → a = b).

Definition derived_le (a b : K) : Prop := a = b ∨ lexico (key a) (key b).

#[local] Instance derived_le_dec : RelDecision derived_le.
Proof.
  intros a b. refine (match trichotomyT lexico (key a) (key b) with
    | inleft (left Hlt) => left (or_intror Hlt)
    | inleft (right He) => left (or_introl (key_inj _ _ He))
    | inright Hgt => right _
    end).
  intros [->|Hlt]; [by apply (irreflexivity lexico (key b))|].
  apply (irreflexivity lexico (key a)). by etrans.
Defined.

Definition derived_order : KeyOrder K.
Proof.
  refine {| key_le := derived_le; key_le_dec := derived_le_dec |}.
  - intros a b. destruct (trichotomyT lexico (key a) (key b)) as [[?|He]|?].
    + left. by right.
    + left. left. by apply key_inj.
    + right. by right.
  - split; [split|].
    + intros a. by left.
    + intros a b c [->|Hab] [->|Hbc]; [by left|by right..|right; by etrans].
    + intros a b [->|Hab] [?|Hba]; try done. destruct (irreflexivity lexico (key a)). by etrans.
Defined.

Lemma derived_lt (a b : K) : @key_lt K _ derived_order a b ↔ lexico (key a) (key b).
Proof.
  unfold key_lt. cbn. split; [by intros [[->|?] ?]|]. intros Hlt. split; [by right|]. intros ->.
  by apply (irreflexivity lexico (key b)).
Qed.

Lemma derived_le_lt (a b : K) : @key_le K _ derived_order a b ↔ a = b ∨ lexico (key a) (key b).
Proof. done. Qed.

End derived.
