(* ===== verification/DbError.v ===== *)
(** * DbError: the error types of the database

    Models [crates/oxgraph-db/src/error.rs]. An [io::Error] is opaque, so [Io]
    keeps the operation only; [Display] texts are not modelled. *)

From Stdlib Require Import String.
From stdpp Require Import base gmap sets list strings.
From S2P Require Import Prelude.

Inductive IdFamily :=
  | FamilyElement | FamilyRelation | FamilyIncidence | FamilyRole | FamilyLabel | FamilyRelationType
  | FamilyPropertyKey | FamilyProjection | FamilyIndex.

Inductive StorageError :=
  | AlreadyExists
  | NotFound
  | Io (operation : string)
  | InvalidStore (message : string)
  | UnsupportedFormat (found expected : Z)
  | LogCorrupt (lsn : Z) (reason : string)
  | BaseGenerationMismatch (expected found : Z).

Inductive CatalogError :=
  | UnknownId (family : IdFamily) (id : Z)
  | UnknownName (kind : string) (name : list byte)
  | DuplicateName
  | DuplicateId
  | SchemaConflict (name : list byte) (reason : string).

Inductive TxnError :=
  | WriterLockHeld
  | TxnIdOverflow (family : IdFamily)
  | TransactionIdOverflow
  | CommitSeqOverflow.

(** The variants of the property families and types ([catalog.rs], [value.rs]). *)
Inductive PropertyFamily := FamElement | FamRelation | FamIncidence.
Inductive PropertyType := TypeBoolean | TypeInteger | TypeText.

#[export] Instance property_family_eq_dec : EqDecision PropertyFamily.
Proof. solve_decision. Defined.
#[export] Instance property_type_eq_dec : EqDecision PropertyType.
Proof. solve_decision. Defined.

Inductive QueryError :=
  | QueryEmpty
  | Unsupported (message : string)
  | PropertyTypeMismatch (expected actual : PropertyType)
  | WrongPropertyFamily (expected actual : PropertyFamily)
  | InvalidProjection (message : string)
  | Traversal (reason : string)
  | MissingProperty (key : Z)
  | ValueOutOfRange
  | NoEqualityIndex (key : Z).

Inductive DbError :=
  | Storage (error : StorageError)
  | Catalog_ (error : CatalogError)
  | Txn (error : TxnError)
  | Query (error : QueryError).

Definition invalid_store (message : string) : DbError := Storage (InvalidStore message).
Definition unsupported (message : string) : DbError := Query (Unsupported message).
Definition invalid_projection (message : string) : DbError := Query (InvalidProjection message).
Definition traversal (reason : string) : DbError := Query (Traversal reason).
Definition unknown (family : IdFamily) (id : Z) : DbError := Catalog_ (UnknownId family id).
Definition id_overflow (family : IdFamily) : DbError := Txn (TxnIdOverflow family).
