(* ===== verification/DbWire.v ===== *)
(** * DbWire: values, tags and fixed-size records of the OXGDB formats

    Models the parts of [crates/oxgraph-db/src/wire.rs] shared by the delta log
    and the base, the definition bodies of [wire/defs.rs] and the property
    values of [value.rs]. An id of any family is a [Z] (its [u64]); a string is
    its bytes, which [utf8_valid] accepts. *)

From Stdlib Require Import String.
From stdpp Require Import base gmap sets list strings sorting lexico.
From S2P Require Import Prelude Bytes Ordered DbError.

Local Open Scope Z_scope.

(** ** Strings: [core::str::from_utf8] of the standard library *)

Definition utf8_cont (b : byte) : bool := bool_decide (128 ≤ byte_val b ≤ 191).

(** The well formed byte sequences of the Unicode standard, table 3-7. *)
Fixpoint utf8_valid (bs : list byte) : bool :=
  match bs with
  | [] => true
  | b0 :: r0 =>
      let x := byte_val b0 in
      if decide (x ≤ 127) then utf8_valid r0 else
      match r0 with
      | [] => false
      | b1 :: r1 =>
          let y := byte_val b1 in
          if decide (194 ≤ x ≤ 223) then utf8_cont b1 && utf8_valid r1 else
          match r1 with
          | [] => false
          | b2 :: r2 =>
              if decide (224 ≤ x ≤ 239) then
                bool_decide ((x = 224 → 160 ≤ y) ∧ (x = 237 → y ≤ 159)) && utf8_cont b1 && utf8_cont b2 &&
                utf8_valid r2
              else
              match r2 with
              | [] => false
              | b3 :: r3 =>
                  bool_decide (240 ≤ x ≤ 244 ∧ (x = 240 → 144 ≤ y) ∧ (x = 244 → y ≤ 143)) &&
                  utf8_cont b1 && utf8_cont b2 && utf8_cont b3 && utf8_valid r3
              end
          end
      end
  end.

(** ** Property values *)

Inductive PropertyValue :=
  | PBoolean (b : bool)
  | PInteger (z : Z)
  | PText (s : list byte).

Definition value_type (v : PropertyValue) : PropertyType :=
  match v with PBoolean _ => TypeBoolean | PInteger _ => TypeInteger | PText _ => TypeText end.

(** Values of the Rust type: an [i64] and a valid string. *)
Definition value_wf (v : PropertyValue) : Prop :=
  match v with
  | PBoolean _ => True
  | PInteger z => - 2 ^ 63 ≤ z < 2 ^ 63
  | PText s => utf8_valid s = true
  end.

(** [i64::cast_unsigned] and [u64::cast_signed]. *)
Definition cast_unsigned (z : Z) : Z := z mod 2 ^ 64.
Definition cast_signed (w : Z) : Z := if decide (w < 2 ^ 63) then w else w - 2 ^ 64.

Lemma cast_roundtrip z : - 2 ^ 63 ≤ z < 2 ^ 63 → cast_signed (cast_unsigned z) = z.
Proof.
  intros Hz. unfold cast_signed, cast_unsigned. destruct (decide (0 ≤ z)).
  - rewrite Z.mod_small by lia. by rewrite decide_True by lia.
  - rewrite <-(Z.mod_unique z (2 ^ 64) (-1) (z + 2 ^ 64)) by lia. rewrite decide_False by lia. lia.
Qed.

Lemma cast_unsigned_u64 z : is_uint 64 (cast_unsigned z).
Proof. apply Z.mod_pos_bound. lia. Qed.

(** The derived order: variants first, then their contents. *)
Definition value_key (v : PropertyValue) : Z * list Z :=
  match v with
  | PBoolean b => (0, [if b then 1 else 0])
  | PInteger z => (1, [z])
  | PText s => (2, byte_val <$> s)
  end.

(** ** Subjects *)

Inductive PropertySubject :=
  | SElement (id : Z)
  | SRelation (id : Z)
  | SIncidence (id : Z).

Definition family (s : PropertySubject) : PropertyFamily :=
  match s with SElement _ => FamElement | SRelation _ => FamRelation | SIncidence _ => FamIncidence end.

Definition encode_subject (s : PropertySubject) : Z * Z :=
  match s with SElement id => (0, id) | SRelation id => (1, id) | SIncidence id => (2, id) end.

Definition decode_subject (kind id : Z) : option PropertySubject :=
  if decide (kind = 0) then Some (SElement id) else
  if decide (kind = 1) then Some (SRelation id) else
  if decide (kind = 2) then Some (SIncidence id) else None.

Definition subject_id (s : PropertySubject) : Z := (encode_subject s).2.

Lemma subject_codec s : decode_subject (encode_subject s).1 (encode_subject s).2 = Some s.
Proof. by destruct s. Qed.

(** ** Tags *)

Definition property_family_tag (f : PropertyFamily) : Z :=
  match f with FamElement => 0 | FamRelation => 1 | FamIncidence => 2 end.

Definition property_family_from_tag (tag : Z) : option PropertyFamily :=
  if decide (tag = 0) then Some FamElement else
  if decide (tag = 1) then Some FamRelation else
  if decide (tag = 2) then Some FamIncidence else None.

Definition property_type_tag (t : PropertyType) : Z :=
  match t with TypeBoolean => 0 | TypeInteger => 1 | TypeText => 2 end.

Definition property_type_from_tag (tag : Z) : option PropertyType :=
  if decide (tag = 0) then Some TypeBoolean else
  if decide (tag = 1) then Some TypeInteger else
  if decide (tag = 2) then Some TypeText else None.

Lemma family_tag_codec f : property_family_from_tag (property_family_tag f) = Some f.
Proof. by destruct f. Qed.

Lemma type_tag_codec t : property_type_from_tag (property_type_tag t) = Some t.
Proof. by destruct t. Qed.

Definition RELATION_TYPE_NONE : Z := 0.

Definition encode_relation_type (value : option Z) : Z := default RELATION_TYPE_NONE value.

Definition decode_relation_type (raw : Z) : option Z :=
  if decide (raw = RELATION_TYPE_NONE) then None else Some raw.

Definition pack_flags (low high : Z) : Z :=
  Z.lor (Z.land low 65535) (Z.shiftl (Z.land high 65535) 16).

Definition unpack_flags (flags : Z) : Z * Z := (Z.land flags 65535, Z.shiftr flags 16).

Lemma flags_codec low high :
  is_uint 16 low → is_uint 16 high → unpack_flags (pack_flags low high) = (low, high).
Proof.
  intros Hl Hh. unfold unpack_flags, pack_flags, is_uint in *. change 65535 with (Z.ones 16).
  rewrite (Z.land_ones low), (Z.land_ones high), !(Z.mod_small _ (2 ^ 16)) by lia. f_equal.
  - rewrite Z.land_lor_distr_l, !Z.land_ones by lia. rewrite (Z.mod_small low) by lia.
    rewrite Z.shiftl_mul_pow2, Z.mod_mul by lia. apply Z.lor_0_r.
  - rewrite Z.shiftr_lor, Z.shiftr_shiftl_l by lia. rewrite Z.shiftr_div_pow2, Z.div_small by lia.
    rewrite Z.sub_diag. by rewrite Z.shiftl_0_r.
Qed.

(** ** Keys and orders of subjects and values *)

#[export] Instance property_value_eq_dec : EqDecision PropertyValue.
Proof. solve_decision. Defined.
#[export] Instance property_subject_eq_dec : EqDecision PropertySubject.
Proof. solve_decision. Defined.

#[export] Program Instance byte_countable : Countable byte :=
  inj_countable' byte_val byte_of _.
Next Obligation. intros b. apply Byte.byte.of_Z_unsigned. Qed.

#[export] Program Instance property_subject_countable : Countable PropertySubject :=
  inj_countable encode_subject (λ p, decode_subject p.1 p.2) subject_codec.

#[export] Program Instance property_value_countable : Countable PropertyValue :=
  inj_countable' (λ v, match v with PBoolean b => inl b | PInteger z => inr (inl z) | PText s => inr (inr s) end)
    (λ x, match x with inl b => PBoolean b | inr (inl z) => PInteger z | inr (inr s) => PText s end) _.
Next Obligation. by intros []. Qed.

Lemma encode_subject_inj a b : encode_subject a = encode_subject b → a = b.
Proof. destruct a, b; cbn; congruence. Qed.

Lemma value_key_inj a b : value_key a = value_key b → a = b.
Proof.
  destruct a as [x|x|x], b as [y|y|y]; cbn; try done.
  - by destruct x, y.
  - congruence.
  - intros [= Hxy]. f_equal. revert y Hxy. induction x as [|b x IH]; intros [|c y]; cbn; try done.
    intros [= Hb Hl]. f_equal; [|by apply IH].
    rewrite <-(Byte.byte.of_Z_unsigned b), <-(Byte.byte.of_Z_unsigned c). by rewrite Hb.
Qed.

#[export] Instance subject_order : KeyOrder PropertySubject := derived_order encode_subject encode_subject_inj.
#[export] Instance value_order : KeyOrder PropertyValue := derived_order value_key value_key_inj.
#[export] Instance string_order : KeyOrder (list byte) :=
  derived_order (fmap byte_val) (λ a b H, f_equal (λ v, match v with PText s => s | _ => [] end)
    (value_key_inj (PText a) (PText b) (f_equal (pair 2) H))).

(** ** Log records *)

Definition OXGDB_FORMAT_VERSION : Z := 1.
Definition OXGLOGR : Z := 0x4F584C47.
Definition SUPERBLOCK_MAGIC : list byte :=
  [Byte.x4f; Byte.x58; Byte.x47; Byte.x53; Byte.x55; Byte.x50; Byte.x45; Byte.x52].
Definition MUTATION_OP_PAYLOAD_WORDS : nat := 9.

Definition OP_CREATE_ELEMENT : Z := 1.
Definition OP_TOMBSTONE_ELEMENT : Z := 2.
Definition OP_CREATE_RELATION : Z := 3.
Definition OP_TOMBSTONE_RELATION : Z := 4.
Definition OP_CREATE_INCIDENCE : Z := 5.
Definition OP_TOMBSTONE_INCIDENCE : Z := 6.
Definition OP_SET_RELATION_TYPE : Z := 7.
Definition OP_ADD_ELEMENT_LABEL : Z := 8.
Definition OP_ADD_RELATION_LABEL : Z := 9.
Definition OP_SET_PROPERTY : Z := 10.
Definition OP_REMOVE_PROPERTY : Z := 11.
Definition OP_CATALOG_REGISTER_ROLE : Z := 12.
Definition OP_CATALOG_REGISTER_LABEL : Z := 13.
Definition OP_CATALOG_REGISTER_RELATION_TYPE : Z := 14.
Definition OP_CATALOG_REGISTER_PROPERTY_KEY : Z := 15.
Definition OP_CATALOG_REGISTER_PROJECTION : Z := 16.
Definition OP_CATALOG_REGISTER_INDEX : Z := 17.
Definition OP_NEXT_ID_WATERMARK : Z := 18.

Record LogRecordHeader := {
  h_base_generation : Z;
  h_lsn : Z;
  h_txn_id : Z;
  h_magic : Z;
  h_len : Z;
  h_op_count : Z;
  h_crc32c : Z
}.

Record MutationOp := { op_kind : Z; op_flags : Z; op_payload : list Z }.

Record SuperblockRecord := {
  sb_magic : list byte;
  sb_base_generation : Z;
  sb_checkpoint_lsn : Z;
  sb_log_byte_offset : Z;
  sb_commit_seq : Z;
  sb_transaction_id : Z;
  sb_format_version : Z;
  sb_flags : Z;
  sb_crc32c : Z;
  sb_pad : Z
}.

#[export] Instance mutation_op_eq_dec : EqDecision MutationOp.
Proof. solve_decision. Defined.

(** Sizes of the [repr(C)] layouts. *)
Definition HEADER_LEN : nat := 40.
Definition OP_LEN : nat := 80.
Definition SUPERBLOCK_LEN : nat := 64.
Definition SUPERBLOCK_CRC_PREFIX_LEN : nat := 56.

Definition header_bytes (h : LogRecordHeader) : list byte :=
  le_bytes 8 (h_base_generation h) ++ le_bytes 8 (h_lsn h) ++ le_bytes 8 (h_txn_id h) ++
  le_bytes 4 (h_magic h) ++ le_bytes 4 (h_len h) ++ le_bytes 4 (h_op_count h) ++ le_bytes 4 (h_crc32c h).

Definition read_header (bs : list byte) : LogRecordHeader := {|
  h_base_generation := le_val (field bs 0 8);
  h_lsn := le_val (field bs 8 8);
  h_txn_id := le_val (field bs 16 8);
  h_magic := le_val (field bs 24 4);
  h_len := le_val (field bs 28 4);
  h_op_count := le_val (field bs 32 4);
  h_crc32c := le_val (field bs 36 4)
|}.

Definition op_bytes (op : MutationOp) : list byte :=
  le_bytes 4 (op_kind op) ++ le_bytes 4 (op_flags op) ++ words_bytes 8 (op_payload op).

Definition read_op (bs : list byte) : MutationOp := {|
  op_kind := le_val (field bs 0 4);
  op_flags := le_val (field bs 4 4);
  op_payload := words_of 8 MUTATION_OP_PAYLOAD_WORDS (drop 8 bs)
|}.

Definition superblock_bytes (s : SuperblockRecord) : list byte :=
  sb_magic s ++ le_bytes 8 (sb_base_generation s) ++ le_bytes 8 (sb_checkpoint_lsn s) ++
  le_bytes 8 (sb_log_byte_offset s) ++ le_bytes 8 (sb_commit_seq s) ++ le_bytes 8 (sb_transaction_id s) ++
  le_bytes 4 (sb_format_version s) ++ le_bytes 4 (sb_flags s) ++ le_bytes 4 (sb_crc32c s) ++ le_bytes 4 (sb_pad s).

Definition superblock_of_bytes (bs : list byte) : SuperblockRecord := {|
  sb_magic := field bs 0 8;
  sb_base_generation := le_val (field bs 8 8);
  sb_checkpoint_lsn := le_val (field bs 16 8);
  sb_log_byte_offset := le_val (field bs 24 8);
  sb_commit_seq := le_val (field bs 32 8);
  sb_transaction_id := le_val (field bs 40 8);
  sb_format_version := le_val (field bs 48 4);
  sb_flags := le_val (field bs 52 4);
  sb_crc32c := le_val (field bs 56 4);
  sb_pad := le_val (field bs 60 4)
|}.

(** *** Their codecs *)

Record log_header_wf (h : LogRecordHeader) : Prop := {
  lh_generation : is_uint 64 (h_base_generation h);
  lh_lsn : is_uint 64 (h_lsn h);
  lh_txn : is_uint 64 (h_txn_id h);
  lh_magic : is_uint 32 (h_magic h);
  lh_len : is_uint 32 (h_len h);
  lh_ops : is_uint 32 (h_op_count h);
  lh_crc : is_uint 32 (h_crc32c h)
}.

Record op_wf (op : MutationOp) : Prop := {
  ow_kind : is_uint 32 (op_kind op);
  ow_flags : is_uint 32 (op_flags op);
  ow_words : length (op_payload op) = MUTATION_OP_PAYLOAD_WORDS;
  ow_range : Forall (is_uint 64) (op_payload op)
}.

Record superblock_wf (s : SuperblockRecord) : Prop := {
  sw_magic : length (sb_magic s) = 8%nat;
  sw_generation : is_uint 64 (sb_base_generation s);
  sw_lsn : is_uint 64 (sb_checkpoint_lsn s);
  sw_offset : is_uint 64 (sb_log_byte_offset s);
  sw_commit : is_uint 64 (sb_commit_seq s);
  sw_txn : is_uint 64 (sb_transaction_id s);
  sw_version : is_uint 32 (sb_format_version s);
  sw_flags : is_uint 32 (sb_flags s);
  sw_crc : is_uint 32 (sb_crc32c s);
  sw_pad : is_uint 32 (sb_pad s)
}.

Lemma length_header_bytes h : length (header_bytes h) = HEADER_LEN.
Proof. unfold header_bytes. by rewrite !length_app, !length_le_bytes. Qed.

Lemma length_op_bytes op : length (op_payload op) = MUTATION_OP_PAYLOAD_WORDS → length (op_bytes op) = OP_LEN.
Proof.
  intros Hl. unfold op_bytes. rewrite !length_app, !length_le_bytes, length_words_bytes, Hl. done.
Qed.

Lemma header_roundtrip h rest : log_header_wf h → read_header (header_bytes h ++ rest) = h.
Proof.
  intros [???????]. destruct h as [g l t m n o c]. unfold read_header, header_bytes. cbn [h_base_generation h_lsn
    h_txn_id h_magic h_len h_op_count h_crc32c] in *. rewrite <-!app_assoc. f_equal; solve_field.
Qed.

Lemma header_roundtrip_back bs : length bs = HEADER_LEN → header_bytes (read_header bs) = bs.
Proof.
  intros Hl. unfold header_bytes, read_header. cbn [h_base_generation h_lsn h_txn_id h_magic h_len h_op_count h_crc32c].
  rewrite !bytes_8 by (unfold HEADER_LEN in Hl; lia).
  rewrite (field_split bs 32 4 36) by done. rewrite (field_split bs 28 4 32) by done.
  rewrite (field_split bs 24 4 28) by done. rewrite (field_split bs 16 8 24) by done.
  rewrite (field_split bs 8 8 16) by done. rewrite (field_split bs 0 8 8) by done. by apply field_full.
Qed.

Lemma read_header_wf bs : log_header_wf (read_header bs).
Proof. constructor; first [apply (le_val_field _ _ 8)|apply (le_val_field _ _ 4)]. Qed.

Lemma op_roundtrip op : op_wf op → read_op (op_bytes op) = op.
Proof.
  intros [Hk Hf Hw Hr]. destruct op as [k f p]. unfold read_op, op_bytes. cbn [op_kind op_flags op_payload] in *. f_equal.
  - solve_field.
  - solve_field.
  - rewrite app_assoc, drop_app_length' by (by rewrite length_app, !length_le_bytes).
    rewrite <-Hw, <-(app_nil_r (words_bytes 8 p)). by apply words_codec.
Qed.

Lemma op_roundtrip_back bs : length bs = OP_LEN → op_bytes (read_op bs) = bs.
Proof.
  intros Hl. unfold op_bytes, read_op. cbn [op_kind op_flags op_payload]. unfold OP_LEN in Hl.
  rewrite !bytes_8 by lia. rewrite words_codec_back by (rewrite length_drop; unfold MUTATION_OP_PAYLOAD_WORDS; lia).
  rewrite (app_assoc (field bs 0 4)), (field_split bs 0 4 4) by done. unfold field. rewrite drop_0. apply take_drop.
Qed.

Lemma read_op_wf bs : op_wf (read_op bs).
Proof.
  constructor; cbn [op_kind op_flags op_payload read_op].
  - apply (le_val_field _ _ 4).
  - apply (le_val_field _ _ 4).
  - unfold words_of. by rewrite length_fmap, length_chunks.
  - apply (words_of_fit 8).
Qed.

Lemma superblock_roundtrip s : superblock_wf s → superblock_of_bytes (superblock_bytes s) = s.
Proof.
  intros []. destruct s. unfold superblock_of_bytes, superblock_bytes. cbn [sb_magic sb_base_generation sb_checkpoint_lsn
    sb_log_byte_offset sb_commit_seq sb_transaction_id sb_format_version sb_flags sb_crc32c sb_pad] in *.
  f_equal; solve_field.
Qed.
