(* ===== verification/DbState.v ===== *)
(** * DbState: projection and index definition bodies

    Models [crates/oxgraph-db/src/wire/defs.rs] and the definitions of
    [catalog.rs] it encodes. A body is a run of [u64] words with a kind
    discriminant; an id set is written as its length and its ids in ascending
    order.

    Models [crates/oxgraph-db/src/state.rs] and the state and registrations of
    [catalog.rs]. Ids are [u64] values; a [BTreeMap] is a [gmap] whose iteration
    order is that of [Ordered.map_iter]; an [Arc] is transparent. *)

From Stdlib Require Import String.
From stdpp Require Import base gmap sets list strings.
From S2P Require Import Prelude Bytes Ordered DbError DbWire.

Local Open Scope Z_scope.

Record GraphProjectionDefinition := {
  gp_name : list byte;
  gp_relation_types : gset Z;
  gp_source_role : Z;
  gp_target_role : Z
}.

Record HypergraphProjectionDefinition := {
  hp_name : list byte;
  hp_relation_types : gset Z;
  hp_source_roles : gset Z;
  hp_target_roles : gset Z
}.

Inductive ProjectionDefinition :=
  | GraphProjection (definition : GraphProjectionDefinition)
  | HypergraphProjection (definition : HypergraphProjectionDefinition).

Inductive IndexDefinition :=
  | IndexLabel (label : Z)
  | IndexRelationType (relation_type : Z)
  | IndexPropertyEquality (key : Z)
  | IndexPropertyRange (key : Z)
  | IndexCompositeEquality (keys : list Z)
  | IndexProjection (projection : Z).

Definition projection_name (d : ProjectionDefinition) : list byte :=
  match d with GraphProjection g => gp_name g | HypergraphProjection h => hp_name h end.

Definition DEF_PROJECTION_GRAPH : Z := 0.
Definition DEF_PROJECTION_HYPER : Z := 1.
Definition DEF_INDEX_LABEL : Z := 0.
Definition DEF_INDEX_RELATION_TYPE : Z := 1.
Definition DEF_INDEX_PROPERTY_EQUALITY : Z := 2.
Definition DEF_INDEX_PROPERTY_RANGE : Z := 3.
Definition DEF_INDEX_COMPOSITE_EQUALITY : Z := 4.
Definition DEF_INDEX_PROJECTION : Z := 5.

(** [DefDecodeError] is its reason. *)
Definition DefDecodeError : Type := string.
Definition malformed {A} (reason : string) : res DefDecodeError A := Err reason.

Definition push_id_set (words : list Z) (ids : list Z) : list Z := words ++ [zlen ids] ++ ids.

Section defs.
Context `{!Target}.

(** The ids and the advanced cursor. *)
Definition read_id_set (words : list Z) (cursor : nat) : res DefDecodeError (list Z * nat) :=
  len ← ok_or "def missing id-set length"%string (words !! cursor);
  count ← ok_or "def id-set length overflow"%string (try_into usize_max len);
  let cursor := S cursor in
  end_ ← ok_or "def id-set overflow"%string (checked_add usize_max (Z.of_nat cursor) count);
  if decide (end_ ≤ zlen words)
  then Ok (take (Z.to_nat count) (drop cursor words), Z.to_nat end_)
  else malformed "def id-set out of bounds".

Definition encode_projection_body (d : ProjectionDefinition) : Z * list Z :=
  match d with
  | GraphProjection g =>
      (DEF_PROJECTION_GRAPH,
       push_id_set [gp_source_role g; gp_target_role g] (set_iter (gp_relation_types g)))
  | HypergraphProjection h =>
      (DEF_PROJECTION_HYPER,
       push_id_set (push_id_set (push_id_set [] (set_iter (hp_source_roles h))) (set_iter (hp_target_roles h)))
         (set_iter (hp_relation_types h)))
  end.

Definition encode_index_body (d : IndexDefinition) : Z * list Z :=
  match d with
  | IndexLabel label => (DEF_INDEX_LABEL, [label])
  | IndexRelationType relation_type => (DEF_INDEX_RELATION_TYPE, [relation_type])
  | IndexPropertyEquality key => (DEF_INDEX_PROPERTY_EQUALITY, [key])
  | IndexPropertyRange key => (DEF_INDEX_PROPERTY_RANGE, [key])
  | IndexCompositeEquality keys => (DEF_INDEX_COMPOSITE_EQUALITY, keys)
  | IndexProjection projection => (DEF_INDEX_PROJECTION, [projection])
  end.

Definition decode_projection_body (discriminant : Z) (name : list byte) (words : list Z)
    : res DefDecodeError ProjectionDefinition :=
  if decide (discriminant = DEF_PROJECTION_GRAPH) then
    source_role ← ok_or "graph def missing source role"%string (words !! 0%nat);
    target_role ← ok_or "graph def missing target role"%string (words !! 1%nat);
    '(relation_types, _) ← read_id_set words 2;
    Ok (GraphProjection {| gp_name := name; gp_relation_types := list_to_set relation_types;
          gp_source_role := source_role; gp_target_role := target_role |})
  else if decide (discriminant = DEF_PROJECTION_HYPER) then
    '(source_roles, cursor) ← read_id_set words 0;
    '(target_roles, cursor) ← read_id_set words cursor;
    '(relation_types, _) ← read_id_set words cursor;
    Ok (HypergraphProjection {| hp_name := name; hp_relation_types := list_to_set relation_types;
          hp_source_roles := list_to_set source_roles; hp_target_roles := list_to_set target_roles |})
  else malformed "unknown projection definition kind".

Definition decode_index_body (discriminant : Z) (words : list Z) : res DefDecodeError IndexDefinition :=
  let first := ok_or "index def missing id"%string (words !! 0%nat) in
  if decide (discriminant = DEF_INDEX_LABEL) then (w ← first; Ok (IndexLabel w))
  else if decide (discriminant = DEF_INDEX_RELATION_TYPE) then (w ← first; Ok (IndexRelationType w))
  else if decide (discriminant = DEF_INDEX_PROPERTY_EQUALITY) then (w ← first; Ok (IndexPropertyEquality w))
  else if decide (discriminant = DEF_INDEX_PROPERTY_RANGE) then (w ← first; Ok (IndexPropertyRange w))
  else if decide (discriminant = DEF_INDEX_COMPOSITE_EQUALITY) then Ok (IndexCompositeEquality words)
  else if decide (discriminant = DEF_INDEX_PROJECTION) then (w ← first; Ok (IndexProjection w))
  else malformed "unknown index definition kind".

(** ** Round trips *)

(** Sets as large as memory allows, together with the words before them. *)
Definition body_fits (d : ProjectionDefinition) : Prop := zlen (encode_projection_body d).2 ≤ usize_max.

Lemma read_id_set_at pre ids post :
  zlen (pre ++ [zlen ids] ++ ids) ≤ usize_max →
  read_id_set (pre ++ ([zlen ids] ++ ids) ++ post) (length pre) = Ok (ids, length (pre ++ [zlen ids] ++ ids)).
Proof.
  intros Hfit. rewrite !zlen_app in Hfit. change (zlen [zlen ids]) with 1 in Hfit.
  pose proof (zlen_nonneg pre). pose proof (zlen_nonneg ids). unfold read_id_set.
  change (([zlen ids] ++ ids) ++ post) with (zlen ids :: ids ++ post).
  rewrite list_lookup_middle by done. cbn [ok_or mbind res_bind]. rewrite try_into_fits by lia.
  cbn [ok_or mbind res_bind]. unfold zlen in Hfit.
  rewrite checked_add_fits by (unfold zlen; lia). cbn [ok_or mbind res_bind].
  rewrite decide_True by (unfold zlen; rewrite length_app; cbn [length]; rewrite length_app; lia). do 3 f_equal.
  - rewrite (cons_middle (zlen ids) pre), app_assoc, drop_app_length' by (rewrite length_app; cbn; lia).
    unfold zlen. rewrite Nat2Z.id. by apply take_app_length.
  - unfold zlen. rewrite !length_app. cbn. lia.
Qed.

Lemma projection_body_codec d :
  body_fits d → decode_projection_body (encode_projection_body d).1 (projection_name d) (encode_projection_body d).2 = Ok d.
Proof.
  intros Hfit. unfold body_fits in Hfit. destruct d as [[nm rt sr tr]|[nm rt sr tr]].
  - cbn [encode_projection_body fst snd projection_name gp_name gp_relation_types gp_source_role gp_target_role] in *.
    unfold decode_projection_body, push_id_set in *. cbn [decide]. rewrite decide_True by done. cbn [app lookup list_lookup ok_or mbind res_bind].
    pose proof (read_id_set_at [sr; tr] (set_iter rt) [] Hfit) as Hr. rewrite app_nil_r in Hr. cbn [app length] in Hr.
    rewrite Hr. cbn [mbind res_bind]. by rewrite list_to_set_iter.
  - cbn [encode_projection_body fst snd projection_name hp_name hp_relation_types hp_source_roles hp_target_roles] in *.
    unfold decode_projection_body, push_id_set in *. rewrite decide_False, decide_True by done.
    set (a := [zlen (set_iter sr)] ++ set_iter sr) in *. set (b := [zlen (set_iter tr)] ++ set_iter tr) in *.
    set (c := [zlen (set_iter rt)] ++ set_iter rt) in *. rewrite !zlen_app in Hfit.
    pose proof (zlen_nonneg a). pose proof (zlen_nonneg b). pose proof (zlen_nonneg c).
    change (zlen (@nil Z)) with 0 in Hfit.
    pose proof (read_id_set_at [] (set_iter sr) (b ++ c)) as Ha. fold a in Ha. cbn [app length] in Ha.
    pose proof (read_id_set_at a (set_iter tr) c) as Hb. fold b in Hb.
    pose proof (read_id_set_at (a ++ b) (set_iter rt) []) as Hc. fold c in Hc. rewrite app_nil_r in Hc.
    cbn [app]. rewrite <-app_assoc. rewrite Ha by lia. cbn [mbind res_bind].
    rewrite Hb by (rewrite zlen_app; lia). cbn [mbind res_bind].
    rewrite app_assoc, Hc by (rewrite !zlen_app; lia). cbn [mbind res_bind]. by rewrite !list_to_set_iter.
Qed.

Lemma index_body_codec d : decode_index_body (encode_index_body d).1 (encode_index_body d).2 = Ok d.
Proof. by destruct d. Qed.

Lemma returns_read_id_set words cursor : returns (read_id_set words cursor).
Proof.
  unfold read_id_set. repeat (apply returns_bind; [apply returns_ok_or|intros ? _]). by case_decide.
Qed.

Lemma returns_decode_projection k name words : returns (decode_projection_body k name words).
Proof.
  unfold decode_projection_body. repeat case_decide; try done;
    repeat (apply returns_bind; [first [apply returns_ok_or|apply returns_read_id_set]|intros [] _ || intros ? _]); done.
Qed.

Lemma returns_decode_index k words : returns (decode_index_body k words).
Proof.
  unfold decode_index_body. repeat case_decide; try done; (apply returns_bind; [apply returns_ok_or|done]).
Qed.

(** Definition bodies survive both persistence paths: every projection
    definition whose words fit in memory and every index definition decodes, from
    its recorded discriminant, name and words, to itself; and decoding any words
    under any discriminant returns normally. *)
Theorem definition_bodies_roundtrip :
  (∀ d, body_fits d →
    decode_projection_body (encode_projection_body d).1 (projection_name d) (encode_projection_body d).2 = Ok d) ∧
  (∀ d, decode_index_body (encode_index_body d).1 (encode_index_body d).2 = Ok d) ∧
  ∀ k name words, returns (decode_projection_body k name words) ∧ returns (decode_index_body k words).
Proof.
  split; [apply projection_body_codec|]. split; [apply index_body_codec|]. intros k name words.
  split; [apply returns_decode_projection|apply returns_decode_index].
Qed.

End defs.

Definition demo_projection : ProjectionDefinition :=
  HypergraphProjection {| hp_name := [Byte.x70]; hp_relation_types := {[7; 3]}; hp_source_roles := {[1]};
    hp_target_roles := ∅ |}.

Lemma definition_bodies_roundtrip_witness :
  encode_projection_body demo_projection = (1, [1; 1; 0; 2; 3; 7]) ∧
  decode_projection_body (H := target64) 1 [Byte.x70] [1; 1; 0; 2; 3; 7] = Ok demo_projection.
Proof.
  split; [vm_compute; reflexivity|].
  apply (proj1 (definition_bodies_roundtrip (H := target64)) demo_projection). vm_compute. discriminate.
Defined.

(** ** Canonical records, the id watermark and the catalog *)

(** ** Records *)

Record ElementRecord := { el_id : Z; el_labels : gset Z }.
Record RelationRecord := { rel_id : Z; rel_type : option Z; rel_labels : gset Z }.
Record IncidenceRecord := { inc_id : Z; inc_relation : Z; inc_element : Z; inc_role : Z }.

#[export] Instance element_record_eq_dec : EqDecision ElementRecord.
Proof. solve_decision. Defined.
#[export] Instance relation_record_eq_dec : EqDecision RelationRecord.
Proof. solve_decision. Defined.
#[export] Instance incidence_record_eq_dec : EqDecision IncidenceRecord.
Proof. solve_decision. Defined.

(** ** The watermark *)

Definition ID_MAX : Z := u64_max.

(** [checked_next] of every id type. *)
Definition checked_next (id : Z) : option Z := checked_add ID_MAX id 1.

Record NextIds := {
  next_element : Z;
  next_relation : Z;
  next_incidence : Z;
  next_role : Z;
  next_label : Z;
  next_relation_type : Z;
  next_property_key : Z;
  next_projection : Z;
  next_index : Z
}.

Definition INITIAL : NextIds := {|
  next_element := 1; next_relation := 1; next_incidence := 1; next_role := 1; next_label := 1;
  next_relation_type := 1; next_property_key := 1; next_projection := 1; next_index := 1
|}.

(** The nine allocators in the order the watermark records them. *)
Definition next_words (n : NextIds) : list Z :=
  [next_element n; next_relation n; next_incidence n; next_role n; next_label n; next_relation_type n;
   next_property_key n; next_projection n; next_index n].

Definition elementwise_max (a b : NextIds) : NextIds := {|
  next_element := Z.max (next_element a) (next_element b);
  next_relation := Z.max (next_relation a) (next_relation b);
  next_incidence := Z.max (next_incidence a) (next_incidence b);
  next_role := Z.max (next_role a) (next_role b);
  next_label := Z.max (next_label a) (next_label b);
  next_relation_type := Z.max (next_relation_type a) (next_relation_type b);
  next_property_key := Z.max (next_property_key a) (next_property_key b);
  next_projection := Z.max (next_projection a) (next_projection b);
  next_index := Z.max (next_index a) (next_index b)
|}.

(** The pointwise order: no allocator goes back. *)
Definition next_le (a b : NextIds) : Prop := Forall2 Z.le (next_words a) (next_words b).

#[export] Instance next_le_po : PartialOrder next_le.
Proof.
  split; [split|].
  - intros []. unfold next_le, next_words. cbn. repeat constructor; lia.
  - intros [] [] []. unfold next_le, next_words. cbn. rewrite !Forall2_cons. intros ??. destruct_and?. split_and?; try lia. constructor.
  - intros [] []. unfold next_le, next_words. cbn. rewrite !Forall2_cons. intros ??. destruct_and?. f_equal; lia.
Qed.

Lemma elementwise_max_le a b : next_le a b → elementwise_max a b = b.
Proof.
  unfold next_le, next_words, elementwise_max. destruct a, b. cbn.
  rewrite !Forall2_cons. intros H. destruct_and?. f_equal; lia.
Qed.

(** ** The catalog *)

Record RoleDefinition := { role_id : Z; role_name : list byte }.
Record LabelDefinition := { label_id : Z; label_name : list byte }.
Record RelationTypeDefinition := { relation_type_id : Z; relation_type_name : list byte }.
Record PropertyKeyDefinition := {
  key_id : Z;
  key_name : list byte;
  key_family : PropertyFamily;
  key_type : PropertyType
}.
Record ProjectionEntry := { projection_id : Z; projection_definition : ProjectionDefinition }.
Record IndexEntry := { index_id : Z; index_name : list byte; index_definition : IndexDefinition }.

Record Catalog := {
  roles : gmap Z RoleDefinition;
  role_names : gmap (list byte) Z;
  labels : gmap Z LabelDefinition;
  label_names : gmap (list byte) Z;
  relation_types : gmap Z RelationTypeDefinition;
  relation_type_names : gmap (list byte) Z;
  property_keys : gmap Z PropertyKeyDefinition;
  property_key_names : gmap (list byte) Z;
  projections : gmap Z ProjectionEntry;
  projection_names : gmap (list byte) Z;
  indexes : gmap Z IndexEntry;
  index_names : gmap (list byte) Z
}.

Definition empty_catalog : Catalog := {|
  roles := ∅; role_names := ∅; labels := ∅; label_names := ∅; relation_types := ∅; relation_type_names := ∅;
  property_keys := ∅; property_key_names := ∅; projections := ∅; projection_names := ∅; indexes := ∅; index_names := ∅
|}.

Definition insert_named (names : gmap (list byte) Z) (name : list byte) (id : Z) : res CatalogError (gmap (list byte) Z) :=
  if decide (is_Some (names !! name)) then Err DuplicateName else Ok (<[name := id]> names).

Definition insert_role (c : Catalog) (id : Z) (name : list byte) : res CatalogError Catalog :=
  names ← insert_named (role_names c) name id;
  Ok {| roles := <[id := {| role_id := id; role_name := name |}]> (roles c); role_names := names;
        labels := labels c; label_names := label_names c; relation_types := relation_types c;
        relation_type_names := relation_type_names c; property_keys := property_keys c;
        property_key_names := property_key_names c; projections := projections c;
        projection_names := projection_names c; indexes := indexes c; index_names := index_names c |}.

Definition insert_label (c : Catalog) (id : Z) (name : list byte) : res CatalogError Catalog :=
  names ← insert_named (label_names c) name id;
  Ok {| roles := roles c; role_names := role_names c;
        labels := <[id := {| label_id := id; label_name := name |}]> (labels c); label_names := names;
        relation_types := relation_types c; relation_type_names := relation_type_names c;
        property_keys := property_keys c; property_key_names := property_key_names c; projections := projections c;
        projection_names := projection_names c; indexes := indexes c; index_names := index_names c |}.

Definition insert_relation_type (c : Catalog) (id : Z) (name : list byte) : res CatalogError Catalog :=
  names ← insert_named (relation_type_names c) name id;
  Ok {| roles := roles c; role_names := role_names c; labels := labels c; label_names := label_names c;
        relation_types := <[id := {| relation_type_id := id; relation_type_name := name |}]> (relation_types c);
        relation_type_names := names; property_keys := property_keys c; property_key_names := property_key_names c;
        projections := projections c; projection_names := projection_names c; indexes := indexes c;
        index_names := index_names c |}.

Definition insert_property_key (c : Catalog) (definition : PropertyKeyDefinition) : res CatalogError Catalog :=
  names ← insert_named (property_key_names c) (key_name definition) (key_id definition);
  Ok {| roles := roles c; role_names := role_names c; labels := labels c; label_names := label_names c;
        relation_types := relation_types c; relation_type_names := relation_type_names c;
        property_keys := <[key_id definition := definition]> (property_keys c); property_key_names := names;
        projections := projections c; projection_names := projection_names c; indexes := indexes c;
        index_names := index_names c |}.

Definition insert_projection (c : Catalog) (id : Z) (definition : ProjectionDefinition) : res CatalogError Catalog :=
  names ← insert_named (projection_names c) (projection_name definition) id;
  Ok {| roles := roles c; role_names := role_names c; labels := labels c; label_names := label_names c;
        relation_types := relation_types c; relation_type_names := relation_type_names c;
        property_keys := property_keys c; property_key_names := property_key_names c;
        projections := <[id := {| projection_id := id; projection_definition := definition |}]> (projections c);
        projection_names := names; indexes := indexes c; index_names := index_names c |}.

Definition insert_index (c : Catalog) (id : Z) (name : list byte) (definition : IndexDefinition) : res CatalogError Catalog :=
  names ← insert_named (index_names c) name id;
  Ok {| roles := roles c; role_names := role_names c; labels := labels c; label_names := label_names c;
        relation_types := relation_types c; relation_type_names := relation_type_names c;
        property_keys := property_keys c; property_key_names := property_key_names c; projections := projections c;
        projection_names := projection_names c;
        indexes := <[id := {| index_id := id; index_name := name; index_definition := definition |}]> (indexes c);
        index_names := names |}.

(** *** Advancing one allocator *)

Definition set_next_element (n : NextIds) (id : Z) : NextIds := {|
  next_element := id; next_relation := next_relation n; next_incidence := next_incidence n; next_role := next_role n;
  next_label := next_label n; next_relation_type := next_relation_type n; next_property_key := next_property_key n;
  next_projection := next_projection n; next_index := next_index n |}.
Definition set_next_relation (n : NextIds) (id : Z) : NextIds := {|
  next_element := next_element n; next_relation := id; next_incidence := next_incidence n; next_role := next_role n;
  next_label := next_label n; next_relation_type := next_relation_type n; next_property_key := next_property_key n;
  next_projection := next_projection n; next_index := next_index n |}.
Definition set_next_incidence (n : NextIds) (id : Z) : NextIds := {|
  next_element := next_element n; next_relation := next_relation n; next_incidence := id; next_role := next_role n;
  next_label := next_label n; next_relation_type := next_relation_type n; next_property_key := next_property_key n;
  next_projection := next_projection n; next_index := next_index n |}.
Definition set_next_role (n : NextIds) (id : Z) : NextIds := {|
  next_element := next_element n; next_relation := next_relation n; next_incidence := next_incidence n; next_role := id;
  next_label := next_label n; next_relation_type := next_relation_type n; next_property_key := next_property_key n;
  next_projection := next_projection n; next_index := next_index n |}.
Definition set_next_label (n : NextIds) (id : Z) : NextIds := {|
  next_element := next_element n; next_relation := next_relation n; next_incidence := next_incidence n;
  next_role := next_role n; next_label := id; next_relation_type := next_relation_type n;
  next_property_key := next_property_key n; next_projection := next_projection n; next_index := next_index n |}.
Definition set_next_relation_type (n : NextIds) (id : Z) : NextIds := {|
  next_element := next_element n; next_relation := next_relation n; next_incidence := next_incidence n;
  next_role := next_role n; next_label := next_label n; next_relation_type := id;
  next_property_key := next_property_key n; next_projection := next_projection n; next_index := next_index n |}.
Definition set_next_property_key (n : NextIds) (id : Z) : NextIds := {|
  next_element := next_element n; next_relation := next_relation n; next_incidence := next_incidence n;
  next_role := next_role n; next_label := next_label n; next_relation_type := next_relation_type n;
  next_property_key := id; next_projection := next_projection n; next_index := next_index n |}.
Definition set_next_projection (n : NextIds) (id : Z) : NextIds := {|
  next_element := next_element n; next_relation := next_relation n; next_incidence := next_incidence n;
  next_role := next_role n; next_label := next_label n; next_relation_type := next_relation_type n;
  next_property_key := next_property_key n; next_projection := id; next_index := next_index n |}.
Definition set_next_index (n : NextIds) (id : Z) : NextIds := {|
  next_element := next_element n; next_relation := next_relation n; next_incidence := next_incidence n;
  next_role := next_role n; next_label := next_label n; next_relation_type := next_relation_type n;
  next_property_key := next_property_key n; next_projection := next_projection n; next_index := id |}.
