(* ===== verification/OverlayIndex.v ===== *)
(** * OverlayIndex: incremental membership and property indexes

    Models the owned half of [crates/oxgraph-db/src/index.rs]: the postings of
    one base generation ([OwnedBaseIndex]), the added and removed postings an
    overlay maintains as its writer mutates ([OverlayIndex], the [on_*] hooks),
    and the merged lookups. The postings borrowed from a mapped base file are in
    [BorrowedIndex]. *)

From Stdlib Require Import String.
From stdpp Require Import base gmap sets list strings sorting.
From S2P Require Import Prelude Bytes Ordered DbError DbWire DbState.

Local Open Scope Z_scope.

Notation EqualityKey := (Z * PropertyValue)%type.
Notation Properties := (gmap PropertySubject (gmap Z PropertyValue)).

#[export] Instance equality_key_order : KeyOrder EqualityKey :=
  derived_order (λ k, (k.1, value_key k.2)) (λ a b H, match a, b, H with (ka, va), (kb, vb), H =>
    f_equal2 pair (f_equal fst H) (value_key_inj va vb (f_equal snd H)) end).

(** A set of a posting map, empty when the key has none. *)
Definition posting `{Countable K, Countable M} (m : gmap K (gset M)) (k : K) : gset M := default ∅ (m !! k).

(** [entry(key).or_default().insert(member)]. *)
Definition add_posting `{Countable K, Countable M} (m : gmap K (gset M)) (k : K) (x : M) : gmap K (gset M) :=
  <[k := {[x]} ∪ posting m k]> m.

(** Drops the member, and the posting with it when that empties it. *)
Definition remove_posting `{Countable K, Countable M} (m : gmap K (gset M)) (k : K) (x : M) : gmap K (gset M) :=
  match m !! k with
  | None => m
  | Some s =>
      if decide (x ∉ s) then m else
      let s := s ∖ {[x]} in
      if decide (s = ∅) then delete k m else <[k := s]> m
  end.

(** ** The base postings *)

Record OwnedBaseIndex := {
  label_members : gmap Z (gset Z);
  relation_type_members : gmap Z (gset Z);
  property_equality : gmap EqualityKey (gset PropertySubject);
  base_element_incidences : gmap Z (gset Z);
  base_relation_incidences : gmap Z (gset Z)
}.

Definition empty_base_index : OwnedBaseIndex := {|
  label_members := ∅; relation_type_members := ∅; property_equality := ∅;
  base_element_incidences := ∅; base_relation_incidences := ∅
|}.

(** One loop of [from_records]: every pair it derives, entered in turn. *)
Definition postings_of `{Countable K, Countable M} (pairs : list (K * M)) : gmap K (gset M) :=
  foldl (λ m p, add_posting m p.1 p.2) ∅ pairs.

Definition label_pairs (rs : list ElementRecord) : list (Z * Z) :=
  r ← rs; (λ l, (l, el_id r)) <$> set_iter (el_labels r).
Definition type_pairs (rs : list RelationRecord) : list (Z * Z) :=
  r ← rs; match rel_type r with Some t => [(t, rel_id r)] | None => [] end.
Definition equality_pairs (ps : list (PropertySubject * Z * PropertyValue)) : list (EqualityKey * PropertySubject) :=
  (λ '(s, k, v), ((k, v), s)) <$> ps.
Definition incidence_pairs (key : IncidenceRecord → Z) (rs : list IncidenceRecord) : list (Z * Z) :=
  (λ r, (key r, inc_id r)) <$> rs.

(** Every property of a property map, in key order. *)
Definition property_rows (properties : Properties) : list (PropertySubject * Z * PropertyValue) :=
  '(s, keys) ← map_iter properties; (λ p, (s, p.1, p.2)) <$> map_iter keys.

Definition from_records (elements : gmap Z ElementRecord) (relations : gmap Z RelationRecord)
    (incidences : gmap Z IncidenceRecord) (properties : Properties) : OwnedBaseIndex := {|
  label_members := postings_of (label_pairs (snd <$> map_iter elements));
  relation_type_members := postings_of (type_pairs (snd <$> map_iter relations));
  property_equality := postings_of (equality_pairs (property_rows properties));
  base_element_incidences := postings_of (incidence_pairs inc_element (snd <$> map_iter incidences));
  base_relation_incidences := postings_of (incidence_pairs inc_relation (snd <$> map_iter incidences))
|}.

(** ** The overlay postings *)

Record OverlayIndex := {
  label_added : gmap Z (gset Z);
  label_removed : gmap Z (gset Z);
  relation_type_added : gmap Z (gset Z);
  relation_type_removed : gmap Z (gset Z);
  equality_added : gmap EqualityKey (gset PropertySubject);
  equality_removed : gmap EqualityKey (gset PropertySubject);
  element_incidence_added : gmap Z (gset Z);
  element_incidence_removed : gmap Z (gset Z);
  relation_incidence_added : gmap Z (gset Z);
  relation_incidence_removed : gmap Z (gset Z)
}.

Definition empty_overlay_index : OverlayIndex := {|
  label_added := ∅; label_removed := ∅; relation_type_added := ∅; relation_type_removed := ∅;
  equality_added := ∅; equality_removed := ∅; element_incidence_added := ∅; element_incidence_removed := ∅;
  relation_incidence_added := ∅; relation_incidence_removed := ∅
|}.

(** Setting one pair of fields. *)
Definition with_labels (ix : OverlayIndex) (added removed : gmap Z (gset Z)) : OverlayIndex := {|
  label_added := added; label_removed := removed; relation_type_added := relation_type_added ix;
  relation_type_removed := relation_type_removed ix; equality_added := equality_added ix;
  equality_removed := equality_removed ix; element_incidence_added := element_incidence_added ix;
  element_incidence_removed := element_incidence_removed ix; relation_incidence_added := relation_incidence_added ix;
  relation_incidence_removed := relation_incidence_removed ix
|}.
Definition with_types (ix : OverlayIndex) (added removed : gmap Z (gset Z)) : OverlayIndex := {|
  label_added := label_added ix; label_removed := label_removed ix; relation_type_added := added;
  relation_type_removed := removed; equality_added := equality_added ix; equality_removed := equality_removed ix;
  element_incidence_added := element_incidence_added ix; element_incidence_removed := element_incidence_removed ix;
  relation_incidence_added := relation_incidence_added ix; relation_incidence_removed := relation_incidence_removed ix
|}.
Definition with_equality (ix : OverlayIndex) (added removed : gmap EqualityKey (gset PropertySubject)) : OverlayIndex := {|
  label_added := label_added ix; label_removed := label_removed ix; relation_type_added := relation_type_added ix;
  relation_type_removed := relation_type_removed ix; equality_added := added; equality_removed := removed;
  element_incidence_added := element_incidence_added ix; element_incidence_removed := element_incidence_removed ix;
  relation_incidence_added := relation_incidence_added ix; relation_incidence_removed := relation_incidence_removed ix
|}.
Definition with_incidences (ix : OverlayIndex) (ea er ra rr : gmap Z (gset Z)) : OverlayIndex := {|
  label_added := label_added ix; label_removed := label_removed ix; relation_type_added := relation_type_added ix;
  relation_type_removed := relation_type_removed ix; equality_added := equality_added ix;
  equality_removed := equality_removed ix; element_incidence_added := ea; element_incidence_removed := er;
  relation_incidence_added := ra; relation_incidence_removed := rr
|}.

(** ** The hooks *)

Definition add_equality (ix : OverlayIndex) (subject : PropertySubject) (key : Z) (value : PropertyValue) : OverlayIndex :=
  with_equality ix (add_posting (equality_added ix) (key, value) subject)
    (remove_posting (equality_removed ix) (key, value) subject).

Definition remove_equality (ix : OverlayIndex) (subject : PropertySubject) (key : Z) (value : PropertyValue) : OverlayIndex :=
  with_equality ix (remove_posting (equality_added ix) (key, value) subject)
    (add_posting (equality_removed ix) (key, value) subject).

Definition on_set_property (ix : OverlayIndex) (subject : PropertySubject) (key : Z) (previous : option PropertyValue)
    (new_value : PropertyValue) : OverlayIndex :=
  let ix := match previous with
            | Some previous => if decide (previous ≠ new_value) then remove_equality ix subject key previous else ix
            | None => ix
            end in
  add_equality ix subject key new_value.

Definition on_remove_property (ix : OverlayIndex) (subject : PropertySubject) (key : Z) (previous : option PropertyValue)
    : OverlayIndex :=
  match previous with Some previous => remove_equality ix subject key previous | None => ix end.

Definition on_add_element_label (ix : OverlayIndex) (element label : Z) : OverlayIndex :=
  with_labels ix (add_posting (label_added ix) label element) (remove_posting (label_removed ix) label element).

Definition on_create_incidence (ix : OverlayIndex) (incidence relation element : Z) : OverlayIndex :=
  with_incidences ix
    (add_posting (element_incidence_added ix) element incidence)
    (remove_posting (element_incidence_removed ix) element incidence)
    (add_posting (relation_incidence_added ix) relation incidence)
    (remove_posting (relation_incidence_removed ix) relation incidence).

Definition remove_relation_type (ix : OverlayIndex) (relation relation_type : Z) : OverlayIndex :=
  with_types ix (remove_posting (relation_type_added ix) relation_type relation)
    (add_posting (relation_type_removed ix) relation_type relation).

Definition on_set_relation_type (ix : OverlayIndex) (relation : Z) (previous : option Z) (new_type : Z) : OverlayIndex :=
  let ix := match previous with
            | Some previous => if decide (previous ≠ new_type) then remove_relation_type ix relation previous else ix
            | None => ix
            end in
  with_types ix (add_posting (relation_type_added ix) new_type relation)
    (remove_posting (relation_type_removed ix) new_type relation).

Definition withdraw_subject_properties (ix : OverlayIndex) (subject : PropertySubject) (properties : gmap Z PropertyValue)
    : OverlayIndex :=
  foldl (λ ix p, remove_equality ix subject p.1 p.2) ix (map_iter properties).

(** One round of the label loop of [on_tombstone_element]. *)
Definition withdraw_label (element : Z) (ix : OverlayIndex) (label : Z) : OverlayIndex :=
  with_labels ix (remove_posting (label_added ix) label element) (add_posting (label_removed ix) label element).

Definition on_tombstone_element (ix : OverlayIndex) (element : Z) (labels : gset Z) (properties : gmap Z PropertyValue)
    : OverlayIndex :=
  let ix := foldl (withdraw_label element) ix (set_iter labels) in
  withdraw_subject_properties ix (SElement element) properties.

Definition on_tombstone_relation (ix : OverlayIndex) (relation : Z) (relation_type : option Z)
    (properties : gmap Z PropertyValue) : OverlayIndex :=
  let ix := match relation_type with Some t => remove_relation_type ix relation t | None => ix end in
  withdraw_subject_properties ix (SRelation relation) properties.

Definition on_tombstone_incidence (ix : OverlayIndex) (incidence relation element : Z) (properties : gmap Z PropertyValue)
    : OverlayIndex :=
  let ix := with_incidences ix
    (remove_posting (element_incidence_added ix) element incidence)
    (add_posting (element_incidence_removed ix) element incidence)
    (remove_posting (relation_incidence_added ix) relation incidence)
    (add_posting (relation_incidence_removed ix) relation incidence) in
  withdraw_subject_properties ix (SIncidence incidence) properties.

(** ** The merged lookups *)

(** [merge_posting] and [merge_posting_seq]. *)
Definition merge_posting `{KeyOrder M, !Countable M} (base added removed : option (gset M)) : list M :=
  set_iter ((default ∅ base ∪ default ∅ added) ∖ default ∅ removed).

Definition elements_with_label (ix : OverlayIndex) (base : OwnedBaseIndex) (label : Z) : list Z :=
  merge_posting (label_members base !! label) (label_added ix !! label) (label_removed ix !! label).

Definition relations_with_type (ix : OverlayIndex) (base : OwnedBaseIndex) (relation_type : Z) : list Z :=
  merge_posting (relation_type_members base !! relation_type) (relation_type_added ix !! relation_type)
    (relation_type_removed ix !! relation_type).

Definition element_incidences (ix : OverlayIndex) (base : OwnedBaseIndex) (element : Z) : list Z :=
  merge_posting (base_element_incidences base !! element) (element_incidence_added ix !! element)
    (element_incidence_removed ix !! element).

Definition relation_incidences (ix : OverlayIndex) (base : OwnedBaseIndex) (relation : Z) : list Z :=
  merge_posting (base_relation_incidences base !! relation) (relation_incidence_added ix !! relation)
    (relation_incidence_removed ix !! relation).

Definition property_equal (ix : OverlayIndex) (base : OwnedBaseIndex) (key : Z) (value : PropertyValue)
    : list PropertySubject :=
  merge_posting (property_equality base !! (key, value)) (equality_added ix !! (key, value))
    (equality_removed ix !! (key, value)).

(** [BTreeMap::range(start..)] and [range(start..=end)]. *)
Definition range_from `{KeyOrder K, !Countable K} {V} (m : gmap K V) (start : K) : list (K * V) :=
  filter (λ p, key_le start p.1) (map_iter m).
Definition range_between `{KeyOrder K, !Countable K} {V} (m : gmap K V) (start end_ : K) : list (K * V) :=
  filter (λ p, key_le start p.1 ∧ key_le p.1 end_) (map_iter m).

Fixpoint take_while {A} (P : A → Prop) `{!∀ x, Decision (P x)} (l : list A) : list A :=
  match l with
  | [] => []
  | x :: l => if decide (P x) then x :: take_while P l else []
  end.

(** [BaseIndex::key_postings] and [range_postings] on the owned postings. *)
Definition key_postings (base : OwnedBaseIndex) (key : Z) : list (PropertyValue * gset PropertySubject) :=
  (λ p, (p.1.2, p.2)) <$> take_while (λ p, p.1.1 = key) (range_from (property_equality base) (key, PBoolean false)).

Definition range_postings (base : OwnedBaseIndex) (key : Z) (min max : PropertyValue)
    : list (EqualityKey * gset PropertySubject) :=
  if decide (key_lt max min) then [] else range_between (property_equality base) (key, min) (key, max).

(** [extend]: the subjects of one posting enter with its value. *)
Definition extend_visible (visible : gmap PropertySubject PropertyValue) (value : PropertyValue)
    (subjects : gset PropertySubject) : gmap PropertySubject PropertyValue :=
  foldl (λ m s, <[s := value]> m) visible (set_iter subjects).

Definition property_key_subjects (ix : OverlayIndex) (base : OwnedBaseIndex) (key : Z)
    : list (PropertySubject * PropertyValue) :=
  let visible := foldl (λ m p, extend_visible m p.1 (p.2 ∖ posting (equality_removed ix) (key, p.1)))
                   ∅ (key_postings base key) in
  let visible := foldl (λ m p, extend_visible m p.1.2 p.2) visible
                   (take_while (λ p, p.1.1 = key) (range_from (equality_added ix) (key, PBoolean false))) in
  map_iter visible.

Definition property_range (ix : OverlayIndex) (base : OwnedBaseIndex) (key : Z) (min max : PropertyValue)
    : list PropertySubject :=
  if decide (key_lt max min) then [] else
  let visible := foldl (λ X p, X ∪ (p.2 ∖ posting (equality_removed ix) p.1)) ∅ (range_postings base key min max) in
  let visible := foldl (λ X p, X ∪ p.2) visible (range_between (equality_added ix) (key, min) (key, max)) in
  set_iter visible.

(** [sort_by_key(BTreeSet::len)] is stable. *)
Definition by_size (a b : gset PropertySubject) : Prop := (size a ≤ size b)%nat.
#[export] Instance by_size_dec : RelDecision by_size.
Proof. intros a b. unfold by_size. apply _. Defined.

Definition property_composite_equal (ix : OverlayIndex) (base : OwnedBaseIndex) (pairs : list EqualityKey)
    : list PropertySubject :=
  match merge_sort by_size ((λ p, list_to_set (property_equal ix base p.1 p.2)) <$> pairs) with
  | [] => []
  | first :: rest => set_iter (foldl (λ acc posting, if decide (acc = ∅) then acc else acc ∩ posting) first rest)
  end.
