(* ===== verification/Overlay.v ===== *)
(** * Overlay: the mutable delta of a write transaction

    Models [crates/oxgraph-db/src/overlay/write.rs], [overlay/log.rs] and the
    published state of [overlay/frozen.rs]. A [WriteOverlay] layers creates,
    tombstones, property sets and removals and catalog registrations over the
    records of a base; every mutation is also appended to a log that
    [apply_replay_op] reads back. A method that takes [&mut self] returns the
    new delta, next to its result where it can fail: what a failing call leaves
    behind is part of the model. *)

From Stdlib Require Import String.
From stdpp Require Import base gmap sets list strings.
From S2P Require Import Prelude Bytes Ordered DbError DbWire DbState OverlayIndex.

Local Open Scope Z_scope.

(** ** Data *)

Record BaseRecords := {
  base_elements : gmap Z ElementRecord;
  base_relations : gmap Z RelationRecord;
  base_incidences : gmap Z IncidenceRecord;
  base_properties : Properties;
  base_index : OwnedBaseIndex
}.

(** [BaseRecords::property]. *)
Definition base_property (base : BaseRecords) (subject : PropertySubject) (key : Z) : option PropertyValue :=
  keys ← base_properties base !! subject; keys !! key.

(** [Some record] adds or overrides, [None] is a tombstone. *)
Definition Delta (R : Type) : Type := gmap Z (option R).
Definition SubjectDelta : Type := gmap Z (option PropertyValue).

Record MutationLog := { ml_ops : list MutationOp; ml_blob : list byte }.

Record WriteOverlay := {
  w_elements : Delta ElementRecord;
  w_relations : Delta RelationRecord;
  w_incidences : Delta IncidenceRecord;
  w_properties : gmap PropertySubject SubjectDelta;
  w_catalog : Catalog;
  w_next : NextIds;
  w_log : MutationLog;
  w_index : OverlayIndex
}.

(** The published overlay: a delta without its log. *)
Record Overlay := {
  o_elements : Delta ElementRecord;
  o_relations : Delta RelationRecord;
  o_incidences : Delta IncidenceRecord;
  o_properties : gmap PropertySubject SubjectDelta;
  o_catalog : Catalog;
  o_next : NextIds;
  o_index : OverlayIndex
}.

Definition empty_log : MutationLog := {| ml_ops := []; ml_blob := [] |}.

(** [WriteOverlay::new], [WriteOverlay::from_overlay] and [WriteOverlay::freeze]. *)
Definition new_overlay (next : NextIds) (catalog : Catalog) : WriteOverlay := {|
  w_elements := ∅; w_relations := ∅; w_incidences := ∅; w_properties := ∅; w_catalog := catalog; w_next := next;
  w_log := empty_log; w_index := empty_overlay_index
|}.

Definition from_overlay (parent : Overlay) : WriteOverlay := {|
  w_elements := o_elements parent; w_relations := o_relations parent; w_incidences := o_incidences parent;
  w_properties := o_properties parent; w_catalog := o_catalog parent; w_next := o_next parent;
  w_log := empty_log; w_index := o_index parent
|}.

Definition freeze_overlay (w : WriteOverlay) : Overlay := {|
  o_elements := w_elements w; o_relations := w_relations w; o_incidences := w_incidences w;
  o_properties := w_properties w; o_catalog := w_catalog w; o_next := w_next w; o_index := w_index w
|}.

(** One field replaced. *)
Definition with_elements (w : WriteOverlay) (x : Delta ElementRecord) : WriteOverlay := {|
  w_elements := x; w_relations := w_relations w; w_incidences := w_incidences w; w_properties := w_properties w;
  w_catalog := w_catalog w; w_next := w_next w; w_log := w_log w; w_index := w_index w |}.
Definition with_relations (w : WriteOverlay) (x : Delta RelationRecord) : WriteOverlay := {|
  w_elements := w_elements w; w_relations := x; w_incidences := w_incidences w; w_properties := w_properties w;
  w_catalog := w_catalog w; w_next := w_next w; w_log := w_log w; w_index := w_index w |}.
Definition with_incidence_delta (w : WriteOverlay) (x : Delta IncidenceRecord) : WriteOverlay := {|
  w_elements := w_elements w; w_relations := w_relations w; w_incidences := x; w_properties := w_properties w;
  w_catalog := w_catalog w; w_next := w_next w; w_log := w_log w; w_index := w_index w |}.
Definition with_properties (w : WriteOverlay) (x : gmap PropertySubject SubjectDelta) : WriteOverlay := {|
  w_elements := w_elements w; w_relations := w_relations w; w_incidences := w_incidences w; w_properties := x;
  w_catalog := w_catalog w; w_next := w_next w; w_log := w_log w; w_index := w_index w |}.
Definition with_catalog (w : WriteOverlay) (x : Catalog) : WriteOverlay := {|
  w_elements := w_elements w; w_relations := w_relations w; w_incidences := w_incidences w;
  w_properties := w_properties w; w_catalog := x; w_next := w_next w; w_log := w_log w; w_index := w_index w |}.
Definition with_next (w : WriteOverlay) (x : NextIds) : WriteOverlay := {|
  w_elements := w_elements w; w_relations := w_relations w; w_incidences := w_incidences w;
  w_properties := w_properties w; w_catalog := w_catalog w; w_next := x; w_log := w_log w; w_index := w_index w |}.
Definition with_log (w : WriteOverlay) (x : MutationLog) : WriteOverlay := {|
  w_elements := w_elements w; w_relations := w_relations w; w_incidences := w_incidences w;
  w_properties := w_properties w; w_catalog := w_catalog w; w_next := w_next w; w_log := x; w_index := w_index w |}.
Definition with_index (w : WriteOverlay) (x : OverlayIndex) : WriteOverlay := {|
  w_elements := w_elements w; w_relations := w_relations w; w_incidences := w_incidences w;
  w_properties := w_properties w; w_catalog := w_catalog w; w_next := w_next w; w_log := w_log w; w_index := x |}.

(** ** The log *)

Definition intern (log : MutationLog) (value : list byte) : MutationLog * (Z * Z) :=
  ({| ml_ops := ml_ops log; ml_blob := ml_blob log ++ value |}, (zlen (ml_blob log), zlen value)).

Definition intern_words (log : MutationLog) (words : list Z) : MutationLog * (Z * Z) :=
  intern log (words_bytes 8 words).

(** The payload is the words, padded with zeros to its nine slots. *)
Definition make_op (kind flags : Z) (words : list Z) : MutationOp := {|
  op_kind := kind;
  op_flags := flags;
  op_payload := take MUTATION_OP_PAYLOAD_WORDS (words ++ replicate MUTATION_OP_PAYLOAD_WORDS 0)
|}.

Definition push_op (log : MutationLog) (kind flags : Z) (words : list Z) : MutationLog :=
  {| ml_ops := ml_ops log ++ [make_op kind flags words]; ml_blob := ml_blob log |}.

(** [push_op] on a writer's own log. *)
Definition log_push (w : WriteOverlay) (kind flags : Z) (words : list Z) : WriteOverlay :=
  with_log w (push_op (w_log w) kind flags words).

Definition push_watermark (log : MutationLog) (next : NextIds) : MutationLog :=
  push_op log OP_NEXT_ID_WATERMARK 0 (next_words next).

(** The frame, and the writer with its log taken. *)
Definition take_frame (w : WriteOverlay) : (list MutationOp * list byte) * WriteOverlay :=
  let log := push_watermark (w_log w) (w_next w) in
  ((ml_ops log, ml_blob log), with_log w empty_log).

Definition overlay_is_empty (w : WriteOverlay) : bool := bool_decide (ml_ops (w_log w) = []).

Definition log_corrupt (lsn : Z) (reason : string) : DbError := Storage (LogCorrupt lsn reason).

Section blobs.
Context `{!Target}.

Definition blob_str (blob : list byte) (offset len lsn : Z) : res DbError (list byte) :=
  start ← ok_or (log_corrupt lsn "blob offset overflow") (try_into usize_max offset);
  length ← ok_or (log_corrupt lsn "blob length overflow") (try_into usize_max len);
  end_ ← ok_or (log_corrupt lsn "blob slice overflow") (checked_add usize_max start length);
  if decide (end_ ≤ zlen blob) then
    let bytes := take (Z.to_nat length) (drop (Z.to_nat start) blob) in
    if utf8_valid bytes then Ok bytes else Err (log_corrupt lsn "blob slice is not UTF-8")
  else Err (log_corrupt lsn "blob slice out of bounds").

Definition decode_def_words (blob : list byte) (offset len lsn : Z) : res DbError (list Z) :=
  start ← ok_or (log_corrupt lsn "def offset overflow") (try_into usize_max offset);
  length ← ok_or (log_corrupt lsn "def length overflow") (try_into usize_max len);
  end_ ← ok_or (log_corrupt lsn "def slice overflow") (checked_add usize_max start length);
  if decide (end_ ≤ zlen blob) then
    let bytes := take (Z.to_nat length) (drop (Z.to_nat start) blob) in
    if decide (zlen bytes mod 8 = 0) then Ok (words_of 8 (List.length bytes / 8) bytes)
    else Err (log_corrupt lsn "def slice is not whole u64 words")
  else Err (log_corrupt lsn "def slice out of bounds").

End blobs.

(** ** What the transaction sees *)

Section reads.
Context (base : BaseRecords).

(** [visible_property_in]. *)
Definition visible_property (properties : gmap PropertySubject SubjectDelta) (subject : PropertySubject) (key : Z)
    : option PropertyValue :=
  match (keys ← properties !! subject; keys !! key) with
  | Some slot => slot
  | None => base_property base subject key
  end.

(** [visible_property_is]. *)
Definition visible_property_is (w : WriteOverlay) (subject : PropertySubject) (key : Z) (value : PropertyValue) : bool :=
  bool_decide (visible_property (w_properties w) subject key = Some value).

Definition visible_element_labels (w : WriteOverlay) (element : Z) : gset Z :=
  match w_elements w !! element with
  | Some (Some record) => el_labels record
  | Some None => ∅
  | None => match base_elements base !! element with Some record => el_labels record | None => ∅ end
  end.

Definition visible_relation_type (w : WriteOverlay) (relation : Z) : option Z :=
  match w_relations w !! relation with
  | Some (Some record) => rel_type record
  | Some None => None
  | None => record ← base_relations base !! relation; rel_type record
  end.

Definition visible_incidence (w : WriteOverlay) (id : Z) : option IncidenceRecord :=
  match w_incidences w !! id with Some slot => slot | None => base_incidences base !! id end.

(** One entry of the overlay's delta over the visible properties. *)
Definition override_property (visible : gmap Z PropertyValue) (entry : Z * option PropertyValue) : gmap Z PropertyValue :=
  match entry.2 with Some value => <[entry.1 := value]> visible | None => delete entry.1 visible end.

(** [visible_subject_properties_in]. *)
Definition visible_subject_properties (properties : gmap PropertySubject SubjectDelta) (subject : PropertySubject)
    : gmap Z PropertyValue :=
  let visible := foldl (λ m p, <[p.1 := p.2]> m) ∅ (map_iter (default ∅ (base_properties base !! subject))) in
  match properties !! subject with
  | None => visible
  | Some keys => foldl override_property visible (map_iter keys)
  end.

(** ** Mutations without the log *)

(** [properties.entry(subject).or_default()] with one slot set. *)
Definition set_slot (properties : gmap PropertySubject SubjectDelta) (subject : PropertySubject) (key : Z)
    (slot : option PropertyValue) : gmap PropertySubject SubjectDelta :=
  <[subject := <[key := slot]> (default ∅ (properties !! subject))]> properties.

Definition tombstone_subject_properties (properties : gmap PropertySubject SubjectDelta) (subject : PropertySubject)
    : gmap PropertySubject SubjectDelta :=
  let properties := delete subject properties in
  match base_properties base !! subject with
  | None => properties
  | Some keys => <[subject := foldl (λ m p, <[p.1 := None]> m) (default ∅ (properties !! subject)) (map_iter keys)]> properties
  end.

Definition tombstone_element_inner (w : WriteOverlay) (id : Z) : WriteOverlay :=
  let subject := SElement id in
  let labels := visible_element_labels w id in
  let properties := visible_subject_properties (w_properties w) subject in
  let w := with_index w (on_tombstone_element (w_index w) id labels properties) in
  let w := with_elements w (<[id := None]> (w_elements w)) in
  with_properties w (tombstone_subject_properties (w_properties w) subject).

Definition tombstone_relation_inner (w : WriteOverlay) (id : Z) : WriteOverlay :=
  let subject := SRelation id in
  let relation_type := visible_relation_type w id in
  let properties := visible_subject_properties (w_properties w) subject in
  let w := with_index w (on_tombstone_relation (w_index w) id relation_type properties) in
  let w := with_relations w (<[id := None]> (w_relations w)) in
  with_properties w (tombstone_subject_properties (w_properties w) subject).

Definition tombstone_incidence_inner (w : WriteOverlay) (id : Z) : WriteOverlay :=
  let subject := SIncidence id in
  let record := visible_incidence w id in
  let properties := visible_subject_properties (w_properties w) subject in
  let w := match record with
           | Some record =>
               with_index w (on_tombstone_incidence (w_index w) id (inc_relation record) (inc_element record) properties)
           | None => w
           end in
  let w := with_incidence_delta w (<[id := None]> (w_incidences w)) in
  with_properties w (tombstone_subject_properties (w_properties w) subject).

Definition label_element (label : Z) (r : ElementRecord) : ElementRecord :=
  {| el_id := el_id r; el_labels := {[label]} ∪ el_labels r |}.
Definition label_relation (label : Z) (r : RelationRecord) : RelationRecord :=
  {| rel_id := rel_id r; rel_type := rel_type r; rel_labels := {[label]} ∪ rel_labels r |}.
Definition type_relation (relation_type : Z) (r : RelationRecord) : RelationRecord :=
  {| rel_id := rel_id r; rel_type := Some relation_type; rel_labels := rel_labels r |}.

(** The entry API shared by the label and type mutators: a present record is
    changed in place, a tombstone is left, an absent id copies the base's record.
    Also tells whether a record was changed. *)
Definition edit_record {R} (delta : Delta R) (records : gmap Z R) (id : Z) (edit : R → R) : Delta R * bool :=
  match delta !! id with
  | Some (Some record) => (<[id := Some (edit record)]> delta, true)
  | Some None => (delta, false)
  | None =>
      match records !! id with
      | Some record => (<[id := Some (edit record)]> delta, true)
      | None => (delta, false)
      end
  end.

Definition add_element_label_inner (w : WriteOverlay) (element label : Z) : WriteOverlay :=
  let '(delta, labelled) := edit_record (w_elements w) (base_elements base) element (label_element label) in
  let w := with_elements w delta in
  if labelled then with_index w (on_add_element_label (w_index w) element label) else w.

(** The body [add_relation_label] and [add_relation_label_replay] share: no index follows relation labels. *)
Definition add_relation_label_inner (w : WriteOverlay) (relation label : Z) : WriteOverlay :=
  with_relations w (edit_record (w_relations w) (base_relations base) relation (label_relation label)).1.

Definition set_relation_type_inner (w : WriteOverlay) (relation relation_type : Z) : WriteOverlay :=
  let previous := visible_relation_type w relation in
  let '(delta, typed) := edit_record (w_relations w) (base_relations base) relation (type_relation relation_type) in
  let w := with_relations w delta in
  if typed then with_index w (on_set_relation_type (w_index w) relation previous relation_type) else w.

Definition set_property_inner (w : WriteOverlay) (subject : PropertySubject) (key : Z) (value : PropertyValue) : WriteOverlay :=
  let previous := visible_property (w_properties w) subject key in
  let w := with_index w (on_set_property (w_index w) subject key previous value) in
  with_properties w (set_slot (w_properties w) subject key (Some value)).

Definition remove_property_inner (w : WriteOverlay) (subject : PropertySubject) (key : Z) : WriteOverlay :=
  let previous := visible_property (w_properties w) subject key in
  let w := with_index w (on_remove_property (w_index w) subject key previous) in
  with_properties w (set_slot (w_properties w) subject key None).

(** What a create records, with an id already chosen. *)
Definition put_element (w : WriteOverlay) (id : Z) : WriteOverlay :=
  with_elements w (<[id := Some {| el_id := id; el_labels := ∅ |}]> (w_elements w)).
Definition put_relation (w : WriteOverlay) (id : Z) : WriteOverlay :=
  with_relations w (<[id := Some {| rel_id := id; rel_type := None; rel_labels := ∅ |}]> (w_relations w)).
Definition put_incidence (w : WriteOverlay) (id relation element role : Z) : WriteOverlay :=
  let w := with_incidence_delta w (<[id := Some {| inc_id := id; inc_relation := relation; inc_element := element;
    inc_role := role |}]> (w_incidences w)) in
  with_index w (on_create_incidence (w_index w) id relation element).

(** ** The transaction's mutators *)

Definition create_element (w : WriteOverlay) : WriteOverlay * res DbError Z :=
  let id := next_element (w_next w) in
  match checked_next id with
  | None => (w, Err (id_overflow FamilyElement))
  | Some next =>
      let w := with_next w (set_next_element (w_next w) next) in
      let w := put_element w id in
      (log_push w OP_CREATE_ELEMENT 0 [id], Ok id)
  end.

Definition create_relation (w : WriteOverlay) : WriteOverlay * res DbError Z :=
  let id := next_relation (w_next w) in
  match checked_next id with
  | None => (w, Err (id_overflow FamilyRelation))
  | Some next =>
      let w := with_next w (set_next_relation (w_next w) next) in
      let w := put_relation w id in
      (log_push w OP_CREATE_RELATION 0 [id], Ok id)
  end.

Definition create_incidence (w : WriteOverlay) (relation element role : Z) : WriteOverlay * res DbError Z :=
  let id := next_incidence (w_next w) in
  match checked_next id with
  | None => (w, Err (id_overflow FamilyIncidence))
  | Some next =>
      let w := with_next w (set_next_incidence (w_next w) next) in
      let w := put_incidence w id relation element role in
      (log_push w OP_CREATE_INCIDENCE 0 [id; relation; element; role], Ok id)
  end.

Definition tombstone_element (w : WriteOverlay) (id : Z) : WriteOverlay :=
  log_push (tombstone_element_inner w id) OP_TOMBSTONE_ELEMENT 0 [id].
Definition tombstone_relation (w : WriteOverlay) (id : Z) : WriteOverlay :=
  log_push (tombstone_relation_inner w id) OP_TOMBSTONE_RELATION 0 [id].
Definition tombstone_incidence (w : WriteOverlay) (id : Z) : WriteOverlay :=
  log_push (tombstone_incidence_inner w id) OP_TOMBSTONE_INCIDENCE 0 [id].
Definition add_element_label (w : WriteOverlay) (element label : Z) : WriteOverlay :=
  log_push (add_element_label_inner w element label) OP_ADD_ELEMENT_LABEL 0 [element; label].
Definition add_relation_label (w : WriteOverlay) (relation label : Z) : WriteOverlay :=
  log_push (add_relation_label_inner w relation label) OP_ADD_RELATION_LABEL 0 [relation; label].
Definition set_relation_type (w : WriteOverlay) (relation relation_type : Z) : WriteOverlay :=
  log_push (set_relation_type_inner w relation relation_type) OP_SET_RELATION_TYPE 0 [relation; relation_type].

Definition set_property (w : WriteOverlay) (subject : PropertySubject) (key : Z) (value : PropertyValue) : WriteOverlay :=
  if visible_property_is w subject key value then w else
  let '(subject_kind, subject_id) := encode_subject subject in
  let value_tag := property_type_tag (value_type value) in
  let '(log, (scalar, (text_off, text_len))) :=
    match value with
    | PBoolean flag => (w_log w, ((if flag then 1 else 0), (0, 0)))
    | PInteger number => (w_log w, (cast_unsigned number, (0, 0)))
    | PText text => let '(log, slice) := intern (w_log w) text in (log, (0, slice))
    end in
  let w := with_log w (push_op log OP_SET_PROPERTY (pack_flags subject_kind value_tag)
                         [subject_id; key; scalar; text_off; text_len]) in
  set_property_inner w subject key value.

Definition remove_property (w : WriteOverlay) (subject : PropertySubject) (key : Z) : WriteOverlay :=
  let '(subject_kind, subject_id) := encode_subject subject in
  let w := log_push w OP_REMOVE_PROPERTY (pack_flags subject_kind 0) [subject_id; key] in
  remove_property_inner w subject key.

End reads.

(** ** Catalog registrations

    The id is drawn and the name interned before the catalog accepts the name, so
    a refused registration keeps both. *)

(** [?] on a catalog error. *)
Definition catalog_result (r : res CatalogError Catalog) : res DbError Catalog := map_err Catalog_ r.

(** The end the six registrations share: the catalog's answer decides whether the
    op is logged. *)
Definition finish_register (w : WriteOverlay) (id : Z) (registered : res CatalogError Catalog) (kind flags : Z)
    (words : list Z) : WriteOverlay * res DbError Z :=
  match catalog_result registered with
  | Ok catalog => (log_push (with_catalog w catalog) kind flags words, Ok id)
  | Err e => (w, Err e)
  | Panic => (w, Panic)
  | NoFuel => (w, NoFuel)
  end.

Definition register_role (w : WriteOverlay) (name : list byte) : WriteOverlay * res DbError Z :=
  let id := next_role (w_next w) in
  match checked_next id with
  | None => (w, Err (id_overflow FamilyRole))
  | Some next =>
      let w := with_next w (set_next_role (w_next w) next) in
      let '(log, (name_off, name_len)) := intern (w_log w) name in
      let w := with_log w log in
      finish_register w id (insert_role (w_catalog w) id name) OP_CATALOG_REGISTER_ROLE 0 [id; name_off; name_len]
  end.

Definition register_label (w : WriteOverlay) (name : list byte) : WriteOverlay * res DbError Z :=
  let id := next_label (w_next w) in
  match checked_next id with
  | None => (w, Err (id_overflow FamilyLabel))
  | Some next =>
      let w := with_next w (set_next_label (w_next w) next) in
      let '(log, (name_off, name_len)) := intern (w_log w) name in
      let w := with_log w log in
      finish_register w id (insert_label (w_catalog w) id name) OP_CATALOG_REGISTER_LABEL 0 [id; name_off; name_len]
  end.

Definition register_relation_type (w : WriteOverlay) (name : list byte) : WriteOverlay * res DbError Z :=
  let id := next_relation_type (w_next w) in
  match checked_next id with
  | None => (w, Err (id_overflow FamilyRelationType))
  | Some next =>
      let w := with_next w (set_next_relation_type (w_next w) next) in
      let '(log, (name_off, name_len)) := intern (w_log w) name in
      let w := with_log w log in
      finish_register w id (insert_relation_type (w_catalog w) id name) OP_CATALOG_REGISTER_RELATION_TYPE 0
        [id; name_off; name_len]
  end.

Definition register_property_key (w : WriteOverlay) (name : list byte) (fam : PropertyFamily) (type : PropertyType)
    : WriteOverlay * res DbError Z :=
  let id := next_property_key (w_next w) in
  match checked_next id with
  | None => (w, Err (id_overflow FamilyPropertyKey))
  | Some next =>
      let w := with_next w (set_next_property_key (w_next w) next) in
      let '(log, (name_off, name_len)) := intern (w_log w) name in
      let w := with_log w log in
      finish_register w id
        (insert_property_key (w_catalog w) {| key_id := id; key_name := name; key_family := fam; key_type := type |})
        OP_CATALOG_REGISTER_PROPERTY_KEY (pack_flags (property_family_tag fam) (property_type_tag type))
        [id; name_off; name_len]
  end.

Definition register_projection (w : WriteOverlay) (definition : ProjectionDefinition) : WriteOverlay * res DbError Z :=
  let id := next_projection (w_next w) in
  match checked_next id with
  | None => (w, Err (id_overflow FamilyProjection))
  | Some next =>
      let w := with_next w (set_next_projection (w_next w) next) in
      let '(log, (name_off, name_len)) := intern (w_log w) (projection_name definition) in
      let '(kind, words) := encode_projection_body definition in
      let '(log, (def_off, def_len)) := intern_words log words in
      let w := with_log w log in
      finish_register w id (insert_projection (w_catalog w) id definition) OP_CATALOG_REGISTER_PROJECTION kind
        [id; name_off; name_len; def_off; def_len]
  end.

Definition register_index (w : WriteOverlay) (name : list byte) (definition : IndexDefinition)
    : WriteOverlay * res DbError Z :=
  let id := next_index (w_next w) in
  match checked_next id with
  | None => (w, Err (id_overflow FamilyIndex))
  | Some next =>
      let w := with_next w (set_next_index (w_next w) next) in
      let '(log, (name_off, name_len)) := intern (w_log w) name in
      let '(kind, words) := encode_index_body definition in
      let '(log, (def_off, def_len)) := intern_words log words in
      let w := with_log w log in
      finish_register w id (insert_index (w_catalog w) id name definition) OP_CATALOG_REGISTER_INDEX kind
        [id; name_off; name_len; def_off; def_len]
  end.

(** ** Replay of one logged op *)

Definition op_word (op : MutationOp) (i : nat) : Z := default 0 (op_payload op !! i).

Section replay.
Context `{!Target} (base : BaseRecords).

Definition apply_topology_op (w : WriteOverlay) (op : MutationOp) : WriteOverlay :=
  let kind := op_kind op in let word := op_word op in
  if decide (kind = OP_CREATE_ELEMENT) then put_element w (word 0%nat)
  else if decide (kind = OP_CREATE_RELATION) then put_relation w (word 0%nat)
  else if decide (kind = OP_CREATE_INCIDENCE) then
    put_incidence w (word 0%nat) (word 1%nat) (word 2%nat) (word 3%nat)
  else if decide (kind = OP_TOMBSTONE_ELEMENT) then tombstone_element_inner base w (word 0%nat)
  else if decide (kind = OP_TOMBSTONE_RELATION) then tombstone_relation_inner base w (word 0%nat)
  else if decide (kind = OP_TOMBSTONE_INCIDENCE) then tombstone_incidence_inner base w (word 0%nat)
  else if decide (kind = OP_ADD_ELEMENT_LABEL) then add_element_label_inner base w (word 0%nat) (word 1%nat)
  else if decide (kind = OP_ADD_RELATION_LABEL) then add_relation_label_inner base w (word 0%nat) (word 1%nat)
  else set_relation_type_inner base w (word 0%nat) (word 1%nat).

Definition apply_catalog_op (w : WriteOverlay) (op : MutationOp) (blob : list byte) (lsn : Z) : res DbError WriteOverlay :=
  let kind := op_kind op in let word := op_word op in
  name ← blob_str blob (word 1%nat) (word 2%nat) lsn;
  registered ←
    (if decide (kind = OP_CATALOG_REGISTER_ROLE) then Ok (insert_role (w_catalog w) (word 0%nat) name)
     else if decide (kind = OP_CATALOG_REGISTER_LABEL) then Ok (insert_label (w_catalog w) (word 0%nat) name)
     else if decide (kind = OP_CATALOG_REGISTER_RELATION_TYPE) then
       Ok (insert_relation_type (w_catalog w) (word 0%nat) name)
     else if decide (kind = OP_CATALOG_REGISTER_PROPERTY_KEY) then
       let '(family_tag, value_tag) := unpack_flags (op_flags op) in
       fam ← ok_or (log_corrupt lsn "property-key family tag") (property_family_from_tag family_tag);
       type ← ok_or (log_corrupt lsn "property-key value tag") (property_type_from_tag value_tag);
       Ok (insert_property_key (w_catalog w)
             {| key_id := word 0%nat; key_name := name; key_family := fam; key_type := type |})
     else if decide (kind = OP_CATALOG_REGISTER_PROJECTION) then
       words ← decode_def_words blob (word 3%nat) (word 4%nat) lsn;
       definition ← map_err (log_corrupt lsn) (decode_projection_body (op_flags op) name words);
       Ok (insert_projection (w_catalog w) (word 0%nat) definition)
     else
       words ← decode_def_words blob (word 3%nat) (word 4%nat) lsn;
       definition ← map_err (log_corrupt lsn) (decode_index_body (op_flags op) words);
       Ok (insert_index (w_catalog w) (word 0%nat) name definition));
  catalog ← catalog_result registered;
  Ok (with_catalog w catalog).

Definition apply_set_property (w : WriteOverlay) (op : MutationOp) (blob : list byte) (lsn : Z) : res DbError WriteOverlay :=
  let word := op_word op in
  let '(subject_kind, value_tag) := unpack_flags (op_flags op) in
  subject ← ok_or (log_corrupt lsn "set-property subject kind") (decode_subject subject_kind (word 0%nat));
  value_type ← ok_or (log_corrupt lsn "set-property value tag") (property_type_from_tag value_tag);
  value ← match value_type with
          | TypeBoolean => Ok (PBoolean (negb (bool_decide (word 2%nat = 0))))
          | TypeInteger => Ok (PInteger (cast_signed (word 2%nat)))
          | TypeText => text ← blob_str blob (word 3%nat) (word 4%nat) lsn; Ok (PText text)
          end;
  Ok (set_property_inner base w subject (word 1%nat) value).

Definition is_topology_kind (kind : Z) : bool :=
  bool_decide (kind ∈ [OP_CREATE_ELEMENT; OP_CREATE_RELATION; OP_CREATE_INCIDENCE; OP_TOMBSTONE_ELEMENT;
    OP_TOMBSTONE_RELATION; OP_TOMBSTONE_INCIDENCE; OP_ADD_ELEMENT_LABEL; OP_ADD_RELATION_LABEL; OP_SET_RELATION_TYPE]).
Definition is_catalog_kind (kind : Z) : bool :=
  bool_decide (kind ∈ [OP_CATALOG_REGISTER_ROLE; OP_CATALOG_REGISTER_LABEL; OP_CATALOG_REGISTER_RELATION_TYPE;
    OP_CATALOG_REGISTER_PROPERTY_KEY; OP_CATALOG_REGISTER_PROJECTION; OP_CATALOG_REGISTER_INDEX]).

Definition watermark_ids (op : MutationOp) : NextIds :=
  let word := op_word op in
  {| next_element := word 0%nat; next_relation := word 1%nat; next_incidence := word 2%nat; next_role := word 3%nat;
     next_label := word 4%nat; next_relation_type := word 5%nat; next_property_key := word 6%nat;
     next_projection := word 7%nat; next_index := word 8%nat |}.

Definition apply_replay_op (w : WriteOverlay) (op : MutationOp) (blob : list byte) (lsn : Z) : res DbError WriteOverlay :=
  let kind := op_kind op in
  if is_topology_kind kind then Ok (apply_topology_op w op)
  else if decide (kind = OP_SET_PROPERTY) then apply_set_property w op blob lsn
  else if decide (kind = OP_REMOVE_PROPERTY) then
    let '(subject_kind, _) := unpack_flags (op_flags op) in
    subject ← ok_or (log_corrupt lsn "remove-property subject kind") (decode_subject subject_kind (op_word op 0));
    Ok (remove_property_inner base w subject (op_word op 1))
  else if is_catalog_kind kind then apply_catalog_op w op blob lsn
  else if decide (kind = OP_NEXT_ID_WATERMARK) then Ok (with_next w (watermark_ids op))
  else Err (log_corrupt lsn "unknown mutation op kind").

(** The ops of one frame, in order ([for op in &frame.ops]). *)
Definition apply_frame_ops (w : WriteOverlay) (ops : list MutationOp) (blob : list byte) (lsn : Z) : res DbError WriteOverlay :=
  for_each (λ w op, apply_replay_op w op blob lsn) ops w.

End replay.
