(* ===== verification/OverlayReplay.v ===== *)
(** * OverlayReplay: a logged transaction replays to the state it left

    Any sequence of mutator calls, refused ones included, is recorded so that
    replaying the frame over the parent's state gives the writer's state: the
    deltas, the catalog, the id watermark and the indexes. *)

From Stdlib Require Import String.
From stdpp Require Import base gmap sets list strings.
From S2P Require Import Prelude Bytes Ordered DbError DbWire DbState OverlayIndex Overlay.

Local Open Scope Z_scope.

(** ** The calls of a transaction *)

Inductive WriteCall :=
  | CallCreateElement
  | CallCreateRelation
  | CallCreateIncidence (relation element role : Z)
  | CallTombstoneElement (id : Z)
  | CallTombstoneRelation (id : Z)
  | CallTombstoneIncidence (id : Z)
  | CallAddElementLabel (element label : Z)
  | CallAddRelationLabel (relation label : Z)
  | CallSetRelationType (relation relation_type : Z)
  | CallSetProperty (subject : PropertySubject) (key : Z) (value : PropertyValue)
  | CallRemoveProperty (subject : PropertySubject) (key : Z)
  | CallRegisterRole (name : list byte)
  | CallRegisterLabel (name : list byte)
  | CallRegisterRelationType (name : list byte)
  | CallRegisterPropertyKey (name : list byte) (fam : PropertyFamily) (type : PropertyType)
  | CallRegisterProjection (definition : ProjectionDefinition)
  | CallRegisterIndex (name : list byte) (definition : IndexDefinition).

(** The state a call leaves behind, whether it succeeds or not. *)
Definition run_call (base : BaseRecords) (w : WriteOverlay) (call : WriteCall) : WriteOverlay :=
  match call with
  | CallCreateElement => (create_element w).1
  | CallCreateRelation => (create_relation w).1
  | CallCreateIncidence r e role => (create_incidence w r e role).1
  | CallTombstoneElement id => tombstone_element base w id
  | CallTombstoneRelation id => tombstone_relation base w id
  | CallTombstoneIncidence id => tombstone_incidence base w id
  | CallAddElementLabel e l => add_element_label base w e l
  | CallAddRelationLabel r l => add_relation_label base w r l
  | CallSetRelationType r t => set_relation_type base w r t
  | CallSetProperty s k v => set_property base w s k v
  | CallRemoveProperty s k => remove_property base w s k
  | CallRegisterRole name => (register_role w name).1
  | CallRegisterLabel name => (register_label w name).1
  | CallRegisterRelationType name => (register_relation_type w name).1
  | CallRegisterPropertyKey name fam type => (register_property_key w name fam type).1
  | CallRegisterProjection d => (register_projection w d).1
  | CallRegisterIndex name d => (register_index w name d).1
  end.

Definition run_calls (base : BaseRecords) (w : WriteOverlay) (calls : list WriteCall) : WriteOverlay :=
  foldl (run_call base) w calls.

Section replay.
Context `{!Target} (base : BaseRecords).

(** Arguments a Rust caller can pass: [u64] ids, valid strings, [i64] integers,
    definitions that fit in memory. *)
Definition words_wf (words : list Z) : Prop := Forall (is_uint 64) words.

Definition call_wf (call : WriteCall) : Prop :=
  match call with
  | CallCreateElement | CallCreateRelation => True
  | CallCreateIncidence r e role => words_wf [r; e; role]
  | CallTombstoneElement id | CallTombstoneRelation id | CallTombstoneIncidence id => words_wf [id]
  | CallAddElementLabel a b | CallAddRelationLabel a b | CallSetRelationType a b => words_wf [a; b]
  | CallSetProperty s k v => words_wf [subject_id s; k] ∧ value_wf v
  | CallRemoveProperty s k => words_wf [subject_id s; k]
  | CallRegisterRole name | CallRegisterLabel name | CallRegisterRelationType name
  | CallRegisterPropertyKey name _ _ => utf8_valid name = true
  | CallRegisterProjection d =>
      utf8_valid (projection_name d) = true ∧ body_fits d ∧ words_wf (encode_projection_body d).2
  | CallRegisterIndex name d => utf8_valid name = true ∧ words_wf (encode_index_body d).2
  end.

(** The same deltas, catalog and indexes with other allocators and another log. *)
Definition relog (w : WriteOverlay) (n : NextIds) (l : MutationLog) : WriteOverlay := with_log (with_next w n) l.

Lemma relog_id w : relog w (w_next w) (w_log w) = w.
Proof. by destruct w. Qed.

(** Nothing but the log and the allocators tells [w] and [relog w n l] apart. *)
Lemma put_element_relog w n l id : put_element (relog w n l) id = relog (put_element w id) n l.
Proof. done. Qed.
Lemma put_relation_relog w n l id : put_relation (relog w n l) id = relog (put_relation w id) n l.
Proof. done. Qed.
Lemma put_incidence_relog w n l a b c d : put_incidence (relog w n l) a b c d = relog (put_incidence w a b c d) n l.
Proof. done. Qed.
Lemma tombstone_element_relog w n l id :
  tombstone_element_inner base (relog w n l) id = relog (tombstone_element_inner base w id) n l.
Proof. done. Qed.
Lemma tombstone_relation_relog w n l id :
  tombstone_relation_inner base (relog w n l) id = relog (tombstone_relation_inner base w id) n l.
Proof. done. Qed.
Lemma tombstone_incidence_relog w n l id :
  tombstone_incidence_inner base (relog w n l) id = relog (tombstone_incidence_inner base w id) n l.
Proof.
  unfold tombstone_incidence_inner. change (visible_incidence base (relog w n l) id) with (visible_incidence base w id).
  by destruct (visible_incidence base w id).
Qed.
Lemma add_element_label_relog w n l e label :
  add_element_label_inner base (relog w n l) e label = relog (add_element_label_inner base w e label) n l.
Proof.
  unfold add_element_label_inner. cbn [relog with_log with_next w_elements].
  destruct (edit_record (w_elements w) _ _ _) as [d []]; done.
Qed.
Lemma add_relation_label_relog w n l r label :
  add_relation_label_inner base (relog w n l) r label = relog (add_relation_label_inner base w r label) n l.
Proof. done. Qed.
Lemma set_relation_type_relog w n l r t :
  set_relation_type_inner base (relog w n l) r t = relog (set_relation_type_inner base w r t) n l.
Proof.
  unfold set_relation_type_inner. cbn [relog with_log with_next w_relations].
  destruct (edit_record (w_relations w) _ _ _) as [d []]; done.
Qed.
Lemma set_property_relog w n l s k v :
  set_property_inner base (relog w n l) s k v = relog (set_property_inner base w s k v) n l.
Proof. done. Qed.
Lemma remove_property_relog w n l s k :
  remove_property_inner base (relog w n l) s k = relog (remove_property_inner base w s k) n l.
Proof. done. Qed.

(** ** Reading the blob *)

Lemma blob_slice {A} (pre mid post : list A) :
  take (Z.to_nat (zlen mid)) (drop (Z.to_nat (zlen pre)) (pre ++ mid ++ post)) = mid.
Proof. unfold zlen. by rewrite !Nat2Z.id, drop_app_length, take_app_length. Qed.

Lemma blob_str_at pre text post lsn :
  utf8_valid text = true → zlen (pre ++ text ++ post) ≤ usize_max →
  blob_str (pre ++ text ++ post) (zlen pre) (zlen text) lsn = Ok text.
Proof.
  intros Hu Hfit. rewrite !zlen_app in Hfit. pose proof (zlen_nonneg pre). pose proof (zlen_nonneg text).
  pose proof (zlen_nonneg post). unfold blob_str.
  rewrite try_into_fits by lia. cbn [ok_or mbind res_bind]. rewrite try_into_fits by lia. cbn [ok_or mbind res_bind].
  rewrite checked_add_fits by lia. cbn [ok_or mbind res_bind]. rewrite decide_True by (rewrite !zlen_app; lia).
  by rewrite blob_slice, Hu.
Qed.

Lemma decode_def_words_at pre words post lsn :
  words_wf words → zlen (pre ++ words_bytes 8 words ++ post) ≤ usize_max →
  decode_def_words (pre ++ words_bytes 8 words ++ post) (zlen pre) (zlen (words_bytes 8 words)) lsn = Ok words.
Proof.
  intros Hw Hfit. rewrite !zlen_app in Hfit. pose proof (zlen_nonneg pre). pose proof (zlen_nonneg (words_bytes 8 words)).
  pose proof (zlen_nonneg post). unfold decode_def_words.
  rewrite try_into_fits by lia. cbn [ok_or mbind res_bind]. rewrite try_into_fits by lia. cbn [ok_or mbind res_bind].
  rewrite checked_add_fits by lia. cbn [ok_or mbind res_bind]. rewrite decide_True by (rewrite !zlen_app; lia).
  rewrite blob_slice. rewrite decide_True.
  - f_equal. rewrite length_words_bytes, Nat.mul_comm, Nat.div_mul by done.
    rewrite <-(app_nil_r (words_bytes 8 words)). by apply words_codec.
  - unfold zlen. rewrite length_words_bytes, Nat2Z.inj_mul, Z.mul_comm. by apply Z.mod_mul.
Qed.

(** ** What a step adds to the log *)

Definition next_wf (n : NextIds) : Prop := words_wf (next_words n).

(** [w'] is [w] after mutations whose log entries replay them. *)
Definition Logged (w w' : WriteOverlay) : Prop :=
  ∃ ops extra,
    w_log w' = {| ml_ops := ml_ops (w_log w) ++ ops; ml_blob := ml_blob (w_log w) ++ extra |} ∧
    (next_wf (w_next w) → next_wf (w_next w') ∧ next_le (w_next w) (w_next w')) ∧
    (next_wf (w_next w) → zlen (ml_blob (w_log w')) ≤ usize_max → Forall op_wf ops) ∧
    ∀ n l post lsn, zlen (ml_blob (w_log w') ++ post) ≤ usize_max →
      apply_frame_ops base (relog w n l) ops (ml_blob (w_log w') ++ post) lsn = Ok (relog w' n l).

Lemma Logged_refl w : Logged w w.
Proof.
  exists [], []. rewrite !app_nil_r. split_and!; [by destruct (w_log w)|by intros|by constructor|done].
Qed.

Lemma Logged_trans w1 w2 w3 : Logged w1 w2 → Logged w2 w3 → Logged w1 w3.
Proof.
  intros (ops & extra & Hl & Hn & Hw & Hr) (ops' & extra' & Hl' & Hn' & Hw' & Hr').
  exists (ops ++ ops'), (extra ++ extra'). rewrite Hl', Hl in *. cbn [ml_ops ml_blob] in *. rewrite <-!app_assoc.
  split_and!; [done| | |].
  - intros Hwf. destruct (Hn Hwf) as [Hwf2 Hle]. destruct (Hn' Hwf2) as [Hwf3 Hle']. split; [done|by etrans].
  - intros Hwf Hfit. apply Forall_app. rewrite !zlen_app in *. pose proof (zlen_nonneg extra').
    split; [apply Hw; [done|lia]|apply Hw'; [apply (Hn Hwf)|lia]].
  - intros n l post lsn Hfit. unfold apply_frame_ops in *. rewrite for_each_app.
    specialize (Hr n l (extra' ++ post) lsn). rewrite <-!app_assoc in *. rewrite Hr by done. cbn [mbind res_bind].
    specialize (Hr' n l post lsn). rewrite <-!app_assoc in Hr'. by apply Hr'.
Qed.

Lemma Logged_one w w' op extra :
  w_log w' = {| ml_ops := ml_ops (w_log w) ++ [op]; ml_blob := ml_blob (w_log w) ++ extra |} →
  (next_wf (w_next w) → next_wf (w_next w') ∧ next_le (w_next w) (w_next w')) →
  (next_wf (w_next w) → zlen (ml_blob (w_log w')) ≤ usize_max → op_wf op) →
  (∀ n l post lsn, zlen (ml_blob (w_log w') ++ post) ≤ usize_max →
    apply_replay_op base (relog w n l) op (ml_blob (w_log w') ++ post) lsn = Ok (relog w' n l)) →
  Logged w w'.
Proof.
  intros Hl Hn Hw Hr. exists [op], extra. split_and!; [done|done|intros; repeat constructor; by apply Hw|].
  intros n l post lsn Hfit. unfold apply_frame_ops. cbn [for_each]. by rewrite Hr.
Qed.

(** A step that only interns bytes or draws an id logs no op. *)
Lemma Logged_none w w' extra :
  w_log w' = {| ml_ops := ml_ops (w_log w); ml_blob := ml_blob (w_log w) ++ extra |} →
  (next_wf (w_next w) → next_wf (w_next w') ∧ next_le (w_next w) (w_next w')) →
  (∀ n l, relog w n l = relog w' n l) → Logged w w'.
Proof.
  intros Hl Hn Hr. exists [], extra. rewrite app_nil_r. split_and!; [done|done|by constructor|].
  intros. unfold apply_frame_ops. cbn [for_each]. by rewrite Hr.
Qed.

Lemma pushed_op_wf kind flags words :
  is_uint 32 kind → is_uint 32 flags → words_wf words → (length words ≤ MUTATION_OP_PAYLOAD_WORDS)%nat →
  op_wf (make_op kind flags words).
Proof.
  intros Hk Hf Hw Hl. constructor; cbn [make_op op_kind op_flags op_payload]; [done|done| |].
  - rewrite length_take, length_app, length_replicate. lia.
  - apply Forall_take, Forall_app. split; [done|]. apply Forall_replicate. split; lia.
Qed.

(** Drawing an id. *)
Lemma drawn_wf (n n' : NextIds) i id id' :
  next_words n !! i = Some id → checked_next id = Some id' → next_words n' = <[i := id']> (next_words n) →
  next_wf n → next_wf n' ∧ next_le n n' ∧ is_uint 64 id.
Proof.
  intros Hi Hc Hn Hwf. pose proof (Forall_lookup_1 _ _ _ _ Hwf Hi) as [H0 _]. apply checked_add_Some in Hc as [Hle ->].
  unfold ID_MAX, u64_max in Hle. unfold next_wf, next_le, words_wf. rewrite Hn. split_and!.
  - apply Forall_insert; [done|]. unfold is_uint. lia.
  - apply Forall2_same_length_lookup_2; [by rewrite length_insert|]. intros j x y Hx Hy.
    apply list_lookup_insert_Some in Hy as [(-> & <- & _)|(_ & Hy)]; [rewrite Hx in Hi; injection Hi as ->; lia|].
    rewrite Hx in Hy. by injection Hy as ->.
  - unfold is_uint. lia.
Qed.

(** ** Every call is logged *)

(** The pushed op: constant kind and flags, and its words one by one. *)
Ltac pushed := apply pushed_op_wf;
  [split; [done|vm_compute; reflexivity]
  |split; [done|vm_compute; reflexivity]
  |unfold words_wf; repeat (apply Forall_cons_2); [..|by apply Forall_nil_2]
  |unfold MUTATION_OP_PAYLOAD_WORDS; cbn [length]; lia].

Lemma logged_create_element w : Logged w (create_element w).1.
Proof.
  unfold create_element. destruct (checked_next _) as [id'|] eqn:Hc; [|apply Logged_refl]. cbn [fst].
  pose proof (drawn_wf (w_next w) (set_next_element (w_next w) id') 0 _ _ eq_refl Hc eq_refl) as Hd.
  eapply (Logged_one _ _ _ []); [by rewrite app_nil_r|intros Hn; split; by apply Hd| |by intros].
  intros Hn _. pushed. by apply Hd.
Qed.

Lemma logged_create_relation w : Logged w (create_relation w).1.
Proof.
  unfold create_relation. destruct (checked_next _) as [id'|] eqn:Hc; [|apply Logged_refl]. cbn [fst].
  pose proof (drawn_wf (w_next w) (set_next_relation (w_next w) id') 1 _ _ eq_refl Hc eq_refl) as Hd.
  eapply (Logged_one _ _ _ []); [by rewrite app_nil_r|intros Hn; split; by apply Hd| |by intros].
  intros Hn _. pushed. by apply Hd.
Qed.

Lemma logged_create_incidence w r e role : words_wf [r; e; role] → Logged w (create_incidence w r e role).1.
Proof.
  intros Hw. apply Forall_cons in Hw as [Hr [He [Ho _]%Forall_cons]%Forall_cons].
  unfold create_incidence. destruct (checked_next _) as [id'|] eqn:Hc; [|apply Logged_refl]. cbn [fst].
  pose proof (drawn_wf (w_next w) (set_next_incidence (w_next w) id') 2 _ _ eq_refl Hc eq_refl) as Hd.
  eapply (Logged_one _ _ _ []); [by rewrite app_nil_r|intros Hn; split; by apply Hd| |by intros].
  intros Hn _. pushed; [by apply Hd|done..].
Qed.

(** A mutation [f w] that changes neither log nor allocators, followed by one
    push that replays it. *)
Lemma logged_push f w kind flags words :
  w_log (f w) = w_log w → w_next (f w) = w_next w → op_wf (make_op kind flags words) →
  (∀ n l blob lsn, apply_replay_op base (relog w n l) (make_op kind flags words) blob lsn = Ok (relog (f w) n l)) →
  Logged w (log_push (f w) kind flags words).
Proof.
  intros Hl Hn Hw Hr. eapply (Logged_one _ _ _ []).
  - cbn [log_push with_log w_log]. unfold push_op. by rewrite Hl, app_nil_r.
  - cbn [log_push with_log w_next]. rewrite Hn. intros H1. split; [exact H1|reflexivity].
  - intros _ _. exact Hw.
  - intros n l post lsn _. by rewrite Hr.
Qed.

Lemma logged_tombstone_element w id : words_wf [id] → Logged w (tombstone_element base w id).
Proof.
  intros [Hi _]%Forall_cons. apply (logged_push (λ w, tombstone_element_inner base w id)); [done|done| |done].
  by pushed.
Qed.

Lemma logged_tombstone_relation w id : words_wf [id] → Logged w (tombstone_relation base w id).
Proof.
  intros [Hi _]%Forall_cons. apply (logged_push (λ w, tombstone_relation_inner base w id)); [done|done| |done].
  by pushed.
Qed.

Lemma logged_tombstone_incidence w id : words_wf [id] → Logged w (tombstone_incidence base w id).
Proof.
  intros [Hi _]%Forall_cons. apply (logged_push (λ w, tombstone_incidence_inner base w id)).
  - unfold tombstone_incidence_inner. by destruct (visible_incidence base w id).
  - unfold tombstone_incidence_inner. by destruct (visible_incidence base w id).
  - by pushed.
  - intros. rewrite <-tombstone_incidence_relog. done.
Qed.

Lemma logged_add_element_label w e label : words_wf [e; label] → Logged w (add_element_label base w e label).
Proof.
  intros [He [Hl _]%Forall_cons]%Forall_cons. apply (logged_push (λ w, add_element_label_inner base w e label)).
  - unfold add_element_label_inner. by destruct (edit_record _ _ _ _) as [d []].
  - unfold add_element_label_inner. by destruct (edit_record _ _ _ _) as [d []].
  - by pushed.
  - intros. rewrite <-add_element_label_relog. done.
Qed.

Lemma logged_add_relation_label w r label : words_wf [r; label] → Logged w (add_relation_label base w r label).
Proof.
  intros [He [Hl _]%Forall_cons]%Forall_cons.
  apply (logged_push (λ w, add_relation_label_inner base w r label)); [done|done| |done].
  by pushed.
Qed.

Lemma logged_set_relation_type w r t : words_wf [r; t] → Logged w (set_relation_type base w r t).
Proof.
  intros [He [Hl _]%Forall_cons]%Forall_cons. apply (logged_push (λ w, set_relation_type_inner base w r t)).
  - unfold set_relation_type_inner. by destruct (edit_record _ _ _ _) as [d []].
  - unfold set_relation_type_inner. by destruct (edit_record _ _ _ _) as [d []].
  - by pushed.
  - intros. rewrite <-set_relation_type_relog. done.
Qed.

Lemma usize_u64 v : 0 ≤ v ≤ usize_max → is_uint 64 v.
Proof.
  intros Hv. pose proof usize_max_bounds. unfold is_uint. lia.
Qed.

Lemma logged_remove_property w s k : words_wf [subject_id s; k] → Logged w (remove_property base w s k).
Proof.
  intros [Hs [Hk _]%Forall_cons]%Forall_cons.
  assert (Logged w (log_push (remove_property_inner base w s k) OP_REMOVE_PROPERTY (pack_flags (encode_subject s).1 0)
    [subject_id s; k])) as Hlog.
  { apply (logged_push (λ w, remove_property_inner base w s k)); [done|done|by destruct s; pushed|].
    intros. by destruct s. }
  by destruct s.
Qed.

Lemma logged_set_property w s k v : words_wf [subject_id s; k] → value_wf v → Logged w (set_property base w s k v).
Proof.
  intros [Hs [Hk _]%Forall_cons]%Forall_cons Hv. unfold set_property.
  destruct (visible_property_is base w s k v); [apply Logged_refl|]. destruct v as [b|z|text].
  - assert (Logged w (log_push (set_property_inner base w s k (PBoolean b)) OP_SET_PROPERTY
      (pack_flags (encode_subject s).1 0) [subject_id s; k; if b then 1 else 0; 0; 0])) as Hlog; [|by destruct s].
    apply (logged_push (λ w, set_property_inner base w s k (PBoolean b))); [done|done| |].
    + destruct s; pushed; try done; by destruct b.
    + intros. by destruct s, b.
  - assert (Logged w (log_push (set_property_inner base w s k (PInteger z)) OP_SET_PROPERTY
      (pack_flags (encode_subject s).1 1) [subject_id s; k; cast_unsigned z; 0; 0])) as Hlog; [|by destruct s].
    apply (logged_push (λ w, set_property_inner base w s k (PInteger z))); [done|done| |].
    + destruct s; pushed; try done; apply cast_unsigned_u64.
    + intros n l blob lsn. assert (cast_signed (cast_unsigned z) = z) as Hz by by apply cast_roundtrip.
      assert (apply_replay_op base (relog w n l) (make_op OP_SET_PROPERTY (pack_flags (encode_subject s).1 1)
        [subject_id s; k; cast_unsigned z; 0; 0]) blob lsn =
        Ok (set_property_inner base (relog w n l) s k (PInteger (cast_signed (cast_unsigned z))))) as -> by by destruct s.
      by rewrite Hz.
  - set (blob := ml_blob (w_log w)). cbn [value_wf] in Hv.
    assert (Logged w (with_log (set_property_inner base w s k (PText text))
      (push_op {| ml_ops := ml_ops (w_log w); ml_blob := blob ++ text |} OP_SET_PROPERTY
         (pack_flags (encode_subject s).1 2) [subject_id s; k; 0; zlen blob; zlen text]))) as Hlog; [|by destruct s].
    eapply (Logged_one _ _ _ text); [done|intros Hn; split; [exact Hn|reflexivity]| |].
    + cbn [with_log w_log push_op ml_blob]. intros _ Hfit. rewrite zlen_app in Hfit.
      pose proof (zlen_nonneg blob). pose proof (zlen_nonneg text).
      destruct s; pushed; try done; apply usize_u64; lia.
    + cbn [with_log w_log push_op ml_blob]. intros n l post lsn Hfit. rewrite <-app_assoc in *.
      assert (apply_replay_op base (relog w n l) (make_op OP_SET_PROPERTY (pack_flags (encode_subject s).1 2)
        [subject_id s; k; 0; zlen blob; zlen text]) (blob ++ text ++ post) lsn =
        (t ← blob_str (blob ++ text ++ post) (zlen blob) (zlen text) lsn;
         Ok (set_property_inner base (relog w n l) s k (PText t)))) as ->.
      { transitivity (v ← (t ← blob_str (blob ++ text ++ post) (zlen blob) (zlen text) lsn; Ok (PText t));
          Ok (set_property_inner base (relog w n l) s k v)); [by destruct s|by destruct (blob_str _ _ _ _)]. }
      by rewrite blob_str_at.
Qed.

(** *** Registrations *)

Lemma logged_register w next' id registered kind flags words extra :
  (next_wf (w_next w) → next_wf next' ∧ next_le (w_next w) next') →
  (next_wf (w_next w) → zlen (ml_blob (w_log w) ++ extra) ≤ usize_max → op_wf (make_op kind flags words)) →
  (∀ n l post lsn, zlen (ml_blob (w_log w) ++ extra ++ post) ≤ usize_max →
     apply_replay_op base (relog w n l) (make_op kind flags words) (ml_blob (w_log w) ++ extra ++ post) lsn =
     (catalog ← catalog_result registered; Ok (with_catalog (relog w n l) catalog))) →
  Logged w (finish_register
    (with_log (with_next w next') {| ml_ops := ml_ops (w_log w); ml_blob := ml_blob (w_log w) ++ extra |})
    id registered kind flags words).1.
Proof.
  intros Hn Hw Hr. unfold finish_register.
  destruct (catalog_result registered) as [catalog|e| |] eqn:Hc;
    try (apply (Logged_none _ _ extra); [done|exact Hn|done]).
  cbn [fst]. eapply (Logged_one _ _ _ extra); [done|exact Hn|exact Hw|].
  cbn [log_push with_log w_log push_op ml_blob with_catalog]. intros n l post lsn Hfit. rewrite <-app_assoc in *.
  rewrite Hr by done. done.
Qed.

(** The slice a name takes in the blob. *)
Lemma slice_u64 (blob name : list byte) rest :
  zlen (blob ++ name ++ rest) ≤ usize_max → is_uint 64 (zlen blob) ∧ is_uint 64 (zlen name) ∧ is_uint 64 (zlen (blob ++ name)) ∧ is_uint 64 (zlen rest).
Proof.
  rewrite !zlen_app. pose proof (zlen_nonneg blob). pose proof (zlen_nonneg name). pose proof (zlen_nonneg rest).
  intros. split_and!; apply usize_u64; lia.
Qed.

Lemma replay_named w n l kind flags id (blob name : list byte) post lsn registered :
  utf8_valid name = true → zlen (blob ++ name ++ post) ≤ usize_max →
  apply_replay_op base (relog w n l) (make_op kind flags [id; zlen blob; zlen name]) (blob ++ name ++ post) lsn =
    (text ← blob_str (blob ++ name ++ post) (zlen blob) (zlen name) lsn;
     catalog ← catalog_result (registered text); Ok (with_catalog (relog w n l) catalog)) →
  apply_replay_op base (relog w n l) (make_op kind flags [id; zlen blob; zlen name]) (blob ++ name ++ post) lsn =
    (catalog ← catalog_result (registered name); Ok (with_catalog (relog w n l) catalog)).
Proof. intros Hu Hfit ->. by rewrite blob_str_at. Qed.

Lemma logged_register_role w name : utf8_valid name = true → Logged w (register_role w name).1.
Proof.
  intros Hu. unfold register_role. destruct (checked_next _) as [id'|] eqn:Hc; [|apply Logged_refl].
  pose proof (drawn_wf (w_next w) (set_next_role (w_next w) id') 3 _ _ eq_refl Hc eq_refl) as Hd.
  apply (logged_register w (set_next_role (w_next w) id') _ _ _ _ _ name); [intros Hn; split; by apply Hd| |].
  - intros Hn Hfit. rewrite <-(app_nil_r name) in Hfit. apply slice_u64 in Hfit as (Ho & Hl & _).
    pushed; [by apply Hd|done..].
  - intros n l post lsn Hfit. by apply (replay_named _ _ _ _ _ _ _ _ _ _ (insert_role (w_catalog w) (next_role (w_next w)))).
Qed.

Lemma logged_register_label w name : utf8_valid name = true → Logged w (register_label w name).1.
Proof.
  intros Hu. unfold register_label. destruct (checked_next _) as [id'|] eqn:Hc; [|apply Logged_refl].
  pose proof (drawn_wf (w_next w) (set_next_label (w_next w) id') 4 _ _ eq_refl Hc eq_refl) as Hd.
  apply (logged_register w (set_next_label (w_next w) id') _ _ _ _ _ name); [intros Hn; split; by apply Hd| |].
  - intros Hn Hfit. rewrite <-(app_nil_r name) in Hfit. apply slice_u64 in Hfit as (Ho & Hl & _).
    pushed; [by apply Hd|done..].
  - intros n l post lsn Hfit. by apply (replay_named _ _ _ _ _ _ _ _ _ _ (insert_label (w_catalog w) (next_label (w_next w)))).
Qed.

Lemma logged_register_relation_type w name : utf8_valid name = true → Logged w (register_relation_type w name).1.
Proof.
  intros Hu. unfold register_relation_type. destruct (checked_next _) as [id'|] eqn:Hc; [|apply Logged_refl].
  pose proof (drawn_wf (w_next w) (set_next_relation_type (w_next w) id') 5 _ _ eq_refl Hc eq_refl) as Hd.
  apply (logged_register w (set_next_relation_type (w_next w) id') _ _ _ _ _ name); [intros Hn; split; by apply Hd| |].
  - intros Hn Hfit. rewrite <-(app_nil_r name) in Hfit. apply slice_u64 in Hfit as (Ho & Hl & _).
    pushed; [by apply Hd|done..].
  - intros n l post lsn Hfit.
    by apply (replay_named _ _ _ _ _ _ _ _ _ _ (insert_relation_type (w_catalog w) (next_relation_type (w_next w)))).
Qed.

Lemma logged_register_property_key w name fam type :
  utf8_valid name = true → Logged w (register_property_key w name fam type).1.
Proof.
  intros Hu. unfold register_property_key. destruct (checked_next _) as [id'|] eqn:Hc; [|apply Logged_refl].
  pose proof (drawn_wf (w_next w) (set_next_property_key (w_next w) id') 6 _ _ eq_refl Hc eq_refl) as Hd.
  apply (logged_register w (set_next_property_key (w_next w) id') _ _ _ _ _ name); [intros Hn; split; by apply Hd| |].
  - intros Hn Hfit. rewrite <-(app_nil_r name) in Hfit. apply slice_u64 in Hfit as (Ho & Hl & _).
    destruct fam, type; pushed; first [by apply Hd|done].
  - intros n l post lsn Hfit.
    apply (replay_named _ _ _ _ _ _ _ _ _ _ (λ name, insert_property_key (w_catalog w)
      {| key_id := next_property_key (w_next w); key_name := name; key_family := fam; key_type := type |})); [done|done|].
    by destruct fam, type.
Qed.

(** A name and a definition body, one after the other in the blob. *)
Lemma blob_name_words (blob name : list byte) words post lsn :
  utf8_valid name = true → words_wf words → zlen (blob ++ (name ++ words_bytes 8 words) ++ post) ≤ usize_max →
  blob_str (blob ++ (name ++ words_bytes 8 words) ++ post) (zlen blob) (zlen name) lsn = Ok name ∧
  decode_def_words (blob ++ (name ++ words_bytes 8 words) ++ post) (zlen (blob ++ name)) (zlen (words_bytes 8 words)) lsn = Ok words.
Proof.
  intros Hu Hw. rewrite <-!app_assoc. intros Hfit. split; [by apply blob_str_at|].
  rewrite app_assoc in *. by apply decode_def_words_at.
Qed.

Lemma logged_register_projection w d :
  utf8_valid (projection_name d) = true → body_fits d → words_wf (encode_projection_body d).2 →
  Logged w (register_projection w d).1.
Proof.
  intros Hu Hbody Hwords. pose proof (projection_body_codec d Hbody) as Hcodec. unfold register_projection.
  destruct (checked_next _) as [id'|] eqn:Hc; [|apply Logged_refl].
  pose proof (drawn_wf (w_next w) (set_next_projection (w_next w) id') 7 _ _ eq_refl Hc eq_refl) as Hd.
  assert (is_uint 32 (encode_projection_body d).1) as Hkind by (destruct d; (split; [done|vm_compute; reflexivity])).
  destruct (encode_projection_body d) as [kind words]. cbn [fst snd] in *.
  cbn [intern_words intern ml_blob ml_ops with_next w_log w_catalog with_log]. rewrite <-app_assoc.
  apply (logged_register w (set_next_projection (w_next w) id') _ _ _ _ _ (projection_name d ++ words_bytes 8 words));
    [intros Hn; split; by apply Hd| |].
  - intros Hn Hfit. apply slice_u64 in Hfit as (Ho & Hl & Hon & Hlw).
    apply pushed_op_wf; [by split|done| |unfold MUTATION_OP_PAYLOAD_WORDS; cbn; lia].
    unfold words_wf. repeat apply Forall_cons_2; [by apply Hd|done..|by apply Forall_nil_2].
  - intros n l post lsn Hfit. destruct (blob_name_words _ _ _ _ lsn Hu Hwords Hfit) as [Hn Hw].
    transitivity (apply_catalog_op (relog w n l) (make_op OP_CATALOG_REGISTER_PROJECTION kind
      [next_projection (w_next w); zlen (ml_blob (w_log w)); zlen (projection_name d);
       zlen (ml_blob (w_log w) ++ projection_name d); zlen (words_bytes 8 words)])
      (ml_blob (w_log w) ++ (projection_name d ++ words_bytes 8 words) ++ post) lsn); [done|].
    unfold apply_catalog_op. cbn [op_word make_op op_payload op_kind op_flags take app lookup list_lookup default id MUTATION_OP_PAYLOAD_WORDS].
    rewrite Hn. cbn [mbind res_bind]. do 4 rewrite decide_False by done. rewrite decide_True by done.
    rewrite Hw. cbn [mbind res_bind]. by rewrite Hcodec.
Qed.

Lemma logged_register_index w name d :
  utf8_valid name = true → words_wf (encode_index_body d).2 → Logged w (register_index w name d).1.
Proof.
  intros Hu Hwords. pose proof (index_body_codec d) as Hcodec. unfold register_index.
  destruct (checked_next _) as [id'|] eqn:Hc; [|apply Logged_refl].
  pose proof (drawn_wf (w_next w) (set_next_index (w_next w) id') 8 _ _ eq_refl Hc eq_refl) as Hd.
  assert (is_uint 32 (encode_index_body d).1) as Hkind by (destruct d; (split; [done|vm_compute; reflexivity])).
  destruct (encode_index_body d) as [kind words]. cbn [fst snd] in *.
  cbn [intern_words intern ml_blob ml_ops with_next w_log w_catalog with_log]. rewrite <-app_assoc.
  apply (logged_register w (set_next_index (w_next w) id') _ _ _ _ _ (name ++ words_bytes 8 words));
    [intros Hn; split; by apply Hd| |].
  - intros Hn Hfit. apply slice_u64 in Hfit as (Ho & Hl & Hon & Hlw).
    apply pushed_op_wf; [by split|done| |unfold MUTATION_OP_PAYLOAD_WORDS; cbn; lia].
    unfold words_wf. repeat apply Forall_cons_2; [by apply Hd|done..|by apply Forall_nil_2].
  - intros n l post lsn Hfit. destruct (blob_name_words _ _ _ _ lsn Hu Hwords Hfit) as [Hn Hw].
    transitivity (apply_catalog_op (relog w n l) (make_op OP_CATALOG_REGISTER_INDEX kind
      [next_index (w_next w); zlen (ml_blob (w_log w)); zlen name; zlen (ml_blob (w_log w) ++ name); zlen (words_bytes 8 words)])
      (ml_blob (w_log w) ++ (name ++ words_bytes 8 words) ++ post) lsn); [done|].
    unfold apply_catalog_op. cbn [op_word make_op op_payload op_kind op_flags take app lookup list_lookup default id MUTATION_OP_PAYLOAD_WORDS].
    rewrite Hn. cbn [mbind res_bind]. do 5 rewrite decide_False by done.
    rewrite Hw. cbn [mbind res_bind]. by rewrite Hcodec.
Qed.

Lemma logged_call w call : call_wf call → Logged w (run_call base w call).
Proof.
  destruct call; cbn [call_wf run_call]; intros Hwf.
  - apply logged_create_element.
  - apply logged_create_relation.
  - by apply logged_create_incidence.
  - by apply logged_tombstone_element.
  - by apply logged_tombstone_relation.
  - by apply logged_tombstone_incidence.
  - by apply logged_add_element_label.
  - by apply logged_add_relation_label.
  - by apply logged_set_relation_type.
  - destruct Hwf. by apply logged_set_property.
  - by apply logged_remove_property.
  - by apply logged_register_role.
  - by apply logged_register_label.
  - by apply logged_register_relation_type.
  - by apply logged_register_property_key.
  - destruct Hwf as (? & ? & ?). by apply logged_register_projection.
  - destruct Hwf. by apply logged_register_index.
Qed.

Lemma logged_calls w calls : Forall call_wf calls → Logged w (run_calls base w calls).
Proof.
  intros Hc. revert w. induction Hc as [|call calls Hcall _ IH]; intros w; [apply Logged_refl|].
  eapply Logged_trans; [by apply (logged_call w)|apply IH].
Qed.

(** The watermark op decodes to the allocators. *)
Lemma watermark_codec next : watermark_ids (make_op OP_NEXT_ID_WATERMARK 0 (next_words next)) = next.
Proof. by destruct next. Qed.

Lemma watermark_wf next : next_wf next → op_wf (make_op OP_NEXT_ID_WATERMARK 0 (next_words next)).
Proof. intros Hn. apply pushed_op_wf; [split; [done|vm_compute; reflexivity]|split; [done|vm_compute; reflexivity]|done|cbn; unfold MUTATION_OP_PAYLOAD_WORDS; lia]. Qed.

(** The frame of a transaction: its ops are well formed and its allocators have not gone back. *)
Lemma frame_facts parent calls :
  Forall call_wf calls → next_wf (o_next parent) →
  let w := run_calls base (from_overlay parent) calls in
  zlen (ml_blob (w_log w)) ≤ usize_max →
  next_wf (w_next w) ∧ next_le (o_next parent) (w_next w) ∧ Forall op_wf (take_frame w).1.1.
Proof.
  intros Hcalls Hn w Hfit. destruct (logged_calls (from_overlay parent) calls Hcalls) as (ops & extra & Hl & Hnext & Hw & _).
  fold w in Hl, Hnext, Hw. destruct (Hnext Hn) as [Hn' Hle]. split_and!; [done|done|].
  cbn [take_frame fst push_watermark push_op ml_ops]. rewrite Hl. cbn [ml_ops]. apply Forall_app.
  split; [by apply Hw|]. apply Forall_singleton. by apply watermark_wf.
Qed.

Lemma replay_frame parent calls lsn :
  Forall call_wf calls →
  let w := run_calls base (from_overlay parent) calls in
  zlen (ml_blob (w_log w)) ≤ usize_max →
  apply_frame_ops base (from_overlay parent) (take_frame w).1.1 (take_frame w).1.2 lsn =
    Ok (from_overlay (freeze_overlay w)).
Proof.
  intros Hcalls w Hfit. destruct (logged_calls (from_overlay parent) calls Hcalls) as (ops & extra & Hl & _ & _ & Hr).
  fold w in Hl, Hr. cbn [take_frame fst snd push_watermark push_op ml_ops ml_blob]. rewrite Hl in Hfit, Hr |- *.
  cbn [ml_ops ml_blob from_overlay w_log empty_log app] in *. unfold apply_frame_ops in *. rewrite for_each_app.
  specialize (Hr (o_next parent) empty_log [] lsn). rewrite app_nil_r in Hr. specialize (Hr Hfit).
  change (relog (from_overlay parent) (o_next parent) empty_log) with (from_overlay parent) in Hr.
  rewrite Hr. cbn [mbind res_bind]. cbn [for_each].
  transitivity (Ok (with_next (relog w (o_next parent) empty_log)
    (watermark_ids (make_op OP_NEXT_ID_WATERMARK 0 (next_words (w_next w))))) : res DbError WriteOverlay); [done|].
  by rewrite watermark_codec.
Qed.

(** C18. A transaction's log entry replays to the transaction. Start a writer
    from any published overlay and make any sequence of mutator calls, refused
    ones included. Replaying the ops and blob [take_frame] gives over that same
    overlay returns, and gives exactly the state the writer publishes: element,
    relation, incidence and property deltas, catalog, id watermark and every
    index posting. *)
Theorem replay_reproduces_transaction parent calls lsn :
  Forall call_wf calls →
  let w := run_calls base (from_overlay parent) calls in
  zlen (ml_blob (w_log w)) ≤ usize_max →
  ∃ r, apply_frame_ops base (from_overlay parent) (take_frame w).1.1 (take_frame w).1.2 lsn = Ok r ∧
    freeze_overlay r = freeze_overlay w.
Proof.
  intros Hcalls w Hfit. exists (from_overlay (freeze_overlay w)). split; [by apply replay_frame|].
  by destruct w.
Qed.

End replay.

(** ** A transaction with a refused registration and a tombstone *)

Definition demo_base : BaseRecords := {|
  base_elements := {[1 := {| el_id := 1; el_labels := {[4]} |}]}; base_relations := ∅; base_incidences := ∅;
  base_properties := {[SElement 1 := {[2 := PText [Byte.x61]]}]};
  base_index := from_records {[1 := {| el_id := 1; el_labels := {[4]} |}]} ∅ ∅ {[SElement 1 := {[2 := PText [Byte.x61]]}]}
|}.
Definition demo_parent : Overlay :=
  freeze_overlay (new_overlay (set_next_element INITIAL 2) empty_catalog).
Definition demo_calls : list WriteCall :=
  [CallRegisterRole [Byte.x72]; CallRegisterRole [Byte.x72]; CallCreateElement;
   CallSetProperty (SElement 2) 2 (PText [Byte.x62; Byte.x63]); CallAddElementLabel 1 9;
   CallRegisterIndex [Byte.x69] (IndexCompositeEquality [2; 3]); CallTombstoneElement 1].

Lemma demo_calls_wf : Forall (call_wf (H := target64)) demo_calls.
Proof.
  repeat apply Forall_cons_2; try apply Forall_nil_2; cbn [call_wf]; unfold words_wf; cbn;
    repeat first [split|apply Forall_cons_2|apply Forall_nil_2]; vm_compute; try reflexivity; discriminate.
Qed.

Lemma replay_reproduces_transaction_witness :
  let w := run_calls demo_base (from_overlay demo_parent) demo_calls in
  next_role (w_next w) = 3 ∧ length (ml_ops (w_log w)) = 6%nat ∧
  ∃ r, apply_frame_ops (H := target64) demo_base (from_overlay demo_parent) (take_frame w).1.1 (take_frame w).1.2 7 = Ok r ∧
    freeze_overlay r = freeze_overlay w.
Proof.
  split; [vm_compute; reflexivity|]. split; [vm_compute; reflexivity|].
  apply (replay_reproduces_transaction (H := target64) demo_base demo_parent demo_calls 7 demo_calls_wf).
  vm_compute. discriminate.
Defined.
