(* ===== verification/Merge.v ===== *)
(** * Merge: the read view of an overlay over its base

    Models [crates/oxgraph-db/src/overlay/merge.rs]: the layered state that a
    published [Overlay] or a writer's [WriteOverlay] forms with its base, the
    two merge iterators, the point reads, the index-backed lookups and the
    merge-scan defaults they override. A [Cow] is its value. *)

From Stdlib Require Import String.
From stdpp Require Import base gmap sets list strings.
From S2P Require Import Prelude Bytes Ordered DbError DbWire DbState OverlayIndex Overlay.

Local Open Scope Z_scope.

(** ** Records with an id *)

Class Keyed (R K : Type) := record_id : R → K.
#[global] Hint Mode Keyed ! - : typeclass_instances.

#[export] Instance element_keyed : Keyed ElementRecord Z := el_id.
#[export] Instance relation_keyed : Keyed RelationRecord Z := rel_id.
#[export] Instance incidence_keyed : Keyed IncidenceRecord Z := inc_id.

(** ** The merge of two ascending streams *)

Inductive Step (T : Type) := Done | Yield (item : T) | Again.
Arguments Done {T}.
Arguments Yield {T} _.
Arguments Again {T}.

Section merge_iter.
Context {R K} `{Keyed R K, KeyOrder K}.

(** The two peekable iterators, as what is left of them. *)
Record MergeIter := { mi_base : list R; mi_overlay : list (K * option R) }.

Definition take_base (it : MergeIter) : option R * MergeIter :=
  match mi_base it with
  | [] => (None, it)
  | r :: rs => (Some r, {| mi_base := rs; mi_overlay := mi_overlay it |})
  end.

(** [map_or(Step::Done, Step::Yield)]. *)
Definition yield_or_done {T} (x : option T) : Step T :=
  match x with Some item => Yield item | None => Done end.

Definition take_overlay (it : MergeIter) (mask_base : bool) : Step R * MergeIter :=
  let it := if mask_base then (take_base it).2 else it in
  match mi_overlay it with
  | [] => (Done, it)
  | (_, entry) :: rest =>
      (match entry with Some r => Yield r | None => Again end, {| mi_base := mi_base it; mi_overlay := rest |})
  end.

Definition merge_step (it : MergeIter) : Step R * MergeIter :=
  let base_id := record_id <$> head (mi_base it) in
  let overlay_id := fst <$> head (mi_overlay it) in
  match base_id, overlay_id with
  | None, None => (Done, it)
  | Some _, None => let '(r, it) := take_base it in (yield_or_done r, it)
  | Some base, Some overlay =>
      if decide (key_lt base overlay) then let '(r, it) := take_base it in (yield_or_done r, it)
      else take_overlay it (bool_decide (base_id = Some overlay))
  | None, Some overlay => take_overlay it (bool_decide (base_id = Some overlay))
  end.

(** [next] loops while a tombstone is passed over. *)
Fixpoint merge_next (fuel : nat) (it : MergeIter) : res DbError (option R * MergeIter) :=
  match fuel with
  | O => NoFuel
  | S fuel =>
      match merge_step it with
      | (Done, it) => Ok (None, it)
      | (Yield item, it) => Ok (Some item, it)
      | (Again, it) => merge_next fuel it
      end
  end.

(** [collect]: [next] until it answers [None]. *)
Fixpoint merge_collect (fuel : nat) (it : MergeIter) : res DbError (list R) :=
  match fuel with
  | O => NoFuel
  | S fuel =>
      '(item, it) ← merge_next (S (List.length (mi_overlay it))) it;
      match item with
      | None => Ok []
      | Some r => rs ← merge_collect fuel it; Ok (r :: rs)
      end
  end.

Definition merge_run (it : MergeIter) : res DbError (list R) :=
  merge_collect (S (List.length (mi_base it) + List.length (mi_overlay it))) it.

End merge_iter.
Arguments MergeIter : clear implicits.

(** The iterator over a record map and its delta. *)
Definition merge_new {R} (records : gmap Z R) (delta : Delta R) : MergeIter R Z :=
  {| mi_base := snd <$> map_iter records; mi_overlay := map_iter delta |}.

(** ** The merge of the flattened properties *)

Notation PropertyTriple := (PropertySubject * Z * PropertyValue)%type.

#[export] Instance property_pair_order : KeyOrder (PropertySubject * Z) :=
  derived_order (λ p, (encode_subject p.1, p.2)) (λ a b H, match a, b, H with (sa, ka), (sb, kb), H =>
    f_equal2 pair (encode_subject_inj sa sb (f_equal fst H)) (f_equal snd H) end).

(** Two slices and a position in each. *)
Record PropertyMergeIter := {
  pm_base : list PropertyTriple;
  pm_overlay : list (PropertySubject * Z * option PropertyValue);
  pm_base_index : nat;
  pm_overlay_index : nat
}.

Definition property_merge_new (base : list PropertyTriple) (overlay : list (PropertySubject * Z * option PropertyValue))
    : PropertyMergeIter := {| pm_base := base; pm_overlay := overlay; pm_base_index := 0; pm_overlay_index := 0 |}.

Definition advance_base (it : PropertyMergeIter) : PropertyMergeIter := {|
  pm_base := pm_base it; pm_overlay := pm_overlay it; pm_base_index := S (pm_base_index it); pm_overlay_index := pm_overlay_index it
|}.
Definition advance_overlay (it : PropertyMergeIter) : PropertyMergeIter := {|
  pm_base := pm_base it; pm_overlay := pm_overlay it; pm_base_index := pm_base_index it; pm_overlay_index := S (pm_overlay_index it)
|}.

Definition property_take_base (it : PropertyMergeIter) : option PropertyTriple * PropertyMergeIter :=
  match pm_base it !! pm_base_index it with
  | None => (None, it)
  | Some triple => (Some triple, advance_base it)
  end.

Definition property_take_overlay (it : PropertyMergeIter) (mask_base : bool) : Step PropertyTriple * PropertyMergeIter :=
  let it := if mask_base then advance_base it else it in
  match pm_overlay it !! pm_overlay_index it with
  | None => (Done, it)
  | Some (subject, key, entry) =>
      (match entry with Some value => Yield (subject, key, value) | None => Again end, advance_overlay it)
  end.

Definition property_merge_step (it : PropertyMergeIter) : Step PropertyTriple * PropertyMergeIter :=
  let base_pair := fst <$> pm_base it !! pm_base_index it in
  let overlay_pair := fst <$> pm_overlay it !! pm_overlay_index it in
  match base_pair, overlay_pair with
  | None, None => (Done, it)
  | Some _, None => let '(t, it) := property_take_base it in (yield_or_done t, it)
  | Some base, Some overlay =>
      if decide (key_lt base overlay) then let '(t, it) := property_take_base it in (yield_or_done t, it)
      else property_take_overlay it (bool_decide (base_pair = Some overlay))
  | None, Some overlay => property_take_overlay it (bool_decide (base_pair = Some overlay))
  end.

Fixpoint property_merge_next (fuel : nat) (it : PropertyMergeIter) : res DbError (option PropertyTriple * PropertyMergeIter) :=
  match fuel with
  | O => NoFuel
  | S fuel =>
      match property_merge_step it with
      | (Done, it) => Ok (None, it)
      | (Yield item, it) => Ok (Some item, it)
      | (Again, it) => property_merge_next fuel it
      end
  end.

Fixpoint property_merge_collect (fuel : nat) (it : PropertyMergeIter) : res DbError (list PropertyTriple) :=
  match fuel with
  | O => NoFuel
  | S fuel =>
      '(item, it) ← property_merge_next (S (List.length (pm_overlay it) - pm_overlay_index it)) it;
      match item with
      | None => Ok []
      | Some t => ts ← property_merge_collect fuel it; Ok (t :: ts)
      end
  end.

Definition property_merge_run (it : PropertyMergeIter) : res DbError (list PropertyTriple) :=
  property_merge_collect (S (List.length (pm_base it) + List.length (pm_overlay it))) it.

(** [overlay_property_triples]; [base_property_triples] is [property_rows]. *)
Definition overlay_property_triples (properties : gmap PropertySubject SubjectDelta)
    : list (PropertySubject * Z * option PropertyValue) :=
  '(s, keys) ← map_iter properties; (λ p, (s, p.1, p.2)) <$> map_iter keys.

(** ** The layered state *)

Class OverlayLayer (L : Type) := {
  layer_elements : L → Delta ElementRecord;
  layer_relations : L → Delta RelationRecord;
  layer_incidences : L → Delta IncidenceRecord;
  layer_properties : L → gmap PropertySubject SubjectDelta;
  layer_catalog : L → Catalog;
  layer_next_ids : L → NextIds;
  layer_index : L → OverlayIndex
}.

#[export] Instance overlay_layer : OverlayLayer Overlay := {|
  layer_elements := o_elements; layer_relations := o_relations; layer_incidences := o_incidences;
  layer_properties := o_properties; layer_catalog := o_catalog; layer_next_ids := o_next; layer_index := o_index
|}.
#[export] Instance write_overlay_layer : OverlayLayer WriteOverlay := {|
  layer_elements := w_elements; layer_relations := w_relations; layer_incidences := w_incidences;
  layer_properties := w_properties; layer_catalog := w_catalog; layer_next_ids := w_next; layer_index := w_index
|}.

Record LayeredState (L : Type) := layered { ls_base : BaseRecords; ls_overlay : L }.
Arguments layered {L} _ _.
Arguments ls_base {L} _.
Arguments ls_overlay {L} _.

Section layered_state.
Context `{OverlayLayer L} (v : LayeredState L).

(** *** Point reads *)

(** [element_ref], [relation_ref], [incidence_ref]: the delta's slot, or the base. *)
Definition layered_ref {R} (delta : Delta R) (records : gmap Z R) (id : Z) : option R :=
  match delta !! id with
  | Some (Some record) => Some record
  | Some None => None
  | None => records !! id
  end.

Definition view_element (id : Z) : option ElementRecord :=
  layered_ref (layer_elements (ls_overlay v)) (base_elements (ls_base v)) id.
Definition view_relation (id : Z) : option RelationRecord :=
  layered_ref (layer_relations (ls_overlay v)) (base_relations (ls_base v)) id.
Definition view_incidence (id : Z) : option IncidenceRecord :=
  layered_ref (layer_incidences (ls_overlay v)) (base_incidences (ls_base v)) id.

Definition view_property (subject : PropertySubject) (key : Z) : option PropertyValue :=
  match (keys ← layer_properties (ls_overlay v) !! subject; keys !! key) with
  | Some (Some value) => Some value
  | Some None => None
  | None => base_property (ls_base v) subject key
  end.

Definition contains_element (id : Z) : bool := bool_decide (is_Some (view_element id)).
Definition contains_relation (id : Z) : bool := bool_decide (is_Some (view_relation id)).
Definition contains_incidence (id : Z) : bool := bool_decide (is_Some (view_incidence id)).

(** [subject_properties]. *)
Definition view_subject_properties (subject : PropertySubject) : list (Z * PropertyValue) :=
  let merged := default ∅ (base_properties (ls_base v) !! subject) in
  let entries := match layer_properties (ls_overlay v) !! subject with Some keys => map_iter keys | None => [] end in
  map_iter (foldl override_property merged entries).

Definition view_catalog : Catalog := layer_catalog (ls_overlay v).
Definition view_next_ids : NextIds := layer_next_ids (ls_overlay v).

(** *** Iterators and counts *)

Definition view_elements : res DbError (list ElementRecord) :=
  merge_run (merge_new (base_elements (ls_base v)) (layer_elements (ls_overlay v))).
Definition view_relations : res DbError (list RelationRecord) :=
  merge_run (merge_new (base_relations (ls_base v)) (layer_relations (ls_overlay v))).
Definition view_incidences : res DbError (list IncidenceRecord) :=
  merge_run (merge_new (base_incidences (ls_base v)) (layer_incidences (ls_overlay v))).
Definition view_properties : res DbError (list PropertyTriple) :=
  property_merge_run (property_merge_new (property_rows (base_properties (ls_base v)))
    (overlay_property_triples (layer_properties (ls_overlay v)))).

Definition element_count : res DbError Z := '(rs : list ElementRecord) ← view_elements; Ok (zlen rs).
Definition relation_count : res DbError Z := '(rs : list RelationRecord) ← view_relations; Ok (zlen rs).
Definition incidence_count : res DbError Z := '(rs : list IncidenceRecord) ← view_incidences; Ok (zlen rs).

(** *** The scans: the trait's default methods *)

Definition element_incidences_scan (element : Z) : res DbError (list IncidenceRecord) :=
  '(rs : list IncidenceRecord) ← view_incidences; Ok (filter (λ r, inc_element r = element) rs).
Definition relation_incidences_scan (relation : Z) : res DbError (list IncidenceRecord) :=
  '(rs : list IncidenceRecord) ← view_incidences; Ok (filter (λ r, inc_relation r = relation) rs).
Definition elements_with_label_scan (label : Z) : res DbError (list Z) :=
  '(rs : list ElementRecord) ← view_elements; Ok (el_id <$> filter (λ r, label ∈ el_labels r) rs).
Definition relations_with_type_scan (relation_type : Z) : res DbError (list Z) :=
  '(rs : list RelationRecord) ← view_relations; Ok (rel_id <$> filter (λ r, rel_type r = Some relation_type) rs).
Definition property_equal_scan (key : Z) (value : PropertyValue) : res DbError (list PropertySubject) :=
  '(ts : list PropertyTriple) ← view_properties; Ok ((λ t, t.1.1) <$> filter (λ t, t.1.2 = key ∧ t.2 = value) ts).
Definition property_range_scan (key : Z) (min max : PropertyValue) : res DbError (list PropertySubject) :=
  '(ts : list PropertyTriple) ← view_properties;
  Ok ((λ t, t.1.1) <$> filter (λ t, t.1.2 = key ∧ key_le min t.2 ∧ key_le t.2 max) ts).

(** [properties_by_subject]. *)
Definition group_property (grouped : Properties) (t : PropertyTriple) : Properties :=
  <[t.1.1 := <[t.1.2 := t.2]> (default ∅ (grouped !! t.1.1))]> grouped.
Definition properties_by_subject : res DbError Properties :=
  '(ts : list PropertyTriple) ← view_properties; Ok (foldl group_property ∅ ts).

Definition property_composite_equal_scan (pairs : list EqualityKey) : res DbError (list PropertySubject) :=
  grouped ← properties_by_subject;
  Ok (fst <$> filter (λ p, Forall (λ q, p.2 !! q.1 = Some q.2) pairs) (map_iter grouped)).

(** *** The index-backed lookups that override them *)

Definition view_elements_with_label (label : Z) : list Z :=
  elements_with_label (layer_index (ls_overlay v)) (base_index (ls_base v)) label.
Definition view_relations_with_type (relation_type : Z) : list Z :=
  relations_with_type (layer_index (ls_overlay v)) (base_index (ls_base v)) relation_type.
Definition view_element_incidences (element : Z) : list IncidenceRecord :=
  omap view_incidence (element_incidences (layer_index (ls_overlay v)) (base_index (ls_base v)) element).
Definition view_relation_incidences (relation : Z) : list IncidenceRecord :=
  omap view_incidence (relation_incidences (layer_index (ls_overlay v)) (base_index (ls_base v)) relation).
Definition view_property_equal (key : Z) (value : PropertyValue) : list PropertySubject :=
  property_equal (layer_index (ls_overlay v)) (base_index (ls_base v)) key value.
Definition view_property_range (key : Z) (min max : PropertyValue) : list PropertySubject :=
  property_range (layer_index (ls_overlay v)) (base_index (ls_base v)) key min max.
Definition view_property_key_subjects (key : Z) : list (PropertySubject * PropertyValue) :=
  property_key_subjects (layer_index (ls_overlay v)) (base_index (ls_base v)) key.

(** *** Typed lookups *)

Definition validate_lookup_value (key : Z) (value : PropertyValue) : res DbError () :=
  definition ← ok_or (unknown FamilyPropertyKey key) (property_keys view_catalog !! key);
  let actual := value_type value in
  if decide (key_type definition ≠ actual) then Err (Query (PropertyTypeMismatch (key_type definition) actual))
  else Ok ().

Definition validate_lookup_value_for_family (key : Z) (fam : PropertyFamily) (value : PropertyValue) : res DbError () :=
  definition ← ok_or (unknown FamilyPropertyKey key) (property_keys view_catalog !! key);
  if decide (key_family definition ≠ fam) then Err (Query (WrongPropertyFamily (key_family definition) fam))
  else if decide (key_type definition ≠ value_type value) then
    Err (Query (PropertyTypeMismatch (key_type definition) (value_type value)))
  else Ok ().

Definition typed_property_equal (key : Z) (value : PropertyValue) : res DbError (list PropertySubject) :=
  _ ← validate_lookup_value key value; Ok (view_property_equal key value).

Definition typed_property_equal_for_family (key : Z) (fam : PropertyFamily) (value : PropertyValue)
    : res DbError (list PropertySubject) :=
  _ ← validate_lookup_value_for_family key fam value; Ok (view_property_equal key value).

Definition typed_property_range (key : Z) (min max : PropertyValue) : res DbError (list PropertySubject) :=
  _ ← validate_lookup_value key min;
  _ ← validate_lookup_value key max;
  if decide (key_lt max min) then Ok [] else Ok (view_property_range key min max).

Definition typed_property_composite_equal (keys : list Z) (values : list PropertyValue)
    : res DbError (list PropertySubject) :=
  if decide (List.length keys ≠ List.length values) then Err (unsupported "composite equality tuple arity mismatch")
  else
    _ ← for_each (λ _ p, validate_lookup_value p.1 p.2) (zip keys values) ();
    Ok (property_composite_equal (layer_index (ls_overlay v)) (base_index (ls_base v)) (zip keys values)).

End layered_state.
