(* ===== verification/MergeFacts.v ===== *)
(** * MergeFacts: the layered state is one map

    The merge iterators list the map that overrides the base with the delta, in
    key order, and end; the point reads are its lookups. Every scan is then a
    filter of such a map. *)

From Stdlib Require Import String.
From stdpp Require Import base gmap sets list strings sorting.
From S2P Require Import Prelude Bytes Ordered DbError DbWire DbState OverlayIndex Overlay Merge.

Local Open Scope Z_scope.

(** ** The iterator computes a merge of lists *)

Section merge_list.
Context {R K} `{Keyed R K, KeyOrder K}.

Definition opt_cons {T} (x : option T) (l : list T) : list T := match x with Some r => r :: l | None => l end.

Fixpoint merge_list (lb : list R) : list (K * option R) → list R :=
  fix go lo :=
    match lb, lo with
    | [], lo => omap snd lo
    | lb, [] => lb
    | b :: lb', (k, e) :: lo' =>
        if decide (key_lt (record_id b) k) then b :: merge_list lb' lo
        else opt_cons e (if decide (record_id b = k) then merge_list lb' lo' else go lo')
    end.

Definition merged_rest (it : MergeIter R K) : list R := merge_list (mi_base it) (mi_overlay it).
Definition merge_left (it : MergeIter R K) : nat := (length (mi_base it) + length (mi_overlay it))%nat.

Lemma merge_list_nil_l lo : merge_list [] lo = omap snd lo.
Proof. by destruct lo. Qed.
Lemma merge_list_nil_r lb : merge_list lb [] = lb.
Proof. by destruct lb. Qed.

Lemma merge_list_cons b lb k e lo :
  merge_list (b :: lb) ((k, e) :: lo) =
    if decide (key_lt (record_id b) k) then b :: merge_list lb ((k, e) :: lo)
    else opt_cons e (if decide (record_id b = k) then merge_list lb lo else merge_list (b :: lb) lo).
Proof. done. Qed.

(** One step takes at least one item and yields the next of the merge. *)
Lemma merge_step_spec it :
  match merge_step it with
  | (Done, _) => merged_rest it = []
  | (Yield r, it') => merged_rest it = r :: merged_rest it' ∧ (merge_left it' < merge_left it)%nat
      ∧ (length (mi_overlay it') ≤ length (mi_overlay it))%nat
  | (Again, it') => merged_rest it = merged_rest it' ∧ (merge_left it' < merge_left it)%nat
      ∧ (length (mi_overlay it') < length (mi_overlay it))%nat
  end.
Proof.
  destruct it as [[|b lb] [|[k e] lo]]; unfold merge_step, merged_rest, merge_left; cbn.
  - done.
  - rewrite bool_decide_eq_false_2 by done. cbn. destruct e; cbn; rewrite ?merge_list_nil_l; split_and?; auto with lia.
  - rewrite merge_list_nil_r. split_and?; auto with lia.
  - destruct (decide (key_lt (record_id b) k)) as [Hlt|Hge]; cbn; [by rewrite ?Nat.lt_succ_diag_r; auto with lia|].
    destruct (decide (record_id b = k)) as [<-|Hne].
    + rewrite bool_decide_eq_true_2 by done. cbn. destruct e; cbn; split_and?; auto with lia.
    + rewrite bool_decide_eq_false_2 by congruence. cbn. destruct e; cbn; split_and?; auto with lia.
Qed.

Lemma merge_next_spec fuel it :
  (length (mi_overlay it) < fuel)%nat →
  ∃ x it', merge_next fuel it = Ok (x, it') ∧
    match x with
    | None => merged_rest it = []
    | Some r => merged_rest it = r :: merged_rest it' ∧ (merge_left it' < merge_left it)%nat
    end.
Proof.
  revert it. induction fuel as [|fuel IH]; intros it Hf; [lia|]. cbn [merge_next].
  pose proof (merge_step_spec it) as Hs. destruct (merge_step it) as [[|r|] it']; [by exists None, it'|by exists (Some r), it'; naive_solver|].
  destruct Hs as (He & Hl & Ho). destruct (IH it') as (x & it'' & Hn & Hx); [lia|]. exists x, it''. split; [done|].
  rewrite He. destruct x; naive_solver lia.
Qed.

Lemma merge_run_spec it : merge_run it = Ok (merged_rest it).
Proof.
  unfold merge_run. fold (merge_left it). assert (Hf : (merge_left it < S (merge_left it))%nat) by lia. revert Hf.
  generalize (S (merge_left it)). intros fuel. revert it. induction fuel as [|fuel IH]; intros it Hf; [lia|]. cbn [merge_collect].
  destruct (merge_next_spec (S (length (mi_overlay it))) it) as (x & it' & -> & Hx); [lia|]. rewrite bind_Ok.
  destruct x as [r|]; [|by rewrite Hx]. destruct Hx as [-> Hl]. by rewrite IH by lia.
Qed.

(** ** What the merge lists *)

Notation ascending := (StronglySorted (λ a b : R, key_lt (record_id a) (record_id b))).
Notation ascending_delta := (StronglySorted (λ p q : K * option R, key_lt p.1 q.1)).

Lemma elem_of_opt_cons {T} (e : option T) l r : r ∈ opt_cons e l ↔ e = Some r ∨ r ∈ l.
Proof. destruct e as [x|]; cbn [opt_cons]; rewrite ?elem_of_cons; naive_solver. Qed.

Lemma elem_of_merge_list lb lo r :
  ascending lb → ascending_delta lo → (∀ k r, (k, Some r) ∈ lo → record_id r = k) →
  r ∈ merge_list lb lo ↔ (r ∈ lb ∧ record_id r ∉ lo.*1) ∨ (record_id r, Some r) ∈ lo.
Proof.
  intros Hb. revert lo. induction Hb as [|b lb Hb IHb Hbf]; intros lo Ho Hid.
  { rewrite merge_list_nil_l, list_elem_of_omap. split.
    - intros ([k e] & Hin & [= ->]). right. by rewrite (Hid k r).
    - intros [[Hin _]|Hin]; [by apply not_elem_of_nil in Hin|]. by exists (record_id r, Some r). }
  rewrite Forall_forall in Hbf. induction Ho as [|[k e] lo Ho IHo Hof].
  { rewrite merge_list_nil_r. cbn. split; [intros ?; left; split; [done|apply not_elem_of_nil]|].
    intros [[? _]|Hin]; [done|by apply not_elem_of_nil in Hin]. }
  rewrite Forall_forall in Hof. cbn [fst] in Hof.
  assert (Hsub : ∀ k r, (k, Some r) ∈ lo → record_id r = k) by (intros ???; apply Hid; by right).
  assert (Hentry : (record_id r, Some r) ∈ (k, e) :: lo ↔ e = Some r ∨ (record_id r, Some r) ∈ lo).
  { rewrite elem_of_cons. split; (intros [He|?]; [left|by right]); [congruence|]. subst e. f_equal. apply Hid. by left. }
  assert (Hlate : ∀ x, x ∈ lo.*1 → key_lt k x).
  { intros x Hx. apply list_elem_of_fmap in Hx as (p & -> & Hp). by apply Hof. }
  rewrite Hentry. rewrite merge_list_cons. cbn [fmap list_fmap fst]. destruct (decide (key_lt (record_id b) k)) as [Hlt|Hge].
  - assert (Hnb : record_id b ∉ k :: lo.*1).
    { rewrite elem_of_cons. intros [He|Hin]; [rewrite He in Hlt; by apply key_lt_irrefl in Hlt|].
      apply Hlate in Hin. destruct (key_lt_irrefl k). by eapply key_lt_trans. }
    rewrite elem_of_cons, IHb, Hentry; [|constructor; [done|by rewrite Forall_forall]|done].
    change (((k, e) :: lo).*1) with (k :: lo.*1). rewrite (elem_of_cons lb).
    split; [intros [->|[[? ?]|?]]|intros [[[->|?] ?]|?]]; auto.
  - rewrite elem_of_opt_cons. destruct (decide (record_id b = k)) as [He|Hne].
    + assert (Hrest : r ∈ b :: lb ∧ record_id r ∉ k :: lo.*1 ↔ r ∈ lb ∧ record_id r ∉ lo.*1).
      { rewrite elem_of_cons, not_elem_of_cons. split; [intros [[->|?] [? ?]]; done|]. intros [Hr ?].
        split_and?; [by right| |done]. intros Hk. destruct (key_lt_irrefl k). rewrite <-Hk at 2. rewrite <-He. by apply Hbf. }
      rewrite IHb by done. rewrite Hrest. tauto.
    + assert (Hkb : key_lt k (record_id b)) by (destruct (key_lt_cases (record_id b) k) as [?|[?|?]]; done).
      assert (Hrest : r ∈ b :: lb ∧ record_id r ∉ k :: lo.*1 ↔ r ∈ b :: lb ∧ record_id r ∉ lo.*1).
      { rewrite not_elem_of_cons. split; [tauto|]. intros [Hr ?]. split_and?; [done| |done].
        intros Hk. destruct (key_lt_irrefl k). rewrite <-Hk at 2.
        apply elem_of_cons in Hr as [->|Hr]; [done|]. eapply key_lt_trans; [done|by apply Hbf]. }
      rewrite IHo, Hrest by done. tauto.
Qed.

Lemma merge_list_sub lb lo r : r ∈ merge_list lb lo → r ∈ lb ∨ ∃ k, (k, Some r) ∈ lo.
Proof.
  revert lo. induction lb as [|b lb IHb]; intros lo.
  { rewrite merge_list_nil_l, list_elem_of_omap. intros ([k e] & Hin & [= ->]). eauto. }
  induction lo as [|[k e] lo IHo]; [rewrite merge_list_nil_r; auto|]. rewrite merge_list_cons. case_decide.
  - rewrite !elem_of_cons. intros [->|[?|[k' ?]]%IHb]; eauto.
  - rewrite elem_of_opt_cons. intros [->|Hin]; [right; exists k; by left|]. case_decide.
    + apply IHb in Hin as [?|[k' ?]]; [left; by right|right; exists k'; by right].
    + apply IHo in Hin as [?|[k' ?]]; [by left|right; exists k'; by right].
Qed.

Lemma opt_cons_ascending e k l :
  (∀ x, e = Some x → record_id x = k) → (∀ x, x ∈ l → key_lt k (record_id x)) → ascending l → ascending (opt_cons e l).
Proof.
  intros He Hl Hs. destruct e as [x|]; [|done]. constructor; [done|]. apply Forall_forall. intros y Hy.
  rewrite (He x eq_refl). by apply Hl.
Qed.

Lemma merge_list_ascending lb lo :
  ascending lb → ascending_delta lo → (∀ k r, (k, Some r) ∈ lo → record_id r = k) → ascending (merge_list lb lo).
Proof.
  intros Hb. revert lo. induction Hb as [|b lb Hb IHb Hbf]; intros lo Ho.
  - rewrite merge_list_nil_l. induction Ho as [|[k e] lo Ho IHo Hof]; intros Hid; [constructor|].
    rewrite Forall_forall in Hof. change (omap snd ((k, e) :: lo)) with (opt_cons e (omap snd lo)).
    apply (opt_cons_ascending _ k).
    + intros x ->. apply Hid. by left.
    + intros x ([k' e'] & Hin & [= ->])%list_elem_of_omap. rewrite (Hid k' x) by (by right). by apply (Hof (k', Some x)).
    + apply IHo. intros k' r Hin. apply Hid. by right.
  - rewrite Forall_forall in Hbf. induction Ho as [|[k e] lo Ho IHo Hof]; intros Hid; [by rewrite merge_list_nil_r; constructor; [|apply Forall_forall]|].
    rewrite Forall_forall in Hof.
    assert (Hsub : ∀ k r, (k, Some r) ∈ lo → record_id r = k) by (intros ???; apply Hid; by right).
    assert (Hlate : ∀ k' x, (k', Some x) ∈ lo → key_lt k (record_id x)).
    { intros k' x Hx. rewrite (Hsub k' x Hx). by apply (Hof (k', Some x)). }
    assert (He : ∀ x, e = Some x → record_id x = k) by (intros x ->; apply Hid; by left).
    rewrite merge_list_cons. destruct (decide (key_lt (record_id b) k)) as [Hlt|Hge].
    + constructor; [apply IHb; [by constructor; [|apply Forall_forall]|done]|]. apply Forall_forall.
      intros x [?|[k' Hx]]%merge_list_sub; [by apply Hbf|]. apply elem_of_cons in Hx as [[= -> <-]|Hx]; [by rewrite (He x eq_refl)|].
      eapply key_lt_trans; [done|by eapply Hlate].
    + destruct (decide (record_id b = k)) as [Heq|Hne]; apply (opt_cons_ascending _ k); auto.
      * intros x [?|[k' Hx]]%merge_list_sub; [rewrite <-Heq; by apply Hbf|by eapply Hlate].
      * assert (Hkb : key_lt k (record_id b)) by (destruct (key_lt_cases (record_id b) k) as [?|[?|?]]; done).
        intros x [Hx|[k' Hx]]%merge_list_sub; [|by eapply Hlate]. apply elem_of_cons in Hx as [->|Hx]; [done|].
        eapply key_lt_trans; [done|by apply Hbf].
Qed.

End merge_list.

(** ** The merged maps *)

(** The base with the delta's slots in place of its own. *)
Definition merged {K R} `{Countable K} (delta : gmap K (option R)) (records : gmap K R) : gmap K R :=
  merge (λ slot record, match slot with Some slot => slot | None => record end) delta records.

Lemma lookup_merged `{Countable K} {R} (delta : gmap K (option R)) (records : gmap K R) k :
  merged delta records !! k = match delta !! k with Some slot => slot | None => records !! k end.
Proof. unfold merged. rewrite lookup_merge. by destruct (delta !! k), (records !! k). Qed.

(** Every record is stored under its own id. *)
Definition keyed_records `{Countable K, Keyed R K} (m : gmap K R) : Prop := ∀ k r, m !! k = Some r → record_id r = k.

Section merge_maps.
Context `{KeyOrder K, !Countable K, Keyed R K}.

Lemma map_iter_values (m : gmap K R) :
  keyed_records m → StronglySorted (λ a b, key_lt (record_id a) (record_id b)) (snd <$> map_iter m).
Proof.
  intros Hm. assert (Hall : ∀ p, p ∈ map_iter m → record_id p.2 = p.1).
  { intros [k r] Hin%elem_of_map_iter. by apply Hm. }
  induction (map_iter_ascending m) as [|[k r] l Hl IH Hf]; [constructor|]. rewrite Forall_forall in Hf.
  cbn [fmap list_fmap snd]. constructor; [apply IH; intros; apply Hall; by right|]. apply Forall_forall.
  intros x ([k' r'] & -> & Hin)%list_elem_of_fmap. cbn [snd].
  assert (record_id r = k) as -> by (apply (Hall (k, r)); by left).
  assert (record_id r' = k') as -> by (apply (Hall (k', r')); by right). by apply (Hf (k', r')).
Qed.

Lemma elem_of_values (m : gmap K R) r : keyed_records m → r ∈ snd <$> map_iter m ↔ m !! record_id r = Some r.
Proof.
  intros Hm. rewrite list_elem_of_fmap. split.
  - intros ([k r'] & -> & Hin%elem_of_map_iter). cbn. by rewrite (Hm k r').
  - intros Hr. exists (record_id r, r). split; [done|]. by apply elem_of_map_iter.
Qed.

Lemma merge_list_merged (delta : gmap K (option R)) (records : gmap K R) :
  keyed_records records → (∀ k r, delta !! k = Some (Some r) → record_id r = k) →
  merge_list (snd <$> map_iter records) (map_iter delta) = snd <$> map_iter (merged delta records).
Proof.
  intros Hr Hd.
  assert (Hd' : ∀ k r, (k, Some r) ∈ map_iter delta → record_id r = k) by (intros k r Hin%elem_of_map_iter; by apply Hd).
  assert (Hm : keyed_records (merged delta records)).
  { intros k r. rewrite lookup_merged. destruct (delta !! k) as [[x|]|] eqn:E; [|done|apply Hr].
    intros [= ->]. by apply Hd. }
  apply (ascending_unique record_id).
  - apply merge_list_ascending; [by apply map_iter_values|apply map_iter_ascending|done].
  - by apply map_iter_values.
  - intros r. rewrite elem_of_merge_list by (by apply map_iter_values || apply map_iter_ascending || done).
    rewrite !elem_of_values, elem_of_map_iter, lookup_merged by done.
    assert (Hfst : record_id r ∈ (map_iter delta).*1 ↔ is_Some (delta !! record_id r)).
    { rewrite list_elem_of_fmap. split; [intros ([k e] & -> & Hin%elem_of_map_iter); by exists e|].
      intros [e He%elem_of_map_iter]. by exists (record_id r, e). }
    rewrite Hfst. destruct (delta !! record_id r) as [[x|]|]; naive_solver eauto using is_Some_None.
Qed.

End merge_maps.

(** ** The property merge

    It is the same machine over pairs, reading slices by position. *)

#[export] Instance triple_keyed : Keyed PropertyTriple (PropertySubject * Z) := fst.

Definition delta_item {K V} (p : K * option V) : K * option (K * V) := (p.1, pair p.1 <$> p.2).

(** What the two positions leave to read. *)
Definition property_rest (it : PropertyMergeIter) : MergeIter PropertyTriple (PropertySubject * Z) := {|
  mi_base := drop (pm_base_index it) (pm_base it);
  mi_overlay := delta_item <$> drop (pm_overlay_index it) (pm_overlay it)
|}.

Lemma drop_cases {A} (l : list A) i :
  (l !! i = None ∧ drop i l = [] ∧ drop (S i) l = []) ∨ ∃ x, l !! i = Some x ∧ drop i l = x :: drop (S i) l.
Proof.
  destruct (l !! i) as [x|] eqn:E; [right; exists x; split; [done|by apply drop_S]|].
  left. apply lookup_ge_None in E. split_and?; [done|apply drop_ge; lia..].
Qed.

Lemma property_merge_step_rest it :
  merge_step (property_rest it) = ((property_merge_step it).1, property_rest (property_merge_step it).2).
Proof.
  destruct it as [lb lo i j]. unfold merge_step, property_merge_step, property_rest. cbn.
  destruct (drop_cases lb i) as [(Hb & Eb & Eb')|(b & Hb & Eb)], (drop_cases lo j) as [(Ho & Eo & Eo')|(o & Ho & Eo)];
    rewrite Hb, Ho, Eb, Eo; cbn; unfold property_take_overlay, property_take_base, take_overlay.
  - by rewrite Eb, Eo.
  - rewrite !bool_decide_eq_false_2 by done. cbn. rewrite Ho. destruct o as [[s k] []]; cbn; by rewrite Eb.
  - cbn. rewrite Hb. cbn. by rewrite Eo.
  - unfold record_id, triple_keyed. case_decide; cbn; [rewrite Hb; cbn; by rewrite Eo|].
    case_bool_decide; cbn; rewrite Ho; destruct o as [[s k] []]; cbn; by rewrite ?Eb.
Qed.

Lemma property_merge_next_rest fuel it :
  merge_next fuel (property_rest it) = ('(x, it) ← property_merge_next fuel it; Ok (x, property_rest it)).
Proof.
  revert it. induction fuel as [|fuel IH]; intros it; [done|]. cbn [merge_next property_merge_next].
  rewrite property_merge_step_rest.
  destruct (property_merge_step it) as [[] it']; [done..|]. apply IH.
Qed.

Lemma property_merge_collect_rest fuel it : property_merge_collect fuel it = merge_collect fuel (property_rest it).
Proof.
  revert it. induction fuel as [|fuel IH]; intros it; [done|]. cbn [merge_collect property_merge_collect].
  assert (length (mi_overlay (property_rest it)) = (length (pm_overlay it) - pm_overlay_index it)%nat) as ->
    by (cbn; by rewrite length_fmap, length_drop).
  rewrite property_merge_next_rest. destruct (property_merge_next _ it) as [[[t|] it']| | |]; [|done..].
  cbn. by rewrite IH.
Qed.

Lemma property_merge_run_spec base overlay :
  property_merge_run (property_merge_new base overlay) = Ok (merge_list base (delta_item <$> overlay)).
Proof.
  unfold property_merge_run. rewrite property_merge_collect_rest.
  pose proof (merge_run_spec {| mi_base := base; mi_overlay := delta_item <$> overlay |}) as Hr.
  unfold merge_run in Hr. cbn [mi_base mi_overlay] in Hr. rewrite length_fmap in Hr. exact Hr.
Qed.

(** *** Flattened properties *)

Lemma pair_lt (s s' : PropertySubject) (k k' : Z) :
  key_lt (s, k) (s', k') ↔ key_lt s s' ∨ s = s' ∧ k < k'.
Proof.
  unfold property_pair_order. rewrite derived_lt. unfold subject_order. rewrite derived_lt. cbn.
  split.
  - intros [?|[He ?]]; [by left|right]. cbn in He. split; [by apply encode_subject_inj|done].
  - intros [?|[-> ?]]; [by left|right]. done.
Qed.

Section flat.
Context {V : Type}.
Implicit Type m : gmap PropertySubject (gmap Z V).

(** A nested map as a map from pairs, and its rows. *)
Definition flat m : gmap (PropertySubject * Z) V :=
  map_uncurry (M1:=gmap PropertySubject) (M2:=gmap Z) (M12:=gmap (PropertySubject * Z)) m.

Definition flat_rows m : list (PropertySubject * Z * V) :=
  '(s, keys) ← map_iter m; (λ p, (s, p.1, p.2)) <$> map_iter keys.

Lemma lookup_flat m s k : flat m !! (s, k) = (keys ← m !! s; keys !! k).
Proof. unfold flat. by rewrite lookup_map_uncurry. Qed.

Lemma elem_of_flat_rows m s k v : (s, k, v) ∈ flat_rows m ↔ flat m !! (s, k) = Some v.
Proof.
  rewrite lookup_flat. unfold flat_rows. rewrite list_elem_of_bind. split.
  - intros ([s' keys] & Hin & Hm%elem_of_map_iter). apply list_elem_of_fmap in Hin as ([k' v'] & [= -> -> ->] & Hin).
    rewrite Hm. by apply elem_of_map_iter.
  - intros (keys & Hm & Hk)%bind_Some. exists (s, keys). split; [|by apply elem_of_map_iter].
    apply list_elem_of_fmap. exists (k, v). split; [done|]. by apply elem_of_map_iter.
Qed.

Lemma flat_rows_iter m : flat_rows m = map_iter (flat m).
Proof.
  apply (ascending_unique fst).
  - unfold flat_rows. induction (map_iter_ascending m) as [|[s keys] l Hl IH Hf]; [constructor|].
    rewrite Forall_forall in Hf. rewrite bind_cons. apply StronglySorted_app. split_and?; [|clear|done].
    + intros [[s1 k1] v1] [[s2 k2] v2] Hin ([s' keys'] & Hin' & Hl')%list_elem_of_bind.
      apply list_elem_of_fmap in Hin as (? & [= -> _ _] & _), Hin' as (? & [= -> _ _] & _).
      apply pair_lt. left. by apply (Hf _ Hl').
    + induction (map_iter_ascending keys) as [|[k v] l Hl IH Hf]; [constructor|]. rewrite Forall_forall in Hf.
      cbn. constructor; [done|]. apply Forall_forall. intros ? ([k' v'] & -> & Hin)%list_elem_of_fmap.
      apply pair_lt. right. split; [done|]. destruct (Hf _ Hin) as [Hle Hne]. cbn in *. lia.
  - apply map_iter_ascending.
  - intros [[s k] v]. by rewrite elem_of_map_iter, elem_of_flat_rows.
Qed.

End flat.

(** ** The layered state as maps *)

Section view.
Context `{OverlayLayer L} (v : LayeredState L).

Definition all_elements : gmap Z ElementRecord := merged (layer_elements (ls_overlay v)) (base_elements (ls_base v)).
Definition all_relations : gmap Z RelationRecord := merged (layer_relations (ls_overlay v)) (base_relations (ls_base v)).
Definition all_incidences : gmap Z IncidenceRecord :=
  merged (layer_incidences (ls_overlay v)) (base_incidences (ls_base v)).
Definition all_properties : gmap (PropertySubject * Z) PropertyValue :=
  merged (flat (layer_properties (ls_overlay v))) (flat (base_properties (ls_base v))).

(** Records are stored under their own ids, in the base and in the delta. *)
Definition keyed_layer `{Keyed R Z} (delta : Delta R) (records : gmap Z R) : Prop :=
  keyed_records records ∧ ∀ k r, delta !! k = Some (Some r) → record_id r = k.

Definition ViewKeyed : Prop :=
  keyed_layer (layer_elements (ls_overlay v)) (base_elements (ls_base v)) ∧
  keyed_layer (layer_relations (ls_overlay v)) (base_relations (ls_base v)) ∧
  keyed_layer (layer_incidences (ls_overlay v)) (base_incidences (ls_base v)).

Lemma layered_ref_merged {R} (delta : Delta R) (records : gmap Z R) id :
  layered_ref delta records id = merged delta records !! id.
Proof. unfold layered_ref. rewrite lookup_merged. unfold Delta in *. by destruct (delta !! id) as [[]|]. Qed.

Lemma view_element_lookup id : view_element v id = all_elements !! id.
Proof. apply layered_ref_merged. Qed.
Lemma view_relation_lookup id : view_relation v id = all_relations !! id.
Proof. apply layered_ref_merged. Qed.
Lemma view_incidence_lookup id : view_incidence v id = all_incidences !! id.
Proof. apply layered_ref_merged. Qed.

Lemma view_property_lookup s k : view_property v s k = all_properties !! (s, k).
Proof.
  unfold view_property, all_properties. rewrite lookup_merged, !lookup_flat. unfold base_property.
  by destruct (_ ≫= _) as [[]|].
Qed.

Lemma merge_new_run `{Keyed R Z} (records : gmap Z R) (delta : Delta R) :
  keyed_layer delta records → merge_run (merge_new records delta) = Ok (snd <$> map_iter (merged delta records)).
Proof. intros [Hr Hd]. rewrite merge_run_spec. unfold merged_rest. cbn. by rewrite merge_list_merged. Qed.

Lemma view_elements_run : ViewKeyed → view_elements v = Ok (snd <$> map_iter all_elements).
Proof. intros (? & _ & _). by apply merge_new_run. Qed.
Lemma view_relations_run : ViewKeyed → view_relations v = Ok (snd <$> map_iter all_relations).
Proof. intros (_ & ? & _). by apply merge_new_run. Qed.
Lemma view_incidences_run : ViewKeyed → view_incidences v = Ok (snd <$> map_iter all_incidences).
Proof. intros (_ & _ & ?). by apply merge_new_run. Qed.

Lemma merge_rows {K V} `{KeyOrder K, !Countable K} (delta : gmap K (option V)) (records : gmap K V) :
  merge_list (H := fst) (map_iter records) (delta_item <$> map_iter delta) = map_iter (merged delta records).
Proof.
  assert (Hd : StronglySorted (λ p q, key_lt p.1 q.1) (delta_item <$> map_iter delta)).
  { induction (map_iter_ascending delta) as [|p l Hl IH Hf]; [constructor|]. rewrite Forall_forall in Hf.
    cbn. constructor; [done|]. apply Forall_forall. intros ? (q & -> & Hq)%list_elem_of_fmap. by apply Hf. }
  assert (Hin : ∀ k r, (k, Some r) ∈ delta_item <$> map_iter delta ↔ r.1 = k ∧ delta !! k = Some (Some r.2)).
  { intros k [k' x]. rewrite list_elem_of_fmap. unfold delta_item. split.
    - intros ([k1 [x1|]] & [= -> -> ->] & Hx%elem_of_map_iter). done.
    - cbn. intros [-> Hx%elem_of_map_iter]. by exists (k, Some x). }
  apply (ascending_unique fst).
  - apply (merge_list_ascending (H := fst)); [apply map_iter_ascending|done|by intros k r [? _]%Hin].
  - apply map_iter_ascending.
  - intros [k x]. rewrite (elem_of_merge_list (H := fst)); [|apply map_iter_ascending|done|by intros ? ? [? _]%Hin].
    rewrite !elem_of_map_iter, Hin, lookup_merged. unfold record_id. cbn.
    assert (Hfst : k ∈ (delta_item <$> map_iter delta).*1 ↔ is_Some (delta !! k)).
    { rewrite list_elem_of_fmap. split.
      - intros (? & -> & ([k1 e] & -> & He%elem_of_map_iter)%list_elem_of_fmap). by exists e.
      - intros [e He%elem_of_map_iter]. exists (delta_item (k, e)). split; [done|]. by apply list_elem_of_fmap_2. }
    rewrite Hfst. destruct (delta !! k) as [[y|]|]; naive_solver eauto using is_Some_None.
Qed.

Lemma view_properties_run : view_properties v = Ok (map_iter all_properties).
Proof.
  unfold view_properties. rewrite property_merge_run_spec. f_equal.
  change (property_rows (base_properties (ls_base v))) with (flat_rows (base_properties (ls_base v))).
  change (overlay_property_triples ?m) with (flat_rows m). rewrite !flat_rows_iter. apply merge_rows.
Qed.

End view.
