(* ===== verification/IndexFacts.v ===== *)
(** * IndexFacts: the incremental indexes agree with the state

    [Coherent] relates every posting of the base and the overlay to the layered
    state; the mutators preserve it, and under it each index-backed lookup of
    [Merge] returns what the scan it replaces returns.

    Under [Coherent] each lookup of [merge.rs] that is served from the postings
    returns, element for element and in order, what the merge scan it overrides
    returns. *)

From Stdlib Require Import String.
From stdpp Require Import base gmap sets list strings sorting.
From S2P Require Import Prelude Bytes Ordered DbError DbWire DbState OverlayIndex Overlay OverlayReplay Merge MergeFacts.

Local Open Scope Z_scope.

(** ** Postings *)

Section postings.
Context `{Countable K, Countable M}.
Implicit Types (m a r : gmap K (gset M)) (k : K) (x : M).

Lemma elem_of_add_posting m k x k' x' :
  x' ∈ posting (add_posting m k x) k' ↔ (k' = k ∧ x' = x) ∨ x' ∈ posting m k'.
Proof.
  unfold add_posting, posting. destruct (decide (k' = k)) as [->|Hne].
  - rewrite lookup_insert_eq. cbn. set_solver.
  - rewrite lookup_insert_ne by done. naive_solver.
Qed.

Lemma elem_of_remove_posting m k x k' x' :
  x' ∈ posting (remove_posting m k x) k' ↔ ¬ (k' = k ∧ x' = x) ∧ x' ∈ posting m k'.
Proof.
  unfold remove_posting. destruct (m !! k) as [s|] eqn:Hk.
  2:{ unfold posting. split; [intros Hx; split; [|done]|by intros [_ ?]]. intros [-> ->]. rewrite Hk in Hx. set_solver. }
  assert (Hs : posting m k = s) by (unfold posting; by rewrite Hk).
  destruct (decide (k' = k)) as [->|Hne].
  - case_decide as Hx; [rewrite Hs; naive_solver|]. case_decide as He.
    + unfold posting. rewrite lookup_delete_eq. cbn. rewrite Hk. cbn. set_solver.
    + unfold posting. rewrite lookup_insert_eq, Hk. cbn. set_solver.
  - assert (∀ m', m' !! k' = m !! k' → posting m' k' = posting m k') as Heq by (unfold posting; by intros ? ->).
    assert (x' ∈ posting m k' ↔ ¬ (k' = k ∧ x' = x) ∧ x' ∈ posting m k') by naive_solver.
    repeat case_decide; rewrite ?Heq; rewrite ?lookup_delete_ne, ?lookup_insert_ne; done.
Qed.

(** The members a merged lookup finds: the base's and the added ones that are not removed. *)
Definition posted m a r k x : Prop := (x ∈ posting m k ∨ x ∈ posting a k) ∧ x ∉ posting r k.

Lemma posted_add m a r k x k' x' :
  posted m (add_posting a k x) (remove_posting r k x) k' x' ↔ (k' = k ∧ x' = x) ∨ posted m a r k' x'.
Proof. unfold posted. rewrite elem_of_add_posting, elem_of_remove_posting. destruct (decide (k' = k ∧ x' = x)); tauto. Qed.

Lemma posted_remove m a r k x k' x' :
  posted m (remove_posting a k x) (add_posting r k x) k' x' ↔ ¬ (k' = k ∧ x' = x) ∧ posted m a r k' x'.
Proof. unfold posted. rewrite elem_of_add_posting, elem_of_remove_posting. destruct (decide (k' = k ∧ x' = x)); tauto. Qed.

(** No member is both added and removed. *)
Definition apart a r : Prop := ∀ k x, x ∈ posting a k → x ∉ posting r k.

Lemma apart_add a r k x : apart a r → apart (add_posting a k x) (remove_posting r k x).
Proof.
  intros Hap k' x'. rewrite elem_of_add_posting, elem_of_remove_posting. specialize (Hap k' x'). tauto.
Qed.
Lemma apart_remove a r k x : apart a r → apart (remove_posting a k x) (add_posting r k x).
Proof.
  intros Hap k' x'. rewrite elem_of_add_posting, elem_of_remove_posting. specialize (Hap k' x'). tauto.
Qed.

Lemma elem_of_merge_posting `{!KeyOrder M} m a r k x :
  x ∈ merge_posting (m !! k) (a !! k) (r !! k) ↔ posted m a r k x.
Proof. unfold merge_posting, posted, posting. rewrite elem_of_set_iter. set_solver. Qed.

Lemma elem_of_postings_of (pairs : list (K * M)) k x : x ∈ posting (postings_of pairs) k ↔ (k, x) ∈ pairs.
Proof.
  unfold postings_of.
  assert (∀ m, x ∈ posting (foldl (λ m p, add_posting m p.1 p.2) m pairs) k ↔ (k, x) ∈ pairs ∨ x ∈ posting m k) as Hg.
  { induction pairs as [|[k' x'] pairs IH]; intros m; cbn [foldl]; [set_solver|].
    rewrite IH, elem_of_add_posting, elem_of_cons. cbn. naive_solver. }
  rewrite Hg. unfold posting. rewrite lookup_empty. cbn. set_solver.
Qed.

End postings.
#[global] Typeclasses Opaque posted apart.

(** ** Folds over the entries of a map *)

Lemma foldl_entries `{KeyOrder K, !Countable K} {V W} (h : gmap K W → K * V → gmap K W) (g : K * V → option W)
    (x : gmap K V) (m : gmap K W) k :
  (∀ m p k, h m p !! k = if decide (k = p.1) then g p else m !! k) →
  foldl h m (map_iter x) !! k = match x !! k with Some e => g (k, e) | None => m !! k end.
Proof.
  intros Hh. assert (∀ l m, StronglySorted (λ p q : K * V, key_lt p.1 q.1) l →
    (∀ e, (k, e) ∈ l → foldl h m l !! k = g (k, e)) ∧ (k ∉ l.*1 → foldl h m l !! k = m !! k)) as Hl.
  { intros l. induction l as [|[k' e'] l IH]; intros m' Hs.
    { split; [intros e Hin; by apply not_elem_of_nil in Hin|done]. }
    apply StronglySorted_cons in Hs as [Hf Hs]. rewrite Forall_forall in Hf.
    destruct (IH (h m' (k', e')) Hs) as [IH1 IH2]. cbn [foldl fmap list_fmap fst]. split.
    - intros e [[= -> ->]|Hin]%elem_of_cons; [|by apply IH1]. rewrite IH2, Hh; [by rewrite decide_True|].
      intros (q & -> & Hq)%list_elem_of_fmap. by apply Hf, key_lt_irrefl in Hq.
    - intros [Hne Hnin]%not_elem_of_cons. rewrite IH2, Hh by done. by rewrite decide_False. }
  destruct (Hl (map_iter x) m (map_iter_ascending x)) as [H1 H2]. destruct (x !! k) as [e|] eqn:Hx.
  - apply H1. by apply elem_of_map_iter.
  - apply H2. intros ([k' e] & -> & Hin%elem_of_map_iter)%list_elem_of_fmap. cbn in Hx. congruence.
Qed.

Section properties.
Context (base : BaseRecords).
Implicit Types (ps : gmap PropertySubject SubjectDelta) (s : PropertySubject).

Lemma base_property_default s k : default (∅ : gmap Z PropertyValue) (base_properties base !! s) !! k = base_property base s k.
Proof. unfold base_property. destruct (base_properties base !! s); [done|apply lookup_empty]. Qed.

Lemma visible_subject_properties_lookup ps s k :
  visible_subject_properties base ps s !! k = visible_property base ps s k.
Proof.
  unfold visible_subject_properties.
  set (bps := default (∅ : gmap Z PropertyValue) (base_properties base !! s)).
  assert (∀ k, foldl (λ (m : gmap Z PropertyValue) p, <[p.1:=p.2]> m) ∅ (map_iter bps) !! k = base_property base s k) as Hb.
  { intros k'. rewrite (foldl_entries _ (λ p, Some p.2)).
    - rewrite <-base_property_default. fold bps. destruct (bps !! k'); [done|apply lookup_empty].
    - intros m p k1. destruct (decide (k1 = p.1)) as [->|]; [apply lookup_insert_eq|by apply lookup_insert_ne]. }
  unfold visible_property. destruct (ps !! s) as [keys|] eqn:Hs; cbn; [|apply Hb].
  rewrite (foldl_entries _ snd), Hb; [done|].
  intros m [k1 e] k2. unfold override_property. cbn. destruct e as [v|], (decide (k2 = k1)) as [->|];
    rewrite ?lookup_insert_eq, ?lookup_insert_ne, ?lookup_delete_eq, ?lookup_delete_ne; done.
Qed.

Lemma visible_set_slot ps s k slot s' k' :
  visible_property base (set_slot ps s k slot) s' k' =
    if decide (s' = s ∧ k' = k) then slot else visible_property base ps s' k'.
Proof.
  unfold visible_property, set_slot, SubjectDelta in *. destruct (decide (s' = s)) as [->|Hs].
  - rewrite lookup_insert_eq. cbn. destruct (decide (k' = k)) as [->|Hk].
    + by rewrite lookup_insert_eq, decide_True.
    + rewrite lookup_insert_ne, decide_False by naive_solver. destruct (ps !! s); cbn; [done|]. by rewrite lookup_empty.
  - by rewrite lookup_insert_ne, decide_False by naive_solver.
Qed.

Lemma visible_tombstone ps s s' k :
  visible_property base (tombstone_subject_properties base ps s) s' k =
    if decide (s' = s) then None else visible_property base ps s' k.
Proof.
  unfold tombstone_subject_properties, visible_property, SubjectDelta in *. destruct (base_properties base !! s) as [keys|] eqn:Hb.
  - destruct (decide (s' = s)) as [->|Hs]; [|by rewrite lookup_insert_ne, lookup_delete_ne].
    rewrite lookup_insert_eq, lookup_delete_eq. cbn. rewrite (foldl_entries _ (λ _, Some None)).
    + unfold base_property. rewrite Hb. cbn. destruct (keys !! k) eqn:Hk; [done|]. by rewrite lookup_empty.
    + intros m p k1. destruct (decide (k1 = p.1)) as [->|]; [apply lookup_insert_eq|by apply lookup_insert_ne].
  - destruct (decide (s' = s)) as [->|Hs]; [|by rewrite lookup_delete_ne].
    rewrite lookup_delete_eq. cbn. unfold base_property. by rewrite Hb.
Qed.

End properties.

(** ** The index against the state *)

Section coherent.
Context `{OverlayLayer L} (v : LayeredState L).

Let b := base_index (ls_base v).
Let ix := layer_index (ls_overlay v).

Definition has_label (l e : Z) : Prop := posted (label_members b) (label_added ix) (label_removed ix) l e.
Definition has_type (t r : Z) : Prop :=
  posted (relation_type_members b) (relation_type_added ix) (relation_type_removed ix) t r.
Definition has_element_incidence (e i : Z) : Prop :=
  posted (base_element_incidences b) (element_incidence_added ix) (element_incidence_removed ix) e i.
Definition has_relation_incidence (r i : Z) : Prop :=
  posted (base_relation_incidences b) (relation_incidence_added ix) (relation_incidence_removed ix) r i.
Definition has_value (k : Z) (value : PropertyValue) (s : PropertySubject) : Prop :=
  posted (property_equality b) (equality_added ix) (equality_removed ix) (k, value) s.

Record Coherent : Prop := {
  coherent_keyed : ViewKeyed v;
  coherent_labels l e : has_label l e ↔ ∃ r, view_element v e = Some r ∧ l ∈ el_labels r;
  coherent_types t r : has_type t r ↔ ∃ x, view_relation v r = Some x ∧ rel_type x = Some t;
  coherent_element_incidences e i : has_element_incidence e i ↔ ∃ x, view_incidence v i = Some x ∧ inc_element x = e;
  coherent_relation_incidences r i : has_relation_incidence r i ↔ ∃ x, view_incidence v i = Some x ∧ inc_relation x = r;
  coherent_values k value s : has_value k value s ↔ view_property v s k = Some value;
  coherent_apart : apart (equality_added ix) (equality_removed ix)
}.

End coherent.

Lemma ex_some {A} (x : A) (P : A → Prop) : (∃ r, Some x = Some r ∧ P r) ↔ P x.
Proof. naive_solver. Qed.
Lemma ex_none {A} (P : A → Prop) : (∃ r, None = Some r ∧ P r) ↔ False.
Proof. naive_solver. Qed.

(** ** What the loops of the hooks do *)

Lemma labels_withdrawn e ls ix : ∃ a r, foldl (withdraw_label e) ix ls = with_labels ix a r ∧
  ∀ m l e', posted m a r l e' ↔ ¬ (e' = e ∧ l ∈ ls) ∧ posted m (label_added ix) (label_removed ix) l e'.
Proof.
  revert ix. induction ls as [|l0 ls IH]; intros ix.
  { exists (label_added ix), (label_removed ix). split; [by destruct ix|]. set_solver. }
  destruct (IH (withdraw_label e ix l0)) as (a & r & He & Hp). exists a, r. split; [exact He|].
  intros m l e'. rewrite Hp. cbn. rewrite posted_remove, elem_of_cons. tauto.
Qed.

Lemma entries_withdrawn s l ix : ∃ a r,
  foldl (λ ix p, remove_equality ix s p.1 p.2) ix l = with_equality ix a r ∧
  (∀ m k value s', posted m a r (k, value) s' ↔
    ¬ (s' = s ∧ (k, value) ∈ l) ∧ posted m (equality_added ix) (equality_removed ix) (k, value) s') ∧
  (apart (equality_added ix) (equality_removed ix) → apart a r).
Proof.
  revert ix. induction l as [|[k0 v0] l IH]; intros ix.
  { exists (equality_added ix), (equality_removed ix). split; [by destruct ix|]. split; [|done]. set_solver. }
  destruct (IH (remove_equality ix s k0 v0)) as (a & r & He & Hp & Ha). exists a, r. split; [exact He|]. split.
  - intros m k value s'. rewrite Hp. cbn. rewrite posted_remove, elem_of_cons.
    assert ((k, value) = (k0, v0) ↔ k = k0 ∧ value = v0) by naive_solver. naive_solver.
  - intros Hap. apply Ha. cbn. by apply apart_remove.
Qed.

(** Tombstoning a subject's properties, in the index and in the state. *)
Lemma values_withdrawn base ps s ix :
  (∀ k value s', posted (property_equality (base_index base)) (equality_added ix) (equality_removed ix) (k, value) s'
     ↔ visible_property base ps s' k = Some value) →
  apart (equality_added ix) (equality_removed ix) →
  ∃ a r, withdraw_subject_properties ix s (visible_subject_properties base ps s) = with_equality ix a r ∧
    (∀ k value s', posted (property_equality (base_index base)) a r (k, value) s'
       ↔ visible_property base (tombstone_subject_properties base ps s) s' k = Some value) ∧ apart a r.
Proof.
  intros Hv Hap. destruct (entries_withdrawn s (map_iter (visible_subject_properties base ps s)) ix) as (a & r & He & Hp & Ha).
  exists a, r. split; [exact He|]. split; [|by apply Ha]. intros k value s'.
  rewrite Hp, Hv, elem_of_map_iter, visible_subject_properties_lookup, visible_tombstone.
  destruct (decide (s' = s)) as [->|Hs]; naive_solver.
Qed.

(** ** Deltas with one slot changed *)

Section delta.
Context {R} `{Keyed R Z}.
Implicit Types (d : Delta R) (records : gmap Z R).

Lemma layered_ref_insert d records id slot k :
  layered_ref (<[id:=slot]> d) records k = if decide (k = id) then slot else layered_ref d records k.
Proof.
  unfold layered_ref, Delta in *. destruct (decide (k = id)) as [->|Hk].
  - rewrite lookup_insert_eq. by destruct slot.
  - by rewrite lookup_insert_ne.
Qed.

Lemma keyed_insert d records id slot :
  (∀ r, slot = Some r → record_id r = id) → keyed_layer d records → keyed_layer (<[id:=slot]> d) records.
Proof.
  intros Hs [Hr Hd]. split; [done|]. intros k r. unfold Delta in *. destruct (decide (k = id)) as [->|Hk].
  - rewrite lookup_insert_eq. intros [= ->]. by apply Hs.
  - rewrite lookup_insert_ne by done. apply Hd.
Qed.

Lemma edit_record_spec d records id edit :
  edit_record d records id edit =
    match layered_ref d records id with Some r => (<[id := Some (edit r)]> d, true) | None => (d, false) end.
Proof. unfold edit_record, layered_ref, Delta in *. by destruct (d !! id) as [[r|]|], (records !! id). Qed.

Lemma layered_ref_id d records id r : keyed_layer d records → layered_ref d records id = Some r → record_id r = id.
Proof.
  intros [Hr Hd]. unfold layered_ref, Delta in *. destruct (d !! id) as [[r'|]|] eqn:E; [|done|apply Hr].
  intros [= ->]. by apply Hd.
Qed.

End delta.

(** ** The mutators keep the index coherent *)

Section mutators.
Context (base : BaseRecords).
Implicit Types w : WriteOverlay.

Definition CoherentW w : Prop := Coherent (layered base w).

Lemma view_visible w s k : view_property (layered base w) s k = visible_property base (w_properties w) s k.
Proof. unfold view_property, visible_property. cbn. by destruct (_ ≫= _) as [[]|]. Qed.

(** What a tombstoned subject leaves in the equality index. *)
Lemma coherent_withdraw w s : CoherentW w → ∀ ix,
  equality_added ix = equality_added (w_index w) → equality_removed ix = equality_removed (w_index w) →
  ∃ a r, withdraw_subject_properties ix s (visible_subject_properties base (w_properties w) s) = with_equality ix a r ∧
    (∀ k value s', posted (property_equality (base_index base)) a r (k, value) s'
       ↔ visible_property base (tombstone_subject_properties base (w_properties w) s) s' k = Some value) ∧ apart a r.
Proof.
  intros [] ix Ha Hr. apply values_withdrawn; rewrite Ha, Hr; [|done]. intros k value s'.
  rewrite <-view_visible. apply coherent_values0.
Qed.

Lemma visible_labels_view w e l :
  l ∈ visible_element_labels base w e ↔ ∃ r, view_element (layered base w) e = Some r ∧ l ∈ el_labels r.
Proof.
  unfold visible_element_labels, view_element, layered_ref, Delta in *. cbn.
  repeat case_match; rewrite ?elem_of_empty; naive_solver.
Qed.

Lemma visible_type_view w r :
  visible_relation_type base w r = (x ← view_relation (layered base w) r; rel_type x).
Proof.
  unfold visible_relation_type, view_relation, layered_ref, Delta in *. cbn. by repeat case_match.
Qed.

Lemma visible_incidence_view w i : visible_incidence base w i = view_incidence (layered base w) i.
Proof.
  unfold visible_incidence, view_incidence, layered_ref, Delta in *. cbn. by repeat case_match.
Qed.

Lemma coherent_tombstone_element w id : CoherentW w → CoherentW (tombstone_element_inner base w id).
Proof.
  intros Hco. unfold tombstone_element_inner, on_tombstone_element.
  destruct (labels_withdrawn id (set_iter (visible_element_labels base w id)) (w_index w)) as (la & lr & -> & Hl).
  destruct (coherent_withdraw w (SElement id) Hco (with_labels (w_index w) la lr) eq_refl eq_refl) as (ea & er & -> & He & Hap).
  destruct Hco as [(Hke & Hkr & Hki) Hlab ?????]. split; try done.
  - split_and!; [by apply keyed_insert|done..].
  - intros l e. specialize (Hlab l e). unfold has_label in *. cbn in *. rewrite Hl, elem_of_set_iter, Hlab, visible_labels_view.
    unfold view_element in *. cbn in *. rewrite layered_ref_insert.
    destruct (decide (e = id)) as [->|]; naive_solver.
  - intros k value s. rewrite view_visible. apply He.
Qed.

Lemma coherent_tombstone_relation w id : CoherentW w → CoherentW (tombstone_relation_inner base w id).
Proof.
  intros Hco. unfold tombstone_relation_inner, on_tombstone_relation. rewrite visible_type_view.
  set (ix := match x ← view_relation (layered base w) id; rel_type x with Some t => remove_relation_type (w_index w) id t
             | None => w_index w end).
  assert (∃ a r, ix = with_types (w_index w) a r ∧ ∀ m t x, posted m a r t x ↔
    ¬ (x = id ∧ (x ← view_relation (layered base w) id; rel_type x) = Some t) ∧
      posted m (relation_type_added (w_index w)) (relation_type_removed (w_index w)) t x) as (ta & tr & Hix & Ht).
  { subst ix. destruct (_ ≫= _) as [t0|]; unfold remove_relation_type.
    - eexists _, _. split; [done|]. intros m t x. rewrite posted_remove. naive_solver.
    - exists (relation_type_added (w_index w)), (relation_type_removed (w_index w)).
      split; [by destruct (w_index w)|]. naive_solver. }
  destruct (coherent_withdraw w (SRelation id) Hco ix) as (ea & er & -> & He & Hap); [by rewrite Hix..|]. rewrite Hix.
  destruct Hco as [(Hke & Hkr & Hki) ? Hty ????]. split; try done.
  - split_and!; [done|by apply keyed_insert|done].
  - intros t r. specialize (Hty t r). unfold has_type in *. cbn in *. rewrite Ht, Hty.
    unfold view_relation in *. cbn in *. rewrite layered_ref_insert.
    destruct (decide (r = id)) as [->|]; [|naive_solver]. destruct (layered_ref _ _ id) as [x|]; cbn; naive_solver.
  - intros k value s. rewrite view_visible. apply He.
Qed.

(** An incidence that is not visible keeps its postings, so the caller must see it. *)
Lemma coherent_tombstone_incidence w id :
  CoherentW w → is_Some (view_incidence (layered base w) id) → CoherentW (tombstone_incidence_inner base w id).
Proof.
  intros Hco [rec Hrec]. unfold tombstone_incidence_inner. rewrite visible_incidence_view, Hrec.
  unfold on_tombstone_incidence.
  destruct (coherent_withdraw w (SIncidence id) Hco (with_incidences (w_index w)
    (remove_posting (element_incidence_added (w_index w)) (inc_element rec) id)
    (add_posting (element_incidence_removed (w_index w)) (inc_element rec) id)
    (remove_posting (relation_incidence_added (w_index w)) (inc_relation rec) id)
    (add_posting (relation_incidence_removed (w_index w)) (inc_relation rec) id)) eq_refl eq_refl) as (ea & er & -> & He & Hap).
  destruct Hco as [(Hke & Hkr & Hki) ?? Hei Hri ??]. split; try done.
  - split_and!; [done|done|by apply keyed_insert].
  - intros e i. specialize (Hei e i). unfold has_element_incidence, view_incidence in *. cbn in *.
    rewrite posted_remove, Hei, layered_ref_insert. destruct (decide (i = id)) as [->|]; naive_solver.
  - intros r i. specialize (Hri r i). unfold has_relation_incidence, view_incidence in *. cbn in *.
    rewrite posted_remove, Hri, layered_ref_insert. destruct (decide (i = id)) as [->|]; naive_solver.
  - intros k value s. rewrite view_visible. apply He.
Qed.

Lemma coherent_add_element_label w e label : CoherentW w → CoherentW (add_element_label_inner base w e label).
Proof.
  intros Hco. unfold add_element_label_inner. rewrite edit_record_spec.
  destruct (layered_ref (w_elements w) (base_elements base) e) as [rec|] eqn:Hrec; cbn; [|by destruct w].
  destruct Hco as [(Hke & Hkr & Hki) Hlab ?????]. split; try done.
  - split_and!; [|done..]. apply keyed_insert; [|done]. intros r [= <-]. by apply (layered_ref_id _ _ _ _ Hke Hrec).
  - intros l e'. specialize (Hlab l e'). unfold has_label, view_element in *. cbn in *.
    rewrite posted_add, Hlab, layered_ref_insert.
    destruct (decide (e' = e)) as [->|]; [|naive_solver]. rewrite Hrec, !ex_some. cbn.
    rewrite elem_of_union, elem_of_singleton. naive_solver.
Qed.

Lemma coherent_add_relation_label w r label : CoherentW w → CoherentW (add_relation_label_inner base w r label).
Proof.
  intros Hco. unfold add_relation_label_inner. rewrite edit_record_spec.
  destruct (layered_ref (w_relations w) (base_relations base) r) as [rec|] eqn:Hrec; cbn; [|by destruct w].
  destruct Hco as [(Hke & Hkr & Hki) ? Hty ????]. split; try done.
  - split_and!; [done| |done]. apply keyed_insert; [|done]. intros x [= <-]. by apply (layered_ref_id _ _ _ _ Hkr Hrec).
  - intros t x. specialize (Hty t x). unfold has_type, view_relation in *. cbn in *.
    rewrite Hty, layered_ref_insert. destruct (decide (x = r)) as [->|]; [|naive_solver]. rewrite Hrec. naive_solver.
Qed.

Lemma coherent_set_relation_type w r t : CoherentW w → CoherentW (set_relation_type_inner base w r t).
Proof.
  intros Hco. unfold set_relation_type_inner. rewrite edit_record_spec, visible_type_view.
  unfold view_relation. cbn.
  destruct (layered_ref (w_relations w) (base_relations base) r) as [rec|] eqn:Hrec; cbn; [|by destruct w].
  assert (∃ a b, on_set_relation_type (w_index w) r (rel_type rec) t = with_types (w_index w) a b ∧
    ∀ m t' x, posted m a b t' x ↔ (t' = t ∧ x = r) ∨ ¬ (x = r ∧ rel_type rec = Some t') ∧
      posted m (relation_type_added (w_index w)) (relation_type_removed (w_index w)) t' x) as (a & b & -> & Ht).
  { unfold on_set_relation_type. destruct (rel_type rec) as [t0|]; [case_decide as Hn|]; cbn;
      (eexists _, _; split; [done|]; intros m t' x; rewrite posted_add, ?posted_remove).
    - destruct (decide (t' = t ∧ x = r)); naive_solver.
    - subst. destruct (decide (t' = t ∧ x = r)); naive_solver.
    - naive_solver. }
  destruct Hco as [(Hke & Hkr & Hki) ? Hty ????]. split; try done.
  - split_and!; [done| |done]. apply keyed_insert; [|done]. intros x [= <-]. by apply (layered_ref_id _ _ _ _ Hkr Hrec).
  - intros t' x. specialize (Hty t' x). unfold has_type, view_relation in *. cbn in *.
    rewrite Ht, Hty, layered_ref_insert. destruct (decide (x = r)) as [->|]; [|naive_solver]. rewrite Hrec. naive_solver.
Qed.

Lemma coherent_set_property w s k value : CoherentW w → CoherentW (set_property_inner base w s k value).
Proof.
  intros Hco. unfold set_property_inner.
  assert (∃ a r, on_set_property (w_index w) s k (visible_property base (w_properties w) s k) value
      = with_equality (w_index w) a r ∧ apart a r ∧
    ∀ m k' value' s', posted m a r (k', value') s' ↔ (k' = k ∧ value' = value ∧ s' = s) ∨
      ¬ (s' = s ∧ k' = k ∧ visible_property base (w_properties w) s k = Some value') ∧
      posted m (equality_added (w_index w)) (equality_removed (w_index w)) (k', value') s') as (a & r & -> & Hap & Ht).
  { pose proof (coherent_apart _ Hco) as Hap. cbn in Hap. unfold on_set_property.
    assert (∀ (k1 k2 : Z) (v1 v2 : PropertyValue) (s1 s2 : PropertySubject),
      (k1, v1) = (k2, v2) ∧ s1 = s2 ↔ k1 = k2 ∧ v1 = v2 ∧ s1 = s2) as Heq by naive_solver.
    destruct (visible_property base (w_properties w) s k) as [p|]; [case_decide as Hn|]; cbn;
      (eexists _, _; split; [done|]; split; [first [by apply apart_add, apart_remove|by apply apart_add]|];
       intros m k' value' s'; rewrite posted_add; cbn; rewrite ?posted_remove, !Heq).
    - assert (Some p = Some value' ↔ value' = p) as -> by naive_solver. tauto.
    - assert (Some p = Some value' ↔ value' = value) as -> by naive_solver.
      destruct (decide (k' = k ∧ value' = value ∧ s' = s)); tauto.
    - assert (None = Some value' ↔ False) as -> by done. tauto. }
  destruct Hco as [? ???? Hval ?]. split; try done.
  intros k' value' s'. specialize (Hval k' value' s'). rewrite view_visible in *. unfold has_value in *. cbn in *.
  rewrite Ht, Hval, visible_set_slot. destruct (decide (s' = s ∧ k' = k)); naive_solver.
Qed.

Lemma coherent_remove_property w s k : CoherentW w → CoherentW (remove_property_inner base w s k).
Proof.
  intros Hco. unfold remove_property_inner.
  assert (∃ a r, on_remove_property (w_index w) s k (visible_property base (w_properties w) s k)
      = with_equality (w_index w) a r ∧ apart a r ∧
    ∀ m k' value' s', posted m a r (k', value') s' ↔
      ¬ (s' = s ∧ k' = k ∧ visible_property base (w_properties w) s k = Some value') ∧
      posted m (equality_added (w_index w)) (equality_removed (w_index w)) (k', value') s') as (a & r & -> & Hap & Ht).
  { pose proof (coherent_apart _ Hco) as Hap. cbn in Hap. unfold on_remove_property.
    destruct (visible_property base (w_properties w) s k) as [p|].
    - eexists _, _. split; [done|]. split; [by apply apart_remove|]. intros m k' value' s'.
      cbn. rewrite posted_remove. naive_solver.
    - exists (equality_added (w_index w)), (equality_removed (w_index w)).
      split; [by destruct (w_index w)|]. split; [done|]. naive_solver. }
  destruct Hco as [? ???? Hval ?]. split; try done.
  intros k' value' s'. specialize (Hval k' value' s'). rewrite view_visible in *. unfold has_value in *. cbn in *.
  rewrite Ht, Hval, visible_set_slot. destruct (decide (s' = s ∧ k' = k)); naive_solver.
Qed.

(** A create takes an id nothing visible has. *)
Lemma coherent_put_element w id :
  CoherentW w → view_element (layered base w) id = None → CoherentW (put_element w id).
Proof.
  intros [(Hke & Hkr & Hki) Hlab ?????] Hnew. split; try done.
  - split_and!; [|done..]. apply keyed_insert; [|done]. by intros r [= <-].
  - intros l e. specialize (Hlab l e). unfold has_label, view_element in *. cbn in *.
    rewrite Hlab, layered_ref_insert. destruct (decide (e = id)) as [->|]; [|naive_solver]. rewrite Hnew, ex_some, ex_none. cbn.
    by rewrite elem_of_empty.
Qed.

Lemma coherent_put_relation w id :
  CoherentW w → view_relation (layered base w) id = None → CoherentW (put_relation w id).
Proof.
  intros [(Hke & Hkr & Hki) ? Hty ????] Hnew. split; try done.
  - split_and!; [done| |done]. apply keyed_insert; [|done]. by intros r [= <-].
  - intros t r. specialize (Hty t r). unfold has_type, view_relation in *. cbn in *.
    rewrite Hty, layered_ref_insert. destruct (decide (r = id)) as [->|]; [|naive_solver]. rewrite Hnew. naive_solver.
Qed.

Lemma coherent_put_incidence w id r e role :
  CoherentW w → view_incidence (layered base w) id = None → CoherentW (put_incidence w id r e role).
Proof.
  intros [(Hke & Hkr & Hki) ?? Hei Hri ??] Hnew. split; try done.
  - split_and!; [done..|]. apply keyed_insert; [|done]. by intros x [= <-].
  - intros e' i. specialize (Hei e' i). unfold has_element_incidence, view_incidence in *. cbn in *.
    rewrite posted_add, Hei, layered_ref_insert. destruct (decide (i = id)) as [->|]; [|naive_solver].
    rewrite Hnew. naive_solver.
  - intros r' i. specialize (Hri r' i). unfold has_relation_incidence, view_incidence in *. cbn in *.
    rewrite posted_add, Hri, layered_ref_insert. destruct (decide (i = id)) as [->|]; [|naive_solver].
    rewrite Hnew. naive_solver.
Qed.

End mutators.

(** ** Index-backed lookups are scans *)

(** ** Filters of ascending lists *)

Section ascending.
Context {A : Type} `{KeyOrder K}.

Lemma fmap_filter_ascending {B} `{KeyOrder K'} (f : A → B) (key : A → K) (bkey : B → K') (P : A → Prop) `{∀ x, Decision (P x)} (l : list A) :
  (∀ a b, a ∈ l → b ∈ l → P a → P b → key_lt (key a) (key b) → key_lt (bkey (f a)) (bkey (f b))) →
  StronglySorted (λ a b, key_lt (key a) (key b)) l →
  StronglySorted (λ a b, key_lt (bkey a) (bkey b)) (f <$> filter P l).
Proof.
  intros Hf Hl. induction Hl as [|a l Hl IH Ha]; [constructor|]. rewrite Forall_forall in Ha.
  assert (StronglySorted (λ a b, key_lt (bkey a) (bkey b)) (f <$> filter P l)) as IH'.
  { apply IH. intros ?? ??. apply Hf; by right. }
  rewrite filter_cons. case_decide as HP; [|done]. cbn. constructor; [done|]. apply Forall_forall.
  intros ? (b & -> & [Hb Hin]%list_elem_of_filter)%list_elem_of_fmap. apply Hf; [by left|by right|done..|by apply Ha].
Qed.

Lemma omap_ascending {B} (g : A → option B) (key : A → K) (bkey : B → K) (l : list A) :
  (∀ a b, a ∈ l → g a = Some b → bkey b = key a) →
  StronglySorted (λ a b, key_lt (key a) (key b)) l →
  StronglySorted (λ a b, key_lt (bkey a) (bkey b)) (omap g l).
Proof.
  intros Hg Hl. induction Hl as [|a l Hl IH Ha]; [constructor|]. rewrite Forall_forall in Ha. cbn.
  assert (StronglySorted (λ a b, key_lt (bkey a) (bkey b)) (omap g l)) as IH' by (apply IH; intros; apply Hg; [by right|done]).
  destruct (g a) as [x|] eqn:Hx; [|done]. constructor; [done|]. apply Forall_forall.
  intros y (b & Hb & Hy)%list_elem_of_omap. rewrite (Hg a x), (Hg b y) by (done || by left || by right). by apply Ha.
Qed.

End ascending.

Lemma elem_of_take_while {A} (R : relation A) (Q : A → Prop) `{∀ x, Decision (Q x)} (l : list A) x :
  StronglySorted R l → (∀ a b, a ∈ l → R a b → Q b → Q a) → x ∈ take_while Q l ↔ x ∈ l ∧ Q x.
Proof.
  intros Hl. induction Hl as [|a l Hl IH Ha]; intros HQ; cbn.
  { split; [intros Hin; by apply not_elem_of_nil in Hin|by intros [Hin _]; apply not_elem_of_nil in Hin]. }
  rewrite Forall_forall in Ha. rewrite elem_of_cons. case_decide as Hd.
  - rewrite elem_of_cons, IH; [naive_solver|]. intros a' b Hin. apply HQ. by right.
  - split; [intros Hin; by apply not_elem_of_nil in Hin|]. intros [[->|Hin] Hx]; [done|].
    destruct Hd. eapply HQ; [by left|by apply Ha|done].
Qed.

Lemma elem_of_union_fold {A} `{Countable M} (f : A → gset M) (l : list A) X x :
  x ∈ foldl (λ X p, X ∪ f p) X l ↔ x ∈ X ∨ ∃ p, p ∈ l ∧ x ∈ f p.
Proof.
  revert X. induction l as [|p l IH]; intros X; cbn [foldl]; [set_solver|]. rewrite IH. set_solver.
Qed.

(** ** Members of the postings of a range *)

Lemma equality_key_le (k k' : Z) (value value' : PropertyValue) :
  key_le (k, value) (k', value') ↔ k < k' ∨ k = k' ∧ key_le value value'.
Proof.
  unfold equality_key_order. rewrite derived_le_lt. unfold value_order at 1. rewrite derived_le_lt. cbn.
  split.
  - intros [[= -> ->]|[?|[? ?]]]; auto.
  - intros [?|[-> [->|?]]]; [right; by left|by left|right; by right].
Qed.

Lemma least_value (value : PropertyValue) : key_le (PBoolean false) value.
Proof.
  unfold value_order. rewrite derived_le_lt. destruct value as [[]|z|t].
  - right. right. split; [done|]. by left.
  - by left.
  - right. by left.
  - right. by left.
Qed.

Section ranges.
Implicit Type m : gmap EqualityKey (gset PropertySubject).

Lemma elem_of_posting_entry m k s : s ∈ posting m k ↔ ∃ S, (k, S) ∈ map_iter m ∧ s ∈ S.
Proof.
  unfold posting. setoid_rewrite elem_of_map_iter. destruct (m !! k) as [S|]; cbn; [naive_solver|set_solver].
Qed.

(** The entries of one key between two values. *)
Lemma elem_of_range_between m key min max s (f : EqualityKey * gset PropertySubject → gset PropertySubject) :
  (∀ p, f p ⊆ p.2) →
  (∃ p, p ∈ range_between m (key, min) (key, max) ∧ s ∈ f p) ↔
  ∃ value, key_le min value ∧ key_le value max ∧ s ∈ posting m (key, value) ∧ s ∈ f ((key, value), posting m (key, value)).
Proof.
  intros Hf. unfold range_between. split.
  - intros ([[k value] S] & [[H1 H2] Hin]%list_elem_of_filter & Hs). cbn [fst] in H1, H2. rewrite equality_key_le in H1, H2.
    assert (k = key) as -> by lia. exists value.
    assert (posting m (key, value) = S) as Hp by (unfold posting; by apply elem_of_map_iter in Hin as ->).
    rewrite Hp. split_and!; [destruct H1 as [?|[_ ?]]; [lia|done]|destruct H2 as [?|[_ ?]]; [lia|done]| |done].
    by apply (Hf ((key, value), S)).
  - intros (value & H1 & H2 & Hp & Hs). apply elem_of_posting_entry in Hp as (S & Hin & HS).
    assert (posting m (key, value) = S) as Hp by (unfold posting; by apply elem_of_map_iter in Hin as ->).
    exists ((key, value), S). rewrite Hp in Hs. split; [|done]. apply list_elem_of_filter. cbn [fst].
    rewrite !equality_key_le. auto.
Qed.

(** The entries of one key: what [take_while] keeps of the walk from its least value. *)
Lemma elem_of_key_entries m key p :
  p ∈ take_while (λ p, p.1.1 = key) (range_from m (key, PBoolean false)) ↔ p.1.1 = key ∧ m !! p.1 = Some p.2.
Proof.
  rewrite (elem_of_take_while (λ a b, key_lt a.1 b.1)).
  - unfold range_from. rewrite list_elem_of_filter. destruct p as [[k value] S]. rewrite elem_of_map_iter. cbn [fst snd].
    split; [naive_solver|]. intros [-> ?]. split_and!; [|done..]. rewrite equality_key_le. auto using least_value.
  - rewrite <-(list_fmap_id (range_from _ _)). unfold range_from.
    apply (fmap_filter_ascending id fst fst); [done|apply map_iter_ascending].
  - unfold range_from. intros [[ka va] Sa] [[kb vb] Sb] [Ha _]%list_elem_of_filter [Hle _]. cbn [fst snd] in *. intros ->.
    rewrite equality_key_le in Ha, Hle. lia.
Qed.

End ranges.

Lemma extend_visible_lookup (m : gmap PropertySubject PropertyValue) x S s :
  extend_visible m x S !! s = if decide (s ∈ S) then Some x else m !! s.
Proof.
  unfold extend_visible.
  assert (∀ ss (m : gmap PropertySubject PropertyValue),
    foldl (λ m s, <[s:=x]> m) m ss !! s = if decide (s ∈ ss) then Some x else m !! s) as Hg.
  { intros ss. induction ss as [|s' ss IHs]; intros m0; cbn [foldl]; [by rewrite decide_False by apply not_elem_of_nil|].
    rewrite IHs. destruct (decide (s = s')) as [->|Hne].
    - rewrite lookup_insert_eq, (decide_True (P := s' ∈ s' :: ss)) by (by left). by case_decide.
    - rewrite lookup_insert_ne by done. repeat case_decide; set_solver. }
  rewrite Hg. repeat case_decide; rewrite elem_of_set_iter in *; done.
Qed.

(** Extending a map with postings whose members have one value each. *)
Lemma extend_visible_spec {A} (F : PropertySubject → option PropertyValue) (value : A → PropertyValue)
    (members : A → gset PropertySubject) (l : list A) m :
  (∀ s x, m !! s = Some x → F s = Some x) →
  (∀ p s, p ∈ l → s ∈ members p → F s = Some (value p)) →
  let m' := foldl (λ m p, extend_visible m (value p) (members p)) m l in
  (∀ s x, m' !! s = Some x → F s = Some x) ∧
  (∀ s, is_Some (m' !! s) ↔ is_Some (m !! s) ∨ ∃ p, p ∈ l ∧ s ∈ members p).
Proof.
  intros Hm Hl. revert m Hm. induction l as [|p l IH]; intros m Hm; cbn [foldl].
  { split; [done|]. intros s. split; [auto|]. intros [?|(p & Hp & _)]; [done|by apply not_elem_of_nil in Hp]. }
  destruct (IH (λ q s Hq, Hl q s ltac:(by right)) (extend_visible m (value p) (members p))) as [H1 H2].
  { intros s x. rewrite extend_visible_lookup. case_decide as Hs; [|apply Hm]. intros [= <-]. apply (Hl p); [by left|done]. }
  split; [done|]. intros s. rewrite H2, extend_visible_lookup. setoid_rewrite elem_of_cons. case_decide; naive_solver.
Qed.

(** ** Index against scan *)

Section records.
Context {R} `{Keyed R Z}.

Lemma merged_keyed (delta : Delta R) (records : gmap Z R) :
  keyed_layer delta records → keyed_records (merged delta records).
Proof. intros Hk id r. rewrite <-layered_ref_merged. by apply layered_ref_id. Qed.

Context (m : gmap Z R) (Hm : keyed_records m) (P : R → Prop) `{!∀ r, Decision (P r)}.

Lemma scan_records_ascending :
  StronglySorted (λ a b, key_lt (record_id a) (record_id b)) (filter P (snd <$> map_iter m)).
Proof.
  rewrite <-(list_fmap_id (filter P _)). by apply (fmap_filter_ascending id record_id record_id), map_iter_values.
Qed.

Lemma scan_ids_ascending : StronglySorted key_lt (record_id <$> filter P (snd <$> map_iter m)).
Proof. by apply (fmap_filter_ascending record_id record_id id), map_iter_values. Qed.

Lemma elem_of_scan_records r : r ∈ filter P (snd <$> map_iter m) ↔ P r ∧ m !! record_id r = Some r.
Proof. by rewrite list_elem_of_filter, elem_of_values. Qed.

Lemma elem_of_scan_ids id : id ∈ record_id <$> filter P (snd <$> map_iter m) ↔ ∃ r, m !! id = Some r ∧ P r.
Proof.
  rewrite list_elem_of_fmap. setoid_rewrite elem_of_scan_records. split.
  - intros (r & -> & ? & ?). eauto.
  - intros (r & Hr & ?). exists r. by rewrite (Hm _ _ Hr).
Qed.

End records.

Section scans.
Context `{OverlayLayer L} (v : LayeredState L) (Hco : Coherent v).

Lemma coherent_maps : keyed_records (all_elements v) ∧ keyed_records (all_relations v) ∧ keyed_records (all_incidences v).
Proof. destruct (coherent_keyed _ Hco) as (? & ? & ?). split_and!; by apply merged_keyed. Qed.

Lemma index_labels l : elements_with_label_scan v l = Ok (view_elements_with_label v l).
Proof.
  unfold elements_with_label_scan. rewrite (view_elements_run v (coherent_keyed _ Hco)), bind_Ok. f_equal.
  destruct coherent_maps as (Hm & _ & _). apply (ascending_unique id).
  - by apply (scan_ids_ascending _ Hm (λ r, l ∈ el_labels r)).
  - apply set_iter_ascending.
  - intros e. unfold view_elements_with_label, elements_with_label. rewrite elem_of_merge_posting.
    rewrite (elem_of_scan_ids _ Hm (λ r, l ∈ el_labels r)), <-view_element_lookup. symmetry. apply (coherent_labels _ Hco).
Qed.

Lemma index_types t : relations_with_type_scan v t = Ok (view_relations_with_type v t).
Proof.
  unfold relations_with_type_scan. rewrite (view_relations_run v (coherent_keyed _ Hco)), bind_Ok. f_equal.
  destruct coherent_maps as (_ & Hm & _). apply (ascending_unique id).
  - by apply (scan_ids_ascending _ Hm (λ r, rel_type r = Some t)).
  - apply set_iter_ascending.
  - intros r. unfold view_relations_with_type, relations_with_type. rewrite elem_of_merge_posting.
    rewrite (elem_of_scan_ids _ Hm (λ r, rel_type r = Some t)), <-view_relation_lookup. symmetry. apply (coherent_types _ Hco).
Qed.

(** Both incidence lookups: the visible records of the posted ids. *)
Lemma index_incidences (f : IncidenceRecord → Z) (ids : list Z) e :
  StronglySorted key_lt ids → (∀ i, i ∈ ids ↔ ∃ x, view_incidence v i = Some x ∧ f x = e) →
  filter (λ r, f r = e) (snd <$> map_iter (all_incidences v)) = omap (view_incidence v) ids.
Proof.
  intros Hids Hin. destruct coherent_maps as (_ & _ & Hm). apply (ascending_unique record_id).
  - by apply (scan_records_ascending _ Hm (λ r, f r = e)).
  - apply (omap_ascending _ id record_id); [|done]. intros i x _. rewrite view_incidence_lookup. by apply Hm.
  - intros x. rewrite (elem_of_scan_records _ Hm (λ r, f r = e)), list_elem_of_omap. setoid_rewrite Hin. split.
    + intros [Hf Hx]. exists (record_id x). rewrite <-view_incidence_lookup in Hx. eauto.
    + intros (i & (x' & Hx' & Hf) & Hx). rewrite Hx in Hx'. injection Hx' as <-. split; [done|].
      rewrite view_incidence_lookup in Hx. by rewrite (Hm _ _ Hx).
Qed.

Lemma index_element_incidences e : element_incidences_scan v e = Ok (view_element_incidences v e).
Proof.
  unfold element_incidences_scan. rewrite (view_incidences_run v (coherent_keyed _ Hco)), bind_Ok. f_equal.
  apply index_incidences; [apply set_iter_ascending|]. intros i. unfold element_incidences.
  rewrite elem_of_merge_posting. apply (coherent_element_incidences _ Hco).
Qed.

Lemma index_relation_incidences r : relation_incidences_scan v r = Ok (view_relation_incidences v r).
Proof.
  unfold relation_incidences_scan. rewrite (view_incidences_run v (coherent_keyed _ Hco)), bind_Ok. f_equal.
  apply index_incidences; [apply set_iter_ascending|]. intros i. unfold relation_incidences.
  rewrite elem_of_merge_posting. apply (coherent_relation_incidences _ Hco).
Qed.

(** The subjects of one key, filtered by value, in subject order. *)
Section subjects.
Context (key : Z) (Q : PropertyTriple → Prop) `{!∀ t, Decision (Q t)} (HQ : ∀ t, Q t → t.1.2 = key).

Lemma scan_subjects_ascending :
  StronglySorted key_lt ((λ t : PropertyTriple, t.1.1) <$> filter Q (map_iter (all_properties v))).
Proof.
  apply (fmap_filter_ascending (λ t : PropertyTriple, t.1.1) fst id); [|apply map_iter_ascending].
  intros [[sa ka] va] [[sb kb] vb] _ _ Ha%HQ Hb%HQ. cbn [fst snd] in *. subst. rewrite pair_lt. intros [?|[_ ?]]; [done|lia].
Qed.

Lemma elem_of_scan_subjects s :
  s ∈ (λ t : PropertyTriple, t.1.1) <$> filter Q (map_iter (all_properties v)) ↔
  ∃ value, has_value v key value s ∧ Q (s, key, value).
Proof.
  rewrite list_elem_of_fmap. setoid_rewrite (coherent_values _ Hco). setoid_rewrite view_property_lookup. split.
  - intros ([[s' k'] x] & -> & [HP Hin%elem_of_map_iter]%list_elem_of_filter). pose proof (HQ _ HP) as Hk.
    cbn in *. subst. eauto.
  - intros (x & Hx & HP). exists (s, key, x). split; [done|]. apply list_elem_of_filter. split; [done|]. by apply elem_of_map_iter.
Qed.

End subjects.

Lemma index_property_equal key value : property_equal_scan v key value = Ok (view_property_equal v key value).
Proof.
  unfold property_equal_scan. rewrite view_properties_run, bind_Ok. f_equal. apply (ascending_unique id).
  - apply (scan_subjects_ascending key). by intros t [? _].
  - apply set_iter_ascending.
  - intros s. rewrite (elem_of_scan_subjects key) by (by intros t [? _]). cbn [fst snd].
    unfold view_property_equal, property_equal. rewrite elem_of_merge_posting. unfold has_value. naive_solver.
Qed.

Lemma index_property_range key min max : property_range_scan v key min max = Ok (view_property_range v key min max).
Proof.
  unfold property_range_scan. rewrite view_properties_run, bind_Ok. f_equal. apply (ascending_unique id).
  - apply (scan_subjects_ascending key). by intros t [? _].
  - unfold view_property_range, property_range. case_decide; [constructor|apply set_iter_ascending].
  - intros s. rewrite (elem_of_scan_subjects key) by (by intros t [? _]). cbn [fst snd].
    unfold view_property_range, property_range, range_postings. case_decide as Hinv.
    { split; [|intros Hin; by apply not_elem_of_nil in Hin]. intros (x & _ & _ & H1 & H2). exfalso.
      apply (key_nlt max min); [by etrans|done]. }
    rewrite elem_of_set_iter, !elem_of_union_fold, !elem_of_range_between by set_solver.
    unfold has_value, posted. pose proof (coherent_apart _ Hco) as Hap. unfold apart in Hap.
    cbn [fst snd]. setoid_rewrite elem_of_difference. split.
    + intros (x & ([?|?] & ?) & _ & ? & ?); [left; right|right]; exists x; auto.
    + intros [[Hin|(x & ? & ? & ? & ? & ?)]|(x & ? & ? & ? & ?)]; [by apply not_elem_of_empty in Hin|..]; exists x; eauto 8.
Qed.

(** The map [property_key_subjects] builds holds the visible values of the key. *)
Lemma key_subjects_visible key s x : (s, x) ∈ view_property_key_subjects v key ↔ view_property v s key = Some x.
Proof.
  unfold view_property_key_subjects, property_key_subjects. rewrite elem_of_map_iter.
  set (ix := layer_index (ls_overlay v)). set (b := base_index (ls_base v)).
  assert (∀ S value, (value, S) ∈ key_postings b key ↔ property_equality b !! (key, value) = Some S) as Hkp.
  { intros S value. unfold key_postings. rewrite list_elem_of_fmap. split.
    - intros (p & [= -> ->] & [Hk Hp]%elem_of_key_entries). destruct p as [[k x'] S']. cbn in *. by subst.
    - intros HS. exists ((key, value), S). split; [done|]. by apply elem_of_key_entries. }
  assert (∀ k (m : gmap EqualityKey (gset PropertySubject)) S s', m !! k = Some S → s' ∈ S → s' ∈ posting m k) as Hpost
    by (unfold posting; by intros ???? ->).
  destruct (extend_visible_spec (λ s, view_property v s key) (λ p : PropertyValue * gset PropertySubject, p.1)
    (λ p, p.2 ∖ posting (equality_removed ix) (key, p.1)) (key_postings b key) ∅) as [F1 D1].
  { intros s' x'. by rewrite lookup_empty. }
  { intros [value S] s' Hp%Hkp [Hs Hr]%elem_of_difference. apply (coherent_values _ Hco). split; [left; by eapply Hpost|done]. }
  destruct (extend_visible_spec (λ s, view_property v s key) (λ p : EqualityKey * gset PropertySubject, p.1.2) snd
    (take_while (λ p, p.1.1 = key) (range_from (equality_added ix) (key, PBoolean false))) _ F1) as [F2 D2].
  { intros [[k value] S] s' [Hk Hp]%elem_of_key_entries Hs. cbn in *. subst k. apply (coherent_values _ Hco).
    assert (s' ∈ posting (equality_added ix) (key, value)) as Ha by (by eapply Hpost).
    split; [by right|]. by apply (coherent_apart _ Hco). }
  split; [apply F2|]. intros Hx. assert (has_value v key x s) as [Hin Hr] by by apply (coherent_values _ Hco).
  match goal with |- ?m !! s = _ => assert (is_Some (m !! s)) as [x' Hx'] end; [|by rewrite Hx', <-(F2 _ _ Hx'), Hx].
  rewrite D2, D1. unfold posting in Hin at 1 2. fold b ix in Hin. destruct Hin as [Hin|Hin]; [left; right|right].
  - destruct (property_equality b !! (key, x)) as [S|] eqn:HS; [|by apply not_elem_of_empty in Hin].
    exists (x, S). split; [by apply Hkp|]. apply elem_of_difference. done.
  - destruct (equality_added ix !! (key, x)) as [S|] eqn:HS; [|by apply not_elem_of_empty in Hin].
    exists ((key, x), S). split; [by apply elem_of_key_entries|done].
Qed.

Lemma index_key_subjects key :
  view_property_key_subjects v key =
    (λ t : PropertyTriple, (t.1.1, t.2)) <$> filter (λ t, t.1.2 = key) (map_iter (all_properties v)).
Proof.
  apply (ascending_unique fst).
  - apply map_iter_ascending.
  - apply (fmap_filter_ascending (λ t : PropertyTriple, (t.1.1, t.2)) fst fst); [|apply map_iter_ascending].
    intros [[sa ka] va] [[sb kb] vb] _ _ Ha Hb. cbn [fst snd] in *. subst. rewrite pair_lt. intros [?|[_ ?]]; [done|lia].
  - intros [s x]. rewrite key_subjects_visible, view_property_lookup, list_elem_of_fmap. split.
    + intros Hx. exists (s, key, x). split; [done|]. apply list_elem_of_filter. split; [done|]. by apply elem_of_map_iter.
    + intros ([[s' k'] x'] & [= -> ->] & [Hk Hin%elem_of_map_iter]%list_elem_of_filter). cbn in *. by subst.
Qed.

(** *** The composite lookup *)

Lemma flat_group m t : flat (group_property m t) = <[t.1 := t.2]> (flat m).
Proof.
  apply map_eq. intros [s k]. rewrite lookup_flat. destruct t as [[s' k'] x]. unfold group_property. cbn [fst snd].
  destruct (decide (s = s')) as [->|Hs].
  - rewrite lookup_insert_eq. cbn. destruct (decide (k = k')) as [->|Hk]; [by rewrite !lookup_insert_eq|].
    rewrite !lookup_insert_ne, lookup_flat by congruence. by destruct (m !! s'); cbn; [|rewrite lookup_empty].
  - by rewrite !lookup_insert_ne, lookup_flat by congruence.
Qed.

Lemma grouped_lookup s k :
  (keys ← foldl group_property ∅ (map_iter (all_properties v)) !! s; keys !! k) = all_properties v !! (s, k).
Proof.
  rewrite <-lookup_flat.
  assert (∀ l m, flat (foldl group_property m l) = foldl (λ m t, <[t.1:=t.2]> m) (flat m) l) as ->.
  { intros l. induction l as [|t l IH]; intros m; cbn [foldl]; [done|]. by rewrite IH, flat_group. }
  rewrite (foldl_entries _ (λ t, Some t.2)).
  - destruct (all_properties v !! (s, k)); [done|]. by rewrite lookup_flat, lookup_empty.
  - intros m t p. destruct (decide (p = t.1)) as [->|]; [apply lookup_insert_eq|by apply lookup_insert_ne].
Qed.

Lemma elem_of_composite pairs s :
  pairs ≠ [] →
  s ∈ property_composite_equal (layer_index (ls_overlay v)) (base_index (ls_base v)) pairs ↔
  Forall (λ q, has_value v q.1 q.2 s) pairs.
Proof.
  intros Hne. unfold property_composite_equal.
  set (sets := (λ p, list_to_set (property_equal _ _ p.1 p.2)) <$> pairs).
  assert (merge_sort by_size sets ≡ₚ sets) as Hperm by apply merge_sort_Permutation.
  assert ((∀ X, X ∈ sets → s ∈ X) ↔ Forall (λ q, has_value v q.1 q.2 s) pairs) as <-.
  { rewrite Forall_forall. subst sets. setoid_rewrite list_elem_of_fmap. unfold has_value. split.
    - intros Hall q Hq. specialize (Hall _ (ex_intro _ q (conj eq_refl Hq))).
      apply elem_of_list_to_set in Hall. unfold property_equal in Hall. by rewrite elem_of_merge_posting in Hall.
    - intros Hall X (q & -> & Hq). apply elem_of_list_to_set. unfold property_equal. rewrite elem_of_merge_posting. by apply Hall. }
  assert ((∀ X, X ∈ sets → s ∈ X) ↔ Forall (λ X, s ∈ X) (merge_sort by_size sets)) as ->
    by (rewrite Forall_forall; by setoid_rewrite Hperm).
  destruct (merge_sort by_size sets) as [|X rest] eqn:Hs.
  { apply Permutation_nil_l in Hperm. subst sets. by destruct pairs. }
  rewrite elem_of_set_iter, Forall_cons. clear -s. revert X. induction rest as [|Y rest IH]; intros X; cbn [foldl].
  { rewrite Forall_nil. tauto. }
  rewrite IH, Forall_cons. case_decide as HX; [|rewrite elem_of_intersection; tauto]. subst. rewrite elem_of_empty. tauto.
Qed.

Lemma index_composite pairs :
  pairs ≠ [] →
  property_composite_equal_scan v pairs =
    Ok (property_composite_equal (layer_index (ls_overlay v)) (base_index (ls_base v)) pairs).
Proof.
  intros Hne. unfold property_composite_equal_scan, properties_by_subject. rewrite view_properties_run, !bind_Ok. f_equal.
  apply (ascending_unique id).
  - apply (fmap_filter_ascending fst fst id); [done|apply map_iter_ascending].
  - unfold property_composite_equal. destruct (merge_sort _ _); [constructor|apply set_iter_ascending].
  - intros s. rewrite elem_of_composite, list_elem_of_fmap by done.
    assert (∀ k x, has_value v k x s ↔ (keys ← foldl group_property ∅ (map_iter (all_properties v)) !! s; keys !! k) = Some x) as Hv.
    { intros k x. rewrite grouped_lookup, (coherent_values _ Hco), view_property_lookup. done. }
    setoid_rewrite Hv. split.
    + intros ([s' keys] & -> & [Hall Hin%elem_of_map_iter]%list_elem_of_filter). cbn in *. by rewrite Hin.
    + intros Hall. destruct (foldl group_property ∅ (map_iter (all_properties v)) !! s) as [keys|] eqn:Hs.
      * exists (s, keys). split; [done|]. apply list_elem_of_filter. split; [done|]. by apply elem_of_map_iter.
      * destruct pairs as [|q pairs]; [done|]. apply Forall_cons in Hall as [Hq _]. done.
Qed.

End scans.
