(* ===== verification/DbWriter.v ===== *)
(** * DbWriter: the guarded surface of a write transaction

    Models [crates/oxgraph-db/src/database/writer.rs] apart from [commit] (in
    [Database]): the guards, the cascading tombstones, the typed property
    assignments of [typed.rs], the reconciling upserts and [retain], and the
    declarative schema of [schema.rs]. A method on [&mut self] is a state
    transformer of the writer's delta that keeps what a failing call has done. *)

From Stdlib Require Import String.
From stdpp Require Import base gmap sets list strings.
From S2P Require Import Prelude Bytes Ordered DbError DbWire DbState OverlayIndex Overlay OverlayReplay Merge.

Local Open Scope Z_scope.

(** ** Methods on [&mut self]

    A transformer of a state [S]: the state a call leaves behind, and its outcome. *)

Definition Tr (S A : Type) : Type := S → S * res DbError A.

#[export] Instance tr_ret S : MRet (Tr S) := λ A a s, (s, Ok a).
#[export] Instance tr_bind S : MBind (Tr S) := λ A B f m s,
  let '(s, r) := m s in
  match r with
  | Ok a => f a s
  | Err e => (s, Err e)
  | Panic => (s, Panic)
  | NoFuel => (s, NoFuel)
  end.

(** A read of the state that may fail, and a call that cannot. *)
Definition tr_read {S A} (f : S → res DbError A) : Tr S A := λ s, (s, f s).
Definition tr_do {S} (f : S → S) : Tr S () := λ s, (f s, Ok ()).

(** [for x in l { f(x)?; }], and the same over an accumulator. *)
Fixpoint tr_each {S A} (f : A → Tr S ()) (l : list A) : Tr S () :=
  match l with
  | [] => mret ()
  | x :: l => _ ← f x; tr_each f l
  end.

Fixpoint tr_fold {S A B} (f : B → A → Tr S B) (b : B) (l : list A) : Tr S B :=
  match l with
  | [] => mret b
  | x :: l => b ← f b x; tr_fold f b l
  end.

(** ** Typed assignments ([typed.rs], [value.rs]) *)

(** The argument types of [Assignable]. *)
Inductive Assign :=
  | AssignText (text : list byte)
  | AssignI64 (value : Z)
  | AssignU64 (value : Z)
  | AssignUsize (value : Z)
  | AssignBool (value : bool).

Definition i64_max : Z := 2 ^ 63 - 1.

(** [PropertyValue::try_from] of an unsigned integer. *)
Definition value_try_from (value : Z) : res DbError PropertyValue :=
  if decide (value ≤ i64_max) then Ok (PInteger value) else Err (Query ValueOutOfRange).

Definition into_value (a : Assign) : res DbError PropertyValue :=
  match a with
  | AssignText text => Ok (PText text)
  | AssignI64 value => Ok (PInteger value)
  | AssignU64 value | AssignUsize value => value_try_from value
  | AssignBool value => Ok (PBoolean value)
  end.

(** ** Schemas ([schema.rs]) *)

Record GraphProjectionSpec := {
  gs_name : list byte;
  gs_relation_types : list (list byte);
  gs_source_role : list byte;
  gs_target_role : list byte
}.

Record HypergraphProjectionSpec := {
  hs_name : list byte;
  hs_relation_types : list (list byte);
  hs_source_roles : list (list byte);
  hs_target_roles : list (list byte)
}.

Record Schema := {
  sc_roles : list (list byte);
  sc_labels : list (list byte);
  sc_relation_types : list (list byte);
  sc_keys : list (list byte * PropertyFamily * PropertyType);
  sc_equality_indexes : list (list byte * list byte);
  sc_graph_projections : list GraphProjectionSpec;
  sc_hypergraph_projections : list HypergraphProjectionSpec
}.

Record Bound := {
  bd_roles : gmap (list byte) Z;
  bd_labels : gmap (list byte) Z;
  bd_relation_types : gmap (list byte) Z;
  bd_keys : gmap (list byte) (Z * PropertyType);
  bd_equality_indexes : gmap (list byte) (Z * PropertyType);
  bd_projections : gmap (list byte) Z
}.

Definition empty_bound : Bound := {|
  bd_roles := ∅; bd_labels := ∅; bd_relation_types := ∅; bd_keys := ∅; bd_equality_indexes := ∅; bd_projections := ∅
|}.

(** [bound.<field>.insert(name, id)]. *)
Definition bind_role (b : Bound) (name : list byte) (id : Z) : Bound := {|
  bd_roles := <[name := id]> (bd_roles b); bd_labels := bd_labels b; bd_relation_types := bd_relation_types b;
  bd_keys := bd_keys b; bd_equality_indexes := bd_equality_indexes b; bd_projections := bd_projections b |}.
Definition bind_label (b : Bound) (name : list byte) (id : Z) : Bound := {|
  bd_roles := bd_roles b; bd_labels := <[name := id]> (bd_labels b); bd_relation_types := bd_relation_types b;
  bd_keys := bd_keys b; bd_equality_indexes := bd_equality_indexes b; bd_projections := bd_projections b |}.
Definition bind_relation_type (b : Bound) (name : list byte) (id : Z) : Bound := {|
  bd_roles := bd_roles b; bd_labels := bd_labels b; bd_relation_types := <[name := id]> (bd_relation_types b);
  bd_keys := bd_keys b; bd_equality_indexes := bd_equality_indexes b; bd_projections := bd_projections b |}.
Definition bind_key (b : Bound) (name : list byte) (key : Z * PropertyType) : Bound := {|
  bd_roles := bd_roles b; bd_labels := bd_labels b; bd_relation_types := bd_relation_types b;
  bd_keys := <[name := key]> (bd_keys b); bd_equality_indexes := bd_equality_indexes b;
  bd_projections := bd_projections b |}.
Definition bind_equality_index (b : Bound) (name : list byte) (index : Z * PropertyType) : Bound := {|
  bd_roles := bd_roles b; bd_labels := bd_labels b; bd_relation_types := bd_relation_types b; bd_keys := bd_keys b;
  bd_equality_indexes := <[name := index]> (bd_equality_indexes b); bd_projections := bd_projections b |}.
Definition bind_projection (b : Bound) (name : list byte) (id : Z) : Bound := {|
  bd_roles := bd_roles b; bd_labels := bd_labels b; bd_relation_types := bd_relation_types b; bd_keys := bd_keys b;
  bd_equality_indexes := bd_equality_indexes b; bd_projections := <[name := id]> (bd_projections b) |}.

Definition unknown_name (kind : string) (name : list byte) : DbError := Catalog_ (UnknownName kind name).

(** [Bound::role], [Bound::label], [Bound::relation_type], [Bound::projection]. *)
Definition bound_role (b : Bound) (name : list byte) : res DbError Z :=
  ok_or (unknown_name "role" name) (bd_roles b !! name).
Definition bound_label (b : Bound) (name : list byte) : res DbError Z :=
  ok_or (unknown_name "label" name) (bd_labels b !! name).
Definition bound_relation_type (b : Bound) (name : list byte) : res DbError Z :=
  ok_or (unknown_name "relation type" name) (bd_relation_types b !! name).
Definition bound_projection (b : Bound) (name : list byte) : res DbError Z :=
  ok_or (unknown_name "projection" name) (bd_projections b !! name).

(** [Bound::key] and [Bound::equality_index]: the handle's id, if its type is the requested one. *)
Definition bound_key (b : Bound) (name : list byte) (type : PropertyType) : res DbError Z :=
  '(id, value_type) ← ok_or (unknown_name "property key" name) (bd_keys b !! name);
  if decide (value_type = type) then Ok id
  else Err (Catalog_ (SchemaConflict name "property key value type differs from the requested typed handle")).
Definition bound_equality_index (b : Bound) (name : list byte) (type : PropertyType) : res DbError Z :=
  '(id, value_type) ← ok_or (unknown_name "index" name) (bd_equality_indexes b !! name);
  if decide (value_type = type) then Ok id
  else Err (Catalog_ (SchemaConflict name "equality index value type differs from the requested typed handle")).

(** [for name in names { set.insert(bound.f(name)?); }]. *)
Definition bound_set (f : list byte → res DbError Z) (names : list (list byte)) : res DbError (gset Z) :=
  for_each (λ (X : gset Z) name, id ← f name; Ok ({[id]} ∪ X)) names ∅.

(** ** What a transaction works on

    The unguarded operations and the reads the writer's methods are made of. The
    writer's delta over its base implements them ([writer_txn] below), and so does
    the abstract store of [Store]. [txn_drop] is a tombstone with its cascade. *)

Class Txn (S : Type) := {
  txn_catalog : S → Catalog;
  txn_contains : S → PropertySubject → bool;
  txn_property_equal : S → Z → PropertyValue → list PropertySubject;
  txn_key_subjects : S → Z → list (PropertySubject * PropertyValue);
  txn_register_role : list byte → Tr S Z;
  txn_register_label : list byte → Tr S Z;
  txn_register_relation_type : list byte → Tr S Z;
  txn_register_property_key : list byte → PropertyFamily → PropertyType → Tr S Z;
  txn_register_projection : ProjectionDefinition → Tr S Z;
  txn_register_index : list byte → IndexDefinition → Tr S Z;
  txn_create_element : Tr S Z;
  txn_create_relation : Tr S Z;
  txn_create_incidence : Z → Z → Z → Tr S Z;
  txn_drop : PropertySubject → Tr S ();
  txn_add_element_label : Z → Z → Tr S ();
  txn_add_relation_label : Z → Z → Tr S ();
  txn_set_relation_type : Z → Z → Tr S ();
  txn_set_property : PropertySubject → Z → PropertyValue → Tr S ();
  txn_remove_property : PropertySubject → Z → Tr S ()
}.

Section delta.
Context (base : BaseRecords).

Definition delta_contains (w : WriteOverlay) (s : PropertySubject) : bool :=
  match s with
  | SElement id => contains_element (layered base w) id
  | SRelation id => contains_relation (layered base w) id
  | SIncidence id => contains_incidence (layered base w) id
  end.

(** After the guard: the incidences the index lists before the subject goes are
    tombstoned after it. *)
Definition drop_element (id : Z) : Tr WriteOverlay () :=
  incidences ← tr_read (λ w, Ok (inc_id <$> view_element_incidences (layered base w) id));
  _ ← tr_do (λ w, tombstone_element base w id);
  tr_do (λ w, foldl (tombstone_incidence base) w incidences).

Definition drop_relation (id : Z) : Tr WriteOverlay () :=
  incidences ← tr_read (λ w, Ok (inc_id <$> view_relation_incidences (layered base w) id));
  _ ← tr_do (λ w, tombstone_relation base w id);
  tr_do (λ w, foldl (tombstone_incidence base) w incidences).

Definition drop_incidence (id : Z) : Tr WriteOverlay () := tr_do (λ w, tombstone_incidence base w id).

Definition writer_txn : Txn WriteOverlay := {|
  txn_catalog := w_catalog;
  txn_contains := delta_contains;
  txn_property_equal w key value := view_property_equal (layered base w) key value;
  txn_key_subjects w key := view_property_key_subjects (layered base w) key;
  txn_register_role name w := register_role w name;
  txn_register_label name w := register_label w name;
  txn_register_relation_type name w := register_relation_type w name;
  txn_register_property_key name fam type w := register_property_key w name fam type;
  txn_register_projection d w := register_projection w d;
  txn_register_index name d w := register_index w name d;
  txn_create_element := create_element;
  txn_create_relation := create_relation;
  txn_create_incidence r e role w := create_incidence w r e role;
  txn_drop s := match s with
                | SElement id => drop_element id
                | SRelation id => drop_relation id
                | SIncidence id => drop_incidence id
                end;
  txn_add_element_label e label := tr_do (λ w, add_element_label base w e label);
  txn_add_relation_label r label := tr_do (λ w, add_relation_label base w r label);
  txn_set_relation_type r t := tr_do (λ w, set_relation_type base w r t);
  txn_set_property s key value := tr_do (λ w, set_property base w s key value);
  txn_remove_property s key := tr_do (λ w, remove_property base w s key)
|}.

End delta.

Section writer.
Context {S : Type} `{!Txn S}.

(** ** Guards *)

Definition require_element (id : Z) : Tr S () := tr_read (λ w,
  if txn_contains w (SElement id) then Ok () else Err (unknown FamilyElement id)).
Definition require_relation (id : Z) : Tr S () := tr_read (λ w,
  if txn_contains w (SRelation id) then Ok () else Err (unknown FamilyRelation id)).
Definition require_incidence (id : Z) : Tr S () := tr_read (λ w,
  if txn_contains w (SIncidence id) then Ok () else Err (unknown FamilyIncidence id)).

(** A guard on one map of the catalog. *)
Definition require_in {V} (m : Catalog → gmap Z V) (fam : IdFamily) (id : Z) : Tr S () := tr_read (λ w,
  if decide (is_Some (m (txn_catalog w) !! id)) then Ok () else Err (unknown fam id)).
Definition require_role : Z → Tr S () := require_in roles FamilyRole.
Definition require_label : Z → Tr S () := require_in labels FamilyLabel.
Definition require_relation_type : Z → Tr S () := require_in relation_types FamilyRelationType.
Definition require_property_key : Z → Tr S () := require_in property_keys FamilyPropertyKey.
Definition require_projection : Z → Tr S () := require_in projections FamilyProjection.

Definition require_subject (s : PropertySubject) : Tr S () :=
  match s with
  | SElement id => require_element id
  | SRelation id => require_relation id
  | SIncidence id => require_incidence id
  end.

Definition validate_projection_definition (d : ProjectionDefinition) : Tr S () :=
  match d with
  | GraphProjection g =>
      _ ← require_role (gp_source_role g);
      _ ← require_role (gp_target_role g);
      tr_each require_relation_type (set_iter (gp_relation_types g))
  | HypergraphProjection h =>
      _ ← tr_each require_role (set_iter (hp_source_roles h));
      _ ← tr_each require_role (set_iter (hp_target_roles h));
      tr_each require_relation_type (set_iter (hp_relation_types h))
  end.

Definition validate_index_definition (d : IndexDefinition) : Tr S () :=
  match d with
  | IndexLabel label => require_label label
  | IndexRelationType relation_type => require_relation_type relation_type
  | IndexPropertyEquality key | IndexPropertyRange key => require_property_key key
  | IndexCompositeEquality keys =>
      if decide (keys = []) then tr_read (λ _, Err (unsupported "composite equality index requires at least one key"))
      else tr_each require_property_key keys
  | IndexProjection projection => require_projection projection
  end.

(** ** Definitions *)

Definition define_projection (d : ProjectionDefinition) : Tr S Z :=
  _ ← validate_projection_definition d; txn_register_projection d.

Definition define_index (name : list byte) (d : IndexDefinition) : Tr S Z :=
  _ ← validate_index_definition d; txn_register_index name d.

(** ** Topology *)

Definition writer_create_incidence (relation element role : Z) : Tr S Z :=
  _ ← require_relation relation;
  _ ← require_element element;
  _ ← require_role role;
  txn_create_incidence relation element role.

Definition writer_tombstone_element (id : Z) : Tr S () := _ ← require_element id; txn_drop (SElement id).
Definition writer_tombstone_relation (id : Z) : Tr S () := _ ← require_relation id; txn_drop (SRelation id).
Definition writer_tombstone_incidence (id : Z) : Tr S () := _ ← require_incidence id; txn_drop (SIncidence id).

(** [tombstone]. *)
Definition writer_tombstone (s : PropertySubject) : Tr S () :=
  match s with
  | SElement id => writer_tombstone_element id
  | SRelation id => writer_tombstone_relation id
  | SIncidence id => writer_tombstone_incidence id
  end.

Definition writer_add_element_label (element label : Z) : Tr S () :=
  _ ← require_element element;
  _ ← require_label label;
  txn_add_element_label element label.

Definition writer_add_relation_label (relation label : Z) : Tr S () :=
  _ ← require_relation relation;
  _ ← require_label label;
  txn_add_relation_label relation label.

(** [add_label]. *)
Definition writer_add_label (s : PropertySubject) (label : Z) : Tr S () :=
  match s with
  | SElement id => writer_add_element_label id label
  | SRelation id => writer_add_relation_label id label
  | SIncidence _ => tr_read (λ _, Err (unsupported "incidences do not carry labels"))
  end.

Definition writer_set_relation_type (relation relation_type : Z) : Tr S () :=
  _ ← require_relation relation;
  _ ← require_relation_type relation_type;
  txn_set_relation_type relation relation_type.

(** ** Properties *)

Definition writer_set_property (s : PropertySubject) (key : Z) (value : PropertyValue) : Tr S () :=
  _ ← require_subject s;
  definition ← tr_read (λ w, ok_or (unknown FamilyPropertyKey key) (property_keys (txn_catalog w) !! key));
  if decide (key_family definition ≠ family s) then
    tr_read (λ _, Err (Query (WrongPropertyFamily (key_family definition) (family s))))
  else if decide (key_type definition ≠ value_type value) then
    tr_read (λ _, Err (Query (PropertyTypeMismatch (key_type definition) (value_type value))))
  else txn_set_property s key value.

Definition writer_remove_property (s : PropertySubject) (key : Z) : Tr S () :=
  _ ← require_subject s;
  _ ← require_property_key key;
  txn_remove_property s key.

(** [set] and [unset]: a typed key is its id. *)
Definition writer_set (s : PropertySubject) (key : Z) (value : Assign) : Tr S () :=
  value ← tr_read (λ _, into_value value);
  writer_set_property s key value.
Definition writer_unset (s : PropertySubject) (key : Z) : Tr S () := writer_remove_property s key.

(** ** Reconciling *)

Definition equality_index_key (index : Z) : Tr S Z := tr_read (λ w,
  entry ← ok_or (unknown FamilyIndex index) (indexes (txn_catalog w) !! index);
  match index_definition entry with
  | IndexPropertyEquality key => Ok key
  | _ => Err (unsupported "reconcile requires a property-equality index")
  end).

(** [find_map] over the subjects. *)
Definition first_element (subjects : list PropertySubject) : option Z :=
  head (omap (λ s, match s with SElement id => Some id | _ => None end) subjects).
Definition first_relation (subjects : list PropertySubject) : option Z :=
  head (omap (λ s, match s with SRelation id => Some id | _ => None end) subjects).

Definition upsert_element (index : Z) (value : Assign) : Tr S Z :=
  value ← tr_read (λ _, into_value value);
  key ← equality_index_key index;
  existing ← tr_read (λ w, Ok (first_element (txn_property_equal w key value)));
  match existing with
  | Some id => mret id
  | None =>
      element ← txn_create_element;
      _ ← writer_set_property (SElement element) key value;
      mret element
  end.

Definition upsert_relation (index : Z) (value : Assign) (relation_type : Z) (endpoints : list (Z * Z)) : Tr S Z :=
  value ← tr_read (λ _, into_value value);
  key ← equality_index_key index;
  existing ← tr_read (λ w, Ok (first_relation (txn_property_equal w key value)));
  match existing with
  | Some id => mret id
  | None =>
      relation ← txn_create_relation;
      _ ← writer_set_relation_type relation relation_type;
      _ ← writer_set_property (SRelation relation) key value;
      _ ← tr_each (λ p, _ ← writer_create_incidence relation p.1 p.2; mret ()) endpoints;
      mret relation
  end.

Definition retain (index : Z) (keep : list Assign) : Tr S () :=
  key ← equality_index_key index;
  keep_values ← tr_read (λ _,
    for_each (λ (X : list PropertyValue) a, value ← into_value a; Ok (value :: X)) keep []);
  stale ← tr_read (λ w,
    Ok (fst <$> filter (λ p, p.2 ∉ keep_values) (txn_key_subjects w key)));
  tr_each writer_tombstone stale.

(** ** Applying a schema *)

(** The id a name already has, or what registering it gives. *)
Definition find_or (find : Catalog → option Z) (register : Tr S Z) : Tr S Z :=
  found ← tr_read (λ w, Ok (find (txn_catalog w)));
  match found with
  | Some id => mret id
  | None => register
  end.

Definition register_key_or_get (name : list byte) (fam : PropertyFamily) (type : PropertyType) : Tr S Z :=
  found ← tr_read (λ w, Ok (property_key_names (txn_catalog w) !! name));
  match found with
  | None => txn_register_property_key name fam type
  | Some existing =>
      tr_read (λ w,
        match property_keys (txn_catalog w) !! existing with
        | Some d =>
            if decide (key_family d = fam ∧ key_type d = type) then Ok existing
            else Err (Catalog_ (SchemaConflict name
                   "property key family/value type differs from the existing catalog entry"))
        | None => Err (Catalog_ (SchemaConflict name
                    "property key family/value type differs from the existing catalog entry"))
        end)
  end.

Definition define_graph_projection (spec : GraphProjectionSpec) (b : Bound) : Tr S Z :=
  definition ← tr_read (λ _,
    types ← bound_set (bound_relation_type b) (gs_relation_types spec);
    source_role ← bound_role b (gs_source_role spec);
    target_role ← bound_role b (gs_target_role spec);
    Ok (GraphProjection {| gp_name := gs_name spec; gp_relation_types := types; gp_source_role := source_role;
                           gp_target_role := target_role |}));
  define_projection definition.

Definition define_hypergraph_projection (spec : HypergraphProjectionSpec) (b : Bound) : Tr S Z :=
  definition ← tr_read (λ _,
    types ← bound_set (bound_relation_type b) (hs_relation_types spec);
    source_roles ← bound_set (bound_role b) (hs_source_roles spec);
    target_roles ← bound_set (bound_role b) (hs_target_roles spec);
    Ok (HypergraphProjection {| hp_name := hs_name spec; hp_relation_types := types; hp_source_roles := source_roles;
                                hp_target_roles := target_roles |}));
  define_projection definition.

Definition apply_schema_index (b : Bound) (p : list byte * list byte) : Tr S Bound :=
  '(key_id, value_type) ← tr_read (λ _, ok_or (unknown_name "property key" p.2) (bd_keys b !! p.2));
  id ← find_or (λ c, index_names c !! p.1) (define_index p.1 (IndexPropertyEquality key_id));
  mret (bind_equality_index b p.1 (id, value_type)).

Definition apply_schema (schema : Schema) : Tr S Bound :=
  b ← tr_fold (λ b name, id ← find_or (λ c, role_names c !! name) (txn_register_role name);
                         mret (bind_role b name id)) empty_bound (sc_roles schema);
  b ← tr_fold (λ b name, id ← find_or (λ c, label_names c !! name) (txn_register_label name);
                         mret (bind_label b name id)) b (sc_labels schema);
  b ← tr_fold (λ b name, id ← find_or (λ c, relation_type_names c !! name) (txn_register_relation_type name);
                         mret (bind_relation_type b name id)) b (sc_relation_types schema);
  b ← tr_fold (λ b '(name, fam, type), id ← register_key_or_get name fam type;
                         mret (bind_key b name (id, type))) b (sc_keys schema);
  b ← tr_fold apply_schema_index b (sc_equality_indexes schema);
  b ← tr_fold (λ b spec, id ← find_or (λ c, projection_names c !! gs_name spec) (define_graph_projection spec b);
                         mret (bind_projection b (gs_name spec) id)) b (sc_graph_projections schema);
  tr_fold (λ b spec, id ← find_or (λ c, projection_names c !! hs_name spec) (define_hypergraph_projection spec b);
                     mret (bind_projection b (hs_name spec) id)) b (sc_hypergraph_projections schema).

End writer.
