(* ===== verification/Store.v ===== *)
(** * Store: what a write transaction means

    The abstract store the writer of [crates/oxgraph-db/src/database/writer.rs]
    promises: four maps, a catalog and the id allocators, with no overlay, no
    index and no log. It implements the interface [Txn] of [DbWriter], so every
    method of the writer also runs on it; [WriterRefines] shows the two runs
    agree. [StoreWf] is the integrity every method keeps. *)

From Stdlib Require Import String.
From stdpp Require Import base gmap sets list strings.
From S2P Require Import Prelude Bytes Ordered DbError DbWire DbState OverlayIndex Overlay Merge MergeFacts DbWriter.

Local Open Scope Z_scope.

Record Store := {
  st_elements : gmap Z ElementRecord;
  st_relations : gmap Z RelationRecord;
  st_incidences : gmap Z IncidenceRecord;
  st_properties : gmap (PropertySubject * Z) PropertyValue;
  st_catalog : Catalog;
  st_next : NextIds
}.

Definition store_with_elements (st : Store) (x : gmap Z ElementRecord) : Store := {|
  st_elements := x; st_relations := st_relations st; st_incidences := st_incidences st;
  st_properties := st_properties st; st_catalog := st_catalog st; st_next := st_next st |}.
Definition store_with_relations (st : Store) (x : gmap Z RelationRecord) : Store := {|
  st_elements := st_elements st; st_relations := x; st_incidences := st_incidences st;
  st_properties := st_properties st; st_catalog := st_catalog st; st_next := st_next st |}.
Definition store_with_incidences (st : Store) (x : gmap Z IncidenceRecord) : Store := {|
  st_elements := st_elements st; st_relations := st_relations st; st_incidences := x;
  st_properties := st_properties st; st_catalog := st_catalog st; st_next := st_next st |}.
Definition store_with_properties (st : Store) (x : gmap (PropertySubject * Z) PropertyValue) : Store := {|
  st_elements := st_elements st; st_relations := st_relations st; st_incidences := st_incidences st;
  st_properties := x; st_catalog := st_catalog st; st_next := st_next st |}.
Definition store_with_catalog (st : Store) (x : Catalog) : Store := {|
  st_elements := st_elements st; st_relations := st_relations st; st_incidences := st_incidences st;
  st_properties := st_properties st; st_catalog := x; st_next := st_next st |}.
Definition store_with_next (st : Store) (x : NextIds) : Store := {|
  st_elements := st_elements st; st_relations := st_relations st; st_incidences := st_incidences st;
  st_properties := st_properties st; st_catalog := st_catalog st; st_next := x |}.

(** ** The operations *)

Definition store_has (st : Store) (s : PropertySubject) : Prop :=
  match s with
  | SElement id => is_Some (st_elements st !! id)
  | SRelation id => is_Some (st_relations st !! id)
  | SIncidence id => is_Some (st_incidences st !! id)
  end.
#[export] Instance store_has_dec st s : Decision (store_has st s).
Proof. destruct s; unfold store_has; apply _. Defined.

Definition store_property_equal (st : Store) (key : Z) (value : PropertyValue) : list PropertySubject :=
  (λ t : PropertyTriple, t.1.1) <$> filter (λ t, t.1.2 = key ∧ t.2 = value) (map_iter (st_properties st)).
Definition store_key_subjects (st : Store) (key : Z) : list (PropertySubject * PropertyValue) :=
  (λ t : PropertyTriple, (t.1.1, t.2)) <$> filter (λ t, t.1.2 = key) (map_iter (st_properties st)).

(** Draw an id, then let the catalog accept the name or refuse it. *)
Definition store_register (next : NextIds → Z) (set_next : NextIds → Z → NextIds) (fam : IdFamily)
    (insert : Catalog → Z → res CatalogError Catalog) : Tr Store Z := λ st,
  let id := next (st_next st) in
  match checked_next id with
  | None => (st, Err (id_overflow fam))
  | Some n =>
      let st := store_with_next st (set_next (st_next st) n) in
      match catalog_result (insert (st_catalog st) id) with
      | Ok c => (store_with_catalog st c, Ok id)
      | Err e => (st, Err e)
      | Panic => (st, Panic)
      | NoFuel => (st, NoFuel)
      end
  end.

(** Draw an id and put a record under it. *)
Definition store_create (next : NextIds → Z) (set_next : NextIds → Z → NextIds) (fam : IdFamily)
    (put : Z → Store → Store) : Tr Store Z := λ st,
  let id := next (st_next st) in
  match checked_next id with
  | None => (st, Err (id_overflow fam))
  | Some n => (put id (store_with_next st (set_next (st_next st) n)), Ok id)
  end.

(** What goes with a subject: itself, and the incidences it carries. *)
Definition dropped (st : Store) (s x : PropertySubject) : Prop :=
  x = s ∨
  match x with
  | SIncidence i =>
      match st_incidences st !! i with
      | Some r =>
          match s with
          | SElement e => inc_element r = e
          | SRelation q => inc_relation r = q
          | SIncidence _ => False
          end
      | None => False
      end
  | _ => False
  end.
#[export] Instance dropped_dec st s x : Decision (dropped st s x).
Proof. unfold dropped. destruct x; [apply _..|]. destruct (st_incidences st !! id); destruct s; apply _. Defined.

(** The store without the subjects that satisfy [P]. *)
Definition store_without (P : PropertySubject → Prop) `{!∀ x, Decision (P x)} (st : Store) : Store := {|
  st_elements := filter (λ p, ¬ P (SElement p.1)) (st_elements st);
  st_relations := filter (λ p, ¬ P (SRelation p.1)) (st_relations st);
  st_incidences := filter (λ p, ¬ P (SIncidence p.1)) (st_incidences st);
  st_properties := filter (λ p, ¬ P p.1.1) (st_properties st);
  st_catalog := st_catalog st;
  st_next := st_next st
|}.

Definition store_drop (s : PropertySubject) : Tr Store () := tr_do (λ st, store_without (dropped st s) st).

Definition store_txn : Txn Store := {|
  txn_catalog := st_catalog;
  txn_contains st s := bool_decide (store_has st s);
  txn_property_equal := store_property_equal;
  txn_key_subjects := store_key_subjects;
  txn_register_role name := store_register next_role set_next_role FamilyRole (λ c id, insert_role c id name);
  txn_register_label name := store_register next_label set_next_label FamilyLabel (λ c id, insert_label c id name);
  txn_register_relation_type name :=
    store_register next_relation_type set_next_relation_type FamilyRelationType (λ c id, insert_relation_type c id name);
  txn_register_property_key name fam type :=
    store_register next_property_key set_next_property_key FamilyPropertyKey (λ c id,
      insert_property_key c {| key_id := id; key_name := name; key_family := fam; key_type := type |});
  txn_register_projection d :=
    store_register next_projection set_next_projection FamilyProjection (λ c id, insert_projection c id d);
  txn_register_index name d :=
    store_register next_index set_next_index FamilyIndex (λ c id, insert_index c id name d);
  txn_create_element := store_create next_element set_next_element FamilyElement (λ id st,
    store_with_elements st (<[id := {| el_id := id; el_labels := ∅ |}]> (st_elements st)));
  txn_create_relation := store_create next_relation set_next_relation FamilyRelation (λ id st,
    store_with_relations st (<[id := {| rel_id := id; rel_type := None; rel_labels := ∅ |}]> (st_relations st)));
  txn_create_incidence r e role := store_create next_incidence set_next_incidence FamilyIncidence (λ id st,
    store_with_incidences st (<[id := {| inc_id := id; inc_relation := r; inc_element := e; inc_role := role |}]>
      (st_incidences st)));
  txn_drop := store_drop;
  txn_add_element_label e label := tr_do (λ st,
    store_with_elements st (alter (label_element label) e (st_elements st)));
  txn_add_relation_label r label := tr_do (λ st,
    store_with_relations st (alter (label_relation label) r (st_relations st)));
  txn_set_relation_type r t := tr_do (λ st,
    store_with_relations st (alter (type_relation t) r (st_relations st)));
  txn_set_property s key value := tr_do (λ st,
    store_with_properties st (<[(s, key) := value]> (st_properties st)));
  txn_remove_property s key := tr_do (λ st,
    store_with_properties st (delete (s, key) (st_properties st)))
|}.

(** ** Calls on the writer *)

Inductive WriterCall :=
  | WriterRegisterRole (name : list byte)
  | WriterRegisterLabel (name : list byte)
  | WriterRegisterRelationType (name : list byte)
  | WriterRegisterPropertyKey (name : list byte) (fam : PropertyFamily) (type : PropertyType)
  | WriterDefineProjection (definition : ProjectionDefinition)
  | WriterDefineIndex (name : list byte) (definition : IndexDefinition)
  | WriterApplySchema (schema : Schema)
  | WriterCreateElement
  | WriterCreateRelation
  | WriterCreateIncidence (relation element role : Z)
  | WriterSetRelationType (relation relation_type : Z)
  | WriterUpsertElement (index : Z) (value : Assign)
  | WriterUpsertRelation (index : Z) (value : Assign) (relation_type : Z) (endpoints : list (Z * Z))
  | WriterRetain (index : Z) (keep : list Assign)
  | WriterSet (subject : PropertySubject) (key : Z) (value : Assign)
  | WriterUnset (subject : PropertySubject) (key : Z)
  | WriterAddLabel (subject : PropertySubject) (label : Z)
  | WriterTombstone (subject : PropertySubject).

Inductive Reply := ReplyUnit | ReplyId (id : Z) | ReplyBound (bound : Bound).

Definition reply_id {S} (m : Tr S Z) : Tr S Reply := id ← m; mret (ReplyId id).
Definition reply_unit {S} (m : Tr S ()) : Tr S Reply := _ ← m; mret ReplyUnit.

Definition writer_call {S} `{!Txn S} (call : WriterCall) : Tr S Reply :=
  match call with
  | WriterRegisterRole name => reply_id (txn_register_role name)
  | WriterRegisterLabel name => reply_id (txn_register_label name)
  | WriterRegisterRelationType name => reply_id (txn_register_relation_type name)
  | WriterRegisterPropertyKey name fam type => reply_id (txn_register_property_key name fam type)
  | WriterDefineProjection d => reply_id (define_projection d)
  | WriterDefineIndex name d => reply_id (define_index name d)
  | WriterApplySchema schema => b ← apply_schema schema; mret (ReplyBound b)
  | WriterCreateElement => reply_id txn_create_element
  | WriterCreateRelation => reply_id txn_create_relation
  | WriterCreateIncidence r e role => reply_id (writer_create_incidence r e role)
  | WriterSetRelationType r t => reply_unit (writer_set_relation_type r t)
  | WriterUpsertElement index value => reply_id (upsert_element index value)
  | WriterUpsertRelation index value t endpoints => reply_id (upsert_relation index value t endpoints)
  | WriterRetain index keep => reply_unit (retain index keep)
  | WriterSet s key value => reply_unit (writer_set s key value)
  | WriterUnset s key => reply_unit (writer_unset s key)
  | WriterAddLabel s label => reply_unit (writer_add_label s label)
  | WriterTombstone s => reply_unit (writer_tombstone s)
  end.

(** The state and the replies of a run of calls; a failed call does not end it. *)
Fixpoint writer_run {S} `{!Txn S} (calls : list WriterCall) (s : S) : S * list (res DbError Reply) :=
  match calls with
  | [] => (s, [])
  | call :: calls =>
      let '(s, r) := writer_call call s in
      let '(s, rs) := writer_run calls s in
      (s, r :: rs)
  end.
