(* ===== verification/WriterRefines.v ===== *)
(** * WriterRefines: the writer's methods against the interface

    Two implementations of [Txn] related by an invariant and an abstraction give
    the same results from every method of the writer: the methods are proved once,
    against the laws of [TxnSim], and [WriterRefines] supplies the laws.

    [store_of] forgets the base, the overlay, the index and the log. Every
    operation of the writer's delta has on it the effect of the store's
    operation, as long as the indexes are coherent and the allocators ahead of
    the visible ids, which every operation keeps. *)

From Stdlib Require Import String.
From stdpp Require Import base gmap sets list strings.
From S2P Require Import Prelude Bytes Ordered DbError DbWire DbState OverlayIndex Overlay OverlayReplay Merge MergeFacts IndexFacts DbWriter Store.

Local Open Scope Z_scope.

(** From a state in the invariant the concrete run stays in it, and the abstract
    run of the abstract state ends in the abstraction with the same outcome. *)
Definition sim {S T A} (I : S → Prop) (abs : S → T) (m : Tr S A) (m' : Tr T A) : Prop :=
  ∀ s, I s → I (m s).1 ∧ m' (abs s) = (abs (m s).1, (m s).2).

Class TxnSim {S T} (TS : Txn S) (TT : Txn T) (I : S → Prop) (abs : S → T) : Prop := {
  sim_catalog s : I s → txn_catalog (abs s) = txn_catalog s;
  sim_contains s x : I s → txn_contains (abs s) x = txn_contains s x;
  sim_property_equal s key value : I s → txn_property_equal (abs s) key value = txn_property_equal s key value;
  sim_key_subjects s key : I s → txn_key_subjects (abs s) key = txn_key_subjects s key;
  sim_register_role name : sim I abs (txn_register_role name) (txn_register_role name);
  sim_register_label name : sim I abs (txn_register_label name) (txn_register_label name);
  sim_register_relation_type name : sim I abs (txn_register_relation_type name) (txn_register_relation_type name);
  sim_register_property_key name fam type :
    sim I abs (txn_register_property_key name fam type) (txn_register_property_key name fam type);
  sim_register_projection d : sim I abs (txn_register_projection d) (txn_register_projection d);
  sim_register_index name d : sim I abs (txn_register_index name d) (txn_register_index name d);
  sim_create_element : sim I abs txn_create_element txn_create_element;
  sim_create_relation : sim I abs txn_create_relation txn_create_relation;
  sim_create_incidence r e role : sim I abs (txn_create_incidence r e role) (txn_create_incidence r e role);
  sim_add_element_label e l : sim I abs (txn_add_element_label e l) (txn_add_element_label e l);
  sim_add_relation_label r l : sim I abs (txn_add_relation_label r l) (txn_add_relation_label r l);
  sim_set_relation_type r t : sim I abs (txn_set_relation_type r t) (txn_set_relation_type r t);
  sim_set_property x key value : sim I abs (txn_set_property x key value) (txn_set_property x key value);
  sim_remove_property x key : sim I abs (txn_remove_property x key) (txn_remove_property x key);
  sim_drop x s : I s → txn_contains s x = true →
    I (txn_drop x s).1 ∧ txn_drop x (abs s) = (abs (txn_drop x s).1, (txn_drop x s).2)
}.

Create HintDb sim.
#[export] Hint Resolve sim_register_role sim_register_label sim_register_relation_type sim_register_property_key
  sim_register_projection sim_register_index sim_create_element sim_create_relation sim_create_incidence
  sim_add_element_label sim_add_relation_label sim_set_relation_type sim_set_property sim_remove_property : sim.

Section sim.
Context {S T} {TS : Txn S} {TT : Txn T} (I : S → Prop) (abs : S → T) `{!TxnSim TS TT I abs}.
Notation "m ≈ m'" := (sim I abs m m') (at level 70).

Lemma sim_ret {A} (a : A) : mret a ≈ mret a.
Proof. intros s Hs. by split. Qed.

Lemma sim_bind {A B} (m m' : Tr _ A) (f f' : A → Tr _ B) :
  m ≈ m' → (∀ a, f a ≈ f' a) → (m ≫= f) ≈ (m' ≫= f').
Proof.
  intros Hm Hf s Hs. destruct (Hm s Hs) as [Hi He]. unfold mbind, tr_bind. rewrite He.
  destruct (m s) as [s' [a|e| |]]; cbn in *; [by apply Hf|done..].
Qed.

Lemma sim_read {A} (f : S → res DbError A) (f' : T → res DbError A) :
  (∀ s, I s → f' (abs s) = f s) → tr_read f ≈ tr_read f'.
Proof. intros Hf s Hs. unfold tr_read. cbn. by rewrite Hf. Qed.

Lemma sim_each {A} (f f' : A → Tr _ ()) l : (∀ a, f a ≈ f' a) → tr_each f l ≈ tr_each f' l.
Proof. intros Hf. induction l as [|a l IH]; [apply sim_ret|]. apply sim_bind; [apply Hf|done]. Qed.

Lemma sim_fold {A B} (f f' : B → A → Tr _ B) b l : (∀ b a, f b a ≈ f' b a) → tr_fold f b l ≈ tr_fold f' b l.
Proof. intros Hf. revert b. induction l as [|a l IH]; intros b; [apply sim_ret|]. apply sim_bind; [apply Hf|done]. Qed.

Lemma sim_if {A P} `{Decision P} (m n : Tr S A) (m' n' : Tr T A) :
  m ≈ m' → n ≈ n' → (if decide P then m else n) ≈ (if decide P then m' else n').
Proof. by case_decide. Qed.

Lemma sim_read_const {A} (r : res DbError A) : tr_read (λ _, r) ≈ tr_read (λ _, r).
Proof. by apply sim_read. Qed.

Hint Resolve sim_ret sim_bind sim_each sim_fold sim_if sim_read_const : sim.

Lemma sim_require_element id : require_element id ≈ require_element id.
Proof. apply sim_read. intros s Hs. by rewrite sim_contains. Qed.
Lemma sim_require_relation id : require_relation id ≈ require_relation id.
Proof. apply sim_read. intros s Hs. by rewrite sim_contains. Qed.
Lemma sim_require_incidence id : require_incidence id ≈ require_incidence id.
Proof. apply sim_read. intros s Hs. by rewrite sim_contains. Qed.
Lemma sim_require_in {V} (m : Catalog → gmap Z V) fam id : require_in m fam id ≈ require_in m fam id.
Proof. apply sim_read. intros s Hs. by rewrite sim_catalog. Qed.
Lemma sim_require_role id : require_role id ≈ require_role id.
Proof. apply sim_require_in. Qed.
Lemma sim_require_label id : require_label id ≈ require_label id.
Proof. apply sim_require_in. Qed.
Lemma sim_require_relation_type id : require_relation_type id ≈ require_relation_type id.
Proof. apply sim_require_in. Qed.
Lemma sim_require_property_key id : require_property_key id ≈ require_property_key id.
Proof. apply sim_require_in. Qed.
Lemma sim_require_projection id : require_projection id ≈ require_projection id.
Proof. apply sim_require_in. Qed.
Hint Resolve sim_require_element sim_require_relation sim_require_incidence sim_require_role sim_require_label
  sim_require_relation_type sim_require_property_key sim_require_projection : sim.

Lemma sim_require_subject x : require_subject x ≈ require_subject x.
Proof. destruct x; cbn; auto with sim. Qed.
Lemma sim_equality_index_key index : equality_index_key index ≈ equality_index_key index.
Proof. apply sim_read. intros s Hs. by rewrite sim_catalog. Qed.
Hint Resolve sim_require_subject sim_equality_index_key : sim.

Lemma sim_define_projection d : define_projection d ≈ define_projection d.
Proof. apply sim_bind; [|auto with sim]. destruct d; cbn; auto 6 with sim. Qed.
Lemma sim_define_index name d : define_index name d ≈ define_index name d.
Proof. apply sim_bind; [|auto with sim]. destruct d; cbn; auto with sim. Qed.
Hint Resolve sim_define_projection sim_define_index : sim.

(** A drop behind its guard. *)
Lemma sim_guarded_drop x : (_ ← require_subject x; txn_drop x) ≈ (_ ← require_subject x; txn_drop x).
Proof.
  intros s Hs.
  assert (∀ fam id, let m {S'} {HS : Txn S'} : Tr S' () :=
    (_ ← tr_read (λ w, if txn_contains w x then Ok () else Err (unknown fam id)); txn_drop x) in
    I ((m : Tr S ()) s).1 ∧ (m : Tr T ()) (abs s) = (abs ((m : Tr S ()) s).1, ((m : Tr S ()) s).2)) as Hg.
  { intros fam id. unfold mbind, tr_bind, tr_read. cbn. rewrite sim_contains by done.
    destruct (txn_contains s x) eqn:Hc; [by apply sim_drop|done]. }
  destruct x; apply Hg.
Qed.

Lemma sim_tombstone x : writer_tombstone x ≈ writer_tombstone x.
Proof.
  destruct x as [id|id|id]; [apply (sim_guarded_drop (SElement id))|apply (sim_guarded_drop (SRelation id))|].
  apply (sim_guarded_drop (SIncidence id)).
Qed.

Lemma sim_set_property_guarded x key value : writer_set_property x key value ≈ writer_set_property x key value.
Proof.
  apply sim_bind; [auto with sim|]. intros _.
  apply sim_bind; [apply sim_read; intros s Hs; by rewrite sim_catalog|]. auto with sim.
Qed.
Hint Resolve sim_tombstone sim_set_property_guarded : sim.

Lemma sim_set_relation_type_guarded r t : writer_set_relation_type r t ≈ writer_set_relation_type r t.
Proof. unfold writer_set_relation_type. auto with sim. Qed.
Lemma sim_create_incidence_guarded r e role : writer_create_incidence r e role ≈ writer_create_incidence r e role.
Proof. unfold writer_create_incidence. auto 6 with sim. Qed.
Hint Resolve sim_set_relation_type_guarded sim_create_incidence_guarded : sim.

Lemma sim_upsert_element index value : upsert_element index value ≈ upsert_element index value.
Proof.
  apply sim_bind; [auto with sim|]. intros v. apply sim_bind; [auto with sim|]. intros key.
  apply sim_bind; [apply sim_read; intros s Hs; by rewrite sim_property_equal|]. intros [id|]; auto 6 with sim.
Qed.

Lemma sim_upsert_relation index value t endpoints :
  upsert_relation index value t endpoints ≈ upsert_relation index value t endpoints.
Proof.
  apply sim_bind; [auto with sim|]. intros v. apply sim_bind; [auto with sim|]. intros key.
  apply sim_bind; [apply sim_read; intros s Hs; by rewrite sim_property_equal|]. intros [id|]; [auto with sim|].
  apply sim_bind; [auto with sim|]. intros r. apply sim_bind; [auto with sim|]. intros _.
  apply sim_bind; [auto with sim|]. intros _. apply sim_bind; auto with sim.
Qed.

Lemma sim_retain index keep : retain index keep ≈ retain index keep.
Proof.
  apply sim_bind; [auto with sim|]. intros key. apply sim_bind; [auto with sim|]. intros ks.
  apply sim_bind; [apply sim_read; intros s Hs; by rewrite sim_key_subjects|]. auto with sim.
Qed.

Lemma sim_find_or find (m : Tr S Z) (m' : Tr T Z) : m ≈ m' → find_or find m ≈ find_or find m'.
Proof.
  intros Hm. apply sim_bind; [apply sim_read; intros s Hs; by rewrite sim_catalog|]. intros [id|]; auto with sim.
Qed.
Hint Resolve sim_upsert_element sim_upsert_relation sim_retain sim_find_or : sim.

Lemma sim_register_key_or_get name fam type : register_key_or_get name fam type ≈ register_key_or_get name fam type.
Proof.
  apply sim_bind; [apply sim_read; intros s Hs; by rewrite sim_catalog|]. intros [id|]; [|auto with sim].
  apply sim_read. intros s Hs. by rewrite sim_catalog.
Qed.

Lemma sim_apply_schema schema : apply_schema schema ≈ apply_schema schema.
Proof.
  unfold apply_schema.
  apply sim_bind; [apply sim_fold; auto 6 with sim|intros b1].
  apply sim_bind; [apply sim_fold; auto 6 with sim|intros b2].
  apply sim_bind; [apply sim_fold; auto 6 with sim|intros b3].
  apply sim_bind; [apply sim_fold; intros b [[name fam] type]|intros b4].
  { apply sim_bind; [apply sim_register_key_or_get|auto with sim]. }
  apply sim_bind; [apply sim_fold; intros b p|intros b5].
  { apply sim_bind; [auto with sim|]. intros [key_id value_type]. auto 6 with sim. }
  apply sim_bind; [apply sim_fold|intros b6; apply sim_fold]; intros b spec; (apply sim_bind; [|auto with sim]);
    apply sim_find_or, sim_bind; auto with sim.
Qed.
Hint Resolve sim_apply_schema : sim.

Lemma sim_add_label x label : writer_add_label x label ≈ writer_add_label x label.
Proof. destruct x; cbn; unfold writer_add_element_label, writer_add_relation_label; auto 6 with sim. Qed.
Hint Resolve sim_add_label : sim.

Lemma sim_writer_call call : writer_call call ≈ writer_call call.
Proof.
  destruct call; cbn; unfold reply_id, reply_unit, writer_set, writer_unset, writer_remove_property; auto 6 with sim.
Qed.

Lemma sim_writer_run calls s :
  I s → I (writer_run calls s).1 ∧ writer_run calls (abs s) = (abs (writer_run calls s).1, (writer_run calls s).2).
Proof.
  revert s. induction calls as [|call calls IH]; intros s Hs; [done|]. cbn.
  destruct (sim_writer_call call s Hs) as [Hi ->]. destruct (writer_call call s) as [s' r]. cbn in Hi |- *.
  destruct (IH s' Hi) as [Hi' ->]. by destruct (writer_run calls s').
Qed.

End sim.

(** ** The overlay simulates the store *)

(** ** Stores with subjects removed *)

Lemma store_eq (a b : Store) :
  (∀ id, st_elements a !! id = st_elements b !! id) → (∀ id, st_relations a !! id = st_relations b !! id) →
  (∀ id, st_incidences a !! id = st_incidences b !! id) → (∀ s k, st_properties a !! (s, k) = st_properties b !! (s, k)) →
  st_catalog a = st_catalog b → st_next a = st_next b → a = b.
Proof.
  destruct a, b. cbn. intros He Hr Hi Hp -> ->. f_equal; apply map_eq; [done..|]. intros [s k]. apply Hp.
Qed.

Lemma lookup_filter_not `{Countable K} {V} (P : K → Prop) `{!∀ k, Decision (P k)} (m : gmap K V) k :
  filter (λ p, ¬ P p.1) m !! k = if decide (P k) then None else m !! k.
Proof.
  destruct (decide (P k)) as [HP|HP].
  - apply map_lookup_filter_None. right. intros x _ Hn. by apply Hn.
  - destruct (m !! k) as [x|] eqn:Hx; [by apply map_lookup_filter_Some|]. apply map_lookup_filter_None. by left.
Qed.

Section without.
Context (P : PropertySubject → Prop) `{!∀ x, Decision (P x)} (st : Store).

Lemma without_element id : st_elements (store_without P st) !! id = if decide (P (SElement id)) then None else st_elements st !! id.
Proof. exact (lookup_filter_not (λ k, P (SElement k)) (st_elements st) id). Qed.
Lemma without_relation id : st_relations (store_without P st) !! id = if decide (P (SRelation id)) then None else st_relations st !! id.
Proof. exact (lookup_filter_not (λ k, P (SRelation k)) (st_relations st) id). Qed.
Lemma without_incidence id :
  st_incidences (store_without P st) !! id = if decide (P (SIncidence id)) then None else st_incidences st !! id.
Proof. exact (lookup_filter_not (λ k, P (SIncidence k)) (st_incidences st) id). Qed.
Lemma without_property s k :
  st_properties (store_without P st) !! (s, k) = if decide (P s) then None else st_properties st !! (s, k).
Proof. exact (lookup_filter_not (λ q : PropertySubject * Z, P q.1) (st_properties st) (s, k)). Qed.

End without.

Ltac without := rewrite ?without_element, ?without_relation, ?without_incidence, ?without_property.

Lemma store_without_ext P Q `{!∀ x, Decision (P x), !∀ x, Decision (Q x)} st :
  (∀ x, P x ↔ Q x) → store_without P st = store_without Q st.
Proof.
  intros HPQ. apply store_eq; try done; intros; without; repeat case_decide; try done; naive_solver.
Qed.

Lemma store_without_twice P Q `{!∀ x, Decision (P x), !∀ x, Decision (Q x)} st :
  store_without P (store_without Q st) = store_without (λ x, Q x ∨ P x) st.
Proof. apply store_eq; try done; intros; without; repeat case_decide; try done; naive_solver. Qed.

(** ** The abstraction *)

Section refines.
Context (base : BaseRecords).
Implicit Types w : WriteOverlay.

Definition store_of w : Store := {|
  st_elements := all_elements (layered base w); st_relations := all_relations (layered base w);
  st_incidences := all_incidences (layered base w); st_properties := all_properties (layered base w);
  st_catalog := w_catalog w; st_next := w_next w
|}.

(** The allocators are ahead of every visible id. *)
Definition FreshIds (st : Store) : Prop :=
  (∀ id, is_Some (st_elements st !! id) → id < next_element (st_next st)) ∧
  (∀ id, is_Some (st_relations st !! id) → id < next_relation (st_next st)) ∧
  (∀ id, is_Some (st_incidences st !! id) → id < next_incidence (st_next st)).

Definition WriterInv w : Prop := CoherentW base w ∧ FreshIds (store_of w).

Lemma store_element w id : st_elements (store_of w) !! id = layered_ref (w_elements w) (base_elements base) id.
Proof. symmetry. apply layered_ref_merged. Qed.
Lemma store_relation w id : st_relations (store_of w) !! id = layered_ref (w_relations w) (base_relations base) id.
Proof. symmetry. apply layered_ref_merged. Qed.
Lemma store_incidence w id : st_incidences (store_of w) !! id = layered_ref (w_incidences w) (base_incidences base) id.
Proof. symmetry. apply layered_ref_merged. Qed.
Lemma store_property w s k : st_properties (store_of w) !! (s, k) = visible_property base (w_properties w) s k.
Proof. by rewrite <-view_visible, view_property_lookup. Qed.

Lemma all_element w id : all_elements (layered base w) !! id = layered_ref (w_elements w) (base_elements base) id.
Proof. symmetry. apply layered_ref_merged. Qed.
Lemma all_relation w id : all_relations (layered base w) !! id = layered_ref (w_relations w) (base_relations base) id.
Proof. symmetry. apply layered_ref_merged. Qed.
Lemma all_incidence w id : all_incidences (layered base w) !! id = layered_ref (w_incidences w) (base_incidences base) id.
Proof. symmetry. apply layered_ref_merged. Qed.
Lemma all_property w s k : all_properties (layered base w) !! (s, k) = visible_property base (w_properties w) s k.
Proof. by rewrite <-view_visible, view_property_lookup. Qed.

Arguments all_elements : simpl never.
Arguments all_relations : simpl never.
Arguments all_incidences : simpl never.
Arguments all_properties : simpl never.
Arguments store_without : simpl never.

Ltac stored :=
  rewrite ?store_element, ?store_relation, ?store_incidence, ?store_property,
    ?all_element, ?all_relation, ?all_incidence, ?all_property.

(** Equality of two stores, field by field. *)
Ltac store_ext :=
  apply store_eq; try done; intros; cbn; without; stored; cbn;
  rewrite ?layered_ref_insert, ?visible_set_slot, ?visible_tombstone, ?lookup_insert, ?lookup_delete, ?lookup_alter;
  stored; repeat case_decide; simplify_eq/=; try done.

Lemma store_log w l : store_of (with_log w l) = store_of w.
Proof. done. Qed.

Lemma store_tombstone_element w id :
  store_of (tombstone_element base w id) = store_without (λ x, x = SElement id) (store_of w).
Proof. store_ext; congruence. Qed.

Lemma store_tombstone_relation w id :
  store_of (tombstone_relation base w id) = store_without (λ x, x = SRelation id) (store_of w).
Proof. store_ext; congruence. Qed.

Lemma store_tombstone_incidence w id :
  store_of (tombstone_incidence base w id) = store_without (λ x, x = SIncidence id) (store_of w).
Proof.
  unfold tombstone_incidence, tombstone_incidence_inner. destruct (visible_incidence base w id); store_ext; congruence.
Qed.

Lemma store_edit_element w e label :
  store_of (add_element_label base w e label) =
    store_with_elements (store_of w) (alter (label_element label) e (st_elements (store_of w))).
Proof.
  unfold add_element_label, add_element_label_inner. rewrite edit_record_spec.
  destruct (layered_ref (w_elements w) (base_elements base) e) as [r|] eqn:Hr; store_ext; by rewrite Hr.
Qed.

Lemma store_edit_relation w r label :
  store_of (add_relation_label base w r label) =
    store_with_relations (store_of w) (alter (label_relation label) r (st_relations (store_of w))).
Proof.
  unfold add_relation_label, add_relation_label_inner. rewrite edit_record_spec.
  destruct (layered_ref (w_relations w) (base_relations base) r) as [x|] eqn:Hr; store_ext; by rewrite Hr.
Qed.

Lemma store_type_relation w r t :
  store_of (set_relation_type base w r t) =
    store_with_relations (store_of w) (alter (type_relation t) r (st_relations (store_of w))).
Proof.
  unfold set_relation_type, set_relation_type_inner. rewrite edit_record_spec.
  destruct (layered_ref (w_relations w) (base_relations base) r) as [x|] eqn:Hr; store_ext; by rewrite Hr.
Qed.

(** Setting the value a property already has logs nothing and changes nothing. *)
Lemma store_set_property w s k value :
  store_of (set_property base w s k value) =
    store_with_properties (store_of w) (<[(s, k) := value]> (st_properties (store_of w))).
Proof.
  unfold set_property, visible_property_is. case_bool_decide as Hsame.
  - by store_ext.
  - destruct (encode_subject s) as [kind id], value; store_ext; naive_solver.
Qed.

Lemma store_remove_property w s k :
  store_of (remove_property base w s k) = store_with_properties (store_of w) (delete (s, k) (st_properties (store_of w))).
Proof.
  unfold remove_property. destruct (encode_subject s) as [kind id]. store_ext; naive_solver.
Qed.

(** ** Keeping the invariant *)

Lemma coherent_fields w w' :
  w_elements w' = w_elements w → w_relations w' = w_relations w → w_incidences w' = w_incidences w →
  w_properties w' = w_properties w → w_index w' = w_index w → CoherentW base w → CoherentW base w'.
Proof. destruct w, w'. cbn. intros -> -> -> -> -> []. by split. Qed.

Lemma coherent_log w kind flags words : CoherentW base w → CoherentW base (log_push w kind flags words).
Proof. by apply coherent_fields. Qed.

Lemma coherent_set w s k value : CoherentW base w → CoherentW base (set_property base w s k value).
Proof.
  intros Hco. unfold set_property. destruct (visible_property_is _ _ _ _ _); [done|].
  destruct (encode_subject s) as [kind id], value; cbn; apply coherent_set_property; by apply (coherent_fields w).
Qed.

Lemma coherent_remove w s k : CoherentW base w → CoherentW base (remove_property base w s k).
Proof.
  intros Hco. unfold remove_property. destruct (encode_subject s) as [kind id].
  apply coherent_remove_property. by apply coherent_log.
Qed.

(** Allocators that have not gone back are still ahead of ids that are no more. *)
Lemma fresh_le st st' :
  (∀ id, is_Some (st_elements st' !! id) → is_Some (st_elements st !! id)) →
  (∀ id, is_Some (st_relations st' !! id) → is_Some (st_relations st !! id)) →
  (∀ id, is_Some (st_incidences st' !! id) → is_Some (st_incidences st !! id)) →
  next_element (st_next st) ≤ next_element (st_next st') → next_relation (st_next st) ≤ next_relation (st_next st') →
  next_incidence (st_next st) ≤ next_incidence (st_next st') → FreshIds st → FreshIds st'.
Proof.
  intros He Hr Hi Hne Hnr Hni (Fe & Fr & Fi). split_and!; intros id H.
  - specialize (Fe id (He id H)). lia.
  - specialize (Fr id (Hr id H)). lia.
  - specialize (Fi id (Hi id H)). lia.
Qed.

Lemma fresh_without P `{!∀ x, Decision (P x)} st : FreshIds st → FreshIds (store_without P st).
Proof. apply fresh_le; try done; intros id; without; by case_decide; [intros [? ?]|]. Qed.

Lemma is_Some_alter {V} (f : V → V) (m : gmap Z V) i k : is_Some (alter f i m !! k) → is_Some (m !! k).
Proof. rewrite lookup_alter. case_decide; subst; [by rewrite fmap_is_Some|done]. Qed.

(** ** The laws of the interface *)

Lemma sim_do (f : WriteOverlay → WriteOverlay) (f' : Store → Store) :
  (∀ w, CoherentW base w → CoherentW base (f w)) → (∀ w, store_of (f w) = f' (store_of w)) →
  (∀ st, FreshIds st → FreshIds (f' st)) → sim WriterInv store_of (tr_do f) (tr_do f').
Proof.
  intros Hc Hs Hf w [Hco Hfr]. unfold tr_do, WriterInv. cbn. rewrite Hs. split; [split; auto|done].
Qed.

Lemma checked_next_Some id n : checked_next id = Some n → n = id + 1.
Proof. unfold checked_next, checked_add, try_into. destruct (_ <=? _); naive_solver. Qed.

(** The shape the three creates share. *)
Lemma sim_create (create : Tr WriteOverlay Z) next set_next fam (put : WriteOverlay → Z → WriteOverlay) (put' : Z → Store → Store)
    kind (words : Z → list Z) :
  (∀ w, create w = let id := next (w_next w) in
    match checked_next id with
    | None => (w, Err (id_overflow fam))
    | Some n => (log_push (put (with_next w (set_next (w_next w) n)) id) kind 0 (words id), Ok id)
    end) →
  (∀ w n, CoherentW base w → FreshIds (store_of w) → n = next (w_next w) + 1 →
     CoherentW base (put (with_next w (set_next (w_next w) n)) (next (w_next w))) ∧
     FreshIds (put' (next (w_next w)) (store_with_next (store_of w) (set_next (w_next w) n)))) →
  (∀ w id n, store_of (put (with_next w n) id) = put' id (store_with_next (store_of w) n)) →
  sim WriterInv store_of create (store_create next set_next fam put').
Proof.
  intros Hc Hi Hs w [Hco Hfr]. rewrite Hc. unfold store_create. cbn.
  destruct (checked_next (next (w_next w))) as [n|] eqn:Hn; cbn; [|done].
  apply checked_next_Some in Hn. destruct (Hi w n Hco Hfr Hn) as [Hco' Hfr'].
  set (id := next (w_next w)) in *. set (w' := put _ id) in *.
  assert (store_of (log_push w' kind 0 (words id)) = put' id (store_with_next (store_of w) (set_next (w_next w) n))) as He
    by (etrans; [apply store_log|apply Hs]).
  rewrite He. split; [split; [by apply coherent_log|by rewrite He]|done].
Qed.

Lemma fresh_not_visible w :
  FreshIds (store_of w) →
  view_element (layered base w) (next_element (w_next w)) = None ∧
  view_relation (layered base w) (next_relation (w_next w)) = None ∧
  view_incidence (layered base w) (next_incidence (w_next w)) = None.
Proof.
  intros (Fe & Fr & Fi). rewrite view_element_lookup, view_relation_lookup, view_incidence_lookup.
  split_and!; apply eq_None_not_Some; intros H; [apply Fe in H|apply Fr in H|apply Fi in H]; cbn in H; lia.
Qed.

Lemma fresh_insert {V} (m : gmap Z V) next x id :
  (∀ id, is_Some (m !! id) → id < next) → is_Some (<[next := x]> m !! id) → id < next + 1.
Proof. intros Hm. rewrite lookup_insert. case_decide; [lia|]. intros Hid%Hm. lia. Qed.

Lemma sim_put_element : sim WriterInv store_of create_element (txn_create_element (Txn := store_txn)).
Proof.
  apply (sim_create _ _ _ _ put_element _ OP_CREATE_ELEMENT (λ id, [id])); [done| |].
  - intros w n Hco Hfr ->. destruct (fresh_not_visible w Hfr) as (He & _ & _). split.
    + apply coherent_put_element; [by apply (coherent_fields w)|exact He].
    + destruct Hfr as (Fe & Fr & Fi). split_and!; [|exact Fr|exact Fi]. intros id. by apply fresh_insert.
  - intros w id n. by store_ext.
Qed.

Lemma sim_put_relation : sim WriterInv store_of create_relation (txn_create_relation (Txn := store_txn)).
Proof.
  apply (sim_create _ _ _ _ put_relation _ OP_CREATE_RELATION (λ id, [id])); [done| |].
  - intros w n Hco Hfr ->. destruct (fresh_not_visible w Hfr) as (_ & Hr & _). split.
    + apply coherent_put_relation; [by apply (coherent_fields w)|exact Hr].
    + destruct Hfr as (Fe & Fr & Fi). split_and!; [exact Fe| |exact Fi]. intros id. by apply fresh_insert.
  - intros w id n. by store_ext.
Qed.

Lemma sim_put_incidence r e role :
  sim WriterInv store_of (λ w, create_incidence w r e role) (txn_create_incidence (Txn := store_txn) r e role).
Proof.
  apply (sim_create _ _ _ _ (λ w id, put_incidence w id r e role) _ OP_CREATE_INCIDENCE (λ id, [id; r; e; role])); [done| |].
  - intros w n Hco Hfr ->. destruct (fresh_not_visible w Hfr) as (_ & _ & Hi). split.
    + apply coherent_put_incidence; [by apply (coherent_fields w)|exact Hi].
    + destruct Hfr as (Fe & Fr & Fi). split_and!; [exact Fe|exact Fr|]. intros id. by apply fresh_insert.
  - intros w id n. by store_ext.
Qed.

(** The shape the six registrations share. *)
Lemma sim_finish w id registered kind flags words :
  WriterInv w →
  let m := finish_register w id registered kind flags words in
  WriterInv m.1 ∧
  match catalog_result registered with
  | Ok c => (store_with_catalog (store_of w) c, Ok id)
  | Err e => (store_of w, Err e)
  | Panic => (store_of w, Panic)
  | NoFuel => (store_of w, NoFuel)
  end = (store_of m.1, m.2).
Proof.
  intros [Hco Hfr]. unfold finish_register. destruct (catalog_result registered) as [c|e| |]; cbn; split; try done.
  split; [by apply (coherent_fields w)|exact Hfr].
Qed.

Lemma inv_next_log w n l :
  next_element (w_next w) ≤ next_element n → next_relation (w_next w) ≤ next_relation n →
  next_incidence (w_next w) ≤ next_incidence n → WriterInv w → WriterInv (with_log (with_next w n) l).
Proof.
  intros He Hr Hi [Hco Hfr]. split; [by apply (coherent_fields w)|]. by apply (fresh_le (store_of w)).
Qed.

Lemma sim_register (register : Tr WriteOverlay Z) next set_next fam insert (log : WriteOverlay → Z → MutationLog)
    (op : WriteOverlay → Z → Z * Z * list Z) :
  (∀ w, register w = let id := next (w_next w) in
    match checked_next id with
    | None => (w, Err (id_overflow fam))
    | Some n =>
        finish_register (with_log (with_next w (set_next (w_next w) n)) (log w id)) id (insert (w_catalog w) id)
          (op w id).1.1 (op w id).1.2 (op w id).2
    end) →
  (∀ ids n, next_element ids = next_element (set_next ids n) ∧ next_relation ids = next_relation (set_next ids n) ∧
     next_incidence ids = next_incidence (set_next ids n)) →
  sim WriterInv store_of register (store_register next set_next fam insert).
Proof.
  intros Hreg Hnext w Hw. rewrite Hreg. unfold store_register. cbn [store_of st_next].
  destruct (checked_next (next (w_next w))) as [n|] eqn:Hn; cbn; [|done].
  destruct (Hnext (w_next w) n) as (He & Hr & Hi).
  apply (sim_finish (with_log (with_next w (set_next (w_next w) n)) (log w (next (w_next w))))).
  apply inv_next_log; [by rewrite He|by rewrite Hr|by rewrite Hi|done].
Qed.

(** ** Drops *)

Lemma inv_tombstone_incidence w i :
  WriterInv w → is_Some (st_incidences (store_of w) !! i) → WriterInv (tombstone_incidence base w i).
Proof.
  intros [Hco Hfr] Hi. split.
  - apply coherent_log, coherent_tombstone_incidence; [done|]. by rewrite view_incidence_lookup.
  - rewrite store_tombstone_incidence. by apply fresh_without.
Qed.

(** Tombstoning a list of visible incidences removes just those. *)
Lemma tombstone_incidences w ids :
  WriterInv w → NoDup ids → (∀ i, i ∈ ids → is_Some (st_incidences (store_of w) !! i)) →
  WriterInv (foldl (tombstone_incidence base) w ids) ∧
  store_of (foldl (tombstone_incidence base) w ids) = store_without (λ x, x ∈ SIncidence <$> ids) (store_of w).
Proof.
  intros Hw Hnd. revert w Hw. induction Hnd as [|i ids Hni Hnd IH]; intros w Hw Hids; cbn [foldl].
  { split; [done|]. store_ext; set_solver. }
  destruct (IH (tombstone_incidence base w i)) as [Hinv Hst].
  - apply inv_tombstone_incidence; [done|]. apply Hids. by left.
  - intros j Hj. rewrite store_tombstone_incidence. without. rewrite decide_False by (intros [= ->]; done).
    apply Hids. by right.
  - split; [done|]. rewrite Hst, store_tombstone_incidence, store_without_twice. apply store_without_ext.
    intros x. rewrite fmap_cons, elem_of_cons. done.
Qed.

(** The incidences an element or a relation carries, as the index lists them. *)
Lemma listed_incidences w (f : IncidenceRecord → Z) (records : list IncidenceRecord) id :
  CoherentW base w → Ok records = ('(rs : list IncidenceRecord) ← view_incidences (layered base w); Ok (filter (λ r, f r = id) rs)) →
  NoDup (inc_id <$> records) ∧
  (∀ i, i ∈ inc_id <$> records ↔ ∃ r, st_incidences (store_of w) !! i = Some r ∧ f r = id).
Proof.
  intros Hco. rewrite (view_incidences_run _ (coherent_keyed _ Hco)), bind_Ok. intros [= ->].
  destruct (coherent_maps _ Hco) as (_ & _ & Hm). split.
  - pose proof (scan_ids_ascending _ Hm (λ r, f r = id)) as Hs. clear -Hs.
    change (record_id <$> ?l) with (inc_id <$> l) in Hs. induction Hs as [|x l Hs IH Hf]; constructor; [|done].
    rewrite Forall_forall in Hf. intros Hin. by apply Hf, key_lt_irrefl in Hin.
  - intros i. apply (elem_of_scan_ids _ Hm (λ r, f r = id)).
Qed.

(** A subject and then the incidences it carries. *)
Lemma drop_cascade w w' s (f : IncidenceRecord → Z) (records : list IncidenceRecord) id :
  WriterInv w → CoherentW base w' → store_of w' = store_without (λ x, x = s) (store_of w) →
  Ok records = ('(rs : list IncidenceRecord) ← view_incidences (layered base w); Ok (filter (λ r, f r = id) rs)) →
  match s with SIncidence _ => False | _ => True end →
  (∀ i, dropped (store_of w) s (SIncidence i) ↔ ∃ r, st_incidences (store_of w) !! i = Some r ∧ f r = id) →
  let w'' := foldl (tombstone_incidence base) w' (inc_id <$> records) in
  WriterInv w'' ∧ store_without (dropped (store_of w) s) (store_of w) = store_of w''.
Proof.
  intros [Hco Hfr] Hco' Hst Hrec Hs Hdrop. destruct (listed_incidences w f records id Hco Hrec) as [Hnd Hin].
  destruct (tombstone_incidences w' (inc_id <$> records)) as [Hinv Hst']; [split|done| |split; [done|]].
  - done.
  - rewrite Hst. by apply fresh_without.
  - intros i (r & Hr & _)%Hin. rewrite Hst. without. rewrite decide_False by (by intros <-). by rewrite Hr.
  - rewrite Hst', Hst, store_without_twice. apply store_without_ext. intros x.
    assert (∀ i, SIncidence i ∈ SIncidence <$> (inc_id <$> records) ↔ i ∈ inc_id <$> records) as Hfm.
    { intros i. rewrite (list_elem_of_fmap SIncidence). naive_solver. }
    destruct x as [e|r|i]; [..|rewrite Hdrop, Hfm, Hin; split; [by right|by intros [<-|?]]];
      (split; [intros [?|[]]; by left|]; intros [?|Hx]; [by left|]; by apply list_elem_of_fmap in Hx as (? & ? & _)).
Qed.

Lemma sim_drop_element id w :
  WriterInv w → WriterInv (drop_element base id w).1 ∧
  store_drop (SElement id) (store_of w) = (store_of (drop_element base id w).1, (drop_element base id w).2).
Proof.
  intros Hw. unfold drop_element, mbind, tr_bind, tr_read, tr_do. cbn.
  destruct (drop_cascade w (tombstone_element base w id) (SElement id) inc_element
    (view_element_incidences (layered base w) id) id Hw) as [Hinv Hst].
  - apply coherent_log, coherent_tombstone_element, Hw.
  - apply store_tombstone_element.
  - symmetry. apply index_element_incidences, Hw.
  - done.
  - intros i. unfold dropped. destruct (st_incidences (store_of w) !! i); naive_solver.
  - split; [done|]. unfold store_drop, tr_do. by rewrite Hst.
Qed.

Lemma sim_drop_relation id w :
  WriterInv w → WriterInv (drop_relation base id w).1 ∧
  store_drop (SRelation id) (store_of w) = (store_of (drop_relation base id w).1, (drop_relation base id w).2).
Proof.
  intros Hw. unfold drop_relation, mbind, tr_bind, tr_read, tr_do. cbn.
  destruct (drop_cascade w (tombstone_relation base w id) (SRelation id) inc_relation
    (view_relation_incidences (layered base w) id) id Hw) as [Hinv Hst].
  - apply coherent_log, coherent_tombstone_relation, Hw.
  - apply store_tombstone_relation.
  - symmetry. apply index_relation_incidences, Hw.
  - done.
  - intros i. unfold dropped. destruct (st_incidences (store_of w) !! i); naive_solver.
  - split; [done|]. unfold store_drop, tr_do. by rewrite Hst.
Qed.

Lemma sim_drop_incidence id w :
  WriterInv w → is_Some (st_incidences (store_of w) !! id) → WriterInv (drop_incidence base id w).1 ∧
  store_drop (SIncidence id) (store_of w) = (store_of (drop_incidence base id w).1, (drop_incidence base id w).2).
Proof.
  intros Hw Hid. unfold drop_incidence, tr_do. cbn. split; [by apply inv_tombstone_incidence|].
  unfold store_drop, tr_do. rewrite store_tombstone_incidence. f_equal. apply store_without_ext. intros x. unfold dropped.
  destruct x as [| |i]; [naive_solver..|]. destruct (st_incidences (store_of w) !! i); naive_solver.
Qed.

(** *** The instance *)

Lemma contains_store w x : delta_contains base w x = bool_decide (store_has (store_of w) x).
Proof.
  destruct x as [id|id|id]; cbn; unfold contains_element, contains_relation, contains_incidence;
    apply bool_decide_ext; by rewrite ?view_element_lookup, ?view_relation_lookup, ?view_incidence_lookup.
Qed.

#[export] Instance writer_sim : TxnSim (writer_txn base) store_txn WriterInv store_of.
Proof.
  split; cbn -[create_element create_relation create_incidence].
  - done.
  - intros w x _. by rewrite contains_store.
  - intros w key value [Hco _]. pose proof (index_property_equal _ Hco key value) as Hi.
    unfold property_equal_scan in Hi. rewrite view_properties_run, bind_Ok in Hi. by injection Hi.
  - intros w key [Hco _]. symmetry. apply (index_key_subjects _ Hco).
  - intros name. by apply (sim_register _ _ _ _ _ (λ w _, (intern (w_log w) name).1)
      (λ w id, (OP_CATALOG_REGISTER_ROLE, 0, [id; zlen (ml_blob (w_log w)); zlen name]))).
  - intros name. by apply (sim_register _ _ _ _ _ (λ w _, (intern (w_log w) name).1)
      (λ w id, (OP_CATALOG_REGISTER_LABEL, 0, [id; zlen (ml_blob (w_log w)); zlen name]))).
  - intros name. by apply (sim_register _ _ _ _ _ (λ w _, (intern (w_log w) name).1)
      (λ w id, (OP_CATALOG_REGISTER_RELATION_TYPE, 0, [id; zlen (ml_blob (w_log w)); zlen name]))).
  - intros name fam type. by apply (sim_register _ _ _ _ _ (λ w _, (intern (w_log w) name).1)
      (λ w id, (OP_CATALOG_REGISTER_PROPERTY_KEY, pack_flags (property_family_tag fam) (property_type_tag type),
        [id; zlen (ml_blob (w_log w)); zlen name]))).
  - intros d. apply (sim_register _ _ _ _ _
      (λ w _, (intern_words (intern (w_log w) (projection_name d)).1 (encode_projection_body d).2).1)
      (λ w id, (OP_CATALOG_REGISTER_PROJECTION, (encode_projection_body d).1,
        let '(log, (name_off, name_len)) := intern (w_log w) (projection_name d) in
        let '(def_off, def_len) := (intern_words log (encode_projection_body d).2).2 in
        [id; name_off; name_len; def_off; def_len]))); [|done].
    intros w. unfold register_projection. destruct (encode_projection_body d) as [kind words]. done.
  - intros name d. apply (sim_register _ _ _ _ _
      (λ w _, (intern_words (intern (w_log w) name).1 (encode_index_body d).2).1)
      (λ w id, (OP_CATALOG_REGISTER_INDEX, (encode_index_body d).1,
        let '(log, (name_off, name_len)) := intern (w_log w) name in
        let '(def_off, def_len) := (intern_words log (encode_index_body d).2).2 in
        [id; name_off; name_len; def_off; def_len]))); [|done].
    intros w. unfold register_index. destruct (encode_index_body d) as [kind words]. done.
  - apply sim_put_element.
  - apply sim_put_relation.
  - apply sim_put_incidence.
  - intros e l. apply sim_do; [intros; by apply coherent_log, coherent_add_element_label|intros; apply store_edit_element|].
    intros st. by apply fresh_le; try done; intros id; apply is_Some_alter.
  - intros r l. apply sim_do; [intros; by apply coherent_log, coherent_add_relation_label|intros; apply store_edit_relation|].
    intros st. by apply fresh_le; try done; intros id; apply is_Some_alter.
  - intros r t. apply sim_do; [intros; by apply coherent_log, coherent_set_relation_type|intros; apply store_type_relation|].
    intros st. by apply fresh_le; try done; intros id; apply is_Some_alter.
  - intros x key value. apply sim_do; [intros w; apply coherent_set|intros; apply store_set_property|by intros st].
  - intros x key. apply sim_do; [intros w; apply coherent_remove|intros; apply store_remove_property|by intros st].
  - intros x w Hw. rewrite contains_store, bool_decide_eq_true. intros Hx. destruct x as [id|id|id].
    + by apply sim_drop_element.
    + by apply sim_drop_relation.
    + by apply sim_drop_incidence.
Qed.

End refines.
