(* ===== verification/StoreFacts.v ===== *)
(** * StoreFacts: the integrity of the store

    [StoreWf]: incidences join visible elements and relations by registered
    roles, labels and relation types are registered, every property belongs to a
    visible subject and has the family and the type its key declares, and the
    catalog's names and references are consistent. Every method of the writer,
    failing or not, keeps it. *)

From Stdlib Require Import String.
From stdpp Require Import base gmap sets list strings sorting.
From S2P Require Import Prelude Bytes Ordered DbError DbWire DbState OverlayIndex Overlay Merge MergeFacts DbWriter Store WriterRefines.

Local Open Scope Z_scope.

(** ** The invariant *)

(** Definitions and names name each other; ids are below the allocator. *)
Record NamedWf {D} (defs : gmap Z D) (names : gmap (list byte) Z) (id_of : D → Z) (name_of : D → list byte) (next : Z) : Prop := {
  named_def id d : defs !! id = Some d → id_of d = id ∧ id < next ∧ names !! name_of d = Some id;
  named_name name id : names !! name = Some id → ∃ d, defs !! id = Some d ∧ name_of d = name
}.

Definition projection_refs (c : Catalog) (d : ProjectionDefinition) : Prop :=
  match d with
  | GraphProjection g =>
      is_Some (roles c !! gp_source_role g) ∧ is_Some (roles c !! gp_target_role g) ∧
      ∀ t, t ∈ gp_relation_types g → is_Some (relation_types c !! t)
  | HypergraphProjection h =>
      (∀ r, r ∈ hp_source_roles h → is_Some (roles c !! r)) ∧ (∀ r, r ∈ hp_target_roles h → is_Some (roles c !! r)) ∧
      ∀ t, t ∈ hp_relation_types h → is_Some (relation_types c !! t)
  end.

Definition index_refs (c : Catalog) (d : IndexDefinition) : Prop :=
  match d with
  | IndexLabel label => is_Some (labels c !! label)
  | IndexRelationType t => is_Some (relation_types c !! t)
  | IndexPropertyEquality key | IndexPropertyRange key => is_Some (property_keys c !! key)
  | IndexCompositeEquality keys => keys ≠ [] ∧ ∀ key, key ∈ keys → is_Some (property_keys c !! key)
  | IndexProjection p => is_Some (projections c !! p)
  end.

Record CatalogWf (c : Catalog) (n : NextIds) : Prop := {
  wf_roles : NamedWf (roles c) (role_names c) role_id role_name (next_role n);
  wf_labels : NamedWf (labels c) (label_names c) label_id label_name (next_label n);
  wf_relation_types :
    NamedWf (relation_types c) (relation_type_names c) relation_type_id relation_type_name (next_relation_type n);
  wf_property_keys : NamedWf (property_keys c) (property_key_names c) key_id key_name (next_property_key n);
  wf_projections :
    NamedWf (projections c) (projection_names c) projection_id (λ p, projection_name (projection_definition p)) (next_projection n);
  wf_indexes : NamedWf (indexes c) (index_names c) index_id index_name (next_index n);
  wf_projection_refs id p : projections c !! id = Some p → projection_refs c (projection_definition p);
  wf_index_refs id i : indexes c !! id = Some i → index_refs c (index_definition i)
}.

Definition typed_for (c : Catalog) (s : PropertySubject) (k : Z) (value : PropertyValue) : Prop :=
  ∃ d, property_keys c !! k = Some d ∧ key_family d = family s ∧ key_type d = value_type value.

Record StoreWf (st : Store) : Prop := {
  wf_element id r : st_elements st !! id = Some r →
    el_id r = id ∧ ∀ l, l ∈ el_labels r → is_Some (labels (st_catalog st) !! l);
  wf_relation id r : st_relations st !! id = Some r →
    rel_id r = id ∧ (∀ l, l ∈ rel_labels r → is_Some (labels (st_catalog st) !! l)) ∧
    ∀ t, rel_type r = Some t → is_Some (relation_types (st_catalog st) !! t);
  wf_incidence id x : st_incidences st !! id = Some x →
    inc_id x = id ∧ is_Some (st_elements st !! inc_element x) ∧ is_Some (st_relations st !! inc_relation x) ∧
    is_Some (roles (st_catalog st) !! inc_role x);
  wf_property s k value : st_properties st !! (s, k) = Some value → store_has st s ∧ typed_for (st_catalog st) s k value;
  wf_catalog : CatalogWf (st_catalog st) (st_next st);
  wf_fresh : FreshIds st
}.

(** ** The catalog grows *)

Definition catalog_grows (c c' : Catalog) : Prop :=
  roles c ⊆ roles c' ∧ labels c ⊆ labels c' ∧ relation_types c ⊆ relation_types c' ∧
  property_keys c ⊆ property_keys c' ∧ projections c ⊆ projections c'.

Lemma is_Some_grows {V} (m m' : gmap Z V) k : m ⊆ m' → is_Some (m !! k) → is_Some (m' !! k).
Proof. intros Hm [x Hx]. exists x. by eapply lookup_weaken. Qed.

Lemma projection_refs_grow c c' d : catalog_grows c c' → projection_refs c d → projection_refs c' d.
Proof.
  intros (Hr & _ & Ht & _). destruct d; cbn; intros (H1 & H2 & H3); split_and!; eauto using is_Some_grows.
Qed.

Lemma index_refs_grow c c' d : catalog_grows c c' → index_refs c d → index_refs c' d.
Proof.
  intros (_ & Hl & Ht & Hk & Hp). destruct d; cbn; try (by eauto using is_Some_grows).
  intros [? Hks]. split; [done|]. eauto using is_Some_grows.
Qed.

Lemma named_insert {D} (defs : gmap Z D) names id_of name_of next d name :
  NamedWf defs names id_of name_of next → id_of d = next → name_of d = name → names !! name = None →
  NamedWf (<[next := d]> defs) (<[name := next]> names) id_of name_of (next + 1).
Proof.
  intros [Hd Hn] Hid <- Hnew. split.
  - intros id d'. rewrite lookup_insert. case_decide as He.
    + intros [= <-]. subst id. split_and!; [done|lia|by rewrite lookup_insert_eq].
    + intros Hd'. destruct (Hd _ _ Hd') as (? & ? & Hname). split_and!; [done|lia|].
      rewrite lookup_insert_ne; [done|]. intros Hc. congruence.
  - intros name id. rewrite lookup_insert. case_decide as He.
    + intros [= <-]. subst name. exists d. by rewrite lookup_insert_eq.
    + intros (d' & Hd' & <-)%Hn. exists d'. split; [|done]. destruct (Hd _ _ Hd') as (? & ? & _).
      rewrite lookup_insert_ne; [done|lia].
Qed.

Lemma named_next {D} (defs : gmap Z D) names id_of name_of next next' :
  next ≤ next' → NamedWf defs names id_of name_of next → NamedWf defs names id_of name_of next'.
Proof.
  intros Hle [Hd Hn]. split; [|done]. intros id d Hid. destruct (Hd id d Hid) as (? & ? & ?). split_and!; [done|lia|done].
Qed.

Lemma named_fresh {D} (defs : gmap Z D) names id_of name_of next :
  NamedWf defs names id_of name_of next → defs !! next = None.
Proof. intros [Hd _]. apply eq_None_not_Some. intros [d Hx]. destruct (Hd _ _ Hx) as (_ & ? & _). lia. Qed.

(** ** Methods that keep the integrity *)

Definition keeps {A} (m : Tr Store A) : Prop := ∀ st, StoreWf st → StoreWf (m st).1.

Lemma keeps_ret {A} (a : A) : keeps (mret a).
Proof. by intros st. Qed.
Lemma keeps_read {A} (f : Store → res DbError A) : keeps (tr_read f).
Proof. by intros st. Qed.
Lemma keeps_bind {A B} (m : Tr Store A) (f : A → Tr Store B) : keeps m → (∀ a, keeps (f a)) → keeps (m ≫= f).
Proof.
  intros Hm Hf st Hst. unfold mbind, tr_bind. pose proof (Hm st Hst). destruct (m st) as [st' [a|e| |]]; [by apply Hf|done..].
Qed.
Lemma keeps_each {A} (f : A → Tr Store ()) l : (∀ a, keeps (f a)) → keeps (tr_each f l).
Proof. intros Hf. induction l; [apply keeps_ret|]. by apply keeps_bind. Qed.
Lemma keeps_fold {A B} (f : B → A → Tr Store B) b l : (∀ b a, keeps (f b a)) → keeps (tr_fold f b l).
Proof. intros Hf. revert b. induction l; intros b; [apply keeps_ret|]. by apply keeps_bind. Qed.

(** A step after a guard: what the guard read is known of the state. *)
Definition keeps_if {A} (P : Store → Prop) (m : Tr Store A) : Prop := ∀ st, StoreWf st → P st → StoreWf (m st).1.

(** [m] leaves the state as it is, and when it succeeds [P] holds. *)
Definition guards {A} (m : Tr Store A) (P : A → Store → Prop) : Prop :=
  ∀ st, (m st).1 = st ∧ ∀ a, (m st).2 = Ok a → P a st.

Lemma keeps_guard {A B} (m : Tr Store A) P (f : A → Tr Store B) :
  guards m P → (∀ a, keeps_if (P a) (f a)) → keeps (m ≫= f).
Proof.
  intros Hm Hf st Hst. unfold mbind, tr_bind. destruct (Hm st) as [He HP]. destruct (m st) as [st' r]. cbn in *. subst st'.
  destruct r as [a|e| |]; [|done..]. apply Hf; auto.
Qed.

Lemma keeps_guard_if {A B} Q (m : Tr Store A) P (f : A → Tr Store B) :
  guards m P → (∀ a, keeps_if (λ st, Q st ∧ P a st) (f a)) → keeps_if Q (m ≫= f).
Proof.
  intros Hm Hf st Hst HQ. unfold mbind, tr_bind. destruct (Hm st) as [He HP]. destruct (m st) as [st' r]. cbn in *. subst st'.
  destruct r as [a|e| |]; [|done..]. apply Hf; auto.
Qed.

Lemma guards_each {A} (f : A → Tr Store ()) (P : A → Store → Prop) l :
  (∀ a, guards (f a) (λ _, P a)) → guards (tr_each f l) (λ _ st, ∀ a, a ∈ l → P a st).
Proof.
  intros Hf. induction l as [|a l IH]; intros st; cbn.
  { split; [done|]. intros _ _ a Ha. by apply not_elem_of_nil in Ha. }
  unfold mbind, tr_bind. destruct (Hf a st) as [He HP]. destruct (f a st) as [st' r]. cbn in He, HP. subst st'.
  destruct r as [[]|e| |]; [|done..]. destruct (IH st) as [He' HP']. split; [done|]. intros u Hu b [->|Hb]%elem_of_cons; [by eapply HP|].
  by eapply HP'.
Qed.

#[local] Existing Instance store_txn.

Lemma guards_read {A} (f : Store → res DbError A) : guards (tr_read f) (λ a st, f st = Ok a).
Proof. by intros st. Qed.

Lemma guards_require_in {V} (m : Catalog → gmap Z V) fam id :
  guards (require_in m fam id) (λ _ st, is_Some (m (st_catalog st) !! id)).
Proof. intros st. split; [done|]. intros a. unfold require_in, tr_read. cbn. by case_decide. Qed.

Lemma guards_require_subject s : guards (require_subject s) (λ _ st, store_has st s).
Proof.
  intros st. split; [by destruct s|]. intros a.
  destruct s; unfold require_subject, require_element, require_relation, require_incidence, tr_read; cbn -[store_has];
    case_bool_decide; done.
Qed.

(** ** Registrations *)

Lemma wf_grow st c n :
  StoreWf st → catalog_grows (st_catalog st) c → CatalogWf c n → FreshIds (store_with_next st n) →
  StoreWf (store_with_catalog (store_with_next st n) c).
Proof.
  intros [He Hr Hi Hp Hc Hf] (Gr & Gl & Gt & Gk & Gp) Hc' Hf'. split; cbn -[store_has]; try done.
  - intros id r Hid. destruct (He _ _ Hid) as [? Hl]. split; [done|]. intros l Hin. by eapply is_Some_grows, Hl.
  - intros id r Hid. destruct (Hr _ _ Hid) as (? & Hl & Ht). split_and!; [done| |]; intros; eapply is_Some_grows; eauto.
  - intros id x Hid. destruct (Hi _ _ Hid) as (? & ? & ? & ?). split_and!; [done..|]. by eapply is_Some_grows.
  - intros s k value Hv. destruct (Hp _ _ _ Hv) as [Hs (d & Hd & ? & ?)]. split; [by destruct s|]. exists d.
    split; [by eapply lookup_weaken|done].
Qed.

Lemma grows_refl c : catalog_grows c c.
Proof. done. Qed.

(** What a registration adds, and what drawing its id alone leaves. *)
Lemma keeps_register next set_next fam insert Q :
  (∀ c n c', CatalogWf c n → insert c (next n) = Ok c' → catalog_grows c c') →
  (∀ c n c', CatalogWf c n → Q c → insert c (next n) = Ok c' → catalog_grows c c' → CatalogWf c' (set_next n (next n + 1))) →
  (∀ c n, CatalogWf c n → CatalogWf c (set_next n (next n + 1))) →
  (∀ st n, FreshIds st → FreshIds (store_with_next st (set_next (st_next st) n))) →
  keeps_if (λ st, Q (st_catalog st)) (store_register next set_next fam insert).
Proof.
  intros Hgrow Hins Hnext Hfresh st Hst HQ. unfold store_register. destruct (checked_next _) as [n|] eqn:Hn; [|done].
  apply checked_next_Some in Hn as ->. destruct Hst as [? ? ? ? Hc Hf]. cbn.
  set (id := next (st_next st)).
  assert (StoreWf (store_with_next st (set_next (st_next st) (id + 1)))) as Hst'.
  { apply (wf_grow st (st_catalog st)); [done|apply grows_refl|by apply Hnext|by apply Hfresh]. }
  destruct (insert (st_catalog st) id) as [c|e| |] eqn:Hi; cbn; [|done..].
  apply (wf_grow st c); [done|by eapply Hgrow|by eapply Hins; eauto|by apply Hfresh].
Qed.

Lemma insert_named_Ok names name id names' :
  insert_named names name id = Ok names' → names !! name = None ∧ names' = <[name := id]> names.
Proof. unfold insert_named. case_decide as H; [done|]. intros [= <-]. split; [by apply eq_None_not_Some|done]. Qed.

Lemma CatalogWf_grow c c' n n' :
  catalog_grows c c' → CatalogWf c n →
  NamedWf (roles c') (role_names c') role_id role_name (next_role n') →
  NamedWf (labels c') (label_names c') label_id label_name (next_label n') →
  NamedWf (relation_types c') (relation_type_names c') relation_type_id relation_type_name (next_relation_type n') →
  NamedWf (property_keys c') (property_key_names c') key_id key_name (next_property_key n') →
  NamedWf (projections c') (projection_names c') projection_id (λ p, projection_name (projection_definition p)) (next_projection n') →
  NamedWf (indexes c') (index_names c') index_id index_name (next_index n') →
  (∀ id p, projections c' !! id = Some p → projections c !! id = Some p ∨ projection_refs c (projection_definition p)) →
  (∀ id i, indexes c' !! id = Some i → indexes c !! id = Some i ∨ index_refs c (index_definition i)) →
  CatalogWf c' n'.
Proof.
  intros Hg Hc ?????? Hp Hi. split; try done.
  - intros id p Hid. apply (projection_refs_grow c); [done|]. destruct (Hp _ _ Hid); [by eapply wf_projection_refs|done].
  - intros id i Hid. apply (index_refs_grow c); [done|]. destruct (Hi _ _ Hid); [by eapply wf_index_refs|done].
Qed.

Lemma keeps_if_True {A} (m : Tr Store A) : keeps_if (λ _, True) m → keeps m.
Proof. intros Hm st Hst. by apply Hm. Qed.

(** What an insert that went through did. *)
Ltac inserted H :=
  let names := fresh in let Hn := fresh "Hn" in
  cbn in H; apply bind_Ok_inv in H as (names & [Hn ->]%insert_named_Ok & [= <-]).

(** The four goals of [keeps_register] for one family. *)
Ltac register_family Q :=
  apply (keeps_register _ _ _ _ Q);
  [ let H := fresh in intros c n c' [? ? ? ? ? ? ? ?] H; inserted H; repeat split; cbn; try done;
      eapply insert_subseteq, named_fresh; eassumption
  | let Hwf := fresh in let H := fresh in let Hg := fresh in
      intros c n c' Hwf HQ H Hg; inserted H; apply (CatalogWf_grow _ _ _ _ Hg Hwf); destruct Hwf; cbn; try done; try (by left);
      try (eapply named_insert; eassumption || reflexivity)
  | intros c n [? ? ? ? ? ? ? ?]; split; try done; (eapply named_next; [|eassumption]); cbn; lia
  | intros st n (? & ? & ?); split_and!; done ].

Lemma keeps_register_role name : keeps (txn_register_role (S := Store) name).
Proof. apply keeps_if_True. register_family (λ _ : Catalog, True). Qed.
Lemma keeps_register_label name : keeps (txn_register_label (S := Store) name).
Proof. apply keeps_if_True. register_family (λ _ : Catalog, True). Qed.
Lemma keeps_register_relation_type name : keeps (txn_register_relation_type (S := Store) name).
Proof. apply keeps_if_True. register_family (λ _ : Catalog, True). Qed.
Lemma keeps_register_property_key name fam type : keeps (txn_register_property_key (S := Store) name fam type).
Proof. apply keeps_if_True. register_family (λ _ : Catalog, True). Qed.

Lemma keeps_register_projection d :
  keeps_if (λ st, projection_refs (st_catalog st) d) (txn_register_projection (S := Store) d).
Proof.
  register_family (λ c, projection_refs c d).
  intros id p. rewrite lookup_insert. case_decide; [intros [= <-]; by right|by left].
Qed.

Lemma keeps_register_index name d :
  keeps_if (λ st, index_refs (st_catalog st) d) (txn_register_index (S := Store) name d).
Proof.
  register_family (λ c, index_refs c d).
  intros id i. rewrite lookup_insert. case_decide; [intros [= <-]; by right|by left].
Qed.

(** ** Topology and properties *)

(** A larger set of visible subjects keeps every property's subject. *)
Lemma has_mono st st' s :
  (∀ id, is_Some (st_elements st !! id) → is_Some (st_elements st' !! id)) →
  (∀ id, is_Some (st_relations st !! id) → is_Some (st_relations st' !! id)) →
  (∀ id, is_Some (st_incidences st !! id) → is_Some (st_incidences st' !! id)) → store_has st s → store_has st' s.
Proof. intros He Hr Hi. destruct s; cbn; auto. Qed.

Lemma is_Some_insert {V} (m : gmap Z V) i x k : is_Some (m !! k) → is_Some (<[i := x]> m !! k).
Proof. rewrite lookup_insert. by case_decide. Qed.
Lemma is_Some_alter' {V} (f : V → V) (m : gmap Z V) i k : is_Some (m !! k) → is_Some (alter f i m !! k).
Proof. rewrite lookup_alter. case_decide; subst; [by rewrite fmap_is_Some|done]. Qed.

Lemma catalog_next c n n' :
  CatalogWf c n → next_role n' = next_role n → next_label n' = next_label n → next_relation_type n' = next_relation_type n →
  next_property_key n' = next_property_key n → next_projection n' = next_projection n → next_index n' = next_index n →
  CatalogWf c n'.
Proof. intros [? ? ? ? ? ? ? ?] Hr Hl Ht Hk Hp Hi. split; rewrite ?Hr, ?Hl, ?Ht, ?Hk, ?Hp, ?Hi; done. Qed.

Lemma keeps_create_element : keeps (txn_create_element (S := Store)).
Proof.
  intros st [He Hr Hi Hp Hc Hf]. cbn. unfold store_create. destruct (checked_next _) as [n|] eqn:Hn; [|done].
  apply checked_next_Some in Hn as ->. cbn. split; cbn -[store_has]; try done.
  - intros id r. rewrite lookup_insert. case_decide; [|apply He]. intros [= <-]. cbn. split; [done|]. set_solver.
  - intros id x Hx. destruct (Hi _ _ Hx) as (? & ? & ? & ?). split_and!; [done|by apply is_Some_insert|done..].
  - intros s k value Hv. destruct (Hp _ _ _ Hv) as [Hs ?]. split; [|done]. revert Hs. apply has_mono; cbn; auto using is_Some_insert.
  - by apply (catalog_next _ _ _ Hc).
  - destruct Hf as (Fe & Fr & Fi). split_and!; [|exact Fr|exact Fi]. intros id. by apply fresh_insert.
Qed.

Lemma keeps_create_relation : keeps (txn_create_relation (S := Store)).
Proof.
  intros st [He Hr Hi Hp Hc Hf]. cbn. unfold store_create. destruct (checked_next _) as [n|] eqn:Hn; [|done].
  apply checked_next_Some in Hn as ->. cbn. split; cbn -[store_has]; try done.
  - intros id r. rewrite lookup_insert. case_decide; [|apply Hr]. intros [= <-]. cbn. split_and!; [done|set_solver|done].
  - intros id x Hx. destruct (Hi _ _ Hx) as (? & ? & ? & ?). split_and!; [done|done|by apply is_Some_insert|done].
  - intros s k value Hv. destruct (Hp _ _ _ Hv) as [Hs ?]. split; [|done]. revert Hs. apply has_mono; cbn; auto using is_Some_insert.
  - by apply (catalog_next _ _ _ Hc).
  - destruct Hf as (Fe & Fr & Fi). split_and!; [exact Fe| |exact Fi]. intros id. by apply fresh_insert.
Qed.

Lemma keeps_create_incidence r e role :
  keeps_if (λ st, store_has st (SRelation r) ∧ store_has st (SElement e) ∧ is_Some (roles (st_catalog st) !! role))
    (txn_create_incidence (S := Store) r e role).
Proof.
  intros st [He Hr Hi Hp Hc Hf] (Hrel & Hel & Hrole). cbn. unfold store_create.
  destruct (checked_next _) as [n|] eqn:Hn; [|done].
  apply checked_next_Some in Hn as ->. cbn. split; cbn -[store_has]; try done.
  - intros id x. rewrite lookup_insert. case_decide; [|apply Hi]. intros [= <-]. done.
  - intros s k value Hv. destruct (Hp _ _ _ Hv) as [Hs ?]. split; [|done]. revert Hs. apply has_mono; cbn; auto using is_Some_insert.
  - by apply (catalog_next _ _ _ Hc).
  - destruct Hf as (Fe & Fr & Fi). split_and!; [exact Fe|exact Fr|]. intros id. by apply fresh_insert.
Qed.

Lemma keeps_drop s : keeps (store_drop s).
Proof.
  intros st [He Hr Hi Hp Hc Hf]. unfold store_drop, tr_do. cbn [fst].
  split; [intros id r|intros id r|intros id x|intros s' k value|done|by apply fresh_without]; without; try case_decide as Hd; try done.
  - apply He.
  - apply Hr.
  - intros Hx. destruct (Hi _ _ Hx) as (? & ? & ? & ?). cbn [st_catalog store_without].
    split_and!; [done|without; rewrite decide_False; [done|]..|done]; intros [Hs|[]]; apply Hd; right; rewrite Hx; by rewrite <-Hs.
  - intros Hv. destruct (Hp _ _ _ Hv) as [Hs ?]. split; [|done]. destruct s'; cbn [store_has]; without; by rewrite decide_False.
Qed.

Lemma keeps_alter_element e f :
  keeps_if (λ st, ∀ r, el_id (f r) = el_id r ∧ ∀ l, l ∈ el_labels (f r) → l ∈ el_labels r ∨ is_Some (labels (st_catalog st) !! l))
    (tr_do (λ st, store_with_elements st (alter f e (st_elements st)))).
Proof.
  intros st [He Hr Hi Hp Hc Hf] Hl. split; cbn -[store_has]; try done.
  - intros id r. rewrite lookup_alter. case_decide as Hid; [|apply He]. subst id. intros (r0 & Hr0 & ->)%fmap_Some.
    destruct (He _ _ Hr0) as [? Hl0]. destruct (Hl r0) as [-> Hl1]. split; [done|]. intros l [?|?]%Hl1; auto.
  - intros id x Hx. destruct (Hi _ _ Hx) as (? & ? & ? & ?). split_and!; [done|by apply is_Some_alter'|done..].
  - intros s k value Hv. destruct (Hp _ _ _ Hv) as [Hs ?]. split; [|done]. revert Hs. apply has_mono; cbn; auto using is_Some_alter'.
  - revert Hf. by apply fresh_le; try done; intros id; apply is_Some_alter.
Qed.

Lemma keeps_alter_relation r f :
  keeps_if (λ st, ∀ x, rel_id (f x) = rel_id x ∧
      (∀ l, l ∈ rel_labels (f x) → l ∈ rel_labels x ∨ is_Some (labels (st_catalog st) !! l)) ∧
      (∀ t, rel_type (f x) = Some t → rel_type x = Some t ∨ is_Some (relation_types (st_catalog st) !! t)))
    (tr_do (λ st, store_with_relations st (alter f r (st_relations st)))).
Proof.
  intros st [He Hr Hi Hp Hc Hf] Hl. split; cbn -[store_has]; try done.
  - intros id x. rewrite lookup_alter. case_decide as Hid; [|apply Hr]. subst id. intros (x0 & Hx0 & ->)%fmap_Some.
    destruct (Hr _ _ Hx0) as (? & Hl0 & Ht0). destruct (Hl x0) as (-> & Hl1 & Ht1). split_and!; [done| |].
    + intros l [?|?]%Hl1; auto.
    + intros t [?|?]%Ht1; auto.
  - intros id x Hx. destruct (Hi _ _ Hx) as (? & ? & ? & ?). split_and!; [done|done|by apply is_Some_alter'|done].
  - intros s k value Hv. destruct (Hp _ _ _ Hv) as [Hs ?]. split; [|done]. revert Hs. apply has_mono; cbn; auto using is_Some_alter'.
  - revert Hf. by apply fresh_le; try done; intros id; apply is_Some_alter.
Qed.

Lemma keeps_add_element_label e label :
  keeps_if (λ st, is_Some (labels (st_catalog st) !! label)) (txn_add_element_label (S := Store) e label).
Proof.
  intros st Hst Hl. apply keeps_alter_element; [done|]. intros r. split; [done|]. cbn. intros l [->%elem_of_singleton|?]%elem_of_union; auto.
Qed.

Lemma keeps_add_relation_label r label :
  keeps_if (λ st, is_Some (labels (st_catalog st) !! label)) (txn_add_relation_label (S := Store) r label).
Proof.
  intros st Hst Hl. apply keeps_alter_relation; [done|]. intros x. split_and!; [done| |by left].
  cbn. intros l [->%elem_of_singleton|?]%elem_of_union; auto.
Qed.

Lemma keeps_set_relation_type r t :
  keeps_if (λ st, is_Some (relation_types (st_catalog st) !! t)) (txn_set_relation_type (S := Store) r t).
Proof.
  intros st Hst Hl. apply keeps_alter_relation; [done|]. intros x. split_and!; [done|by left|]. cbn. intros ? [= <-]. by right.
Qed.

Lemma keeps_set_property s k value :
  keeps_if (λ st, store_has st s ∧ typed_for (st_catalog st) s k value) (txn_set_property (S := Store) s k value).
Proof.
  intros st [He Hr Hi Hp Hc Hf] [Hs Ht]. split; cbn -[store_has]; try done.
  intros s' k' value'. rewrite lookup_insert. case_decide as Heq; [|apply Hp]. intros [= <-]. by injection Heq as <- <-.
Qed.

Lemma keeps_remove_property s k : keeps (txn_remove_property (S := Store) s k).
Proof.
  intros st [He Hr Hi Hp Hc Hf]. split; cbn -[store_has]; try done.
  intros s' k' value'. rewrite lookup_delete. case_decide; [done|apply Hp].
Qed.

(** ** The methods *)

Create HintDb keeps.
#[local] Hint Resolve keeps_ret keeps_read keeps_bind keeps_each keeps_fold keeps_register_role keeps_register_label
  keeps_register_relation_type keeps_register_property_key keeps_create_element keeps_create_relation keeps_drop
  keeps_remove_property : keeps.

Lemma keeps_require_in {V} (m : Catalog → gmap Z V) fam id : keeps (require_in (S := Store) m fam id).
Proof. apply keeps_read. Qed.
Lemma keeps_require_subject s : keeps (require_subject (S := Store) s).
Proof. destruct s; apply keeps_read. Qed.
#[local] Hint Resolve keeps_require_in keeps_require_subject : keeps.

(** A bind whose first step only reads. *)
Lemma keeps_if_mono {A} (P Q : Store → Prop) (m : Tr Store A) : (∀ st, P st → Q st) → keeps_if Q m → keeps_if P m.
Proof. intros HPQ Hm st Hst HP. by apply Hm, HPQ. Qed.
Lemma keeps_if_keeps {A} P (m : Tr Store A) : keeps m → keeps_if P m.
Proof. intros Hm st Hst _. by apply Hm. Qed.

Lemma guards_bind {A B} (m : Tr Store A) (f : A → Tr Store B) P Q :
  guards m P → (∀ a, guards (f a) (Q a)) → guards (m ≫= f) (λ b st, ∃ a, P a st ∧ Q a b st).
Proof.
  intros Hm Hf st. unfold mbind, tr_bind. destruct (Hm st) as [He HP]. destruct (m st) as [st' r]. cbn in *. subst st'.
  destruct r as [a|e| |]; [|done..]. destruct (Hf a st) as [He HQ]. split; [done|]. eauto.
Qed.

Lemma guards_weaken {A} (m : Tr Store A) (P Q : A → Store → Prop) : (∀ a st, P a st → Q a st) → guards m P → guards m Q.
Proof. intros HPQ Hm st. destruct (Hm st) as [He HP]. split; [done|]. auto. Qed.

Lemma guards_require_each {V} (m : Catalog → gmap Z V) fam l :
  guards (tr_each (require_in (S := Store) m fam) l) (λ _ st, ∀ id, id ∈ l → is_Some (m (st_catalog st) !! id)).
Proof. apply (guards_each _ (λ id st, is_Some (m (st_catalog st) !! id))). intros id. apply guards_require_in. Qed.

Lemma guards_validate_projection d :
  guards (validate_projection_definition (S := Store) d) (λ _ st, projection_refs (st_catalog st) d).
Proof.
  destruct d as [g|h]; cbn.
  - eapply guards_weaken; [|eapply guards_bind; [apply (guards_require_in roles)|intros ?; eapply guards_bind;
      [apply (guards_require_in roles)|intros ?; apply (guards_require_each relation_types)]]].
    cbn. intros ? st (_ & ? & _ & ? & Ht). split_and!; [done..|]. intros t Hin. by apply Ht, elem_of_set_iter.
  - eapply guards_weaken; [|eapply guards_bind; [apply (guards_require_each roles)|intros ?; eapply guards_bind;
      [apply (guards_require_each roles)|intros ?; apply (guards_require_each relation_types)]]].
    cbn. intros ? st (_ & Hs & _ & Hd & Ht). split_and!; intros ? Hin; [apply Hs|apply Hd|apply Ht]; by apply elem_of_set_iter.
Qed.

Lemma guards_validate_index d : guards (validate_index_definition (S := Store) d) (λ _ st, index_refs (st_catalog st) d).
Proof.
  destruct d as [| | | |keys|]; cbn; try apply guards_require_in.
  case_decide as Hk; [by intros st|].
  eapply guards_weaken; [|apply (guards_require_each property_keys)]. auto.
Qed.

Lemma keeps_define_projection d : keeps (define_projection (S := Store) d).
Proof. eapply keeps_guard; [apply guards_validate_projection|]. intros ?. apply keeps_register_projection. Qed.
Lemma keeps_define_index name d : keeps (define_index (S := Store) name d).
Proof. eapply keeps_guard; [apply guards_validate_index|]. intros ?. apply keeps_register_index. Qed.

Lemma keeps_writer_create_incidence r e role : keeps (writer_create_incidence (S := Store) r e role).
Proof.
  eapply keeps_guard; [apply (guards_require_subject (SRelation r))|]. intros ?.
  eapply keeps_guard_if; [apply (guards_require_subject (SElement e))|]. intros ?.
  eapply keeps_guard_if; [apply (guards_require_in roles)|]. intros ?.
  eapply keeps_if_mono; [|apply keeps_create_incidence]. cbn. tauto.
Qed.

Lemma keeps_writer_tombstone s : keeps (writer_tombstone (S := Store) s).
Proof. destruct s; apply keeps_bind; [apply keeps_read|intros; apply (keeps_drop (SElement id))|apply keeps_read|intros; apply (keeps_drop (SRelation id))|apply keeps_read|intros; apply (keeps_drop (SIncidence id))]. Qed.

Lemma keeps_writer_add_label s label : keeps (writer_add_label (S := Store) s label).
Proof.
  destruct s as [id|id|id]; cbn; [..|apply keeps_read]; (apply keeps_bind; [apply keeps_read|]); intros ?;
    (eapply keeps_guard; [apply (guards_require_in labels)|]); intros ?;
    [apply keeps_add_element_label|apply keeps_add_relation_label].
Qed.

Lemma keeps_writer_set_relation_type r t : keeps (writer_set_relation_type (S := Store) r t).
Proof.
  apply keeps_bind; [apply keeps_read|]. intros ?. eapply keeps_guard; [apply (guards_require_in relation_types)|].
  intros ?. apply keeps_set_relation_type.
Qed.

Lemma keeps_writer_set_property s key value : keeps (writer_set_property (S := Store) s key value).
Proof.
  eapply keeps_guard; [apply guards_require_subject|]. intros ?.
  eapply keeps_guard_if; [apply guards_read|]. intros d. cbn.
  case_decide as Hf; [apply keeps_if_keeps, keeps_read|]. case_decide as Ht; [apply keeps_if_keeps, keeps_read|].
  eapply keeps_if_mono; [|apply keeps_set_property]. cbn -[store_has]. intros st [Hs Hd%ok_or_Ok]. split; [done|]. by exists d.
Qed.
#[local] Hint Resolve keeps_define_projection keeps_define_index keeps_writer_create_incidence keeps_writer_tombstone
  keeps_writer_add_label keeps_writer_set_relation_type keeps_writer_set_property : keeps.

Lemma keeps_upsert_element index value : keeps (upsert_element (S := Store) index value).
Proof.
  apply keeps_bind; [auto with keeps|]. intros v. apply keeps_bind; [apply keeps_read|]. intros key.
  apply keeps_bind; [auto with keeps|]. intros [id|]; auto 6 with keeps.
Qed.

Lemma keeps_upsert_relation index value t endpoints : keeps (upsert_relation (S := Store) index value t endpoints).
Proof.
  apply keeps_bind; [auto with keeps|]. intros v. apply keeps_bind; [apply keeps_read|]. intros key.
  apply keeps_bind; [auto with keeps|]. intros [id|]; [auto with keeps|].
  apply keeps_bind; [auto with keeps|]. intros r. apply keeps_bind; [auto with keeps|]. intros ?.
  apply keeps_bind; [auto with keeps|]. intros ?. auto 6 with keeps.
Qed.

Lemma keeps_retain index keep : keeps (retain (S := Store) index keep).
Proof.
  apply keeps_bind; [apply keeps_read|]. intros key. apply keeps_bind; [auto with keeps|]. intros ks.
  apply keeps_bind; [apply keeps_read|]. intros stale. apply keeps_each. apply keeps_writer_tombstone.
Qed.

Lemma keeps_find_or find (m : Tr Store Z) : keeps m → keeps (find_or find m).
Proof. intros Hm. apply keeps_bind; [auto with keeps|]. intros [id|]; auto with keeps. Qed.

Lemma keeps_register_key_or_get name fam type : keeps (register_key_or_get (S := Store) name fam type).
Proof. apply keeps_bind; [auto with keeps|]. intros [id|]; auto with keeps. Qed.
#[local] Hint Resolve keeps_upsert_element keeps_upsert_relation keeps_retain keeps_find_or keeps_register_key_or_get : keeps.

Lemma keeps_apply_schema schema : keeps (apply_schema (S := Store) schema).
Proof.
  unfold apply_schema, apply_schema_index, define_graph_projection, define_hypergraph_projection.
  apply keeps_bind; [apply keeps_fold; auto 6 with keeps|intros b1].
  apply keeps_bind; [apply keeps_fold; auto 6 with keeps|intros b2].
  apply keeps_bind; [apply keeps_fold; auto 6 with keeps|intros b3].
  apply keeps_bind; [apply keeps_fold; intros b [[name fam] type]; auto 6 with keeps|intros b4].
  apply keeps_bind; [apply keeps_fold; intros b p|intros b5].
  { apply keeps_bind; [auto with keeps|]. intros [key_id value_type]. auto 6 with keeps. }
  apply keeps_bind; [apply keeps_fold; auto 8 with keeps|]. intros b6. apply keeps_fold. auto 8 with keeps.
Qed.
#[local] Hint Resolve keeps_apply_schema : keeps.

Lemma keeps_writer_unset s key : keeps (writer_unset (S := Store) s key).
Proof.
  apply keeps_bind; [auto with keeps|]. intros ?. apply keeps_bind; [apply keeps_read|]. intros ?. apply keeps_remove_property.
Qed.
Lemma keeps_writer_set s key value : keeps (writer_set (S := Store) s key value).
Proof. apply keeps_bind; auto with keeps. Qed.
#[local] Hint Resolve keeps_writer_unset keeps_writer_set : keeps.

Lemma keeps_writer_call call : keeps (writer_call (S := Store) call).
Proof. destruct call; cbn [writer_call]; unfold reply_id, reply_unit; auto 6 with keeps. Qed.

Lemma keeps_writer_run calls st : StoreWf st → StoreWf (writer_run calls st).1.
Proof.
  revert st. induction calls as [|call calls IH]; intros st Hst; [done|]. cbn -[writer_call].
  pose proof (keeps_writer_call call st Hst). destruct (writer_call call st) as [st' r]. cbn in *.
  specialize (IH st'). destruct (writer_run calls st'). by apply IH.
Qed.

(** ** Retaining *)

Lemma tombstone_visible s st :
  store_has st s → writer_tombstone s st = (store_without (dropped st s) st, Ok ()).
Proof.
  intros Hs. destruct s; cbn [writer_tombstone]; unfold writer_tombstone_element, writer_tombstone_relation,
    writer_tombstone_incidence, require_element, require_relation, require_incidence, mbind, tr_bind, tr_read;
    cbn -[store_has store_drop]; by rewrite bool_decide_eq_true_2.
Qed.

Lemma dropped_family st s x : family x = family s → dropped st s x → x = s.
Proof.
  intros Hf [?|Hx]; [done|]. destruct x as [| |i]; [done..|]. destruct (st_incidences st !! i); [|done]. by destruct s.
Qed.

Lemma without_has P `{!∀ x, Decision (P x)} st s : ¬ P s → store_has st s → store_has (store_without P st) s.
Proof. intros HP. destruct s; cbn [store_has]; without; by rewrite decide_False. Qed.

Lemma dropped_without st s s' x :
  dropped (store_without (dropped st s) st) s' x ∨ dropped st s x ↔ dropped st s' x ∨ dropped st s x.
Proof.
  destruct x as [e|r|i]; [reflexivity..|]. destruct (decide (dropped st s (SIncidence i))) as [Hd|Hd]; [by split; intros; right|].
  assert (dropped (store_without (dropped st s) st) s' (SIncidence i) ↔ dropped st s' (SIncidence i)) as ->; [|done].
  unfold dropped at 1. without. by rewrite decide_False.
Qed.

(** Tombstones of one family do not get in each other's way. *)
Lemma tombstone_each fam l st :
  NoDup l → (∀ s, s ∈ l → store_has st s ∧ family s = fam) →
  ∃ P (HP : ∀ x, Decision (P x)), (∀ x, P x ↔ ∃ s, s ∈ l ∧ dropped st s x) ∧
    tr_each writer_tombstone l st = (store_without P st, Ok ()).
Proof.
  intros Hnd. revert st. induction Hnd as [|s l Hni Hnd IH]; intros st Hl.
  { exists (λ _, False), _. split; [set_solver|]. cbn. unfold mret, tr_ret. f_equal. by apply store_eq; try done; intros; without. }
  destruct (Hl s ltac:(by left)) as [Hs Hfs]. cbn. unfold mbind, tr_bind. rewrite tombstone_visible by done.
  destruct (IH (store_without (dropped st s) st)) as (P & HP & HPx & ->).
  { intros s' Hs'. destruct (Hl s' ltac:(by right)) as [Hv Hf']. split; [|done]. apply without_has; [|done].
    intros Hd. apply dropped_family in Hd as ->; congruence. }
  exists (λ x, dropped st s x ∨ P x), _. split; [|by rewrite store_without_twice].
  intros x. rewrite HPx. setoid_rewrite elem_of_cons. split.
  - intros [?|(s' & Hs' & Hx)]; [eauto|]. destruct (proj1 (dropped_without st s s' x) (or_introl Hx)); eauto.
  - intros (s' & [->|Hs'] & Hx); [by left|]. destruct (proj2 (dropped_without st s s' x) (or_introl Hx)); eauto.
Qed.

(** The subjects [retain] prunes. *)
Definition stale (st : Store) (key : Z) (keep : list PropertyValue) (s : PropertySubject) : Prop :=
  ∃ value, st_properties st !! (s, key) = Some value ∧ value ∉ keep.

Lemma elem_of_key_subjects st key s value :
  (s, value) ∈ store_key_subjects st key ↔ st_properties st !! (s, key) = Some value.
Proof.
  unfold store_key_subjects. rewrite list_elem_of_fmap. split.
  - intros ([[s' k] x] & [= -> ->] & [Hk Hx%elem_of_map_iter]%list_elem_of_filter). cbn in Hk. by subst.
  - intros Hx. exists (s, key, value). split; [done|]. apply list_elem_of_filter. split; [done|]. by apply elem_of_map_iter.
Qed.

Lemma key_subjects_NoDup st key (P : PropertySubject * PropertyValue → Prop) `{!∀ p, Decision (P p)} :
  NoDup (fst <$> filter P (store_key_subjects st key)).
Proof.
  assert (NoDup (fst <$> store_key_subjects st key)) as Hnd.
  { unfold store_key_subjects. rewrite <-list_fmap_compose.
    pose proof (NoDup_fst_map_to_list (st_properties st)) as Hm. unfold map_iter.
    assert (NoDup ((merge_sort pair_le (map_to_list (st_properties st))).*1)) as Hs by (by rewrite merge_sort_Permutation).
    clear Hm. revert Hs. generalize (merge_sort pair_le (map_to_list (st_properties st))). intros l Hl.
    induction l as [|[[s k] x] l IH]; [constructor|]. cbn in Hl. apply NoDup_cons in Hl as [Hni Hl]. rewrite filter_cons.
    case_decide as Hk; [|by apply IH]. cbn in Hk. subst k. cbn. constructor; [|by apply IH].
    intros ([[s' k'] x'] & Heq & [Hk' Hin]%list_elem_of_filter)%list_elem_of_fmap. cbn in *. subst. apply Hni.
    apply list_elem_of_fmap. by exists (s', key, x'). }
  induction (store_key_subjects st key) as [|p l IH]; [constructor|]. cbn in Hnd. apply NoDup_cons in Hnd as [Hni Hnd].
  rewrite filter_cons. case_decide; [|by apply IH]. cbn. constructor; [|by apply IH].
  intros (q & Heq & [_ Hq]%list_elem_of_filter)%list_elem_of_fmap. apply Hni. rewrite Heq. by apply list_elem_of_fmap_2.
Qed.

Definition keep_values (keep : list Assign) : res DbError (list PropertyValue) :=
  for_each (λ (X : list PropertyValue) a, value ← into_value a; Ok (value :: X)) keep [].

Lemma retain_store index key keep values st :
  StoreWf st → equality_index_key index st = (st, Ok key) → keep_values keep = Ok values →
  ∃ P (HP : ∀ x, Decision (P x)), (∀ x, P x ↔ ∃ s, stale st key values s ∧ dropped st s x) ∧
    retain index keep st = (store_without P st, Ok ()).
Proof.
  intros Hst Hkey Hkeep.
  set (l := fst <$> filter (λ p, p.2 ∉ values) (store_key_subjects st key)).
  assert (∀ s, s ∈ l ↔ stale st key values s) as Hl.
  { intros s. unfold l, stale. rewrite list_elem_of_fmap. split.
    - intros ([s' x] & -> & [Hx Hin%elem_of_key_subjects]%list_elem_of_filter). eauto.
    - intros (x & Hx & Hn). exists (s, x). split; [done|]. apply list_elem_of_filter. by rewrite elem_of_key_subjects. }
  assert (∃ fam, ∀ s, s ∈ l → store_has st s ∧ family s = fam) as [fam Hfam].
  { destruct (property_keys (st_catalog st) !! key) as [d|] eqn:Hd.
    - exists (key_family d). intros s (x & Hx & _)%Hl. destruct (wf_property _ Hst _ _ _ Hx) as [? (d' & Hd' & ? & _)].
      split; [done|]. congruence.
    - exists FamElement. intros s (x & Hx & _)%Hl. destruct (wf_property _ Hst _ _ _ Hx) as [? (d' & Hd' & ? & _)]. congruence. }
  destruct (tombstone_each fam l st) as (P & HP & HPx & He); [apply key_subjects_NoDup|done|].
  exists P, HP. split; [by setoid_rewrite <-Hl|].
  unfold retain, mbind, tr_bind. rewrite Hkey. unfold tr_read. unfold keep_values, mbind in Hkeep. rewrite Hkeep.
  change (txn_key_subjects st key) with (store_key_subjects st key). fold l. by rewrite He.
Qed.

(** ** Upserting *)

Lemma elem_of_property_equal st key value s : s ∈ store_property_equal st key value ↔ st_properties st !! (s, key) = Some value.
Proof.
  unfold store_property_equal. rewrite list_elem_of_fmap. split.
  - intros ([[s' k] x] & -> & [[Hk Hv] Hx%elem_of_map_iter]%list_elem_of_filter). cbn in *. by subst.
  - intros Hx. exists (s, key, value). split; [done|]. apply list_elem_of_filter. split; [done|]. by apply elem_of_map_iter.
Qed.

Lemma first_element_None l : first_element l = None ↔ ∀ id, SElement id ∉ l.
Proof.
  unfold first_element. split.
  - intros Hh id Hin. assert (id ∈ omap (λ s, match s with SElement id => Some id | _ => None end) l) as Ho.
    { apply list_elem_of_omap. by exists (SElement id). }
    destruct (omap _ l); [by apply not_elem_of_nil in Ho|done].
  - intros Hn. destruct (omap _ l) as [|id rest] eqn:Ho; [done|]. exfalso.
    assert (id ∈ omap (λ s, match s with SElement id => Some id | _ => None end) l) as Hin by (rewrite Ho; by left).
    apply list_elem_of_omap in Hin as ([e| |] & Hs & [= ->]). by apply (Hn id).
Qed.

Lemma first_element_Some l id : first_element l = Some id → SElement id ∈ l.
Proof.
  unfold first_element. intros Hh. destruct (omap _ l) as [|id' rest] eqn:Ho; [done|]. injection Hh as ->.
  assert (id ∈ omap (λ s, match s with SElement id => Some id | _ => None end) l) as Hin by (rewrite Ho; by left).
  by apply list_elem_of_omap in Hin as ([e| |] & Hs & [= ->]).
Qed.

Lemma upsert_eq index value key v st :
  equality_index_key index st = (st, Ok key) → into_value value = Ok v →
  upsert_element index value st =
    match first_element (store_property_equal st key v) with
    | Some id => (st, Ok id)
    | None => (e ← txn_create_element; _ ← writer_set_property (SElement e) key v; mret e) st
    end.
Proof.
  intros Hkey Hv. unfold upsert_element, mbind, tr_bind at 1. unfold tr_read at 1. rewrite Hv. unfold tr_bind at 1.
  rewrite Hkey. unfold tr_bind at 1, tr_read at 1.
  change (txn_property_equal st key v) with (store_property_equal st key v). by destruct (first_element _).
Qed.

(** A property that is set is there, and the catalog is as it was. *)
Lemma set_property_store s key v st st' :
  writer_set_property s key v st = (st', Ok ()) →
  st' = store_with_properties st (<[(s, key) := v]> (st_properties st)).
Proof.
  unfold writer_set_property, mbind, tr_bind. destruct (guards_require_subject s st) as [He _].
  destruct (require_subject s st) as [st1 [[]|? | |]]; cbn in He; subst st1; [|done..].
  unfold tr_read at 1. destruct (ok_or _ _) as [d|? | |]; [|done..]. unfold tr_read. by repeat case_decide; intros [= <-].
Qed.

(** An upsert that succeeds leaves an element with the value, the first a lookup finds. *)
Lemma upsert_store index value key v st st' id :
  equality_index_key index st = (st, Ok key) → into_value value = Ok v →
  upsert_element index value st = (st', Ok id) →
  first_element (store_property_equal st' key v) = Some id ∧ st_catalog st' = st_catalog st.
Proof.
  intros Hkey Hv Hu. rewrite (upsert_eq _ _ _ _ _ Hkey Hv) in Hu.
  destruct (first_element (store_property_equal st key v)) as [e|] eqn:Hf.
  { by injection Hu as <- <-. }
  unfold mbind, tr_bind in Hu. destruct (txn_create_element st) as [st1 [e|? | |]] eqn:Hc; [|done..].
  destruct (writer_set_property (SElement e) key v st1) as [st2 [[]|? | |]] eqn:Hs; [|done..].
  injection Hu as <- <-. apply set_property_store in Hs as ->.
  cbn in Hc. unfold store_create in Hc. destruct (checked_next _) as [n|]; [|done]. injection Hc as <- <-.
  split; [|done]. set (st2 := store_with_properties _ _).
  destruct (first_element (store_property_equal st2 key v)) as [e|] eqn:Hf2.
  - f_equal. apply first_element_Some, elem_of_property_equal in Hf2. cbn in Hf2. rewrite lookup_insert in Hf2.
    case_decide as He; [by simplify_eq|]. rewrite first_element_None in Hf. exfalso. by apply (Hf e), elem_of_property_equal.
  - exfalso. rewrite first_element_None in Hf2. apply (Hf2 (next_element (st_next st))), elem_of_property_equal. cbn.
    by rewrite lookup_insert_eq.
Qed.
