(* ===== verification/WriterFacts.v ===== *)
(** * WriterFacts: transactions on a published database

    [Opened]: a base whose posting index is rebuilt from its records and whose
    records, catalog and allocators make a store of integrity. [published]: the
    overlays handed to readers after any sequence of transactions, each of any
    calls on the writer, refused ones included. Theorems: the writer implements the
    abstract store, keeps its integrity, the index-backed lookups of a published
    view are the scans they replace, the merged scans end and list each visible
    record once, and what [retain] and [upsert] do. *)

From Stdlib Require Import String.
From stdpp Require Import base gmap sets list strings sorting.
From S2P Require Import Prelude Bytes Ordered DbError DbWire DbState OverlayIndex Overlay OverlayReplay Merge MergeFacts IndexFacts DbWriter Store WriterRefines StoreFacts.

Local Open Scope Z_scope.

(** ** A base and the transactions on it *)

Section published.
Context (base : BaseRecords) (next : NextIds) (catalog : Catalog).

(** [OwnedBaseIndex::from_records] of the base's records. *)
Definition base_indexed : Prop :=
  base_index base =
    from_records (base_elements base) (base_relations base) (base_incidences base) (base_properties base).

Record Opened : Prop := {
  opened_indexed : base_indexed;
  opened_integrity : StoreWf (store_of base (new_overlay next catalog))
}.

(** The state a transaction's calls leave its delta in, and their replies. *)
Definition run_writer (w : WriteOverlay) (calls : list WriterCall) : WriteOverlay * list (res DbError Reply) :=
  writer_run (Txn0 := writer_txn base) calls w.

Inductive published : Overlay → Prop :=
  | published_open : published (freeze_overlay (new_overlay next catalog))
  | published_commit o calls :
      published o → published (freeze_overlay (run_writer (from_overlay o) calls).1).

(** ** The base index is coherent *)

Lemma posted_base `{Countable K, Countable M} (pairs : list (K * M)) k x :
  posted (postings_of pairs) ∅ ∅ k x ↔ (k, x) ∈ pairs.
Proof.
  unfold posted. rewrite elem_of_postings_of. unfold posting. rewrite lookup_empty. cbn. set_solver.
Qed.

Lemma no_delta {R} (records : gmap Z R) id : layered_ref ∅ records id = records !! id.
Proof. rewrite layered_ref_merged, lookup_merged. unfold Delta. by rewrite lookup_empty. Qed.

Lemma keyed_no_delta `{Keyed R Z} (records : gmap Z R) : keyed_records records → keyed_layer ∅ records.
Proof. intros Hk. split; [done|]. intros id r. unfold Delta. by rewrite lookup_empty. Qed.

Lemma elem_of_base_pairs {R} `{Keyed R Z} (records : gmap Z R) (f : R → Z) k id :
  keyed_records records →
  (k, id) ∈ (λ r, (f r, record_id r)) <$> (snd <$> map_iter records) ↔ ∃ r, records !! id = Some r ∧ f r = k.
Proof.
  intros Hk. rewrite list_elem_of_fmap. setoid_rewrite (elem_of_values _ _ Hk). split.
  - intros (r & [= -> ->] & Hr). eauto.
  - intros (r & Hr & <-). exists r. by rewrite (Hk _ _ Hr).
Qed.

Lemma opened_keyed : Opened →
  keyed_records (base_elements base) ∧ keyed_records (base_relations base) ∧ keyed_records (base_incidences base).
Proof.
  intros [_ Hst]. split_and!; intros id r Hr.
  - apply (wf_element _ Hst id r). rewrite store_element; cbn [w_elements new_overlay]; by rewrite no_delta.
  - apply (wf_relation _ Hst id r). rewrite store_relation; cbn [w_relations new_overlay]; by rewrite no_delta.
  - apply (wf_incidence _ Hst id r). rewrite store_incidence; cbn [w_incidences new_overlay]; by rewrite no_delta.
Qed.

Lemma opened_coherent : Opened → CoherentW base (new_overlay next catalog).
Proof.
  intros Ho. destruct (opened_keyed Ho) as (Ke & Kr & Ki). split.
  - by split_and!; apply keyed_no_delta.
  - intros l e. unfold has_label. cbn. rewrite (opened_indexed Ho). cbn. rewrite posted_base. unfold label_pairs, view_element.
    cbn. rewrite no_delta, list_elem_of_bind. setoid_rewrite (elem_of_values _ _ Ke). setoid_rewrite list_elem_of_fmap.
    setoid_rewrite elem_of_set_iter. split.
    + intros (r & (? & [= -> ->] & ?) & Hr). eauto.
    + intros (r & Hr & Hl). exists r. assert (el_id r = e) as Hid by apply (Ke _ _ Hr). split; [exists l; by rewrite Hid|by rewrite (Ke _ _ Hr)].
  - intros t q. unfold has_type. cbn. rewrite (opened_indexed Ho). cbn. rewrite posted_base. unfold type_pairs, view_relation.
    cbn. rewrite no_delta, list_elem_of_bind. setoid_rewrite (elem_of_values _ _ Kr). split.
    + intros (r & Hin & Hr). destruct (rel_type r) eqn:Ht; [|by apply not_elem_of_nil in Hin].
      apply list_elem_of_singleton in Hin as [= -> ->]. eauto.
    + intros (r & Hr & Ht). exists r. assert (rel_id r = q) as Hid by apply (Kr _ _ Hr). rewrite Ht, Hid. split; [by left|by rewrite (Kr _ _ Hr)].
  - intros e i. unfold has_element_incidence. cbn. rewrite (opened_indexed Ho). cbn. rewrite posted_base.
    unfold view_incidence. cbn. rewrite no_delta. apply (elem_of_base_pairs _ inc_element), Ki.
  - intros e i. unfold has_relation_incidence. cbn. rewrite (opened_indexed Ho). cbn. rewrite posted_base.
    unfold view_incidence. cbn. rewrite no_delta. apply (elem_of_base_pairs _ inc_relation), Ki.
  - intros k value s. unfold has_value. cbn. rewrite (opened_indexed Ho). cbn. rewrite posted_base.
    unfold view_property. cbn. rewrite lookup_empty. cbn. unfold equality_pairs. rewrite list_elem_of_fmap.
    change (property_rows (base_properties base)) with (flat_rows (base_properties base)). split.
    + intros ([[s' k'] x] & [= -> -> ->] & Hx%elem_of_flat_rows). by rewrite lookup_flat in Hx.
    + intros Hx. exists (s, k, value). split; [done|]. apply elem_of_flat_rows. by rewrite lookup_flat.
  - intros k x Hx. unfold posting in Hx. cbn in Hx. rewrite lookup_empty in Hx. cbn in Hx. set_solver.
Qed.

(** ** The invariant of published states *)

Definition Sound (w : WriteOverlay) : Prop := WriterInv base w ∧ StoreWf (store_of base w).

Lemma sound_run w calls :
  Sound w → Sound (run_writer w calls).1 ∧
  writer_run (Txn0 := store_txn) calls (store_of base w) = (store_of base (run_writer w calls).1, (run_writer w calls).2).
Proof.
  intros [Hi Hst]. destruct (sim_writer_run (TS := writer_txn base) (TT := store_txn) (WriterInv base) (store_of base) calls w Hi) as [Hi' He].
  split; [|done]. split; [done|]. pose proof (keeps_writer_run calls _ Hst) as Hk. by rewrite He in Hk.
Qed.

Lemma sound_reopen w : Sound w → Sound (from_overlay (freeze_overlay w)).
Proof.
  intros [[Hc Hf] Hst]. split; [split; [|done]|done]. by apply (coherent_fields base w).
Qed.

Lemma published_sound o : Opened → published o → Sound (from_overlay o).
Proof.
  intros Ho Hp. induction Hp as [|o calls _ IH]; apply sound_reopen.
  - destruct Ho as [? Hst]. split; [|done]. split; [by apply opened_coherent|]. apply Hst.
  - by apply sound_run.
Qed.

Lemma published_coherent o : Opened → published o → Coherent (layered base o).
Proof. intros Ho Hp. destruct (published_sound o Ho Hp) as [[[? ? ? ? ? ? ?] _] _]. by split. Qed.

End published.

(** ** Upserts *)

Section upserts.
Context (base : BaseRecords).
#[local] Existing Instance writer_txn.

(** A successful upsert converted its value and found its index. *)
Lemma upsert_inputs index value w w' id :
  upsert_element (Txn0 := writer_txn base) index value w = (w', Ok id) →
  ∃ key v, into_value value = Ok v ∧ equality_index_key (Txn0 := writer_txn base) index w = (w, Ok key).
Proof.
  unfold upsert_element, mbind, tr_bind, tr_read at 1. destruct (into_value value) as [v|? | |]; [|done..].
  unfold equality_index_key, tr_read at 1. destruct (ok_or _ _ ≫= _) as [key|? | |] eqn:Hk; [|done..].
  intros _. exists key, v. split; [done|]. unfold tr_read. by rewrite Hk.
Qed.

Lemma equality_index_key_catalog index key w w' :
  w_catalog w' = w_catalog w → equality_index_key (Txn0 := writer_txn base) index w = (w, Ok key) →
  equality_index_key (Txn0 := writer_txn base) index w' = (w', Ok key).
Proof. unfold equality_index_key, tr_read. cbn [txn_catalog writer_txn]. intros -> [= Hk]. by rewrite Hk. Qed.

Lemma upsert_found index value key v w id :
  into_value value = Ok v → equality_index_key (Txn0 := writer_txn base) index w = (w, Ok key) →
  first_element (txn_property_equal (Txn := writer_txn base) w key v) = Some id →
  upsert_element (Txn0 := writer_txn base) index value w = (w, Ok id).
Proof.
  intros Hv Hkey Hf. unfold upsert_element, mbind, tr_bind, tr_read at 1. rewrite Hv, Hkey. unfold tr_read. by rewrite Hf.
Qed.

End upserts.

(** ** What transactions do *)

Section transactions.
Context (base : BaseRecords) (next : NextIds) (catalog : Catalog).

(** C19. The writer implements the abstract store. In a transaction on any
    published state, any sequence of calls, refused ones included, gets exactly
    the replies the abstract store gives, and leaves a delta that stands for the
    store's final state. *)
Theorem writer_refines_store o calls :
  Opened base next catalog → published base next catalog o →
  writer_run (Txn0 := store_txn) calls (store_of base (from_overlay o)) =
    (store_of base (run_writer base (from_overlay o) calls).1, (run_writer base (from_overlay o) calls).2).
Proof. intros Ho Hp. apply sound_run. by eapply published_sound. Qed.

(** C20. Every state a writer can reach is well formed, in the middle of a
    transaction or published: incidences join visible elements and relations by
    registered roles, labels and types are registered, each property belongs to a
    visible subject of the family and type its key declares, the catalog's names
    and references are consistent, and the allocators are ahead of every id. *)
Theorem writer_keeps_integrity o calls :
  Opened base next catalog → published base next catalog o →
  StoreWf (store_of base (run_writer base (from_overlay o) calls).1).
Proof. intros Ho Hp. apply (sound_run base), (published_sound base next catalog o Ho Hp). Qed.

(** The index-backed lookups of a published view are the scans they
    replace: label, relation type, incidence, equality, range and composite
    lookups return what filtering the merged scan returns, in the same order. *)
Theorem lookups_equal_scans o :
  Opened base next catalog → published base next catalog o →
  let v := layered base o in
  (∀ l, elements_with_label_scan v l = Ok (view_elements_with_label v l)) ∧
  (∀ t, relations_with_type_scan v t = Ok (view_relations_with_type v t)) ∧
  (∀ e, element_incidences_scan v e = Ok (view_element_incidences v e)) ∧
  (∀ r, relation_incidences_scan v r = Ok (view_relation_incidences v r)) ∧
  (∀ key value, property_equal_scan v key value = Ok (view_property_equal v key value)) ∧
  (∀ key min max, property_range_scan v key min max = Ok (view_property_range v key min max)) ∧
  (∀ pairs, pairs ≠ [] → property_composite_equal_scan v pairs =
     Ok (property_composite_equal (layer_index (ls_overlay v)) (base_index (ls_base v)) pairs)) ∧
  (∀ key s x, (s, x) ∈ view_property_key_subjects v key ↔ view_property v s key = Some x).
Proof.
  intros Ho Hp v. pose proof (published_coherent base next catalog o Ho Hp) as Hco.
  split_and!; intros; [by apply index_labels|by apply index_types|by apply index_element_incidences|
    by apply index_relation_incidences|by apply index_property_equal|by apply index_property_range|
    by apply index_composite|by apply key_subjects_visible].
Qed.

(** C21. The scans of a published view end, and list what is visible: the merge
    iterators return after finitely many steps, each visible record exactly once,
    in ascending key order, and nothing that the delta tombstones. *)
Theorem merged_scans_end o :
  Opened base next catalog → published base next catalog o →
  let v := layered base o in let st := store_of base (from_overlay o) in
  view_elements v = Ok (snd <$> map_iter (st_elements st)) ∧
  view_relations v = Ok (snd <$> map_iter (st_relations st)) ∧
  view_incidences v = Ok (snd <$> map_iter (st_incidences st)) ∧
  view_properties v = Ok (map_iter (st_properties st)) ∧
  element_count v = Ok (Z.of_nat (size (st_elements st))) ∧
  (∀ id, view_element v id = st_elements st !! id) ∧ (∀ id, view_relation v id = st_relations st !! id) ∧
  (∀ id, view_incidence v id = st_incidences st !! id) ∧
  ∀ s k, view_property v s k = st_properties st !! (s, k).
Proof.
  intros Ho Hp v st. pose proof (coherent_keyed _ (published_coherent base next catalog o Ho Hp)) as Hk.
  assert (view_elements v = Ok (snd <$> map_iter (st_elements st))) as He by exact (view_elements_run v Hk).
  split_and!; [done|exact (view_relations_run v Hk)|exact (view_incidences_run v Hk)|exact (view_properties_run v)| |
    exact (view_element_lookup v)|exact (view_relation_lookup v)|exact (view_incidence_lookup v)|exact (view_property_lookup v)].
  unfold element_count. rewrite He, bind_Ok. unfold zlen, map_iter. by rewrite length_fmap, merge_sort_Permutation, length_map_to_list.
Qed.

(** [retain] removes exactly the stale: on an equality index, with values
    that convert, it succeeds and removes the subjects whose value of the key is
    not among those kept, the incidences those carry, and the properties of all
    these, and nothing else; afterwards every value of the key is a kept one. *)
Theorem retain_exact o calls index key keep values :
  Opened base next catalog → published base next catalog o →
  let w := (run_writer base (from_overlay o) calls).1 in
  equality_index_key (Txn0 := writer_txn base) index w = (w, Ok key) → keep_values keep = Ok values →
  ∃ w' P (HP : ∀ x, Decision (P x)), retain (Txn0 := writer_txn base) index keep w = (w', Ok ()) ∧
    (∀ x, P x ↔ ∃ s, stale (store_of base w) key values s ∧ dropped (store_of base w) s x) ∧
    store_of base w' = store_without P (store_of base w) ∧
    ∀ s value, st_properties (store_of base w') !! (s, key) = Some value → value ∈ values.
Proof.
  intros Ho Hp w Hkey Hkeep. destruct (sound_run base _ calls (published_sound base next catalog o Ho Hp)) as [[Hi Hst] _].
  fold w in Hi, Hst. destruct (sim_equality_index_key (TS := writer_txn base) (TT := store_txn) (WriterInv base) (store_of base) index w Hi) as [_ Hk].
  rewrite Hkey in Hk. destruct (retain_store index key keep values _ Hst Hk Hkeep) as (P & HP & HPx & Hr).
  destruct (sim_retain (TS := writer_txn base) (TT := store_txn) (WriterInv base) (store_of base) index keep w Hi) as [_ He].
  rewrite Hr in He. destruct (retain index keep w) as [w' r]. pose proof (f_equal fst He) as Hw. pose proof (f_equal snd He) as Hres. cbn [fst snd] in Hw, Hres. subst r.
  exists w', P, HP. split_and!; [done|done|done|]. intros s value. rewrite <-Hw, without_property.
  case_decide as HPs; [done|]. intros Hv. destruct (decide (value ∈ values)) as [|Hn]; [done|]. destruct HPs.
  apply HPx. exists s. split; [by exists value|by left].
Qed.

(** Upserting is idempotent. When [upsert_element] succeeds the element it
    returns has the value under the index's key, and calling it again returns the
    same element and leaves the delta and its log as they are. *)
Theorem upsert_element_idempotent o calls index value w' id :
  Opened base next catalog → published base next catalog o →
  let w := (run_writer base (from_overlay o) calls).1 in
  upsert_element (Txn0 := writer_txn base) index value w = (w', Ok id) →
  (∃ key v, into_value value = Ok v ∧ view_property (layered base w') (SElement id) key = Some v ∧
     equality_index_key (Txn0 := writer_txn base) index w' = (w', Ok key)) ∧
  upsert_element (Txn0 := writer_txn base) index value w' = (w', Ok id).
Proof.
  intros Ho Hp w Hu. destruct (sound_run base _ calls (published_sound base next catalog o Ho Hp)) as [[Hi Hst] _].
  fold w in Hi, Hst. destruct (upsert_inputs base index value w w' id Hu) as (key & v & Hv & Hkey).
  destruct (sim_equality_index_key (TS := writer_txn base) (TT := store_txn) (WriterInv base) (store_of base) index w Hi) as [_ Hk].
  rewrite Hkey in Hk. cbn [fst snd] in Hk.
  destruct (sim_upsert_element (TS := writer_txn base) (TT := store_txn) (WriterInv base) (store_of base) index value w Hi) as [Hi' He].
  rewrite Hu in Hi', He. cbn [fst snd] in Hi', He.
  destruct (upsert_store index value key v _ _ id Hk Hv He) as [Hf Hc].
  assert (equality_index_key (Txn0 := writer_txn base) index w' = (w', Ok key)) as Hkey' by exact (equality_index_key_catalog base index key w w' Hc Hkey).
  split.
  - exists key, v. split_and!; [done| |done]. rewrite view_property_lookup. exact (proj1 (elem_of_property_equal (store_of base w') key v _) (first_element_Some _ _ Hf)).
  - apply upsert_found with key v; [done..|].
    by rewrite <-(sim_property_equal (TS := writer_txn base) (TT := store_txn) w' key v Hi').
Qed.

End transactions.

(** ** A small database *)

(** One element, labelled [a], with the text property [k] set to [x]. *)
Definition sample_base : BaseRecords := {|
  base_elements := <[1 := {| el_id := 1; el_labels := {[1]} |}]> ∅; base_relations := ∅; base_incidences := ∅;
  base_properties := {[SElement 1 := {[1 := PText [Byte.x78]]}]};
  base_index := from_records (<[1 := {| el_id := 1; el_labels := {[1]} |}]> ∅) ∅ ∅ {[SElement 1 := {[1 := PText [Byte.x78]]}]}
|}.
Definition sample_next : NextIds := set_next_property_key (set_next_label (set_next_element INITIAL 2) 2) 2.
Definition sample_key : PropertyKeyDefinition :=
  {| key_id := 1; key_name := [Byte.x6b]; key_family := FamElement; key_type := TypeText |}.
Definition sample_catalog : Catalog := {|
  roles := ∅; role_names := ∅; labels := <[1 := {| label_id := 1; label_name := [Byte.x61] |}]> ∅;
  label_names := <[[Byte.x61] := 1]> ∅; relation_types := ∅; relation_type_names := ∅;
  property_keys := <[1 := sample_key]> ∅; property_key_names := <[[Byte.x6b] := 1]> ∅;
  projections := ∅; projection_names := ∅; indexes := ∅; index_names := ∅
|}.

Lemma sample_store : store_of sample_base (new_overlay sample_next sample_catalog) = {|
  st_elements := <[1 := {| el_id := 1; el_labels := {[1]} |}]> ∅; st_relations := ∅; st_incidences := ∅;
  st_properties := <[(SElement 1, 1) := PText [Byte.x78]]> ∅; st_catalog := sample_catalog; st_next := sample_next |}.
Proof. unfold store_of. f_equal; apply (bool_decide_unpack _); by vm_compute. Qed.

Lemma named_empty {D} (id_of : D → Z) (name_of : D → list byte) next : NamedWf ∅ ∅ id_of name_of next.
Proof. by split; intros ? ?; rewrite lookup_empty. Qed.

Lemma lookup_one {K V} `{Countable K} (k i : K) (x y : V) : (<[k := x]> ∅ : gmap K V) !! i = Some y → i = k ∧ y = x.
Proof. rewrite lookup_insert. case_decide; [by intros [= <-]|by rewrite lookup_empty]. Qed.

Lemma sample_opened : Opened sample_base sample_next sample_catalog.
Proof.
  split; [reflexivity|]. rewrite sample_store. split; cbn [st_elements st_relations st_incidences st_properties st_catalog st_next].
  - intros id r [-> ->]%lookup_one. split; [done|]. cbn [el_labels]. intros l Hl%elem_of_singleton. subst l. eexists. reflexivity.
  - intros id r. by rewrite lookup_empty.
  - intros id r. by rewrite lookup_empty.
  - intros s k value [[= -> ->] ->]%lookup_one. split; [by eexists|]. by exists sample_key.
  - split; try apply named_empty; cbn; try (intros ? ?; by rewrite lookup_empty).
    + apply (named_insert ∅ ∅ label_id label_name 1); [apply named_empty|done..].
    + apply (named_insert ∅ ∅ key_id key_name 1); [apply named_empty|done..].
  - split_and!; intros id [r Hr]; [apply lookup_one in Hr as [-> _]; by vm_compute|cbn in Hr; by rewrite lookup_empty in Hr..].
Qed.

(** A second element with the value [y], an index on the key, and a call refused
    for its type. *)
Definition sample_calls : list WriterCall :=
  [WriterCreateElement; WriterSet (SElement 2) 1 (AssignText [Byte.x79]);
   WriterDefineIndex [Byte.x69] (IndexPropertyEquality 1); WriterSet (SElement 2) 1 (AssignI64 7);
   WriterCreateRelation].
Definition sample_overlay : Overlay :=
  freeze_overlay (run_writer sample_base (from_overlay (freeze_overlay (new_overlay sample_next sample_catalog))) sample_calls).1.

Lemma sample_published : published sample_base sample_next sample_catalog sample_overlay.
Proof. apply published_commit, published_open. Qed.

Lemma writer_refines_store_witness :
  let o := freeze_overlay (new_overlay sample_next sample_catalog) in
  (run_writer sample_base (from_overlay o) sample_calls).2 =
    [Ok (ReplyId 2); Ok ReplyUnit; Ok (ReplyId 1); Err (Query (PropertyTypeMismatch TypeText TypeInteger)); Ok (ReplyId 1)] ∧
  writer_run (Txn0 := store_txn) sample_calls (store_of sample_base (from_overlay o)) =
    (store_of sample_base (run_writer sample_base (from_overlay o) sample_calls).1,
     (run_writer sample_base (from_overlay o) sample_calls).2).
Proof.
  split; [vm_compute; reflexivity|].
  apply (writer_refines_store sample_base sample_next sample_catalog); [exact sample_opened|apply published_open].
Defined.

Lemma writer_keeps_integrity_witness :
  StoreWf (store_of sample_base (run_writer sample_base (from_overlay sample_overlay) [WriterTombstone (SElement 1)]).1).
Proof. apply (writer_keeps_integrity _ _ _ _ _ sample_opened sample_published). Defined.

Lemma lookups_equal_scans_witness :
  view_property_equal (layered sample_base sample_overlay) 1 (PText [Byte.x79]) = [SElement 2] ∧
  elements_with_label_scan (layered sample_base sample_overlay) 1 = Ok [1] ∧
  property_equal_scan (layered sample_base sample_overlay) 1 (PText [Byte.x79]) = Ok [SElement 2].
Proof.
  destruct (lookups_equal_scans _ _ _ _ sample_opened sample_published) as (Hl & _ & _ & _ & He & _).
  split; [vm_compute; reflexivity|]. rewrite Hl, He. split; vm_compute; reflexivity.
Defined.

Lemma merged_scans_end_witness :
  view_elements (layered sample_base sample_overlay) = Ok [{| el_id := 1; el_labels := {[1]} |}; {| el_id := 2; el_labels := ∅ |}] ∧
  element_count (layered sample_base sample_overlay) = Ok 2.
Proof.
  destruct (merged_scans_end _ _ _ _ sample_opened sample_published) as (He & _ & _ & _ & Hc & _).
  rewrite He, Hc. split; vm_compute; reflexivity.
Defined.

Lemma retain_exact_witness :
  let w := (run_writer sample_base (from_overlay sample_overlay) []).1 in
  ∃ w', retain (Txn0 := writer_txn sample_base) 1 [AssignText [Byte.x79]] w = (w', Ok ()) ∧
    ∀ s value, st_properties (store_of sample_base w') !! (s, 1) = Some value → value ∈ [PText [Byte.x79]].
Proof.
  intros w. assert (equality_index_key (Txn0 := writer_txn sample_base) 1 w = (w, Ok 1)) as Hkey.
  { unfold equality_index_key, tr_read. by f_equal. }
  assert (keep_values [AssignText [Byte.x79]] = Ok [PText [Byte.x79]]) as Hkeep by reflexivity.
  destruct (retain_exact _ _ _ sample_overlay [] 1 1 _ _ sample_opened sample_published Hkey Hkeep)
    as (w' & P & HP & Hr & _ & _ & Hv).
  exists w'. split; [exact Hr|exact Hv].
Defined.

Lemma upsert_element_idempotent_witness :
  let w := (run_writer sample_base (from_overlay sample_overlay) []).1 in
  ∃ w', upsert_element (Txn0 := writer_txn sample_base) 1 (AssignText [Byte.x7a]) w = (w', Ok 3) ∧
    upsert_element (Txn0 := writer_txn sample_base) 1 (AssignText [Byte.x7a]) w' = (w', Ok 3).
Proof.
  intros w. assert ((upsert_element (Txn0 := writer_txn sample_base) 1 (AssignText [Byte.x7a]) w).2 = Ok 3) as Hid.
  { vm_compute. reflexivity. }
  destruct (upsert_element _ _ w) as [w' r] eqn:Hu. cbn [snd] in Hid. subst r. exists w'. split; [done|].
  by apply (upsert_element_idempotent sample_base sample_next sample_catalog sample_overlay [] 1 _ w' 3 sample_opened sample_published).
Defined.
