(* ===== verification/Layout.v ===== *)
(** * Layout: the index and word vocabulary of [oxgraph-layout-util]

    Models [crates/oxgraph-layout-util/src/lib.rs] (index widths, native and
    little-endian words, the snapshot width bijection), [integrity.rs]
    (offset-array validation at view open) and [build.rs] (dense ids and the
    CSR-style [(offsets, items)] flattening).

    Models [crates/oxgraph-layout-util/src/keys.rs]: [encode_composite_key]
    joins length-prefixed fields into one string. A [String.string] is its
    UTF-8 byte sequence, so [String.length] is [str::len]. *)

From Stdlib Require Import Ascii.
From stdpp Require Import base gmap sets list strings pretty.
From S2P Require Import Prelude.

Local Open Scope Z_scope.

(** ** Index widths: [LayoutIndex] *)

Inductive width := W16 | W32 | W64 | Wsize.

#[export] Instance width_eq_dec : EqDecision width.
Proof. solve_decision. Defined.

Section widths.
Context `{!Target}.

(** Greatest value of an index type. *)
Definition width_max (w : width) : Z :=
  match w with
  | W16 => u16_max
  | W32 => u32_max
  | W64 => u64_max
  | Wsize => usize_max
  end.

Definition fits (w : width) (v : Z) : Prop := 0 ≤ v ≤ width_max w.

(** [LayoutIndex::to_usize]: [usize::try_from(self).ok()]. *)
Definition to_usize (w : width) (v : Z) : option Z :=
  match w with
  | Wsize => Some v
  | _ => try_into usize_max v
  end.

(** [LayoutIndex::from_usize]: [Self::try_from(value).ok()]. *)
Definition from_usize (w : width) (v : Z) : option Z :=
  match w with
  | Wsize => Some v
  | _ => try_into (width_max w) v
  end.

#[global] Instance fits_dec w v : Decision (fits w v).
Proof. apply _. Defined.

Lemma to_usize_Some w v s :
  fits w v → to_usize w v = Some s ↔ s = v ∧ v ≤ usize_max.
Proof. unfold fits. destruct w; simpl; rewrite ?try_into_Some; naive_solver lia. Qed.

Lemma from_usize_Some w v s :
  0 ≤ v ≤ usize_max → from_usize w v = Some s ↔ s = v ∧ fits w v.
Proof. unfold fits. destruct w; simpl; rewrite ?try_into_Some; naive_solver lia. Qed.

(** [from_usize] and [to_usize] are inverse where both are defined. *)
Lemma index_roundtrip w v s :
  0 ≤ v ≤ usize_max → from_usize w v = Some s → to_usize w s = Some v.
Proof. intros Hv [-> ?]%from_usize_Some; [|done]. apply to_usize_Some; naive_solver lia. Qed.

Lemma fits_0 w : fits w 0.
Proof.
  unfold fits. pose proof usize_max_bounds.
  destruct w; simpl; unfold u16_max, u32_max, u64_max; lia.
Qed.

(** Smallest [usize] still holds every [u16]. *)
Lemma width16_usize : width_max W16 ≤ usize_max.
Proof. apply usize_max_bounds. Qed.
End widths.

(** ** Persisted widths: [SnapshotWidth] *)

Inductive swidth := S16 | S32 | S64.

#[export] Instance swidth_eq_dec : EqDecision swidth.
Proof. solve_decision. Defined.

Definition swidth_width (sw : swidth) : width :=
  match sw with S16 => W16 | S32 => W32 | S64 => W64 end.
Coercion swidth_width : swidth >-> width.

(** [SnapshotWidth::WIDTH_CODE]. *)
Definition WIDTH_CODE (sw : swidth) : Z :=
  match sw with S16 => 0 | S32 => 1 | S64 => 2 end.

(** [size_of::<SnapshotWidth::LittleEndianWord>()]. *)
Definition swidth_size (sw : swidth) : nat :=
  match sw with S16 => 2 | S32 => 4 | S64 => 8 end%nat.

(** One little-endian storage word [U16<LE>], [U32<LE>] or [U64<LE>]. *)
Record le_word (sw : swidth) := LeWord {
  word_bytes : list byte;
  word_len : bool_decide (length word_bytes = swidth_size sw)
}.
Arguments LeWord {sw} _ _.
Arguments word_bytes {sw} _.
Arguments word_len {sw} _.

Lemma word_length {sw} (x : le_word sw) : length (word_bytes x) = swidth_size sw.
Proof. apply (bool_decide_unpack _ (word_len x)). Qed.

Lemma le_word_eq {sw} (x y : le_word sw) : word_bytes x = word_bytes y → x = y.
Proof. destruct x as [bx Hx], y as [by_ Hy]. simpl. intros ->. f_equal. apply proof_irrel. Qed.

(** [SnapshotWidth::to_le_word] and [SnapshotWidth::from_le_word]. *)
Definition to_le_word (sw : swidth) (v : Z) : le_word sw :=
  LeWord (le_bytes (swidth_size sw) v)
         (bool_decide_pack _ (length_le_bytes (swidth_size sw) v)).
Definition from_le_word {sw : swidth} (x : le_word sw) : Z := le_val (word_bytes x).

Lemma swidth_fits `{!Target} (sw : swidth) v :
  fits sw v ↔ 0 ≤ v < 2 ^ (8 * Z.of_nat (swidth_size sw)).
Proof. unfold fits. destruct sw; simpl; unfold u16_max, u32_max, u64_max; lia. Qed.

Lemma from_le_word_fits `{!Target} {sw} (x : le_word sw) : fits sw (from_le_word x).
Proof. apply swidth_fits. apply le_val_bound. apply word_length. Qed.

Lemma from_to_le_word `{!Target} (sw : swidth) v :
  fits sw v → from_le_word (to_le_word sw v) = v.
Proof. intros Hv. apply le_val_bytes. by apply swidth_fits. Qed.

Lemma to_from_le_word {sw} (x : le_word sw) : to_le_word sw (from_le_word x) = x.
Proof. apply le_word_eq. simpl. apply le_bytes_val, word_length. Qed.

(** ** Words: [LayoutWord]

    A slice entry, native or little-endian, with the index it stores. *)

Class LayoutWord `{!Target} (W : Type) := {
  word_width : width;
  word_get : W → Z;
  word_get_fits : ∀ x, fits word_width (word_get x)
}.
Arguments word_width {_} W {_}.

(** A native integer of the width is its own word. *)
Record native `{!Target} (w : width) := Native {
  native_val : Z;
  native_ok : bool_decide (fits w native_val)
}.
Arguments Native {_ w} _ _.
Arguments native_val {_ w} _.

Lemma native_eq `{!Target} {w} (x y : native w) : native_val x = native_val y → x = y.
Proof. destruct x as [a Ha], y as [b Hb]. simpl. intros ->. f_equal. apply proof_irrel. Qed.

#[export] Instance native_eq_dec `{!Target} w : EqDecision (native w).
Proof.
  intros x y. destruct (decide (native_val x = native_val y)) as [He|Hne];
    [left; by apply native_eq|right; by intros ->].
Defined.

Lemma native_fits `{!Target} {w} (x : native w) : fits w (native_val x).
Proof. apply (bool_decide_unpack _ (native_ok w x)). Qed.

#[export] Instance native_word `{!Target} (w : width) : LayoutWord (native w) := {|
  word_width := w;
  word_get := native_val;
  word_get_fits x := bool_decide_unpack _ (native_ok w x)
|}.

#[export] Instance le_layout_word `{!Target} (sw : swidth) : LayoutWord (le_word sw) := {|
  word_width := sw;
  word_get := from_le_word;
  word_get_fits := from_le_word_fits
|}.

Section words.
Context `{!Target} {W : Type} `{!LayoutWord W}.

(** [ZerocopyWord::read_as_usize]. *)
Definition read_as_usize (x : W) : option Z := to_usize (word_width W) (word_get x).

Lemma read_as_usize_Some x s :
  read_as_usize x = Some s ↔ s = word_get x ∧ word_get x ≤ usize_max.
Proof. apply to_usize_Some, word_get_fits. Qed.

Lemma read_as_usize_None x :
  read_as_usize x = None ↔ usize_max < word_get x.
Proof.
  rewrite eq_None_not_Some. split.
  - intros Hn. destruct (decide (word_get x ≤ usize_max)); [|lia].
    destruct Hn. exists (word_get x). by apply read_as_usize_Some.
  - intros ? [s [-> ?]%read_as_usize_Some]. lia.
Qed.

Lemma word_get_nonneg x : 0 ≤ word_get x.
Proof. apply word_get_fits. Qed.

(** [IdSlice]: the ids of a word slice, in order. *)
Definition id_slice (ws : list W) : list Z := word_get <$> ws.
End words.

(** ** Read-time integrity: [integrity.rs] *)

Inductive OffsetIntegrityIssue :=
  | Length (expected actual : Z)
  | CountOverflow (count : Z)
  | FirstNonZero (actual : Z)
  | NonMonotonic (index : nat) (previous actual : Z)
  | FinalMismatch (final_offset value_len : Z)
  | ValueOutOfRange (index : nat) (value bound : Z)
  | UsizeOverflow (index : nat).

#[export] Instance OffsetIntegrityIssue_eq_dec : EqDecision OffsetIntegrityIssue.
Proof. solve_decision. Defined.

Section integrity.
Context `{!Target} {W : Type} `{!LayoutWord W}.

(** The loop of [check_offsets_monotonic] from slice position [index], with
    [previous] the last offset read. *)
Fixpoint check_offsets_from (index : nat) (previous : Z) (offsets : list W)
    : res OffsetIntegrityIssue () :=
  match offsets with
  | [] => Ok ()
  | word :: rest =>
      offset ← ok_or (UsizeOverflow index) (read_as_usize word);
      if decide (index = 0%nat) then
        if decide (offset = 0) then check_offsets_from (S index) offset rest
        else Err (FirstNonZero offset)
      else
        if decide (offset < previous) then Err (NonMonotonic index previous offset)
        else check_offsets_from (S index) offset rest
  end.

Definition check_offsets_monotonic (offsets : list W) : res OffsetIntegrityIssue () :=
  check_offsets_from 0 0 offsets.

(** The loop of [check_value_range] from slice position [index]. *)
Fixpoint check_values_from (index : nat) (values : list W) (bound : Z)
    : res OffsetIntegrityIssue () :=
  match values with
  | [] => Ok ()
  | word :: rest =>
      value ← ok_or (UsizeOverflow index) (read_as_usize word);
      if decide (bound ≤ value) then Err (ValueOutOfRange index value bound)
      else check_values_from (S index) rest bound
  end.

Definition check_value_range (values : list W) (bound : Z) : res OffsetIntegrityIssue () :=
  check_values_from 0 values bound.

Definition check_offset_section (offsets : list W) (expected_count value_len : Z)
    : res OffsetIntegrityIssue () :=
  match checked_add usize_max expected_count 1 with
  | None => Err (CountOverflow expected_count)
  | Some expected =>
      if decide (zlen offsets = expected) then
        _ ← check_offsets_monotonic offsets;
        let final_index := (length offsets - 1)%nat in
        word ← vget offsets final_index;
        final_offset ← ok_or (UsizeOverflow final_index) (read_as_usize word);
        if decide (final_offset = value_len) then Ok ()
        else Err (FinalMismatch final_offset value_len)
      else Err (Length expected (zlen offsets))
  end.

(** *** Specification

    [OffsetsOk offsets n len]: an offset section of [n] rows over [len]
    values. *)
Record OffsetsOk (offsets : list W) (n len : Z) : Prop := {
  offsets_len : zlen offsets = n + 1;
  offsets_first x : offsets !! 0%nat = Some x → word_get x = 0;
  offsets_mono i x y :
    offsets !! i = Some x → offsets !! S i = Some y → word_get x ≤ word_get y;
  offsets_last x : offsets !! (length offsets - 1)%nat = Some x → word_get x = len;
  offsets_fit i x : offsets !! i = Some x → word_get x ≤ usize_max
}.

(** What the monotonicity loop accepts, from any position and offset. *)
Lemma check_offsets_from_Ok index previous offsets u :
  check_offsets_from index previous offsets = Ok u ↔
  (∀ i x, offsets !! i = Some x → word_get x ≤ usize_max) ∧
  (∀ x, offsets !! 0%nat = Some x →
    if decide (index = 0%nat) then word_get x = 0 else previous ≤ word_get x) ∧
  (∀ i x y, offsets !! i = Some x → offsets !! S i = Some y → word_get x ≤ word_get y).
Proof.
  revert index previous. induction offsets as [|w offsets IH]; intros index previous; simpl.
  { destruct u. naive_solver. }
  rewrite bind_Ok_inv. split.
  - intros (o & [-> Hfit]%ok_or_Ok%read_as_usize_Some & Hrest).
    assert (check_offsets_from (S index) (word_get w) offsets = Ok u ∧
      if decide (index = 0%nat) then word_get w = 0 else previous ≤ word_get w)
      as [(Hf & Hp & Hm)%IH Hfirst] by (repeat case_decide; naive_solver lia).
    split_and!.
    + intros [|i] x; naive_solver.
    + naive_solver.
    + intros [|i] x y; simpl; [|by apply Hm]. intros [= ->] Hy. by apply Hp in Hy.
  - intros (Hf & Hp & Hm). exists (word_get w). split.
    { apply ok_or_Ok, read_as_usize_Some. split; [done|]. by apply (Hf 0%nat). }
    specialize (Hp w eq_refl).
    assert (check_offsets_from (S index) (word_get w) offsets = Ok u) as Hrest.
    { apply IH. split_and!.
      - intros i x Hx. by apply (Hf (S i)).
      - intros x Hx. by apply (Hm 0%nat).
      - intros i x y Hx Hy. by apply (Hm (S i)). }
    repeat case_decide; naive_solver lia.
Qed.

Lemma check_offset_section_spec offsets n len u :
  0 ≤ n →
  check_offset_section offsets n len = Ok u ↔ n + 1 ≤ usize_max ∧ OffsetsOk offsets n len.
Proof.
  intros Hn. unfold check_offset_section.
  destruct (checked_add usize_max n 1) as [e|] eqn:He; last first.
  { apply try_into_None in He. split; [done|]. lia. }
  apply checked_add_Some in He as [Hmax ->].
  case_decide as Hlen; last first.
  { split; [done|]. intros [_ Hok]. by destruct Hlen, Hok. }
  split.
  - intros ([] & (Hf & Hp & Hm)%check_offsets_from_Ok & Hr)%bind_Ok_inv.
    apply bind_Ok_inv in Hr as (w & Hw%vget_Ok & Hr).
    apply bind_Ok_inv in Hr as (o & [-> Ho]%ok_or_Ok%read_as_usize_Some & Hr).
    case_decide as Hfin; [|done]. split; [done|]. constructor; naive_solver.
  - intros [_ Hok]. destruct (lookup_lt_is_Some_2 offsets (length offsets - 1)) as [w Hw];
      [unfold zlen in Hlen; lia|].
    assert (check_offsets_monotonic offsets = Ok ()) as ->.
    { apply check_offsets_from_Ok. destruct Hok; naive_solver. }
    simpl. unfold vget. rewrite Hw. simpl.
    assert (read_as_usize w = Some (word_get w)) as ->.
    { apply read_as_usize_Some. split; [done|]. by eapply offsets_fit. }
    simpl. rewrite decide_True; [by destruct u|]. by apply (offsets_last _ _ _ Hok).
Qed.

Lemma check_values_from_Ok index values bound u :
  check_values_from index values bound = Ok u ↔
  Forall (λ x, word_get x < bound ∧ word_get x ≤ usize_max) values.
Proof.
  revert index. induction values as [|w values IH]; intros index; simpl.
  { destruct u. split; [constructor|done]. }
  rewrite bind_Ok_inv, Forall_cons, <-(IH (S index)). split.
  - intros (o & [-> ?]%ok_or_Ok%read_as_usize_Some & Hr). case_decide; naive_solver lia.
  - intros [[? ?] Hr]. exists (word_get w). split; [by apply ok_or_Ok, read_as_usize_Some|].
    by rewrite decide_False by lia.
Qed.

Lemma check_value_range_spec values bound u :
  check_value_range values bound = Ok u ↔
  Forall (λ x, word_get x < bound ∧ word_get x ≤ usize_max) values.
Proof. apply check_values_from_Ok. Qed.

(** *** Consequences a validated view relies on *)

Lemma offsets_lookup offsets n len i :
  OffsetsOk offsets n len → (Z.of_nat i ≤ n) → ∃ x, offsets !! i = Some x.
Proof.
  intros Hok Hi. apply lookup_lt_is_Some_2. pose proof (offsets_len _ _ _ Hok).
  unfold zlen in *. lia.
Qed.

Lemma offsets_le offsets n len i j x y :
  OffsetsOk offsets n len → (i ≤ j)%nat →
  offsets !! i = Some x → offsets !! j = Some y → word_get x ≤ word_get y.
Proof.
  intros Hok Hij Hx. revert y. induction Hij as [|j Hij IH]; intros y Hy.
  { assert (x = y) as -> by congruence. apply Z.le_refl. }
  destruct (lookup_lt_is_Some_2 offsets j) as [z Hz].
  { apply lookup_lt_Some in Hy. lia. }
  etrans; [by apply IH|]. by eapply offsets_mono.
Qed.

(** Every interior offset is at most the value count. *)
Lemma offsets_le_len offsets n len i x :
  OffsetsOk offsets n len → offsets !! i = Some x → 0 ≤ word_get x ≤ len.
Proof.
  intros Hok Hx. split; [apply word_get_nonneg|].
  destruct (lookup_lt_is_Some_2 offsets (length offsets - 1)) as [y Hy].
  { apply lookup_lt_Some in Hx. lia. }
  rewrite <-(offsets_last _ _ _ Hok y Hy). apply (offsets_le offsets n len i (length offsets - 1) x y); [done| |done..].
  apply lookup_lt_Some in Hx. lia.
Qed.
End integrity.

(** ** Build-time primitives: [build.rs] *)

Inductive IdOutOfBounds :=
  | IdUsizeOverflow
  | OutOfRange (slot count : Z).

Inductive OffsetOverflow := IndexOverflow (value : Z).

Section build.
Context `{!Target}.

Definition map_offset_overflow {E} (error : OffsetOverflow) (on_overflow : Z → E) : E :=
  match error with IndexOverflow value => on_overflow value end.

(** [next_dense_index]: the id and the advanced counter. *)
Definition next_dense_index {E} (w : width) (counter : Z) (on_overflow : Z → E)
    : res E (Z * Z) :=
  id ← ok_or (on_overflow counter) (from_usize w counter);
  counter' ← ok_or (on_overflow usize_max) (checked_add usize_max counter 1);
  mret (id, counter').

Definition id_to_slot (w : width) (id count : Z) : res IdOutOfBounds Z :=
  slot ← ok_or IdUsizeOverflow (to_usize w id);
  if decide (slot < count) then Ok slot else Err (OutOfRange slot count).

Definition slot_or_max (w : width) (id : Z) : Z := default usize_max (to_usize w id).

Definition index_from_usize (w : width) (value : Z) : res OffsetOverflow Z :=
  ok_or (IndexOverflow value) (from_usize w value).

Definition slice_to_le (sw : swidth) (values : list Z) : list (le_word sw) :=
  to_le_word sw <$> values.

(** [build_offset_index]: [offsets] and [items] grow bucket by bucket. *)
Definition build_offset_index {T} (w : width) (buckets : list (list T))
    : res OffsetOverflow (list Z * list T) :=
  o0 ← index_from_usize w 0;
  for_each (λ '(offsets, items) bucket,
      let items := items ++ bucket in
      o ← index_from_usize w (zlen items);
      mret (offsets ++ [o], items))
    buckets ([o0], []).

(** Running totals of the bucket lengths, the offsets a correct flattening has. *)
Fixpoint running_totals {T} (start : Z) (buckets : list (list T)) : list Z :=
  start :: match buckets with [] => [] | b :: bs => running_totals (start + zlen b) bs end.

Lemma running_totals_snoc {T} start (buckets : list (list T)) b :
  running_totals start (buckets ++ [b]) =
  running_totals start buckets ++ [start + zlen (concat (buckets ++ [b]))].
Proof.
  revert start. induction buckets as [|c cs IH]; intros start; simpl.
  - rewrite app_nil_r. done.
  - f_equal. rewrite IH. do 2 f_equal. rewrite !zlen_app. lia.
Qed.

Lemma length_running_totals {T} start (buckets : list (list T)) :
  length (running_totals start buckets) = S (length buckets).
Proof. revert start. induction buckets; intros start; simpl; auto. Qed.

Lemma build_offset_index_Ok {T} w (buckets : list (list T)) offsets items :
  zlen (concat buckets) ≤ usize_max →
  build_offset_index w buckets = Ok (offsets, items) →
  offsets = running_totals 0 buckets ∧ items = concat buckets ∧ Forall (fits w) offsets.
Proof.
  intros Hmax. unfold build_offset_index, index_from_usize.
  intros (o0 & Ho0%ok_or_Ok & Hl)%bind_Ok_inv.
  pose proof usize_max_bounds as Hb. apply from_usize_Some in Ho0 as [-> ?]; [|lia].
  revert Hl. apply (for_each_inv_Ok (λ pre '(offs, its),
    offs = running_totals 0 pre ∧ its = concat pre ∧ Forall (fits w) offs)
    _ buckets _ (offsets, items)).
  { split_and!; [done..|]. by constructor. }
  intros pre b post [offs its] [offs' its'] Hb' (-> & -> & Hf) Hstep.
  apply bind_Ok_inv in Hstep as (o & Ho%ok_or_Ok & [= <- <-]).
  assert (concat (pre ++ [b]) = concat pre ++ b) as Hc
    by (rewrite concat_app; simpl; by rewrite app_nil_r).
  apply from_usize_Some in Ho as [-> Hfo].
  - rewrite running_totals_snoc, Hc, Z.add_0_l. split_and!; [done..|].
    apply Forall_app; split; [done|by constructor].
  - split; [apply zlen_nonneg|]. etrans; [|exact Hmax]. subst buckets.
    rewrite concat_app. simpl. rewrite !zlen_app.
    pose proof (zlen_nonneg (concat post)). lia.
Qed.

Lemma build_offset_index_returns {T} w (buckets : list (list T)) :
  returns (build_offset_index w buckets).
Proof.
  apply returns_bind; [apply returns_ok_or|]. intros o0 _. apply returns_for_each.
  intros [offs its] b _. apply returns_bind; [apply returns_ok_or|done].
Qed.

Lemma build_offset_index_Err {T} w (buckets : list (list T)) v :
  zlen (concat buckets) ≤ usize_max →
  build_offset_index w buckets = Err (IndexOverflow v) →
  ¬ fits w v ∧ 0 ≤ v ≤ zlen (concat buckets).
Proof.
  intros Hmax. unfold build_offset_index, index_from_usize.
  pose proof usize_max_bounds as Hu.
  assert (from_usize w 0 = Some 0) as H0 by (apply from_usize_Some; [lia|split; [done|apply fits_0]]).
  rewrite H0. simpl.
  intros (pre & b & post & [offs its] & Hl & Hpre & Hstep)%for_each_Err.
  assert (zlen (concat pre) ≤ usize_max) as Hpm.
  { subst buckets. rewrite concat_app, zlen_app in Hmax. pose proof (zlen_nonneg (concat (b :: post))). lia. }
  destruct (build_offset_index_Ok w pre offs its) as (-> & -> & _); [done| |].
  { unfold build_offset_index, index_from_usize. by rewrite H0. }
  destruct (from_usize w (zlen (concat pre ++ b))) as [o|] eqn:Ho; simpl in Hstep; [done|].
  injection Hstep as <-. subst buckets. rewrite concat_app in *. simpl in *.
  rewrite !zlen_app in *. pose proof (zlen_nonneg (concat post)).
  pose proof (zlen_nonneg (concat pre)). pose proof (zlen_nonneg b).
  split; [|lia]. intros Hf. revert Ho. apply not_eq_None_Some.
  eexists. apply from_usize_Some; [lia|done].
Qed.

Lemma running_totals_lookup {T} start (buckets : list (list T)) i :
  (i ≤ length buckets)%nat →
  running_totals start buckets !! i = Some (start + zlen (concat (take i buckets))).
Proof.
  revert start i. induction buckets as [|b bs IH]; intros start [|i] Hi; simpl in *.
  - f_equal. unfold zlen. simpl. lia.
  - lia.
  - f_equal. unfold zlen. simpl. lia.
  - rewrite IH by lia. f_equal. rewrite zlen_app. lia.
Qed.

(** Row [i] of a flattening is bucket [i]. *)
Lemma concat_row {T} (buckets : list (list T)) i b :
  buckets !! i = Some b →
  take (length b) (drop (length (concat (take i buckets))) (concat buckets)) = b.
Proof.
  revert i. induction buckets as [|c cs IH]; intros [|i] Hi; simpl in *; [done..| |].
  - injection Hi as ->. by rewrite drop_0, take_app_length.
  - rewrite length_app, <-drop_drop, drop_app_length. by apply IH.
Qed.
End build.

(** ** Rows of a validated section *)

Section rows.
Context `{!Target} {W : Type} `{!LayoutWord W}.

(** [&values[offsets[i]..offsets[i + 1]]], the slicing every borrowed view does. *)
Definition row {E T} (offsets : list W) (values : list T) (i : nat) : res E (list T) :=
  a ← vget offsets i;
  b ← vget offsets (S i);
  a ← or_panic (read_as_usize a);
  b ← or_panic (read_as_usize b);
  vslice values (Z.to_nat a) (Z.to_nat b).

Lemma row_Ok {E T} offsets (values : list T) n i :
  OffsetsOk offsets n (zlen values) → Z.of_nat i < n →
  ∃ a b, offsets !! i = Some a ∧ offsets !! S i = Some b ∧
    0 ≤ word_get a ≤ word_get b ∧ word_get b ≤ zlen values ∧
    row (E:=E) offsets values i =
    Ok (take (Z.to_nat (word_get b - word_get a)) (drop (Z.to_nat (word_get a)) values)).
Proof.
  intros Hok Hi.
  destruct (offsets_lookup _ _ _ i Hok) as [a Ha]; [lia|].
  destruct (offsets_lookup _ _ _ (S i) Hok) as [b Hb]; [lia|].
  pose proof (offsets_le_len _ _ _ _ _ Hok Hb) as [_ Hble].
  pose proof (offsets_mono _ _ _ Hok _ _ _ Ha Hb) as Hab.
  pose proof (word_get_nonneg a) as H0a.
  exists a, b. split_and!; [done..|]. unfold row, vget. rewrite Ha, Hb. simpl.
  assert (∀ x j, offsets !! j = Some x → read_as_usize x = Some (word_get x)) as Hread.
  { intros x j Hx. apply read_as_usize_Some. split; [done|]. by eapply offsets_fit. }
  rewrite (Hread _ _ Ha), (Hread _ _ Hb). simpl. unfold vslice.
  rewrite decide_True by (unfold zlen in *; lia).
  do 2 f_equal. lia.
Qed.

(** The rows before row [i] are exactly the values before its start. *)
Lemma rows_prefix {E T} offsets (values : list T) n i rows x :
  OffsetsOk offsets n (zlen values) → Z.of_nat i ≤ n → offsets !! i = Some x →
  mapM (M:=option) (λ j, match row (E:=E) offsets values j with Ok r => Some r | _ => None end)
    (seq 0 i) = Some rows →
  concat rows = take (Z.to_nat (word_get x)) values.
Proof.
  intros Hok. revert rows x. induction i as [|i IH]; intros rows x Hi Hx Hrows.
  - injection Hrows as <-. by rewrite (offsets_first _ _ _ Hok x Hx).
  - destruct (row_Ok (E:=E) _ _ _ i Hok) as (a & b & Ha & Hb & Hab & Hlen & Hrow); [lia|].
    rewrite Hx in Hb. injection Hb as <-.
    rewrite seq_S, Nat.add_0_l in Hrows.
    apply mapM_Some, Forall2_app_inv_l in Hrows as (r1 & r2 & Hr1 & Hr2 & ->).
    apply Forall2_cons_inv_l in Hr2 as (r & ? & Hr & ->%Forall2_nil_inv_l & ->).
    rewrite Hrow in Hr. injection Hr as <-.
    rewrite concat_app, (IH r1 a) by (done || lia || by apply mapM_Some). simpl.
    rewrite app_nil_r, take_take_drop. f_equal. lia.
Qed.

(** The rows of a well formed section tile the values. *)
Lemma rows_tile {E T} offsets (values : list T) n :
  0 ≤ n → OffsetsOk offsets n (zlen values) →
  ∃ rows : list (list T), zlen rows = n ∧ concat rows = values ∧
    ∀ i, (i < Z.to_nat n)%nat → ∃ r, row (E:=E) offsets values i = Ok r ∧ rows !! i = Some r.
Proof.
  intros Hn Hok.
  assert (∃ rows, mapM (M:=option)
    (λ j, match row (E:=E) offsets values j with Ok r => Some r | _ => None end)
    (seq 0 (Z.to_nat n)) = Some rows) as [rows Hm].
  { apply mapM_is_Some, Forall_forall. intros i [_ Hi]%elem_of_seq.
    destruct (row_Ok (E:=E) _ _ _ i Hok) as (a & b & _ & _ & _ & _ & Hrow); [lia|].
    unfold compose. rewrite Hrow. by eexists. }
  exists rows. pose proof (length_mapM _ _ _ Hm) as Hlen. rewrite length_seq in Hlen. split_and!.
  - unfold zlen. lia.
  - destruct (offsets_lookup _ _ _ (Z.to_nat n) Hok) as [x Hx]; [lia|].
    rewrite (rows_prefix offsets values n (Z.to_nat n) rows x Hok) by (done || lia).
    rewrite (offsets_last _ _ _ Hok x), take_ge; [done|unfold zlen; lia|].
    rewrite <-Hx. f_equal. pose proof (offsets_len _ _ _ Hok). unfold zlen in *. lia.
  - intros i Hi. apply mapM_Some in Hm.
    destruct (Forall2_lookup_l _ _ _ i i Hm) as (r & Hr & Hrow); [by apply lookup_seq|].
    exists r. split; [|done]. destruct (row (E:=E) offsets values i); naive_solver.
Qed.

(** Safety of offset validation: an offset section that
    [check_offset_section] accepts for [n] rows over [values] cuts [values]
    into exactly [n] rows; slicing any row is in bounds (no panic), and the
    rows in order concatenate back to the whole value array, so no value is
    lost, duplicated or shared between rows. *)
Theorem validated_rows_tile {E T} (offsets : list W) (values : list T) (n : Z) :
  0 ≤ n →
  check_offset_section offsets n (zlen values) = Ok () →
  ∃ rows, for_each (E:=E) (λ acc i, r ← row offsets values i; mret (acc ++ [r]))
            (seq 0 (Z.to_nat n)) [] = Ok rows ∧
    zlen rows = n ∧ concat rows = values.
Proof.
  intros Hn [Hmax Hok]%check_offset_section_spec; [|done].
  destruct (rows_tile (E:=E) offsets values n Hn Hok) as (rows & Hlen & Hcat & Hrow).
  exists rows. split; [|done].
  destruct (for_each_inv (E:=E) (λ pre acc, acc = take (length pre) rows)
    (λ acc i, r ← row offsets values i; mret (acc ++ [r])) (seq 0 (Z.to_nat n)) [])
    as (acc & -> & ->); [done| |by rewrite length_seq, take_ge by (unfold zlen in Hlen; lia)].
  intros pre i post acc Hseq ->.
  assert (seq 0 (Z.to_nat n) !! length pre = Some i) as [-> Hi]%lookup_seq
    by (rewrite Hseq; by apply list_lookup_middle).
  destruct (Hrow (0 + length pre)%nat) as (r & -> & Hr); [lia|]. cbn [mbind res_bind mret res_ret].
  eexists. split; [done|]. rewrite length_app, Nat.add_1_r. symmetry. by apply take_S_r.
Qed.
End rows.

(** ** Error reports *)

Section issues.
Context `{!Target} {W : Type} `{!LayoutWord W}.

(** What an issue says of the checked slice. *)
Definition issue_holds (offsets : list W) (n len : Z) (issue : OffsetIntegrityIssue) : Prop :=
  match issue with
  | Length expected actual => expected = n + 1 ∧ actual = zlen offsets ∧ actual ≠ expected
  | CountOverflow count => count = n ∧ usize_max < n + 1
  | FirstNonZero actual => ∃ x, offsets !! 0%nat = Some x ∧ actual = word_get x ∧ actual ≠ 0
  | NonMonotonic index previous actual => ∃ i x y, index = S i ∧
      offsets !! i = Some x ∧ offsets !! S i = Some y ∧
      previous = word_get x ∧ actual = word_get y ∧ actual < previous
  | FinalMismatch final_offset value_len => ∃ x, offsets !! (length offsets - 1)%nat = Some x ∧
      final_offset = word_get x ∧ value_len = len ∧ final_offset ≠ value_len
  | ValueOutOfRange _ _ _ => False
  | UsizeOverflow index => ∃ x, offsets !! index = Some x ∧ usize_max < word_get x
  end.

Lemma check_offsets_from_cases pre offsets previous :
  (∀ x, last pre = Some x → previous = word_get x) →
  check_offsets_from (length pre) previous offsets = Ok () ∨
  ∃ issue, check_offsets_from (length pre) previous offsets = Err issue ∧
    ∀ n len, issue_holds (pre ++ offsets) n len issue.
Proof.
  revert pre previous. induction offsets as [|w offsets IH]; intros pre previous Hprev; simpl;
    [by left|].
  assert ((pre ++ w :: offsets) !! length pre = Some w) as Hw by by apply list_lookup_middle.
  destruct (read_as_usize w) as [o|] eqn:Ho; simpl; last first.
  { right. eexists. split; [done|]. intros n len. exists w.
    split; [done|]. by apply read_as_usize_None. }
  apply read_as_usize_Some in Ho as [-> _].
  assert (check_offsets_from (S (length pre)) (word_get w) offsets = Ok () ∨
    ∃ issue, check_offsets_from (S (length pre)) (word_get w) offsets = Err issue ∧
      ∀ n len, issue_holds (pre ++ w :: offsets) n len issue) as Hrec.
  { destruct (IH (pre ++ [w]) (word_get w)) as [Hr|(issue & Hr & Hi)].
    { intros x. rewrite last_snoc. naive_solver. }
    all: rewrite length_app, Nat.add_1_r in Hr; rewrite <-?app_assoc in *; eauto. }
  destruct pre as [|p pre _] using rev_ind; simpl.
  - simpl in Hrec. case_decide; [exact Hrec|].
    right. eexists. split; [done|]. intros n len. by exists w.
  - rewrite decide_False by (rewrite length_app; simpl; lia).
    case_decide as Hlt; [|exact Hrec]. right. eexists. split; [done|]. intros n len.
    rewrite length_app in *. simpl in *. rewrite Nat.add_1_r in *.
    exists (length pre), p, w. split_and!; [done| |done| |done|done].
    + rewrite <-app_assoc. by apply list_lookup_middle.
    + apply Hprev. by rewrite last_snoc.
Qed.

Lemma offset_validation_cases (offsets : list W) (n len : Z) :
  0 ≤ n →
  (check_offset_section offsets n len = Ok () ∧ n + 1 ≤ usize_max ∧ OffsetsOk offsets n len) ∨
  (∃ issue, check_offset_section offsets n len = Err issue ∧
    issue_holds offsets n len issue ∧ ¬ (n + 1 ≤ usize_max ∧ OffsetsOk offsets n len)).
Proof.
  intros Hn.
  assert (check_offset_section offsets n len = Ok () ∨
    ∃ issue, check_offset_section offsets n len = Err issue ∧ issue_holds offsets n len issue)
    as [Hok|(issue & Herr & Hi)].
  - unfold check_offset_section.
    destruct (checked_add usize_max n 1) as [e|] eqn:He; last first.
    { apply try_into_None in He. right. eexists. split; [done|]. simpl. lia. }
    apply checked_add_Some in He as [? ->]. case_decide as Hlen; last first.
    { right. eexists. split; [done|]. simpl. split_and!; congruence. }
    unfold check_offsets_monotonic.
    destruct (check_offsets_from_cases [] offsets 0) as [Hm|(issue & Herr & Hi)]; [done| |].
    2:{ simpl in *. rewrite Herr. right. eexists. split; [done|apply Hi]. }
    simpl in Hm. rewrite Hm. simpl. destruct (lookup_lt_is_Some_2 offsets (length offsets - 1)) as [x Hx];
      [unfold zlen in Hlen; lia|].
    unfold vget. rewrite Hx. simpl. destruct (read_as_usize x) as [o|] eqn:Ho; simpl.
    + apply read_as_usize_Some in Ho as [-> ?]. case_decide; [by left|].
      right. eexists. split; [done|]. exists x. done.
    + right. eexists. split; [done|]. exists x. split; [done|]. by apply read_as_usize_None.
  - left. split; [done|]. by apply check_offset_section_spec in Hok.
  - right. exists issue. split_and!; [done..|]. intros Hspec.
    apply (check_offset_section_spec _ _ _ ()) in Hspec; [|done]. congruence.
Qed.
(** Completeness and error reports of offset validation: on any input
    [check_offset_section] returns (it never panics), accepts exactly the
    sections that are well formed offset sections, and otherwise reports an
    issue that is true of the section: the named position and values are the
    ones at fault. *)
Theorem offset_validation_exact (offsets : list W) (n len : Z) :
  0 ≤ n →
  (check_offset_section offsets n len = Ok () ∧ n + 1 ≤ usize_max ∧ OffsetsOk offsets n len) ∨
  (∃ issue, check_offset_section offsets n len = Err issue ∧
    issue_holds offsets n len issue ∧ ¬ (n + 1 ≤ usize_max ∧ OffsetsOk offsets n len)).
Proof. apply offset_validation_cases. Qed.
End issues.

(** ** Builder and validator agree *)

Section build_validate.
Context `{!Target}.

(** Words of a slice with given values. *)
Definition holds_values `{!LayoutWord W} (ws : list W) (vs : list Z) : Prop :=
  id_slice ws = vs.

Lemma running_totals_ok `{!LayoutWord W} {T} (buckets : list (list T)) (ws : list W) :
  holds_values ws (running_totals 0 buckets) →
  zlen (concat buckets) ≤ usize_max →
  OffsetsOk ws (zlen buckets) (zlen (concat buckets)).
Proof.
  intros Hws Hmax. unfold holds_values, id_slice in Hws.
  assert (length ws = S (length buckets)) as Hl
    by by rewrite <-(length_running_totals 0 buckets), <-Hws, length_fmap.
  assert (∀ i x, ws !! i = Some x → word_get x = zlen (concat (take i buckets))) as Hget.
  { intros i x Hx. assert ((i ≤ length buckets)%nat) as Hi
      by (apply lookup_lt_Some in Hx; lia).
    pose proof (running_totals_lookup 0 buckets i Hi) as Hr.
    rewrite <-Hws, list_lookup_fmap, Hx in Hr. naive_solver lia. }
  assert (∀ i, zlen (concat (take i buckets)) ≤ zlen (concat (take (S i) buckets))) as Hmono.
  { intros i. destruct (buckets !! i) as [b|] eqn:Hb.
    - rewrite (take_S_r _ _ _ Hb), concat_app, zlen_app. pose proof (zlen_nonneg (concat [b])). lia.
    - apply lookup_ge_None in Hb. by rewrite !take_ge by lia. }
  constructor.
  - unfold zlen. lia.
  - intros x Hx. by rewrite (Hget _ _ Hx).
  - intros i x y Hx Hy. rewrite (Hget _ _ Hx), (Hget _ _ Hy). apply Hmono.
  - intros x Hx. rewrite (Hget _ _ Hx), take_ge by lia. done.
  - intros i x Hx. rewrite (Hget _ _ Hx). etrans; [|exact Hmax].
    rewrite <-(take_drop i buckets) at 2. rewrite concat_app, zlen_app.
    pose proof (zlen_nonneg (concat (drop i buckets))). lia.
Qed.

(** Round trip between the builder and the validator: when
    [build_offset_index] succeeds, its offsets, stored as words of any width
    that reads them back, pass [check_offset_section] for the bucket count
    and item count, and row [i] sliced from the built items is bucket [i].
    It fails exactly when some running item count does not fit the offset
    width. *)
Theorem build_offset_index_correct `{!LayoutWord W} {E T} (w : width)
    (buckets : list (list T)) :
  zlen (concat buckets) ≤ usize_max → zlen buckets + 1 ≤ usize_max →
  match build_offset_index w buckets with
  | Ok (offsets, items) =>
      items = concat buckets ∧ Forall (fits w) offsets ∧
      ∀ ws : list W, holds_values ws offsets →
        check_offset_section ws (zlen buckets) (zlen items) = Ok () ∧
        ∀ i b, buckets !! i = Some b → row (E:=E) ws items i = Ok b
  | Err (IndexOverflow value) => ¬ fits w value ∧ value ≤ zlen (concat buckets)
  | _ => False
  end.
Proof.
  intros Hmax Hn. destruct (build_offset_index w buckets) as [[offsets items]|[v]| |] eqn:Hb.
  - apply build_offset_index_Ok in Hb as (-> & -> & Hfits); [|done].
    split_and!; [done..|]. intros ws Hws.
    pose proof (running_totals_ok buckets ws Hws Hmax) as Hok. split.
    { apply check_offset_section_spec; [apply zlen_nonneg|done]. }
    intros i b Hi. destruct (row_Ok (E:=E) ws (concat buckets) (zlen buckets) i Hok)
      as (x & y & Hx & Hy & _ & _ & ->).
    { apply lookup_lt_Some in Hi. unfold zlen. lia. }
    f_equal. unfold holds_values, id_slice in Hws.
    assert (∀ j z, (j ≤ length buckets)%nat → ws !! j = Some z →
      word_get z = zlen (concat (take j buckets))) as Hget.
    { intros j z Hj Hz. pose proof (running_totals_lookup 0 buckets j Hj) as Hr.
      rewrite <-Hws, list_lookup_fmap, Hz in Hr. naive_solver lia. }
    pose proof (lookup_lt_Some _ _ _ Hi) as Hlt.
    rewrite (Hget i x), (Hget (S i) y) by (done || lia).
    rewrite (take_S_r _ _ _ Hi), concat_app, zlen_app. simpl. rewrite app_nil_r.
    replace (Z.to_nat _) with (length b) by (unfold zlen; lia).
    unfold zlen. rewrite Nat2Z.id. by apply concat_row.
  - apply build_offset_index_Err in Hb as [? []]; done.
  - assert (returns (build_offset_index w buckets)) as Hr by apply build_offset_index_returns.
    by rewrite Hb in Hr.
  - assert (returns (build_offset_index w buckets)) as Hr by apply build_offset_index_returns.
    by rewrite Hb in Hr.
Qed.
End build_validate.

(** ** Witnesses *)

(** Native [u32] words for literals of the witnesses. *)
Definition n32 (v : Z) : option (@native target64 W32) :=
  match decide (@fits target64 W32 v) with
  | left H => Some (Native v (bool_decide_pack _ H))
  | right _ => None
  end.
Definition n32s (vs : list Z) : list (@native target64 W32) := omap n32 vs.

Lemma validated_rows_tile_witness :
  @check_offset_section target64 _ _ (n32s [0; 2; 2; 3]) 3 3 = Ok () ∧
  ∃ rows, for_each (E:=()) (λ acc i, r ← @row target64 _ _ () Z (n32s [0; 2; 2; 3]) [7; 8; 9] i;
      mret (acc ++ [r])) (seq 0 (Z.to_nat 3)) [] = Ok rows ∧
    zlen rows = 3 ∧ concat rows = [7; 8; 9].
Proof.
  split; [by vm_compute|].
  apply (@validated_rows_tile target64 _ _ () Z (n32s [0; 2; 2; 3]) [7; 8; 9] 3); [lia|].
  by vm_compute.
Defined.

Lemma offset_validation_exact_witness :
  @check_offset_section target64 _ _ (n32s [0; 2; 1; 3]) 3 3 = Err (NonMonotonic 2 2 1) ∧
  ((@check_offset_section target64 _ _ (n32s [0; 2; 1; 3]) 3 3 = Ok () ∧
    3 + 1 ≤ @usize_max target64 ∧ @OffsetsOk target64 _ _ (n32s [0; 2; 1; 3]) 3 3) ∨
  (∃ issue, @check_offset_section target64 _ _ (n32s [0; 2; 1; 3]) 3 3 = Err issue ∧
    @issue_holds target64 _ _ (n32s [0; 2; 1; 3]) 3 3 issue ∧
    ¬ (3 + 1 ≤ @usize_max target64 ∧ @OffsetsOk target64 _ _ (n32s [0; 2; 1; 3]) 3 3))).
Proof.
  split; [by vm_compute|].
  apply (@offset_validation_exact target64 _ _ (n32s [0; 2; 1; 3]) 3 3). lia.
Defined.

Lemma build_offset_index_correct_witness :
  @build_offset_index target64 Z W32 [[7; 8]; []; [9]] = Ok ([0; 2; 2; 3], [7; 8; 9]) ∧
  match @build_offset_index target64 Z W32 [[7; 8]; []; [9]] with
  | Ok (offsets, items) =>
      items = [7; 8; 9] ∧ Forall (@fits target64 W32) offsets ∧
      ∀ ws : list (@native target64 W32), @holds_values target64 _ _ ws offsets →
        @check_offset_section target64 _ _ ws 3 (zlen items) = Ok () ∧
        ∀ i b, [[7; 8]; []; [9]] !! i = Some b → @row target64 _ _ () Z ws items i = Ok b
  | Err (IndexOverflow value) => ¬ @fits target64 W32 value ∧ value ≤ 3
  | _ => False
  end.
Proof.
  split; [by vm_compute|].
  apply (@build_offset_index_correct target64 (@native target64 W32) _ () Z W32
    [[7; 8]; []; [9]]); vm_compute; discriminate.
Defined.

(** ** Composite keys *)

Section keys.
Local Open Scope string_scope.

(** [key.push_str(&field.len().to_string()); key.push(':'); key.push_str(field)]. *)
Definition encode_composite_key (fields : list string) : string :=
  foldl (λ key field, key +:+ pretty (N.of_nat (String.length field)) +:+ ":" +:+ field) "" fields.

(** ** A length prefix ends at its first colon *)

Definition no_colon (s : string) : Prop := ∀ a b, s ≠ a +:+ ":" +:+ b.

Lemma string_app_assoc (a b c : string) : (a +:+ b) +:+ c = a +:+ (b +:+ c).
Proof. induction a as [|x a IH]; [done|]. apply (f_equal (String x)), IH. Qed.

Lemma string_app_nil_r (a : string) : a +:+ "" = a.
Proof. induction a as [|x a IH]; [done|]. apply (f_equal (String x)), IH. Qed.

Lemma no_colon_cons c s : c ≠ ":"%char → no_colon s → no_colon (String c s).
Proof. intros Hc Hs [|x a] b; simpl; intros [= -> ?]; [done|]. by eapply Hs. Qed.

Lemma no_colon_nil : no_colon "".
Proof. intros [|x a] b; discriminate. Qed.

Lemma pretty_go_no_colon n s : no_colon s → no_colon (pretty_N_go n s).
Proof.
  revert s. induction (N.lt_wf_0 n) as [n _ IH]; intros s Hs.
  destruct (decide (n = 0)%N) as [->|Hn]; [by rewrite pretty_N_go_0|].
  rewrite pretty_N_go_step by lia. apply IH; [apply N.div_lt; lia|].
  apply no_colon_cons; [|done]. unfold pretty_N_char. by repeat case_match.
Qed.

Lemma pretty_no_colon (n : N) : no_colon (pretty n).
Proof.
  unfold pretty, pretty_N. case_decide; [|apply pretty_go_no_colon, no_colon_nil].
  apply no_colon_cons; [done|apply no_colon_nil].
Qed.

(** Two texts cut at their first colon agree piecewise. *)
Lemma first_colon a b x y :
  no_colon a → no_colon b → a +:+ ":" +:+ x = b +:+ ":" +:+ y → a = b ∧ x = y.
Proof.
  revert b. induction a as [|c a IH]; intros [|d b] Ha Hb; simpl; intros Heq.
  - naive_solver.
  - injection Heq as <- Heq. by destruct (Hb "" b).
  - injection Heq as -> Heq. by destruct (Ha "" a).
  - injection Heq as -> Heq. destruct (IH b) as [-> ->]; [..|done]; [| |done].
    + intros p q ->. by apply (Ha (String d p) q).
    + intros p q ->. by apply (Hb (String d p) q).
Qed.

Lemma string_app_inj (a b x y : string) :
  String.length a = String.length b → a +:+ x = b +:+ y → a = b ∧ x = y.
Proof.
  revert b. induction a as [|c a IH]; intros [|d b]; simpl; try done.
  intros [= Hl] [= -> Heq]. by destruct (IH b Hl Heq) as [-> ->].
Qed.

(** The encoding field by field, from the front. *)
Fixpoint encode_fields (fields : list string) : string :=
  match fields with
  | [] => ""
  | field :: rest => pretty (N.of_nat (String.length field)) +:+ ":" +:+ field +:+ encode_fields rest
  end.

Lemma encode_composite_key_fields fields : encode_composite_key fields = encode_fields fields.
Proof.
  unfold encode_composite_key.
  cut (∀ key, foldl (λ key field,
      key +:+ pretty (N.of_nat (String.length field)) +:+ ":" +:+ field) key fields =
    key +:+ encode_fields fields); [intros Hc; by rewrite Hc|].
  induction fields as [|f fs IH]; intros key; simpl; [by rewrite string_app_nil_r|].
  rewrite IH, !string_app_assoc. done.
Qed.

Lemma encode_fields_ne f fs : encode_fields (f :: fs) ≠ "".
Proof. simpl. destruct (pretty (N.of_nat (String.length f))); discriminate. Qed.

(** [encode_composite_key] is injective in the field tuple: equal keys
    come only from equal field lists, whatever separators or digits the
    fields contain. *)
Theorem composite_key_injective (xs ys : list string) :
  encode_composite_key xs = encode_composite_key ys ↔ xs = ys.
Proof.
  split; [|by intros ->]. rewrite !encode_composite_key_fields. revert ys.
  induction xs as [|x xs IH]; intros [|y ys] Heq; [done| | |].
  - by destruct (encode_fields_ne y ys).
  - by destruct (encode_fields_ne x xs).
  - simpl in Heq. apply first_colon in Heq as [Hlen Heq]; [|apply pretty_no_colon..].
    apply (inj pretty), Nat2N.inj in Hlen.
    apply string_app_inj in Heq as [-> Hrest]; [|done]. by rewrite (IH ys Hrest).
Qed.

End keys.
