(* ===== verification/Crc.v ===== *)
(** * Crc: the software CRC-32C of [oxgraph-layout-util]

    Models [crates/oxgraph-layout-util/src/lib.rs], [build_crc32c_table] and
    [crc32c_append]: the table-driven reflected Castagnoli checksum that
    snapshot producers inject as their [Checksum32]. *)

From stdpp Require Import base gmap sets list numbers.
From S2P Require Import Prelude.

Local Open Scope Z_scope.

(** ** The checksum *)

Definition CRC_POLY : Z := 0x82F63B78.

(** One round of the inner table loop: [mask = (crc & 1).wrapping_neg()],
    [crc = (crc >> 1) ^ (POLY & mask)]. *)
Definition crc_bit (crc : Z) : Z :=
  let mask := (- Z.land crc 1) mod 2 ^ 32 in
  Z.lxor (Z.shiftr crc 1) (Z.land CRC_POLY mask).

(** [build_crc32c_table]: 256 seeds, eight rounds each, written in order. *)
Definition build_crc32c_table : list Z :=
  foldl (λ table index, <[index := Nat.iter 8 crc_bit (Z.of_nat index)]> table)
    (replicate 256 0) (seq 0 256).

Definition CRC32C_TABLE : list Z := Eval vm_compute in build_crc32c_table.

(** [!x] on [u32]. *)
Definition not32 (x : Z) : Z := Z.lxor x u32_max.

(** The loop body of [crc32c_append]. The index is a byte, so the table access
    is always in range ([crc_index_in_table]). *)
Definition crc_table_step (state : Z) (b : byte) : Z :=
  let index := Z.lxor (state mod 2 ^ 8) (byte_val b) in
  Z.lxor (Z.shiftr state 8) (default 0 (CRC32C_TABLE !! Z.to_nat index)).

Definition crc32c_append (crc : Z) (bytes : list byte) : Z :=
  not32 (foldl crc_table_step (not32 crc) bytes).

(** ** Bit-serial reference

    The CRC register shifted one bit at a time, eight times per byte. *)
Definition crc_bits (n : nat) (state : Z) : Z := Nat.iter n crc_bit state.
Arguments crc_bits : simpl never.
Definition crc_ref_step (state : Z) (b : byte) : Z := crc_bits 8 (Z.lxor state (byte_val b)).
Definition crc32c_reference (crc : Z) (bytes : list byte) : Z :=
  not32 (foldl crc_ref_step (not32 crc) bytes).

(** ** Algebra of the register *)

Definition is_u32 (x : Z) : Prop := 0 ≤ x < 2 ^ 32.

Lemma u32_land x : is_u32 x ↔ Z.land x (Z.ones 32) = x.
Proof.
  unfold is_u32. rewrite Z.land_ones by lia. split.
  - intros. by apply Z.mod_small.
  - intros <-. apply Z.mod_pos_bound. lia.
Qed.

Lemma u32_lxor x y : is_u32 x → is_u32 y → is_u32 (Z.lxor x y).
Proof.
  rewrite !u32_land. intros Hx Hy. apply Z.bits_inj'. intros n Hn.
  rewrite Z.land_spec, Z.lxor_spec, <-Hx, <-Hy, !Z.land_spec.
  by destruct (Z.testbit (Z.ones 32) n), (Z.testbit x n), (Z.testbit y n).
Qed.

Lemma u32_shiftr x n : is_u32 x → 0 ≤ n → is_u32 (Z.shiftr x n).
Proof.
  unfold is_u32. intros [H0 H1] Hn. rewrite Z.shiftr_div_pow2 by done. split.
  - apply Z.div_pos; [done|]. by apply Z.pow_pos_nonneg.
  - apply Z.div_lt_upper_bound; [by apply Z.pow_pos_nonneg|].
    assert (1 ≤ 2 ^ n) by (apply (Z.pow_le_mono_r 2 0 n); lia). nia.
Qed.

Lemma lxor_cancel x y z : Z.lxor x z = Z.lxor y z → x = y.
Proof.
  intros H. apply (f_equal (λ w, Z.lxor w z)) in H.
  by rewrite !Z.lxor_assoc, Z.lxor_nilpotent, !Z.lxor_0_r in H.
Qed.

Lemma not32_u32 x : is_u32 x → is_u32 (not32 x).
Proof. intros. apply u32_lxor; [done|]. unfold is_u32, u32_max. lia. Qed.

Lemma not32_involutive x : not32 (not32 x) = x.
Proof. unfold not32. by rewrite Z.lxor_assoc, Z.lxor_nilpotent, Z.lxor_0_r. Qed.

Lemma crc_bit_odd x : crc_bit x = Z.lxor (Z.shiftr x 1) (if Z.odd x then CRC_POLY else 0).
Proof.
  unfold crc_bit. f_equal. change 1 with (Z.ones 1) at 1. rewrite Z.land_ones by lia.
  rewrite Z.pow_1_r, Zmod_odd. by destruct (Z.odd x).
Qed.

Lemma crc_bit_lxor x y : crc_bit (Z.lxor x y) = Z.lxor (crc_bit x) (crc_bit y).
Proof.
  rewrite !crc_bit_odd, Z.shiftr_lxor, <-!Z.bit0_odd, Z.lxor_spec.
  apply Z.bits_inj'. intros n _. rewrite !Z.lxor_spec.
  destruct (Z.testbit x 0), (Z.testbit y 0); simpl; rewrite ?Z.bits_0;
    by destruct (Z.testbit (Z.shiftr x 1) n), (Z.testbit (Z.shiftr y 1) n), (Z.testbit CRC_POLY n).
Qed.

Lemma crc_bits_lxor n x y : crc_bits n (Z.lxor x y) = Z.lxor (crc_bits n x) (crc_bits n y).
Proof. unfold crc_bits. induction n as [|n IH]; [done|]. simpl. by rewrite IH, crc_bit_lxor. Qed.

Lemma crc_bits_add n m x : crc_bits (n + m) x = crc_bits n (crc_bits m x).
Proof. unfold crc_bits. induction n as [|n IH]; [done|]. simpl. by rewrite IH. Qed.

(** A register whose low [n] bits are zero only shifts. *)
Lemma crc_bits_shiftl n x : crc_bits n (Z.shiftl x (Z.of_nat n)) = x.
Proof.
  induction n as [|n IH]; [apply Z.shiftl_0_r|].
  replace (S n) with (n + 1)%nat by lia. rewrite crc_bits_add. unfold crc_bits at 2. simpl.
  rewrite crc_bit_odd. replace (Z.of_nat (n + 1)) with (Z.of_nat n + 1) by lia.
  rewrite <-Z.bit0_odd, Z.shiftl_spec, (Z.testbit_neg_r x) by lia.
  rewrite Z.lxor_0_r, <-Z.shiftl_shiftl, Z.shiftr_shiftl_l by lia. by rewrite Z.shiftl_0_r.
Qed.

Lemma crc_bit_u32 x : is_u32 x → is_u32 (crc_bit x).
Proof.
  intros Hx. rewrite crc_bit_odd. apply u32_lxor; [by apply u32_shiftr|].
  by destruct (Z.odd x).
Qed.

Lemma crc_bits_u32 n x : is_u32 x → is_u32 (crc_bits n x).
Proof. intros Hx. unfold crc_bits. induction n; simpl; auto using crc_bit_u32. Qed.

(** The polynomial's top bit makes one register step invertible. *)
Lemma crc_bit_zero x : is_u32 x → crc_bit x = 0 → x = 0.
Proof.
  intros [H0 H1] Hx. rewrite crc_bit_odd in Hx. apply Z.lxor_eq in Hx.
  rewrite Z.shiftr_div_pow2, Z.pow_1_r in Hx by lia.
  pose proof (Z.div_mod x 2). rewrite Zmod_odd in *.
  destruct (Z.odd x); unfold CRC_POLY in *; lia.
Qed.

Lemma crc_bits_inj n x y : is_u32 x → is_u32 y → crc_bits n x = crc_bits n y → x = y.
Proof.
  intros Hx Hy Heq. apply Z.lxor_eq.
  assert (crc_bits n (Z.lxor x y) = 0) as Hz by (rewrite crc_bits_lxor, Heq; apply Z.lxor_nilpotent).
  assert (is_u32 (Z.lxor x y)) as Hu by by apply u32_lxor.
  revert Hz Hu. generalize (Z.lxor x y) as z. clear. induction n as [|n IH]; intros z Hz Hu; [done|].
  apply IH; [|done]. apply crc_bit_zero; [by apply crc_bits_u32|done].
Qed.

(** ** The table *)

Lemma byte_val_u8 (b : byte) : 0 ≤ byte_val b < 2 ^ 8.
Proof. apply Byte.byte.unsigned_range. Qed.

Lemma lxor_u8 x y : 0 ≤ x < 2 ^ 8 → 0 ≤ y < 2 ^ 8 → 0 ≤ Z.lxor x y < 2 ^ 8.
Proof.
  intros Hx Hy.
  assert (Z.lxor x y = Z.lxor x y mod 2 ^ 8) as ->; [|apply Z.mod_pos_bound; lia].
  rewrite <-Z.land_ones by lia. apply Z.bits_inj'. intros n Hn.
  rewrite Z.land_spec, Z.lxor_spec, Z.testbit_ones_nonneg by lia.
  destruct (Z.ltb_spec n 8); [by rewrite andb_true_r|].
  assert (∀ z, 0 ≤ z < 2 ^ 8 → Z.testbit z n = false) as Hz.
  { intros z Hz. rewrite <-(Z.mod_small z (2 ^ 8)) by done. by apply Z.mod_pow2_bits_high. }
  by rewrite (Hz x), (Hz y).
Qed.

(** The index computed by [crc32c_append] is within the table. *)
Lemma crc_index_in_table state b :
  (Z.to_nat (Z.lxor (state mod 2 ^ 8) (byte_val b)) < length CRC32C_TABLE)%nat.
Proof.
  pose proof (lxor_u8 (state mod 2 ^ 8) (byte_val b) (Z.mod_pos_bound state (2 ^ 8) eq_refl)
    (byte_val_u8 b)).
  change (length CRC32C_TABLE) with 256%nat. lia.
Qed.

Lemma crc_table_lookup x : 0 ≤ x < 2 ^ 8 → CRC32C_TABLE !! Z.to_nat x = Some (crc_bits 8 x).
Proof.
  intros Hx. assert (CRC32C_TABLE = (λ i, crc_bits 8 (Z.of_nat i)) <$> seq 0 256) as -> by by vm_compute.
  rewrite list_lookup_fmap, lookup_seq_lt by lia. cbn. by rewrite Z2Nat.id by lia.
Qed.

Lemma split_low8 x : x = Z.lxor (Z.shiftl (Z.shiftr x 8) 8) (x mod 2 ^ 8).
Proof.
  apply Z.bits_inj'. intros n Hn. rewrite Z.lxor_spec. destruct (Z.ltb_spec n 8).
  - by rewrite Z.shiftl_spec_low, Z.mod_pow2_bits_low, xorb_false_l by lia.
  - rewrite Z.shiftl_spec, Z.shiftr_spec, Z.mod_pow2_bits_high, xorb_false_r by lia. f_equal. lia.
Qed.

Lemma crc_table_step_ref state b : crc_table_step state b = crc_ref_step state b.
Proof.
  unfold crc_table_step, crc_ref_step.
  rewrite crc_table_lookup by (apply lxor_u8; [by apply Z.mod_pos_bound|apply byte_val_u8]).
  cbn [from_option id]. 
  assert (Z.lxor state (byte_val b) =
    Z.lxor (Z.shiftl (Z.shiftr state 8) (Z.of_nat 8)) (Z.lxor (state mod 2 ^ 8) (byte_val b))) as ->.
  { rewrite <-Z.lxor_assoc. f_equal. apply split_low8. }
  by rewrite (crc_bits_lxor 8 (Z.shiftl _ _)), crc_bits_shiftl.
Qed.

Lemma crc_fold_ref state bytes :
  foldl crc_table_step state bytes = foldl crc_ref_step state bytes.
Proof. revert state. induction bytes as [|b bs IH]; intros; simpl; [done|]. by rewrite crc_table_step_ref, IH. Qed.

(** ** Bytes folded as one word *)

Lemma crc_ref_step_u32 s b : is_u32 s → is_u32 (crc_ref_step s b).
Proof.
  intros Hs. apply crc_bits_u32, u32_lxor; [done|]. pose proof (byte_val_u8 b). unfold is_u32. lia.
Qed.

Lemma crc_fold_u32 s bs : is_u32 s → is_u32 (foldl crc_ref_step s bs).
Proof. revert s. induction bs; intros; simpl; auto using crc_ref_step_u32. Qed.

Lemma le_val_cons b bs : le_val (b :: bs) = Z.lxor (byte_val b) (Z.shiftl (le_val bs) 8).
Proof.
  change (le_val (b :: bs)) with (Z.lor (byte_val b) (Z.shiftl (le_val bs) 8)).
  apply Z.bits_inj'. intros n Hn. rewrite Z.lxor_spec, Z.lor_spec.
  destruct (Z.ltb_spec n 8); [by rewrite Z.shiftl_spec_low, xorb_false_r, orb_false_r by lia|].
  rewrite <-(Z.mod_small (byte_val b) (2 ^ 8)), Z.mod_pow2_bits_high by (apply byte_val_u8 || lia).
  done.
Qed.

Lemma crc_ref_step_word s b x :
  Z.lxor (crc_ref_step s b) x = crc_bits 8 (Z.lxor s (Z.lxor (byte_val b) (Z.shiftl x 8))).
Proof.
  unfold crc_ref_step. rewrite <-Z.lxor_assoc, (crc_bits_lxor 8 _ (Z.shiftl _ _)).
  f_equal. symmetry. exact (crc_bits_shiftl 8 x).
Qed.

Lemma crc_fold_word s bs :
  foldl crc_ref_step s bs = crc_bits (8 * length bs) (Z.lxor s (le_val bs)).
Proof.
  revert s. induction bs as [|b bs IH]; intros s.
  - simpl. by rewrite LittleEndianList.le_combine_nil, Z.lxor_0_r.
  - rewrite le_val_cons. cbn [foldl]. rewrite IH, crc_ref_step_word, <-crc_bits_add.
    f_equal. rewrite length_cons. lia.
Qed.

Lemma crc_ref_step_eq s b : crc_ref_step s b = crc_bits 8 (Z.lxor s (byte_val b)).
Proof. reflexivity. Qed.

Lemma crc_ref_step_inj s s' b :
  is_u32 s → is_u32 s' → crc_ref_step s b = crc_ref_step s' b → s = s'.
Proof.
  rewrite !crc_ref_step_eq. intros Hs Hs' Heq.
  pose proof (byte_val_u8 b). assert (is_u32 (byte_val b)) by (unfold is_u32; lia).
  apply (crc_bits_inj 8 (Z.lxor s (byte_val b)) (Z.lxor s' (byte_val b))) in Heq;
    [by apply lxor_cancel in Heq|by apply u32_lxor..].
Qed.

Lemma crc_fold_state_inj s s' bs :
  is_u32 s → is_u32 s' → foldl crc_ref_step s bs = foldl crc_ref_step s' bs → s = s'.
Proof.
  revert s s'. induction bs as [|b bs IH]; intros s s' Hs Hs' Heq; [exact Heq|].
  apply (IH (crc_ref_step s b) (crc_ref_step s' b)) in Heq; [|by apply crc_ref_step_u32..].
  by apply crc_ref_step_inj in Heq.
Qed.

(** ** Properties *)

(** C1. The table-driven [crc32c_append] is the bit-serial reflected CRC-32C:
    for every seed and every byte string the table, eight unrolled rounds per
    byte, computes what shifting the register one bit at a time computes. *)
Theorem crc32c_table_correct (crc : Z) (bytes : list byte) :
  crc32c_append crc bytes = crc32c_reference crc bytes.
Proof. unfold crc32c_append, crc32c_reference. by rewrite crc_fold_ref. Qed.

Lemma crc32c_append_app crc a b : crc32c_append (crc32c_append crc a) b = crc32c_append crc (a ++ b).
Proof. unfold crc32c_append. by rewrite not32_involutive, foldl_app. Qed.

Lemma crc32c_append_nil crc : crc32c_append crc [] = crc.
Proof. apply not32_involutive. Qed.

Lemma crc32c_append_u32 crc bytes : is_u32 crc → is_u32 (crc32c_append crc bytes).
Proof. intros. unfold crc32c_append. rewrite crc_fold_ref. by apply not32_u32, crc_fold_u32, not32_u32. Qed.

(** Burst detection: replacing up to four consecutive bytes of a message by
    different bytes always changes the CRC-32C, whatever precedes and follows
    them. In particular every single-byte corruption is detected. *)
Theorem crc32c_detects_burst (crc : Z) (pre old new post : list byte) :
  is_u32 crc → length old = length new → (length old ≤ 4)%nat → old ≠ new →
  crc32c_append crc (pre ++ old ++ post) ≠ crc32c_append crc (pre ++ new ++ post).
Proof.
  intros Hcrc Hlen H4 Hne Heq. apply Hne. unfold crc32c_append in Heq.
  apply (f_equal not32) in Heq. rewrite !not32_involutive, !crc_fold_ref, !foldl_app in Heq.
  set (s := foldl crc_ref_step (not32 crc) pre) in *.
  assert (is_u32 s) as Hs by by apply crc_fold_u32, not32_u32.
  apply crc_fold_state_inj in Heq; [|by apply crc_fold_u32..].
  rewrite !crc_fold_word, Hlen in Heq.
  assert (∀ bs : list byte, (length bs ≤ 4)%nat → is_u32 (le_val bs)) as Hw.
  { intros bs Hb. pose proof (LittleEndianList.le_combine_bound bs) as [? ?]. split; [done|].
    eapply Z.lt_le_trans; [done|]. apply Z.pow_le_mono_r; lia. }
  apply crc_bits_inj in Heq; [|apply u32_lxor; [done|apply Hw; lia]..].
  rewrite !(Z.lxor_comm s) in Heq. apply lxor_cancel in Heq.
  by apply LittleEndianList.le_combine_inj.
Qed.

Lemma crc32c_detects_burst_witness :
  is_u32 0 ∧
  crc32c_append 0 [Byte.x31; Byte.x32; Byte.x33] ≠ crc32c_append 0 [Byte.x31; Byte.xff; Byte.x33].
Proof.
  split; [done|].
  apply (crc32c_detects_burst 0 [Byte.x31] [Byte.x32] [Byte.xff] [Byte.x33]); [done|done|simpl; lia|done].
Defined.

(** [CRC32C_CHECK_INPUT] and [CRC32C_CHECK_VALUE] of the snapshot crate: the
    published check vector pins polynomial, reflection and final inversion. *)
Definition CRC32C_CHECK_INPUT : list byte :=
  [Byte.x31; Byte.x32; Byte.x33; Byte.x34; Byte.x35; Byte.x36; Byte.x37; Byte.x38; Byte.x39].
Definition CRC32C_CHECK_VALUE : Z := 0xE3069283.

Lemma crc32c_check_vector : crc32c_append 0 CRC32C_CHECK_INPUT = CRC32C_CHECK_VALUE.
Proof. by vm_compute. Qed.
