(* ===== verification/Snapshot.v ===== *)
(** * Snapshot: the section container, format and reader

    Models [crates/oxgraph-snapshot/src/container.rs] from the format
    constants to [Snapshot::typed_section], with the error types of
    [container_error.rs]. The 32-byte header and the 32-byte table entries are
    the [repr(C)] field layouts of [RawHeader] and [RawSectionEntry]; their
    fields hold the decoded integers. *)

From stdpp Require Import base gmap sets list.
From S2P Require Import Prelude Bytes Layout.

Local Open Scope Z_scope.

(** ** Format constants *)

Definition FORMAT_MAGIC : list byte :=
  [Byte.x4f; Byte.x58; Byte.x47; Byte.x54; Byte.x4f; Byte.x50; Byte.x4f; Byte.x00].
Definition FORMAT_MAJOR : Z := 1.
Definition FORMAT_MINOR : Z := 0.
Definition MAX_SUPPORTED_MINOR : Z := 0.
Definition HEADER_SIZE : nat := 32.
Definition SECTION_ENTRY_SIZE : nat := 32.
Definition MAX_ALIGNMENT_LOG2 : Z := 12.
Definition MAX_SECTION_COUNT : Z := 1024.
Definition HEADER_SIZE_U32 : Z := 32.

(** [Checksum32]: a continuation-style CRC fold, injected by the caller. *)
Definition Checksum32 : Type := Z → list byte → Z.

(** *** Kind bands *)
Definition CSR_BAND : Z * Z := (0x0001, 0x0020).
Definition BCSR_BAND : Z * Z := (0x0020, 0x0100).
Definition PROPERTY_BAND : Z * Z := (0x0100, 0x0200).
Definition POSTGRES_BAND : Z * Z := (0x0200, 0x0300).
Definition DATABASE_BAND : Z * Z := (0x0300, 0x0400).
Definition CUSTOM_BASE : Z := 0x0400.
Definition in_band (kind : Z) (band : Z * Z) : bool :=
  bool_decide (band.1 ≤ kind) && bool_decide (kind < band.2).

(** ** Errors *)

Inductive SnapshotError :=
  | TruncatedHeader (needed actual : Z)
  | MalformedHeader
  | BadMagic (actual : list byte)
  | FormatMajorMismatch (actual supported : Z)
  | FormatMinorTooNew (actual max_supported : Z)
  | HeaderSizeMismatch (actual expected : Z)
  | NonZeroHeaderReserved
  | SectionCountTooLarge (count max : Z)
  | TruncatedSectionTable (needed actual : Z)
  | MalformedSectionTable
  | NonZeroEntryReserved (kind : Z)
  | UnsupportedFlags (kind flags : Z)
  | AlignmentLog2TooLarge (kind alignment_log2 : Z)
  | SectionRangeOverflow (kind : Z)
  | SectionOutOfBounds (kind offset length snapshot_len : Z)
  | UnsortedSectionTable (index : nat)
  | NonAscendingKind (kind prev : Z)
  | TableChecksumMismatch (expected actual : Z)
  | SectionChecksumMismatch (kind expected actual : Z)
  | SectionMissing (kind : Z)
  | SnapshotUsizeOverflow (value : Z).

Inductive SectionViewError :=
  | ZeroSizedType
  | LengthNotMultipleOfSize (length elem_size : Z)
  | AlignmentMismatch (ptr_addr required : Z)
  | ChecksumMismatch (kind expected actual : Z).

Inductive SectionBindError :=
  | Missing (kind : Z)
  | VersionMismatch (kind expected actual : Z)
  | View (kind : Z) (error : SectionViewError).

(** ** Wire records *)

Record RawHeader := {
  magic : list byte;
  format_major : Z;
  format_minor : Z;
  header_size : Z;
  section_count : Z;
  table_crc32c : Z;
  header_reserved : list byte
}.

Record RawSectionEntry := {
  offset : Z;
  length_ : Z;
  kind : Z;
  version : Z;
  crc32c : Z;
  alignment_log2 : Z;
  flags : Z;
  reserved : list byte
}.

Definition header_of_bytes (bs : list byte) : RawHeader := {|
  magic := field bs 0 8;
  format_major := le_val (field bs 8 4);
  format_minor := le_val (field bs 12 4);
  header_size := le_val (field bs 16 4);
  section_count := le_val (field bs 20 4);
  table_crc32c := le_val (field bs 24 4);
  header_reserved := field bs 28 4
|}.

Definition header_as_bytes (h : RawHeader) : list byte :=
  magic h ++ le_bytes 4 (format_major h) ++ le_bytes 4 (format_minor h) ++
  le_bytes 4 (header_size h) ++ le_bytes 4 (section_count h) ++
  le_bytes 4 (table_crc32c h) ++ header_reserved h.

Definition entry_of_bytes (bs : list byte) : RawSectionEntry := {|
  offset := le_val (field bs 0 8);
  length_ := le_val (field bs 8 8);
  kind := le_val (field bs 16 4);
  version := le_val (field bs 20 4);
  crc32c := le_val (field bs 24 4);
  alignment_log2 := le_val (field bs 28 1);
  flags := le_val (field bs 29 1);
  reserved := field bs 30 2
|}.

Definition entry_as_bytes (e : RawSectionEntry) : list byte :=
  le_bytes 8 (offset e) ++ le_bytes 8 (length_ e) ++ le_bytes 4 (kind e) ++
  le_bytes 4 (version e) ++ le_bytes 4 (crc32c e) ++ le_bytes 1 (alignment_log2 e) ++
  le_bytes 1 (flags e) ++ reserved e.

(** [<[RawSectionEntry]>::ref_from_bytes_with_elems(table_bytes, count)]. *)
Definition entries_of_bytes (count : nat) (bs : list byte) : list RawSectionEntry :=
  (λ i, entry_of_bytes (field bs (SECTION_ENTRY_SIZE * i) SECTION_ENTRY_SIZE)) <$> seq 0 count.

(** [<[RawSectionEntry]>::as_bytes]. *)
Definition entries_as_bytes (es : list RawSectionEntry) : list byte := es ≫= entry_as_bytes.

(** ** Header validation *)

Definition parse_header (bytes : list byte) : res SnapshotError (RawHeader * list byte) :=
  if decide (length bytes < HEADER_SIZE)%nat
  then Err (TruncatedHeader (Z.of_nat HEADER_SIZE) (zlen bytes))
  else Ok (header_of_bytes bytes, drop HEADER_SIZE bytes).

Definition validate_magic_versions_reserved (header : RawHeader) : res SnapshotError () :=
  if decide (magic header ≠ FORMAT_MAGIC) then Err (BadMagic (magic header)) else
  if decide (format_major header ≠ FORMAT_MAJOR)
  then Err (FormatMajorMismatch (format_major header) FORMAT_MAJOR) else
  if decide (MAX_SUPPORTED_MINOR < format_minor header)
  then Err (FormatMinorTooNew (format_minor header) MAX_SUPPORTED_MINOR) else
  if decide (header_size header ≠ HEADER_SIZE_U32)
  then Err (HeaderSizeMismatch (header_size header) HEADER_SIZE_U32) else
  if decide (header_reserved header ≠ replicate 4 Byte.x00) then Err NonZeroHeaderReserved else
  Ok ().

(** ** Section table validation *)

Inductive ValidationLevel := SectionTable | LayoutLevel.

#[export] Instance ValidationLevel_eq_dec : EqDecision ValidationLevel.
Proof. solve_decision. Defined.

(** Body of the always-run walk: the previous kind is the loop state. *)
Definition validate_entry (snapshot_len : Z) (prev_kind : option Z) (entry : RawSectionEntry)
    : res SnapshotError (option Z) :=
  let k := kind entry in
  _ ← match prev_kind with
      | Some prev => fail_if (bool_decide (k ≤ prev)) (NonAscendingKind k prev)
      | None => Ok ()
      end;
  _ ← fail_if (bool_decide (flags entry ≠ 0)) (UnsupportedFlags k (flags entry));
  _ ← fail_if (bool_decide (reserved entry ≠ replicate 2 Byte.x00)) (NonZeroEntryReserved k);
  _ ← fail_if (bool_decide (MAX_ALIGNMENT_LOG2 < alignment_log2 entry))
        (AlignmentLog2TooLarge k (alignment_log2 entry));
  stop ← ok_or (SectionRangeOverflow k) (checked_add u64_max (offset entry) (length_ entry));
  _ ← fail_if (bool_decide (snapshot_len < stop))
        (SectionOutOfBounds k (offset entry) (length_ entry) snapshot_len);
  mret (Some k).

(** Body of the layout walk: the state is the entry index and [prev_end]. *)
Definition validate_placement (st : nat * Z) (entry : RawSectionEntry)
    : res SnapshotError (nat * Z) :=
  let '(index, prev_end) := st in
  let stop := saturating_add u64_max (offset entry) (length_ entry) in
  _ ← fail_if (bool_decide (offset entry < prev_end)) (UnsortedSectionTable index);
  mret (S index, stop).

Definition validate_section_table (bytes : list byte) (entries : list RawSectionEntry)
    (level : ValidationLevel) : res SnapshotError () :=
  let snapshot_len := zlen bytes in
  _ ← for_each (validate_entry snapshot_len) entries None;
  if decide (level = SectionTable) then Ok () else
  header_plus_table ← ok_or (SectionRangeOverflow 0)
    (checked_add u64_max (Z.of_nat HEADER_SIZE)
       (saturating_mul u64_max (zlen entries) (Z.of_nat SECTION_ENTRY_SIZE)));
  _ ← for_each validate_placement entries (0%nat, header_plus_table);
  Ok ().

Definition table_checksum (table_bytes : list byte) (checksum : Checksum32) : Z :=
  checksum 0 table_bytes.

(** ** Handles *)

Record HeaderOnlySnapshot := {
  ho_bytes : list byte;
  ho_format_major : Z;
  ho_format_minor : Z
}.

Definition HeaderOnlySnapshot_open (bytes : list byte) : res SnapshotError HeaderOnlySnapshot :=
  '(header, _) ← parse_header bytes;
  _ ← validate_magic_versions_reserved header;
  mret {| ho_bytes := bytes; ho_format_major := format_major header;
          ho_format_minor := format_minor header |}.

(** A [Section] view; [sec_addr] is the address of its payload pointer. *)
Record Section_ := {
  payload : list byte;
  sec_addr : Z;
  sec_kind : Z;
  sec_version : Z;
  sec_crc32c : Z;
  sec_alignment_log2 : Z
}.

(** A [Snapshot] handle; [sn_addr] is the address of its first byte. *)
Record Snapshot := {
  sn_bytes : list byte;
  sn_addr : Z;
  sn_format_major : Z;
  sn_format_minor : Z;
  sn_table_crc32c : Z;
  entries : list RawSectionEntry
}.

Section reader.
Context `{!Target}.

Definition u64_to_usize_validated {E} (value : Z) : res E Z :=
  or_panic (try_into usize_max value).

(** [Section::from_entry]; [offset + length] is a [usize] sum. *)
Definition from_entry {E} (bytes : list byte) (addr : Z) (entry : RawSectionEntry)
    : res E Section_ :=
  off ← u64_to_usize_validated (offset entry);
  len ← u64_to_usize_validated (length_ entry);
  stop ← or_panic (checked_add usize_max off len);
  data ← vslice bytes (Z.to_nat off) (Z.to_nat stop);
  mret {| payload := data; sec_addr := addr + off; sec_kind := kind entry;
          sec_version := version entry; sec_crc32c := crc32c entry;
          sec_alignment_log2 := alignment_log2 entry |}.

Definition declared_alignment (s : Section_) : Z := Z.shiftl 1 (sec_alignment_log2 s).

Definition verify (s : Section_) (checksum : Checksum32) : res SectionViewError () :=
  let actual := checksum 0 (payload s) in
  if decide (actual = sec_crc32c s) then Ok ()
  else Err (ChecksumMismatch (sec_kind s) (sec_crc32c s) actual).

(** [Section::try_as_slice::<T>] for a [T] of [elem_size] bytes and alignment
    [required]: the payload cut into elements. *)
Definition try_as_slice (s : Section_) (elem_size : nat) (required : Z)
    : res SectionViewError (list (list byte)) :=
  let len := length (payload s) in
  if decide (elem_size = 0%nat) then Err ZeroSizedType else
  if decide (len mod elem_size ≠ 0)%nat
  then Err (LengthNotMultipleOfSize (Z.of_nat len) (Z.of_nat elem_size)) else
  if decide (sec_addr s mod required ≠ 0) then Err (AlignmentMismatch (sec_addr s) required) else
  let count := (len / elem_size)%nat in
  Ok ((λ i, field (payload s) (elem_size * i) elem_size) <$> seq 0 count).

Definition open_with (bytes : list byte) (addr : Z) (level : ValidationLevel)
    : res SnapshotError Snapshot :=
  '(header, after_header) ← parse_header bytes;
  _ ← validate_magic_versions_reserved header;
  let count := section_count header in
  _ ← fail_if (bool_decide (MAX_SECTION_COUNT < count)) (SectionCountTooLarge count MAX_SECTION_COUNT);
  count_usize ← ok_or (SnapshotUsizeOverflow count) (try_into usize_max count);
  table_len ← ok_or (SectionCountTooLarge count MAX_SECTION_COUNT)
    (checked_mul usize_max count_usize (Z.of_nat SECTION_ENTRY_SIZE));
  _ ← fail_if (bool_decide (zlen after_header < table_len))
        (TruncatedSectionTable table_len (zlen after_header));
  table_bytes ← vslice after_header 0 (Z.to_nat table_len);
  let es := entries_of_bytes (Z.to_nat count_usize) table_bytes in
  _ ← validate_section_table bytes es level;
  mret {| sn_bytes := bytes; sn_addr := addr; sn_format_major := format_major header;
          sn_format_minor := format_minor header; sn_table_crc32c := table_crc32c header;
          entries := es |}.

Definition open (bytes : list byte) (addr : Z) : res SnapshotError Snapshot :=
  open_with bytes addr LayoutLevel.

Definition open_checked (bytes : list byte) (addr : Z) (checksum : Checksum32)
    : res SnapshotError Snapshot :=
  snapshot ← open bytes addr;
  let actual := table_checksum (entries_as_bytes (entries snapshot)) checksum in
  if decide (actual ≠ sn_table_crc32c snapshot)
  then Err (TableChecksumMismatch (sn_table_crc32c snapshot) actual)
  else Ok snapshot.

Definition Snapshot_section_count (s : Snapshot) : nat := length (entries s).

(** [SectionIter]: the sections in table order. *)
Definition sections {E} (s : Snapshot) : res E (list Section_) :=
  for_each (λ acc entry,
    sec ← from_entry (sn_bytes s) (sn_addr s) entry; mret (acc ++ [sec])) (entries s) [].

Definition verify_all (s : Snapshot) (checksum : Checksum32) : res SnapshotError () :=
  for_each (λ _ entry,
    sec ← from_entry (sn_bytes s) (sn_addr s) entry;
    let actual := checksum 0 (payload sec) in
    if decide (actual ≠ sec_crc32c sec)
    then Err (SectionChecksumMismatch (sec_kind sec) (sec_crc32c sec) actual) else Ok ())
    (entries s) ().

(** Index of a kind in the table: [binary_search_by] over the entry kinds. *)
Definition kind_index (es : list RawSectionEntry) (k : Z) : option nat :=
  binary_search (length es) (λ i, Z.compare (default 0 (kind <$> es !! i)) k).

Definition section {E} (s : Snapshot) (k : Z) : res E (option Section_) :=
  match kind_index (entries s) k with
  | Some index =>
      entry ← vget (entries s) index;
      sec ← from_entry (sn_bytes s) (sn_addr s) entry;
      mret (Some sec)
  | None => Ok None
  end.

(** Alignment 1 and the word size of [U16<LE>], [U32<LE>] and [U64<LE>]. *)
Definition typed_section (sw : swidth) (s : Snapshot) (k expected_version : Z)
    : res SectionBindError (list (le_word sw)) :=
  found ← (section s k : res SectionBindError (option Section_));
  sec ← (ok_or (Missing k) found : res SectionBindError Section_);
  if decide (sec_version sec ≠ expected_version)
  then Err (VersionMismatch k expected_version (sec_version sec)) else
  chunks ← (map_err (View k) (try_as_slice sec (swidth_size sw) 1)
    : res SectionBindError (list (list byte)));
  Ok (map (λ c, to_le_word sw (le_val c)) chunks).

End reader.
