(* ===== verification/SnapshotFacts.v ===== *)
(** * SnapshotFacts: the reader's theorems

    Codec round trips of the wire records, the exact meaning of section-table
    validation, and the safety of every accessor of an opened snapshot. *)

From stdpp Require Import base gmap sets list sorting.
From S2P Require Import Prelude Bytes Layout Snapshot.

Local Open Scope Z_scope.

(** ** Record codecs *)

Record header_wf (h : RawHeader) : Prop := {
  hw_magic : length (magic h) = 8%nat;
  hw_major : is_uint 32 (format_major h);
  hw_minor : is_uint 32 (format_minor h);
  hw_size : is_uint 32 (header_size h);
  hw_count : is_uint 32 (section_count h);
  hw_crc : is_uint 32 (table_crc32c h);
  hw_reserved : length (header_reserved h) = 4%nat
}.

Record entry_wf (e : RawSectionEntry) : Prop := {
  ew_offset : is_uint 64 (offset e);
  ew_length : is_uint 64 (length_ e);
  ew_kind : is_uint 32 (kind e);
  ew_version : is_uint 32 (version e);
  ew_crc : is_uint 32 (crc32c e);
  ew_align : is_uint 8 (alignment_log2 e);
  ew_flags : is_uint 8 (flags e);
  ew_reserved : length (reserved e) = 2%nat
}.


Lemma length_header_as_bytes h : header_wf h → length (header_as_bytes h) = HEADER_SIZE.
Proof. intros []. unfold header_as_bytes. rewrite !length_app, !length_le_bytes, hw_magic0, hw_reserved0. done. Qed.

Lemma length_entry_as_bytes e : entry_wf e → length (entry_as_bytes e) = SECTION_ENTRY_SIZE.
Proof. intros []. unfold entry_as_bytes. rewrite !length_app, !length_le_bytes, ew_reserved0. done. Qed.

Lemma header_codec h rest : header_wf h → header_of_bytes (header_as_bytes h ++ rest) = h.
Proof.
  intros [Hm ?????Hr]. destruct h as [m ma mi hs sc tc r].
  unfold header_of_bytes, header_as_bytes. cbn [magic format_major format_minor
    header_size section_count table_crc32c header_reserved] in *. rewrite <-!app_assoc.
  f_equal; solve_field.
Qed.

Lemma entry_codec e : entry_wf e → entry_of_bytes (entry_as_bytes e) = e.
Proof.
  intros [???????Hr]. destruct e as [o l k v c a f r].
  unfold entry_of_bytes, entry_as_bytes. cbn [offset length_ kind version crc32c
    alignment_log2 flags reserved] in *.
  f_equal; solve_field.
Qed.

(** A record decoded from bytes encodes back to them. *)
Lemma entry_codec_back bs : length bs = SECTION_ENTRY_SIZE → entry_as_bytes (entry_of_bytes bs) = bs.
Proof.
  intros Hl. unfold entry_as_bytes, entry_of_bytes. cbn [offset length_ kind version
    crc32c alignment_log2 flags reserved].
  rewrite !bytes_8 by (unfold SECTION_ENTRY_SIZE in Hl; lia).
  rewrite (field_split bs 29 1 30 2) by done. rewrite (field_split bs 28 1 29) by done.
  rewrite (field_split bs 24 4 28) by done. rewrite (field_split bs 20 4 24) by done.
  rewrite (field_split bs 16 4 20) by done. rewrite (field_split bs 8 8 16) by done.
  rewrite (field_split bs 0 8 8) by done. by apply field_full.
Qed.

Lemma header_codec_back bs : length bs = HEADER_SIZE → header_as_bytes (header_of_bytes bs) = bs.
Proof.
  intros Hl. unfold header_as_bytes, header_of_bytes. cbn [magic format_major format_minor
    header_size section_count table_crc32c header_reserved].
  rewrite !bytes_8 by (unfold HEADER_SIZE in Hl; lia).
  rewrite (field_split bs 24 4 28) by done. rewrite (field_split bs 20 4 24) by done.
  rewrite (field_split bs 16 4 20) by done. rewrite (field_split bs 12 4 16) by done.
  rewrite (field_split bs 8 4 12) by done. rewrite (field_split bs 0 8 8) by done.
  by apply field_full.
Qed.

Lemma header_of_bytes_wf bs : length bs = HEADER_SIZE → header_wf (header_of_bytes bs).
Proof.
  intros Hl. unfold HEADER_SIZE in Hl.
  constructor; cbn [magic format_major format_minor header_size section_count table_crc32c header_reserved];
    first [apply length_field; lia|apply (le_val_field _ _ 4)].
Qed.

Lemma entry_of_bytes_wf bs : length bs = SECTION_ENTRY_SIZE → entry_wf (entry_of_bytes bs).
Proof.
  intros Hl. constructor; cbn [offset length_ kind version crc32c alignment_log2 flags reserved];
    [apply (le_val_field _ _ 8)|apply (le_val_field _ _ 8)|apply (le_val_field _ _ 4)
    |apply (le_val_field _ _ 4)|apply (le_val_field _ _ 4)|apply (le_val_field _ _ 1)
    |apply (le_val_field _ _ 1)|].
  apply length_field. unfold SECTION_ENTRY_SIZE in Hl. lia.
Qed.

(** ** The entry table as bytes *)

Lemma length_entries_as_bytes es :
  Forall entry_wf es → length (entries_as_bytes es) = (SECTION_ENTRY_SIZE * length es)%nat.
Proof.
  induction 1 as [|e es He _ IH]; [done|]. unfold entries_as_bytes in *. cbn [mbind list_bind].
  rewrite length_app, IH, (length_entry_as_bytes e He), length_cons. lia.
Qed.

Lemma entries_codec es rest :
  Forall entry_wf es → entries_of_bytes (length es) (entries_as_bytes es ++ rest) = es.
Proof.
  unfold entries_of_bytes, entries_as_bytes. induction 1 as [|e es He Hes IH]; [done|].
  cbn [length seq fmap list_fmap mbind list_bind]. rewrite <-app_assoc. f_equal.
  - rewrite Nat.mul_0_r, field_head by by apply length_entry_as_bytes. by apply entry_codec.
  - rewrite <-fmap_S_seq, <-list_fmap_compose. etrans; [|exact IH].
    apply list_fmap_ext. intros _ i _. unfold compose. f_equal.
    rewrite field_skip with (m := SECTION_ENTRY_SIZE);
      [|by apply length_entry_as_bytes|lia]. f_equal. lia.
Qed.

Lemma length_entries_of_bytes n bs : length (entries_of_bytes n bs) = n.
Proof. unfold entries_of_bytes. by rewrite length_fmap, length_seq. Qed.

Lemma entries_of_bytes_wf n bs :
  (SECTION_ENTRY_SIZE * n ≤ length bs)%nat → Forall entry_wf (entries_of_bytes n bs).
Proof.
  intros Hl. apply Forall_fmap, Forall_forall. intros i Hi%elem_of_seq. simpl.
  apply entry_of_bytes_wf, length_field. unfold SECTION_ENTRY_SIZE in *. lia.
Qed.

Lemma entries_codec_back n bs :
  length bs = (SECTION_ENTRY_SIZE * n)%nat → entries_as_bytes (entries_of_bytes n bs) = bs.
Proof.
  intros Hl. unfold entries_as_bytes, entries_of_bytes.
  cut (∀ m, (m ≤ n)%nat → ((λ i, entry_of_bytes (field bs (SECTION_ENTRY_SIZE * i) SECTION_ENTRY_SIZE))
      <$> seq 0 m) ≫= entry_as_bytes = take (SECTION_ENTRY_SIZE * m) bs).
  { intros Hc. rewrite Hc by done. apply take_ge. lia. }
  induction m as [|m IH]; intros Hm; [by rewrite Nat.mul_0_r|].
  rewrite seq_S, fmap_app, bind_app, IH by lia. cbn [fmap list_fmap mbind list_bind Nat.add].
  rewrite app_nil_r, entry_codec_back by (apply length_field; unfold SECTION_ENTRY_SIZE in *; lia).
  unfold field. rewrite take_take_drop. f_equal. lia.
Qed.

(** ** The meaning of section-table validation *)

Record EntryOk (snapshot_len : Z) (e : RawSectionEntry) : Prop := {
  ok_flags : flags e = 0;
  ok_reserved : reserved e = replicate 2 Byte.x00;
  ok_align : alignment_log2 e ≤ MAX_ALIGNMENT_LOG2;
  ok_range : offset e + length_ e ≤ u64_max;
  ok_bounds : offset e + length_ e ≤ snapshot_len
}.

(** Kinds strictly ascend, every entry is well-formed and inside the file,
    payloads start behind the table and follow each other without overlap. *)
Record TableOk (snapshot_len : Z) (es : list RawSectionEntry) : Prop := {
  tk_kinds : StronglySorted (λ a b, kind a < kind b) es;
  tk_entries : Forall (EntryOk snapshot_len) es;
  tk_behind : Forall (λ e, Z.of_nat HEADER_SIZE + zlen es * Z.of_nat SECTION_ENTRY_SIZE ≤ offset e) es;
  tk_placed : StronglySorted (λ a b, offset a + length_ a ≤ offset b) es
}.

Definition kind_after (prev : option Z) (e : RawSectionEntry) : Prop :=
  match prev with Some p => p < kind e | None => True end.

Lemma validate_entry_Ok L prev e r :
  validate_entry L prev e = Ok r ↔ kind_after prev e ∧ EntryOk L e ∧ r = Some (kind e).
Proof.
  unfold validate_entry. rewrite bind_Ok_inv. split.
  - intros ([] & Hk & ([] & Hf%fail_if_Ok & ([] & Hr%fail_if_Ok & ([] & Ha%fail_if_Ok &
      (stop & [Hs ->]%ok_or_Ok%checked_add_Some & ([] & Hb%fail_if_Ok & [= <-])%bind_Ok_inv
      )%bind_Ok_inv)%bind_Ok_inv)%bind_Ok_inv)%bind_Ok_inv).
    apply bool_decide_eq_false in Hf, Hr, Ha, Hb.
    split_and!; [|constructor; try done; try (by apply dec_stable); lia|done].
    destruct prev as [p|]; [|done]. simpl in *. res_inv. apply bool_decide_eq_false in Hk. lia.
  - intros (Hk & [Hf Hr Ha Ho Hb] & ->). exists (). split.
    { destruct prev; [|done]. simpl in Hk. rewrite bool_decide_false by lia. done. }
    rewrite !bool_decide_false by (try tauto; lia). simpl. unfold checked_add.
    rewrite try_into_fits by done. simpl. by rewrite bool_decide_false by lia.
Qed.

(** The always-run walk, as facts about the whole table. *)
Lemma validate_entries_Ok L prev es :
  (∃ r, for_each (validate_entry L) es prev = Ok r) ↔
  Forall (kind_after prev) es ∧ StronglySorted (λ a b, kind a < kind b) es ∧ Forall (EntryOk L) es.
Proof.
  revert prev. induction es as [|e es IH]; intros prev; [simpl; naive_solver eauto using SSorted_nil|].
  simpl. split.
  - intros (r & (r1 & (Hk & He & ->)%validate_entry_Ok & Hrest)%bind_Ok_inv).
    destruct (proj1 (IH _) (ex_intro _ r Hrest)) as (Hka & Hs & Hf). simpl in Hka.
    split_and!; [constructor; [done|]|constructor; done|constructor; done].
    eapply Forall_impl; [exact Hka|]. intros x Hx. destruct prev; simpl in *; [lia|done].
  - intros (Hk & Hs & Hf). inversion Hk; inversion Hs; inversion Hf; subst.
    destruct (proj2 (IH (Some (kind e)))) as [r Hr]; [done|].
    exists r. apply bind_Ok_inv. exists (Some (kind e)).
    split; [by apply validate_entry_Ok|done].
Qed.

Lemma validate_placement_Ok st e r :
  validate_placement st e = Ok r ↔
  st.2 ≤ offset e ∧ r = (S st.1, saturating_add u64_max (offset e) (length_ e)).
Proof.
  destruct st as [i p]. unfold validate_placement. rewrite bind_Ok_inv. simpl. split.
  - intros ([] & H & [= <-]). apply fail_if_Ok, bool_decide_eq_false in H. naive_solver lia.
  - intros [H ->]. exists (). rewrite bool_decide_false by lia. done.
Qed.

Lemma validate_placements_Ok i prev es :
  Forall (λ e, offset e + length_ e ≤ u64_max ∧ 0 ≤ length_ e) es →
  (∃ r, for_each validate_placement es (i, prev) = Ok r) ↔
  Forall (λ e, prev ≤ offset e) es ∧ StronglySorted (λ a b, offset a + length_ a ≤ offset b) es.
Proof.
  intros Hwf. revert i prev. induction Hwf as [|e es [He He'] Hes IH]; intros i prev;
    [simpl; naive_solver eauto using SSorted_nil|].
  assert (saturating_add u64_max (offset e) (length_ e) = offset e + length_ e) as Hsat
    by (unfold saturating_add; lia).
  cbn [for_each]. split.
  - intros (r & (r1 & (Hk & ->)%validate_placement_Ok & Hrest)%bind_Ok_inv). simpl in *.
    rewrite Hsat in Hrest. destruct (proj1 (IH _ _) (ex_intro _ r Hrest)) as (Hka & Hs).
    split; constructor; try done. eapply Forall_impl; [exact Hka|]. simpl. lia.
  - intros (Hk & Hs). inversion Hk; inversion Hs; subst.
    destruct (proj2 (IH (S i) (offset e + length_ e))) as [r Hr]; [done|].
    exists r. apply bind_Ok_inv. exists (S i, offset e + length_ e).
    split; [|done]. apply validate_placement_Ok. simpl. by rewrite Hsat.
Qed.

Lemma entries_range L es :
  Forall (EntryOk L) es → Forall entry_wf es →
  Forall (λ e, offset e + length_ e ≤ u64_max ∧ 0 ≤ length_ e) es.
Proof. rewrite !Forall_forall. intros He Hw x Hx. destruct (He x Hx), (ew_length _ (Hw x Hx)). done. Qed.

Lemma validate_section_table_Ok bytes es :
  Forall entry_wf es → zlen es ≤ MAX_SECTION_COUNT →
  validate_section_table bytes es LayoutLevel = Ok () ↔ TableOk (zlen bytes) es.
Proof.
  intros Hwf Hcount. pose proof (zlen_nonneg es) as Hnn.
  unfold MAX_SECTION_COUNT in Hcount. unfold validate_section_table.
  assert (checked_add u64_max (Z.of_nat HEADER_SIZE)
      (saturating_mul u64_max (zlen es) (Z.of_nat SECTION_ENTRY_SIZE)) =
    Some (Z.of_nat HEADER_SIZE + zlen es * Z.of_nat SECTION_ENTRY_SIZE)) as Hht.
  { apply checked_add_Some. unfold saturating_mul, u64_max, HEADER_SIZE, SECTION_ENTRY_SIZE. lia. }
  rewrite Hht, bind_Ok_inv. simpl ok_or. rewrite decide_False by done. split.
  - intros (r & He & (? & [= <-] & (p & Hp & _)%bind_Ok_inv)%bind_Ok_inv).
    destruct (proj1 (validate_entries_Ok _ _ _) (ex_intro _ r He)) as (_ & Hs & Hf).
    destruct (proj1 (validate_placements_Ok 0 _ es (entries_range _ _ Hf Hwf)) (ex_intro _ p Hp)) as [Hb Hpl].
    by constructor.
  - intros [Hk He Hb Hp].
    destruct (proj2 (validate_entries_Ok (zlen bytes) None es)) as [r Hr].
    { split_and!; [|done|done]. apply Forall_true. done. }
    destruct (proj2 (validate_placements_Ok 0 (Z.of_nat HEADER_SIZE + zlen es * Z.of_nat SECTION_ENTRY_SIZE)
      es (entries_range _ _ He Hwf))) as [p Hpl]; [done|].
    exists r. split; [done|]. simpl. apply bind_Ok_inv. by exists p.
Qed.

(** ** What [open] accepts *)

Definition file_entries (bytes : list byte) : list RawSectionEntry :=
  let n := Z.to_nat (section_count (header_of_bytes bytes)) in
  entries_of_bytes n (field bytes HEADER_SIZE (SECTION_ENTRY_SIZE * n)).

Record FileOk (bytes : list byte) : Prop := {
  fo_len : (HEADER_SIZE ≤ length bytes)%nat;
  fo_magic : magic (header_of_bytes bytes) = FORMAT_MAGIC;
  fo_major : format_major (header_of_bytes bytes) = FORMAT_MAJOR;
  fo_minor : format_minor (header_of_bytes bytes) ≤ MAX_SUPPORTED_MINOR;
  fo_header_size : header_size (header_of_bytes bytes) = HEADER_SIZE_U32;
  fo_reserved : header_reserved (header_of_bytes bytes) = replicate 4 Byte.x00;
  fo_count : section_count (header_of_bytes bytes) ≤ MAX_SECTION_COUNT;
  fo_table : Z.of_nat HEADER_SIZE + section_count (header_of_bytes bytes) * Z.of_nat SECTION_ENTRY_SIZE
             ≤ zlen bytes;
  fo_entries : TableOk (zlen bytes) (file_entries bytes)
}.

Definition opened (bytes : list byte) (addr : Z) : Snapshot := {|
  sn_bytes := bytes; sn_addr := addr;
  sn_format_major := format_major (header_of_bytes bytes);
  sn_format_minor := format_minor (header_of_bytes bytes);
  sn_table_crc32c := table_crc32c (header_of_bytes bytes);
  entries := file_entries bytes
|}.

Lemma section_count_bound bytes : is_uint 32 (section_count (header_of_bytes bytes)).
Proof. apply (le_val_field bytes 20 4). Qed.

Lemma file_entries_wf bytes :
  Z.of_nat HEADER_SIZE + section_count (header_of_bytes bytes) * Z.of_nat SECTION_ENTRY_SIZE
    ≤ zlen bytes → Forall entry_wf (file_entries bytes).
Proof.
  intros H. pose proof (section_count_bound bytes) as [? _].
  apply entries_of_bytes_wf. rewrite length_field; [done|]. unfold zlen in H. lia.
Qed.

Lemma validate_header_Ok h :
  validate_magic_versions_reserved h = Ok () ↔
  magic h = FORMAT_MAGIC ∧ format_major h = FORMAT_MAJOR ∧ format_minor h ≤ MAX_SUPPORTED_MINOR ∧
  header_size h = HEADER_SIZE_U32 ∧ header_reserved h = replicate 4 Byte.x00.
Proof.
  unfold validate_magic_versions_reserved.
  repeat case_decide; split; intros; destruct_and?; try done; try lia.
  split_and!; first [done|lia].
Qed.

Lemma parse_header_Ok bytes h rest :
  parse_header bytes = Ok (h, rest) ↔
  (HEADER_SIZE ≤ length bytes)%nat ∧ h = header_of_bytes bytes ∧ rest = drop HEADER_SIZE bytes.
Proof. unfold parse_header. case_decide; naive_solver lia. Qed.

Section reader_facts.
Context `{!Target}.

Lemma open_exact_lemma bytes addr s :
  open bytes addr = Ok s ↔ FileOk bytes ∧ s = opened bytes addr.
Proof.
  pose proof usize_max_bounds as Hus. pose proof (section_count_bound bytes) as [Hc0 _].
  unfold open, open_with. split.
  - intros ([h rest] & (Hl & -> & ->)%parse_header_Ok & ([] & Hh%validate_header_Ok &
      ([] & Hc%fail_if_Ok%bool_decide_eq_false & (n & [_ ->]%ok_or_Ok%try_into_Some &
      (tl & [_ ->]%ok_or_Ok%checked_mul_Some & ([] & Ht%fail_if_Ok%bool_decide_eq_false &
      (tb & [[_ Hsl] ->]%vslice_Ok & ([] & Hv & <-%Ok_inj)%bind_Ok_inv)%bind_Ok_inv)%bind_Ok_inv
      )%bind_Ok_inv)%bind_Ok_inv)%bind_Ok_inv)%bind_Ok_inv)%bind_Ok_inv.
    unfold zlen in Ht. rewrite length_drop in Ht, Hsl.
    assert (take (Z.to_nat (section_count (header_of_bytes bytes) * Z.of_nat SECTION_ENTRY_SIZE) - 0)
        (drop 0 (drop HEADER_SIZE bytes)) =
      field bytes HEADER_SIZE (SECTION_ENTRY_SIZE * Z.to_nat (section_count (header_of_bytes bytes)))) as Htb.
    { unfold field. rewrite drop_0. f_equal. lia. }
    rewrite Htb in Hv |- *. split; [|reflexivity].
    assert (Z.of_nat HEADER_SIZE + section_count (header_of_bytes bytes) * Z.of_nat SECTION_ENTRY_SIZE
      ≤ zlen bytes) by (unfold zlen; lia).
    apply validate_section_table_Ok in Hv; [| |].
    + constructor; try (apply Hh); try done; lia.
    + by apply file_entries_wf.
    + unfold zlen. rewrite length_entries_of_bytes. lia.
  - intros [[Hl Hm Hma Hmi Hhs Hr Hc Ht He] ->].
    apply bind_Ok_inv. exists (header_of_bytes bytes, drop HEADER_SIZE bytes).
    split; [by apply parse_header_Ok|]. apply bind_Ok_inv. exists ().
    split; [by apply validate_header_Ok|].
    unfold MAX_SECTION_COUNT, HEADER_SIZE, SECTION_ENTRY_SIZE in *.
    apply bind_Ok_inv. exists (). split; [apply fail_if_Ok, bool_decide_eq_false; lia|].
    apply bind_Ok_inv. exists (section_count (header_of_bytes bytes)).
    split; [apply ok_or_Ok, try_into_fits; lia|].
    apply bind_Ok_inv. eexists. split; [apply ok_or_Ok, checked_mul_Some; split; [lia|done]|].
    apply bind_Ok_inv. exists (). split.
    { apply fail_if_Ok, bool_decide_eq_false. unfold zlen in *. rewrite length_drop. lia. }
    apply bind_Ok_inv. exists (field bytes HEADER_SIZE (SECTION_ENTRY_SIZE * Z.to_nat (section_count (header_of_bytes bytes)))).
    split.
    { apply vslice_Ok. split; [split; [lia|]|].
      - unfold zlen in *. rewrite length_drop. lia.
      - unfold field. rewrite drop_0. f_equal. unfold SECTION_ENTRY_SIZE. lia. }
    apply bind_Ok_inv. exists (). split; [|done].
    apply validate_section_table_Ok; [by apply file_entries_wf|
      unfold zlen; rewrite length_entries_of_bytes; unfold MAX_SECTION_COUNT; lia|done].
Qed.

Lemma returns_validate_section_table bytes es level :
  returns (validate_section_table bytes es level).
Proof.
  unfold validate_section_table. apply returns_bind.
  { apply returns_for_each. intros p e _. unfold validate_entry. destruct p;
    repeat (apply returns_bind; [auto with oxg; by case_match|intros ? _]); done. }
  intros r _. case_decide; [done|]. apply returns_bind; [auto with oxg|]. intros p _.
  apply returns_bind; [|done]. apply returns_for_each. intros [i q] e _.
  apply returns_bind; auto with oxg.
Qed.

Lemma returns_open bytes addr : returns (open bytes addr).
Proof.
  pose proof (section_count_bound bytes) as [Hc0 _]. unfold open, open_with.
  apply returns_bind; [unfold parse_header; by case_decide|].
  intros [h rest] (Hl & -> & ->)%parse_header_Ok.
  apply returns_bind; [unfold validate_magic_versions_reserved; by repeat case_decide|]. intros _ _.
  apply returns_bind; [apply returns_fail_if|]. intros _ _.
  apply returns_bind; [apply returns_ok_or|]. intros n [_ ->]%ok_or_Ok%try_into_Some.
  apply returns_bind; [apply returns_ok_or|]. intros tl [_ ->]%ok_or_Ok%checked_mul_Some.
  apply returns_bind; [apply returns_fail_if|]. intros _ Ht%fail_if_Ok%bool_decide_eq_false.
  apply returns_bind.
  { unfold vslice. rewrite decide_True; [done|]. unfold zlen in Ht. lia. }
  intros tb _. apply returns_bind; [apply returns_validate_section_table|done].
Qed.

(** *** Accessors of an opened snapshot *)

Definition entry_section (bytes : list byte) (addr : Z) (e : RawSectionEntry) : Section_ := {|
  payload := field bytes (Z.to_nat (offset e)) (Z.to_nat (length_ e));
  sec_addr := addr + offset e; sec_kind := kind e; sec_version := version e;
  sec_crc32c := crc32c e; sec_alignment_log2 := alignment_log2 e
|}.

Lemma from_entry_Ok {E} bytes addr e :
  zlen bytes ≤ usize_max → entry_wf e → EntryOk (zlen bytes) e →
  from_entry (E:=E) bytes addr e = Ok (entry_section bytes addr e).
Proof.
  intros Hus Hwf [_ _ _ _ Hb]. destruct (ew_offset _ Hwf) as [Ho _], (ew_length _ Hwf) as [Hl _].
  unfold from_entry, u64_to_usize_validated, checked_add.
  rewrite !try_into_fits by lia. cbn [or_panic mbind res_bind].
  rewrite try_into_fits by lia. cbn [or_panic mbind res_bind]. unfold vslice.
  rewrite decide_True by (unfold zlen in Hb; lia). cbn [mbind res_bind mret res_ret].
  unfold entry_section, field. do 3 f_equal. lia.
Qed.

Lemma length_entry_payload bytes addr e :
  entry_wf e → EntryOk (zlen bytes) e → zlen (payload (entry_section bytes addr e)) = length_ e.
Proof.
  intros Hwf [_ _ _ _ Hb]. destruct (ew_offset _ Hwf) as [Ho _], (ew_length _ Hwf) as [Hl _].
  unfold zlen in *. cbn [payload entry_section]. rewrite length_field; lia.
Qed.

(** What [open] guarantees, in the form the accessors use. *)
Record SnapshotOk (s : Snapshot) : Prop := {
  so_fits : zlen (sn_bytes s) ≤ usize_max;
  so_table : TableOk (zlen (sn_bytes s)) (entries s);
  so_wf : Forall entry_wf (entries s)
}.

Lemma open_SnapshotOk bytes addr s :
  zlen bytes ≤ usize_max → open bytes addr = Ok s → SnapshotOk s.
Proof.
  intros Hus [[] ->]%open_exact_lemma. constructor; [done..|]. by apply file_entries_wf.
Qed.

Lemma SnapshotOk_from_entry {E} s e :
  SnapshotOk s → e ∈ entries s →
  from_entry (E:=E) (sn_bytes s) (sn_addr s) e = Ok (entry_section (sn_bytes s) (sn_addr s) e).
Proof.
  intros [Hf [_ Ht _ _] Hw] He. rewrite Forall_forall in Ht, Hw. apply from_entry_Ok; auto.
Qed.

Lemma SnapshotOk_sections {E} s :
  SnapshotOk s →
  sections (E:=E) s = Ok (entry_section (sn_bytes s) (sn_addr s) <$> entries s).
Proof.
  intros Hs. unfold sections.
  destruct (for_each_inv (E:=E) (λ pre acc, acc = entry_section (sn_bytes s) (sn_addr s) <$> pre)
    (λ acc entry, sec ← from_entry (sn_bytes s) (sn_addr s) entry; mret (acc ++ [sec])) (entries s) [])
    as (acc & Hacc & ->); [done| |done].
  intros pre x post acc Heq ->. rewrite SnapshotOk_from_entry by (done || rewrite Heq; set_solver).
  eexists. split; [done|]. by rewrite fmap_app.
Qed.

Lemma SnapshotOk_kinds_mono s i j ei ej :
  SnapshotOk s → entries s !! i = Some ei → entries s !! j = Some ej → (i < j)%nat →
  kind ei < kind ej.
Proof.
  intros [_ [Hk _ _ _] _] Hi Hj Hij. rewrite StronglySorted_lookup in Hk. by eapply (Hk i j).
Qed.

Lemma SnapshotOk_kind_unique s i j ei ej :
  SnapshotOk s → entries s !! i = Some ei → entries s !! j = Some ej → kind ei = kind ej → i = j.
Proof.
  intros Hs Hi Hj Hk. destruct (Nat.lt_trichotomy i j) as [Hl|[Hl|Hl]]; [|done|].
  - pose proof (SnapshotOk_kinds_mono _ _ _ _ _ Hs Hi Hj Hl). lia.
  - pose proof (SnapshotOk_kinds_mono _ _ _ _ _ Hs Hj Hi Hl). lia.
Qed.

Lemma kind_index_spec s k i :
  SnapshotOk s →
  kind_index (entries s) k = Some i ↔ ∃ e, entries s !! i = Some e ∧ kind e = k.
Proof.
  intros Hs. unfold kind_index.
  rewrite (binary_search_spec (λ i, default 0 (kind <$> entries s !! i)) k); [split|].
  - intros [[e He]%lookup_lt_is_Some_2 Hk]. exists e. by rewrite He in Hk.
  - intros (e & He & <-). split; [by eapply lookup_lt_Some|]. by rewrite He.
  - intros a b Hab [eb Hb]%lookup_lt_is_Some_2.
    destruct (lookup_lt_is_Some_2 (entries s) a) as [ea Ha].
    { apply lookup_lt_Some in Hb. lia. }
    rewrite Ha, Hb. simpl. by eapply SnapshotOk_kinds_mono.
Qed.

(** *** The reader's contract *)

(** C2. [Snapshot::open] never panics and never loops, on any bytes: it returns
    a snapshot or a typed error, and it returns a snapshot exactly for the
    well-formed files, the snapshot being the decoded header and table. *)
Theorem open_correct bytes addr :
  returns (open bytes addr) ∧
  ∀ s, open bytes addr = Ok s ↔ FileOk bytes ∧ s = opened bytes addr.
Proof. split; [apply returns_open|intros s; apply open_exact_lemma]. Qed.

(** On an opened snapshot the section iterator never panics: it returns one
    view per table entry, in strictly ascending kind order, each payload has
    exactly the entry's length, and the byte ranges lie behind the table,
    inside the file, in table order without overlap. *)
Theorem opened_sections_safe bytes addr s :
  zlen bytes ≤ usize_max → open bytes addr = Ok s →
  ∃ secs, sections (E:=SnapshotError) s = Ok secs ∧
    secs = entry_section bytes addr <$> entries s ∧
    Forall2 (λ sec e, sec_kind sec = kind e ∧ zlen (payload sec) = length_ e ∧
      Z.of_nat HEADER_SIZE + zlen (entries s) * Z.of_nat SECTION_ENTRY_SIZE ≤ offset e ∧
      offset e + length_ e ≤ zlen bytes) secs (entries s) ∧
    (∀ i j ei ej, (i < j)%nat → entries s !! i = Some ei → entries s !! j = Some ej →
      kind ei < kind ej ∧ offset ei + length_ ei ≤ offset ej).
Proof.
  intros Hus Hopen. pose proof (open_SnapshotOk _ _ _ Hus Hopen) as Hs.
  apply open_exact_lemma in Hopen as [_ ->].
  exists (entry_section bytes addr <$> file_entries bytes).
  split; [by apply SnapshotOk_sections|]. split; [done|].
  destruct Hs as [_ [Hk He Hb Hp] Hw]. split.
  - apply Forall2_fmap_l. apply Forall_Forall2_diag. rewrite Forall_forall in *. intros e Hin.
    split_and!; [done|apply length_entry_payload; auto|by apply Hb|apply (ok_bounds _ _ (He e Hin))].
  - intros i j ei ej Hij Hi Hj. rewrite StronglySorted_lookup in Hk, Hp. split; [by eapply Hk|by eapply Hp].
Qed.

(** Section lookup by kind (a binary search of the table) never panics on an
    opened snapshot and is exact: it finds the section of the one entry that has
    the kind, and finds nothing exactly when no entry has it. *)
Theorem section_lookup_exact bytes addr s k :
  zlen bytes ≤ usize_max → open bytes addr = Ok s →
  (∀ sec, section (E:=SnapshotError) s k = Ok (Some sec) ↔
    ∃ e, e ∈ entries s ∧ kind e = k ∧ sec = entry_section bytes addr e) ∧
  (section (E:=SnapshotError) s k = Ok None ↔ ∀ e, e ∈ entries s → kind e ≠ k) ∧
  returns (section (E:=SnapshotError) s k).
Proof.
  intros Hus Hopen. pose proof (open_SnapshotOk _ _ _ Hus Hopen) as Hs.
  pose proof Hopen as [_ Heq]%open_exact_lemma.
  unfold section. destruct (kind_index (entries s) k) as [i|] eqn:Hi.
  - apply (kind_index_spec s k i Hs) in Hi as (e & He & Hk).
    assert (e ∈ entries s) as Hin by by eapply list_elem_of_lookup_2.
    unfold vget. rewrite He. cbn [or_panic mbind res_bind]. rewrite SnapshotOk_from_entry by done.
    cbn [mbind res_bind mret res_ret]. subst s. cbn [sn_bytes sn_addr opened]. split; [|split; [|done]].
    + intros sec. split; [intros [= <-]; by exists e|].
      intros (e' & [j Hj]%list_elem_of_lookup & Hk' & ->). do 2 f_equal.
      assert (j = i) as ->; [|by simplify_eq].
      eapply SnapshotOk_kind_unique; [done..|]. by rewrite Hk'.
    + split; [done|]. intros Hno. by destruct (Hno e Hin).
  - assert (∀ e, e ∈ entries s → kind e ≠ k) as Hno.
    { intros e [j Hj]%list_elem_of_lookup Hk.
      assert (kind_index (entries s) k = Some j) by (apply kind_index_spec; eauto). congruence. }
    split; [|split; [done|done]]. intros sec. split; [done|]. intros (e & He & Hk & _).
    by destruct (Hno e He).
Qed.

(** Checking every payload reports the first section whose checksum differs. *)
Lemma verify_all_spec s checksum :
  SnapshotOk s →
  verify_all s checksum = Ok () ↔
  ∀ e, e ∈ entries s → checksum 0 (field (sn_bytes s) (Z.to_nat (offset e)) (Z.to_nat (length_ e))) = crc32c e.
Proof.
  intros Hs. unfold verify_all.
  assert (∀ l, l ⊆ entries s →
    for_each (λ (_ : ()) entry,
      sec ← from_entry (sn_bytes s) (sn_addr s) entry;
      let actual := checksum 0 (payload sec) in
      if decide (actual ≠ sec_crc32c sec)
      then Err (SectionChecksumMismatch (sec_kind sec) (sec_crc32c sec) actual) else Ok ()) l () = Ok ()
    ↔ ∀ e, e ∈ l → checksum 0 (field (sn_bytes s) (Z.to_nat (offset e)) (Z.to_nat (length_ e))) = crc32c e) as Hl.
  { induction l as [|e l IH]; intros Hsub; [set_solver|]. cbn [for_each].
    rewrite SnapshotOk_from_entry by (done || set_solver). cbn [mbind res_bind].
    cbn [payload sec_crc32c entry_section]. cbv zeta. case_decide as Hc; cbn [mbind res_bind].
    - split; [done|]. intros Hall. destruct Hc. apply Hall. set_solver.
    - rewrite IH by set_solver. set_solver. }
  by apply Hl.
Qed.

End reader_facts.

(** ** A concrete file: two sections of kinds 1 and 7 *)

Definition demo_file : list byte :=
  header_as_bytes {| magic := FORMAT_MAGIC; format_major := 1; format_minor := 0;
    header_size := 32; section_count := 2; table_crc32c := 0;
    header_reserved := replicate 4 Byte.x00 |} ++
  entry_as_bytes {| offset := 96; length_ := 3; kind := 1; version := 1; crc32c := 0;
    alignment_log2 := 0; flags := 0; reserved := replicate 2 Byte.x00 |} ++
  entry_as_bytes {| offset := 100; length_ := 4; kind := 7; version := 2; crc32c := 0;
    alignment_log2 := 2; flags := 0; reserved := replicate 2 Byte.x00 |} ++
  [Byte.x01; Byte.x02; Byte.x03; Byte.x00; Byte.x0a; Byte.x00; Byte.x00; Byte.x00].

Lemma demo_file_opens : @open target64 demo_file 4096 = Ok (opened demo_file 4096).
Proof. vm_compute. reflexivity. Qed.

Lemma opened_sections_safe_witness :
  ∃ secs, @sections target64 SnapshotError (opened demo_file 4096) = Ok secs ∧ length secs = 2%nat.
Proof.
  destruct (@opened_sections_safe target64 demo_file 4096 (opened demo_file 4096)) as (secs & Hs & -> & _).
  - vm_compute. discriminate.
  - exact demo_file_opens.
  - eexists. split; [exact Hs|]. vm_compute. reflexivity.
Defined.

Lemma section_lookup_exact_witness :
  @section target64 SnapshotError (opened demo_file 4096) 3 = Ok None ∧
  (∀ sec, @section target64 SnapshotError (opened demo_file 4096) 7 = Ok (Some sec) ↔
    ∃ e, e ∈ entries (opened demo_file 4096) ∧ kind e = 7 ∧ sec = entry_section demo_file 4096 e).
Proof.
  destruct (@section_lookup_exact target64 demo_file 4096 (opened demo_file 4096) 7
    ltac:(vm_compute; discriminate) demo_file_opens) as [Hsec _].
  split; [vm_compute; reflexivity|exact Hsec].
Defined.
