(* ===== verification/SnapshotWrite.v ===== *)
(** * SnapshotWrite: the encoders of the section container

    Models the writing half of [crates/oxgraph-snapshot/src/container.rs]:
    [SnapshotPlan] (size, then write into a caller's buffer), [SnapshotWriter]
    with its streaming [SectionSink], and [patch_section_crc]. A method that
    takes [&mut self] returns the new value; a sink owns its writer until [end]
    or a drop gives it back. *)

From stdpp Require Import base gmap sets list sorting.
From S2P Require Import Prelude Bytes Layout Snapshot SnapshotFacts.

Local Open Scope Z_scope.

Inductive PlanError :=
  | BufferTooSmall (needed actual : Z)
  | AlignmentTooLarge (alignment_log2 : Z)
  | PayloadOverflow
  | TooManySections (count : Z)
  | PlanNonAscendingKind (kind prev : Z).

Record PendingSection := {
  p_kind : Z;
  p_version : Z;
  p_alignment_log2 : Z;
  p_payload : list byte
}.

(** A plan is the validated slice of pending sections. *)
Record SnapshotPlan := { plan_sections : list PendingSection }.

Record SnapshotWriter := {
  buf : list byte;
  w_entries : list RawSectionEntry;
  max_sections : Z;
  w_checksum : Checksum32
}.

Record SectionSink := {
  writer : SnapshotWriter;
  start : Z;
  s_kind : Z;
  s_version : Z;
  s_crc : Z;
  s_alignment_log2 : Z
}.

Section writing.
Context `{!Target}.

(** ** Plans *)

Definition plan_check (prev_kind : option Z) (section : PendingSection)
    : res PlanError (option Z) :=
  if decide (MAX_ALIGNMENT_LOG2 < p_alignment_log2 section)
  then Err (AlignmentTooLarge (p_alignment_log2 section)) else
  match prev_kind with
  | Some prev =>
      if decide (p_kind section ≤ prev) then Err (PlanNonAscendingKind (p_kind section) prev)
      else Ok (Some (p_kind section))
  | None => Ok (Some (p_kind section))
  end.

Definition SnapshotPlan_new (sections : list PendingSection) : res PlanError SnapshotPlan :=
  if decide (MAX_SECTION_COUNT < zlen sections) then Err (TooManySections (zlen sections)) else
  _ ← for_each plan_check sections None;
  mret {| plan_sections := sections |}.

(** [added & !mask] on a [usize]. *)
Definition align_up_checked (value alignment_log2 : Z) : res PlanError Z :=
  let alignment := Z.shiftl 1 alignment_log2 in
  let mask := alignment - 1 in
  added ← ok_or PayloadOverflow (checked_add usize_max value mask);
  mret (Z.land added (Z.lxor usize_max mask)).

Definition encoded_len_step (total : Z) (section : PendingSection) : res PlanError Z :=
  total ← align_up_checked total (p_alignment_log2 section);
  ok_or PayloadOverflow (checked_add usize_max total (zlen (p_payload section))).

Definition encoded_len (plan : SnapshotPlan) : res PlanError Z :=
  table_len ← ok_or PayloadOverflow
    (checked_mul usize_max (zlen (plan_sections plan)) (Z.of_nat SECTION_ENTRY_SIZE));
  total ← ok_or PayloadOverflow (checked_add usize_max (Z.of_nat HEADER_SIZE) table_len);
  total ← for_each encoded_len_step (plan_sections plan) total;
  _ ← ok_or PayloadOverflow (try_into u64_max total);
  mret total.

Definition header_for (count table_crc : Z) : RawHeader := {|
  magic := FORMAT_MAGIC; format_major := FORMAT_MAJOR; format_minor := FORMAT_MINOR;
  header_size := HEADER_SIZE_U32; section_count := count; table_crc32c := table_crc;
  header_reserved := replicate 4 Byte.x00
|}.

(** Body of the write walk; the state is [index], [cursor] and [prefix]. *)
Definition write_section (checksum : Checksum32) (st : nat * Z * list byte)
    (section : PendingSection) : res PlanError (nat * Z * list byte) :=
  let '(index, cursor, prefix) := st in
  cursor ← align_up_checked cursor (p_alignment_log2 section);
  payload_end ← ok_or PayloadOverflow
    (checked_add usize_max cursor (zlen (p_payload section)));
  offset_u64 ← ok_or PayloadOverflow (try_into u64_max cursor);
  length_u64 ← ok_or PayloadOverflow (try_into u64_max (zlen (p_payload section)));
  let entry := {|
    offset := offset_u64; length_ := length_u64; kind := p_kind section;
    version := p_version section; crc32c := checksum 0 (p_payload section);
    alignment_log2 := p_alignment_log2 section; flags := 0;
    reserved := replicate 2 Byte.x00 |} in
  product ← ok_or PayloadOverflow
    (checked_mul usize_max (Z.of_nat index) (Z.of_nat SECTION_ENTRY_SIZE));
  entry_offset ← ok_or PayloadOverflow
    (checked_add usize_max (Z.of_nat HEADER_SIZE) product);
  prefix ← vcopy prefix (Z.to_nat entry_offset) (entry_as_bytes entry);
  prefix ← vcopy prefix (Z.to_nat cursor) (p_payload section);
  mret (S index, payload_end, prefix).

(** Returns the new contents of [out] with the count of written bytes. *)
Definition write_into (plan : SnapshotPlan) (out : list byte) (checksum : Checksum32)
    : res PlanError (list byte * Z) :=
  needed ← encoded_len plan;
  if decide (zlen out < needed) then Err (BufferTooSmall needed (zlen out)) else
  let prefix := replicate (Z.to_nat needed) Byte.x00 in
  section_count_u32 ← ok_or (TooManySections (zlen (plan_sections plan)))
    (try_into u32_max (zlen (plan_sections plan)));
  table_len ← ok_or PayloadOverflow
    (checked_mul usize_max (zlen (plan_sections plan)) (Z.of_nat SECTION_ENTRY_SIZE));
  payload_start ← ok_or PayloadOverflow
    (checked_add usize_max (Z.of_nat HEADER_SIZE) table_len);
  '(_, _, prefix) ← for_each (write_section checksum) (plan_sections plan)
    (0%nat, payload_start, prefix);
  table ← vslice prefix HEADER_SIZE (Z.to_nat payload_start);
  let table_crc := table_checksum table checksum in
  prefix ← vcopy prefix 0 (header_as_bytes (header_for section_count_u32 table_crc));
  mret (prefix ++ drop (Z.to_nat needed) out, needed).

(** ** The streaming writer *)

Definition with_payload_capacity (max_secs payload_capacity : Z) (checksum : Checksum32)
    : res PlanError SnapshotWriter :=
  if decide (MAX_SECTION_COUNT < max_secs) then Err (TooManySections max_secs) else
  table_len ← ok_or PayloadOverflow
    (checked_mul usize_max max_secs (Z.of_nat SECTION_ENTRY_SIZE));
  reserved ← ok_or PayloadOverflow (checked_add usize_max (Z.of_nat HEADER_SIZE) table_len);
  _ ← vec_with_capacity (saturating_add usize_max reserved payload_capacity);
  b ← vec_resize [] reserved Byte.x00;
  mret {| buf := b; w_entries := []; max_sections := max_secs; w_checksum := checksum |}.

Definition SnapshotWriter_new (max_secs : Z) (checksum : Checksum32)
    : res PlanError SnapshotWriter :=
  with_payload_capacity max_secs 0 checksum.

Definition begin_section (w : SnapshotWriter) (k v align : Z) : res PlanError SectionSink :=
  if decide (MAX_ALIGNMENT_LOG2 < align) then Err (AlignmentTooLarge align) else
  if decide (max_sections w ≤ zlen (w_entries w))
  then Err (TooManySections (zlen (w_entries w) + 1)) else
  _ ← match last (w_entries w) with
      | Some prior =>
          let prev := kind prior in
          if decide (k ≤ prev) then Err (PlanNonAscendingKind k prev) else Ok ()
      | None => Ok ()
      end;
  aligned ← align_up_checked (zlen (buf w)) align;
  b ← vec_resize (buf w) aligned Byte.x00;
  mret {| writer := {| buf := b; w_entries := w_entries w; max_sections := max_sections w;
                       w_checksum := w_checksum w |};
          start := aligned; s_kind := k; s_version := v; s_crc := 0; s_alignment_log2 := align |}.

Definition write (s : SectionSink) (bytes : list byte) : res PlanError SectionSink :=
  let w := writer s in
  let crc := w_checksum w (s_crc s) bytes in
  b ← vec_extend (buf w) bytes;
  mret {| writer := {| buf := b; w_entries := w_entries w; max_sections := max_sections w;
                       w_checksum := w_checksum w |};
          start := start s; s_kind := s_kind s; s_version := s_version s; s_crc := crc;
          s_alignment_log2 := s_alignment_log2 s |}.

(** [write_typed]: the records' bytes. *)
Definition write_typed (s : SectionSink) (records : list (list byte)) : res PlanError SectionSink :=
  write s (concat records).

(** [SectionSink::end]; the subtraction is a [usize] one. *)
Definition sink_end (s : SectionSink) : res PlanError SnapshotWriter :=
  let w := writer s in
  off ← ok_or PayloadOverflow (try_into u64_max (start s));
  len ← (if decide (zlen (buf w) < start s) then Panic
         else ok_or PayloadOverflow (try_into u64_max (zlen (buf w) - start s)));
  mret {| buf := buf w;
          w_entries := w_entries w ++ [{| offset := off; length_ := len; kind := s_kind s;
            version := s_version s; crc32c := s_crc s; alignment_log2 := s_alignment_log2 s;
            flags := 0; reserved := replicate 2 Byte.x00 |}];
          max_sections := max_sections w; w_checksum := w_checksum w |}.

Definition section_bytes (w : SnapshotWriter) (k v align : Z) (bytes : list byte)
    : res PlanError SnapshotWriter :=
  sink ← begin_section w k v align;
  sink ← write sink bytes;
  sink_end sink.

(** [section_typed::<T>] for a [T] of power-of-two [alignment]. *)
Definition section_typed (w : SnapshotWriter) (k v alignment : Z) (records : list (list byte))
    : res PlanError SnapshotWriter :=
  align ← ok_or (AlignmentTooLarge u8_max) (try_into u8_max (Z.log2 alignment));
  sink ← begin_section w k v align;
  sink ← write_typed sink records;
  sink_end sink.

Definition section_little_endian (sw : swidth) (w : SnapshotWriter) (k v : Z)
    (words : list (le_word sw)) : res PlanError SnapshotWriter :=
  section_typed w k v 1 (word_bytes <$> words).

Definition section_widths (sw : swidth) (w : SnapshotWriter) (k v : Z) (values : list Z)
    : res PlanError SnapshotWriter :=
  section_little_endian sw w k v (slice_to_le sw values).

Definition finish_entry (st : nat * list byte) (entry : RawSectionEntry)
    : res PlanError (nat * list byte) :=
  let '(index, b) := st in
  b ← vcopy b (HEADER_SIZE + index * SECTION_ENTRY_SIZE) (entry_as_bytes entry);
  mret (S index, b).

Definition finish (w : SnapshotWriter) : res PlanError (list byte) :=
  _ ← ok_or PayloadOverflow (try_into u64_max (zlen (buf w)));
  count ← ok_or (TooManySections (zlen (w_entries w))) (try_into u32_max (zlen (w_entries w)));
  '(_, b) ← for_each finish_entry (w_entries w) (0%nat, buf w);
  let table_end := (HEADER_SIZE + length (w_entries w) * SECTION_ENTRY_SIZE)%nat in
  table ← vslice b HEADER_SIZE table_end;
  let table_crc := table_checksum table (w_checksum w) in
  vcopy b 0 (header_as_bytes (header_for count table_crc)).

(** ** Patching a section's checksum in encoded bytes *)

Definition ENTRY_CRC_OFFSET : nat := 24.
Definition HEADER_CRC_OFFSET : nat := 24.

Definition patch_section_crc (bytes : list byte) (k : Z) (checksum : Checksum32)
    : res SnapshotError (list byte) :=
  snapshot ← open bytes 0;
  index ← (ok_or (SectionMissing k) (kind_index (entries snapshot) k) : res SnapshotError nat);
  entry ← vget (entries snapshot) index;
  sec ← from_entry (sn_bytes snapshot) (sn_addr snapshot) entry;
  let entry_offset := (HEADER_SIZE + index * SECTION_ENTRY_SIZE)%nat in
  let payload_crc := checksum 0 (payload sec) in
  let count := length (entries snapshot) in
  bytes ← vcopy bytes (entry_offset + ENTRY_CRC_OFFSET)%nat (le_bytes 4 payload_crc);
  let table_end := (HEADER_SIZE + count * SECTION_ENTRY_SIZE)%nat in
  table ← vslice bytes HEADER_SIZE table_end;
  let table_crc := table_checksum table checksum in
  vcopy bytes HEADER_CRC_OFFSET (le_bytes 4 table_crc).

End writing.
