(* ===== verification/SnapshotWriteFacts.v ===== *)
(** * SnapshotWriteFacts: the encoders' theorems

    Every writer reached through the API finishes into a file that opens and
    whose checksums verify; a plan's sections come back from the bytes it
    writes; the streaming writer and the plan produce the same bytes; patching
    restores the checksums of an edited file. *)

From stdpp Require Import base gmap sets list sorting.
From S2P Require Import Prelude Bytes Layout Crc Snapshot SnapshotFacts SnapshotWrite.

Local Open Scope Z_scope.

(** ** The checksum the caller injects *)

(** A CRC fold over [u32] that continues: what [Checksum32]'s documentation asks. *)
Class Checksum32Laws (checksum : Checksum32) : Prop := {
  ck_u32 c bs : is_uint 32 c → is_uint 32 (checksum c bs);
  ck_app c a b : checksum (checksum c a) b = checksum c (a ++ b);
  ck_nil : checksum 0 [] = 0
}.

(** ** Alignment *)

Lemma land_high_mask n k a :
  0 ≤ k ≤ n → 0 ≤ a < 2 ^ n → Z.land a (Z.lxor (2 ^ n - 1) (2 ^ k - 1)) = 2 ^ k * (a / 2 ^ k).
Proof.
  intros Hk Ha. rewrite !Z.sub_1_r, <-!Z.ones_equiv, Z.mul_comm, <-Z.shiftr_div_pow2, <-Z.shiftl_mul_pow2 by lia.
  apply Z.bits_inj'. intros i Hi.
  rewrite Z.land_spec, Z.lxor_spec, Z.shiftl_spec by done.
  destruct (Z.lt_ge_cases i k).
  - rewrite !Z.ones_spec_low, (Z.testbit_neg_r _ (i - k)) by lia. by rewrite andb_false_r.
  - rewrite Z.shiftr_spec, Z.sub_add, (Z.ones_spec_high k) by lia.
    destruct (Z.lt_ge_cases i n).
    + rewrite Z.ones_spec_low by lia. by rewrite andb_true_r.
    + rewrite Z.ones_spec_high by lia. rewrite andb_false_r. symmetry.
      destruct (decide (a = 0)) as [->|]; [apply Z.testbit_0_l|].
      apply Z.bits_above_log2; [lia|]. apply Z.log2_lt_pow2; [lia|].
      eapply Z.lt_le_trans; [apply Ha|]. apply Z.pow_le_mono_r; lia.
Qed.

Definition align_up (v k : Z) : Z := 2 ^ k * ((v + (2 ^ k - 1)) / 2 ^ k).

Lemma align_up_bounds v k : 0 ≤ k → v ≤ align_up v k < v + 2 ^ k.
Proof.
  intros Hk. assert (0 < 2 ^ k) by (apply Z.pow_pos_nonneg; lia). unfold align_up.
  pose proof (Z.div_mod (v + (2 ^ k - 1)) (2 ^ k) ltac:(lia)).
  pose proof (Z.mod_pos_bound (v + (2 ^ k - 1)) (2 ^ k) ltac:(lia)). lia.
Qed.

Lemma align_up_mod v k : 0 ≤ k → align_up v k mod 2 ^ k = 0.
Proof. intros Hk. unfold align_up. rewrite Z.mul_comm. apply Z.mod_mul. pose proof (Z.pow_pos_nonneg 2 k). lia. Qed.

Section facts.
Context `{!Target}.

Lemma align_up_checked_Ok v k r :
  0 ≤ v → 0 ≤ k ≤ MAX_ALIGNMENT_LOG2 →
  align_up_checked v k = Ok r ↔ v + (2 ^ k - 1) ≤ usize_max ∧ r = align_up v k.
Proof.
  unfold MAX_ALIGNMENT_LOG2. intros Hv Hk. assert (0 < 2 ^ k) by (apply Z.pow_pos_nonneg; lia).
  assert (12 ≤ usize_bits) by (destruct usize_bits_cases as [->|[->| ->]]; lia).
  unfold align_up_checked. rewrite Z.shiftl_1_l, bind_Ok_inv. split.
  - intros (x & [Hx ->]%ok_or_Ok%checked_add_Some & <-%Ok_inj). split; [done|].
    unfold usize_max in *. apply land_high_mask; lia.
  - intros [Hx ->]. eexists. split; [by apply ok_or_Ok, checked_add_Some|].
    cbn [mret res_ret]. f_equal. unfold usize_max in *. apply land_high_mask; lia.
Qed.

Lemma returns_align_up v k : returns (align_up_checked v k).
Proof. unfold align_up_checked. apply returns_bind; auto with oxg. Qed.

(** ** The invariant of a writer and of an open sink *)

Definition table_room (w : SnapshotWriter) : Z :=
  Z.of_nat HEADER_SIZE + max_sections w * Z.of_nat SECTION_ENTRY_SIZE.

(** What a recorded entry says of the buffer; [lo] is where payloads start. *)
Record Recorded (checksum : Checksum32) (lo : Z) (b : list byte) (e : RawSectionEntry) : Prop := {
  rc_wf : entry_wf e;
  rc_ok : EntryOk (zlen b) e;
  rc_lo : lo ≤ offset e;
  rc_align : offset e mod 2 ^ alignment_log2 e = 0;
  rc_crc : crc32c e = checksum 0 (field b (Z.to_nat (offset e)) (Z.to_nat (length_ e)))
}.

Record WriterInv (w : SnapshotWriter) : Prop := {
  wi_max : 0 ≤ max_sections w ≤ MAX_SECTION_COUNT;
  wi_count : zlen (w_entries w) ≤ max_sections w;
  wi_buf : table_room w ≤ zlen (buf w) ≤ isize_max;
  wi_recorded : Forall (Recorded (w_checksum w) (table_room w) (buf w)) (w_entries w);
  wi_kinds : StronglySorted (λ a b, kind a < kind b) (w_entries w);
  wi_placed : StronglySorted (λ a b, offset a + length_ a ≤ offset b) (w_entries w)
}.

Record SinkInv (s : SectionSink) : Prop := {
  si_writer : WriterInv (writer s);
  si_room : zlen (w_entries (writer s)) < max_sections (writer s);
  si_start : table_room (writer s) ≤ start s ≤ zlen (buf (writer s));
  si_aligned : start s mod 2 ^ s_alignment_log2 s = 0;
  si_align : 0 ≤ s_alignment_log2 s ≤ MAX_ALIGNMENT_LOG2;
  si_kind : is_uint 32 (s_kind s);
  si_version : is_uint 32 (s_version s);
  si_after : Forall (λ e, kind e < s_kind s ∧ offset e + length_ e ≤ start s) (w_entries (writer s));
  si_crc : s_crc s = w_checksum (writer s) 0 (drop (Z.to_nat (start s)) (buf (writer s)))
}.

(** Recorded entries stay recorded when the buffer grows. *)
Lemma Recorded_app checksum lo b x e :
Recorded checksum lo b e → Recorded checksum lo (b ++ x) e.
Proof.
  intros [Hw [Hf Hr Ha Ho Hb] Hlo Hal Hc].
  destruct (ew_offset _ Hw) as [? _], (ew_length _ Hw) as [? _].
  constructor; try done.
  - constructor; try done. rewrite zlen_app. pose proof (zlen_nonneg x). lia.
  - rewrite field_app_l; [done|]. unfold zlen in Hb. lia.
Qed.

Lemma resize_grow {A} (l : list A) n x :
  zlen l ≤ n → resize (Z.to_nat n) x l = l ++ replicate (Z.to_nat n - length l) x.
Proof. unfold zlen. intros ?. apply resize_ge. lia. Qed.

Lemma WriterInv_grow w x :
  WriterInv w → zlen (buf w ++ x) ≤ isize_max →
  WriterInv {| buf := buf w ++ x; w_entries := w_entries w; max_sections := max_sections w;
               w_checksum := w_checksum w |}.
Proof.
  intros [Hm Hc Hb Hr Hk Hp] Hx. constructor; cbn [max_sections w_entries buf w_checksum]; try done.
  - unfold table_room in *. cbn [max_sections]. rewrite zlen_app in *. pose proof (zlen_nonneg x). lia.
  - eapply Forall_impl; [exact Hr|]. intros e He. by apply Recorded_app.
Qed.

Lemma with_payload_capacity_inv max_secs cap checksum w :
  0 ≤ max_secs → with_payload_capacity max_secs cap checksum = Ok w →
  WriterInv w ∧ w_checksum w = checksum ∧ max_sections w = max_secs ∧ w_entries w = [] ∧
  buf w = replicate (Z.to_nat (table_room w)) Byte.x00.
Proof.
  intros H0. unfold with_payload_capacity. case_decide as Hm; [done|].
  intros (tl & [_ ->]%ok_or_Ok%checked_mul_Some & (rs & [_ ->]%ok_or_Ok%checked_add_Some &
    (? & _ & (b & [Hb ->]%vec_resize_Ok & <-%Ok_inj)%bind_Ok_inv)%bind_Ok_inv)%bind_Ok_inv)%bind_Ok_inv.
  rewrite resize_nil. split; [|done].
  constructor; cbn [max_sections w_entries buf w_checksum]; try done; try constructor; try lia.
  all: unfold table_room, zlen; cbn [max_sections]; rewrite length_replicate; lia.
Qed.

Lemma begin_section_inv w k v align s :
  WriterInv w → Checksum32Laws (w_checksum w) → is_uint 32 k → is_uint 32 v → 0 ≤ align →
  begin_section w k v align = Ok s →
  SinkInv s ∧ w_checksum (writer s) = w_checksum w ∧ w_entries (writer s) = w_entries w ∧
  max_sections (writer s) = max_sections w ∧
  start s = align_up (zlen (buf w)) align ∧ s_kind s = k ∧ s_version s = v ∧
  s_alignment_log2 s = align ∧
  buf (writer s) = buf w ++ replicate (Z.to_nat (start s) - length (buf w)) Byte.x00.
Proof.
  intros Hw Hck Hk Hv Hal. unfold begin_section. case_decide as Hmax; [done|].
  case_decide as Hcnt; [done|].
  intros ([] & Hlast & (r & [_ ->]%align_up_checked_Ok & (b & [Hb ->]%vec_resize_Ok & <-%Ok_inj
    )%bind_Ok_inv)%bind_Ok_inv)%bind_Ok_inv; [|apply zlen_nonneg|lia].
  pose proof (align_up_bounds (zlen (buf w)) align Hal) as Hup.
  rewrite resize_grow by lia. split; [|done].
  pose proof (WriterInv_grow w (replicate (Z.to_nat (align_up (zlen (buf w)) align) - length (buf w)) Byte.x00) Hw) as Hw'.
  assert (zlen (buf w ++ replicate (Z.to_nat (align_up (zlen (buf w)) align) - length (buf w)) Byte.x00)
    = align_up (zlen (buf w)) align) as Hlen.
  { rewrite zlen_app. unfold zlen in *. rewrite length_replicate. lia. }
  constructor; cbn [writer start s_kind s_version s_crc s_alignment_log2 w_entries max_sections buf w_checksum].
  - apply Hw'. lia.
  - lia.
  - rewrite Hlen. destruct Hw as [_ _ Hbuf _ _ _]. unfold table_room in *. cbn [max_sections]. lia.
  - by apply align_up_mod.
  - lia.
  - done.
  - done.
  - apply Forall_forall. intros e He. destruct Hw as [_ _ _ Hr Hks Hpl].
    rewrite Forall_forall in Hr. destruct (rc_ok _ _ _ _ (Hr e He)). split; [|lia].
    destruct (last (w_entries w)) as [l|] eqn:Hl;
      [|apply last_None in Hl; rewrite Hl in He; by apply not_elem_of_nil in He].
    case_decide; [done|]. apply last_Some in Hl as [l' Hl]. rewrite Hl in He, Hks.
    apply elem_of_app in He as [He| ->%list_elem_of_singleton]; [|lia].
    assert (kind e < kind l); [|lia].
    apply (StronglySorted_app_1_elem_of (λ a b, kind a < kind b) l' [l] e l); [done..|set_solver].
  - rewrite drop_ge; [symmetry; apply ck_nil|]. unfold zlen in *. lia.
Qed.

Lemma write_inv s bytes s' :
  SinkInv s → Checksum32Laws (w_checksum (writer s)) → write s bytes = Ok s' →
  SinkInv s' ∧ buf (writer s') = buf (writer s) ++ bytes ∧
  w_checksum (writer s') = w_checksum (writer s) ∧ w_entries (writer s') = w_entries (writer s) ∧
  max_sections (writer s') = max_sections (writer s) ∧ start s' = start s ∧ s_kind s' = s_kind s ∧
  s_version s' = s_version s ∧ s_alignment_log2 s' = s_alignment_log2 s.
Proof.
  intros [Hw Hr Hs Had Hal Hk Hv Haf Hcrc] Hck. unfold write.
  intros (b & [Hb ->]%vec_extend_Ok & <-%Ok_inj)%bind_Ok_inv. split; [|done].
  constructor; cbn [writer start s_kind s_version s_crc s_alignment_log2 w_entries max_sections buf w_checksum];
    try done.
  - apply WriterInv_grow; [done|]. by rewrite zlen_app.
  - unfold table_room in *. cbn [max_sections]. rewrite zlen_app. pose proof (zlen_nonneg bytes). lia.
  - rewrite Hcrc, ck_app. f_equal. rewrite drop_app_le; [done|]. unfold zlen in Hs. lia.
Qed.

Definition sink_entry (s : SectionSink) : RawSectionEntry := {|
  offset := start s; length_ := zlen (buf (writer s)) - start s; kind := s_kind s;
  version := s_version s; crc32c := s_crc s; alignment_log2 := s_alignment_log2 s;
  flags := 0; reserved := replicate 2 Byte.x00
|}.

Lemma sink_end_Ok s w :
  SinkInv s → sink_end s = Ok w →
  w = {| buf := buf (writer s); w_entries := w_entries (writer s) ++ [sink_entry s];
         max_sections := max_sections (writer s); w_checksum := w_checksum (writer s) |}.
Proof.
  intros Hs. unfold sink_end. rewrite decide_False by (destruct (si_start _ Hs); lia).
  by intros (off & [_ ->]%ok_or_Ok%try_into_Some & (len & [_ ->]%ok_or_Ok%try_into_Some &
    <-%Ok_inj)%bind_Ok_inv)%bind_Ok_inv.
Qed.

(** With the buffer under [isize::MAX] bytes, [end] always succeeds. *)
Lemma sink_end_returns s : SinkInv s → ∃ w, sink_end s = Ok w.
Proof.
  intros Hs. pose proof (si_writer _ Hs) as [Hm _ Hb _ _ _]. pose proof (si_start _ Hs) as Hst.
  pose proof isize_usize_max. pose proof usize_max_bounds. unfold table_room in *.
  unfold sink_end. rewrite try_into_fits by (unfold u64_max; lia). cbn [ok_or mbind res_bind].
  rewrite decide_False by lia. rewrite try_into_fits by (unfold u64_max; lia). by eexists.
Qed.

Lemma sink_entry_recorded s :
  SinkInv s → Checksum32Laws (w_checksum (writer s)) →
Recorded (w_checksum (writer s)) (table_room (writer s)) (buf (writer s)) (sink_entry s).
Proof.
  intros [[Hm _ Hb _ _ _] _ Hst Had Hal Hk Hv _ Hcrc] Hck.
  pose proof isize_usize_max. pose proof usize_max_bounds. unfold table_room in *.
  assert (is_uint 32 (s_crc s)) by (rewrite Hcrc; apply ck_u32; split; lia).
  constructor; unfold sink_entry; cbn [offset length_ kind version crc32c alignment_log2 flags reserved].
  - constructor; cbn [offset length_ kind version crc32c alignment_log2 flags reserved];
      unfold is_uint, MAX_ALIGNMENT_LOG2 in *; done || lia.
  - constructor; cbn [offset length_ kind version crc32c alignment_log2 flags reserved];
      done || (unfold u64_max; lia).
  - unfold table_room. lia.
  - done.
  - rewrite Hcrc. f_equal. unfold field. rewrite take_ge; [done|]. rewrite length_drop. unfold zlen. lia.
Qed.

Lemma sink_end_inv s w :
  SinkInv s → Checksum32Laws (w_checksum (writer s)) → sink_end s = Ok w → WriterInv w.
Proof.
  intros Hs Hck ->%sink_end_Ok; [|done]. pose proof (sink_entry_recorded s Hs Hck) as Hrec.
  destruct Hs as [[Hm Hc Hb Hr Hk Hp] Hroom Hst Had Hal Hki Hv Haf Hcrc].
  constructor; cbn [w_entries buf max_sections w_checksum]; try done.
  - rewrite zlen_app. unfold zlen in *. simpl. lia.
  - apply Forall_app. split; [done|]. by constructor.
  - apply StronglySorted_app. split_and!; [|done|by repeat constructor].
    intros e x He ->%list_elem_of_singleton. rewrite Forall_forall in Haf. apply (Haf e He).
  - apply StronglySorted_app. split_and!; [|done|by repeat constructor].
    intros e x He ->%list_elem_of_singleton. rewrite Forall_forall in Haf. apply (Haf e He).
Qed.

(** ** Writers reached through the API *)

(** Writing the chunks of one section through a sink. *)
Definition write_chunks (s : SectionSink) (chunks : list (list byte)) : res PlanError SectionSink :=
  for_each write chunks s.

(** The states a client can drive a writer to: sections are begun, streamed
    into by any number of writes, and ended or dropped. *)
Inductive writer_reach (checksum : Checksum32) : SnapshotWriter → Prop :=
  | reach_new max_secs cap w :
      0 ≤ max_secs → with_payload_capacity max_secs cap checksum = Ok w → writer_reach checksum w
  | reach_section w k v align s chunks s' w' :
      writer_reach checksum w → is_uint 32 k → is_uint 32 v → 0 ≤ align →
      begin_section w k v align = Ok s → write_chunks s chunks = Ok s' → sink_end s' = Ok w' →
      writer_reach checksum w'
  | reach_drop w k v align s chunks s' :
      writer_reach checksum w → is_uint 32 k → is_uint 32 v → 0 ≤ align →
      begin_section w k v align = Ok s → write_chunks s chunks = Ok s' →
      writer_reach checksum (writer s').

Lemma write_chunks_inv s chunks s' :
  SinkInv s → Checksum32Laws (w_checksum (writer s)) → write_chunks s chunks = Ok s' →
  SinkInv s' ∧ buf (writer s') = buf (writer s) ++ concat chunks ∧
  w_checksum (writer s') = w_checksum (writer s) ∧ w_entries (writer s') = w_entries (writer s) ∧
  max_sections (writer s') = max_sections (writer s) ∧ start s' = start s ∧ s_kind s' = s_kind s ∧
  s_version s' = s_version s ∧ s_alignment_log2 s' = s_alignment_log2 s.
Proof.
  unfold write_chunks. revert s. induction chunks as [|c chunks IH]; intros s Hs Hck; simpl.
  { intros <-%Ok_inj. by rewrite app_nil_r. }
  intros (s1 & Hw & Hrest)%bind_Ok_inv.
  destruct (write_inv s c s1 Hs Hck Hw) as (Hs1 & Hb & Hc & He & Hm & Hst & Hk & Hv & Ha).
  destruct (IH s1) as (Hs2 & Hb2 & Hc2 & He2 & Hm2 & Hst2 & Hk2 & Hv2 & Ha2); [done|by rewrite Hc|done|].
  split; [done|]. rewrite Hb2, Hb, <-app_assoc. split; [done|]. split_and!; congruence.
Qed.

Lemma writer_reach_inv checksum w :
  Checksum32Laws checksum → writer_reach checksum w → WriterInv w ∧ w_checksum w = checksum.
Proof.
  intros Hck. induction 1 as [max_secs cap w Hm Hw|w k v a s ch s' w' Hre [IH Hc] Hk Hv Ha Hb Hw He
    |w k v a s ch s' Hre [IH Hc] Hk Hv Ha Hb Hw].
  - destruct (with_payload_capacity_inv _ _ _ _ Hm Hw) as (?&?&_). done.
  - destruct (begin_section_inv w k v a s) as (Hs & Hcs & _); [done|by rewrite Hc|done..|].
    destruct (write_chunks_inv s ch s') as (Hs' & _ & Hcs' & _); [done|by rewrite Hcs, Hc|done|].
    split; [eapply sink_end_inv; [done|by rewrite Hcs', Hcs, Hc|done]|].
    apply sink_end_Ok in He as ->; [|done]. cbn [w_checksum]. congruence.
  - destruct (begin_section_inv w k v a s) as (Hs & Hcs & _); [done|by rewrite Hc|done..|].
    destruct (write_chunks_inv s ch s') as (Hs' & _ & Hcs' & _); [done|by rewrite Hcs, Hc|done|].
    split; [by apply si_writer|congruence].
Qed.

(** ** What [finish] produces *)

Definition table_end (n : nat) : nat := (HEADER_SIZE + n * SECTION_ENTRY_SIZE)%nat.

Lemma finish_entry_Ok i b e :
  entry_wf e → (table_end (S i) ≤ length b)%nat →
  finish_entry (i, b) e =
    Ok (S i, take (table_end i) b ++ entry_as_bytes e ++ drop (table_end (S i)) b).
Proof.
  intros Hwf Hb. pose proof (length_entry_as_bytes e Hwf) as Hle.
  unfold finish_entry, vcopy, table_end in *. rewrite decide_True by lia.
  cbn [mbind res_bind mret res_ret]. do 5 f_equal. lia.
Qed.

Lemma finish_entries_Ok es i b :
  Forall entry_wf es → (table_end (i + length es) ≤ length b)%nat →
  for_each finish_entry es (i, b) =
    Ok ((i + length es)%nat,
        take (table_end i) b ++ entries_as_bytes es ++ drop (table_end (i + length es)) b).
Proof.
  intros Hwf. revert i b. induction Hwf as [|e es He _ IH]; intros i b Hb.
  { cbn [for_each length entries_as_bytes mbind list_bind app]. by rewrite Nat.add_0_r, take_drop. }
  pose proof (length_entry_as_bytes e He) as Hle. cbn [for_each length] in *.
  assert (table_end (S i) = (table_end i + SECTION_ENTRY_SIZE)%nat) as HS by (unfold table_end; lia).
  assert (table_end (S i) ≤ length b)%nat by (unfold table_end in *; lia).
  rewrite finish_entry_Ok by done. cbn [mbind res_bind].
  replace (i + S (length es))%nat with (S i + length es)%nat in * by lia.
  assert (length (take (table_end i) b ++ entry_as_bytes e) = table_end (S i)) as Hpre.
  { rewrite length_app, length_take, Hle. lia. }
  rewrite IH; rewrite (app_assoc (take _ b)).
  - rewrite take_app_length' by done. f_equal. f_equal. unfold entries_as_bytes. cbn [mbind list_bind].
    rewrite <-!app_assoc. do 3 f_equal.
    rewrite (app_assoc (take _ b)), drop_app_ge by (rewrite Hpre; unfold table_end; lia).
    rewrite Hpre, drop_drop. f_equal. unfold table_end. lia.
  - rewrite length_app, Hpre, length_drop. lia.
Qed.

Lemma Recorded_wf checksum lo b es : Forall (Recorded checksum lo b) es → Forall entry_wf es.
Proof. intros Hr. eapply Forall_impl; [exact Hr|]. by intros e []. Qed.

Lemma header_for_wf n crc : 0 ≤ n ≤ MAX_SECTION_COUNT → is_uint 32 crc → header_wf (header_for n crc).
Proof.
  intros Hn Hc. unfold header_for, MAX_SECTION_COUNT, is_uint in *.
  constructor; cbn [magic format_major format_minor header_size section_count table_crc32c header_reserved];
    unfold is_uint, FORMAT_MAJOR, FORMAT_MINOR, HEADER_SIZE_U32; done || lia.
Qed.

(** ** A file assembled from a header, a table and the rest *)

Section file_of.
Context (h : RawHeader) (es : list RawSectionEntry) (tail : list byte).
Hypothesis Hh : header_wf h.
Hypothesis Hvalid : validate_magic_versions_reserved h = Ok ().
Hypothesis Hn : section_count h = zlen es.
Hypothesis Hwf : Forall entry_wf es.
Hypothesis Hcount : zlen es ≤ MAX_SECTION_COUNT.

Definition file_of : list byte := header_as_bytes h ++ entries_as_bytes es ++ tail.

Lemma file_of_header : header_of_bytes file_of = h.
Proof. by apply header_codec. Qed.

Lemma length_file_of : length file_of = (table_end (length es) + length tail)%nat.
Proof.
  unfold file_of, table_end.
  rewrite !length_app, (length_header_as_bytes _ Hh), length_entries_as_bytes by done. lia.
Qed.

Lemma file_of_table {E} :
  vslice (E:=E) file_of HEADER_SIZE (table_end (length es)) = Ok (entries_as_bytes es).
Proof.
  pose proof (length_entries_as_bytes _ Hwf) as Hle.
  unfold vslice, file_of. rewrite decide_True.
  - rewrite drop_app_length' by (symmetry; by apply length_header_as_bytes).
    rewrite take_app_length' by (rewrite Hle; unfold table_end; lia). done.
  - rewrite !length_app, (length_header_as_bytes _ Hh), Hle. unfold table_end. lia.
Qed.

Lemma file_of_entries : file_entries file_of = es.
Proof.
  unfold file_entries. rewrite file_of_header, Hn. unfold zlen. rewrite Nat2Z.id.
  replace (field file_of HEADER_SIZE (SECTION_ENTRY_SIZE * length es))
    with (entries_as_bytes es ++ []); [by apply entries_codec|].
  unfold file_of. rewrite field_skip with (m := HEADER_SIZE);
    [|by apply length_header_as_bytes|done].
  rewrite Nat.sub_diag, field_head; [by rewrite app_nil_r|]. by apply length_entries_as_bytes.
Qed.

(** Bytes behind the table are the tail's. *)
Lemma file_of_field off n :
  (table_end (length es) ≤ off)%nat →
  field file_of off n = field tail (off - table_end (length es)) n.
Proof.
  intros Hoff. unfold file_of, table_end in *.
  rewrite app_assoc, field_app_r; rewrite length_app, (length_header_as_bytes _ Hh),
    (length_entries_as_bytes _ Hwf); [|lia]. f_equal. lia.
Qed.

Lemma open_file_of addr :
  TableOk (zlen file_of) es → open file_of addr = Ok (opened file_of addr).
Proof.
  intros Ht. apply open_exact_lemma. split; [|done].
  apply validate_header_Ok in Hvalid as (?&?&?&?&?). pose proof length_file_of as Hli.
  unfold table_end in Hli. constructor; rewrite ?file_of_header, ?Hn; try done; try lia.
  - unfold zlen. lia.
  - by rewrite file_of_entries.
Qed.

Lemma open_checked_file_of addr (checksum : Checksum32) :
  TableOk (zlen file_of) es → table_crc32c h = checksum 0 (entries_as_bytes es) →
  open_checked file_of addr checksum = Ok (opened file_of addr).
Proof.
  intros Ht Hc. unfold open_checked. rewrite open_file_of by done. cbn [mbind res_bind].
  cbv zeta. cbn [entries sn_table_crc32c opened]. rewrite file_of_entries, file_of_header, Hc.
  unfold table_checksum. by rewrite decide_False by tauto.
Qed.
End file_of.

(** Such a file is any file that opens. *)
Lemma file_split bytes :
  FileOk bytes →
  bytes = file_of (header_of_bytes bytes) (file_entries bytes)
            (drop (table_end (length (file_entries bytes))) bytes) ∧
  header_wf (header_of_bytes bytes) ∧ Forall entry_wf (file_entries bytes) ∧
  section_count (header_of_bytes bytes) = zlen (file_entries bytes).
Proof.
  intros [Hl _ _ _ _ _ _ Ht _]. pose proof (section_count_bound bytes) as [Hc _].
  assert (header_of_bytes bytes = header_of_bytes (take HEADER_SIZE bytes)) as Hhd.
  { rewrite <-(take_drop HEADER_SIZE bytes) at 1. unfold header_of_bytes.
    by rewrite !field_app_l by (rewrite length_take; unfold HEADER_SIZE in *; lia). }
  assert (length (file_entries bytes) = Z.to_nat (section_count (header_of_bytes bytes))) as Hlen
    by apply length_entries_of_bytes.
  split_and!.
  - unfold file_of. rewrite Hhd at 1. rewrite header_codec_back by (rewrite length_take; lia).
    unfold file_entries at 1. cbv zeta. rewrite entries_codec_back
      by (apply length_field; unfold zlen in Ht; lia).
    rewrite Hlen. unfold field, table_end. rewrite <-drop_drop, (Nat.mul_comm SECTION_ENTRY_SIZE), take_drop.
    by rewrite take_drop.
  - rewrite Hhd. apply header_of_bytes_wf. rewrite length_take. lia.
  - by apply file_entries_wf.
  - unfold zlen. lia.
Qed.

(** The finished file of a writer. *)
Definition image (checksum : Checksum32) (es : list RawSectionEntry) (tail : list byte) : list byte :=
  file_of (header_for (zlen es) (checksum 0 (entries_as_bytes es))) es tail.

Lemma header_for_valid n crc : validate_magic_versions_reserved (header_for n crc) = Ok ().
Proof. by apply validate_header_Ok. Qed.

Lemma image_header_wf checksum es :
  Checksum32Laws checksum → zlen es ≤ MAX_SECTION_COUNT →
  header_wf (header_for (zlen es) (checksum 0 (entries_as_bytes es))).
Proof. intros Hck Hc. pose proof (zlen_nonneg es). apply header_for_wf; [lia|apply ck_u32; split; lia]. Qed.

Lemma finish_Ok w :
  WriterInv w → Checksum32Laws (w_checksum w) →
  finish w = Ok (image (w_checksum w) (w_entries w) (drop (table_end (length (w_entries w))) (buf w))).
Proof.
  intros [Hm Hc Hb Hr Hk Hp] Hck. pose proof isize_usize_max. pose proof usize_max_bounds.
  apply Recorded_wf in Hr. pose proof (zlen_nonneg (w_entries w)) as Hnn.
  unfold table_room, MAX_SECTION_COUNT in *.
  assert (table_end (length (w_entries w)) ≤ length (buf w))%nat as Hend.
  { unfold table_end, zlen, HEADER_SIZE, SECTION_ENTRY_SIZE in *. lia. }
  unfold finish. rewrite (try_into_fits u64_max) by (unfold u64_max; lia). cbn [ok_or mbind res_bind].
  rewrite (try_into_fits u32_max) by (unfold u32_max; lia). cbn [ok_or mbind res_bind].
  rewrite finish_entries_Ok by done. cbn [mbind res_bind Nat.add].
  change (table_end 0) with HEADER_SIZE.
  assert (length (take HEADER_SIZE (buf w)) = HEADER_SIZE) as Hth.
  { rewrite length_take. unfold table_end in Hend. lia. }
  pose proof (length_entries_as_bytes _ Hr) as Hle.
  unfold vslice. rewrite decide_True.
  2:{ rewrite !length_app, Hth, Hle. lia. }
  cbn [mbind res_bind]. unfold table_checksum.
  rewrite drop_app_length' by done. rewrite take_app_length' by lia.
  set (crc := w_checksum w 0 (entries_as_bytes (w_entries w))).
  assert (is_uint 32 crc) as Hcrc by (apply ck_u32; split; lia).
  pose proof (length_header_as_bytes _ (header_for_wf (zlen (w_entries w)) crc
    ltac:(unfold MAX_SECTION_COUNT; lia) Hcrc)) as Hlh.
  unfold vcopy. rewrite decide_True.
  2:{ rewrite Hlh, !length_app, Hth. lia. }
  rewrite Hlh. cbn [take Nat.add app]. rewrite drop_app_length' by done. done.
Qed.

Lemma WriterInv_TableOk w L :
  WriterInv w → zlen (buf w) = L → TableOk L (w_entries w).
Proof.
  intros [Hm Hc Hb Hr Hk Hp] <-. unfold table_room in *. constructor; try done.
  - eapply Forall_impl; [exact Hr|]. by intros e [].
  - eapply Forall_impl; [exact Hr|]. intros e []. unfold HEADER_SIZE, SECTION_ENTRY_SIZE in *. lia.
Qed.

Definition finished (w : SnapshotWriter) : list byte :=
  image (w_checksum w) (w_entries w) (drop (table_end (length (w_entries w))) (buf w)).

Lemma WriterInv_table_end w :
  WriterInv w → (table_end (length (w_entries w)) ≤ length (buf w))%nat.
Proof.
  intros [Hm Hc Hb _ _ _]. unfold table_room, table_end, zlen, HEADER_SIZE, SECTION_ENTRY_SIZE in *. lia.
Qed.

Lemma finished_field w off n :
  WriterInv w → Checksum32Laws (w_checksum w) → (table_end (length (w_entries w)) ≤ off)%nat →
  field (finished w) off n = field (buf w) off n.
Proof.
  intros Hw Hck Hoff. pose proof (wi_count _ Hw). pose proof (wi_max _ Hw).
  unfold finished, image. rewrite file_of_field;
    [|apply image_header_wf; [done|lia]|eapply Recorded_wf, Hw|done].
  unfold field. rewrite drop_drop. do 2 f_equal. lia.
Qed.

Lemma finish_opens w addr :
  WriterInv w → Checksum32Laws (w_checksum w) →
  open_checked (finished w) addr (w_checksum w) = Ok (opened (finished w) addr) ∧
  zlen (finished w) = zlen (buf w) ∧
  entries (opened (finished w) addr) = w_entries w ∧
  verify_all (opened (finished w) addr) (w_checksum w) = Ok () ∧
  (∀ e, e ∈ w_entries w →
    field (finished w) (Z.to_nat (offset e)) (Z.to_nat (length_ e)) =
    field (buf w) (Z.to_nat (offset e)) (Z.to_nat (length_ e))).
Proof.
  intros Hw Hck. pose proof (Recorded_wf _ _ _ _ (wi_recorded _ Hw)) as Hwf.
  pose proof (wi_count _ Hw). pose proof (wi_max _ Hw).
  assert (zlen (w_entries w) ≤ MAX_SECTION_COUNT) as Hcount by lia.
  assert (zlen (finished w) = zlen (buf w)) as Hlen.
  { unfold finished, zlen. unfold image. rewrite length_file_of, length_drop by (done || by apply image_header_wf).
    pose proof (WriterInv_table_end w Hw). lia. }
  assert (entries (opened (finished w) addr) = w_entries w) as Hent.
  { cbn [entries opened]. unfold finished, image. apply file_of_entries; [by apply image_header_wf|done|done]. }
  assert (∀ e, e ∈ w_entries w →
    field (finished w) (Z.to_nat (offset e)) (Z.to_nat (length_ e)) =
    field (buf w) (Z.to_nat (offset e)) (Z.to_nat (length_ e))) as Hfld.
  { intros e He. apply finished_field; [done..|].
    pose proof (rc_lo _ _ _ _ (proj1 (Forall_forall _ _) (wi_recorded _ Hw) e He)) as Hlo.
    unfold table_room, table_end, zlen, HEADER_SIZE, SECTION_ENTRY_SIZE in *. lia. }
  split; [|split; [done|split; [done|split; [|done]]]].
  - unfold finished, image. apply open_checked_file_of; try done; [by apply image_header_wf|].
    apply WriterInv_TableOk; [exact Hw|exact (eq_sym Hlen)].
  - apply verify_all_spec.
    + constructor.
      * cbn [sn_bytes opened]. rewrite Hlen. pose proof (wi_buf _ Hw). pose proof isize_usize_max. lia.
      * rewrite Hent. cbn [sn_bytes opened]. rewrite Hlen. by apply WriterInv_TableOk.
      * by rewrite Hent.
    + rewrite Hent. intros e He. cbn [sn_bytes opened]. rewrite Hfld by done. symmetry.
      apply (rc_crc _ _ _ _ (proj1 (Forall_forall _ _) (wi_recorded _ Hw) e He)).
Qed.

(** ** The plan against the writer *)

Record pending_wf (p : PendingSection) : Prop := {
  pw_kind : is_uint 32 (p_kind p);
  pw_version : is_uint 32 (p_version p);
  pw_align : 0 ≤ p_alignment_log2 p
}.

Definition plan_entry (checksum : Checksum32) (off : Z) (p : PendingSection) : RawSectionEntry := {|
  offset := off; length_ := zlen (p_payload p); kind := p_kind p; version := p_version p;
  crc32c := checksum 0 (p_payload p); alignment_log2 := p_alignment_log2 p; flags := 0;
  reserved := replicate 2 Byte.x00
|}.

(** The writer after one more whole section. *)
Definition add_section (w : SnapshotWriter) (p : PendingSection) : SnapshotWriter :=
  let off := align_up (zlen (buf w)) (p_alignment_log2 p) in
  {| buf := (buf w ++ replicate (Z.to_nat off - length (buf w)) Byte.x00) ++ p_payload p;
     w_entries := w_entries w ++ [plan_entry (w_checksum w) off p];
     max_sections := max_sections w; w_checksum := w_checksum w |}.

Definition write_pending (w : SnapshotWriter) (p : PendingSection) : res PlanError SnapshotWriter :=
  section_bytes w (p_kind p) (p_version p) (p_alignment_log2 p) (p_payload p).

Lemma plan_check_Ok prev p r :
  plan_check prev p = Ok r ↔
  p_alignment_log2 p ≤ MAX_ALIGNMENT_LOG2 ∧ (∀ k, prev = Some k → k < p_kind p) ∧ r = Some (p_kind p).
Proof. unfold plan_check. repeat case_decide || case_match; naive_solver lia. Qed.

Lemma encoded_len_step_Ok total p r :
  0 ≤ total → 0 ≤ p_alignment_log2 p ≤ MAX_ALIGNMENT_LOG2 →
  encoded_len_step total p = Ok r ↔
  total + (2 ^ p_alignment_log2 p - 1) ≤ usize_max ∧
  align_up total (p_alignment_log2 p) + zlen (p_payload p) ≤ usize_max ∧
  r = align_up total (p_alignment_log2 p) + zlen (p_payload p).
Proof.
  intros Ht Ha. unfold encoded_len_step. rewrite bind_Ok_inv. split.
  - intros (x & [Hx ->]%align_up_checked_Ok & [Hy ->]%ok_or_Ok%checked_add_Some); done.
  - intros (Hx & Hy & ->). eexists. split; [by apply align_up_checked_Ok|].
    by apply ok_or_Ok, checked_add_Some.
Qed.

Lemma zlen_padded (b : list byte) n : zlen b ≤ n → zlen (b ++ replicate (Z.to_nat n - length b) Byte.x00) = n.
Proof. intros. rewrite zlen_app. unfold zlen in *. rewrite length_replicate. lia. Qed.

Lemma zlen_add_section w p :
  0 ≤ p_alignment_log2 p →
  zlen (buf (add_section w p)) = align_up (zlen (buf w)) (p_alignment_log2 p) + zlen (p_payload p).
Proof.
  intros Ha. unfold add_section. cbn [buf]. pose proof (align_up_bounds (zlen (buf w)) _ Ha).
  by rewrite zlen_app, zlen_padded by lia.
Qed.

Lemma write_pending_Ok w p r :
  WriterInv w → pending_wf p → zlen (w_entries w) < max_sections w →
  plan_check (kind <$> last (w_entries w)) p = Ok r →
  zlen (buf w) + (2 ^ p_alignment_log2 p - 1) ≤ usize_max →
  zlen (buf (add_section w p)) ≤ isize_max →
  write_pending w p = Ok (add_section w p).
Proof.
  intros Hw [Hk Hv Ha] Hroom (Ham & Hasc & _)%plan_check_Ok Hal Hlen.
  pose proof (zlen_add_section w p Ha) as Hz. rewrite Hz in Hlen.
  pose proof (align_up_bounds (zlen (buf w)) _ Ha) as Hup. pose proof (zlen_nonneg (p_payload p)).
  pose proof (zlen_nonneg (buf w)). pose proof isize_usize_max. pose proof usize_max_bounds.
  unfold write_pending, section_bytes, begin_section.
  rewrite decide_False, decide_False by lia.
  rewrite (proj2 (align_up_checked_Ok _ _ _ (zlen_nonneg (buf w)) (conj Ha Ham)) (conj Hal eq_refl)).
  assert ((match last (w_entries w) with
      | Some prior => if decide (p_kind p ≤ kind prior)
          then Err (PlanNonAscendingKind (p_kind p) (kind prior)) else Ok ()
      | None => Ok () end : res PlanError ()) = Ok ()) as ->.
  { destruct (last (w_entries w)) as [e|]; [|done].
    pose proof (Hasc _ eq_refl). by rewrite decide_False by lia. }
  cbn [mbind res_bind]. unfold vec_resize. rewrite decide_True, resize_grow by lia.
  cbn [mbind res_bind mret res_ret]. unfold write. cbn [writer buf w_checksum s_crc].
  unfold vec_extend. rewrite zlen_padded, decide_True by lia.
  cbn [mbind res_bind mret res_ret]. unfold sink_end.
  cbn [writer start s_kind s_version s_crc s_alignment_log2 w_entries max_sections buf w_checksum].
  rewrite zlen_app, zlen_padded by lia.
  rewrite try_into_fits by (unfold u64_max; lia). cbn [ok_or mbind res_bind].
  rewrite decide_False by lia. rewrite try_into_fits by (unfold u64_max; lia).
  cbn [ok_or mbind res_bind mret res_ret]. unfold add_section, plan_entry. do 5 f_equal. lia.
Qed.

Lemma add_section_inv w p r :
  WriterInv w → Checksum32Laws (w_checksum w) → pending_wf p →
  zlen (w_entries w) < max_sections w →
  plan_check (kind <$> last (w_entries w)) p = Ok r →
  zlen (buf w) + (2 ^ p_alignment_log2 p - 1) ≤ usize_max →
  zlen (buf (add_section w p)) ≤ isize_max →
  WriterInv (add_section w p).
Proof.
  intros Hw Hck Hp Hroom Hpl Hal Hlen. pose proof (write_pending_Ok w p r) as Hok.
  specialize (Hok Hw Hp Hroom Hpl Hal Hlen). unfold write_pending, section_bytes in Hok.
  destruct Hp as [Hk Hv Ha].
  apply bind_Ok_inv in Hok as (s & Hb & (s' & Hwr & He)%bind_Ok_inv).
  destruct (begin_section_inv w _ _ _ s Hw Hck Hk Hv Ha Hb) as (Hs & Hcs & _).
  rewrite <-Hcs in Hck. destruct (write_inv s _ s' Hs Hck Hwr) as (Hs' & _ & Hcs' & _).
  rewrite <-Hcs' in Hck. by eapply sink_end_inv.
Qed.

Lemma vcopy_mid {E A} (a b c s : list A) k :
  k = length a → length b = length s → vcopy (E:=E) (a ++ b ++ c) k s = Ok (a ++ s ++ c).
Proof.
  intros -> Hb. unfold vcopy. rewrite decide_True by (rewrite !length_app; lia).
  rewrite take_app_length, (app_assoc a b c), drop_app_length' by (rewrite length_app; lia). done.
Qed.

Abbreviation zeros n := (replicate n Byte.x00).

(** The plan's buffer in step with a writer that reserved [n] entries. *)
Definition plan_prefix (n : nat) (needed : Z) (w : SnapshotWriter) : list byte :=
  zeros HEADER_SIZE ++ entries_as_bytes (w_entries w) ++
  zeros ((n - length (w_entries w)) * SECTION_ENTRY_SIZE)%nat ++
  drop (table_end n) (buf w) ++ zeros (Z.to_nat needed - length (buf w)).

Lemma entries_as_bytes_snoc es e : entries_as_bytes (es ++ [e]) = entries_as_bytes es ++ entry_as_bytes e.
Proof. unfold entries_as_bytes. rewrite bind_app. cbn [mbind list_bind]. by rewrite app_nil_r. Qed.

(** The two copies of one loop round. *)
Lemma plan_prefix_step n needed w p :
  Forall entry_wf (w_entries (add_section w p)) →
  (length (w_entries w) < n)%nat → (table_end n ≤ length (buf w))%nat →
  0 ≤ p_alignment_log2 p → zlen (buf (add_section w p)) ≤ needed →
  let off := align_up (zlen (buf w)) (p_alignment_log2 p) in
  (prefix ← vcopy (E:=PlanError) (plan_prefix n needed w)
      (Z.to_nat (Z.of_nat HEADER_SIZE + zlen (w_entries w) * Z.of_nat SECTION_ENTRY_SIZE))
      (entry_as_bytes (plan_entry (w_checksum w) off p));
   vcopy prefix (Z.to_nat off) (p_payload p)) = Ok (plan_prefix n needed (add_section w p)).
Proof.
  intros Hwf Hn Hend Ha Hneed off. rewrite zlen_add_section in Hneed by done. fold off in Hneed.
  pose proof (align_up_bounds (zlen (buf w)) _ Ha) as Hup. fold off in Hup.
  cbn [w_entries add_section] in Hwf. fold off in Hwf. apply Forall_app in Hwf as [Hes Hew].
  pose proof (Forall_inv Hew) as Hew1. clear Hew. rename Hew1 into Hew. pose proof (length_entry_as_bytes _ Hew) as Hle.
  pose proof (length_entries_as_bytes _ Hes) as Hles. pose proof (zlen_nonneg (p_payload p)).
  set (e := plan_entry (w_checksum w) off p) in *.
  set (i := length (w_entries w)) in *. set (pad := (Z.to_nat off - length (buf w))%nat).
  assert (plan_prefix n needed w =
    (zeros HEADER_SIZE ++ entries_as_bytes (w_entries w)) ++ zeros SECTION_ENTRY_SIZE ++
    zeros ((n - S i) * SECTION_ENTRY_SIZE)%nat ++ drop (table_end n) (buf w) ++
    zeros (Z.to_nat needed - length (buf w))) as ->.
  { unfold plan_prefix. rewrite <-app_assoc. do 2 f_equal.
    rewrite (app_assoc (zeros SECTION_ENTRY_SIZE)), <-replicate_add.
    f_equal. f_equal. unfold SECTION_ENTRY_SIZE. fold i. lia. }
  rewrite vcopy_mid; cycle 1.
  { rewrite length_app, length_replicate, Hles. unfold zlen, SECTION_ENTRY_SIZE, HEADER_SIZE. fold i. lia. }
  { by rewrite length_replicate, Hle. }
  cbn [mbind res_bind].
  replace (zeros (Z.to_nat needed - length (buf w))) with
    (zeros pad ++ zeros (length (p_payload p)) ++
     zeros (Z.to_nat needed - length (buf (add_section w p)))).
  2:{ rewrite <-!replicate_add. f_equal. unfold add_section. fold off. cbn [buf].
      rewrite !length_app, length_replicate. unfold zlen in *. lia. }
  rewrite (app_assoc (drop _ _)), (app_assoc (zeros ((n - S i) * _))), (app_assoc (entry_as_bytes e)),
    (app_assoc (zeros HEADER_SIZE ++ _)).
  rewrite vcopy_mid; cycle 1.
  { rewrite !length_app, !length_replicate, length_drop, Hles, Hle.
    unfold table_end, zlen, SECTION_ENTRY_SIZE, HEADER_SIZE in *. fold i. lia. }
  { apply length_replicate. }
  f_equal. unfold plan_prefix, add_section. fold off. cbn [w_entries buf]. fold e pad.
  rewrite entries_as_bytes_snoc, (length_app (w_entries w)). fold i. cbn [length].
  rewrite <-!app_assoc, Nat.add_1_r, drop_app_le by done. by rewrite <-!app_assoc.
Qed.

Lemma write_section_Ok needed w p :
  WriterInv (add_section w p) → Checksum32Laws (w_checksum w) → pending_wf p →
  WriterInv w → zlen (w_entries w) < max_sections w →
  p_alignment_log2 p ≤ MAX_ALIGNMENT_LOG2 →
  zlen (buf w) + (2 ^ p_alignment_log2 p - 1) ≤ usize_max →
  zlen (buf (add_section w p)) ≤ needed ≤ isize_max →
  let n := Z.to_nat (max_sections w) in
  write_section (w_checksum w) (length (w_entries w), zlen (buf w), plan_prefix n needed w) p =
    Ok (length (w_entries (add_section w p)), zlen (buf (add_section w p)),
        plan_prefix n needed (add_section w p)).
Proof.
  intros Hw' Hck [Hk Hv Ha] Hw Hroom Ham Hal Hneed n.
  pose proof (zlen_add_section w p Ha) as Hz. pose proof (wi_max _ Hw) as Hmax.
  pose proof (align_up_bounds (zlen (buf w)) _ Ha) as Hup. pose proof (zlen_nonneg (p_payload p)).
  pose proof (zlen_nonneg (buf w)). pose proof isize_usize_max. pose proof usize_max_bounds.
  unfold write_section.
  rewrite (proj2 (align_up_checked_Ok _ _ _ (zlen_nonneg (buf w)) (conj Ha Ham)) (conj Hal eq_refl)).
  assert (Z.of_nat (length (w_entries w)) * Z.of_nat SECTION_ENTRY_SIZE + Z.of_nat HEADER_SIZE ≤ isize_max) as Hent.
  { pose proof (wi_buf _ Hw). unfold table_room, zlen, HEADER_SIZE, SECTION_ENTRY_SIZE in *. lia. }
  cbn [mbind res_bind]. rewrite (checked_add_fits usize_max (align_up _ _)) by lia.
  cbn [ok_or mbind res_bind].
  rewrite (try_into_fits u64_max (align_up _ _)) by (unfold u64_max; lia). cbn [ok_or mbind res_bind].
  rewrite (try_into_fits u64_max (zlen _)) by (unfold u64_max; lia). cbn [ok_or mbind res_bind].
  rewrite (checked_mul_fits usize_max (Z.of_nat _)) by lia. cbn [ok_or mbind res_bind].
  rewrite (checked_add_fits usize_max (Z.of_nat HEADER_SIZE)) by lia.
  cbn [ok_or mbind res_bind].
  assert (length (w_entries w) < n)%nat by (unfold zlen in Hroom; lia).
  assert (table_end n ≤ length (buf w))%nat.
  { pose proof (wi_buf _ Hw). unfold table_room, table_end, zlen, HEADER_SIZE, SECTION_ENTRY_SIZE in *. lia. }
  pose proof (plan_prefix_step n needed w p (Recorded_wf _ _ _ _ (wi_recorded _ Hw'))
    ltac:(done) ltac:(done) Ha ltac:(lia)) as Hstep. cbv zeta in Hstep.
  apply bind_Ok_inv in Hstep as (pre & Hc1 & Hc2). unfold plan_entry, zlen at 1 in Hc1. rewrite Hc1.
  cbn [mbind res_bind]. rewrite Hc2. cbn [mbind res_bind mret res_ret].
  assert (length (w_entries (add_section w p)) = S (length (w_entries w))) as ->.
  { cbn [w_entries add_section]. rewrite length_app. cbn [length]. lia. }
  by rewrite Hz.
Qed.

(** What a recorded section shows of the pending one. *)
Definition entry_holds (b : list byte) (e : RawSectionEntry) (p : PendingSection) : Prop :=
  kind e = p_kind p ∧ version e = p_version p ∧ alignment_log2 e = p_alignment_log2 p ∧
  field b (Z.to_nat (offset e)) (Z.to_nat (length_ e)) = p_payload p.

Lemma field_drop_app (a b : list byte) n : n = length b → field (a ++ b) (length a) n = b.
Proof. intros ->. unfold field. by rewrite drop_app_length, firstn_all. Qed.

Lemma add_section_holds w p secs :
  WriterInv w → 0 ≤ p_alignment_log2 p →
  Forall2 (entry_holds (buf w)) (w_entries w) secs →
  Forall2 (entry_holds (buf (add_section w p))) (w_entries (add_section w p)) (secs ++ [p]).
Proof.
  intros Hw Ha Hh. pose proof (align_up_bounds (zlen (buf w)) _ Ha) as Hup. pose proof (zlen_nonneg (buf w)).
  cbn [w_entries buf add_section]. apply Forall2_app.
  - pose proof (wi_recorded _ Hw) as Hr. apply Forall2_same_length_lookup in Hh as [Hl Hh].
    apply Forall2_same_length_lookup. split; [done|]. intros j e q He Hq.
    rewrite Forall_lookup in Hr. destruct (Hr j e He) as [Hwf Hok _ _ _].
    destruct (Hh j e q He Hq) as (?&?&?&Hf). split_and!; try done.
    destruct (ew_offset _ Hwf) as [? _], (ew_length _ Hwf) as [? _].
    pose proof (ok_bounds _ _ Hok). unfold zlen in *. rewrite <-app_assoc, field_app_l by lia. done.
  - constructor; [|constructor]. split_and!; try done. cbn [offset length_ plan_entry].
    etrans; [|apply (field_drop_app (buf w ++ zeros (Z.to_nat (align_up (zlen (buf w)) (p_alignment_log2 p)) -
      length (buf w))) (p_payload p) (Z.to_nat (zlen (p_payload p)))); unfold zlen; lia].
    f_equal. rewrite length_app, length_replicate. unfold zlen in *. lia.
Qed.

Lemma encoded_mono secs t r :
  0 ≤ t → Forall pending_wf secs → Forall (λ p, p_alignment_log2 p ≤ MAX_ALIGNMENT_LOG2) secs →
  for_each encoded_len_step secs t = Ok r → t ≤ r.
Proof.
  intros Ht Hwf Hal. revert t Ht. induction Hwf as [|p secs [_ _ Ha] _ IH]; intros t Ht; cbn [for_each].
  { intros <-%Ok_inj. lia. }
  inversion Hal; subst. intros (t1 & (_ & _ & ->)%encoded_len_step_Ok & Hr)%bind_Ok_inv; [|done|done].
  pose proof (align_up_bounds t _ Ha). pose proof (zlen_nonneg (p_payload p)).
  apply IH in Hr; [lia|done|lia].
Qed.

Lemma plan_aligned secs k r :
  for_each plan_check secs k = Ok r → Forall (λ p, p_alignment_log2 p ≤ MAX_ALIGNMENT_LOG2) secs.
Proof.
  revert k. induction secs as [|q secs IH]; intros k; [constructor|]. cbn [for_each].
  intros (k' & (?&_)%plan_check_Ok & Hr)%bind_Ok_inv. constructor; [done|by eapply IH].
Qed.

(** The plan's loop in step with the writer's. *)
Lemma plan_loop secs w done_ needed :
  WriterInv w → Checksum32Laws (w_checksum w) → Forall pending_wf secs →
  zlen (w_entries w) + zlen secs = max_sections w →
  (∃ r, for_each plan_check secs (kind <$> last (w_entries w)) = Ok r) →
  for_each encoded_len_step secs (zlen (buf w)) = Ok needed → needed ≤ isize_max →
  Forall2 (entry_holds (buf w)) (w_entries w) done_ →
  ∃ w', for_each write_pending secs w = Ok w' ∧ WriterInv w' ∧ w_checksum w' = w_checksum w ∧
    zlen (w_entries w') = max_sections w' ∧ max_sections w' = max_sections w ∧ zlen (buf w') = needed ∧
    Forall2 (entry_holds (buf w')) (w_entries w') (done_ ++ secs) ∧
    let n := Z.to_nat (max_sections w) in
    for_each (write_section (w_checksum w)) secs
      (length (w_entries w), zlen (buf w), plan_prefix n needed w) =
    Ok (n, needed, plan_prefix n needed w').
Proof.
  intros Hw Hck Hwf. revert w done_ Hw Hck.
  induction Hwf as [|p secs Hp Hps IH]; intros w done_ Hw Hck Hcount [r Hchk] Hlen Hneed Hh;
    cbn [for_each] in *.
  - apply Ok_inj in Hlen as <-. exists w. rewrite app_nil_r.
    change (zlen []) with 0 in Hcount. split_and!; try done; [lia|].
    cbv zeta. do 3 f_equal. unfold zlen in Hcount. lia.
  - apply bind_Ok_inv in Hchk as (r1 & Hc1 & Hrest). pose proof Hc1 as (Ham & _ & ->)%plan_check_Ok.
    pose proof (pw_align _ Hp) as Ha.
    apply bind_Ok_inv in Hlen as (t & (Hal & Hfit & ->)%encoded_len_step_Ok & Hlen); [|apply zlen_nonneg|done].
    rewrite <-(zlen_add_section w p Ha) in Hlen, Hfit.
    assert (zlen (p :: secs) = 1 + zlen secs) as Hlc by (unfold zlen; cbn [length]; lia).
    pose proof (zlen_nonneg secs).
    pose proof (encoded_mono secs _ _ (zlen_nonneg _) Hps (plan_aligned _ _ _ Hrest) Hlen) as Hmono.
    assert (WriterInv (add_section w p)) as Hw' by (eapply add_section_inv; eauto; lia).
    destruct (IH (add_section w p) (done_ ++ [p])) as (w' & Hrun & Hinv & Hcs & Hfull & Hms & Hz & Hall & Hloop);
      [done|done| | |done|done|by apply add_section_holds|].
    { cbn [w_entries max_sections add_section]. rewrite zlen_app.
      change (zlen [_]) with 1. lia. }
    { cbn [w_entries add_section]. rewrite last_snoc. by exists r. }
    exists w'. rewrite <-app_assoc in Hall. split_and!; try done.
    + rewrite (write_pending_Ok w p (Some (p_kind p))) by (done || lia). done.
    + cbv zeta in *. rewrite write_section_Ok by (done || lia). exact Hloop.
Qed.

(** C3. Whatever sequence of begin, write, end and drop a client performs, the
    writer finishes into a file that opens with a verified table, shows exactly
    the recorded entries with their buffered payload bytes at aligned offsets,
    and every payload checksum verifies. *)
Theorem writer_finish_opens checksum w addr :
  Checksum32Laws checksum → writer_reach checksum w →
  ∃ bytes s, finish w = Ok bytes ∧ zlen bytes = zlen (buf w) ∧
    open_checked bytes addr checksum = Ok s ∧ entries s = w_entries w ∧
    verify_all s checksum = Ok () ∧
    Forall (λ e, field bytes (Z.to_nat (offset e)) (Z.to_nat (length_ e)) =
        field (buf w) (Z.to_nat (offset e)) (Z.to_nat (length_ e)) ∧
      offset e mod 2 ^ alignment_log2 e = 0) (w_entries w).
Proof.
  intros Hck Hreach. destruct (writer_reach_inv checksum w Hck Hreach) as [Hw <-].
  pose proof (finish_opens w addr Hw Hck) as (Hopen & Hlen & Hent & Hver & Hfld).
  eexists _, _. split; [by apply finish_Ok|]. split_and!; try done.
  rewrite Forall_forall in *. intros e He. split; [by apply Hfld|].
  apply (rc_align _ _ _ _ (proj1 (Forall_forall _ _) (wi_recorded _ Hw) e He)).
Qed.

(** A writer whose table is still empty. *)
Definition fresh_writer (n : Z) (checksum : Checksum32) : SnapshotWriter := {|
  buf := zeros (Z.to_nat (Z.of_nat HEADER_SIZE + n * Z.of_nat SECTION_ENTRY_SIZE));
  w_entries := []; max_sections := n; w_checksum := checksum
|}.

Lemma SnapshotWriter_new_Ok n checksum :
  0 ≤ n ≤ MAX_SECTION_COUNT →
  Z.of_nat HEADER_SIZE + n * Z.of_nat SECTION_ENTRY_SIZE ≤ isize_max →
  SnapshotWriter_new n checksum = Ok (fresh_writer n checksum).
Proof.
  intros Hn Hroom. pose proof isize_usize_max. pose proof usize_max_bounds.
  unfold SnapshotWriter_new, with_payload_capacity. rewrite decide_False by lia.
  rewrite checked_mul_fits by lia. cbn [ok_or mbind res_bind].
  rewrite checked_add_fits by lia. cbn [ok_or mbind res_bind].
  unfold vec_with_capacity, saturating_add. rewrite decide_True by lia. cbn [mbind res_bind].
  unfold vec_resize. rewrite decide_True by lia. by rewrite resize_nil.
Qed.

Lemma plan_prefix_fresh n needed checksum :
  0 ≤ n → Z.of_nat HEADER_SIZE + n * Z.of_nat SECTION_ENTRY_SIZE ≤ needed →
  plan_prefix (Z.to_nat n) needed (fresh_writer n checksum) = zeros (Z.to_nat needed).
Proof.
  intros Hn Hneed. unfold plan_prefix, fresh_writer.
  cbn [w_entries buf entries_as_bytes mbind list_bind length app].
  rewrite drop_replicate, length_replicate, <-!replicate_add. f_equal.
  unfold table_end, HEADER_SIZE, SECTION_ENTRY_SIZE in *. lia.
Qed.

(** The table checksum and the header of [write_into] complete the file. *)
Lemma plan_seal w :
  WriterInv w → Checksum32Laws (w_checksum w) → zlen (w_entries w) = max_sections w →
  let n := length (w_entries w) in
  let pre := plan_prefix n (zlen (buf w)) w in
  (table ← vslice (E:=PlanError) pre HEADER_SIZE (table_end n);
   vcopy pre 0 (header_as_bytes (header_for (max_sections w) (table_checksum table (w_checksum w)))))
  = Ok (finished w).
Proof.
  intros Hw Hck Hfull n pre. pose proof (Recorded_wf _ _ _ _ (wi_recorded _ Hw)) as Hwf.
  pose proof (length_entries_as_bytes _ Hwf) as Hle.
  assert (pre = zeros HEADER_SIZE ++ entries_as_bytes (w_entries w) ++ drop (table_end n) (buf w)) as ->.
  { unfold pre, plan_prefix. fold n. unfold zlen. rewrite Nat2Z.id, !Nat.sub_diag. simpl (zeros _).
    by rewrite app_nil_r. }
  unfold vslice. rewrite decide_True.
  2:{ rewrite !length_app, length_replicate, Hle. unfold table_end. lia. }
  cbn [mbind res_bind]. rewrite drop_app_length' by (symmetry; apply length_replicate).
  rewrite take_app_length' by (rewrite Hle; unfold table_end; lia). unfold table_checksum.
  unfold finished, image. rewrite <-Hfull.
  apply (vcopy_mid [] (zeros HEADER_SIZE)); [done|].
  rewrite length_header_as_bytes; [apply length_replicate|].
  apply header_for_wf; [|apply ck_u32; split; lia].
  pose proof (wi_max _ Hw). pose proof (zlen_nonneg (w_entries w)). lia.
Qed.

(** The whole of [write_into], with the writer run it agrees with. *)
Lemma write_into_run secs plan needed out checksum :
  Checksum32Laws checksum → Forall pending_wf secs → SnapshotPlan_new secs = Ok plan →
  encoded_len plan = Ok needed → needed ≤ zlen out ≤ isize_max →
  ∃ w0 w, SnapshotWriter_new (zlen secs) checksum = Ok w0 ∧ for_each write_pending secs w0 = Ok w ∧
    WriterInv w ∧ w_checksum w = checksum ∧ zlen (buf w) = needed ∧
    Forall2 (entry_holds (buf w)) (w_entries w) secs ∧
    write_into plan out checksum = Ok (finished w ++ drop (Z.to_nat needed) out, needed).
Proof.
  intros Hck Hwf Hplan Henc Hout. unfold SnapshotPlan_new in Hplan. case_decide as Hcnt; [done|].
  apply bind_Ok_inv in Hplan as (r & Hchk & <-%Ok_inj).
  pose proof isize_usize_max as Hus. pose proof usize_max_bounds as Hus2.
  pose proof (zlen_nonneg secs) as Hnn. pose proof Henc as Henc'.
  unfold encoded_len in Henc. cbn [plan_sections] in Henc.
  apply bind_Ok_inv in Henc as (tl & [Htl ->]%ok_or_Ok%checked_mul_Some & Henc).
  apply bind_Ok_inv in Henc as (t0 & [Ht0 ->]%ok_or_Ok%checked_add_Some & Henc).
  apply bind_Ok_inv in Henc as (t & Hsteps & (? & _ & ->%Ok_inj)%bind_Ok_inv).
  pose proof (encoded_mono secs (Z.of_nat HEADER_SIZE + zlen secs * Z.of_nat SECTION_ENTRY_SIZE) _
    ltac:(lia) Hwf (plan_aligned _ _ _ Hchk) Hsteps) as Hmono.
  pose proof (SnapshotWriter_new_Ok (zlen secs) checksum ltac:(lia) ltac:(lia)) as Hnew.
  destruct (with_payload_capacity_inv (zlen secs) 0 checksum _ Hnn Hnew) as (Hw0 & _).
  assert (zlen (buf (fresh_writer (zlen secs) checksum)) =
    Z.of_nat HEADER_SIZE + zlen secs * Z.of_nat SECTION_ENTRY_SIZE) as Hz0.
  { unfold fresh_writer, zlen at 1. cbn [buf]. rewrite length_replicate. lia. }
  destruct (plan_loop secs (fresh_writer (zlen secs) checksum) [] needed)
    as (w & Hrun & Hw & Hcs & Hfull & Hms & Hz & Hh & Hloop);
    [done|done|done|done|by exists r|by rewrite Hz0|lia|constructor|].
  exists (fresh_writer (zlen secs) checksum), w. split_and!; try done.
  cbv zeta in Hloop. rewrite Hz0 in Hloop. cbn [w_entries max_sections w_checksum fresh_writer length] in *.
  rewrite plan_prefix_fresh in Hloop by done.
  unfold write_into. rewrite Henc'. cbn [mbind res_bind plan_sections]. rewrite decide_False by lia.
  rewrite (try_into_fits u32_max) by (unfold u32_max, MAX_SECTION_COUNT in *; lia).
  cbn [ok_or mbind res_bind]. rewrite checked_mul_fits by done. cbn [ok_or mbind res_bind].
  rewrite checked_add_fits by done. cbn [ok_or mbind res_bind].
  rewrite Hloop. cbn [mbind res_bind]. rewrite <-Hcs in Hck |- *.
  pose proof (plan_seal w Hw Hck Hfull) as Hseal. cbv zeta in Hseal.
  apply bind_Ok_inv in Hseal as (table & Hsl & Hcp). rewrite Hz, Hms in *.
  replace (Z.to_nat (zlen secs)) with (length (w_entries w)) by (unfold zlen in *; lia).
  replace (Z.to_nat (Z.of_nat HEADER_SIZE + zlen secs * Z.of_nat SECTION_ENTRY_SIZE))
    with (table_end (length (w_entries w))) by (unfold table_end, zlen in *; lia).
  rewrite Hsl. cbn [mbind res_bind]. rewrite Hcp. done.
Qed.

Lemma finished_views w addr secs :
  WriterInv w → Checksum32Laws (w_checksum w) →
  Forall2 (entry_holds (buf w)) (w_entries w) secs →
  ∃ views, sections (E:=SnapshotError) (opened (finished w) addr) = Ok views ∧
    Forall2 (λ v p, sec_kind v = p_kind p ∧ sec_version v = p_version p ∧
      payload v = p_payload p ∧ sec_alignment_log2 v = p_alignment_log2 p ∧
      (sec_addr v - addr) mod 2 ^ p_alignment_log2 p = 0) views secs.
Proof.
  intros Hw Hck Hh. destruct (finish_opens w addr Hw Hck) as (Hopen & Hlen & Hent & _ & Hfld).
  apply bind_Ok_inv in Hopen as (s0 & Hopen & Hcase). cbv zeta in Hcase.
  case_decide; [done|]. apply Ok_inj in Hcase as ->.
  assert (SnapshotOk (opened (finished w) addr)) as Hok.
  { eapply open_SnapshotOk; [|exact Hopen]. rewrite Hlen. pose proof (wi_buf _ Hw).
    pose proof isize_usize_max. lia. }
  exists (entry_section (finished w) addr <$> w_entries w). split.
  { rewrite SnapshotOk_sections by done. by rewrite Hent. }
  apply Forall2_fmap_l. pose proof (wi_recorded _ Hw) as Hr.
  apply Forall2_same_length_lookup in Hh as [Hl Hh]. apply Forall2_same_length_lookup.
  split; [done|]. intros i e p He Hp. destruct (Hh i e p He Hp) as (Hk & Hv & Ha & Hf).
  rewrite Forall_lookup in Hr. pose proof (rc_align _ _ _ _ (Hr i e He)) as Hal.
  assert (e ∈ w_entries w) as Hin by by eapply list_elem_of_lookup_2.
  split_and!; try done; cbn [sec_addr payload entry_section].
  - by rewrite Hfld.
  - rewrite <-Ha. by replace (addr + offset e - addr) with (offset e) by lia.
Qed.

(** Round trip of a plan: a plan that fits the caller's buffer is written
    into its first [encoded_len] bytes, the rest of the buffer is untouched, the
    bytes open with a verified table and verified payloads, and the sections
    read back are the plan's, in order, with their kinds, versions, payloads and
    alignments. *)
Theorem plan_roundtrip secs plan needed out checksum addr :
  Checksum32Laws checksum → Forall pending_wf secs → SnapshotPlan_new secs = Ok plan →
  encoded_len plan = Ok needed → needed ≤ zlen out ≤ isize_max →
  ∃ bytes s views,
    write_into plan out checksum = Ok (bytes ++ drop (Z.to_nat needed) out, needed) ∧
    zlen bytes = needed ∧ open_checked bytes addr checksum = Ok s ∧
    verify_all s checksum = Ok () ∧ sections (E:=SnapshotError) s = Ok views ∧
    Forall2 (λ v p, sec_kind v = p_kind p ∧ sec_version v = p_version p ∧
      payload v = p_payload p ∧ sec_alignment_log2 v = p_alignment_log2 p ∧
      (sec_addr v - addr) mod 2 ^ p_alignment_log2 p = 0) views secs.
Proof.
  intros Hck Hwf Hplan Henc Hout.
  destruct (write_into_run secs plan needed out checksum Hck Hwf Hplan Henc Hout)
    as (w0 & w & _ & _ & Hw & <- & Hz & Hh & Hwr).
  destruct (finish_opens w addr Hw Hck) as (Hopen & Hlen & _ & Hver & _).
  destruct (finished_views w addr secs Hw Hck Hh) as (views & Hviews & Hall).
  exists (finished w), (opened (finished w) addr), views. split_and!; try done. by rewrite Hlen.
Qed.

(** The streaming writer with exactly as many reserved entries as sections
    produces the very bytes of [SnapshotPlan::write_into]. *)
Theorem writer_equals_plan secs plan needed out checksum :
  Checksum32Laws checksum → Forall pending_wf secs → SnapshotPlan_new secs = Ok plan →
  encoded_len plan = Ok needed → needed ≤ zlen out ≤ isize_max →
  ∃ w0 w bytes, SnapshotWriter_new (zlen secs) checksum = Ok w0 ∧
    for_each write_pending secs w0 = Ok w ∧ finish w = Ok bytes ∧
    write_into plan out checksum = Ok (bytes ++ drop (Z.to_nat needed) out, needed).
Proof.
  intros Hck Hwf Hplan Henc Hout.
  destruct (write_into_run secs plan needed out checksum Hck Hwf Hplan Henc Hout)
    as (w0 & w & Hnew & Hrun & Hw & <- & Hz & Hh & Hwr).
  exists w0, w, (finished w). split_and!; try done. by apply finish_Ok.
Qed.

(** Streaming is invisible: however a payload is cut into writes, the sink
    ends in the state of one write of the whole payload. *)
Theorem chunking_invisible checksum w k v align s chunks :
  Checksum32Laws checksum → writer_reach checksum w → is_uint 32 k → is_uint 32 v → 0 ≤ align →
  begin_section w k v align = Ok s →
  write_chunks s chunks = write s (concat chunks).
Proof.
  intros Hck Hreach Hk Hv Ha Hb. destruct (writer_reach_inv _ _ Hck Hreach) as [Hw <-].
  destruct (begin_section_inv _ _ _ _ _ Hw Hck Hk Hv Ha Hb) as (Hs & Hcs & _).
  rewrite <-Hcs in Hck. clear -Hs Hck. unfold write_chunks. revert s Hs Hck.
  induction chunks as [|c chunks IH]; intros s Hs Hck; cbn [for_each concat].
  - destruct s as [[b es mx ck] st sk sv crc al]. pose proof (wi_buf _ (si_writer _ Hs)) as Hbuf.
    pose proof (si_crc _ Hs) as Hcrc. unfold write. cbn [writer buf w_entries max_sections w_checksum
      start s_kind s_version s_crc s_alignment_log2] in *.
    unfold vec_extend. change (zlen (@nil byte)) with 0. rewrite decide_True by lia.
    cbn [mbind res_bind mret res_ret]. by rewrite Hcrc, ck_app, !app_nil_r.
  - destruct (write s c) as [s1| | |] eqn:Hw1; cbn [mbind res_bind].
    + destruct (write_inv s c s1 Hs Hck Hw1) as (Hs1 & Hb1 & Hc1 & He1 & Hm1 & Hst1 & Hk1 & Hv1 & Ha1).
      rewrite IH by (done || by rewrite Hc1). revert Hw1. unfold write, vec_extend.
      rewrite (zlen_app c). pose proof (zlen_nonneg (concat chunks)).
      case_decide; [|done]. cbn [mbind res_bind mret res_ret]. intros <-%Ok_inj.
      cbn [writer buf w_entries max_sections w_checksum start s_kind s_version s_crc s_alignment_log2].
      rewrite zlen_app, ck_app, <-app_assoc, <-Z.add_assoc. done.
    + revert Hw1. unfold write, vec_extend. by case_decide.
    + revert Hw1. unfold write, vec_extend. rewrite (zlen_app c). pose proof (zlen_nonneg (concat chunks)).
      case_decide; [done|]. by rewrite decide_False by lia.
    + revert Hw1. unfold write, vec_extend. by case_decide.
Qed.

(** ** Patching *)

Definition set_crc (crc : Z) (e : RawSectionEntry) : RawSectionEntry := {|
  offset := offset e; length_ := length_ e; kind := kind e; version := version e; crc32c := crc;
  alignment_log2 := alignment_log2 e; flags := flags e; reserved := reserved e
|}.

Definition set_table_crc (crc : Z) (h : RawHeader) : RawHeader := {|
  magic := magic h; format_major := format_major h; format_minor := format_minor h;
  header_size := header_size h; section_count := section_count h; table_crc32c := crc;
  header_reserved := header_reserved h
|}.

Lemma patch_entry_bytes {E} e crc pre post k :
  entry_wf e → k = (length pre + ENTRY_CRC_OFFSET)%nat →
  vcopy (E:=E) (pre ++ entry_as_bytes e ++ post) k (le_bytes 4 crc) =
    Ok (pre ++ entry_as_bytes (set_crc crc e) ++ post).
Proof.
  intros [_ _ _ _ _ _ _ _] ->. unfold entry_as_bytes.
  cbn [offset length_ kind version crc32c alignment_log2 flags reserved set_crc].
  rewrite <-!app_assoc, !(app_assoc _ (le_bytes 8 _)), !(app_assoc _ (le_bytes 4 (kind e))),
    !(app_assoc _ (le_bytes 4 (version e))).
  apply vcopy_mid; [|by rewrite !length_le_bytes].
  rewrite !length_app, !length_le_bytes. unfold ENTRY_CRC_OFFSET. lia.
Qed.

Lemma patch_header_bytes {E} h crc post :
  header_wf h →
  vcopy (E:=E) (header_as_bytes h ++ post) HEADER_CRC_OFFSET (le_bytes 4 crc) =
    Ok (header_as_bytes (set_table_crc crc h) ++ post).
Proof.
  intros [Hm _ _ _ _ _ _]. unfold header_as_bytes.
  cbn [magic format_major format_minor header_size section_count table_crc32c header_reserved set_table_crc].
  rewrite <-!app_assoc, !(app_assoc (magic h)), !(app_assoc _ (le_bytes 4 (format_minor h))),
    !(app_assoc _ (le_bytes 4 (header_size h))), !(app_assoc _ (le_bytes 4 (section_count h))).
  apply vcopy_mid; [|by rewrite !length_le_bytes].
  rewrite !length_app, !length_le_bytes, Hm. done.
Qed.

Lemma set_crc_wf crc e : is_uint 32 crc → entry_wf e → entry_wf (set_crc crc e).
Proof. intros Hc []. by constructor. Qed.

Lemma set_table_crc_wf crc h : is_uint 32 crc → header_wf h → header_wf (set_table_crc crc h).
Proof. intros Hc []. by constructor. Qed.

Lemma entries_as_bytes_app es es' : entries_as_bytes (es ++ es') = entries_as_bytes es ++ entries_as_bytes es'.
Proof. unfold entries_as_bytes. by rewrite bind_app. Qed.

(** Rewriting one entry's checksum word in the table. *)
Lemma patch_table {E} h es tail i e crc :
  header_wf h → Forall entry_wf es → es !! i = Some e →
  vcopy (E:=E) (file_of h es tail) (table_end i + ENTRY_CRC_OFFSET)%nat (le_bytes 4 crc) =
    Ok (file_of h (<[i := set_crc crc e]> es) tail).
Proof.
  intros Hh Hwf Hi. pose proof (take_drop_middle _ _ _ Hi) as Hes.
  pose proof (lookup_lt_Some _ _ _ Hi) as Hlt.
  assert (length (take i es) = i) as Hti by (rewrite length_take; lia).
  assert (entry_wf e) as He by by eapply Forall_lookup_1.
  rewrite <-Hes in Hwf |- *. apply Forall_app in Hwf as [Hw1 _].
  rewrite insert_app_r_alt by lia. rewrite Hti, Nat.sub_diag. cbn [insert list_insert].
  unfold file_of. rewrite !entries_as_bytes_app.
  assert (∀ x, entries_as_bytes (x :: drop (S i) es) = entry_as_bytes x ++ entries_as_bytes (drop (S i) es))
    as Hcons by done.
  rewrite !Hcons, <-!app_assoc, !(app_assoc (header_as_bytes h)).
  apply patch_entry_bytes; [done|].
  rewrite length_app, (length_header_as_bytes _ Hh), (length_entries_as_bytes _ Hw1), Hti.
  unfold table_end. lia.
Qed.

Lemma TableOk_set_crc L es i e crc :
  es !! i = Some e → TableOk L es → TableOk L (<[i := set_crc crc e]> es).
Proof.
  intros Hi [Hk He Hb Hp].
  assert (∀ j x, <[i := set_crc crc e]> es !! j = Some x → ∃ y, es !! j = Some y ∧
    kind x = kind y ∧ offset x = offset y ∧ length_ x = length_ y ∧ (EntryOk L y → EntryOk L x)) as Hsame.
  { intros j x. rewrite list_lookup_insert_Some. intros [(-> & <- & _)|[? Hj]]; [|by exists x].
    exists e. split_and!; try done. by intros []. }
  rewrite StronglySorted_lookup in Hk, Hp. rewrite Forall_lookup in He, Hb.
  constructor.
  - apply StronglySorted_lookup. intros a b x y Hab (x' & Hx & -> & _)%Hsame (y' & Hy & -> & _)%Hsame.
    by eapply (Hk a b).
  - apply Forall_lookup. intros j x (y & Hy & _ & _ & _ & Himp)%Hsame. by eapply Himp, He.
  - apply Forall_lookup. intros j x (y & Hy & _ & -> & _)%Hsame. unfold zlen. rewrite length_insert.
    by eapply Hb.
  - apply StronglySorted_lookup. intros a b x y Hab (x' & Hx & _ & -> & -> & _)%Hsame
      (y' & Hy & _ & -> & _)%Hsame. by eapply (Hp a b).
Qed.

(** [patch_section_crc] on a file that opens: when the kind is present it
    succeeds, changes only that entry's checksum word and the header's table
    checksum, keeps every payload byte, and the result opens with a verified
    table and a verified payload for that section; when the kind is absent it
    returns [SectionMissing]. *)
Theorem patch_section_crc_correct bytes k checksum addr s :
  Checksum32Laws checksum → zlen bytes ≤ usize_max → open bytes 0 = Ok s →
  (∀ i e, entries s !! i = Some e → kind e = k →
    ∃ bytes', patch_section_crc bytes k checksum = Ok bytes' ∧ length bytes' = length bytes ∧
      drop (table_end (length (entries s))) bytes' = drop (table_end (length (entries s))) bytes ∧
      open_checked bytes' addr checksum = Ok (opened bytes' addr) ∧
      file_entries bytes' = <[i := set_crc (checksum 0
        (field bytes (Z.to_nat (offset e)) (Z.to_nat (length_ e)))) e]> (entries s)) ∧
  ((∀ e, e ∈ entries s → kind e ≠ k) → patch_section_crc bytes k checksum = Err (SectionMissing k)).
Proof.
  intros Hck Hus Hopen. pose proof (open_SnapshotOk _ _ _ Hus Hopen) as Hs.
  pose proof Hopen as [Hok Heq]%open_exact_lemma.
  assert (entries s = file_entries bytes) as Hents by by rewrite Heq.
  unfold patch_section_crc. rewrite Hopen. cbn [mbind res_bind]. split.
  - intros i e Hi Hk. rewrite (proj2 (kind_index_spec s k i Hs)) by (by exists e).
    cbn [ok_or mbind res_bind]. unfold vget. rewrite Hi. cbn [or_panic mbind res_bind].
    rewrite SnapshotOk_from_entry by (done || by eapply list_elem_of_lookup_2).
    cbn [mbind res_bind]. cbv zeta.
    replace (payload (entry_section (sn_bytes s) (sn_addr s) e))
      with (field bytes (Z.to_nat (offset e)) (Z.to_nat (length_ e))) by by rewrite Heq.
    set (crc := checksum 0 (field bytes _ _)).
    destruct (file_split bytes Hok) as (Hsplit & Hhw & Hew & Hcount).
    rewrite Hents in Hi |- *. set (es := file_entries bytes) in *.
    set (tail := drop (table_end (length es)) bytes) in *.
    pose proof Hok as [_ _ _ _ _ _ Hc _ Htab].
    assert (is_uint 32 crc) as Hcrc by (apply ck_u32; split; lia).
    set (es' := <[i:=set_crc crc e]> es).
    assert (Forall entry_wf es') as Hew'.
    { apply Forall_insert; [done|]. apply set_crc_wf; [done|]. by eapply Forall_lookup_1. }
    assert (length es' = length es) as Hles by apply length_insert.
    pose proof (patch_table (E:=SnapshotError) _ _ tail i e crc Hhw Hew Hi) as Hpt.
    rewrite <-Hsplit in Hpt. unfold table_end at 1 in Hpt. rewrite Hpt. cbn [mbind res_bind]. fold es'.
    set (crc' := checksum 0 (entries_as_bytes es')).
    assert (is_uint 32 crc') as Hcrc' by (apply ck_u32; split; lia).
    set (h' := set_table_crc crc' (header_of_bytes bytes)).
    assert (header_wf h') as Hhw' by by apply set_table_crc_wf.
    assert (section_count h' = zlen es') as Hcount' by (unfold zlen; rewrite Hles; exact Hcount).
    assert (zlen (file_of h' es' tail) = zlen bytes) as Hlen.
    { rewrite Hsplit. unfold zlen. by rewrite !length_file_of, Hles by done. }
    pose proof (length_entries_as_bytes _ Hew') as Hleb.
    pose proof (file_of_table (E:=SnapshotError) _ _ tail Hhw Hew') as Hvs.
    rewrite Hles in Hvs. unfold table_end at 1 in Hvs. rewrite Hvs. cbn [mbind res_bind].
    unfold table_checksum. fold crc'.
    exists (file_of h' es' tail). split; [by apply patch_header_bytes|].
    split; [unfold zlen in Hlen; lia|]. split; [|split].
    + unfold file_of. rewrite app_assoc, drop_app_length'; [done|].
      rewrite length_app, Hleb, (length_header_as_bytes _ Hhw'), Hles. unfold table_end. lia.
    + apply open_checked_file_of; try done.
      * apply validate_header_Ok. split_and!; apply Hok.
      * rewrite <-Hcount'. exact Hc.
      * rewrite Hlen. by apply TableOk_set_crc.
    + apply file_of_entries; done.
  - intros Hno. destruct (kind_index (entries s) k) as [i|] eqn:Hi; [|done].
    apply (kind_index_spec s k i Hs) in Hi as (e & He & Hk).
    destruct (Hno e); [by eapply list_elem_of_lookup_2|done].
Qed.

End facts.

(** ** The bundled CRC-32C as the checksum *)

#[export] Instance crc32c_laws : Checksum32Laws crc32c_append.
Proof.
  split; [apply crc32c_append_u32|apply crc32c_append_app|apply crc32c_append_nil].
Qed.

Definition demo_sections : list PendingSection :=
  [{| p_kind := 1; p_version := 1; p_alignment_log2 := 0; p_payload := [Byte.x01; Byte.x02; Byte.x03] |};
   {| p_kind := 7; p_version := 2; p_alignment_log2 := 3; p_payload := [Byte.x0a; Byte.x0b] |}].

Lemma demo_sections_wf : Forall pending_wf demo_sections.
Proof. repeat constructor; vm_compute; congruence. Qed.

Lemma plan_roundtrip_witness :
  ∃ bytes s, @write_into target64 {| plan_sections := demo_sections |} (replicate 120 Byte.xff) crc32c_append
      = Ok (bytes ++ replicate 14 Byte.xff, 106) ∧
    @open_checked target64 bytes 0 crc32c_append = Ok s ∧ @verify_all target64 s crc32c_append = Ok ().
Proof.
  destruct (@plan_roundtrip target64 demo_sections {| plan_sections := demo_sections |} 106
    (replicate 120 Byte.xff) crc32c_append 0 crc32c_laws demo_sections_wf)
    as (bytes & s & views & Hw & _ & Ho & Hv & _);
    [reflexivity|reflexivity|split; vm_compute; discriminate|].
  exists bytes, s. split_and!; [exact Hw|exact Ho|exact Hv].
Defined.

Lemma writer_equals_plan_witness :
  ∃ w0 w bytes, @SnapshotWriter_new target64 2 crc32c_append = Ok w0 ∧
    for_each (@write_pending target64) demo_sections w0 = Ok w ∧ finish w = Ok bytes ∧
    @write_into target64 {| plan_sections := demo_sections |} (replicate 106 Byte.xff) crc32c_append
      = Ok (bytes ++ [], 106).
Proof.
  apply (@writer_equals_plan target64 demo_sections {| plan_sections := demo_sections |} 106
    (replicate 106 Byte.xff) crc32c_append crc32c_laws demo_sections_wf);
    [reflexivity|reflexivity|split; vm_compute; discriminate].
Defined.

Lemma fresh_reach : writer_reach (H:=target64) crc32c_append (fresh_writer 2 crc32c_append).
Proof. apply (reach_new _ 2 0); [lia|reflexivity]. Qed.

Lemma writer_finish_opens_witness :
  ∃ bytes s, finish (fresh_writer 2 crc32c_append) = Ok bytes ∧
    @open_checked target64 bytes 0 crc32c_append = Ok s.
Proof.
  destruct (@writer_finish_opens target64 crc32c_append (fresh_writer 2 crc32c_append) 0
    crc32c_laws fresh_reach) as (bytes & s & Hf & _ & Ho & _).
  exists bytes, s. split; [exact Hf|exact Ho].
Defined.

Lemma chunking_invisible_witness :
  ∃ s, @begin_section target64 (fresh_writer 2 crc32c_append) 5 1 2 = Ok s ∧
    @write_chunks target64 s [[Byte.x01]; []; [Byte.x02; Byte.x03]] = @write target64 s [Byte.x01; Byte.x02; Byte.x03].
Proof.
  eexists. split; [reflexivity|].
  apply (@chunking_invisible target64 crc32c_append (fresh_writer 2 crc32c_append) 5 1 2 _
    [[Byte.x01]; []; [Byte.x02; Byte.x03]] crc32c_laws fresh_reach);
    [split; lia|split; lia|lia|reflexivity].
Defined.

Lemma patch_section_crc_correct_witness :
  (∃ bytes', @patch_section_crc target64 demo_file 7 crc32c_append = Ok bytes' ∧
    @open_checked target64 bytes' 0 crc32c_append = Ok (opened bytes' 0)) ∧
  @patch_section_crc target64 demo_file 3 crc32c_append = Err (SectionMissing 3).
Proof.
  split.
  - destruct (@patch_section_crc_correct target64 demo_file 7 crc32c_append 0 (opened demo_file 0)
      crc32c_laws ltac:(vm_compute; discriminate) ltac:(vm_compute; reflexivity)) as [Hp _].
    destruct (Hp 1%nat (entry_of_bytes (field demo_file 64 32)) ltac:(vm_compute; reflexivity)
      ltac:(vm_compute; reflexivity)) as (bytes' & Hb & _ & _ & Ho & _).
    exists bytes'. split; [exact Hb|exact Ho].
  - vm_compute. reflexivity.
Defined.
