(* ===== verification/SnapshotTyped.v ===== *)
(** * SnapshotTyped: typed sections written and read back

    [typed_section] on any opened snapshot returns normally, and on a file a
    writer finished it returns the very words that were written. Shared by the
    clients that export and reopen integer arrays. *)

From stdpp Require Import base gmap sets list sorting.
From S2P Require Import Prelude Bytes Layout Crc Snapshot SnapshotFacts SnapshotWrite SnapshotWriteFacts.

Local Open Scope Z_scope.

Section typed.
Context `{!Target}.

(** Lookup of a kind: the section of the one entry that has it, or nothing. *)
Lemma section_cases {E} s k :
  SnapshotOk s →
  (∃ e, e ∈ entries s ∧ kind e = k ∧
    section (E:=E) s k = Ok (Some (entry_section (sn_bytes s) (sn_addr s) e))) ∨
  ((∀ e, e ∈ entries s → kind e ≠ k) ∧ section (E:=E) s k = Ok None).
Proof.
  intros Hs. unfold section. destruct (kind_index (entries s) k) as [i|] eqn:Hi.
  - left. apply (kind_index_spec s k i Hs) in Hi as (e & He & Hk).
    assert (e ∈ entries s) as Hin by by eapply list_elem_of_lookup_2.
    exists e. unfold vget. rewrite He. cbn [or_panic mbind res_bind]. by rewrite SnapshotOk_from_entry by done.
  - right. split; [|done]. intros e [j Hj]%list_elem_of_lookup Hk.
    assert (kind_index (entries s) k = Some j) by (apply kind_index_spec; eauto). congruence.
Qed.

Lemma returns_typed_section sw s k v : SnapshotOk s → returns (typed_section sw s k v).
Proof.
  intros Hs. unfold typed_section. destruct (section_cases (E:=SectionBindError) s k Hs) as [(e & _ & _ & ->)|[_ ->]];
    cbn [mbind res_bind ok_or]; [|done].
  case_decide; [done|]. unfold try_as_slice. by repeat case_decide.
Qed.

(** The payload of a typed section. *)
Definition words_payload {sw} (ws : list (le_word sw)) : list byte := concat (word_bytes <$> ws).

Lemma length_words_payload {sw} (ws : list (le_word sw)) :
  length (words_payload ws) = (swidth_size sw * length ws)%nat.
Proof.
  unfold words_payload. induction ws as [|w ws IH]; [cbn; lia|]. cbn [fmap list_fmap concat length].
  rewrite length_app, IH, word_length. lia.
Qed.

Lemma swidth_size_pos sw : (0 < swidth_size sw)%nat.
Proof. destruct sw; cbn; lia. Qed.

Lemma words_payload_chunk {sw} (ws : list (le_word sw)) i w :
  ws !! i = Some w → field (words_payload ws) (swidth_size sw * i) (swidth_size sw) = word_bytes w.
Proof.
  intros Hi. rewrite <-(take_drop_middle _ _ _ Hi) at 1. unfold words_payload.
  rewrite fmap_app, concat_app. cbn [fmap list_fmap concat].
  pose proof (length_words_payload (take i ws)) as Hl. unfold words_payload in Hl.
  rewrite length_take_le in Hl by (apply lookup_lt_Some in Hi; lia). unfold field.
  rewrite drop_app_length' by done. by rewrite take_app_length' by (by rewrite word_length).
Qed.

Lemma typed_chunks {sw} (ws : list (le_word sw)) sec :
  payload sec = words_payload ws →
  try_as_slice sec (swidth_size sw) 1 = Ok (word_bytes <$> ws).
Proof.
  intros Hp. unfold try_as_slice. pose proof (swidth_size_pos sw) as Hpos. rewrite Hp.
  rewrite length_words_payload. rewrite decide_False by lia.
  rewrite Nat.mul_comm, Nat.Div0.mod_mul, Nat.div_mul by lia. rewrite decide_False by lia.
  rewrite Z.mod_1_r, decide_False by lia. f_equal.
  apply list_eq_same_length with (length ws); [by rewrite length_fmap|by rewrite length_fmap, length_seq|].
  intros i x y Hi (j & -> & [-> _]%lookup_seq)%list_lookup_fmap_Some (w & -> & Hw)%list_lookup_fmap_Some.
  by apply words_payload_chunk.
Qed.

(** A typed section holding [ws] is read back as [ws]. *)
Lemma typed_section_Ok {sw} (ws : list (le_word sw)) s k v e :
  SnapshotOk s → e ∈ entries s → kind e = k → version e = v →
  field (sn_bytes s) (Z.to_nat (offset e)) (Z.to_nat (length_ e)) = words_payload ws →
  typed_section sw s k v = Ok ws.
Proof.
  intros Hs He Hk Hv Hp. unfold typed_section.
  destruct (section_cases (E:=SectionBindError) s k Hs) as [(e' & He' & Hk' & ->)|[Hno _]].
  2:{ by destruct (Hno e He). }
  assert (e' = e) as ->.
  { apply list_elem_of_lookup in He as [i Hi], He' as [j Hj].
    assert (i = j) as ->; [|congruence]. eapply SnapshotOk_kind_unique; [done..|]. congruence. }
  cbn [mbind res_bind ok_or sec_version entry_section]. rewrite decide_False by (intros Hne; by apply Hne).
  rewrite (typed_chunks ws) by exact Hp. cbn [map_err mbind res_bind]. f_equal.
  change (map (λ c, to_le_word sw (le_val c)) (word_bytes <$> ws)) with
    ((λ c, to_le_word sw (le_val c)) <$> (word_bytes <$> ws)).
  rewrite <-list_fmap_compose. rewrite <-(list_fmap_id ws) at 2. apply list_fmap_ext. intros i w _.
  apply to_from_le_word.
Qed.

(** ** Writing typed sections *)

(** The section [section_widths] writes. *)
Definition widths_section (sw : swidth) (k v : Z) (values : list Z) : PendingSection := {|
  p_kind := k; p_version := v; p_alignment_log2 := 0; p_payload := words_payload (slice_to_le sw values)
|}.

Lemma section_widths_pending sw w k v values :
  section_widths sw w k v values = write_pending w (widths_section sw k v values).
Proof. done. Qed.

Lemma zlen_widths sw k v values :
  zlen (p_payload (widths_section sw k v values)) = Z.of_nat (swidth_size sw) * zlen values.
Proof. unfold zlen. cbn [p_payload widths_section]. rewrite length_words_payload. unfold slice_to_le. rewrite length_fmap. lia. Qed.

(** Sections with ascending kinds, written one after the other into a writer
    with room for them; [a] bounds their alignments, and so the padding. *)
Lemma write_sections a secs w done_ :
  0 ≤ a ≤ MAX_ALIGNMENT_LOG2 → WriterInv w → Checksum32Laws (w_checksum w) →
  Forall (λ p, pending_wf p ∧ p_alignment_log2 p ≤ a) secs →
  StronglySorted Z.lt (option_list (kind <$> last (w_entries w)) ++ (p_kind <$> secs)) →
  zlen (w_entries w) + zlen secs ≤ max_sections w →
  zlen (buf w) + zlen (concat (p_payload <$> secs)) + (2 ^ a - 1) * zlen secs ≤ isize_max →
  Forall2 (entry_holds (buf w)) (w_entries w) done_ →
  ∃ w', for_each write_pending secs w = Ok w' ∧ WriterInv w' ∧ w_checksum w' = w_checksum w ∧
    Forall2 (entry_holds (buf w')) (w_entries w') (done_ ++ secs).
Proof.
  intros Ha0. revert w done_. induction secs as [|p secs IH]; intros w done_ Hw Hck Hwf Hs Hroom Hlen Hd.
  { exists w. by rewrite app_nil_r. }
  apply Forall_cons in Hwf as [[Hp Hal] Hwf]. cbn [fmap list_fmap concat] in Hlen, Hs.
  rewrite zlen_app in Hlen. pose proof (zlen_nonneg (concat (p_payload <$> secs))) as Hpos.
  pose proof (zlen_nonneg (buf w)) as Hb. pose proof isize_usize_max as His. pose proof (zlen_nonneg secs) as Hns.
  pose proof (zlen_nonneg (p_payload p)) as Hnp. pose proof (pw_align _ Hp) as Hal0.
  assert (1 ≤ 2 ^ p_alignment_log2 p ≤ 2 ^ a) as Hpow.
  { split; [change 1 with (2 ^ 0)|]; apply Z.pow_le_mono_r; lia. }
  assert (zlen (p :: secs) = 1 + zlen secs) as Hc by (unfold zlen; cbn [length]; lia). rewrite Hc in Hlen, Hroom.
  assert (zlen (w_entries w) < max_sections w) as Hr by lia.
  assert (plan_check (kind <$> last (w_entries w)) p = Ok (Some (p_kind p))) as Hpc.
  { apply plan_check_Ok. split; [lia|]. split; [|done].
    intros k Hk. rewrite Hk in Hs. cbn in Hs. apply StronglySorted_inv in Hs as [_ Hs].
    by apply Forall_cons in Hs as [? _]. }
  pose proof (align_up_bounds (zlen (buf w)) (p_alignment_log2 p) Hal0) as Hau.
  assert (zlen (buf (add_section w p)) = align_up (zlen (buf w)) (p_alignment_log2 p) + zlen (p_payload p)) as Hz
    by (apply zlen_add_section; lia).
  assert (0 ≤ (2 ^ a - 1) * zlen secs) by nia.
  cbn [for_each]. rewrite (write_pending_Ok w p (Some (p_kind p))) by (done || lia). cbn [mbind res_bind].
  destruct (IH (add_section w p) (done_ ++ [p])) as (w' & Hrun & Hw' & Hc' & Hd').
  - apply (add_section_inv w p (Some (p_kind p))); (done || lia).
  - done.
  - done.
  - cbn [w_entries add_section]. rewrite last_snoc. cbn [fmap option_fmap option_map option_list kind plan_entry app].
    destruct (last (w_entries w)); [|exact Hs]. by apply StronglySorted_inv in Hs as [? _].
  - cbn [w_entries max_sections add_section]. rewrite zlen_app. change (zlen [_]) with 1. lia.
  - rewrite Hz. lia.
  - apply add_section_holds; [done|lia|done].
  - exists w'. rewrite <-app_assoc in Hd'. by split_and!.
Qed.

(** What an opened file shows of a section that was written. *)
Definition section_shows (v : Section_) (p : PendingSection) : Prop :=
  sec_kind v = p_kind p ∧ sec_version v = p_version p ∧ payload v = p_payload p ∧ sec_alignment_log2 v = p_alignment_log2 p.

Section shown.
Context (s : Snapshot) (secs : list PendingSection) (Hs : SnapshotOk s).
Context (Hh : Forall2 (entry_holds (sn_bytes s)) (entries s) secs).

Lemma holds_typed sw k v values :
  widths_section sw k v values ∈ secs → typed_section sw s k v = Ok (slice_to_le sw values).
Proof using Hs Hh.
  intros [i Hi]%list_elem_of_lookup. destruct (Forall2_lookup_r _ _ _ _ _ Hh Hi) as (e & He & Hk & Hv & Ha & Hf).
  apply (typed_section_Ok _ _ _ _ e); [done|by eapply list_elem_of_lookup_2|done|done|done].
Qed.

Lemma entry_section_shows e p : entry_holds (sn_bytes s) e p → section_shows (entry_section (sn_bytes s) (sn_addr s) e) p.
Proof using Type. intros (Hk & Hv & Ha & Hf). by split_and!. Qed.

Lemma holds_section {E} p : p ∈ secs → ∃ v, section (E:=E) s (p_kind p) = Ok (Some v) ∧ section_shows v p.
Proof using Hs Hh.
  intros [i Hi]%list_elem_of_lookup. destruct (Forall2_lookup_r _ _ _ _ _ Hh Hi) as (e & He & Hp).
  destruct (section_cases (E:=E) s (p_kind p) Hs) as [(e' & He' & Hk' & ->)|[Hno _]].
  - eexists. split; [done|]. apply entry_section_shows. apply list_elem_of_lookup in He' as [j Hj].
    assert (i = j) as ->; [|congruence]. eapply SnapshotOk_kind_unique; [done..|]. rewrite Hk'. apply Hp.
  - destruct (Hno e); [by eapply list_elem_of_lookup_2|apply Hp].
Qed.

Lemma holds_sections {E} : ∃ vs, sections (E:=E) s = Ok vs ∧ Forall2 section_shows vs secs.
Proof using Hs Hh.
  eexists. split; [by apply SnapshotOk_sections|]. apply Forall2_fmap_l. eapply Forall2_impl; [exact Hh|].
  intros e p. apply entry_section_shows.
Qed.

End shown.

(** The finished writer reopens, and shows what was written. *)
Lemma finished_opens w secs addr :
  WriterInv w → Checksum32Laws (w_checksum w) → Forall2 (entry_holds (buf w)) (w_entries w) secs →
  let s := opened (finished w) addr in
  open_checked (finished w) addr (w_checksum w) = Ok s ∧ SnapshotOk s ∧ Forall2 (entry_holds (sn_bytes s)) (entries s) secs.
Proof.
  intros Hw Hck Hh. destruct (finish_opens w addr Hw Hck) as (Hopen & Hlen & Hent & _ & Hfld).
  cbv zeta. split; [done|]. apply bind_Ok_inv in Hopen as (s0 & Hop & Hcase). cbv zeta in Hcase.
  case_decide; [done|]. apply Ok_inj in Hcase as ->. split.
  { eapply open_SnapshotOk; [|exact Hop]. rewrite Hlen. pose proof (wi_buf _ Hw). pose proof isize_usize_max. lia. }
  rewrite Hent. apply Forall2_same_length_lookup in Hh as [Hl Hh]. apply Forall2_same_length_lookup. split; [done|].
  intros i e p He Hp. destruct (Hh i e p He Hp) as (?&?&?&Hf). split_and!; try done. cbn [sn_bytes opened].
  by rewrite Hfld by (by eapply list_elem_of_lookup_2).
Qed.

(** A file of plain sections, written in one go and opened anywhere. *)
Lemma plain_file secs checksum :
  Checksum32Laws checksum → Forall (λ p, pending_wf p ∧ p_alignment_log2 p = 0) secs →
  StronglySorted Z.lt (p_kind <$> secs) → zlen secs ≤ MAX_SECTION_COUNT →
  Z.of_nat HEADER_SIZE + zlen secs * Z.of_nat SECTION_ENTRY_SIZE + zlen (concat (p_payload <$> secs)) ≤ isize_max →
  ∃ w0 w bytes, SnapshotWriter_new (zlen secs) checksum = Ok w0 ∧ for_each write_pending secs w0 = Ok w ∧
    finish w = Ok bytes ∧ zlen bytes ≤ isize_max ∧ ∀ addr, open_checked bytes addr checksum = Ok (opened bytes addr) ∧
    SnapshotOk (opened bytes addr) ∧ Forall2 (entry_holds bytes) (entries (opened bytes addr)) secs.
Proof.
  intros Hck Hwf Hs Hcount Hsize. pose proof (zlen_nonneg secs) as Hnn.
  match type of Hsize with _ + zlen ?l ≤ _ => pose proof (zlen_nonneg l) end.
  assert (SnapshotWriter_new (zlen secs) checksum = Ok (fresh_writer (zlen secs) checksum)) as Hnew
    by (apply SnapshotWriter_new_Ok; lia).
  destruct (with_payload_capacity_inv (zlen secs) 0 checksum _ Hnn Hnew) as (Hw0 & _).
  destruct (write_sections 0 secs (fresh_writer (zlen secs) checksum) []) as (w & Hrun & Hw & Hc & Hh).
  - unfold MAX_ALIGNMENT_LOG2. lia.
  - done.
  - done.
  - eapply Forall_impl; [exact Hwf|]. intros p [? ->]. done.
  - exact Hs.
  - cbn [w_entries max_sections fresh_writer]. unfold zlen at 1. cbn [length]. lia.
  - cbn [buf fresh_writer]. replace (zlen (replicate _ _)) with
      (Z.of_nat HEADER_SIZE + zlen secs * Z.of_nat SECTION_ENTRY_SIZE) by (unfold zlen at 2; rewrite length_replicate; lia).
    lia.
  - constructor.
  - cbn [w_checksum fresh_writer app] in *. exists (fresh_writer (zlen secs) checksum), w, (finished w).
    rewrite <-Hc in Hck. split; [done|]. split; [done|]. split; [by apply finish_Ok|]. split.
    { destruct (finish_opens w 0 Hw Hck) as (_ & -> & _). apply Hw. }
    intros addr. rewrite <-Hc. apply (finished_opens w secs addr Hw Hck Hh).
Qed.

End typed.
