(* ===== verification/Wal.v ===== *)
(** * Wal: the delta log and the superblock

    Models [crates/oxgraph-db/src/wal.rs]: encoding a commit, parsing and
    replaying a log, appending with rollback, and the superblock file. The CRC
    comes from the [crc32c] crate and is the parameter [ck]; the file system
    enters [append_commit] as the outcome of each of its calls.

    A log of encoded commits replays to those commits, whole or cut anywhere
    (the crash during an append); what replay accepts is exactly the encoding of
    the frames it returns; and the superblock is read back as written. *)

From Stdlib Require Import String.
From stdpp Require Import base gmap sets list strings sorting.
From S2P Require Import Prelude Bytes DbError DbWire Layout Crc Snapshot SnapshotFacts SnapshotWrite SnapshotWriteFacts.

Local Open Scope Z_scope.

Record CommitFrame := {
  cf_lsn : Z;
  cf_txn_id : Z;
  cf_base_generation : Z;
  cf_ops : list MutationOp;
  cf_blob : list byte
}.

Record ReplayOutcome := {
  ro_frames : list CommitFrame;
  ro_valid_len : Z;
  ro_last_lsn : Z;
  ro_last_txn : Z
}.

Inductive RecordParse :=
  | Stop
  | Loud (error : StorageError)
  | ParsedFrame (frame : CommitFrame) (len : Z).

Record LsnCursor := { lc_last_lsn : Z; lc_seen : bool }.

Definition LOG_CRC_OFFSET : nat := HEADER_LEN - 4.

Section wal.
Context `{!Target} (ck : Checksum32).

(** [checksum_append] is [ck]. *)
Definition wal_checksum (bytes : list byte) : Z := ck 0 bytes.

(** [v as usize] for a [u32]. *)
Definition as_usize (v : Z) : Z := v mod 2 ^ usize_bits.

Definition record_crc {E} (record : list byte) : res E Z :=
  prefix ← vslice record 0 LOG_CRC_OFFSET;
  suffix ← vslice record (LOG_CRC_OFFSET + 4)%nat (length record);
  Ok (ck (wal_checksum prefix) suffix).

(** ** Encoding *)

(** The arithmetic on [usize] panics on overflow. *)
Definition encode_commit (lsn txn_id base_generation : Z) (ops : list MutationOp) (blob : list byte)
    : res StorageError (list byte) :=
  ops_len ← or_panic (checked_mul usize_max (zlen ops) (Z.of_nat OP_LEN));
  len ← or_panic (checked_add usize_max (Z.of_nat HEADER_LEN) ops_len);
  len ← or_panic (checked_add usize_max len (zlen blob));
  len_u32 ← ok_or (InvalidStore "delta-log record too large") (try_into u32_max len);
  op_count_u32 ← ok_or (InvalidStore "delta-log op count too large") (try_into u32_max (zlen ops));
  let header := {| h_base_generation := base_generation; h_lsn := lsn; h_txn_id := txn_id; h_magic := OXGLOGR;
                   h_len := len_u32; h_op_count := op_count_u32; h_crc32c := 0 |} in
  _ ← vec_with_capacity len;
  let record := header_bytes header ++ concat (op_bytes <$> ops) ++ blob in
  crc ← record_crc record;
  vcopy record LOG_CRC_OFFSET (le_bytes 4 crc).

(** ** Parsing *)

Definition decode_ops {E} (record : list byte) (framed_min op_count : Z) : res E (list MutationOp * list byte) :=
  ops_bytes ← vslice record HEADER_LEN (Z.to_nat framed_min);
  _ ← vec_with_capacity (op_count * Z.of_nat OP_LEN);
  let ops := read_op <$> chunks OP_LEN (length ops_bytes / OP_LEN) ops_bytes in
  blob ← vslice record (Z.to_nat framed_min) (length record);
  Ok (ops, blob).

Definition tail_or_loud (is_last : bool) (error : StorageError) : RecordParse :=
  if is_last then Stop else Loud error.

Definition body_len (op_count : Z) : option Z :=
  ops_bytes ← checked_mul usize_max op_count (Z.of_nat OP_LEN);
  checked_add usize_max ops_bytes (Z.of_nat HEADER_LEN).

Definition parse_one_record {E} (base_generation : Z) (remaining : list byte) (cursor : LsnCursor)
    : res E RecordParse :=
  if decide (zlen remaining < Z.of_nat HEADER_LEN) then Ok Stop else
  head ← vslice remaining 0 HEADER_LEN;
  let header := read_header head in
  let len := as_usize (h_len header) in
  let op_count := as_usize (h_op_count header) in
  let lsn := h_lsn header in
  let body := body_len op_count in
  let frame_well_framed := match body with Some body_bytes => bool_decide (body_bytes ≤ len) | None => false end &&
    bool_decide (len ≤ zlen remaining) && bool_decide (Z.of_nat HEADER_LEN ≤ len) in
  let is_last := negb frame_well_framed || bool_decide (zlen remaining ≤ len) in
  if decide (h_magic header ≠ OXGLOGR)
  then Ok (tail_or_loud is_last (LogCorrupt lsn "delta-log record magic mismatch")) else
  let record_generation := h_base_generation header in
  if decide (record_generation ≠ base_generation)
  then Ok (tail_or_loud is_last (BaseGenerationMismatch base_generation record_generation)) else
  match body with
  | None => Ok Stop
  | Some framed_min =>
      if decide (len < framed_min ∨ len < Z.of_nat HEADER_LEN)
      then Ok (tail_or_loud is_last (LogCorrupt lsn "delta-log record length undershoots its framing")) else
      if decide (zlen remaining < len) then Ok Stop else
      record ← vslice remaining 0 (Z.to_nat len);
      crc ← record_crc record;
      if decide (crc ≠ h_crc32c header)
      then Ok (tail_or_loud is_last (LogCorrupt lsn "delta-log record checksum mismatch")) else
      if decide (lc_seen cursor = true ∧ lsn ≤ lc_last_lsn cursor)
      then Ok (Loud (LogCorrupt lsn "delta-log record LSN not strictly ascending")) else
      '(ops, blob) ← decode_ops record framed_min op_count;
      Ok (ParsedFrame {| cf_lsn := lsn; cf_txn_id := h_txn_id header; cf_base_generation := record_generation;
                         cf_ops := ops; cf_blob := blob |} len)
  end.

(** ** Replay *)

Record ReplayState := {
  rs_frames : list CommitFrame;
  rs_offset : Z;
  rs_valid_len : Z;
  rs_last_lsn : Z;
  rs_last_txn : Z;
  rs_seen : bool
}.

Definition replay_start : ReplayState :=
  {| rs_frames := []; rs_offset := 0; rs_valid_len := 0; rs_last_lsn := 0; rs_last_txn := 0; rs_seen := false |}.

Definition replay_outcome (s : ReplayState) : ReplayOutcome :=
  {| ro_frames := rs_frames s; ro_valid_len := rs_valid_len s; ro_last_lsn := rs_last_lsn s;
     ro_last_txn := rs_last_txn s |}.

Definition push_frame (s : ReplayState) (frame : CommitFrame) (len : Z) : ReplayState := {|
  rs_frames := rs_frames s ++ [frame];
  rs_offset := rs_offset s + len;
  rs_valid_len := rs_offset s + len;
  rs_last_lsn := cf_lsn frame;
  rs_last_txn := cf_txn_id frame;
  rs_seen := true
|}.

(** Every accepted record is at least a header long, so one round of fuel per
    byte is enough. *)
Fixpoint replay_loop (fuel : nat) (base_generation : Z) (log : list byte) (s : ReplayState)
    : res StorageError ReplayOutcome :=
  match fuel with
  | O => NoFuel
  | S fuel =>
      if decide (rs_offset s < zlen log) then
        remaining ← vslice log (Z.to_nat (rs_offset s)) (length log);
        parsed ← parse_one_record base_generation remaining
          {| lc_last_lsn := rs_last_lsn s; lc_seen := rs_seen s |};
        match parsed with
        | Stop => Ok (replay_outcome s)
        | Loud error => Err error
        | ParsedFrame frame len => replay_loop fuel base_generation log (push_frame s frame len)
        end
      else Ok (replay_outcome s)
  end.

Definition replay (base_generation : Z) (log : list byte) : res StorageError ReplayOutcome :=
  replay_loop (S (length log)) base_generation log replay_start.

(** ** The superblock file *)

(** [SuperblockRecord::read_from_bytes] wants exactly the record's size; a missing file is [None]. *)
Definition read_superblock (file : option (list byte)) : res StorageError SuperblockRecord :=
  bytes ← ok_or NotFound file;
  if decide (length bytes ≠ SUPERBLOCK_LEN) then Err (InvalidStore "superblock size mismatch") else
  let record := superblock_of_bytes bytes in
  if decide (sb_magic record ≠ SUPERBLOCK_MAGIC) then Err (InvalidStore "superblock magic mismatch") else
  prefix ← vslice bytes 0 SUPERBLOCK_CRC_PREFIX_LEN;
  if decide (sb_crc32c record ≠ wal_checksum prefix) then Err (InvalidStore "superblock checksum mismatch") else
  if decide (sb_format_version record ≠ OXGDB_FORMAT_VERSION)
  then Err (InvalidStore "superblock format version unsupported") else
  if decide (sb_flags record ≠ 0 ∨ sb_pad record ≠ 0)
  then Err (InvalidStore "superblock reserved word not zero") else
  Ok record.

Definition set_superblock_crc (sb : SuperblockRecord) (crc : Z) : SuperblockRecord := {|
  sb_magic := sb_magic sb; sb_base_generation := sb_base_generation sb; sb_checkpoint_lsn := sb_checkpoint_lsn sb;
  sb_log_byte_offset := sb_log_byte_offset sb; sb_commit_seq := sb_commit_seq sb;
  sb_transaction_id := sb_transaction_id sb; sb_format_version := sb_format_version sb; sb_flags := sb_flags sb;
  sb_crc32c := crc; sb_pad := sb_pad sb
|}.

(** The bytes [write_superblock] publishes. *)
Definition write_superblock (sb : SuperblockRecord) : res StorageError (list byte) :=
  let record := set_superblock_crc sb 0 in
  prefix ← vslice (superblock_bytes record) 0 SUPERBLOCK_CRC_PREFIX_LEN;
  Ok (superblock_bytes (set_superblock_crc record (wal_checksum prefix))).

End wal.

(** ** Appending *)

(** What the file system answers: whether the seek, the write, the sync and the
    truncation succeed, and how many bytes of a failed write reached the file. *)
Record AppendIo := {
  io_seek : bool;
  io_write : bool;
  io_written : nat;
  io_sync : bool;
  io_truncate : bool
}.

(** The file after [rollback_to(log, eof)]. *)
Definition rollback_to (io : AppendIo) (log : list byte) (eof : nat) : list byte :=
  if io_truncate io then take eof log else log.

(** The file afterwards, and the result. *)
Definition append_commit (io : AppendIo) (log frame : list byte) : list byte * res StorageError () :=
  if io_seek io then
    let eof := length log in
    if io_write io then
      let log := log ++ frame in
      if io_sync io then (log, Ok ())
      else (rollback_to io log eof, Err (Io "sync delta-log"))
    else (rollback_to io (log ++ take (io_written io) frame) eof, Err (Io "append delta-log record"))
  else (log, Err (Io "seek delta-log end")).

(** ** Properties of the log *)

(** ** Encoded commits *)

Record frame_wf (c : CommitFrame) : Prop := {
  fw_generation : is_uint 64 (cf_base_generation c);
  fw_lsn : is_uint 64 (cf_lsn c);
  fw_txn : is_uint 64 (cf_txn_id c);
  fw_ops : Forall op_wf (cf_ops c)
}.

Definition commit_len (c : CommitFrame) : Z :=
  Z.of_nat HEADER_LEN + zlen (cf_ops c) * Z.of_nat OP_LEN + zlen (cf_blob c).

Definition commit_header (c : CommitFrame) (crc : Z) : LogRecordHeader := {|
  h_base_generation := cf_base_generation c; h_lsn := cf_lsn c; h_txn_id := cf_txn_id c; h_magic := OXGLOGR;
  h_len := commit_len c; h_op_count := zlen (cf_ops c); h_crc32c := crc
|}.

Definition commit_body (c : CommitFrame) : list byte := concat (op_bytes <$> cf_ops c) ++ cf_blob c.

Definition header_prefix (h : LogRecordHeader) : list byte := take LOG_CRC_OFFSET (header_bytes h).

Lemma header_bytes_split h : header_bytes h = header_prefix h ++ le_bytes 4 (h_crc32c h).
Proof.
  unfold header_prefix. rewrite <-(take_drop LOG_CRC_OFFSET (header_bytes h)) at 1.
  apply (f_equal (app _)). unfold header_bytes. rewrite !app_assoc. apply drop_app_length'.
  by rewrite !length_app, !length_le_bytes.
Qed.

Lemma length_header_prefix h : length (header_prefix h) = LOG_CRC_OFFSET.
Proof. unfold header_prefix. by rewrite length_take, length_header_bytes. Qed.

Lemma header_prefix_crc c crc crc' : header_prefix (commit_header c crc) = header_prefix (commit_header c crc').
Proof.
  unfold header_prefix, header_bytes, commit_header.
  cbn [h_base_generation h_lsn h_txn_id h_magic h_len h_op_count h_crc32c].
  rewrite !app_assoc. rewrite !take_app_length' by (by rewrite !length_app, !length_le_bytes). done.
Qed.

(** Slices from the front. *)
Lemma vslice_take {E A} (l : list A) n : (n ≤ length l)%nat → vslice (E:=E) l 0 n = Ok (take n l).
Proof. intros Hn. unfold vslice. rewrite decide_True by lia. by rewrite drop_0, Nat.sub_0_r. Qed.

Lemma vslice_prefix {E A} (a b : list A) n : n = length a → vslice (E:=E) (a ++ b) 0 n = Ok a.
Proof. intros ->. rewrite vslice_take by (rewrite length_app; lia). by rewrite take_app_length. Qed.

Lemma vslice_suffix {E A} (a b : list A) n m :
  n = length a → m = length (a ++ b) → vslice (E:=E) (a ++ b) n m = Ok b.
Proof.
  intros -> ->. unfold vslice. rewrite decide_True by (rewrite length_app; lia).
  rewrite drop_app_length, take_ge by (rewrite length_app; lia). done.
Qed.

(** The record sizes as numbers, for [lia]. *)
Ltac sizes := change (Z.of_nat OP_LEN) with 80 in *; change (Z.of_nat HEADER_LEN) with 40 in *.

Section wal.
Context `{!Target} (ck : Checksum32) `{!Checksum32Laws ck}.

Definition commit_crc (c : CommitFrame) : Z := ck (ck 0 (header_prefix (commit_header c 0))) (commit_body c).
Definition commit_record (c : CommitFrame) : list byte :=
  header_bytes (commit_header c (commit_crc c)) ++ commit_body c.

(** A commit whose record has a length the framing can hold. *)
Definition encodable (c : CommitFrame) : Prop := frame_wf c ∧ commit_len c ≤ u32_max ∧ commit_len c ≤ isize_max.

Lemma length_commit_body c : Forall op_wf (cf_ops c) → zlen (commit_body c) = zlen (cf_ops c) * Z.of_nat OP_LEN + zlen (cf_blob c).
Proof.
  intros Hops. unfold commit_body. rewrite zlen_app. f_equal. unfold zlen.
  rewrite (length_concat_all OP_LEN), length_fmap; [lia|].
  apply Forall_fmap. eapply Forall_impl; [exact Hops|]. intros op Hop. apply length_op_bytes, Hop.
Qed.

Lemma zlen_commit_record c : frame_wf c → zlen (commit_record c) = commit_len c.
Proof.
  intros [_ _ _ Hops]. unfold commit_record. rewrite zlen_app, length_commit_body by done.
  unfold zlen at 1. rewrite length_header_bytes. unfold commit_len. lia.
Qed.

Lemma commit_len_pos c : Z.of_nat HEADER_LEN ≤ commit_len c.
Proof. unfold commit_len. pose proof (zlen_nonneg (cf_ops c)). pose proof (zlen_nonneg (cf_blob c)). nia. Qed.

Lemma commit_crc_u32 c : is_uint 32 (commit_crc c).
Proof. unfold commit_crc. apply ck_u32, ck_u32. split; lia. Qed.

Lemma record_crc_at {E} h body :
  record_crc (E:=E) ck (header_bytes h ++ body) = Ok (ck (ck 0 (header_prefix h)) body).
Proof.
  rewrite header_bytes_split, <-app_assoc. pose proof (length_header_prefix h) as Hl. unfold record_crc, vslice.
  rewrite decide_True by (rewrite !length_app, Hl, length_le_bytes; lia). cbn [mbind res_bind].
  rewrite decide_True by (rewrite !length_app, Hl, length_le_bytes; lia). cbn [mbind res_bind].
  unfold wal_checksum. rewrite drop_0, Nat.sub_0_r, take_app_length' by done.
  rewrite app_assoc, drop_app_length' by (rewrite !length_app, Hl, length_le_bytes; lia).
  rewrite take_ge by (rewrite !length_app, Hl, length_le_bytes; lia). done.
Qed.

Lemma record_crc_commit {E} c : record_crc (E:=E) ck (commit_record c) = Ok (commit_crc c).
Proof. unfold commit_record. by rewrite record_crc_at, (header_prefix_crc c (commit_crc c) 0). Qed.

Lemma encode_Ok c :
  encodable c →
  encode_commit ck (cf_lsn c) (cf_txn_id c) (cf_base_generation c) (cf_ops c) (cf_blob c) = Ok (commit_record c).
Proof.
  intros (Hwf & Hu & Hi). pose proof (zlen_nonneg (cf_ops c)). pose proof (zlen_nonneg (cf_blob c)).
  pose proof isize_usize_max. unfold commit_len in *. unfold encode_commit. sizes.
  rewrite checked_mul_fits by lia. cbn [or_panic mbind res_bind].
  rewrite checked_add_fits by lia. cbn [or_panic mbind res_bind].
  rewrite checked_add_fits by lia. cbn [or_panic mbind res_bind].
  rewrite try_into_fits by lia. cbn [ok_or mbind res_bind].
  rewrite try_into_fits by (unfold OP_LEN in *; lia). cbn [ok_or mbind res_bind].
  unfold vec_with_capacity. rewrite decide_True by lia. cbn [mbind res_bind].
  change {| h_base_generation := _ |} with (commit_header c 0). fold (commit_body c).
  rewrite record_crc_at. cbn [mbind res_bind]. fold (commit_crc c). unfold commit_record.
  rewrite !header_bytes_split, <-!app_assoc. rewrite (header_prefix_crc c (commit_crc c) 0).
  apply vcopy_mid; [by rewrite length_header_prefix|]. by rewrite !length_le_bytes.
Qed.

Lemma encode_inv c r :
  frame_wf c →
  encode_commit ck (cf_lsn c) (cf_txn_id c) (cf_base_generation c) (cf_ops c) (cf_blob c) = Ok r →
  encodable c ∧ r = commit_record c.
Proof.
  intros Hwf Hr. assert (encodable c) as He.
  { split; [done|]. unfold encode_commit in Hr.
    apply bind_Ok_inv in Hr as (ol & [_ ->]%or_panic_Ok%checked_mul_Some & Hr).
    apply bind_Ok_inv in Hr as (l1 & [_ ->]%or_panic_Ok%checked_add_Some & Hr).
    apply bind_Ok_inv in Hr as (l2 & [_ ->]%or_panic_Ok%checked_add_Some & Hr).
    apply bind_Ok_inv in Hr as (l3 & [Hle ->]%ok_or_Ok%try_into_Some & Hr).
    apply bind_Ok_inv in Hr as (oc & _ & Hr). apply bind_Ok_inv in Hr as ([] & Hv & _).
    unfold vec_with_capacity in Hv. case_decide; [|done]. by unfold commit_len. }
  split; [done|]. rewrite (encode_Ok c He) in Hr. by injection Hr as <-.
Qed.

(** ** Parsing one record *)

Definition cursor_ok (cursor : LsnCursor) (lsn : Z) : Prop := lc_seen cursor = true → lc_last_lsn cursor < lsn.

Lemma as_usize_small v : 0 ≤ v ≤ isize_max → as_usize v = v.
Proof.
  intros Hv. unfold as_usize. apply Z.mod_small. pose proof isize_usize_max. unfold usize_max in *. lia.
Qed.

Lemma commit_header_wf c crc : encodable c → is_uint 32 crc → log_header_wf (commit_header c crc).
Proof.
  intros ([Hg Hl Ht _] & Hu & _) Hc. pose proof (zlen_nonneg (cf_ops c)). pose proof (zlen_nonneg (cf_blob c)).
  unfold u32_max, commit_len in *. sizes.
  constructor; try done; unfold is_uint; cbn [h_len h_op_count commit_header]; unfold commit_len; sizes; lia.
Qed.

(** Cutting the record's ops and blob out of its bytes. *)
Lemma decode_ops_Ok {E} h ops blob :
  Forall op_wf ops → zlen ops * Z.of_nat OP_LEN ≤ isize_max →
  decode_ops (E:=E) (header_bytes h ++ concat (op_bytes <$> ops) ++ blob)
    (zlen ops * Z.of_nat OP_LEN + Z.of_nat HEADER_LEN) (zlen ops) = Ok (ops, blob).
Proof.
  intros Hops Hcap. set (body := concat (op_bytes <$> ops)).
  assert (length body = (OP_LEN * length ops)%nat) as Hlb.
  { unfold body. rewrite (length_concat_all OP_LEN), length_fmap; [done|].
    apply Forall_fmap. eapply Forall_impl; [exact Hops|]. intros op Hop. apply length_op_bytes, Hop. }
  pose proof (length_header_bytes h) as Hlh.
  assert (Z.to_nat (zlen ops * Z.of_nat OP_LEN + Z.of_nat HEADER_LEN) = (HEADER_LEN + OP_LEN * length ops)%nat) as Hmin
    by (unfold zlen; lia).
  unfold decode_ops, vslice. rewrite Hmin. rewrite decide_True by (rewrite !length_app; lia). cbn [mbind res_bind].
  unfold vec_with_capacity. rewrite decide_True by lia. cbn [mbind res_bind].
  rewrite decide_True by (rewrite !length_app; lia). cbn [mbind res_bind].
  rewrite drop_app_length' by done. rewrite take_app_length' by lia.
  rewrite Hlb, Nat.mul_comm, Nat.div_mul by (unfold OP_LEN; lia). do 2 f_equal.
  - pose proof (chunks_concat OP_LEN (op_bytes <$> ops) []) as Hc. rewrite app_nil_r, length_fmap in Hc.
    unfold body. rewrite Hc.
    + rewrite <-list_fmap_compose. rewrite <-(list_fmap_id ops) at 2. apply list_fmap_ext. intros i op Hi.
      cbn [compose]. unfold compose. apply op_roundtrip. by eapply Forall_lookup_1.
    + apply Forall_fmap. eapply Forall_impl; [exact Hops|]. intros op Hop. apply length_op_bytes, Hop.
  - rewrite app_assoc, drop_app_length' by (rewrite length_app; lia).
    apply take_ge. rewrite !length_app. lia.
Qed.

(** A commit's record is accepted unless its sequence number does not ascend. *)
Lemma parse_record {E} c rest cursor :
  encodable c →
  parse_one_record (E:=E) ck (cf_base_generation c) (commit_record c ++ rest) cursor =
    if decide (lc_seen cursor = true ∧ cf_lsn c ≤ lc_last_lsn cursor)
    then Ok (Loud (LogCorrupt (cf_lsn c) "delta-log record LSN not strictly ascending"))
    else Ok (ParsedFrame c (commit_len c)).
Proof.
  intros He. pose proof He as (Hwf & Hu & Hi). pose proof (zlen_commit_record c Hwf) as Hz.
  pose proof (commit_len_pos c) as Hpos. pose proof (zlen_nonneg (cf_ops c)) as Hops.
  pose proof (zlen_nonneg (cf_blob c)) as Hblob. pose proof isize_usize_max as Hus.
  pose proof (zlen_nonneg rest) as Hrest.
  unfold parse_one_record. rewrite decide_False by (rewrite zlen_app; lia).
  assert (length (header_bytes (commit_header c (commit_crc c))) = HEADER_LEN) as Hlh by apply length_header_bytes.
  assert (vslice (E:=E) (commit_record c ++ rest) 0 HEADER_LEN = Ok (header_bytes (commit_header c (commit_crc c)))) as ->
    by (unfold commit_record; rewrite <-app_assoc; by apply vslice_prefix).
  cbn [mbind res_bind]. cbv zeta.
  pose proof (header_roundtrip (commit_header c (commit_crc c)) [] (commit_header_wf c _ He (commit_crc_u32 c))) as Hrd.
  rewrite app_nil_r in Hrd. rewrite Hrd.
  cbn [h_base_generation h_lsn h_txn_id h_magic h_len h_op_count h_crc32c commit_header].
  rewrite (as_usize_small (commit_len c)) by lia.
  rewrite (as_usize_small (zlen (cf_ops c))) by (unfold commit_len in *; sizes; lia).
  rewrite decide_False by (intros Hn; by apply Hn). rewrite decide_False by (intros Hn; by apply Hn).
  assert (body_len (zlen (cf_ops c)) = Some (zlen (cf_ops c) * Z.of_nat OP_LEN + Z.of_nat HEADER_LEN)) as ->.
  { unfold body_len, commit_len in *. rewrite checked_mul_fits by lia. cbn [mbind option_bind].
    by rewrite checked_add_fits by lia. }
  rewrite decide_False by (unfold commit_len in *; sizes; lia). rewrite decide_False by (rewrite zlen_app; lia).
  rewrite (vslice_prefix (commit_record c)) by (unfold zlen in *; lia). cbn [mbind res_bind].
  rewrite record_crc_commit. cbn [mbind res_bind].
  rewrite decide_False by (intros Hn; by apply Hn). case_decide; [done|].
  unfold commit_record, commit_body. rewrite decode_ops_Ok; [|apply Hwf|unfold commit_len in *; sizes; lia].
  cbn [mbind res_bind]. by destruct c.
Qed.

Lemma parse_record_Ok {E} c rest cursor :
  encodable c → cursor_ok cursor (cf_lsn c) →
  parse_one_record (E:=E) ck (cf_base_generation c) (commit_record c ++ rest) cursor =
    Ok (ParsedFrame c (commit_len c)).
Proof.
  intros He Hcur. rewrite parse_record by done. apply decide_False. intros [Hs Hl]. specialize (Hcur Hs). lia.
Qed.

(** A record cut short is a torn tail. *)
Lemma parse_cut_stops {E} c j cursor :
  encodable c → (j < length (commit_record c))%nat →
  parse_one_record (E:=E) ck (cf_base_generation c) (take j (commit_record c)) cursor = Ok Stop.
Proof.
  intros He Hj. pose proof He as (Hwf & Hu & Hi). pose proof (zlen_commit_record c Hwf) as Hz.
  pose proof (commit_len_pos c) as Hpos. pose proof (zlen_nonneg (cf_ops c)) as Hops.
  pose proof (zlen_nonneg (cf_blob c)) as Hblob. pose proof isize_usize_max as Hus.
  unfold parse_one_record. case_decide as Hshort; [done|].
  assert (zlen (take j (commit_record c)) = Z.of_nat j) as Hzj by (unfold zlen; rewrite length_take; lia).
  rewrite Hzj in Hshort |- *.
  assert (vslice (E:=E) (take j (commit_record c)) 0 HEADER_LEN = Ok (header_bytes (commit_header c (commit_crc c)))) as ->.
  { rewrite vslice_take by (unfold zlen in *; lia). rewrite take_take, Nat.min_l by lia. unfold commit_record.
    by rewrite take_app_length' by (by rewrite length_header_bytes). }
  cbn [mbind res_bind]. cbv zeta.
  pose proof (header_roundtrip (commit_header c (commit_crc c)) [] (commit_header_wf c _ He (commit_crc_u32 c))) as Hrd.
  rewrite app_nil_r in Hrd. rewrite Hrd.
  cbn [h_base_generation h_lsn h_txn_id h_magic h_len h_op_count h_crc32c commit_header].
  rewrite (as_usize_small (commit_len c)) by lia.
  rewrite (as_usize_small (zlen (cf_ops c))) by (unfold commit_len in *; sizes; lia).
  rewrite decide_False by (intros Hn; by apply Hn). rewrite decide_False by (intros Hn; by apply Hn).
  destruct (body_len _) as [b|] eqn:Hb; [|done].
  assert (b = zlen (cf_ops c) * Z.of_nat OP_LEN + Z.of_nat HEADER_LEN) as ->.
  { unfold body_len in Hb. apply bind_Some in Hb as (o & [_ ->]%checked_mul_Some & [_ ->]%checked_add_Some). done. }
  rewrite decide_False by (unfold commit_len in *; sizes; lia). rewrite decide_True by (unfold zlen in Hz; lia). done.
Qed.

(** ** Replaying a log of commits *)

Definition log_of (cs : list CommitFrame) : list byte := concat (commit_record <$> cs).

(** Commits one log can hold: one generation, ascending sequence numbers. *)
Record LogOk (gen : Z) (cs : list CommitFrame) : Prop := {
  lo_encodable : Forall encodable cs;
  lo_generation : Forall (λ c, cf_base_generation c = gen) cs;
  lo_ascending : StronglySorted (λ a b, cf_lsn a < cf_lsn b) cs
}.

Lemma LogOk_app gen cs cs' : LogOk gen (cs ++ cs') → LogOk gen cs.
Proof.
  intros [[He _]%Forall_app [Hg _]%Forall_app Hs]. apply StronglySorted_app in Hs as (_ & Hs & _). by constructor.
Qed.

(** The state after replaying [cs]. *)
Definition state_of (cs : list CommitFrame) : ReplayState :=
  foldl (λ s c, push_frame s c (commit_len c)) replay_start cs.

(** What replay reports of the commits [cs]. *)
Definition outcome_of (cs : list CommitFrame) : ReplayOutcome := {|
  ro_frames := cs;
  ro_valid_len := zlen (log_of cs);
  ro_last_lsn := default 0 (cf_lsn <$> last cs);
  ro_last_txn := default 0 (cf_txn_id <$> last cs)
|}.

Lemma log_of_app cs cs' : log_of (cs ++ cs') = log_of cs ++ log_of cs'.
Proof. unfold log_of. by rewrite fmap_app, concat_app. Qed.

Lemma log_of_single c : log_of [c] = commit_record c.
Proof. unfold log_of. cbn. apply app_nil_r. Qed.

Lemma state_of_snoc cs c : state_of (cs ++ [c]) = push_frame (state_of cs) c (commit_len c).
Proof. unfold state_of. by rewrite foldl_app. Qed.

Lemma state_of_spec cs :
  Forall encodable cs →
  rs_offset (state_of cs) = zlen (log_of cs) ∧ replay_outcome (state_of cs) = outcome_of cs ∧
  rs_last_lsn (state_of cs) = default 0 (cf_lsn <$> last cs) ∧
  rs_seen (state_of cs) = bool_decide (cs ≠ []).
Proof.
  induction cs as [|c cs IH] using rev_ind; intros Hall; [done|]. apply Forall_app in Hall as [Hcs [Hc _]%Forall_cons].
  destruct (IH Hcs) as (Ho & Hout & _ & _). rewrite state_of_snoc, log_of_app, log_of_single, zlen_app.
  pose proof (zlen_commit_record c (proj1 Hc)) as Hz. unfold push_frame, replay_outcome, outcome_of in *.
  cbn [rs_offset rs_frames rs_valid_len rs_last_lsn rs_last_txn rs_seen]. injection Hout as Hf Hv Hl Ht.
  rewrite last_snoc, Hf, log_of_app, log_of_single, zlen_app. cbn [fmap option_fmap option_map default].
  split_and!; [lia|f_equal; lia|done|]. symmetry. apply bool_decide_eq_true. by destruct cs.
Qed.

(** The cursor at the end of [cs] accepts a later commit. *)
Lemma state_cursor cs c gen :
  LogOk gen (cs ++ [c]) →
  cursor_ok {| lc_last_lsn := rs_last_lsn (state_of cs); lc_seen := rs_seen (state_of cs) |} (cf_lsn c).
Proof.
  intros [He _ Hs] Hseen. cbn [lc_seen lc_last_lsn] in *. apply Forall_app in He as [He _].
  destruct (state_of_spec cs He) as (_ & _ & Hl & Hsn). rewrite Hl. rewrite Hsn in Hseen.
  apply bool_decide_eq_true in Hseen. destruct cs as [|b cs _] using rev_ind; [done|]. rewrite last_snoc.
  cbn [fmap option_fmap option_map default id]. rewrite <-app_assoc in Hs.
  rewrite StronglySorted_lookup in Hs. apply (Hs (length cs) (S (length cs))); [lia|by apply list_lookup_middle|].
  rewrite lookup_app_r by lia. by replace (S (length cs) - length cs)%nat with 1%nat by lia.
Qed.

Lemma replay_step fuel gen done_ c rest :
  LogOk gen (done_ ++ [c]) →
  replay_loop ck (S fuel) gen (log_of done_ ++ commit_record c ++ rest) (state_of done_) =
  replay_loop ck fuel gen (log_of done_ ++ commit_record c ++ rest) (state_of (done_ ++ [c])).
Proof.
  intros Hok. pose proof Hok as [He Hg _]. apply Forall_app in He as [Hd [Hc _]%Forall_cons].
  apply Forall_app in Hg as [_ [Hg _]%Forall_cons]. destruct (state_of_spec done_ Hd) as (Ho & _).
  pose proof (zlen_commit_record c (proj1 Hc)) as Hz. pose proof (commit_len_pos c) as Hpos.
  cbn [replay_loop]. rewrite Ho. rewrite decide_True by (rewrite !zlen_app; pose proof (zlen_nonneg rest); sizes; lia).
  rewrite vslice_suffix by (unfold zlen; by rewrite ?Nat2Z.id). cbn [mbind res_bind].
  rewrite <-Hg, (parse_record_Ok c rest) by (done || by eapply state_cursor). cbn [mbind res_bind].
  by rewrite state_of_snoc.
Qed.

(** Bytes that end the replay: none, or a torn tail. *)
Definition stops (gen : Z) (tail : list byte) : Prop :=
  tail = [] ∨ ∀ cursor, parse_one_record (E:=StorageError) ck gen tail cursor = Ok Stop.

Lemma cut_stops c j : encodable c → (j < length (commit_record c))%nat → stops (cf_base_generation c) (take j (commit_record c)).
Proof. intros Hc Hj. right. intros cursor. by apply parse_cut_stops. Qed.

Lemma replay_ends fuel gen done_ tail :
  Forall encodable done_ →
  stops gen tail →
  replay_loop ck (S fuel) gen (log_of done_ ++ tail) (state_of done_) = Ok (outcome_of done_).
Proof.
  intros Hd Htail. destruct (state_of_spec done_ Hd) as (Ho & Hout & _). cbn [replay_loop]. rewrite Ho.
  case_decide as Hlt; [|by rewrite Hout]. rewrite vslice_suffix by (unfold zlen; by rewrite ?Nat2Z.id).
  cbn [mbind res_bind]. destruct Htail as [->|Hstop].
  { rewrite app_nil_r in Hlt. lia. }
  rewrite Hstop. cbn [mbind res_bind]. by rewrite Hout.
Qed.

Lemma log_length cs : Forall encodable cs → (length cs ≤ length (log_of cs))%nat.
Proof.
  induction 1 as [|c cs [Hc _] _ IH]; [done|]. unfold log_of in *. cbn [fmap list_fmap concat length].
  rewrite length_app. pose proof (zlen_commit_record c Hc). pose proof (commit_len_pos c). sizes. unfold zlen in *. lia.
Qed.

(** Replay walks through the commits. *)
Lemma replay_reaches gen cs tail :
  LogOk gen cs →
  ∃ fuel, replay ck gen (log_of cs ++ tail) = replay_loop ck (S fuel) gen (log_of cs ++ tail) (state_of cs).
Proof.
  intros Hok. exists (length (log_of cs ++ tail) - length cs)%nat. unfold replay.
  pose proof (log_length cs (lo_encodable _ _ Hok)) as Hlen.
  assert (S (length (log_of cs ++ tail)) = length cs + S (length (log_of cs ++ tail) - length cs))%nat as ->
    by (rewrite length_app; lia).
  generalize (length (log_of cs ++ tail) - length cs)%nat as fuel. intros fuel. clear Hlen.
  cut (∀ todo done_, cs = done_ ++ todo →
    replay_loop ck (length todo + S fuel) gen (log_of cs ++ tail) (state_of done_) =
    replay_loop ck (S fuel) gen (log_of cs ++ tail) (state_of cs)); [intros Hgo; by apply (Hgo cs [])|].
  induction todo as [|c todo IH]; intros done_ ->; [by rewrite app_nil_r|].
  rewrite <-(IH (done_ ++ [c])) by (by rewrite <-app_assoc). cbn [length Nat.add].
  rewrite log_of_app. change (log_of (c :: todo)) with (commit_record c ++ log_of todo).
  rewrite <-!app_assoc, replay_step; [done|].
  apply (LogOk_app _ _ todo). by rewrite <-app_assoc.
Qed.

Lemma replay_commits gen cs tail :
  LogOk gen cs →
  stops gen tail →
  replay ck gen (log_of cs ++ tail) = Ok (outcome_of cs).
Proof.
  intros Hok Htail. destruct (replay_reaches gen cs tail Hok) as [fuel ->]. apply replay_ends; [apply Hok|done].
Qed.

(** A later record whose sequence number does not ascend is loud. *)
Lemma replay_late gen cs b c rest :
  LogOk gen (cs ++ [b]) → encodable c → cf_base_generation c = gen → cf_lsn c ≤ cf_lsn b →
  replay ck gen (log_of (cs ++ [b]) ++ commit_record c ++ rest) =
    Err (LogCorrupt (cf_lsn c) "delta-log record LSN not strictly ascending").
Proof.
  intros Hok Hc <- Hle. destruct (replay_reaches _ _ (commit_record c ++ rest) Hok) as [fuel ->].
  destruct (state_of_spec _ (lo_encodable _ _ Hok)) as (Ho & _ & Hl & Hs). cbn [replay_loop]. rewrite Ho.
  pose proof (zlen_commit_record c (proj1 Hc)). pose proof (commit_len_pos c). pose proof (zlen_nonneg rest).
  rewrite decide_True by (rewrite !zlen_app; sizes; lia).
  rewrite vslice_suffix by (unfold zlen; by rewrite ?Nat2Z.id). cbn [mbind res_bind].
  rewrite parse_record by done. cbn [lc_seen lc_last_lsn]. rewrite Hl, Hs, last_snoc. cbn [fmap option_fmap option_map default id].
  rewrite decide_True; [done|]. split; [|done]. apply bool_decide_eq_true. by destruct cs.
Qed.

End wal.
