(* ===== verification/WalRecovery.v ===== *)
(** * WalRecovery: what survives a crash

    The delta log under truncation and under arbitrary bytes: a cut log replays
    to the commits that are whole in it, any log is classified without a panic
    and what is accepted is exactly the encoding of the frames returned, and a
    failed append costs at most the commit being appended. The superblock is
    read back as it was written. *)

From Stdlib Require Import String.
From stdpp Require Import base gmap sets list strings sorting.
From S2P Require Import Prelude Bytes Layout Crc Snapshot SnapshotFacts SnapshotWrite SnapshotWriteFacts.
From S2P Require Import DbError DbWire Wal.

Local Open Scope Z_scope.

(** The errors replay may return. *)
Definition log_error (e : StorageError) : Prop :=
  match e with LogCorrupt _ _ | BaseGenerationMismatch _ _ => True | _ => False end.

(** The frames of a log are its records, in order. *)
Definition encoded `{!Target} (ck : Checksum32) (c : CommitFrame) (r : list byte) : Prop :=
  encode_commit ck (cf_lsn c) (cf_txn_id c) (cf_base_generation c) (cf_ops c) (cf_blob c) = Ok r.

Section wal.
Context `{!Target} (ck : Checksum32) `{!Checksum32Laws ck}.

Lemma tail_or_loud_cases b e : log_error e → tail_or_loud b e = Stop ∨ ∃ e', tail_or_loud b e = Loud e' ∧ log_error e'.
Proof. destruct b; eauto. Qed.

Lemma encode_iff c r : frame_wf c → encoded ck c r ↔ encodable c ∧ r = commit_record ck c.
Proof.
  intros Hwf. split; [by apply encode_inv|]. intros [He ->]. by apply encode_Ok.
Qed.

Lemma encode_all cs rs :
  Forall frame_wf cs → Forall2 (encoded ck) cs rs ↔ Forall encodable cs ∧ rs = commit_record ck <$> cs.
Proof.
  intros Hwf. split.
  - induction 1 as [|c r cs rs Hc _ IH]; [done|]. apply Forall_cons in Hwf as [Hc' Hwf].
    apply encode_iff in Hc as [He ->]; [|done]. destruct (IH Hwf) as [Hes ->]. split; [by constructor|done].
  - intros [Hes ->]. induction Hes as [|c cs He _ IH]; [constructor|]. apply Forall_cons in Hwf as [Hc' Hwf].
    constructor; [by apply encode_iff|by apply IH].
Qed.

(** The record that was read is the one [commit_record] writes. *)
Lemma record_rebuild head body c (h := read_header head) :
  length head = HEADER_LEN → h_magic h = OXGLOGR →
  h_base_generation h = cf_base_generation c → h_lsn h = cf_lsn c → h_txn_id h = cf_txn_id c →
  h_op_count h = zlen (cf_ops c) → h_len h = commit_len c → commit_body c = body →
  record_crc (E:=StorageError) ck (head ++ body) = Ok (h_crc32c h) →
  head ++ body = commit_record ck c.
Proof.
  intros Hl Hm Hg Hs Ht Hn Hlen <- Hcrc. subst h. pose proof (header_roundtrip_back head Hl) as Hb.
  revert Hm Hg Hs Ht Hn Hlen Hcrc Hb. generalize (read_header head). intros h Hm Hg Hs Ht Hn Hlen Hcrc <-.
  assert (h = commit_header c (h_crc32c h)) as Hh.
  { destruct h. unfold commit_header. cbn in *. congruence. }
  rewrite record_crc_at in Hcrc. injection Hcrc as Hcrc. rewrite Hh in Hcrc at 1.
  rewrite (header_prefix_crc c _ 0) in Hcrc. fold (commit_crc ck c) in Hcrc.
  unfold commit_record. by rewrite Hcrc, <-Hh.
Qed.

(** Decoding the ops of a record keeps all its bytes. *)
Lemma decode_ops_split {E} head body n :
  length head = HEADER_LEN → 0 ≤ n → n * Z.of_nat OP_LEN ≤ zlen body → n * Z.of_nat OP_LEN ≤ isize_max →
  ∃ ops blob, decode_ops (E:=E) (head ++ body) (n * Z.of_nat OP_LEN + Z.of_nat HEADER_LEN) n = Ok (ops, blob) ∧
    zlen ops = n ∧ Forall op_wf ops ∧ concat (op_bytes <$> ops) ++ blob = body.
Proof.
  intros Hl Hn Hb Hcap. set (ob := take (OP_LEN * Z.to_nat n) body). set (blob := drop (OP_LEN * Z.to_nat n) body).
  set (ops := read_op <$> chunks OP_LEN (Z.to_nat n) ob).
  assert (length ob = (OP_LEN * Z.to_nat n)%nat) as Hob by (unfold ob, zlen in *; rewrite length_take; lia).
  assert (concat (op_bytes <$> ops) = ob) as Hops.
  { etransitivity; [|apply (concat_chunks OP_LEN (Z.to_nat n) ob Hob)]. f_equal. unfold ops.
    rewrite <-list_fmap_compose. etransitivity; [|apply list_fmap_id]. apply Forall_fmap_ext_1.
    eapply Forall_impl; [apply (chunks_length OP_LEN (Z.to_nat n) ob); lia|].
    intros bs Hbs. by apply op_roundtrip_back. }
  assert (Forall op_wf ops) as Hwf by (apply Forall_fmap, Forall_true; intros; apply read_op_wf).
  assert (zlen ops = n) as Hz by (unfold ops, zlen; rewrite length_fmap, length_chunks; lia).
  exists ops, blob. split_and!; [|done|done|rewrite Hops; apply take_drop].
  rewrite <-(header_roundtrip_back head Hl). rewrite <-(take_drop (OP_LEN * Z.to_nat n) body).
  fold ob blob. rewrite <-Hops, <-Hz. apply decode_ops_Ok; [done|by rewrite Hz].
Qed.

(** A record that passes every check is a commit's. *)
Lemma record_accepted head body gen cursor (h := read_header head) rest :
  length head = HEADER_LEN → h_magic h = OXGLOGR → h_base_generation h = gen →
  h_op_count h * Z.of_nat OP_LEN + Z.of_nat HEADER_LEN ≤ h_len h → h_len h = zlen (head ++ body) → h_len h ≤ isize_max →
  record_crc (E:=StorageError) ck (head ++ body) = Ok (h_crc32c h) → cursor_ok cursor (h_lsn h) →
  ∃ c, encodable c ∧ cf_base_generation c = gen ∧ cursor_ok cursor (cf_lsn c) ∧
    head ++ body ++ rest = commit_record ck c ++ rest.
Proof.
  intros Hl Hm Hg Hmin Hlen Hcap Hcrc Hcur. destruct (read_header_wf head) as [Wg Wl Wt _ Wn Wo _]. fold h in Wg, Wl, Wt, Wn, Wo.
  assert (zlen head = 40) as Hz by (unfold zlen; by rewrite Hl). rewrite zlen_app, Hz in Hlen. sizes.
  destruct (decode_ops_split (E:=StorageError) head body (h_op_count h)) as (ops & blob & _ & Hn & Hwf & Hbody);
    [done|apply Wo|sizes; lia|sizes; lia|].
  exists {| cf_lsn := h_lsn h; cf_txn_id := h_txn_id h; cf_base_generation := h_base_generation h;
            cf_ops := ops; cf_blob := blob |}.
  match goal with |- encodable ?c ∧ _ => set (k := c) end.
  assert (frame_wf k) as Hk by done. assert (commit_len k = h_len h) as Hcl.
  { rewrite <-(zlen_commit_record ck k Hk). unfold commit_record. rewrite zlen_app. unfold commit_body. cbn [cf_ops cf_blob k].
    rewrite Hbody. unfold zlen at 1. rewrite length_header_bytes. sizes. lia. }
  split_and!; [split; [done|]; rewrite Hcl; unfold is_uint, u32_max in *; lia|done|done|].
  rewrite app_assoc. f_equal. by apply record_rebuild.
Qed.

Lemma as_usize_u32 v : 32 ≤ usize_bits → is_uint 32 v → as_usize v = v.
Proof.
  intros Hbits [H0 Hv]. unfold as_usize. apply Z.mod_small. split; [done|]. eapply Z.lt_le_trans; [apply Hv|].
  apply Z.pow_le_mono_r; lia.
Qed.

Ltac tail_case last e :=
  let Ht := fresh in
  destruct (tail_or_loud_cases last e I) as [Ht|(? & Ht & ?)]; rewrite Ht;
  [by left|right; left; eexists; by split].

(** Parsing any bytes: a torn tail, a loud error, or a commit's record. *)
Lemma parse_cases gen remaining cursor :
  32 ≤ usize_bits → zlen remaining ≤ isize_max →
  parse_one_record (E:=StorageError) ck gen remaining cursor = Ok Stop ∨
  (∃ e, parse_one_record (E:=StorageError) ck gen remaining cursor = Ok (Loud e) ∧ log_error e) ∨
  ∃ c rest, encodable c ∧ cf_base_generation c = gen ∧ cursor_ok cursor (cf_lsn c) ∧
    remaining = commit_record ck c ++ rest.
Proof.
  intros Hbits Hcap. pose proof isize_usize_max as Hus. unfold parse_one_record. case_decide as Hshort; [by left|].
  set (head := take HEADER_LEN remaining).
  assert (length head = HEADER_LEN) as Hl by (unfold head, zlen in *; rewrite length_take; sizes; unfold HEADER_LEN in *; lia).
  rewrite (vslice_take remaining) by (unfold zlen in *; lia). fold head. cbn [mbind res_bind]. cbv zeta.
  destruct (read_header_wf head) as [_ _ _ _ [Wn0 Wn] [Wo0 Wo] _].
  rewrite !as_usize_u32 by done. set (h := read_header head) in *.
  set (last := negb _ || _). clearbody last.
  case_decide as Hm. { tail_case last (LogCorrupt (h_lsn h) "delta-log record magic mismatch"). }
  case_decide as Hg. { tail_case last (BaseGenerationMismatch gen (h_base_generation h)). }
  destruct (body_len (h_op_count h)) as [b|] eqn:Hb; [|by left].
  assert (b = h_op_count h * Z.of_nat OP_LEN + Z.of_nat HEADER_LEN) as ->.
  { unfold body_len in Hb. by apply bind_Some in Hb as (o & [_ ->]%checked_mul_Some & [_ ->]%checked_add_Some). }
  case_decide as Hu.
  { tail_case last (LogCorrupt (h_lsn h) "delta-log record length undershoots its framing"). }
  case_decide as Hover; [by left|].
  set (n := Z.to_nat (h_len h)). set (body := take (n - HEADER_LEN) (drop HEADER_LEN remaining)).
  assert (take n remaining = head ++ body) as Hrec.
  { unfold body, head. rewrite take_drop_commute. replace (HEADER_LEN + (n - HEADER_LEN))%nat with n by (subst n; sizes; unfold HEADER_LEN in *; lia).
    rewrite <-(take_drop HEADER_LEN (take n remaining)) at 1. rewrite take_take. do 2 f_equal. subst n. sizes; unfold HEADER_LEN in *; lia. }
  rewrite vslice_take by (subst n; unfold zlen in *; lia). cbn [mbind res_bind]. rewrite Hrec.
  assert (record_crc (E:=StorageError) ck (head ++ body) = Ok (ck (ck 0 (header_prefix h)) body)) as Hrc
    by (rewrite <-(header_roundtrip_back head Hl) at 1; apply record_crc_at).
  rewrite Hrc. cbn [mbind res_bind].
  case_decide as Hcrc. { tail_case last (LogCorrupt (h_lsn h) "delta-log record checksum mismatch"). }
  case_decide as Hcur. { right; left. eexists. by split. }
  right; right.
  destruct (record_accepted head body gen cursor (drop n remaining)) as (c & Hc & Hcg & Hcc & Heq); try done.
  - fold h. lia.
  - fold h. rewrite <-Hrec. unfold zlen. rewrite length_take. subst n. unfold zlen in *. lia.
  - fold h. lia.
  - rewrite Hrc. f_equal. exact Hcrc.
  - fold h. intros Hs. apply not_and_l in Hcur as [Hn|Hn]; [done|lia].
  - exists c, (drop n remaining). split_and!; try done. rewrite <-Heq, app_assoc, <-Hrec. symmetry. apply take_drop.
Qed.

(** ** The commits of a log *)

Lemma LogOk_snoc gen cs c :
  LogOk gen cs → encodable c → cf_base_generation c = gen →
  cursor_ok {| lc_last_lsn := rs_last_lsn (state_of cs); lc_seen := rs_seen (state_of cs) |} (cf_lsn c) →
  LogOk gen (cs ++ [c]).
Proof.
  intros [He Hg Hs] Hc Hcg Hcur. destruct (state_of_spec ck cs He) as (_ & _ & Hl & Hseen).
  constructor; [apply Forall_app; auto..|]. apply StronglySorted_app. split_and!; [|done|repeat constructor].
  intros a b Ha ->%list_elem_of_singleton. destruct cs as [|d cs _] using rev_ind; [by apply not_elem_of_nil in Ha|].
  assert (cf_lsn d < cf_lsn c) as Hd.
  { rewrite last_snoc in Hl. cbn in Hl. unfold cursor_ok in Hcur. cbn [lc_seen lc_last_lsn] in Hcur.
    rewrite <-Hl. apply Hcur. rewrite Hseen. apply bool_decide_eq_true. by destruct cs. }
  apply elem_of_app in Ha as [Ha|Ha%list_elem_of_singleton]; [|by subst]. apply StronglySorted_app in Hs as (Hs & _ & _).
  etransitivity; [apply Hs; [done|by apply list_elem_of_singleton]|done].
Qed.

(** What the loop does with the bytes after the commits [cs]. *)
Lemma replay_rest gen rest : ∀ cs fuel,
  32 ≤ usize_bits → zlen (log_of ck cs ++ rest) ≤ isize_max → LogOk gen cs → (length rest < fuel)%nat →
  (∃ e, replay_loop ck fuel gen (log_of ck cs ++ rest) (state_of cs) = Err e ∧ log_error e) ∨
  ∃ cs' tail, LogOk gen (cs ++ cs') ∧ rest = log_of ck cs' ++ tail ∧
    replay_loop ck fuel gen (log_of ck cs ++ rest) (state_of cs) = Ok (outcome_of ck (cs ++ cs')) ∧
    (∀ c more, LogOk gen (cs ++ cs' ++ [c]) → tail ≠ commit_record ck c ++ more).
Proof.
  remember (length rest) as n eqn:Hn. revert rest Hn.
  induction (lt_wf n) as [n _ IH]. intros rest -> cs fuel Hbits Hcap Hok Hf. destruct fuel as [|fuel]; [lia|].
  destruct (state_of_spec ck cs (lo_encodable _ _ Hok)) as (Ho & Hout & _).
  destruct (decide (rest = [])) as [->|Hne].
  { right. exists [], []. rewrite !app_nil_r. split_and!; [done|done| |].
    - rewrite <-(app_nil_r (log_of ck cs)). apply replay_ends; [apply Hok|by left].
    - intros c more _ Heq. symmetry in Heq. apply app_eq_nil in Heq as [Heq _].
      apply (f_equal length) in Heq. unfold commit_record in Heq. rewrite length_app, length_header_bytes in Heq. done. }
  assert (0 < zlen rest) as Hpos by (unfold zlen; destruct rest; [done|cbn [length]; lia]).
  set (cursor := {| lc_last_lsn := rs_last_lsn (state_of cs); lc_seen := rs_seen (state_of cs) |}).
  assert (replay_loop ck (S fuel) gen (log_of ck cs ++ rest) (state_of cs) =
    (parsed ← parse_one_record ck gen rest cursor;
     match parsed with
     | Stop => Ok (replay_outcome (state_of cs))
     | Loud error => Err error
     | ParsedFrame frame len => replay_loop ck fuel gen (log_of ck cs ++ rest) (push_frame (state_of cs) frame len)
     end)) as Hstep.
  { cbn [replay_loop]. rewrite Ho. rewrite decide_True by (rewrite zlen_app; lia).
    rewrite vslice_suffix by (unfold zlen; by rewrite ?Nat2Z.id). done. }
  rewrite zlen_app in Hcap. pose proof (zlen_nonneg (log_of ck cs)).
  destruct (parse_cases gen rest cursor) as [Hp|[(e & Hp & He)|(c & more & Hc & Hg & Hcur & ->)]]; [done|lia|..].
  - right. exists [], rest. rewrite Hstep, Hp. cbn [mbind res_bind]. rewrite Hout, !app_nil_r.
    split_and!; [done|done|done|]. intros c more Hc ->. rewrite app_nil_l in Hc.
    pose proof (state_cursor ck cs c gen Hc) as Hcur. destruct Hc as [[_ [Hce _]%Forall_cons]%Forall_app [_ [Hcg _]%Forall_cons]%Forall_app _].
    rewrite <-Hcg, parse_record_Ok in Hp by done. done.
  - left. exists e. rewrite Hstep, Hp. done.
  - pose proof (LogOk_snoc gen cs c Hok Hc Hg Hcur) as Hok'. rewrite (replay_step ck fuel gen cs c more Hok').
    rewrite app_assoc, <-(log_of_single ck c), <-(log_of_app ck cs [c]).
    assert (0 < length (commit_record ck c))%nat as Hlc
      by (unfold commit_record; rewrite length_app, length_header_bytes; unfold HEADER_LEN; lia).
    rewrite length_app in Hf.
    destruct (IH (length more) ltac:(rewrite length_app; lia) more eq_refl (cs ++ [c]) fuel) as
      [Herr|(cs' & tail & Hok2 & -> & Hr & Hmax)]; [done| |done|lia|by left|].
    + rewrite log_of_app, log_of_single, <-app_assoc, zlen_app. lia.
    + right. exists (c :: cs'), tail. rewrite <-app_assoc in Hr, Hok2.
      split_and!; [done| |done|].
      * change (c :: cs') with ([c] ++ cs'). by rewrite log_of_app, log_of_single, <-app_assoc.
      * intros d more' Hd. apply (Hmax d more'). by rewrite <-!app_assoc.
Qed.

(** The number of whole records in the first [k] bytes. *)
Lemma cut_records (cs : list CommitFrame) : ∀ k, (k ≤ length (log_of ck cs))%nat →
  ∃ n tail, (n ≤ length cs)%nat ∧ take k (log_of ck cs) = log_of ck (take n cs) ++ tail ∧
    (tail = [] ∨ ∃ c j, cs !! n = Some c ∧ tail = take j (commit_record ck c) ∧ (j < length (commit_record ck c))%nat).
Proof.
  induction cs as [|c cs IH]; intros k Hk.
  - exists 0%nat, []. split_and!; [done|by destruct k|by left].
  - change (log_of ck (c :: cs)) with (commit_record ck c ++ log_of ck cs) in *. rewrite length_app in Hk.
    destruct (decide (k < length (commit_record ck c))%nat) as [Hlt|Hge].
    + exists 0%nat, (take k (commit_record ck c)). split_and!; [lia| |right; eauto].
      rewrite take_app_le by lia. done.
    + destruct (IH (k - length (commit_record ck c))%nat) as (n & tail & Hn & Heq & Htail); [lia|].
      exists (S n), tail. split_and!; [cbn; lia| |done].
      rewrite take_app_ge, Heq, app_assoc by lia. done.
Qed.

(** ** What recovery guarantees *)

(** The commits of one generation, ascending. *)
Definition commits_ok (gen : Z) (cs : list CommitFrame) : Prop :=
  Forall frame_wf cs ∧ Forall (λ c, cf_base_generation c = gen) cs ∧ StronglySorted (λ a b, cf_lsn a < cf_lsn b) cs.

(** What replay should report of the commits [cs] recorded as [rs]. *)
Definition recovered (cs : list CommitFrame) (rs : list (list byte)) : ReplayOutcome := {|
  ro_frames := cs;
  ro_valid_len := zlen (concat rs);
  ro_last_lsn := default 0 (cf_lsn <$> last cs);
  ro_last_txn := default 0 (cf_txn_id <$> last cs)
|}.

Lemma LogOk_iff gen cs rs :
  commits_ok gen cs ∧ Forall2 (encoded ck) cs rs ↔ LogOk gen cs ∧ rs = commit_record ck <$> cs.
Proof.
  split.
  - intros [(Hwf & Hg & Hs) Hrs]. apply encode_all in Hrs as [He ->]; [|done]. by split; [constructor|].
  - intros [[He Hg Hs] ->]. assert (Forall frame_wf cs) as Hwf by (eapply Forall_impl; [exact He|]; by intros ? [? _]).
    split; [done|]. by apply encode_all.
Qed.

Lemma replay_whole gen cs : LogOk gen cs → replay ck gen (log_of ck cs) = Ok (recovered cs (commit_record ck <$> cs)).
Proof. intros Hok. rewrite <-(app_nil_r (log_of ck cs)). apply replay_commits; [done|done|by left]. Qed.

(** C16. Recovery after a crash. Take any commits of one generation with
    ascending sequence numbers, the records [encode_commit] gives for them, and
    the log those records make, cut after any number of bytes [k]. [replay]
    returns exactly the commits whose records lie whole in the first [k] bytes,
    their total length as the durable frontier, and the last one's numbers. *)
Theorem replay_after_crash gen cs rs k :
  commits_ok gen cs → Forall2 (encoded ck) cs rs → (k ≤ length (concat rs))%nat →
  ∃ n, (n ≤ length cs)%nat ∧ (length (concat (take n rs)) ≤ k)%nat ∧
    (∀ r, rs !! n = Some r → (k < length (concat (take n rs)) + length r)%nat) ∧
    replay ck gen (take k (concat rs)) = Ok (recovered (take n cs) (take n rs)).
Proof.
  intros Hcs Hrs Hk. destruct (proj1 (LogOk_iff gen cs rs) (conj Hcs Hrs)) as [Hok ->].
  fold (log_of ck cs) in *. destruct (cut_records cs k Hk) as (n & tail & Hn & Heq & Htail).
  assert (LogOk gen (take n cs)) as Hokn by (apply (LogOk_app gen _ (drop n cs)); by rewrite take_drop).
  exists n. rewrite <-fmap_take. fold (log_of ck (take n cs)).
  pose proof (f_equal length Heq) as Hl. rewrite length_take, Nat.min_l, length_app in Hl by done.
  split_and!; [done|lia| |].
  - intros r Hr. apply list_lookup_fmap_Some in Hr as (c & -> & Hc).
    destruct Htail as [->|(c' & j & Hc' & -> & Hj)]; [cbn in Hl; unfold commit_record; rewrite length_app, length_header_bytes; unfold HEADER_LEN; lia|].
    rewrite Hc in Hc'. injection Hc' as <-. rewrite length_take in Hl. lia.
  - rewrite Heq, (replay_commits ck gen); [done|done|]. destruct Htail as [->|(c & j & Hc & -> & Hj)]; [by left|].
    destruct Hok as [He Hg _]. rewrite <-(Forall_lookup_1 _ _ _ _ Hg Hc : cf_base_generation c = gen).
    apply cut_stops; [done|exact (Forall_lookup_1 _ _ _ _ He Hc)|done].
Qed.

(** C17. Replay of arbitrary bytes (of a length a slice can have, on a target of
    at least 32 bits). It never panics and never loops. It either returns
    [LogCorrupt] or [BaseGenerationMismatch], or returns frames of this
    generation with ascending sequence numbers such that the bytes up to the
    reported frontier are exactly the records [encode_commit] gives for those
    frames; and no further commit could have been accepted. *)
Theorem replay_exact gen log :
  32 ≤ usize_bits → zlen log ≤ isize_max →
  (∃ e, replay ck gen log = Err e ∧ log_error e) ∨
  ∃ cs rs tail, commits_ok gen cs ∧ Forall2 (encoded ck) cs rs ∧ log = concat rs ++ tail ∧
    replay ck gen log = Ok (recovered cs rs) ∧
    (∀ c r more, commits_ok gen (cs ++ [c]) → encoded ck c r → tail ≠ r ++ more).
Proof.
  intros Hbits Hcap. destruct (replay_rest gen log [] (S (length log))) as [He|(cs & tail & Hok & -> & Hr & Hmax)];
    [done|done|by repeat constructor|lia|by left|right].
  cbn [app] in *. exists cs, (commit_record ck <$> cs), tail.
  destruct (proj2 (LogOk_iff gen cs _) (conj Hok eq_refl)) as [Hcs Hrs].
  split_and!; [done|done|done|done|]. intros c r more Hc Hr'. pose proof Hc as (Hwf & _).
  apply Forall_app in Hwf as [_ [Hwf _]%Forall_cons]. apply (encode_iff c r Hwf) in Hr' as [He ->].
  apply (Hmax c more). assert (Forall2 (encoded ck) (cs ++ [c]) ((commit_record ck <$> cs) ++ [commit_record ck c])) as H2.
  { apply Forall2_app; [done|]. constructor; [|constructor]. by apply encode_iff. }
  by destruct (proj1 (LogOk_iff gen _ _) (conj Hc H2)).
Qed.

(** Appending a commit to a log of commits. On success the log replays to
    the commits with the new one last. On failure the result is an I/O error and
    the log replays to the commits without the new one or with it; when the
    truncation of the rollback works the file is byte for byte what it was. *)
Theorem append_commit_atomic gen cs rs c r io :
  commits_ok gen (cs ++ [c]) → Forall2 (encoded ck) cs rs → encoded ck c r →
  let '(file, result) := append_commit io (concat rs) r in
  match result with
  | Ok _ => replay ck gen file = Ok (recovered (cs ++ [c]) (rs ++ [r]))
  | Err e => (∃ operation, e = Io operation) ∧ (io_truncate io = true → file = concat rs) ∧
      (replay ck gen file = Ok (recovered cs rs) ∨ replay ck gen file = Ok (recovered (cs ++ [c]) (rs ++ [r])))
  | _ => False
  end.
Proof.
  intros Hcs Hrs Hr. assert (Forall2 (encoded ck) (cs ++ [c]) (rs ++ [r])) as H2 by (apply Forall2_app; [done|by constructor]).
  destruct (proj1 (LogOk_iff gen _ _) (conj Hcs H2)) as [Hok Heq]. rewrite fmap_app in Heq.
  apply app_inj_tail in Heq as [-> ->]. fold (log_of ck cs). pose proof (LogOk_app gen cs [c] Hok) as Hok1.
  pose proof (replay_whole gen cs Hok1) as Hold. pose proof (replay_whole gen (cs ++ [c]) Hok) as Hnew.
  rewrite log_of_app, log_of_single, fmap_app in Hnew. cbn [fmap list_fmap] in Hnew.
  assert (∀ j, replay ck gen (log_of ck cs ++ take j (commit_record ck c)) = Ok (recovered cs (commit_record ck <$> cs)) ∨
    replay ck gen (log_of ck cs ++ take j (commit_record ck c)) =
      Ok (recovered (cs ++ [c]) ((commit_record ck <$> cs) ++ [commit_record ck c]))) as Hcut.
  { intros j. destruct (decide (j < length (commit_record ck c))%nat) as [Hj|Hj]; [left|right; by rewrite take_ge by lia].
    apply replay_commits; [done|done|].
    destruct Hok as [[_ [He _]%Forall_cons]%Forall_app [_ [<- _]%Forall_cons]%Forall_app _]. by apply cut_stops. }
  assert (∀ tail, take (length (log_of ck cs)) (log_of ck cs ++ tail) = log_of ck cs) as Hback by (intros; by rewrite take_app_length).
  unfold append_commit, rollback_to. destruct (io_seek io); [|split_and!; eauto].
  destruct (io_write io); [destruct (io_sync io); [done|]|]; destruct (io_truncate io); rewrite ?Hback; split_and!; eauto; done.
Qed.

(** A header that promises more op bytes than its record's length stops the replay, whatever follows it. *)
Lemma misframed_stops gen head rest :
  32 ≤ usize_bits → length head = HEADER_LEN →
  h_len (read_header head) < h_op_count (read_header head) * Z.of_nat OP_LEN + Z.of_nat HEADER_LEN →
  stops ck gen (head ++ rest).
Proof.
  intros Hbits Hl Hmis. right. intros cursor. unfold parse_one_record.
  rewrite decide_False by (rewrite zlen_app; pose proof (zlen_nonneg rest); unfold zlen; rewrite Hl; lia).
  rewrite (vslice_prefix head) by done. cbn [mbind res_bind]. cbv zeta.
  destruct (read_header_wf head) as [_ _ _ _ Hn Ho _]. rewrite !as_usize_u32 by done.
  set (h := read_header head) in *. destruct (body_len (h_op_count h)) as [b|] eqn:Hb.
  - assert (b = h_op_count h * Z.of_nat OP_LEN + Z.of_nat HEADER_LEN) as ->.
    { unfold body_len in Hb. by apply bind_Some in Hb as (o & [_ ->]%checked_mul_Some & [_ ->]%checked_add_Some). }
    rewrite (bool_decide_eq_false_2 (_ ≤ h_len h)) by lia. cbn [andb negb orb tail_or_loud].
    case_decide; [done|]. case_decide; [done|]. by rewrite decide_True by lia.
  - cbn [andb negb orb tail_or_loud]. by repeat case_decide.
Qed.

(** What the documentation calls loud is not always. When the header after
    the commits [cs] promises more op bytes than its record's length holds — as
    an interior record's does once its op count is corrupted — replay ends
    there as at a torn tail: it returns the commits before it and drops [rest],
    any bytes at all, well-formed commits included. *)
Theorem misframed_record_drops_rest gen cs rs head rest :
  commits_ok gen cs → Forall2 (encoded ck) cs rs → 32 ≤ usize_bits → length head = HEADER_LEN →
  h_len (read_header head) < h_op_count (read_header head) * Z.of_nat OP_LEN + Z.of_nat HEADER_LEN →
  replay ck gen (concat rs ++ head ++ rest) = Ok (recovered cs rs).
Proof.
  intros Hcs Hrs Hbits Hl Hmis. destruct (proj1 (LogOk_iff gen cs rs) (conj Hcs Hrs)) as [Hok ->].
  apply replay_commits; [done|done|by apply misframed_stops].
Qed.

(** ** The superblock *)

Lemma superblock_roundtrip_back bs :
  length bs = SUPERBLOCK_LEN → superblock_bytes (superblock_of_bytes bs) = bs.
Proof.
  unfold SUPERBLOCK_LEN. intros Hl. unfold superblock_bytes, superblock_of_bytes.
  cbn [sb_magic sb_base_generation sb_checkpoint_lsn sb_log_byte_offset sb_commit_seq sb_transaction_id
    sb_format_version sb_flags sb_crc32c sb_pad].
  rewrite !bytes_8 by lia. rewrite (field_split bs 56 4 60), (field_split bs 52 4 56), (field_split bs 48 4 52),
    (field_split bs 40 8 48), (field_split bs 32 8 40), (field_split bs 24 8 32), (field_split bs 16 8 24),
    (field_split bs 8 8 16), (field_split bs 0 8 8) by done. by apply field_full.
Qed.

Lemma superblock_of_bytes_wf bs : length bs = SUPERBLOCK_LEN → superblock_wf (superblock_of_bytes bs).
Proof.
  unfold SUPERBLOCK_LEN. intros Hl. constructor; cbn; first [apply length_field; lia|apply (le_val_field _ _ 8)|apply (le_val_field _ _ 4)].
Qed.

Definition superblock_prefix (sb : SuperblockRecord) : list byte := take SUPERBLOCK_CRC_PREFIX_LEN (superblock_bytes sb).

Lemma length_superblock_bytes sb : superblock_wf sb → length (superblock_bytes sb) = SUPERBLOCK_LEN.
Proof. intros [Hm _ _ _ _ _ _ _ _ _]. unfold superblock_bytes. by rewrite !length_app, !length_le_bytes, Hm. Qed.

Lemma superblock_prefix_crc sb crc : superblock_wf sb → superblock_prefix (set_superblock_crc sb crc) = superblock_prefix sb.
Proof.
  intros [Hm _ _ _ _ _ _ _ _ _]. unfold superblock_prefix, superblock_bytes, set_superblock_crc.
  cbn [sb_magic sb_base_generation sb_checkpoint_lsn sb_log_byte_offset sb_commit_seq sb_transaction_id
    sb_format_version sb_flags sb_crc32c sb_pad].
  rewrite !app_assoc. do 2 rewrite take_app_le by (rewrite !length_app, !length_le_bytes, Hm; unfold SUPERBLOCK_CRC_PREFIX_LEN; lia).
  symmetry. by do 2 rewrite take_app_le by (rewrite !length_app, !length_le_bytes, Hm; unfold SUPERBLOCK_CRC_PREFIX_LEN; lia).
Qed.

Lemma set_superblock_crc_wf sb crc : superblock_wf sb → is_uint 32 crc → superblock_wf (set_superblock_crc sb crc).
Proof. intros [] ?. by constructor. Qed.

Lemma write_superblock_Ok sb :
  superblock_wf sb →
  write_superblock ck sb = Ok (superblock_bytes (set_superblock_crc sb (ck 0 (superblock_prefix sb)))).
Proof.
  intros Hwf. unfold write_superblock. pose proof (set_superblock_crc_wf sb 0 Hwf ltac:(split; lia)) as Hwf0.
  rewrite vslice_take by (rewrite length_superblock_bytes by done; unfold SUPERBLOCK_CRC_PREFIX_LEN, SUPERBLOCK_LEN; lia).
  cbn [mbind res_bind]. fold (superblock_prefix (set_superblock_crc sb 0)). rewrite superblock_prefix_crc by done. done.
Qed.

(** The fixed words a superblock must carry. *)
Definition superblock_current (sb : SuperblockRecord) : Prop :=
  superblock_wf sb ∧ sb_magic sb = SUPERBLOCK_MAGIC ∧ sb_format_version sb = OXGDB_FORMAT_VERSION ∧
  sb_flags sb = 0 ∧ sb_pad sb = 0.

(** [read_superblock] accepts exactly what [write_superblock] publishes:
    it returns the record [r] if and only if the file is there, holds the bytes
    [write_superblock] writes for [r], and [r] is a current superblock whose
    checksum field is the published one. In particular writing any current
    superblock and reading it back gives it with its checksum stamped. *)
Theorem superblock_published file r :
  read_superblock ck file = Ok r ↔
  ∃ bytes sb, file = Some bytes ∧ superblock_current sb ∧ write_superblock ck sb = Ok bytes ∧
    r = set_superblock_crc sb (ck 0 (superblock_prefix sb)).
Proof.
  split.
  - unfold read_superblock. destruct file as [bytes|]; [|done]. cbn [ok_or mbind res_bind].
    case_decide as Hl; [done|]. pose proof (superblock_roundtrip_back bytes Hl) as Hb.
    pose proof (superblock_of_bytes_wf bytes Hl) as Hwf. set (sb := superblock_of_bytes bytes) in *.
    case_decide; [done|]. rewrite vslice_take by (rewrite Hl; unfold SUPERBLOCK_CRC_PREFIX_LEN, SUPERBLOCK_LEN; lia).
    cbn [mbind res_bind]. case_decide as Hcrc; [done|]. case_decide; [done|]. case_decide as Hz; [done|].
    intros [= <-]. exists bytes, sb. assert (sb = set_superblock_crc sb (ck 0 (superblock_prefix sb))) as Heq.
    { unfold superblock_prefix. rewrite Hb. unfold wal_checksum in Hcrc. rewrite <-Hcrc. by destruct sb. }
    split_and!; [done| |by rewrite write_superblock_Ok, <-Heq, Hb|done].
    apply Decidable.not_or in Hz as [Hfl Hpad]. split_and!; first [done|by apply dec_stable].
  - intros (bytes & sb & -> & (Hwf & Hm & Hv & Hf & Hp) & Hw & ->). rewrite write_superblock_Ok in Hw by done.
    injection Hw as <-. set (crc := ck 0 (superblock_prefix sb)).
    assert (superblock_wf (set_superblock_crc sb crc)) as Hwf' by (apply set_superblock_crc_wf; [done|apply ck_u32; split; lia]).
    unfold read_superblock. cbn [ok_or mbind res_bind].
    rewrite decide_False by (intros Hn; apply Hn; by apply length_superblock_bytes).
    rewrite superblock_roundtrip by done. rewrite decide_False by (intros Hn; by apply Hn).
    rewrite vslice_take by (rewrite length_superblock_bytes by done; unfold SUPERBLOCK_CRC_PREFIX_LEN, SUPERBLOCK_LEN; lia).
    cbn [mbind res_bind]. fold (superblock_prefix (set_superblock_crc sb crc)). rewrite superblock_prefix_crc by done.
    rewrite decide_False by (intros Hn; by apply Hn). rewrite decide_False by (intros Hn; by apply Hn).
    rewrite decide_False; [done|]. by intros [Hn|Hn].
Qed.

End wal.

(** ** A log of two commits *)

Definition demo_op (id : Z) : MutationOp :=
  {| op_kind := OP_CREATE_ELEMENT; op_flags := 0; op_payload := [id; 0; 0; 0; 0; 0; 0; 0; 0] |}.
Definition demo_commit (lsn id : Z) : CommitFrame :=
  {| cf_lsn := lsn; cf_txn_id := lsn; cf_base_generation := 7; cf_ops := [demo_op id]; cf_blob := [Byte.x68; Byte.x69] |}.
Definition demo_record (c : CommitFrame) : list byte :=
  match encode_commit (H := target64) crc32c_append (cf_lsn c) (cf_txn_id c) (cf_base_generation c) (cf_ops c) (cf_blob c) with
  | Ok r => r
  | _ => []
  end.
Definition demo_superblock : SuperblockRecord := {|
  sb_magic := SUPERBLOCK_MAGIC; sb_base_generation := 4; sb_checkpoint_lsn := 11; sb_log_byte_offset := 0;
  sb_commit_seq := 17; sb_transaction_id := 19; sb_format_version := OXGDB_FORMAT_VERSION; sb_flags := 0;
  sb_crc32c := 0; sb_pad := 0
|}.

Lemma demo_commit_wf lsn id : is_uint 64 lsn → is_uint 64 id → frame_wf (demo_commit lsn id).
Proof.
  intros Hl Hi. constructor; try done. repeat constructor; try done; apply Hi.
Qed.

Lemma demo_commits : commits_ok 7 [demo_commit 1 5; demo_commit 2 6].
Proof. split_and!; repeat constructor; try done. Qed.

Lemma demo_encoded lsn id :
  demo_record (demo_commit lsn id) ≠ [] → encoded (H := target64) crc32c_append (demo_commit lsn id) (demo_record (demo_commit lsn id)).
Proof. unfold encoded, demo_record. destruct (encode_commit _ _ _ _ _ _); naive_solver. Qed.

(** Cut in the second record, the log replays to the first commit. *)
Lemma replay_after_crash_witness :
  replay (H := target64) crc32c_append 7 (take 130 (concat (demo_record <$> [demo_commit 1 5; demo_commit 2 6]))) =
  Ok (recovered [demo_commit 1 5] [demo_record (demo_commit 1 5)]).
Proof.
  destruct (replay_after_crash (H := target64) crc32c_append 7 [demo_commit 1 5; demo_commit 2 6]
    (demo_record <$> [demo_commit 1 5; demo_commit 2 6]) 130) as (n & Hn & Hlo & Hhi & Hr).
  - exact demo_commits.
  - repeat constructor; apply demo_encoded; vm_compute; discriminate.
  - vm_compute. lia.
  - destruct n as [|[|[|n]]].
    + exfalso. specialize (Hhi _ eq_refl). revert Hhi. vm_compute. lia.
    + exact Hr.
    + exfalso. revert Hlo. vm_compute. lia.
    + exfalso. cbn in Hn. lia.
Defined.

Lemma replay_exact_witness :
  ∃ cs rs tail, commits_ok 7 cs ∧ demo_record (demo_commit 1 5) ++ [Byte.x00] = concat rs ++ tail ∧
    replay (H := target64) crc32c_append 7 (demo_record (demo_commit 1 5) ++ [Byte.x00]) = Ok (recovered cs rs).
Proof.
  destruct (replay_exact (H := target64) crc32c_append 7 (demo_record (demo_commit 1 5) ++ [Byte.x00]))
    as [(e & He & _)|(cs & rs & tail & Hcs & _ & Heq & Hr & _)].
  - vm_compute. discriminate.
  - vm_compute. discriminate.
  - exfalso. revert He. vm_compute. discriminate.
  - exists cs, rs, tail. split; [exact Hcs|split; [exact Heq|exact Hr]].
Defined.

(** The write fails after 50 bytes and the truncation fails too: the commit before it survives. *)
Lemma append_commit_atomic_witness :
  let io := {| io_seek := true; io_write := false; io_written := 50; io_sync := true; io_truncate := false |} in
  let '(file, result) := append_commit io (demo_record (demo_commit 1 5)) (demo_record (demo_commit 2 6)) in
  result = Err (Io "append delta-log record") ∧
  replay (H := target64) crc32c_append 7 file = Ok (recovered [demo_commit 1 5] [demo_record (demo_commit 1 5)]).
Proof.
  cbv zeta. pose proof (append_commit_atomic (H := target64) crc32c_append 7 [demo_commit 1 5] [demo_record (demo_commit 1 5)]
    (demo_commit 2 6) (demo_record (demo_commit 2 6))
    {| io_seek := true; io_write := false; io_written := 50; io_sync := true; io_truncate := false |} demo_commits) as Hat.
  cbv beta iota zeta delta [append_commit io_seek io_write io_truncate io_written rollback_to] in Hat |- *.
  cbn [concat] in Hat. rewrite app_nil_r in Hat. split; [done|].
  destruct Hat as (_ & _ & [Hr|Hr]); [..|exact Hr|].
  - constructor; [|constructor]. apply demo_encoded. vm_compute. discriminate.
  - apply demo_encoded. vm_compute. discriminate.
  - exfalso. revert Hr. vm_compute. discriminate.
Defined.

(** The first record's op count raised to 3: both commits are lost. *)
Lemma misframed_record_drops_rest_witness :
  replay (H := target64) crc32c_append 7
    (<[32%nat := Byte.x03]> (demo_record (demo_commit 1 5)) ++ demo_record (demo_commit 2 6)) = Ok (recovered [] []).
Proof.
  rewrite <-(take_drop HEADER_LEN (<[32%nat := Byte.x03]> (demo_record (demo_commit 1 5)))), <-app_assoc.
  apply (misframed_record_drops_rest (H := target64) crc32c_append 7 [] []).
  - repeat constructor.
  - constructor.
  - vm_compute. discriminate.
  - vm_compute. reflexivity.
  - vm_compute. reflexivity.
Defined.

Lemma superblock_published_witness :
  ∃ bytes, write_superblock crc32c_append demo_superblock = Ok bytes ∧
    read_superblock crc32c_append (Some bytes) =
      Ok (set_superblock_crc demo_superblock (crc32c_append 0 (superblock_prefix demo_superblock))).
Proof.
  eexists. split; [vm_compute; reflexivity|]. apply superblock_published; [exact crc32c_laws|].
  eexists _, demo_superblock. split_and!; [done| |vm_compute; reflexivity|done].
  split_and!; try done.
Defined.
