(* ===== verification/Database.v ===== *)
(** * Database: open, write and commit

    Models the store lifecycle of [crates/oxgraph-db/src/database/]: recovering
    a handle from the superblock, the base and the delta log ([open.rs]), and a
    write transaction from [begin_write] through [commit] ([mod.rs],
    [writer.rs]). The base file enters decoded (its records, allocators and
    catalog), the file system enters an append as the outcome of its calls, and
    the log is the bytes of its file. The base file itself, the auto-checkpoint
    after a commit and the files of the directory are in [Checkpoint].

    Opening a store after any history of committed transactions, its log cut
    anywhere, gives back the state published by the last transaction whose
    record is whole. And a second handle on the same directory that has not seen
    the first one's commit makes the store unopenable. *)

From Stdlib Require Import String.
From stdpp Require Import base gmap sets list strings sorting.
From S2P Require Import Prelude Bytes Ordered DbError DbWire DbState OverlayIndex Overlay OverlayReplay Layout Crc Snapshot SnapshotFacts SnapshotWrite SnapshotWriteFacts Wal WalRecovery.

Local Open Scope Z_scope.

(** What [Base::open] decodes of a base file. *)
Record BaseFile := {
  bf_records : BaseRecords;
  bf_next : NextIds;
  bf_catalog : Catalog
}.

(** A handle: the generation, the current snapshot's overlay and sequence
    number, and the last transaction id. *)
Record Db := {
  db_generation : Z;
  db_overlay : Overlay;
  db_commit_seq : Z;
  db_transaction_id : Z
}.

Section database.
Context `{!Target} (ck : Checksum32).

(** ** Recovery *)

(** The accumulators of the replay loop of [open]. *)
Record Recovery := {
  rv_write : WriteOverlay;
  rv_next : NextIds;
  rv_commit_seq : Z;
  rv_txn : Z
}.

Definition recover_frame (base : BaseRecords) (r : Recovery) (frame : CommitFrame) : res DbError Recovery :=
  write ← apply_frame_ops base (rv_write r) (cf_ops frame) (cf_blob frame) (cf_lsn frame);
  Ok {| rv_write := write; rv_next := elementwise_max (rv_next r) (w_next write); rv_commit_seq := cf_lsn frame;
        rv_txn := Z.max (rv_txn r) (cf_txn_id frame) |}.

Definition recover_start (sb : SuperblockRecord) (bf : BaseFile) : Recovery := {|
  rv_write := new_overlay (bf_next bf) (bf_catalog bf); rv_next := bf_next bf;
  rv_commit_seq := sb_commit_seq sb; rv_txn := sb_transaction_id sb
|}.

(** The handle, and the log file after a torn tail is truncated. *)
Definition open_db (sb : SuperblockRecord) (bf : BaseFile) (log : list byte) : res DbError (Db * list byte) :=
  let generation := sb_base_generation sb in
  outcome ← map_err Storage (replay ck generation log);
  let log := if decide (ro_valid_len outcome < zlen log) then take (Z.to_nat (ro_valid_len outcome)) log else log in
  r ← for_each (recover_frame (bf_records bf)) (ro_frames outcome) (recover_start sb bf);
  let write := with_next (rv_write r) (rv_next r) in
  Ok ({| db_generation := generation; db_overlay := freeze_overlay write; db_commit_seq := rv_commit_seq r;
         db_transaction_id := rv_txn r |}, log).

(** ** Write transactions *)

Record Writer := {
  wr_parent_seq : Z;
  wr_delta : WriteOverlay;
  wr_transaction_id : Z
}.

(** The transaction id is spent on the handle even if the transaction is dropped. *)
Definition begin_write (db : Db) : res DbError (Db * Writer) :=
  transaction_id ← ok_or (Txn TransactionIdOverflow) (checked_next (db_transaction_id db));
  let db := {| db_generation := db_generation db; db_overlay := db_overlay db; db_commit_seq := db_commit_seq db;
               db_transaction_id := transaction_id |} in
  Ok (db, {| wr_parent_seq := db_commit_seq db; wr_delta := from_overlay (db_overlay db);
             wr_transaction_id := transaction_id |}).

(** The record a dirty commit appends, with its sequence number. *)
Definition commit_frame (db : Db) (wr : Writer) : res DbError (Z * list byte) :=
  lsn ← ok_or (Txn CommitSeqOverflow) (checked_next (wr_parent_seq wr));
  let '((ops, blob), _) := take_frame (wr_delta wr) in
  frame ← map_err Storage (encode_commit ck lsn (wr_transaction_id wr) (db_generation db) ops blob);
  Ok (lsn, frame).

(** The handle and the log file afterwards, and the result. *)
Definition commit (io : AppendIo) (db : Db) (log : list byte) (wr : Writer) : Db * list byte * res DbError Z :=
  if overlay_is_empty (wr_delta wr) then (db, log, Ok (wr_parent_seq wr)) else
  match commit_frame db wr with
  | Ok (lsn, frame) =>
      let '(log, appended) := append_commit io log frame in
      match appended with
      | Ok _ =>
          ({| db_generation := db_generation db; db_overlay := freeze_overlay (wr_delta wr); db_commit_seq := lsn;
              db_transaction_id := wr_transaction_id wr |}, log, Ok lsn)
      | Err e => (db, log, Err (Storage e))
      | Panic => (db, log, Panic)
      | NoFuel => (db, log, NoFuel)
      end
  | Err e => (db, log, Err e)
  | Panic => (db, log, Panic)
  | NoFuel => (db, log, NoFuel)
  end.

(** [Db::write]: the closure [f] works on the writer's delta; its error drops the
    transaction. *)
Definition db_write (io : AppendIo) (db : Db) (log : list byte) (f : WriteOverlay → WriteOverlay * res DbError ())
    : Db * list byte * res DbError Z :=
  match begin_write db with
  | Ok (db, wr) =>
      let '(delta, value) := f (wr_delta wr) in
      match value with
      | Ok _ => commit io db log {| wr_parent_seq := wr_parent_seq wr; wr_delta := delta;
                                    wr_transaction_id := wr_transaction_id wr |}
      | Err e => (db, log, Err e)
      | Panic => (db, log, Panic)
      | NoFuel => (db, log, NoFuel)
      end
  | Err e => (db, log, Err e)
  | Panic => (db, log, Panic)
  | NoFuel => (db, log, NoFuel)
  end.

End database.

(** ** What a store recovers *)

(** An append that succeeds. *)
Definition io_ok : AppendIo :=
  {| io_seek := true; io_write := true; io_written := 0; io_sync := true; io_truncate := true |}.

(** A closure that makes the calls and returns [Ok]. *)
Definition transaction (base : BaseRecords) (calls : list WriteCall) (w : WriteOverlay) : WriteOverlay * res DbError () :=
  (run_calls base w calls, Ok ()).

Section database.
Context `{!Target} (ck : Checksum32) `{!Checksum32Laws ck} (sb : SuperblockRecord) (bf : BaseFile).

Let gen := sb_base_generation sb.
Let base := bf_records bf.

(** One transaction; the transactions of a run, while they succeed. *)
Definition run_txn (db : Db) (log : list byte) (calls : list WriteCall) : option (Db * list byte) :=
  match db_write ck io_ok db log (transaction base calls) with (db, log, Ok _) => Some (db, log) | _ => None end.

Fixpoint run_txns (db : Db) (log : list byte) (txns : list (list WriteCall)) : option (Db * list byte) :=
  match txns with
  | [] => Some (db, log)
  | calls :: txns => '(db, log) ← run_txn db log calls; run_txns db log txns
  end.

(** Superblocks and base files as read: their numbers are [u64]s. *)
Context (sb_wf : superblock_wf sb) (bf_wf : next_wf (bf_next bf)).

(** The handle [db] is what recovery makes of the commits [cs]. *)
Record DbInv (db : Db) (cs : list CommitFrame) : Prop := {
  di_log : LogOk gen cs;
  di_generation : db_generation db = gen;
  di_next : next_wf (o_next (db_overlay db));
  di_seq : is_uint 64 (db_commit_seq db);
  di_txn : is_uint 64 (db_transaction_id db);
  di_lsn : Forall (λ c, cf_lsn c ≤ db_commit_seq db) cs;
  di_recover : ∃ r, for_each (recover_frame base) cs (recover_start sb bf) = Ok r ∧
    rv_write r = from_overlay (db_overlay db) ∧ rv_next r = o_next (db_overlay db) ∧
    rv_commit_seq r = db_commit_seq db ∧ 0 ≤ rv_txn r ≤ db_transaction_id db
}.

(** The same published state; the transaction id may differ. *)
Definition same_state (a b : Db) : Prop :=
  db_generation a = db_generation b ∧ db_overlay a = db_overlay b ∧ db_commit_seq a = db_commit_seq b.

Lemma open_inv db cs tail :
  DbInv db cs → stops ck gen tail →
  ∃ dbr, open_db ck sb bf (log_of ck cs ++ tail) = Ok (dbr, log_of ck cs) ∧ same_state dbr db.
Proof.
  intros [Hok Hg _ _ _ _ (r & Hr & Hw & Hn & Hs & _)] Htail. unfold open_db. fold gen base.
  rewrite (replay_commits ck gen cs tail Hok Htail). cbn [map_err mbind res_bind outcome_of ro_valid_len ro_frames].
  rewrite Hr. cbn [mbind res_bind].
  assert ((if decide (zlen (log_of ck cs) < zlen (log_of ck cs ++ tail))
           then take (Z.to_nat (zlen (log_of ck cs))) (log_of ck cs ++ tail) else log_of ck cs ++ tail) = log_of ck cs) as ->.
  { unfold zlen. rewrite Nat2Z.id. case_decide as Hlt; [apply take_app_length|].
    destruct tail as [|b tail]; [apply app_nil_r|]. rewrite length_app in Hlt. cbn in Hlt. lia. }
  eexists. split; [done|]. split_and!; [by rewrite Hg| |done]. rewrite Hw, Hn. by destruct (db_overlay db).
Qed.

Lemma start_inv db log :
  open_db ck sb bf [] = Ok (db, log) → log = [] ∧ DbInv db [].
Proof.
  intros Ho. unfold open_db in Ho. cbn in Ho. injection Ho as <- <-. split; [done|].
  constructor; try done; [by repeat constructor|apply (sw_commit _ sb_wf)|apply (sw_txn _ sb_wf)|].
  eexists. split_and!; [done|done|done|done|apply (sw_txn _ sb_wf)|done].
Qed.

(** The frame a writer's calls leave is the commit's. *)
Definition txn_commit (db : Db) (calls : list WriteCall) : CommitFrame :=
  let w := run_calls base (from_overlay (db_overlay db)) calls in {|
    cf_lsn := db_commit_seq db + 1; cf_txn_id := db_transaction_id db + 1; cf_base_generation := db_generation db;
    cf_ops := (take_frame w).1.1; cf_blob := (take_frame w).1.2
  |}.

(** A transaction that succeeds publishes nothing, or appends its record. *)
Lemma run_txn_cases db log calls db' log' :
  is_uint 64 (db_transaction_id db) → is_uint 64 (db_commit_seq db) → run_txn db log calls = Some (db', log') →
  is_uint 64 (db_transaction_id db + 1) ∧ db_transaction_id db' = db_transaction_id db + 1 ∧
  let w := run_calls base (from_overlay (db_overlay db)) calls in
  ((overlay_is_empty w = true ∧ same_state db' db ∧ log' = log) ∨
   (overlay_is_empty w = false ∧ is_uint 64 (db_commit_seq db + 1) ∧ db_generation db' = db_generation db ∧
    db_overlay db' = freeze_overlay w ∧ db_commit_seq db' = db_commit_seq db + 1 ∧
    ∃ r, encoded ck (txn_commit db calls) r ∧ log' = log ++ r)).
Proof.
  intros [Ht0 _] [Hs0 _]. unfold run_txn, db_write, begin_write. destruct (checked_next (db_transaction_id db)) as [txn|] eqn:Ht; [|done].
  apply checked_add_Some in Ht as [Ht ->]. unfold ID_MAX, u64_max in Ht. cbn [ok_or mbind res_bind wr_delta transaction wr_parent_seq
    wr_transaction_id db_overlay db_commit_seq]. intros Hrun. 
  set (w := run_calls base (from_overlay (db_overlay db)) calls) in *. unfold commit in Hrun. cbn [wr_delta] in Hrun.
  destruct (overlay_is_empty w) eqn:He.
  { injection Hrun as <- <-. split_and!; [unfold is_uint; lia|done|by left]. }
  unfold commit_frame in Hrun. cbn [wr_parent_seq wr_delta wr_transaction_id db_generation] in Hrun.
  destruct (checked_next (db_commit_seq db)) as [lsn|] eqn:Hc; [|done]. apply checked_add_Some in Hc as [Hc ->].
  cbn [ok_or mbind res_bind take_frame] in Hrun.
  destruct (encode_commit _ _ _ _ _ _) as [r|e| |] eqn:Hr in Hrun; try done. cbn [map_err mbind res_bind] in Hrun.
  cbn in Hrun. injection Hrun as <- <-. split_and!; [unfold is_uint; lia|done|]. right.
  unfold ID_MAX, u64_max in Hc. split_and!; [done|unfold is_uint; lia|done|done|done|].
  exists r. split; [exact Hr|done].
Qed.


Lemma encode_fits lsn txn g ops blob r : encode_commit ck lsn txn g ops blob = Ok r → zlen blob ≤ usize_max.
Proof.
  intros Hr. unfold encode_commit in Hr.
  apply bind_Ok_inv in Hr as (ol & [_ ->]%or_panic_Ok%checked_mul_Some & Hr).
  apply bind_Ok_inv in Hr as (l1 & [_ ->]%or_panic_Ok%checked_add_Some & Hr).
  apply bind_Ok_inv in Hr as (l2 & [Hle _]%or_panic_Ok%checked_add_Some & _).
  pose proof (zlen_nonneg ops). sizes. lia.
Qed.

(** The state after a dirty transaction is recovered from one commit more. *)
Lemma dirty_inv db cs calls db' r (w := run_calls base (from_overlay (db_overlay db)) calls) :
  DbInv db cs → Forall call_wf calls →
  encoded ck (txn_commit db calls) r →
  is_uint 64 (db_transaction_id db + 1) → is_uint 64 (db_commit_seq db + 1) →
  db_generation db' = db_generation db → db_overlay db' = freeze_overlay w →
  db_commit_seq db' = db_commit_seq db + 1 → db_transaction_id db' = db_transaction_id db + 1 →
  encodable (txn_commit db calls) ∧ r = commit_record ck (txn_commit db calls) ∧ DbInv db' (cs ++ [txn_commit db calls]).
Proof.
  intros [[He Hgs Hsort] Hg Hn Hseq Htxn Hlsn (rv & Hrv & Hw & Hnx & Hs & Ht)] Hcalls Hr Htx Hsq Hg' Hov' Hs' Ht'.
  set (c := txn_commit db calls) in *. pose proof (encode_fits _ _ _ _ _ _ Hr) as Hfit.
  destruct (frame_facts base (db_overlay db) calls Hcalls Hn Hfit) as (Hnw & Hle & Hops). fold w in Hnw, Hle, Hops.
  assert (is_uint 64 (db_generation db)) as Hgu by (rewrite Hg; apply (sw_generation sb); apply sb_wf).
  assert (frame_wf c) as Hwf by by constructor.
  destruct (encode_inv ck c r Hwf Hr) as [Hc ->]. split_and!; [done|done|]. constructor.
  - constructor.
    + apply Forall_app. split; [done|by apply Forall_singleton].
    + apply Forall_app. split; [done|by apply Forall_singleton].
    + apply StronglySorted_app. split_and!; [|done|repeat constructor]. intros a b Ha ->%list_elem_of_singleton.
      rewrite Forall_forall in Hlsn. specialize (Hlsn a Ha). cbn [c txn_commit cf_lsn]. lia.
  - by rewrite Hg'.
  - by rewrite Hov'.
  - by rewrite Hs'.
  - by rewrite Ht'.
  - rewrite Hs'. apply Forall_app. split; [|apply Forall_singleton; cbn; lia].
    eapply Forall_impl; [exact Hlsn|]. cbn. lia.
  - rewrite for_each_app, Hrv. cbn [mbind res_bind for_each]. unfold recover_frame at 1.
    cbn [c txn_commit cf_ops cf_blob cf_lsn cf_txn_id]. rewrite Hw.
    fold w. rewrite (replay_frame base (db_overlay db) calls _ Hcalls Hfit). fold w. cbn [mbind res_bind].
    eexists. split; [done|]. cbn [rv_write rv_next rv_commit_seq rv_txn]. rewrite Hov', Hs', Ht'. split_and!; [done| |done|lia|].
    + rewrite Hnx. by apply elementwise_max_le.
    + lia.
Qed.

Lemma txn_inv db cs calls db' log' :
  DbInv db cs → Forall call_wf calls → run_txn db (log_of ck cs) calls = Some (db', log') →
  (same_state db' db ∧ log' = log_of ck cs ∧ DbInv db' cs) ∨
  (db_commit_seq db' = db_commit_seq db + 1 ∧ encodable (txn_commit db calls) ∧
   log' = log_of ck (cs ++ [txn_commit db calls]) ∧ DbInv db' (cs ++ [txn_commit db calls])).
Proof.
  intros Hinv Hcalls Hrun. pose proof Hinv as [Hlog Hg Hn Hseq Htxn Hlsn Hrec].
  destruct (run_txn_cases db (log_of ck cs) calls db' log' Htxn Hseq Hrun) as
    (Htx & Ht' & [(_ & (Hg' & Ho' & Hs') & ->)|(_ & Hsq & Hg' & Ho' & Hs' & r & Hr & ->)]).
  - left. split_and!; [done|done|]. destruct Hrec as (rv & Hrv & Hw & Hnx & Hs & Ht).
    constructor; rewrite ?Hg', ?Ho', ?Hs', ?Ht'; try done. exists rv. split_and!; try done; lia.
  - right. destruct (dirty_inv db cs calls db' r) as (Hc & -> & Hinv'); try done.
    split_and!; [done|done| |done]. by rewrite log_of_app, log_of_single.
Qed.

Lemma run_txns_extend txns : ∀ db cs db' log',
  DbInv db cs → Forall (Forall call_wf) txns → run_txns db (log_of ck cs) txns = Some (db', log') →
  ∃ more, log' = log_of ck cs ++ more.
Proof.
  induction txns as [|calls txns IH]; intros db cs db' log' Hinv Hwf Hrun; cbn [run_txns] in Hrun.
  { injection Hrun as <- <-. exists []. by rewrite app_nil_r. }
  apply Forall_cons in Hwf as [Hcalls Hwf]. destruct (run_txn db (log_of ck cs) calls) as [[db1 log1]|] eqn:H1; [|done].
  cbn [mbind option_bind] in Hrun. destruct (txn_inv db cs calls db1 log1 Hinv Hcalls H1) as
    [(_ & -> & Hinv1)|(_ & Hc & -> & Hinv1)]; destruct (IH _ _ _ _ Hinv1 Hwf Hrun) as [more ->]; [eauto|].
  rewrite log_of_app, <-app_assoc. eauto.
Qed.

(** The recovery argument, from any reachable state on. *)
Lemma recover_prefix txns : ∀ db cs db' log' k,
  DbInv db cs → Forall (Forall call_wf) txns → run_txns db (log_of ck cs) txns = Some (db', log') →
  (length (log_of ck cs) ≤ k ≤ length log')%nat →
  ∃ n dbn logn dbr, (n ≤ length txns)%nat ∧ run_txns db (log_of ck cs) (take n txns) = Some (dbn, logn) ∧
    (length logn ≤ k)%nat ∧
    (∀ m dbm logm, (m ≤ length txns)%nat → run_txns db (log_of ck cs) (take m txns) = Some (dbm, logm) →
       (length logm ≤ k)%nat → (m ≤ n)%nat) ∧
    open_db ck sb bf (take k log') = Ok (dbr, logn) ∧ same_state dbr dbn.
Proof.
  induction txns as [|calls txns IH]; intros db cs db' log' k Hinv Hwf Hrun Hk.
  - cbn [run_txns] in Hrun. injection Hrun as <- <-. rewrite take_ge by lia.
    destruct (open_inv db cs [] Hinv) as (dbr & Ho & Hsame); [by left|]. rewrite app_nil_r in Ho.
    exists 0%nat, db, (log_of ck cs), dbr. split_and!; try done; lia.
  - cbn [run_txns] in Hrun. apply Forall_cons in Hwf as [Hcalls Hwf].
    destruct (run_txn db (log_of ck cs) calls) as [[db1 log1]|] eqn:H1; [|done]. cbn [mbind option_bind] in Hrun.
    assert (∃ cs1, log1 = log_of ck cs1 ∧ DbInv db1 cs1 ∧
      ((length log1 ≤ k)%nat ∨ ∃ c, encodable c ∧ cs1 = cs ++ [c] ∧ (k < length log1)%nat)) as (cs1 & -> & Hinv1 & Hcase).
    { destruct (txn_inv db cs calls db1 log1 Hinv Hcalls H1) as [(_ & -> & Hi)|(_ & Hc & -> & Hi)].
      - exists cs. split_and!; [done|done|left; lia].
      - eexists. split_and!; [done|done|]. destruct (decide (length (log_of ck (cs ++ [txn_commit db calls])) ≤ k)%nat) as [?|?];
          [by left|right]. eexists. split_and!; [done|done|lia]. }
    destruct Hcase as [Hle|(c & Hc & -> & Hlt)].
    + destruct (IH db1 cs1 db' log' k Hinv1 Hwf Hrun ltac:(lia)) as (n & dbn & logn & dbr & Hn & Hrn & Hln & Hmax & Ho & Hsame).
      exists (S n), dbn, logn, dbr. cbn [take run_txns length]. rewrite H1. cbn [mbind option_bind].
      split_and!; [lia|done|done| |done|done]. intros [|m] dbm logm Hm Hrm Hlm; [lia|].
      cbn [take run_txns] in Hrm. rewrite H1 in Hrm. cbn [mbind option_bind] in Hrm.
      pose proof (Hmax m dbm logm ltac:(lia) Hrm Hlm). lia.
    + destruct (open_inv db cs (take (k - length (log_of ck cs)) (commit_record ck c)) Hinv) as (dbr & Ho & Hsame).
      { rewrite log_of_app, log_of_single, length_app in Hlt. destruct Hinv1 as [[_ Hgs _] _ _ _ _ _ _].
        apply Forall_app in Hgs as [_ [<- _]%Forall_cons]. apply cut_stops; [done|done|lia]. }
      exists 0%nat, db, (log_of ck cs), dbr. split_and!; [lia|done|lia| | |done].
      * intros [|m] dbm logm Hm Hrm Hlm; [lia|]. exfalso. cbn [take run_txns] in Hrm. rewrite H1 in Hrm.
        cbn [mbind option_bind] in Hrm.
        destruct (run_txns_extend (take m txns) db1 _ dbm logm Hinv1 ltac:(by apply Forall_take) Hrm) as [more ->].
        rewrite length_app in Hlm. lia.
      * assert (∃ more, log' = log_of ck (cs ++ [c]) ++ more) as [more ->] by by eapply run_txns_extend.
        rewrite log_of_app, log_of_single in *. rewrite <-Ho. f_equal. rewrite length_app in Hlt.
        rewrite take_app_le by (rewrite length_app; lia). by rewrite take_app_ge by lia.
Qed.

Lemma run_inv db cs txns db' log' :
  DbInv db cs → Forall (Forall call_wf) txns → run_txns db (log_of ck cs) txns = Some (db', log') →
  ∃ cs', log' = log_of ck cs' ∧ DbInv db' cs'.
Proof.
  revert db cs. induction txns as [|calls txns IH]; intros db cs Hinv Hwf Hrun; cbn [run_txns] in Hrun.
  { injection Hrun as <- <-. eauto. }
  apply Forall_cons in Hwf as [Hcalls Hwf]. destruct (run_txn db (log_of ck cs) calls) as [[db1 log1]|] eqn:H1; [|done].
  destruct (txn_inv db cs calls db1 log1 Hinv Hcalls H1) as [(_ & -> & Hi)|(_ & _ & -> & Hi)]; by apply (IH db1 _ Hi).
Qed.

(** C22. Durability and recovery of whole histories. Open a store on an empty
    log and run any transactions through [Db::write], each committing. Cut the
    log anywhere — the crash — and open again: it succeeds, the published state
    (overlay with its indexes, commit sequence, generation) is exactly that after
    the first [n] transactions, where [n] is the number of transactions whose
    log lies whole in what is left, and the log file is truncated to theirs. *)
Theorem recovery_restores_prefix db0 log0 txns db log k :
  open_db ck sb bf [] = Ok (db0, log0) → Forall (Forall call_wf) txns →
  run_txns db0 log0 txns = Some (db, log) → (k ≤ length log)%nat →
  ∃ n dbn logn dbr, (n ≤ length txns)%nat ∧ run_txns db0 log0 (take n txns) = Some (dbn, logn) ∧
    (length logn ≤ k)%nat ∧
    (∀ m dbm logm, (m ≤ length txns)%nat → run_txns db0 log0 (take m txns) = Some (dbm, logm) →
       (length logm ≤ k)%nat → (m ≤ n)%nat) ∧
    open_db ck sb bf (take k log) = Ok (dbr, logn) ∧ same_state dbr dbn.
Proof.
  intros Ho Hwf Hrun Hk. destruct (start_inv db0 log0 Ho) as [-> Hinv].
  apply (recover_prefix txns db0 [] db log k); [done|done|done|]. cbn. lia.
Qed.

(** C29. The writer lock is not enough for two handles. Let two handles hold the
    same published state (two processes that opened the same directory) and each
    commit one non-empty transaction, one after the other, as the lock allows.
    Both commits succeed, and the store no longer opens: the second record
    repeats the first one's sequence number. *)
Theorem stale_handle_corrupts_log db0 log0 txns db log calls1 db1 log1 calls2 db2 log2 :
  open_db ck sb bf [] = Ok (db0, log0) → Forall (Forall call_wf) txns → run_txns db0 log0 txns = Some (db, log) →
  Forall call_wf calls1 → run_txn db log calls1 = Some (db1, log1) → log1 ≠ log →
  Forall call_wf calls2 → run_txn db log1 calls2 = Some (db2, log2) → log2 ≠ log1 →
  open_db ck sb bf log2 =
    Err (Storage (LogCorrupt (db_commit_seq db + 1) "delta-log record LSN not strictly ascending")).
Proof.
  intros Ho Hwf Hrun Hc1 H1 Hd1 Hc2 H2 Hd2. destruct (start_inv db0 log0 Ho) as [-> Hinv0].
  destruct (run_inv db0 [] txns db log Hinv0 Hwf Hrun) as (cs & -> & Hinv).
  destruct (txn_inv db cs calls1 db1 log1 Hinv Hc1 H1) as [(_ & -> & _)|(Hs1 & _ & -> & Hinv1)]; [done|].
  pose proof Hinv as [_ Hg _ Hseq Htxn _ _].
  destruct (run_txn_cases db _ calls2 db2 log2 Htxn Hseq H2) as
    (Htx & Ht' & [(_ & _ & ->)|(_ & Hsq & Hg' & Ho' & Hs' & r & Hr & ->)]); [done|].
  destruct (dirty_inv db cs calls2 db2 r) as (Hc & -> & _); try done.
  unfold open_db. fold gen. rewrite <-(app_nil_r (commit_record ck _)).
  rewrite (replay_late ck gen cs (txn_commit db calls1) (txn_commit db calls2) []); [done|apply Hinv1|done|done|].
  cbn. lia.
Qed.

End database.

(** ** A small store *)

Definition demo_sb : SuperblockRecord := {|
  sb_magic := SUPERBLOCK_MAGIC; sb_base_generation := 3; sb_checkpoint_lsn := 0; sb_log_byte_offset := 0;
  sb_commit_seq := 10; sb_transaction_id := 12; sb_format_version := OXGDB_FORMAT_VERSION; sb_flags := 0;
  sb_crc32c := 0; sb_pad := 0
|}.
Definition demo_file : BaseFile :=
  {| bf_records := demo_base; bf_next := set_next_element INITIAL 2; bf_catalog := empty_catalog |}.
Definition demo_txns : list (list WriteCall) := [demo_calls; []; [CallCreateRelation]].
Definition demo_db0 : Db :=
  {| db_generation := 3; db_overlay := demo_parent; db_commit_seq := 10; db_transaction_id := 12 |}.

Lemma demo_sb_wf : superblock_wf demo_sb.
Proof. constructor; done. Qed.

Lemma demo_file_wf : next_wf (bf_next demo_file).
Proof. unfold next_wf, words_wf. cbn. repeat (apply Forall_cons_2; [done|]). apply Forall_nil_2. Qed.

Lemma demo_txns_wf : Forall (Forall (call_wf (H := target64))) demo_txns.
Proof.
  apply Forall_cons_2; [apply demo_calls_wf|]. apply Forall_cons_2; [constructor|]. by repeat constructor.
Qed.

Lemma demo_open : open_db (H := target64) crc32c_append demo_sb demo_file [] = Ok (demo_db0, []).
Proof. reflexivity. Qed.

Definition demo_log : list byte :=
  match run_txns (H := target64) crc32c_append demo_file demo_db0 [] demo_txns with Some (_, log) => log | None => [] end.

Lemma demo_runs : ∃ db, run_txns (H := target64) crc32c_append demo_file demo_db0 [] demo_txns = Some (db, demo_log).
Proof.
  unfold demo_log. destruct (run_txns _ _ _ _ _) as [[db log]|] eqn:Hrun; [by exists db|].
  exfalso. apply (f_equal (λ o, if o is Some _ then true else false)) in Hrun. revert Hrun. vm_compute. discriminate.
Qed.

(** The store reopens from a log whose last byte is lost. *)
Lemma recovery_restores_prefix_witness :
  ∃ n dbr logn, (n ≤ 3)%nat ∧
    open_db (H := target64) crc32c_append demo_sb demo_file (take (length demo_log - 1) demo_log) = Ok (dbr, logn).
Proof.
  destruct demo_runs as [db Hrun].
  destruct (recovery_restores_prefix (H := target64) crc32c_append demo_sb demo_file demo_sb_wf demo_file_wf
    demo_db0 [] demo_txns db demo_log (length demo_log - 1) demo_open demo_txns_wf Hrun)
    as (n & dbn & logn & dbr & Hn & _ & _ & _ & Ho & _); [lia|].
  exists n, dbr, logn. split; [exact Hn|exact Ho].
Defined.

(** Both handles create an element. *)
Lemma stale_handle_corrupts_log_witness :
  ∃ db1 log1 db2 log2,
    run_txn (H := target64) crc32c_append demo_file demo_db0 [] [CallCreateElement] = Some (db1, log1) ∧
    run_txn (H := target64) crc32c_append demo_file demo_db0 log1 [CallCreateElement] = Some (db2, log2) ∧
    open_db (H := target64) crc32c_append demo_sb demo_file log2 =
      Err (Storage (LogCorrupt 11 "delta-log record LSN not strictly ascending")).
Proof.
  destruct (run_txn (H := target64) crc32c_append demo_file demo_db0 [] [CallCreateElement]) as [[db1 log1]|] eqn:H1;
    [|exfalso; revert H1; vm_compute; discriminate].
  destruct (run_txn (H := target64) crc32c_append demo_file demo_db0 log1 [CallCreateElement]) as [[db2 log2]|] eqn:H2;
    [|exfalso; revert H1 H2; vm_compute; intros [= <- <-]; discriminate].
  exists db1, log1, db2, log2. split; [reflexivity|]. split; [exact H2|].
  apply (stale_handle_corrupts_log (H := target64) crc32c_append demo_sb demo_file demo_sb_wf demo_file_wf
    demo_db0 [] [] demo_db0 [] [CallCreateElement] db1 log1 [CallCreateElement] db2 log2 demo_open).
  - constructor.
  - reflexivity.
  - by repeat constructor.
  - exact H1.
  - intros ->. revert H1. vm_compute. discriminate.
  - by repeat constructor.
  - exact H2.
  - intros ->. revert H1 H2. vm_compute. intros [= <- <-]. discriminate.
Defined.
