(* ===== verification/Topology.v ===== *)
(** * Topology: the capability traits and reachability

    Models the traits of [crates/oxgraph-topology/src/lib.rs] that the
    algorithms are generic over, as operational type classes on a view type [G]
    with element identities [Id], together with the contract their
    documentation states ([TopologyLaws]). Walks and distances are defined over
    any successor function, so a traversal direction, a filtered subgraph and a
    union of directions are all instances. *)

From stdpp Require Import base gmap sets list sorting.
From S2P Require Import Prelude.

(** ** Capabilities *)

Class DenseElementIndex (G Id : Type) := {
  element_bound : G → nat;
  element_index : G → Id → nat
}.

Class ContainsElement (G Id : Type) := contains_element : G → Id → bool.
Class ElementSuccessors (G Id : Type) := element_successors : G → Id → list Id.
Class ElementPredecessors (G Id : Type) := element_predecessors : G → Id → list Id.

(** What [DenseElementIndex], [ContainsElement], [ElementSuccessors] and
    [ElementPredecessors] promise of one view: visible elements have distinct
    indexes below the bound, and expanding a visible element yields visible
    elements. *)
Class TopologyLaws {G Id} `{DenseElementIndex G Id, ContainsElement G Id,
    ElementSuccessors G Id, ElementPredecessors G Id} (g : G) : Prop := {
  index_bound (x : Id) : contains_element g x = true → element_index g x < element_bound g;
  index_inj (x y : Id) : contains_element g x = true → contains_element g y = true →
    element_index g x = element_index g y → x = y;
  successors_contained (x y : Id) : contains_element g x = true →
    y ∈ element_successors g x → contains_element g y = true;
  predecessors_contained (x y : Id) : contains_element g x = true →
    y ∈ element_predecessors g x → contains_element g y = true
}.

(** ** Walks *)

Section walks.
Context {Id : Type} (succ : Id → list Id).

(** [walk x n y]: [n] hops lead from [x] to [y]. *)
Inductive walk (x : Id) : nat → Id → Prop :=
  | walk_nil : walk x 0 x
  | walk_snoc n y z : walk x n y → z ∈ succ y → walk x (S n) z.

Definition reachable (x y : Id) : Prop := ∃ n, walk x n y.

(** [y] is at distance [d] of the seeds. *)
Definition distance (seeds : list Id) (y : Id) (d : nat) : Prop :=
  (∃ s, s ∈ seeds ∧ walk s d y) ∧ ∀ s n, s ∈ seeds → walk s n y → d ≤ n.

Lemma walk_cons x y n z : y ∈ succ x → walk y n z → walk x (S n) z.
Proof.
  intros Hy. induction 1 as [|n y' z Hw IH Hz]; [by eapply walk_snoc; [constructor|]|].
  by eapply walk_snoc.
Qed.

Lemma walk_app x n y m z : walk x n y → walk y m z → walk x (n + m) z.
Proof.
  intros Hx. induction 1 as [|m y' z Hw IH Hz]; [replace (n + 0) with n by lia; done|].
  rewrite Nat.add_succ_r. by eapply walk_snoc.
Qed.

Lemma walk_preserves (P : Id → Prop) x n y :
  (∀ a b, P a → b ∈ succ a → P b) → P x → walk x n y → P y.
Proof. intros Hstep Hx. induction 1; eauto. Qed.

Lemma walk_S_inv x n z : walk x (S n) z → ∃ y, walk x n y ∧ z ∈ succ y.
Proof. inversion 1; subst. eauto. Qed.

Lemma walk_0_inv x z : walk x 0 z → z = x.
Proof. by inversion 1. Qed.

End walks.

(** A walk only depends on the successors of the elements it leaves. *)
Lemma walk_ext {Id} (f g : Id → list Id) (P : Id → Prop) x n y :
  (∀ a, P a → f a = g a) → (∀ a b, P a → b ∈ f a → P b) → P x → walk f x n y → walk g x n y.
Proof.
  intros Hfg Hcl Hx Hw. revert Hx. induction Hw as [|n y z Hw IH Hz]; intros Hx; [constructor|].
  eapply walk_snoc; [by apply IH|]. rewrite <-Hfg; [done|]. by eapply walk_preserves.
Qed.

(** ** Pigeonhole for dense indexes: distinct visible elements are at most the
    bound many. *)
Lemma dense_length {Id} (index : Id → nat) (bound : nat) (l : list Id) :
  NoDup l → (∀ x, x ∈ l → index x < bound) →
  (∀ x y, x ∈ l → y ∈ l → index x = index y → x = y) → length l ≤ bound.
Proof.
  intros Hnd Hb Hinj. rewrite <-(length_fmap index l), <-(length_seq bound 0).
  apply submseteq_length, NoDup_submseteq.
  - apply NoDup_fmap_2_strong; [|done]. intros x y Hx Hy. by apply Hinj.
  - intros i (x & -> & Hx)%list_elem_of_fmap. apply elem_of_seq. specialize (Hb x Hx). lia.
Qed.

(** ** A concrete view: adjacency lists over [0 .. n - 1]

    The views the examples run on. *)

Record list_graph := { adjacency : list (list nat) }.

#[export] Instance list_graph_dense : DenseElementIndex list_graph nat :=
  {| element_bound g := length (adjacency g); element_index _ x := x |}.
#[export] Instance list_graph_contains : ContainsElement list_graph nat :=
  λ g x, bool_decide (x < length (adjacency g)).
#[export] Instance list_graph_successors : ElementSuccessors list_graph nat :=
  λ g x, default [] (adjacency g !! x).
#[export] Instance list_graph_predecessors : ElementPredecessors list_graph nat :=
  λ g y, filter (λ x, y ∈ default [] (adjacency g !! x)) (seq 0 (length (adjacency g))).

Lemma list_graph_laws g :
  Forall (Forall (λ y, y < length (adjacency g))) (adjacency g) → TopologyLaws (Id := nat) g.
Proof.
  intros Hg. split; unfold contains_element, list_graph_contains; cbn [element_bound element_index list_graph_dense].
  - intros x Hx. by apply bool_decide_eq_true in Hx.
  - done.
  - intros x y _ Hy. apply bool_decide_eq_true. unfold element_successors, list_graph_successors in Hy.
    destruct (adjacency g !! x) as [row|] eqn:Hr; [|by apply not_elem_of_nil in Hy].
    rewrite Forall_lookup in Hg. specialize (Hg x row Hr). rewrite Forall_forall in Hg. by apply Hg.
  - intros x y _ Hy. apply bool_decide_eq_true. unfold element_predecessors, list_graph_predecessors in Hy.
    apply list_elem_of_filter in Hy as [_ Hy]. apply elem_of_seq in Hy. lia.
Qed.

(** ** Cycles *)

Definition cyclic {Id} (succ : Id → list Id) (nodes : list Id) : Prop :=
  ∃ x n, x ∈ nodes ∧ walk succ x (S n) x.

(** A finite non-empty set in which every element has a predecessor contains a
    cycle: follow predecessors until one repeats. *)
Lemma backward_cycle {Id} `{!EqDecision Id} (succ : Id → list Id) (W : list Id) y0 :
  y0 ∈ W → (∀ y, y ∈ W → ∃ x, x ∈ W ∧ y ∈ succ x) → cyclic succ W.
Proof.
  intros Hy0 Hpred.
  assert (∀ k, cyclic succ W ∨ ∃ y l, NoDup (y :: l) ∧ length l = k ∧ y :: l ⊆ W ∧
    ∀ z, z ∈ l → ∃ n, walk succ y (S n) z) as Hchain.
  { induction k as [|k [Hc|(y & l & Hnd & <- & HW & Hl)]]; [right|by left|].
    - exists y0, []. split_and!; [apply NoDup_singleton|done|set_solver|set_solver].
    - destruct (Hpred y) as (x & Hx & Hxy); [set_solver|].
      destruct (decide (x ∈ y :: l)) as [Hin|Hin].
      + left. exists x. apply elem_of_cons in Hin as [->|Hin].
        * exists 0. split; [done|]. by eapply walk_cons; [|constructor].
        * destruct (Hl x Hin) as [n Hn]. exists (S n). split; [done|]. by eapply walk_cons.
      + right. exists x, (y :: l). split_and!; [by constructor|done|set_solver|].
        intros z [->|Hz]%elem_of_cons.
        * exists 0. by eapply walk_cons; [|constructor].
        * destruct (Hl z Hz) as [n Hn]. exists (S n). by eapply walk_cons. }
  destruct (Hchain (length W)) as [Hc|(y & l & Hnd & Hlen & HW & _)]; [done|].
  assert (length (y :: l) ≤ length W) as Hle by by apply submseteq_length, NoDup_submseteq.
  cbn in Hle. lia.
Qed.

Lemma walk_succ_ext {Id} (f f' : Id → list Id) x n y :
  (∀ a, f a = f' a) → walk f x n y → walk f' x n y.
Proof. intros Hf. apply (walk_ext f f' (λ _, True)); auto. Qed.
