(* ===== verification/BfsSpec.v ===== *)
(** * BfsSpec: layered breadth-first search over lists

    The abstract machine every breadth-first traversal of the code refines: a
    list of discovered elements with their depths, in discovery order, and a
    cursor. [layers_correct] is the one place where breadth-first search is
    shown to compute distances; the traversals of [bfs/] and [sssp.rs] are
    related to the machine, not re-proved. *)

From stdpp Require Import base gmap sets list sorting.
From S2P Require Import Prelude Topology.

Section layers.
Context {Id : Type} `{!EqDecision Id} (succ : Id → list Id).

(** Elements at a depth that does not expand are discovered, not left. *)
Context (expands : nat → bool).
  Implicit Types q : list (Id * nat).

(** Queue [y] at depth [d] unless already discovered. *)
Definition visit (d : nat) q (y : Id) : list (Id * nat) :=
  if decide (y ∈ q.*1) then q else q ++ [(y, d)].

Definition expand_at q (x : Id) (d : nat) : list (Id * nat) :=
  if expands d then foldl (visit (S d)) q (succ x) else q.

Fixpoint layers (fuel : nat) q (h : nat) : list (Id * nat) :=
  match fuel with
  | O => q
  | S fuel =>
      match q !! h with
      | None => q
      | Some (x, d) => layers fuel (expand_at q x d) (S h)
      end
  end.

Definition seed_queue (seeds : list Id) : list (Id * nat) := foldl (visit 0) [] seeds.

(** ** The invariant *)

Record LayersInv (seeds : list Id) q (h : nat) : Prop := {
  li_head : h ≤ length q;
  li_nodup : NoDup q.*1;
  li_sorted : ∀ i j x y d e, i < j → q !! i = Some (x, d) → q !! j = Some (y, e) → d ≤ e;
  li_band : ∀ i j x y d e, h ≤ i → q !! i = Some (x, d) → q !! j = Some (y, e) → e ≤ S d;
  li_closed : ∀ i x d y, i < h → q !! i = Some (x, d) → expands d = true → y ∈ succ x →
    ∃ j e, q !! j = Some (y, e) ∧ e ≤ S d;
  li_sound : ∀ x d, (x, d) ∈ q → ∃ s, s ∈ seeds ∧ walk succ s d x;
  li_cut : ∀ x d, (x, S d) ∈ q → expands d = true;
  li_small : ∀ i x d, q !! i = Some (x, d) → d ≤ i;
  li_seeds : ∀ s, s ∈ seeds → (s, 0) ∈ q
}.

Lemma visit_elem d q y x e : (x, e) ∈ q → (x, e) ∈ visit d q y.
Proof using EqDecision0. clear succ expands. unfold visit. case_decide; set_solver. Qed.

Lemma visit_lookup d q y i p : q !! i = Some p → visit d q y !! i = Some p.
Proof using EqDecision0. clear succ expands. intros Hi. unfold visit. case_decide; [done|]. by apply lookup_app_l_Some. Qed.

Lemma visit_nodup d q y : NoDup q.*1 → NoDup (visit d q y).*1.
Proof using EqDecision0. clear succ expands.
  intros Hq. unfold visit. case_decide; [done|]. rewrite fmap_app. apply NoDup_app.
  split_and!; [done| |apply NoDup_singleton]. intros x Hx ->%list_elem_of_singleton. done.
Qed.

Lemma visit_seen d q y : y ∈ (visit d q y).*1.
Proof using EqDecision0. clear succ expands. unfold visit. case_decide; [done|]. rewrite fmap_app. set_solver. Qed.

(** Folding [visit d] over any list adds new elements at depth [d] only. *)
Lemma visits_spec d q l :
  NoDup q.*1 →
  ∃ new, foldl (visit d) q l = q ++ new ∧ NoDup (q ++ new).*1 ∧
    (∀ y e, (y, e) ∈ new → e = d ∧ y ∈ l) ∧ (∀ y, y ∈ l → y ∈ (q ++ new).*1).
Proof using EqDecision0. clear succ expands.
  revert q. induction l as [|y l IH]; intros q Hq; cbn [foldl].
  { exists []. rewrite app_nil_r. split_and!; try done; set_solver. }
  destruct (IH (visit d q y) (visit_nodup d q y Hq)) as (new & -> & Hnd & Hnew & Hall).
  revert Hnd Hall. unfold visit. case_decide as Hin; intros Hnd Hall.
  - exists new. split_and!; [done|done|set_solver|]. intros z [->|Hz]%elem_of_cons; [|by apply Hall].
    rewrite fmap_app. set_solver.
  - exists ((y, d) :: new). rewrite <-app_assoc in Hnd, Hall |- *. split_and!; [done|done| |].
    + intros z e [[= -> ->]|Hz]%elem_of_cons; [set_solver|]. apply Hnew in Hz. set_solver.
    + intros z [->|Hz]%elem_of_cons; [|by apply Hall]. rewrite fmap_app. set_solver.
Qed.

Lemma seed_queue_inv seeds : LayersInv seeds (seed_queue seeds) 0.
Proof.
  unfold seed_queue. destruct (visits_spec 0 [] seeds) as (new & -> & Hnd & Hnew & Hall); [constructor|].
  assert (∀ i x d, new !! i = Some (x, d) → d = 0 ∧ x ∈ seeds) as Hz.
  { intros i x d Hi%list_elem_of_lookup_2. by apply Hnew. }
  constructor; cbn [app] in *; try done.
  - lia.
  - intros i j x y d e _ [-> _]%Hz [-> _]%Hz. done.
  - intros i j x y d e _ [-> _]%Hz [-> _]%Hz. lia.
  - lia.
  - intros x d [-> Hx]%Hnew. exists x. split; [done|constructor].
  - by intros x d [? _]%Hnew.
  - intros i x d [-> _]%Hz. lia.
  - intros s Hs. apply Hall, list_elem_of_fmap in Hs as ([x d] & -> & Hx). cbn [fst] in *.
    by destruct (Hnew x d Hx) as [-> _].
Qed.

Lemma layers_step_inv seeds q h x d :
  LayersInv seeds q h → q !! h = Some (x, d) → LayersInv seeds (expand_at q x d) (S h).
Proof.
  intros [Hhd Hnd Hso Hba Hcl Hsd Hct Hsm Hse] Hh. pose proof (lookup_lt_Some _ _ _ Hh) as Hlt.
  unfold expand_at. destruct (expands d) eqn:Hex.
  2:{ constructor; try done; [intros i j a b da e Hi; eapply Hba; lia|].
      intros i a da y Hi Ha Hexp Hy. destruct (decide (i = h)) as [->|]; [congruence|].
      eapply Hcl; [|done..]. lia. }
  destruct (visits_spec (S d) q (succ x) Hnd) as (new & -> & Hnd' & Hnew & Hall).
  assert (∀ i y e, (q ++ new) !! i = Some (y, e) →
    q !! i = Some (y, e) ∨ (length q ≤ i ∧ e = S d ∧ y ∈ succ x)) as Hcase.
  { intros i y e [Hi|[Hl Hi]]%lookup_app_Some; [by left|right].
    apply list_elem_of_lookup_2, Hnew in Hi. tauto. }
  constructor; [rewrite length_app; lia|done|..].
  - intros i j a b da e Hij [Ha|(Ha & -> & _)]%Hcase [Hb|(Hb & -> & _)]%Hcase.
    + by eapply (Hso i j).
    + by eapply (Hba h i).
    + apply lookup_lt_Some in Hb. lia.
    + done.
  - intros i j a b da e Hi Ha Hb.
    assert (d ≤ da) as Hda.
    { destruct (Hcase _ _ _ Ha) as [Ha'|(_ & -> & _)]; [|lia]. by eapply (Hso h i); [lia|..]. }
    destruct (Hcase _ _ _ Hb) as [Hb'|(_ & -> & _)]; [|lia].
    pose proof (Hba h j x b d e ltac:(lia) Hh Hb'). lia.
  - intros i a da y Hi Ha Hexp Hy. destruct (decide (i = h)) as [->|].
    + rewrite lookup_app_l, Hh in Ha by done. injection Ha as -> ->.
      pose proof (Hall y Hy) as ([y' e] & -> & [j Hj]%list_elem_of_lookup)%list_elem_of_fmap.
      exists j, e. split; [done|]. destruct (Hcase _ _ _ Hj) as [Hj'|(_ & -> & _)]; [|done].
      by eapply (Hba h j).
    + rewrite lookup_app_l in Ha by lia. destruct (Hcl i a da y ltac:(lia) Ha Hexp Hy) as (j & e & Hj & He).
      exists j, e. split; [by apply lookup_app_l_Some|done].
  - intros y e [He|He]%elem_of_app; [by apply Hsd|]. destruct (Hnew y e He) as [-> Hy].
    destruct (Hsd x d) as (s & Hs & Hw); [by eapply list_elem_of_lookup_2|].
    exists s. split; [done|]. by eapply walk_snoc.
  - intros y e [He|He]%elem_of_app; [by eapply Hct|]. by destruct (Hnew y _ He) as [[= ->] _].
  - intros i y e [Hi|(Hi & -> & _)]%Hcase; [by eapply Hsm|]. pose proof (Hsm _ _ _ Hh). lia.
  - intros s Hs. apply elem_of_app. left. by apply Hse.
Qed.

(** ** A finished search is exact *)

Lemma nodup_depth q x d e : NoDup q.*1 → (x, d) ∈ q → (x, e) ∈ q → d = e.
Proof using Type.
  clear succ expands.
  intros Hnd [i Hi]%list_elem_of_lookup [j Hj]%list_elem_of_lookup.
  assert (i = j) as ->; [|naive_solver].
  eapply NoDup_lookup; [exact Hnd|by rewrite list_lookup_fmap, Hi|by rewrite list_lookup_fmap, Hj].
Qed.

Hypothesis expands_down : ∀ d e, d ≤ e → expands e = true → expands d = true.

Lemma layers_complete seeds q s n y :
  LayersInv seeds q (length q) → s ∈ seeds → walk succ s n y →
  (∀ m, m < n → expands m = true) → ∃ e, (y, e) ∈ q ∧ e ≤ n.
Proof.
  intros [_ _ _ _ Hcl _ _ _ Hse] Hs. induction 1 as [|n y z Hw IH Hz]; intros Hexp.
  { exists 0. split; [by apply Hse|lia]. }
  destruct IH as (e & He & Hle); [intros m Hm; apply Hexp; lia|].
  apply list_elem_of_lookup in He as [i Hi].
  destruct (Hcl i y e z) as (j & e' & Hj & Hle'); [by eapply lookup_lt_Some|done| |done|].
  { eapply expands_down; [exact Hle|]. apply Hexp. lia. }
  exists e'. split; [by eapply list_elem_of_lookup_2|lia].
Qed.

Lemma layers_expands seeds q h x d :
  LayersInv seeds q h → (x, d) ∈ q → ∀ m, m < d → expands m = true.
Proof.
  intros Hinv Hx m Hm. destruct d as [|d]; [lia|].
  eapply expands_down; [|by eapply (li_cut _ _ _ Hinv)]. lia.
Qed.

Lemma layers_distance seeds q x d :
  LayersInv seeds q (length q) →
  (x, d) ∈ q ↔ distance succ seeds x d ∧ ∀ m, m < d → expands m = true.
Proof.
  intros Hinv. split.
  - intros Hx. pose proof (layers_expands _ _ _ x d Hinv Hx) as Hexp. split; [|done].
    split; [by eapply li_sound|]. intros s n Hs Hw. destruct (decide (n < d)) as [Hnd|]; [|lia].
    destruct (layers_complete seeds q s n x Hinv Hs Hw) as (e & He & Hle); [intros; apply Hexp; lia|].
    rewrite (nodup_depth q x d e (li_nodup _ _ _ Hinv) Hx He) in Hnd. lia.
  - intros [[(s & Hs & Hw) Hmin] Hexp].
    destruct (layers_complete seeds q s d x Hinv Hs Hw Hexp) as (e & He & Hle).
    destruct (li_sound _ _ _ Hinv x e He) as (s' & Hs' & Hw').
    pose proof (Hmin s' e Hs' Hw'). by replace d with e by lia.
Qed.

(** ** Termination: with at most [n] elements to discover, [n + 1] rounds
    empty the queue. *)

Lemma layers_finishes seeds fuel q h n :
  LayersInv seeds q h →
  (∀ l : list Id, NoDup l → (∀ x, x ∈ l → ∃ s, s ∈ seeds ∧ reachable succ s x) → length l ≤ n) →
  n < fuel + h →
  LayersInv seeds (layers fuel q h) (length (layers fuel q h)).
Proof.
  intros Hinv Hn. revert q h Hinv. induction fuel as [|fuel IH]; intros q h Hinv Hf; cbn [layers].
  - exfalso. pose proof (li_head _ _ _ Hinv).
    assert (length q.*1 ≤ n) as Hl.
    { apply Hn; [apply Hinv|]. intros x ([y d] & -> & Hx)%list_elem_of_fmap.
      destruct (li_sound _ _ _ Hinv y d Hx) as (s & Hs & Hw). exists s. split; [done|by exists d]. }
    rewrite length_fmap in Hl. lia.
  - destruct (q !! h) as [[x d]|] eqn:Hh.
    + apply IH; [by apply layers_step_inv|lia].
    + apply lookup_ge_None in Hh. pose proof (li_head _ _ _ Hinv).
      by replace (length q) with h by lia.
Qed.

Lemma foldl_visit_prefix d q l : ∃ new, foldl (visit d) q l = q ++ new.
Proof.
  revert q. induction l as [|y l IH]; intros q; cbn [foldl]; [exists []; by rewrite app_nil_r|].
  destruct (IH (visit d q y)) as [new ->]. unfold visit. case_decide; [by exists new|].
  exists ((y, d) :: new). by rewrite <-app_assoc.
Qed.

Lemma expand_at_prefix q x d : ∃ new, expand_at q x d = q ++ new.
Proof.
  unfold expand_at. destruct (expands d); [apply foldl_visit_prefix|]. exists []. by rewrite app_nil_r.
Qed.

Lemma layers_prefix fuel q h : ∃ new, layers fuel q h = q ++ new.
Proof.
  revert q h. induction fuel as [|fuel IH]; intros q h; cbn [layers]; [exists []; by rewrite app_nil_r|].
  destruct (q !! h) as [[x d]|]; [|exists []; by rewrite app_nil_r].
  destruct (expand_at_prefix q x d) as [new ->]. destruct (IH (q ++ new) (S h)) as [new' ->].
  exists (new ++ new'). by rewrite app_assoc.
Qed.

(** Discovered entries stay where they are. *)
Lemma layers_lookup fuel q h i p : q !! i = Some p → layers fuel q h !! i = Some p.
Proof.
  revert q h. induction fuel as [|fuel IH]; intros q h Hi; cbn [layers]; [done|].
  destruct (q !! h) as [[x d]|]; [|done]. apply IH.
  destruct (expand_at_prefix q x d) as [new ->]. by apply lookup_app_l_Some.
Qed.

(** More rounds change nothing once the queue is empty. *)
Lemma layers_stable fuel q h : length q ≤ h → layers fuel q h = q.
Proof. intros Hl. destruct fuel; [done|]. cbn [layers]. by rewrite lookup_ge_None_2. Qed.

Lemma layers_more_fuel fuel k q h :
  length (layers fuel q h) ≤ h + fuel → layers (fuel + k) q h = layers fuel q h.
Proof.
  revert q h. induction fuel as [|fuel IH]; intros q h Hl; cbn [layers Nat.add] in *.
  - apply layers_stable. lia.
  - destruct (q !! h) as [[x d]|]; [|done]. apply IH. lia.
Qed.

End layers.
