(* ===== verification/Bfs.v ===== *)
(** * Bfs: breadth-first traversal

    Models [crates/oxgraph-algo/src/bfs/]: [core.rs] (validation witnesses, the
    storage policies, the iterator, the epoch counter), and the entry points of
    [indexed.rs], [scratch.rs], [epoch.rs], [workspace.rs] and
    [generic_set.rs]. An iterator that borrows scratch carries it; the scratch
    after a traversal is the frontier's. A dense index is a [nat]. *)

From stdpp Require Import base gmap sets list sorting.
From S2P Require Import Prelude Topology BfsSpec.

Inductive BfsError :=
  | StartElementNotContained
  | VisitedTooSmall (needed actual : nat)
  | QueueTooSmall (needed actual : nat)
  | StartIndexOutOfBounds (index bound : nat)
  | NeighborIndexOutOfBounds (index bound : nat).

#[export] Instance BfsError_eq_dec : EqDecision BfsError.
Proof. solve_decision. Defined.

(** [&mut l[..n]] filled with [x]. *)
Definition vfill {E A} (l : list A) (n : nat) (x : A) : res E (list A) :=
  if decide (n ≤ length l) then Ok (replicate n x ++ drop n l) else Panic.

(** The storage-policy trait. *)
Class BfsStep (G Id S : Type) := {
  pop : S → res BfsError (option Id * S);
  try_visit_and_push : G → S → Id → res BfsError S
}.

Inductive direction := Forward | Reverse.

(** [neighbor_oob] diverges by panicking. *)
Definition neighbor_oob {A} (index bound : nat) : res BfsError A := Panic.

(** ** [EpochCounter] *)

Record EpochCounter := { epoch : Z }.

Definition EpochCounter_new : EpochCounter := {| epoch := 0 |}.

(** Returns the epoch, the counter and the marks. *)
Definition advance (c : EpochCounter) (marks : list Z) : Z * EpochCounter * list Z :=
  if decide (epoch c = u32_max)
  then (1%Z, {| epoch := 1 |}, replicate (length marks) 0%Z)
  else ((epoch c + 1)%Z, {| epoch := epoch c + 1 |}, marks).

Section bfs.
Context {G Id : Type} `{!EqDecision Id} `{!DenseElementIndex G Id} `{!ContainsElement G Id}.
Context `{!ElementSuccessors G Id} `{!ElementPredecessors G Id}.

Definition expand (dir : direction) (g : G) (x : Id) : list Id :=
  match dir with
  | Forward => element_successors g x
  | Reverse => element_predecessors g x
  end.

(** ** The iterator *)

Section iterator.
Context {S : Type} `{!BfsStep G Id S}.

(** [Bfs::next]. *)
Definition bfs_next (dir : direction) (g : G) (s : S) : res BfsError (option Id * S) :=
  '(o, s) ← pop s;
  match o with
  | None => Ok (None, s)
  | Some element =>
      s ← for_each (try_visit_and_push g) (expand dir g element) s;
      Ok (Some element, s)
  end.

(** Draining the iterator: every element it yields until [None]. *)
Fixpoint bfs_collect (fuel : nat) (dir : direction) (g : G) (s : S) : res BfsError (list Id * S) :=
  match fuel with
  | O => NoFuel
  | Datatypes.S fuel =>
      '(o, s) ← bfs_next dir g s;
      match o with
      | None => Ok ([], s)
      | Some x => '(xs, s) ← bfs_collect fuel dir g s; Ok (x :: xs, s)
      end
  end.
End iterator.

(** ** Validation witnesses *)

Record ValidatedStart := { vs_start_index : nat; vs_bound : nat }.

Definition ValidatedStart_new (g : G) (start : Id) : res BfsError ValidatedStart :=
  let bound := element_bound g in
  if negb (contains_element g start) then Err StartElementNotContained else
  let start_index := element_index g start in
  if decide (bound ≤ start_index) then Err (StartIndexOutOfBounds start_index bound) else
  Ok {| vs_start_index := start_index; vs_bound := bound |}.

Record ValidatedScratch := { vc_start_index : nat; vc_bound : nat }.

Definition ValidatedScratch_new (g : G) (start : Id) (visited_len queue_len : nat)
    : res BfsError ValidatedScratch :=
  let bound := element_bound g in
  if decide (visited_len < bound) then Err (VisitedTooSmall bound visited_len) else
  if decide (queue_len < bound) then Err (QueueTooSmall bound queue_len) else
  if negb (contains_element g start) then Err StartElementNotContained else
  let start_index := element_index g start in
  if decide (bound ≤ start_index) then Err (StartIndexOutOfBounds start_index bound) else
  Ok {| vc_start_index := start_index; vc_bound := bound |}.

(** ** Storage policies *)

Record SeededByteFlagFrontier := {
  bf_visited : list Z;
  bf_queue : list Id;
  bf_head : nat;
  bf_tail : nat
}.

Definition SeededByteFlagFrontier_new (visited : list Z) (queue : list Id) (start : Id)
    (witness : ValidatedScratch) : res BfsError SeededByteFlagFrontier :=
  visited ← vfill visited (vc_bound witness) 0%Z;
  visited ← vset visited (vc_start_index witness) 1%Z;
  queue ← vset queue 0 start;
  mret {| bf_visited := visited; bf_queue := queue; bf_head := 0; bf_tail := 1 |}.

#[export] Instance byte_flag_step : BfsStep G Id SeededByteFlagFrontier := {|
  pop s :=
    if decide (bf_head s = bf_tail s) then Ok (None, s) else
    element ← vget (bf_queue s) (bf_head s);
    mret (Some element, {| bf_visited := bf_visited s; bf_queue := bf_queue s;
      bf_head := S (bf_head s); bf_tail := bf_tail s |});
  try_visit_and_push g s target :=
    let target_index := element_index g target in
    match bf_visited s !! target_index with
    | None => neighbor_oob target_index (length (bf_visited s))
    | Some slot =>
        if decide (slot = 0%Z) then
          queue ← vset (bf_queue s) (bf_tail s) target;
          mret {| bf_visited := <[target_index := 1%Z]> (bf_visited s); bf_queue := queue;
            bf_head := bf_head s; bf_tail := S (bf_tail s) |}
        else Ok s
    end
|}.

Record SeededEpochFrontier := {
  ef_marks : list Z;
  ef_queue : list Id;
  ef_epoch : Z;
  ef_head : nat;
  ef_tail : nat
}.

Definition SeededEpochFrontier_new (marks : list Z) (queue : list Id) (epoch : Z) (start : Id)
    (witness : ValidatedScratch) : res BfsError SeededEpochFrontier :=
  marks ← vset marks (vc_start_index witness) epoch;
  queue ← vset queue 0 start;
  mret {| ef_marks := marks; ef_queue := queue; ef_epoch := epoch; ef_head := 0; ef_tail := 1 |}.

#[export] Instance epoch_step : BfsStep G Id SeededEpochFrontier := {|
  pop s :=
    if decide (ef_head s = ef_tail s) then Ok (None, s) else
    element ← vget (ef_queue s) (ef_head s);
    mret (Some element, {| ef_marks := ef_marks s; ef_queue := ef_queue s; ef_epoch := ef_epoch s;
      ef_head := S (ef_head s); ef_tail := ef_tail s |});
  try_visit_and_push g s target :=
    let target_index := element_index g target in
    match ef_marks s !! target_index with
    | None => neighbor_oob target_index (length (ef_marks s))
    | Some mark =>
        if decide (mark ≠ ef_epoch s) then
          queue ← vset (ef_queue s) (ef_tail s) target;
          mret {| ef_marks := <[target_index := ef_epoch s]> (ef_marks s); ef_queue := queue;
            ef_epoch := ef_epoch s; ef_head := ef_head s; ef_tail := S (ef_tail s) |}
        else Ok s
    end
|}.

Record SeededWorkspaceFrontier := {
  wf_marks : list Z;
  wf_queue : list Id;
  wf_epoch : Z;
  wf_head : nat
}.

Definition SeededWorkspaceFrontier_new (marks : list Z) (queue : list Id) (epoch : Z) (start : Id)
    (witness : ValidatedStart) : res BfsError SeededWorkspaceFrontier :=
  marks ← vset marks (vs_start_index witness) epoch;
  mret {| wf_marks := marks; wf_queue := [start]; wf_epoch := epoch; wf_head := 0 |}.

#[export] Instance workspace_step : BfsStep G Id SeededWorkspaceFrontier := {|
  pop s :=
    match wf_queue s !! wf_head s with
    | None => Ok (None, s)
    | Some element => Ok (Some element, {| wf_marks := wf_marks s; wf_queue := wf_queue s;
        wf_epoch := wf_epoch s; wf_head := S (wf_head s) |})
    end;
  try_visit_and_push g s target :=
    let target_index := element_index g target in
    match wf_marks s !! target_index with
    | None => neighbor_oob target_index (length (wf_marks s))
    | Some mark =>
        if decide (mark ≠ wf_epoch s) then
          Ok {| wf_marks := <[target_index := wf_epoch s]> (wf_marks s);
            wf_queue := wf_queue s ++ [target]; wf_epoch := wf_epoch s; wf_head := wf_head s |}
        else Ok s
    end
|}.

Record SeededOwnedFrontier := {
  of_visited : list Z;
  of_queue : list Id;
  of_head : nat
}.

Definition SeededOwnedFrontier_new (start : Id) (witness : ValidatedStart)
    : res BfsError SeededOwnedFrontier :=
  visited ← vset (replicate (vs_bound witness) 0%Z) (vs_start_index witness) 1%Z;
  mret {| of_visited := visited; of_queue := [start]; of_head := 0 |}.

#[export] Instance owned_step : BfsStep G Id SeededOwnedFrontier := {|
  pop s :=
    match of_queue s !! of_head s with
    | None => Ok (None, s)
    | Some element => Ok (Some element, {| of_visited := of_visited s; of_queue := of_queue s;
        of_head := S (of_head s) |})
    end;
  try_visit_and_push g s target :=
    let target_index := element_index g target in
    match of_visited s !! target_index with
    | None => neighbor_oob target_index (length (of_visited s))
    | Some slot =>
        if decide (slot = 0%Z) then
          Ok {| of_visited := <[target_index := 1%Z]> (of_visited s);
            of_queue := of_queue s ++ [target]; of_head := of_head s |}
        else Ok s
    end
|}.

(** [VisitedSet]: [BTreeSet] and [HashSet] of the standard library, as a finite
    set of identities. *)
Record GenericState `{!Countable Id} := {
  gs_queue : list Id;
  gs_visited : gset Id
}.

Definition VisitedSet_insert `{!Countable Id} (visited : gset Id) (value : Id) : bool * gset Id :=
  (bool_decide (value ∉ visited), {[ value ]} ∪ visited).

Definition GenericState_new `{!Countable Id} (start : Id) : GenericState :=
  {| gs_queue := [start]; gs_visited := (VisitedSet_insert ∅ start).2 |}.

#[export] Instance generic_step `{!Countable Id} : BfsStep G Id GenericState := {|
  pop s :=
    match gs_queue s with
    | [] => Ok (None, s)
    | element :: queue => Ok (Some element, {| gs_queue := queue; gs_visited := gs_visited s |})
    end;
  try_visit_and_push _ s target :=
    let '(added, visited) := VisitedSet_insert (gs_visited s) target in
    if added then Ok {| gs_queue := gs_queue s ++ [target]; gs_visited := visited |}
    else Ok {| gs_queue := gs_queue s; gs_visited := visited |}
|}.

(** ** Entry points *)

Definition start_indexed (g : G) (start : Id) : res BfsError SeededOwnedFrontier :=
  witness ← ValidatedStart_new g start;
  SeededOwnedFrontier_new start witness.

Definition start_scratch (g : G) (start : Id) (visited : list Z) (queue : list Id)
    : res BfsError SeededByteFlagFrontier :=
  witness ← ValidatedScratch_new g start (length visited) (length queue);
  SeededByteFlagFrontier_new visited queue start witness.

Record BfsEpochScratch := {
  es_marks : list Z;
  es_queue : list Id;
  es_epoch : EpochCounter
}.

Definition BfsEpochScratch_new (marks : list Z) (queue : list Id) : BfsEpochScratch :=
  {| es_marks := replicate (length marks) 0%Z; es_queue := queue; es_epoch := EpochCounter_new |}.

(** [BfsEpochScratch::bounded_parts]: the marks, the queue and the fresh epoch. *)
Definition bounded_parts (s : BfsEpochScratch) : BfsEpochScratch * Z :=
  let '(e, c, marks) := advance (es_epoch s) (es_marks s) in
  ({| es_marks := marks; es_queue := es_queue s; es_epoch := c |}, e).

(** The frontier borrows the scratch; the advanced counter stays in it. *)
Definition start_epoch (g : G) (start : Id) (scratch : BfsEpochScratch)
    : res BfsError (SeededEpochFrontier * EpochCounter) :=
  witness ← ValidatedScratch_new g start (length (es_marks scratch)) (length (es_queue scratch));
  let '(e, c, marks) := advance (es_epoch scratch) (es_marks scratch) in
  frontier ← SeededEpochFrontier_new marks (es_queue scratch) e start witness;
  mret (frontier, c).

(** The scratch when the traversal's borrow ends. *)
Definition epoch_scratch_after (f : SeededEpochFrontier) (c : EpochCounter) : BfsEpochScratch :=
  {| es_marks := ef_marks f; es_queue := ef_queue f; es_epoch := c |}.

Record BfsWorkspace := {
  wk_marks : list Z;
  wk_queue : list Id;
  wk_epoch : EpochCounter
}.

Definition BfsWorkspace_new : BfsWorkspace :=
  {| wk_marks := []; wk_queue := []; wk_epoch := EpochCounter_new |}.

Definition with_element_bound (bound : nat) : BfsWorkspace :=
  {| wk_marks := replicate bound 0%Z; wk_queue := []; wk_epoch := EpochCounter_new |}.

Definition for_graph (g : G) : BfsWorkspace := with_element_bound (element_bound g).

(** Queue capacity is not part of the model. *)
Definition ensure_element_bound (w : BfsWorkspace) (bound : nat) : BfsWorkspace :=
  if decide (length (wk_marks w) < bound)
  then {| wk_marks := resize bound 0%Z (wk_marks w); wk_queue := wk_queue w; wk_epoch := wk_epoch w |}
  else w.

Definition start_workspace (g : G) (start : Id) (w : BfsWorkspace)
    : res BfsError (SeededWorkspaceFrontier * EpochCounter) :=
  witness ← ValidatedStart_new g start;
  let w := ensure_element_bound w (vs_bound witness) in
  let '(e, c, marks) := advance (wk_epoch w) (wk_marks w) in
  frontier ← SeededWorkspaceFrontier_new marks (wk_queue w) e start witness;
  mret (frontier, c).

Definition workspace_after (f : SeededWorkspaceFrontier) (c : EpochCounter) : BfsWorkspace :=
  {| wk_marks := wf_marks f; wk_queue := wf_queue f; wk_epoch := c |}.

(** The public functions, drained: a direction and a storage policy each. *)
Definition breadth_first_search (fuel : nat) (g : G) (start : Id) :=
  f ← start_indexed g start; bfs_collect fuel Forward g f.
Definition reverse_breadth_first_search (fuel : nat) (g : G) (start : Id) :=
  f ← start_indexed g start; bfs_collect fuel Reverse g f.
Definition breadth_first_search_with_scratch (fuel : nat) (g : G) (start : Id) visited queue :=
  f ← start_scratch g start visited queue; bfs_collect fuel Forward g f.
Definition reverse_breadth_first_search_with_scratch (fuel : nat) (g : G) (start : Id) visited queue :=
  f ← start_scratch g start visited queue; bfs_collect fuel Reverse g f.
Definition breadth_first_search_with_epoch_scratch (fuel : nat) (g : G) (start : Id) scratch :=
  '(f, c) ← start_epoch g start scratch;
  '(xs, f) ← bfs_collect fuel Forward g f; mret (xs, epoch_scratch_after f c).
Definition reverse_breadth_first_search_with_epoch_scratch (fuel : nat) (g : G) (start : Id) scratch :=
  '(f, c) ← start_epoch g start scratch;
  '(xs, f) ← bfs_collect fuel Reverse g f; mret (xs, epoch_scratch_after f c).
Definition breadth_first_search_with_workspace (fuel : nat) (g : G) (start : Id) w :=
  '(f, c) ← start_workspace g start w;
  '(xs, f) ← bfs_collect fuel Forward g f; mret (xs, workspace_after f c).
Definition reverse_breadth_first_search_with_workspace (fuel : nat) (g : G) (start : Id) w :=
  '(f, c) ← start_workspace g start w;
  '(xs, f) ← bfs_collect fuel Reverse g f; mret (xs, workspace_after f c).
Definition breadth_first_search_generic `{!Countable Id} (fuel : nat) (g : G) (start : Id) :=
  bfs_collect fuel Forward g (GenericState_new start).
Definition reverse_breadth_first_search_generic `{!Countable Id} (fuel : nat) (g : G) (start : Id) :=
  bfs_collect fuel Reverse g (GenericState_new start).

End bfs.

Arguments SeededByteFlagFrontier Id : clear implicits.
Arguments SeededEpochFrontier Id : clear implicits.
Arguments SeededWorkspaceFrontier Id : clear implicits.
Arguments SeededOwnedFrontier Id : clear implicits.
Arguments BfsEpochScratch Id : clear implicits.
Arguments BfsWorkspace Id : clear implicits.
Arguments GenericState Id {_ _}.
