(* ===== verification/BfsFacts.v ===== *)
(** * BfsFacts: every storage policy is the layered search

    Each storage policy simulates the abstract queue of [BfsSpec]; the drained
    iterator therefore yields the abstract discovery order, whatever the policy
    and whatever a reused scratch held before. *)

From stdpp Require Import base gmap sets list sorting.
From S2P Require Import Prelude Topology BfsSpec Bfs.

(** ** Policies that simulate a queue and its cursor *)

Class PolicySim {G Id S} `{!EqDecision Id} `{!BfsStep G Id S} (g : G) (P : Id → Prop)
    (R : S → list Id → nat → Prop) : Prop := {
  sim_pop s q h : R s q h →
    match q !! h with
    | Some x => ∃ s', pop s = Ok (Some x, s') ∧ R s' q (Datatypes.S h)
    | None => ∃ s', pop s = Ok (None, s') ∧ R s' q h
    end;
  sim_push s q h x : R s q h → Forall P q → P x →
    ∃ s', try_visit_and_push g s x = Ok s' ∧ R s' (if decide (x ∈ q) then q else q ++ [x]) h
}.

(** An unbounded search expands at every depth. *)
Definition always (_ : nat) : bool := true.

Lemma always_down d e : d ≤ e → always e = true → always d = true.
Proof. done. Qed.

Section collect.
Context {G Id : Type} `{!EqDecision Id} `{!DenseElementIndex G Id} `{!ContainsElement G Id}.
Context `{!ElementSuccessors G Id} `{!ElementPredecessors G Id}.
Context {S : Type} `{!BfsStep G Id S}.
Context (g : G) (dir : direction) (P : Id → Prop) (R : S → list Id → nat → Prop).
Context `{!PolicySim g P R}.
Hypothesis HP : ∀ x y, P x → y ∈ expand dir g x → P y.

Lemma visit_fst d (q : list (Id * nat)) y :
  (visit d q y).*1 = if decide (y ∈ q.*1) then q.*1 else q.*1 ++ [y].
Proof. unfold visit. case_decide; [done|]. by rewrite fmap_app. Qed.

Lemma sim_expand d l s q h :
  R s q.*1 h → Forall P q.*1 → Forall P l →
  ∃ s', for_each (try_visit_and_push g) l s = Ok s' ∧
    R s' (foldl (visit d) q l).*1 h ∧ Forall P (foldl (visit d) q l).*1.
Proof.
  intros HR Hq Hl. revert s q HR Hq. induction Hl as [|x l Hx Hl IH]; intros s q HR Hq; cbn [for_each foldl].
  { by exists s. }
  destruct (sim_push s q.*1 h x HR Hq Hx) as (s' & Hs & HR'). rewrite Hs. cbn [mbind res_bind].
  rewrite <-(visit_fst d) in HR'. apply IH; [done|]. rewrite visit_fst. case_decide; [done|].
  apply Forall_app. split; [done|]. by constructor.
Qed.

(** One call of [next] is one round of the layered search. *)
Lemma sim_next s q h :
  R s q.*1 h → Forall P q.*1 →
  match q !! h with
  | Some (x, d) => ∃ s', bfs_next dir g s = Ok (Some x, s') ∧
      R s' (expand_at (expand dir g) always q x d).*1 (Datatypes.S h) ∧
      Forall P (expand_at (expand dir g) always q x d).*1
  | None => ∃ s', bfs_next dir g s = Ok (None, s') ∧ R s' q.*1 h
  end.
Proof.
  intros HR Hq. pose proof (sim_pop s q.*1 h HR) as Hpop. rewrite list_lookup_fmap in Hpop.
  unfold bfs_next. destruct (q !! h) as [[x d]|] eqn:Hx; cbn [fmap option_fmap option_map fst] in Hpop.
  - destruct Hpop as (s1 & -> & HR1). cbn [mbind res_bind].
    assert (P x) as HPx.
    { rewrite Forall_forall in Hq. apply Hq, list_elem_of_fmap. exists (x, d).
      split; [done|by eapply list_elem_of_lookup_2]. }
    destruct (sim_expand (Datatypes.S d) (expand dir g x) s1 q (Datatypes.S h)) as (s2 & -> & HR2 & HP2);
      [done|done|apply Forall_forall; eauto|].
    by exists s2.
  - destruct Hpop as (s1 & -> & HR1). by exists s1.
Qed.

(** The drained iterator yields the rest of the final discovery order. *)
Lemma collect_layers fuel s q h :
  R s q.*1 h → Forall P q.*1 → h ≤ length q →
  length (layers (expand dir g) always fuel q h) ≤ h + fuel →
  ∃ s', bfs_collect (Datatypes.S fuel) dir g s =
      Ok (drop h (layers (expand dir g) always fuel q h).*1, s') ∧
    R s' (layers (expand dir g) always fuel q h).*1 (length (layers (expand dir g) always fuel q h)).
Proof.
  revert s q h. induction fuel as [|fuel IH]; intros s q h HR Hq Hh Hlen;
    pose proof (sim_next s q h HR Hq) as Hnext; cbn [layers] in Hlen |- *.
  - rewrite lookup_ge_None_2 in Hnext by lia. destruct Hnext as (s' & Hn & HR').
    cbn [bfs_collect]. rewrite Hn. cbn [mbind res_bind]. exists s'.
    rewrite drop_ge by (rewrite length_fmap; lia). replace (length q) with h by lia. done.
  - destruct (q !! h) as [[x d]|] eqn:Hx.
    + destruct Hnext as (s2 & Hn & HR2 & HP2).
      pose proof (lookup_lt_Some _ _ _ Hx) as Hlt.
      assert (∃ new, expand_at (expand dir g) always q x d = q ++ new) as [new Hnew].
      { apply expand_at_prefix. }
      destruct (IH s2 _ (Datatypes.S h) HR2 HP2) as (s' & Hcol & HR');
        [rewrite Hnew, length_app; lia|lia|].
      exists s'. split; [|done].
      change (bfs_collect (Datatypes.S (Datatypes.S fuel)) dir g s) with
        ('(o, s) ← bfs_next dir g s; match o with None => Ok ([], s)
         | Some x => '(xs, s) ← bfs_collect (Datatypes.S fuel) dir g s; Ok (x :: xs, s) end).
      rewrite Hn. cbn [mbind res_bind]. rewrite Hcol. cbn [mbind res_bind]. do 2 f_equal.
      symmetry. apply drop_S. rewrite list_lookup_fmap.
      by rewrite (layers_lookup _ _ _ _ _ h (x, d)) by (rewrite Hnew; by apply lookup_app_l_Some).
    + destruct Hnext as (s' & Hn & HR'). cbn [bfs_collect]. rewrite Hn. cbn [mbind res_bind].
      exists s'. apply lookup_ge_None in Hx. rewrite drop_ge by (rewrite length_fmap; lia).
      replace (length q) with h by lia. done.
Qed.
End collect.

(** ** The five policies *)

Section policies.
Context {G Id : Type} `{!EqDecision Id} `{!DenseElementIndex G Id} `{!ContainsElement G Id}.
Context `{!ElementSuccessors G Id} `{!ElementPredecessors G Id}.
Context (g : G) `{!TopologyLaws (Id := Id) g}.

Definition visible (x : Id) : Prop := contains_element g x = true.

(** Dense marks record exactly the queued elements. *)
Definition marks_agree {A} (marked : A → Prop) (marks : list A) (q : list Id) : Prop :=
  element_bound g ≤ length marks ∧
  ∀ x, visible x → ∃ v, marks !! element_index g x = Some v ∧ (marked v ↔ x ∈ q).

Lemma marks_agree_insert {A} (marked : A → Prop) marks q x v :
  marks_agree marked marks q → visible x → marked v →
  marks_agree marked (<[element_index g x := v]> marks) (q ++ [x]).
Proof.
  intros [Hl Hm] Hx Hv. pose proof (index_bound x Hx) as Hb. split; [by rewrite length_insert|].
  intros y Hy. destruct (decide (element_index g x = element_index g y)) as [He|Hne].
  - apply index_inj in He as <-; [|done|done]. exists v.
    rewrite list_lookup_insert_eq by lia. split; [done|]. set_solver.
  - destruct (Hm y Hy) as (w & Hw & Hiff). exists w. rewrite list_lookup_insert_ne by done.
    split; [done|]. rewrite Hiff, elem_of_app, list_elem_of_singleton. naive_solver.
Qed.

Lemma marks_agree_lookup {A} (marked : A → Prop) marks q x :
  marks_agree marked marks q → visible x →
  ∃ v, marks !! element_index g x = Some v ∧ (marked v ↔ x ∈ q).
Proof. intros [_ Hm]. apply Hm. Qed.

(** Seeding fresh marks with the start element. *)
Lemma marks_agree_seed {A} (marked : A → Prop) marks x v :
  element_bound g ≤ length marks → (∀ i w, i < element_bound g → marks !! i = Some w → ¬ marked w) →
  visible x → marked v → marks_agree marked (<[element_index g x := v]> marks) [x].
Proof.
  intros Hl Hfresh Hx Hv. apply (marks_agree_insert marked marks []); [|done|done].
  split; [done|]. intros y Hy. pose proof (index_bound y Hy).
  destruct (lookup_lt_is_Some_2 marks (element_index g y)) as [w Hw]; [lia|].
  exists w. split; [done|]. split; [intros Hm; by destruct (Hfresh _ _ (index_bound y Hy) Hw)|set_solver].
Qed.

(** Distinct visible elements fit the bound. *)
Lemma queue_room (q : list Id) x :
  NoDup q → Forall visible q → visible x → x ∉ q → length q < element_bound g.
Proof.
  intros Hnd Hq Hx Hn. rewrite Forall_forall in Hq.
  assert (length (x :: q) ≤ element_bound g) as Hl; [|cbn [length] in Hl; lia].
  apply (dense_length (element_index g)).
  - by constructor.
  - intros y [->|Hy]%elem_of_cons; apply index_bound; [done|by apply Hq].
  - intros y z Hy Hz. apply index_inj.
    + apply elem_of_cons in Hy as [->|Hy]; [done|by apply Hq].
    + apply elem_of_cons in Hz as [->|Hz]; [done|by apply Hq].
Qed.

Lemma NoDup_snoc (q : list Id) x : NoDup q → x ∉ q → NoDup (q ++ [x]).
Proof.
  intros Hq Hx. apply NoDup_app. split_and!; [done| |apply NoDup_singleton].
  intros y Hy ->%list_elem_of_singleton. done.
Qed.

(** *** Slices: a fixed queue with head and tail cursors *)

Definition slice_queue (queue q : list Id) (head tail h : nat) : Prop :=
  head = h ∧ tail = length q ∧ h ≤ length q ∧ NoDup q ∧ element_bound g ≤ length queue ∧
  take (length q) queue = q.

Lemma slice_queue_lookup queue q head tail h x :
  slice_queue queue q head tail h → q !! h = Some x → queue !! head = Some x.
Proof.
  intros (-> & _ & _ & _ & _ & Ht) Hx. rewrite <-Ht in Hx. by apply lookup_take_Some in Hx as [? _].
Qed.

Lemma slice_queue_push queue q head tail h x :
  slice_queue queue q head tail h → Forall visible q → visible x → x ∉ q →
  vset (E:=BfsError) queue tail x = Ok (<[tail := x]> queue) ∧
  slice_queue (<[tail := x]> queue) (q ++ [x]) head (S tail) h.
Proof.
  intros (-> & -> & Hh & Hnd & Hb & Ht) Hq Hx Hn. pose proof (queue_room q x Hnd Hq Hx Hn) as Hroom.
  split; [by apply vset_Ok; split; [lia|]|].
  split_and!; try done; try (rewrite length_app; cbn [length]; lia); [by apply NoDup_snoc| |].
  - by rewrite length_insert.
  - rewrite length_app. cbn [length]. rewrite Nat.add_1_r.
    rewrite (take_S_r _ _ x) by (apply list_lookup_insert_eq; lia).
    by rewrite take_insert_ge, Ht by lia.
Qed.

Definition ByteFlagR (s : SeededByteFlagFrontier Id) (q : list Id) (h : nat) : Prop :=
  slice_queue (bf_queue s) q (bf_head s) (bf_tail s) h ∧ marks_agree (λ v, v ≠ 0%Z) (bf_visited s) q.

#[export] Instance byte_flag_sim : PolicySim g visible ByteFlagR.
Proof.
  split.
  - intros s q h [Hq Hm]. cbn [pop byte_flag_step]. destruct (q !! h) as [x|] eqn:Hx.
    + pose proof (slice_queue_lookup _ _ _ _ _ _ Hq Hx) as Hl.
      destruct Hq as (Hhd & Htl & Hrest). pose proof (lookup_lt_Some _ _ _ Hx).
      rewrite decide_False by lia. unfold vget. rewrite Hl. cbn [or_panic mbind res_bind mret res_ret].
      eexists. split; [done|]. split; [|done]. cbn [bf_queue bf_head bf_tail].
      split_and!; try tauto; lia.
    + apply lookup_ge_None in Hx. destruct Hq as (Hhd & Htl & Hh & Hrest).
      rewrite decide_True by lia. exists s. split; [done|]. by split.
  - intros s q h x [Hq Hm] HP Hx. cbn [try_visit_and_push byte_flag_step]. cbv zeta.
    destruct (marks_agree_lookup _ _ _ _ Hm Hx) as (v & -> & Hv).
    case_decide as Hz; case_decide as Hin; try (exfalso; tauto).
    + destruct (slice_queue_push _ _ _ _ _ x Hq HP Hx Hin) as [-> Hq'].
      cbn [mbind res_bind mret res_ret]. eexists. split; [done|]. split; [done|].
      by apply marks_agree_insert.
    + exists s. split; [done|]. by split.
Qed.

Definition EpochR (s : SeededEpochFrontier Id) (q : list Id) (h : nat) : Prop :=
  slice_queue (ef_queue s) q (ef_head s) (ef_tail s) h ∧
  marks_agree (λ v, v = ef_epoch s) (ef_marks s) q.

#[export] Instance epoch_sim : PolicySim g visible EpochR.
Proof.
  split.
  - intros s q h [Hq Hm]. cbn [pop epoch_step]. destruct (q !! h) as [x|] eqn:Hx.
    + pose proof (slice_queue_lookup _ _ _ _ _ _ Hq Hx) as Hl.
      destruct Hq as (Hhd & Htl & Hrest). pose proof (lookup_lt_Some _ _ _ Hx).
      rewrite decide_False by lia. unfold vget. rewrite Hl. cbn [or_panic mbind res_bind mret res_ret].
      eexists. split; [done|]. split; [|done]. cbn [ef_queue ef_head ef_tail].
      split_and!; try tauto; lia.
    + apply lookup_ge_None in Hx. destruct Hq as (Hhd & Htl & Hh & Hrest).
      rewrite decide_True by lia. exists s. split; [done|]. by split.
  - intros s q h x [Hq Hm] HP Hx. cbn [try_visit_and_push epoch_step]. cbv zeta.
    destruct (marks_agree_lookup _ _ _ _ Hm Hx) as (v & -> & Hv).
    case_decide as Hz; case_decide as Hin; try (exfalso; tauto).
    + destruct (slice_queue_push _ _ _ _ _ x Hq HP Hx Hin) as [-> Hq'].
      cbn [mbind res_bind mret res_ret]. eexists. split; [done|]. split; [done|].
      by apply (marks_agree_insert (λ v, v = ef_epoch s)).
    + exists s. split; [done|]. by split.
Qed.

(** *** Vectors: a queue that grows *)

Definition WorkspaceR (s : SeededWorkspaceFrontier Id) (q : list Id) (h : nat) : Prop :=
  wf_queue s = q ∧ wf_head s = h ∧ marks_agree (λ v, v = wf_epoch s) (wf_marks s) q.

#[export] Instance workspace_sim : PolicySim g visible WorkspaceR.
Proof.
  split.
  - intros s q h (<- & <- & Hm). cbn [pop workspace_step].
    destruct (wf_queue s !! wf_head s) as [x|]; eexists; (split; [done|]); by split_and!.
  - intros s q h x (<- & <- & Hm) HP Hx. cbn [try_visit_and_push workspace_step]. cbv zeta.
    destruct (marks_agree_lookup _ _ _ _ Hm Hx) as (v & -> & Hv).
    case_decide as Hz; case_decide as Hin; try (exfalso; tauto); eexists; (split; [done|]); [|done].
    split_and!; [done|done|]. by apply (marks_agree_insert (λ v, v = wf_epoch s)).
Qed.

Definition OwnedR (s : SeededOwnedFrontier Id) (q : list Id) (h : nat) : Prop :=
  of_queue s = q ∧ of_head s = h ∧ marks_agree (λ v, v ≠ 0%Z) (of_visited s) q.

#[export] Instance owned_sim : PolicySim g visible OwnedR.
Proof.
  split.
  - intros s q h (<- & <- & Hm). cbn [pop owned_step].
    destruct (of_queue s !! of_head s) as [x|]; eexists; (split; [done|]); by split_and!.
  - intros s q h x (<- & <- & Hm) HP Hx. cbn [try_visit_and_push owned_step]. cbv zeta.
    destruct (marks_agree_lookup _ _ _ _ Hm Hx) as (v & -> & Hv).
    case_decide as Hz; case_decide as Hin; try (exfalso; tauto); eexists; (split; [done|]); [|done].
    split_and!; [done|done|]. by apply (marks_agree_insert (λ v, v ≠ 0%Z)).
Qed.
End policies.

(** *** Sets of identities, on any view *)

Definition GenericR {Id} `{Countable Id} (s : GenericState Id) (q : list Id) (h : nat) : Prop :=
  h ≤ length q ∧ gs_queue s = drop h q ∧ gs_visited s = list_to_set q.

#[export] Instance generic_sim {G Id} `{Countable Id} (g : G) :
  PolicySim (Id := Id) g (λ _, True) GenericR.
Proof.
  split.
  - intros s q h (Hh & Hq & Hv). cbn [pop generic_step]. rewrite Hq.
    destruct (q !! h) as [x|] eqn:Hx.
    + rewrite (drop_S _ _ _ Hx). eexists. split; [done|]. pose proof (lookup_lt_Some _ _ _ Hx). done.
    + apply lookup_ge_None in Hx. rewrite drop_ge by done. exists s. split; [done|].
      split_and!; [done| |done]. by rewrite Hq, drop_ge.
  - intros s q h x (Hh & Hq & Hv) _ _. cbn [try_visit_and_push generic_step].
    unfold VisitedSet_insert. rewrite Hv, Hq. case_decide as Hin.
    + rewrite bool_decide_false by (rewrite elem_of_list_to_set; tauto).
      eexists. split; [done|]. split_and!; [done|done|]. cbn [gs_visited]. set_solver.
    + rewrite bool_decide_true by by rewrite elem_of_list_to_set.
      eexists. split; [done|]. split_and!; cbn [gs_queue gs_visited].
      * rewrite length_app. lia.
      * by rewrite drop_app_le.
      * rewrite list_to_set_app_L. set_solver.
Qed.

(** ** The discovery order *)

Section order.
Context {G Id : Type} `{!EqDecision Id} `{!DenseElementIndex G Id} `{!ContainsElement G Id}.
Context `{!ElementSuccessors G Id} `{!ElementPredecessors G Id}.
Context (g : G) `{!TopologyLaws (Id := Id) g}.

Lemma expand_visible dir (x y : Id) : visible g x → y ∈ expand dir g x → visible g y.
Proof. destruct dir; [apply successors_contained|apply predecessors_contained]. Qed.

(** At most [element_bound] distinct elements are visible. *)
Lemma visible_length (l : list Id) : NoDup l → Forall (visible g) l → length l ≤ element_bound g.
Proof.
  intros Hnd Hl. rewrite Forall_forall in Hl. apply (dense_length (element_index g)); [done| |].
  - intros x Hx. by apply index_bound, Hl.
  - intros x y Hx Hy. apply index_inj; by apply Hl.
Qed.

Definition search (dir : direction) (start : Id) : list (Id * nat) :=
  layers (expand dir g) always (S (element_bound g)) [(start, 0)] 0.

Definition bfs_order (dir : direction) (start : Id) : list Id := (search dir start).*1.

Lemma search_inv dir start :
  visible g start → LayersInv (expand dir g) always [start] (search dir start) (length (search dir start)).
Proof.
  intros Hv. apply (layers_finishes _ _ _ _ _ _ (element_bound g)); [apply (seed_queue_inv _ _ [start])| |lia].
  intros l Hnd Hl. apply visible_length; [done|]. apply Forall_forall. intros x Hx.
  destruct (Hl x Hx) as (s & ->%list_elem_of_singleton & n & Hw).
  by eapply (walk_preserves _ (visible g)); [apply expand_visible| |].
Qed.

Lemma search_visible dir start x d : visible g start → (x, d) ∈ search dir start → visible g x.
Proof.
  intros Hv Hx. destruct (li_sound _ _ _ _ _ (search_inv dir start Hv) x d Hx)
    as (s & ->%list_elem_of_singleton & Hw).
  by eapply (walk_preserves _ (visible g)); [apply expand_visible| |].
Qed.

Lemma search_length dir start : visible g start → length (search dir start) ≤ element_bound g.
Proof.
  intros Hv. rewrite <-(length_fmap fst). apply visible_length; [apply (search_inv dir start Hv)|].
  apply Forall_forall. intros x ([y d] & -> & Hx)%list_elem_of_fmap. by eapply search_visible.
Qed.

(** Draining any policy that simulates the queue from the start element. *)
Lemma collect_order {S} `{!BfsStep G Id S} (P : Id → Prop) (R : S → list Id → nat → Prop)
    `{!PolicySim g P R} dir start s fuel :
  (∀ x y, P x → y ∈ expand dir g x → P y) → P start → visible g start →
  R s [start] 0 → element_bound g + 2 ≤ fuel →
  ∃ s', bfs_collect fuel dir g s = Ok (bfs_order dir start, s') ∧
    R s' (bfs_order dir start) (length (bfs_order dir start)).
Proof.
  intros HP HPs Hv HR Hf. pose proof (search_length dir start Hv) as Hlen.
  destruct fuel as [|fuel]; [lia|].
  assert (layers (expand dir g) always fuel [(start, 0)] 0 = search dir start) as Hsame.
  { replace fuel with (Datatypes.S (element_bound g) + (fuel - Datatypes.S (element_bound g))) by lia.
    apply layers_more_fuel. fold (search dir start). lia. }
  destruct (collect_layers g dir P R HP fuel s [(start, 0)] 0) as (s' & Hcol & HR');
    [done|by constructor|cbn; lia|rewrite Hsame; lia|].
  rewrite Hsame in Hcol, HR'. exists s'. rewrite drop_0 in Hcol. split; [done|].
  unfold bfs_order at 2. by rewrite length_fmap.
Qed.

(** ** Fresh epochs *)

Record CounterInv (c : EpochCounter) (marks : list Z) : Prop := {
  ci_epoch : (0 ≤ epoch c ≤ u32_max)%Z;
  ci_marks : Forall (λ m, 0 ≤ m ≤ epoch c)%Z marks
}.

(** [advance] hands out an epoch that no mark carries, also on overflow. *)
Lemma advance_fresh c marks e c' marks' :
  CounterInv c marks → advance c marks = (e, c', marks') →
  CounterInv c' marks' ∧ e = epoch c' ∧ length marks' = length marks ∧ Forall (λ m, m ≠ e) marks'.
Proof.
  intros [He Hm]. unfold advance. case_decide as Hov; intros [= <- <- <-]; cbn [epoch].
  - rewrite length_replicate. split_and!; try done.
    + constructor; cbn [epoch]; [unfold u32_max; lia|]. apply Forall_replicate. lia.
    + apply Forall_replicate. lia.
  - split_and!; try done.
    + constructor; cbn [epoch]; [lia|]. eapply Forall_impl; [exact Hm|]. cbn. lia.
    + eapply Forall_impl; [exact Hm|]. cbn. lia.
Qed.

(** ** Entry points *)

Lemma ValidatedStart_visible start :
  visible g start →
  ValidatedStart_new g start =
    Ok {| vs_start_index := element_index g start; vs_bound := element_bound g |}.
Proof.
  intros Hv. pose proof (index_bound start Hv). unfold ValidatedStart_new, visible in *.
  rewrite Hv. cbn [negb]. cbv zeta. by rewrite decide_False by lia.
Qed.

Lemma ValidatedScratch_visible start vl ql :
  visible g start → element_bound g ≤ vl → element_bound g ≤ ql →
  ValidatedScratch_new g start vl ql =
    Ok {| vc_start_index := element_index g start; vc_bound := element_bound g |}.
Proof.
  intros Hv Hvl Hql. pose proof (index_bound start Hv). unfold ValidatedScratch_new, visible in *.
  cbv zeta. rewrite decide_False, decide_False by lia. rewrite Hv. cbn [negb]. by rewrite decide_False by lia.
Qed.

Lemma slice_queue_seed queue start :
  visible g start → element_bound g ≤ length queue →
  vset (E:=BfsError) queue 0 start = Ok (<[0 := start]> queue) ∧
  slice_queue g (<[0 := start]> queue) [start] 0 1 0.
Proof.
  intros Hv Hq. pose proof (index_bound start Hv). split; [by apply vset_Ok; split; [lia|]|].
  split_and!; try done; [cbn; lia|apply NoDup_singleton|by rewrite length_insert|].
  destruct queue; [cbn in *; lia|done].
Qed.

Lemma start_indexed_R start :
  visible g start → ∃ f, start_indexed g start = Ok f ∧ OwnedR g f [start] 0.
Proof.
  intros Hv. pose proof (index_bound start Hv). unfold start_indexed.
  rewrite ValidatedStart_visible by done. cbn [mbind res_bind]. unfold SeededOwnedFrontier_new.
  cbn [vs_bound vs_start_index]. rewrite vset_lt by (rewrite length_replicate; lia).
  cbn [mbind res_bind mret res_ret]. eexists. split; [done|]. split_and!; try done.
  apply (marks_agree_seed g (λ v, v ≠ 0%Z)); [by rewrite length_replicate| |done|done].
  intros i w Hi [-> _]%lookup_replicate. tauto.
Qed.

Lemma start_scratch_R start visited queue :
  visible g start → element_bound g ≤ length visited → element_bound g ≤ length queue →
  ∃ f, start_scratch g start visited queue = Ok f ∧ ByteFlagR g f [start] 0.
Proof.
  intros Hv Hvis Hq. pose proof (index_bound start Hv). unfold start_scratch.
  rewrite ValidatedScratch_visible by done. cbn [mbind res_bind]. unfold SeededByteFlagFrontier_new, vfill.
  cbn [vc_bound vc_start_index]. rewrite decide_True by done. cbn [mbind res_bind].
  rewrite (vset_lt (_ ++ _)) by (rewrite length_app, length_replicate; lia).
  cbn [mbind res_bind]. destruct (slice_queue_seed queue start Hv Hq) as [-> Hsq].
  cbn [mbind res_bind mret res_ret]. eexists. split; [done|]. split; [done|].
  apply (marks_agree_seed g (λ v, v ≠ 0%Z)); [rewrite length_app, length_replicate; lia| |done|done].
  intros i w Hi Hw. rewrite lookup_app_l in Hw by by rewrite length_replicate.
  apply lookup_replicate in Hw as [-> _]. tauto.
Qed.

Lemma start_epoch_R start scratch :
  visible g start → CounterInv (es_epoch scratch) (es_marks scratch) →
  element_bound g ≤ length (es_marks scratch) → element_bound g ≤ length (es_queue scratch) →
  ∃ f c, start_epoch g start scratch = Ok (f, c) ∧ EpochR g f [start] 0 ∧
    CounterInv c (ef_marks f) ∧ ef_epoch f = epoch c.
Proof.
  intros Hv Hc Hm Hq. pose proof (index_bound start Hv). unfold start_epoch.
  rewrite ValidatedScratch_visible by done. cbn [mbind res_bind].
  destruct (advance (es_epoch scratch) (es_marks scratch)) as [[e c] marks] eqn:Ha.
  destruct (advance_fresh _ _ _ _ _ Hc Ha) as ([Hc1 Hc2] & -> & Hl & Hfresh).
  unfold SeededEpochFrontier_new. cbn [vc_start_index]. rewrite (vset_lt marks) by lia.
  cbn [mbind res_bind]. destruct (slice_queue_seed (es_queue scratch) start Hv Hq) as [-> Hsq].
  cbn [mbind res_bind mret res_ret]. eexists _, c. split; [done|]. split; [split; [done|]|].
  - apply (marks_agree_seed g (λ v, v = epoch c)); [lia| |done|done].
    intros i w Hi Hw. rewrite Forall_lookup in Hfresh. by eapply Hfresh.
  - split; [|done]. constructor; [done|]. cbn [ef_marks]. apply Forall_insert; [done|]. lia.
Qed.

Lemma start_workspace_R start w :
  visible g start → CounterInv (wk_epoch w) (wk_marks w) →
  ∃ f c, start_workspace g start w = Ok (f, c) ∧ WorkspaceR g f [start] 0 ∧
    CounterInv c (wf_marks f) ∧ wf_epoch f = epoch c.
Proof.
  intros Hv Hc. pose proof (index_bound start Hv). unfold start_workspace.
  rewrite ValidatedStart_visible by done. cbn [mbind res_bind vs_bound]. cbv zeta.
  assert (CounterInv (wk_epoch (ensure_element_bound w (element_bound g)))
      (wk_marks (ensure_element_bound w (element_bound g))) ∧
    element_bound g ≤ length (wk_marks (ensure_element_bound w (element_bound g)))) as [Hc' Hlen].
  { unfold ensure_element_bound. case_decide; [|split; [done|lia]]. cbn [wk_marks wk_epoch].
    destruct Hc as [Hc1 Hc2]. rewrite length_resize. split; [|done]. constructor; [done|].
    rewrite resize_ge by lia. apply Forall_app. split; [done|]. apply Forall_replicate. lia. }
  destruct (advance (wk_epoch _) (wk_marks _)) as [[e c] marks] eqn:Ha.
  destruct (advance_fresh _ _ _ _ _ Hc' Ha) as ([Hc1 Hc2] & -> & Hl & Hfresh).
  unfold SeededWorkspaceFrontier_new. cbn [vs_start_index]. rewrite vset_lt by lia.
  cbn [mbind res_bind mret res_ret]. eexists _, c. split; [done|]. split; [split_and!; try done|].
  - apply (marks_agree_seed g (λ v, v = epoch c)); [cbn [wf_marks]; lia| |done|done].
    intros i w' Hi Hw. rewrite Forall_lookup in Hfresh. by eapply Hfresh.
  - split; [|done]. constructor; [done|]. cbn [wf_marks]. apply Forall_insert; [done|]. lia.
Qed.

(** ** What the traversals compute *)

(** C4. One traversal, whatever the storage: from a visible start, the
    allocating search, the caller-slice search over arbitrary slice contents,
    the epoch-scratch and workspace searches over any reused scratch, and the
    set-based search all drain to the same sequence, forward and reverse, and no
    run panics or runs out. *)
Theorem bfs_policies_agree `{!Countable Id} start fuel visited queue scratch w :
  visible g start → element_bound g + 2 ≤ fuel →
  element_bound g ≤ length visited → element_bound g ≤ length queue →
  CounterInv (es_epoch scratch) (es_marks scratch) →
  element_bound g ≤ length (es_marks scratch) → element_bound g ≤ length (es_queue scratch) →
  CounterInv (wk_epoch w) (wk_marks w) →
  (let order := bfs_order Forward start in
   (∃ s, breadth_first_search fuel g start = Ok (order, s)) ∧
   (∃ s, breadth_first_search_with_scratch fuel g start visited queue = Ok (order, s)) ∧
   (∃ s, breadth_first_search_with_epoch_scratch fuel g start scratch = Ok (order, s)) ∧
   (∃ s, breadth_first_search_with_workspace fuel g start w = Ok (order, s)) ∧
   (∃ s, breadth_first_search_generic fuel g start = Ok (order, s))) ∧
  (let order := bfs_order Reverse start in
   (∃ s, reverse_breadth_first_search fuel g start = Ok (order, s)) ∧
   (∃ s, reverse_breadth_first_search_with_scratch fuel g start visited queue = Ok (order, s)) ∧
   (∃ s, reverse_breadth_first_search_with_epoch_scratch fuel g start scratch = Ok (order, s)) ∧
   (∃ s, reverse_breadth_first_search_with_workspace fuel g start w = Ok (order, s)) ∧
   (∃ s, reverse_breadth_first_search_generic fuel g start = Ok (order, s))).
Proof.
  intros Hv Hf Hvis Hq Hce Hem Heq Hcw.
  destruct (start_indexed_R start Hv) as (f1 & H1 & R1).
  destruct (start_scratch_R start visited queue Hv Hvis Hq) as (f2 & H2 & R2).
  destruct (start_epoch_R start scratch Hv Hce Hem Heq) as (f3 & c3 & H3 & R3 & _).
  destruct (start_workspace_R start w Hv Hcw) as (f4 & c4 & H4 & R4 & _).
  assert (GenericR (GenericState_new start) [start] 0) as R5.
  { split_and!; [cbn; lia|done|]. unfold GenericState_new, VisitedSet_insert. cbn [gs_visited snd list_to_set foldr].
    done. }
  assert (∀ dir, ∃ s, bfs_collect fuel dir g (GenericState_new start) = Ok (bfs_order dir start, s)) as Hgen.
  { intros dir. destruct (collect_order (λ _, True) GenericR dir start (GenericState_new start) fuel)
      as (s & Hs & _); [done|done|done|done|done|by exists s]. }
  assert (∀ S (HS : BfsStep G Id S) (R : S → list Id → nat → Prop) (HR : PolicySim g (visible g) R) dir s,
    R s [start] 0 → ∃ s', bfs_collect fuel dir g s = Ok (bfs_order dir start, s')) as Hall.
  { intros S HS R HR dir s Hs. destruct (collect_order (visible g) R dir start s fuel) as (s' & Hs' & _);
      [intros x y; apply expand_visible|done|done|done|done|by exists s']. }
  unfold breadth_first_search, breadth_first_search_with_scratch, breadth_first_search_with_epoch_scratch,
    breadth_first_search_with_workspace, breadth_first_search_generic, reverse_breadth_first_search,
    reverse_breadth_first_search_with_scratch, reverse_breadth_first_search_with_epoch_scratch,
    reverse_breadth_first_search_with_workspace, reverse_breadth_first_search_generic.
  rewrite H1, H2, H3, H4. cbn [mbind res_bind]. cbv zeta.
  pose proof (λ dir, Hall _ _ _ (owned_sim g) dir f1 R1) as A1.
  pose proof (λ dir, Hall _ _ _ (byte_flag_sim g) dir f2 R2) as A2.
  pose proof (λ dir, Hall _ _ _ (epoch_sim g) dir f3 R3) as A3.
  pose proof (λ dir, Hall _ _ _ (workspace_sim g) dir f4 R4) as A4.
  split; split_and!; first [apply Hgen|apply A1|apply A2|idtac].
  - destruct (A3 Forward) as (s & ->). by eexists.
  - destruct (A4 Forward) as (s & ->). by eexists.
  - destruct (A3 Reverse) as (s & ->). by eexists.
  - destruct (A4 Reverse) as (s & ->). by eexists.
Qed.

(** The sequence is the breadth-first order: no repetition, exactly the
    elements reachable from the start in the chosen direction, and at
    non-decreasing hop distance. *)
Theorem bfs_order_correct dir start :
  visible g start →
  NoDup (bfs_order dir start) ∧
  (∀ x, x ∈ bfs_order dir start ↔ reachable (expand dir g) start x) ∧
  (∀ i j x y d e, i < j → bfs_order dir start !! i = Some x → bfs_order dir start !! j = Some y →
    distance (expand dir g) [start] x d → distance (expand dir g) [start] y e → d ≤ e).
Proof.
  intros Hv. pose proof (search_inv dir start Hv) as Hinv. split_and!; [apply Hinv| |].
  - intros x. split.
    + intros ([y d] & -> & Hx)%list_elem_of_fmap.
      destruct (li_sound _ _ _ _ _ Hinv y d Hx) as (s & ->%list_elem_of_singleton & Hw). by exists d.
    + intros (n & Hw). destruct (layers_complete _ _ always_down _ _ start n x Hinv) as (e & He & _); [set_solver|done|done|].
      apply list_elem_of_fmap. by exists (x, e).
  - intros i j x y d e Hij Hi Hj Hd He. unfold bfs_order in Hi, Hj.
    apply list_lookup_fmap_Some in Hi as ([x' d'] & -> & Hi).
    apply list_lookup_fmap_Some in Hj as ([y' e'] & -> & Hj). cbn [fst] in *.
    pose proof (li_sorted _ _ _ _ _ Hinv i j _ _ _ _ Hij Hi Hj) as Hle.
    assert (∀ z k, distance (expand dir g) [start] z k → (z, k) ∈ search dir start) as Hin.
    { intros z k Hz. by apply (layers_distance _ _ always_down _ _ _ _ Hinv). }
    apply Hin in Hd, He.
    rewrite (nodup_depth (search dir start) x' d d' (li_nodup _ _ _ _ _ Hinv) Hd) by by eapply list_elem_of_lookup_2.
    by rewrite (nodup_depth (search dir start) y' e e' (li_nodup _ _ _ _ _ Hinv) He) by by eapply list_elem_of_lookup_2.
Qed.

(** [n] calls of [next], however many of them yield. *)
Fixpoint bfs_run {S} `{!BfsStep G Id S} (n : nat) (dir : direction) (s : S) : res BfsError S :=
  match n with
  | O => Ok s
  | Datatypes.S n => '(_, s) ← bfs_next dir g s; bfs_run n dir s
  end.

(** Whatever a policy's two operations preserve, the iterator preserves. *)
Lemma bfs_run_preserves {S} `{!BfsStep G Id S} (I : S → Prop) n dir s s' :
  (∀ s o s', I s → pop s = Ok (o, s') → I s') →
  (∀ s x s', I s → try_visit_and_push g s x = Ok s' → I s') →
  I s → bfs_run n dir s = Ok s' → I s'.
Proof.
  intros Hpop Hpush. revert s. induction n as [|n IH]; intros s Hs; cbn [bfs_run].
  { by intros <-%Ok_inj. }
  intros ([o s1] & Hn & Hr)%bind_Ok_inv. apply (IH s1); [|done]. revert Hn. unfold bfs_next.
  intros ([o' s2] & Hp & Hn)%bind_Ok_inv. pose proof (Hpop _ _ _ Hs Hp) as Hs2.
  destruct o' as [x|]; [|by injection Hn as _ <-].
  apply bind_Ok_inv in Hn as (s3 & Hfe & Hn). injection Hn as _ <-.
  eapply (for_each_inv_Ok (λ _, I)); [exact Hs2| |exact Hfe]. intros. by eapply Hpush.
Qed.

(** A reused scratch stays reusable: after an epoch-scratch traversal
    dropped at any point, and likewise for a workspace, every mark is at most
    the counter, so the next traversal starts on an epoch no mark carries. *)
Theorem scratch_reusable dir start n scratch w :
  visible g start →
  CounterInv (es_epoch scratch) (es_marks scratch) →
  element_bound g ≤ length (es_marks scratch) → element_bound g ≤ length (es_queue scratch) →
  CounterInv (wk_epoch w) (wk_marks w) →
  (∀ f c f', start_epoch g start scratch = Ok (f, c) → bfs_run n dir f = Ok f' →
    CounterInv (es_epoch (epoch_scratch_after f' c)) (es_marks (epoch_scratch_after f' c))) ∧
  (∀ f c f', start_workspace g start w = Ok (f, c) → bfs_run n dir f = Ok f' →
    CounterInv (wk_epoch (workspace_after f' c)) (wk_marks (workspace_after f' c))).
Proof.
  intros Hv Hce Hem Heq Hcw. split; intros f c f' Hf Hrun.
  - destruct (start_epoch_R start scratch Hv Hce Hem Heq) as (f0 & c0 & Hf0 & _ & Hc & He).
    rewrite Hf0 in Hf. injection Hf as -> ->. cbn [es_epoch es_marks epoch_scratch_after].
    enough (CounterInv c (ef_marks f') ∧ ef_epoch f' = epoch c) by tauto.
    eapply (bfs_run_preserves (λ s, CounterInv c (ef_marks s) ∧ ef_epoch s = epoch c)); [| |done|exact Hrun].
    + intros s o s' Hs. cbn [pop epoch_step]. case_decide; [by intros [= _ <-]|].
      intros (x & _ & [= _ <-])%bind_Ok_inv. done.
    + intros s x s' [[Hs1 Hs2] Hs3]. cbn [try_visit_and_push epoch_step]. cbv zeta.
      case_match; [|done]. case_decide; [|by intros [= <-]].
      intros (q & _ & [= <-])%bind_Ok_inv. split; [|done]. constructor; [done|].
      cbn [ef_marks]. apply Forall_insert; [done|]. rewrite Hs3. lia.
  - destruct (start_workspace_R start w Hv Hcw) as (f0 & c0 & Hf0 & _ & Hc & He).
    rewrite Hf0 in Hf. injection Hf as -> ->. cbn [wk_epoch wk_marks workspace_after].
    enough (CounterInv c (wf_marks f') ∧ wf_epoch f' = epoch c) by tauto.
    eapply (bfs_run_preserves (λ s, CounterInv c (wf_marks s) ∧ wf_epoch s = epoch c)); [| |done|exact Hrun].
    + intros s o s' Hs. cbn [pop workspace_step]. case_match; by intros [= _ <-].
    + intros s x s' [[Hs1 Hs2] Hs3]. cbn [try_visit_and_push workspace_step]. cbv zeta.
      case_match; [|done]. case_decide; [|by intros [= <-]].
      intros [= <-]. split; [|done]. constructor; [done|].
      cbn [wf_marks]. apply Forall_insert; [done|]. rewrite Hs3. lia.
Qed.

End order.

(** ** A concrete view *)

Definition demo_graph : list_graph := {| adjacency := [[1; 2]; [3]; [3; 0]; [1]; [0]] |}.

Lemma demo_graph_laws : TopologyLaws (Id := nat) demo_graph.
Proof. apply list_graph_laws. repeat constructor; cbn; lia. Qed.

(** A scratch whose counter is about to overflow and whose marks are stale. *)
Definition demo_scratch : BfsEpochScratch nat := {|
  es_marks := [u32_max; 7; 0; u32_max; 1]%Z; es_queue := [9; 9; 9; 9; 9];
  es_epoch := {| epoch := u32_max |}
|}.

Lemma demo_scratch_inv : CounterInv (es_epoch demo_scratch) (es_marks demo_scratch).
Proof. constructor; [split; vm_compute; discriminate|repeat constructor; vm_compute; discriminate]. Qed.

Lemma fresh_workspace_inv : CounterInv (wk_epoch (@BfsWorkspace_new nat)) (wk_marks (@BfsWorkspace_new nat)).
Proof. constructor; [split; vm_compute; discriminate|constructor]. Qed.

Lemma bfs_policies_agree_witness :
  bfs_order demo_graph Forward 0 = [0; 1; 2; 3] ∧
  ∃ s, breadth_first_search_with_epoch_scratch 7 demo_graph 0 demo_scratch =
    Ok (bfs_order demo_graph Forward 0, s).
Proof.
  split; [vm_compute; reflexivity|].
  destruct (bfs_policies_agree demo_graph (TopologyLaws0 := demo_graph_laws) 0 7
    [5; 5; 5; 5; 5]%Z [9; 9; 9; 9; 9] demo_scratch BfsWorkspace_new
    eq_refl ltac:(cbn; lia) ltac:(cbn; lia) ltac:(cbn; lia) demo_scratch_inv
    ltac:(cbn; lia) ltac:(cbn; lia) fresh_workspace_inv) as [(_ & _ & He & _) _].
  exact He.
Defined.

Lemma bfs_order_correct_witness :
  NoDup (bfs_order demo_graph Reverse 3) ∧ bfs_order demo_graph Reverse 3 = [3; 1; 2; 0; 4].
Proof.
  split; [|vm_compute; reflexivity].
  apply (bfs_order_correct demo_graph (TopologyLaws0 := demo_graph_laws) Reverse 3 eq_refl).
Defined.

Lemma scratch_reusable_witness :
  ∃ f c f', start_epoch demo_graph 0 demo_scratch = Ok (f, c) ∧
    bfs_run demo_graph 2 Forward f = Ok f' ∧
    CounterInv (es_epoch (epoch_scratch_after f' c)) (es_marks (epoch_scratch_after f' c)).
Proof.
  destruct (scratch_reusable demo_graph (TopologyLaws0 := demo_graph_laws) Forward 0 2 demo_scratch
    BfsWorkspace_new eq_refl demo_scratch_inv ltac:(cbn; lia) ltac:(cbn; lia) fresh_workspace_inv) as [Hepoch _].
  do 3 eexists. split; [vm_compute; reflexivity|]. split; [vm_compute; reflexivity|].
  eapply Hepoch; vm_compute; reflexivity.
Defined.
