(* ===== verification/BfsBounded.v ===== *)
(** * BfsBounded: depth-bounded, multi-seed traversal with a visitor

    Models [crates/oxgraph-algo/src/bfs/bounded.rs]: the bounds, the wave state,
    seeding, and the three drivers. A visitor is a state with a step function;
    [true] is [ControlFlow::Break]. Depths are [u32] values, the emission count
    and the result cap are [usize] values; [depth + 1] is checked.

    The three drivers feed their visitor the emissions of one layered search,
    cut at the depth bound, until the visitor breaks or the cap is reached. *)

From stdpp Require Import base gmap sets list sorting.
From S2P Require Import Prelude Topology BfsSpec Bfs BfsFacts.

Record BfsBounds := {
  max_depth : option Z;
  result_limit : Z;
  include_seeds : bool
}.

(** [BfsBounds::expands]. *)
Definition expands (b : BfsBounds) (depth : Z) : bool :=
  match max_depth b with
  | Some max => bool_decide (depth < max)%Z
  | None => true
  end.

(** [BfsVisitor]: the visitor's state and its reaction to an element. *)
Class BfsVisitor (V Id : Type) := visit_element : V → Id → Z → bool * V.

Record BoundedRun (V Id : Type) := {
  br_marks : list Z;
  br_queue : list Id;
  br_epoch : Z;
  br_head : nat;
  br_tail : nat;
  wave_end : nat;
  br_depth : Z;
  emitted : Z;
  br_bounds : BfsBounds;
  br_element_bound : nat;
  br_visitor : V
}.
Arguments br_marks {V Id} _.
Arguments br_queue {V Id} _.
Arguments br_epoch {V Id} _.
Arguments br_head {V Id} _.
Arguments br_tail {V Id} _.
Arguments wave_end {V Id} _.
Arguments br_depth {V Id} _.
Arguments emitted {V Id} _.
Arguments br_bounds {V Id} _.
Arguments br_element_bound {V Id} _.
Arguments br_visitor {V Id} _.

Section bounded.
Context {G Id V : Type} `{!EqDecision Id} `{!DenseElementIndex G Id} `{!ContainsElement G Id}.
Context `{!ElementSuccessors G Id} `{!ElementPredecessors G Id} `{!BfsVisitor V Id}.

(** The run with the fields the operations assign. *)
Definition with_wave (r : BoundedRun V Id) (head wave : nat) (depth : Z) : BoundedRun V Id :=
  {| br_marks := br_marks r; br_queue := br_queue r; br_epoch := br_epoch r; br_head := head;
     br_tail := br_tail r; wave_end := wave; br_depth := depth; emitted := emitted r;
     br_bounds := br_bounds r; br_element_bound := br_element_bound r; br_visitor := br_visitor r |}.

Definition with_queued (r : BoundedRun V Id) (marks : list Z) (queue : list Id) (tail : nat)
    : BoundedRun V Id :=
  {| br_marks := marks; br_queue := queue; br_epoch := br_epoch r; br_head := br_head r;
     br_tail := tail; wave_end := wave_end r; br_depth := br_depth r; emitted := emitted r;
     br_bounds := br_bounds r; br_element_bound := br_element_bound r; br_visitor := br_visitor r |}.

Definition with_emitted (r : BoundedRun V Id) (count : Z) (v : V) : BoundedRun V Id :=
  {| br_marks := br_marks r; br_queue := br_queue r; br_epoch := br_epoch r; br_head := br_head r;
     br_tail := br_tail r; wave_end := wave_end r; br_depth := br_depth r; emitted := count;
     br_bounds := br_bounds r; br_element_bound := br_element_bound r; br_visitor := v |}.

(** [BoundedRun::pop]. *)
Definition pop_run (r : BoundedRun V Id) : res BfsError (option (Id * Z) * BoundedRun V Id) :=
  if decide (br_head r = br_tail r) then Ok (None, r) else
  let r := if decide (br_head r = wave_end r)
           then with_wave r (br_head r) (br_tail r) (saturating_add u32_max (br_depth r) 1)
           else r in
  element ← vget (br_queue r) (br_head r);
  mret (Some (element, br_depth r), with_wave r (S (br_head r)) (wave_end r) (br_depth r)).

(** [BoundedRun::emit]: [true] is [Break]. *)
Definition emit (r : BoundedRun V Id) (element : Id) (depth : Z) : bool * BoundedRun V Id :=
  let '(break, v) := visit_element (br_visitor r) element depth in
  if break then (true, with_emitted r (emitted r) v) else
  let count := (emitted r + 1)%Z in
  (bool_decide (result_limit (br_bounds r) ≤ count)%Z, with_emitted r count v).

(** [BoundedRun::discover]. *)
Definition discover (r : BoundedRun V Id) (target : Id) (index : nat) (depth : Z)
    : res BfsError (bool * BoundedRun V Id) :=
  if decide (br_element_bound r ≤ index)
  then Err (NeighborIndexOutOfBounds index (br_element_bound r)) else
  mark ← vget (br_marks r) index;
  if decide (mark = br_epoch r) then Ok (false, r) else
  marks ← vset (br_marks r) index (br_epoch r);
  queue ← vset (br_queue r) (br_tail r) target;
  mret (emit (with_queued r marks queue (S (br_tail r))) target depth).

(** The seeding loop of [start_run]; [true] when it returned [Ok(None)]. *)
Fixpoint seed_run (g : G) (r : BoundedRun V Id) (seeds : list Id)
    : res BfsError (bool * BoundedRun V Id) :=
  match seeds with
  | [] => Ok (false, r)
  | seed :: seeds =>
      if negb (contains_element g seed) then Err StartElementNotContained else
      let index := element_index g seed in
      if decide (br_element_bound r ≤ index)
      then Err (StartIndexOutOfBounds index (br_element_bound r)) else
      mark ← vget (br_marks r) index;
      if decide (mark = br_epoch r) then seed_run g r seeds else
      marks ← vset (br_marks r) index (br_epoch r);
      queue ← vset (br_queue r) (br_tail r) seed;
      let r := with_queued r marks queue (S (br_tail r)) in
      if include_seeds (br_bounds r)
      then let '(break, r) := emit r seed 0 in
           if break then Ok (true, r) else seed_run g r seeds
      else seed_run g r seeds
  end.

Definition start_run (g : G) (scratch : BfsEpochScratch Id) (seeds : list Id) (bounds : BfsBounds)
    (visitor : V) : res BfsError (bool * BoundedRun V Id) :=
  let element_bound := element_bound g in
  if decide (length (es_marks scratch) < element_bound)
  then Err (VisitedTooSmall element_bound (length (es_marks scratch))) else
  if decide (length (es_queue scratch) < element_bound)
  then Err (QueueTooSmall element_bound (length (es_queue scratch))) else
  let '(scratch, e) := bounded_parts scratch in
  let r := {| br_marks := es_marks scratch; br_queue := es_queue scratch; br_epoch := e;
              br_head := 0; br_tail := 0; wave_end := 0; br_depth := 0; emitted := 0;
              br_bounds := bounds; br_element_bound := element_bound; br_visitor := visitor |} in
  '(stopped, r) ← seed_run g r seeds;
  mret (stopped, if (stopped : bool) then r else with_wave r (br_head r) (br_tail r) (br_depth r)).

(** [for target in targets { .. }] of a driver; [true] when it returned. *)
Fixpoint discover_all (g : G) (r : BoundedRun V Id) (targets : list Id) (depth : Z)
    : res BfsError (bool * BoundedRun V Id) :=
  match targets with
  | [] => Ok (false, r)
  | target :: targets =>
      let index := element_index g target in
      next ← or_panic (checked_add u32_max depth 1);
      '(break, r) ← discover r target index next;
      if (break : bool) then Ok (true, r) else discover_all g r targets depth
  end.

(** The expansion of one popped element: one loop per direction. *)
Definition expansion_loops (g : G) (loops : list (Id → list Id)) (r : BoundedRun V Id)
    (element : Id) (depth : Z) : res BfsError (bool * BoundedRun V Id) :=
  foldl (λ (m : res BfsError (bool * BoundedRun V Id)) (expand : Id → list Id),
           '(stopped, r) ← m;
           if (stopped : bool) then Ok (true, r) else discover_all g r (expand element) depth)
    (Ok (false, r)) loops.

(** [while let Some((element, depth)) = run.pop()]. *)
Fixpoint drive (fuel : nat) (g : G) (bounds : BfsBounds) (loops : list (Id → list Id))
    (r : BoundedRun V Id) : res BfsError (BoundedRun V Id) :=
  match fuel with
  | O => NoFuel
  | S fuel =>
      '(o, r) ← pop_run r;
      match o with
      | None => Ok r
      | Some (element, depth) =>
          if negb (expands bounds depth) then drive fuel g bounds loops r else
          '(stopped, r) ← expansion_loops g loops r element depth;
          if (stopped : bool) then Ok r else drive fuel g bounds loops r
      end
  end.

Definition bounded_search (fuel : nat) (g : G) (loops : list (Id → list Id)) (seeds : list Id)
    (bounds : BfsBounds) (scratch : BfsEpochScratch Id) (visitor : V)
    : res BfsError (BoundedRun V Id) :=
  '(stopped, r) ← start_run g scratch seeds bounds visitor;
  if (stopped : bool) then Ok r else drive fuel g bounds loops r.

Definition breadth_first_search_bounded (fuel : nat) (g : G) (seeds : list Id) (bounds : BfsBounds)
    (scratch : BfsEpochScratch Id) (visitor : V) : res BfsError (BoundedRun V Id) :=
  bounded_search fuel g [element_successors g] seeds bounds scratch visitor.

Definition reverse_breadth_first_search_bounded (fuel : nat) (g : G) (seeds : list Id)
    (bounds : BfsBounds) (scratch : BfsEpochScratch Id) (visitor : V)
    : res BfsError (BoundedRun V Id) :=
  bounded_search fuel g [element_predecessors g] seeds bounds scratch visitor.

Definition breadth_first_search_bounded_both (fuel : nat) (g : G) (seeds : list Id)
    (bounds : BfsBounds) (scratch : BfsEpochScratch Id) (visitor : V)
    : res BfsError (BoundedRun V Id) :=
  bounded_search fuel g [element_successors g; element_predecessors g] seeds bounds scratch visitor.

(** ** What the visitor is fed *)

(** Feeding a sequence to the visitor until it breaks or the cap is reached:
    whether it stopped, the visitor and the count. *)
Fixpoint feed (limit : Z) (l : list (Id * nat)) (v : V) (count : Z) : bool * V * Z :=
  match l with
  | [] => (false, v, count)
  | (x, d) :: l =>
      let '(break, v) := visit_element v x (Z.of_nat d) in
      if break then (true, v, count) else
      let count := (count + 1)%Z in
      if bool_decide (limit ≤ count)%Z then (true, v, count) else feed limit l v count
  end.

Definition emissions (b : BfsBounds) (q : list (Id * nat)) : list (Id * nat) :=
  if include_seeds b then q else filter (λ p, p.2 ≠ 0) q.

Lemma feed_app limit l1 l2 v count :
  feed limit (l1 ++ l2) v count =
    let '(stopped, v', count') := feed limit l1 v count in
    if stopped then (true, v', count') else feed limit l2 v' count'.
Proof.
  revert v count. induction l1 as [|[x d] l1 IH]; intros v count; [done|]. cbn [app feed].
  destruct (visit_element v x (Z.of_nat d)) as [break v']. destruct break; [done|]. cbv zeta.
  case_bool_decide; [done|]. apply IH.
Qed.

Lemma emissions_app b q1 q2 : emissions b (q1 ++ q2) = emissions b q1 ++ emissions b q2.
Proof. unfold emissions. destruct (include_seeds b); [done|]. apply filter_app. Qed.

End bounded.

(** ** The bounded traversal is the cut layered search *)

Section facts.
Context {G Id V : Type} `{!EqDecision Id} `{!DenseElementIndex G Id} `{!ContainsElement G Id}.
Context `{!ElementSuccessors G Id} `{!ElementPredecessors G Id} `{!BfsVisitor V Id}.
Context (g : G) `{!TopologyLaws (Id := Id) g}.
Context (b : BfsBounds) (v0 : V).

Definition cut (d : nat) : bool := expands b (Z.of_nat d).

Lemma cut_down d e : d ≤ e → cut e = true → cut d = true.
Proof.
  unfold cut, expands. destruct (max_depth b); [|done]. rewrite !bool_decide_eq_true. lia.
Qed.

(** The visitor and the count after feeding it the emissions of [q]. *)
Definition fed (q : list (Id * nat)) : bool * V * Z := feed (result_limit b) (emissions b q) v0 0.

Lemma fed_stopped q new v c : fed q = (true, v, c) → fed (q ++ new) = (true, v, c).
Proof. unfold fed. intros Hq. by rewrite emissions_app, feed_app, Hq. Qed.

(** A running traversal in step with the queue [q] and its cursor [h]. *)
Record RunCore (q : list (Id * nat)) (h : nat) (r : BoundedRun V Id) : Prop := {
  rc_queue : slice_queue g (br_queue r) q.*1 (br_head r) (br_tail r) h;
  rc_marks : marks_agree g (λ v, v = br_epoch r) (br_marks r) q.*1;
  rc_visible : Forall (visible g) q.*1;
  rc_bounds : br_bounds r = b;
  rc_bound : br_element_bound r = element_bound g;
  rc_fed : fed q = (false, br_visitor r, emitted r)
}.

(** An operation's result: stopped with the visitor fed [q], or running on. *)
Definition outcome (q : list (Id * nat)) (h : nat) (wave : nat) (depth : Z) (stop : bool)
    (r : BoundedRun V Id) : Prop :=
  fed q = (stop, br_visitor r, emitted r) ∧
  (stop = false → RunCore q h r ∧ wave_end r = wave ∧ br_depth r = depth).

Lemma emit_feed (r : BoundedRun V Id) x d :
  br_bounds r = b →
  emit r x (Z.of_nat d) =
    let '(stop, v, c) := feed (result_limit b) [(x, d)] (br_visitor r) (emitted r) in
    (stop, with_emitted r c v).
Proof.
  intros Hb. unfold emit. cbn [feed]. destruct (visit_element _ _ _) as [break v].
  destruct break; [done|]. rewrite Hb. cbv zeta. by case_bool_decide.
Qed.

(** Queueing a new visible element, emitted or (a silent seed) not. *)
Lemma queue_new q h r x d :
  RunCore q h r → visible g x → x ∉ q.*1 →
  ∃ queue,
    vset (E:=BfsError) (br_marks r) (element_index g x) (br_epoch r) =
      Ok (<[element_index g x := br_epoch r]> (br_marks r)) ∧
    vset (E:=BfsError) (br_queue r) (br_tail r) x = Ok queue ∧
    let r' := with_queued r (<[element_index g x := br_epoch r]> (br_marks r)) queue (S (br_tail r)) in
    slice_queue g queue (q ++ [(x, d)]).*1 (br_head r) (S (br_tail r)) h ∧
    marks_agree g (λ v, v = br_epoch r) (br_marks r') (q ++ [(x, d)]).*1 ∧
    Forall (visible g) (q ++ [(x, d)]).*1.
Proof.
  intros [Hq Hm Hv Hb Hbd Hf] Hx Hn.
  destruct (marks_agree_lookup g _ _ _ _ Hm Hx) as (m & Hl & Hmi).
  destruct (slice_queue_push g _ _ _ _ _ x Hq Hv Hx Hn) as [Hvs Hq'].
  eexists. split; [apply vset_lt; by eapply lookup_lt_Some|]. split; [exact Hvs|].
  cbv zeta. rewrite fmap_app. cbn [fmap list_fmap fst]. split_and!; [done| |].
  - cbn [br_marks with_queued]. by apply (marks_agree_insert g (λ v, v = br_epoch r)).
  - apply Forall_app. split; [done|]. by constructor.
Qed.

Lemma emissions_one (x : Id) d :
  include_seeds b = true ∨ d ≠ 0 → emissions b [(x, d)] = [(x, d)].
Proof.
  unfold emissions. destruct (include_seeds b); [done|]. intros [|Hd]; [done|].
  by rewrite filter_cons_True by done.
Qed.

(** Emitting an element just queued. *)
Lemma emit_outcome q h r queue marks tail x d :
  RunCore q h r → include_seeds b = true ∨ d ≠ 0 →
  slice_queue g queue (q ++ [(x, d)]).*1 (br_head r) tail h →
  marks_agree g (λ v, v = br_epoch r) marks (q ++ [(x, d)]).*1 →
  Forall (visible g) (q ++ [(x, d)]).*1 →
  ∃ stop r', emit (with_queued r marks queue tail) x (Z.of_nat d) = (stop, r') ∧
    outcome (q ++ [(x, d)]) h (wave_end r) (br_depth r) stop r'.
Proof.
  intros [_ _ _ Hb Hbd Hf] Hd Hq Hm Hv. rewrite emit_feed by done.
  cbn [br_visitor emitted with_queued].
  destruct (feed (result_limit b) [(x, d)] (br_visitor r) (emitted r)) as [[stop v] c] eqn:Hfeed.
  exists stop. eexists. split; [done|].
  assert (fed (q ++ [(x, d)]) = (stop, v, c)) as Hfed.
  { unfold fed in *. by rewrite emissions_app, feed_app, Hf, emissions_one. }
  split; [done|]. intros ->. split; [|done]. by constructor.
Qed.

Lemma discover_outcome q h r x d :
  RunCore q h r → visible g x →
  ∃ stop r', discover r x (element_index g x) (Z.of_nat (S d)) = Ok (stop, r') ∧
    outcome (visit (S d) q x) h (wave_end r) (br_depth r) stop r'.
Proof.
  intros Hr Hx. pose proof (index_bound x Hx) as Hlt. unfold discover, visit.
  rewrite (rc_bound _ _ _ Hr), decide_False by lia.
  destruct (marks_agree_lookup g _ _ _ _ (rc_marks _ _ _ Hr) Hx) as (m & Hl & Hmi).
  unfold vget. rewrite Hl. cbn [or_panic mbind res_bind].
  case_decide as Hin; case_decide as Hq; try (exfalso; tauto).
  - exists false, r. split; [done|]. split; [apply Hr|]. by intros _.
  - destruct (queue_new q h r x (S d) Hr Hx Hq) as (queue & -> & -> & Hq' & Hm' & Hv').
    cbn [mbind res_bind mret res_ret]. cbn [br_marks with_queued] in Hm'.
    destruct (emit_outcome q h r queue _ _ x (S d) Hr ltac:(right; lia) Hq' Hm' Hv') as (stop & r' & He & Ho).
    exists stop, r'. by rewrite He.
Qed.

Lemma outcome_stopped_more q new h w d r :
  outcome q h w d true r → outcome (q ++ new) h w d true r.
Proof. intros [Hf _]. split; [by apply fed_stopped|done]. Qed.

(** One loop over targets. *)
Lemma discover_all_outcome q h r l d :
  RunCore q h r → Forall (visible g) l → (Z.of_nat d < u32_max)%Z →
  ∃ stop r', discover_all g r l (Z.of_nat d) = Ok (stop, r') ∧
    outcome (foldl (visit (S d)) q l) h (wave_end r) (br_depth r) stop r'.
Proof.
  intros Hr Hl Hd. revert q r Hr. induction Hl as [|x l Hx Hl IH]; intros q r Hr; cbn [discover_all foldl].
  { exists false, r. split; [done|]. split; [apply Hr|]. by intros _. }
  unfold checked_add. rewrite try_into_fits by lia. cbn [or_panic mbind res_bind].
  replace (Z.of_nat d + 1)%Z with (Z.of_nat (S d)) by lia.
  destruct (discover_outcome q h r x d Hr Hx) as (stop & r1 & -> & Ho). cbn [mbind res_bind].
  destruct stop.
  - exists true, r1. split; [done|].
    destruct (foldl_visit_prefix (S d) (visit (S d) q x) l) as [new ->]. by apply outcome_stopped_more.
  - destruct Ho as [_ Ho]. destruct (Ho eq_refl) as (Hr1 & Hw & Hdp).
    destruct (IH _ r1 Hr1) as (stop & r' & Hda & Ho'). exists stop, r'. split; [done|].
    by rewrite Hw, Hdp in Ho'.
Qed.

Definition successors_of (loops : list (Id → list Id)) (x : Id) : list Id := loops ≫= (λ f, f x).

Lemma expansion_stopped loops r x d :
  foldl (λ (m : res BfsError (bool * BoundedRun V Id)) (expand : Id → list Id),
     '(stopped, r) ← m; if (stopped : bool) then Ok (true, r) else discover_all g r (expand x) d)
    (Ok (true, r)) loops = Ok (true, r).
Proof. induction loops as [|f loops IH]; [done|]. exact IH. Qed.

Lemma expansion_outcome loops q h r x d :
  RunCore q h r → Forall (visible g) (successors_of loops x) → (Z.of_nat d < u32_max)%Z →
  ∃ stop r', expansion_loops g loops r x (Z.of_nat d) = Ok (stop, r') ∧
    outcome (foldl (visit (S d)) q (successors_of loops x)) h (wave_end r) (br_depth r) stop r'.
Proof.
  unfold expansion_loops. revert q r. induction loops as [|f loops IH]; intros q r Hr Hl Hd.
  { exists false, r. split; [done|]. split; [apply Hr|]. by intros _. }
  unfold successors_of in *. cbn [mbind list_bind] in *. apply Forall_app in Hl as [Hl1 Hl2].
  rewrite foldl_app. cbn [foldl]. cbn [mbind res_bind].
  destruct (discover_all_outcome q h r (f x) d Hr Hl1 Hd) as (stop & r1 & -> & Ho).
  destruct stop.
  - rewrite expansion_stopped. exists true, r1. split; [done|].
    destruct (foldl_visit_prefix (S d) (foldl (visit (S d)) q (f x)) (mbind (λ f, f x) loops)) as [new ->].
    by apply outcome_stopped_more.
  - destruct Ho as [_ Ho]. destruct (Ho eq_refl) as (Hr1 & Hw & Hdp).
    destruct (IH _ r1 Hr1 Hl2 Hd) as (stop & r' & Hda & Ho'). exists stop, r'. split; [done|].
    by rewrite Hw, Hdp in Ho'.
Qed.

(** *** Waves *)

(** Everything queued from the cursor on is at the wave's depth up to the wave's
    end and one deeper after it. *)
Definition wave_ok (q : list (Id * nat)) (h wave : nat) (depth : Z) : Prop :=
  h ≤ wave ≤ length q ∧
  ∀ i (x : Id) d, h ≤ i → q !! i = Some (x, d) → Z.of_nat d = (if decide (i < wave)%nat then depth else depth + 1)%Z.

Lemma wave_ok_push q h wave d (new : list (Id * nat)) :
  wave_ok q h wave (Z.of_nat d) → (∀ y e, (y, e) ∈ new → e = S d) → wave_ok (q ++ new) h wave (Z.of_nat d).
Proof.
  intros [Hw Hq] Hnew. split; [rewrite length_app; lia|]. intros i x e Hi [Hl|[Hl Hx]]%lookup_app_Some.
  - by eapply Hq.
  - apply list_elem_of_lookup_2, Hnew in Hx as ->. rewrite decide_False by lia. lia.
Qed.

Lemma pop_run_Ok q h r :
  RunCore q h r → wave_ok q h (wave_end r) (br_depth r) →
  (∀ x d, (x, d) ∈ q → Z.of_nat d < u32_max)%Z →
  match q !! h with
  | Some (x, d) => ∃ r', pop_run r = Ok (Some (x, Z.of_nat d), r') ∧ RunCore q (S h) r' ∧
      wave_ok q (S h) (wave_end r') (br_depth r') ∧ br_depth r' = Z.of_nat d
  | None => ∃ r', pop_run r = Ok (None, r') ∧ RunCore q h r'
  end.
Proof.
  intros [Hq Hm Hv Hb Hbd Hf] [Hw Hwq] Hu. pose proof Hq as (Hhd & Htl & Hh & Hnd & Hcap & Htake).
  rewrite length_fmap in Htl, Hh. unfold pop_run. destruct (q !! h) as [[x d]|] eqn:Hx.
  - pose proof (lookup_lt_Some _ _ _ Hx) as Hlt. rewrite decide_False by lia.
    pose proof (Hwq h x d ltac:(lia) Hx) as Hd.
    assert ((x, d) ∈ q) as Hin by by eapply list_elem_of_lookup_2. pose proof (Hu x d Hin) as Hdu.
    assert (br_queue r !! br_head r = Some x) as Hqx.
    { eapply slice_queue_lookup; [exact Hq|]. by rewrite list_lookup_fmap, Hx. }
    set (r1 := if decide (br_head r = wave_end r)
      then with_wave r (br_head r) (br_tail r) (saturating_add u32_max (br_depth r) 1) else r).
    assert (br_queue r1 = br_queue r ∧ br_head r1 = br_head r ∧ br_tail r1 = br_tail r) as (Hr1 & Hr2 & Hr3).
    { unfold r1. by destruct (decide (br_head r = wave_end r)). }
    assert (br_depth r1 = Z.of_nat d ∧ wave_ok q (S h) (wave_end r1) (Z.of_nat d)) as [Hr4 Hr5].
    { unfold r1. destruct (decide (br_head r = wave_end r)) as [Hwe|Hwe]; cbn [br_depth wave_end with_wave].
      - rewrite decide_False in Hd by lia. unfold saturating_add. split; [lia|]. split; [lia|].
        intros i y e Hi Hy. rewrite decide_True by (apply lookup_lt_Some in Hy; lia).
        specialize (Hwq i y e ltac:(lia) Hy). rewrite decide_False in Hwq by lia. lia.
      - rewrite decide_True in Hd by lia. split; [done|]. split; [lia|].
        intros i y e Hi Hy. rewrite Hd. by apply (Hwq i y e); [lia|]. }
    unfold vget. rewrite Hr1, Hr2, Hqx. cbn [or_panic mbind res_bind mret res_ret]. rewrite Hr4.
    eexists. split; [done|]. cbn [br_depth wave_end with_wave]. split; [|done].
    assert (br_marks r1 = br_marks r ∧ br_epoch r1 = br_epoch r ∧ br_bounds r1 = br_bounds r ∧
      br_element_bound r1 = br_element_bound r ∧ br_visitor r1 = br_visitor r ∧ emitted r1 = emitted r)
      as (E1 & E2 & E3 & E4 & E5 & E6) by (unfold r1; by destruct (decide (br_head r = wave_end r))).
    constructor; cbn [br_queue br_head br_tail br_marks br_epoch br_bounds br_element_bound br_visitor
      emitted with_wave]; rewrite ?Hr1, ?Hr2, ?Hr3, ?E1, ?E2, ?E3, ?E4, ?E5, ?E6; try done.
    split_and!; try done; rewrite ?length_fmap; lia.
  - apply lookup_ge_None in Hx. rewrite decide_True by lia. exists r. split; [done|]. by constructor.
Qed.

(** *** Seeding *)

Lemma seed_run_outcome q r seeds :
  RunCore q 0 r → Forall (visible g) seeds → (∀ x d, (x, d) ∈ q → d = 0) →
  ∃ stop r', seed_run g r seeds = Ok (stop, r') ∧
    outcome (foldl (visit 0) q seeds) 0 (wave_end r) (br_depth r) stop r'.
Proof.
  intros Hr Hs. revert q r Hr. induction Hs as [|x seeds Hx Hs IH]; intros q r Hr Hz; cbn [seed_run foldl].
  { exists false, r. split; [done|]. split; [apply Hr|]. by intros _. }
  pose proof (index_bound x Hx) as Hlt. unfold visible in Hx. rewrite Hx. cbn [negb].
  rewrite (rc_bound _ _ _ Hr), decide_False by lia.
  destruct (marks_agree_lookup g _ _ _ _ (rc_marks _ _ _ Hr) Hx) as (m & Hl & Hmi).
  unfold vget. rewrite Hl. cbn [or_panic mbind res_bind]. unfold visit at 2.
  case_decide as Hin; case_decide as Hq; try (exfalso; tauto); [by apply IH|].
  destruct (queue_new q 0 r x 0 Hr Hx Hq) as (queue & -> & -> & Hq' & Hm' & Hv').
  cbn [mbind res_bind]. cbn [br_marks with_queued] in Hm'. cbv zeta.
  change (br_bounds (with_queued r ?m ?u ?t)) with (br_bounds r). rewrite (rc_bounds _ _ _ Hr).
  assert (∀ y e, (y, e) ∈ q ++ [(x, 0)] → e = 0) as Hz'.
  { intros y e [Hy|[= -> ->]%list_elem_of_singleton]%elem_of_app; [by eapply Hz|done]. }
  destruct (include_seeds b) eqn:Hinc.
  - destruct (emit_outcome q 0 r queue _ _ x 0 Hr ltac:(by left) Hq' Hm' Hv') as (stop & r1 & He & Ho).
    change (Z.of_nat 0) with 0%Z in He. rewrite He. destruct stop.
    + exists true, r1. split; [done|]. destruct (foldl_visit_prefix 0 (q ++ [(x, 0)]) seeds) as [new ->].
      by apply outcome_stopped_more.
    + destruct Ho as [_ Ho]. destruct (Ho eq_refl) as (Hr1 & Hw & Hdp).
      destruct (IH _ r1 Hr1 Hz') as (stop & r' & Hda & Ho'). exists stop, r'. split; [done|].
      by rewrite Hw, Hdp in Ho'.
  - apply (IH (q ++ [(x, 0)]) (with_queued r (<[element_index g x:=br_epoch r]> (br_marks r)) queue
      (S (br_tail r)))); [|done]. destruct Hr as [_ _ _ Hb Hbd Hf]. constructor; try done.
    cbn [br_visitor emitted with_queued]. unfold fed in *. rewrite emissions_app, feed_app, Hf.
    unfold emissions at 1. rewrite Hinc. by rewrite filter_cons_False by (cbn; lia).
Qed.

(** *** The whole traversal *)

Section whole.
Context (loops : list (Id → list Id)) (seeds : list Id).
Hypothesis Hloops : ∀ x y, visible g x → y ∈ successors_of loops x → visible g y.
Hypothesis Hseeds : Forall (visible g) seeds.
Hypothesis Hbound : (Z.of_nat (element_bound g) ≤ u32_max)%Z.

(** Elements with their depths, in the order they are discovered. *)
Definition bounded_order : list (Id * nat) :=
  layers (successors_of loops) cut (S (element_bound g)) (seed_queue seeds) 0.

Lemma discovered_visible q h x d :
  LayersInv (successors_of loops) cut seeds q h → (x, d) ∈ q → visible g x.
Proof.
  intros Hinv Hx. destruct (li_sound _ _ _ _ _ Hinv x d Hx) as (s & Hs & Hw).
  eapply (walk_preserves _ (visible g)); [exact Hloops| |exact Hw]. rewrite Forall_forall in Hseeds. auto.
Qed.

Lemma discovered_length q h :
  LayersInv (successors_of loops) cut seeds q h → length q ≤ element_bound g.
Proof.
  intros Hinv. rewrite <-(length_fmap fst). apply visible_length; [done|apply Hinv|].
  apply Forall_forall. intros x ([y d] & -> & Hx)%list_elem_of_fmap. by eapply discovered_visible.
Qed.

Lemma discovered_depth q h x d :
  LayersInv (successors_of loops) cut seeds q h → (x, d) ∈ q → (Z.of_nat d < u32_max)%Z.
Proof.
  intros Hinv [i Hi]%list_elem_of_lookup. pose proof (li_small _ _ _ _ _ Hinv i x d Hi).
  pose proof (discovered_length q h Hinv). apply lookup_lt_Some in Hi. lia.
Qed.

Lemma drive_outcome fuel q h r :
  RunCore q h r → wave_ok q h (wave_end r) (br_depth r) →
  LayersInv (successors_of loops) cut seeds q h →
  length (layers (successors_of loops) cut fuel q h) ≤ h + fuel →
  ∃ stop r', drive (S fuel) g b loops r = Ok r' ∧
    fed (layers (successors_of loops) cut fuel q h) = (stop, br_visitor r', emitted r').
Proof.
  revert q h r. induction fuel as [|fuel IH]; intros q h r Hr Hw Hinv Hlen;
    pose proof (pop_run_Ok q h r Hr Hw (λ x d, discovered_depth q h x d Hinv)) as Hpop;
    cbn [layers] in Hlen |- *.
  - rewrite lookup_ge_None_2 in Hpop by lia. destruct Hpop as (r' & Hp & Hr').
    exists false, r'. cbn [drive]. rewrite Hp. split; [done|apply Hr'].
  - destruct (q !! h) as [[x d]|] eqn:Hx.
    2:{ destruct Hpop as (r' & Hp & Hr'). exists false, r'. cbn [drive]. rewrite Hp. split; [done|apply Hr']. }
    destruct Hpop as (r1 & Hp & Hr1 & Hw1 & Hd1).
    change (drive (S (S fuel)) g b loops r) with
      ('(o, r) ← pop_run r; match o with None => Ok r | Some (element, depth) =>
          if negb (expands b depth) then drive (S fuel) g b loops r else
          '(stopped, r) ← expansion_loops g loops r element depth;
          if (stopped : bool) then Ok r else drive (S fuel) g b loops r end).
    rewrite Hp. cbn [mbind res_bind]. pose proof (layers_step_inv _ _ _ _ _ _ _ Hinv Hx) as Hinv'.
    unfold expand_at in *. change (expands b (Z.of_nat d)) with (cut d).
    destruct (cut d); cbn [negb]; [|apply IH; [done|done|done|lia]].
    assert ((x, d) ∈ q) as Hxin by by eapply list_elem_of_lookup_2.
    pose proof (discovered_visible q h x d Hinv Hxin) as Hvx.
    destruct (expansion_outcome loops q (S h) r1 x d Hr1) as (stop & r2 & -> & Hf & Ho).
    { apply Forall_forall. eauto. }
    { exact (discovered_depth q h x d Hinv Hxin). }
    cbn [mbind res_bind]. destruct stop.
    + exists true, r2. split; [done|].
      destruct (layers_prefix (successors_of loops) cut fuel
        (foldl (visit (S d)) q (successors_of loops x)) (S h)) as [new ->]. by apply fed_stopped.
    + destruct (Ho eq_refl) as (Hr2 & Hwe & Hde). apply IH; [done| |done|lia].
      rewrite Hwe, Hde. rewrite Hd1 in Hw1 |- *.
      destruct (visits_spec (S d) q (successors_of loops x) (li_nodup _ _ _ _ _ Hinv))
        as (new & -> & _ & Hnew & _).
      apply wave_ok_push; [done|]. intros y e Hy. apply (Hnew y e Hy).
Qed.

Lemma bounded_order_inv :
  LayersInv (successors_of loops) cut seeds bounded_order (length bounded_order).
Proof.
  apply (layers_finishes _ _ _ _ _ _ (element_bound g)); [apply seed_queue_inv| |lia].
  intros l Hnd Hl. apply visible_length; [done|done|]. apply Forall_forall. intros x Hx.
  destruct (Hl x Hx) as (s & Hs & n & Hw).
  eapply (walk_preserves _ (visible g)); [exact Hloops| |exact Hw].
  rewrite Forall_forall in Hseeds. auto.
Qed.

Lemma bounded_search_outcome fuel scratch :
  CounterInv (es_epoch scratch) (es_marks scratch) →
  element_bound g ≤ length (es_marks scratch) → element_bound g ≤ length (es_queue scratch) →
  element_bound g + 2 ≤ fuel →
  ∃ stop r, bounded_search fuel g loops seeds b scratch v0 = Ok r ∧
    fed bounded_order = (stop, br_visitor r, emitted r).
Proof.
  intros Hc Hm Hq Hf. unfold bounded_search, start_run.
  rewrite decide_False, decide_False by lia. unfold bounded_parts.
  destruct (advance (es_epoch scratch) (es_marks scratch)) as [[e c] marks] eqn:Ha.
  destruct (advance_fresh _ _ _ _ _ Hc Ha) as (_ & _ & Hl & Hfresh). cbn [es_marks es_queue].
  set (r0 := {| br_marks := marks; br_queue := es_queue scratch; br_epoch := e; br_head := 0;
    br_tail := 0; wave_end := 0; br_depth := 0; emitted := 0; br_bounds := b;
    br_element_bound := element_bound g; br_visitor := v0 |}).
  assert (RunCore [] 0 r0) as Hr0.
  { constructor; try done.
    - split_and!; try done. constructor.
    - split; [cbn [br_marks r0]; lia|]. intros x Hx. pose proof (index_bound x Hx).
      destruct (lookup_lt_is_Some_2 marks (element_index g x)) as [w Hw]; [lia|].
      exists w. split; [done|]. rewrite Forall_lookup in Hfresh.
      split; [intros ->; by destruct (Hfresh _ _ Hw)|set_solver].
    - unfold fed, emissions. by destruct (include_seeds b). }
  destruct (seed_run_outcome [] r0 seeds Hr0 Hseeds) as (stop & r1 & -> & Hfd & Ho); [set_solver|].
  fold (seed_queue seeds) in Hfd, Ho. cbn [mbind res_bind mret res_ret]. destruct stop.
  - exists true, r1. split; [done|]. unfold bounded_order.
    destruct (layers_prefix (successors_of loops) cut (S (element_bound g)) (seed_queue seeds) 0) as [new ->].
    by apply fed_stopped.
  - destruct (Ho eq_refl) as (Hr1 & Hwe & Hde). destruct fuel as [|fuel]; [lia|].
    pose proof (discovered_length _ _ bounded_order_inv) as Hbl.
    assert (layers (successors_of loops) cut fuel (seed_queue seeds) 0 = bounded_order) as Hsame.
    { replace fuel with (S (element_bound g) + (fuel - S (element_bound g))) by lia.
      apply layers_more_fuel. fold bounded_order. lia. }
    rewrite <-Hsame. destruct Hr1 as [Hq1 Hm1 Hv1 Hb1 Hbd1 Hf1].
    pose proof Hq1 as (Hhd & Htl & _). rewrite length_fmap in Htl.
    apply drive_outcome; [by constructor| |apply seed_queue_inv|rewrite Hsame; lia].
    cbn [wave_end br_depth with_wave]. rewrite Hde, Htl. split; [lia|]. intros i x d _ Hi.
    rewrite decide_True by by eapply lookup_lt_Some. cbn [br_depth r0].
    unfold seed_queue in Hi. destruct (visits_spec 0 [] seeds) as (new & Hnew & _ & Hz & _); [constructor|].
    rewrite Hnew in Hi. apply list_elem_of_lookup_2 in Hi. cbn [app] in Hi. destruct (Hz x d Hi). lia.
Qed.
End whole.

Lemma successors_of_visible loops (x y : Id) :
  (∀ f, f ∈ loops → f = element_successors g ∨ f = element_predecessors g) →
  visible g x → y ∈ successors_of loops x → visible g y.
Proof.
  intros Hl Hx (f & Hy & Hf)%list_elem_of_bind.
  destruct (Hl f Hf) as [-> | ->]; [by eapply successors_contained|by eapply predecessors_contained].
Qed.

(** C5. The three bounded searches from visible seeds, over any reused scratch
    of sufficient size, return without error and leave the visitor and the count
    exactly as feeding it the depth-cut layered order would, up to the visitor's
    break or the result cap. *)
Theorem bounded_search_correct seeds fuel scratch :
  Forall (visible g) seeds → (Z.of_nat (element_bound g) ≤ u32_max)%Z →
  CounterInv (es_epoch scratch) (es_marks scratch) →
  element_bound g ≤ length (es_marks scratch) → element_bound g ≤ length (es_queue scratch) →
  element_bound g + 2 ≤ fuel →
  (∃ stop r, breadth_first_search_bounded fuel g seeds b scratch v0 = Ok r ∧
    feed (result_limit b) (emissions b (bounded_order [element_successors g] seeds)) v0 0 =
      (stop, br_visitor r, emitted r)) ∧
  (∃ stop r, reverse_breadth_first_search_bounded fuel g seeds b scratch v0 = Ok r ∧
    feed (result_limit b) (emissions b (bounded_order [element_predecessors g] seeds)) v0 0 =
      (stop, br_visitor r, emitted r)) ∧
  (∃ stop r, breadth_first_search_bounded_both fuel g seeds b scratch v0 = Ok r ∧
    feed (result_limit b)
      (emissions b (bounded_order [element_successors g; element_predecessors g] seeds)) v0 0 =
      (stop, br_visitor r, emitted r)).
Proof.
  intros Hs Hb Hc Hm Hq Hf.
  split_and!; apply bounded_search_outcome; try done; intros x y; apply successors_of_visible; set_solver.
Qed.

(** The order the visitor is fed: every element once, with its exact hop
    distance from the seed set in the chosen directions, exactly the elements
    within the depth bound, at non-decreasing depth. *)
Theorem bounded_order_exact loops seeds :
  (∀ f, f ∈ loops → f = element_successors g ∨ f = element_predecessors g) →
  Forall (visible g) seeds → (∀ m, max_depth b = Some m → (0 ≤ m)%Z) →
  NoDup (bounded_order loops seeds).*1 ∧
  (∀ x d, (x, d) ∈ bounded_order loops seeds ↔
    distance (successors_of loops) seeds x d ∧
    match max_depth b with Some m => (Z.of_nat d ≤ m)%Z | None => True end) ∧
  (∀ i j x y d e, i < j → bounded_order loops seeds !! i = Some (x, d) →
    bounded_order loops seeds !! j = Some (y, e) → d ≤ e).
Proof.
  intros Hl Hs Hmax.
  assert (LayersInv (successors_of loops) cut seeds (bounded_order loops seeds)
    (length (bounded_order loops seeds))) as Hinv.
  { apply bounded_order_inv; [|done]. intros x y. by apply successors_of_visible. }
  split_and!; [apply Hinv| |apply Hinv].
  intros x d. rewrite (layers_distance _ _ cut_down _ _ _ _ Hinv).
  assert ((∀ m, m < d → cut m = true) ↔
    match max_depth b with Some m => (Z.of_nat d ≤ m)%Z | None => True end) as ->; [|done].
  unfold cut, expands. destruct (max_depth b) as [m|]; [|done]. specialize (Hmax m eq_refl). split.
  - intros Hd. destruct d as [|d]; [lia|]. specialize (Hd d ltac:(lia)).
    apply bool_decide_eq_true in Hd. lia.
  - intros Hd k Hk. apply bool_decide_eq_true. lia.
Qed.

End facts.

(** ** Examples *)

(** A visitor that records what it is shown. *)
#[export] Instance recorder : BfsVisitor (list (nat * Z)) nat := λ v x d, (false, v ++ [(x, d)]).

Definition demo_bounds : BfsBounds := {| max_depth := Some 1%Z; result_limit := u64_max; include_seeds := true |}.

Definition fresh_scratch : BfsEpochScratch nat := BfsEpochScratch_new (replicate 5 7%Z) (replicate 5 0).

Lemma fresh_scratch_inv : CounterInv (es_epoch fresh_scratch) (es_marks fresh_scratch).
Proof. constructor; [split; vm_compute; discriminate|repeat constructor; vm_compute; discriminate]. Qed.

Lemma bounded_search_correct_witness :
  ∃ stop r, breadth_first_search_bounded 7 demo_graph [4; 4] demo_bounds fresh_scratch [] = Ok r ∧
    feed u64_max (bounded_order demo_graph demo_bounds [element_successors demo_graph] [4; 4]) [] 0 =
      (stop, br_visitor r, emitted r) ∧
    br_visitor r = [(4, 0%Z); (0, 1%Z)].
Proof.
  destruct (bounded_search_correct demo_graph (TopologyLaws0 := demo_graph_laws) demo_bounds [] [4; 4] 7
    fresh_scratch ltac:(repeat constructor) ltac:(vm_compute; discriminate) fresh_scratch_inv
    ltac:(cbn; lia) ltac:(cbn; lia) ltac:(cbn; lia)) as [(stop & r & Hr & Hfeed) _].
  exists stop, r. split; [exact Hr|]. split; [exact Hfeed|].
  vm_compute in Hr. injection Hr as <-. reflexivity.
Defined.

Lemma bounded_order_exact_witness :
  bounded_order demo_graph demo_bounds [element_successors demo_graph] [4] = [(4, 0); (0, 1)] ∧
  distance (successors_of [element_successors demo_graph]) [4] 0 1.
Proof.
  split; [vm_compute; reflexivity|].
  destruct (bounded_order_exact demo_graph (TopologyLaws0 := demo_graph_laws) demo_bounds
    [element_successors demo_graph] [4]) as (_ & Hd & _).
  - intros f ->%list_elem_of_singleton. by left.
  - repeat constructor.
  - intros m [= <-]. lia.
  - apply (proj1 (Hd 0 1)). vm_compute. right. by left.
Defined.

(** A cap of zero does not stop the first emission: the check comes after the
    visit, so one element is emitted. *)
Lemma zero_limit_emits_one :
  ∃ r, breadth_first_search_bounded 7 demo_graph [4]
      {| max_depth := None; result_limit := 0; include_seeds := true |} fresh_scratch [] = Ok r ∧
    br_visitor r = [(4, 0%Z)] ∧ emitted r = 1%Z.
Proof. eexists. split; [vm_compute; reflexivity|]. split; reflexivity. Qed.
