(* ===== verification/Algo.v ===== *)
(** * Algo: whole-graph algorithms over an induced element set

    Models [crates/oxgraph-algo/src/sssp.rs], [toposort.rs],
    [longest_path_dag.rs] and [components.rs]. Each takes the elements it works
    on explicitly and ignores edges that leave them. Array accesses and the
    [usize] decrement of an in-degree panic when out of range; loops over a
    queue take fuel. *)

From stdpp Require Import base gmap sets list sorting.
From S2P Require Import Prelude Topology.

Inductive ToposortError := ToposortCycle.
Inductive LongestPathError := LongestPathCycle.

Section algo.
Context {G Id : Type} `{!EqDecision Id} `{!DenseElementIndex G Id} `{!ElementSuccessors G Id}.

(** ** The induced set *)

(** [sssp.rs]: mark every requested element under the bound. *)
Definition mark_members {E} (g : G) (elements : list Id) : res E (list bool) :=
  for_each (λ member element,
    let index := element_index g element in
    if decide (index < element_bound g) then vset member index true else Ok member)
    elements (replicate (element_bound g) false).

(** The others also collect the distinct requested elements, in input order. *)
Definition collect_step {E} (g : G) (st : list bool * list Id) (element : Id)
    : res E (list bool * list Id) :=
  let '(member, nodes) := st in
  let index := element_index g element in
  if decide (index < element_bound g) then
    seen ← vget member index;
    if (seen : bool) then Ok (member, nodes)
    else member ← vset member index true; mret (member, nodes ++ [element])
  else Ok (member, nodes).

Definition collect_members {E} (g : G) (elements : list Id) : res E (list bool * list Id) :=
  for_each (collect_step g) elements (replicate (element_bound g) false, []).

(** [target < bound && member[target]]. *)
Definition is_member {E} (g : G) (member : list bool) (target : nat) : res E bool :=
  if decide (target < element_bound g) then vget member target else Ok false.

(** ** [sssp.rs] *)

Definition sssp_relax {E} (g : G) (member : list bool) (distance : Z)
    (st : list bool * list (Id * Z)) (successor : Id) : res E (list bool * list (Id * Z)) :=
  let '(visited, queue) := st in
  let target := element_index g successor in
  inside ← is_member g member target;
  if (inside : bool) then
    seen ← vget visited target;
    if negb seen then
      visited ← vset visited target true;
      next ← or_panic (checked_add u64_max distance 1);
      mret (visited, queue ++ [(successor, next)])
    else Ok (visited, queue)
  else Ok (visited, queue).

(** [while let Some((node, distance)) = queue.pop_front()]. *)
Fixpoint sssp_loop {E} (fuel : nat) (g : G) (member visited : list bool)
    (distances queue : list (Id * Z)) : res E (list (Id * Z)) :=
  match fuel with
  | O => NoFuel
  | S fuel =>
      match queue with
      | [] => Ok distances
      | (node, distance) :: queue =>
          '(visited, queue) ← for_each (sssp_relax g member distance)
            (element_successors g node) (visited, queue);
          sssp_loop fuel g member visited (distances ++ [(node, distance)]) queue
      end
  end.

Definition shortest_path_lengths {E} (fuel : nat) (g : G) (source : Id) (elements : list Id)
    : res E (list (Id * Z)) :=
  member ← mark_members g elements;
  let source_index := element_index g source in
  inside ← is_member g member source_index;
  if negb inside then Ok [] else
  visited ← vset (replicate (element_bound g) false) source_index true;
  sssp_loop fuel g member visited [] [(source, 0%Z)].

(** ** [toposort.rs] *)

Definition count_edge {E} (g : G) (member : list bool) (indegree : list nat) (successor : Id)
    : res E (list nat) :=
  let target := element_index g successor in
  inside ← is_member g member target;
  if (inside : bool) then d ← vget indegree target; vset indegree target (S d)
  else Ok indegree.

Definition count_indegrees {E} (g : G) (member : list bool) (nodes : list Id) : res E (list nat) :=
  for_each (λ indegree node, for_each (count_edge g member) (element_successors g node) indegree)
    nodes (replicate (element_bound g) 0).

Definition seed_sources {E} (g : G) (indegree : list nat) (nodes : list Id) : res E (list Id) :=
  for_each (λ queue node,
    d ← vget indegree (element_index g node);
    Ok (if decide (d = 0) then queue ++ [node] else queue)) nodes [].

(** One edge of a popped node: the decrement is a [usize] subtraction. *)
Definition remove_edge {E} (g : G) (member : list bool) (st : list nat * list Id) (successor : Id)
    : res E (list nat * list Id) :=
  let '(indegree, queue) := st in
  let target := element_index g successor in
  inside ← is_member g member target;
  if negb inside then Ok (indegree, queue) else
  d ← vget indegree target;
  match d with
  | O => Panic
  | S d =>
      indegree ← vset indegree target d;
      mret (indegree, if decide (d = 0) then queue ++ [successor] else queue)
  end.

Fixpoint toposort_loop {E} (fuel : nat) (g : G) (member : list bool) (indegree : list nat)
    (order queue : list Id) : res E (list Id) :=
  match fuel with
  | O => NoFuel
  | S fuel =>
      match queue with
      | [] => Ok order
      | node :: queue =>
          '(indegree, queue) ← for_each (remove_edge g member) (element_successors g node)
            (indegree, queue);
          toposort_loop fuel g member indegree (order ++ [node]) queue
      end
  end.

Definition topological_sort (fuel : nat) (g : G) (elements : list Id) : res ToposortError (list Id) :=
  '(member, nodes) ← collect_members g elements;
  indegree ← count_indegrees g member nodes;
  queue ← seed_sources g indegree nodes;
  order ← toposort_loop fuel g member indegree [] queue;
  if decide (length order = length nodes) then Ok order else Err ToposortCycle.

(** ** [longest_path_dag.rs] *)

Record Relaxation := {
  lengths : list nat;
  predecessor : list (option Id);
  best_end : option Id;
  best_length : nat
}.

Definition relax_edge {E} (g : G) (node : Id) (node_length : nat)
    (st : list nat * list (option Id)) (successor : Id) : res E (list nat * list (option Id)) :=
  let '(lengths, predecessor) := st in
  let target := element_index g successor in
  if decide (target < element_bound g) then
    l ← vget lengths target;
    if decide (l < node_length + 1) then
      lengths ← vset lengths target (node_length + 1);
      predecessor ← vset predecessor target (Some node);
      mret (lengths, predecessor)
    else Ok (lengths, predecessor)
  else Ok (lengths, predecessor).

Definition relax_node {E} (g : G) (st : Relaxation) (node : Id) : res E Relaxation :=
  node_length ← vget (lengths st) (element_index g node);
  let better := bool_decide (best_end st = None) || bool_decide (best_length st < node_length) in
  '(ls, ps) ← for_each (relax_edge g node node_length) (element_successors g node)
    (lengths st, predecessor st);
  mret {| lengths := ls; predecessor := ps;
          best_end := if better then Some node else best_end st;
          best_length := if better then node_length else best_length st |}.

(** [while let Some(node) = cursor]. *)
Fixpoint walk_back {E} (fuel : nat) (g : G) (predecessor : list (option Id)) (path : list Id)
    (cursor : option Id) : res E (list Id) :=
  match fuel with
  | O => NoFuel
  | S fuel =>
      match cursor with
      | None => Ok path
      | Some node =>
          p ← vget predecessor (element_index g node);
          walk_back fuel g predecessor (path ++ [node]) p
      end
  end.

Definition longest_path_dag (fuel : nat) (g : G) (elements : list Id)
    : res LongestPathError (list Id) :=
  order ← map_err (λ _, LongestPathCycle) (topological_sort fuel g elements);
  if decide (order = []) then Ok [] else
  st ← for_each (relax_node g) order
    {| lengths := replicate (element_bound g) 0; predecessor := replicate (element_bound g) None;
       best_end := None; best_length := 0 |};
  path ← walk_back fuel g (predecessor st) [] (best_end st);
  Ok (reverse path).

End algo.
Arguments Relaxation Id : clear implicits.

(** ** [components.rs]: union-find over dense indexes *)

(** Path halving. *)
Fixpoint find {E} (fuel : nat) (parent : list nat) (cursor : nat) : res E (list nat * nat) :=
  match fuel with
  | O => NoFuel
  | S fuel =>
      p ← vget parent cursor;
      if decide (p = cursor) then Ok (parent, cursor) else
      grand ← vget parent p;
      parent ← vset parent cursor grand;
      next ← vget parent cursor;
      find fuel parent next
  end.

(** Union by rank; ranks are [u8], and the increment is checked. *)
Definition union {E} (fuel : nat) (parent : list nat) (rank : list Z) (left right : nat)
    : res E (list nat * list Z) :=
  '(parent, left_root) ← find fuel parent left;
  '(parent, right_root) ← find fuel parent right;
  if decide (left_root = right_root) then Ok (parent, rank) else
  rl ← vget rank left_root;
  rr ← vget rank right_root;
  match Z.compare rl rr with
  | Lt => parent ← vset parent left_root right_root; mret (parent, rank)
  | Gt => parent ← vset parent right_root left_root; mret (parent, rank)
  | Eq =>
      parent ← vset parent right_root left_root;
      r ← or_panic (checked_add u8_max rl 1);
      rank ← vset rank left_root r;
      mret (parent, rank)
  end.

Section components.
Context {G Id : Type} `{!EqDecision Id} `{!DenseElementIndex G Id} `{!ElementSuccessors G Id}.

Definition union_edge {E} (fuel : nat) (g : G) (member : list bool) (source : nat)
    (st : list nat * list Z) (successor : Id) : res E (list nat * list Z) :=
  let '(parent, rank) := st in
  let target := element_index g successor in
  inside ← is_member g member target;
  if (inside : bool) then union fuel parent rank source target else Ok (parent, rank).

(** [groups.entry(root).or_default().push(node)]: the [BTreeMap] keyed by root
    as an association list in ascending key order. *)
Fixpoint push_group (groups : list (nat * list Id)) (root : nat) (node : Id) : list (nat * list Id) :=
  match groups with
  | [] => [(root, [node])]
  | (k, members) :: groups =>
      if decide (root < k) then (root, [node]) :: (k, members) :: groups
      else if decide (root = k) then (k, members ++ [node]) :: groups
      else (k, members) :: push_group groups root node
  end.

Definition group_step {E} (fuel : nat) (g : G) (st : list nat * list (nat * list Id)) (node : Id)
    : res E (list nat * list (nat * list Id)) :=
  let '(parent, groups) := st in
  '(parent, root) ← find fuel parent (element_index g node);
  mret (parent, push_group groups root node).

Definition connected_components {E} (fuel : nat) (g : G) (elements : list Id)
    : res E (list (list Id)) :=
  '(member, nodes) ← collect_members g elements;
  '(parent, _) ← for_each (λ st node,
      for_each (union_edge fuel g member (element_index g node)) (element_successors g node) st)
    nodes (seq 0 (element_bound g), replicate (element_bound g) 0%Z);
  '(_, groups) ← for_each (group_step fuel g) nodes (parent, []);
  Ok (groups.*2).

End components.
