(* ===== verification/AlgoFacts.v ===== *)
(** * AlgoFacts: shortest paths and topological order

    [sssp.rs] is the layered search of [BfsSpec] on the induced subgraph;
    [toposort.rs] returns an order exactly when the induced subgraph has no
    cycle. *)

From stdpp Require Import base gmap sets list sorting.
From S2P Require Import Prelude Topology BfsSpec Bfs BfsFacts Algo.

Section facts.
Context {G Id : Type} `{!EqDecision Id} `{!DenseElementIndex G Id} `{!ContainsElement G Id}.
Context `{!ElementSuccessors G Id} `{!ElementPredecessors G Id}.
Context (g : G) `{!TopologyLaws (Id := Id) g}.

(** Edges whose target is also in the set. *)
Definition induced (nodes : list Id) (x : Id) : list Id :=
  filter (λ y, y ∈ nodes) (element_successors g x).

Lemma elem_of_induced nodes x y : y ∈ induced nodes x ↔ y ∈ nodes ∧ y ∈ element_successors g x.
Proof. unfold induced. by rewrite list_elem_of_filter. Qed.

Lemma marks_agree_ext {A} (marked : A → Prop) marks q q' :
  marks_agree g marked marks q → (∀ x, x ∈ q ↔ x ∈ q') → marks_agree g marked marks q'.
Proof.
  intros [Hl Hm] Hq. split; [done|]. intros x Hx. destruct (Hm x Hx) as (v & Hv & Hi).
  exists v. split; [done|]. by rewrite Hi.
Qed.

Lemma marks_agree_replicate : marks_agree g (λ v, v = true) (replicate (element_bound g) false) [].
Proof.
  split; [by rewrite length_replicate|]. intros x Hx. exists false. split.
  - apply lookup_replicate. split; [done|]. by apply index_bound.
  - split; [done|]. intros H. by apply not_elem_of_nil in H.
Qed.

(** *** Membership *)

Lemma mark_members_Ok {E} elements :
  Forall (visible g) elements →
  ∃ member, mark_members (E:=E) g elements = Ok member ∧ marks_agree g (λ v, v = true) member elements.
Proof.
  intros Hv. unfold mark_members. apply (for_each_inv (λ pre m, marks_agree g (λ v, v = true) m pre));
    [apply marks_agree_replicate|].
  intros pre x post m Heq Hm. assert (visible g x) as Hx.
  { rewrite Forall_forall in Hv. apply Hv. rewrite Heq. set_solver. }
  pose proof (index_bound x Hx). cbv zeta. rewrite decide_True by done.
  destruct Hm as [Hl Hm]. rewrite vset_lt by lia. eexists. split; [done|].
  by apply (marks_agree_insert g (λ v, v = true)).
Qed.

Lemma collect_members_Ok {E} elements :
  Forall (visible g) elements →
  ∃ member nodes, collect_members (E:=E) g elements = Ok (member, nodes) ∧
    marks_agree g (λ v, v = true) member nodes ∧ NoDup nodes ∧ (∀ x, x ∈ nodes ↔ x ∈ elements) ∧
    nodes `sublist_of` elements.
Proof.
  intros Hv. unfold collect_members.
  destruct (for_each_inv (E:=E) (λ pre st, marks_agree g (λ v, v = true) st.1 st.2 ∧ NoDup st.2 ∧
      (∀ x, x ∈ st.2 ↔ x ∈ pre) ∧ st.2 `sublist_of` pre)
      (collect_step g) elements (replicate (element_bound g) false, []))
    as ([member nodes] & Hrun & Hm & Hnd & Hel & Hsub).
  - split_and!; [apply marks_agree_replicate|constructor|done|done].
  - intros pre x post [m ns] Heq (Hm & Hnd & Hel & Hsub). cbn [fst snd] in *. assert (visible g x) as Hx.
    { rewrite Forall_forall in Hv. apply Hv. rewrite Heq. set_solver. }
    pose proof (index_bound x Hx). unfold collect_step. cbv zeta. rewrite decide_True by done.
    destruct (marks_agree_lookup g _ _ _ _ Hm Hx) as (v & Hl & Hiff).
    unfold vget. rewrite Hl. cbn [or_panic mbind res_bind]. destruct v.
    + eexists. split; [done|]. cbn [fst snd]. split_and!; [done|done| |by apply sublist_inserts_r].
      intros y. rewrite Hel. assert (x ∈ ns) by tauto. rewrite elem_of_app, list_elem_of_singleton.
      split; [by left|]. intros [?| ->]; [done|]. by apply Hel.
    + assert (x ∉ ns) as Hn by (intros Hin; by apply Hiff in Hin).
      destruct Hm as [Hlen Hm]. rewrite vset_lt by lia. cbn [mbind res_bind mret res_ret].
      eexists. split; [done|]. cbn [fst snd]. split_and!.
      * by apply (marks_agree_insert g (λ v, v = true)).
      * by apply NoDup_snoc.
      * intros y. rewrite !elem_of_app, Hel. done.
      * by apply sublist_app.
  - exists member, nodes. done.
Qed.

Lemma is_member_Ok {E} member nodes x :
  marks_agree g (λ v, v = true) member nodes → visible g x →
  is_member (E:=E) g member (element_index g x) = Ok (bool_decide (x ∈ nodes)).
Proof.
  intros Hm Hx. pose proof (index_bound x Hx). unfold is_member. rewrite decide_True by done.
  destruct (marks_agree_lookup g _ _ _ _ Hm Hx) as (v & Hl & Hiff). unfold vget. rewrite Hl.
  cbn [or_panic]. f_equal. destruct v; symmetry; [apply bool_decide_eq_true|apply bool_decide_eq_false];
    [by apply Hiff|]. intros Hin. by apply Hiff in Hin.
Qed.

(** *** Arrays over dense indexes *)

(** [arr] holds [f x] at the index of every [x] in [P]. *)
Definition tabulates {A} (P : Id → Prop) (arr : list A) (f : Id → A) : Prop :=
  length arr = element_bound g ∧ ∀ x, P x → arr !! element_index g x = Some (f x).

Lemma tabulates_ext {A} (P : Id → Prop) (arr : list A) f f' :
  tabulates P arr f → (∀ x, P x → f x = f' x) → tabulates P arr f'.
Proof. intros [Hl Hc] Hf. split; [done|]. intros x Hx. rewrite <-Hf by done. by apply Hc. Qed.

Lemma tabulates_vget {E A} (P : Id → Prop) (arr : list A) f x :
  tabulates P arr f → P x → vget (E:=E) arr (element_index g x) = Ok (f x).
Proof. intros [_ Hc] Hx. apply vget_Ok. by apply Hc. Qed.

Lemma tabulates_vset {E A} (P : Id → Prop) (arr : list A) f x v :
  (∀ x, P x → visible g x) → tabulates P arr f → P x →
  ∃ arr', vset (E:=E) arr (element_index g x) v = Ok arr' ∧
    tabulates P arr' (λ y, if decide (y = x) then v else f y).
Proof.
  intros HP [Hl Hc] Hx. pose proof (index_bound x (HP x Hx)) as Hb.
  eexists. split; [apply vset_lt; lia|]. split; [by rewrite length_insert|].
  intros y Hy. case_decide as Hxy; [subst y; apply list_lookup_insert_eq; lia|].
  rewrite list_lookup_insert_ne; [by apply Hc|]. intros He. apply Hxy. symmetry.
  by apply (index_inj (g:=g)); [apply HP..|].
Qed.

Lemma tabulates_replicate {A} (P : Id → Prop) (v : A) :
  (∀ x, P x → visible g x) → tabulates P (replicate (element_bound g) v) (λ _, v).
Proof.
  intros HP. split; [apply length_replicate|]. intros x Hx. apply lookup_replicate.
  split; [done|]. by apply index_bound, HP.
Qed.

(** ** Shortest paths *)

Section sssp.
Context (elements : list Id) (source : Id).
Hypothesis Helements : Forall (visible g) elements.
Hypothesis Hsource : source ∈ elements.
Hypothesis Hbound : (Z.of_nat (element_bound g) ≤ u64_max)%Z.

Definition with_distance (p : Id * nat) : Id * Z := (p.1, Z.of_nat p.2).

Lemma elements_visible x : x ∈ elements → visible g x.
Proof. rewrite Forall_forall in Helements. apply Helements. Qed.

Definition sssp_order : list (Id * nat) :=
  layers (induced elements) always (S (element_bound g)) [(source, 0)] 0.

Lemma discovered_element q h x d :
  LayersInv (induced elements) always [source] q h → (x, d) ∈ q → x ∈ elements.
Proof.
  intros Hinv Hx. destruct (li_sound _ _ _ _ _ Hinv x d Hx) as (s & ->%list_elem_of_singleton & Hw).
  eapply (walk_preserves _ (λ x, x ∈ elements)); [|exact Hsource|exact Hw].
  intros a c _ Hc. by apply elem_of_induced in Hc as [? _].
Qed.

Lemma distinct_elements (l : list Id) : NoDup l → (∀ x, x ∈ l → x ∈ elements) → length l ≤ element_bound g.
Proof.
  intros Hnd Hl. apply visible_length; [done|done|]. apply Forall_forall. intros x Hx.
  by apply elements_visible, Hl.
Qed.

Lemma sssp_inv q h : LayersInv (induced elements) always [source] q h → length q ≤ element_bound g.
Proof.
  intros Hinv. rewrite <-(length_fmap fst). apply distinct_elements; [apply Hinv|].
  intros x ([y d] & -> & Hx)%list_elem_of_fmap. by eapply discovered_element.
Qed.

Lemma sssp_order_inv : LayersInv (induced elements) always [source] sssp_order (length sssp_order).
Proof.
  apply (layers_finishes _ _ _ _ _ _ (element_bound g)); [apply (seed_queue_inv _ _ [source])| |lia].
  intros l Hnd Hl. apply distinct_elements; [done|]. intros x Hx.
  destruct (Hl x Hx) as (s & ->%list_elem_of_singleton & n & Hw).
  eapply (walk_preserves _ (λ x, x ∈ elements)); [|exact Hsource|exact Hw].
  intros a c _ Hc. by apply elem_of_induced in Hc as [? _].
Qed.

(** One relaxation visits the successor when it is in the set. *)
Lemma sssp_relax_Ok {E} member visited (q : list (Id * nat)) h y d :
  marks_agree g (λ v, v = true) member elements → marks_agree g (λ v, v = true) visited q.*1 →
  visible g y → (Z.of_nat d < u64_max)%Z → h ≤ length q →
  let q' := if decide (y ∈ elements) then visit (S d) q y else q in
  ∃ visited',
    sssp_relax (E:=E) g member (Z.of_nat d) (visited, with_distance <$> drop h q) y =
      Ok (visited', with_distance <$> drop h q') ∧
    marks_agree g (λ v, v = true) visited' q'.*1 ∧ h ≤ length q'.
Proof.
  intros Hm Hvis Hy Hd Hh. unfold sssp_relax. cbv zeta. rewrite (is_member_Ok _ _ _ Hm Hy).
  cbn [mbind res_bind]. case_bool_decide as Hin; [rewrite decide_True by done|
    rewrite decide_False by done; by exists visited].
  destruct (marks_agree_lookup g _ _ _ _ Hvis Hy) as (v & Hlk & Hiff).
  unfold vget. rewrite Hlk. cbn [or_panic mbind res_bind]. unfold visit. destruct v; cbn [negb].
  - rewrite decide_True by by apply Hiff. by exists visited.
  - rewrite decide_False by (intros Hy'; by apply Hiff in Hy').
    pose proof (index_bound y Hy). destruct Hvis as [Hvl Hvm]. rewrite vset_lt by lia. cbn [mbind res_bind].
    rewrite (checked_add_fits u64_max (Z.of_nat d) 1) by lia. cbn [or_panic mbind res_bind mret res_ret].
    eexists. split_and!.
    + rewrite drop_app_le, fmap_app by done.
      by replace (Z.of_nat d + 1)%Z with (Z.of_nat (S d)) by lia.
    + rewrite fmap_app. by apply (marks_agree_insert g (λ v, v = true)).
    + rewrite length_app. lia.
Qed.

(** The relaxations of one node are the visits of its induced successors. *)
Lemma sssp_relax_all {E} member visited (q : list (Id * nat)) h l d :
  marks_agree g (λ v, v = true) member elements → marks_agree g (λ v, v = true) visited q.*1 →
  Forall (visible g) l → (Z.of_nat d < u64_max)%Z → h ≤ length q →
  ∃ visited',
    for_each (E:=E) (sssp_relax g member (Z.of_nat d)) l (visited, with_distance <$> drop h q) =
      Ok (visited', with_distance <$> drop h (foldl (visit (S d)) q (filter (λ y, y ∈ elements) l))) ∧
    marks_agree g (λ v, v = true) visited'
      (foldl (visit (S d)) q (filter (λ y, y ∈ elements) l)).*1.
Proof.
  intros Hm Hvis Hl Hd Hh. revert visited q Hvis Hh. induction Hl as [|y l Hy Hl IH]; intros visited q Hvis Hh.
  { by exists visited. }
  cbn [for_each]. destruct (sssp_relax_Ok (E:=E) member visited q h y d Hm Hvis Hy Hd Hh)
    as (vis1 & -> & Hvis1 & Hh1). cbn [mbind res_bind].
  destruct (decide (y ∈ elements)); [rewrite filter_cons_True by done|rewrite filter_cons_False by done];
    by apply IH.
Qed.

Lemma sssp_loop_Ok {E} fuel member visited q h :
  LayersInv (induced elements) always [source] q h →
  marks_agree g (λ v, v = true) member elements → marks_agree g (λ v, v = true) visited q.*1 →
  length (layers (induced elements) always fuel q h) ≤ h + fuel →
  sssp_loop (E:=E) (S fuel) g member visited (with_distance <$> take h q) (with_distance <$> drop h q) =
    Ok (with_distance <$> layers (induced elements) always fuel q h).
Proof.
  intros Hinv Hm. revert visited q h Hinv. induction fuel as [|fuel IH]; intros visited q h Hinv Hvis Hlen;
    cbn [layers] in Hlen |- *.
  - rewrite drop_ge, take_ge by lia. done.
  - destruct (q !! h) as [[x d]|] eqn:Hx.
    2:{ apply lookup_ge_None in Hx. by rewrite drop_ge, take_ge by lia. }
    rewrite (drop_S _ _ _ Hx). cbn [fmap list_fmap].
    change (sssp_loop (S (S fuel)) g member visited (with_distance <$> take h q)
      (with_distance (x, d) :: (with_distance <$> drop (S h) q))) with
      ('(visited, queue) ← for_each (E:=E) (sssp_relax g member (Z.of_nat d)) (element_successors g x)
         (visited, with_distance <$> drop (S h) q);
       sssp_loop (S fuel) g member visited ((with_distance <$> take h q) ++ [with_distance (x, d)]) queue).
    assert ((x, d) ∈ q) as Hxin by by eapply list_elem_of_lookup_2.
    pose proof (elements_visible _ (discovered_element q h x d Hinv Hxin)) as Hvx.
    pose proof (lookup_lt_Some _ _ _ Hx) as Hlt. pose proof (sssp_inv q h Hinv).
    pose proof (li_small _ _ _ _ _ Hinv h x d Hx).
    destruct (sssp_relax_all (E:=E) member visited q (S h) (element_successors g x) d Hm Hvis)
      as (vis' & -> & Hm'); [apply Forall_forall; intros y; by apply successors_contained|lia|lia|].
    cbn [mbind res_bind]. fold (induced elements x) in *.
    change (foldl (visit (S d)) q (induced elements x)) with (expand_at (induced elements) always q x d) in *.
    destruct (expand_at_prefix (induced elements) always q x d) as [new Hnew].
    rewrite <-(IH vis' _ (S h) (layers_step_inv _ _ _ _ _ _ _ Hinv Hx) Hm' ltac:(lia)).
    f_equal. rewrite Hnew, take_app_le by lia. by rewrite (take_S_r _ _ _ Hx), fmap_app.
Qed.

End sssp.

Lemma shortest_path_lengths_Ok {E} fuel source elements :
  Forall (visible g) elements → source ∈ elements → (Z.of_nat (element_bound g) ≤ u64_max)%Z →
  element_bound g + 2 ≤ fuel →
  shortest_path_lengths (E:=E) fuel g source elements =
    Ok (with_distance <$> sssp_order elements source).
Proof.
  intros Hv Hs Hb Hf. destruct (mark_members_Ok (E:=E) elements Hv) as (member & Hmm & Hm).
  unfold shortest_path_lengths. rewrite Hmm. cbn [mbind res_bind].
  pose proof (elements_visible elements Hv source Hs) as Hvs. cbv zeta.
  rewrite (is_member_Ok _ _ _ Hm Hvs). cbn [mbind res_bind]. rewrite bool_decide_true by done. cbn [negb].
  pose proof (index_bound source Hvs). rewrite vset_lt by by rewrite length_replicate.
  cbn [mbind res_bind]. destruct fuel as [|fuel]; [lia|].
  pose proof (sssp_inv elements source Hv Hs _ _ (sssp_order_inv elements source Hv Hs)) as Hlen.
  assert (layers (induced elements) always fuel [(source, 0)] 0 = sssp_order elements source) as Hsame.
  { replace fuel with (S (element_bound g) + (fuel - S (element_bound g))) by lia.
    apply layers_more_fuel. fold (sssp_order elements source). lia. }
  rewrite <-Hsame. apply (sssp_loop_Ok elements source Hv Hs Hb fuel member _ [(source, 0)] 0); [|done| |].
  - apply (seed_queue_inv _ _ [source]).
  - apply (marks_agree_insert g (λ v, v = true) _ []); [apply marks_agree_replicate|done|done].
  - rewrite Hsame. lia.
Qed.

(** [shortest_path_lengths] over visible elements never panics and returns:
    nothing when the source is not requested, otherwise exactly the elements
    reachable inside the set, each once, with its exact hop distance, in
    non-decreasing distance order. *)
Theorem shortest_path_lengths_correct {E} fuel source elements :
  Forall (visible g) elements → visible g source → (Z.of_nat (element_bound g) ≤ u64_max)%Z →
  element_bound g + 2 ≤ fuel →
  ∃ result, shortest_path_lengths (E:=E) fuel g source elements = Ok result ∧
    (source ∉ elements → result = []) ∧
    (source ∈ elements →
      NoDup result.*1 ∧
      (∀ x (d : nat), (x, Z.of_nat d) ∈ result ↔ distance (induced elements) [source] x d) ∧
      (∀ x z, (x, z) ∈ result → (0 ≤ z)%Z) ∧
      (∀ i j x y d e, i < j → result !! i = Some (x, d) → result !! j = Some (y, e) → (d ≤ e)%Z)).
Proof.
  intros Hv Hvs Hb Hf. destruct (decide (source ∈ elements)) as [Hs|Hs].
  - exists (with_distance <$> sssp_order elements source).
    split; [by apply shortest_path_lengths_Ok|]. split; [done|]. intros _.
    pose proof (sssp_order_inv elements source Hv Hs) as Hinv. split_and!.
    + rewrite <-list_fmap_compose. apply Hinv.
    + intros x d. pose proof (layers_distance _ _ always_down _ _ x d Hinv) as Hd.
      rewrite list_elem_of_fmap. split.
      * intros ([y e] & [= -> He] & Hy). apply Hd. by replace d with e by lia.
      * intros Hx. exists (x, d). split; [done|]. by apply Hd.
    + intros x z ([y e] & [= -> ->] & _)%list_elem_of_fmap. lia.
    + intros i j x y d e Hij ([x' d'] & [= -> ->] & Hi)%list_lookup_fmap_Some
        ([y' e'] & [= -> ->] & Hj)%list_lookup_fmap_Some.
      pose proof (li_sorted _ _ _ _ _ Hinv i j _ _ _ _ Hij Hi Hj). cbn [fst snd]. lia.
  - exists []. split; [|by split]. unfold shortest_path_lengths.
    destruct (mark_members_Ok (E:=E) elements Hv) as (member & -> & Hm). cbn [mbind res_bind]. cbv zeta.
    rewrite (is_member_Ok _ _ _ Hm Hvs). cbn [mbind res_bind]. by rewrite bool_decide_false.
Qed.

End facts.

(** On [demo_graph], from 2 inside {1, 2, 3}: the edges through 0 are ignored. *)
Lemma shortest_path_lengths_correct_witness :
  ∃ result, shortest_path_lengths (E:=()) 7 demo_graph 2 [2; 1; 3; 2] = Ok result ∧
    result = [(2, 0%Z); (3, 1%Z); (1, 2%Z)] ∧
    ((1, 2%Z) ∈ result ↔ distance (induced demo_graph [2; 1; 3; 2]) [2] 1 2).
Proof.
  destruct (shortest_path_lengths_correct (E:=()) demo_graph (TopologyLaws0 := demo_graph_laws) 7 2 [2; 1; 3; 2])
    as (result & Hr & _ & Hin); [repeat constructor|done|by vm_compute|cbn; lia|].
  exists result. split; [done|]. vm_compute in Hr. apply Ok_inj in Hr. split; [by rewrite <-Hr|].
  destruct (Hin ltac:(set_solver)) as (_ & Hd & _). exact (Hd 1 2).
Defined.
