(* ===== verification/ToposortFacts.v ===== *)
(** * ToposortFacts: topological order

    [topological_sort] returns an order of the induced subgraph when it has
    one and reports a cycle exactly when there is one; no decrement of an
    in-degree underflows. The in-degree array is related to the multiset of
    edge targets that are still to be removed.

    The relaxation pass over a topological order computes, for every element,
    the length of a longest chain that ends there and an element before it on
    such a chain; the walk back returns a longest chain. *)

From stdpp Require Import base gmap sets list sorting.
From S2P Require Import Prelude Topology BfsSpec Bfs BfsFacts Algo AlgoFacts.

(** ** Occurrences *)

Section occ.
Context {A : Type} `{!EqDecision A}.

Definition occ (y : A) (l : list A) : nat := length (filter (λ z, z = y) l).

Lemma occ_nil y : occ y [] = 0.
Proof. done. Qed.

Lemma occ_cons y z l : occ y (z :: l) = (if decide (z = y) then 1 else 0) + occ y l.
Proof. unfold occ. rewrite filter_cons. by case_decide. Qed.

Lemma occ_app y l k : occ y (l ++ k) = occ y l + occ y k.
Proof. unfold occ. by rewrite filter_app, length_app. Qed.

Lemma occ_zero y l : occ y l = 0 ↔ y ∉ l.
Proof.
  unfold occ. rewrite length_zero_iff_nil. split.
  - intros Hf Hy. assert (y ∈ filter (λ z, z = y) l) as Hin by by apply list_elem_of_filter.
    rewrite Hf in Hin. by apply not_elem_of_nil in Hin.
  - intros Hy. destruct (filter _ l) as [|z k] eqn:Hf; [done|].
    assert (z ∈ filter (λ z, z = y) l) as [-> Hin]%list_elem_of_filter by (rewrite Hf; by left).
    done.
Qed.

Lemma occ_perm y l k : l ≡ₚ k → occ y l = occ y k.
Proof. intros Hp. unfold occ. by rewrite Hp. Qed.

End occ.

Section toposort.
Context {G Id : Type} `{!EqDecision Id} `{!DenseElementIndex G Id} `{!ContainsElement G Id}.
Context `{!ElementSuccessors G Id} `{!ElementPredecessors G Id}.
Context (g : G) `{!TopologyLaws (Id := Id) g}.
Context (nodes : list Id) (member : list bool).
Hypothesis Hnodes : Forall (visible g) nodes.
Hypothesis Hnd : NoDup nodes.
Hypothesis Hmember : marks_agree g (λ v, v = true) member nodes.

Definition targets (l : list Id) : list Id := l ≫= induced g nodes.

Lemma node_visible x : x ∈ nodes → visible g x.
Proof using All. rewrite Forall_forall in Hnodes. apply Hnodes. Qed.

Lemma nodes_bound : length nodes ≤ element_bound g.
Proof using All. by apply visible_length. Qed.

Lemma successor_visible x y : x ∈ nodes → y ∈ element_successors g x → visible g y.
Proof using All. intros Hx. apply successors_contained. by apply node_visible. Qed.

Lemma elem_of_targets l y : y ∈ targets l ↔ ∃ x, y ∈ induced g nodes x ∧ x ∈ l.
Proof. unfold targets. apply list_elem_of_bind. Qed.

(** ** The in-degree array *)

(** [degrees] holds [f x] at every node. *)
Abbreviation counts := (tabulates g (λ x, x ∈ nodes)).

(** One edge. *)
Lemma count_edge_Ok {E} degrees f y :
  counts degrees f → visible g y →
  ∃ degrees', count_edge (E:=E) g member degrees y = Ok degrees' ∧
    counts degrees' (λ z, f z + occ z (filter (λ y, y ∈ nodes) [y])).
Proof using All.
  intros Hc Hy. unfold count_edge. cbv zeta. rewrite (is_member_Ok _ _ _ _ Hmember Hy).
  cbn [mbind res_bind]. rewrite filter_cons, filter_nil. case_bool_decide as Hin.
  - rewrite decide_True by done. rewrite (tabulates_vget g _ _ _ _ Hc Hin). cbn [mbind res_bind].
    destruct (tabulates_vset (E:=E) g _ degrees f y (S (f y)) node_visible Hc Hin) as (d & -> & Hd).
    exists d. split; [done|]. eapply tabulates_ext; [exact Hd|]. intros z _. cbn beta.
    rewrite occ_cons, occ_nil. repeat case_decide; subst; try done; lia.
  - rewrite decide_False by done. exists degrees. split; [done|].
    eapply tabulates_ext; [exact Hc|]. intros z _. cbn. lia.
Qed.

Lemma count_indegrees_Ok {E} :
  ∃ degrees, count_indegrees (E:=E) g member nodes = Ok degrees ∧
    counts degrees (λ y, occ y (targets nodes)).
Proof using All.
  unfold count_indegrees. apply (for_each_inv (λ pre d, counts d (λ y, occ y (targets pre)))).
  { apply (tabulates_replicate g (λ x, x ∈ nodes) 0), node_visible. }
  intros pre x post d Heq Hd. assert (x ∈ nodes) as Hx by (rewrite Heq; set_solver).
  destruct (for_each_inv (E:=E) (λ pre2 d, counts d (λ y, occ y (targets pre) +
      occ y (filter (λ y, y ∈ nodes) pre2))) (count_edge g member) (element_successors g x) d)
    as (d' & Hrun & Hd').
  - eapply tabulates_ext; [exact Hd|]. intros y _. cbn. lia.
  - intros pre2 y post2 d2 Heq2 Hd2.
    destruct (count_edge_Ok (E:=E) d2 _ y Hd2) as (d3 & Hr & Hd3).
    { apply (successor_visible x); [done|]. rewrite Heq2. set_solver. }
    exists d3. split; [done|]. eapply tabulates_ext; [exact Hd3|]. intros z _. cbn beta.
    rewrite (filter_app _ pre2), occ_app. lia.
  - exists d'. split; [done|]. eapply tabulates_ext; [exact Hd'|]. intros y _. cbn beta.
    unfold targets. rewrite bind_app, occ_app. cbn. by rewrite app_nil_r.
Qed.

(** ** The queue *)

(** [l] lists the nodes whose count is zero. *)
Definition ready (f : Id → nat) (l : list Id) : Prop :=
  NoDup l ∧ ∀ x, x ∈ l ↔ x ∈ nodes ∧ f x = 0.

Lemma seed_sources_Ok {E} degrees f :
  counts degrees f → ∃ queue, seed_sources (E:=E) g degrees nodes = Ok queue ∧ ready f queue.
Proof using All.
  intros Hc. unfold seed_sources.
  destruct (for_each_inv (E:=E) (λ pre q, NoDup q ∧ ∀ x, x ∈ q ↔ x ∈ pre ∧ f x = 0)
    (λ queue node, d ← vget degrees (element_index g node);
      Ok (if decide (d = 0) then queue ++ [node] else queue)) nodes []) as (q & Hq & Hr).
  - split; [constructor|]. intros x. split; [by intros ?%not_elem_of_nil|by intros [?%not_elem_of_nil _]].
  - intros pre x post q Heq [Hndq Hq]. assert (x ∈ nodes) as Hx by (rewrite Heq; set_solver).
    rewrite (tabulates_vget g _ _ _ _ Hc Hx). cbn [mbind res_bind]. eexists. split; [done|].
    assert (x ∉ pre) as Hpre.
    { rewrite Heq in Hnd. apply NoDup_app in Hnd as (_ & Hdis & _). intros Hin.
      apply (Hdis x Hin). by left. }
    case_decide as Hz.
    + split; [apply NoDup_snoc; [done|]; by intros [? _]%Hq|].
      intros y. rewrite !elem_of_app, Hq, !list_elem_of_singleton. naive_solver.
    + split; [done|]. intros y. rewrite elem_of_app, Hq, list_elem_of_singleton. naive_solver.
  - exists q. by split.
Qed.

(** Removing the edges of one node keeps the queue the ready nodes. *)
Lemma remove_edges_Ok {E} node degrees order queue f rest :
  node ∈ nodes → counts degrees (λ y, occ y (induced g nodes node) + occ y rest) →
  (∀ y, f y = occ y (induced g nodes node) + occ y rest) → ready f (order ++ queue) →
  ∃ degrees' new,
    for_each (E:=E) (remove_edge g member) (element_successors g node) (degrees, queue) =
      Ok (degrees', queue ++ new) ∧
    counts degrees' (λ y, occ y rest) ∧ ready (λ y, occ y rest) (order ++ queue ++ new).
Proof using All.
  intros Hnode Hc Hf Hr.
  destruct (for_each_inv (E:=E) (λ pre st, ∃ new f', st.2 = queue ++ new ∧ counts st.1 f' ∧
      (∀ y, f' y + occ y (filter (λ y, y ∈ nodes) pre) = occ y (induced g nodes node) + occ y rest) ∧
      ready f' (order ++ queue ++ new))
    (remove_edge g member) (element_successors g node) (degrees, queue))
    as ([d q] & Hrun & new & f' & Hq & Hd & Hf' & Hr').
  - exists [], f. cbn [fst snd]. rewrite app_nil_r. split_and!; [done| | |done].
    + eapply tabulates_ext; [exact Hc|]. intros y _. by rewrite Hf.
    + intros y. rewrite filter_nil, Hf. cbn. lia.
  - intros pre y post [d q] Heq (new & f' & Hq & Hd & Hf' & Hrd). cbn [fst snd] in *. subst q.
    assert (visible g y) as Hvy by (apply (successor_visible node); [done|]; rewrite Heq; set_solver).
    unfold remove_edge. cbv zeta. rewrite (is_member_Ok _ _ _ _ Hmember Hvy). cbn [mbind res_bind].
    case_bool_decide as Hy; cbn [negb].
    2:{ eexists. split; [done|]. exists new, f'. cbn [fst snd]. split_and!; [done..| |done].
        intros z. rewrite <-(Hf' z), filter_app, filter_cons, filter_nil, decide_False by done.
        by rewrite app_nil_r. }
    rewrite (tabulates_vget g _ _ _ _ Hd Hy). cbn [mbind res_bind].
    assert (1 ≤ f' y) as Hpos.
    { pose proof (Hf' y) as Hfy. unfold induced in Hfy.
      rewrite Heq, (filter_app _ pre), filter_cons_True, occ_app, occ_cons in Hfy by done.
      destruct (decide (y = y)); [lia|done]. }
    destruct (f' y) as [|n] eqn:Hn; [lia|].
    destruct (tabulates_vset (E:=E) g _ d f' y n node_visible Hd Hy) as (d' & -> & Hd'). cbn [mbind res_bind mret res_ret].
    set (f2 := λ z, if decide (z = y) then n else f' z) in *.
    assert (∀ z, f2 z + occ z (filter (λ y, y ∈ nodes) (pre ++ [y])) =
      occ z (induced g nodes node) + occ z rest) as Hf2.
    { intros z. rewrite <-(Hf' z), filter_app, filter_cons_True, filter_nil, occ_app, occ_cons by done.
      rewrite occ_nil. unfold f2. repeat case_decide; subst; try done; lia. }
    assert (y ∉ order ++ queue ++ new) as Hfresh by (intros [_ ?]%Hrd; lia).
    eexists. split; [done|]. destruct (decide (n = 0)) as [->|Hn0].
    + exists (new ++ [y]), f2. cbn [fst snd]. split_and!; [by rewrite app_assoc|done|done|].
      replace (order ++ queue ++ new ++ [y]) with ((order ++ queue ++ new) ++ [y])
        by by rewrite <-!app_assoc.
      split; [apply NoDup_snoc; [apply Hrd|done]|].
      intros z. rewrite elem_of_app, list_elem_of_singleton. rewrite (proj2 Hrd). unfold f2.
      case_decide; naive_solver.
    + exists new, f2. cbn [fst snd]. split_and!; [done|done|done|]. split; [apply Hrd|].
      intros z. rewrite (proj2 Hrd). unfold f2. case_decide; naive_solver lia.
  - cbn [fst snd] in *. subst q. exists d, new. split; [done|].
    assert (∀ y, f' y = occ y rest) as Hfe by (intros y; pose proof (Hf' y); unfold induced in *; lia).
    split; [by eapply tabulates_ext|]. split; [apply Hr'|]. intros x. by rewrite (proj2 Hr'), Hfe.
Qed.

(** ** The loop *)

(** [order] is emitted, [queue] ready, [pending] not emitted. *)
Record Kahn (order queue pending : list Id) : Prop := {
  kahn_perm : nodes ≡ₚ order ++ pending;
  kahn_ready : ready (λ y, occ y (targets pending)) (order ++ queue);
  kahn_forward : ∀ j y x, (order ++ queue) !! j = Some y → x ∈ nodes → y ∈ induced g nodes x →
    x ∈ take j (order ++ queue)
}.

Lemma kahn_pop order node queue pending :
  Kahn order (node :: queue) pending →
  ∃ pending', pending ≡ₚ node :: pending' ∧ node ∈ nodes ∧ nodes ≡ₚ (order ++ [node]) ++ pending'.
Proof.
  intros [Hp [Hndq Hr] _]. assert (node ∈ nodes) as Hn by (apply Hr; set_solver).
  assert (node ∈ pending) as Hpend.
  { rewrite Hp, elem_of_app in Hn. destruct Hn as [Hn|]; [|done].
    apply NoDup_app in Hndq as (_ & Hdis & _). exfalso. apply (Hdis node Hn). by left. }
  apply elem_of_Permutation in Hpend as (pending' & Hpp). exists pending'. split_and!; [done|done|].
  etrans; [exact Hp|]. rewrite <-app_assoc. by apply Permutation_app_head.
Qed.

Lemma toposort_loop_Ok {E} fuel degrees order queue pending :
  Kahn order queue pending → counts degrees (λ y, occ y (targets pending)) → length pending < fuel →
  ∃ result pending', toposort_loop (E:=E) fuel g member degrees order queue = Ok result ∧
    Kahn result [] pending'.
Proof using All.
  revert degrees order queue pending. induction fuel as [|fuel IH]; intros degrees order queue pending HK Hc Hf; [lia|].
  cbn [toposort_loop]. destruct queue as [|node queue]; [by exists order, pending|].
  destruct (kahn_pop _ _ _ _ HK) as (pending' & Hpp & Hnode & Hperm).
  assert (∀ y, occ y (targets pending) = occ y (induced g nodes node) + occ y (targets pending')) as Hocc.
  { intros y. rewrite <-occ_app. apply occ_perm. unfold targets. by rewrite Hpp. }
  destruct (remove_edges_Ok (E:=E) node degrees (order ++ [node]) queue (λ y, occ y (targets pending))
    (targets pending') Hnode) as (d' & new & -> & Hd' & Hr').
  { eapply tabulates_ext; [exact Hc|]. intros y _. apply Hocc. }
  { apply Hocc. }
  { rewrite <-app_assoc. apply HK. }
  cbn [mbind res_bind]. apply (IH d' _ _ pending'); [|done|].
  - split; [done|done|]. intros j y x Hj Hx Hxy.
    destruct (decide (j < length (order ++ node :: queue))) as [Hlt|Hge].
    + replace ((order ++ [node]) ++ queue ++ new) with ((order ++ node :: queue) ++ new) in *
        by by rewrite <-!app_assoc.
      rewrite lookup_app_l in Hj by done. rewrite take_app_le by lia. by apply (kahn_forward _ _ _ HK j y x).
    + apply list_elem_of_lookup_2 in Hj as Hy. apply Hr' in Hy as [_ Hz]. apply occ_zero in Hz.
      assert (x ∈ order ++ [node]) as Hxo.
      { rewrite Hperm, elem_of_app in Hx. destruct Hx as [?|Hx]; [done|]. exfalso. apply Hz.
        apply elem_of_targets. by exists x. }
      rewrite length_app in Hge. cbn in Hge. rewrite take_app_ge by (rewrite length_app; cbn; lia).
      apply elem_of_app. by left.
  - rewrite Hpp in Hf. cbn in Hf. lia.
Qed.

(** ** Forward orders and cycles *)

(** Every edge of the induced subgraph goes forward in [order]. *)
Definition forward (order : list Id) : Prop :=
  ∀ x y, x ∈ nodes → y ∈ induced g nodes x →
    ∃ i j, i < j ∧ order !! i = Some x ∧ order !! j = Some y.

Lemma forward_walk order x n z :
  NoDup order → forward order → x ∈ nodes → walk (induced g nodes) x (S n) z →
  ∃ i j, i < j ∧ order !! i = Some x ∧ order !! j = Some z.
Proof using Type.
  clear Hnodes Hnd Hmember member TopologyLaws0.
  intros Hndo Hfw Hx. revert z. induction n as [|n IH]; intros z (y & Hw & Hz)%walk_S_inv.
  - apply walk_0_inv in Hw as ->. by apply Hfw.
  - destruct (IH y Hw) as (i & j & Hij & Hi & Hj).
    assert (y ∈ nodes) as Hy.
    { apply walk_S_inv in Hw as (w & _ & Hyw). by apply elem_of_induced in Hyw as [? _]. }
    destruct (Hfw y z Hy Hz) as (j' & k & Hjk & Hj' & Hk).
    rewrite (NoDup_lookup _ _ _ _ Hndo Hj Hj') in Hij. exists i, k. split; [lia|done].
Qed.

Lemma forward_acyclic order : NoDup order → forward order → ¬ cyclic (induced g nodes) nodes.
Proof using Type.
  clear Hnodes Hnd Hmember member TopologyLaws0.
  intros Hndo Hfw (x & n & Hx & Hw). destruct (forward_walk order x n x Hndo Hfw Hx Hw) as (i & j & Hij & Hi & Hj).
  rewrite (NoDup_lookup _ _ _ _ Hndo Hi Hj) in Hij. lia.
Qed.

(** A finished run either emitted every node, in a forward order, or stopped in
    front of a cycle. *)
Lemma kahn_finished order pending :
  Kahn order [] pending →
  (length order = length nodes ∧ NoDup order ∧ (∀ x, x ∈ order ↔ x ∈ nodes) ∧ forward order) ∨
  (length order ≠ length nodes ∧ cyclic (induced g nodes) nodes).
Proof using All.
  intros [Hp [Hndo Hr] Hfw]. rewrite app_nil_r in *. destruct pending as [|y0 pending].
  - left. rewrite app_nil_r in Hp. split_and!; [by rewrite Hp|done|intros x; by rewrite Hp|].
    intros x y Hx Hxy. assert (y ∈ order) as [j Hj]%list_elem_of_lookup.
    { rewrite <-Hp. by apply elem_of_induced in Hxy as [? _]. }
    pose proof (Hfw j y x Hj Hx Hxy) as [i Hi]%list_elem_of_lookup.
    apply lookup_take_Some in Hi as [Hi Hij]. by exists i, j.
  - right. split; [rewrite Hp, length_app; cbn; lia|].
    destruct (backward_cycle (induced g nodes) (y0 :: pending) y0) as (x & n & Hx & Hw); [by left| |].
    + intros y Hy. assert (y ∈ nodes) as Hyn by (rewrite Hp, elem_of_app; by right).
      destruct (decide (occ y (targets (y0 :: pending)) = 0)) as [Hz|Hz].
      * assert (y ∈ order) as Hyo by by apply Hr. exfalso.
        assert (NoDup (order ++ y0 :: pending)) as Hall by by rewrite <-Hp.
        apply NoDup_app in Hall as (_ & Hdis & _). by apply (Hdis y Hyo).
      * destruct (decide (y ∈ targets (y0 :: pending))) as [Hin|Hin]; [|by apply occ_zero in Hin].
        apply elem_of_targets in Hin as (x & Hyx & Hx). by exists x.
    + exists x, n. split; [|done]. rewrite Hp, elem_of_app. by right.
Qed.

End toposort.

(** ** The whole function *)

Section result.
Context {G Id : Type} `{!EqDecision Id} `{!DenseElementIndex G Id} `{!ContainsElement G Id}.
Context `{!ElementSuccessors G Id} `{!ElementPredecessors G Id}.
Context (g : G) `{!TopologyLaws (Id := Id) g}.

(** [order] lists the requested elements once each, every edge between two of
    them going forward. *)
Record TopologicalOrder (elements order : list Id) : Prop := {
  topo_nodup : NoDup order;
  topo_elements : ∀ x, x ∈ order ↔ x ∈ elements;
  topo_forward : forward g elements order
}.

Lemma induced_ext nodes elements :
  (∀ x, x ∈ nodes ↔ x ∈ elements) → ∀ x, induced g nodes x = induced g elements x.
Proof. intros Hel x. by apply list_filter_iff. Qed.

Lemma topological_sort_cases fuel elements :
  Forall (visible g) elements → element_bound g < fuel →
  (∃ order, topological_sort fuel g elements = Ok order ∧ TopologicalOrder elements order) ∨
  (topological_sort fuel g elements = Err ToposortCycle ∧ cyclic (induced g elements) elements).
Proof.
  intros Hv Hf. destruct (collect_members_Ok (E:=ToposortError) g elements Hv) as (member & nodes & Hc & Hm & Hnd & Hel & _).
  assert (Forall (visible g) nodes) as Hvn.
  { rewrite Forall_forall in Hv |- *. intros x Hx. by apply Hv, Hel. }
  destruct (count_indegrees_Ok (E:=ToposortError) g nodes member Hvn Hnd Hm) as (degrees & Hcd & Hcounts).
  destruct (seed_sources_Ok (E:=ToposortError) g nodes member Hvn Hnd Hm degrees _ Hcounts) as (queue & Hq & Hready).
  pose proof (nodes_bound g nodes member Hvn Hnd Hm) as Hlen.
  destruct (toposort_loop_Ok (E:=ToposortError) g nodes member Hvn Hnd Hm fuel degrees [] queue nodes)
    as (order & pending & Hloop & HK); [|done|lia|].
  { split; [done|exact Hready|]. cbn [app]. intros j y x Hj Hx Hxy.
    apply list_elem_of_lookup_2, (proj2 Hready) in Hj as [_ Hz]. apply occ_zero in Hz. destruct Hz.
    apply elem_of_targets. by exists x. }
  assert (topological_sort fuel g elements =
    if decide (length order = length nodes) then Ok order else Err ToposortCycle) as ->.
  { unfold topological_sort. rewrite Hc. cbn [mbind res_bind]. rewrite Hcd. cbn [mbind res_bind].
    rewrite Hq. cbn [mbind res_bind]. by rewrite Hloop. }
  destruct (kahn_finished g nodes member Hvn Hnd Hm order pending HK)
    as [(Hlo & Hndo & Helo & Hfw)|(Hlo & x & n & Hx & Hw)].
  - left. exists order. rewrite decide_True by done. split; [done|]. split; [done| |].
    + intros x. by rewrite Helo.
    + intros x y Hx Hxy. apply Hfw; [by apply Hel|]. by rewrite (induced_ext nodes elements Hel).
  - right. rewrite decide_False by done. split; [done|]. exists x, n. split; [by apply Hel|].
    eapply walk_succ_ext; [|exact Hw]. by apply induced_ext.
Qed.

(** C6. [topological_sort] over visible elements never panics, no in-degree
    decrement underflows, and it decides acyclicity of the induced subgraph:
    without a cycle it returns every requested element once with every edge
    going forward; with one it returns [Cycle]. *)
Theorem topological_sort_correct fuel elements :
  Forall (visible g) elements → element_bound g < fuel →
  (¬ cyclic (induced g elements) elements →
    ∃ order, topological_sort fuel g elements = Ok order ∧ TopologicalOrder elements order) ∧
  (cyclic (induced g elements) elements → topological_sort fuel g elements = Err ToposortCycle).
Proof.
  intros Hv Hf. destruct (topological_sort_cases fuel elements Hv Hf) as [(order & Ho & Ht)|[He Hc]].
  - split; [by exists order|]. intros (x & n & Hx & Hw). exfalso.
    by apply (forward_acyclic g elements order (topo_nodup _ _ Ht) (topo_forward _ _ Ht)); exists x, n.
  - by split.
Qed.

End result.

(** A graph without cycles, with a doubled edge 2 -> 3. *)
Definition demo_dag : list_graph := {| adjacency := [[1; 2]; [3]; [3; 3]; []; [0]] |}.

Lemma demo_dag_laws : TopologyLaws (Id := nat) demo_dag.
Proof. apply list_graph_laws. repeat constructor; cbn; lia. Qed.

Lemma topological_sort_correct_witness :
  (∃ order, topological_sort 6 demo_dag [3; 1; 0; 2; 4; 1] = Ok order ∧ order = [4; 0; 1; 2; 3] ∧
    TopologicalOrder demo_dag [3; 1; 0; 2; 4; 1] order) ∧
  topological_sort 6 demo_graph [0; 1; 3] = Err ToposortCycle.
Proof.
  destruct (topological_sort_correct demo_dag (TopologyLaws0 := demo_dag_laws) 6 [3; 1; 0; 2; 4; 1]
    ltac:(repeat constructor) ltac:(cbn; lia)) as [Hacyclic Hcyclic].
  split.
  - destruct Hacyclic as (order & Ho & Ht).
    + intros Hc. specialize (Hcyclic Hc). vm_compute in Hcyclic. discriminate Hcyclic.
    + exists order. split; [done|]. split; [|done]. vm_compute in Ho. apply Ok_inj in Ho. by rewrite <-Ho.
  - apply (topological_sort_correct demo_graph (TopologyLaws0 := demo_graph_laws) 6 [0; 1; 3]
      ltac:(repeat constructor) ltac:(cbn; lia)).
    exists 1, 1. split; [set_solver|]. eapply walk_snoc; [eapply walk_snoc; [constructor|]|]; vm_compute; by left.
Defined.

(** ** Longest chains *)

Section longest.
Context {G Id : Type} `{!EqDecision Id} `{!DenseElementIndex G Id} `{!ContainsElement G Id}.
Context `{!ElementSuccessors G Id} `{!ElementPredecessors G Id}.
Context (g : G) `{!TopologyLaws (Id := Id) g}.
Context (elements order : list Id).
Hypothesis Helements : Forall (visible g) elements.
Hypothesis Horder : TopologicalOrder g elements order.

Lemma order_visible x : x ∈ order → visible g x.
Proof using All. intros Hx. rewrite Forall_forall in Helements. by apply Helements, Horder. Qed.

(** A successor of the current node is neither processed nor the node itself. *)
Lemma order_later pre node post y :
  order = pre ++ node :: post → y ∈ element_successors g node → y ∉ pre ++ [node].
Proof using All.
  intros Heq Hy Hin. assert (node ∈ order) as Hn by (rewrite Heq; set_solver).
  assert (y ∈ order) as Hyo by (rewrite Heq; set_solver).
  destruct (topo_forward _ _ _ Horder node y) as (i & j & Hij & Hi & Hj).
  { by apply Horder. }
  { apply elem_of_induced. split; [by apply Horder|done]. }
  pose proof (topo_nodup _ _ _ Horder) as Hnd.
  assert (order !! length pre = Some node) as Hpos by (rewrite Heq; by apply list_lookup_middle).
  pose proof (NoDup_lookup _ _ _ _ Hnd Hi Hpos) as ->.
  apply list_elem_of_lookup in Hin as [k Hk]. pose proof (lookup_lt_Some _ _ _ Hk) as Hlt.
  rewrite length_app in Hlt. cbn in Hlt.
  assert (order !! k = Some y) as Hko.
  { rewrite Heq. change (node :: post) with ([node] ++ post). rewrite app_assoc. by apply lookup_app_l_Some. }
  pose proof (NoDup_lookup _ _ _ _ Hnd Hj Hko). lia.
Qed.

(** ** The relaxation pass *)

Definition chains (pre : list Id) (len : Id → nat) (prev : Id → option Id) : Prop :=
  (∀ x y, x ∈ pre → visible g y → y ∈ element_successors g x → len x < len y) ∧
  (∀ y, visible g y →
    match prev y with
    | None => len y = 0
    | Some x => x ∈ pre ∧ y ∈ element_successors g x ∧ len y = S (len x)
    end).

(** The first processed node of greatest length. *)
Definition best_so_far (pre : list Id) (len : Id → nat) (e : option Id) (n : nat) : Prop :=
  match e with
  | None => pre = [] ∧ n = 0
  | Some e => e ∈ pre ∧ n = len e ∧ ∀ x, x ∈ pre → len x ≤ n
  end.

Definition relaxed (pre : list Id) (st : Relaxation Id) : Prop :=
  ∃ len prev, tabulates g (visible g) (lengths st) len ∧
    tabulates g (visible g) (predecessor st) prev ∧ chains pre len prev ∧
    best_so_far pre len (best_end st) (best_length st).

(** The edges of [node] leave the processed nodes and [node] alone. *)
Lemma relax_edges_Ok {E} pre node post ls ps len prev :
  order = pre ++ node :: post →
  tabulates g (visible g) ls len → tabulates g (visible g) ps prev → chains pre len prev →
  ∃ ls' ps' len' prev',
    for_each (E:=E) (relax_edge g node (len node)) (element_successors g node) (ls, ps) = Ok (ls', ps') ∧
    tabulates g (visible g) ls' len' ∧ tabulates g (visible g) ps' prev' ∧
    chains (pre ++ [node]) len' prev' ∧ (∀ x, x ∈ pre ++ [node] → len' x = len x).
Proof using All.
  intros Heq Hls Hps [Hup Hprev].
  destruct (for_each_inv (E:=E) (λ done st, ∃ len' prev',
      tabulates g (visible g) st.1 len' ∧ tabulates g (visible g) st.2 prev' ∧
      (∀ x, len x ≤ len' x) ∧ (∀ x, x ∈ pre ++ [node] → len' x = len x) ∧
      (∀ y, y ∈ done → len node < len' y) ∧
      (∀ y, visible g y → match prev' y with
        | None => len' y = 0
        | Some x => x ∈ pre ++ [node] ∧ y ∈ element_successors g x ∧ len' y = S (len x)
        end))
    (relax_edge g node (len node)) (element_successors g node) (ls, ps))
    as ([ls' ps'] & Hrun & len' & prev' & Hls' & Hps' & Hmono & Hkeep & Hdone & Hprev').
  - exists len, prev. cbn [fst snd]. split_and!; [done..| |].
    + intros y Hy. by apply not_elem_of_nil in Hy.
    + intros y Hy. specialize (Hprev y Hy). destruct (prev y); [|done].
      destruct Hprev as (? & ? & ?). split_and!; [|done..]. apply elem_of_app. by left.
  - intros d y rest [ls2 ps2] Hd (len2 & prev2 & Hls2 & Hps2 & Hmono & Hkeep & Hdone & Hprev2).
    cbn [fst snd] in *. assert (y ∈ element_successors g node) as Hy by (rewrite Hd; set_solver).
    assert (visible g y) as Hvy.
    { apply (successors_contained (g:=g) node); [|done]. apply order_visible. rewrite Heq. set_solver. }
    pose proof (order_later _ _ _ _ Heq Hy) as Hlater.
    unfold relax_edge. cbv zeta. rewrite decide_True by by apply index_bound.
    rewrite (tabulates_vget g _ _ _ _ Hls2 Hvy). cbn [mbind res_bind].
    destruct (decide (len2 y < len node + 1)) as [Hlt|Hge].
    + destruct (tabulates_vset (E:=E) g _ ls2 len2 y (len node + 1) (λ _ H, H) Hls2 Hvy) as (ls3 & -> & Hls3).
      cbn [mbind res_bind].
      destruct (tabulates_vset (E:=E) g _ ps2 prev2 y (Some node) (λ _ H, H) Hps2 Hvy) as (ps3 & -> & Hps3).
      cbn [mbind res_bind mret res_ret]. eexists. split; [done|]. do 2 eexists. cbn [fst snd].
      split; [exact Hls3|]. split; [exact Hps3|]. cbn beta. split_and!.
      * intros x. case_decide as Hx; [subst x; pose proof (Hmono y); lia|apply Hmono].
      * intros x Hx. case_decide as Hxy; [by subst x|by apply Hkeep].
      * intros z [Hz|Hz%list_elem_of_singleton]%elem_of_app; case_decide; [lia|by apply Hdone|lia|done].
      * intros z Hz. case_decide as Hzy; [|by apply Hprev2]. subst z.
        split_and!; [|done|lia]. apply elem_of_app. right. by apply list_elem_of_singleton.
    + eexists. split; [done|]. exists len2, prev2. cbn [fst snd]. split_and!; [done..| |done].
      intros z [Hz|Hz%list_elem_of_singleton]%elem_of_app; [by apply Hdone|subst z; lia].
  - cbn [fst snd] in *. exists ls', ps', len', prev'. split_and!; [done..| |done]. split.
    + intros x y Hx Hvy Hy. rewrite (Hkeep x Hx).
      apply elem_of_app in Hx as [Hx|Hx%list_elem_of_singleton].
      * eapply Nat.lt_le_trans; [by apply (Hup x y)|apply Hmono].
      * subst x. by apply Hdone.
    + intros y Hy. specialize (Hprev' y Hy). destruct (prev' y) as [x|]; [|done].
      destruct Hprev' as (Hx & ? & ->). by rewrite (Hkeep x Hx).
Qed.

Lemma relax_order_Ok {E} :
  ∃ st, for_each (E:=E) (relax_node g) order
    {| lengths := replicate (element_bound g) 0; predecessor := replicate (element_bound g) None;
       best_end := None; best_length := 0 |} = Ok st ∧ relaxed order st.
Proof using All.
  apply (for_each_inv relaxed).
  { exists (λ _, 0), (λ _, None). cbn. split_and!; [by apply (tabulates_replicate g (visible g) 0)|
      by apply (tabulates_replicate g (visible g) None)| |done..].
    split; [|done]. intros x y Hx. by apply not_elem_of_nil in Hx. }
  intros pre node post [ls ps be bl] Heq (len & prev & Hls & Hps & Hch & Hbest).
  cbn [lengths predecessor best_end best_length] in *.
  assert (visible g node) as Hvn by (apply order_visible; rewrite Heq; set_solver).
  unfold relax_node. cbn [lengths predecessor best_end best_length].
  rewrite (tabulates_vget g _ _ _ _ Hls Hvn). cbn [mbind res_bind]. cbv zeta.
  destruct (relax_edges_Ok (E:=E) pre node post ls ps len prev Heq Hls Hps Hch)
    as (ls' & ps' & len' & prev' & -> & Hls' & Hps' & Hch' & Hkeep).
  cbn [mbind res_bind mret res_ret]. eexists. split; [done|]. exists len', prev'.
  cbn [lengths predecessor best_end best_length]. split_and!; [done..|].
  assert (node ∈ pre ++ [node]) as Hnin by set_solver.
  destruct be as [e|]; cbn [best_so_far] in Hbest.
  - destruct Hbest as (He & -> & Hmax). rewrite (bool_decide_eq_false_2 (Some e = None)) by done. cbn [orb].
    assert (e ∈ pre ++ [node]) as Hein by set_solver.
    case_bool_decide as Hlt; cbn [best_so_far]; rewrite Hkeep by done; split_and!; try done;
      intros x Hx; rewrite (Hkeep x Hx); apply elem_of_app in Hx as [Hx|Hx%list_elem_of_singleton];
      try subst x; try lia; specialize (Hmax x Hx); lia.
  - destruct Hbest as [-> ->]. rewrite (bool_decide_eq_true_2 (None = None)) by done. cbn [orb best_so_far].
    rewrite Hkeep by done. split_and!; [done..|]. intros x Hx. rewrite (Hkeep x Hx).
    by apply list_elem_of_singleton in Hx as ->.
Qed.

(** ** The walk back *)

(** [l] lists a chain from its end to its start. *)
Definition back_chain (len : Id → nat) (y : Id) (l : list Id) : Prop :=
  length l = S (len y) ∧ head l = Some y ∧
  (∀ i z, l !! i = Some z → z ∈ order ∧ len z + i = len y) ∧
  (∀ i a b, l !! i = Some a → l !! S i = Some b → a ∈ element_successors g b).

Lemma walk_back_Ok {E} ps len prev y :
  tabulates g (visible g) ps prev → chains order len prev → y ∈ order →
  ∃ l, back_chain len y l ∧
    ∀ fuel path, S (len y) < fuel → walk_back (E:=E) fuel g ps path (Some y) = Ok (path ++ l).
Proof using All.
  intros Hps [_ Hprev]. remember (len y) as n eqn:Hn. revert y Hn.
  induction n as [|n IH]; intros y Hn Hy; pose proof (Hprev y (order_visible y Hy)) as Hpy.
  - destruct (prev y) as [x|] eqn:Hx; [lia|]. exists [y]. split.
    + split_and!; [cbn; lia|done| |].
      * intros [|i] z Hz; [|done]. injection Hz as <-. split; [done|lia].
      * intros i a b Ha Hb. by destruct i.
    + intros [|[|fuel]] path Hf; [lia..|]. cbn [walk_back].
      rewrite (tabulates_vget g _ _ _ _ Hps (order_visible y Hy)), Hx. done.
  - destruct (prev y) as [x|] eqn:Hx; [|lia]. destruct Hpy as (Hxo & Hxy & Hlen).
    destruct (IH x ltac:(lia) Hxo) as (l & (Hl & Hhead & Hel & Hsucc) & Hwalk).
    exists (y :: l). split.
    + split_and!; [cbn; lia|done| |].
      * intros [|i] z Hz; cbn in Hz; [injection Hz as <-; split; [done|lia]|].
        destruct (Hel i z Hz). split; [done|lia].
      * intros [|i] a b Ha Hb; cbn in Ha, Hb.
        -- injection Ha as <-. destruct l as [|x' l]; [done|]. cbn in Hhead, Hb. by simplify_eq.
        -- by apply (Hsucc i).
    + intros [|fuel] path Hf; [lia|]. cbn [walk_back].
      rewrite (tabulates_vget g _ _ _ _ Hps (order_visible y Hy)), Hx. cbn [mbind res_bind].
      rewrite Hwalk by lia. by rewrite <-app_assoc.
Qed.

Lemma back_chain_NoDup len y l : back_chain len y l → NoDup l.
Proof using Type.
  intros (_ & _ & Hel & _). apply NoDup_alt. intros i j z Hi Hj.
  apply Hel in Hi as [_ Hi]. apply Hel in Hj as [_ Hj]. lia.
Qed.

Lemma walk_length len prev x n y :
  chains order len prev → x ∈ order → walk (induced g elements) x n y → n ≤ len y.
Proof using All.
  intros [Hup _] Hx Hw. induction Hw as [|n y z Hw IH Hz]; [lia|].
  assert (y ∈ order) as Hy.
  { apply (walk_preserves (induced g elements) (λ x, x ∈ order) x n y); [|done|done].
    intros a b _ Hb. apply Horder. by apply elem_of_induced in Hb as [? _]. }
  apply elem_of_induced in Hz as [Hze Hz]. pose proof (Hup y z Hy) as Hlt.
  rewrite Forall_forall in Helements. specialize (Hlt (Helements z Hze) Hz). lia.
Qed.

End longest.

Section result.
Context {G Id : Type} `{!EqDecision Id} `{!DenseElementIndex G Id} `{!ContainsElement G Id}.
Context `{!ElementSuccessors G Id} `{!ElementPredecessors G Id}.
Context (g : G) `{!TopologyLaws (Id := Id) g}.

(** [path] is a longest chain of the induced subgraph. *)
Record LongestChain (elements path : list Id) : Prop := {
  chain_nodup : NoDup path;
  chain_elements : ∀ x, x ∈ path → x ∈ elements;
  chain_edges : ∀ i a b, path !! i = Some a → path !! S i = Some b → b ∈ induced g elements a;
  chain_longest : ∀ x n y, x ∈ elements → walk (induced g elements) x n y → n < length path
}.

(** A chain read backwards. *)
Lemma reverse_back_chain elements order len y l :
  TopologicalOrder g elements order → back_chain g order len y l →
  (∀ x n z, x ∈ elements → walk (induced g elements) x n z → n ≤ len y) →
  LongestChain elements (reverse l).
Proof.
  intros Ho Hback Hmax. pose proof (back_chain_NoDup g order len y l Hback) as Hnd.
  destruct Hback as (Hlen & _ & Hel & Hsucc). split.
  - by rewrite reverse_Permutation.
  - intros x Hx. rewrite elem_of_reverse in Hx. apply list_elem_of_lookup in Hx as [i Hi]. apply Ho. by destruct (Hel i x Hi).
  - intros i a b Ha Hb. apply reverse_lookup_Some in Ha as [Ha Hia], Hb as [Hb Hib].
    apply elem_of_induced. split; [apply Ho; by destruct (Hel _ _ Hb)|].
    apply (Hsucc (length l - S (S i)) b a); [done|]. by replace (S (length l - S (S i))) with (length l - S i) by lia.
  - intros x n z Hx Hw. rewrite length_reverse, Hlen. specialize (Hmax x n z Hx Hw). lia.
Qed.

Lemma longest_path_cases fuel elements :
  Forall (visible g) elements → element_bound g < fuel →
  (¬ cyclic (induced g elements) elements →
    ∃ path, longest_path_dag fuel g elements = Ok path ∧ LongestChain elements path) ∧
  (cyclic (induced g elements) elements → longest_path_dag fuel g elements = Err LongestPathCycle).
Proof.
  intros Hv Hf. unfold longest_path_dag.
  destruct (topological_sort_cases g fuel elements Hv Hf) as [(order & -> & Ho)|[-> Hc]]; [|by split].
  split.
  2:{ intros Hc. exfalso. revert Hc.
      apply (forward_acyclic g elements order (topo_nodup _ _ _ Ho) (topo_forward _ _ _ Ho)). }
  intros _. cbn [map_err mbind res_bind]. case_decide as Hempty.
  { exists []. split; [done|]. split; [apply NoDup_nil_2|by intros x ?%not_elem_of_nil|done|].
    intros x n y Hx. apply (topo_elements _ _ _ Ho) in Hx. subst order. by apply not_elem_of_nil in Hx. }
  destruct (relax_order_Ok (E:=LongestPathError) g elements order Hv Ho)
    as (st & -> & len & prev & Hls & Hps & Hch & Hbest).
  cbn [mbind res_bind]. destruct (best_end st) as [e|]; [|by destruct Hbest].
  destruct Hbest as (He & Hbl & Hmax).
  destruct (walk_back_Ok (E:=LongestPathError) g elements order Hv Ho _ len prev e Hps Hch He)
    as (l & Hback & Hwalk).
  assert (length l ≤ element_bound g) as Hlen.
  { apply visible_length; [done|by apply (back_chain_NoDup g order len e)|].
    apply Forall_forall. intros x [i Hi]%list_elem_of_lookup. apply (order_visible g elements order Hv Ho).
    by destruct Hback as (_ & _ & Hel & _); destruct (Hel i x Hi). }
  rewrite Hwalk by (destruct Hback as (Hl & _); lia). cbn [mbind res_bind app].
  exists (reverse l). split; [done|]. apply (reverse_back_chain elements order len e l Ho Hback).
  intros x n z Hx Hw. apply (topo_elements _ _ _ Ho) in Hx as Hxo.
  assert (z ∈ order) as Hz.
  { apply (walk_preserves (induced g elements) (λ x, x ∈ order) x n z); [|done|done].
    intros a b _ Hb. apply Ho. by apply elem_of_induced in Hb as [? _]. }
  etrans; [exact (walk_length g elements order Hv Ho len prev x n z Hch Hxo Hw)|]. specialize (Hmax z Hz).
  lia.
Qed.

(** [longest_path_dag] over visible elements never panics: on an acyclic
    induced subgraph it returns a chain without repetition whose length no walk
    of the subgraph exceeds (the empty path exactly for no elements); on a
    cyclic one it returns [Cycle]. *)
Theorem longest_path_dag_correct fuel elements :
  Forall (visible g) elements → element_bound g < fuel →
  (¬ cyclic (induced g elements) elements →
    ∃ path, longest_path_dag fuel g elements = Ok path ∧ LongestChain elements path) ∧
  (cyclic (induced g elements) elements → longest_path_dag fuel g elements = Err LongestPathCycle).
Proof. apply longest_path_cases. Qed.

End result.

Lemma longest_path_dag_correct_witness :
  (∃ path, longest_path_dag 6 demo_dag [3; 1; 0; 2; 4; 1] = Ok path ∧ path = [4; 0; 1; 3] ∧
    LongestChain demo_dag [3; 1; 0; 2; 4; 1] path) ∧
  longest_path_dag 6 demo_graph [0; 1; 3] = Err LongestPathCycle.
Proof.
  destruct (longest_path_dag_correct demo_dag (TopologyLaws0 := demo_dag_laws) 6 [3; 1; 0; 2; 4; 1]
    ltac:(repeat constructor) ltac:(cbn; lia)) as [Hacyclic Hcyclic].
  split.
  - destruct Hacyclic as (path & Hp & Hl).
    + intros Hc. specialize (Hcyclic Hc). vm_compute in Hcyclic. discriminate Hcyclic.
    + exists path. split; [done|]. split; [|done]. vm_compute in Hp. apply Ok_inj in Hp. by rewrite <-Hp.
  - apply (longest_path_dag_correct demo_graph (TopologyLaws0 := demo_graph_laws) 6 [0; 1; 3]
      ltac:(repeat constructor) ltac:(cbn; lia)).
    exists 1, 1. split; [set_solver|]. eapply walk_snoc; [eapply walk_snoc; [constructor|]|]; vm_compute; by left.
Defined.
