(* ===== verification/ComponentsFacts.v ===== *)
(** * ComponentsFacts: weakly connected components by union-find

    The parent array is a forest of trees; a ghost function [R] names every
    tree's root. Path halving keeps [R]; a union merges two of its fibres; the
    rank of a root is at most the binary logarithm of its tree's size, so the
    [u8] increment never overflows and every [find] ends. *)

From stdpp Require Import base gmap sets list sorting.
From S2P Require Import Prelude Topology BfsSpec Bfs BfsFacts Algo AlgoFacts.

(** ** The forest *)

Section forest.
Context (n : nat).

Definition fibre (R : nat → nat) (x : nat) : Z := zlen (filter (λ y, R y = x) (seq 0 n)).

(** [R] maps an index to its root; ranks grow strictly towards the root. *)
Record Forest (parent : list nat) (rank : list Z) (R : nat → nat) : Prop := {
  forest_parents : length parent = n;
  forest_ranks : length rank = n;
  forest_step : ∀ x, x < n → ∃ p r r', parent !! x = Some p ∧ p < n ∧ R p = R x ∧
    rank !! x = Some r ∧ rank !! p = Some r' ∧ (0 ≤ r)%Z ∧ (2 ^ r ≤ Z.of_nat n)%Z ∧
    (p = x ↔ R x = x) ∧ (p ≠ x → r < r')%Z;
  forest_root : ∀ x, x < n → R x < n ∧ R (R x) = R x;
  forest_size : ∀ x r, x < n → R x = x → rank !! x = Some r → (2 ^ r ≤ fibre R x)%Z
}.

Lemma forest_init : Forest (seq 0 n) (replicate n 0%Z) (λ x, x).
Proof.
  split; [apply length_seq|apply length_replicate| |done|].
  - intros x Hx. exists x, 0%Z, 0%Z. split_and!; try done; try (by apply lookup_replicate);
      [by apply lookup_seq|cbn; lia].
  - intros x r Hx _ [-> _]%lookup_replicate. unfold fibre.
    cut (1 ≤ length (filter (λ y, y = x) (seq 0 n))); [unfold zlen; cbn; lia|].
    assert (x ∈ filter (λ y, y = x) (seq 0 n)) as Hin by (apply list_elem_of_filter; split; [done|apply elem_of_seq; lia]).
    destruct (filter _ _); [by apply not_elem_of_nil in Hin|cbn; lia].
Qed.

(** Path halving at [x] keeps every root. *)
Lemma forest_halve parent rank R x p grand :
  Forest parent rank R → x < n → parent !! x = Some p → p ≠ x → parent !! p = Some grand →
  Forest (<[x := grand]> parent) rank R ∧ grand < n ∧ R grand = R x ∧
  ∀ r rg, rank !! x = Some r → rank !! grand = Some rg → (r < rg)%Z.
Proof.
  intros HF Hx Hp Hpx Hg.
  destruct (forest_step _ _ _ HF x Hx) as (p' & r & rp & Hp' & Hpn & HRp & Hr & Hrp & Hr0 & Hrn & Hiff & Hlt).
  rewrite Hp in Hp'. injection Hp' as <-. specialize (Hlt Hpx).
  destruct (forest_step _ _ _ HF p Hpn) as (g' & rp' & rg & Hg' & Hgn & HRg & Hrp' & Hrg & _ & _ & _ & Hltg).
  rewrite Hg in Hg'. injection Hg' as <-. rewrite Hrp in Hrp'. injection Hrp' as <-.
  assert (rp ≤ rg)%Z as Hle.
  { destruct (decide (grand = p)) as [->|Hne]; [rewrite Hrp in Hrg; injection Hrg as ->; lia|].
    specialize (Hltg Hne). lia. }
  assert (grand ≠ x) as Hgx by (intros ->; rewrite Hr in Hrg; injection Hrg as <-; lia).
  split; [|split_and!; [done|congruence|intros ? ? ? ?; simplify_eq; lia]].
  split; [rewrite length_insert; apply HF|apply HF| |apply HF|apply HF].
  intros y Hy. destruct (decide (y = x)) as [->|Hyx].
  - exists grand, r, rg. rewrite list_lookup_insert_eq by (rewrite (forest_parents _ _ _ HF); lia).
    split_and!; try done; [congruence| |intros _; lia]. split; [done|]. intros HRx. destruct (Hpx ltac:(by apply Hiff)).
  - destruct (forest_step _ _ _ HF y Hy) as (py & ry & rpy & Hpy & Hrest).
    exists py, ry, rpy. by rewrite list_lookup_insert_ne.
Qed.

Lemma find_Ok {E} fuel parent rank R x r :
  Forest parent rank R → x < n → rank !! x = Some r → (Z.log2 (Z.of_nat n) < r + Z.of_nat fuel)%Z →
  ∃ parent', find (E:=E) fuel parent x = Ok (parent', R x) ∧ Forest parent' rank R.
Proof.
  revert parent x r. induction fuel as [|fuel IH]; intros parent x r HF Hx Hr Hfuel;
    destruct (forest_step _ _ _ HF x Hx) as (p & r' & rp & Hp & Hpn & HRp & Hr' & Hrp & Hr0 & Hrn & Hiff & Hlt);
    rewrite Hr in Hr'; injection Hr' as <-; pose proof (Z.log2_le_mono _ _ Hrn) as Hlog;
    rewrite Z.log2_pow2 in Hlog by done; [lia|].
  cbn [find]. unfold vget. rewrite Hp. cbn [or_panic mbind res_bind].
  destruct (decide (p = x)) as [->|Hpx].
  { exists parent. split; [|done]. do 2 f_equal. symmetry. by apply Hiff. }
  destruct (forest_step _ _ _ HF p Hpn) as (grand & _ & rg & Hg & Hgn & _).
  destruct (forest_halve parent rank R x p grand HF Hx Hp Hpx Hg) as (HF' & _ & HRg & Hrank).
  rewrite Hg. cbn [or_panic mbind res_bind].
  rewrite vset_lt by (rewrite (forest_parents _ _ _ HF); lia). cbn [mbind res_bind].
  rewrite list_lookup_insert_eq by (rewrite (forest_parents _ _ _ HF); lia). cbn [or_panic mbind res_bind].
  destruct (lookup_lt_is_Some_2 rank grand) as [rgr Hrgr]; [by rewrite (forest_ranks _ _ _ HF)|].
  specialize (Hrank r rgr Hr Hrgr). rewrite <-HRg. apply (IH _ grand rgr HF' Hgn Hrgr). lia.
Qed.

Lemma find_fuel {E} fuel parent rank R x :
  Forest parent rank R → x < n → n < fuel →
  ∃ parent', find (E:=E) fuel parent x = Ok (parent', R x) ∧ Forest parent' rank R.
Proof.
  intros HF Hx Hfuel. destruct (forest_step _ _ _ HF x Hx) as (_ & r & _ & _ & _ & _ & Hr & _ & Hr0 & _).
  apply (find_Ok fuel parent rank R x r HF Hx Hr).
  pose proof (Z.log2_le_lin (Z.of_nat n)). lia.
Qed.

(** ** Linking two roots *)

Definition merge (R : nat → nat) (a b : nat) : nat → nat := λ y, if decide (R y = a) then b else R y.

Lemma fibre_merge R a b : a ≠ b → fibre (merge R a b) b = (fibre R a + fibre R b)%Z.
Proof.
  intros Hab. unfold fibre. induction (seq 0 n) as [|y l IH]; [done|].
  rewrite !filter_cons. unfold merge at 1. unfold zlen in *. repeat case_decide; subst; try done; cbn [length]; lia.
Qed.

Lemma fibre_merge_ne R a b x : x ≠ a → x ≠ b → fibre (merge R a b) x = fibre R x.
Proof.
  intros Hxa Hxb. unfold fibre. f_equal. apply list_filter_iff. intros y. unfold merge.
  case_decide; naive_solver.
Qed.

Lemma merge_root R a b x : R a = a → R b = b → a ≠ b → merge R a b x = x → x = b ∨ (x ≠ a ∧ x ≠ b ∧ R x = x).
Proof. intros Ha Hb Hab. unfold merge. case_decide; [by left|]. intros HR. destruct (decide (x = b)); naive_solver. Qed.

(** Root [a] becomes a child of root [b], whose rank becomes [rb']. *)
Lemma forest_link parent rank R a b ra rb rb' :
  Forest parent rank R → a < n → b < n → a ≠ b → R a = a → R b = b →
  rank !! a = Some ra → rank !! b = Some rb → (ra < rb')%Z → (rb ≤ rb')%Z →
  (2 ^ rb' ≤ 2 ^ ra + 2 ^ rb ∨ rb' = rb)%Z →
  Forest (<[a := b]> parent) (<[b := rb']> rank) (merge R a b).
Proof.
  intros HF Ha Hb Hab HRa HRb Hra Hrb Hlt Hle Hsize.
  pose proof (forest_parents _ _ _ HF) as Hlp. pose proof (forest_ranks _ _ _ HF) as Hlr.
  pose proof (forest_size _ _ _ HF a ra Ha HRa Hra) as Hsa.
  pose proof (forest_size _ _ _ HF b rb Hb HRb Hrb) as Hsb.
  assert (2 ^ rb' ≤ fibre (merge R a b) b)%Z as Hsb'.
  { rewrite fibre_merge by done. destruct Hsize as [Hsize| ->]; [lia|].
    destruct (forest_step _ _ _ HF a Ha) as (? & ra' & ? & _ & _ & _ & Hra' & _ & Hra0 & _).
    rewrite Hra in Hra'. injection Hra' as <-. pose proof (Z.pow_nonneg 2 ra). lia. }
  assert (∀ R x, (fibre R x ≤ Z.of_nat n)%Z) as Hfn.
  { intros S x. unfold fibre, zlen. pose proof (length_filter (λ y, S y = x) (seq 0 n)) as Hl.
    rewrite length_seq in Hl. lia. }
  split; [by rewrite length_insert..| | |].
  - intros x Hx. destruct (forest_step _ _ _ HF x Hx) as (p & r & rp & Hp & Hpn & HRp & Hr & Hrp & Hr0 & Hrn & Hiff & Hltx).
    assert (∀ y ry, rank !! y = Some ry → ∃ ry', <[b := rb']> rank !! y = Some ry' ∧ (ry ≤ ry')%Z ∧ (y ≠ b → ry' = ry)) as Hup.
    { intros y ry Hy. destruct (decide (y = b)) as [->|Hyb].
      - exists rb'. rewrite list_lookup_insert_eq by lia. rewrite Hrb in Hy. injection Hy as <-. done.
      - exists ry. by rewrite list_lookup_insert_ne. }
    destruct (decide (x = a)) as [->|Hxa].
    + rewrite Hra in Hr. injection Hr as <-.
      exists b, ra, rb'. rewrite list_lookup_insert_eq by lia. rewrite !list_lookup_insert_ne, list_lookup_insert_eq by (done || lia).
      split_and!; try done; [|].
      * unfold merge. rewrite HRa, HRb, decide_False, decide_True by done. done.
      * unfold merge. rewrite HRa, decide_True by done. by split.
    + destruct (Hup p rp Hrp) as (rp' & Hrp' & Hlep & _). exists p.
      rewrite list_lookup_insert_ne by done.
      destruct (decide (x = b)) as [->|Hxb].
      * rewrite Hrb in Hr. injection Hr as <-. assert (p = b) as -> by by apply Hiff.
        exists rb', rb'. rewrite list_lookup_insert_eq by lia. split_and!; try done; [lia|specialize (Hfn (merge R a b) b); lia|].
        unfold merge. rewrite HRb, decide_False by done. done.
      * exists r, rp'. rewrite (list_lookup_insert_ne rank b x) by done. split_and!; try done.
        -- unfold merge. by rewrite HRp.
        -- rewrite Hiff. unfold merge. split; [intros HR; rewrite HR; by rewrite decide_False|]. case_decide; [congruence|done].
        -- intros Hpx. specialize (Hltx Hpx). lia.
  - intros x Hx. destruct (forest_root _ _ _ HF x Hx) as [HRx HRR]. unfold merge.
    destruct (decide (R x = a)) as [He|Hne]; [split; [done|]; rewrite HRb; by rewrite decide_False|].
    split; [done|]. rewrite HRR. by rewrite decide_False.
  - intros x r Hx HRx Hr. destruct (merge_root R a b x HRa HRb Hab HRx) as [->|(Hxa & Hxb & HR)].
    + rewrite list_lookup_insert_eq in Hr by lia. by injection Hr as <-.
    + rewrite list_lookup_insert_ne in Hr by done. rewrite fibre_merge_ne by done.
      by apply (forest_size _ _ _ HF x r).
Qed.

(** The two trees of [left] and [right] become one. *)
Definition joined (R R' : nat → nat) (left right : nat) : Prop :=
  ∀ x y, x < n → y < n → R' x = R' y ↔
    R x = R y ∨ (R x = R left ∧ R y = R right) ∨ (R x = R right ∧ R y = R left).

Lemma joined_merge R l r a b :
  (R l = a ∧ R r = b) ∨ (R l = b ∧ R r = a) → joined R (merge R a b) l r.
Proof.
  intros Hab x y _ _. unfold merge. repeat case_decide; intuition congruence.
Qed.

Lemma union_Ok {E} fuel parent rank R l r :
  Forest parent rank R → l < n → r < n → n < fuel → (Z.of_nat n < 2 ^ 255)%Z →
  ∃ parent' rank' R', union (E:=E) fuel parent rank l r = Ok (parent', rank') ∧
    Forest parent' rank' R' ∧ joined R R' l r.
Proof.
  intros HF Hl Hr Hfuel Hn. unfold union.
  destruct (find_fuel (E:=E) fuel parent rank R l HF Hl Hfuel) as (parent1 & -> & HF1). cbn [mbind res_bind].
  destruct (find_fuel (E:=E) fuel parent1 rank R r HF1 Hr Hfuel) as (parent2 & -> & HF2). cbn [mbind res_bind].
  destruct (forest_root _ _ _ HF l Hl) as [HlR HlRR]. destruct (forest_root _ _ _ HF r Hr) as [HrR HrRR].
  case_decide as Heq.
  { exists parent2, rank, R. split_and!; [done..|]. intros x y _ _. rewrite Heq. naive_solver congruence. }
  destruct (forest_step _ _ _ HF2 (R l) HlR) as (_ & rl & _ & _ & _ & _ & Hrl & _ & Hrl0 & Hrln & _).
  destruct (forest_step _ _ _ HF2 (R r) HrR) as (_ & rr & _ & _ & _ & _ & Hrr & _ & Hrr0 & Hrrn & _).
  assert (length parent2 = n) as Hlp by apply HF2. assert (length rank = n) as Hlr by apply HF2.
  unfold vget. rewrite Hrl, Hrr. cbn [or_panic mbind res_bind].
  destruct (Z.compare_spec rl rr) as [He|Hlt|Hgt].
  - subst rr. rewrite vset_lt by lia. cbn [mbind res_bind].
    assert (rl < 255)%Z as Hrb by (apply (Z.pow_lt_mono_r_iff 2); lia).
    rewrite (checked_add_fits u8_max rl 1) by (unfold u8_max; lia). cbn [or_panic mbind res_bind].
    rewrite vset_lt by lia. cbn [mbind res_bind mret res_ret]. do 3 eexists. split; [done|]. split.
    + apply (forest_link parent2 rank R (R r) (R l) rl rl (rl + 1)); try done; try lia. left.
      rewrite Z.pow_add_r; lia.
    + apply joined_merge. by right.
  - rewrite vset_lt by lia. cbn [mbind res_bind mret res_ret]. do 3 eexists. split; [done|]. split.
    + rewrite <-(list_insert_id rank (R r) rr) by done.
      apply (forest_link parent2 rank R (R l) (R r) rl rr rr); try done; try lia.
    + apply joined_merge. by left.
  - rewrite vset_lt by lia. cbn [mbind res_bind mret res_ret]. do 3 eexists. split; [done|]. split.
    + rewrite <-(list_insert_id rank (R l) rl) by done.
      apply (forest_link parent2 rank R (R r) (R l) rr rl rl); try done; try lia.
    + apply joined_merge. by right.
Qed.

End forest.

(** ** Connection *)

(** Joining [l] and [r] adds one undirected edge to the relation. *)
Lemma rep_join {A} (P : A → Prop) (f f' : A → nat) (E E' : relation A) l r :
  (∀ a b, E a b → P a ∧ P b) → P l → P r →
  (∀ x y, E' x y ↔ E x y ∨ (x = l ∧ y = r)) →
  (∀ x y, P x → P y → f x = f y ↔ rtsc E x y) →
  (∀ x y, P x → P y →
    f' x = f' y ↔ f x = f y ∨ (f x = f l ∧ f y = f r) ∨ (f x = f r ∧ f y = f l)) →
  ∀ x y, P x → P y → f' x = f' y ↔ rtsc E' x y.
Proof.
  intros HE Hl Hr HE' Hf Hf' x y Hx Hy.
  assert (∀ a b, rtsc E a b → rtsc E' a b) as Hmono.
  { intros a b. apply rtc_subrel. intros c d [Hcd|Hcd]; [left|right]; apply HE'; by left. }
  assert (rtsc E' l r) as Hlr by (apply rtc_once; left; apply HE'; by right).
  split.
  - rewrite (Hf' x y Hx Hy), !Hf by done. intros [Hxy|[[Hxl Hyr]|[Hxr Hyl]]]; [by apply Hmono| |].
    + etrans; [by apply Hmono|]. etrans; [exact Hlr|]. symmetry. by apply Hmono.
    + etrans; [by apply Hmono|]. etrans; [symmetry; exact Hlr|]. symmetry. by apply Hmono.
  - assert (∀ a b, E' a b → f' a = f' b) as Hstep.
    { intros a b [Hab|[-> ->]]%HE'; [|apply Hf'; auto]. destruct (HE a b Hab) as [Ha Hb].
      apply Hf'; [done..|]. left. apply Hf; [done..|]. apply rtc_once. by left. }
    clear Hx Hy. induction 1 as [|a b c [Hab|Hab] _ IH]; [done|..]; rewrite <-IH; [|symmetry]; by apply Hstep.
Qed.

(** ** Groups *)

Section groups.
Context {Id : Type} (key : Id → nat).

(** The map from roots to the nodes of [pre] under them, in input order. *)
Definition grouped (pre : list Id) (groups : list (nat * list Id)) : Prop :=
  StronglySorted lt groups.*1 ∧
  ∀ k l, (k, l) ∈ groups ↔ l = filter (λ x, key x = k) pre ∧ l ≠ [].

Lemma push_group_keys (groups : list (nat * list Id)) root node k :
  k ∈ (push_group groups root node).*1 ↔ k = root ∨ k ∈ groups.*1.
Proof.
  induction groups as [|[k' l'] groups IH]; cbn [push_group]; [set_solver|].
  repeat case_decide; subst; cbn [fmap list_fmap fst]; rewrite !elem_of_cons; [naive_solver..|].
  rewrite IH. naive_solver.
Qed.

Lemma push_group_sorted (groups : list (nat * list Id)) root node :
  StronglySorted lt groups.*1 → StronglySorted lt (push_group groups root node).*1.
Proof.
  induction groups as [|[k' l'] groups IH]; cbn [push_group fmap list_fmap fst]; intros Hs;
    [repeat constructor|]. apply StronglySorted_cons in Hs as [Hk Hs].
  repeat case_decide; cbn [fmap list_fmap fst]; apply StronglySorted_cons.
  - split; [|by constructor]. constructor; [done|]. eapply Forall_impl; [exact Hk|]. intros k ?. cbn in *. lia.
  - by split.
  - split; [|by apply IH]. apply Forall_forall. intros k [->|Hin]%push_group_keys; [lia|].
    rewrite Forall_forall in Hk. by apply Hk.
Qed.

Lemma push_group_elem (groups : list (nat * list Id)) root node k l :
  StronglySorted lt groups.*1 →
  (k, l) ∈ push_group groups root node ↔
    (k ≠ root ∧ (k, l) ∈ groups) ∨
    (k = root ∧ ((∃ l0, (root, l0) ∈ groups ∧ l = l0 ++ [node]) ∨ (root ∉ groups.*1 ∧ l = [node]))).
Proof.
  induction groups as [|[k' l'] groups IH]; cbn [push_group fmap list_fmap fst]; intros Hs.
  { rewrite list_elem_of_singleton. split; [intros [= -> ->]; right; split; [done|]; right; split; [set_solver|done]|].
    intros [[_ ?%not_elem_of_nil]|[-> [(? & ?%not_elem_of_nil & _)|[_ ->]]]]; done. }
  apply StronglySorted_cons in Hs as [Hk Hs]. rewrite Forall_forall in Hk.
  assert (∀ l0, (root, l0) ∈ groups → k' < root) as Hin.
  { intros l0 Hl0. apply Hk. apply list_elem_of_fmap. by exists (root, l0). }
  case_decide as Hlt; [|case_decide as Heq; [subst k'|]].
  - assert (root ∉ k' :: groups.*1) as Hroot.
    { intros [?|Hr]%elem_of_cons; [lia|]. specialize (Hk root Hr). lia. }
    rewrite elem_of_cons. split.
    + intros [[= -> ->]|Hl]; [by right; split; [|right]|]. left. split; [|done].
      intros ->. apply Hroot. apply (list_elem_of_fmap_2 fst _ (root, l)) in Hl. exact Hl.
    + intros [[_ ?]|[-> [(l0 & Hl0 & _)|[_ ->]]]]; [by right| |by left].
      apply (list_elem_of_fmap_2 fst _ (root, l0)) in Hl0. by destruct Hroot.
  - rewrite !elem_of_cons. split.
    + intros [[= -> ->]|Hl]; [right; split; [done|]; left; exists l'; split; [by left|done]|].
      left. split; [|by right]. intros ->. specialize (Hin l Hl). lia.
    + intros [[Hne [[= -> ->]|?]]|[-> [(l0 & [[= ->]|Hl0]%elem_of_cons & ->)|[Hr _]]]]; [done|by right|by left| |].
      * specialize (Hin l0 Hl0). lia.
      * destruct Hr. by left.
  - rewrite elem_of_cons, IH by done. split.
    + intros [[= -> ->]|[[Hne Hl]|[-> [(l0 & Hl0 & ->)|[Hr ->]]]]].
      * left. split; [lia|by left].
      * left. split; [done|by right].
      * right. split; [done|]. left. exists l0. split; [by right|done].
      * right. split; [done|]. right. split; [|done]. intros [?|?]%elem_of_cons; [lia|done].
    + intros [[Hne [[= -> ->]|Hl]%elem_of_cons]|[-> [(l0 & [[= ? ?]|Hl0]%elem_of_cons & ->)|[Hr ->]]]].
      * by left.
      * right. left. done.
      * lia.
      * right. right. split; [done|]. left. by exists l0.
      * right. right. split; [done|]. right. split; [set_solver|done].
Qed.

Lemma push_group_grouped pre groups node :
  grouped pre groups → grouped (pre ++ [node]) (push_group groups (key node) node).
Proof.
  intros [Hs Hg]. split; [by apply push_group_sorted|]. intros k l. rewrite push_group_elem by done.
  rewrite filter_app, filter_cons, filter_nil.
  assert (k ∈ groups.*1 ↔ filter (λ x, key x = k) pre ≠ []) as Hkeys.
  { rewrite list_elem_of_fmap. split.
    - intros ([k' l'] & -> & Hl). apply Hg in Hl as [-> ?]. done.
    - intros Hf. exists (k, filter (λ x, key x = k) pre). split; [done|]. by apply Hg. }
  destruct (decide (key node = k)) as [<-|Hk].
  - split.
    + intros [[? _]|[_ [(l0 & [-> _]%Hg & ->)|[Hr ->]]]]; [done|split; [done|by destruct (filter _ _)]|].
      split; [|done]. destruct (filter _ pre) eqn:Hf; [done|]. destruct Hr. by apply Hkeys.
    + intros [-> _]. right. split; [done|]. destruct (filter (λ x, key x = key node) pre) as [|z l0] eqn:Hf.
      * right. split; [|done]. intros Hin%Hkeys. done.
      * left. exists (z :: l0). split; [|done]. by apply Hg; rewrite Hf.
  - rewrite app_nil_r, <-Hg. split; [intros [[_ ?]|[-> _]]; done|]. intros ?. left. split; [|done].
    intros ->. done.
Qed.

End groups.

(** ** The whole function *)

Lemma rtsc_ext {A} (E E' : relation A) x y : (∀ a b, E a b ↔ E' a b) → rtsc E x y ↔ rtsc E' x y.
Proof.
  intros HE. split; apply rtc_subrel; intros a b [Hab|Hab]; [left|right|left|right]; by apply HE.
Qed.

Section result.
Context {G Id : Type} `{!EqDecision Id} `{!DenseElementIndex G Id} `{!ContainsElement G Id}.
Context `{!ElementSuccessors G Id} `{!ElementPredecessors G Id}.
Context (g : G) `{!TopologyLaws (Id := Id) g}.

(** Undirected reachability inside the set. *)
Definition weakly_connected (elements : list Id) : relation Id :=
  rtsc (λ x y, x ∈ elements ∧ y ∈ induced g elements x).

Section passes.
Context (nodes : list Id) (member : list bool) (fuel : nat).
Hypothesis Hnodes : Forall (visible g) nodes.
Hypothesis Hnd : NoDup nodes.
Hypothesis Hmember : marks_agree g (λ v, v = true) member nodes.
Hypothesis Hfuel : element_bound g < fuel.
Hypothesis Hwidth : (Z.of_nat (element_bound g) < 2 ^ 255)%Z.

Definition represents (E : relation Id) (st : list nat * list Z) : Prop :=
  ∃ R, Forest (element_bound g) st.1 st.2 R ∧
    ∀ x y, x ∈ nodes → y ∈ nodes → R (element_index g x) = R (element_index g y) ↔ rtsc E x y.

Lemma represents_ext E E' st : (∀ a b, E a b ↔ E' a b) → represents E st → represents E' st.
Proof using Type.
  intros HE (R & HF & HR). exists R. split; [done|]. intros x y Hx Hy. rewrite HR by done. by apply rtsc_ext.
Qed.

Lemma node_index x : x ∈ nodes → element_index g x < element_bound g.
Proof using Hnodes TopologyLaws0. intros Hx. apply index_bound. rewrite Forall_forall in Hnodes. by apply Hnodes. Qed.

Lemma union_edge_Ok {Er} E st x y :
  (∀ a b, E a b → a ∈ nodes ∧ b ∈ nodes) → represents E st → x ∈ nodes → visible g y →
  ∃ st', union_edge (E:=Er) fuel g member (element_index g x) st y = Ok st' ∧
    represents (λ a b, E a b ∨ (a = x ∧ b = y ∧ y ∈ nodes)) st'.
Proof using All.
  intros HE (R & HF & HR) Hx Hvy. destruct st as [parent rank]. unfold union_edge. cbv zeta.
  rewrite (is_member_Ok _ _ _ _ Hmember Hvy). cbn [mbind res_bind]. case_bool_decide as Hy.
  2:{ exists (parent, rank). split; [done|]. exists R. split; [done|]. intros a b Ha Hb.
      rewrite HR by done. apply rtsc_ext. naive_solver. }
  destruct (union_Ok (E:=Er) (element_bound g) fuel parent rank R (element_index g x) (element_index g y) HF)
    as (parent' & rank' & R' & -> & HF' & Hj); [by apply node_index|by apply node_index|done|done|].
  exists (parent', rank'). split; [done|]. exists R'. split; [done|].
  apply (rep_join (λ x, x ∈ nodes) (λ x, R (element_index g x)) _ E _ x y); try done; [naive_solver|].
  intros a b Ha Hb. apply Hj; by apply node_index.
Qed.

Lemma union_pass_Ok {Er} :
  ∃ st, for_each (E:=Er) (λ st node,
      for_each (union_edge fuel g member (element_index g node)) (element_successors g node) st)
    nodes (seq 0 (element_bound g), replicate (element_bound g) 0%Z) = Ok st ∧
  represents (λ x y, x ∈ nodes ∧ y ∈ induced g nodes x) st.
Proof using All.
  apply (for_each_inv (λ pre, represents (λ x y, x ∈ pre ∧ y ∈ induced g nodes x))).
  { exists (λ x, x). split; [apply forest_init|]. intros x y Hx Hy. split.
    - intros He. rewrite Forall_forall in Hnodes.
      by rewrite (index_inj (g:=g) x y (Hnodes x Hx) (Hnodes y Hy) He).
    - assert (∀ a b : Id, rtsc (λ x y, x ∈ [] ∧ y ∈ induced g nodes x) a b → a = b) as Hid.
      { induction 1 as [|a b c [[?%not_elem_of_nil _]|[?%not_elem_of_nil _]] _ _]; done. }
      by intros ->%Hid. }
  intros pre x post st Heq Hst. assert (x ∈ nodes) as Hx by (rewrite Heq; set_solver).
  destruct (for_each_inv (E:=Er) (λ done, represents (λ a b, (a ∈ pre ∧ b ∈ induced g nodes a) ∨
      (a = x ∧ b ∈ done ∧ b ∈ nodes))) (union_edge fuel g member (element_index g x))
    (element_successors g x) st) as (st' & Hrun & Hst').
  - eapply represents_ext; [|exact Hst]. intros a b. cbn beta. rewrite elem_of_nil. naive_solver.
  - intros d y rest st2 Hd Hst2.
    assert (y ∈ element_successors g x) as Hy by (rewrite Hd; set_solver).
    destruct (union_edge_Ok (Er:=Er) (λ a b, (a ∈ pre ∧ b ∈ induced g nodes a) ∨
      (a = x ∧ b ∈ d ∧ b ∈ nodes)) st2 x y) as (st3 & Hr3 & Hst3); [|exact Hst2|done| |].
    + intros a b [[Ha Hb]|(-> & _ & Hb)]; [|by split]. apply elem_of_induced in Hb as [Hb _].
      split; [|done]. rewrite Heq. set_solver.
    + apply (successors_contained (g:=g) x); [|done]. rewrite Forall_forall in Hnodes. by apply Hnodes.
    + exists st3. split; [done|]. eapply represents_ext; [|exact Hst3]. intros a b. cbn beta.
      rewrite elem_of_app, list_elem_of_singleton. naive_solver.
  - exists st'. split; [done|]. eapply represents_ext; [|exact Hst']. intros a b. cbn beta.
    rewrite elem_of_app, list_elem_of_singleton, (elem_of_induced g). naive_solver.
Qed.

Lemma group_pass_Ok {Er} parent rank R :
  Forest (element_bound g) parent rank R →
  ∃ st, for_each (E:=Er) (group_step fuel g) nodes (parent, []) = Ok st ∧
    grouped (λ x, R (element_index g x)) nodes st.2.
Proof using All.
  intros HF.
  destruct (for_each_inv (E:=Er) (λ pre st, Forest (element_bound g) st.1 rank R ∧
      grouped (λ x, R (element_index g x)) pre st.2) (group_step fuel g) nodes (parent, []))
    as (st & Hrun & _ & Hg); [| |by exists st].
  - split; [done|]. split; [constructor|]. intros k l. rewrite filter_nil, elem_of_nil. naive_solver.
  - intros pre x post [p gs] Heq [HFp Hg]. cbn [fst snd] in *. unfold group_step.
    assert (x ∈ nodes) as Hx by (rewrite Heq; set_solver).
    destruct (find_fuel (E:=Er) (element_bound g) fuel p rank R (element_index g x) HFp (node_index x Hx) Hfuel)
      as (p' & -> & HF'). cbn [mbind res_bind mret res_ret]. eexists. split; [done|]. cbn [fst snd].
    split; [done|]. by apply (push_group_grouped (λ x, R (element_index g x))).
Qed.

End passes.

(** [groups] partitions the requested elements into the classes of [rel]. *)
Record Partition (elements : list Id) (rel : relation Id) (groups : list (list Id)) : Prop := {
  part_nonempty : Forall (λ l, l ≠ [] ∧ NoDup l) groups;
  part_cover : ∀ x, x ∈ elements ↔ ∃ l, l ∈ groups ∧ x ∈ l;
  part_disjoint : ∀ i j li lj x, groups !! i = Some li → groups !! j = Some lj → x ∈ li → x ∈ lj → i = j;
  part_classes : ∀ l x y, l ∈ groups → x ∈ l → y ∈ elements → y ∈ l ↔ rel x y
}.

(** The groups of a key function are the classes of its kernel. *)
Lemma grouped_partition (key : Id → nat) nodes elements rel groups :
  grouped key nodes groups → NoDup nodes → (∀ x, x ∈ nodes ↔ x ∈ elements) →
  (∀ x y, x ∈ nodes → y ∈ nodes → key x = key y ↔ rel x y) →
  Partition elements rel groups.*2.
Proof.
  intros [Hs Hg] Hnd Hel Hkey.
  assert (∀ k l, (k, l) ∈ groups → ∀ x, x ∈ l ↔ key x = k ∧ x ∈ nodes) as Hin.
  { intros k l [-> _]%Hg x. by rewrite list_elem_of_filter. }
  split.
  - apply Forall_forall. intros l ([k l'] & -> & Hl)%list_elem_of_fmap. apply Hg in Hl as [-> ?].
    split; [done|]. by apply NoDup_filter.
  - intros x. split.
    + intros Hx%Hel. exists (filter (λ y, key y = key x) nodes).
      assert (x ∈ filter (λ y, key y = key x) nodes) as Hx' by by apply list_elem_of_filter.
      split; [|done]. apply list_elem_of_fmap. exists (key x, filter (λ y, key y = key x) nodes).
      split; [done|]. apply Hg. split; [done|]. intros Hf. rewrite Hf in Hx'. by apply not_elem_of_nil in Hx'.
    + intros (l & ([k l'] & -> & Hl)%list_elem_of_fmap & Hx). apply Hel. by apply (Hin k l' Hl) in Hx as [_ ?].
  - intros i j li lj x Hi Hj Hxi Hxj.
    apply list_lookup_fmap_Some in Hi as ([ki li'] & -> & Hi), Hj as ([kj lj'] & -> & Hj).
    apply (Hin ki li' (list_elem_of_lookup_2 _ _ _ Hi)) in Hxi as [Hki _].
    apply (Hin kj lj' (list_elem_of_lookup_2 _ _ _ Hj)) in Hxj as [Hkj _].
    rewrite StronglySorted_lookup in Hs.
    assert (groups.*1 !! i = Some ki) as Hi1 by by rewrite list_lookup_fmap, Hi.
    assert (groups.*1 !! j = Some kj) as Hj1 by by rewrite list_lookup_fmap, Hj.
    destruct (Nat.lt_trichotomy i j) as [Hlt|[?|Hlt]]; [|done|].
    + pose proof (Hs i j ki kj Hlt Hi1 Hj1). lia.
    + pose proof (Hs j i kj ki Hlt Hj1 Hi1). lia.
  - intros l x y ([k l'] & -> & Hl)%list_elem_of_fmap Hx Hy. cbn [snd] in *.
    rewrite (Hin k l' Hl) in Hx |- *. destruct Hx as [<- Hx]. apply Hel in Hy.
    rewrite <-Hkey by done. naive_solver.
Qed.

(** C7. [connected_components] over visible elements never panics (no rank
    increment overflows its [u8]) and partitions the requested elements into the
    classes of undirected reachability inside the set, each class in input
    order. *)
Theorem connected_components_correct {Er} fuel elements :
  Forall (visible g) elements → element_bound g < fuel → (Z.of_nat (element_bound g) ≤ u64_max)%Z →
  ∃ groups, connected_components (E:=Er) fuel g elements = Ok groups ∧
    Partition elements (weakly_connected elements) groups ∧
    Forall (λ l, l `sublist_of` elements) groups.
Proof.
  intros Hv Hf Hw. destruct (collect_members_Ok (E:=Er) g elements Hv) as (member & nodes & Hc & Hm & Hnd & Hel & Hsub).
  assert (Forall (visible g) nodes) as Hvn.
  { rewrite Forall_forall in Hv |- *. intros x Hx. by apply Hv, Hel. }
  assert (Z.of_nat (element_bound g) < 2 ^ 255)%Z as Hw' by (unfold u64_max in Hw; lia).
  destruct (union_pass_Ok (Er:=Er) nodes member fuel Hvn Hnd Hm Hf Hw') as ([parent rank] & Hu & R & HF & HR).
  destruct (group_pass_Ok (Er:=Er) nodes member fuel Hvn Hnd Hm Hf Hw' parent rank R HF) as ([p' groups] & Hg & Hgr).
  exists groups.*2. split; [|split].
  - unfold connected_components. rewrite Hc. cbn [mbind res_bind]. rewrite Hu. cbn [mbind res_bind].
    rewrite Hg. done.
  - apply (grouped_partition (λ x, R (element_index g x)) nodes); [exact Hgr|done|done|].
    intros x y Hx Hy. rewrite HR by done. apply rtsc_ext. intros a b. by rewrite Hel, !elem_of_induced, Hel.
  - apply Forall_forall. intros l ([k l'] & -> & Hl)%list_elem_of_fmap. apply Hgr in Hl as [-> _].
    etrans; [|exact Hsub]. apply sublist_filter.
Qed.

End result.

Definition demo_islands : list_graph := {| adjacency := [[3]; []; [4]; []; []; [1]] |}.

Lemma demo_islands_laws : TopologyLaws (Id := nat) demo_islands.
Proof. apply list_graph_laws. repeat constructor; cbn; lia. Qed.

(** 5 is not requested, so 1 is alone. *)
Lemma connected_components_correct_witness :
  ∃ groups, connected_components (E:=()) 7 demo_islands [4; 1; 0; 2; 3; 0] = Ok groups ∧
    groups = [[0; 3]; [1]; [4; 2]] ∧
    Partition [4; 1; 0; 2; 3; 0] (weakly_connected demo_islands [4; 1; 0; 2; 3; 0]) groups.
Proof.
  destruct (connected_components_correct (Er:=()) demo_islands (TopologyLaws0 := demo_islands_laws) 7 [4; 1; 0; 2; 3; 0])
    as (groups & Hg & Hp & _); [repeat constructor|cbn; lia|vm_compute; discriminate|].
  exists groups. split; [done|]. split; [|done]. vm_compute in Hg. apply Ok_inj in Hg. by rewrite <-Hg.
Defined.
