(* ===== verification/Scc.v ===== *)
(** * Scc: strongly connected components

    Models [crates/oxgraph-algo/src/scc.rs]: Tarjan's algorithm with an explicit
    work stack. The [Vec]s used as stacks ([stack], [work]) are lists with the
    top first; the others grow at the end. An [usize] is a [Z], so the sentinel
    [UNVISITED] and the counter's overflow are as in the code.

    A ghost state cuts the Tarjan stack into one segment per work frame: the
    frame's node with the finished nodes above it. A segment is strongly
    connected, and its frame's lowlink bounds the order of every stack node an
    explored edge of the segment reaches. A root's segment is then a whole
    strongly connected component. *)

From stdpp Require Import base gmap sets list sorting.
From S2P Require Import Prelude Topology BfsSpec Bfs BfsFacts Algo AlgoFacts ComponentsFacts.

Definition UNVISITED `{Target} : Z := usize_max.

Record Frame (Id : Type) := {
  fr_node : Id;
  fr_successors : list Id;
  fr_position : nat
}.
Arguments fr_node {_} _.
Arguments fr_successors {_} _.
Arguments fr_position {_} _.

Record TarjanScratch (Id : Type) := {
  order_index : list Z;
  lowlink : list Z;
  on_stack : list bool;
  stack : list Id;
  components : list (list Id);
  counter : Z
}.
Arguments order_index {_} _.
Arguments lowlink {_} _.
Arguments on_stack {_} _.
Arguments stack {_} _.
Arguments components {_} _.
Arguments counter {_} _.

Section scc.
Context `{!Target} {G Id : Type} `{!EqDecision Id} `{!DenseElementIndex G Id} `{!ElementSuccessors G Id}.

(** The context [Induced] of the helpers: the view and the membership marks. *)
Definition member_successors {E} (g : G) (member : list bool) (node : Id) : res E (list Id) :=
  for_each (λ found successor,
    inside ← is_member g member (element_index g successor);
    Ok (if (inside : bool) then found ++ [successor] else found)) (element_successors g node) [].

Definition scc_discover {E} (g : G) (member : list bool) (node : Id) (scratch : TarjanScratch Id)
    (work : list (Frame Id)) : res E (TarjanScratch Id * list (Frame Id)) :=
  let index := element_index g node in
  order ← vset (order_index scratch) index (counter scratch);
  low ← vset (lowlink scratch) index (counter scratch);
  next ← or_panic (checked_add usize_max (counter scratch) 1);
  marks ← vset (on_stack scratch) index true;
  successors ← member_successors g member node;
  mret ({| order_index := order; lowlink := low; on_stack := marks; stack := node :: stack scratch;
           components := components scratch; counter := next |},
        {| fr_node := node; fr_successors := successors; fr_position := 0 |} :: work).

Definition with_lowlink (scratch : TarjanScratch Id) (low : list Z) : TarjanScratch Id :=
  {| order_index := order_index scratch; lowlink := low; on_stack := on_stack scratch;
     stack := stack scratch; components := components scratch; counter := counter scratch |}.

(** [if value < lowlink[index] { lowlink[index] = value }]. *)
Definition relax_lowlink {E} (scratch : TarjanScratch Id) (index : nat) (value : Z)
    : res E (TarjanScratch Id) :=
  l ← vget (lowlink scratch) index;
  if decide (value < l)%Z then low ← vset (lowlink scratch) index value; mret (with_lowlink scratch low)
  else Ok scratch.

Definition scc_advance {E} (g : G) (member : list bool) (node successor : Id) (scratch : TarjanScratch Id)
    (work : list (Frame Id)) : res E (TarjanScratch Id * list (Frame Id)) :=
  let target := element_index g successor in
  o ← vget (order_index scratch) target;
  if decide (o = UNVISITED) then scc_discover g member successor scratch work else
  s ← vget (on_stack scratch) target;
  if (s : bool) then
    scratch ← relax_lowlink scratch (element_index g node) o;
    mret (scratch, work)
  else Ok (scratch, work).

(** The loop of [pop_component]: the marks, the component and the stack left. *)
Fixpoint pop_until {E} (g : G) (root_index : nat) (marks : list bool) (component st : list Id)
    : res E (list bool * list Id * list Id) :=
  match st with
  | [] => Ok (marks, component, [])
  | popped :: st =>
      let popped_index := element_index g popped in
      marks ← vset marks popped_index false;
      let component := component ++ [popped] in
      if decide (popped_index = root_index) then Ok (marks, component, st)
      else pop_until g root_index marks component st
  end.

Definition pop_component {E} (g : G) (root_index : nat) (scratch : TarjanScratch Id)
    : res E (TarjanScratch Id) :=
  '(marks, component, st) ← pop_until g root_index (on_stack scratch) [] (stack scratch);
  mret {| order_index := order_index scratch; lowlink := lowlink scratch; on_stack := marks;
          stack := st; components := components scratch ++ [component]; counter := counter scratch |}.

Definition scc_finish {E} (g : G) (node : Id) (scratch : TarjanScratch Id) (work : list (Frame Id))
    : res E (TarjanScratch Id * list (Frame Id)) :=
  let node_index := element_index g node in
  l ← vget (lowlink scratch) node_index;
  o ← vget (order_index scratch) node_index;
  scratch ← (if decide (l = o) then pop_component g node_index scratch else Ok scratch);
  let work := tail work in
  match work with
  | [] => Ok (scratch, work)
  | parent :: _ =>
      l ← vget (lowlink scratch) node_index;
      scratch ← relax_lowlink scratch (element_index g (fr_node parent)) l;
      mret (scratch, work)
  end.

(** The body of the loop of [scc_visit], on a non-empty work stack. *)
Definition visit_step {E} (g : G) (member : list bool) (scratch : TarjanScratch Id)
    (top : Frame Id) (rest : list (Frame Id)) : res E (TarjanScratch Id * list (Frame Id)) :=
  if decide (fr_position top < length (fr_successors top)) then
    successor ← vget (fr_successors top) (fr_position top);
    scc_advance g member (fr_node top) successor scratch
      ({| fr_node := fr_node top; fr_successors := fr_successors top;
          fr_position := S (fr_position top) |} :: rest)
  else scc_finish g (fr_node top) scratch (top :: rest).

(** [while let Some(top) = work.last_mut()]. *)
Fixpoint visit_loop {E} (fuel : nat) (g : G) (member : list bool) (scratch : TarjanScratch Id)
    (work : list (Frame Id)) : res E (TarjanScratch Id) :=
  match fuel with
  | O => NoFuel
  | S fuel =>
      match work with
      | [] => Ok scratch
      | top :: rest =>
          '(scratch, work) ← visit_step g member scratch top rest;
          visit_loop fuel g member scratch work
      end
  end.

Definition scc_visit {E} (fuel : nat) (g : G) (member : list bool) (start : Id) (scratch : TarjanScratch Id)
    : res E (TarjanScratch Id) :=
  '(scratch, work) ← scc_discover g member start scratch [];
  visit_loop fuel g member scratch work.

Definition visit_start {E} (fuel : nat) (g : G) (member : list bool) (scratch : TarjanScratch Id)
    (start : Id) : res E (TarjanScratch Id) :=
  o ← vget (order_index scratch) (element_index g start);
  if decide (o = UNVISITED) then scc_visit fuel g member start scratch else Ok scratch.

Definition strongly_connected_components {E} (fuel : nat) (g : G) (elements : list Id)
    : res E (list (list Id)) :=
  '(member, nodes) ← collect_members g elements;
  scratch ← for_each (visit_start fuel g member) nodes
    {| order_index := replicate (element_bound g) UNVISITED; lowlink := replicate (element_bound g) 0%Z;
       on_stack := replicate (element_bound g) false; stack := []; components := []; counter := 0 |};
  Ok (components scratch).

End scc.

Example scc_small :
  strongly_connected_components (E:=()) (H := target64) 20
    {| adjacency := [[1]; [2; 3]; [0]; [4]; [3; 5]; []] |} [5; 0; 1; 2; 3; 4; 0] =
  Ok [[5]; [4; 3]; [2; 1; 0]].
Proof. vm_compute. reflexivity. Qed.

(** ** Correctness *)

Lemma sum_list_with_le {A} (f f' : A → nat) l :
  (∀ x, x ∈ l → f x ≤ f' x) → sum_list_with f l ≤ sum_list_with f' l.
Proof.
  induction l as [|x l IH]; intros Hf; cbn; [lia|].
  pose proof (Hf x ltac:(by left)). specialize (IH ltac:(intros y Hy; apply Hf; by right)). lia.
Qed.

(** A concatenation without repetitions: its parts have none and are disjoint. *)
Lemma NoDup_mjoin {A} (l : list (list A)) :
  NoDup (mjoin l) →
  (∀ i c, l !! i = Some c → NoDup c) ∧
  (∀ i j c d x, l !! i = Some c → l !! j = Some d → x ∈ c → x ∈ d → i = j).
Proof.
  induction l as [|a l IH]; [by split|]. cbn [mjoin list_join].
  intros (Ha & Hd & Hl)%NoDup_app. destruct (IH Hl) as [IH1 IH2].
  assert (∀ j d x, l !! j = Some d → x ∈ d → x ∈ mjoin l) as Hin.
  { intros j d x Hj Hx. apply list_elem_of_join. exists d. split; [done|]. by eapply list_elem_of_lookup_2. }
  split.
  - intros [|i] c Hi; cbn in Hi; [by injection Hi as <-|by apply (IH1 i)].
  - intros [|i] [|j] c d x Hi Hj Hc Hd'; cbn in Hi, Hj; [done| | |f_equal; by apply (IH2 i j c d x)].
    + injection Hi as <-. destruct (Hd x Hc). by apply (Hin j d).
    + injection Hj as <-. destruct (Hd x Hd'). by apply (Hin i c).
Qed.

Section scc.
Context `{!Target} {G Id : Type} `{!EqDecision Id} `{!DenseElementIndex G Id} `{!ContainsElement G Id}.
Context `{!ElementSuccessors G Id} `{!ElementPredecessors G Id}.
Context (g : G) `{!TopologyLaws (Id := Id) g}.
Context (nodes : list Id).

Abbreviation E := (induced g nodes).

Definition leads : relation Id := λ x y, y ∈ E x.
Abbreviation reach := (rtc leads).

Definition strongly_connected (x y : Id) : Prop := reach x y ∧ reach y x.

(** ** The ghost state *)

(** One work frame: its node, its unexplored successors and its segment of the
    stack, top first. *)
Record Segment := { sg_node : Id; sg_rest : list Id; sg_members : list Id }.

Definition stack_of (segs : list Segment) : list Id := mjoin (sg_members <$> segs).
Definition done_of (comps : list (list Id)) : list Id := mjoin comps.

Definition is_component (c : list Id) : Prop :=
  c ≠ [] ∧ ∀ x y, x ∈ c → y ∈ nodes → y ∈ c ↔ strongly_connected x y.

(** [st] is the whole stack. *)
Record SegmentOk (o low : Id → Z) (st : list Id) (s : Segment) : Prop := {
  sg_last : ∃ above, sg_members s = above ++ [sg_node s];
  sg_suffix : ∃ explored, E (sg_node s) = explored ++ sg_rest s;
  sg_connected : ∀ x, x ∈ sg_members s → strongly_connected (sg_node s) x;
  sg_explored : ∀ x y, x ∈ sg_members s → y ∈ E x →
    (x = sg_node s ∧ y ∈ sg_rest s) ∨ (o y ≠ UNVISITED ∧ (y ∈ st → (low (sg_node s) ≤ o y)%Z));
  sg_low_le : (low (sg_node s) ≤ o (sg_node s))%Z;
  sg_low_reached : ∃ u, u ∈ st ∧ o u = low (sg_node s) ∧ reach (sg_node s) u
}.

Record Tarjan (segs : list Segment) (comps : list (list Id)) (o low : Id → Z) (count : Z) : Prop := {
  tj_nodup : NoDup (stack_of segs ++ done_of comps);
  tj_nodes : ∀ x, x ∈ stack_of segs ++ done_of comps → x ∈ nodes;
  tj_visited : ∀ x, x ∈ nodes → o x ≠ UNVISITED ↔ x ∈ stack_of segs ++ done_of comps;
  tj_sorted : StronglySorted (λ x y, (o y < o x)%Z) (stack_of segs);
  tj_order : ∀ x, x ∈ stack_of segs → (o x < count)%Z;
  tj_count : count = zlen (stack_of segs ++ done_of comps);
  tj_closed : ∀ i c x y, comps !! i = Some c → x ∈ c → y ∈ E x →
    ∃ j d, j ≤ i ∧ comps !! j = Some d ∧ y ∈ d;
  tj_components : Forall is_component comps;
  tj_segments : Forall (SegmentOk o low (stack_of segs)) segs;
  tj_links : StronglySorted (λ s t, reach (sg_node t) (sg_node s)) segs
}.

Lemma stack_cons s segs : stack_of (s :: segs) = sg_members s ++ stack_of segs.
Proof. done. Qed.

Lemma elem_of_stack segs x : x ∈ stack_of segs ↔ ∃ s, s ∈ segs ∧ x ∈ sg_members s.
Proof.
  unfold stack_of. rewrite list_elem_of_join. setoid_rewrite list_elem_of_fmap. naive_solver.
Qed.

Lemma elem_of_done comps x : x ∈ done_of comps ↔ ∃ i c, comps !! i = Some c ∧ x ∈ c.
Proof.
  unfold done_of. rewrite list_elem_of_join. setoid_rewrite list_elem_of_lookup at 2. naive_solver.
Qed.

Lemma done_snoc comps c : done_of (comps ++ [c]) = done_of comps ++ c.
Proof. unfold done_of. rewrite join_app. cbn. by rewrite app_nil_r. Qed.

Lemma done_closed segs comps o low count x y :
  Tarjan segs comps o low count → x ∈ done_of comps → reach x y → y ∈ done_of comps.
Proof.
  intros HT Hx Hxy. revert Hx. induction Hxy as [|x z y Hz _ IH]; [done|]. intros Hx. apply IH.
  apply elem_of_done in Hx as (i & c & Hi & Hx).
  destruct (tj_closed _ _ _ _ _ HT i c x z Hi Hx Hz) as (j & d & _ & Hj & Hd).
  apply elem_of_done. by exists j, d.
Qed.

(** The top segment lies above the rest in discovery order. *)
Lemma top_above s segs comps o low count x y :
  Tarjan (s :: segs) comps o low count → x ∈ sg_members s → y ∈ stack_of segs → (o y < o x)%Z.
Proof.
  intros HT Hx Hy. pose proof (tj_sorted _ _ _ _ _ HT) as Hs. rewrite stack_cons in Hs.
  rewrite StronglySorted_app in Hs. by apply Hs.
Qed.

Lemma top_least s segs comps o low count x :
  Tarjan (s :: segs) comps o low count → x ∈ sg_members s → (o (sg_node s) ≤ o x)%Z.
Proof.
  intros HT Hx. pose proof (tj_segments _ _ _ _ _ HT) as Hsegs. inversion Hsegs as [|? ? Hs _]; subst.
  destruct (sg_last _ _ _ _ Hs) as [above Habove]. rewrite Habove in Hx.
  apply elem_of_app in Hx as [Hx|Hx%list_elem_of_singleton]; [|by subst x].
  pose proof (tj_sorted _ _ _ _ _ HT) as Hst. rewrite stack_cons, Habove, <-app_assoc in Hst.
  rewrite StronglySorted_app in Hst. destruct Hst as (Hlt & _).
  assert (o (sg_node s) < o x)%Z; [|lia]. apply Hlt; [done|]. by left.
Qed.

Lemma segment_node s o low st : SegmentOk o low st s → sg_node s ∈ sg_members s.
Proof. intros Hs. destruct (sg_last _ _ _ _ Hs) as [above ->]. set_solver. Qed.

(** ** One step of the ghost state *)

Definition upd {A} (f : Id → A) (x : Id) (v : A) : Id → A := λ y, if decide (y = x) then v else f y.

Lemma upd_eq {A} (f : Id → A) x v : upd f x v x = v.
Proof. unfold upd. by rewrite decide_True. Qed.

Lemma upd_ne {A} (f : Id → A) x v y : y ≠ x → upd f x v y = f y.
Proof. intros Hy. unfold upd. by rewrite decide_False. Qed.

Lemma fresh_not_stacked segs comps o low count y :
  Tarjan segs comps o low count → y ∈ nodes → o y = UNVISITED → y ∉ stack_of segs ++ done_of comps.
Proof. intros HT Hy Ho Hin. by apply (tj_visited _ _ _ _ _ HT) in Hin. Qed.

(** Discovering [y] opens a segment. *)
Lemma discover_ghost segs comps o low count y :
  Tarjan segs comps o low count → y ∈ nodes → o y = UNVISITED → count ≠ UNVISITED →
  (∀ s, s ∈ segs → reach (sg_node s) y) →
  Tarjan ({| sg_node := y; sg_rest := E y; sg_members := [y] |} :: segs) comps
    (upd o y count) (upd low y count) (count + 1).
Proof.
  intros HT Hy Ho Hc Hreach. pose proof (fresh_not_stacked _ _ _ _ _ _ HT Hy Ho) as Hfresh.
  assert (∀ x, x ∈ stack_of segs → upd o y count x = o x) as Hsame.
  { intros x Hx. apply upd_ne. intros ->. apply Hfresh, elem_of_app. by left. }
  split; rewrite ?stack_cons; cbn [sg_members sg_node app].
  - constructor; [done|apply HT].
  - intros x [->|Hx]%elem_of_cons; [done|]. by apply HT.
  - intros x Hx. rewrite elem_of_cons, <-(tj_visited _ _ _ _ _ HT x Hx).
    destruct (decide (x = y)) as [->|Hne]; [rewrite upd_eq; naive_solver|rewrite upd_ne by done; naive_solver].
  - apply StronglySorted_cons. split.
    + apply Forall_forall. intros x Hx. rewrite upd_eq, Hsame by done. by apply HT.
    + pose proof (tj_sorted _ _ _ _ _ HT) as Hs. revert Hs. rewrite !StronglySorted_lookup.
      intros Hs i j a b Hij Ha Hb. rewrite !Hsame by by eapply list_elem_of_lookup_2. by apply (Hs i j).
  - intros x [->|Hx]%elem_of_cons; [rewrite upd_eq; lia|]. rewrite Hsame by done.
    pose proof (tj_order _ _ _ _ _ HT x Hx). lia.
  - rewrite (tj_count _ _ _ _ _ HT). unfold zlen. cbn [length]. lia.
  - apply HT.
  - apply HT.
  - apply Forall_cons. split.
    + split; cbn [sg_members sg_node sg_rest].
      * by exists [].
      * by exists [].
      * intros x ->%list_elem_of_singleton. by split.
      * intros x z ->%list_elem_of_singleton Hz. by left.
      * by rewrite !upd_eq.
      * exists y. rewrite !upd_eq. split_and!; [by left|done|done].
    + apply Forall_forall. intros s Hs. pose proof (tj_segments _ _ _ _ _ HT) as Hok.
      rewrite Forall_forall in Hok. specialize (Hok s Hs).
      assert (sg_node s ∈ stack_of segs) as Hn.
      { apply elem_of_stack. exists s. split; [done|]. by eapply segment_node. }
      assert (sg_node s ≠ y) as Hny by (intros <-; apply Hfresh, elem_of_app; by left).
      split; rewrite ?(upd_ne low) by done; [apply Hok..| | |].
      * intros x z Hx Hz. destruct (sg_explored _ _ _ _ Hok x z Hx Hz) as [?|[Hoz Hlow]]; [by left|right].
        assert (z ≠ y) as Hzy by congruence. rewrite upd_ne by done. split; [done|].
        intros [?|?]%elem_of_cons; [done|by apply Hlow].
      * rewrite Hsame by done. apply Hok.
      * destruct (sg_low_reached _ _ _ _ Hok) as (u & Hu & Hou & Hru). exists u.
        rewrite Hsame by done. split_and!; [by right|done|done].
  - apply StronglySorted_cons. split; [|apply HT]. apply Forall_forall. intros s Hs. by apply Hreach.
Qed.

(** Only the segments' own conditions depend on the unexplored successors and
    on the lowlinks. *)
Lemma replace_segment pre s s' segs comps o low low' count :
  Tarjan (pre ++ s :: segs) comps o low count →
  sg_node s' = sg_node s → sg_members s' = sg_members s →
  (∀ x, x ≠ sg_node s → low' x = low x) →
  SegmentOk o low' (stack_of (pre ++ s :: segs)) s' →
  Tarjan (pre ++ s' :: segs) comps o low' count.
Proof.
  intros HT Hn Hm Hlow Hs'.
  assert (stack_of (pre ++ s' :: segs) = stack_of (pre ++ s :: segs)) as Hst.
  { unfold stack_of. rewrite !fmap_app, !join_app. cbn. by rewrite Hm. }
  assert (∀ t, t ∈ pre ++ segs → SegmentOk o low (stack_of (pre ++ s :: segs)) t) as Hother.
  { intros t Ht. pose proof (tj_segments _ _ _ _ _ HT) as Hok. rewrite Forall_forall in Hok.
    apply Hok. rewrite elem_of_app in *. rewrite elem_of_cons. naive_solver. }
  assert (SegmentOk o low (stack_of (pre ++ s :: segs)) s) as Hs.
  { pose proof (tj_segments _ _ _ _ _ HT) as Hok. rewrite Forall_forall in Hok. apply Hok. set_solver. }
  assert (∀ t, t ∈ pre ++ segs → low' (sg_node t) = low (sg_node t)) as Hkeep.
  { intros t Ht. apply Hlow. intros He. pose proof (tj_nodup _ _ _ _ _ HT) as Hnd.
    apply NoDup_app in Hnd as (Hnd & _). unfold stack_of in Hnd.
    rewrite fmap_app, join_app in Hnd. cbn in Hnd.
    pose proof (segment_node _ _ _ _ (Hother t Ht)) as Ht'. pose proof (segment_node _ _ _ _ Hs) as Hs1.
    rewrite He in Ht'. apply NoDup_app in Hnd as (_ & Hd1 & Hnd). apply NoDup_app in Hnd as (_ & Hd2 & _).
    apply elem_of_app in Ht as [Ht|Ht].
    - apply (Hd1 (sg_node s)); [apply elem_of_stack; by exists t|]. apply elem_of_app. by left.
    - apply (Hd2 (sg_node s)); [done|]. apply elem_of_stack. by exists t. }
  split; rewrite ?Hst; try apply HT.
  - apply Forall_forall. intros t Ht. assert (t ∈ pre ++ segs ∨ t = s') as [Hin| ->]; [set_solver| |done].
    specialize (Hother t Hin). specialize (Hkeep t Hin). split; rewrite ?Hkeep; apply Hother.
  - pose proof (tj_links _ _ _ _ _ HT) as Hl. rewrite StronglySorted_app in Hl |- *.
    rewrite StronglySorted_cons in Hl |- *. destruct Hl as (Hl1 & Hl2 & Hl3 & Hl4). rewrite Hn. split_and!; [|done..].
    intros a b Ha [->|Hb]%elem_of_cons; [rewrite Hn; apply Hl1; [done|by left]|]. apply Hl1; [done|by right].
Qed.

(** An explored edge leaves the frame's list. *)
Lemma consume_edge o low st w y rest members :
  SegmentOk o low st {| sg_node := w; sg_rest := y :: rest; sg_members := members |} →
  o y ≠ UNVISITED → (y ∈ st → (low w ≤ o y)%Z) →
  SegmentOk o low st {| sg_node := w; sg_rest := rest; sg_members := members |}.
Proof.
  intros Hs Hy Hlow. split; cbn [sg_members sg_node sg_rest]; try apply Hs.
  - destruct (sg_suffix _ _ _ _ Hs) as [ex Hex]. cbn in Hex. exists (ex ++ [y]). by rewrite <-app_assoc.
  - intros x z Hx Hz. destruct (sg_explored _ _ _ _ Hs x z Hx Hz) as [[-> Hin]|?]; [|by right].
    cbn in Hin. apply elem_of_cons in Hin as [->|?]; [by right|by left].
Qed.

(** Taking a stack node the frame reaches into the lowlink. *)
Lemma lower_low o low low' st s u :
  SegmentOk o low st s → u ∈ st → reach (sg_node s) u →
  low' (sg_node s) = Z.min (low (sg_node s)) (o u) → SegmentOk o low' st s.
Proof.
  intros Hs Hu Hr Hl. split; try apply Hs; rewrite ?Hl.
  - intros x y Hx Hy. destruct (sg_explored _ _ _ _ Hs x y Hx Hy) as [?|[? Hlow]]; [by left|right].
    split; [done|]. intros Hin. specialize (Hlow Hin). lia.
  - pose proof (sg_low_le _ _ _ _ Hs). lia.
  - destruct (Z.min_spec (low (sg_node s)) (o u)) as [[_ ->]|[_ ->]]; [apply Hs|by exists u].
Qed.

Lemma top_segment s segs comps o low count :
  Tarjan (s :: segs) comps o low count → SegmentOk o low (stack_of (s :: segs)) s.
Proof. intros HT. pose proof (tj_segments _ _ _ _ _ HT) as Hok. by inversion Hok. Qed.

(** Every edge out of a finished segment leads to the stack at the lowlink or
    above, or to a finished component. *)
Lemma finished_edges s segs comps o low count x y :
  Tarjan (s :: segs) comps o low count → sg_rest s = [] → x ∈ sg_members s → y ∈ E x →
  (y ∈ stack_of (s :: segs) ∧ (low (sg_node s) ≤ o y)%Z) ∨ y ∈ done_of comps.
Proof.
  intros HT Hrest Hx Hy. pose proof (top_segment _ _ _ _ _ _ HT) as Hs.
  destruct (sg_explored _ _ _ _ Hs x y Hx Hy) as [[_ Hin]|[Ho Hlow]].
  { rewrite Hrest in Hin. by apply not_elem_of_nil in Hin. }
  apply (tj_visited _ _ _ _ _ HT) in Ho as [Hst|?]%elem_of_app; [|by right|].
  - left. split; [done|]. by apply Hlow.
  - by apply elem_of_induced in Hy as [? _].
Qed.

(** A segment whose lowlink is its own order is a component. *)
Lemma root_component s segs comps o low count :
  Tarjan (s :: segs) comps o low count → sg_rest s = [] → low (sg_node s) = o (sg_node s) →
  (∀ x y, x ∈ sg_members s → y ∈ E x → y ∈ sg_members s ∨ y ∈ done_of comps) ∧
  is_component (sg_members s).
Proof.
  intros HT Hrest Hroot. pose proof (top_segment _ _ _ _ _ _ HT) as Hs.
  assert (∀ x y, x ∈ sg_members s → y ∈ E x → y ∈ sg_members s ∨ y ∈ done_of comps) as Hclosed.
  { intros x y Hx Hy. destruct (finished_edges _ _ _ _ _ _ _ _ HT Hrest Hx Hy) as [[Hst Hle]|?]; [left|by right].
    rewrite stack_cons in Hst. apply elem_of_app in Hst as [?|Hst]; [done|].
    pose proof (top_above _ _ _ _ _ _ _ _ HT (segment_node _ _ _ _ Hs) Hst). lia. }
  split; [done|]. split; [intros He; pose proof (segment_node _ _ _ _ Hs) as Hn; rewrite He in Hn; by apply not_elem_of_nil in Hn|].
  intros x y Hx Hyn. split.
  - intros Hy. destruct (sg_connected _ _ _ _ Hs x Hx), (sg_connected _ _ _ _ Hs y Hy). split; by etrans.
  - intros [Hxy Hyx].
    assert (y ∈ sg_members s ∨ y ∈ done_of comps) as [?|Hdone]; [|done|].
    + assert (∀ a b, reach a b → a ∈ sg_members s ∨ a ∈ done_of comps → b ∈ sg_members s ∨ b ∈ done_of comps)
        as Hstay; [|by apply (Hstay x y Hxy); left].
      intros a b Hab. induction Hab as [|a c b Hac _ IH]; [done|]. intros Ha. apply IH.
      destruct Ha as [Ha|Ha]; [by apply (Hclosed a)|right].
      apply (done_closed _ _ _ _ _ a c HT Ha). by apply rtc_once.
    + pose proof (done_closed _ _ _ _ _ y x HT Hdone Hyx) as Hxd.
      pose proof (tj_nodup _ _ _ _ _ HT) as Hnd. apply NoDup_app in Hnd as (_ & Hdis & _).
      destruct (Hdis x); [|done]. rewrite stack_cons. apply elem_of_app. by left.
Qed.

Lemma pop_ghost s segs comps o low count :
  Tarjan (s :: segs) comps o low count → sg_rest s = [] → low (sg_node s) = o (sg_node s) →
  Tarjan segs (comps ++ [sg_members s]) o low count.
Proof.
  intros HT Hrest Hroot. destruct (root_component _ _ _ _ _ _ HT Hrest Hroot) as [Hclosed Hcomp].
  assert (stack_of (s :: segs) ++ done_of comps ≡ₚ stack_of segs ++ done_of (comps ++ [sg_members s])) as Hperm.
  { rewrite stack_cons, done_snoc. solve_Permutation. }
  pose proof (tj_segments _ _ _ _ _ HT) as Hsegs. apply Forall_cons in Hsegs as [Hs Hsegs].
  split.
  - rewrite <-Hperm. apply HT.
  - intros x. rewrite <-Hperm. apply HT.
  - intros x. rewrite <-Hperm. apply HT.
  - pose proof (tj_sorted _ _ _ _ _ HT) as Hst. rewrite stack_cons, StronglySorted_app in Hst. apply Hst.
  - intros x Hx. apply (tj_order _ _ _ _ _ HT). rewrite stack_cons, elem_of_app. by right.
  - rewrite (tj_count _ _ _ _ _ HT). unfold zlen. by rewrite Hperm.
  - intros i c x y Hi Hx Hy. apply lookup_app_Some in Hi as [Hi|[Hi Hc]].
    + destruct (tj_closed _ _ _ _ _ HT i c x y Hi Hx Hy) as (j & d & Hj & Hd & Hyd).
      exists j, d. split_and!; [done| |done]. by apply lookup_app_l_Some.
    + apply list_lookup_singleton_Some in Hc as [Hi0 <-].
      destruct (Hclosed x y Hx Hy) as [Hin|(j & d & Hj & Hyd)%elem_of_done].
      * exists i, (sg_members s). split_and!; [done| |done]. replace i with (length comps) by lia.
        by apply list_lookup_middle.
      * exists j, d. pose proof (lookup_lt_Some _ _ _ Hj). split_and!; [lia| |done]. by apply lookup_app_l_Some.
  - apply Forall_app. split; [apply HT|]. by constructor.
  - apply Forall_forall. intros t Ht. rewrite Forall_forall in Hsegs. specialize (Hsegs t Ht).
    split; try apply Hsegs.
    + intros x y Hx Hy. destruct (sg_explored _ _ _ _ Hsegs x y Hx Hy) as [?|[? Hlow]]; [by left|right].
      split; [done|]. intros Hin. apply Hlow. rewrite stack_cons, elem_of_app. by right.
    + destruct (sg_low_reached _ _ _ _ Hsegs) as (u & Hu & Hou & Hru). exists u. split_and!; [|done..].
      rewrite stack_cons, elem_of_app in Hu. destruct Hu as [Hu|?]; [exfalso|done].
      assert (sg_node t ∈ stack_of segs) as Hn by (apply elem_of_stack; exists t; split; [done|by eapply segment_node]).
      pose proof (top_above _ _ _ _ _ _ _ _ HT Hu Hn). pose proof (sg_low_le _ _ _ _ Hsegs). lia.
  - pose proof (tj_links _ _ _ _ _ HT) as Hl. apply StronglySorted_cons in Hl as [_ Hl]. done.
Qed.

(** A finished segment that is no root joins the one below it. *)
Lemma merge_ghost s segs comps o low low' count :
  Tarjan (s :: segs) comps o low count → sg_rest s = [] → low (sg_node s) ≠ o (sg_node s) →
  ∃ p below, segs = p :: below ∧
    ((∀ x, x ≠ sg_node p → low' x = low x) → low' (sg_node p) = Z.min (low (sg_node p)) (low (sg_node s)) →
    Tarjan ({| sg_node := sg_node p; sg_rest := sg_rest p; sg_members := sg_members s ++ sg_members p |} :: below)
      comps o low' count).
Proof.
  intros HT Hrest Hne. pose proof (top_segment _ _ _ _ _ _ HT) as Hs.
  pose proof (sg_low_le _ _ _ _ Hs) as Hle.
  destruct (sg_low_reached _ _ _ _ Hs) as (u & Hu & Hou & Hru).
  assert (u ∈ stack_of segs) as Hus.
  { rewrite stack_cons, elem_of_app in Hu. destruct Hu as [Hu|?]; [exfalso|done].
    pose proof (top_least _ _ _ _ _ _ _ HT Hu). lia. }
  destruct segs as [|p below]; [by apply not_elem_of_nil in Hus|]. exists p, below. split; [done|].
  intros Hkeep Hmin. pose proof (tj_segments _ _ _ _ _ HT) as Hsegs.
  apply Forall_cons in Hsegs as [_ Hsegs]. pose proof Hsegs as Hsegs'. apply Forall_cons in Hsegs as [Hp Hbelow].
  pose proof (tj_links _ _ _ _ _ HT) as Hl. apply StronglySorted_cons in Hl as [Hls Hl].
  apply StronglySorted_cons in Hl as [Hlp Hlb]. apply Forall_cons in Hls as [Hps Hls].
  assert (reach (sg_node s) (sg_node p)) as Hsp.
  { etrans; [exact Hru|]. apply elem_of_stack in Hus as (t & Ht & Hut). rewrite Forall_forall in Hsegs'.
    etrans; [apply (sg_connected _ _ _ _ (Hsegs' t Ht) u Hut)|].
    apply elem_of_cons in Ht as [->|Ht]; [done|]. rewrite Forall_forall in Hlp. by apply Hlp. }
  set (q := {| sg_node := sg_node p; sg_rest := sg_rest p; sg_members := sg_members s ++ sg_members p |}).
  assert (stack_of (q :: below) = stack_of (s :: p :: below)) as Hst by (rewrite !stack_cons; cbn; by rewrite <-app_assoc).
  assert (∀ t, t ∈ below → low' (sg_node t) = low (sg_node t)) as Hkeep'.
  { intros t Ht. apply Hkeep. intros He. rewrite Forall_forall in Hbelow.
    pose proof (segment_node _ _ _ _ (Hbelow t Ht)) as Hnt. pose proof (segment_node _ _ _ _ Hp) as Hnp.
    pose proof (tj_nodup _ _ _ _ _ HT) as Hnd. apply NoDup_app in Hnd as (Hnd & _).
    rewrite !stack_cons in Hnd. apply NoDup_app in Hnd as (_ & _ & Hnd). apply NoDup_app in Hnd as (_ & Hd & _).
    apply (Hd (sg_node p)); [done|]. apply elem_of_stack. exists t. split; [done|]. by rewrite <-He. }
  split; rewrite ?Hst; try apply HT.
  - apply Forall_cons. split.
    + split; cbn [q sg_node sg_rest sg_members].
      * destruct (sg_last _ _ _ _ Hp) as [above Ha]. exists (sg_members s ++ above). by rewrite Ha, <-app_assoc.
      * apply Hp.
      * intros x [Hx|Hx]%elem_of_app; [|by apply Hp]. destruct (sg_connected _ _ _ _ Hs x Hx) as [Hsx Hxs].
        split; by etrans.
      * intros x y [Hx|Hx]%elem_of_app Hy; rewrite Hmin.
        -- right. destruct (finished_edges _ _ _ _ _ _ _ _ HT Hrest Hx Hy) as [[Hin Hlo]|Hd].
           ++ split; [|intros _; lia]. apply (tj_visited _ _ _ _ _ HT); [by apply elem_of_induced in Hy as [? _]|].
              apply elem_of_app. by left.
           ++ split; [apply (tj_visited _ _ _ _ _ HT); [by apply elem_of_induced in Hy as [? _]|]; apply elem_of_app; by right|].
              intros Hin. pose proof (tj_nodup _ _ _ _ _ HT) as Hnd. apply NoDup_app in Hnd as (_ & Hdis & _).
              by destruct (Hdis y Hin).
        -- destruct (sg_explored _ _ _ _ Hp x y Hx Hy) as [?|[? Hlo]]; [by left|right].
           split; [done|]. intros Hin. specialize (Hlo Hin). lia.
      * rewrite Hmin. pose proof (sg_low_le _ _ _ _ Hp). lia.
      * rewrite Hmin. destruct (Z.min_spec (low (sg_node p)) (low (sg_node s))) as [[_ ->]|[_ ->]]; [apply Hp|].
        exists u. split_and!; [done|done|]. by etrans.
    + apply Forall_forall. intros t Ht. rewrite Forall_forall in Hbelow. specialize (Hbelow t Ht).
      specialize (Hkeep' t Ht). split; rewrite ?Hkeep'; apply Hbelow.
  - apply StronglySorted_cons. by split.
Qed.

(** ** The code's steps *)

Section steps.
Context (member : list bool).
Hypothesis Hnodes : Forall (visible g) nodes.
Hypothesis Hnd : NoDup nodes.
Hypothesis Hmember : marks_agree g (λ v, v = true) member nodes.
Hypothesis Hbound : (Z.of_nat (element_bound g) ≤ usize_max)%Z.

Abbreviation on_nodes := (tabulates g (λ x, x ∈ nodes)).

Definition stacked (segs : list Segment) (x : Id) : bool := bool_decide (x ∈ stack_of segs).

Record Reps (scratch : TarjanScratch Id) (segs : list Segment) (o low : Id → Z) : Prop := {
  rp_order : on_nodes (order_index scratch) o;
  rp_low : on_nodes (lowlink scratch) low;
  rp_marks : on_nodes (on_stack scratch) (stacked segs);
  rp_stack : stack scratch = stack_of segs;
  rp_tarjan : Tarjan segs (components scratch) o low (counter scratch)
}.

Definition frame_of (fr : Frame Id) (s : Segment) : Prop :=
  fr_node fr = sg_node s ∧ drop (fr_position fr) (fr_successors fr) = sg_rest s.

Lemma scc_node_visible x : x ∈ nodes → visible g x.
Proof using All. rewrite Forall_forall in Hnodes. apply Hnodes. Qed.

Lemma member_successors_Ok {Er} node :
  node ∈ nodes → member_successors (E:=Er) g member node = Ok (E node).
Proof using All.
  intros Hn. unfold member_successors.
  destruct (for_each_inv (E:=Er) (λ pre found, found = filter (λ y, y ∈ nodes) pre)
    (λ found successor, inside ← is_member g member (element_index g successor);
      Ok (if (inside : bool) then found ++ [successor] else found)) (element_successors g node) [])
    as (found & -> & ->); [done| |done].
  intros pre x post found Heq ->. assert (visible g x) as Hx.
  { apply (successors_contained (g:=g) node); [by apply scc_node_visible|]. rewrite Heq. set_solver. }
  rewrite (is_member_Ok _ _ _ _ Hmember Hx). cbn [mbind res_bind]. eexists. split; [done|].
  rewrite filter_app, filter_cons, filter_nil. case_bool_decide; [by rewrite decide_True|].
  by rewrite decide_False, app_nil_r.
Qed.

Lemma counter_bound segs comps o low count y :
  Tarjan segs comps o low count → y ∈ nodes → o y = UNVISITED → (count < Z.of_nat (element_bound g))%Z.
Proof using All.
  intros HT Hy Ho. rewrite (tj_count _ _ _ _ _ HT). unfold zlen.
  pose proof (fresh_not_stacked _ _ _ _ _ _ HT Hy Ho) as Hfresh.
  assert (length (y :: stack_of segs ++ done_of comps) ≤ length nodes) as Hle.
  { apply submseteq_length, NoDup_submseteq; [constructor; [done|apply HT]|].
    intros x [->|Hx]%elem_of_cons; [done|]. by apply HT. }
  assert (length nodes ≤ element_bound g) by by apply visible_length. cbn [length] in Hle. lia.
Qed.

Lemma discover_Ok {Er} scratch segs o low y work :
  Reps scratch segs o low → y ∈ nodes → o y = UNVISITED → (∀ s, s ∈ segs → reach (sg_node s) y) →
  let s := {| sg_node := y; sg_rest := E y; sg_members := [y] |} in
  ∃ scratch' fr, scc_discover (E:=Er) g member y scratch work = Ok (scratch', fr :: work) ∧
    Reps scratch' (s :: segs) (upd o y (counter scratch)) (upd low y (counter scratch)) ∧ frame_of fr s ∧
    counter scratch ≠ UNVISITED.
Proof using All.
  intros [Ho Hl Hm Hst HT] Hy Hoy Hreach. cbv zeta.
  pose proof (counter_bound _ _ _ _ _ _ HT Hy Hoy) as Hcount.
  assert (counter scratch ≠ UNVISITED) as Hc by (unfold UNVISITED; lia).
  unfold scc_discover. cbv zeta.
  destruct (tabulates_vset (E:=Er) g _ _ _ y (counter scratch) scc_node_visible Ho Hy) as (o' & -> & Ho').
  cbn [mbind res_bind].
  destruct (tabulates_vset (E:=Er) g _ _ _ y (counter scratch) scc_node_visible Hl Hy) as (l' & -> & Hl').
  cbn [mbind res_bind]. rewrite (checked_add_fits usize_max (counter scratch) 1) by lia.
  cbn [or_panic mbind res_bind].
  destruct (tabulates_vset (E:=Er) g _ _ _ y true scc_node_visible Hm Hy) as (m' & -> & Hm').
  cbn [mbind res_bind]. rewrite (member_successors_Ok y Hy). cbn [mbind res_bind mret res_ret].
  do 2 eexists. split; [done|]. split; [|split; [by split|done]]. split; cbn [order_index lowlink on_stack stack components counter].
  - exact Ho'.
  - exact Hl'.
  - eapply tabulates_ext; [exact Hm'|]. intros x _. cbn beta. unfold stacked. rewrite stack_cons. cbn [sg_members app].
    case_decide as Hxy; [subst x; symmetry; apply bool_decide_eq_true; by left|].
    apply bool_decide_ext. rewrite elem_of_cons. naive_solver.
  - by rewrite stack_cons, Hst.
  - by apply discover_ghost.
Qed.

(** The lowlink after a relaxation. *)
Lemma relax_lowlink_Ok {Er} (scratch : TarjanScratch Id) low x v :
  on_nodes (lowlink scratch) low → x ∈ nodes →
  ∃ low' l', relax_lowlink (E:=Er) scratch (element_index g x) v = Ok (with_lowlink scratch l') ∧
    on_nodes l' low' ∧ (∀ y, y ≠ x → low' y = low y) ∧ low' x = Z.min (low x) v.
Proof using All.
  intros Hl Hx. unfold relax_lowlink. rewrite (tabulates_vget g _ _ _ _ Hl Hx). cbn [mbind res_bind].
  case_decide as Hlt.
  - destruct (tabulates_vset (E:=Er) g _ _ _ x v scc_node_visible Hl Hx) as (l' & -> & Hl').
    exists (upd low x v), l'. split_and!; [done|exact Hl'|intros y Hy; by apply upd_ne|rewrite upd_eq; lia].
  - exists low, (lowlink scratch). split_and!; [by destruct scratch|done|done|lia].
Qed.

(** Exploring one edge of the top frame. *)
Lemma advance_Ok {Er} scratch w y rest members segs o low work :
  Reps scratch ({| sg_node := w; sg_rest := y :: rest; sg_members := members |} :: segs) o low →
  let s := {| sg_node := w; sg_rest := rest; sg_members := members |} in
  ∃ scratch' work' segs' o' low',
    scc_advance (E:=Er) g member w y scratch work = Ok (scratch', work' ++ work) ∧
    Reps scratch' (segs' ++ s :: segs) o' low' ∧ Forall2 frame_of work' segs' ∧
    ((o y ≠ UNVISITED ∧ segs' = [] ∧ o' = o) ∨
     (o y = UNVISITED ∧ (∃ v, v ≠ UNVISITED ∧ o' = upd o y v) ∧
      segs' = [{| sg_node := y; sg_rest := E y; sg_members := [y] |}])).
Proof using All.
  intros HR. cbv zeta. pose proof (rp_tarjan _ _ _ _ HR) as HT.
  pose proof (top_segment _ _ _ _ _ _ HT) as Hs.
  assert (y ∈ E w) as Hwy.
  { destruct (sg_suffix _ _ _ _ Hs) as [ex Hex]. cbn in Hex. rewrite Hex. set_solver. }
  assert (y ∈ nodes) as Hy by by apply elem_of_induced in Hwy as [? _].
  assert (w ∈ stack_of ({| sg_node := w; sg_rest := y :: rest; sg_members := members |} :: segs)) as Hwst.
  { rewrite stack_cons, elem_of_app. left. exact (segment_node _ _ _ _ Hs). }
  assert (w ∈ nodes) as Hw by (apply (tj_nodes _ _ _ _ _ HT), elem_of_app; by left).
  unfold scc_advance. cbv zeta. rewrite (tabulates_vget g _ _ _ _ (rp_order _ _ _ _ HR) Hy). cbn [mbind res_bind].
  destruct (decide (o y = UNVISITED)) as [Hoy|Hoy].
  - destruct (discover_Ok (Er:=Er) scratch _ o low y work HR Hy Hoy) as (scratch' & fr & -> & HR' & Hfr & Hc).
    { assert (reach w y) as Hr by by apply rtc_once.
      pose proof (tj_links _ _ _ _ _ HT) as Hl. apply StronglySorted_cons in Hl as [Hl _]. rewrite Forall_forall in Hl.
      intros t [->|Ht]%elem_of_cons; [done|]. etrans; [by apply Hl|done]. }
    exists scratch', [fr], [{| sg_node := y; sg_rest := E y; sg_members := [y] |}], (upd o y (counter scratch)),
      (upd low y (counter scratch)). split; [done|]. split; [|split; [by constructor|right; by eauto]].
    split; try apply HR'. pose proof (rp_tarjan _ _ _ _ HR') as HT'.
    apply (replace_segment [{| sg_node := y; sg_rest := E y; sg_members := [y] |}] _ _ _ _ _ _ _ _ HT'); try done.
    cbn [app]. pose proof (tj_segments _ _ _ _ _ HT') as Hsegs. apply Forall_cons in Hsegs as [_ Hsegs].
    apply Forall_cons in Hsegs as [Hs' _]. apply (consume_edge _ _ _ _ y); [done|by rewrite upd_eq|].
    intros _. rewrite upd_eq, upd_ne by by intros ->; apply (tj_visited _ _ _ _ _ HT y Hy); [apply elem_of_app; left|].
    pose proof (sg_low_le _ _ _ _ Hs) as Hle. cbn in Hle. pose proof (tj_order _ _ _ _ _ HT w Hwst). lia.
  - rewrite (tabulates_vget g _ _ _ _ (rp_marks _ _ _ _ HR) Hy). cbn [mbind res_bind]. unfold stacked.
    case_bool_decide as Hst.
    + destruct (relax_lowlink_Ok (Er:=Er) scratch low w (o y) (rp_low _ _ _ _ HR) Hw)
        as (low' & l' & -> & Hl' & Hkeep & Hmin). cbn [mbind res_bind mret res_ret].
      exists (with_lowlink scratch l'), [], [], o, low'. split; [done|]. split; [|split; [done|by left]].
      destruct HR as [Ho Hl Hm Hk _]. split; try done. cbn [components counter with_lowlink].
      apply (replace_segment [] _ _ _ _ _ _ low' _ HT); try done. cbn [app].
      apply (consume_edge _ _ _ _ y); [|done|rewrite Hmin; lia].
      apply (lower_low _ low _ _ _ y Hs); [done|by apply rtc_once|done].
    + exists scratch, [], [], o, low. split; [done|]. split; [|split; [done|by left]].
      destruct HR as [Ho Hl Hm Hk _]. split; try done.
      apply (replace_segment [] _ _ _ _ _ _ low _ HT); try done. cbn [app].
      by apply (consume_edge _ _ _ _ y).
Qed.

Lemma pop_until_Ok {Er} marks f acc above w below :
  on_nodes marks f → NoDup (above ++ w :: below) → (∀ x, x ∈ above ++ [w] → x ∈ nodes) →
  ∃ marks', pop_until (E:=Er) g (element_index g w) marks acc (above ++ w :: below) =
      Ok (marks', acc ++ above ++ [w], below) ∧
    on_nodes marks' (λ x, if decide (x ∈ above ++ [w]) then false else f x).
Proof using All.
  intros Hm Hndp Hin. revert marks f acc Hm. induction above as [|x above IH]; intros marks f acc Hm; cbn [app pop_until].
  - destruct (tabulates_vset (E:=Er) g _ _ _ w false scc_node_visible Hm (Hin w ltac:(set_solver))) as (m' & -> & Hm').
    cbn [mbind res_bind]. cbv zeta. rewrite decide_True by done. eexists. split; [done|].
    eapply tabulates_ext; [exact Hm'|]. intros x _. cbn beta. repeat case_decide; set_solver.
  - cbn [app] in Hndp. apply NoDup_cons in Hndp as [Hx Hndp].
    destruct (tabulates_vset (E:=Er) g _ _ _ x false scc_node_visible Hm (Hin x ltac:(set_solver))) as (m' & -> & Hm').
    cbn [mbind res_bind]. cbv zeta. rewrite decide_False.
    2:{ intros He. apply Hx. apply (index_inj (g:=g)) in He as ->; [set_solver|apply scc_node_visible, Hin; set_solver..]. }
    destruct (IH Hndp ltac:(set_solver) m' _ (acc ++ [x]) Hm') as (m2 & -> & Hm2). exists m2.
    split; [by rewrite <-app_assoc|]. eapply tabulates_ext; [exact Hm2|]. intros y _. cbn beta.
    repeat case_decide; set_solver.
Qed.

Lemma pop_component_Ok {Er} scratch s segs o low :
  Reps scratch (s :: segs) o low → sg_rest s = [] → low (sg_node s) = o (sg_node s) →
  ∃ scratch', pop_component (E:=Er) g (element_index g (sg_node s)) scratch = Ok scratch' ∧
    Reps scratch' segs o low ∧ lowlink scratch' = lowlink scratch.
Proof using All.
  intros [Ho Hl Hm Hk HT] Hrest Hroot. pose proof (top_segment _ _ _ _ _ _ HT) as Hs.
  destruct (sg_last _ _ _ _ Hs) as [above Habove].
  assert (stack_of (s :: segs) = above ++ sg_node s :: stack_of segs) as Hst.
  { by rewrite stack_cons, Habove, <-app_assoc. }
  pose proof (tj_nodup _ _ _ _ _ HT) as Hndp. apply NoDup_app in Hndp as (Hndp & _). rewrite Hst in Hndp.
  unfold pop_component. rewrite Hk, Hst.
  destruct (pop_until_Ok (Er:=Er) _ _ [] above (sg_node s) (stack_of segs) Hm Hndp) as (m' & -> & Hm').
  { intros x Hx. apply (tj_nodes _ _ _ _ _ HT). rewrite Hst, !elem_of_app. set_solver. }
  cbn [mbind res_bind mret res_ret app]. eexists. split; [done|]. split; [|done]. split; try done;
    cbn [on_stack components counter stack order_index lowlink].
  - eapply tabulates_ext; [exact Hm'|]. intros x _. cbn beta. unfold stacked. rewrite Hst.
    apply NoDup_app in Hndp as (_ & Hd1 & Hndp). apply NoDup_cons in Hndp as [Hd2 _].
    case_decide as Hx; symmetry.
    + apply bool_decide_eq_false. intros Hxs. apply elem_of_app in Hx as [Hx|Hx%list_elem_of_singleton]; [|by subst x].
      apply (Hd1 x Hx). by right.
    + apply bool_decide_ext. rewrite elem_of_app, elem_of_cons. set_solver.
  - rewrite <-Habove. by apply pop_ghost.
Qed.

(** A finished top frame closes a component or joins its parent's segment. *)
Lemma finish_frame_Ok {Er} scratch s segs o low fr work :
  Reps scratch (s :: segs) o low → sg_rest s = [] → Forall2 frame_of work segs →
  ∃ scratch' segs' low', scc_finish (E:=Er) g (sg_node s) scratch (fr :: work) = Ok (scratch', work) ∧
    Reps scratch' segs' o low' ∧ Forall2 frame_of work segs' ∧ sg_rest <$> segs' = sg_rest <$> segs.
Proof using All.
  intros HR Hrest Hwork. pose proof (rp_tarjan _ _ _ _ HR) as HT. pose proof (top_segment _ _ _ _ _ _ HT) as Hs.
  assert (∀ t, t ∈ s :: segs → sg_node t ∈ nodes) as Hnode.
  { intros t Ht. apply (tj_nodes _ _ _ _ _ HT), elem_of_app. left. apply elem_of_stack. exists t. split; [done|].
    pose proof (tj_segments _ _ _ _ _ HT) as Hok. rewrite Forall_forall in Hok. exact (segment_node _ _ _ _ (Hok t Ht)). }
  pose proof (Hnode s ltac:(by left)) as Hsn.
  unfold scc_finish. cbv zeta. rewrite (tabulates_vget g _ _ _ _ (rp_low _ _ _ _ HR) Hsn). cbn [mbind res_bind].
  rewrite (tabulates_vget g _ _ _ _ (rp_order _ _ _ _ HR) Hsn). cbn [mbind res_bind tail].
  destruct (decide (low (sg_node s) = o (sg_node s))) as [Hroot|Hroot].
  - destruct (pop_component_Ok (Er:=Er) scratch s segs o low HR Hrest Hroot) as (scratch' & -> & HR' & Hlow).
    cbn [mbind res_bind]. destruct Hwork as [|pf p work' below [Hpf Hpr] Hwork].
    { exists scratch', [], low. by split_and!. }
    rewrite (tabulates_vget g _ _ _ _ (rp_low _ _ _ _ HR') Hsn). cbn [mbind res_bind]. rewrite Hpf.
    destruct (relax_lowlink_Ok (Er:=Er) scratch' low (sg_node p) (low (sg_node s)) (rp_low _ _ _ _ HR'))
      as (low' & l' & -> & Hl' & Hkeep & Hmin); [apply Hnode; set_solver|].
    cbn [mbind res_bind mret res_ret]. exists (with_lowlink scratch' l'), (p :: below), low'.
    split; [done|]. split; [|split; [by constructor|done]].
    pose proof (rp_tarjan _ _ _ _ HR') as HT'. destruct HR' as [Ho Hl Hm Hk _]. split; try done.
    apply (replace_segment [] p p _ _ _ low low' _ HT'); try done. cbn [app].
    pose proof (top_segment _ _ _ _ _ _ HT') as Hp.
    assert (low' (sg_node p) = low (sg_node p)) as Hsame.
    { rewrite Hmin, Hroot. pose proof (sg_low_le _ _ _ _ Hp).
      assert (o (sg_node p) < o (sg_node s))%Z; [|lia].
      apply (top_above _ _ _ _ _ _ _ _ HT); [exact (segment_node _ _ _ _ Hs)|].
      rewrite stack_cons, elem_of_app. left. exact (segment_node _ _ _ _ Hp). }
    split; rewrite ?Hsame; apply Hp.
  - cbn [mbind res_bind].
    destruct Hwork as [|pf p work' below [Hpf Hpr] Hwork].
    { destruct (merge_ghost _ _ _ _ _ low _ HT Hrest Hroot) as (p & below & He & _). done. }
    rewrite (tabulates_vget g _ _ _ _ (rp_low _ _ _ _ HR) Hsn). cbn [mbind res_bind]. rewrite Hpf.
    destruct (relax_lowlink_Ok (Er:=Er) scratch low (sg_node p) (low (sg_node s)) (rp_low _ _ _ _ HR))
      as (low' & l' & -> & Hl' & Hkeep & Hmin); [apply Hnode; set_solver|].
    cbn [mbind res_bind mret res_ret].
    destruct (merge_ghost _ _ _ _ _ low' _ HT Hrest Hroot) as (p' & below' & [= <- <-] & Hmerge).
    specialize (Hmerge Hkeep Hmin). do 3 eexists. split; [done|]. split; [|split; [constructor; [|exact Hwork]|]].
    + destruct HR as [Ho Hl Hm Hk _]. split; [done|exact Hl'| | |exact Hmerge].
      * eapply tabulates_ext; [exact Hm|]. intros x _. unfold stacked. apply bool_decide_ext.
        rewrite !stack_cons. cbn [sg_members]. by rewrite app_assoc.
      * cbn [stack with_lowlink]. rewrite Hk, !stack_cons. cbn [sg_members]. by rewrite app_assoc.
    + by split.
    + done.
Qed.

(** ** Termination *)

(** The work a set of elements costs: one step per edge and one to finish. *)
Definition weight (o : Id → Z) (x : Id) : nat :=
  if decide (o x = UNVISITED) then S (length (E x)) else 0.
Definition undiscovered (o : Id → Z) : nat := sum_list_with (weight o) nodes.
Definition pending (segs : list Segment) : nat := sum_list_with (λ s, S (length (sg_rest s))) segs.
Definition total_work : nat := sum_list_with (λ x, S (length (E x))) nodes.

Lemma undiscovered_total o : undiscovered o ≤ total_work.
Proof using All. apply sum_list_with_le. intros x _. unfold weight. case_decide; lia. Qed.

Lemma undiscovered_upd o y v :
  y ∈ nodes → o y = UNVISITED → v ≠ UNVISITED →
  undiscovered (upd o y v) + S (length (E y)) = undiscovered o.
Proof using All.
  intros Hy Hoy Hv. unfold undiscovered.
  assert (∀ l, y ∉ l → sum_list_with (weight (upd o y v)) l = sum_list_with (weight o) l) as Hout.
  { intros l Hl. induction l as [|x l IH]; [done|]. cbn. apply not_elem_of_cons in Hl as [Hx Hl].
    rewrite IH by done. unfold weight at 1 3. by rewrite upd_ne. }
  assert (weight o y = S (length (E y))) as Hwo by (unfold weight; by rewrite decide_True).
  assert (weight (upd o y v) y = 0) as Hwu by (unfold weight; by rewrite upd_eq, decide_False).
  rewrite <-Hwo. clear Hwo. revert Hout. generalize (weight (upd o y v)) (weight o) Hwu. intros f' f Hfy Hout.
  apply list_elem_of_split in Hy as (l1 & l2 & Heq). rewrite Heq in Hnd |- *. clear Heq.
  apply NoDup_app in Hnd as (_ & Hd & Hnd'). apply NoDup_cons in Hnd' as [Hd2 _].
  assert (∀ (h : Id → nat) l k, sum_list_with h (l ++ k) = sum_list_with h l + sum_list_with h k) as Happ.
  { intros h l k. induction l; cbn; lia. }
  rewrite !Happ. cbn [sum_list_with]. rewrite !Hout by (done || (intros Hin; apply (Hd y Hin); by left)).
  lia.
Qed.

(** ** The loop *)

Definition grows (o o' : Id → Z) : Prop := ∀ x, o x ≠ UNVISITED → o' x ≠ UNVISITED.

Lemma visit_step_Ok {Er} scratch top rest segs o low :
  Reps scratch segs o low → Forall2 frame_of (top :: rest) segs →
  ∃ scratch' work' segs' o' low',
    visit_step (E:=Er) g member scratch top rest = Ok (scratch', work') ∧
    Reps scratch' segs' o' low' ∧ Forall2 frame_of work' segs' ∧ grows o o' ∧
    pending segs' + undiscovered o' < pending segs + undiscovered o.
Proof using All.
  intros HR Hwork. destruct segs as [|s segs]; [by inversion Hwork|].
  apply Forall2_cons in Hwork as [[Hnode Hrest] Hwork]. unfold visit_step.
  destruct (decide (fr_position top < length (fr_successors top))) as [Hlt|Hge].
  - destruct (lookup_lt_is_Some_2 _ _ Hlt) as [y Hy].
    assert (sg_rest s = y :: drop (S (fr_position top)) (fr_successors top)) as Hsr.
    { rewrite <-Hrest. by apply drop_S. }
    unfold vget. rewrite Hy. cbn [or_panic mbind res_bind]. rewrite Hnode.
    clear Hrest. destruct s as [w r members]. cbn [sg_node sg_rest] in *. subst r.
    destruct (advance_Ok (Er:=Er) scratch w y _ members segs o low
      ({| fr_node := w; fr_successors := fr_successors top; fr_position := S (fr_position top) |} :: rest) HR)
      as (scratch' & work' & segs' & o' & low' & -> & HR' & Hw' & Hcase).
    do 5 eexists. split; [done|]. split; [exact HR'|]. split; [|split].
    + apply Forall2_app; [done|]. constructor; [|done]. by split.
    + destruct Hcase as [(_ & _ & ->)|(_ & (v & Hv & ->) & _)]; [by intros x|].
      intros x Hx. unfold upd. by case_decide.
    + destruct Hcase as [(_ & -> & ->)|(Hoy & (v & Hv & ->) & ->)]; unfold pending; cbn [app sum_list_with sg_rest length]; [lia|].
      assert (y ∈ nodes) as Hyn.
      { pose proof (top_segment _ _ _ _ _ _ (rp_tarjan _ _ _ _ HR)) as Hs.
        destruct (sg_suffix _ _ _ _ Hs) as [ex Hex]. cbn in Hex.
        assert (y ∈ E w) as Hin by (rewrite Hex; set_solver). by apply elem_of_induced in Hin as [? _]. }
      pose proof (undiscovered_upd o y v Hyn Hoy Hv). lia.
  - rewrite drop_ge in Hrest by lia. rewrite Hnode.
    destruct (finish_frame_Ok (Er:=Er) scratch s segs o low top rest HR ltac:(done) Hwork)
      as (scratch' & segs' & low' & -> & HR' & Hw' & Hsame).
    do 5 eexists. split; [done|]. split; [exact HR'|]. split; [done|]. split; [by intros x|].
    assert (pending segs' = pending segs) as ->.
    { unfold pending. clear -Hsame. revert segs Hsame.
      induction segs' as [|a l IH]; intros [|b k] Hs; try discriminate; [done|].
      injection Hs as Ha Hk. cbn. rewrite Ha. f_equal. f_equal. by apply IH. }
    unfold pending. cbn [sum_list_with]. lia.
Qed.

Lemma visit_loop_Ok {Er} fuel scratch work segs o low :
  Reps scratch segs o low → Forall2 frame_of work segs → pending segs + undiscovered o < fuel →
  ∃ scratch' o' low', visit_loop (E:=Er) fuel g member scratch work = Ok scratch' ∧
    Reps scratch' [] o' low' ∧ grows o o'.
Proof using All.
  revert scratch work segs o low. induction fuel as [|fuel IH]; intros scratch work segs o low HR Hwork Hf; [lia|].
  cbn [visit_loop]. destruct work as [|top rest].
  { apply Forall2_nil_inv_l in Hwork as ->. exists scratch, o, low. split_and!; [done..|by intros x]. }
  destruct (visit_step_Ok (Er:=Er) scratch top rest segs o low HR Hwork)
    as (scratch1 & work1 & segs1 & o1 & low1 & -> & HR1 & Hw1 & Hg1 & Hdec). cbn [mbind res_bind].
  destruct (IH scratch1 work1 segs1 o1 low1 HR1 Hw1 ltac:(lia)) as (scratch2 & o2 & low2 & -> & HR2 & Hg2).
  exists scratch2, o2, low2. split_and!; [done..|]. intros x Hx. by apply Hg2, Hg1.
Qed.

Lemma visit_start_Ok {Er} fuel scratch o low start :
  Reps scratch [] o low → start ∈ nodes → total_work < fuel →
  ∃ scratch' o' low', visit_start (E:=Er) fuel g member scratch start = Ok scratch' ∧
    Reps scratch' [] o' low' ∧ grows o o' ∧ o' start ≠ UNVISITED.
Proof using All.
  intros HR Hs Hf. unfold visit_start. rewrite (tabulates_vget g _ _ _ _ (rp_order _ _ _ _ HR) Hs).
  cbn [mbind res_bind]. destruct (decide (o start = UNVISITED)) as [Ho|Ho]; [|exists scratch, o, low; split_and!; [done..|by intros x|done]].
  unfold scc_visit. destruct (discover_Ok (Er:=Er) scratch [] o low start [] HR Hs Ho) as (scratch1 & fr & -> & HR1 & Hfr & Hc).
  { intros s Hin. by apply not_elem_of_nil in Hin. }
  cbn [mbind res_bind].
  destruct (visit_loop_Ok (Er:=Er) fuel scratch1 [fr] _ _ _ HR1) as (scratch2 & o2 & low2 & -> & HR2 & Hg2).
  - by constructor.
  - unfold pending. cbn [sum_list_with sg_rest].
    pose proof (undiscovered_upd o start (counter scratch) Hs Ho Hc). pose proof (undiscovered_total o). lia.
  - exists scratch2, o2, low2. split_and!; [done..| |].
    + intros x Hx. apply Hg2. unfold upd. by case_decide.
    + apply Hg2. by rewrite upd_eq.
Qed.

Lemma scc_pass_Ok {Er} fuel :
  total_work < fuel →
  ∃ scratch o low, for_each (E:=Er) (visit_start fuel g member) nodes
    {| order_index := replicate (element_bound g) UNVISITED; lowlink := replicate (element_bound g) 0%Z;
       on_stack := replicate (element_bound g) false; stack := []; components := []; counter := 0 |} = Ok scratch ∧
    Reps scratch [] o low ∧ ∀ x, x ∈ nodes → x ∈ done_of (components scratch).
Proof using All.
  intros Hf.
  destruct (for_each_inv (E:=Er) (λ pre scratch, ∃ o low, Reps scratch [] o low ∧ ∀ x, x ∈ pre → o x ≠ UNVISITED)
    (visit_start fuel g member) nodes
    {| order_index := replicate (element_bound g) UNVISITED; lowlink := replicate (element_bound g) 0%Z;
       on_stack := replicate (element_bound g) false; stack := []; components := []; counter := 0 |})
    as (scratch & Hrun & o & low & HR & Hall).
  - exists (λ _, UNVISITED), (λ _, 0%Z). split; [|by intros x ?%not_elem_of_nil].
    split; cbn [order_index lowlink on_stack stack components counter].
    + apply (tabulates_replicate g (λ x, x ∈ nodes) UNVISITED), scc_node_visible.
    + apply (tabulates_replicate g (λ x, x ∈ nodes) 0%Z), scc_node_visible.
    + apply (tabulates_replicate g (λ x, x ∈ nodes) false), scc_node_visible.
    + done.
    + split; cbn; try done; [apply NoDup_nil_2|..]; try (by constructor).
      * intros x ?%not_elem_of_nil. done.
      * intros x _. split; [done|]. by intros ?%not_elem_of_nil.
      * intros x ?%not_elem_of_nil. done.
  - intros pre x post scratch Heq (o & low & HR & Hpre).
    destruct (visit_start_Ok (Er:=Er) fuel scratch o low x HR ltac:(rewrite Heq; set_solver) Hf)
      as (scratch' & o' & low' & Hv & HR' & Hg & Hx).
    exists scratch'. split; [done|]. exists o', low'. split; [done|].
    intros y [Hy|Hy%list_elem_of_singleton]%elem_of_app; [by apply Hg, Hpre|by subst y].
  - exists scratch, o, low. split_and!; [done..|]. intros x Hx.
    by apply (tj_visited _ _ _ _ _ (rp_tarjan _ _ _ _ HR) x Hx) in Hall.
Qed.

End steps.
End scc.

(** ** The whole function *)

Section result.
Context `{!Target} {G Id : Type} `{!EqDecision Id} `{!DenseElementIndex G Id} `{!ContainsElement G Id}.
Context `{!ElementSuccessors G Id} `{!ElementPredecessors G Id}.
Context (g : G) `{!TopologyLaws (Id := Id) g}.

(** Steps that suffice: one per requested element and one per induced edge. *)
Definition scc_work (elements : list Id) : nat :=
  sum_list_with (λ x, S (length (induced g elements x))) elements.

Lemma sum_list_with_sublist {A} (f : A → nat) l k : l `sublist_of` k → sum_list_with f l ≤ sum_list_with f k.
Proof. induction 1; cbn; lia. Qed.

Lemma strongly_connected_ext nodes elements x y :
  (∀ x, x ∈ nodes ↔ x ∈ elements) → strongly_connected g nodes x y ↔ strongly_connected g elements x y.
Proof.
  intros Hel. unfold strongly_connected.
  assert (∀ a b, rtc (leads g nodes) a b ↔ rtc (leads g elements) a b) as Hr; [|by rewrite !Hr].
  intros a b. split; apply rtc_subrel; intros c d; unfold leads; rewrite !elem_of_induced, Hel; done.
Qed.

(** C8. [strongly_connected_components] over visible elements never panics and
    ends within one step per requested element and induced edge; it partitions
    the requested elements into the classes of mutual reachability inside the
    set, and lists them in reverse topological order: an edge never leads to a
    later component. *)
Theorem strongly_connected_components_correct {Er} fuel elements :
  Forall (visible g) elements → scc_work elements < fuel → (Z.of_nat (element_bound g) ≤ usize_max)%Z →
  ∃ comps, strongly_connected_components (E:=Er) fuel g elements = Ok comps ∧
    Partition elements (strongly_connected g elements) comps ∧
    ∀ i c j d x y, comps !! i = Some c → comps !! j = Some d → x ∈ c → y ∈ d →
      y ∈ induced g elements x → j ≤ i.
Proof.
  intros Hv Hf Hb. destruct (collect_members_Ok (E:=Er) g elements Hv) as (member & nodes & Hc & Hm & Hnd & Hel & Hsub).
  assert (Forall (visible g) nodes) as Hvn.
  { rewrite Forall_forall in Hv |- *. intros x Hx. by apply Hv, Hel. }
  assert (∀ x, induced g nodes x = induced g elements x) as Hind by (intros x; by apply list_filter_iff).
  destruct (scc_pass_Ok (Er:=Er) g nodes member Hvn Hnd Hm Hb fuel) as (scratch & o & low & Hrun & HR & Hall).
  { unfold total_work. eapply Nat.le_lt_trans; [|exact Hf]. unfold scc_work.
    etrans; [by apply sum_list_with_sublist|]. apply sum_list_with_le. intros x _. by rewrite Hind. }
  pose proof (rp_tarjan _ _ _ _ _ _ HR) as HT. exists (components scratch). split; [|split].
  - unfold strongly_connected_components. rewrite Hc. cbn [mbind res_bind]. by rewrite Hrun.
  - pose proof (tj_components _ _ _ _ _ _ _ HT) as Hcomp. rewrite Forall_forall in Hcomp.
    pose proof (tj_nodup _ _ _ _ _ _ _ HT) as Hndone. cbn in Hndone.
    pose proof (NoDup_mjoin _ Hndone) as [Heach Hdisj].
    split.
    + apply Forall_forall. intros l Hl. split; [apply (Hcomp l Hl)|].
      by apply list_elem_of_lookup in Hl as [i Hi]; apply (Heach i).
    + intros x. rewrite <-Hel. split.
      * intros Hx. apply Hall, elem_of_done in Hx as (i & c & Hi & Hx). exists c. split; [|done].
        by eapply list_elem_of_lookup_2.
      * intros (l & Hl & Hx). apply (tj_nodes _ _ _ _ _ _ _ HT). cbn. apply elem_of_done.
        apply list_elem_of_lookup in Hl as [i Hi]. by exists i, l.
    + intros i j li lj x Hi Hj Hxi Hxj. by apply (Hdisj i j li lj x).
    + intros l x y Hl Hx Hy. destruct (Hcomp l Hl) as [_ Hclass].
      rewrite (Hclass x y Hx) by by apply Hel. by apply strongly_connected_ext.
  - intros i c j d x y Hi Hj Hx Hy Hxy. rewrite <-Hind in Hxy.
    destruct (tj_closed _ _ _ _ _ _ _ HT i c x y Hi Hx Hxy) as (k & d' & Hk & Hd' & Hyd).
    pose proof (tj_nodup _ _ _ _ _ _ _ HT) as Hndone. cbn in Hndone.
    pose proof (NoDup_mjoin _ Hndone) as [_ Hdisj]. by rewrite (Hdisj j k d d' y).
Qed.

End result.

(** 5 is not requested; 6 repeats nothing. *)
Definition demo_cycles : list_graph :=
  {| adjacency := [[1]; [2; 3]; [0; 5]; [4]; [3; 5]; [0]; [6; 0]] |}.

Lemma demo_cycles_laws : TopologyLaws (Id := nat) demo_cycles.
Proof. apply list_graph_laws. repeat constructor; cbn; lia. Qed.

Lemma strongly_connected_components_correct_witness :
  ∃ comps, strongly_connected_components (H := target64) (E:=()) 20 demo_cycles [6; 0; 1; 2; 3; 4; 0] =
      Ok comps ∧ comps = [[4; 3]; [2; 1; 0]; [6]] ∧
    Partition [6; 0; 1; 2; 3; 4; 0] (strongly_connected demo_cycles [6; 0; 1; 2; 3; 4; 0]) comps.
Proof.
  destruct (strongly_connected_components_correct (H := target64) demo_cycles (TopologyLaws0 := demo_cycles_laws)
    (Er:=()) 20 [6; 0; 1; 2; 3; 4; 0]) as (comps & Hc & Hp & _);
    [repeat constructor|vm_compute; lia|vm_compute; discriminate|].
  exists comps. split; [done|]. split; [|done]. vm_compute in Hc. apply Ok_inj in Hc. by rewrite <-Hc.
Defined.
