(* ===== verification/Csr.v ===== *)
(** * Csr: compressed sparse row views

    Models [crates/oxgraph-csr/src/lib.rs]: validation of borrowed offset and
    target arrays, the checked slots and edge ranges, the accessors of
    [CsrGraph] (the topology traits included) and opening a view from a
    snapshot; and [crates/oxgraph-csc/src/lib.rs], the inbound view. A node or edge
    id is the raw index ([Z]); slots and ranges are [usize] values ([Z]). The accessors that the code guards with [panic!] or
    [unreachable!] return [Panic] there. *)

From stdpp Require Import base gmap sets list sorting.
From S2P Require Import Prelude Bytes Layout Snapshot Topology.

Local Open Scope Z_scope.

Definition SNAPSHOT_KIND_CSR_OFFSETS_BASE : Z := 4.
Definition SNAPSHOT_KIND_CSR_TARGETS_BASE : Z := 8.
Definition SNAPSHOT_CSR_SECTION_VERSION : Z := 1.

Definition OFFSETS_KIND (sw : swidth) : Z := Z.lor SNAPSHOT_KIND_CSR_OFFSETS_BASE (WIDTH_CODE sw).
Definition TARGETS_KIND (sw : swidth) : Z := Z.lor SNAPSHOT_KIND_CSR_TARGETS_BASE (WIDTH_CODE sw).

Inductive CsrError :=
  | OffsetLengthOverflow (count : Z)
  | OffsetLength (expected actual : Z)
  | FirstOffset (actual : Z)
  | NonMonotonicOffset (index : nat) (previous actual : Z)
  | FinalOffset (final_offset target_len : Z)
  | TargetOutOfRange (index : nat) (target count : Z)
  | TargetUsizeOverflow (index : nat) (value : Z)
  | NodeUsizeOverflow (value : Z)
  | EdgeUsizeOverflow (value : Z).

Inductive CsrSnapshotError :=
  | MissingOffsets
  | MissingTargets
  | OffsetsVersion (kind expected actual : Z)
  | TargetsVersion (kind expected actual : Z)
  | OffsetsView (error : SectionViewError)
  | TargetsView (error : SectionViewError)
  | OffsetsEmpty
  | NodeCountOverflow (offsets_len : Z)
  | Csr (error : CsrError).

(** [Result::map_err] with a conversion that reads slices and can panic. *)
Definition map_err_with {E F A} (f : E → res F F) (m : res E A) : res F A :=
  match m with
  | Ok a => Ok a
  | Err e => e' ← f e; Err e'
  | Panic => Panic
  | NoFuel => NoFuel
  end.

Record NodeSlot := { ns_raw : Z; ns_slot : Z }.
Record EdgeSlot := { es_raw : Z; es_slot : Z }.

(** [EdgeRange<Checked, _>]. *)
Record EdgeRange := { er_start : Z; er_end : Z }.

Record CsrGraph (OW TW : Type) := {
  node_count : Z;
  node_bound : Z;
  offsets : list OW;
  targets : list TW
}.
Arguments node_count {_ _} _.
Arguments node_bound {_ _} _.
Arguments offsets {_ _} _.
Arguments targets {_ _} _.

Section view.
Context `{!Target} {OW TW : Type} `{!LayoutWord OW} `{!LayoutWord TW}.

(** The widths [EdgeIndex] and [NodeIndex]. *)
Abbreviation EdgeIndex := (word_width OW).
Abbreviation NodeIndex := (word_width TW).

(** ** Validation *)

Definition map_offsets_issue (offs : list OW) (issue : OffsetIntegrityIssue) : res CsrError CsrError :=
  match issue with
  | Length expected actual => Ok (OffsetLength expected actual)
  | FirstNonZero _ => w ← vget offs 0; Ok (FirstOffset (word_get w))
  | NonMonotonic index _ _ =>
      p ← vget offs (index - 1); w ← vget offs index;
      Ok (NonMonotonicOffset index (word_get p) (word_get w))
  | FinalMismatch _ value_len =>
      w ← vget offs (length offs - 1); Ok (FinalOffset (word_get w) value_len)
  | UsizeOverflow index => w ← vget offs index; Ok (EdgeUsizeOverflow (word_get w))
  | ValueOutOfRange _ _ _ | CountOverflow _ => Ok (EdgeUsizeOverflow 0)
  end.

Definition map_targets_issue (tgts : list TW) (count : Z) (issue : OffsetIntegrityIssue)
    : res CsrError CsrError :=
  match issue with
  | ValueOutOfRange index _ _ => w ← vget tgts index; Ok (TargetOutOfRange index (word_get w) count)
  | UsizeOverflow index => w ← vget tgts index; Ok (TargetUsizeOverflow index (word_get w))
  | _ => Ok (TargetOutOfRange 0 0 count)
  end.

Definition validate (count : Z) (offs : list OW) (tgts : list TW) : res CsrError (CsrGraph OW TW) :=
  bound ← ok_or (NodeUsizeOverflow count) (to_usize NodeIndex count);
  if bool_decide (checked_add usize_max bound 1 = None) then Err (OffsetLengthOverflow count) else
  _ ← map_err_with (map_offsets_issue offs) (check_offset_section offs bound (zlen tgts));
  _ ← map_err_with (map_targets_issue tgts count) (check_value_range tgts bound);
  Ok {| node_count := count; node_bound := bound; offsets := offs; targets := tgts |}.

Definition from_validated_parts (count bound : Z) (offs : list OW) (tgts : list TW) : CsrGraph OW TW :=
  {| node_count := count; node_bound := bound; offsets := offs; targets := tgts |}.

(** ** Checked slots *)

Definition try_node_slot (g : CsrGraph OW TW) (node : Z) : option NodeSlot :=
  slot ← to_usize NodeIndex node;
  if decide (node < node_count g ∧ slot < node_bound g)
  then Some {| ns_raw := node; ns_slot := slot |} else None.

Definition checked_node_slot {E} (g : CsrGraph OW TW) (node : Z) : res E NodeSlot :=
  or_panic (try_node_slot g node).

Definition try_edge_slot (g : CsrGraph OW TW) (edge : Z) : option EdgeSlot :=
  slot ← to_usize EdgeIndex edge;
  if decide (slot < zlen (targets g)) then Some {| es_raw := edge; es_slot := slot |} else None.

Definition checked_edge_slot {E} (g : CsrGraph OW TW) (edge : Z) : res E EdgeSlot :=
  or_panic (try_edge_slot g edge).

(** [index_to_usize_validated(offset).unwrap_or_else(|| unreachable!(..))]. *)
Definition checked_offset_slot {E} (w : OW) : res E Z := or_panic (read_as_usize w).

Definition target_node {E} (g : CsrGraph OW TW) (edge : EdgeSlot) : res E Z :=
  w ← vget (targets g) (Z.to_nat (es_slot edge)); Ok (word_get w).

Definition outgoing_range {E} (g : CsrGraph OW TW) (node : NodeSlot) : res E EdgeRange :=
  ws ← vget (offsets g) (Z.to_nat (ns_slot node));
  s ← checked_offset_slot ws;
  we ← vget (offsets g) (Z.to_nat (ns_slot node + 1));
  e ← checked_offset_slot we;
  Ok {| er_start := s; er_end := e |}.

(** [self.end - self.start]: a [usize] subtraction. *)
Definition range_len {E} (r : EdgeRange) : res E Z :=
  if decide (er_start r ≤ er_end r) then Ok (er_end r - er_start r) else Panic.

(** [next_slot]: [from_csr_range_slot_unchecked] is [unreachable!] when the slot
    does not fit the edge index. *)
Definition next_slot {E} (r : EdgeRange) : res E (option EdgeSlot * EdgeRange) :=
  if decide (er_start r = er_end r) then Ok (None, r) else
  raw ← or_panic (from_usize EdgeIndex (er_start r));
  Ok (Some {| es_raw := raw; es_slot := er_start r |}, {| er_start := er_start r + 1; er_end := er_end r |}).

(** [CsrOutEdges], drained: the ids of the slots. *)
Fixpoint out_edges_collect {E} (fuel : nat) (r : EdgeRange) : res E (list Z) :=
  match fuel with
  | O => NoFuel
  | S fuel =>
      '(o, r) ← next_slot r;
      match o with
      | None => Ok []
      | Some slot => rest ← out_edges_collect fuel r; Ok (es_raw slot :: rest)
      end
  end.

(** ** Accessors *)

Definition contains_node (g : CsrGraph OW TW) (node : Z) : bool := bool_decide (is_Some (try_node_slot g node)).
Definition contains_edge (g : CsrGraph OW TW) (edge : Z) : bool := bool_decide (is_Some (try_edge_slot g edge)).

Definition try_target {E} (g : CsrGraph OW TW) (edge : Z) : res E (option Z) :=
  match try_edge_slot g edge with
  | None => Ok None
  | Some slot => t ← target_node g slot; Ok (Some t)
  end.

Definition csr_target {E} (g : CsrGraph OW TW) (edge : Z) : res E Z :=
  slot ← checked_edge_slot g edge; target_node g slot.

Definition csr_element_index {E} (g : CsrGraph OW TW) (node : Z) : res E Z :=
  slot ← checked_node_slot g node; Ok (ns_slot slot).

Definition csr_relation_index {E} (g : CsrGraph OW TW) (edge : Z) : res E Z :=
  slot ← checked_edge_slot g edge; Ok (es_slot slot).

Definition outgoing_edges {E} (g : CsrGraph OW TW) (node : Z) : res E EdgeRange :=
  slot ← checked_node_slot g node; outgoing_range g slot.

Definition out_degree {E} (g : CsrGraph OW TW) (node : Z) : res E Z :=
  r ← outgoing_edges g node; range_len r.

(** [IdSlice::new(&self.targets[range])]. *)
Definition csr_element_successors {E} (g : CsrGraph OW TW) (node : Z) : res E (list Z) :=
  r ← outgoing_edges g node;
  ws ← vslice (targets g) (Z.to_nat (er_start r)) (Z.to_nat (er_end r));
  Ok (id_slice ws).

(** [for_each_out_target]: the visitor returns [true] to stop. *)
Fixpoint visit_targets {V} (visit : V → Z → bool * V) (ids : list Z) (v : V) : bool * V :=
  match ids with
  | [] => (false, v)
  | id :: ids => let '(stop, v) := visit v id in if stop then (true, v) else visit_targets visit ids v
  end.

Definition for_each_out_target {E V} (g : CsrGraph OW TW) (source : Z) (visit : V → Z → bool * V) (v : V)
    : res E (bool * V) :=
  match try_node_slot g source with
  | None => Ok (false, v)
  | Some node =>
      match to_usize NodeIndex (ns_raw node) with
      | None => Ok (false, v)
      | Some index =>
          ws ← vget (offsets g) (Z.to_nat index);
          match read_as_usize ws with
          | None => Ok (false, v)
          | Some s =>
              we ← vget (offsets g) (Z.to_nat (index + 1));
              match read_as_usize we with
              | None => Ok (false, v)
              | Some e =>
                  ws ← vslice (targets g) (Z.to_nat s) (Z.to_nat e);
                  Ok (visit_targets visit (id_slice ws) v)
              end
          end
      end
  end.

(** ** The topology traits

    The id type holds the values of the index type. The classes are total; the
    accessors above say where the code panics. *)

Definition CsrNodeId : Type := native NodeIndex.

Definition to_id (v : Z) : option CsrNodeId :=
  match decide (fits NodeIndex v) with
  | left H => Some (Native v (bool_decide_pack _ H))
  | right _ => None
  end.

Definition ok_or_else {A} (d : A) (m : res Empty_set A) : A := match m with Ok a => a | _ => d end.

#[export] Instance csr_dense : DenseElementIndex (CsrGraph OW TW) CsrNodeId := {|
  element_bound g := Z.to_nat (node_bound g);
  element_index g x := Z.to_nat (ok_or_else 0 (csr_element_index g (native_val x)))
|}.
#[export] Instance csr_contains : ContainsElement (CsrGraph OW TW) CsrNodeId :=
  λ g x, contains_node g (native_val x).
#[export] Instance csr_successors : ElementSuccessors (CsrGraph OW TW) CsrNodeId :=
  λ g x, omap to_id (ok_or_else [] (csr_element_successors g (native_val x))).

End view.

(** ** Snapshot views *)

Section snapshot.
Context `{!Target}.

Definition map_offsets_bind (kind : Z) (error : SectionBindError) : CsrSnapshotError :=
  match error with
  | Missing _ => MissingOffsets
  | VersionMismatch _ expected actual => OffsetsVersion kind expected actual
  | View _ error => OffsetsView error
  end.

Definition map_targets_bind (kind : Z) (error : SectionBindError) : CsrSnapshotError :=
  match error with
  | Missing _ => MissingTargets
  | VersionMismatch _ expected actual => TargetsVersion kind expected actual
  | View _ error => TargetsView error
  end.

Definition from_snapshot_with_kinds (nw ew : swidth) (snapshot : Snapshot) (offsets_kind targets_kind version : Z)
    : res CsrSnapshotError (CsrGraph (le_word ew) (le_word nw)) :=
  offs ← (map_err (map_offsets_bind offsets_kind) (typed_section ew snapshot offsets_kind version)
    : res CsrSnapshotError (list (le_word ew)));
  tgts ← (map_err (map_targets_bind targets_kind) (typed_section nw snapshot targets_kind version)
    : res CsrSnapshotError (list (le_word nw)));
  if decide (offs = []) then Err OffsetsEmpty else
  count ← ok_or (NodeCountOverflow (zlen offs)) (from_usize nw (zlen offs - 1));
  map_err Csr (validate count offs tgts).

Definition from_snapshot (nw ew : swidth) (snapshot : Snapshot) :=
  from_snapshot_with_kinds nw ew snapshot (OFFSETS_KIND ew) (TARGETS_KIND nw) SNAPSHOT_CSR_SECTION_VERSION.

End snapshot.

(** ** Inbound views ([oxgraph-csc])

    The incoming adjacency of a graph is a compressed sparse row view of its
    transposed edges, read from the section kinds the caller's storage reserves for
    it. Every accessor goes through the inner view. *)

Inductive CscSnapshotError := CscLayout (error : CsrSnapshotError).

Record CscSnapshotGraph `{Target} (nw ew : swidth) := { csc_inner : CsrGraph (le_word ew) (le_word nw) }.
Arguments Build_CscSnapshotGraph {_ _ _} _.
Arguments csc_inner {_ _ _} _.

Section csc.
Context `{!Target} {nw ew : swidth}.

Definition csc_from_snapshot_with_kinds (snapshot : Snapshot) (offsets_kind targets_kind version : Z)
    : res CscSnapshotError (CscSnapshotGraph nw ew) :=
  inner ← map_err CscLayout (from_snapshot_with_kinds nw ew snapshot offsets_kind targets_kind version);
  Ok (Build_CscSnapshotGraph inner).

Definition csc_node_count (g : CscSnapshotGraph nw ew) : Z := node_bound (csc_inner g).
Definition csc_relation_count (g : CscSnapshotGraph nw ew) : Z := zlen (targets (csc_inner g)).

(** [predecessors] and the [ElementPredecessors] of the view, drained. *)
Definition predecessors {E} (g : CscSnapshotGraph nw ew) (target : Z) : res E (list Z) :=
  csr_element_successors (csc_inner g) target.

Definition for_each_predecessor {E V} (g : CscSnapshotGraph nw ew) (target : Z) (visit : V → Z → bool * V) (v : V)
    : res E (bool * V) :=
  for_each_out_target (csc_inner g) target visit v.

End csc.
