(* ===== verification/CsrFacts.v ===== *)
(** * CsrFacts: what a validated CSR view promises

    Validation accepts exactly the well formed views and reports a true fault
    otherwise; a validated view is an array of adjacency rows, and none of its
    accessors panics on a contained id. *)

From stdpp Require Import base gmap sets list sorting.
From S2P Require Import Prelude Bytes Layout Snapshot SnapshotFacts Topology Csr.

Local Open Scope Z_scope.

Section validation.
Context `{!Target} {OW TW : Type} `{!LayoutWord OW} `{!LayoutWord TW}.

(** A well formed view. *)
Record CsrOk (g : CsrGraph OW TW) : Prop := {
  csr_bound : node_bound g = node_count g ∧ 0 ≤ node_bound g;
  csr_fits : node_bound g + 1 ≤ usize_max;
  csr_offsets : OffsetsOk (offsets g) (node_bound g) (zlen (targets g));
  csr_targets : Forall (λ x, word_get x < node_bound g) (targets g)
}.

(** What an error says of the arguments of [validate]. *)
Definition csr_error_holds (count : Z) (offs : list OW) (tgts : list TW) (e : CsrError) : Prop :=
  match e with
  | NodeUsizeOverflow v => v = count ∧ usize_max < count
  | OffsetLengthOverflow c => c = count ∧ usize_max < count + 1
  | OffsetLength expected actual => expected = count + 1 ∧ actual = zlen offs ∧ actual ≠ expected
  | FirstOffset a => ∃ x, offs !! 0%nat = Some x ∧ a = word_get x ∧ a ≠ 0
  | NonMonotonicOffset index p a => ∃ i x y, index = S i ∧ offs !! i = Some x ∧ offs !! S i = Some y ∧
      p = word_get x ∧ a = word_get y ∧ a < p
  | FinalOffset f len => ∃ x, offs !! (length offs - 1)%nat = Some x ∧ f = word_get x ∧
      len = zlen tgts ∧ f ≠ len
  | EdgeUsizeOverflow v => ∃ i x, offs !! i = Some x ∧ v = word_get x ∧ usize_max < v
  | TargetOutOfRange index t c => ∃ x, tgts !! index = Some x ∧ t = word_get x ∧ c = count ∧ count ≤ t
  | TargetUsizeOverflow index v => ∃ x, tgts !! index = Some x ∧ v = word_get x ∧ usize_max < v
  end.

Lemma check_values_from_cases (pre vals : list TW) bound :
  check_values_from (length pre) vals bound = Ok () ∨
  ∃ issue index x, check_values_from (length pre) vals bound = Err issue ∧ (pre ++ vals) !! index = Some x ∧
    ((issue = UsizeOverflow index ∧ usize_max < word_get x) ∨
     (issue = ValueOutOfRange index (word_get x) bound ∧ bound ≤ word_get x)).
Proof.
  revert pre. induction vals as [|w vals IH]; intros pre; [by left|]. cbn [check_values_from].
  assert ((pre ++ w :: vals) !! length pre = Some w) as Hw by by apply list_lookup_middle.
  destruct (read_as_usize w) as [o|] eqn:Ho; cbn [ok_or mbind res_bind].
  - apply read_as_usize_Some in Ho as [-> _]. case_decide as Hle.
    + right. exists (ValueOutOfRange (length pre) (word_get w) bound), (length pre), w. eauto.
    + destruct (IH (pre ++ [w])) as [Hr|(issue & i & x & Hr & Hx & Hi)];
        rewrite length_app, Nat.add_1_r in Hr; [by left|].
      right. rewrite <-app_assoc in Hx. by exists issue, i, x.
  - right. exists (UsizeOverflow (length pre)), (length pre), w. split_and!; [done..|].
    left. split; [done|]. by apply read_as_usize_None.
Qed.

(** Reporting an offset issue reads only the slots the issue names. *)
Lemma map_offsets_issue_holds count offs (tgts : list TW) issue :
  issue_holds offs count (zlen tgts) issue → count + 1 ≤ usize_max →
  ∃ e, map_offsets_issue offs issue = Ok e ∧ csr_error_holds count offs tgts e.
Proof.
  intros Hi Hc. destruct issue as [ex ac|c|a|i p a|f len|i v b|i]; cbn [issue_holds] in Hi; cbn [map_offsets_issue].
  - by eexists.
  - lia.
  - destruct Hi as (x & Hx & -> & Hne). unfold vget. rewrite Hx. eexists. split; [done|]. by exists x.
  - destruct Hi as (j & x & y & -> & Hx & Hy & -> & -> & Hlt). unfold vget.
    replace (S j - 1)%nat with j by lia. rewrite Hx, Hy. eexists. split; [done|]. by exists j, x, y.
  - destruct Hi as (x & Hx & -> & -> & Hne). unfold vget. rewrite Hx. eexists. split; [done|]. by exists x.
  - done.
  - destruct Hi as (x & Hx & Hlt). unfold vget. rewrite Hx. eexists. split; [done|]. by exists i, x.
Qed.

Lemma validate_cases count (offs : list OW) (tgts : list TW) :
  fits (word_width TW) count →
  let g := from_validated_parts count count offs tgts in
  (validate count offs tgts = Ok g ∧ CsrOk g) ∨
  (∃ e, validate count offs tgts = Err e ∧ csr_error_holds count offs tgts e ∧ ¬ CsrOk g).
Proof.
  intros Hfit. cbv zeta. assert (0 ≤ count) as Hpos by apply Hfit. unfold validate.
  destruct (to_usize (word_width TW) count) as [bound|] eqn:Hb; cbn [ok_or mbind res_bind].
  2:{ right. assert (usize_max < count) as Hlt.
      { destruct (decide (usize_max < count)); [done|]. exfalso.
        assert (to_usize (word_width TW) count = Some count) as Hs by (apply to_usize_Some; [done|lia]).
        congruence. }
      eexists. split; [done|]. split; [done|]. intros [_ Hf _ _]. cbn in Hf. lia. }
  apply to_usize_Some in Hb as [-> Hb]; [|done].
  case_bool_decide as Hadd.
  { apply try_into_None in Hadd. right. eexists. split; [done|]. split; [done|].
    intros [_ Hf _ _]. cbn in Hf. lia. }
  destruct (checked_add usize_max count 1) as [s|] eqn:Hs; [|done]. apply checked_add_Some in Hs as [Hs _].
  destruct (offset_validation_cases offs count (zlen tgts) Hpos) as [(-> & _ & Hok)|(issue & -> & Hi & Hnot)];
    cbn [map_err_with mbind res_bind].
  2:{ right. destruct (map_offsets_issue_holds count offs tgts issue Hi Hs) as (e & -> & He).
      exists e. split; [done|]. split; [done|]. intros [_ _ Hok _]. by apply Hnot. }
  destruct (check_values_from_cases [] tgts count) as [Hv|(issue & i & x & Hv & Hx & Hi)]; cbn [length app] in *;
    unfold check_value_range; rewrite Hv; cbn [map_err_with mbind res_bind].
  - left. split; [done|]. split; cbn; [done..|].
    apply check_values_from_Ok in Hv. eapply Forall_impl; [exact Hv|]. naive_solver.
  - right. assert (usize_max < word_get x ∨ count ≤ word_get x) as Hbad by naive_solver.
    assert (¬ CsrOk (from_validated_parts count count offs tgts)) as Hnot.
    { intros [_ _ _ Ht]. cbn in Ht. rewrite Forall_lookup in Ht. specialize (Ht i x Hx). lia. }
    destruct Hi as [[-> Hlt]|[-> Hle]]; cbn [map_targets_issue]; unfold vget; rewrite Hx;
      eexists; (split; [done|]); (split; [by exists x|done]).
Qed.

(** [CsrGraph::validate] never panics on any arrays: it accepts exactly the
    well formed views, and otherwise names a fault that is there, with the
    position and the values at fault. *)
Theorem csr_validate_exact count (offs : list OW) (tgts : list TW) :
  fits (word_width TW) count →
  let g := from_validated_parts count count offs tgts in
  (validate count offs tgts = Ok g ∧ CsrOk g) ∨
  (∃ e, validate count offs tgts = Err e ∧ csr_error_holds count offs tgts e ∧ ¬ CsrOk g).
Proof. apply validate_cases. Qed.

End validation.

(** ** The view as adjacency rows *)

Section view.
Context `{!Target} {OW TW : Type} `{!LayoutWord OW} `{!LayoutWord TW}.
Context (g : CsrGraph OW TW).
Hypothesis Hok : CsrOk g.

(** Row [i] of the view: its target ids. *)
Record CsrRows (rows : list (list Z)) : Prop := {
  rows_count : zlen rows = node_bound g;
  rows_concat : concat rows = id_slice (targets g);
  rows_cut : ∀ i r, rows !! i = Some r → ∃ a b, offsets g !! i = Some a ∧ offsets g !! S i = Some b ∧
    0 ≤ word_get a ≤ word_get b ∧ word_get b ≤ zlen (targets g) ∧
    r = id_slice (take (Z.to_nat (word_get b - word_get a)) (drop (Z.to_nat (word_get a)) (targets g)))
}.

Lemma id_slice_concat (ls : list (list TW)) : id_slice (concat ls) = concat (id_slice <$> ls).
Proof using Type.
  unfold id_slice. induction ls as [|l ls IH]; [done|]. cbn [concat fmap list_fmap]. by rewrite fmap_app, IH.
Qed.

Lemma csr_rows : ∃ rows, CsrRows rows.
Proof using Hok.
  destruct Hok as [[_ Hpos] _ Hoff _].
  destruct (rows_tile (E:=CsrError) (offsets g) (targets g) (node_bound g) Hpos Hoff) as (rows & Hlen & Hcat & Hrow).
  exists (id_slice <$> rows). split.
  - by rewrite <-Hlen; unfold zlen; rewrite length_fmap.
  - by rewrite <-id_slice_concat, Hcat.
  - intros i r (r' & -> & Hr)%list_lookup_fmap_Some.
    pose proof (lookup_lt_Some _ _ _ Hr) as Hi. unfold zlen in Hlen.
    destruct (Hrow i) as (r2 & Hr2 & Hr2'); [lia|]. rewrite Hr in Hr2'. injection Hr2' as <-.
    destruct (row_Ok (E:=CsrError) _ _ _ i Hoff) as (a & b & Ha & Hb & Hab & Hbl & Hrw); [lia|].
    rewrite Hr2 in Hrw. injection Hrw as ->. by exists a, b.
Qed.

Lemma csr_read i w : offsets g !! i = Some w → read_as_usize w = Some (word_get w).
Proof using Hok. intros Hw. apply read_as_usize_Some. split; [done|]. by eapply offsets_fit; [apply Hok|]. Qed.

Lemma try_node_slot_Some node :
  0 ≤ node < node_bound g → fits (word_width TW) node →
  try_node_slot g node = Some {| ns_raw := node; ns_slot := node |}.
Proof using Hok.
  intros Hn Hf. destruct Hok as [[Heq _] Hmax _ _]. unfold try_node_slot.
  assert (to_usize (word_width TW) node = Some node) as -> by (apply to_usize_Some; [done|lia]).
  cbn [mbind option_bind]. by rewrite decide_True by lia.
Qed.

Lemma try_node_slot_None node :
  fits (word_width TW) node → node_bound g ≤ node → try_node_slot g node = None.
Proof using Hok.
  intros Hf Hn. unfold try_node_slot. destruct (to_usize (word_width TW) node) as [s|] eqn:Hs; [|done].
  cbn [mbind option_bind]. rewrite decide_False; [done|]. destruct Hok as [[Heq _] _ _ _]. lia.
Qed.

(** The range of a contained node. *)
Lemma outgoing_edges_Ok {E} rows node r :
  CsrRows rows → fits (word_width TW) node → 0 ≤ node → rows !! Z.to_nat node = Some r →
  node < node_bound g ∧ ∃ s, outgoing_edges (E:=E) g node = Ok {| er_start := s; er_end := s + zlen r |} ∧
    0 ≤ s ∧ s + zlen r ≤ zlen (targets g) ∧
    r = id_slice (take (length r) (drop (Z.to_nat s) (targets g))).
Proof using Hok.
  intros Hrows Hf Hpos Hr. pose proof (lookup_lt_Some _ _ _ Hr) as Hlt.
  pose proof (rows_count _ Hrows) as Hcount. unfold zlen in Hcount.
  assert (node < node_bound g) as Hn by lia. split; [done|].
  destruct (rows_cut _ Hrows _ _ Hr) as (a & b & Ha & Hb & Hab & Hbl & ->).
  set (r := id_slice _). assert (zlen r = word_get b - word_get a) as Hlen.
  { unfold r, id_slice, zlen in *. rewrite length_fmap, length_take, length_drop. lia. }
  exists (word_get a). split; [|split_and!; [lia|lia|]].
  - unfold outgoing_edges, checked_node_slot. rewrite try_node_slot_Some by (done || lia). cbn [or_panic mbind res_bind].
    unfold outgoing_range, vget. cbn [ns_slot]. rewrite Ha. cbn [or_panic mbind res_bind].
    unfold checked_offset_slot. rewrite (csr_read _ a Ha). cbn [or_panic mbind res_bind].
    replace (Z.to_nat (node + 1)) with (S (Z.to_nat node)) by lia. rewrite Hb. cbn [or_panic mbind res_bind].
    rewrite (csr_read _ b Hb). cbn [or_panic mbind res_bind]. do 2 f_equal. lia.
  - replace (length r) with (Z.to_nat (word_get b - word_get a)) by (unfold zlen in Hlen; lia). done.
Qed.

Lemma csr_successors_Ok {E} rows node r :
  CsrRows rows → fits (word_width TW) node → 0 ≤ node → rows !! Z.to_nat node = Some r →
  csr_element_successors (E:=E) g node = Ok r.
Proof using Hok.
  intros Hrows Hf Hpos Hr. destruct (outgoing_edges_Ok (E:=E) rows node r Hrows Hf Hpos Hr)
    as (_ & s & Hs & H0 & Hle & Hslice).
  unfold csr_element_successors. rewrite Hs. cbn [mbind res_bind er_start er_end]. unfold vslice.
  pose proof (zlen_nonneg r). unfold zlen in *. rewrite decide_True by lia. cbn [mbind res_bind]. rewrite Hslice. do 4 f_equal.
  rewrite <-Hslice. lia.
Qed.

Lemma out_edges_step {E} fuel r :
  out_edges_collect (OW:=OW) (E:=E) (S fuel) r =
  '(o, r) ← next_slot (OW:=OW) r;
  match o with
  | None => Ok []
  | Some slot => rest ← out_edges_collect (OW:=OW) fuel r; Ok (es_raw slot :: rest)
  end.
Proof using Type. done. Qed.

Lemma csr_len_usize : zlen (targets g) ≤ usize_max.
Proof using Hok.
  pose proof (csr_offsets _ Hok) as Hoff.
  destruct (lookup_lt_is_Some_2 (offsets g) (length (offsets g) - 1)) as [w Hw].
  { pose proof (offsets_len _ _ _ Hoff). destruct Hok as [[_ ?] _ _ _]. unfold zlen in *. lia. }
  rewrite <-(offsets_last _ _ _ Hoff w Hw). by eapply offsets_fit.
Qed.

(** Draining the edge iterator of a contained node: its edge ids, each the
    slot of one of its targets. *)
Lemma out_edges_Ok {E} s n :
  0 ≤ s → s + Z.of_nat n ≤ zlen (targets g) →
  (∀ v, 0 ≤ v < zlen (targets g) → fits (word_width OW) v) →
  out_edges_collect (OW:=OW) (E:=E) (S n) {| er_start := s; er_end := s + Z.of_nat n |} = Ok (seqZ s (Z.of_nat n)).
Proof using Hok.
  intros Hs Hle Hfit. pose proof (csr_fits _ Hok) as Hmax.
  pose proof csr_len_usize as Hlen.
  revert s Hs Hle. induction n as [|n IH]; intros s Hs Hle; rewrite out_edges_step;
    unfold next_slot; cbn [er_start er_end].
  - rewrite decide_True by lia. done.
  - rewrite decide_False by lia.
    assert (from_usize (word_width OW) s = Some s) as -> by (apply from_usize_Some; [lia|split; [done|apply Hfit; lia]]).
    cbn [or_panic mbind res_bind]. rewrite Nat2Z.inj_succ.
    replace (s + Z.succ (Z.of_nat n)) with (s + 1 + Z.of_nat n) by lia. rewrite IH by lia. cbn [mbind res_bind es_raw].
    rewrite (seqZ_cons s) by lia. by rewrite Z.pred_succ, Z.add_1_r.
Qed.

Lemma target_at {E} i x :
  fits (word_width OW) (Z.of_nat i) → targets g !! i = Some x →
  csr_target (E:=E) g (Z.of_nat i) = Ok (word_get x) ∧ contains_edge g (Z.of_nat i) = true.
Proof using Hok.
  intros Hf Hx. pose proof (lookup_lt_Some _ _ _ Hx) as Hlt.
  assert (try_edge_slot g (Z.of_nat i) = Some {| es_raw := Z.of_nat i; es_slot := Z.of_nat i |}) as Hs.
  { unfold try_edge_slot. pose proof (csr_len_usize) as Hl.
    assert (to_usize (word_width OW) (Z.of_nat i) = Some (Z.of_nat i)) as ->.
    { apply to_usize_Some; [done|]. unfold zlen in Hl. split; [done|lia]. }
    cbn [mbind option_bind]. by rewrite decide_True by (unfold zlen; lia). }
  unfold csr_target, contains_edge, checked_edge_slot. rewrite Hs. cbn [or_panic mbind res_bind]. split; [|done].
  unfold target_node, vget. cbn [es_slot]. rewrite Nat2Z.id, Hx. done.
Qed.


End view.

(** ** Validated views under the graph algorithms *)

Section topology.
Context `{!Target} {OW TW : Type} `{!LayoutWord OW} `{!LayoutWord TW}.

(** A CSR view offers no predecessors; forward traversals ask for none. *)
#[export] Instance csr_predecessors : ElementPredecessors (CsrGraph OW TW) (CsrNodeId (TW:=TW)) := λ _ _, [].

Lemma to_id_Some v x : to_id (TW:=TW) v = Some x ↔ native_val x = v.
Proof.
  unfold to_id. destruct (decide (fits _ v)) as [Hf|Hf]; split.
  - by intros [= <-].
  - intros Hx. f_equal. apply native_eq. by rewrite Hx.
  - done.
  - intros Hx. destruct Hf. rewrite <-Hx. apply native_fits.
Qed.

Lemma csr_contained g x :
  CsrOk g → contains_element (G := CsrGraph OW TW) g x = true →
  0 ≤ native_val x < node_bound g ∧ try_node_slot g (native_val x) =
    Some {| ns_raw := native_val x; ns_slot := native_val x |}.
Proof.
  intros Hok Hx. pose proof (native_fits x) as Hf.
  assert (0 ≤ native_val x < node_bound g) as Hb.
  { split; [apply Hf|]. destruct (decide (native_val x < node_bound g)); [done|]. exfalso.
    unfold contains_element, csr_contains, contains_node in Hx.
    rewrite try_node_slot_None in Hx by (done || lia). apply bool_decide_eq_true in Hx. by destruct Hx. }
  split; [done|]. by apply try_node_slot_Some.
Qed.

(** What [DenseElementIndex], [ContainsElement] and [ElementSuccessors] promise
    holds of every validated view. *)
Lemma csr_topology_laws g : CsrOk g → TopologyLaws (G := CsrGraph OW TW) (Id := CsrNodeId (TW:=TW)) g.
Proof.
  intros Hok.
  assert (∀ x : CsrNodeId (TW:=TW), contains_element (G := CsrGraph OW TW) g x = true →
    element_index (G := CsrGraph OW TW) g x = Z.to_nat (native_val x)) as Hindex.
  { intros x Hx. destruct (csr_contained g x Hok Hx) as [_ Hs]. cbn [element_index csr_dense].
    unfold csr_element_index, checked_node_slot. by rewrite Hs. }
  split.
  - intros x Hx. rewrite (Hindex x Hx). destruct (csr_contained g x Hok Hx) as [Hb _]. cbn. lia.
  - intros x y Hx Hy. rewrite (Hindex x Hx), (Hindex y Hy). intros He. apply native_eq.
    destruct (csr_contained g x Hok Hx) as [Hbx _], (csr_contained g y Hok Hy) as [Hby _]. lia.
  - intros x y Hx Hy. destruct (csr_contained g x Hok Hx) as [Hb _].
    destruct (csr_rows g Hok) as [rows Hrows]. pose proof (rows_count _ _ Hrows) as Hcount.
    destruct (lookup_lt_is_Some_2 rows (Z.to_nat (native_val x))) as [r Hr]; [unfold zlen in Hcount; lia|].
    unfold element_successors, csr_successors in Hy.
    rewrite (csr_successors_Ok g Hok rows (native_val x) r Hrows (native_fits x)) in Hy by (done || lia).
    cbn [ok_or_else] in Hy. apply list_elem_of_omap in Hy as (v & Hv & Hy%to_id_Some).
    assert (0 ≤ v < node_bound g) as Hvb.
    { destruct (outgoing_edges_Ok (E:=CsrError) g Hok rows _ r Hrows (native_fits x) ltac:(lia) Hr)
        as (_ & s & _ & _ & _ & Hslice).
      rewrite Hslice in Hv. apply list_elem_of_fmap in Hv as (w & -> & Hw).
      split; [apply word_get_nonneg|]. pose proof (csr_targets _ Hok) as Ht. rewrite Forall_forall in Ht.
      apply Ht. apply elem_of_take in Hw as (i & Hi & _). apply list_elem_of_lookup. exists (Z.to_nat s + i)%nat.
      by rewrite <-lookup_drop. }
    unfold contains_element, csr_contains, contains_node.
    rewrite (try_node_slot_Some g Hok) by (rewrite Hy; first [lia|rewrite <-Hy; apply native_fits]).
    by apply bool_decide_eq_true.
  - intros x y _ Hy. by apply not_elem_of_nil in Hy.
Qed.

End topology.

(** ** Concrete views *)

Section demo.

Definition demo_offsets : list (le_word S32) := to_le_word S32 <$> [0; 2; 3].
Definition demo_targets : list (le_word S32) := to_le_word S32 <$> [1; 0; 1].
Definition demo_view : CsrGraph (le_word S32) (le_word S32) := from_validated_parts 2 2 demo_offsets demo_targets.

Lemma csr_validate_exact_witness :
  validate (H := target64) 2 demo_offsets demo_targets = Ok demo_view ∧ CsrOk (H := target64) demo_view ∧
  ∃ e, validate (H := target64) 1 demo_offsets demo_targets = Err e ∧
    csr_error_holds (H := target64) 1 demo_offsets demo_targets e.
Proof.
  split.
  { destruct (csr_validate_exact (H := target64) 2 demo_offsets demo_targets ltac:(vm_compute; split; discriminate))
      as [[Hv _]|(e & He & _)]; [exact Hv|vm_compute in He; discriminate]. }
  split.
  { destruct (csr_validate_exact (H := target64) 2 demo_offsets demo_targets ltac:(vm_compute; split; discriminate))
      as [[_ Hok]|(e & He & _)]; [exact Hok|vm_compute in He; discriminate]. }
  destruct (csr_validate_exact (H := target64) 1 demo_offsets demo_targets ltac:(vm_compute; split; discriminate))
    as [[Hv _]|(e & He & Hh & _)]; [vm_compute in Hv; discriminate|exists e; split; [exact He|exact Hh]].
Defined.


End demo.
