(* ===== verification/CsrBuild.v ===== *)
(** * CsrBuild: graph builders and the counting sort that freezes them

    Models [crates/oxgraph-csr/src/build.rs]: [GraphBuilder],
    [WeightedGraphBuilder], [freeze_topology], the frozen graphs' accessors,
    [transpose], [as_view] and the snapshot export. A value of an index type is
    a [Z] in the range of its width; a [usize] is a [Z]. The property-layer
    export (feature [build-property-arrow]) is not modelled. *)

From stdpp Require Import base gmap sets list sorting.
From S2P Require Import Prelude Bytes Layout Crc Snapshot SnapshotWrite Topology Csr.

Local Open Scope Z_scope.

Inductive GraphBuildError :=
  | InvalidNode (node : Z)
  | InvalidEdge (edge : Z)
  | IdOverflow (value : Z)
  | GraphSnapshotPlan (source : PlanError).

Record GraphBuilder := { gb_node_count : Z; gb_sources : list Z; gb_targets : list Z }.

Record WeightedGraphBuilder (EW RW : Type) := {
  wb_node_count : Z;
  wb_element_weights : list EW;
  wb_sources : list Z;
  wb_targets : list Z;
  wb_relation_weights : list RW
}.
Arguments wb_node_count {_ _} _.
Arguments wb_element_weights {_ _} _.
Arguments wb_sources {_ _} _.
Arguments wb_targets {_ _} _.
Arguments wb_relation_weights {_ _} _.

Record FrozenTopology := {
  ft_node_count : Z;
  ft_offsets : list Z;
  ft_edge_ids : list Z;
  ft_targets : list Z;
  ft_sources : list Z;
  ft_edge_targets : list Z
}.

Record FrozenWeightedGraph (EW RW : Type) := {
  fw_topology : FrozenTopology;
  fw_element_weights : list EW;
  fw_relation_weights : list RW
}.
Arguments fw_topology {_ _} _.
Arguments fw_element_weights {_ _} _.
Arguments fw_relation_weights {_ _} _.

Section build.
Context `{!Target} (nw ew : width).

Definition ensure_node (node count : Z) : res GraphBuildError Z :=
  map_err (λ _, InvalidNode node) (id_to_slot nw node count).

Definition ensure_edge (edge count : Z) : res GraphBuildError Z :=
  map_err (λ _, InvalidEdge edge) (id_to_slot ew edge count).

(** ** Freezing: a stable counting sort by source *)

(** One edge of the counting loop. *)
Definition count_source (counts : list Z) (source : Z) : res GraphBuildError (list Z) :=
  slot ← ok_or (IdOverflow usize_max) (to_usize nw source);
  c ← vget counts (Z.to_nat (slot + 1));
  c ← ok_or (IdOverflow usize_max) (checked_add usize_max c 1);
  vset counts (Z.to_nat (slot + 1)) c.

(** One index of the prefix-sum loop. *)
Definition prefix_sum (counts : list Z) (index : nat) : res GraphBuildError (list Z) :=
  a ← vget counts index;
  b ← vget counts (index - 1);
  c ← ok_or (IdOverflow usize_max) (checked_add usize_max a b);
  vset counts index c.

Definition offset_of (acc : list Z) (value : Z) : res GraphBuildError (list Z) :=
  o ← ok_or (IdOverflow value) (from_usize ew value); mret (acc ++ [o]).

(** One edge of the placement loop: the cursors and both output arrays. *)
Definition place_edge (st : list Z * list Z * list Z) (edge : nat * (Z * Z))
    : res GraphBuildError (list Z * list Z * list Z) :=
  let '(cursor, edge_ids, grouped_targets) := st in
  let '(edge_index, (source, target)) := edge in
  slot ← ok_or (IdOverflow usize_max) (to_usize nw source);
  position ← vget cursor (Z.to_nat slot);
  next ← ok_or (IdOverflow usize_max) (checked_add usize_max position 1);
  cursor ← vset cursor (Z.to_nat slot) next;
  id ← ok_or (IdOverflow (Z.of_nat edge_index)) (from_usize ew (Z.of_nat edge_index));
  edge_ids ← vset edge_ids (Z.to_nat position) id;
  grouped_targets ← vset grouped_targets (Z.to_nat position) target;
  mret (cursor, edge_ids, grouped_targets).

(** [edge_zero] and [node_zero]. *)
Definition index_zero (w : width) : res GraphBuildError Z :=
  map_err (λ e, map_offset_overflow e IdOverflow) (index_from_usize w 0).

Definition freeze_topology (count : Z) (sources targets : list Z) : res GraphBuildError FrozenTopology :=
  len ← or_panic (checked_add usize_max count 1);
  counts ← for_each count_source sources (replicate (Z.to_nat len) 0);
  counts ← for_each prefix_sum (seq 1 (length counts - 1)) counts;
  offs ← for_each offset_of counts [];
  e0 ← index_zero ew;
  n0 ← index_zero nw;
  '(_, edge_ids, grouped) ← for_each place_edge (imap (λ i e, (i, e)) (zip sources targets))
    (counts, replicate (length sources) e0, replicate (length targets) n0);
  mret {| ft_node_count := count; ft_offsets := offs; ft_edge_ids := edge_ids; ft_targets := grouped;
          ft_sources := sources; ft_edge_targets := targets |}.

(** ** Builders *)

Definition GraphBuilder_new : GraphBuilder := {| gb_node_count := 0; gb_sources := []; gb_targets := [] |}.

Definition add_node (b : GraphBuilder) : res GraphBuildError (Z * GraphBuilder) :=
  '(id, count) ← next_dense_index nw (gb_node_count b) IdOverflow;
  mret (id, {| gb_node_count := count; gb_sources := gb_sources b; gb_targets := gb_targets b |}).

Definition add_edge (b : GraphBuilder) (source target : Z) : res GraphBuildError (Z * GraphBuilder) :=
  _ ← ensure_node source (gb_node_count b);
  _ ← ensure_node target (gb_node_count b);
  edge ← ok_or (IdOverflow (zlen (gb_sources b))) (from_usize ew (zlen (gb_sources b)));
  mret (edge, {| gb_node_count := gb_node_count b; gb_sources := gb_sources b ++ [source];
                 gb_targets := gb_targets b ++ [target] |}).

Definition freeze (b : GraphBuilder) : res GraphBuildError FrozenTopology :=
  freeze_topology (gb_node_count b) (gb_sources b) (gb_targets b).

Section weighted.
Context {EW RW : Type}.

Definition WeightedGraphBuilder_new : WeightedGraphBuilder EW RW :=
  {| wb_node_count := 0; wb_element_weights := []; wb_sources := []; wb_targets := [];
     wb_relation_weights := [] |}.

Definition w_add_node (b : WeightedGraphBuilder EW RW) (weight : EW)
    : res GraphBuildError (Z * WeightedGraphBuilder EW RW) :=
  '(id, count) ← next_dense_index nw (wb_node_count b) IdOverflow;
  mret (id, {| wb_node_count := count; wb_element_weights := wb_element_weights b ++ [weight];
               wb_sources := wb_sources b; wb_targets := wb_targets b;
               wb_relation_weights := wb_relation_weights b |}).

Definition w_add_edge (b : WeightedGraphBuilder EW RW) (source target : Z) (weight : RW)
    : res GraphBuildError (Z * WeightedGraphBuilder EW RW) :=
  _ ← ensure_node source (wb_node_count b);
  _ ← ensure_node target (wb_node_count b);
  edge ← ok_or (IdOverflow (zlen (wb_sources b))) (from_usize ew (zlen (wb_sources b)));
  mret (edge, {| wb_node_count := wb_node_count b; wb_element_weights := wb_element_weights b;
                 wb_sources := wb_sources b ++ [source]; wb_targets := wb_targets b ++ [target];
                 wb_relation_weights := wb_relation_weights b ++ [weight] |}).

Definition set_element_weight (b : WeightedGraphBuilder EW RW) (node : Z) (weight : EW)
    : res GraphBuildError (WeightedGraphBuilder EW RW) :=
  slot ← ensure_node node (wb_node_count b);
  ws ← vset (wb_element_weights b) (Z.to_nat slot) weight;
  mret {| wb_node_count := wb_node_count b; wb_element_weights := ws; wb_sources := wb_sources b;
          wb_targets := wb_targets b; wb_relation_weights := wb_relation_weights b |}.

Definition set_relation_weight (b : WeightedGraphBuilder EW RW) (edge : Z) (weight : RW)
    : res GraphBuildError (WeightedGraphBuilder EW RW) :=
  slot ← ensure_edge edge (zlen (wb_sources b));
  ws ← vset (wb_relation_weights b) (Z.to_nat slot) weight;
  mret {| wb_node_count := wb_node_count b; wb_element_weights := wb_element_weights b;
          wb_sources := wb_sources b; wb_targets := wb_targets b; wb_relation_weights := ws |}.

Definition w_freeze (b : WeightedGraphBuilder EW RW) : res GraphBuildError (FrozenWeightedGraph EW RW) :=
  topology ← freeze_topology (wb_node_count b) (wb_sources b) (wb_targets b);
  mret {| fw_topology := topology; fw_element_weights := wb_element_weights b;
          fw_relation_weights := wb_relation_weights b |}.

End weighted.

(** ** Frozen accessors *)

Definition frozen_outgoing_range {E} (t : FrozenTopology) (node : Z) : res E (Z * Z) :=
  let slot := slot_or_max nw node in
  s ← vget (ft_offsets t) (Z.to_nat slot);
  e ← vget (ft_offsets t) (Z.to_nat (slot + 1));
  Ok (default (zlen (ft_edge_ids t)) (to_usize ew s), default (zlen (ft_edge_ids t)) (to_usize ew e)).

Definition frozen_out_edges {E} (t : FrozenTopology) (node : Z) : res E (list Z) :=
  '(s, e) ← frozen_outgoing_range t node;
  vslice (ft_edge_ids t) (Z.to_nat s) (Z.to_nat e).

Definition frozen_target {E} (t : FrozenTopology) (edge : Z) : res E Z :=
  vget (ft_edge_targets t) (Z.to_nat (slot_or_max ew edge)).
Definition frozen_source {E} (t : FrozenTopology) (edge : Z) : res E Z :=
  vget (ft_sources t) (Z.to_nat (slot_or_max ew edge)).

(** [FrozenSuccessors], drained. *)
Definition frozen_successors {E} (t : FrozenTopology) (node : Z) : res E (list Z) :=
  ids ← frozen_out_edges t node;
  for_each (λ acc edge, y ← frozen_target t edge; Ok (acc ++ [y])) ids [].

Definition transpose (t : FrozenTopology) : res GraphBuildError FrozenTopology :=
  freeze_topology (ft_node_count t) (ft_edge_targets t) (ft_sources t).

(** The slices of index values as native words. *)
Definition native_words (w : width) (vs : list Z) : list (native w) :=
  omap (λ v, match decide (fits w v) with
    | left H => Some (Native v (bool_decide_pack _ H)) | right _ => None end) vs.

Definition as_view (t : FrozenTopology) : res GraphBuildError (CsrGraph (native ew) (native nw)) :=
  count ← ok_or (IdOverflow (ft_node_count t)) (from_usize nw (ft_node_count t));
  Ok (from_validated_parts count (ft_node_count t) (native_words ew (ft_offsets t))
    (native_words nw (ft_targets t))).

End build.

(** ** Snapshot export *)

Section export.
Context `{!Target} (nw ew : swidth).

Definition export_topology_snapshot (t : FrozenTopology) : res GraphBuildError (list byte) :=
  map_err GraphSnapshotPlan (
    w ← SnapshotWriter_new 2 crc32c_append;
    w ← section_widths ew w (OFFSETS_KIND ew) SNAPSHOT_CSR_SECTION_VERSION (ft_offsets t);
    w ← section_widths nw w (TARGETS_KIND nw) SNAPSHOT_CSR_SECTION_VERSION (ft_targets t);
    finish w).

Definition export_csr_snapshot := export_topology_snapshot.
Definition export_weighted_csr_snapshot {EW RW} (g : FrozenWeightedGraph EW RW) :=
  export_topology_snapshot (fw_topology g).

End export.

(** Four edges out of insertion order, one repeated. *)
Example freeze_small :
  freeze_topology (H := target64) W32 W32 3 [2; 0; 2; 0] [0; 1; 1; 1] =
  Ok {| ft_node_count := 3; ft_offsets := [0; 2; 2; 4]; ft_edge_ids := [1; 3; 0; 2];
        ft_targets := [1; 1; 0; 1]; ft_sources := [2; 0; 2; 0]; ft_edge_targets := [0; 1; 1; 1] |}.
Proof. vm_compute. reflexivity. Qed.
