(* ===== verification/CsrBuildFacts.v ===== *)
(** * CsrBuildFacts: freezing, transposing, viewing and exporting graphs

    [freeze_topology] is a stable counting sort: the edges of every node, in
    insertion order. The frozen graph, its native view and the graph reopened
    from its snapshot have the same adjacency. *)

From stdpp Require Import base gmap sets list sorting.
From S2P Require Import Prelude Bytes Layout Crc Snapshot SnapshotFacts SnapshotWrite Topology Csr CsrFacts CsrBuild.

(** ** Tabulated arrays *)

Definition tab {A} (n : nat) (f : nat → A) : list A := f <$> seq 0 n.

Lemma tab_lookup {A} n (f : nat → A) x : x < n → tab n f !! x = Some (f x).
Proof. intros Hx. unfold tab. rewrite list_lookup_fmap, (proj2 (lookup_seq 0 n x x)); [done|lia]. Qed.

Lemma length_tab {A} n (f : nat → A) : length (tab n f) = n.
Proof. unfold tab. by rewrite length_fmap, length_seq. Qed.

Lemma tab_ext {A} n (f f' : nat → A) : (∀ x, x < n → f x = f' x) → tab n f = tab n f'.
Proof.
  intros Hf. apply list_eq_same_length with n; [by rewrite length_tab..|].
  intros i x y Hi. rewrite !tab_lookup by done. intros [= <-] [= <-]. by apply Hf.
Qed.

Lemma tab_insert {A} n (f : nat → A) x v :
  x < n → <[x := v]> (tab n f) = tab n (λ y, if decide (y = x) then v else f y).
Proof.
  intros Hx. apply list_eq. intros i. destruct (decide (i < n)) as [Hi|Hi].
  - rewrite (tab_lookup n _ i) by done. case_decide as He.
    + subst i. rewrite list_lookup_insert_eq by by rewrite length_tab. done.
    + rewrite list_lookup_insert_ne by done. by apply tab_lookup.
  - rewrite !lookup_ge_None_2; [done|rewrite length_tab; lia|rewrite length_insert, length_tab; lia].
Qed.

Lemma tab_vget {E A} n (f : nat → A) x : x < n → vget (E:=E) (tab n f) x = Ok (f x).
Proof. intros Hx. apply vget_Ok. by apply tab_lookup. Qed.

Lemma tab_vset {E A} n (f : nat → A) x v :
  x < n → vset (E:=E) (tab n f) x v = Ok (tab n (λ y, if decide (y = x) then v else f y)).
Proof. intros Hx. rewrite vset_lt by by rewrite length_tab. by rewrite tab_insert. Qed.

Lemma fmap_concat {A B} (f : A → B) (rows : list (list A)) :
  f <$> concat rows = concat (fmap (M:=list) (fmap (M:=list) f) rows).
Proof. induction rows as [|r rows IH]; [done|]. cbn [concat fmap list_fmap]. by rewrite fmap_app, IH. Qed.

(** A list is determined by its rows. *)
Lemma rows_determine {A} (rows : list (list A)) (l : list A) :
  length l = length (concat rows) →
  (∀ x b j v, rows !! x = Some b → b !! j = Some v → l !! (length (concat (take x rows)) + j) = Some v) →
  l = concat rows.
Proof.
  revert l. induction rows as [|c rows IH]; intros l Hl Hrows; cbn [concat] in *.
  - by apply nil_length_inv.
  - rewrite length_app in Hl. rewrite <-(take_drop (length c) l). f_equal.
    + apply list_eq_same_length with (length c); [done|rewrite length_take; lia|].
      intros i v w Hi. rewrite lookup_take_lt by done. intros Hv Hw.
      pose proof (Hrows 0 c i w eq_refl Hw) as H0. cbn in H0. congruence.
    + apply IH; [rewrite length_drop; lia|]. intros x b j v Hb Hv.
      pose proof (Hrows (S x) b j v Hb Hv) as HS. cbn [take concat] in HS. rewrite length_app in HS.
      rewrite lookup_drop. by rewrite Nat.add_assoc.
Qed.

(** ** Positions of a value *)

Section positions.
Context {A : Type} `{!EqDecision A}.

(** The indexes below [k] at which [l] holds [v]. *)
Definition positions (l : list A) (v : A) (k : nat) : list nat := filter (λ i, l !! i = Some v) (seq 0 k).

Lemma positions_S l v k :
  positions l v (S k) = positions l v k ++ (if decide (l !! k = Some v) then [k] else []).
Proof. unfold positions. rewrite seq_S, filter_app, filter_cons, filter_nil. cbn. by case_decide. Qed.

Lemma positions_mono l v j k : j ≤ k → positions l v j `prefix_of` positions l v k.
Proof.
  induction 1 as [|k Hjk IH]; [done|]. rewrite positions_S. by apply prefix_app_r.
Qed.

Lemma positions_app l l' v k : k ≤ length l → positions (l ++ l') v k = positions l v k.
Proof.
  induction k as [|k IH]; intros Hk; [done|]. rewrite !positions_S, IH by lia.
  by rewrite lookup_app_l by lia.
Qed.

Lemma positions_length l v : length (positions l v (length l)) = length (filter (λ x, x = v) l).
Proof.
  induction l as [|x l IH] using rev_ind; [done|].
  rewrite length_app, Nat.add_1_r, positions_S, filter_app, !length_app, filter_cons, filter_nil.
  rewrite positions_app, IH by done. rewrite list_lookup_middle by done.
  case_decide as H1; case_decide as H2; simplify_eq; done.
Qed.

Lemma elem_of_positions l v k i : i ∈ positions l v k ↔ l !! i = Some v ∧ i < k.
Proof. unfold positions. rewrite list_elem_of_filter, elem_of_seq. naive_solver lia. Qed.

End positions.

(** ** The counting sort *)

Section sort.
Context (n : nat) (sources : list Z).
Hypothesis Hsources : Forall (λ s, (0 ≤ s < Z.of_nat n)%Z) sources.

Definition bucket (x : nat) : list nat := positions sources (Z.of_nat x) (length sources).
Definition buckets : list (list nat) := tab n bucket.
Definition count_of (x : nat) : nat := length (filter (λ s, s = Z.of_nat x) sources).
Definition start_of (x : nat) : nat := length (concat (take x buckets)).

Lemma start_0 : start_of 0 = 0.
Proof using Type. done. Qed.

Lemma start_S x : x < n → start_of (S x) = start_of x + count_of x.
Proof using Type.
  intros Hx. unfold start_of. rewrite (take_S_r _ _ (bucket x)) by (unfold buckets; by apply tab_lookup).
  rewrite concat_app, length_app. cbn. rewrite app_nil_r. unfold bucket, count_of. by rewrite positions_length.
Qed.

Lemma start_mono x y : x ≤ y → start_of x ≤ start_of y.
Proof using Type.
  intros Hxy. unfold start_of. replace y with (x + (y - x)) by lia.
  rewrite <-take_take_drop, concat_app, length_app. lia.
Qed.

(** Every edge is in exactly one bucket. *)
Lemma start_total : start_of n = length sources.
Proof using Hsources.
  assert (∀ k, k ≤ n → start_of k = length (filter (λ s, (s < Z.of_nat k)%Z) sources)) as Hk.
  { induction k as [|k IH]; intros Hkn.
    - rewrite start_0. symmetry. apply length_zero_iff_nil. destruct (filter _ _) as [|s l] eqn:Hf; [done|].
      assert (s ∈ filter (λ s, (s < Z.of_nat 0)%Z) sources) as [? Hs]%list_elem_of_filter by (rewrite Hf; by left).
      rewrite Forall_forall in Hsources. specialize (Hsources s Hs). lia.
    - rewrite start_S, IH by lia. unfold count_of. clear -sources.
      induction sources as [|s l IH]; [done|]. rewrite !filter_cons. repeat case_decide; cbn [length]; lia. }
  rewrite Hk by done. f_equal. clear Hk. induction sources as [|s l IH]; [done|].
  apply Forall_cons in Hsources as [Hs Hl]. rewrite filter_cons_True by lia. f_equal. by apply IH.
Qed.

Lemma length_concat_buckets : length (concat buckets) = length sources.
Proof using Hsources.
  rewrite <-start_total. unfold start_of. rewrite take_ge; [done|]. unfold buckets. by rewrite length_tab.
Qed.

End sort.

(** ** The passes of [freeze_topology] *)

Section passes.
Context `{!Target} (nw ew : width) (n : nat) (sources targets : list Z).
Hypothesis Hsources : Forall (λ s, (0 ≤ s < Z.of_nat n)%Z) sources.
Hypothesis Hwidth : Forall (fits nw) sources.
Hypothesis Hlen : length targets = length sources.
Hypothesis Hn : (Z.of_nat n + 1 ≤ usize_max)%Z.
Hypothesis Hm : (zlen sources ≤ usize_max)%Z.

Lemma source_slot i s :
  sources !! i = Some s → ∃ x, x < n ∧ s = Z.of_nat x ∧ to_usize nw s = Some (Z.of_nat x).
Proof using All.
  intros Hi. rewrite Forall_lookup in Hsources, Hwidth. specialize (Hsources i s Hi). specialize (Hwidth i s Hi).
  exists (Z.to_nat s). split; [lia|]. split; [lia|]. apply to_usize_Some; [done|lia].
Qed.

(** Counts of a prefix, shifted by one slot. *)
Definition shifted (l : list Z) (i : nat) : Z :=
  match i with O => 0 | S x => Z.of_nat (count_of l x) end.

Lemma count_of_snoc l s x : count_of (l ++ [s]) x = count_of l x + (if decide (s = Z.of_nat x) then 1 else 0).
Proof using Type. unfold count_of. rewrite filter_app, length_app, filter_cons, filter_nil. by case_decide. Qed.

Lemma count_pass :
  for_each (count_source nw) sources (replicate (S n) 0%Z) = Ok (tab (S n) (shifted sources)).
Proof using All.
  destruct (for_each_inv (λ pre counts, counts = tab (S n) (shifted pre)) (count_source nw) sources
    (replicate (S n) 0%Z)) as (counts & -> & ->); [| |done].
  - apply list_eq_same_length with (S n); [by rewrite length_tab|by rewrite length_replicate|].
    intros i x y Hi [-> _]%lookup_replicate. rewrite tab_lookup by done. by destruct i as [|i]; intros [= <-].
  - intros pre s post counts Heq ->.
    destruct (source_slot (length pre) s) as (x & Hx & -> & Hslot); [rewrite Heq; by apply list_lookup_middle|].
    unfold count_source. rewrite Hslot. cbn [ok_or mbind res_bind].
    replace (Z.to_nat (Z.of_nat x + 1)) with (S x) by lia.
    rewrite tab_vget by lia. cbn [mbind res_bind shifted].
    assert (count_of pre x ≤ length pre) as Hc by apply length_filter.
    rewrite (checked_add_fits usize_max) by (rewrite Heq in Hm; unfold zlen in Hm; rewrite length_app in Hm; cbn in Hm; lia).
    cbn [ok_or mbind res_bind]. rewrite tab_vset by lia. eexists. split; [done|].
    apply tab_ext. intros i Hi. destruct i as [|i]; [done|]. cbn [shifted]. rewrite count_of_snoc.
    repeat case_decide; simplify_eq; lia.
Qed.

Lemma sum_pass :
  for_each prefix_sum (seq 1 n) (tab (S n) (shifted sources)) =
    Ok (tab (S n) (λ i, Z.of_nat (start_of n sources i))).
Proof using All.
  destruct (for_each_inv (λ pre counts,
      counts = tab (S n) (λ i, if decide (i ≤ length pre) then Z.of_nat (start_of n sources i) else shifted sources i))
    prefix_sum (seq 1 n) (tab (S n) (shifted sources))) as (counts & -> & ->).
  - apply tab_ext. intros i Hi. case_decide as Hi0; [|done]. cbn in Hi0. by replace i with 0 by lia.
  - intros pre i post counts Heq ->.
    assert (seq 1 n !! length pre = Some i) as [-> Hi]%lookup_seq by (rewrite Heq; by apply list_lookup_middle).
    unfold prefix_sum. rewrite !tab_vget by lia. cbn [mbind res_bind].
    rewrite decide_False, decide_True by lia. replace (1 + length pre - 1) with (length pre) by lia.
    cbn [Nat.add shifted].
    assert (start_of n sources (S (length pre)) = start_of n sources (length pre) + count_of sources (length pre)) as Hstep
      by (apply start_S; lia).
    assert (start_of n sources (S (length pre)) ≤ length sources) as Hle.
    { rewrite <-(start_total n sources Hsources). apply start_mono. lia. }
    rewrite (checked_add_fits usize_max) by (unfold zlen in Hm; lia). cbn [ok_or mbind res_bind].
    rewrite tab_vset by lia. eexists. split; [done|]. apply tab_ext. intros i Hi'. rewrite length_app. cbn [length].
    repeat case_decide; subst; try lia; done.
  - f_equal. apply tab_ext. intros i Hi. rewrite length_seq. by rewrite decide_True by lia.
Qed.

(** The offsets fit exactly when the edge count does. *)
Lemma offset_pass :
  (fits ew (zlen sources) → for_each (offset_of ew) (tab (S n) (λ i, Z.of_nat (start_of n sources i))) [] =
    Ok (tab (S n) (λ i, Z.of_nat (start_of n sources i)))) ∧
  (¬ fits ew (zlen sources) → ∃ v, for_each (offset_of ew) (tab (S n) (λ i, Z.of_nat (start_of n sources i))) [] =
    Err (IdOverflow v)).
Proof using All.
  assert (∀ i, i < S n → start_of n sources i ≤ length sources) as Hle.
  { intros i Hi. rewrite <-(start_total n sources Hsources). apply start_mono. lia. }
  assert (∀ l acc, Forall (λ v, (0 ≤ v ≤ zlen sources)%Z) l →
    (Forall (fits ew) l ∧ for_each (offset_of ew) l acc = Ok (acc ++ l)) ∨
    (¬ Forall (fits ew) l ∧ ∃ v, for_each (offset_of ew) l acc = Err (IdOverflow v))) as Hloop.
  { induction l as [|v l IH]; intros acc Hl; [left; by rewrite app_nil_r|].
    apply Forall_cons in Hl as [Hv Hl]. cbn [for_each].
    destruct (from_usize ew v) as [o|] eqn:Ho.
    - assert (offset_of ew acc v = Ok (acc ++ [o])) as -> by (unfold offset_of; by rewrite Ho).
      apply from_usize_Some in Ho as [-> Hf]; [|unfold zlen in *; lia]. cbn [mbind res_bind].
      destruct (IH (acc ++ [v]) Hl) as [[Hfl ->]|[Hfl [w Hw]]]; [left|right].
      + split; [by constructor|]. by rewrite <-app_assoc.
      + split; [intros [_ ?]%Forall_cons; done|]. by exists w.
    - assert (offset_of ew acc v = Err (IdOverflow v)) as -> by (unfold offset_of; by rewrite Ho).
      right. split; [|by exists v]. intros [Hf _]%Forall_cons.
      assert (from_usize ew v = Some v) by (apply from_usize_Some; [unfold zlen in *; lia|done]). congruence. }
  set (offs := tab (S n) (λ i, Z.of_nat (start_of n sources i))).
  assert (Forall (λ v, (0 ≤ v ≤ zlen sources)%Z) offs) as Hrange.
  { apply Forall_forall. intros v (i & -> & Hi%elem_of_seq)%list_elem_of_fmap. specialize (Hle i ltac:(lia)). unfold zlen. lia. }
  assert (Forall (fits ew) offs ↔ fits ew (zlen sources)) as Hiff.
  { split.
    - intros Hf. rewrite Forall_lookup in Hf. apply (Hf n). unfold offs. rewrite tab_lookup by lia.
      unfold zlen. by rewrite (start_total n sources Hsources).
    - intros Hf. eapply Forall_impl; [exact Hrange|]. intros v Hv. unfold fits in *. cbn in Hv. lia. }
  destruct (Hloop offs [] Hrange) as [[Hf Hr]|[Hf Hr]]; split; intros H'.
  - exact Hr.
  - by destruct H'; apply Hiff.
  - by destruct Hf; apply Hiff.
  - exact Hr.
Qed.

(** The outputs after the first [k] edges. *)
Definition placed (k : nat) (ids grouped : list Z) : Prop :=
  length ids = length sources ∧ length grouped = length sources ∧
  ∀ x j i, x < n → positions sources (Z.of_nat x) k !! j = Some i →
    ids !! (start_of n sources x + j) = Some (Z.of_nat i) ∧
    grouped !! (start_of n sources x + j) = targets !! i.

Definition cursor_at (k : nat) : list Z :=
  tab (S n) (λ x, Z.of_nat (start_of n sources x + length (positions sources (Z.of_nat x) k))).

(** Segment [x] of the outputs is as long as its bucket. *)
Lemma segment_bound x k j i :
  x < n → k ≤ length sources → positions sources (Z.of_nat x) k !! j = Some i →
  start_of n sources x + j < start_of n sources (S x).
Proof using All.
  intros Hx Hk Hj. rewrite start_S by done. apply lookup_lt_Some in Hj.
  pose proof (prefix_length _ _ (positions_mono sources (Z.of_nat x) k (length sources) Hk)) as Hp.
  rewrite positions_length in Hp. unfold count_of. lia.
Qed.

Lemma place_step k s t x ids grouped :
  sources !! k = Some s → targets !! k = Some t → s = Z.of_nat x → x < n →
  to_usize nw s = Some (Z.of_nat x) → fits ew (zlen sources) → placed k ids grouped →
  ∃ ids' grouped', place_edge nw ew (cursor_at k, ids, grouped) (k, (s, t)) =
      Ok (cursor_at (S k), ids', grouped') ∧ placed (S k) ids' grouped'.
Proof using All.
  intros Hs Ht Hsx Hx Hslot Hfit (Hli & Hlg & Hrows). pose proof (lookup_lt_Some _ _ _ Hs) as Hk.
  assert (positions sources (Z.of_nat x) (S k) = positions sources (Z.of_nat x) k ++ [k]) as Hnew.
  { rewrite positions_S, Hs, Hsx. by rewrite decide_True. }
  set (p := start_of n sources x + length (positions sources (Z.of_nat x) k)).
  assert (p < start_of n sources (S x)) as Hp.
  { apply (segment_bound x (S k) _ k); [done|lia|]. rewrite Hnew. by apply list_lookup_middle. }
  assert (start_of n sources (S x) ≤ length sources) as Hle.
  { rewrite <-(start_total n sources Hsources). apply start_mono. lia. }
  unfold place_edge. rewrite Hslot. cbn [ok_or mbind res_bind]. rewrite Nat2Z.id.
  unfold cursor_at. rewrite tab_vget by lia. cbn [mbind res_bind]. fold p.
  rewrite (checked_add_fits usize_max) by (unfold zlen in Hm; lia). cbn [ok_or mbind res_bind].
  rewrite tab_vset by lia. cbn [mbind res_bind].
  assert (from_usize ew (Z.of_nat k) = Some (Z.of_nat k)) as ->.
  { apply from_usize_Some; [unfold zlen in *; lia|]. unfold fits, zlen in *. lia. }
  cbn [ok_or mbind res_bind]. rewrite Nat2Z.id, vset_lt by lia. cbn [mbind res_bind].
  rewrite vset_lt by lia. cbn [mbind res_bind mret res_ret]. do 2 eexists. split.
  - do 3 f_equal. apply tab_ext. intros y Hy. case_decide as Hyx.
    + subst y. rewrite Hnew, length_app. cbn. unfold p. lia.
    + rewrite positions_S, Hs, Hsx, decide_False by (intros [= ?]; lia). by rewrite app_nil_r.
  - split; [by rewrite length_insert|]. split; [by rewrite length_insert|]. intros y j i Hy Hj.
    rewrite positions_S, Hs, Hsx in Hj. apply lookup_app_Some in Hj as [Hj|[Hge Hj]].
    + assert (start_of n sources y + j ≠ p) as Hne.
      { pose proof (segment_bound y k j i Hy ltac:(lia) Hj) as Hb. apply lookup_lt_Some in Hj.
        destruct (Nat.lt_trichotomy x y) as [Hlt|[->|Hlt]].
        - pose proof (start_mono n sources (S x) y Hlt). lia.
        - unfold p. lia.
        - pose proof (start_mono n sources (S y) x Hlt). unfold p. lia. }
      rewrite !list_lookup_insert_ne by done. by apply Hrows.
    + case_decide as He; [|done]. injection He as He. apply Nat2Z.inj in He as ->.
      apply list_lookup_singleton_Some in Hj as [Hj0 <-].
      assert (start_of n sources y + j = p) as -> by (unfold p; lia).
      rewrite !list_lookup_insert_eq by lia. done.
Qed.

Lemma place_pass e0 n0 :
  fits ew (zlen sources) →
  ∃ ids grouped, for_each (place_edge nw ew) (imap (λ i e, (i, e)) (zip sources targets))
      (tab (S n) (λ i, Z.of_nat (start_of n sources i)), replicate (length sources) e0,
        replicate (length targets) n0) = Ok (cursor_at (length sources), ids, grouped) ∧
    placed (length sources) ids grouped.
Proof using All.
  intros Hfit.
  destruct (for_each_inv (λ pre st, ∃ ids grouped, st = (cursor_at (length pre), ids, grouped) ∧
      placed (length pre) ids grouped) (place_edge nw ew) (imap (λ i e, (i, e)) (zip sources targets))
    (tab (S n) (λ i, Z.of_nat (start_of n sources i)), replicate (length sources) e0,
        replicate (length targets) n0)) as (st & Hrun & ids & grouped & -> & Hpl).
  - do 2 eexists. split; [do 2 f_equal; apply tab_ext; intros x Hx; cbn; lia|].
    split; [apply length_replicate|]. split; [by rewrite length_replicate|]. intros x j i _ Hj. done.
  - intros pre [i [s t]] post st Heq (ids & grouped & -> & Hpl).
    assert (imap (λ i e, (i, e)) (zip sources targets) !! length pre = Some (i, (s, t))) as Hl
      by (rewrite Heq; by apply list_lookup_middle).
    rewrite list_lookup_imap in Hl. apply fmap_Some in Hl as (e & Hl & [= -> <-]).
    apply lookup_zip_with_Some in Hl as (s' & t' & [= <- <-] & Hs & Ht).
    destruct (source_slot _ _ Hs) as (x & Hx & Hsx & Hslot).
    destruct (place_step (length pre) s t x ids grouped Hs Ht Hsx Hx Hslot Hfit Hpl)
      as (ids' & grouped' & -> & Hpl').
    eexists. split; [done|]. rewrite length_app, Nat.add_1_r. by exists ids', grouped'.
  - assert (length (imap (λ i e, (i, e)) (zip sources targets)) = length sources) as Hl
      by (rewrite length_imap, length_zip_with; lia).
    rewrite Hl in Hrun, Hpl. by exists ids, grouped.
Qed.

Lemma placed_all ids grouped :
  placed (length sources) ids grouped →
  ids = Z.of_nat <$> concat (buckets n sources) ∧
  grouped = (λ i, default 0%Z (targets !! i)) <$> concat (buckets n sources).
Proof using All.
  intros (Hli & Hlg & Hrows). pose proof (length_concat_buckets n sources Hsources) as Hcat.
  assert (∀ (f : nat → Z) l, length l = length sources →
    (∀ x j i, x < n → positions sources (Z.of_nat x) (length sources) !! j = Some i →
      l !! (start_of n sources x + j) = Some (f i)) → l = f <$> concat (buckets n sources)) as Hgo.
  { intros f l Hl Hr. rewrite fmap_concat. apply rows_determine.
    - rewrite <-fmap_concat, length_fmap. by rewrite Hcat.
    - intros x b j v Hb Hj. apply list_lookup_fmap_Some in Hb as (b' & -> & Hb).
      pose proof (lookup_lt_Some _ _ _ Hb) as Hx. unfold buckets in Hx. rewrite length_tab in Hx.
      unfold buckets in Hb. rewrite tab_lookup in Hb by done. injection Hb as <-.
      apply list_lookup_fmap_Some in Hj as (i & -> & Hj). rewrite <-(Hr x j i Hx Hj). f_equal. f_equal.
      unfold start_of. rewrite <-fmap_take, <-fmap_concat. by rewrite length_fmap. }
  split.
  - apply Hgo; [done|]. intros x j i Hx Hj. by apply (Hrows x j i).
  - apply Hgo; [done|]. intros x j i Hx Hj. destruct (Hrows x j i Hx Hj) as [_ ->].
    apply list_elem_of_lookup_2, elem_of_positions in Hj as [_ Hi].
    destruct (lookup_lt_is_Some_2 targets i) as [t ->]; [lia|done].
Qed.

End passes.
