(* ===== verification/CsrFreeze.v ===== *)
(** * CsrFreeze: frozen graphs, their transpose and their view

    A reachable builder freezes into the graph that lists, for every node, its
    edges in insertion order. Transposing swaps the end points of every edge and
    is undone by transposing again; the view of a frozen graph is a validated
    CSR view with the same adjacency.

    The native view of a frozen graph and the view reopened from its exported
    snapshot are validated CSR views with the adjacency of the frozen graph, and
    opening a view from any snapshot is memory safe. *)

From stdpp Require Import base gmap sets list sorting.
From S2P Require Import Prelude Bytes Layout Crc Snapshot SnapshotFacts SnapshotWrite SnapshotWriteFacts SnapshotTyped Topology Csr CsrFacts CsrBuild CsrBuildFacts.

(** ** Reachable builders *)

Section reach.
Context `{!Target} (nw ew : width).

(** The builders the API reaches, with the edges added so far. *)
Inductive builder_reach : GraphBuilder → Prop :=
  | reach_new : builder_reach GraphBuilder_new
  | reach_node b id b' : builder_reach b → add_node nw b = Ok (id, b') → builder_reach b'
  | reach_edge b s t id b' : builder_reach b → add_edge nw ew b s t = Ok (id, b') →
      fits nw s → fits nw t → builder_reach b'.

(** What the builder maintains. *)
Record BuilderOk (b : GraphBuilder) : Prop := {
  bo_count : (0 ≤ gb_node_count b ≤ usize_max)%Z;
  bo_sources : Forall (λ s, (0 ≤ s < gb_node_count b)%Z ∧ fits nw s) (gb_sources b);
  bo_targets : Forall (λ s, (0 ≤ s < gb_node_count b)%Z ∧ fits nw s) (gb_targets b);
  bo_length : length (gb_targets b) = length (gb_sources b);
  bo_ids x : (0 ≤ x < gb_node_count b)%Z → fits nw x
}.

Lemma ensure_node_Ok node count slot :
  fits nw node → ensure_node nw node count = Ok slot → slot = node ∧ (0 ≤ node < count)%Z.
Proof using Type.
  intros Hf. unfold ensure_node, id_to_slot. rewrite map_err_Ok.
  intros (s & [-> _]%ok_or_Ok%(to_usize_Some _ _ _ Hf) & Hok)%bind_Ok_inv.
  case_decide; [|done]. injection Hok as <-. split; [done|]. destruct Hf. lia.
Qed.

Lemma builder_ok b : builder_reach b → BuilderOk b.
Proof using Type.
  induction 1 as [|b id b' _ IH Hadd|b s t id b' _ IH Hadd Hfs Hft].
  - split; cbn; [pose proof usize_max_bounds; lia|constructor..|done|lia].
  - destruct IH as [Hc Hs Ht Hl Hid]. unfold add_node in Hadd. apply bind_Ok_inv in Hadd as ([id' c'] & Hn & [= <- <-]).
    unfold next_dense_index in Hn. apply bind_Ok_inv in Hn as (id2 & Hid2%ok_or_Ok & (c & Hc2%ok_or_Ok & [= <- <-])%bind_Ok_inv).
    apply checked_add_Some in Hc2 as [Hle ->]. apply from_usize_Some in Hid2 as [-> Hfit]; [|done].
    split; cbn; [lia| | |done|].
    1,2: (eapply Forall_impl; [eassumption|]); cbn; intros x [? ?]; split; [lia|done].
    intros x Hx. destruct (decide (x = gb_node_count b)) as [->|]; [done|]. apply Hid. lia.
  - destruct IH as [Hc Hs Ht Hl Hid]. unfold add_edge in Hadd.
    apply bind_Ok_inv in Hadd as (s1 & Hes%ensure_node_Ok & Hadd); [|done].
    apply bind_Ok_inv in Hadd as (t1 & Het%ensure_node_Ok & Hadd); [|done].
    apply bind_Ok_inv in Hadd as (e & _ & [= <- <-]). split; cbn; [done| | | |done].
    + apply Forall_app. split; [done|]. apply Forall_singleton. naive_solver.
    + apply Forall_app. split; [done|]. apply Forall_singleton. naive_solver.
    + rewrite !length_app. cbn. lia.
Qed.

End reach.

(** ** The frozen graph *)

(** The graph with [n] nodes whose edge [i] runs from [sources !! i] to
    [targets !! i]. *)
Definition frozen_of (n : nat) (sources targets : list Z) : FrozenTopology := {|
  ft_node_count := Z.of_nat n;
  ft_offsets := tab (S n) (λ i, Z.of_nat (start_of n sources i));
  ft_edge_ids := Z.of_nat <$> concat (buckets n sources);
  ft_targets := (λ i, default 0%Z (targets !! i)) <$> concat (buckets n sources);
  ft_sources := sources;
  ft_edge_targets := targets
|}.

(** Arguments [freeze_topology] is meant for. *)
Record EdgesOk `{!Target} (nw : width) (n : nat) (sources targets : list Z) : Prop := {
  eo_sources : Forall (λ s, (0 ≤ s < Z.of_nat n)%Z ∧ fits nw s) sources;
  eo_targets : Forall (λ s, (0 ≤ s < Z.of_nat n)%Z ∧ fits nw s) targets;
  eo_length : length targets = length sources;
  eo_nodes : (Z.of_nat n + 1 ≤ usize_max)%Z;
  eo_edges : (zlen sources ≤ usize_max)%Z
}.

Lemma EdgesOk_swap `{!Target} nw n sources targets : EdgesOk nw n sources targets → EdgesOk nw n targets sources.
Proof. intros [Hs Ht Hl Hn Hm]. split; [done|done|done|done|]. unfold zlen in *. lia. Qed.

Section frozen.
Context `{!Target} (nw ew : width) (n : nat) (sources targets : list Z).
Hypothesis Hok : EdgesOk nw n sources targets.

Lemma sources_range : Forall (λ s, (0 ≤ s < Z.of_nat n)%Z) sources.
Proof using Hok. eapply Forall_impl; [apply Hok|]. naive_solver. Qed.

Lemma sources_fit : Forall (fits nw) sources.
Proof using Hok. eapply Forall_impl; [apply Hok|]. naive_solver. Qed.

Lemma index_zero_Ok w : index_zero w = Ok 0%Z.
Proof using Type.
  unfold index_zero, index_from_usize. pose proof usize_max_bounds.
  assert (from_usize w 0 = Some 0%Z) as ->; [|done]. apply from_usize_Some; [lia|]. split; [done|apply fits_0].
Qed.

(** [freeze_topology] succeeds exactly when the edge count fits the index. *)
Lemma freeze_cases :
  (fits ew (zlen sources) ∧ freeze_topology nw ew (Z.of_nat n) sources targets = Ok (frozen_of n sources targets)) ∨
  (¬ fits ew (zlen sources) ∧ ∃ v, freeze_topology nw ew (Z.of_nat n) sources targets = Err (IdOverflow v)).
Proof using Hok.
  destruct Hok as [_ _ Hl Hn Hm]. unfold freeze_topology.
  rewrite (checked_add_fits usize_max) by done. cbn [or_panic mbind res_bind].
  replace (Z.to_nat (Z.of_nat n + 1)) with (S n) by lia.
  rewrite (count_pass nw ew n sources targets sources_range sources_fit Hl Hn Hm). cbn [mbind res_bind].
  rewrite length_tab. replace (S n - 1) with n by lia.
  rewrite (sum_pass nw ew n sources targets sources_range sources_fit Hl Hn Hm). cbn [mbind res_bind].
  destruct (offset_pass nw ew n sources targets sources_range sources_fit Hl Hn Hm) as [Hfit Hnofit].
  destruct (decide (fits ew (zlen sources))) as [Hf|Hf]; [left|right]; (split; [done|]).
  - rewrite Hfit by done. cbn [mbind res_bind]. rewrite !index_zero_Ok. cbn [mbind res_bind].
    destruct (place_pass nw ew n sources targets sources_range sources_fit Hl Hn Hm 0 0 Hf) as (ids & grouped & -> & Hp).
    cbn [mbind res_bind mret res_ret].
    by apply (placed_all nw ew n sources targets sources_range sources_fit Hl Hn Hm) in Hp as [-> ->].
  - destruct (Hnofit Hf) as [v ->]. by exists v.
Qed.

(** The slice of a node is its bucket. *)
Lemma bucket_slice {A} (f : nat → A) x :
  x < n →
  take (start_of n sources (S x) - start_of n sources x)
    (drop (start_of n sources x) (f <$> concat (buckets n sources))) = f <$> bucket sources x.
Proof using Type.
  intros Hx. rewrite <-fmap_drop, <-fmap_take. f_equal. unfold start_of.
  assert (buckets n sources !! x = Some (bucket sources x)) as Hb by (unfold buckets; by apply tab_lookup).
  rewrite <-(take_drop_middle _ _ _ Hb) at 4. rewrite concat_app, drop_app_length. cbn [concat].
  rewrite (take_S_r _ _ _ Hb), concat_app, length_app. cbn [concat]. rewrite app_nil_r.
  replace (_ + _ - _) with (length (bucket sources x)) by lia. by rewrite take_app_length.
Qed.

Hypothesis Hfit : fits ew (zlen sources).
Notation t := (frozen_of n sources targets).

Lemma offset_slot {E} x :
  x ≤ n → vget (E:=E) (ft_offsets t) x = Ok (Z.of_nat (start_of n sources x)) ∧
  to_usize ew (Z.of_nat (start_of n sources x)) = Some (Z.of_nat (start_of n sources x)).
Proof using Hok Hfit.
  intros Hx. split; [exact (tab_vget (S n) (λ i, Z.of_nat (start_of n sources i)) x ltac:(lia))|].
  assert (start_of n sources x ≤ length sources) as Hle.
  { rewrite <-(start_total n sources sources_range). by apply start_mono. }
  destruct Hok as [_ _ _ _ Hm]. unfold fits, zlen in *. apply to_usize_Some; [|lia]. unfold fits. lia.
Qed.

Lemma node_slot x : x < n → fits nw (Z.of_nat x) → slot_or_max nw (Z.of_nat x) = Z.of_nat x.
Proof using Hok.
  intros Hx Hf. unfold slot_or_max. destruct Hok as [_ _ _ Hn _].
  assert (to_usize nw (Z.of_nat x) = Some (Z.of_nat x)) as ->; [|done]. apply to_usize_Some; [done|lia].
Qed.

Lemma edge_slot i : i < length sources → slot_or_max ew (Z.of_nat i) = Z.of_nat i.
Proof using Hok Hfit.
  intros Hi. unfold slot_or_max. destruct Hok as [_ _ _ _ Hm]. unfold fits, zlen in *.
  assert (to_usize ew (Z.of_nat i) = Some (Z.of_nat i)) as ->; [|done].
  apply to_usize_Some; [unfold fits; lia|lia].
Qed.

(** The edges out of a node, in insertion order. *)
Lemma frozen_out_edges_Ok {E} x :
  x < n → fits nw (Z.of_nat x) →
  frozen_out_edges (E:=E) nw ew t (Z.of_nat x) = Ok (Z.of_nat <$> bucket sources x).
Proof using Hok Hfit.
  intros Hx Hf. unfold frozen_out_edges, frozen_outgoing_range. rewrite node_slot by done. cbv zeta.
  replace (Z.to_nat (Z.of_nat x + 1)) with (S x) by lia. rewrite Nat2Z.id.
  destruct (offset_slot (E:=E) x) as [-> Hsx]; [lia|]. destruct (offset_slot (E:=E) (S x)) as [-> HSx]; [lia|].
  cbn [mbind res_bind]. rewrite Hsx, HSx. cbn [default id mbind res_bind]. rewrite !Nat2Z.id. unfold vslice.
  cbn [ft_edge_ids frozen_of]. rewrite decide_True.
  - by rewrite bucket_slice.
  - rewrite length_fmap, length_concat_buckets by apply sources_range.
    rewrite <-(start_total n sources sources_range). split; apply start_mono; lia.
Qed.

Lemma frozen_ends_Ok {E} i s y :
  sources !! i = Some s → targets !! i = Some y →
  frozen_source (E:=E) ew t (Z.of_nat i) = Ok s ∧ frozen_target (E:=E) ew t (Z.of_nat i) = Ok y.
Proof using Hok Hfit.
  intros Hs Hy. pose proof (lookup_lt_Some _ _ _ Hs). unfold frozen_source, frozen_target.
  rewrite !edge_slot by done. rewrite !Nat2Z.id. split; by apply vget_Ok.
Qed.

(** The target of edge [i]. *)
Definition target_of (i : nat) : Z := default 0%Z (targets !! i).

Lemma frozen_successors_Ok {E} x :
  x < n → fits nw (Z.of_nat x) →
  frozen_successors (E:=E) nw ew t (Z.of_nat x) = Ok (target_of <$> bucket sources x).
Proof using Hok Hfit.
  intros Hx Hf. unfold frozen_successors. rewrite frozen_out_edges_Ok by done. cbn [mbind res_bind].
  assert (∀ l acc, Forall (λ i, i < length sources) l →
    for_each (λ acc edge, y ← frozen_target (E:=E) ew t edge; Ok (acc ++ [y])) (Z.of_nat <$> l) acc =
      Ok (acc ++ (target_of <$> l))) as Hloop.
  { induction l as [|i l IH]; intros acc Hl; [by rewrite app_nil_r|]. apply Forall_cons in Hl as [Hi Hl].
    destruct (lookup_lt_is_Some_2 sources i Hi) as [s Hs].
    destruct (lookup_lt_is_Some_2 targets i) as [y Hy]; [by rewrite (eo_length _ _ _ _ Hok)|].
    cbn [fmap list_fmap for_each]. destruct (frozen_ends_Ok (E:=E) i s y Hs Hy) as [_ ->]. cbn [mbind res_bind].
    fold (fmap (M:=list) Z.of_nat l). rewrite IH by done. rewrite <-app_assoc. unfold target_of at 2. by rewrite Hy. }
  rewrite Hloop; [done|]. apply Forall_forall. intros i [Hi _]%elem_of_positions. by eapply lookup_lt_Some.
Qed.

(** Edges from [x] to [y]. *)
Definition edges_between (x y : nat) : list nat :=
  filter (λ i, sources !! i = Some (Z.of_nat x) ∧ targets !! i = Some (Z.of_nat y)) (seq 0 (length sources)).

Lemma successor_multiplicity x y :
  length (filter (λ v, v = Z.of_nat y) (target_of <$> bucket sources x)) = length (edges_between x y).
Proof using Hok.
  unfold bucket, positions, edges_between. induction (seq 0 (length sources)) as [|i l IH] using rev_ind; [done|].
  clear Hfit. rewrite !filter_app, fmap_app, filter_app, !length_app, IH. f_equal.
  rewrite !filter_cons, !filter_nil. case_decide as Hs; [|by rewrite decide_False by tauto].
  cbn [fmap list_fmap]. rewrite filter_cons, filter_nil.
  pose proof (lookup_lt_Some _ _ _ Hs) as Hi. rewrite <-(eo_length _ _ _ _ Hok) in Hi.
  destruct (lookup_lt_is_Some_2 targets i Hi) as [v Hv]. unfold target_of. rewrite Hv. cbn [default id].
  repeat case_decide; naive_solver.
Qed.

End frozen.

(** ** Freezing and transposing *)

Section graphs.
Context `{!Target} (nw ew : width).

Lemma builder_edges b :
  builder_reach nw ew b → (gb_node_count b < usize_max)%Z → (zlen (gb_sources b) ≤ usize_max)%Z →
  EdgesOk nw (Z.to_nat (gb_node_count b)) (gb_sources b) (gb_targets b) ∧
  Z.of_nat (Z.to_nat (gb_node_count b)) = gb_node_count b.
Proof.
  intros Hb Hn Hm. destruct (builder_ok _ _ _ Hb) as [Hc Hs Ht Hl _].
  rewrite <-(Z2Nat.id (gb_node_count b)) in Hs, Ht by lia. split; [|lia]. split; try done. lia.
Qed.

(** C10. A builder reached through [add_node] and [add_edge] freezes, without a
    panic, exactly when its edge count fits the edge index, and otherwise returns
    [IdOverflow]. In the frozen graph the edges out of a node are the ids of the
    edges added with that source, in insertion order, its successors their
    targets, and every edge id keeps its source and target. *)
Theorem freeze_correct b :
  builder_reach nw ew b → (gb_node_count b < usize_max)%Z → (zlen (gb_sources b) ≤ usize_max)%Z →
  (fits ew (zlen (gb_sources b)) ∧ ∃ t, freeze nw ew b = Ok t ∧ ft_node_count t = gb_node_count b ∧
    (∀ x, (0 ≤ x < gb_node_count b)%Z → let edges := positions (gb_sources b) x (length (gb_sources b)) in
      frozen_out_edges (E:=GraphBuildError) nw ew t x = Ok (Z.of_nat <$> edges) ∧
      frozen_successors (E:=GraphBuildError) nw ew t x =
        Ok ((λ i, default 0%Z (gb_targets b !! i)) <$> edges)) ∧
    (∀ i s y, gb_sources b !! i = Some s → gb_targets b !! i = Some y →
      frozen_source (E:=GraphBuildError) ew t (Z.of_nat i) = Ok s ∧
      frozen_target (E:=GraphBuildError) ew t (Z.of_nat i) = Ok y)) ∨
  (¬ fits ew (zlen (gb_sources b)) ∧ ∃ v, freeze nw ew b = Err (IdOverflow v)).
Proof.
  intros Hb Hn Hm. destruct (builder_edges b Hb Hn Hm) as [Hok Hcount]. unfold freeze. rewrite <-Hcount.
  destruct (freeze_cases nw ew _ _ _ Hok) as [[Hf ->]|Hbad]; [left|by right]. split; [done|].
  eexists. split; [done|]. split; [done|]. split.
  - intros x Hx. cbv zeta. assert (fits nw x) as Hfx by (apply (bo_ids _ _ (builder_ok _ _ _ Hb)); lia).
    rewrite <-(Z2Nat.id x) by lia. rewrite <-(Z2Nat.id x) in Hfx by lia.
    split; [apply frozen_out_edges_Ok|apply frozen_successors_Ok]; (done || lia).
  - intros i s y Hs Hy. by apply (frozen_ends_Ok nw ew _ _ _ Hok Hf).
Qed.

(** Transposing a frozen graph succeeds, swaps source and target of every
    edge id, has as many edges from [y] to [x] as the graph has from [x] to [y],
    and transposing again gives back the very same graph. *)
Theorem transpose_involutive b t :
  builder_reach nw ew b → (gb_node_count b < usize_max)%Z → (zlen (gb_sources b) ≤ usize_max)%Z →
  freeze nw ew b = Ok t →
  ∃ t', transpose nw ew t = Ok t' ∧ transpose nw ew t' = Ok t ∧
    ft_sources t' = ft_edge_targets t ∧ ft_edge_targets t' = ft_sources t ∧
    ∀ x y, (0 ≤ x < gb_node_count b)%Z → (0 ≤ y < gb_node_count b)%Z →
      ∃ xs ys, frozen_successors (E:=GraphBuildError) nw ew t x = Ok xs ∧
        frozen_successors (E:=GraphBuildError) nw ew t' y = Ok ys ∧
        length (filter (λ v, v = y) xs) = length (filter (λ v, v = x) ys).
Proof.
  intros Hb Hn Hm Ht. destruct (builder_edges b Hb Hn Hm) as [Hok Hcount]. unfold freeze in Ht.
  rewrite <-Hcount in Ht |- *. set (n := Z.to_nat (gb_node_count b)) in *.
  pose proof (bo_length _ _ (builder_ok _ _ _ Hb)) as Hl. pose proof (EdgesOk_swap _ _ _ _ Hok) as Hok'.
  destruct (freeze_cases nw ew _ _ _ Hok) as [[Hf Hr]|[_ [v Hr]]]; rewrite Hr in Ht; [|done]. injection Ht as <-.
  assert (fits ew (zlen (gb_targets b))) as Hf' by (unfold zlen in *; by rewrite Hl).
  destruct (freeze_cases nw ew _ _ _ Hok') as [[_ Hr']|[Hbad _]]; [|done].
  exists (frozen_of n (gb_targets b) (gb_sources b)). split; [exact Hr'|]. split; [exact Hr|]. do 2 (split; [done|]).
  intros x y Hx Hy. assert (∀ z, (0 ≤ z < Z.of_nat n)%Z → fits nw (Z.of_nat (Z.to_nat z))) as Hfits.
  { intros z Hz. rewrite Z2Nat.id by lia. apply (bo_ids _ _ (builder_ok _ _ _ Hb)). lia. }
  rewrite <-(Z2Nat.id x), <-(Z2Nat.id y) by lia. do 2 eexists.
  split; [apply frozen_successors_Ok; [done..|lia|by apply Hfits]|].
  split; [apply frozen_successors_Ok; [done..|lia|by apply Hfits]|].
  rewrite (successor_multiplicity nw n _ _ Hok), (successor_multiplicity nw n _ _ Hok').
  unfold edges_between. rewrite Hl. f_equal. apply list_filter_iff. intros i. tauto.
Qed.

End graphs.

(** ** Views and snapshots of frozen graphs *)

Local Open Scope Z_scope.

(** ** Views of a frozen graph, whatever the words *)

Section views.
Context `{!Target} (nw : width) (n : nat) (sources targets : list Z).
Hypothesis Hok : EdgesOk nw n sources targets.
Context {OW TW : Type} `{!LayoutWord OW} `{!LayoutWord TW} (offs : list OW) (tgts : list TW).
Hypothesis Hnw : word_width TW = nw.
Hypothesis Hoffs : word_get <$> offs = ft_offsets (frozen_of n sources targets).
Hypothesis Htgts : word_get <$> tgts = ft_targets (frozen_of n sources targets).

Notation view := (from_validated_parts (Z.of_nat n) (Z.of_nat n) offs tgts).

Lemma view_offset i w :
  offs !! i = Some w → (i ≤ n)%nat ∧ word_get w = Z.of_nat (start_of n sources i).
Proof using Hoffs.
  intros Hi. assert (ft_offsets (frozen_of n sources targets) !! i = Some (word_get w)) as Hl
    by (rewrite <-Hoffs, list_lookup_fmap, Hi; done).
  cbn [ft_offsets frozen_of] in Hl. pose proof (lookup_lt_Some _ _ _ Hl) as Hlt. rewrite length_tab in Hlt.
  rewrite tab_lookup in Hl by done. injection Hl as Hl. lia.
Qed.

Lemma view_lengths : length offs = S n ∧ length tgts = length sources.
Proof using All.
  split.
  - rewrite <-(length_fmap word_get), Hoffs. apply length_tab.
  - rewrite <-(length_fmap word_get), Htgts. cbn [ft_targets frozen_of]. rewrite length_fmap.
    by apply length_concat_buckets, (sources_range nw n _ targets).
Qed.

Lemma frozen_view_ok : CsrOk view.
Proof using All.
  destruct view_lengths as [Hlo Hlt]. destruct Hok as [Hs Ht Hl Hn Hm]. split.
  - cbn. lia.
  - cbn. lia.
  - cbn [offsets Csr.targets node_bound from_validated_parts]. split.
    + unfold zlen. lia.
    + intros x [_ ->]%view_offset. by rewrite start_0.
    + intros i x y [_ ->]%view_offset [_ ->]%view_offset. apply inj_le, start_mono. lia.
    + intros x [_ ->]%view_offset. rewrite Hlo. replace (S n - 1)%nat with n by lia. unfold zlen.
      rewrite Hlt. by rewrite (start_total n sources (sources_range nw n sources targets Hok)).
    + intros i x [Hi ->]%view_offset. pose proof (start_mono n sources i n Hi) as Hmono.
      rewrite (start_total n sources (sources_range nw n sources targets Hok)) in Hmono. unfold zlen in Hm. lia.
  - cbn [Csr.targets node_bound from_validated_parts]. apply Forall_forall. intros w Hw.
    assert (word_get w ∈ ft_targets (frozen_of n sources targets)) as Hin
      by (rewrite <-Htgts; by apply list_elem_of_fmap_2).
    apply list_elem_of_fmap in Hin as (i & -> & Hi). rewrite Forall_lookup in Ht.
    destruct (targets !! i) as [v|] eqn:Hv; cbn [default id].
    + apply (Ht i v Hv).
    + exfalso. apply list_elem_of_In, in_concat in Hi as (b & Hb%list_elem_of_In & Hib%list_elem_of_In).
      apply list_elem_of_fmap in Hb as (x & -> & _). apply elem_of_positions in Hib as [_ Hlt'].
      apply lookup_ge_None in Hv. lia.
Qed.

Lemma frozen_view_successors {E} x :
  (x < n)%nat → fits nw (Z.of_nat x) →
  csr_element_successors (E:=E) view (Z.of_nat x) = Ok (target_of targets <$> bucket sources x).
Proof using All.
  intros Hx Hf. destruct (csr_rows view frozen_view_ok) as [rows Hrows]. pose proof (rows_count _ _ Hrows) as Hcount.
  cbn [node_bound from_validated_parts] in Hcount. unfold zlen in Hcount.
  destruct (lookup_lt_is_Some_2 rows x) as [r Hr]; [lia|].
  rewrite (csr_successors_Ok view frozen_view_ok rows (Z.of_nat x) r) by (rewrite ?Hnw, ?Nat2Z.id; (done || lia)).
  f_equal. destruct (rows_cut _ _ Hrows _ _ Hr) as (a & b & Ha & Hb & _ & _ & ->).
  cbn [offsets Csr.targets from_validated_parts] in *. apply view_offset in Ha as [_ ->], Hb as [_ ->].
  unfold id_slice. rewrite fmap_take, fmap_drop. change (λ w : TW, word_get w) with (word_get (W:=TW)).
  rewrite Htgts. cbn [ft_targets frozen_of]. rewrite <-Nat2Z.inj_sub by (apply start_mono; lia).
  rewrite !Nat2Z.id. by apply bucket_slice.
Qed.

End views.

(** ** The native view *)

Section native_view.
Context `{!Target} (nw ew : width).

Lemma native_words_get w vs : Forall (fits w) vs → word_get <$> native_words w vs = vs.
Proof.
  induction 1 as [|v vs Hv _ IH]; [done|]. unfold native_words in *. cbn [omap list_omap].
  destruct (decide (fits w v)) as [Hf|]; [|done]. cbn [fmap list_fmap]. f_equal. exact IH.
Qed.

Lemma frozen_fits n sources targets :
  EdgesOk nw n sources targets → fits ew (zlen sources) →
  Forall (fits ew) (ft_offsets (frozen_of n sources targets)) ∧
  Forall (fits nw) (ft_targets (frozen_of n sources targets)).
Proof.
  intros Hok Hf. split; apply Forall_forall; intros v Hv; cbn [ft_offsets ft_targets frozen_of] in Hv.
  - apply list_elem_of_fmap in Hv as (i & -> & Hi%elem_of_seq).
    pose proof (start_mono n sources i n ltac:(lia)) as Hmono.
    rewrite (start_total n sources (sources_range nw n sources targets Hok)) in Hmono.
    unfold fits, zlen in *. lia.
  - apply list_elem_of_fmap in Hv as (i & -> & _). destruct (targets !! i) as [v|] eqn:Hv; cbn [default id].
    + pose proof (eo_targets _ _ _ _ Hok) as Ht. rewrite Forall_lookup in Ht. apply (Ht i v Hv).
    + apply fits_0.
Qed.

(** What freezing a reachable builder gives. *)
Lemma freeze_inv b t :
  builder_reach nw ew b → gb_node_count b < usize_max → zlen (gb_sources b) ≤ usize_max →
  freeze nw ew b = Ok t →
  ∃ n, gb_node_count b = Z.of_nat n ∧ EdgesOk nw n (gb_sources b) (gb_targets b) ∧
    fits ew (zlen (gb_sources b)) ∧ t = frozen_of n (gb_sources b) (gb_targets b) ∧
    ∀ x, (x < n)%nat → fits nw (Z.of_nat x).
Proof.
  intros Hb Hn Hm Ht. destruct (builder_edges nw ew b Hb Hn Hm) as [Hok Hcount]. unfold freeze in Ht.
  rewrite <-Hcount in Ht. exists (Z.to_nat (gb_node_count b)). split; [done|]. split; [done|].
  destruct (freeze_cases nw ew _ _ _ Hok) as [[Hf Hr]|[_ [v Hr]]]; rewrite Hr in Ht; [|done]. injection Ht as <-.
  split; [done|]. split; [done|]. intros x Hx. apply (bo_ids _ _ (builder_ok _ _ _ Hb)). lia.
Qed.

(** [as_view] skips validation rightly: the view it assembles of a frozen
    graph is well formed and has the graph's successors. It fails, with
    [IdOverflow], exactly when the node count itself is no node index. *)
Theorem as_view_refines b t :
  builder_reach nw ew b → gb_node_count b < usize_max → zlen (gb_sources b) ≤ usize_max →
  freeze nw ew b = Ok t →
  (fits nw (gb_node_count b) ∧ ∃ g, as_view nw ew t = Ok g ∧ CsrOk g ∧ node_count g = gb_node_count b ∧
    ∀ x, 0 ≤ x < gb_node_count b →
      ∃ ys, csr_element_successors (E:=GraphBuildError) g x = Ok ys ∧
        frozen_successors (E:=GraphBuildError) nw ew t x = Ok ys) ∨
  (¬ fits nw (gb_node_count b) ∧ as_view nw ew t = Err (IdOverflow (gb_node_count b))).
Proof.
  intros Hb Hn Hm Ht. destruct (freeze_inv b t Hb Hn Hm Ht) as (n & Hc & Hok & Hfit & -> & Hids). rewrite Hc in *.
  unfold as_view. cbn [ft_node_count frozen_of]. destruct (frozen_fits n _ _ Hok Hfit) as [Hfo Hft].
  destruct (from_usize nw (Z.of_nat n)) as [c|] eqn:Hfu; cbn [ok_or mbind res_bind].
  - apply from_usize_Some in Hfu as [-> Hf]; [|lia]. left. split; [done|]. eexists. split; [done|].
    pose proof (native_words_get ew _ Hfo) as Ho. pose proof (native_words_get nw _ Hft) as Htg.
    split; [by eapply frozen_view_ok|]. split; [done|]. intros x Hx. rewrite <-(Z2Nat.id x) by lia.
    assert (Z.to_nat x < n)%nat as Hxn by lia. eexists. split.
    + eapply (frozen_view_successors nw n _ _ Hok); [done|exact Ho|exact Htg|done|by apply Hids].
    + apply frozen_successors_Ok; [done..|by apply Hids].
  - right. split; [|done]. intros Hf.
    assert (from_usize nw (Z.of_nat n) = Some (Z.of_nat n)) by (apply from_usize_Some; [lia|done]). congruence.
Qed.

End native_view.

(** ** Opening a view from any snapshot *)

Section opening.
Context `{!Target}.

Lemma zlen_typed sw s k v ws :
  SnapshotOk s → zlen (sn_bytes s) ≤ usize_max → typed_section sw s k v = Ok ws → zlen ws ≤ usize_max.
Proof.
  intros Hs Hus. unfold typed_section.
  destruct (section_cases (E:=SectionBindError) s k Hs) as [(e & He & _ & ->)|[_ ->]]; cbn [mbind res_bind ok_or]; [|done].
  case_decide; [done|]. intros (chunks & Hc%map_err_Ok & [= <-])%bind_Ok_inv. unfold try_as_slice in Hc.
  repeat case_decide; try done. injection Hc as <-. unfold zlen. rewrite length_map, length_fmap, length_seq.
  pose proof (swidth_size_pos sw).
  assert (length (payload (entry_section (sn_bytes s) (sn_addr s) e)) ≤ length (sn_bytes s))%nat as Hl.
  { cbn [payload entry_section]. unfold field. rewrite length_take, length_drop. lia. }
  pose proof (Nat.Div0.div_le_mono _ _ (swidth_size sw) Hl) as Hd.
  assert (length (sn_bytes s) / swidth_size sw ≤ length (sn_bytes s))%nat
    by (apply Nat.Div0.div_le_upper_bound; nia).
  cbn [payload entry_section] in *. unfold zlen in Hus. lia.
Qed.

(** Binding a view to any two sections never panics, and a view it returns is
    well formed. *)
Lemma bind_view_safe nw ew s k1 k2 v :
  SnapshotOk s → zlen (sn_bytes s) ≤ usize_max →
  returns (from_snapshot_with_kinds nw ew s k1 k2 v) ∧
  ∀ g, from_snapshot_with_kinds nw ew s k1 k2 v = Ok g →
    CsrOk g ∧ fits nw (node_count g) ∧ zlen (offsets g) = node_count g + 1.
Proof.
  intros Hs Hsn. unfold from_snapshot_with_kinds.
  pose proof (returns_typed_section ew s k1 v Hs) as Hr1. pose proof (returns_typed_section nw s k2 v Hs) as Hr2.
  destruct (typed_section ew s _ _) as [offs| | |] eqn:Ho; try done; cbn [map_err mbind res_bind].
  destruct (typed_section nw s _ _) as [tgts| | |] eqn:Htg; try done; cbn [map_err mbind res_bind].
  case_decide as Hnil; [done|]. pose proof (zlen_typed _ _ _ _ _ Hs Hsn Ho) as Hzo.
  assert (1 ≤ zlen offs) as Hpos by (destruct offs; [done|]; unfold zlen; cbn; lia).
  destruct (from_usize nw (zlen offs - 1)) as [count|] eqn:Hc; cbn [ok_or mbind res_bind]; [|done].
  apply from_usize_Some in Hc as [-> Hf]; [|lia].
  change (fits (word_width (le_word nw)) (zlen offs - 1)) in Hf.
  destruct (validate_cases (OW:=le_word ew) (zlen offs - 1) offs tgts Hf) as [[-> Hok]|(e & -> & _)]; cbn [map_err]; [|done].
  split; [done|]. intros g [= <-]. split; [done|]. split; [done|]. cbn. lia.
Qed.

(** Opening a CSR view from any file that opens never panics: it returns a
    typed error or a well formed view, and then every algorithm proved against
    the topology traits applies to it. *)
Theorem from_snapshot_safe nw ew bytes addr s :
  zlen bytes ≤ usize_max → open bytes addr = Ok s →
  returns (from_snapshot nw ew s) ∧
  ∀ g, from_snapshot nw ew s = Ok g → CsrOk g ∧ fits nw (node_count g) ∧
    zlen (offsets g) = node_count g + 1 ∧
    TopologyLaws (G := CsrGraph (le_word ew) (le_word nw)) (Id := CsrNodeId (TW := le_word nw)) g.
Proof.
  intros Hus Hopen. pose proof (open_SnapshotOk _ _ _ Hus Hopen) as Hs.
  assert (zlen (sn_bytes s) ≤ usize_max) as Hsn by by apply open_exact_lemma in Hopen as [_ ->].
  destruct (bind_view_safe nw ew s (OFFSETS_KIND ew) (TARGETS_KIND nw) SNAPSHOT_CSR_SECTION_VERSION Hs Hsn) as [Hr Hg].
  split; [exact Hr|]. intros g (Hok & Hf & Hl)%Hg. do 3 (split; [done|]). by apply csr_topology_laws.
Qed.

End opening.

(** ** Export and reopen *)

Section roundtrip.
Context `{!Target} (nw ew : swidth).

Lemma slice_to_le_get (sw : swidth) vs : Forall (fits sw) vs → word_get <$> slice_to_le sw vs = vs.
Proof.
  intros Hvs. unfold slice_to_le. rewrite <-list_fmap_compose. rewrite <-(list_fmap_id vs) at 2.
  apply list_fmap_ext. intros i v Hv. rewrite Forall_lookup in Hvs. by apply from_to_le_word, (Hvs i).
Qed.

Definition csr_sections (t : FrozenTopology) : list PendingSection :=
  [widths_section ew (OFFSETS_KIND ew) SNAPSHOT_CSR_SECTION_VERSION (ft_offsets t);
   widths_section nw (TARGETS_KIND nw) SNAPSHOT_CSR_SECTION_VERSION (ft_targets t)].

(** The bytes of the export: header, two table entries and both arrays. *)
Definition csr_file_size (t : FrozenTopology) : Z :=
  Z.of_nat HEADER_SIZE + 2 * Z.of_nat SECTION_ENTRY_SIZE +
  Z.of_nat (swidth_size ew) * zlen (ft_offsets t) + Z.of_nat (swidth_size nw) * zlen (ft_targets t).

Lemma csr_export_run t :
  csr_file_size t ≤ isize_max →
  ∃ bytes, export_topology_snapshot nw ew t = Ok bytes ∧ ∀ addr,
    open_checked bytes addr crc32c_append = Ok (opened bytes addr) ∧ SnapshotOk (opened bytes addr) ∧
    Forall2 (entry_holds bytes) (entries (opened bytes addr)) (csr_sections t).
Proof.
  intros Hsize. unfold csr_file_size in Hsize.
  destruct (plain_file (csr_sections t) crc32c_append) as (w0 & w & bytes & Hnew & Hrun & Hfin & _ & Hopen).
  - apply crc32c_laws.
  - repeat constructor; destruct nw, ew; vm_compute; congruence.
  - repeat constructor; destruct nw, ew; vm_compute; congruence.
  - vm_compute. congruence.
  - change (zlen (csr_sections t)) with 2. unfold csr_sections. cbn [fmap list_fmap concat].
    rewrite app_nil_r, zlen_app, !zlen_widths. lia.
  - exists bytes. split; [|done].
    unfold export_topology_snapshot. change (zlen (csr_sections t)) with 2 in Hnew. rewrite Hnew.
    cbn [mbind res_bind]. cbn [for_each csr_sections] in Hrun. rewrite !section_widths_pending.
    destruct (write_pending w0 _) as [w1| | |]; try done. cbn [mbind res_bind] in *. rewrite section_widths_pending.
    destruct (write_pending w1 _) as [w2| | |]; try done. cbn [mbind res_bind] in *. injection Hrun as ->.
    by rewrite Hfin.
Qed.

(** A file that holds the arrays of a frozen graph, under any two kinds, binds
    to a view of the graph, unless the node count is no node index. *)
Lemma frozen_sections_view n sources targets s k1 k2 v :
  EdgesOk nw n sources targets → fits ew (zlen sources) → (∀ x, (x < n)%nat → fits nw (Z.of_nat x)) →
  typed_section ew s k1 v = Ok (slice_to_le ew (ft_offsets (frozen_of n sources targets))) →
  typed_section nw s k2 v = Ok (slice_to_le nw (ft_targets (frozen_of n sources targets))) →
  (fits nw (Z.of_nat n) ∧ ∃ g, from_snapshot_with_kinds nw ew s k1 k2 v = Ok g ∧ CsrOk g ∧
      node_count g = Z.of_nat n ∧ zlen (Csr.targets g) = zlen sources ∧
      ∀ E x, (x < n)%nat → csr_element_successors (E:=E) g (Z.of_nat x) = Ok (target_of targets <$> bucket sources x)) ∨
  (¬ fits nw (Z.of_nat n) ∧ from_snapshot_with_kinds nw ew s k1 k2 v = Err (NodeCountOverflow (Z.of_nat n + 1))).
Proof.
  intros Hok Hfit Hids Hoff Htgt. destruct (frozen_fits nw ew n _ _ Hok Hfit) as [Hfo Hft].
  pose proof (slice_to_le_get ew _ Hfo) as Hgo. pose proof (slice_to_le_get nw _ Hft) as Hgt.
  set (t := frozen_of n sources targets) in *.
  assert (zlen (slice_to_le ew (ft_offsets t)) = Z.of_nat n + 1) as Hlen.
  { unfold zlen, slice_to_le. rewrite length_fmap. cbn [t ft_offsets frozen_of]. rewrite length_tab. lia. }
  unfold from_snapshot_with_kinds. rewrite Hoff, Htgt. cbn [map_err mbind res_bind].
  rewrite decide_False by (intros He; rewrite He in Hlen; unfold zlen in Hlen; cbn in Hlen; lia).
  rewrite Hlen. replace (Z.of_nat n + 1 - 1) with (Z.of_nat n) by lia.
  destruct (from_usize nw (Z.of_nat n)) as [c|] eqn:Hfu; cbn [ok_or mbind res_bind].
  - apply from_usize_Some in Hfu as [-> Hf]; [|pose proof (eo_nodes _ _ _ _ Hok); lia]. left. split; [done|].
    assert (fits (word_width (le_word nw)) (Z.of_nat n)) as Hf' by exact Hf.
    assert (CsrOk (from_validated_parts (Z.of_nat n) (Z.of_nat n) (slice_to_le ew (ft_offsets t))
      (slice_to_le nw (ft_targets t)))) as Hview by by eapply (frozen_view_ok nw).
    destruct (validate_cases (OW:=le_word ew) (Z.of_nat n) (slice_to_le ew (ft_offsets t))
      (slice_to_le nw (ft_targets t)) Hf') as [[-> _]|(e & _ & _ & [])]; [|done].
    cbn [map_err]. eexists. split; [done|]. split; [done|]. split; [done|]. split.
    + destruct (view_lengths nw n sources targets Hok (slice_to_le ew (ft_offsets t)) (slice_to_le nw (ft_targets t))) as [_ Hl];
        [done..|]. unfold zlen. cbn [Csr.targets from_validated_parts]. by rewrite Hl.
    + intros E x Hx. eapply (frozen_view_successors nw n _ _ Hok); [done|exact Hgo|exact Hgt|done|by apply Hids].
  - right. split; [|done]. intros Hf.
    assert (from_usize nw (Z.of_nat n) = Some (Z.of_nat n)) by (apply from_usize_Some; [pose proof (eo_nodes _ _ _ _ Hok); lia|done]). congruence.
Qed.

(** Export and reopen: whenever the file fits in memory the export of a
    frozen graph succeeds, and the exported bytes, opened anywhere, pass their
    checksums and give back a well formed view with the graph's node count and
    the same successors. A node count that is no node index is the one case
    where the exported file is refused again. *)
Theorem export_roundtrip b t :
  builder_reach nw ew b → gb_node_count b < usize_max → zlen (gb_sources b) ≤ usize_max →
  freeze nw ew b = Ok t → csr_file_size t ≤ isize_max →
  ∃ bytes, export_topology_snapshot nw ew t = Ok bytes ∧ ∀ addr,
    ∃ s, open_checked bytes addr crc32c_append = Ok s ∧
    ((fits nw (gb_node_count b) ∧ ∃ g, from_snapshot nw ew s = Ok g ∧ CsrOk g ∧
        node_count g = gb_node_count b ∧ ∀ x, 0 ≤ x < gb_node_count b →
        ∃ ys, csr_element_successors (E:=GraphBuildError) g x = Ok ys ∧
          frozen_successors (E:=GraphBuildError) nw ew t x = Ok ys) ∨
     (¬ fits nw (gb_node_count b) ∧ from_snapshot nw ew s = Err (NodeCountOverflow (gb_node_count b + 1)))).
Proof.
  intros Hb Hn Hm Ht Hsize. destruct (freeze_inv nw ew b t Hb Hn Hm Ht) as (n & Hc & Hok & Hfit & Heq & Hids).
  rewrite Hc in *. destruct (csr_export_run t Hsize) as (bytes & Hexp & Hopen). exists bytes. split; [done|].
  intros addr. destruct (Hopen addr) as (Ho & Hs & Hh). exists (opened bytes addr). split; [done|].
  pose proof (holds_typed (opened bytes addr) (csr_sections t) Hs Hh) as Hty. unfold csr_sections in Hty. rewrite Heq in Hty.
  unfold from_snapshot.
  destruct (frozen_sections_view n (gb_sources b) (gb_targets b) (opened bytes addr) (OFFSETS_KIND ew) (TARGETS_KIND nw)
    SNAPSHOT_CSR_SECTION_VERSION Hok Hfit Hids) as [(Hf & g & Hg & Hgok & Hcount & _ & Hsucc)|[Hf He]];
    [apply Hty; set_solver|apply Hty; set_solver| |by right].
  left. split; [done|]. exists g. split; [done|]. split; [done|]. split; [done|]. intros x Hx.
  rewrite <-(Z2Nat.id x) by lia. assert (Z.to_nat x < n)%nat as Hxn by lia. eexists. split; [by apply Hsucc|].
  rewrite Heq. apply frozen_successors_Ok; [done..|by apply Hids].
Qed.

End roundtrip.

(** ** A small graph *)

Section demo.

Definition demo_builder : GraphBuilder := {| gb_node_count := 2; gb_sources := [1; 0; 1]; gb_targets := [0; 1; 1] |}.

Lemma demo_reach : builder_reach (H := target64) W32 W32 demo_builder.
Proof.
  assert (builder_reach (H := target64) W32 W32 {| gb_node_count := 1; gb_sources := []; gb_targets := [] |}) as H1
    by (eapply reach_node; [apply reach_new|reflexivity]).
  assert (builder_reach (H := target64) W32 W32 {| gb_node_count := 2; gb_sources := []; gb_targets := [] |}) as H2
    by (eapply reach_node; [exact H1|reflexivity]).
  assert (builder_reach (H := target64) W32 W32 {| gb_node_count := 2; gb_sources := [1]; gb_targets := [0] |}) as H3
    by (eapply (reach_edge _ _ _ 1 0); [exact H2|reflexivity|split; vm_compute; discriminate..]).
  assert (builder_reach (H := target64) W32 W32 {| gb_node_count := 2; gb_sources := [1; 0]; gb_targets := [0; 1] |}) as H4
    by (eapply (reach_edge _ _ _ 0 1); [exact H3|reflexivity|split; vm_compute; discriminate..]).
  eapply (reach_edge _ _ _ 1 1); [exact H4|reflexivity|split; vm_compute; discriminate..].
Qed.

Definition demo_frozen : FrozenTopology := {|
  ft_node_count := 2; ft_offsets := [0; 1; 3]; ft_edge_ids := [1; 0; 2]; ft_targets := [1; 0; 1];
  ft_sources := [1; 0; 1]; ft_edge_targets := [0; 1; 1] |}.

Lemma freeze_correct_witness :
  ∃ t, freeze (H := target64) W32 W32 demo_builder = Ok t ∧
    frozen_successors (H := target64) (E := GraphBuildError) W32 W32 t 1 = Ok [0; 1].
Proof.
  destruct (freeze_correct (H := target64) W32 W32 demo_builder demo_reach ltac:(vm_compute; reflexivity)
    ltac:(vm_compute; discriminate)) as [(_ & t & Ht & _ & Hout & _)|[_ [v Hv]]].
  - exists t. split; [exact Ht|]. destruct (Hout 1 ltac:(split; vm_compute; [discriminate|reflexivity])) as [_ Hs].
    exact Hs.
  - vm_compute in Hv. discriminate.
Defined.

Lemma transpose_involutive_witness :
  ∃ t', transpose (H := target64) W32 W32 demo_frozen = Ok t' ∧
    transpose (H := target64) W32 W32 t' = Ok demo_frozen.
Proof.
  destruct (transpose_involutive (H := target64) W32 W32 demo_builder demo_frozen demo_reach
    ltac:(vm_compute; reflexivity) ltac:(vm_compute; discriminate) ltac:(vm_compute; reflexivity))
    as (t' & H1 & H2 & _).
  exists t'. split; [exact H1|exact H2].
Defined.

Lemma as_view_refines_witness :
  ∃ g, as_view (H := target64) W32 W32 demo_frozen = Ok g ∧ CsrOk (H := target64) g.
Proof.
  destruct (as_view_refines (H := target64) W32 W32 demo_builder demo_frozen demo_reach
    ltac:(vm_compute; reflexivity) ltac:(vm_compute; discriminate) ltac:(vm_compute; reflexivity))
    as [(_ & g & Hg & Hok & _)|[_ He]].
  - exists g. split; [exact Hg|exact Hok].
  - vm_compute in He. discriminate.
Defined.

Lemma export_roundtrip_witness :
  ∃ bytes s, export_topology_snapshot (H := target64) S32 S32 demo_frozen = Ok bytes ∧
    open_checked (H := target64) bytes 64 crc32c_append = Ok s.
Proof.
  destruct (export_roundtrip (H := target64) S32 S32 demo_builder demo_frozen demo_reach
    ltac:(vm_compute; reflexivity) ltac:(vm_compute; discriminate) ltac:(vm_compute; reflexivity)
    ltac:(vm_compute; discriminate)) as (bytes & Hb & Ho).
  destruct (Ho 64) as (s & Hs & _). exists bytes, s. split; [exact Hb|exact Hs].
Defined.

Lemma from_snapshot_safe_witness :
  returns (from_snapshot (H := target64) S32 S32 (opened demo_file 0)).
Proof.
  apply (from_snapshot_safe (H := target64) S32 S32 demo_file 0);
    [vm_compute; discriminate|vm_compute; reflexivity].
Defined.

End demo.
