(* ===== verification/Search.v ===== *)
(** * Search: binary search of the standard library

    [slice::binary_search_by] as the standard library computes it: a bisection
    that halves the window until one slot is left. The comparison can panic
    ([Prelude.binary_search] is the same search under one that cannot). On a
    slice sorted strictly by the key the comparison looks at, it finds the slot
    that holds the needle, or reports that none does. *)

From stdpp Require Import base list sorting.
From S2P Require Import Prelude.

Local Open Scope Z_scope.

Section search.
Context {E A : Type} (f : A → res E comparison).

Fixpoint bisect (fuel : nat) (l : list A) (base size : nat) : res E nat :=
  if decide (size ≤ 1)%nat then Ok base else
  match fuel with
  | O => NoFuel
  | S fuel =>
      let half := (size / 2)%nat in
      let mid := (base + half)%nat in
      x ← vget l mid;
      c ← f x;
      bisect fuel l (match c with Gt => base | _ => mid end) (size - half)
  end.

(** [Ok(slot)] is [inl], [Err(insertion point)] is [inr]. *)
Definition binary_search_by (l : list A) : res E (nat + nat) :=
  match l with
  | [] => Ok (inr 0%nat)
  | _ =>
      base ← bisect (length l) l 0 (length l);
      x ← vget l base;
      c ← f x;
      Ok (match c with Eq => inl base | Lt => inr (S base) | Gt => inr base end)
  end.

End search.

(** ** Any comparison that splits the slice

    [cls i] classifies slot [i]: below, at or above the needle, in this order. *)

Section cut.
Context {E A : Type} (f : A → res E comparison) (l : list A) (cls : nat → comparison).
Hypothesis Hcls : ∀ i x, l !! i = Some x → f x = Ok (cls i).
Hypothesis Hlow : ∀ i j, (i ≤ j < length l)%nat → cls j = Lt → cls i = Lt.
Hypothesis Hhigh : ∀ i j, (i ≤ j < length l)%nat → cls i = Gt → cls j = Gt.

Lemma bisect_cut fuel base size :
  (0 < size)%nat → (size ≤ S fuel)%nat → (base + size ≤ length l)%nat →
  (base = 0%nat ∨ cls base ≠ Gt) → (∀ i, base + size ≤ i < length l → cls i = Gt)%nat →
  ∃ b, bisect f fuel l base size = Ok b ∧ (b < length l)%nat ∧ (b = 0%nat ∨ cls b ≠ Gt) ∧
    ∀ i, (b < i < length l)%nat → cls i = Gt.
Proof using Hcls Hhigh.
  revert base size. induction fuel as [|fuel IH]; intros base size Hpos Hfuel Hin Hbase Hhi.
  { exists base. cbn [bisect]. rewrite decide_True by lia. split_and!; [done|lia|done|intros i Hi; apply Hhi; lia]. }
  destruct (decide (size ≤ 1)%nat) as [Hs|Hs].
  { exists base. cbn [bisect]. rewrite decide_True by lia. split_and!; [done|lia|done|intros i Hi; apply Hhi; lia]. }
  cbn [bisect]. rewrite decide_False by lia. pose proof (Nat.div_lt size 2 ltac:(lia) ltac:(lia)).
  assert (0 < size / 2)%nat by (apply Nat.div_str_pos; lia).
  assert (2 * (size / 2) ≤ size)%nat by (apply Nat.Div0.mul_div_le).
  destruct (lookup_lt_is_Some_2 l (base + size / 2)) as [x Hx]; [lia|].
  unfold vget. rewrite Hx. cbn [or_panic mbind res_bind]. rewrite (Hcls _ _ Hx). cbn [mbind res_bind].
  destruct (cls (base + size / 2)%nat) eqn:Hc; apply IH; try lia; try done.
  - right. by rewrite Hc.
  - intros i Hi. apply Hhi. lia.
  - right. by rewrite Hc.
  - intros i Hi. apply Hhi. lia.
  - intros i Hi. apply (Hhigh (base + size / 2)); [lia|done].
Qed.

(** The search returns a slot that matches, or the point that separates the
    slots below the needle from those above. *)
Lemma binary_search_by_cut :
  ∃ r, binary_search_by f l = Ok r ∧
    match r with
    | inl i => (i < length l)%nat ∧ cls i = Eq
    | inr p => (p ≤ length l)%nat ∧ (∀ i, (i < p)%nat → cls i = Lt) ∧ ∀ i, (p ≤ i < length l)%nat → cls i = Gt
    end.
Proof using Hcls Hhigh Hlow.
  destruct (decide (l = [])) as [->|Hl]; [exists (inr 0%nat); split; [done|split; [done|split; intros i Hi; cbn in *; lia]]|].
  assert (0 < length l)%nat as Hpos by (destruct l; [done|cbn; lia]).
  destruct (bisect_cut (length l) 0 (length l)) as (b & Hb & Hlt & Hcb & Hhi); [lia|lia|lia|by left|intros i Hi; lia|].
  destruct (lookup_lt_is_Some_2 l b Hlt) as [x Hx].
  assert (binary_search_by f l = Ok (match cls b with Eq => inl b | Lt => inr (S b) | Gt => inr b end)) as ->.
  { unfold binary_search_by. rewrite Hb. cbn [mbind res_bind]. unfold vget. rewrite Hx. cbn [or_panic mbind res_bind].
    rewrite (Hcls _ _ Hx). clear -Hl. by destruct l. }
  eexists. split; [done|]. destruct (cls b) eqn:Hc; [done| |].
  - split; [lia|]. split; [intros i Hi; apply (Hlow i b); [lia|done]|intros i Hi; apply Hhi; lia].
  - destruct Hcb as [->|Hne]; [|done]. split; [lia|]. split; [intros i Hi; lia|].
    intros i Hi. apply (Hhigh 0); [lia|done].
Qed.

End cut.

Section sorted.
Context {E A : Type} (key : A → Z) (needle : Z).

Abbreviation by_key := (λ x : A, Ok (E := E) (key x ?= needle)).

(** Strictly ascending keys. *)
Definition ascending (l : list A) : Prop := ∀ i j x y, (i < j)%nat → l !! i = Some x → l !! j = Some y → key x < key y.

Lemma bisect_step fuel l base size :
  (1 < size)%nat → bisect by_key (S fuel) l base size =
    (x ← vget l (base + size / 2);
     bisect by_key fuel l (match (key x ?= needle)%Z with Gt => base | _ => (base + size / 2)%nat end) (size - size / 2)).
Proof. intros Hs. cbn [bisect]. rewrite decide_False by lia. by destruct (vget l _). Qed.

(** The window keeps every slot of the needle, and shrinks to one slot. *)
Lemma bisect_spec l fuel base size :
  ascending l → (0 < size)%nat → (size ≤ S fuel)%nat → (base + size ≤ length l)%nat →
  (∀ i x, l !! i = Some x → key x = needle → base ≤ i < base + size)%nat →
  ∃ b, bisect by_key fuel l base size = Ok b ∧ (b < length l)%nat ∧
    ∀ i x, l !! i = Some x → key x = needle → i = b.
Proof.
  intros Hl. revert base size. induction fuel as [|fuel IH]; intros base size Hpos Hfuel Hin Hwin.
  { exists base. cbn [bisect]. rewrite decide_True by lia. split_and!; [done|lia|].
    intros i x Hi Hx. specialize (Hwin i x Hi Hx). lia. }
  destruct (decide (size ≤ 1)%nat) as [Hs|Hs].
  { exists base. cbn [bisect]. rewrite decide_True by lia. split_and!; [done|lia|].
    intros i x Hi Hx. specialize (Hwin i x Hi Hx). lia. }
  rewrite bisect_step by lia. pose proof (Nat.div_lt size 2 ltac:(lia) ltac:(lia)).
  assert (0 < size / 2)%nat by (apply Nat.div_str_pos; lia).
  destruct (lookup_lt_is_Some_2 l (base + size / 2)) as [x Hx]; [lia|].
  unfold vget. rewrite Hx. cbn [or_panic mbind res_bind].
  assert (2 * (size / 2) ≤ size)%nat by (apply Nat.Div0.mul_div_le).
  destruct (Z.compare_spec (key x) needle) as [He|Hlt|Hgt]; apply IH; try lia; intros i y Hi Hy;
    pose proof (Hwin i y Hi Hy); destruct (decide (i < base + size / 2)%nat) as [Hlo|Hlo];
    try (split; lia).
  - pose proof (Hl i _ y x Hlo Hi Hx). lia.
  - pose proof (Hl i _ y x Hlo Hi Hx). lia.
  - destruct (decide (i = base + size / 2)%nat) as [->|].
    + rewrite Hx in Hi. injection Hi as ->. lia.
    + pose proof (Hl (base + size / 2)%nat i x y ltac:(lia) Hx Hi). lia.
Qed.

(** On a strictly ascending slice the search returns, finds the slot of the
    needle when there is one, and says so otherwise. *)
Lemma binary_search_by_spec l :
  ascending l →
  (∃ i x, binary_search_by by_key l = Ok (inl i) ∧ l !! i = Some x ∧ key x = needle) ∨
  (∃ p, binary_search_by by_key l = Ok (inr p) ∧ ∀ i x, l !! i = Some x → key x ≠ needle).
Proof.
  intros Hl. destruct l as [|a l']; [right; exists 0%nat; split; [done|intros i x Hx; by rewrite lookup_nil in Hx]|].
  unfold binary_search_by. remember (a :: l') as l eqn:Heq.
  destruct (bisect_spec l (length l) 0 (length l) Hl) as (b & -> & Hb & Hall); [subst; cbn; lia|lia|lia| |].
  { intros i x Hi _. apply lookup_lt_Some in Hi. lia. }
  cbn [mbind res_bind]. destruct (lookup_lt_is_Some_2 l b Hb) as [x Hx]. unfold vget. rewrite Hx. cbn [or_panic mbind res_bind].
  destruct (Z.compare_spec (key x) needle) as [He|Hlt|Hgt]; [left; eauto| |]; right; eexists; (split; [done|]);
    intros i y Hi Hy; specialize (Hall i y Hi Hy) as ->; rewrite Hx in Hi; injection Hi as ->; lia.
Qed.

End sorted.
