(* ===== verification/Bcsr.v ===== *)
(** * Bcsr: bipartite CSR hypergraph views

    Models [crates/oxgraph-hyper-bcsr/src/] without the builder: the eight
    borrowed sections and their validation ([internal/validation.rs]), the view
    ([internal/view.rs]), its iterators ([internal/iter.rs]), the topology traits
    ([internal/traits.rs]) and opening from a snapshot
    ([internal/snapshot_open.rs]). Ids are raw indices, slots and lengths [usize]
    values. Where the code indexes a slice or is [unreachable!] the model
    panics. *)

From stdpp Require Import base gmap sets list sorting.
From S2P Require Import Prelude Bytes Layout Snapshot Search Topology.

Local Open Scope Z_scope.

(** ** Section kinds ([snapshot.rs], [word.rs]) *)

Definition SNAPSHOT_KIND_BCSR_HEAD_OFFSETS_BASE : Z := 0x20.
Definition SNAPSHOT_KIND_BCSR_HEAD_PARTICIPANTS_BASE : Z := 0x24.
Definition SNAPSHOT_KIND_BCSR_TAIL_OFFSETS_BASE : Z := 0x28.
Definition SNAPSHOT_KIND_BCSR_TAIL_PARTICIPANTS_BASE : Z := 0x2C.
Definition SNAPSHOT_KIND_BCSR_VERTEX_OUTGOING_OFFSETS_BASE : Z := 0x30.
Definition SNAPSHOT_KIND_BCSR_VERTEX_OUTGOING_HYPEREDGES_BASE : Z := 0x34.
Definition SNAPSHOT_KIND_BCSR_VERTEX_INCOMING_OFFSETS_BASE : Z := 0x38.
Definition SNAPSHOT_KIND_BCSR_VERTEX_INCOMING_HYPEREDGES_BASE : Z := 0x3C.
Definition SNAPSHOT_BCSR_SECTION_VERSION : Z := 1.

Inductive BcsrSection :=
  | HeadOffsets
  | HeadParticipants
  | TailOffsets
  | TailParticipants
  | VertexOutgoingOffsets
  | VertexOutgoingHyperedges
  | VertexIncomingOffsets
  | VertexIncomingHyperedges.

(** [BcsrSnapshotIndex]: the kind of a section in words of a width. *)
Definition bcsr_kind_base (section : BcsrSection) : Z :=
  match section with
  | HeadOffsets => SNAPSHOT_KIND_BCSR_HEAD_OFFSETS_BASE
  | HeadParticipants => SNAPSHOT_KIND_BCSR_HEAD_PARTICIPANTS_BASE
  | TailOffsets => SNAPSHOT_KIND_BCSR_TAIL_OFFSETS_BASE
  | TailParticipants => SNAPSHOT_KIND_BCSR_TAIL_PARTICIPANTS_BASE
  | VertexOutgoingOffsets => SNAPSHOT_KIND_BCSR_VERTEX_OUTGOING_OFFSETS_BASE
  | VertexOutgoingHyperedges => SNAPSHOT_KIND_BCSR_VERTEX_OUTGOING_HYPEREDGES_BASE
  | VertexIncomingOffsets => SNAPSHOT_KIND_BCSR_VERTEX_INCOMING_OFFSETS_BASE
  | VertexIncomingHyperedges => SNAPSHOT_KIND_BCSR_VERTEX_INCOMING_HYPEREDGES_BASE
  end.
Definition bcsr_kind (sw : swidth) (section : BcsrSection) : Z := Z.lor (bcsr_kind_base section) (WIDTH_CODE sw).

(** ** Errors ([error.rs]) *)

Inductive BcsrRoleSide := Outgoing | Incoming.
Inductive BcsrRole := Head | Tail.

Inductive BcsrError :=
  | OffsetLengthOverflow (count : Z)
  | OffsetLength (section : BcsrSection) (expected actual : Z)
  | HyperedgeOffsetLengthMismatch (head_offsets_len tail_offsets_len : Z)
  | VertexOffsetLengthMismatch (outgoing_offsets_len incoming_offsets_len : Z)
  | FirstOffset (section : BcsrSection) (actual : Z)
  | NonMonotonicOffset (section : BcsrSection) (index : nat) (previous actual : Z)
  | FinalOffset (section : BcsrSection) (final_offset value_len : Z)
  | VertexOutOfRange (section : BcsrSection) (index : nat) (vertex vertex_count : Z)
  | HyperedgeOutOfRange (section : BcsrSection) (index : nat) (hyperedge hyperedge_count : Z)
  | OutgoingTotalMismatch (head_participants_len outgoing_hyperedges_len : Z)
  | IncomingTotalMismatch (tail_participants_len incoming_hyperedges_len : Z)
  | NotStrictlyAscending (section : BcsrSection) (index : nat) (previous actual : Z)
  | BcsrUsizeOverflow (value : Z)
  | TotalIncidenceCountOverflow (p_head p_tail : Z)
  | CrossDirectionMismatch (side : BcsrRoleSide) (hyperedge vertex : Z).

Inductive BcsrSnapshotError :=
  | BcsrMissingSection (section : BcsrSection) (kind : Z)
  | BcsrVersionMismatch (section : BcsrSection) (kind expected actual : Z)
  | BcsrSectionView (section : BcsrSection) (error : SectionViewError)
  | BcsrOffsetsEmpty (section : BcsrSection)
  | BcsrCountOverflow (section : BcsrSection) (offsets_len : Z)
  | Bcsr (error : BcsrError).

(** ** Sections *)

Record BcsrSections (OW VW RW : Type) := {
  head_offsets : list OW;
  head_participants : list VW;
  tail_offsets : list OW;
  tail_participants : list VW;
  vertex_outgoing_offsets : list OW;
  vertex_outgoing_hyperedges : list RW;
  vertex_incoming_offsets : list OW;
  vertex_incoming_hyperedges : list RW
}.
Arguments head_offsets {_ _ _} _.
Arguments head_participants {_ _ _} _.
Arguments tail_offsets {_ _ _} _.
Arguments tail_participants {_ _ _} _.
Arguments vertex_outgoing_offsets {_ _ _} _.
Arguments vertex_outgoing_hyperedges {_ _ _} _.
Arguments vertex_incoming_offsets {_ _ _} _.
Arguments vertex_incoming_hyperedges {_ _ _} _.

Record DerivedCounts := {
  dc_vertex_count : Z;
  dc_hyperedge_count : Z;
  dc_p_outgoing : Z;
  dc_p_incoming : Z;
  dc_total_incidences : Z
}.

Inductive BcsrValidation := Layout | Strict.

(** ** Words and buckets, for any word type *)

Section words.
Context `{!Target} {W : Type} `{!LayoutWord W}.

(** [index_to_usize], and [index_to_usize_validated] that is [unreachable!]. *)
Definition bcsr_index_to_usize (w : W) : res BcsrError Z := ok_or (BcsrUsizeOverflow usize_max) (read_as_usize w).
Definition slot_of {E} (w : W) : res E Z := or_panic (read_as_usize w).

(** The value an overflow issue reports. *)
Definition reported_value (values : list W) (index : nat) : Z := default usize_max (w ← values !! index; read_as_usize w).

Definition bcsr_map_offsets_issue (section : BcsrSection) (offsets : list W) (issue : OffsetIntegrityIssue) : BcsrError :=
  match issue with
  | Length expected actual => OffsetLength section expected actual
  | FirstNonZero actual => FirstOffset section actual
  | NonMonotonic index previous actual => NonMonotonicOffset section index previous actual
  | FinalMismatch final_offset value_len => FinalOffset section final_offset value_len
  | UsizeOverflow index => BcsrUsizeOverflow (reported_value offsets index)
  | _ => BcsrUsizeOverflow usize_max
  end.

Definition map_vertex_value_issue (section : BcsrSection) (values : list W) (issue : OffsetIntegrityIssue) : BcsrError :=
  match issue with
  | ValueOutOfRange index value bound => VertexOutOfRange section index value bound
  | UsizeOverflow index => BcsrUsizeOverflow (reported_value values index)
  | _ => BcsrUsizeOverflow usize_max
  end.

Definition map_hyperedge_value_issue (section : BcsrSection) (values : list W) (issue : OffsetIntegrityIssue) : BcsrError :=
  match issue with
  | ValueOutOfRange index value bound => HyperedgeOutOfRange section index value bound
  | UsizeOverflow index => BcsrUsizeOverflow (reported_value values index)
  | _ => BcsrUsizeOverflow usize_max
  end.

Definition validate_one_offsets (offsets : list W) (section : BcsrSection) (count value_len : Z) : res BcsrError () :=
  if bool_decide (checked_add usize_max count 1 = None) then Err (OffsetLengthOverflow count) else
  map_err (bcsr_map_offsets_issue section offsets) (check_offset_section offsets count value_len).

Definition check_vertex_values (values : list W) (section : BcsrSection) (vertex_count : Z) : res BcsrError () :=
  map_err (map_vertex_value_issue section values) (check_value_range values vertex_count).
Definition check_hyperedge_values (values : list W) (section : BcsrSection) (hyperedge_count : Z) : res BcsrError () :=
  map_err (map_hyperedge_value_issue section values) (check_value_range values hyperedge_count).

(** The loop over [relative] of [check_strictly_ascending_range]. *)
Fixpoint ascending_from (section : BcsrSection) (values : list W) (index n : nat) (previous : Z) : res BcsrError () :=
  match n with
  | O => Ok ()
  | S n =>
      w ← vget values index;
      actual ← bcsr_index_to_usize w;
      if decide (actual ≤ previous) then Err (NotStrictlyAscending section index previous actual)
      else ascending_from section values (S index) n actual
  end.

Definition check_strictly_ascending_range (values : list W) (start end_ : Z) (section : BcsrSection) : res BcsrError () :=
  if decide (end_ ≤ start + 1) then Ok () else
  w ← vget values (Z.to_nat start);
  previous ← bcsr_index_to_usize w;
  ascending_from section values (S (Z.to_nat start)) (Z.to_nat (end_ - start) - 1) previous.

Definition search_word (needle : Z) (w : W) : res BcsrError comparison := v ← slot_of w; Ok (v ?= needle).

Definition bucket_contains (values : list W) (start end_ needle : Z) : res BcsrError bool :=
  bucket ← vslice values (Z.to_nat start) (Z.to_nat end_);
  found ← binary_search_by (search_word needle) bucket;
  Ok (match found with inl _ => true | inr _ => false end).

End words.

Section validation.
Context `{!Target}.

(** [for (i, window) in l.windows(2).enumerate()], from index [i]. *)
Fixpoint for_windows {E W} (f : Z → W → W → res E ()) (i : Z) (l : list W) : res E () :=
  match l with
  | a :: ((b :: _) as rest) => _ ← f i a b; for_windows f (i + 1) rest
  | _ => Ok ()
  end.

Definition check_strictly_ascending_buckets {OW W} `{!LayoutWord OW, !LayoutWord W}
    (offsets : list OW) (values : list W) (section : BcsrSection) : res BcsrError () :=
  for_windows (λ _ a b,
    start ← bcsr_index_to_usize a;
    end_ ← bcsr_index_to_usize b;
    check_strictly_ascending_range values start end_ section) 0 offsets.

(** The entries of one bucket: each must list [owner] in its own bucket of the
    other direction. [cross_direction_check_bucket]. *)
Fixpoint check_bucket {OW W W'} `{!LayoutWord OW, !LayoutWord W, !LayoutWord W'}
    (mismatch : Z → BcsrError) (other_offsets : list OW) (other_values : list W') (owner : Z) (bucket : list W)
    : res BcsrError () :=
  match bucket with
  | [] => Ok ()
  | w :: bucket =>
      entry ← bcsr_index_to_usize w;
      a ← vget other_offsets (Z.to_nat entry);
      bucket_start ← bcsr_index_to_usize a;
      b ← vget other_offsets (Z.to_nat (entry + 1));
      bucket_end ← bcsr_index_to_usize b;
      found ← bucket_contains other_values bucket_start bucket_end owner;
      if found : bool then check_bucket mismatch other_offsets other_values owner bucket else Err (mismatch entry)
  end.

(** The outer loop of the two walks, over the bucket indices. *)
Definition walk_buckets {OW W W'} `{!LayoutWord OW, !LayoutWord W, !LayoutWord W'}
    (mismatch : Z → Z → BcsrError) (values : list W) (other_offsets : list OW) (other_values : list W')
    (offsets : list OW) : res BcsrError () :=
  for_windows (λ owner a b,
    start ← bcsr_index_to_usize a;
    end_ ← bcsr_index_to_usize b;
    check_bucket (mismatch owner) other_offsets other_values owner
      (drop (Z.to_nat start) (take (Z.to_nat end_) values))) 0 offsets.

Context {OW VW RW : Type} `{!LayoutWord OW, !LayoutWord VW, !LayoutWord RW}.
Implicit Type s : BcsrSections OW VW RW.

Definition cross_direction_walk (edge_offsets : list OW) (edge_values : list VW) (vertex_offsets : list OW)
    (vertex_values : list RW) (side : BcsrRoleSide) : res BcsrError () :=
  walk_buckets (λ hyperedge vertex, CrossDirectionMismatch side hyperedge vertex)
    edge_values vertex_offsets vertex_values edge_offsets.

Definition converse_direction_walk (vertex_offsets : list OW) (vertex_values : list RW) (edge_offsets : list OW)
    (edge_values : list VW) (side : BcsrRoleSide) : res BcsrError () :=
  walk_buckets (λ vertex hyperedge, CrossDirectionMismatch side hyperedge vertex)
    vertex_values edge_offsets edge_values vertex_offsets.

Definition derive_count_from_offsets (offsets_len : Z) (section : BcsrSection) : res BcsrError Z :=
  if decide (offsets_len = 0) then Err (OffsetLength section 1 0) else Ok (offsets_len - 1).

Definition derive_counts s : res BcsrError DerivedCounts :=
  if decide (zlen (head_offsets s) ≠ zlen (tail_offsets s))
  then Err (HyperedgeOffsetLengthMismatch (zlen (head_offsets s)) (zlen (tail_offsets s))) else
  if decide (zlen (vertex_outgoing_offsets s) ≠ zlen (vertex_incoming_offsets s))
  then Err (VertexOffsetLengthMismatch (zlen (vertex_outgoing_offsets s)) (zlen (vertex_incoming_offsets s))) else
  hyperedge_count ← derive_count_from_offsets (zlen (head_offsets s)) HeadOffsets;
  vertex_count ← derive_count_from_offsets (zlen (vertex_outgoing_offsets s)) VertexOutgoingOffsets;
  let p_outgoing := zlen (vertex_outgoing_hyperedges s) in
  let p_incoming := zlen (vertex_incoming_hyperedges s) in
  total_incidences ← ok_or (TotalIncidenceCountOverflow p_outgoing p_incoming)
                       (checked_add usize_max p_outgoing p_incoming);
  Ok {| dc_vertex_count := vertex_count; dc_hyperedge_count := hyperedge_count;
        dc_p_outgoing := p_outgoing; dc_p_incoming := p_incoming; dc_total_incidences := total_incidences |}.

Definition validate_all_offsets s (counts : DerivedCounts) : res BcsrError () :=
  _ ← validate_one_offsets (head_offsets s) HeadOffsets (dc_hyperedge_count counts) (zlen (head_participants s));
  _ ← validate_one_offsets (tail_offsets s) TailOffsets (dc_hyperedge_count counts) (zlen (tail_participants s));
  _ ← validate_one_offsets (vertex_outgoing_offsets s) VertexOutgoingOffsets (dc_vertex_count counts)
        (zlen (vertex_outgoing_hyperedges s));
  validate_one_offsets (vertex_incoming_offsets s) VertexIncomingOffsets (dc_vertex_count counts)
    (zlen (vertex_incoming_hyperedges s)).

Definition validate_total_lengths s : res BcsrError () :=
  if decide (zlen (head_participants s) ≠ zlen (vertex_outgoing_hyperedges s))
  then Err (OutgoingTotalMismatch (zlen (head_participants s)) (zlen (vertex_outgoing_hyperedges s))) else
  if decide (zlen (tail_participants s) ≠ zlen (vertex_incoming_hyperedges s))
  then Err (IncomingTotalMismatch (zlen (tail_participants s)) (zlen (vertex_incoming_hyperedges s))) else
  Ok ().

Definition validate_value_ranges s (counts : DerivedCounts) : res BcsrError () :=
  _ ← check_vertex_values (head_participants s) HeadParticipants (dc_vertex_count counts);
  _ ← check_vertex_values (tail_participants s) TailParticipants (dc_vertex_count counts);
  _ ← check_hyperedge_values (vertex_outgoing_hyperedges s) VertexOutgoingHyperedges (dc_hyperedge_count counts);
  check_hyperedge_values (vertex_incoming_hyperedges s) VertexIncomingHyperedges (dc_hyperedge_count counts).

Definition validate_within_range_sorted s : res BcsrError () :=
  _ ← check_strictly_ascending_buckets (head_offsets s) (head_participants s) HeadParticipants;
  _ ← check_strictly_ascending_buckets (tail_offsets s) (tail_participants s) TailParticipants;
  _ ← check_strictly_ascending_buckets (vertex_outgoing_offsets s) (vertex_outgoing_hyperedges s) VertexOutgoingHyperedges;
  check_strictly_ascending_buckets (vertex_incoming_offsets s) (vertex_incoming_hyperedges s) VertexIncomingHyperedges.

Definition validate_cross_direction s : res BcsrError () :=
  _ ← cross_direction_walk (head_offsets s) (head_participants s) (vertex_outgoing_offsets s)
        (vertex_outgoing_hyperedges s) Outgoing;
  _ ← cross_direction_walk (tail_offsets s) (tail_participants s) (vertex_incoming_offsets s)
        (vertex_incoming_hyperedges s) Incoming;
  _ ← converse_direction_walk (vertex_outgoing_offsets s) (vertex_outgoing_hyperedges s) (head_offsets s)
        (head_participants s) Outgoing;
  converse_direction_walk (vertex_incoming_offsets s) (vertex_incoming_hyperedges s) (tail_offsets s)
    (tail_participants s) Incoming.

Definition validate_sections s (level : BcsrValidation) : res BcsrError DerivedCounts :=
  counts ← derive_counts s;
  _ ← validate_all_offsets s counts;
  _ ← validate_total_lengths s;
  _ ← validate_value_ranges s counts;
  _ ← validate_within_range_sorted s;
  _ ← match level with Strict => validate_cross_direction s | Layout => Ok () end;
  Ok counts.

End validation.

(** ** The view ([internal/view.rs]) *)

Record BcsrHypergraph (OW VW RW : Type) := { bg_counts : DerivedCounts; bg_sections : BcsrSections OW VW RW }.
Arguments bg_counts {_ _ _} _.
Arguments bg_sections {_ _ _} _.

Section view.
Context `{!Target} {OW VW RW : Type} `{!LayoutWord OW, !LayoutWord VW, !LayoutWord RW}.
Implicit Type g : BcsrHypergraph OW VW RW.

(** The index types of the words. *)
Abbreviation IncidenceIndex := (word_width OW).
Abbreviation VertexIndex := (word_width VW).
Abbreviation RelationIndex := (word_width RW).

Definition bcsr_open_with (s : BcsrSections OW VW RW) (level : BcsrValidation) : res BcsrError (BcsrHypergraph OW VW RW) :=
  counts ← validate_sections s level;
  Ok {| bg_counts := counts; bg_sections := s |}.

(** [saturating_sub], [saturating_add]. *)
Definition from_validated_sections (s : BcsrSections OW VW RW) : BcsrHypergraph OW VW RW :=
  let p_outgoing := zlen (vertex_outgoing_hyperedges s) in
  let p_incoming := zlen (vertex_incoming_hyperedges s) in
  {| bg_counts := {|
       dc_vertex_count := Z.max 0 (zlen (vertex_outgoing_offsets s) - 1);
       dc_hyperedge_count := Z.max 0 (zlen (head_offsets s) - 1);
       dc_p_outgoing := p_outgoing; dc_p_incoming := p_incoming;
       dc_total_incidences := Z.min usize_max (p_outgoing + p_incoming) |};
     bg_sections := s |}.

(** ** Buckets *)

(** [index_to_usize_validated] and [usize_to_index_validated] on ids. *)
Definition id_slot {E} (w : width) (id : Z) : res E Z := or_panic (to_usize w id).
Definition slot_id {E} (w : width) (slot : Z) : res E Z := or_panic (from_usize w slot).

(** [offsets[index]] and [offsets[index + 1]] as slots. *)
Definition bucket_range {E} (offsets : list OW) (index : Z) : res E (Z * Z) :=
  a ← vget offsets (Z.to_nat index);
  start ← slot_of a;
  b ← vget offsets (Z.to_nat (index + 1));
  end_ ← slot_of b;
  Ok (start, end_).

Definition vertex_bucket {E W} (offsets : list OW) (values : list W) (index : Z) : res E (list W) :=
  '(start, end_) ← bucket_range offsets index;
  vslice values (Z.to_nat start) (Z.to_nat end_).

(** Bisection over the offsets for the bucket whose range holds [target]. *)
Fixpoint locate_between {E} (fuel : nat) (offsets : list OW) (target low high : Z) : res E Z :=
  if decide (low + 1 < high) then
    match fuel with
    | O => NoFuel
    | S fuel =>
        let mid := low + (high - low) / 2 in
        w ← vget offsets (Z.to_nat mid);
        v ← slot_of w;
        if decide (v ≤ target) then locate_between fuel offsets target mid high
        else locate_between fuel offsets target low mid
    end
  else Ok low.

Definition locate_owning_bucket {E} (offsets : list OW) (target : Z) : res E Z :=
  low ← locate_between (length offsets) offsets target 0 (zlen offsets - 1);
  slot_id RelationIndex low.

(** ** Iterators ([internal/iter.rs]) *)

(** [BcsrParticipantSlice]: incidence ids [base + cursor] up to [end]. *)
Record ParticipantSlice := { ps_cursor : Z; ps_end : Z; ps_base : Z }.

Definition participant_next {E} (it : ParticipantSlice) : res E (option Z * ParticipantSlice) :=
  if decide (ps_cursor it = ps_end it) then Ok (None, it) else
  match checked_add usize_max (ps_base it) (ps_cursor it) with
  | None => Ok (None, it)
  | Some slot =>
      id ← slot_id IncidenceIndex slot;
      Ok (Some id, {| ps_cursor := ps_cursor it + 1; ps_end := ps_end it; ps_base := ps_base it |})
  end.

Definition participant_next_back {E} (it : ParticipantSlice) : res E (option Z * ParticipantSlice) :=
  if decide (ps_cursor it = ps_end it) then Ok (None, it) else
  let it := {| ps_cursor := ps_cursor it; ps_end := ps_end it - 1; ps_base := ps_base it |} in
  match checked_add usize_max (ps_base it) (ps_end it) with
  | None => Ok (None, it)
  | Some slot => id ← slot_id IncidenceIndex slot; Ok (Some id, it)
  end.

(** Draining a slice, and the [Chain] of two. *)
Fixpoint participants_collect {E} (fuel : nat) (it : ParticipantSlice) : res E (list Z) :=
  match fuel with
  | O => NoFuel
  | S fuel =>
      '(o, it) ← participant_next it;
      match o with
      | None => Ok []
      | Some id => rest ← participants_collect fuel it; Ok (id :: rest)
      end
  end.
Definition participants_run {E} (it : ParticipantSlice) : res E (list Z) :=
  participants_collect (S (Z.to_nat (ps_end it - ps_cursor it))) it.
Definition chain_run {E} (a b : ParticipantSlice) : res E (list Z) :=
  xs ← participants_run a; ys ← participants_run b; Ok (xs ++ ys).

(** [BcsrElementIncidences]. *)
Record ElementIncidences := {
  ei_vertex : Z;
  ei_p_head : Z;
  ei_outgoing : list RW;
  ei_incoming : list RW
}.

Definition locate_in_bucket (offsets : list OW) (participants : list VW) (hyperedge vertex : Z) : res BcsrError (option Z) :=
  '(bucket_start, bucket_end) ← bucket_range offsets hyperedge;
  bucket ← vslice participants (Z.to_nat bucket_start) (Z.to_nat bucket_end);
  found ← binary_search_by (search_word vertex) bucket;
  Ok (match found with inl local => checked_add usize_max bucket_start (Z.of_nat local) | inr _ => None end).

(** The next hyperedge of the list whose bucket holds the vertex: the incidence
    id, and what is left of the list. A [base] whose sum overflows ends the call. *)
Fixpoint pull (s : BcsrSections OW VW RW) (offsets : list OW) (participants : list VW) (vertex base : Z) (hyperedges : list RW)
    : res BcsrError (option Z * list RW) :=
  match hyperedges with
  | [] => Ok (None, [])
  | h :: hyperedges =>
      hyperedge ← slot_of h;
      found ← locate_in_bucket offsets participants hyperedge vertex;
      match found with
      | None => pull s offsets participants vertex base hyperedges
      | Some position =>
          match checked_add usize_max base position with
          | None => Ok (None, hyperedges)
          | Some slot => id ← slot_id IncidenceIndex slot; Ok (Some id, hyperedges)
          end
      end
  end.

Definition pull_outgoing (s : BcsrSections OW VW RW) (it : ElementIncidences) : res BcsrError (option Z * ElementIncidences) :=
  '(o, rest) ← pull s (head_offsets s) (head_participants s) (ei_vertex it) 0 (ei_outgoing it);
  Ok (o, {| ei_vertex := ei_vertex it; ei_p_head := ei_p_head it; ei_outgoing := rest; ei_incoming := ei_incoming it |}).
Definition pull_incoming (s : BcsrSections OW VW RW) (it : ElementIncidences) : res BcsrError (option Z * ElementIncidences) :=
  '(o, rest) ← pull s (tail_offsets s) (tail_participants s) (ei_vertex it) (ei_p_head it) (ei_incoming it);
  Ok (o, {| ei_vertex := ei_vertex it; ei_p_head := ei_p_head it; ei_outgoing := ei_outgoing it; ei_incoming := rest |}).

Definition element_incidences_next (s : BcsrSections OW VW RW) (it : ElementIncidences)
    : res BcsrError (option Z * ElementIncidences) :=
  '(o, it) ← pull_outgoing s it;
  match o with Some id => Ok (Some id, it) | None => pull_incoming s it end.

Fixpoint element_incidences_collect (fuel : nat) (s : BcsrSections OW VW RW) (it : ElementIncidences) : res BcsrError (list Z) :=
  match fuel with
  | O => NoFuel
  | S fuel =>
      '(o, it) ← element_incidences_next s it;
      match o with
      | None => Ok []
      | Some id => rest ← element_incidences_collect fuel s it; Ok (id :: rest)
      end
  end.

(** [BcsrNeighborVertices]: the buckets of the relations, one after the other. *)
Record NeighborVertices := { nv_relations : list RW; nv_bucket : list VW }.

Fixpoint neighbor_next {E} (offsets : list OW) (participants : list VW) (relations : list RW) (bucket : list VW)
    : res E (option Z * NeighborVertices) :=
  match bucket with
  | w :: bucket => Ok (Some (word_get w), {| nv_relations := relations; nv_bucket := bucket |})
  | [] =>
      match relations with
      | [] => Ok (None, {| nv_relations := []; nv_bucket := [] |})
      | h :: relations =>
          hyperedge ← slot_of h;
          bucket ← vertex_bucket offsets participants hyperedge;
          neighbor_next offsets participants relations bucket
      end
  end.

Fixpoint neighbors_collect {E} (fuel : nat) (offsets : list OW) (participants : list VW) (it : NeighborVertices) : res E (list Z) :=
  match fuel with
  | O => NoFuel
  | S fuel =>
      '(o, it) ← neighbor_next offsets participants (nv_relations it) (nv_bucket it);
      match o with
      | None => Ok []
      | Some v => rest ← neighbors_collect fuel offsets participants it; Ok (v :: rest)
      end
  end.

(** ** Accessors ([internal/traits.rs]) *)

Definition contains_vertex {E} g (vertex : Z) : res E bool :=
  slot ← id_slot VertexIndex vertex; Ok (bool_decide (slot < dc_vertex_count (bg_counts g))).
Definition contains_hyperedge {E} g (hyperedge : Z) : res E bool :=
  slot ← id_slot RelationIndex hyperedge; Ok (bool_decide (slot < dc_hyperedge_count (bg_counts g))).
Definition contains_participant {E} g (incidence : Z) : res E bool :=
  slot ← id_slot IncidenceIndex incidence; Ok (bool_decide (slot < dc_total_incidences (bg_counts g))).

Definition incidence_element {E} g (incidence : Z) : res E Z :=
  slot ← id_slot IncidenceIndex incidence;
  let p := dc_p_outgoing (bg_counts g) in
  w ← (if decide (slot < p) then vget (head_participants (bg_sections g)) (Z.to_nat slot)
       else vget (tail_participants (bg_sections g)) (Z.to_nat (slot - p)));
  Ok (word_get w).

Definition incidence_relation {E} g (incidence : Z) : res E Z :=
  slot ← id_slot IncidenceIndex incidence;
  let p := dc_p_outgoing (bg_counts g) in
  if decide (slot < p) then locate_owning_bucket (head_offsets (bg_sections g)) slot
  else locate_owning_bucket (tail_offsets (bg_sections g)) (slot - p).

Definition incidence_role {E} g (incidence : Z) : res E BcsrRole :=
  slot ← id_slot IncidenceIndex incidence;
  Ok (if decide (slot < dc_p_outgoing (bg_counts g)) then Head else Tail).

Definition source_incidences {E} g (hyperedge : Z) : res E ParticipantSlice :=
  h ← id_slot RelationIndex hyperedge;
  '(start, end_) ← bucket_range (head_offsets (bg_sections g)) h;
  Ok {| ps_cursor := start; ps_end := end_; ps_base := 0 |}.
Definition target_incidences {E} g (hyperedge : Z) : res E ParticipantSlice :=
  h ← id_slot RelationIndex hyperedge;
  '(start, end_) ← bucket_range (tail_offsets (bg_sections g)) h;
  Ok {| ps_cursor := start; ps_end := end_; ps_base := dc_p_outgoing (bg_counts g) |}.

Definition bcsr_relation_incidences {E} g (hyperedge : Z) : res E (ParticipantSlice * ParticipantSlice) :=
  head ← source_incidences g hyperedge;
  tail ← target_incidences g hyperedge;
  Ok (head, tail).

(** [end - start], a [usize] subtraction. *)
Definition bucket_size {E} (offsets : list OW) (index : Z) : res E Z :=
  '(start, end_) ← bucket_range offsets index;
  if decide (start ≤ end_) then Ok (end_ - start) else Panic.

Definition relation_incidence_count {E} g (hyperedge : Z) : res E Z :=
  h ← id_slot RelationIndex hyperedge;
  head_size ← bucket_size (head_offsets (bg_sections g)) h;
  tail_size ← bucket_size (tail_offsets (bg_sections g)) h;
  Ok (head_size + tail_size).
Definition element_incidence_count {E} g (vertex : Z) : res E Z :=
  v ← id_slot VertexIndex vertex;
  out_size ← bucket_size (vertex_outgoing_offsets (bg_sections g)) v;
  in_size ← bucket_size (vertex_incoming_offsets (bg_sections g)) v;
  Ok (out_size + in_size).

Definition source_participants {E} g (hyperedge : Z) : res E (list Z) :=
  h ← id_slot RelationIndex hyperedge;
  head ← vertex_bucket (head_offsets (bg_sections g)) (head_participants (bg_sections g)) h;
  Ok (id_slice head).
Definition target_participants {E} g (hyperedge : Z) : res E (list Z) :=
  h ← id_slot RelationIndex hyperedge;
  tail ← vertex_bucket (tail_offsets (bg_sections g)) (tail_participants (bg_sections g)) h;
  Ok (id_slice tail).
Definition hyperedge_participants {E} g (hyperedge : Z) : res E (list Z) :=
  head ← source_participants g hyperedge;
  tail ← target_participants g hyperedge;
  Ok (head ++ tail).

Definition outgoing_hyperedges {E} g (vertex : Z) : res E (list Z) :=
  v ← id_slot VertexIndex vertex;
  outgoing ← vertex_bucket (vertex_outgoing_offsets (bg_sections g)) (vertex_outgoing_hyperedges (bg_sections g)) v;
  Ok (id_slice outgoing).
Definition incoming_hyperedges {E} g (vertex : Z) : res E (list Z) :=
  v ← id_slot VertexIndex vertex;
  incoming ← vertex_bucket (vertex_incoming_offsets (bg_sections g)) (vertex_incoming_hyperedges (bg_sections g)) v;
  Ok (id_slice incoming).
Definition incident_hyperedges {E} g (vertex : Z) : res E (list Z) :=
  outgoing ← outgoing_hyperedges g vertex;
  incoming ← incoming_hyperedges g vertex;
  Ok (outgoing ++ incoming).

Definition bcsr_element_incidences g (vertex : Z) : res BcsrError ElementIncidences :=
  v ← id_slot VertexIndex vertex;
  outgoing ← vertex_bucket (vertex_outgoing_offsets (bg_sections g)) (vertex_outgoing_hyperedges (bg_sections g)) v;
  incoming ← vertex_bucket (vertex_incoming_offsets (bg_sections g)) (vertex_incoming_hyperedges (bg_sections g)) v;
  Ok {| ei_vertex := v; ei_p_head := dc_p_outgoing (bg_counts g); ei_outgoing := outgoing; ei_incoming := incoming |}.
Definition element_incidences_run g (vertex : Z) : res BcsrError (list Z) :=
  it ← bcsr_element_incidences g vertex;
  element_incidences_collect (S (length (ei_outgoing it) + length (ei_incoming it))) (bg_sections g) it.

(** Successors go through the tails of the outgoing hyperedges, predecessors
    through the heads of the incoming ones. *)
Definition bcsr_element_successors {E} g (vertex : Z) : res E (list Z) :=
  v ← id_slot VertexIndex vertex;
  outgoing ← vertex_bucket (vertex_outgoing_offsets (bg_sections g)) (vertex_outgoing_hyperedges (bg_sections g)) v;
  neighbors_collect (S (length outgoing * length (tail_participants (bg_sections g))))
    (tail_offsets (bg_sections g)) (tail_participants (bg_sections g)) {| nv_relations := outgoing; nv_bucket := [] |}.
Definition bcsr_element_predecessors {E} g (vertex : Z) : res E (list Z) :=
  v ← id_slot VertexIndex vertex;
  incoming ← vertex_bucket (vertex_incoming_offsets (bg_sections g)) (vertex_incoming_hyperedges (bg_sections g)) v;
  neighbors_collect (S (length incoming * length (head_participants (bg_sections g))))
    (head_offsets (bg_sections g)) (head_participants (bg_sections g)) {| nv_relations := incoming; nv_bucket := [] |}.

End view.

(** ** Opening from a snapshot ([internal/snapshot_open.rs]) *)

Section snapshot.
Context `{!Target}.

Definition map_section_bind (section : BcsrSection) (error : SectionBindError) : BcsrSnapshotError :=
  match error with
  | Missing kind => BcsrMissingSection section kind
  | VersionMismatch kind expected actual => BcsrVersionMismatch section kind expected actual
  | View _ error => BcsrSectionView section error
  end.

Definition load_section (sw : swidth) (snapshot : Snapshot) (section : BcsrSection)
    : res BcsrSnapshotError (list (le_word sw)) :=
  map_err (map_section_bind section) (typed_section sw snapshot (bcsr_kind sw section) SNAPSHOT_BCSR_SECTION_VERSION).

Definition load_sections (vw rw iw : swidth) (snapshot : Snapshot)
    : res BcsrSnapshotError (BcsrSections (le_word iw) (le_word vw) (le_word rw)) :=
  ho ← load_section iw snapshot HeadOffsets;
  hp ← load_section vw snapshot HeadParticipants;
  t_o ← load_section iw snapshot TailOffsets;
  tp ← load_section vw snapshot TailParticipants;
  voo ← load_section iw snapshot VertexOutgoingOffsets;
  voh ← load_section rw snapshot VertexOutgoingHyperedges;
  vio ← load_section iw snapshot VertexIncomingOffsets;
  vih ← load_section rw snapshot VertexIncomingHyperedges;
  Ok {| head_offsets := ho; head_participants := hp; tail_offsets := t_o; tail_participants := tp;
        vertex_outgoing_offsets := voo; vertex_outgoing_hyperedges := voh;
        vertex_incoming_offsets := vio; vertex_incoming_hyperedges := vih |}.

Definition from_snapshot_with (vw rw iw : swidth) (snapshot : Snapshot) (level : BcsrValidation)
    : res BcsrSnapshotError (BcsrHypergraph (le_word iw) (le_word vw) (le_word rw)) :=
  s ← load_sections vw rw iw snapshot;
  map_err Bcsr (bcsr_open_with s level).

End snapshot.
