(* ===== verification/BcsrFacts.v ===== *)
(** * BcsrFacts: what a validated hypergraph view promises

    Validation accepts exactly the well formed sections, at either level, and
    otherwise names a fault that is there. A validated view is four arrays of
    rows: the heads and tails of each hyperedge, the outgoing and incoming
    hyperedges of each vertex; no accessor panics on a contained id. *)

From stdpp Require Import base gmap sets list sorting.
From S2P Require Import Prelude Bytes Layout Snapshot Search Topology CsrFacts Bcsr.

Local Open Scope Z_scope.

(** ** Windows *)

Lemma for_windows_cases {E W} (f : Z → W → W → res E ()) (l : list W) k i :
  i = Z.of_nat k →
  (for_windows f i (drop k l) = Ok () ∧
    ∀ j a b, (k ≤ j)%nat → l !! j = Some a → l !! S j = Some b → f (Z.of_nat j) a b = Ok ()) ∨
  (∃ j a b, (k ≤ j)%nat ∧ l !! j = Some a ∧ l !! S j = Some b ∧ f (Z.of_nat j) a b ≠ Ok () ∧
    for_windows f i (drop k l) = f (Z.of_nat j) a b).
Proof.
  intros ->. remember (length l - k)%nat as n eqn:Hn. revert k Hn. induction n as [|n IH]; intros k Hn.
  { left. rewrite drop_ge by lia. split; [done|]. intros j a b Hj Ha. apply lookup_lt_Some in Ha. lia. }
  destruct (lookup_lt_is_Some_2 l k) as [a Ha]; [lia|]. rewrite (drop_S l a k Ha).
  destruct (l !! S k) as [b|] eqn:Hb.
  2:{ left. apply lookup_ge_None in Hb. rewrite (drop_ge l (S k)) by lia. split; [done|].
      intros j x y Hj Hx Hy%lookup_lt_Some. lia. }
  assert (for_windows f (Z.of_nat k) (a :: drop (S k) l) = (_ ← f (Z.of_nat k) a b; for_windows f (Z.of_nat k + 1) (drop (S k) l)))
    as -> by (by rewrite (drop_S l b (S k) Hb)).
  assert (f (Z.of_nat k) a b = Ok () ∨ f (Z.of_nat k) a b ≠ Ok ()) as [He|He] by (destruct (f _ a b) as [[]| | |]; auto).
  2:{ right. exists k, a, b. split_and!; [done..|]. destruct (f _ a b) as [[]| | |]; done. }
  rewrite He. cbn [mbind res_bind]. replace (Z.of_nat k + 1) with (Z.of_nat (S k)) by lia.
  destruct (IH (S k)) as [[Hr Hall]|(j & x & y & Hj & Hx & Hy & Hne & Hr)]; [lia| |].
  - left. split; [done|]. intros j x y Hj Hx Hy. destruct (decide (j = k)) as [->|]; [congruence|]. apply Hall; (done || lia).
  - right. exists j, x, y. split_and!; (done || lia).
Qed.

(** ** Rows

    Bucket [i] of an offset section, as ids. *)

Section rows.
Context `{!Target} {OW W : Type} `{!LayoutWord OW, !LayoutWord W}.
Implicit Types (offsets : list OW) (values : list W).

Definition offset_at offsets (i : nat) : Z := default 0 (word_get <$> offsets !! i).
Definition bucket offsets values (i : nat) : list W :=
  take (Z.to_nat (offset_at offsets (S i) - offset_at offsets i)) (drop (Z.to_nat (offset_at offsets i)) values).
Definition zrow offsets values (i : nat) : list Z := id_slice (bucket offsets values i).

(** Strictly ascending within each bucket. *)
Definition rows_ascending offsets values : Prop :=
  ∀ i lo hi, offsets !! i = Some lo → offsets !! S i = Some hi →
  ∀ j x y, word_get lo ≤ Z.of_nat j → Z.of_nat (S j) < word_get hi →
  values !! j = Some x → values !! S j = Some y → word_get x < word_get y.

Lemma offset_at_Some offsets i a : offsets !! i = Some a → offset_at offsets i = word_get a.
Proof. intros Ha. unfold offset_at. by rewrite Ha. Qed.

Context (offsets : list OW) (values : list W) (n : Z).
Hypothesis Hok : OffsetsOk offsets n (zlen values).

Lemma offsets_window i : Z.of_nat i < n → ∃ a b, offsets !! i = Some a ∧ offsets !! S i = Some b ∧
  0 ≤ word_get a ≤ word_get b ∧ word_get b ≤ zlen values ∧ word_get b ≤ usize_max.
Proof using Hok.
  intros Hi. destruct (offsets_lookup _ _ _ i Hok) as [a Ha]; [lia|]. destruct (offsets_lookup _ _ _ (S i) Hok) as [b Hb]; [lia|].
  exists a, b. pose proof (offsets_le_len _ _ _ i a Hok Ha). pose proof (offsets_le_len _ _ _ (S i) b Hok Hb).
  pose proof (offsets_mono _ _ _ Hok i a b Ha Hb). pose proof (offsets_fit _ _ _ Hok (S i) b Hb). done || (split_and!; (done || lia)).
Qed.

Lemma offsets_read i a : offsets !! i = Some a → read_as_usize a = Some (word_get a).
Proof using Hok. intros Ha. apply read_as_usize_Some. split; [done|]. by eapply offsets_fit. Qed.

Lemma bucket_range_Ok {E} i : Z.of_nat i < n →
  bucket_range (E:=E) offsets (Z.of_nat i) = Ok (offset_at offsets i, offset_at offsets (S i)) ∧
  0 ≤ offset_at offsets i ≤ offset_at offsets (S i) ∧ offset_at offsets (S i) ≤ zlen values.
Proof using Hok.
  intros Hi. destruct (offsets_window i Hi) as (a & b & Ha & Hb & Hab & Hbl & _).
  rewrite (offset_at_Some _ _ a Ha), (offset_at_Some _ _ b Hb). split; [|lia].
  unfold bucket_range, vget, slot_of. rewrite Nat2Z.id, Ha. cbn [or_panic mbind res_bind].
  rewrite (offsets_read i a Ha). cbn [or_panic mbind res_bind]. replace (Z.to_nat (Z.of_nat i + 1)) with (S i) by lia.
  rewrite Hb. cbn [or_panic mbind res_bind]. by rewrite (offsets_read (S i) b Hb).
Qed.

Lemma vslice_bucket {E} i : Z.of_nat i < n →
  vslice (E:=E) values (Z.to_nat (offset_at offsets i)) (Z.to_nat (offset_at offsets (S i))) = Ok (bucket offsets values i).
Proof using Hok.
  intros Hi. destruct (bucket_range_Ok (E:=E) i Hi) as (_ & H1 & H2). unfold vslice, zlen, bucket in *.
  rewrite decide_True by lia. by rewrite Z2Nat.inj_sub by lia.
Qed.

Lemma vertex_bucket_Ok {E} i : Z.of_nat i < n → vertex_bucket (E:=E) offsets values (Z.of_nat i) = Ok (bucket offsets values i).
Proof using Hok.
  intros Hi. unfold vertex_bucket. destruct (bucket_range_Ok (E:=E) i Hi) as (-> & _). cbn [mbind res_bind]. by apply vslice_bucket.
Qed.

Lemma length_bucket i : Z.of_nat i < n → zlen (bucket offsets values i) = offset_at offsets (S i) - offset_at offsets i.
Proof using Hok.
  intros Hi. destruct (bucket_range_Ok (E:=BcsrError) i Hi) as (_ & H1 & H2). unfold zlen, bucket in *.
  rewrite length_take, length_drop. lia.
Qed.

Lemma lookup_bucket i j x : Z.of_nat i < n →
  bucket offsets values i !! j = Some x ↔
  Z.of_nat j < offset_at offsets (S i) - offset_at offsets i ∧ values !! (Z.to_nat (offset_at offsets i) + j)%nat = Some x.
Proof using Hok.
  intros Hi. destruct (bucket_range_Ok (E:=BcsrError) i Hi) as (_ & H1 & H2). unfold bucket.
  rewrite lookup_take_Some, lookup_drop. split; intros [??]; split; (done || lia).
Qed.

(** Outside the section rows are empty. *)
Lemma zrow_out i : n ≤ Z.of_nat i → zrow offsets values i = [].
Proof using Hok.
  intros Hi. unfold zrow, bucket. pose proof (offsets_len _ _ _ Hok) as Hlen. unfold zlen in Hlen.
  assert (offset_at offsets (S i) = 0) as ->.
  { unfold offset_at. rewrite lookup_ge_None_2; [done|lia]. }
  assert (0 ≤ offset_at offsets i).
  { unfold offset_at. destruct (offsets !! i); cbn; [apply word_get_nonneg|lia]. }
  by replace (Z.to_nat (0 - offset_at offsets i)) with 0%nat by lia.
Qed.

Lemma elem_of_zrow_values i v : v ∈ zrow offsets values i → ∃ x, x ∈ values ∧ v = word_get x.
Proof using Type.
  unfold zrow, id_slice, bucket. intros (x & -> & Hx)%list_elem_of_fmap. exists x. split; [|done].
  apply elem_of_take in Hx as (j & Hj & _). rewrite lookup_drop in Hj. by eapply list_elem_of_lookup_2.
Qed.

Lemma zrow_ascending i : rows_ascending offsets values → Z.of_nat i < n → ascending word_get (bucket offsets values i).
Proof using Hok.
  intros Hasc Hi. destruct (offsets_window i Hi) as (a & b & Ha & Hb & Hab & Hbl & _).
  assert (∀ j x y, bucket offsets values i !! j = Some x → bucket offsets values i !! S j = Some y → word_get x < word_get y) as Hs.
  { intros j x y. rewrite !(lookup_bucket _ _ _ Hi), (offset_at_Some _ _ a Ha), (offset_at_Some _ _ b Hb).
    intros [? Hx] [? Hy]. rewrite Nat.add_succ_r in Hy. apply (Hasc i a b Ha Hb _ x y) in Hx; [done|lia|lia|done]. }
  intros j k x y Hjk Hx. revert y. induction Hjk as [|k Hjk IH]; intros y Hy; [by eapply Hs|].
  destruct (lookup_lt_is_Some_2 (bucket offsets values i) k) as [z Hz]; [apply lookup_lt_Some in Hy; lia|].
  specialize (IH z Hz). pose proof (Hs k z y Hz Hy). lia.
Qed.

End rows.

(** ** The loops of the validation *)

Section loops.
Context `{!Target}.

Lemma bcsr_read {W} `{!LayoutWord W} (w : W) : word_get w ≤ usize_max → bcsr_index_to_usize w = Ok (word_get w).
Proof.
  intros Hw. unfold bcsr_index_to_usize. assert (read_as_usize w = Some (word_get w)) as -> by (by apply read_as_usize_Some). done.
Qed.

Section ascending.
Context {OW W : Type} `{!LayoutWord OW, !LayoutWord W} (values : list W) (section : BcsrSection).
Hypothesis Hfit : Forall (λ x, word_get x ≤ usize_max) values.

Lemma read_value j x : values !! j = Some x → bcsr_index_to_usize x = Ok (word_get x).
Proof using Hfit. intros Hx. apply bcsr_read. exact (Forall_lookup_1 _ _ _ _ Hfit Hx). Qed.

Lemma ascending_from_cases k index p :
  values !! index = Some p → (index + k < length values)%nat →
  (ascending_from section values (S index) k (word_get p) = Ok () ∧
    ∀ j x y, (index ≤ j < index + k)%nat → values !! j = Some x → values !! S j = Some y → word_get x < word_get y) ∨
  (∃ j x y, (index ≤ j < index + k)%nat ∧ values !! j = Some x ∧ values !! S j = Some y ∧ word_get y ≤ word_get x ∧
    ascending_from section values (S index) k (word_get p) = Err (NotStrictlyAscending section (S j) (word_get x) (word_get y))).
Proof using Hfit.
  revert index p. induction k as [|k IH]; intros index p Hp Hk; [left; split; [done|lia]|]. cbn [ascending_from].
  destruct (lookup_lt_is_Some_2 values (S index)) as [q Hq]; [lia|]. unfold vget. rewrite Hq. cbn [or_panic mbind res_bind].
  rewrite (read_value _ _ Hq). cbn [mbind res_bind]. case_decide as Hle.
  { right. exists index, p, q. split_and!; (done || lia). }
  destruct (IH (S index) q Hq) as [[Hr Hall]|(j & x & y & Hj & Hx & Hy & Hlt & Hr)]; [lia| |].
  - left. split; [done|]. intros j x y Hj Hx Hy. destruct (decide (j = index)) as [->|]; [|apply (Hall j); (done || lia)].
    assert (p = x) as -> by congruence. assert (q = y) as -> by congruence. lia.
  - right. exists j, x, y. split_and!; (done || lia).
Qed.

Lemma ascending_range_cases start end_ :
  0 ≤ start → end_ ≤ zlen values →
  (check_strictly_ascending_range values start end_ section = Ok () ∧
    ∀ j x y, start ≤ Z.of_nat j → Z.of_nat (S j) < end_ → values !! j = Some x → values !! S j = Some y → word_get x < word_get y) ∨
  (∃ j x y, start ≤ Z.of_nat j ∧ Z.of_nat (S j) < end_ ∧ values !! j = Some x ∧ values !! S j = Some y ∧ word_get y ≤ word_get x ∧
    check_strictly_ascending_range values start end_ section = Err (NotStrictlyAscending section (S j) (word_get x) (word_get y))).
Proof using Hfit.
  intros Hs He. unfold check_strictly_ascending_range. case_decide as Hsmall; [left; split; [done|lia]|].
  unfold zlen in He. destruct (lookup_lt_is_Some_2 values (Z.to_nat start)) as [p Hp]; [lia|].
  unfold vget. rewrite Hp. cbn [or_panic mbind res_bind]. rewrite (read_value _ _ Hp). cbn [mbind res_bind].
  destruct (ascending_from_cases (Z.to_nat (end_ - start) - 1) (Z.to_nat start) p Hp) as [[-> Hall]|(j & x & y & Hj & Hx & Hy & Hlt & ->)];
    [lia| |].
  - left. split; [done|]. intros j x y Hj1 Hj2. apply Hall. lia.
  - right. exists j, x, y. split_and!; (done || lia).
Qed.

Lemma ascending_buckets_cases (offsets : list OW) n :
  OffsetsOk offsets n (zlen values) →
  (check_strictly_ascending_buckets offsets values section = Ok () ∧ rows_ascending offsets values) ∨
  (∃ i lo hi j x y, offsets !! i = Some lo ∧ offsets !! S i = Some hi ∧
    word_get lo ≤ Z.of_nat j ∧ Z.of_nat (S j) < word_get hi ∧
    values !! j = Some x ∧ values !! S j = Some y ∧ word_get y ≤ word_get x ∧
    check_strictly_ascending_buckets offsets values section = Err (NotStrictlyAscending section (S j) (word_get x) (word_get y))).
Proof using Hfit.
  intros Hok. unfold check_strictly_ascending_buckets. set (f := λ (_ : Z) (a b : OW), _).
  assert (∀ i k a b, offsets !! i = Some a → offsets !! S i = Some b →
    f k a b = check_strictly_ascending_range values (word_get a) (word_get b) section) as Hf.
  { intros i k a b Ha Hb. unfold f. rewrite !bcsr_read by (eapply offsets_fit; done). done. }
  destruct (for_windows_cases f offsets 0 0 eq_refl) as [[Hr Hall]|(i & a & b & _ & Ha & Hb & Hne & Hr)]; rewrite drop_0 in Hr; rewrite Hr.
  - left. split; [done|]. intros i lo hi Hlo Hhi. specialize (Hall i lo hi ltac:(lia) Hlo Hhi). rewrite (Hf i _ lo hi Hlo Hhi) in Hall.
    destruct (ascending_range_cases (word_get lo) (word_get hi)) as [[_ Hx]|(j & x & y & _ & _ & _ & _ & _ & He)];
      [apply word_get_nonneg|by eapply offsets_le_len|exact Hx|congruence].
  - right. rewrite (Hf i _ a b Ha Hb) in Hne |- *.
    destruct (ascending_range_cases (word_get a) (word_get b)) as [[Hx _]|(j & x & y & H1 & H2 & Hx & Hy & Hle & He)];
      [apply word_get_nonneg|by eapply offsets_le_len|done|].
    by exists i, a, b, j, x, y.
Qed.

End ascending.

Section cross.
Context {OW W W' : Type} `{!LayoutWord OW, !LayoutWord W, !LayoutWord W'}.
Context (other_offsets : list OW) (other_values : list W') (n : Z).
Hypothesis Hok : OffsetsOk other_offsets n (zlen other_values).
Hypothesis Hasc : rows_ascending other_offsets other_values.
Hypothesis Hfit : Forall (λ x, word_get x ≤ usize_max) other_values.

Lemma search_bucket (l : list W') needle :
  Forall (λ x, word_get x ≤ usize_max) l →
  binary_search_by (search_word needle) l = binary_search_by (E:=BcsrError) (λ x, Ok (word_get x ?= needle)) l.
Proof using Type.
  intros Hl. assert (∀ x, x ∈ l → search_word needle x = Ok (word_get x ?= needle)) as Hs.
  { intros x Hx. rewrite Forall_forall in Hl. unfold search_word, slot_of.
    assert (read_as_usize x = Some (word_get x)) as -> by (apply read_as_usize_Some; auto). done. }
  assert (∀ fuel b k, bisect (search_word needle) fuel l b k = bisect (E:=BcsrError) (λ x, Ok (word_get x ?= needle)) fuel l b k) as Hb.
  { induction fuel as [|fuel IH]; intros b k; cbn [bisect]; [done|]. case_decide; [done|]. unfold vget.
    destruct (l !! (b + k / 2)%nat) as [x|] eqn:Hx; [|done]. cbn [or_panic mbind res_bind].
    rewrite Hs by (by eapply list_elem_of_lookup_2). cbn [mbind res_bind]. apply IH. }
  unfold binary_search_by. destruct l as [|a l']; [done|]. rewrite Hb. destruct (bisect _ _ _ _ _) as [b| | |]; [|done..]. cbn [mbind res_bind].
  unfold vget. destruct ((a :: l') !! b) as [x|] eqn:Hx; [|done]. cbn [or_panic mbind res_bind].
  by rewrite Hs by (by eapply list_elem_of_lookup_2).
Qed.

Lemma bucket_fits i : Forall (λ x, word_get x ≤ usize_max) (bucket other_offsets other_values i).
Proof using Hfit.
  apply Forall_forall. intros x Hx. rewrite Forall_forall in Hfit. apply Hfit. unfold bucket in Hx.
  apply elem_of_take in Hx as (j & Hj & _). rewrite lookup_drop in Hj. by eapply list_elem_of_lookup_2.
Qed.

Lemma bucket_contains_Ok i needle : Z.of_nat i < n →
  bucket_contains other_values (offset_at other_offsets i) (offset_at other_offsets (S i)) needle =
    Ok (bool_decide (needle ∈ zrow other_offsets other_values i)).
Proof using Hok Hasc Hfit.
  intros Hi. unfold bucket_contains. rewrite (vslice_bucket _ _ _ Hok i Hi). cbn [mbind res_bind].
  rewrite search_bucket by apply bucket_fits.
  destruct (binary_search_by_spec (E:=BcsrError) word_get needle (bucket other_offsets other_values i)) as [(k & x & -> & Hx & Hn)|(p & -> & Hn)];
    [by eapply zrow_ascending| |]; cbn [mbind res_bind]; f_equal; symmetry.
  - apply bool_decide_eq_true. rewrite <-Hn. unfold zrow, id_slice. apply list_elem_of_fmap_2. by eapply list_elem_of_lookup_2.
  - apply bool_decide_eq_false. intros (x & -> & Hx)%list_elem_of_fmap. apply list_elem_of_lookup in Hx as [k Hx]. by apply (Hn k x).
Qed.

Lemma check_bucket_cases mismatch owner (l : list W) :
  Forall (λ x, word_get x < n ∧ word_get x ≤ usize_max) l →
  (check_bucket mismatch other_offsets other_values owner l = Ok () ∧
    ∀ x, x ∈ l → owner ∈ zrow other_offsets other_values (Z.to_nat (word_get x))) ∨
  (∃ x, x ∈ l ∧ owner ∉ zrow other_offsets other_values (Z.to_nat (word_get x)) ∧
    check_bucket mismatch other_offsets other_values owner l = Err (mismatch (word_get x))).
Proof using Hok Hasc Hfit.
  induction l as [|w l IH]; intros Hl.
  { left. split; [done|]. intros x Hx. by apply not_elem_of_nil in Hx. }
  apply Forall_cons in Hl as [[Hw Hwu] Hl]. cbn [check_bucket]. rewrite bcsr_read by done. cbn [mbind res_bind].
  pose proof (word_get_nonneg w) as Hpos. set (i := Z.to_nat (word_get w)).
  assert (Z.of_nat i < n) as Hi by lia. destruct (offsets_window _ _ _ Hok i Hi) as (a & b & Ha & Hb & _).
  unfold vget. fold i. rewrite Ha. cbn [or_panic mbind res_bind]. rewrite bcsr_read by (by eapply offsets_fit). cbn [mbind res_bind].
  replace (Z.to_nat (word_get w + 1)) with (S i) by lia. rewrite Hb. cbn [or_panic mbind res_bind].
  rewrite bcsr_read by (by eapply offsets_fit). cbn [mbind res_bind].
  rewrite <-(offset_at_Some _ _ _ Ha), <-(offset_at_Some _ _ _ Hb), (bucket_contains_Ok i owner Hi). cbn [mbind res_bind].
  case_bool_decide as Hin.
  - destruct (IH Hl) as [[-> Hall]|(x & Hx & Hn & ->)].
    + left. split; [done|]. intros x [->|Hx]%elem_of_cons; [done|by apply Hall].
    + right. exists x. split_and!; [by right|done|done].
  - right. exists w. split_and!; [by left|done|done].
Qed.

(** One walk: every entry of every bucket is listed back. *)
Lemma walk_buckets_cases mismatch (offsets : list OW) (values : list W) m :
  OffsetsOk offsets m (zlen values) → Forall (λ x, word_get x < n ∧ word_get x ≤ usize_max) values →
  (walk_buckets mismatch values other_offsets other_values offsets = Ok () ∧
    ∀ i v, Z.of_nat v ∈ zrow offsets values i → Z.of_nat i ∈ zrow other_offsets other_values v) ∨
  (∃ i v, Z.of_nat i < m ∧ Z.of_nat v ∈ zrow offsets values i ∧ Z.of_nat i ∉ zrow other_offsets other_values v ∧
    walk_buckets mismatch values other_offsets other_values offsets = Err (mismatch (Z.of_nat i) (Z.of_nat v))).
Proof using Hok Hasc Hfit.
  intros Hoff Hval. unfold walk_buckets. set (f := λ (owner : Z) (a b : OW), _).
  assert (∀ i, Z.of_nat i < m → Forall (λ x, word_get x < n ∧ word_get x ≤ usize_max) (bucket offsets values i)) as Hb.
  { intros i _. apply Forall_forall. intros x Hx. rewrite Forall_forall in Hval. apply Hval. unfold bucket in Hx.
    apply elem_of_take in Hx as (j & Hj & _). rewrite lookup_drop in Hj. by eapply list_elem_of_lookup_2. }
  assert (∀ i a b, offsets !! i = Some a → offsets !! S i = Some b →
    f (Z.of_nat i) a b = check_bucket (mismatch (Z.of_nat i)) other_offsets other_values (Z.of_nat i) (bucket offsets values i) ∧ Z.of_nat i < m) as Hf.
  { intros i a b Ha Hbb. pose proof (offsets_len _ _ _ Hoff). pose proof (lookup_lt_Some _ _ _ Hbb). unfold zlen in *.
    split; [|lia]. unfold f. rewrite !bcsr_read by (by eapply offsets_fit). cbn [mbind res_bind]. f_equal.
    unfold bucket. rewrite (offset_at_Some _ _ _ Ha), (offset_at_Some _ _ _ Hbb), take_drop_commute.
    pose proof (offsets_mono _ _ _ Hoff _ _ _ Ha Hbb). pose proof (word_get_nonneg a). do 2 f_equal. lia. }
  assert (∀ i x, x ∈ bucket offsets values i → Z.of_nat (Z.to_nat (word_get x)) ∈ zrow offsets values i) as Hx.
  { intros i x Hx. rewrite Z2Nat.id by apply word_get_nonneg. unfold zrow, id_slice. by apply list_elem_of_fmap_2. }
  destruct (for_windows_cases f offsets 0 0 eq_refl) as [[Hr Hall]|(i & a & b & _ & Ha & Hbb & Hne & Hr)]; rewrite drop_0 in Hr; rewrite Hr.
  - left. split; [done|]. intros i v Hv. destruct (decide (Z.of_nat i < m)) as [Hi|Hi].
    2:{ rewrite (zrow_out _ _ _ Hoff) in Hv by lia. by apply not_elem_of_nil in Hv. }
    destruct (offsets_window _ _ _ Hoff i Hi) as (a & b & Ha & Hbb & _). specialize (Hall i a b ltac:(lia) Ha Hbb).
    destruct (Hf i a b Ha Hbb) as [Hfe _]. rewrite Hfe in Hall.
    destruct (check_bucket_cases (mismatch (Z.of_nat i)) (Z.of_nat i) (bucket offsets values i) (Hb i Hi)) as [[_ Hin]|(x & _ & _ & He)]; [|congruence].
    apply list_elem_of_fmap in Hv as (x & Hxv & Hxin). specialize (Hin x Hxin). by rewrite <-Hxv, Nat2Z.id in Hin.
  - right. destruct (Hf i a b Ha Hbb) as [Hfe Hi]. rewrite Hfe in Hne |- *.
    destruct (check_bucket_cases (mismatch (Z.of_nat i)) (Z.of_nat i) (bucket offsets values i) (Hb i Hi)) as [[He _]|(x & Hin & Hnot & He)]; [done|].
    exists i, (Z.to_nat (word_get x)). rewrite He. split_and!; [done|by apply Hx|done|]. by rewrite Z2Nat.id by apply word_get_nonneg.
Qed.

End cross.

End loops.

(** ** Well formed sections *)

Section wf.
Context `{!Target} {OW VW RW : Type} `{!LayoutWord OW, !LayoutWord VW, !LayoutWord RW}.
Implicit Type s : BcsrSections OW VW RW.

Definition vertices s : Z := zlen (vertex_outgoing_offsets s) - 1.
Definition hyperedges s : Z := zlen (head_offsets s) - 1.

(** Offsets that cut their values into ascending rows of ids below a bound. *)
Record RowsOk {O W} `{!LayoutWord O, !LayoutWord W} (offsets : list O) (values : list W) (n bound : Z) : Prop := {
  rows_offsets : OffsetsOk offsets n (zlen values);
  rows_bound : Forall (λ x, word_get x < bound ∧ word_get x ≤ usize_max) values;
  rows_asc : rows_ascending offsets values
}.

Record BcsrLayout s : Prop := {
  bl_vertices : 0 ≤ vertices s ∧ vertices s + 1 ≤ usize_max;
  bl_hyperedges : 0 ≤ hyperedges s ∧ hyperedges s + 1 ≤ usize_max;
  bl_head : RowsOk (head_offsets s) (head_participants s) (hyperedges s) (vertices s);
  bl_tail : RowsOk (tail_offsets s) (tail_participants s) (hyperedges s) (vertices s);
  bl_out : RowsOk (vertex_outgoing_offsets s) (vertex_outgoing_hyperedges s) (vertices s) (hyperedges s);
  bl_in : RowsOk (vertex_incoming_offsets s) (vertex_incoming_hyperedges s) (vertices s) (hyperedges s);
  bl_out_total : zlen (head_participants s) = zlen (vertex_outgoing_hyperedges s);
  bl_in_total : zlen (tail_participants s) = zlen (vertex_incoming_hyperedges s);
  bl_total : zlen (vertex_outgoing_hyperedges s) + zlen (vertex_incoming_hyperedges s) ≤ usize_max
}.

(** The rows of the view. *)
Definition heads s : nat → list Z := zrow (head_offsets s) (head_participants s).
Definition tails s : nat → list Z := zrow (tail_offsets s) (tail_participants s).
Definition outs s : nat → list Z := zrow (vertex_outgoing_offsets s) (vertex_outgoing_hyperedges s).
Definition ins s : nat → list Z := zrow (vertex_incoming_offsets s) (vertex_incoming_hyperedges s).

(** Both directions list the same incidences. *)
Definition BcsrCross s : Prop := ∀ h v : nat,
  (Z.of_nat v ∈ heads s h ↔ Z.of_nat h ∈ outs s v) ∧ (Z.of_nat v ∈ tails s h ↔ Z.of_nat h ∈ ins s v).

Definition BcsrOk s (level : BcsrValidation) : Prop :=
  BcsrLayout s ∧ match level with Layout => True | Strict => BcsrCross s end.

Definition bcsr_counts s : DerivedCounts := {|
  dc_vertex_count := vertices s; dc_hyperedge_count := hyperedges s;
  dc_p_outgoing := zlen (vertex_outgoing_hyperedges s); dc_p_incoming := zlen (vertex_incoming_hyperedges s);
  dc_total_incidences := zlen (vertex_outgoing_hyperedges s) + zlen (vertex_incoming_hyperedges s)
|}.

(** ** What an error says of the sections *)

Definition section_ids s (section : BcsrSection) : list Z :=
  match section with
  | HeadOffsets => id_slice (head_offsets s)
  | HeadParticipants => id_slice (head_participants s)
  | TailOffsets => id_slice (tail_offsets s)
  | TailParticipants => id_slice (tail_participants s)
  | VertexOutgoingOffsets => id_slice (vertex_outgoing_offsets s)
  | VertexOutgoingHyperedges => id_slice (vertex_outgoing_hyperedges s)
  | VertexIncomingOffsets => id_slice (vertex_incoming_offsets s)
  | VertexIncomingHyperedges => id_slice (vertex_incoming_hyperedges s)
  end.

(** The values an offset section cuts. *)
Definition cut_by (offsets : BcsrSection) : BcsrSection :=
  match offsets with
  | HeadOffsets => HeadParticipants
  | TailOffsets => TailParticipants
  | VertexOutgoingOffsets => VertexOutgoingHyperedges
  | VertexIncomingOffsets => VertexIncomingHyperedges
  | section => section
  end.

Definition bcsr_error_holds s (e : BcsrError) : Prop :=
  match e with
  | OffsetLengthOverflow c => ∃ sec, c = zlen (section_ids s sec) - 1 ∧ usize_max < c + 1
  | OffsetLength sec ex ac => ex = 1 ∧ ac = 0 ∧ section_ids s sec = []
  | HyperedgeOffsetLengthMismatch a b => a = zlen (head_offsets s) ∧ b = zlen (tail_offsets s) ∧ a ≠ b
  | VertexOffsetLengthMismatch a b =>
      a = zlen (vertex_outgoing_offsets s) ∧ b = zlen (vertex_incoming_offsets s) ∧ a ≠ b
  | FirstOffset sec a => section_ids s sec !! 0%nat = Some a ∧ a ≠ 0
  | NonMonotonicOffset sec i p a => ∃ j, i = S j ∧ section_ids s sec !! j = Some p ∧ section_ids s sec !! i = Some a ∧ a < p
  | FinalOffset sec f len => last (section_ids s sec) = Some f ∧ len = zlen (section_ids s (cut_by sec)) ∧ f ≠ len
  | VertexOutOfRange sec i v n => section_ids s sec !! i = Some v ∧ n = vertices s ∧ n ≤ v
  | HyperedgeOutOfRange sec i h m => section_ids s sec !! i = Some h ∧ m = hyperedges s ∧ m ≤ h
  | OutgoingTotalMismatch a b => a = zlen (head_participants s) ∧ b = zlen (vertex_outgoing_hyperedges s) ∧ a ≠ b
  | IncomingTotalMismatch a b => a = zlen (tail_participants s) ∧ b = zlen (vertex_incoming_hyperedges s) ∧ a ≠ b
  | NotStrictlyAscending sec i p a => ∃ offsets k lo hi j, cut_by offsets = sec ∧ i = S j ∧
      section_ids s offsets !! k = Some lo ∧ section_ids s offsets !! S k = Some hi ∧ lo ≤ Z.of_nat j ∧ Z.of_nat i < hi ∧
      section_ids s sec !! j = Some p ∧ section_ids s sec !! i = Some a ∧ a ≤ p
  | BcsrUsizeOverflow v => v = usize_max ∧ ∃ sec x, x ∈ section_ids s sec ∧ usize_max < x
  | TotalIncidenceCountOverflow a b =>
      a = zlen (vertex_outgoing_hyperedges s) ∧ b = zlen (vertex_incoming_hyperedges s) ∧ usize_max < a + b
  | CrossDirectionMismatch side h v =>
      let '(edges, vertices) := match side with Outgoing => (heads s, outs s) | Incoming => (tails s, ins s) end in
      ¬ (v ∈ edges (Z.to_nat h) ↔ h ∈ vertices (Z.to_nat v))
  end.

(** The outcome of a check: it passes and [P] holds, or it reports a true fault and [P] does not. *)
Definition decides s {A} (m : res BcsrError A) (a : A) (P : Prop) : Prop :=
  (m = Ok a ∧ P) ∨ (∃ e, m = Err e ∧ bcsr_error_holds s e ∧ ¬ P).

Lemma decides_bind s {A B} (m : res BcsrError A) a (P Q : Prop) (f : A → res BcsrError B) b :
  decides s m a P → (P → decides s (f a) b Q) → decides s (m ≫= f) b (P ∧ Q).
Proof.
  intros [[-> HP]|(e & -> & He & HP)] Hf; [|right; exists e; split_and!; [done|done|tauto]].
  destruct (Hf HP) as [[Hr HQ]|(e & Hr & He & HQ)]; [left|right; exists e]; rewrite bind_Ok; tauto.
Qed.

Lemma decides_iff s {A} (m : res BcsrError A) a (P Q : Prop) : decides s m a P → (P ↔ Q) → decides s m a Q.
Proof. intros [[-> HP]|(e & -> & He & HP)] HQ; [left|right; exists e]; tauto. Qed.

Lemma ids_lookup {W} `{!LayoutWord W} (l : list W) i x : l !! i = Some x → id_slice l !! i = Some (word_get x).
Proof. intros Hx. unfold id_slice. by rewrite list_lookup_fmap, Hx. Qed.

Lemma reported_overflow {W} `{!LayoutWord W} (l : list W) i x :
  l !! i = Some x → usize_max < word_get x → reported_value l i = usize_max.
Proof. intros Hx Hlt. unfold reported_value. rewrite Hx. cbn. by rewrite (proj2 (read_as_usize_None x) Hlt). Qed.

Lemma offsets_decides {O W} `{!LayoutWord O, !LayoutWord W} s (offsets : list O) (values : list W) section :
  section_ids s section = id_slice offsets → section_ids s (cut_by section) = id_slice values → 0 ≤ zlen offsets - 1 →
  decides s (validate_one_offsets offsets section (zlen offsets - 1) (zlen values)) ()
    (zlen offsets ≤ usize_max ∧ OffsetsOk offsets (zlen offsets - 1) (zlen values)).
Proof.
  intros Hs Hv Hn. unfold validate_one_offsets. case_bool_decide as Hadd.
  { apply try_into_None in Hadd. right. eexists. split; [done|]. split; [|lia]. exists section. rewrite Hs. unfold id_slice, zlen in *.
    rewrite length_fmap. lia. }
  destruct (checked_add _ _ _) eqn:Ha; [|done]. apply checked_add_Some in Ha as [Ha _].
  destruct (offset_validation_cases offsets (zlen offsets - 1) (zlen values) Hn) as [(-> & _ & Hok)|(issue & -> & Hi & Hnot)]; cbn [map_err].
  { left. split; [done|]. split; [lia|done]. }
  right. eexists. split; [done|]. split; [|intros [? ?]; apply Hnot; split; [lia|done]].
  destruct issue as [ex ac|c|a|i p a|f len|i v b|i]; cbn [issue_holds] in Hi; cbn [bcsr_map_offsets_issue bcsr_error_holds]; rewrite ?Hs, ?Hv.
  - lia.
  - lia.
  - destruct Hi as (x & Hx & -> & Hne). split; [by apply ids_lookup|done].
  - destruct Hi as (j & x & y & -> & Hx & Hy & -> & -> & Hlt). exists j. split_and!; [done|by apply ids_lookup|by apply ids_lookup|done].
  - destruct Hi as (x & Hx & -> & -> & Hne). split_and!; [|unfold zlen, id_slice; by rewrite length_fmap|done].
    rewrite last_lookup. unfold id_slice. rewrite length_fmap, list_lookup_fmap, Nat.sub_1_r in *. by rewrite Hx.
  - done.
  - destruct Hi as (x & Hx & Hlt). rewrite (reported_overflow _ _ _ Hx Hlt). split; [done|]. exists section, (word_get x).
    split; [|done]. rewrite Hs. apply list_elem_of_fmap_2. by eapply list_elem_of_lookup_2.
Qed.

Lemma values_decides {W} `{!LayoutWord W} s (values : list W) section bound (on_range : BcsrSection → nat → Z → Z → BcsrError)
    (map_issue : BcsrSection → list W → OffsetIntegrityIssue → BcsrError) :
  section_ids s section = id_slice values →
  (∀ i x, map_issue section values (ValueOutOfRange i x bound) = on_range section i x bound) →
  (∀ i, map_issue section values (UsizeOverflow i) = BcsrUsizeOverflow (reported_value values i)) →
  (∀ i x, id_slice values !! i = Some x → bound ≤ x → bcsr_error_holds s (on_range section i x bound)) →
  decides s (map_err (map_issue section values) (check_value_range values bound)) ()
    (Forall (λ x, word_get x < bound ∧ word_get x ≤ usize_max) values).
Proof.
  intros Hs Hm1 Hm2 Hon. destruct (check_values_from_cases [] values bound) as [Hv|(issue & i & x & Hv & Hx & Hi)];
    unfold check_value_range; cbn [length app] in *; rewrite Hv; cbn [map_err].
  - left. split; [done|]. by apply check_values_from_Ok in Hv.
  - right. eexists. split; [done|]. split.
    + destruct Hi as [[-> Hlt]|[-> Hle]].
      * rewrite Hm2, (reported_overflow _ _ _ Hx Hlt). split; [done|]. exists section, (word_get x). split; [|done].
        rewrite Hs. apply list_elem_of_fmap_2. by eapply list_elem_of_lookup_2.
      * rewrite Hm1. apply Hon; [by apply ids_lookup|done].
    + intros Hall. pose proof (Forall_lookup_1 _ _ _ _ Hall Hx) as Hb. cbn in Hb. destruct Hi as [[_ ?]|[_ ?]]; lia.
Qed.

Lemma ascending_decides {O W} `{!LayoutWord O, !LayoutWord W} s (offsets : list O) (values : list W) section n :
  section_ids s section = id_slice offsets → section_ids s (cut_by section) = id_slice values →
  OffsetsOk offsets n (zlen values) → Forall (λ x, word_get x ≤ usize_max) values →
  decides s (check_strictly_ascending_buckets offsets values (cut_by section)) () (rows_ascending offsets values).
Proof.
  intros Hs Hv Hok Hfit. destruct (ascending_buckets_cases values (cut_by section) Hfit offsets n Hok)
    as [[-> Hr]|(i & lo & hi & j & x & y & Hlo & Hhi & H1 & H2 & Hx & Hy & Hle & ->)]; [by left|right].
  eexists. split; [done|]. split.
  - exists section, i, (word_get lo), (word_get hi), j. rewrite Hs, Hv. split_and!; (done || by apply ids_lookup).
  - intros Hr. specialize (Hr i lo hi Hlo Hhi j x y H1 H2 Hx Hy). lia.
Qed.

Lemma walk_decides {O W W'} `{!LayoutWord O, !LayoutWord W, !LayoutWord W'} s (mismatch : Z → Z → BcsrError)
    (offsets other_offsets : list O) (values : list W) (other_values : list W') n m :
  RowsOk offsets values m n → RowsOk other_offsets other_values n m →
  (∀ i v : nat, Z.of_nat v ∈ zrow offsets values i → Z.of_nat i ∉ zrow other_offsets other_values v →
    bcsr_error_holds s (mismatch (Z.of_nat i) (Z.of_nat v))) →
  decides s (walk_buckets mismatch values other_offsets other_values offsets) ()
    (∀ i v : nat, Z.of_nat v ∈ zrow offsets values i → Z.of_nat i ∈ zrow other_offsets other_values v).
Proof.
  intros [Ho Hb _] [Ho' Hb' Ha'] Hm.
  assert (Forall (λ x, word_get x ≤ usize_max) other_values) as Hfit by (eapply Forall_impl; [exact Hb'|]; naive_solver).
  destruct (walk_buckets_cases other_offsets other_values n Ho' Ha' Hfit mismatch offsets values m Ho Hb)
    as [[-> Hall]|(i & v & _ & Hin & Hnot & ->)]; [by left|right]. eexists. split; [done|]. split; [by apply Hm|]. naive_solver.
Qed.

Definition lengths_ok s : Prop :=
  zlen (head_offsets s) = zlen (tail_offsets s) ∧ zlen (vertex_outgoing_offsets s) = zlen (vertex_incoming_offsets s) ∧
  0 ≤ hyperedges s ∧ 0 ≤ vertices s ∧
  zlen (vertex_outgoing_hyperedges s) + zlen (vertex_incoming_hyperedges s) ≤ usize_max.

Lemma count_decides s (l : list OW) section :
  section_ids s section = id_slice l →
  decides s (derive_count_from_offsets (zlen l) section) (zlen l - 1) (0 ≤ zlen l - 1).
Proof.
  intros Hs. unfold derive_count_from_offsets. pose proof (zlen_nonneg l). case_decide as Hz.
  - right. eexists. split; [done|]. split; [|lia]. split_and!; [done..|]. rewrite Hs.
    destruct l; [done|]. unfold zlen in Hz. cbn in Hz. lia.
  - left. split; [done|lia].
Qed.

Lemma counts_decides s : decides s (derive_counts s) (bcsr_counts s) (lengths_ok s).
Proof.
  unfold derive_counts, lengths_ok. case_decide as H1; [right; eexists; split; [done|]; split; [done|tauto]|].
  case_decide as H2; [right; eexists; split; [done|]; split; [done|tauto]|].
  eapply decides_iff; [eapply decides_bind|].
  - by apply (count_decides s (head_offsets s) HeadOffsets).
  - intros Hm. eapply decides_bind; [by apply (count_decides s (vertex_outgoing_offsets s) VertexOutgoingOffsets)|]. intros Hn.
    destruct (checked_add _ _ _) as [t|] eqn:Ht.
    + apply checked_add_Some in Ht as [Ht ->]. left. split; [done|exact Ht].
    + apply try_into_None in Ht. right. eexists. split; [done|]. split; [split_and!; (done || lia)|]. lia.
  - unfold hyperedges, vertices. tauto.
Qed.

Lemma totals_decides s : decides s (validate_total_lengths s) ()
  (zlen (head_participants s) = zlen (vertex_outgoing_hyperedges s) ∧ zlen (tail_participants s) = zlen (vertex_incoming_hyperedges s)).
Proof.
  unfold validate_total_lengths. case_decide as H1; [right; eexists; split; [done|]; split; [done|tauto]|].
  case_decide as H2; [right; eexists; split; [done|]; split; [done|tauto]|]. by left.
Qed.

Definition offsets_ok s : Prop :=
  (zlen (head_offsets s) ≤ usize_max ∧ OffsetsOk (head_offsets s) (hyperedges s) (zlen (head_participants s))) ∧
  (zlen (tail_offsets s) ≤ usize_max ∧ OffsetsOk (tail_offsets s) (hyperedges s) (zlen (tail_participants s))) ∧
  (zlen (vertex_outgoing_offsets s) ≤ usize_max ∧
   OffsetsOk (vertex_outgoing_offsets s) (vertices s) (zlen (vertex_outgoing_hyperedges s))) ∧
  (zlen (vertex_incoming_offsets s) ≤ usize_max ∧
   OffsetsOk (vertex_incoming_offsets s) (vertices s) (zlen (vertex_incoming_hyperedges s))).

Lemma all_offsets_decides s : lengths_ok s → decides s (validate_all_offsets s (bcsr_counts s)) () (offsets_ok s).
Proof.
  intros (Ht & Hi & Hm & Hn & _). unfold validate_all_offsets, bcsr_counts, offsets_ok. cbn [dc_vertex_count dc_hyperedge_count].
  unfold hyperedges, vertices in *.
  eapply decides_bind; [by apply (offsets_decides s _ (head_participants s))|intros _].
  eapply decides_bind; [rewrite Ht in Hm |- *; by apply (offsets_decides s _ (tail_participants s))|intros _].
  eapply decides_bind; [by apply (offsets_decides s _ (vertex_outgoing_hyperedges s))|intros _].
  rewrite Hi in Hn |- *. by apply (offsets_decides s _ (vertex_incoming_hyperedges s)).
Qed.

Definition below {W} `{!LayoutWord W} (bound : Z) (values : list W) : Prop :=
  Forall (λ x, word_get x < bound ∧ word_get x ≤ usize_max) values.

Lemma ranges_decides s : decides s (validate_value_ranges s (bcsr_counts s)) ()
  (below (vertices s) (head_participants s) ∧ below (vertices s) (tail_participants s) ∧
   below (hyperedges s) (vertex_outgoing_hyperedges s) ∧ below (hyperedges s) (vertex_incoming_hyperedges s)).
Proof.
  unfold validate_value_ranges, bcsr_counts, check_vertex_values, check_hyperedge_values, below. cbn [dc_vertex_count dc_hyperedge_count].
  repeat (eapply decides_bind; [|intros _]).
  - by apply (values_decides s _ HeadParticipants _ VertexOutOfRange).
  - by apply (values_decides s _ TailParticipants _ VertexOutOfRange).
  - by apply (values_decides s _ VertexOutgoingHyperedges _ HyperedgeOutOfRange).
  - by apply (values_decides s _ VertexIncomingHyperedges _ HyperedgeOutOfRange).
Qed.

Lemma below_fits {W} `{!LayoutWord W} bound (values : list W) : below bound values → Forall (λ x, word_get x ≤ usize_max) values.
Proof. intros Hb. eapply Forall_impl; [exact Hb|]. by intros x [_ ?]. Qed.

Lemma sorted_decides s : offsets_ok s →
  (below (vertices s) (head_participants s) ∧ below (vertices s) (tail_participants s) ∧
   below (hyperedges s) (vertex_outgoing_hyperedges s) ∧ below (hyperedges s) (vertex_incoming_hyperedges s)) →
  decides s (validate_within_range_sorted s) ()
    (rows_ascending (head_offsets s) (head_participants s) ∧ rows_ascending (tail_offsets s) (tail_participants s) ∧
     rows_ascending (vertex_outgoing_offsets s) (vertex_outgoing_hyperedges s) ∧
     rows_ascending (vertex_incoming_offsets s) (vertex_incoming_hyperedges s)).
Proof.
  intros ([_ H1] & [_ H2] & [_ H3] & [_ H4]) (B1 & B2 & B3 & B4). unfold validate_within_range_sorted.
  repeat (eapply decides_bind; [|intros _]).
  - by eapply (ascending_decides s _ _ HeadOffsets); [..|eapply below_fits].
  - by eapply (ascending_decides s _ _ TailOffsets); [..|eapply below_fits].
  - by eapply (ascending_decides s _ _ VertexOutgoingOffsets); [..|eapply below_fits].
  - by eapply (ascending_decides s _ _ VertexIncomingOffsets); [..|eapply below_fits].
Qed.

Lemma cross_decides s : BcsrLayout s → decides s (validate_cross_direction s) () (BcsrCross s).
Proof.
  intros [_ _ Hh Ht Ho Hi _ _ _]. unfold validate_cross_direction, cross_direction_walk, converse_direction_walk.
  eapply decides_iff; [repeat (eapply decides_bind; [|intros _])|].
  - eapply walk_decides; [exact Hh|exact Ho|]. intros i v Hin Hnot. cbn. rewrite !Nat2Z.id. unfold heads, outs. tauto.
  - eapply walk_decides; [exact Ht|exact Hi|]. intros i v Hin Hnot. cbn. rewrite !Nat2Z.id. unfold tails, ins. tauto.
  - eapply walk_decides; [exact Ho|exact Hh|]. intros i v Hin Hnot. cbn. rewrite !Nat2Z.id. unfold heads, outs. tauto.
  - eapply walk_decides; [exact Hi|exact Ht|]. intros i v Hin Hnot. cbn. rewrite !Nat2Z.id. unfold tails, ins. tauto.
  - unfold BcsrCross, heads, tails, outs, ins. split; [intros (H1 & H2 & H3 & H4) h v; split; split; auto|].
    intros Hc. split_and!; intros i v; [apply (Hc i v)|apply (Hc i v)|apply (Hc v i)|apply (Hc v i)].
Qed.

Lemma validate_decides s level : decides s (validate_sections s level) (bcsr_counts s) (BcsrOk s level).
Proof.
  unfold validate_sections. eapply decides_iff; [eapply decides_bind; [apply counts_decides|intros Hl]|].
  - eapply decides_bind; [by apply all_offsets_decides|intros Ho].
    eapply decides_bind; [apply totals_decides|intros Ht].
    eapply decides_bind; [apply ranges_decides|intros Hr].
    eapply decides_bind; [by apply sorted_decides|intros Hs].
    eapply (decides_bind _ _ () (BcsrOk s level) True); [|by intros _; left].
    assert (BcsrLayout s) as Hlay.
    { destruct Ho as ([? ?] & [? ?] & [? ?] & [? ?]), Hl as (? & ? & ? & ? & ?), Ht, Hr as (? & ? & ? & ?), Hs as (? & ? & ? & ?).
      split; unfold vertices, hyperedges in *; try lia; by split. }
    destruct level; [by left; split; [|split]|]. eapply decides_iff; [by apply cross_decides|]. unfold BcsrOk. tauto.
  - split; [intros (_ & _ & _ & _ & _ & ? & _); done|]. intros [Hlay Hx]. pose proof Hlay as [Hv He [] [] [] [] Ho Hi Ht].
    unfold lengths_ok, offsets_ok, below. unfold vertices, hyperedges in *.
    pose proof (offsets_len _ _ _ rows_offsets0). pose proof (offsets_len _ _ _ rows_offsets1).
    pose proof (offsets_len _ _ _ rows_offsets2). pose proof (offsets_len _ _ _ rows_offsets3).
    split_and!; (done || lia).
Qed.

(** C11. Validation of hypergraph sections never panics on any arrays. It accepts
    exactly the well formed sections at the requested level, with the counts of
    the view, and otherwise names a fault that is there: the section, the
    position and the values at fault. *)
Theorem bcsr_validate_exact s level :
  (validate_sections s level = Ok (bcsr_counts s) ∧ BcsrOk s level) ∨
  (∃ e, validate_sections s level = Err e ∧ bcsr_error_holds s e ∧ ¬ BcsrOk s level).
Proof. apply validate_decides. Qed.

End wf.

(** ** Iterators over a contained id *)

Section iterators.
Context `{!Target} {OW VW RW : Type} `{!LayoutWord OW, !LayoutWord VW, !LayoutWord RW}.

Lemma participants_step {E} fuel it :
  participants_collect (OW:=OW) (E:=E) (S fuel) it =
    ('(o, it) ← participant_next (OW:=OW) it;
     match o with None => Ok [] | Some id => rest ← participants_collect (OW:=OW) fuel it; Ok (id :: rest) end).
Proof. done. Qed.

(** Draining a participant slice whose ids fit: the ids in order. *)
Lemma participants_Ok {E} base a n :
  0 ≤ base → 0 ≤ a → base + a + Z.of_nat n ≤ usize_max →
  (∀ i, base + a ≤ i < base + a + Z.of_nat n → fits (word_width OW) i) →
  participants_collect (OW:=OW) (E:=E) (S n) {| ps_cursor := a; ps_end := a + Z.of_nat n; ps_base := base |} =
    Ok (seqZ (base + a) (Z.of_nat n)).
Proof.
  intros Hb. revert a. induction n as [|n IH]; intros a Ha Hmax Hfit; rewrite participants_step; unfold participant_next;
    cbn [ps_cursor ps_end ps_base].
  - by rewrite decide_True by lia.
  - rewrite decide_False by lia. assert (checked_add usize_max base a = Some (base + a)) as ->.
    { apply checked_add_Some. lia. }
    unfold slot_id. assert (from_usize (word_width OW) (base + a) = Some (base + a)) as ->.
    { apply from_usize_Some; [lia|]. split; [done|apply Hfit; lia]. }
    cbn [or_panic mbind res_bind]. replace (a + Z.of_nat (S n)) with (a + 1 + Z.of_nat n) by lia.
    rewrite IH; [|lia|lia|intros i Hi; apply Hfit; lia]. cbn [mbind res_bind]. rewrite (seqZ_cons (base + a)) by lia.
    f_equal. f_equal. f_equal; lia.
Qed.

(** An id past the index type panics the iterator. *)
Lemma participants_panic {E} base a n :
  0 ≤ base → 0 ≤ a → base + a + Z.of_nat n ≤ usize_max → ¬ (∀ i, base + a ≤ i < base + a + Z.of_nat n → fits (word_width OW) i) →
  participants_collect (OW:=OW) (E:=E) (S n) {| ps_cursor := a; ps_end := a + Z.of_nat n; ps_base := base |} = Panic.
Proof.
  intros Hb. revert a. induction n as [|n IH]; intros a Ha Hmax Hfit; rewrite participants_step; unfold participant_next;
    cbn [ps_cursor ps_end ps_base].
  - destruct Hfit. lia.
  - rewrite decide_False by lia. assert (checked_add usize_max base a = Some (base + a)) as ->.
    { apply checked_add_Some. lia. }
    unfold slot_id. destruct (from_usize (word_width OW) (base + a)) as [id|] eqn:Hid; [|done].
    apply from_usize_Some in Hid as [-> Hf]; [|lia]. cbn [or_panic mbind res_bind].
    replace (a + Z.of_nat (S n)) with (a + 1 + Z.of_nat n) by lia. rewrite IH; [done|lia|lia|].
    intros Hall. apply Hfit. intros i Hi. destruct (decide (i = base + a)) as [->|]; [done|]. apply Hall. lia.
Qed.

(** Draining the slice of a row. *)
Lemma participants_run_Ok {E A} base a (l : list A) :
  0 ≤ base → 0 ≤ a → base + a + zlen l ≤ usize_max →
  (∀ i, base + a ≤ i < base + a + zlen l → fits (word_width OW) i) →
  participants_run (OW:=OW) (E:=E) {| ps_cursor := a; ps_end := a + zlen l; ps_base := base |} = Ok (seqZ (base + a) (zlen l)).
Proof.
  unfold participants_run, zlen. cbn [ps_cursor ps_end]. rewrite Z.add_simpl_l, Nat2Z.id. apply participants_Ok.
Qed.

Lemma participants_run_panic {E A} base a (l : list A) :
  0 ≤ base → 0 ≤ a → base + a + zlen l ≤ usize_max →
  ¬ (∀ i, base + a ≤ i < base + a + zlen l → fits (word_width OW) i) →
  participants_run (OW:=OW) (E:=E) {| ps_cursor := a; ps_end := a + zlen l; ps_base := base |} = Panic.
Proof.
  unfold participants_run, zlen. cbn [ps_cursor ps_end]. rewrite Z.add_simpl_l, Nat2Z.id. apply participants_panic.
Qed.

(** The neighbours: the buckets of the relations in order. *)
Lemma neighbors_Ok {E} (offsets : list OW) (participants : list VW) n :
  OffsetsOk offsets n (zlen participants) → ∀ (relations : list RW) (b : list VW) fuel,
  Forall (λ h, word_get h < n ∧ word_get h ≤ usize_max) relations →
  (length relations * length participants + length b < fuel)%nat →
  neighbors_collect (E:=E) fuel offsets participants {| nv_relations := relations; nv_bucket := b |} =
    Ok (id_slice b ++ (h ← relations; zrow offsets participants (Z.to_nat (word_get h)))).
Proof.
  intros Hok relations. induction relations as [|h relations IH]; intros b; induction b as [|w b IHb]; intros fuel Hr Hf;
    (destruct fuel as [|fuel]; [lia|]); cbn [neighbors_collect nv_relations nv_bucket neighbor_next].
  - done.
  - cbn [mbind res_bind]. rewrite IHb by (done || (cbn in *; lia)). done.
  - apply Forall_cons in Hr as [[Hh Hhu] Hr]. unfold slot_of. pose proof (word_get_nonneg h).
    assert (read_as_usize h = Some (word_get h)) as -> by by apply read_as_usize_Some. cbn [or_panic mbind res_bind].
    set (i := Z.to_nat (word_get h)). replace (word_get h) with (Z.of_nat i) by lia.
    rewrite (vertex_bucket_Ok _ _ _ Hok i) by lia. cbn [mbind res_bind].
    assert (length (bucket offsets participants i) ≤ length participants)%nat as Hlen.
    { unfold bucket. rewrite length_take, length_drop. lia. }
    rewrite bind_cons. apply (IH (bucket offsets participants i) (S fuel) Hr). cbn in Hf. lia.
  - cbn [mbind res_bind]. rewrite IHb by (done || (cbn in *; lia)). done.
Qed.

(** The search for the owning bucket. *)
Lemma locate_between_Ok {E} (offsets : list OW) n len target fuel low high :
  OffsetsOk offsets n len → 0 ≤ target →
  (high - low ≤ fuel)%nat → (low < high)%nat → Z.of_nat high ≤ n →
  offset_at offsets low ≤ target → target < offset_at offsets high →
  ∃ b : nat, locate_between (E:=E) fuel offsets target (Z.of_nat low) (Z.of_nat high) = Ok (Z.of_nat b) ∧
    (low ≤ b < high)%nat ∧ offset_at offsets b ≤ target < offset_at offsets (S b).
Proof.
  intros Hok Ht. revert low high. induction fuel as [|fuel IH]; intros low high Hf Hlt Hn Hlo Hhi; [lia|].
  cbn [locate_between]. case_decide as Hd.
  2:{ exists low. split_and!; [done|lia|lia|done|]. by replace (S low) with high by lia. }
  set (mid := (low + (high - low) / 2)%nat).
  assert (Z.of_nat low + (Z.of_nat high - Z.of_nat low) / 2 = Z.of_nat mid) as ->.
  { unfold mid. rewrite Nat2Z.inj_add, Nat2Z.inj_div, Nat2Z.inj_sub by lia. done. }
  assert (low < mid < high)%nat as Hmid.
  { unfold mid. pose proof (Nat.div_lt (high - low) 2). assert (0 < (high - low) / 2)%nat by (apply Nat.div_str_pos; lia). lia. }
  destruct (offsets_lookup _ _ _ mid Hok) as [w Hw]; [lia|].
  unfold vget, slot_of. rewrite Nat2Z.id, Hw. cbn [or_panic mbind res_bind].
  assert (read_as_usize w = Some (word_get w)) as -> by (apply read_as_usize_Some; split; [done|by eapply offsets_fit]).
  cbn [or_panic mbind res_bind]. rewrite <-(offset_at_Some _ _ _ Hw). case_decide as Hv.
  - destruct (IH mid high) as (b & -> & Hb & Ho); [lia|lia|lia|done|done|]. exists b. split_and!; (done || lia).
  - destruct (IH low mid) as (b & -> & Hb & Ho); [lia|lia|lia|done|lia|]. exists b. split_and!; (done || lia).
Qed.

Lemma offset_at_mono (offsets : list OW) n len i j :
  OffsetsOk offsets n len → (i ≤ j)%nat → Z.of_nat j ≤ n → offset_at offsets i ≤ offset_at offsets j.
Proof.
  intros Hok Hij Hj. destruct (offsets_lookup _ _ _ i Hok) as [x Hx]; [lia|]. destruct (offsets_lookup _ _ _ j Hok) as [y Hy]; [lia|].
  rewrite (offset_at_Some _ _ _ Hx), (offset_at_Some _ _ _ Hy). by eapply offsets_le.
Qed.

Lemma offset_at_ends (offsets : list OW) n len :
  0 ≤ n → OffsetsOk offsets n len → offset_at offsets 0 = 0 ∧ offset_at offsets (Z.to_nat n) = len.
Proof.
  intros Hn Hok. pose proof (offsets_len _ _ _ Hok) as Hlen. unfold zlen in Hlen.
  destruct (offsets_lookup _ _ _ 0 Hok) as [x Hx]; [lia|]. destruct (offsets_lookup _ _ _ (Z.to_nat n) Hok) as [y Hy]; [lia|].
  rewrite (offset_at_Some _ _ _ Hx), (offset_at_Some _ _ _ Hy). split; [by eapply offsets_first|].
  eapply offsets_last; [done|]. by replace (length offsets - 1)%nat with (Z.to_nat n) by lia.
Qed.

Lemma locate_owning_bucket_Ok {E} (offsets : list OW) (values : list VW) n i j x :
  OffsetsOk offsets n (zlen values) → 0 ≤ n → (∀ h, 0 ≤ h < n → fits (word_width RW) h) → n ≤ usize_max → Z.of_nat i < n →
  bucket offsets values i !! j = Some x →
  locate_owning_bucket (RW:=RW) (E:=E) offsets (offset_at offsets i + Z.of_nat j) = Ok (Z.of_nat i).
Proof.
  intros Hok Hn Hfit Hmax Hi [Hj Hx]%(lookup_bucket offsets values n Hok i j x Hi).
  pose proof (offsets_len _ _ _ Hok) as Hlen. unfold zlen in Hlen. destruct (offset_at_ends offsets n _ Hn Hok) as [H0 Hend].
  destruct (bucket_range_Ok (E:=E) offsets values n Hok i Hi) as (_ & Hr1 & Hr2).
  unfold locate_owning_bucket. replace (zlen offsets - 1) with (Z.of_nat (Z.to_nat n)) by (unfold zlen; lia).
  destruct (locate_between_Ok (E:=E) offsets n (zlen values) (offset_at offsets i + Z.of_nat j) (length offsets) 0 (Z.to_nat n))
    as (b & He & Hb & Ho); [done|lia|lia|lia|lia|lia|lia|].
  change (Z.of_nat 0) with 0 in He. rewrite He. cbn [mbind res_bind]. assert (b = i) as ->.
  { destruct (decide (b < i)%nat) as [Hlt|Hge].
    - pose proof (offset_at_mono offsets n _ (S b) i Hok ltac:(lia) ltac:(lia)). lia.
    - destruct (decide (i < b)%nat) as [Hlt|]; [|lia].
      pose proof (offset_at_mono offsets n _ (S i) b Hok ltac:(lia) ltac:(lia)). lia. }
  unfold slot_id. assert (from_usize (word_width RW) (Z.of_nat i) = Some (Z.of_nat i)) as ->; [|done].
  apply from_usize_Some; [lia|]. split; [done|apply Hfit; lia].
Qed.

End iterators.

(** ** The incidences of a vertex *)

Section located.
Context `{!Target} {OW VW RW : Type} `{!LayoutWord OW, !LayoutWord VW, !LayoutWord RW}.

(** The position of a vertex in the bucket of a hyperedge. *)
Definition located (offsets : list OW) (participants : list VW) (vertex : Z) (i : nat) : option Z :=
  (λ p : nat * VW, offset_at offsets i + Z.of_nat p.1) <$> list_find (λ x, word_get x = vertex) (bucket offsets participants i).

Section bucket.
Context (offsets : list OW) (participants : list VW) (n bound : Z).
Hypothesis Hok : RowsOk offsets participants n bound.
Hypothesis Hlen : zlen participants ≤ usize_max.

Lemma located_Some vertex i j x : Z.of_nat i < n →
  bucket offsets participants i !! j = Some x → word_get x = vertex →
  located offsets participants vertex i = Some (offset_at offsets i + Z.of_nat j).
Proof using Hok.
  intros Hi Hx Hv. unfold located. pose proof (zrow_ascending _ _ _ (rows_offsets _ _ _ _ Hok) i (rows_asc _ _ _ _ Hok) Hi) as Hasc.
  assert (list_find (λ x, word_get x = vertex) (bucket offsets participants i) = Some (j, x)) as ->; [|done].
  apply list_find_Some. split_and!; [done|done|]. intros k y Hy Hk Hyv. specialize (Hasc k j y x Hk Hy Hx). lia.
Qed.

Lemma located_None vertex i : vertex ∉ zrow offsets participants i → located offsets participants vertex i = None.
Proof using Type.
  intros Hn. unfold located. assert (list_find (λ x, word_get x = vertex) (bucket offsets participants i) = None) as ->; [|done].
  apply list_find_None, Forall_forall. intros x Hx Hv. apply Hn. rewrite <-Hv. unfold zrow, id_slice. by apply list_elem_of_fmap_2.
Qed.

Lemma locate_in_bucket_Ok vertex i : Z.of_nat i < n →
  locate_in_bucket offsets participants (Z.of_nat i) vertex = Ok (located offsets participants vertex i).
Proof using Hok Hlen.
  intros Hi. destruct Hok as [Hoff Hb Hasc]. unfold locate_in_bucket.
  destruct (bucket_range_Ok (E:=BcsrError) _ _ _ Hoff i Hi) as (-> & H1 & H2). cbn [mbind res_bind].
  rewrite (vslice_bucket _ _ _ Hoff i Hi). cbn [mbind res_bind].
  assert (Forall (λ x, word_get x ≤ usize_max) participants) as Hfit by (eapply Forall_impl; [exact Hb|]; by intros ? [_ ?]).
  rewrite search_bucket by by apply bucket_fits.
  destruct (binary_search_by_spec (E:=BcsrError) word_get vertex (bucket offsets participants i)) as [(k & x & -> & Hx & Hn)|(p & -> & Hn)];
    [by eapply zrow_ascending| |]; cbn [mbind res_bind]; f_equal.
  - rewrite (located_Some vertex i k x Hi Hx Hn). apply checked_add_Some.
    apply (lookup_bucket _ _ _ Hoff i k x Hi) in Hx as [? _]. lia.
  - rewrite located_None; [done|]. unfold zrow, id_slice. intros (x & Hxv & Hx)%list_elem_of_fmap.
    apply list_elem_of_lookup in Hx as [k Hx]. by apply (Hn k x).
Qed.

(** What is listed for the hyperedges of a list. *)
Definition listed (vertex base : Z) (hs : list RW) : list Z :=
  omap (λ h, Z.add base <$> located offsets participants vertex (Z.to_nat (word_get h))) hs.

Lemma pull_Ok s vertex base hs :
  0 ≤ base → base + zlen participants ≤ usize_max →
  (∀ i, base ≤ i < base + zlen participants → fits (word_width OW) i) →
  Forall (λ h, word_get h < n ∧ word_get h ≤ usize_max) hs →
  match listed vertex base hs with
  | [] => pull s offsets participants vertex base hs = Ok (None, [])
  | id :: rest => ∃ hs', pull s offsets participants vertex base hs = Ok (Some id, hs') ∧
      listed vertex base hs' = rest ∧ ∃ h pre, hs = h :: pre ++ hs'
  end.
Proof using Hok Hlen.
  intros Hbase Hmax Hfit Hhs. induction hs as [|h hs IH]; cbn [listed omap list_omap pull]; [done|].
  apply Forall_cons in Hhs as [[Hh Hhu] Hhs]. specialize (IH Hhs). pose proof (word_get_nonneg h).
  unfold slot_of. assert (read_as_usize h = Some (word_get h)) as -> by by apply read_as_usize_Some. cbn [or_panic mbind res_bind].
  assert (locate_in_bucket offsets participants (word_get h) vertex =
    Ok (located offsets participants vertex (Z.to_nat (word_get h)))) as ->.
  { rewrite <-locate_in_bucket_Ok by lia. by rewrite Z2Nat.id by lia. }
  cbn [mbind res_bind].
  destruct (located offsets participants vertex (Z.to_nat (word_get h))) as [p|] eqn:Hp; cbn [fmap option_fmap option_map].
  2:{ change (omap _ hs) with (listed vertex base hs). destruct (listed vertex base hs) as [|id rest]; [exact IH|].
      destruct IH as (hs' & Hp' & Hr & h' & pre & ->). exists hs'. split_and!; [exact Hp'|done|]. by exists h, (h' :: pre). }
  assert (0 ≤ p < zlen participants) as Hpb.
  { unfold located in Hp. apply fmap_Some in Hp as ([k x] & Hfind & ->). apply list_find_Some in Hfind as (Hx & _ & _).
    assert (Z.of_nat (Z.to_nat (word_get h)) < n) as Hi by lia.
    apply (lookup_bucket _ _ _ (rows_offsets _ _ _ _ Hok) _ _ _ Hi) in Hx as [Hk _].
    destruct (bucket_range_Ok (E:=BcsrError) _ _ _ (rows_offsets _ _ _ _ Hok) _ Hi) as (_ & ? & ?). cbn. lia. }
  assert (checked_add usize_max base p = Some (base + p)) as -> by (apply checked_add_Some; lia).
  unfold slot_id. assert (from_usize (word_width OW) (base + p) = Some (base + p)) as ->.
  { apply from_usize_Some; [lia|]. split; [done|apply Hfit; lia]. }
  cbn [or_panic mbind res_bind]. exists hs. split_and!; [done|done|]. by exists h, [].
Qed.

End bucket.

(** Draining the iterator lists the outgoing incidences, then the incoming. *)
Lemma element_incidences_Ok (s : BcsrSections OW VW RW) n m vertex p outgoing incoming fuel :
  RowsOk (head_offsets s) (head_participants s) n m → RowsOk (tail_offsets s) (tail_participants s) n m →
  p = zlen (head_participants s) → p + zlen (tail_participants s) ≤ usize_max →
  (∀ i, 0 ≤ i < p + zlen (tail_participants s) → fits (word_width OW) i) →
  Forall (λ h, word_get h < n ∧ word_get h ≤ usize_max) outgoing → Forall (λ h, word_get h < n ∧ word_get h ≤ usize_max) incoming →
  (length outgoing + length incoming < fuel)%nat →
  element_incidences_collect fuel s {| ei_vertex := vertex; ei_p_head := p; ei_outgoing := outgoing; ei_incoming := incoming |} =
    Ok (listed (head_offsets s) (head_participants s) vertex 0 outgoing ++ listed (tail_offsets s) (tail_participants s) vertex p incoming).
Proof.
  intros Hh Ht -> Hmax Hfit. pose proof (zlen_nonneg (head_participants s)). pose proof (zlen_nonneg (tail_participants s)).
  revert outgoing incoming. induction fuel as [|fuel IH]; intros outgoing incoming Ho Hi Hf; [lia|].
  cbn [element_incidences_collect]. unfold element_incidences_next, pull_outgoing, pull_incoming.
  cbn [ei_vertex ei_p_head ei_outgoing ei_incoming].
  pose proof (pull_Ok (head_offsets s) (head_participants s) n m Hh ltac:(lia) s vertex 0 outgoing ltac:(lia) ltac:(lia)
    ltac:(intros i ?; apply Hfit; lia) Ho) as Hpo.
  destruct (listed (head_offsets s) (head_participants s) vertex 0 outgoing) as [|id rest].
  - rewrite Hpo. cbn [mbind res_bind ei_vertex ei_p_head ei_outgoing ei_incoming app].
    pose proof (pull_Ok (tail_offsets s) (tail_participants s) n m Ht ltac:(lia) s vertex (zlen (head_participants s)) incoming
      ltac:(lia) ltac:(lia) ltac:(intros i ?; apply Hfit; lia) Hi) as Hpi.
    destruct (listed (tail_offsets s) (tail_participants s) vertex _ incoming) as [|id rest].
    + by rewrite Hpi.
    + destruct Hpi as (hs' & -> & Hr & h & pre & ->). cbn [mbind res_bind]. cbn in Hf. rewrite length_app in Hf.
      apply Forall_cons in Hi as [_ [_ Hi]%Forall_app]. rewrite IH; [|constructor|done|cbn; lia]. cbn. by rewrite Hr.
  - destruct Hpo as (hs' & -> & Hr & h & pre & ->). cbn [mbind res_bind]. cbn in Hf. rewrite length_app in Hf.
    apply Forall_cons in Ho as [_ [_ Ho]%Forall_app]. rewrite IH; [|done|done|lia]. cbn. by rewrite Hr.
Qed.

End located.

(** ** A validated view *)

Section validated.
Context `{!Target} {OW VW RW : Type} `{!LayoutWord OW, !LayoutWord VW, !LayoutWord RW}.
Context (s : BcsrSections OW VW RW).
Hypothesis Hok : BcsrLayout s.

(** What opening the sections returns. *)
Definition view_of : BcsrHypergraph OW VW RW := {| bg_counts := bcsr_counts s; bg_sections := s |}.

Definition total : Z := zlen (head_participants s) + zlen (tail_participants s).

Lemma view_of_validated : from_validated_sections s = view_of.
Proof using Hok.
  unfold from_validated_sections, view_of, bcsr_counts, vertices, hyperedges. destruct Hok as [[? _] [? _] _ _ _ _ _ _ ?].
  unfold vertices, hyperedges in *. do 2 f_equal; lia.
Qed.

Lemma total_counts : total = zlen (vertex_outgoing_hyperedges s) + zlen (vertex_incoming_hyperedges s) ∧ total ≤ usize_max ∧
  dc_p_outgoing (bcsr_counts s) = zlen (head_participants s) ∧ dc_total_incidences (bcsr_counts s) = total.
Proof using Hok.
  unfold total. pose proof (bl_out_total _ Hok). pose proof (bl_in_total _ Hok). pose proof (bl_total _ Hok). cbn. lia.
Qed.

Hypothesis Hinc : ∀ i, 0 ≤ i < total → fits (word_width OW) i.
Hypothesis Hrel : ∀ h, 0 ≤ h < hyperedges s → fits (word_width RW) h.

Lemma relation_slot {E} (h : nat) : Z.of_nat h < hyperedges s → id_slot (E:=E) (word_width RW) (Z.of_nat h) = Ok (Z.of_nat h).
Proof using Hok Hrel.
  intros Hh. unfold id_slot. assert (to_usize (word_width RW) (Z.of_nat h) = Some (Z.of_nat h)) as ->; [|done].
  apply to_usize_Some; [apply Hrel; lia|]. split; [done|]. pose proof (bl_hyperedges _ Hok). lia.
Qed.

Lemma vertex_slot {E} (v : nat) : fits (word_width VW) (Z.of_nat v) → Z.of_nat v < vertices s →
  id_slot (E:=E) (word_width VW) (Z.of_nat v) = Ok (Z.of_nat v).
Proof using Hok.
  intros Hf Hv. unfold id_slot. assert (to_usize (word_width VW) (Z.of_nat v) = Some (Z.of_nat v)) as ->; [|done].
  apply to_usize_Some; [done|]. split; [done|]. pose proof (bl_vertices _ Hok). lia.
Qed.

Lemma incidence_slot {E} i : 0 ≤ i < total → id_slot (E:=E) (word_width OW) i = Ok i.
Proof using Hok Hinc.
  intros Hi. unfold id_slot. assert (to_usize (word_width OW) i = Some i) as ->; [|done].
  apply to_usize_Some; [by apply Hinc|]. split; [done|]. destruct total_counts. lia.
Qed.

(** An incidence names its hyperedge, its vertex and its side. *)
Lemma head_incidence {E} h j x : Z.of_nat h < hyperedges s →
  bucket (head_offsets s) (head_participants s) h !! j = Some x →
  let i := offset_at (head_offsets s) h + Z.of_nat j in
  0 ≤ i < zlen (head_participants s) ∧ incidence_element (E:=E) view_of i = Ok (word_get x) ∧
  incidence_relation (E:=E) view_of i = Ok (Z.of_nat h) ∧ incidence_role (E:=E) view_of i = Ok Head.
Proof using Hok Hinc Hrel.
  intros Hh Hx i. pose proof (rows_offsets _ _ _ _ (bl_head _ Hok)) as Hoff.
  pose proof Hx as [Hj Hv]%(lookup_bucket _ _ _ Hoff h j x Hh).
  destruct (bucket_range_Ok (E:=E) _ _ _ Hoff h Hh) as (_ & Hz1 & Hz2). destruct total_counts as (_ & Ht & Hp & _).
  pose proof (zlen_nonneg (tail_participants s)). assert (0 ≤ i < zlen (head_participants s)) as Hi by lia.
  assert (id_slot (E:=E) (word_width OW) i = Ok i) as Hslot by (apply incidence_slot; unfold total; lia).
  split; [done|]. unfold incidence_element, incidence_relation, incidence_role. rewrite Hslot. cbn [mbind res_bind view_of bg_counts bg_sections].
  rewrite Hp, !decide_True by lia. split_and!; [| |done].
  - unfold vget. replace (Z.to_nat i) with (Z.to_nat (offset_at (head_offsets s) h) + j)%nat by lia. by rewrite Hv.
  - pose proof (bl_hyperedges _ Hok). by apply (locate_owning_bucket_Ok (head_offsets s) (head_participants s) (hyperedges s) h j x); [..|lia| |lia| |].
Qed.

Lemma tail_incidence {E} h j x : Z.of_nat h < hyperedges s →
  bucket (tail_offsets s) (tail_participants s) h !! j = Some x →
  let i := zlen (head_participants s) + (offset_at (tail_offsets s) h + Z.of_nat j) in
  zlen (head_participants s) ≤ i < total ∧ incidence_element (E:=E) view_of i = Ok (word_get x) ∧
  incidence_relation (E:=E) view_of i = Ok (Z.of_nat h) ∧ incidence_role (E:=E) view_of i = Ok Tail.
Proof using Hok Hinc Hrel.
  intros Hh Hx i. pose proof (rows_offsets _ _ _ _ (bl_tail _ Hok)) as Hoff.
  pose proof Hx as [Hj Hv]%(lookup_bucket _ _ _ Hoff h j x Hh).
  destruct (bucket_range_Ok (E:=E) _ _ _ Hoff h Hh) as (_ & Hz1 & Hz2). destruct total_counts as (_ & Ht & Hp & _).
  pose proof (zlen_nonneg (head_participants s)). assert (zlen (head_participants s) ≤ i < total) as Hi by (unfold total; lia).
  assert (id_slot (E:=E) (word_width OW) i = Ok i) as Hslot by (apply incidence_slot; lia).
  split; [done|]. unfold incidence_element, incidence_relation, incidence_role. rewrite Hslot. cbn [mbind res_bind view_of bg_counts bg_sections].
  rewrite Hp, !decide_False by lia. replace (i - zlen (head_participants s)) with (offset_at (tail_offsets s) h + Z.of_nat j) by lia.
  split_and!; [| |done].
  - unfold vget. replace (Z.to_nat (offset_at (tail_offsets s) h + Z.of_nat j)) with (Z.to_nat (offset_at (tail_offsets s) h) + j)%nat by lia.
    by rewrite Hv.
  - pose proof (bl_hyperedges _ Hok). by apply (locate_owning_bucket_Ok (tail_offsets s) (tail_participants s) (hyperedges s) h j x); [..|lia| |lia| |].
Qed.

(** Every position lies in a bucket. *)
Lemma position_in_bucket (offsets : list OW) (values : list VW) n i :
  OffsetsOk offsets n (zlen values) → 0 ≤ n → 0 ≤ i < zlen values →
  ∃ h j x, Z.of_nat h < n ∧ bucket offsets values h !! j = Some x ∧ i = offset_at offsets h + Z.of_nat j.
Proof using Type.
  intros Hoff Hn Hi. destruct (offset_at_ends offsets n _ Hn Hoff) as [Hz0 Hend].
  destruct (decide (n = 0)) as [->|Hne]; [change (Z.to_nat 0) with 0%nat in Hend; lia|].
  destruct (locate_between_Ok (E:=BcsrError) offsets n (zlen values) i (Z.to_nat n) 0 (Z.to_nat n)) as (h & _ & Hh & Ho);
    [done|lia|lia|lia|lia|lia|lia|].
  assert (Z.of_nat h < n) as Hhn by lia. destruct (bucket_range_Ok (E:=BcsrError) _ _ _ Hoff h Hhn) as (_ & Hz1 & Hz2).
  set (j := Z.to_nat (i - offset_at offsets h)).
  destruct (lookup_lt_is_Some_2 (bucket offsets values h) j) as [x Hx].
  { pose proof (length_bucket _ _ _ Hoff h Hhn) as Hl. unfold zlen in Hl. lia. }
  exists h, j, x. split_and!; [done|done|lia].
Qed.

(** The two slices [bcsr_relation_incidences] chains. *)
Definition head_slice (h : nat) : ParticipantSlice :=
  {| ps_cursor := offset_at (head_offsets s) h; ps_end := offset_at (head_offsets s) h + zlen (heads s h); ps_base := 0 |}.
Definition tail_slice (h : nat) : ParticipantSlice :=
  {| ps_cursor := offset_at (tail_offsets s) h; ps_end := offset_at (tail_offsets s) h + zlen (tails s h);
     ps_base := zlen (head_participants s) |}.

Lemma relation_slices {E} (h : nat) : Z.of_nat h < hyperedges s →
  bcsr_relation_incidences (E:=E) view_of (Z.of_nat h) = Ok (head_slice h, tail_slice h) ∧
  0 ≤ offset_at (head_offsets s) h ∧ offset_at (head_offsets s) h + zlen (heads s h) ≤ zlen (head_participants s) ∧
  0 ≤ offset_at (tail_offsets s) h ∧ offset_at (tail_offsets s) h + zlen (tails s h) ≤ zlen (tail_participants s).
Proof using Hok Hrel.
  intros Hh. pose proof (rows_offsets _ _ _ _ (bl_head _ Hok)) as Hho. pose proof (rows_offsets _ _ _ _ (bl_tail _ Hok)) as Hto.
  destruct (bucket_range_Ok (E:=E) _ _ _ Hho h Hh) as (Hr1 & Hz1 & Hz2), (bucket_range_Ok (E:=E) _ _ _ Hto h Hh) as (Hr2 & Hz3 & Hz4).
  assert (zlen (heads s h) = offset_at (head_offsets s) (S h) - offset_at (head_offsets s) h) as Hl1.
  { rewrite <-(length_bucket _ _ _ Hho h Hh). unfold heads, zrow, id_slice, zlen. by rewrite length_fmap. }
  assert (zlen (tails s h) = offset_at (tail_offsets s) (S h) - offset_at (tail_offsets s) h) as Hl2.
  { rewrite <-(length_bucket _ _ _ Hto h Hh). unfold tails, zrow, id_slice, zlen. by rewrite length_fmap. }
  destruct total_counts as (_ & _ & Hp & _). split; [|lia]. unfold bcsr_relation_incidences, source_incidences, target_incidences, head_slice, tail_slice.
  rewrite relation_slot by done. cbn [mbind res_bind view_of bg_counts bg_sections]. rewrite Hr1, Hr2. cbn [mbind res_bind].
  rewrite Hp. do 3 f_equal; lia.
Qed.

(** The incidences of a hyperedge: those of its heads, then those of its tails. *)
Lemma relation_incidences_Ok {E} (h : nat) : Z.of_nat h < hyperedges s →
  ∃ a b ids, bcsr_relation_incidences (E:=E) view_of (Z.of_nat h) = Ok (a, b) ∧ chain_run (OW:=OW) (E:=E) a b = Ok ids ∧
    Forall2 (λ i v, 0 ≤ i < total ∧ incidence_element (E:=E) view_of i = Ok v ∧ incidence_relation (E:=E) view_of i = Ok (Z.of_nat h))
      ids (heads s h ++ tails s h).
Proof using Hok Hinc Hrel.
  intros Hh. destruct (relation_slices (E:=E) h Hh) as (Hrun & Hz1 & Hz2 & Hz3 & Hz4). destruct total_counts as (_ & Hmax & _).
  pose proof (zlen_nonneg (tail_participants s)). pose proof (zlen_nonneg (head_participants s)). unfold total in *.
  eexists _, _, (seqZ (0 + offset_at (head_offsets s) h) (zlen (heads s h)) ++
    seqZ (zlen (head_participants s) + offset_at (tail_offsets s) h) (zlen (tails s h))). split; [exact Hrun|]. split.
  - unfold chain_run, head_slice, tail_slice.
    rewrite participants_run_Ok; [|lia|lia|lia|intros i Hi; apply Hinc; lia]. cbn [mbind res_bind].
    rewrite participants_run_Ok; [done|lia|lia|lia|intros i Hi; apply Hinc; lia].
  - apply Forall2_app; apply Forall2_same_length_lookup; (split; [rewrite length_seqZ; unfold zlen; lia|]);
      intros j i v [-> Hj]%lookup_seqZ (x & -> & Hx)%list_lookup_fmap_Some.
    + destruct (head_incidence (E:=E) h j x Hh Hx) as (Hb & He & Hr & _). rewrite Z.add_0_l. split_and!; (done || lia).
    + destruct (tail_incidence (E:=E) h j x Hh Hx) as (Hb & He & Hr & _). rewrite <-Z.add_assoc. unfold total in Hb.
      split_and!; (done || lia).
Qed.

Lemma elem_of_listed (offsets : list OW) (participants : list VW) bound n vertex base (hs : list RW) id :
  RowsOk offsets participants n bound → Forall (λ h, word_get h < n ∧ word_get h ≤ usize_max) hs →
  id ∈ listed offsets participants vertex base hs ↔
  ∃ h j x, Z.of_nat h ∈ id_slice hs ∧ bucket offsets participants h !! j = Some x ∧ word_get x = vertex ∧
    id = base + (offset_at offsets h + Z.of_nat j).
Proof using Type.
  intros Hr Hhs. unfold listed. rewrite list_elem_of_omap. unfold id_slice. setoid_rewrite list_elem_of_fmap. split.
  - intros (w & Hw & (p & Hp & ->)%fmap_Some). unfold located in Hp. apply fmap_Some in Hp as ([j x] & Hf & ->).
    apply list_find_Some in Hf as (Hx & Hv & _). exists (Z.to_nat (word_get w)), j, x. split_and!; [|done..].
    exists w. split; [|done]. rewrite Z2Nat.id; [done|apply word_get_nonneg].
  - intros (h & j & x & (w & Hw & Hin) & Hx & Hv & ->). exists w. split; [done|]. rewrite <-Hw, Nat2Z.id.
    rewrite Forall_forall in Hhs. destruct (Hhs w Hin) as [Hb _].
    rewrite (located_Some _ _ _ _ Hr vertex h j x) by (done || lia). done.
Qed.

(** The incidences of a vertex: under cross-consistency, exactly those that name it. *)
Lemma element_incidences_run_Ok (v : nat) : fits (word_width VW) (Z.of_nat v) → Z.of_nat v < vertices s →
  ∃ ids, element_incidences_run view_of (Z.of_nat v) = Ok ids ∧
    (BcsrCross s → ∀ i, i ∈ ids ↔ 0 ≤ i < total ∧ incidence_element (E:=BcsrError) view_of i = Ok (Z.of_nat v)).
Proof using Hok Hinc Hrel.
  intros Hf Hv. pose proof (bl_out _ Hok) as [Hoo Hob _]. pose proof (bl_in _ Hok) as [Hio Hib _].
  set (outgoing := bucket (vertex_outgoing_offsets s) (vertex_outgoing_hyperedges s) v).
  set (incoming := bucket (vertex_incoming_offsets s) (vertex_incoming_hyperedges s) v).
  assert (Forall (λ h, word_get h < hyperedges s ∧ word_get h ≤ usize_max) outgoing) as Ho by (unfold outgoing, bucket; by apply Forall_take, Forall_drop).
  assert (Forall (λ h, word_get h < hyperedges s ∧ word_get h ≤ usize_max) incoming) as Hi by (unfold incoming, bucket; by apply Forall_take, Forall_drop).
  destruct total_counts as (_ & Hmax & Hp & _). eexists. split.
  - unfold element_incidences_run, bcsr_element_incidences. rewrite vertex_slot by done. cbn [mbind res_bind view_of bg_counts bg_sections].
    rewrite (vertex_bucket_Ok _ _ _ Hoo v Hv), (vertex_bucket_Ok _ _ _ Hio v Hv). cbn [mbind res_bind ei_outgoing ei_incoming].
    rewrite Hp. fold outgoing incoming.
    rewrite (element_incidences_Ok s (hyperedges s) (vertices s) (Z.of_nat v) _ outgoing incoming);
      [done|apply Hok|apply Hok|done|exact Hmax|exact Hinc|done|done|lia].
  - intros Hc i. rewrite elem_of_app, (elem_of_listed _ _ _ _ _ _ _ _ (bl_head _ Hok) Ho), (elem_of_listed _ _ _ _ _ _ _ _ (bl_tail _ Hok) Hi).
    change (id_slice outgoing) with (outs s v). change (id_slice incoming) with (ins s v).
    assert (∀ h, Z.of_nat h ∈ outs s v → Z.of_nat h < hyperedges s) as Hlo.
    { intros h (w & -> & Hw)%list_elem_of_fmap. rewrite Forall_forall in Ho. by apply Ho. }
    assert (∀ h, Z.of_nat h ∈ ins s v → Z.of_nat h < hyperedges s) as Hli.
    { intros h (w & -> & Hw)%list_elem_of_fmap. rewrite Forall_forall in Hi. by apply Hi. }
    split.
    + intros [(h & j & x & Hin & Hx & Hxv & ->)|(h & j & x & Hin & Hx & Hxv & ->)].
      * destruct (head_incidence (E:=BcsrError) h j x (Hlo h Hin) Hx) as (Hb & He & _). rewrite Z.add_0_l, <-Hxv.
        pose proof (zlen_nonneg (tail_participants s)). unfold total. split; [lia|done].
      * destruct (tail_incidence (E:=BcsrError) h j x (Hli h Hin) Hx) as (Hb & He & _). rewrite <-Hxv.
        pose proof (zlen_nonneg (head_participants s)). split; [lia|done].
    + intros [Hb He]. pose proof (bl_hyperedges _ Hok) as [Hm _]. destruct (decide (i < zlen (head_participants s))) as [Hlt|Hge]; [left|right].
      * destruct (position_in_bucket _ _ _ i (rows_offsets _ _ _ _ (bl_head _ Hok)) Hm) as (h & j & x & Hh & Hx & ->); [lia|].
        destruct (head_incidence (E:=BcsrError) h j x Hh Hx) as (_ & He' & _). rewrite He' in He. injection He as Hxv.
        exists h, j, x. split_and!; [|done|done|lia]. apply (Hc h v). rewrite <-Hxv. apply list_elem_of_fmap_2. by eapply list_elem_of_lookup_2.
      * destruct (position_in_bucket _ _ _ (i - zlen (head_participants s)) (rows_offsets _ _ _ _ (bl_tail _ Hok)) Hm)
          as (h & j & x & Hh & Hx & Hi'); [unfold total in Hb; lia|].
        destruct (tail_incidence (E:=BcsrError) h j x Hh Hx) as (_ & He' & _). rewrite <-Hi' in He'.
        replace (zlen (head_participants s) + (i - zlen (head_participants s))) with i in He' by lia. rewrite He' in He. injection He as Hxv.
        exists h, j, x. split_and!; [|done|done|lia]. apply (Hc h v). rewrite <-Hxv. apply list_elem_of_fmap_2. by eapply list_elem_of_lookup_2.
Qed.

Lemma bucket_size_Ok {E W} `{!LayoutWord W} (offsets : list OW) (values : list W) n i :
  OffsetsOk offsets n (zlen values) → Z.of_nat i < n →
  bucket_size (E:=E) offsets (Z.of_nat i) = Ok (zlen (zrow offsets values i)).
Proof using Type.
  intros Hoff Hi. destruct (bucket_range_Ok (E:=E) _ _ _ Hoff i Hi) as (Hr & Hz1 & Hz2). unfold bucket_size. rewrite Hr. cbn [mbind res_bind].
  rewrite decide_True by lia. f_equal. rewrite <-(length_bucket _ _ _ Hoff i Hi). unfold zrow, id_slice, zlen. by rewrite length_fmap.
Qed.

Lemma neighbors_bind {W} `{!LayoutWord W} (l : list W) (rows : nat → list Z) :
  (h ← l; rows (Z.to_nat (word_get h))) = (h ← id_slice l; rows (Z.to_nat h)).
Proof using Type. unfold id_slice. induction l as [|w l IH]; [done|]. by rewrite fmap_cons, !bind_cons, IH. Qed.

(** The rows a vertex accessor returns. *)
Lemma vertex_rows_Ok {E} (v : nat) : fits (word_width VW) (Z.of_nat v) → Z.of_nat v < vertices s →
  outgoing_hyperedges (E:=E) view_of (Z.of_nat v) = Ok (outs s v) ∧ incoming_hyperedges (E:=E) view_of (Z.of_nat v) = Ok (ins s v) ∧
  bcsr_element_successors (E:=E) view_of (Z.of_nat v) = Ok (h ← outs s v; tails s (Z.to_nat h)) ∧
  bcsr_element_predecessors (E:=E) view_of (Z.of_nat v) = Ok (h ← ins s v; heads s (Z.to_nat h)).
Proof using Hok.
  pose proof (rows_offsets _ _ _ _ (bl_head _ Hok)) as Hho. pose proof (rows_offsets _ _ _ _ (bl_tail _ Hok)) as Hto.
  pose proof (rows_offsets _ _ _ _ (bl_out _ Hok)) as Hoo. pose proof (rows_offsets _ _ _ _ (bl_in _ Hok)) as Hio.
  intros Hf Hv. pose proof (vertex_slot (E:=E) v Hf Hv) as Hs. split_and!.
  - unfold outgoing_hyperedges. rewrite Hs. cbn [mbind res_bind view_of bg_sections]. by rewrite (vertex_bucket_Ok _ _ _ Hoo v Hv).
  - unfold incoming_hyperedges. rewrite Hs. cbn [mbind res_bind view_of bg_sections]. by rewrite (vertex_bucket_Ok _ _ _ Hio v Hv).
  - unfold bcsr_element_successors. rewrite Hs. cbn [mbind res_bind view_of bg_sections]. rewrite (vertex_bucket_Ok _ _ _ Hoo v Hv).
    cbn [mbind res_bind]. rewrite (neighbors_Ok _ _ _ Hto); [|by apply Forall_take, Forall_drop, (bl_out _ Hok)|cbn; lia].
    cbn [id_slice fmap list_fmap app]. f_equal. apply (neighbors_bind _ (tails s)).
  - unfold bcsr_element_predecessors. rewrite Hs. cbn [mbind res_bind view_of bg_sections]. rewrite (vertex_bucket_Ok _ _ _ Hio v Hv).
    cbn [mbind res_bind]. rewrite (neighbors_Ok _ _ _ Hho); [|by apply Forall_take, Forall_drop, (bl_in _ Hok)|cbn; lia].
    cbn [id_slice fmap list_fmap app]. f_equal. apply (neighbors_bind _ (heads s)).
Qed.

(** A validated hypergraph view is four arrays of ascending rows. No accessor
    panics on a contained id: a hyperedge's participants are its head row then its
    tail row, its incidence ids name it and these vertices in this order; a
    vertex's hyperedges are its outgoing row then its incoming row, its successors
    are the tails of its outgoing hyperedges, its predecessors the heads of its
    incoming ones, and under strict validation its incidences are exactly those
    that name it. Counts are the lengths; other ids are reported absent. *)
Theorem bcsr_view_refines {E} :
  (∀ h : nat, Z.of_nat h < hyperedges s →
    contains_hyperedge (E:=E) view_of (Z.of_nat h) = Ok true ∧
    source_participants (E:=E) view_of (Z.of_nat h) = Ok (heads s h) ∧ target_participants (E:=E) view_of (Z.of_nat h) = Ok (tails s h) ∧
    hyperedge_participants (E:=E) view_of (Z.of_nat h) = Ok (heads s h ++ tails s h) ∧
    relation_incidence_count (E:=E) view_of (Z.of_nat h) = Ok (zlen (heads s h ++ tails s h)) ∧
    ∃ a b ids, bcsr_relation_incidences (E:=E) view_of (Z.of_nat h) = Ok (a, b) ∧ chain_run (OW:=OW) (E:=E) a b = Ok ids ∧
      Forall2 (λ i v, 0 ≤ i < total ∧ incidence_element (E:=E) view_of i = Ok v ∧ incidence_relation (E:=E) view_of i = Ok (Z.of_nat h))
        ids (heads s h ++ tails s h)) ∧
  (∀ v : nat, fits (word_width VW) (Z.of_nat v) → Z.of_nat v < vertices s →
    contains_vertex (E:=E) view_of (Z.of_nat v) = Ok true ∧
    outgoing_hyperedges (E:=E) view_of (Z.of_nat v) = Ok (outs s v) ∧ incoming_hyperedges (E:=E) view_of (Z.of_nat v) = Ok (ins s v) ∧
    incident_hyperedges (E:=E) view_of (Z.of_nat v) = Ok (outs s v ++ ins s v) ∧
    element_incidence_count (E:=E) view_of (Z.of_nat v) = Ok (zlen (outs s v ++ ins s v)) ∧
    bcsr_element_successors (E:=E) view_of (Z.of_nat v) = Ok (h ← outs s v; tails s (Z.to_nat h)) ∧
    bcsr_element_predecessors (E:=E) view_of (Z.of_nat v) = Ok (h ← ins s v; heads s (Z.to_nat h)) ∧
    ∃ ids, element_incidences_run view_of (Z.of_nat v) = Ok ids ∧
      (BcsrCross s → ∀ i, i ∈ ids ↔ 0 ≤ i < total ∧ incidence_element (E:=BcsrError) view_of i = Ok (Z.of_nat v))) ∧
  (∀ v, fits (word_width VW) v → v ≤ usize_max → vertices s ≤ v → contains_vertex (E:=E) view_of v = Ok false) ∧
  (∀ h, fits (word_width RW) h → h ≤ usize_max → hyperedges s ≤ h → contains_hyperedge (E:=E) view_of h = Ok false).
Proof using Hok Hinc Hrel.
  pose proof (rows_offsets _ _ _ _ (bl_head _ Hok)) as Hho. pose proof (rows_offsets _ _ _ _ (bl_tail _ Hok)) as Hto.
  pose proof (rows_offsets _ _ _ _ (bl_out _ Hok)) as Hoo. pose proof (rows_offsets _ _ _ _ (bl_in _ Hok)) as Hio.
  assert (∀ {A} (xs ys : list A), zlen (xs ++ ys) = zlen xs + zlen ys) as Hzapp by (intros; unfold zlen; rewrite length_app; lia).
  split_and!.
  - intros h Hh. pose proof (relation_slot (E:=E) h Hh) as Hs.
    assert (source_participants (E:=E) view_of (Z.of_nat h) = Ok (heads s h)) as Hz1.
    { unfold source_participants. rewrite Hs. cbn [mbind res_bind view_of bg_sections]. by rewrite (vertex_bucket_Ok _ _ _ Hho h Hh). }
    assert (target_participants (E:=E) view_of (Z.of_nat h) = Ok (tails s h)) as Hz2.
    { unfold target_participants. rewrite Hs. cbn [mbind res_bind view_of bg_sections]. by rewrite (vertex_bucket_Ok _ _ _ Hto h Hh). }
    split_and!; [|done|done| | |by apply relation_incidences_Ok].
    + unfold contains_hyperedge. rewrite Hs. cbn. by rewrite bool_decide_eq_true_2.
    + unfold hyperedge_participants. by rewrite Hz1, Hz2.
    + unfold relation_incidence_count. rewrite Hs. cbn [mbind res_bind view_of bg_sections].
      rewrite (bucket_size_Ok _ _ _ h Hho Hh), (bucket_size_Ok _ _ _ h Hto Hh), Hzapp. done.
  - intros v Hf Hv. pose proof (vertex_slot (E:=E) v Hf Hv) as Hs. destruct (vertex_rows_Ok (E:=E) v Hf Hv) as (Hz1 & Hz2 & Hz3 & Hz4).
    split_and!; [|done|done| | |done|done|by apply element_incidences_run_Ok].
    + unfold contains_vertex. rewrite Hs. cbn. by rewrite bool_decide_eq_true_2.
    + unfold incident_hyperedges. by rewrite Hz1, Hz2.
    + unfold element_incidence_count. rewrite Hs. cbn [mbind res_bind view_of bg_sections].
      rewrite (bucket_size_Ok _ _ _ v Hoo Hv), (bucket_size_Ok _ _ _ v Hio Hv), Hzapp. done.
  - intros v Hf Hu Hv. unfold contains_vertex, id_slot. assert (to_usize (word_width VW) v = Some v) as -> by by apply to_usize_Some.
    cbn. by rewrite bool_decide_eq_false_2 by lia.
  - intros h Hf Hu Hh. unfold contains_hyperedge, id_slot. assert (to_usize (word_width RW) h = Some h) as -> by by apply to_usize_Some.
    cbn. by rewrite bool_decide_eq_false_2 by lia.
Qed.

End validated.
