(* ===== verification/BcsrBuild.v ===== *)
(** * BcsrBuild: hypergraph builders and freezing

    Models [crates/oxgraph-hyper-bcsr/src/build.rs]: [HypergraphBuilder],
    [WeightedHypergraphBuilder], [build_topology] and the vertex indices, the
    validation [freeze] ends with, the frozen wrappers' accessors and the
    snapshot export. A value of an index type is a [Z] in the range of its
    width; a [usize] is a [Z]. Capacities given to [Vec::with_capacity] are not
    modelled, nor is the encoding of Arrow property layers. *)

From stdpp Require Import base gmap sets list sorting.
From S2P Require Import Prelude Bytes Layout Crc Snapshot SnapshotWrite Topology Csr CsrBuild Bcsr.

Local Open Scope Z_scope.

(** [HyperParticipantRole]: [Source] and [Target]. *)
Inductive HyperParticipantRole := SourceRole | TargetRole.

Inductive HyperBuildError :=
  | InvalidVertex (vertex : Z)
  | InvalidHyperedge (hyperedge : Z)
  | InvalidParticipant (participant : Z)
  | ParticipantPositionOutOfBounds (hyperedge position : Z)
  | DuplicateParticipant (vertex : Z) (role : HyperParticipantRole)
  | HyperIdOverflow (value : Z)
  | InvalidTopology (source : BcsrError)
  | HyperSnapshotPlan (source : PlanError).

Record HyperedgeRecord := { hr_sources : list Z; hr_targets : list Z }.

Record NormalizedHyperedgeRecord (IW : Type) := { nr_sources : list (Z * IW); nr_targets : list (Z * IW) }.
Arguments nr_sources {_} _.
Arguments nr_targets {_} _.

Record HypergraphBuilder := { hb_vertex_count : Z; hb_hyperedges : list HyperedgeRecord }.

Record WeightedHypergraphBuilder (EW RW IW : Type) := {
  whb_vertex_count : Z;
  whb_element_weights : list EW;
  whb_hyperedges : list (NormalizedHyperedgeRecord IW);
  whb_relation_weights : list RW
}.
Arguments whb_vertex_count {_ _ _} _.
Arguments whb_element_weights {_ _ _} _.
Arguments whb_hyperedges {_ _ _} _.
Arguments whb_relation_weights {_ _ _} _.

(** [FrozenTopology]: the vertex count and the eight canonical arrays. *)
Record FrozenHyperTopology := {
  ht_vertex_count : Z;
  ht_head_offsets : list Z;
  ht_head_participants : list Z;
  ht_tail_offsets : list Z;
  ht_tail_participants : list Z;
  ht_vertex_outgoing_offsets : list Z;
  ht_vertex_outgoing_hyperedges : list Z;
  ht_vertex_incoming_offsets : list Z;
  ht_vertex_incoming_hyperedges : list Z
}.

Record FrozenWeightedHypergraph (EW RW IW : Type) := {
  fwh_topology : FrozenHyperTopology;
  fwh_element_weights : list EW;
  fwh_relation_weights : list RW;
  fwh_incidence_weights : list IW
}.
Arguments fwh_topology {_ _ _} _.
Arguments fwh_element_weights {_ _ _} _.
Arguments fwh_relation_weights {_ _ _} _.
Arguments fwh_incidence_weights {_ _ _} _.

(** The standard library's stable [sort_by_key], and [sort_unstable] of integers
    with the identity as key. *)
Fixpoint insert_by_key {A} (key : A → Z) (x : A) (l : list A) : list A :=
  match l with
  | [] => [x]
  | y :: l => if decide (key x ≤ key y) then x :: y :: l else y :: insert_by_key key x l
  end.
Definition sort_by_key {A} (key : A → Z) (l : list A) : list A := foldr (insert_by_key key) [] l.

Section build.
Context `{!Target} (vw rw iw : width).

Definition vertex_index_checked (vertex_count vertex : Z) : res HyperBuildError Z :=
  map_err (λ _, InvalidVertex vertex) (id_to_slot vw vertex vertex_count).
Definition hyperedge_index_checked (hyperedge_count hyperedge : Z) : res HyperBuildError Z :=
  map_err (λ _, InvalidHyperedge hyperedge) (id_to_slot rw hyperedge hyperedge_count).

Definition ensure_vertices (vertex_count : Z) (participants : list Z) : res HyperBuildError () :=
  for_each (λ _ vertex, _ ← vertex_index_checked vertex_count vertex; Ok ()) participants ().

(** The [windows(2)] loop over the sorted participants. *)
Fixpoint no_equal_pair (role : HyperParticipantRole) (sorted : list Z) : res HyperBuildError () :=
  match sorted with
  | a :: (b :: _) as rest =>
      if decide (a = b) then Err (DuplicateParticipant a role) else no_equal_pair role rest
  | _ => Ok ()
  end.
Definition ensure_unique_participants (participants : list Z) (role : HyperParticipantRole) : res HyperBuildError () :=
  no_equal_pair role (sort_by_key id participants).

(** [index_from_usize] with [map_offset_overflow]. *)
Definition hyper_index (w : width) (value : Z) : res HyperBuildError Z :=
  map_err (λ e, map_offset_overflow e HyperIdOverflow) (index_from_usize w value).

(** ** The eight arrays *)

(** One record of a participant loop: the participants, the weights and the offsets. *)
Definition push_participants {IW} (st : list Z * list IW * list Z) (side : list (Z * IW))
    : res HyperBuildError (list Z * list IW * list Z) :=
  let '(participants, weights, offs) := st in
  let participants := participants ++ side.*1 in
  let weights := weights ++ side.*2 in
  o ← hyper_index iw (zlen participants);
  Ok (participants, weights, offs ++ [o]).

Definition side_of {IW} (role : HyperParticipantRole) (record : NormalizedHyperedgeRecord IW) : list (Z * IW) :=
  match role with SourceRole => nr_sources record | TargetRole => nr_targets record end.

(** One participant: its hyperedge joins the vertex's bucket. *)
Definition push_relation (relation_id : Z) (buckets : list (list Z)) (vertex : Z) : res HyperBuildError (list (list Z)) :=
  slot ← ok_or (HyperIdOverflow usize_max) (to_usize vw vertex);
  bucket ← vget buckets (Z.to_nat slot);
  vset buckets (Z.to_nat slot) (bucket ++ [relation_id]).

Definition push_record {IW} (role : HyperParticipantRole) (buckets : list (list Z))
    (record : nat * NormalizedHyperedgeRecord IW) : res HyperBuildError (list (list Z)) :=
  relation_id ← hyper_index rw (Z.of_nat record.1);
  for_each (push_relation relation_id) (side_of role record.2).*1 buckets.

Definition build_vertex_relation_index {IW} (vertex_count : Z) (records : list (NormalizedHyperedgeRecord IW))
    (role : HyperParticipantRole) : res HyperBuildError (list Z * list Z) :=
  buckets ← for_each (push_record role) (imap (λ i r, (i, r)) records) (replicate (Z.to_nat vertex_count) []);
  map_err (λ e, map_offset_overflow e HyperIdOverflow) (build_offset_index iw buckets).

Definition build_topology {IW} (vertex_count : Z) (records : list (NormalizedHyperedgeRecord IW))
    : res HyperBuildError (FrozenHyperTopology * list IW) :=
  h0 ← hyper_index iw 0;
  t0 ← hyper_index iw 0;
  '(head_participants, weights, head_offsets) ← for_each push_participants (nr_sources <$> records) ([], [], [h0]);
  '(tail_participants, weights, tail_offsets) ← for_each push_participants (nr_targets <$> records) ([], weights, [t0]);
  '(outgoing_offsets, outgoing) ← build_vertex_relation_index vertex_count records SourceRole;
  '(incoming_offsets, incoming) ← build_vertex_relation_index vertex_count records TargetRole;
  Ok ({| ht_vertex_count := vertex_count;
         ht_head_offsets := head_offsets; ht_head_participants := head_participants;
         ht_tail_offsets := tail_offsets; ht_tail_participants := tail_participants;
         ht_vertex_outgoing_offsets := outgoing_offsets; ht_vertex_outgoing_hyperedges := outgoing;
         ht_vertex_incoming_offsets := incoming_offsets; ht_vertex_incoming_hyperedges := incoming |}, weights).

(** [FrozenTopology::sections] and [FrozenTopology::as_view]. *)
Definition topology_sections (t : FrozenHyperTopology) : BcsrSections (native iw) (native vw) (native rw) := {|
  head_offsets := native_words iw (ht_head_offsets t);
  head_participants := native_words vw (ht_head_participants t);
  tail_offsets := native_words iw (ht_tail_offsets t);
  tail_participants := native_words vw (ht_tail_participants t);
  vertex_outgoing_offsets := native_words iw (ht_vertex_outgoing_offsets t);
  vertex_outgoing_hyperedges := native_words rw (ht_vertex_outgoing_hyperedges t);
  vertex_incoming_offsets := native_words iw (ht_vertex_incoming_offsets t);
  vertex_incoming_hyperedges := native_words rw (ht_vertex_incoming_hyperedges t)
|}.
Definition hyper_as_view (t : FrozenHyperTopology) : BcsrHypergraph (native iw) (native vw) (native rw) :=
  from_validated_sections (topology_sections t).

Definition validate_frozen_topology (t : FrozenHyperTopology) : res HyperBuildError () :=
  map_err InvalidTopology (_ ← bcsr_open_with (topology_sections t) Strict; Ok ()).

(** ** Builders *)

Definition HypergraphBuilder_new : HypergraphBuilder := {| hb_vertex_count := 0; hb_hyperedges := [] |}.

Definition add_vertex (b : HypergraphBuilder) : res HyperBuildError (Z * HypergraphBuilder) :=
  id ← ok_or (HyperIdOverflow (hb_vertex_count b)) (from_usize vw (hb_vertex_count b));
  count ← ok_or (HyperIdOverflow usize_max) (checked_add usize_max (hb_vertex_count b) 1);
  Ok (id, {| hb_vertex_count := count; hb_hyperedges := hb_hyperedges b |}).

Definition add_hyperedge (b : HypergraphBuilder) (sources targets : list Z) : res HyperBuildError (Z * HypergraphBuilder) :=
  _ ← ensure_vertices (hb_vertex_count b) sources;
  _ ← ensure_vertices (hb_vertex_count b) targets;
  _ ← ensure_unique_participants sources SourceRole;
  _ ← ensure_unique_participants targets TargetRole;
  hyperedge ← ok_or (HyperIdOverflow (zlen (hb_hyperedges b))) (from_usize rw (zlen (hb_hyperedges b)));
  Ok (hyperedge, {| hb_vertex_count := hb_vertex_count b;
                    hb_hyperedges := hb_hyperedges b ++ [{| hr_sources := sources; hr_targets := targets |}] |}).

Definition normalize_record (r : HyperedgeRecord) : NormalizedHyperedgeRecord () := {|
  nr_sources := sort_by_key fst ((λ v, (v, ())) <$> hr_sources r);
  nr_targets := sort_by_key fst ((λ v, (v, ())) <$> hr_targets r)
|}.
Definition normalized_hyperedges (b : HypergraphBuilder) : list (NormalizedHyperedgeRecord ()) :=
  normalize_record <$> hb_hyperedges b.

Definition hyper_freeze (b : HypergraphBuilder) : res HyperBuildError FrozenHyperTopology :=
  '(topology, _) ← build_topology (hb_vertex_count b) (normalized_hyperedges b);
  _ ← validate_frozen_topology topology;
  Ok topology.

Section weighted.
Context {EW RW IW : Type}.
Implicit Type b : WeightedHypergraphBuilder EW RW IW.

Definition WeightedHypergraphBuilder_new : WeightedHypergraphBuilder EW RW IW :=
  {| whb_vertex_count := 0; whb_element_weights := []; whb_hyperedges := []; whb_relation_weights := [] |}.

Definition w_add_vertex b (weight : EW) : res HyperBuildError (Z * WeightedHypergraphBuilder EW RW IW) :=
  id ← ok_or (HyperIdOverflow (whb_vertex_count b)) (from_usize vw (whb_vertex_count b));
  count ← ok_or (HyperIdOverflow usize_max) (checked_add usize_max (whb_vertex_count b) 1);
  Ok (id, {| whb_vertex_count := count; whb_element_weights := whb_element_weights b ++ [weight];
             whb_hyperedges := whb_hyperedges b; whb_relation_weights := whb_relation_weights b |}).

Definition w_add_hyperedge b (sources targets : list (Z * IW)) (relation_weight : RW)
    : res HyperBuildError (Z * WeightedHypergraphBuilder EW RW IW) :=
  _ ← ensure_vertices (whb_vertex_count b) sources.*1;
  _ ← ensure_vertices (whb_vertex_count b) targets.*1;
  _ ← ensure_unique_participants sources.*1 SourceRole;
  _ ← ensure_unique_participants targets.*1 TargetRole;
  hyperedge ← ok_or (HyperIdOverflow (zlen (whb_hyperedges b))) (from_usize rw (zlen (whb_hyperedges b)));
  Ok (hyperedge, {| whb_vertex_count := whb_vertex_count b; whb_element_weights := whb_element_weights b;
                    whb_hyperedges := whb_hyperedges b ++ [{| nr_sources := sources; nr_targets := targets |}];
                    whb_relation_weights := whb_relation_weights b ++ [relation_weight] |}).

Definition hyper_set_element_weight b (vertex : Z) (weight : EW)
    : res HyperBuildError (WeightedHypergraphBuilder EW RW IW) :=
  index ← vertex_index_checked (whb_vertex_count b) vertex;
  ws ← vset (whb_element_weights b) (Z.to_nat index) weight;
  Ok {| whb_vertex_count := whb_vertex_count b; whb_element_weights := ws;
        whb_hyperedges := whb_hyperedges b; whb_relation_weights := whb_relation_weights b |}.

Definition hyper_set_relation_weight b (hyperedge : Z) (weight : RW)
    : res HyperBuildError (WeightedHypergraphBuilder EW RW IW) :=
  index ← hyperedge_index_checked (zlen (whb_hyperedges b)) hyperedge;
  ws ← vset (whb_relation_weights b) (Z.to_nat index) weight;
  Ok {| whb_vertex_count := whb_vertex_count b; whb_element_weights := whb_element_weights b;
        whb_hyperedges := whb_hyperedges b; whb_relation_weights := ws |}.

(** The slot [get_mut(position)] of a participant list, if there is one. *)
Definition set_weight_at (hyperedge position : Z) (side : list (Z * IW)) (weight : IW) : res HyperBuildError (list (Z * IW)) :=
  match side !! Z.to_nat position with
  | Some (vertex, _) => Ok (<[Z.to_nat position := (vertex, weight)]> side)
  | None => Err (ParticipantPositionOutOfBounds hyperedge position)
  end.

Definition set_source_incidence_weight b (hyperedge position : Z) (weight : IW)
    : res HyperBuildError (WeightedHypergraphBuilder EW RW IW) :=
  index ← hyperedge_index_checked (zlen (whb_hyperedges b)) hyperedge;
  record ← vget (whb_hyperedges b) (Z.to_nat index);
  sources ← set_weight_at hyperedge position (nr_sources record) weight;
  records ← vset (whb_hyperedges b) (Z.to_nat index) {| nr_sources := sources; nr_targets := nr_targets record |};
  Ok {| whb_vertex_count := whb_vertex_count b; whb_element_weights := whb_element_weights b;
        whb_hyperedges := records; whb_relation_weights := whb_relation_weights b |}.

Definition set_target_incidence_weight b (hyperedge position : Z) (weight : IW)
    : res HyperBuildError (WeightedHypergraphBuilder EW RW IW) :=
  index ← hyperedge_index_checked (zlen (whb_hyperedges b)) hyperedge;
  record ← vget (whb_hyperedges b) (Z.to_nat index);
  targets ← set_weight_at hyperedge position (nr_targets record) weight;
  records ← vset (whb_hyperedges b) (Z.to_nat index) {| nr_sources := nr_sources record; nr_targets := targets |};
  Ok {| whb_vertex_count := whb_vertex_count b; whb_element_weights := whb_element_weights b;
        whb_hyperedges := records; whb_relation_weights := whb_relation_weights b |}.

Definition w_normalize_record (r : NormalizedHyperedgeRecord IW) : NormalizedHyperedgeRecord IW :=
  {| nr_sources := sort_by_key fst (nr_sources r); nr_targets := sort_by_key fst (nr_targets r) |}.

Definition w_hyper_freeze b : res HyperBuildError (FrozenWeightedHypergraph EW RW IW) :=
  '(topology, incidence_weights) ← build_topology (whb_vertex_count b) (w_normalize_record <$> whb_hyperedges b);
  _ ← validate_frozen_topology topology;
  Ok {| fwh_topology := topology; fwh_element_weights := whb_element_weights b;
        fwh_relation_weights := whb_relation_weights b; fwh_incidence_weights := incidence_weights |}.

(** Weights by id: [element_weight], [relation_weight], [incidence_weight]. *)
Definition frozen_element_weight {E} (g : FrozenWeightedHypergraph EW RW IW) (vertex : Z) : res E EW :=
  vget (fwh_element_weights g) (Z.to_nat (slot_or_max vw vertex)).
Definition frozen_relation_weight {E} (g : FrozenWeightedHypergraph EW RW IW) (hyperedge : Z) : res E RW :=
  vget (fwh_relation_weights g) (Z.to_nat (slot_or_max rw hyperedge)).
Definition frozen_incidence_weight {E} (g : FrozenWeightedHypergraph EW RW IW) (incidence : Z) : res E IW :=
  vget (fwh_incidence_weights g) (Z.to_nat (slot_or_max iw incidence)).

End weighted.

(** ** The frozen wrappers' accessors ([impl_topology_for]) *)

Section frozen.
Implicit Type t : FrozenHyperTopology.

Definition frozen_relation_count t : Z := Z.max 0 (zlen (ht_head_offsets t) - 1).
Definition total_participants t : Z := Z.min usize_max (zlen (ht_head_participants t) + zlen (ht_tail_participants t)).

Definition frozen_element_index (element : Z) : Z := slot_or_max vw element.
Definition frozen_relation_index (relation : Z) : Z := slot_or_max rw relation.
Definition frozen_incidence_index (incidence : Z) : Z := slot_or_max iw incidence.

Definition slot_below (w : width) (id bound : Z) : bool :=
  match to_usize w id with Some slot => bool_decide (slot < bound) | None => false end.
Definition frozen_contains_element t (element : Z) : bool := slot_below vw element (ht_vertex_count t).
Definition frozen_contains_relation t (relation : Z) : bool := slot_below rw relation (frozen_relation_count t).
Definition frozen_contains_incidence t (incidence : Z) : bool := slot_below iw incidence (total_participants t).

Definition frozen_incidence_element {E} t (incidence : Z) : res E Z := incidence_element (hyper_as_view t) incidence.
Definition frozen_incidence_relation {E} t (incidence : Z) : res E Z := incidence_relation (hyper_as_view t) incidence.
Definition frozen_incidence_role {E} t (incidence : Z) : res E HyperParticipantRole :=
  role ← incidence_role (hyper_as_view t) incidence;
  Ok (match role with Head => SourceRole | Tail => TargetRole end).
Definition frozen_relation_incidences {E} t (relation : Z) : res E (ParticipantSlice * ParticipantSlice) :=
  bcsr_relation_incidences (hyper_as_view t) relation.
Definition frozen_element_incidences t (element : Z) : res BcsrError ElementIncidences :=
  bcsr_element_incidences (hyper_as_view t) element.
Definition frozen_relation_incidence_count {E} t (relation : Z) : res E Z := relation_incidence_count (hyper_as_view t) relation.
Definition frozen_element_incidence_count {E} t (element : Z) : res E Z := element_incidence_count (hyper_as_view t) element.
Definition frozen_hyperedge_participants {E} t (hyperedge : Z) : res E (list Z) := hyperedge_participants (hyper_as_view t) hyperedge.
Definition frozen_incident_hyperedges {E} t (vertex : Z) : res E (list Z) := incident_hyperedges (hyper_as_view t) vertex.
Definition frozen_source_participants {E} t (hyperedge : Z) : res E (list Z) := source_participants (hyper_as_view t) hyperedge.
Definition frozen_target_participants {E} t (hyperedge : Z) : res E (list Z) := target_participants (hyper_as_view t) hyperedge.
Definition frozen_source_incidences {E} t (hyperedge : Z) : res E ParticipantSlice := source_incidences (hyper_as_view t) hyperedge.
Definition frozen_target_incidences {E} t (hyperedge : Z) : res E ParticipantSlice := target_incidences (hyper_as_view t) hyperedge.
Definition frozen_outgoing_hyperedges {E} t (vertex : Z) : res E (list Z) := outgoing_hyperedges (hyper_as_view t) vertex.
Definition frozen_incoming_hyperedges {E} t (vertex : Z) : res E (list Z) := incoming_hyperedges (hyper_as_view t) vertex.
Definition frozen_element_successors {E} t (element : Z) : res E (list Z) := bcsr_element_successors (hyper_as_view t) element.
Definition frozen_element_predecessors {E} t (element : Z) : res E (list Z) := bcsr_element_predecessors (hyper_as_view t) element.

(** [local_element_id], [local_relation_id], [local_incidence_id]: an id that is contained. *)
Definition local_element_id t (canonical : Z) : option Z := if frozen_contains_element t canonical then Some canonical else None.
Definition local_relation_id t (canonical : Z) : option Z := if frozen_contains_relation t canonical then Some canonical else None.
Definition local_incidence_id t (canonical : Z) : option Z := if frozen_contains_incidence t canonical then Some canonical else None.

Definition bcsr_local_incidence_to_canonical t : res HyperBuildError (list Z) :=
  for_each (λ acc incidence, o ← hyper_index iw (Z.of_nat incidence); Ok (acc ++ [o])) (seq 0 (Z.to_nat (total_participants t))) [].

End frozen.

End build.

(** ** Snapshot export *)

Section export.
Context `{!Target} (vw rw iw : swidth).

Definition add_topology_sections (w : SnapshotWriter) (t : FrozenHyperTopology) : res PlanError SnapshotWriter :=
  w ← section_widths iw w (bcsr_kind iw HeadOffsets) SNAPSHOT_BCSR_SECTION_VERSION (ht_head_offsets t);
  w ← section_widths vw w (bcsr_kind vw HeadParticipants) SNAPSHOT_BCSR_SECTION_VERSION (ht_head_participants t);
  w ← section_widths iw w (bcsr_kind iw TailOffsets) SNAPSHOT_BCSR_SECTION_VERSION (ht_tail_offsets t);
  w ← section_widths vw w (bcsr_kind vw TailParticipants) SNAPSHOT_BCSR_SECTION_VERSION (ht_tail_participants t);
  w ← section_widths iw w (bcsr_kind iw VertexOutgoingOffsets) SNAPSHOT_BCSR_SECTION_VERSION (ht_vertex_outgoing_offsets t);
  w ← section_widths rw w (bcsr_kind rw VertexOutgoingHyperedges) SNAPSHOT_BCSR_SECTION_VERSION (ht_vertex_outgoing_hyperedges t);
  w ← section_widths iw w (bcsr_kind iw VertexIncomingOffsets) SNAPSHOT_BCSR_SECTION_VERSION (ht_vertex_incoming_offsets t);
  section_widths rw w (bcsr_kind rw VertexIncomingHyperedges) SNAPSHOT_BCSR_SECTION_VERSION (ht_vertex_incoming_hyperedges t).

Definition hyper_export_snapshot (t : FrozenHyperTopology) : res HyperBuildError (list byte) :=
  map_err HyperSnapshotPlan (
    w ← SnapshotWriter_new 8 crc32c_append;
    w ← add_topology_sections w t;
    finish w).

Definition export_bcsr_snapshot := hyper_export_snapshot.
Definition export_weighted_bcsr_snapshot {EW RW IW} (g : FrozenWeightedHypergraph EW RW IW) :=
  hyper_export_snapshot (fwh_topology g).

End export.

(** The two hyperedges of the repository's numbering test: [{a,b} → {c}] and [{a} → {b,c}]. *)
Example hyper_freeze_small :
  hyper_freeze (H := target64) W32 W32 W32 {| hb_vertex_count := 3; hb_hyperedges :=
    [{| hr_sources := [1; 0]; hr_targets := [2] |}; {| hr_sources := [0]; hr_targets := [1; 2] |}] |} =
  Ok {| ht_vertex_count := 3; ht_head_offsets := [0; 2; 3]; ht_head_participants := [0; 1; 0];
        ht_tail_offsets := [0; 1; 3]; ht_tail_participants := [2; 1; 2];
        ht_vertex_outgoing_offsets := [0; 2; 3; 3]; ht_vertex_outgoing_hyperedges := [0; 1; 0];
        ht_vertex_incoming_offsets := [0; 0; 1; 3]; ht_vertex_incoming_hyperedges := [1; 0; 1] |}.
Proof. vm_compute. reflexivity. Qed.
