(* ===== verification/BcsrBuildFacts.v ===== *)
(** * BcsrBuildFacts: freezing a hypergraph

    The arrays [build_topology] produces, for any records whose sides are in
    range: the rows of both directions, written as offsets and values, or the
    overflow it reports. Their words are well formed sections, whatever the word
    types, so validation of a built topology always accepts it. *)

From stdpp Require Import base gmap sets list sorting.
From S2P Require Import Prelude Bytes Layout Crc Snapshot SnapshotWrite Topology Csr CsrFacts CsrBuild CsrBuildFacts.
From S2P Require Import Search Bcsr BcsrFacts BcsrBuild.

Local Open Scope Z_scope.

Lemma filter_ext_in {A} (P Q : A → Prop) `{!∀ x, Decision (P x), !∀ x, Decision (Q x)} (l : list A) :
  (∀ x, x ∈ l → P x ↔ Q x) → filter P l = filter Q l.
Proof.
  induction l as [|x l IH]; intros Heq; [done|]. rewrite !filter_cons, IH by (intros; apply Heq; by right).
  pose proof (Heq x ltac:(by left)). by repeat case_decide; try tauto.
Qed.

(** ** Sorting by key *)

Section sorting.
Context {A : Type} (key : A → Z).
Implicit Type l : list A.

Lemma insert_by_key_perm x l : insert_by_key key x l ≡ₚ x :: l.
Proof. induction l as [|y l IH]; cbn; [done|]. case_decide; [done|]. etrans; [apply perm_skip, IH|apply perm_swap]. Qed.

Lemma sort_by_key_perm l : sort_by_key key l ≡ₚ l.
Proof. induction l as [|x l IH]; cbn; [done|]. etrans; [apply insert_by_key_perm|by apply perm_skip]. Qed.

Lemma insert_by_key_sorted x l :
  StronglySorted (λ a b, key a ≤ key b) l → StronglySorted (λ a b, key a ≤ key b) (insert_by_key key x l).
Proof.
  induction 1 as [|y l Hs IH Hy]; cbn; [by repeat constructor|]. case_decide as Hd.
  - constructor; [by constructor|]. constructor; [done|]. eapply Forall_impl; [exact Hy|]. cbn. lia.
  - constructor; [done|]. rewrite Forall_forall in Hy |- *. intros z. rewrite insert_by_key_perm.
    intros [->|Hz]%elem_of_cons; [lia|by apply Hy].
Qed.

Lemma sort_by_key_sorted l : StronglySorted (λ a b, key a ≤ key b) (sort_by_key key l).
Proof. induction l as [|x l IH]; cbn; [constructor|]. by apply insert_by_key_sorted. Qed.

(** Equal keys keep their order. *)
Lemma sort_by_key_stable k l : filter (λ x, key x = k) (sort_by_key key l) = filter (λ x, key x = k) l.
Proof.
  assert (∀ x l, filter (λ x, key x = k) (insert_by_key key x l) = filter (λ x, key x = k) (x :: l)) as Hins.
  { intros x m. induction m as [|y m IH]; cbn [insert_by_key]; [done|]. case_decide as Hd; [done|].
    rewrite filter_cons, IH, !filter_cons. repeat case_decide; (done || lia). }
  induction l as [|x l IH]; [done|]. cbn [sort_by_key foldr]. rewrite Hins, !filter_cons. by rewrite <-IH.
Qed.

Lemma insert_by_key_fmap x l : key <$> insert_by_key key x l = insert_by_key id (key x) (key <$> l).
Proof. induction l as [|y l IH]; cbn; [done|]. case_decide; cbn; [done|]. by rewrite <-IH. Qed.

Lemma sort_by_key_fmap l : key <$> sort_by_key key l = sort_by_key id (key <$> l).
Proof. induction l as [|x l IH]; [done|].
  change (sort_by_key key (x :: l)) with (insert_by_key key x (sort_by_key key l)). rewrite insert_by_key_fmap, IH. done. Qed.

End sorting.

Lemma sort_strict (l : list Z) : NoDup l → StronglySorted Z.lt (sort_by_key id l).
Proof.
  intros Hl. assert (NoDup (sort_by_key id l)) as Hn by by rewrite sort_by_key_perm. revert Hn.
  induction (sort_by_key_sorted id l) as [|x m Hs IH Hx]; [constructor|]. intros [Hin Hn]%NoDup_cons.
  constructor; [by apply IH|]. rewrite Forall_forall in Hx |- *. intros y Hy. specialize (Hx y Hy). cbn in Hx.
  assert (x ≠ y) by congruence. lia.
Qed.

(** ** The pair check *)

Lemma no_equal_pair_cases role (l : list Z) : StronglySorted Z.le l →
  (no_equal_pair role l = Ok () ∧ NoDup l) ∨ (∃ v, no_equal_pair role l = Err (DuplicateParticipant v role) ∧ ¬ NoDup l ∧ v ∈ l).
Proof.
  induction 1 as [|a l Hl IH Ha]; [left; split; [done|constructor]|]. destruct l as [|b l]; [left; split; [done|apply NoDup_singleton]|].
  change (no_equal_pair role (a :: b :: l)) with (if decide (a = b) then Err (DuplicateParticipant a role) else no_equal_pair role (b :: l)).
  rewrite Forall_forall in Ha. case_decide as Hab.
  - right. exists a. split; [done|]. split; [|by left]. subst. intros [Hn _]%NoDup_cons. apply Hn. by left.
  - destruct IH as [[-> Hn]|(v & -> & Hn & Hv)].
    + left. split; [done|]. apply NoDup_cons. split; [|done]. intros [->|Hin]%elem_of_cons; [done|].
      apply StronglySorted_cons in Hl as [Hb _]. rewrite Forall_forall in Hb. specialize (Hb a Hin). specialize (Ha b ltac:(by left)). lia.
    + right. exists v. split; [done|]. split; [|by right]. intros [_ ?]%NoDup_cons. done.
Qed.

(** Exactly the duplicate-free sides pass, and a refusal names a repeated vertex. *)
Lemma ensure_unique_cases participants role :
  (ensure_unique_participants participants role = Ok () ∧ NoDup participants) ∨
  (∃ v, ensure_unique_participants participants role = Err (DuplicateParticipant v role) ∧ ¬ NoDup participants ∧ v ∈ participants).
Proof.
  pose proof (sort_by_key_perm id participants) as Hp. unfold ensure_unique_participants.
  destruct (no_equal_pair_cases role (sort_by_key id participants)) as [[H1 H2]|(v & H1 & H2 & H3)]; [apply sort_by_key_sorted|left|right].
  - split; [done|]. by rewrite <-Hp.
  - exists v. rewrite Hp in H2, H3. done.
Qed.

(** ** The passes of [build_topology] *)

Section passes.
Context `{!Target} (vw rw iw : width).

Lemma hyper_index_cases w v : 0 ≤ v ≤ usize_max →
  (fits w v ∧ hyper_index w v = Ok v) ∨ (¬ fits w v ∧ hyper_index w v = Err (HyperIdOverflow v)).
Proof.
  intros Hv. unfold hyper_index, index_from_usize. destruct (from_usize w v) as [o|] eqn:Ho; cbn.
  - apply from_usize_Some in Ho as [-> ?]; [|done]. by left.
  - right. split; [|done]. intros Hf. assert (from_usize w v = Some v) by (by apply from_usize_Some). congruence.
Qed.

(** The participant passes: the rows end to end, their running totals, and the
    weights in the same order; or the first total that does not fit. *)
Lemma push_participants_cases {IW} (sides : list (list (Z * IW))) parts ws offs :
  zlen parts + zlen (concat sides) ≤ usize_max →
  let rows := (λ l : list (Z * IW), l.*1) <$> sides in
  (Forall (fits iw) (tail (running_totals (zlen parts) rows)) ∧
    for_each (push_participants iw) sides (parts, ws, offs) =
      Ok (parts ++ concat rows, ws ++ concat ((λ l : list (Z * IW), l.*2) <$> sides), offs ++ tail (running_totals (zlen parts) rows))) ∨
  (∃ v, for_each (push_participants iw) sides (parts, ws, offs) = Err (HyperIdOverflow v) ∧ ¬ fits iw v ∧
    0 ≤ v ≤ zlen parts + zlen (concat sides)).
Proof.
  cbn zeta. revert parts ws offs. induction sides as [|side sides IH]; intros parts ws offs Hmax.
  { left. split; [constructor|]. cbn. by rewrite !app_nil_r. }
  cbn [concat] in Hmax. rewrite zlen_app in Hmax. pose proof (zlen_nonneg parts). pose proof (zlen_nonneg side).
  pose proof (zlen_nonneg (concat sides)). assert (zlen (parts ++ side.*1) = zlen parts + zlen side) as Hl.
  { rewrite zlen_app. unfold zlen. by rewrite length_fmap. }
  assert (push_participants iw (parts, ws, offs) side =
    (o ← hyper_index iw (zlen (parts ++ side.*1)); Ok (parts ++ side.*1, ws ++ side.*2, offs ++ [o]))) as Hstep by done.
  cbn [for_each]. rewrite Hstep. clear Hstep.
  destruct (hyper_index_cases iw (zlen (parts ++ side.*1))) as [[Hf ->]|[Hf ->]]; [lia| |]; cbn [mbind res_bind].
  - destruct (IH (parts ++ side.*1) (ws ++ side.*2) (offs ++ [zlen (parts ++ side.*1)])) as [[Hall Hr]|(v & Hr & Hv & Hb)]; [lia| |].
    + left. rewrite Hr. cbn [fmap list_fmap running_totals tail concat]. assert (zlen (side.*1) = zlen side) as Hs by (unfold zlen; by rewrite length_fmap).
      rewrite Hs, <-Hl. split.
      * destruct ((λ l : list (Z * IW), l.*1) <$> sides) as [|r rs]; cbn [running_totals tail] in *; by constructor.
      * rewrite <-!app_assoc. do 2 f_equal. destruct ((λ l : list (Z * IW), l.*1) <$> sides) as [|r rs]; done.
    + right. exists v. split; [done|]. split; [done|]. cbn [concat]. rewrite zlen_app. lia.
  - right. eexists. split; [done|]. split; [done|]. cbn [concat]. rewrite Hl, zlen_app. lia.
Qed.

(** The hyperedges whose row holds a vertex, ascending. *)
Definition relations_of (rows : list (list Z)) (v : nat) : list Z :=
  Z.of_nat <$> filter (λ h, Z.of_nat v ∈ default [] (rows !! h)) (seq 0 (length rows)).

Lemma elem_of_relations_of rows v h : h ∈ relations_of rows v ↔ ∃ i r, h = Z.of_nat i ∧ rows !! i = Some r ∧ Z.of_nat v ∈ r.
Proof.
  unfold relations_of. rewrite list_elem_of_fmap. setoid_rewrite list_elem_of_filter. setoid_rewrite elem_of_seq. split.
  - intros (i & -> & Hin & Hi). destruct (lookup_lt_is_Some_2 rows i) as [r Hr]; [lia|]. rewrite Hr in Hin. by exists i, r.
  - intros (i & r & -> & Hr & Hin). exists i. rewrite Hr. split_and!; [done|done|lia|]. by apply lookup_lt_Some in Hr.
Qed.

Lemma relations_of_ascending rows v : StronglySorted Z.lt (relations_of rows v).
Proof.
  unfold relations_of. generalize (length rows) as n. intros n. generalize 0%nat as k. induction n as [|n IH]; intros k; [constructor|].
  cbn [seq]. rewrite filter_cons. case_decide; [|apply IH]. rewrite fmap_cons. constructor; [apply IH|].
  apply Forall_forall. intros x (i & -> & [_ Hi%elem_of_seq]%list_elem_of_filter)%list_elem_of_fmap. lia.
Qed.

Lemma relations_of_snoc rows r v :
  relations_of (rows ++ [r]) v = relations_of rows v ++ (if decide (Z.of_nat v ∈ r) then [zlen rows] else []).
Proof.
  unfold relations_of. rewrite length_app, Nat.add_1_r, seq_S, filter_app, fmap_app. f_equal.
  - f_equal. apply filter_ext_in. intros i Hi%elem_of_seq. by rewrite lookup_app_l by lia.
  - rewrite filter_cons, filter_nil, Nat.add_0_l, list_lookup_middle by done. cbn. by case_decide.
Qed.

(** One row of the inverted index. *)
Lemma push_relation_pass relation (row : list Z) n (f : nat → list Z) :
  Z.of_nat n ≤ usize_max → NoDup row → Forall (λ v, 0 ≤ v < Z.of_nat n ∧ fits vw v) row →
  for_each (push_relation vw relation) row (tab n f) =
    Ok (tab n (λ v, f v ++ (if decide (Z.of_nat v ∈ row) then [relation] else []))).
Proof.
  intros Hn. revert f. induction row as [|v row IH]; intros f Hnd Hall.
  { cbn. f_equal. apply tab_ext. intros x _. by rewrite app_nil_r. }
  apply NoDup_cons in Hnd as [Hv Hnd]. apply Forall_cons in Hall as [[Hr Hf] Hall]. cbn [for_each].
  assert (push_relation vw relation (tab n f) v =
    Ok (tab n (λ y, if decide (y = Z.to_nat v) then f (Z.to_nat v) ++ [relation] else f y))) as ->.
  { unfold push_relation. assert (to_usize vw v = Some v) as -> by (apply to_usize_Some; [done|lia]). cbn [ok_or mbind res_bind].
    rewrite tab_vget by lia. cbn [mbind res_bind]. by rewrite tab_vset by lia. }
  cbn [mbind res_bind]. rewrite IH by done. f_equal.
  apply tab_ext. intros x Hx. cbn beta. destruct (decide (x = Z.to_nat v)) as [->|Hne].
  - rewrite Z2Nat.id by lia. rewrite decide_False by done. rewrite decide_True by (by left). by rewrite app_nil_r.
  - f_equal. assert (Z.of_nat x ∈ v :: row ↔ Z.of_nat x ∈ row) as Heq.
    { rewrite elem_of_cons. split; [intros [?|?]; [lia|done]|by right]. }
    by repeat case_decide; try tauto.
Qed.

Context {IW : Type} (role : HyperParticipantRole) (n : nat).

Definition rows_of (records : list (NormalizedHyperedgeRecord IW)) : list (list Z) := (λ r, (side_of role r).*1) <$> records.

(** Each row names distinct vertices below [n]. *)
Definition RowsIn (rows : list (list Z)) : Prop :=
  Forall (λ row, NoDup row ∧ Forall (λ v, 0 ≤ v < Z.of_nat n ∧ fits vw v) row) rows.

Lemma buckets_pass (records : list (NormalizedHyperedgeRecord IW)) :
  Z.of_nat n ≤ usize_max → zlen records ≤ usize_max → RowsIn (rows_of records) →
  (∀ h, 0 ≤ h < zlen records → fits rw h) →
  for_each (push_record vw rw role) (imap (λ i r, (i, r)) records) (replicate n []) = Ok (tab n (relations_of (rows_of records))).
Proof.
  intros Hn. induction records as [|r records IH] using rev_ind; intros Hlen Hrows Hids.
  { cbn. f_equal. apply list_eq_same_length with n; [by rewrite length_tab|by rewrite length_replicate|].
    intros i x y Hi. rewrite lookup_replicate, tab_lookup by done. intros [-> _] [= <-]. done. }
  unfold zlen in Hlen, Hids. rewrite length_app in Hlen, Hids. cbn [length] in Hlen, Hids.
  unfold rows_of in Hrows. rewrite fmap_app in Hrows. apply Forall_app in Hrows as [Hrows [[Hnd Hin] _]%Forall_cons].
  rewrite imap_app, for_each_app, IH; [|unfold zlen; lia|done|intros h Hh; apply Hids; unfold zlen in Hh; lia].
  cbn [mbind res_bind imap for_each]. unfold push_record. cbn [fst snd]. rewrite Nat.add_0_r.
  destruct (hyper_index_cases rw (Z.of_nat (length records))) as [[_ ->]|[Hf _]]; [lia| |destruct Hf; apply Hids; lia].
  cbn [mbind res_bind]. rewrite (push_relation_pass _ _ n) by done. cbn [mbind res_bind]. f_equal. apply tab_ext. intros v _.
  unfold rows_of. rewrite fmap_app. cbn [fmap list_fmap]. rewrite relations_of_snoc. unfold zlen. by rewrite length_fmap.
Qed.

(** Both directions hold the same number of incidences. *)
Lemma length_in_range (row : list Z) :
  NoDup row → Forall (λ v, 0 ≤ v < Z.of_nat n ∧ fits vw v) row → length (filter (λ v, Z.of_nat v ∈ row) (seq 0 n)) = length row.
Proof.
  intros Hnd Hall. rewrite <-(length_fmap Z.of_nat). apply Permutation_length, NoDup_Permutation; [|done|].
  - apply NoDup_fmap_2; [apply _|]. apply NoDup_filter, NoDup_seq.
  - intros v. rewrite list_elem_of_fmap. setoid_rewrite list_elem_of_filter. setoid_rewrite elem_of_seq. split.
    + by intros (i & -> & Hi & _).
    + intros Hv. rewrite Forall_forall in Hall. destruct (Hall v Hv) as [? _]. exists (Z.to_nat v). rewrite Z2Nat.id by lia. split_and!; (done || lia).
Qed.

Lemma length_concat_snoc {A} (f : nat → list A) P `{!∀ x : nat, Decision (P x)} (x : A) (l : list nat) :
  length (concat ((λ v, f v ++ (if decide (P v) then [x] else [])) <$> l)) = (length (concat (f <$> l)) + length (filter P l))%nat.
Proof.
  induction l as [|v l IH]; [done|]. rewrite !fmap_cons, filter_cons. cbn [concat]. rewrite !length_app, IH.
  case_decide; cbn [length]; lia.
Qed.

Lemma relations_total rows : RowsIn rows → length (concat (tab n (relations_of rows))) = length (concat rows).
Proof.
  induction rows as [|r rows IH] using rev_ind; intros Hrows.
  { unfold tab. induction (seq 0 n) as [|v l IH]; [done|]. by rewrite fmap_cons. }
  apply Forall_app in Hrows as [Hrows [[Hnd Hin] _]%Forall_cons]. rewrite concat_app, length_app. cbn [concat].
  rewrite app_nil_r, <-IH, <-(length_in_range r) by done. unfold tab. rewrite <-(length_concat_snoc _ _ (zlen rows)).
  do 2 f_equal. apply list_fmap_ext. intros i v _. apply relations_of_snoc.
Qed.

Lemma build_offset_index_fits {T} w (buckets : list (list T)) :
  zlen (concat buckets) ≤ usize_max → fits w (zlen (concat buckets)) →
  build_offset_index w buckets = Ok (running_totals 0 buckets, concat buckets).
Proof using Type.
  intros Hmax Hf. destruct (build_offset_index w buckets) as [[o i]|[v]| |] eqn:Hb.
  - by apply build_offset_index_Ok in Hb as (-> & -> & _).
  - apply build_offset_index_Err in Hb as [Hnf [? ?]]; [|done]. destruct Hnf, Hf. split; lia.
  - pose proof (build_offset_index_returns w buckets) as Hr. by rewrite Hb in Hr.
  - pose proof (build_offset_index_returns w buckets) as Hr. by rewrite Hb in Hr.
Qed.

Lemma vertex_relation_index_Ok (records : list (NormalizedHyperedgeRecord IW)) :
  Z.of_nat n ≤ usize_max → zlen records ≤ usize_max → RowsIn (rows_of records) →
  (∀ h, 0 ≤ h < zlen records → fits rw h) →
  zlen (concat (rows_of records)) ≤ usize_max → fits iw (zlen (concat (rows_of records))) →
  build_vertex_relation_index vw rw iw (Z.of_nat n) records role =
    Ok (running_totals 0 (tab n (relations_of (rows_of records))), concat (tab n (relations_of (rows_of records)))).
Proof.
  intros Hn Hlen Hrows Hids Hmax Hf. unfold build_vertex_relation_index. rewrite Nat2Z.id, buckets_pass by done. cbn [mbind res_bind].
  assert (zlen (concat (tab n (relations_of (rows_of records)))) = zlen (concat (rows_of records))) as Ht.
  { unfold zlen. by rewrite relations_total. }
  by rewrite build_offset_index_fits by by rewrite Ht.
Qed.

End passes.

(** ** The built topology *)

(** The arrays of the hypergraph with [n] vertices whose hyperedge [h] runs from
    [hs !! h] to [ts !! h]. *)
Definition hyper_topology (n : nat) (hs ts : list (list Z)) : FrozenHyperTopology := {|
  ht_vertex_count := Z.of_nat n;
  ht_head_offsets := running_totals 0 hs; ht_head_participants := concat hs;
  ht_tail_offsets := running_totals 0 ts; ht_tail_participants := concat ts;
  ht_vertex_outgoing_offsets := running_totals 0 (tab n (relations_of hs));
  ht_vertex_outgoing_hyperedges := concat (tab n (relations_of hs));
  ht_vertex_incoming_offsets := running_totals 0 (tab n (relations_of ts));
  ht_vertex_incoming_hyperedges := concat (tab n (relations_of ts))
|}.

Section topology.
Context `{!Target} (vw rw iw : width).

Lemma zlen_rows_of {IW} role (records : list (NormalizedHyperedgeRecord IW)) :
  zlen (concat (rows_of role records)) = zlen (concat (side_of role <$> records)).
Proof.
  unfold rows_of, zlen. f_equal. induction records as [|r l IH]; [done|]. rewrite !fmap_cons. cbn [concat].
  by rewrite !length_app, length_fmap, IH.
Qed.

Lemma totals_fit {T} (rows : list (list T)) : Forall (fits iw) (tail (running_totals 0 rows)) → fits iw (zlen (concat rows)).
Proof.
  intros Hall. assert (running_totals 0 rows = 0 :: tail (running_totals 0 rows)) as Hr by by destruct rows.
  pose proof (running_totals_lookup 0 rows (length rows) (le_n _)) as Hl. rewrite take_ge, Z.add_0_l, Hr in Hl by done.
  apply list_elem_of_lookup_2, elem_of_cons in Hl as [->|Hl]; [apply fits_0|]. rewrite Forall_forall in Hall. by apply Hall.
Qed.

Lemma build_topology_cases {IW} n (records : list (NormalizedHyperedgeRecord IW)) :
  let hs := rows_of SourceRole records in let ts := rows_of TargetRole records in
  Z.of_nat n ≤ usize_max → zlen records ≤ usize_max → RowsIn vw n hs → RowsIn vw n ts →
  (∀ h, 0 ≤ h < zlen records → fits rw h) → zlen (concat hs) ≤ usize_max → zlen (concat ts) ≤ usize_max →
  (fits iw (zlen (concat hs)) ∧ fits iw (zlen (concat ts)) ∧
    build_topology vw rw iw (Z.of_nat n) records =
      Ok (hyper_topology n hs ts, concat ((λ r, (nr_sources r).*2) <$> records) ++ concat ((λ r, (nr_targets r).*2) <$> records))) ∨
  (¬ (fits iw (zlen (concat hs)) ∧ fits iw (zlen (concat ts))) ∧
    ∃ v, build_topology vw rw iw (Z.of_nat n) records = Err (HyperIdOverflow v) ∧ ¬ fits iw v).
Proof.
  cbn zeta. intros Hn Hlen Hh Ht Hids Hhm Htm. unfold build_topology. pose proof usize_max_bounds as Hu.
  destruct (hyper_index_cases iw 0) as [[_ ->]|[Hf _]]; [lia| |destruct Hf; apply fits_0]. cbn [mbind res_bind].
  pose proof (zlen_rows_of SourceRole records) as Hzh. pose proof (zlen_rows_of TargetRole records) as Hzt.
  change (side_of SourceRole <$> records) with (nr_sources <$> records) in Hzh.
  change (side_of TargetRole <$> records) with (nr_targets <$> records) in Hzt. change (zlen []) with 0 in *.
  destruct (push_participants_cases iw (nr_sources <$> records) [] [] [0]) as [[Hhf ->]|(v & -> & Hv & Hb)]; [rewrite Hzh in Hhm; exact Hhm| |].
  2:{ right. split; [|by exists v]. intros [[_ Hf] _]. apply Hv. split; [lia|]. change (zlen []) with 0 in Hb. etrans; [|exact Hf]. lia. }
  cbn [mbind res_bind].
  destruct (push_participants_cases iw (nr_targets <$> records) [] (concat ((λ l : list (Z * IW), l.*2) <$> (nr_sources <$> records))) [0])
    as [[Htf Hr]|(v & Hr & Hv & Hb)]; [rewrite Hzt in Htm; exact Htm| |]; cbn [app] in *; rewrite Hr; cbn [mbind res_bind].
  2:{ right. split; [|by exists v]. intros [_ [_ Hf]]. apply Hv. split; [lia|]. change (zlen []) with 0 in Hb. etrans; [|exact Hf]. lia. }
  rewrite <-!list_fmap_compose in *. change (zlen []) with 0 in *.
  change (compose (λ l : list (Z * IW), l.*1) nr_sources <$> records) with (rows_of SourceRole records) in *.
  change (compose (λ l : list (Z * IW), l.*1) nr_targets <$> records) with (rows_of TargetRole records) in *.
  assert (∀ T (rows : list (list T)), 0 :: tail (running_totals 0 rows) = running_totals 0 rows) as Hcons by (intros T []; done).
  rewrite !Hcons. apply totals_fit in Hhf, Htf.
  left. split; [done|]. split; [done|].
  rewrite (vertex_relation_index_Ok _ _ _ SourceRole) by done. cbn [mbind res_bind].
  rewrite (vertex_relation_index_Ok _ _ _ TargetRole) by done. done.
Qed.

End topology.

(** ** Flattened rows as words *)

Section words.
Context `{!Target} {OW W : Type} `{!LayoutWord OW, !LayoutWord W}.
Context (rows : list (list Z)) (offsets : list OW) (values : list W) (bound : Z).
Hypothesis Hoffsets : id_slice offsets = running_totals 0 rows.
Hypothesis Hvalues : id_slice values = concat rows.
Hypothesis Hmax : zlen (concat rows) ≤ usize_max.

Lemma zlen_values : zlen values = zlen (concat rows).
Proof using Hvalues. unfold zlen. rewrite <-Hvalues. unfold id_slice. by rewrite length_fmap. Qed.

Lemma flat_offsets : OffsetsOk offsets (zlen rows) (zlen values).
Proof using Hoffsets Hvalues Hmax. rewrite zlen_values. by apply running_totals_ok. Qed.

Lemma flat_offset_at i : (i ≤ length rows)%nat → offset_at offsets i = zlen (concat (take i rows)).
Proof using Hoffsets.
  intros Hi. pose proof (running_totals_lookup 0 rows i Hi) as Hr. rewrite <-Hoffsets in Hr. unfold id_slice in Hr.
  rewrite list_lookup_fmap in Hr. apply fmap_Some in Hr as (w & Hw & Hz). unfold offset_at. rewrite Hw. cbn. lia.
Qed.

Lemma flat_row i r : rows !! i = Some r → zrow offsets values i = r.
Proof using Hoffsets Hvalues.
  intros Hr. pose proof (lookup_lt_Some _ _ _ Hr) as Hi. unfold zrow, bucket, id_slice in *. rewrite fmap_take, fmap_drop, Hvalues.
  rewrite !flat_offset_at by lia. rewrite (take_S_r _ _ _ Hr), concat_app, zlen_app. cbn [concat]. rewrite app_nil_r.
  replace (Z.to_nat (zlen (concat (take i rows)) + zlen r - zlen (concat (take i rows)))) with (length r) by (unfold zlen; lia).
  unfold zlen. rewrite Nat2Z.id. by apply concat_row.
Qed.

Lemma flat_rows_ok :
  Forall (StronglySorted Z.lt) rows → Forall (λ v, v < bound ∧ v ≤ usize_max) (concat rows) →
  RowsOk offsets values (zlen rows) bound.
Proof using Hoffsets Hvalues Hmax.
  intros Hasc Hb. split; [apply flat_offsets| |].
  - rewrite <-Hvalues in Hb. unfold id_slice in Hb. by apply Forall_fmap in Hb.
  - intros i lo hi Hlo Hhi j x y Hj Hj' Hx Hy. pose proof flat_offsets as Hoff.
    assert (i < length rows)%nat as Hi.
    { apply lookup_lt_Some in Hhi. pose proof (offsets_len _ _ _ Hoff) as Hl. unfold zlen in Hl. lia. }
    destruct (lookup_lt_is_Some_2 rows i Hi) as [r Hr]. rewrite Forall_forall in Hasc.
    assert (StronglySorted Z.lt r) as Hs by (apply Hasc; by eapply list_elem_of_lookup_2).
    pose proof (offset_at_Some _ _ _ Hlo) as Hlo'. pose proof (offset_at_Some _ _ _ Hhi) as Hhi'.
    pose proof (word_get_nonneg lo). set (k := (j - Z.to_nat (word_get lo))%nat).
    assert (∀ m w, (m ≤ S k)%nat → values !! (Z.to_nat (word_get lo) + m)%nat = Some w → r !! m = Some (word_get w)) as Hget.
    { intros m w Hm Hw. rewrite <-(flat_row i r Hr). unfold zrow, id_slice. rewrite list_lookup_fmap.
      rewrite (proj2 (lookup_bucket _ _ _ Hoff i m w ltac:(unfold zlen; lia))); [done|].
      rewrite Hlo', Hhi'. split; [unfold k in Hm; lia|done]. }
    rewrite StronglySorted_lookup in Hs. apply (Hs k (S k)); [lia|apply Hget; [lia|]|apply Hget; [lia|]].
    + by replace (Z.to_nat (word_get lo) + k)%nat with j by (unfold k; lia).
    + by replace (Z.to_nat (word_get lo) + S k)%nat with (S j) by (unfold k; lia).
Qed.

End words.

(** ** Sections that hold a built topology *)

Section built.
Context `{!Target} {OW VW RW : Type} `{!LayoutWord OW, !LayoutWord VW, !LayoutWord RW}.
Context (vw : width) (n : nat) (hs ts : list (list Z)) (s : BcsrSections OW VW RW).

(** Rows of distinct vertices below [n], ascending. *)
Record HyperRows : Prop := {
  hy_heads : RowsIn vw n hs;
  hy_tails : RowsIn vw n ts;
  hy_heads_asc : Forall (StronglySorted Z.lt) hs;
  hy_tails_asc : Forall (StronglySorted Z.lt) ts;
  hy_length : length ts = length hs;
  hy_vertices : Z.of_nat n + 1 ≤ usize_max;
  hy_hyperedges : zlen hs + 1 ≤ usize_max;
  hy_total : zlen (concat hs) + zlen (concat ts) ≤ usize_max
}.

(** Words that read as the arrays of the topology. *)
Record HoldsTopology : Prop := {
  ho_head_offsets : id_slice (head_offsets s) = running_totals 0 hs;
  ho_head_participants : id_slice (head_participants s) = concat hs;
  ho_tail_offsets : id_slice (tail_offsets s) = running_totals 0 ts;
  ho_tail_participants : id_slice (tail_participants s) = concat ts;
  ho_out_offsets : id_slice (vertex_outgoing_offsets s) = running_totals 0 (tab n (relations_of hs));
  ho_out_hyperedges : id_slice (vertex_outgoing_hyperedges s) = concat (tab n (relations_of hs));
  ho_in_offsets : id_slice (vertex_incoming_offsets s) = running_totals 0 (tab n (relations_of ts));
  ho_in_hyperedges : id_slice (vertex_incoming_hyperedges s) = concat (tab n (relations_of ts))
}.

Hypothesis Hrows : HyperRows.
Hypothesis Hs : HoldsTopology.

Lemma zlen_running_totals {T} (rows : list (list T)) (l : list OW) :
  id_slice l = running_totals 0 rows → zlen l - 1 = zlen rows.
Proof using Type.
  intros Hl. unfold zlen. assert (length l = S (length rows)); [|lia].
  rewrite <-(length_running_totals 0 rows), <-Hl. unfold id_slice. by rewrite length_fmap.
Qed.

Lemma built_hyperedges : hyperedges s = zlen hs.
Proof using Hs. apply zlen_running_totals, Hs. Qed.
Lemma built_vertices : vertices s = Z.of_nat n.
Proof using Hs. unfold vertices. rewrite (zlen_running_totals _ _ (ho_out_offsets Hs)). unfold zlen. by rewrite length_tab. Qed.

Lemma relations_bound rows : zlen rows ≤ usize_max → Forall (λ v, v < zlen rows ∧ v ≤ usize_max) (concat (tab n (relations_of rows))).
Proof using Type.
  intros Hm. apply Forall_concat, Forall_forall. intros b (v & -> & _)%list_elem_of_fmap. apply Forall_forall.
  intros h (i & r & -> & Hr%lookup_lt_Some & _)%elem_of_relations_of. unfold zlen in *. lia.
Qed.

Lemma relations_sorted rows : Forall (StronglySorted Z.lt) (tab n (relations_of rows)).
Proof using Type. apply Forall_forall. intros b (v & -> & _)%list_elem_of_fmap. apply relations_of_ascending. Qed.

Lemma rows_in_bound rows : RowsIn vw n rows → Z.of_nat n ≤ usize_max → Forall (λ v, v < Z.of_nat n ∧ v ≤ usize_max) (concat rows).
Proof using Type.
  intros Hr Hn. apply Forall_concat. eapply Forall_impl; [exact Hr|]. cbn. intros r [_ Hr']. eapply Forall_impl; [exact Hr'|].
  cbn. intros v [? _]. lia.
Qed.

Lemma zlen_relations rows : RowsIn vw n rows → zlen (concat (tab n (relations_of rows))) = zlen (concat rows).
Proof using Type. intros Hr. unfold zlen. f_equal. by eapply relations_total. Qed.

Lemma built_layout : BcsrLayout s.
Proof using Hrows Hs.
  destruct Hrows as [Hh Ht Hha Hta Hl Hn He Htot]. pose proof (zlen_relations hs Hh) as Hzh. pose proof (zlen_relations ts Ht) as Hzt.
  assert (zlen ts = zlen hs) as Hlz by (unfold zlen; lia). pose proof (zlen_nonneg hs).
  pose proof (zlen_nonneg (concat hs)). pose proof (zlen_nonneg (concat ts)).
  assert (zlen (tab n (relations_of hs)) = Z.of_nat n ∧ zlen (tab n (relations_of ts)) = Z.of_nat n) as [Hnh Hnt]
    by (unfold zlen; by rewrite !length_tab).
  split; rewrite ?built_vertices, ?built_hyperedges; [lia|lia|..].
  - apply flat_rows_ok; [apply Hs|apply Hs|lia|done|apply rows_in_bound; [done|lia]].
  - rewrite <-Hlz. apply flat_rows_ok; [apply Hs|apply Hs|lia|done|apply rows_in_bound; [done|lia]].
  - rewrite <-Hnh. apply flat_rows_ok; [apply Hs|apply Hs|lia|apply relations_sorted|apply relations_bound; lia].
  - rewrite <-Hnt, <-Hlz. apply flat_rows_ok; [apply Hs|apply Hs|lia|apply relations_sorted|apply relations_bound; lia].
  - rewrite (zlen_values _ _ (ho_head_participants Hs)), (zlen_values _ _ (ho_out_hyperedges Hs)). done.
  - rewrite (zlen_values _ _ (ho_tail_participants Hs)), (zlen_values _ _ (ho_in_hyperedges Hs)). done.
  - rewrite (zlen_values _ _ (ho_out_hyperedges Hs)), (zlen_values _ _ (ho_in_hyperedges Hs)). lia.
Qed.

(** The rows of the view are the rows built. *)
Lemma built_heads h r : hs !! h = Some r → heads s h = r.
Proof using Hs. apply flat_row; apply Hs. Qed.
Lemma built_tails h r : ts !! h = Some r → tails s h = r.
Proof using Hs. apply flat_row; apply Hs. Qed.
Lemma built_outs v : (v < n)%nat → outs s v = relations_of hs v.
Proof using Hs. intros Hv. apply (flat_row (tab n (relations_of hs))); [apply Hs..|by apply tab_lookup]. Qed.
Lemma built_ins v : (v < n)%nat → ins s v = relations_of ts v.
Proof using Hs. intros Hv. apply (flat_row (tab n (relations_of ts))); [apply Hs..|by apply tab_lookup]. Qed.

(** Both directions of one side agree. *)
Lemma cross_side (rows : list (list Z)) (fwd bwd : nat → list Z) :
  RowsIn vw n rows → (∀ h r, rows !! h = Some r → fwd h = r) → (∀ h, zlen rows ≤ Z.of_nat h → fwd h = []) →
  (∀ v, (v < n)%nat → bwd v = relations_of rows v) → (∀ v, Z.of_nat n ≤ Z.of_nat v → bwd v = []) →
  ∀ h v, Z.of_nat v ∈ fwd h ↔ Z.of_nat h ∈ bwd v.
Proof using Type.
  intros Hr Hf Hfo Hb Hbo h v. split.
  - intros Hv. destruct (rows !! h) as [r|] eqn:Hrh.
    2:{ apply lookup_ge_None in Hrh. rewrite Hfo in Hv by (unfold zlen; lia). by apply elem_of_nil in Hv. }
    rewrite (Hf _ _ Hrh) in Hv. unfold RowsIn in Hr. rewrite Forall_lookup in Hr. destruct (Hr _ _ Hrh) as [_ Hin]. rewrite Forall_forall in Hin.
    destruct (Hin _ Hv) as [? _]. rewrite Hb by lia. apply elem_of_relations_of. by exists h, r.
  - intros Hh. destruct (decide (v < n)%nat) as [Hv|Hv]; [|rewrite Hbo in Hh by lia; by apply elem_of_nil in Hh].
    rewrite Hb in Hh by done. apply elem_of_relations_of in Hh as (i & r & Hi & Hri & Hin). assert (h = i) as -> by lia.
    by rewrite (Hf _ _ Hri).
Qed.

Lemma built_cross : BcsrCross s.
Proof using Hrows Hs.
  pose proof built_layout as Hlay. intros h v. pose proof built_hyperedges as Hhe. pose proof built_vertices as Hve.
  assert (zlen ts = zlen hs) as Hlz by (unfold zlen; rewrite (hy_length Hrows); done). split; revert h v.
  - apply (cross_side hs); [apply Hrows|apply built_heads| |apply built_outs|].
    + intros h Hh. unfold heads. eapply zrow_out; [apply Hlay|]. lia.
    + intros v Hv. unfold outs. eapply zrow_out; [apply Hlay|]. lia.
  - apply (cross_side ts); [apply Hrows|apply built_tails| |apply built_ins|].
    + intros h Hh. unfold tails. eapply zrow_out; [apply Hlay|]. lia.
    + intros v Hv. unfold ins. eapply zrow_out; [apply Hlay|]. lia.
Qed.

Lemma built_ok level : BcsrOk s level.
Proof using Hrows Hs. split; [apply built_layout|]. destruct level; [done|apply built_cross]. Qed.

Lemma built_opens level : bcsr_open_with s level = Ok (view_of s).
Proof using Hrows Hs.
  unfold bcsr_open_with. destruct (validate_decides s level) as [[-> _]|(e & _ & _ & Hn)]; [done|]. destruct Hn. apply built_ok.
Qed.

End built.
