(* ===== verification/BcsrFreeze.v ===== *)
(** * BcsrFreeze: frozen hypergraphs, their view and their snapshot

    What a reachable hypergraph builder accepts, and what it freezes into: the
    view that lists, for every hyperedge, its sorted sources and targets, and
    for every vertex its hyperedges in insertion order; the weights that follow
    the incidence ids; the exported file, which opens as the same view. *)

From stdpp Require Import base gmap sets list sorting.
From S2P Require Import Prelude Bytes Layout Crc Snapshot SnapshotFacts SnapshotWrite SnapshotWriteFacts SnapshotTyped.
From S2P Require Import Topology Csr CsrFacts CsrBuild CsrBuildFacts CsrFreeze Search Bcsr BcsrFacts BcsrBuild BcsrBuildFacts.

Local Open Scope Z_scope.

(** ** What the builders maintain *)

Section builders.
Context `{!Target} (vw rw : width).

(** The vertices so far, and the sources and targets of every hyperedge. *)
Record HyperInv (count : Z) (hs ts : list (list Z)) : Prop := {
  hi_count : 0 ≤ count ≤ usize_max;
  hi_ids x : 0 ≤ x < count → fits vw x;
  hi_heads : RowsIn vw (Z.to_nat count) hs;
  hi_tails : RowsIn vw (Z.to_nat count) ts;
  hi_length : length ts = length hs;
  hi_relations h : 0 ≤ h < zlen hs → fits rw h
}.

Lemma HyperInv_empty : HyperInv 0 [] [].
Proof using Type. pose proof usize_max_bounds. split; [lia|lia|constructor|constructor|done|unfold zlen; cbn; lia]. Qed.

Lemma RowsIn_mono n m rows : (n ≤ m)%nat → RowsIn vw n rows → RowsIn vw m rows.
Proof using Type.
  intros Hnm Hr. eapply Forall_impl; [exact Hr|]. cbn. intros r [? Hf]. split; [done|]. eapply Forall_impl; [exact Hf|]. cbn.
  intros v [? ?]. split; [lia|done].
Qed.

Lemma add_vertex_inv count hs ts id count' :
  HyperInv count hs ts → from_usize vw count = Some id → checked_add usize_max count 1 = Some count' → HyperInv count' hs ts.
Proof using Type.
  intros [Hc Hid Hh Ht Hl Hr] [-> Hf]%from_usize_Some [? ->]%checked_add_Some; [|done].
  split; [lia| | | |done|done].
  - intros x Hx. destruct (decide (x = count)) as [->|]; [done|]. apply Hid. lia.
  - eapply RowsIn_mono; [|done]. lia.
  - eapply RowsIn_mono; [|done]. lia.
Qed.

Lemma ensure_vertices_cases count participants :
  0 ≤ count ≤ usize_max → Forall (fits vw) participants →
  (ensure_vertices vw count participants = Ok () ∧ Forall (λ v, v < count) participants) ∨
  (∃ v, ensure_vertices vw count participants = Err (InvalidVertex v) ∧ v ∈ participants ∧ count ≤ v).
Proof using Type.
  intros Hc. induction 1 as [|v vs Hv Hvs IH]; [by left|]. unfold ensure_vertices in *. cbn [for_each].
  assert ((vertex_index_checked vw count v = Ok v ∧ v < count) ∨ (vertex_index_checked vw count v = Err (InvalidVertex v) ∧ count ≤ v))
    as [[-> Hlt]|[-> Hge]].
  { unfold vertex_index_checked, id_to_slot. destruct (to_usize vw v) as [s|] eqn:Hs; cbn [ok_or mbind res_bind map_err].
    - apply to_usize_Some in Hs as [-> ?]; [|done]. case_decide; [left; done|right; split; [done|lia]].
    - right. split; [done|]. destruct (decide (v ≤ usize_max)) as [Hle|]; [|lia].
      assert (to_usize vw v = Some v) by (by apply to_usize_Some). congruence. }
  - cbn [mbind res_bind]. destruct IH as [[-> Hall]|(u & -> & Hin & Hu)]; [left|right].
    + split; [done|by constructor].
    + exists u. split; [done|]. split; [by right|done].
  - right. exists v. split; [done|]. split; [by left|done].
Qed.

(** [add_hyperedge]'s guards, for either builder. *)
Definition guards (count : Z) (relations : Z) (sources targets : list Z) : res HyperBuildError Z :=
  _ ← ensure_vertices vw count sources;
  _ ← ensure_vertices vw count targets;
  _ ← ensure_unique_participants sources SourceRole;
  _ ← ensure_unique_participants targets TargetRole;
  ok_or (HyperIdOverflow relations) (from_usize rw relations).

(** What a refusal says. *)
Definition hyper_refusal (count relations : Z) (sources targets : list Z) (e : HyperBuildError) : Prop :=
  match e with
  | InvalidVertex v => v ∈ sources ++ targets ∧ count ≤ v
  | DuplicateParticipant v SourceRole => v ∈ sources ∧ ¬ NoDup sources
  | DuplicateParticipant v TargetRole => v ∈ targets ∧ ¬ NoDup targets
  | HyperIdOverflow value => value = relations ∧ ¬ fits rw relations
  | _ => False
  end.

Definition hyper_accepts (count relations : Z) (sources targets : list Z) : Prop :=
  Forall (λ v, v < count) (sources ++ targets) ∧ NoDup sources ∧ NoDup targets ∧ fits rw relations.

Lemma guards_cases count relations sources targets :
  0 ≤ count ≤ usize_max → 0 ≤ relations ≤ usize_max → Forall (fits vw) sources → Forall (fits vw) targets →
  (guards count relations sources targets = Ok relations ∧ hyper_accepts count relations sources targets) ∨
  (∃ e, guards count relations sources targets = Err e ∧ hyper_refusal count relations sources targets e ∧
    ¬ hyper_accepts count relations sources targets).
Proof using Type.
  intros Hc Hr Hs Ht. unfold guards, hyper_accepts, hyper_refusal.
  destruct (ensure_vertices_cases count sources Hc Hs) as [[-> Hsc]|(v & -> & Hv & Hge)]; cbn [mbind res_bind].
  2:{ right. eexists. split; [done|]. split; [split; [apply elem_of_app; by left|done]|]. rewrite Forall_app, Forall_forall. intros [[Hall _] _].
      specialize (Hall v Hv). lia. }
  destruct (ensure_vertices_cases count targets Hc Ht) as [[-> Htc]|(v & -> & Hv & Hge)]; cbn [mbind res_bind].
  2:{ right. eexists. split; [done|]. split; [split; [apply elem_of_app; by right|done]|]. rewrite Forall_app, !Forall_forall. intros [[_ Hall] _].
      specialize (Hall v Hv). lia. }
  destruct (ensure_unique_cases sources SourceRole) as [[-> Hsd]|(v & -> & Hd & Hv)]; cbn [mbind res_bind].
  2:{ right. eexists. split; [done|]. split; [done|]. tauto. }
  destruct (ensure_unique_cases targets TargetRole) as [[-> Htd]|(v & -> & Hd & Hv)]; cbn [mbind res_bind].
  2:{ right. eexists. split; [done|]. split; [done|]. tauto. }
  destruct (from_usize rw relations) as [o|] eqn:Ho; cbn [ok_or].
  - apply from_usize_Some in Ho as [-> ?]; [|done]. left. split; [done|]. rewrite Forall_app. done.
  - right. eexists. split; [done|]. assert (¬ fits rw relations); [|tauto]. intros Hf.
    assert (from_usize rw relations = Some relations) by (by apply from_usize_Some). congruence.
Qed.

Lemma add_hyperedge_inv count hs ts sources targets :
  HyperInv count hs ts → Forall (fits vw) sources → Forall (fits vw) targets →
  hyper_accepts count (zlen hs) sources targets → HyperInv count (hs ++ [sources]) (ts ++ [targets]).
Proof using Type.
  intros [Hc Hid Hh Ht Hl Hr] Hfs Hft ([Hsc Htc]%Forall_app & Hsd & Htd & Hf).
  assert (∀ l, Forall (fits vw) l → Forall (λ v, v < count) l → Forall (λ v, 0 ≤ v < Z.of_nat (Z.to_nat count) ∧ fits vw v) l) as Hrow.
  { intros l Hlf Hlc. rewrite Forall_forall in Hlf, Hlc |- *. intros v Hv. specialize (Hlf v Hv) as [? ?]. specialize (Hlc v Hv).
    split; [lia|by split]. }
  split; [done|done| | | |].
  - apply Forall_app. split; [done|]. apply Forall_singleton. auto.
  - apply Forall_app. split; [done|]. apply Forall_singleton. auto.
  - rewrite !length_app. cbn. lia.
  - intros h Hlt. rewrite zlen_app in Hlt. change (zlen [sources]) with 1 in Hlt.
    destruct (decide (h = zlen hs)) as [->|]; [done|]. apply Hr. lia.
Qed.

(** ** The unweighted builder *)

(** The builders the API reaches; an argument of an index type is in its range. *)
Inductive hyper_reach : HypergraphBuilder → Prop :=
  | hyper_reach_new : hyper_reach HypergraphBuilder_new
  | hyper_reach_vertex b id b' : hyper_reach b → add_vertex vw b = Ok (id, b') → hyper_reach b'
  | hyper_reach_hyperedge b sources targets id b' : hyper_reach b → Forall (fits vw) sources → Forall (fits vw) targets →
      add_hyperedge vw rw b sources targets = Ok (id, b') → zlen (hb_hyperedges b) ≤ usize_max → hyper_reach b'.

Definition sources_of (b : HypergraphBuilder) : list (list Z) := hr_sources <$> hb_hyperedges b.
Definition targets_of (b : HypergraphBuilder) : list (list Z) := hr_targets <$> hb_hyperedges b.

Lemma zlen_sources_of b : zlen (sources_of b) = zlen (hb_hyperedges b).
Proof using Type. unfold zlen, sources_of. by rewrite length_fmap. Qed.

Lemma add_hyperedge_guards b sources targets :
  add_hyperedge vw rw b sources targets =
    (id ← guards (hb_vertex_count b) (zlen (hb_hyperedges b)) sources targets;
     Ok (id, {| hb_vertex_count := hb_vertex_count b;
                hb_hyperedges := hb_hyperedges b ++ [{| hr_sources := sources; hr_targets := targets |}] |})).
Proof using Type.
  unfold add_hyperedge, guards. destruct (ensure_vertices vw _ sources) as [[]| | |]; [|done..].
  destruct (ensure_vertices vw _ targets) as [[]| | |]; [|done..].
  destruct (ensure_unique_participants sources _) as [[]| | |]; [|done..].
  by destruct (ensure_unique_participants targets _) as [[]| | |].
Qed.

Lemma hyper_inv b : hyper_reach b → HyperInv (hb_vertex_count b) (sources_of b) (targets_of b).
Proof using Type.
  induction 1 as [|b id b' _ IH Hadd|b sources targets id b' _ IH Hs Ht Hadd Hm]; [apply HyperInv_empty| |].
  - unfold add_vertex in Hadd. apply bind_Ok_inv in Hadd as (i & Hi%ok_or_Ok & Hadd).
    apply bind_Ok_inv in Hadd as (c & Hc%ok_or_Ok & [= <- <-]). by eapply add_vertex_inv.
  - rewrite add_hyperedge_guards in Hadd. apply bind_Ok_inv in Hadd as (i & Hg & [= <- <-]).
    pose proof (hi_count _ _ _ IH). pose proof (zlen_nonneg (hb_hyperedges b)).
    destruct (guards_cases (hb_vertex_count b) (zlen (hb_hyperedges b)) sources targets) as [[_ Ha]|(e & He & _)]; [done|lia|done|done| |congruence].
    unfold sources_of, targets_of in *. cbn [hb_hyperedges hb_vertex_count]. rewrite !fmap_app. apply add_hyperedge_inv; [done..|].
    fold (sources_of b). by rewrite zlen_sources_of.
Qed.

(** [add_hyperedge] never panics. It accepts exactly the hyperedges whose
    participants are vertices of the builder, with no vertex twice on one side,
    while the new id fits the relation width; it then appends the record, and
    otherwise leaves the builder as it was and names an offending vertex, the
    repeated one or the id. *)
Theorem add_hyperedge_exact b sources targets :
  hyper_reach b → Forall (fits vw) sources → Forall (fits vw) targets → zlen (hb_hyperedges b) ≤ usize_max →
  let n := zlen (hb_hyperedges b) in
  (add_hyperedge vw rw b sources targets =
     Ok (n, {| hb_vertex_count := hb_vertex_count b;
               hb_hyperedges := hb_hyperedges b ++ [{| hr_sources := sources; hr_targets := targets |}] |}) ∧
   hyper_accepts (hb_vertex_count b) n sources targets) ∨
  (∃ e, add_hyperedge vw rw b sources targets = Err e ∧ hyper_refusal (hb_vertex_count b) n sources targets e ∧
   ¬ hyper_accepts (hb_vertex_count b) n sources targets).
Proof using Type.
  cbn zeta. intros Hb Hs Ht Hm. rewrite add_hyperedge_guards. pose proof (hi_count _ _ _ (hyper_inv b Hb)).
  pose proof (zlen_nonneg (hb_hyperedges b)).
  destruct (guards_cases (hb_vertex_count b) (zlen (hb_hyperedges b)) sources targets) as [[-> Ha]|(e & -> & He)]; [done|lia|done|done|by left|].
  right. by exists e.
Qed.

End builders.

(** ** Freezing *)

Section freeze.
Context `{!Target} (vw rw iw : width).

Definition sorted_rows (rows : list (list Z)) : list (list Z) := sort_by_key id <$> rows.

Lemma zlen_concat_sorted rows : zlen (concat (sorted_rows rows)) = zlen (concat rows).
Proof using Type.
  unfold zlen, sorted_rows. f_equal. induction rows as [|r rows IH]; [done|]. rewrite fmap_cons. cbn [concat]. rewrite !length_app, IH.
  f_equal. apply Permutation_length, sort_by_key_perm.
Qed.

Lemma RowsIn_sorted n rows : RowsIn vw n rows → RowsIn vw n (sorted_rows rows).
Proof using Type.
  intros Hr. apply Forall_fmap. eapply Forall_impl; [exact Hr|]. cbn. intros r. pose proof (sort_by_key_perm id r) as Hp.
  by rewrite Hp.
Qed.

Lemma sorted_rows_ascending n rows : RowsIn vw n rows → Forall (StronglySorted Z.lt) (sorted_rows rows).
Proof using Type. intros Hr. apply Forall_fmap. eapply Forall_impl; [exact Hr|]. intros r [? _]. by apply sort_strict. Qed.

(** The topology a builder in this state freezes into. *)
Definition built_topology (count : Z) (hs ts : list (list Z)) : FrozenHyperTopology :=
  hyper_topology (Z.to_nat count) (sorted_rows hs) (sorted_rows ts).

(** The vertex count, hyperedge count and participant total a process can hold. *)
Definition in_memory (count : Z) (hs ts : list (list Z)) : Prop :=
  count < usize_max ∧ zlen hs < usize_max ∧ zlen (concat hs) + zlen (concat ts) ≤ usize_max.

Section state.
Context (count : Z) (hs ts : list (list Z)).
Hypothesis Hinv : HyperInv vw rw count hs ts.
Hypothesis Hmem : in_memory count hs ts.

Lemma sorted_hyper_rows : HyperRows vw (Z.to_nat count) (sorted_rows hs) (sorted_rows ts).
Proof using All.
  destruct Hinv as [Hc _ Hh Ht Hl _], Hmem as (Hn & He & Hm). split.
  - by apply RowsIn_sorted.
  - by apply RowsIn_sorted.
  - by eapply sorted_rows_ascending.
  - by eapply sorted_rows_ascending.
  - unfold sorted_rows. by rewrite !length_fmap.
  - lia.
  - unfold zlen, sorted_rows in *. rewrite length_fmap. lia.
  - rewrite !zlen_concat_sorted. lia.
Qed.

Lemma totals_all_fit {T} w (rows : list (list T)) : fits w (zlen (concat rows)) → Forall (fits w) (running_totals 0 rows).
Proof using Type.
  intros [_ Hf]. apply Forall_lookup. intros i x Hx. pose proof (lookup_lt_Some _ _ _ Hx) as Hi. rewrite length_running_totals in Hi.
  rewrite running_totals_lookup in Hx by lia. injection Hx as <-. rewrite Z.add_0_l. split; [apply zlen_nonneg|].
  etrans; [|exact Hf]. rewrite <-(take_drop i rows) at 2. rewrite concat_app, zlen_app. pose proof (zlen_nonneg (concat (drop i rows))). lia.
Qed.

Lemma rows_values_fit n rows : RowsIn vw n rows → Forall (fits vw) (concat rows).
Proof using Type.
  intros Hr. apply Forall_concat. eapply Forall_impl; [exact Hr|]. cbn. intros r [_ Hf]. eapply Forall_impl; [exact Hf|]. by intros v [_ ?].
Qed.

Lemma relation_values_fit n rows : (∀ h, 0 ≤ h < zlen rows → fits rw h) → Forall (fits rw) (concat (tab n (relations_of rows))).
Proof using Type.
  intros Hf. apply Forall_concat, Forall_forall. intros b (v & -> & _)%list_elem_of_fmap. apply Forall_forall.
  intros h (i & r & -> & Hr%lookup_lt_Some & _)%elem_of_relations_of. apply Hf. unfold zlen. lia.
Qed.

Lemma sorted_length rows : zlen (sorted_rows rows) = zlen rows.
Proof using Type. unfold zlen, sorted_rows. by rewrite length_fmap. Qed.

(** Every array of the topology fits its words. *)
Record TopologyFits (t : FrozenHyperTopology) : Prop := {
  tf_head_offsets : Forall (fits iw) (ht_head_offsets t);
  tf_head_participants : Forall (fits vw) (ht_head_participants t);
  tf_tail_offsets : Forall (fits iw) (ht_tail_offsets t);
  tf_tail_participants : Forall (fits vw) (ht_tail_participants t);
  tf_out_offsets : Forall (fits iw) (ht_vertex_outgoing_offsets t);
  tf_out_hyperedges : Forall (fits rw) (ht_vertex_outgoing_hyperedges t);
  tf_in_offsets : Forall (fits iw) (ht_vertex_incoming_offsets t);
  tf_in_hyperedges : Forall (fits rw) (ht_vertex_incoming_hyperedges t)
}.

Lemma built_fits : fits iw (zlen (concat hs)) → fits iw (zlen (concat ts)) → TopologyFits (built_topology count hs ts).
Proof using All.
  intros Hfh Hft. destruct sorted_hyper_rows as [Hh Ht _ _ Hl _ _ _].
  assert (∀ h, 0 ≤ h < zlen (sorted_rows hs) → fits rw h) as Hrh by (rewrite sorted_length; apply Hinv).
  assert (zlen (sorted_rows ts) = zlen (sorted_rows hs)) as Hlz by (unfold zlen; by rewrite Hl).
  split; cbn [built_topology hyper_topology ht_head_offsets ht_head_participants ht_tail_offsets ht_tail_participants
    ht_vertex_outgoing_offsets ht_vertex_outgoing_hyperedges ht_vertex_incoming_offsets ht_vertex_incoming_hyperedges].
  - apply totals_all_fit. by rewrite zlen_concat_sorted.
  - by eapply rows_values_fit.
  - apply totals_all_fit. by rewrite zlen_concat_sorted.
  - by eapply rows_values_fit.
  - apply totals_all_fit. rewrite (zlen_relations vw _ _ Hh). by rewrite zlen_concat_sorted.
  - by apply relation_values_fit.
  - apply totals_all_fit. rewrite (zlen_relations vw _ _ Ht). by rewrite zlen_concat_sorted.
  - apply relation_values_fit. by rewrite Hlz.
Qed.

Lemma native_holds : fits iw (zlen (concat hs)) → fits iw (zlen (concat ts)) →
  HoldsTopology (Z.to_nat count) (sorted_rows hs) (sorted_rows ts) (topology_sections vw rw iw (built_topology count hs ts)).
Proof using All. intros Hfh Hft. destruct (built_fits Hfh Hft). split; by apply native_words_get. Qed.

Lemma validate_built : fits iw (zlen (concat hs)) → fits iw (zlen (concat ts)) →
  validate_frozen_topology vw rw iw (built_topology count hs ts) = Ok ().
Proof using All.
  intros Hfh Hft. unfold validate_frozen_topology.
  by rewrite (built_opens vw _ _ _ _ sorted_hyper_rows (native_holds Hfh Hft)).
Qed.

(** [build_topology] on the normalised records, and the validation after it. *)
Lemma freeze_state {IW} (records : list (NormalizedHyperedgeRecord IW)) :
  rows_of SourceRole records = sorted_rows hs → rows_of TargetRole records = sorted_rows ts →
  (fits iw (zlen (concat hs)) ∧ fits iw (zlen (concat ts)) ∧
    build_topology vw rw iw count records =
      Ok (built_topology count hs ts, concat ((λ r, (nr_sources r).*2) <$> records) ++ concat ((λ r, (nr_targets r).*2) <$> records)) ∧
    validate_frozen_topology vw rw iw (built_topology count hs ts) = Ok ()) ∨
  (¬ (fits iw (zlen (concat hs)) ∧ fits iw (zlen (concat ts))) ∧
    ∃ v, build_topology vw rw iw count records = Err (HyperIdOverflow v) ∧ ¬ fits iw v).
Proof using All.
  intros Hsr Htr. pose proof sorted_hyper_rows as [Hh Ht _ _ Hl Hn He Hm].
  assert (zlen records = zlen hs) as Hlz.
  { rewrite <-sorted_length, <-Hsr. unfold rows_of, zlen. by rewrite length_fmap. }
  pose proof (zlen_concat_sorted hs) as Hzh. pose proof (zlen_concat_sorted ts) as Hzt.
  pose proof (zlen_nonneg (concat hs)). pose proof (zlen_nonneg (concat ts)). rewrite <-(Z2Nat.id count) by apply Hinv.
  destruct (build_topology_cases vw rw iw (Z.to_nat count) records) as [(Hfh & Hft & Hr)|(Hnf & v & Hr & Hv)];
    rewrite ?Hsr, ?Htr in *; try done; try lia.
  - rewrite sorted_length in He. lia.
  - rewrite Hlz. apply Hinv.
  - left. rewrite Hzh in Hfh. rewrite Hzt in Hft. split; [done|]. split; [done|]. rewrite Hr, Z2Nat.id by apply Hinv.
    split; [done|]. by apply validate_built.
  - right. rewrite Hzh, Hzt in Hnf. split; [done|]. exists v. done.
Qed.

(** The rows of a view that holds the topology. *)
Lemma frozen_rows {OW VW RW : Type} `{!LayoutWord OW, !LayoutWord VW, !LayoutWord RW} (s : BcsrSections OW VW RW) :
  HoldsTopology (Z.to_nat count) (sorted_rows hs) (sorted_rows ts) s →
  BcsrOk s Strict ∧ vertices s = count ∧ hyperedges s = zlen hs ∧
  (∀ h sources targets, hs !! h = Some sources → ts !! h = Some targets →
    heads s h = sort_by_key id sources ∧ tails s h = sort_by_key id targets) ∧
  (∀ v : nat, Z.of_nat v < count →
    StronglySorted Z.lt (outs s v) ∧ StronglySorted Z.lt (ins s v) ∧
    (∀ h, h ∈ outs s v ↔ ∃ i sources, h = Z.of_nat i ∧ hs !! i = Some sources ∧ Z.of_nat v ∈ sources) ∧
    (∀ h, h ∈ ins s v ↔ ∃ i targets, h = Z.of_nat i ∧ ts !! i = Some targets ∧ Z.of_nat v ∈ targets)).
Proof using All.
  intros Hs. pose proof sorted_hyper_rows as Hrows. pose proof (hi_count _ _ _ _ _ Hinv).
  assert (∀ rows v h, h ∈ relations_of (sorted_rows rows) v ↔ ∃ i r, h = Z.of_nat i ∧ rows !! i = Some r ∧ Z.of_nat v ∈ r) as Hrel.
  { intros rows v h. rewrite elem_of_relations_of. unfold sorted_rows. setoid_rewrite list_lookup_fmap_Some. split.
    - intros (i & r & -> & (r' & -> & Hr) & Hin). rewrite sort_by_key_perm in Hin. by exists i, r'.
    - intros (i & r & -> & Hr & Hin). exists i, (sort_by_key id r). rewrite sort_by_key_perm. split_and!; [done| |done]. by exists r. }
  split_and!.
  - by eapply built_ok.
  - rewrite (built_vertices _ _ _ _ Hs). lia.
  - by rewrite (built_hyperedges _ _ _ _ Hs), sorted_length.
  - intros h sources targets Hhs Hts. split.
    + apply (built_heads _ _ _ _ Hs). unfold sorted_rows. by rewrite list_lookup_fmap, Hhs.
    + apply (built_tails _ _ _ _ Hs). unfold sorted_rows. by rewrite list_lookup_fmap, Hts.
  - intros v Hv. rewrite (built_outs _ _ _ _ Hs), (built_ins _ _ _ _ Hs) by lia.
    split_and!; [apply relations_of_ascending..| |]; intros h; apply Hrel.
Qed.

End state.
End freeze.

(** ** The unweighted freeze *)

Section frozen_hypergraphs.
Context `{!Target}.

Lemma normalized_rows (b : HypergraphBuilder) :
  rows_of SourceRole (normalized_hyperedges b) = sorted_rows (sources_of b) ∧
  rows_of TargetRole (normalized_hyperedges b) = sorted_rows (targets_of b).
Proof.
  assert (∀ l : list Z, (sort_by_key fst ((λ v, (v, ())) <$> l)).*1 = sort_by_key id l) as Hl.
  { intros l. rewrite sort_by_key_fmap, <-list_fmap_compose. f_equal. by rewrite (list_fmap_ext _ id), list_fmap_id. }
  unfold rows_of, sorted_rows, sources_of, targets_of, normalized_hyperedges. rewrite <-!list_fmap_compose.
  split; apply list_fmap_ext; intros i r _; apply Hl.
Qed.

Lemma hyper_freeze_cases vw rw iw b :
  hyper_reach vw rw b → in_memory (hb_vertex_count b) (sources_of b) (targets_of b) →
  let ps := zlen (concat (sources_of b)) in let pt := zlen (concat (targets_of b)) in
  (fits iw ps ∧ fits iw pt ∧
    hyper_freeze vw rw iw b = Ok (built_topology (hb_vertex_count b) (sources_of b) (targets_of b))) ∨
  (¬ (fits iw ps ∧ fits iw pt) ∧ ∃ v, hyper_freeze vw rw iw b = Err (HyperIdOverflow v) ∧ ¬ fits iw v).
Proof.
  cbn zeta. intros Hb Hmem. pose proof (hyper_inv _ _ b Hb) as Hinv. destruct (normalized_rows b) as [Hs Ht]. unfold hyper_freeze.
  destruct (freeze_state vw rw iw _ _ _ Hinv Hmem _ Hs Ht) as [(Hfh & Hft & -> & Hv)|(Hn & v & -> & Hv)]; cbn [mbind res_bind].
  - rewrite Hv. by left.
  - right. split; [done|]. by exists v.
Qed.

(** C12. Freezing never panics, and the validation it ends with never refuses a
    built topology. It succeeds exactly when the sources and the targets of all
    hyperedges can each be counted by the incidence width, and reports the first
    offset that overflows otherwise. The view of the result is strictly valid:
    every hyperedge lists its sources and its targets in vertex order, every
    vertex exactly the hyperedges that list it, in insertion order. *)
Theorem hyper_freeze_correct vw rw iw b :
  hyper_reach vw rw b → in_memory (hb_vertex_count b) (sources_of b) (targets_of b) →
  let ps := zlen (concat (sources_of b)) in let pt := zlen (concat (targets_of b)) in
  (fits iw ps ∧ fits iw pt ∧ ∃ t, hyper_freeze vw rw iw b = Ok t ∧
    let s := topology_sections vw rw iw t in
    hyper_as_view vw rw iw t = view_of s ∧ BcsrOk s Strict ∧ vertices s = hb_vertex_count b ∧ hyperedges s = zlen (hb_hyperedges b) ∧
    (∀ h r, hb_hyperedges b !! h = Some r → heads s h = sort_by_key id (hr_sources r) ∧ tails s h = sort_by_key id (hr_targets r)) ∧
    (∀ v : nat, Z.of_nat v < hb_vertex_count b →
      StronglySorted Z.lt (outs s v) ∧ StronglySorted Z.lt (ins s v) ∧
      (∀ h, h ∈ outs s v ↔ ∃ i r, h = Z.of_nat i ∧ hb_hyperedges b !! i = Some r ∧ Z.of_nat v ∈ hr_sources r) ∧
      (∀ h, h ∈ ins s v ↔ ∃ i r, h = Z.of_nat i ∧ hb_hyperedges b !! i = Some r ∧ Z.of_nat v ∈ hr_targets r))) ∨
  (¬ (fits iw ps ∧ fits iw pt) ∧ ∃ v, hyper_freeze vw rw iw b = Err (HyperIdOverflow v) ∧ ¬ fits iw v).
Proof.
  cbn zeta. intros Hb Hmem. pose proof (hyper_inv _ _ b Hb) as Hinv.
  destruct (hyper_freeze_cases vw rw iw b Hb Hmem) as [(Hfh & Hft & ->)|?]; [left|by right]. split; [done|]. split; [done|].
  eexists. split; [done|]. cbn zeta.
  destruct (frozen_rows vw rw iw _ _ _ Hinv Hmem _ (native_holds vw rw iw _ _ _ Hinv Hmem Hfh Hft)) as (Hok & Hv & He & Hrows & Hcols).
  split_and!; [apply view_of_validated, Hok|done|done|by rewrite <-zlen_sources_of| |].
  - intros h r Hr. apply Hrows; unfold sources_of, targets_of; by rewrite list_lookup_fmap, Hr.
  - intros v Hlt. destruct (Hcols v Hlt) as (Ho & Hi & Hoe & Hie). split_and!; [done|done| |]; intros h.
    + rewrite Hoe. unfold sources_of. setoid_rewrite list_lookup_fmap_Some. naive_solver.
    + rewrite Hie. unfold targets_of. setoid_rewrite list_lookup_fmap_Some. naive_solver.
Qed.

(** ** Export and reopen *)

Definition bcsr_pending (vw rw iw : swidth) (t : FrozenHyperTopology) : list PendingSection :=
  [widths_section iw (bcsr_kind iw HeadOffsets) SNAPSHOT_BCSR_SECTION_VERSION (ht_head_offsets t);
   widths_section vw (bcsr_kind vw HeadParticipants) SNAPSHOT_BCSR_SECTION_VERSION (ht_head_participants t);
   widths_section iw (bcsr_kind iw TailOffsets) SNAPSHOT_BCSR_SECTION_VERSION (ht_tail_offsets t);
   widths_section vw (bcsr_kind vw TailParticipants) SNAPSHOT_BCSR_SECTION_VERSION (ht_tail_participants t);
   widths_section iw (bcsr_kind iw VertexOutgoingOffsets) SNAPSHOT_BCSR_SECTION_VERSION (ht_vertex_outgoing_offsets t);
   widths_section rw (bcsr_kind rw VertexOutgoingHyperedges) SNAPSHOT_BCSR_SECTION_VERSION (ht_vertex_outgoing_hyperedges t);
   widths_section iw (bcsr_kind iw VertexIncomingOffsets) SNAPSHOT_BCSR_SECTION_VERSION (ht_vertex_incoming_offsets t);
   widths_section rw (bcsr_kind rw VertexIncomingHyperedges) SNAPSHOT_BCSR_SECTION_VERSION (ht_vertex_incoming_hyperedges t)].

(** The bytes of the file: header, eight table entries and the arrays. *)
Definition hyper_file_size (vw rw iw : swidth) (t : FrozenHyperTopology) : Z :=
  Z.of_nat HEADER_SIZE + 8 * Z.of_nat SECTION_ENTRY_SIZE + zlen (concat (p_payload <$> bcsr_pending vw rw iw t)).

(** The arrays as little-endian words. *)
Definition stored_sections (vw rw iw : swidth) (t : FrozenHyperTopology) : BcsrSections (le_word iw) (le_word vw) (le_word rw) := {|
  head_offsets := slice_to_le iw (ht_head_offsets t); head_participants := slice_to_le vw (ht_head_participants t);
  tail_offsets := slice_to_le iw (ht_tail_offsets t); tail_participants := slice_to_le vw (ht_tail_participants t);
  vertex_outgoing_offsets := slice_to_le iw (ht_vertex_outgoing_offsets t);
  vertex_outgoing_hyperedges := slice_to_le rw (ht_vertex_outgoing_hyperedges t);
  vertex_incoming_offsets := slice_to_le iw (ht_vertex_incoming_offsets t);
  vertex_incoming_hyperedges := slice_to_le rw (ht_vertex_incoming_hyperedges t)
|}.

Lemma export_pending vw rw iw w t : add_topology_sections vw rw iw w t = for_each write_pending (bcsr_pending vw rw iw t) w.
Proof.
  unfold add_topology_sections, bcsr_pending. cbn [for_each].
  repeat (rewrite section_widths_pending; destruct (write_pending _ _); [|done..]; cbn [mbind res_bind]). done.
Qed.

Lemma hyper_export_run vw rw iw t :
  hyper_file_size vw rw iw t ≤ isize_max →
  ∃ bytes, hyper_export_snapshot vw rw iw t = Ok bytes ∧ ∀ addr,
    open_checked bytes addr crc32c_append = Ok (opened bytes addr) ∧
    load_sections vw rw iw (opened bytes addr) = Ok (stored_sections vw rw iw t).
Proof.
  intros Hsize. destruct (plain_file (bcsr_pending vw rw iw t) crc32c_append) as (w0 & w & bytes & Hnew & Hrun & Hfin & _ & Hopen).
  - apply crc32c_laws.
  - repeat constructor; destruct vw, rw, iw; vm_compute; congruence.
  - repeat constructor; destruct vw, rw, iw; vm_compute; congruence.
  - vm_compute. congruence.
  - change (zlen (bcsr_pending vw rw iw t)) with 8. exact Hsize.
  - exists bytes. split.
    + unfold hyper_export_snapshot. change (zlen (bcsr_pending vw rw iw t)) with 8 in Hnew. rewrite Hnew. cbn [mbind res_bind].
      rewrite export_pending, Hrun. cbn [mbind res_bind]. by rewrite Hfin.
    + intros addr. destruct (Hopen addr) as (Ho & Hs & Hh). split; [done|].
      pose proof (holds_typed _ _ Hs Hh) as Ht. unfold load_sections, load_section. unfold bcsr_pending in Ht.
      repeat (erewrite Ht by (rewrite ?elem_of_cons; tauto); cbn [map_err mbind res_bind]). done.
Qed.

Lemma hyper_freeze_inv vw rw iw b t :
  hyper_reach vw rw b → in_memory (hb_vertex_count b) (sources_of b) (targets_of b) → hyper_freeze vw rw iw b = Ok t →
  t = built_topology (hb_vertex_count b) (sources_of b) (targets_of b) ∧
  fits iw (zlen (concat (sources_of b))) ∧ fits iw (zlen (concat (targets_of b))).
Proof.
  intros Hb Hmem Ht. destruct (hyper_freeze_cases vw rw iw b Hb Hmem) as [(Hfh & Hft & Hr)|(_ & v & Hr & _)]; rewrite Hr in Ht; [|done].
  by injection Ht as <-.
Qed.

(** The sections of a view agree with other sections on every row. *)
Definition same_rows {OW VW RW OW' VW' RW'} `{!LayoutWord OW, !LayoutWord VW, !LayoutWord RW, !LayoutWord OW', !LayoutWord VW', !LayoutWord RW'}
    (s : BcsrSections OW VW RW) (s' : BcsrSections OW' VW' RW') : Prop :=
  vertices s = vertices s' ∧ hyperedges s = hyperedges s' ∧
  (∀ h, heads s h = heads s' h ∧ tails s h = tails s' h) ∧ (∀ v, outs s v = outs s' v ∧ ins s v = ins s' v).

Lemma holds_same_rows {OW VW RW OW' VW' RW'} `{!LayoutWord OW, !LayoutWord VW, !LayoutWord RW, !LayoutWord OW', !LayoutWord VW', !LayoutWord RW'}
    n hs ts (s : BcsrSections OW VW RW) (s' : BcsrSections OW' VW' RW') :
  HoldsTopology n hs ts s → HoldsTopology n hs ts s' → same_rows s s'.
Proof.
  intros [a1 a2 a3 a4 a5 a6 a7 a8] [b1 b2 b3 b4 b5 b6 b7 b8].
  assert (∀ {A B A' B'} `{!LayoutWord A, !LayoutWord B, !LayoutWord A', !LayoutWord B'} (o : list A) (v : list B) (o' : list A') (v' : list B') k,
    id_slice o = id_slice o' → id_slice v = id_slice v' → zrow o v k = zrow o' v' k) as Hz.
  { intros A B A' B' ???? o v o' v' k Ho Hv. unfold zrow, bucket, id_slice in *. rewrite !fmap_take, !fmap_drop, Hv.
    assert (∀ j, offset_at o j = offset_at o' j) as Hj; [|by rewrite !Hj]. intros j. unfold offset_at.
    rewrite <-!list_lookup_fmap. by rewrite Ho. }
  split_and!.
  - unfold vertices. rewrite (zlen_running_totals _ _ a5), (zlen_running_totals _ _ b5). done.
  - unfold hyperedges. rewrite (zlen_running_totals _ _ a1), (zlen_running_totals _ _ b1). done.
  - intros h. split; apply Hz; congruence.
  - intros v. split; apply Hz; congruence.
Qed.

(** C15. Export and reopen: whenever the file fits in memory the export of a
    frozen hypergraph succeeds, and the bytes, opened at any address, pass their
    checksums and give back, at either validation level, a well formed view with
    the vertices, the hyperedges and every row of the frozen hypergraph. *)
Theorem hyper_export_roundtrip (vw rw iw : swidth) b t :
  hyper_reach vw rw b → in_memory (hb_vertex_count b) (sources_of b) (targets_of b) →
  hyper_freeze vw rw iw b = Ok t → hyper_file_size vw rw iw t ≤ isize_max →
  ∃ bytes, export_bcsr_snapshot vw rw iw t = Ok bytes ∧ ∀ addr,
    ∃ s, open_checked bytes addr crc32c_append = Ok s ∧ ∀ level, ∃ g, from_snapshot_with vw rw iw s level = Ok g ∧
      g = view_of (bg_sections g) ∧ BcsrOk (bg_sections g) Strict ∧ same_rows (bg_sections g) (topology_sections vw rw iw t).
Proof.
  intros Hb Hmem Ht Hsize. destruct (hyper_freeze_inv vw rw iw b t Hb Hmem Ht) as (Heq & Hfh & Hft).
  pose proof (hyper_inv _ _ b Hb) as Hinv. destruct (hyper_export_run vw rw iw t Hsize) as (bytes & Hexp & Hopen).
  exists bytes. split; [done|]. intros addr. destruct (Hopen addr) as (Ho & Hl). exists (opened bytes addr). split; [done|].
  intros level. pose proof (built_fits vw rw iw _ _ _ Hinv Hmem Hfh Hft) as Hfits. rewrite <-Heq in Hfits.
  assert (HoldsTopology (Z.to_nat (hb_vertex_count b)) (sorted_rows (sources_of b)) (sorted_rows (targets_of b))
    (stored_sections vw rw iw t)) as Hst.
  { destruct Hfits. rewrite Heq in *. split; by apply slice_to_le_get. }
  pose proof (sorted_hyper_rows vw rw iw _ _ _ Hinv Hmem) as Hrows. exists (view_of (stored_sections vw rw iw t)). split.
  { unfold from_snapshot_with. rewrite Hl. cbn [mbind res_bind]. by rewrite (built_opens vw _ _ _ _ Hrows Hst). }
  split; [done|]. split; [by apply (built_ok vw _ _ _ _ Hrows Hst)|]. cbn [bg_sections view_of]. rewrite Heq in Hst |- *.
  eapply holds_same_rows; [exact Hst|]. by apply native_holds.
Qed.

End frozen_hypergraphs.

(** ** The weighted builder *)

Section weighted.
Context `{!Target} (vw rw iw : width) {EW RW IW : Type}.
Implicit Type b : WeightedHypergraphBuilder EW RW IW.

Definition w_sources_of b : list (list Z) := (λ r, (nr_sources r).*1) <$> whb_hyperedges b.
Definition w_targets_of b : list (list Z) := (λ r, (nr_targets r).*1) <$> whb_hyperedges b.

Inductive w_hyper_reach : WeightedHypergraphBuilder EW RW IW → Prop :=
  | w_reach_new : w_hyper_reach WeightedHypergraphBuilder_new
  | w_reach_vertex b weight id b' : w_hyper_reach b → w_add_vertex vw b weight = Ok (id, b') → w_hyper_reach b'
  | w_reach_hyperedge b sources targets weight id b' : w_hyper_reach b →
      Forall (fits vw) sources.*1 → Forall (fits vw) targets.*1 →
      w_add_hyperedge vw rw b sources targets weight = Ok (id, b') → zlen (whb_hyperedges b) ≤ usize_max → w_hyper_reach b'
  | w_reach_element b vertex weight b' : w_hyper_reach b → hyper_set_element_weight vw b vertex weight = Ok b' → w_hyper_reach b'
  | w_reach_relation b hyperedge weight b' : w_hyper_reach b → hyper_set_relation_weight rw b hyperedge weight = Ok b' → w_hyper_reach b'
  | w_reach_source b hyperedge position weight b' : w_hyper_reach b →
      set_source_incidence_weight rw b hyperedge position weight = Ok b' → w_hyper_reach b'
  | w_reach_target b hyperedge position weight b' : w_hyper_reach b →
      set_target_incidence_weight rw b hyperedge position weight = Ok b' → w_hyper_reach b'.

Record WeightedInv b : Prop := {
  wi_inv : HyperInv vw rw (whb_vertex_count b) (w_sources_of b) (w_targets_of b);
  wi_elements : zlen (whb_element_weights b) = whb_vertex_count b;
  wi_relations : length (whb_relation_weights b) = length (whb_hyperedges b)
}.

Lemma set_weight_at_Ok h p side w side' : set_weight_at (IW:=IW) h p side w = Ok side' → side'.*1 = side.*1.
Proof using Type.
  unfold set_weight_at. destruct (side !! Z.to_nat p) as [[v w0]|] eqn:Hs; [|done]. intros [= <-].
  rewrite list_fmap_insert. cbn [fst]. apply list_insert_id. by rewrite list_lookup_fmap, Hs.
Qed.

Lemma vset_inv {E A} (l l' : list A) i x : vset (E:=E) l i x = Ok l' → l' = <[i := x]> l ∧ (i < length l)%nat.
Proof using Type. unfold vset. by case_decide; intros [= <-]. Qed.

(** Replacing a record by one with the same vertices. *)
Lemma replace_record b index record record' records :
  vget (E:=HyperBuildError) (whb_hyperedges b) index = Ok record → vset (E:=HyperBuildError) (whb_hyperedges b) index record' = Ok records →
  (nr_sources record').*1 = (nr_sources record).*1 → (nr_targets record').*1 = (nr_targets record).*1 → WeightedInv b →
  WeightedInv {| whb_vertex_count := whb_vertex_count b; whb_element_weights := whb_element_weights b;
                 whb_hyperedges := records; whb_relation_weights := whb_relation_weights b |}.
Proof using Type.
  intros Hg%vget_Ok [-> Hi]%vset_inv Hs Ht [Hinv He Hr].
  split; cbn; [|done|by rewrite length_insert]. unfold w_sources_of, w_targets_of in *. cbn. rewrite !list_fmap_insert, Hs, Ht.
  rewrite !list_insert_id; [done|by rewrite list_lookup_fmap, Hg..].
Qed.

Lemma w_add_hyperedge_guards b sources targets weight :
  w_add_hyperedge vw rw b sources targets weight =
    (id ← guards vw rw (whb_vertex_count b) (zlen (whb_hyperedges b)) sources.*1 targets.*1;
     Ok (id, {| whb_vertex_count := whb_vertex_count b; whb_element_weights := whb_element_weights b;
                whb_hyperedges := whb_hyperedges b ++ [{| nr_sources := sources; nr_targets := targets |}];
                whb_relation_weights := whb_relation_weights b ++ [weight] |})).
Proof using Type.
  unfold w_add_hyperedge, guards. destruct (ensure_vertices vw _ sources.*1) as [[]| | |]; [|done..].
  destruct (ensure_vertices vw _ targets.*1) as [[]| | |]; [|done..].
  destruct (ensure_unique_participants sources.*1 _) as [[]| | |]; [|done..].
  by destruct (ensure_unique_participants targets.*1 _) as [[]| | |].
Qed.

Lemma w_hyper_inv b : w_hyper_reach b → WeightedInv b.
Proof using Type.
  induction 1 as [|b weight id b' _ IH Hadd|b sources targets weight id b' _ IH Hs Ht Hadd Hm|b v weight b' _ IH Hset|b h weight b' _ IH Hset
    |b h p weight b' _ IH Hset|b h p weight b' _ IH Hset].
  - split; [apply HyperInv_empty|done..].
  - destruct IH as [Hinv He Hr]. unfold w_add_vertex in Hadd. apply bind_Ok_inv in Hadd as (i & Hi%ok_or_Ok & Hadd).
    apply bind_Ok_inv in Hadd as (c & Hc%ok_or_Ok & [= <- <-]). split; cbn; [by eapply add_vertex_inv| |done].
    rewrite zlen_app, He. apply checked_add_Some in Hc as [_ ->]. done.
  - destruct IH as [Hinv He Hr]. rewrite w_add_hyperedge_guards in Hadd. apply bind_Ok_inv in Hadd as (i & Hg & [= <- <-]).
    pose proof (hi_count _ _ _ _ _ Hinv). pose proof (zlen_nonneg (whb_hyperedges b)).
    destruct (guards_cases vw rw (whb_vertex_count b) (zlen (whb_hyperedges b)) sources.*1 targets.*1) as [[_ Ha]|(e & Hge & _)];
      [done|lia|done|done| |congruence].
    split; cbn; [|done|rewrite !length_app; cbn; lia]. unfold w_sources_of, w_targets_of in *. cbn. rewrite !fmap_app.
    apply add_hyperedge_inv; [done..|]. unfold zlen. by rewrite length_fmap.
  - destruct IH as [Hinv He Hr]. unfold hyper_set_element_weight in Hset. apply bind_Ok_inv in Hset as (i & _ & Hset).
    apply bind_Ok_inv in Hset as (ws & [-> _]%vset_inv & [= <-]). split; [done| |done]. unfold zlen in *. cbn. by rewrite length_insert.
  - destruct IH as [Hinv He Hr]. unfold hyper_set_relation_weight in Hset. apply bind_Ok_inv in Hset as (i & _ & Hset).
    apply bind_Ok_inv in Hset as (ws & [-> _]%vset_inv & [= <-]). split; [done|done|]. cbn. by rewrite length_insert.
  - unfold set_source_incidence_weight in Hset. apply bind_Ok_inv in Hset as (i & _ & Hset).
    apply bind_Ok_inv in Hset as (r & Hr & Hset). apply bind_Ok_inv in Hset as (side & Hside%set_weight_at_Ok & Hset).
    apply bind_Ok_inv in Hset as (records & Hrec & [= <-]). by eapply replace_record.
  - unfold set_target_incidence_weight in Hset. apply bind_Ok_inv in Hset as (i & _ & Hset).
    apply bind_Ok_inv in Hset as (r & Hr & Hset). apply bind_Ok_inv in Hset as (side & Hside%set_weight_at_Ok & Hset).
    apply bind_Ok_inv in Hset as (records & Hrec & [= <-]). by eapply replace_record.
Qed.

(** Position [j] of row [h] in a flattening. *)
Lemma lookup_concat {A} (rows : list (list A)) h r j x :
  rows !! h = Some r → r !! j = Some x → concat rows !! (length (concat (take h rows)) + j)%nat = Some x.
Proof using Type.
  intros Hr Hx. rewrite <-lookup_drop. rewrite <-(lookup_take_lt _ (length r)) by (by eapply lookup_lt_Some). by rewrite concat_row.
Qed.

Lemma w_normalized_rows b :
  rows_of SourceRole (w_normalize_record <$> whb_hyperedges b) = sorted_rows (w_sources_of b) ∧
  rows_of TargetRole (w_normalize_record <$> whb_hyperedges b) = sorted_rows (w_targets_of b).
Proof using Type.
  unfold rows_of, sorted_rows, w_sources_of, w_targets_of. rewrite <-!list_fmap_compose.
  split; apply list_fmap_ext; intros i r _; cbn; apply sort_by_key_fmap.
Qed.

(** The weights of one side, with the participants they belong to. *)
Lemma length_concat_pairs {A B} (rows : list (list (A * B))) :
  length (concat ((λ r, r.*1) <$> rows)) = length (concat ((λ r, r.*2) <$> rows)).
Proof using Type.
  induction rows as [|r rows IH]; [done|]. rewrite !fmap_cons. cbn [concat]. by rewrite !length_app, !length_fmap, IH.
Qed.

Lemma side_lookup b role h r v w :
  whb_hyperedges b !! h = Some r → (v, w) ∈ side_of role r →
  let rows := side_of role <$> (w_normalize_record <$> whb_hyperedges b) in
  ∃ j, sort_by_key id (side_of role r).*1 !! j = Some v ∧
    concat ((λ l, l.*2) <$> rows) !! (length (concat (take h ((λ l, l.*1) <$> rows))) + j)%nat = Some w.
Proof using Type.
  intros Hr Hin rows.
  assert (rows !! h = Some (sort_by_key fst (side_of role r))) as Hrow.
  { unfold rows. rewrite !list_lookup_fmap, Hr. by destruct role. }
  rewrite <-(sort_by_key_perm fst) in Hin. apply list_elem_of_lookup in Hin as [j Hj]. exists j. split.
  - rewrite <-sort_by_key_fmap, list_lookup_fmap, Hj. done.
  - rewrite <-fmap_take, length_concat_pairs, fmap_take. apply (lookup_concat _ _ (sort_by_key fst (side_of role r)).*2).
    + by rewrite list_lookup_fmap, Hrow.
    + by rewrite list_lookup_fmap, Hj.
Qed.

Lemma side_rows b role :
  (λ l : list (Z * IW), l.*1) <$> (side_of role <$> (w_normalize_record <$> whb_hyperedges b)) =
  match role with SourceRole => sorted_rows (w_sources_of b) | TargetRole => sorted_rows (w_targets_of b) end.
Proof using Type. destruct (w_normalized_rows b). by destruct role; rewrite <-list_fmap_compose. Qed.

Lemma side_weights b role :
  (λ l : list (Z * IW), l.*2) <$> (side_of role <$> (w_normalize_record <$> whb_hyperedges b)) =
  (λ r, (side_of role r).*2) <$> (w_normalize_record <$> whb_hyperedges b).
Proof using Type. symmetry. apply list_fmap_compose. Qed.

Lemma length_side_weights b :
  length (concat ((λ r, (nr_sources r).*2) <$> (w_normalize_record <$> whb_hyperedges b))) = length (concat (sorted_rows (w_sources_of b))).
Proof using Type. by rewrite <-(side_rows b SourceRole), length_concat_pairs, side_weights. Qed.

(** The incidence id of position [j] in row [h] of one side. *)
Lemma built_incidence count hs ts role h row j v :
  HyperInv vw rw count hs ts → in_memory count hs ts → fits iw (zlen (concat hs)) → fits iw (zlen (concat ts)) →
  (∀ i, 0 ≤ i < zlen (concat hs) + zlen (concat ts) → fits iw i) →
  let rows := match role with SourceRole => sorted_rows hs | TargetRole => sorted_rows ts end in
  let base := match role with SourceRole => 0%nat | TargetRole => length (concat (sorted_rows hs)) end in
  let t := built_topology count hs ts in
  rows !! h = Some row → row !! j = Some v → ∃ i,
    frozen_incidence_element (E:=BcsrError) vw rw iw t i = Ok v ∧
    frozen_incidence_relation (E:=BcsrError) vw rw iw t i = Ok (Z.of_nat h) ∧
    frozen_incidence_role (E:=BcsrError) vw rw iw t i = Ok role ∧
    slot_or_max iw i = Z.of_nat (base + (length (concat (take h rows)) + j)).
Proof using Type.
  intros Hinv Hmem Hfh Hft Hinc rows base t Hrow Hj. pose proof Hmem as (_ & _ & Hmt).
  pose proof (native_holds vw rw iw _ _ _ Hinv Hmem Hfh Hft) as Hs. fold t in Hs. set (s := topology_sections vw rw iw t) in *.
  pose proof (sorted_hyper_rows vw rw iw _ _ _ Hinv Hmem) as Hrows. pose proof (built_layout vw _ _ _ _ Hrows Hs) as Hlay.
  assert (hyper_as_view vw rw iw t = view_of s) as Hview by by apply view_of_validated.
  assert (total s = zlen (concat hs) + zlen (concat ts)) as Htot.
  { unfold total. rewrite (zlen_values _ _ (ho_head_participants _ _ _ _ Hs)), (zlen_values _ _ (ho_tail_participants _ _ _ _ Hs)).
    by rewrite !zlen_concat_sorted. }
  assert (Hi : ∀ i, 0 ≤ i < total s → fits (word_width (native iw)) i) by (rewrite Htot; exact Hinc).
  assert (He : ∀ i, 0 ≤ i < hyperedges s → fits (word_width (native rw)) i).
  { rewrite (built_hyperedges _ _ _ _ Hs), sorted_length. apply Hinv. }
  assert (∀ i, 0 ≤ i < total s → slot_or_max iw i = i) as Hslot.
  { intros i Hit. unfold slot_or_max. assert (to_usize iw i = Some i) as ->; [|done]. apply to_usize_Some; [by apply Hi|]. lia. }
  assert (Z.of_nat h < hyperedges s) as Hhs.
  { pose proof (lookup_lt_Some _ _ _ Hrow) as Hlt. rewrite (built_hyperedges _ _ _ _ Hs). unfold zlen. pose proof (hy_length _ _ _ _ Hrows).
    unfold rows in Hlt. destruct role; lia. }
  pose proof (zlen_nonneg (head_participants s)). pose proof (zlen_nonneg (tail_participants s)).
  unfold frozen_incidence_element, frozen_incidence_relation, frozen_incidence_role. rewrite Hview.
  pose proof (lookup_lt_Some _ _ _ Hrow) as Hlt. destruct role.
  - rewrite <-(built_heads _ _ _ _ Hs h row Hrow) in Hj. apply list_lookup_fmap_Some in Hj as (x & -> & Hx).
    destruct (head_incidence s Hlay Hi He (E:=BcsrError) h j x Hhs Hx) as (Hb & Hel & Hre & Hro).
    eexists. split; [exact Hel|]. split; [exact Hre|]. split; [by rewrite Hro|]. rewrite Hslot by (unfold total; lia).
    rewrite (flat_offset_at _ _ (ho_head_offsets _ _ _ _ Hs)) by (unfold rows in Hlt; lia). unfold zlen, base, rows. lia.
  - rewrite <-(built_tails _ _ _ _ Hs h row Hrow) in Hj. apply list_lookup_fmap_Some in Hj as (x & -> & Hx).
    destruct (tail_incidence s Hlay Hi He (E:=BcsrError) h j x Hhs Hx) as (Hb & Hel & Hre & Hro).
    eexists. split; [exact Hel|]. split; [exact Hre|]. split; [by rewrite Hro|]. rewrite Hslot by lia.
    rewrite (flat_offset_at _ _ (ho_tail_offsets _ _ _ _ Hs)) by (unfold rows in Hlt; lia).
    rewrite (zlen_values _ _ (ho_head_participants _ _ _ _ Hs)). unfold zlen, base, rows. lia.
Qed.


End weighted.

(** ** Incidence ids past the incidence width

    One vertex that is source and target of [n] hyperedges: each direction has
    [n] incidences, the graph [2 n]. *)

Section crowded.
#[local] Existing Instance target64.

Definition loop_edge : HyperedgeRecord := {| hr_sources := [0]; hr_targets := [0] |}.
Definition crowded (n : nat) : HypergraphBuilder := {| hb_vertex_count := 1; hb_hyperedges := replicate n loop_edge |}.

Lemma crowded_reach n : Z.of_nat n ≤ 65536 → hyper_reach W32 W32 (crowded n).
Proof.
  induction n as [|n IH]; intros Hn.
  { eapply hyper_reach_vertex; [apply hyper_reach_new|reflexivity]. }
  specialize (IH ltac:(lia)). assert (Forall (fits W32) [0]) as Hf by (repeat constructor; vm_compute; discriminate).
  assert (zlen (hb_hyperedges (crowded n)) = Z.of_nat n) as Hz by (unfold zlen, crowded; cbn; by rewrite length_replicate).
  eapply (hyper_reach_hyperedge _ _ (crowded n) [0] [0]); [done..| |].
  - rewrite add_hyperedge_guards, Hz.
    destruct (guards_cases W32 W32 (hb_vertex_count (crowded n)) (Z.of_nat n) [0] [0]) as [[-> _]|(e & _ & _ & Hna)];
      [vm_compute; split; discriminate|change (@usize_max target64) with 18446744073709551615; lia|done|done| |].
    + cbn [mbind res_bind]. unfold crowded. cbn [hb_vertex_count hb_hyperedges]. rewrite replicate_S_end. reflexivity.
    + destruct Hna. split_and!; [repeat constructor|repeat constructor; by intros ?%elem_of_nil..|].
      split; [lia|]. change (width_max W32) with 4294967295. lia.
  - rewrite Hz. change (@usize_max target64) with 18446744073709551615. lia.
Qed.

Lemma crowded_rows n : sources_of (crowded n) = replicate n [0] ∧ targets_of (crowded n) = replicate n [0].
Proof. unfold sources_of, targets_of, crowded. cbn [hb_hyperedges]. by rewrite !fmap_replicate. Qed.

Lemma zlen_crowded n : zlen (concat (replicate n [0])) = Z.of_nat n.
Proof. induction n as [|n IH]; [done|]. cbn [replicate concat]. rewrite zlen_app, IH. unfold zlen. cbn. lia. Qed.

(** 40000 such hyperedges have 80000 incidences, past the 65536 ids of the width. *)
Lemma crowded_overflow n :
  Z.of_nat n = 40000 →
  ∃ b t h, hyper_reach W32 W32 b ∧ hyper_freeze W32 W32 W16 b = Ok t ∧ frozen_contains_relation W32 t h = true ∧
    ∃ heads tails, frozen_relation_incidences (E:=BcsrError) W32 W32 W16 t h = Ok (heads, tails) ∧
      chain_run (OW:=native W16) (E:=BcsrError) heads tails = Panic.
Proof.
  intros Hn.
  assert (@usize_max target64 = 18446744073709551615) as Hu by done.
  destruct (crowded_rows n) as [Hs Ht]. pose proof (crowded_reach n ltac:(lia)) as Hb. pose proof (zlen_crowded n) as Hz.
  assert (zlen (replicate n [0]) = Z.of_nat n) as Hzr by (unfold zlen; by rewrite length_replicate).
  assert (in_memory (hb_vertex_count (crowded n)) (sources_of (crowded n)) (targets_of (crowded n))) as Hmem.
  { rewrite Hs, Ht. split_and!; [done|lia|lia]. }
  assert (fits W16 (zlen (concat (sources_of (crowded n)))) ∧ fits W16 (zlen (concat (targets_of (crowded n))))) as [Hfh Hft].
  { rewrite Hs, Ht, Hz, Hn. split; split; vm_compute; discriminate. }
  destruct (hyper_freeze_cases W32 W32 W16 _ Hb Hmem) as [(_ & _ & Hr)|[Hnf _]]; [|by destruct Hnf].
  pose proof (hyper_inv _ _ _ Hb) as Hinv. eexists _, _, (Z.of_nat (n - 1)). split; [exact Hb|]. split; [exact Hr|].
  pose proof (native_holds W32 W32 W16 _ _ _ Hinv Hmem Hfh Hft) as Hsec.
  set (t := built_topology _ _ _) in *. set (s := topology_sections W32 W32 W16 t) in *.
  assert (BcsrLayout s) as Hlay by by eapply (built_layout W32 _ _ _ _ (sorted_hyper_rows W32 W32 W16 _ _ _ Hinv Hmem)).
  assert (hyperedges s = Z.of_nat n) as He by by rewrite (built_hyperedges _ _ _ _ Hsec), sorted_length, Hs.
  assert (∀ i, 0 ≤ i < hyperedges s → fits (word_width (native W32)) i) as Hrel.
  { intros i Hi. apply (hi_relations _ _ _ _ _ Hinv). rewrite Hs, Hzr. lia. }
  assert (tails s (n - 1) = [0]) as Htail.
  { apply (built_tails _ _ _ _ Hsec). unfold sorted_rows. rewrite Ht, fmap_replicate, lookup_replicate_2 by lia. done. }
  assert (heads s (n - 1) = [0]) as Hhead.
  { apply (built_heads _ _ _ _ Hsec). unfold sorted_rows. rewrite Hs, fmap_replicate, lookup_replicate_2 by lia. done. }
  destruct (relation_slices s Hlay Hrel (E:=BcsrError) (n - 1) ltac:(lia)) as (Hrun & Hb1 & Hb2 & Hb3 & Hb4).
  assert (zlen (head_participants s) = 40000 ∧ zlen (tail_participants s) = 40000) as [Hph Hpt].
  { rewrite (zlen_values _ _ (ho_head_participants _ _ _ _ Hsec)), (zlen_values _ _ (ho_tail_participants _ _ _ _ Hsec)).
    rewrite !zlen_concat_sorted, Hs, Ht, Hz. lia. }
  assert (offset_at (tail_offsets s) (n - 1) = 39999) as Hoff.
  { rewrite (flat_offset_at _ _ (ho_tail_offsets _ _ _ _ Hsec)) by (unfold sorted_rows; rewrite length_fmap, Ht, length_replicate; lia).
    unfold sorted_rows. rewrite <-fmap_take, zlen_concat_sorted, Ht, take_replicate, zlen_crowded. lia. }
  split.
  - unfold frozen_contains_relation, slot_below.
    assert (frozen_relation_count t = Z.of_nat n) as ->.
    { unfold frozen_relation_count. cbn [t built_topology hyper_topology ht_head_offsets]. unfold zlen. rewrite length_running_totals.
      unfold sorted_rows. rewrite length_fmap, Hs, length_replicate. lia. }
    assert (to_usize W32 (Z.of_nat (n - 1)) = Some (Z.of_nat (n - 1))) as ->; [|by apply bool_decide_eq_true_2; lia].
    apply to_usize_Some; [|split; [done|lia]]. apply (hi_relations _ _ _ _ _ Hinv). rewrite Hs, Hzr. lia.
  - exists (head_slice s (n - 1)), (tail_slice s (n - 1)). split.
    + unfold frozen_relation_incidences, hyper_as_view. fold s. rewrite (view_of_validated s Hlay). exact Hrun.
    + unfold chain_run, head_slice, tail_slice. rewrite Hhead, Htail in *. assert (zlen [0] = 1) as H1 by done.
      rewrite (participants_run_Ok 0); [|lia|lia|rewrite Hu; lia|].
      2:{ intros i Hi. split; [lia|]. change (width_max (word_width (native W16))) with 65535. lia. }
      cbn [mbind res_bind]. rewrite participants_run_panic; [done|lia|lia|lia|].
      intros Hall. destruct (Hall (79999) ltac:(lia)) as [_ Hle]. change (width_max (word_width (native W16))) with 65535 in Hle. lia.
Qed.

(** C14. A graph [freeze] accepts under a 16-bit incidence width, whose last
    hyperedge is contained but has an incidence id past the width: draining its
    incidences runs into [unreachable!]. *)
Theorem incidence_ids_overflow :
  ∃ b t h, hyper_reach W32 W32 b ∧ hyper_freeze W32 W32 W16 b = Ok t ∧ frozen_contains_relation W32 t h = true ∧
    ∃ heads tails, frozen_relation_incidences (E:=BcsrError) W32 W32 W16 t h = Ok (heads, tails) ∧
      chain_run (OW:=native W16) (E:=BcsrError) heads tails = Panic.
Proof. apply (crowded_overflow (Z.to_nat 40000)), Z2Nat.id. lia. Qed.

End crowded.

(** ** A small hypergraph

    The repository's numbering test: [{0,1} → {2}] and [{0} → {1,2}]. *)

Section demo.
#[local] Existing Instance target64.

Definition demo_hyper : HypergraphBuilder := {| hb_vertex_count := 3; hb_hyperedges :=
  [{| hr_sources := [1; 0]; hr_targets := [2] |}; {| hr_sources := [0]; hr_targets := [1; 2] |}] |}.

Definition demo_topology : FrozenHyperTopology := {|
  ht_vertex_count := 3; ht_head_offsets := [0; 2; 3]; ht_head_participants := [0; 1; 0];
  ht_tail_offsets := [0; 1; 3]; ht_tail_participants := [2; 1; 2];
  ht_vertex_outgoing_offsets := [0; 2; 3; 3]; ht_vertex_outgoing_hyperedges := [0; 1; 0];
  ht_vertex_incoming_offsets := [0; 0; 1; 3]; ht_vertex_incoming_hyperedges := [1; 0; 1] |}.

Lemma demo_hyper_reach : hyper_reach W32 W32 demo_hyper.
Proof.
  assert (hyper_reach W32 W32 {| hb_vertex_count := 3; hb_hyperedges := [] |}) as H0
    by (apply (hyper_reach_vertex _ _ {| hb_vertex_count := 2; hb_hyperedges := [] |} 2); [|reflexivity];
        apply (hyper_reach_vertex _ _ {| hb_vertex_count := 1; hb_hyperedges := [] |} 1); [|reflexivity];
        apply (hyper_reach_vertex _ _ HypergraphBuilder_new 0); [apply hyper_reach_new|reflexivity]).
  apply (hyper_reach_hyperedge _ _ {| hb_vertex_count := 3; hb_hyperedges := [{| hr_sources := [1; 0]; hr_targets := [2] |}] |} [0] [1; 2] 1); [|repeat constructor; vm_compute; discriminate..|reflexivity|vm_compute; discriminate].
  apply (hyper_reach_hyperedge _ _ {| hb_vertex_count := 3; hb_hyperedges := [] |} [1; 0] [2] 0); [exact H0|repeat constructor; vm_compute; discriminate..|reflexivity|vm_compute; discriminate].
Qed.

Lemma demo_hyper_memory : in_memory (hb_vertex_count demo_hyper) (sources_of demo_hyper) (targets_of demo_hyper).
Proof. repeat split; vm_compute; (reflexivity || discriminate). Qed.

Definition demo_sections : BcsrSections (native W32) (native W32) (native W32) := topology_sections W32 W32 W32 demo_topology.

Lemma demo_layout : BcsrLayout demo_sections.
Proof.
  destruct (validate_decides demo_sections Strict) as [[_ [Hl _]]|(e & He & _)]; [exact Hl|vm_compute in He; discriminate].
Qed.

Lemma bcsr_view_refines_witness :
  bcsr_element_successors (E:=BcsrError) (view_of demo_sections) 0 = Ok [2; 1; 2] ∧
  relation_incidence_count (E:=BcsrError) (view_of demo_sections) 1 = Ok 3.
Proof.
  destruct (bcsr_view_refines demo_sections demo_layout
    ltac:(intros i Hi; change (total demo_sections) with 6 in Hi; split; [lia|change (width_max _) with 4294967295; lia])
    ltac:(intros i Hi; change (hyperedges demo_sections) with 2 in Hi; split; [lia|change (width_max _) with 4294967295; lia])
    (E:=BcsrError)) as (Hh & Hv & _).
  destruct (Hv 0%nat ltac:(split; vm_compute; discriminate) eq_refl) as (_ & _ & _ & _ & _ & Hs & _).
  destruct (Hh 1%nat eq_refl) as (_ & _ & _ & _ & Hc & _). split; [exact Hs|exact Hc].
Defined.

Lemma add_hyperedge_exact_witness :
  ∃ e, add_hyperedge W32 W32 demo_hyper [2; 2] [] = Err e ∧ hyper_refusal W32 3 2 [2; 2] [] e.
Proof.
  destruct (add_hyperedge_exact W32 W32 demo_hyper [2; 2] [] demo_hyper_reach ltac:(repeat constructor; vm_compute; discriminate)
    ltac:(constructor) ltac:(vm_compute; discriminate)) as [[He _]|(e & He & Hr & _)].
  - vm_compute in He. discriminate.
  - exists e. split; [exact He|exact Hr].
Defined.

Lemma hyper_freeze_correct_witness :
  ∃ t, hyper_freeze W32 W32 W32 demo_hyper = Ok t ∧ heads (topology_sections W32 W32 W32 t) 0 = [0; 1] ∧
    BcsrOk (topology_sections W32 W32 W32 t) Strict.
Proof.
  destruct (hyper_freeze_correct W32 W32 W32 demo_hyper demo_hyper_reach demo_hyper_memory)
    as [(_ & _ & t & Ht & _ & Hok & _ & _ & Hrows & _)|[_ (v & Hv & _)]].
  - exists t. split; [exact Ht|]. split; [|exact Hok]. destruct (Hrows 0%nat _ eq_refl) as [Hheads _]. exact Hheads.
  - vm_compute in Hv. discriminate.
Defined.

Lemma hyper_export_roundtrip_witness :
  ∃ bytes s, export_bcsr_snapshot S32 S32 S32 demo_topology = Ok bytes ∧ open_checked bytes 64 crc32c_append = Ok s.
Proof.
  destruct (hyper_export_roundtrip S32 S32 S32 demo_hyper demo_topology demo_hyper_reach demo_hyper_memory
    ltac:(vm_compute; reflexivity) ltac:(vm_compute; discriminate)) as (bytes & Hb & Ho).
  destruct (Ho 64) as (s & Hs & _). exists bytes, s. split; [exact Hb|exact Hs].
Defined.

(** One hyperedge whose second source is reweighted after it was added. *)
Definition demo_weighted : WeightedHypergraphBuilder Z Z Z := {|
  whb_vertex_count := 2; whb_element_weights := [10; 20];
  whb_hyperedges := [{| nr_sources := [(1, 5); (0, 9)]; nr_targets := [(1, 7)] |}]; whb_relation_weights := [3] |}.

Lemma demo_weighted_reach : w_hyper_reach W32 W32 demo_weighted.
Proof.
  assert (w_hyper_reach W32 W32 {| whb_vertex_count := 2; whb_element_weights := [10; 20]; whb_hyperedges := @nil (NormalizedHyperedgeRecord Z);
    whb_relation_weights := @nil Z |}) as H0.
  { apply (w_reach_vertex _ _ {| whb_vertex_count := 1; whb_element_weights := [10]; whb_hyperedges := []; whb_relation_weights := [] |} 20 1);
      [|reflexivity]. apply (w_reach_vertex _ _ WeightedHypergraphBuilder_new 10 0); [apply w_reach_new|reflexivity]. }
  apply (w_reach_source _ _ {| whb_vertex_count := 2; whb_element_weights := [10; 20];
    whb_hyperedges := [{| nr_sources := [(1, 5); (0, 6)]; nr_targets := [(1, 7)] |}]; whb_relation_weights := [3] |} 0 1 9); [|reflexivity].
  eapply (w_reach_hyperedge _ _ _ [(1, 5); (0, 6)] [(1, 7)] 3 0); [exact H0|repeat constructor; vm_compute; discriminate..|reflexivity|].
  vm_compute. discriminate.
Qed.


End demo.
