(* ===== verification/Projection.v ===== *)
(** * Projection: materialized graph and hypergraph projections

    Models [crates/oxgraph-db/src/projection.rs]: the two builders, the frozen
    arrays they produce through the CSR and the bipartite builders, the
    accessors of the views and the topology capabilities the algorithms use.
    A local id ([u32]) is a [Z]; a [BTreeMap] is a [gmap]. *)

From Stdlib Require Import String.
From stdpp Require Import base gmap sets list strings sorting.
From S2P Require Import Prelude Ordered Layout DbError DbWire DbState Overlay Merge Topology CsrBuild Bcsr BcsrBuild.

Local Open Scope Z_scope.

(** ** What a projection reads of the state

    [StateView::relations] and [StateView::relation_incidences]. *)

Class StateView (V : Type) := {
  state_relations : V → res DbError (list RelationRecord);
  state_relation_incidences : V → Z → list IncidenceRecord
}.

#[export] Instance layered_state_view `{OverlayLayer L} : StateView (LayeredState L) := {|
  state_relations := view_relations;
  state_relation_incidences := view_relation_incidences
|}.

Section ids.
Context `{!Target}.

Definition projection_element_id (index : Z) : res DbError Z := ok_or (id_overflow FamilyElement) (from_usize W32 index).
Definition projection_relation_id (index : Z) : res DbError Z := ok_or (id_overflow FamilyElement) (from_usize W32 index).
Definition projection_incidence_id (index : Z) : res DbError Z := ok_or (id_overflow FamilyElement) (from_usize W32 index).

Definition local_index (id : Z) : nat := Z.to_nat (slot_or_max W32 id).
Definition local_relation_index (id : Z) : nat := Z.to_nat (slot_or_max W32 id).
Definition local_incidence_index (id : Z) : nat := Z.to_nat (slot_or_max W32 id).
End ids.

Definition relation_selected (record : RelationRecord) (selected : gset Z) : bool :=
  match rel_type record with
  | None => bool_decide (selected = ∅)
  | Some relation_type => bool_decide (selected = ∅ ∨ relation_type ∈ selected)
  end.

(** ** The graph projection *)

Record GraphProjectionView := {
  gv_definition : GraphProjectionDefinition;
  gv_elements : list Z;
  gv_element_index : gmap Z Z;
  gv_relations : list Z;
  gv_relation_index : gmap Z Z;
  gv_endpoints : list (Z * Z);
  gv_out_edges : list (list Z);
  gv_in_edges : list (list Z);
  gv_successors : list (list Z);
  gv_predecessors : list (list Z)
}.

Record GraphProjectionBuilder := {
  pb_definition : GraphProjectionDefinition;
  pb_elements : list Z;
  pb_element_index : gmap Z Z;
  pb_relations : list Z;
  pb_relation_index : gmap Z Z;
  pb_endpoints : list (Z * Z)
}.

Definition GraphProjectionBuilder_new (definition : GraphProjectionDefinition) : GraphProjectionBuilder := {|
  pb_definition := definition; pb_elements := []; pb_element_index := ∅; pb_relations := []; pb_relation_index := ∅;
  pb_endpoints := []
|}.

(** [slot.replace(element)]: the slot is [None] after an error only. *)
Definition update_endpoint (slot : option Z) (incidence : IncidenceRecord) (role : Z) (name : string) : res DbError (option Z) :=
  if decide (inc_role incidence ≠ role) then Ok slot
  else match slot with
       | Some _ => Err (invalid_projection ("selected graph relation has duplicate " ++ name ++ " endpoint")%string)
       | None => Ok (Some (inc_element incidence))
       end.

Definition graph_endpoints `{StateView V} (state : V) (relation source_role target_role : Z) : res DbError (Z * Z) :=
  '(source, target) ← for_each (λ (slots : option Z * option Z) incidence,
      source ← update_endpoint slots.1 incidence source_role "source";
      target ← update_endpoint slots.2 incidence target_role "target";
      Ok (source, target)) (state_relation_incidences state relation) (None, None);
  match source, target with
  | Some source, Some target => Ok (source, target)
  | _, _ => Err (invalid_projection "selected graph relation lacks source or target endpoint")
  end.

Section graph_projection.
Context `{!Target}.

(** The local id, the index and the elements. *)
Definition intern_element (index : gmap Z Z) (elements : list Z) (canonical : Z) : res DbError (Z * gmap Z Z * list Z) :=
  match index !! canonical with
  | Some local => Ok (local, index, elements)
  | None =>
      local ← projection_element_id (zlen elements);
      Ok (local, <[canonical := local]> index, elements ++ [canonical])
  end.

Definition graph_push_relation `{StateView V} (state : V) (b : GraphProjectionBuilder) (relation : RelationRecord)
    : res DbError GraphProjectionBuilder :=
  '(source, target) ← graph_endpoints state (rel_id relation) (gp_source_role (pb_definition b)) (gp_target_role (pb_definition b));
  '(source, index, elements) ← intern_element (pb_element_index b) (pb_elements b) source;
  '(target, index, elements) ← intern_element index elements target;
  edge ← projection_relation_id (zlen (pb_relations b));
  Ok {| pb_definition := pb_definition b; pb_elements := elements; pb_element_index := index;
        pb_relations := pb_relations b ++ [rel_id relation];
        pb_relation_index := <[rel_id relation := edge]> (pb_relation_index b);
        pb_endpoints := pb_endpoints b ++ [(source, target)] |}.

Definition grouped {T} (offsets flat : list Z) (node_count : nat) (map : Z → res DbError T) : res DbError (list (list T)) :=
  for_each (λ rows node,
    start ← (o ← vget offsets node; ok_or (id_overflow FamilyRelation) (to_usize W32 o));
    end_ ← (o ← vget offsets (S node); ok_or (id_overflow FamilyRelation) (to_usize W32 o));
    slice ← ok_or (invalid_projection "csr offset range out of bounds") (get_range flat start end_);
    row ← mapM map slice;
    Ok (rows ++ [row])) (seq 0 node_count) [].

Definition grouped_elements (offsets flat : list Z) (node_count : nat) : res DbError (list (list Z)) :=
  grouped offsets flat node_count (λ raw, Ok raw).
Definition grouped_relations (offsets flat : list Z) (node_count : nat) : res DbError (list (list Z)) :=
  grouped offsets flat node_count (λ raw, Ok raw).

Definition graph_finish (b : GraphProjectionBuilder) : res DbError GraphProjectionView :=
  let node_count := List.length (pb_elements b) in
  '(builder, nodes) ← for_each (λ (st : GraphBuilder * list Z) (_ : Z),
      '(node, builder) ← map_err (λ _, id_overflow FamilyElement) (add_node W32 st.1);
      Ok (builder, st.2 ++ [node])) (pb_elements b) (GraphBuilder_new, []);
  builder ← for_each (λ builder (e : Z * Z),
      source ← vget nodes (local_index e.1);
      target ← vget nodes (local_index e.2);
      '(_, builder) ← map_err (λ _, id_overflow FamilyRelation) (add_edge W32 W32 builder source target);
      Ok builder) (pb_endpoints b) builder;
  forward ← map_err (λ _, id_overflow FamilyRelation) (freeze W32 W32 builder);
  reverse ← map_err (λ _, id_overflow FamilyRelation) (transpose W32 W32 forward);
  successors ← grouped_elements (ft_offsets forward) (ft_targets forward) node_count;
  out_edges ← grouped_relations (ft_offsets forward) (ft_edge_ids forward) node_count;
  predecessors ← grouped_elements (ft_offsets reverse) (ft_targets reverse) node_count;
  in_edges ← grouped_relations (ft_offsets reverse) (ft_edge_ids reverse) node_count;
  Ok {| gv_definition := pb_definition b; gv_elements := pb_elements b; gv_element_index := pb_element_index b;
        gv_relations := pb_relations b; gv_relation_index := pb_relation_index b; gv_endpoints := pb_endpoints b;
        gv_out_edges := out_edges; gv_in_edges := in_edges; gv_successors := successors; gv_predecessors := predecessors |}.

(** [GraphProjection::from_state]. *)
Definition graph_from_state `{StateView V} (state : V) (definition : GraphProjectionDefinition) : res DbError GraphProjectionView :=
  relations ← state_relations state;
  b ← for_each (λ b relation,
      if relation_selected relation (gp_relation_types (pb_definition b)) then graph_push_relation state b relation
      else Ok b) relations (GraphProjectionBuilder_new definition);
  graph_finish b.

(** [GraphProjection::subjects]: sorted. *)
Definition graph_subjects (p : GraphProjectionView) : list PropertySubject :=
  merge_sort key_le ((SElement <$> gv_elements p) ++ (SRelation <$> gv_relations p)).

(** *** The capabilities of the view *)

Definition gv_relation_count (p : GraphProjectionView) : Z := zlen (gv_relations p).
Definition gv_element_count (p : GraphProjectionView) : Z := zlen (gv_elements p).

(** An id is unsigned. *)
Definition gv_contains_element (p : GraphProjectionView) (element : Z) : bool :=
  bool_decide (0 ≤ element) && bool_decide (local_index element < List.length (gv_elements p))%nat.
Definition gv_contains_relation (p : GraphProjectionView) (relation : Z) : bool :=
  bool_decide (0 ≤ relation) && bool_decide (local_relation_index relation < List.length (gv_relations p))%nat.

Definition gv_canonical_element_id {E} (p : GraphProjectionView) (element : Z) : res E Z := vget (gv_elements p) (local_index element).
Definition gv_local_element_id (p : GraphProjectionView) (canonical : Z) : option Z := gv_element_index p !! canonical.
Definition gv_canonical_relation_id {E} (p : GraphProjectionView) (relation : Z) : res E Z :=
  vget (gv_relations p) (local_relation_index relation).
Definition gv_local_relation_id (p : GraphProjectionView) (canonical : Z) : option Z := gv_relation_index p !! canonical.

Definition gv_source {E} (p : GraphProjectionView) (edge : Z) : res E Z :=
  e ← vget (gv_endpoints p) (local_relation_index edge); Ok e.1.
Definition gv_target {E} (p : GraphProjectionView) (edge : Z) : res E Z :=
  e ← vget (gv_endpoints p) (local_relation_index edge); Ok e.2.

Definition gv_outgoing_edges {E} (p : GraphProjectionView) (node : Z) : res E (list Z) := vget (gv_out_edges p) (local_index node).
Definition gv_incoming_edges {E} (p : GraphProjectionView) (node : Z) : res E (list Z) := vget (gv_in_edges p) (local_index node).
Definition gv_element_successors {E} (p : GraphProjectionView) (element : Z) : res E (list Z) :=
  vget (gv_successors p) (local_index element).
Definition gv_element_predecessors {E} (p : GraphProjectionView) (element : Z) : res E (list Z) :=
  vget (gv_predecessors p) (local_index element).
Definition gv_out_degree {E} (p : GraphProjectionView) (node : Z) : res E Z := es ← gv_outgoing_edges p node; Ok (zlen es).
Definition gv_in_degree {E} (p : GraphProjectionView) (node : Z) : res E Z := es ← gv_incoming_edges p node; Ok (zlen es).

(** The instances the algorithms run on; expanding an element that is not
    visible panics, and is the empty list here. *)
Definition row_or_nil (r : res DbError (list Z)) : list Z := match r with Ok l => l | _ => [] end.

#[export] Instance gv_dense : DenseElementIndex GraphProjectionView Z := {|
  element_bound p := List.length (gv_elements p); element_index _ x := local_index x
|}.
#[export] Instance gv_contains : ContainsElement GraphProjectionView Z := gv_contains_element.
#[export] Instance gv_succ : ElementSuccessors GraphProjectionView Z := λ p x, row_or_nil (gv_element_successors p x).
#[export] Instance gv_pred : ElementPredecessors GraphProjectionView Z := λ p x, row_or_nil (gv_element_predecessors p x).

End graph_projection.

(** ** The hypergraph projection *)

Record HypergraphProjectionView := {
  hv_definition : HypergraphProjectionDefinition;
  hv_elements : list Z;
  hv_element_index : gmap Z Z;
  hv_relations : list Z;
  hv_relation_index : gmap Z Z;
  hv_incidences : list IncidenceRecord;
  hv_incidence_index : gmap Z Z;
  hv_relation_incidences : list (list Z);
  hv_element_incidences : list (list Z);
  hv_source_incidences : list (list Z);
  hv_target_incidences : list (list Z);
  hv_source_vertices : list (list Z);
  hv_target_vertices : list (list Z);
  hv_outgoing_hyperedges : list (list Z);
  hv_incoming_hyperedges : list (list Z);
  hv_successors : list (list Z);
  hv_predecessors : list (list Z)
}.

Record HypergraphProjectionBuilder := {
  qb_definition : HypergraphProjectionDefinition;
  qb_elements : list Z;
  qb_element_index : gmap Z Z;
  qb_relations : list Z;
  qb_relation_index : gmap Z Z;
  qb_incidences : list IncidenceRecord;
  qb_incidence_index : gmap Z Z;
  qb_relation_incidences : list (list Z);
  qb_source_incidences : list (list Z);
  qb_target_incidences : list (list Z);
  qb_source_vertices : list (list Z);
  qb_target_vertices : list (list Z)
}.

Definition HypergraphProjectionBuilder_new (definition : HypergraphProjectionDefinition) : HypergraphProjectionBuilder := {|
  qb_definition := definition; qb_elements := []; qb_element_index := ∅; qb_relations := []; qb_relation_index := ∅;
  qb_incidences := []; qb_incidence_index := ∅; qb_relation_incidences := []; qb_source_incidences := [];
  qb_target_incidences := []; qb_source_vertices := []; qb_target_vertices := []
|}.

(** The five vectors [push_relation] fills. *)
Record HyperedgeRows := {
  he_ids : list Z;
  he_source_ids : list Z;
  he_target_ids : list Z;
  he_sources : list Z;
  he_targets : list Z
}.
Definition no_rows : HyperedgeRows := {| he_ids := []; he_source_ids := []; he_target_ids := []; he_sources := []; he_targets := [] |}.

Definition push_row (source target : bool) (local vertex : Z) (rows : HyperedgeRows) : HyperedgeRows := {|
  he_ids := he_ids rows ++ [local];
  he_source_ids := if source then he_source_ids rows ++ [local] else he_source_ids rows;
  he_target_ids := if target then he_target_ids rows ++ [local] else he_target_ids rows;
  he_sources := if source then he_sources rows ++ [vertex] else he_sources rows;
  he_targets := if target then he_targets rows ++ [vertex] else he_targets rows
|}.

Section hypergraph_projection.
Context `{!Target}.

Definition push_incidence (b : HypergraphProjectionBuilder) (incidence : IncidenceRecord)
    : res DbError (Z * HypergraphProjectionBuilder) :=
  match qb_incidence_index b !! inc_id incidence with
  | Some id => Ok (id, b)
  | None =>
      local ← projection_incidence_id (zlen (qb_incidences b));
      Ok (local, {| qb_definition := qb_definition b; qb_elements := qb_elements b; qb_element_index := qb_element_index b;
                    qb_relations := qb_relations b; qb_relation_index := qb_relation_index b;
                    qb_incidences := qb_incidences b ++ [incidence];
                    qb_incidence_index := <[inc_id incidence := local]> (qb_incidence_index b);
                    qb_relation_incidences := qb_relation_incidences b; qb_source_incidences := qb_source_incidences b;
                    qb_target_incidences := qb_target_incidences b; qb_source_vertices := qb_source_vertices b;
                    qb_target_vertices := qb_target_vertices b |})
  end.

Definition with_elements (b : HypergraphProjectionBuilder) (index : gmap Z Z) (elements : list Z) : HypergraphProjectionBuilder := {|
  qb_definition := qb_definition b; qb_elements := elements; qb_element_index := index; qb_relations := qb_relations b;
  qb_relation_index := qb_relation_index b; qb_incidences := qb_incidences b; qb_incidence_index := qb_incidence_index b;
  qb_relation_incidences := qb_relation_incidences b; qb_source_incidences := qb_source_incidences b;
  qb_target_incidences := qb_target_incidences b; qb_source_vertices := qb_source_vertices b;
  qb_target_vertices := qb_target_vertices b
|}.

Definition with_relation (b : HypergraphProjectionBuilder) (relation hyperedge : Z) : HypergraphProjectionBuilder := {|
  qb_definition := qb_definition b; qb_elements := qb_elements b; qb_element_index := qb_element_index b;
  qb_relations := qb_relations b ++ [relation]; qb_relation_index := <[relation := hyperedge]> (qb_relation_index b);
  qb_incidences := qb_incidences b; qb_incidence_index := qb_incidence_index b;
  qb_relation_incidences := qb_relation_incidences b; qb_source_incidences := qb_source_incidences b;
  qb_target_incidences := qb_target_incidences b; qb_source_vertices := qb_source_vertices b;
  qb_target_vertices := qb_target_vertices b
|}.

Definition with_rows (b : HypergraphProjectionBuilder) (rows : HyperedgeRows) : HypergraphProjectionBuilder := {|
  qb_definition := qb_definition b; qb_elements := qb_elements b; qb_element_index := qb_element_index b;
  qb_relations := qb_relations b; qb_relation_index := qb_relation_index b;
  qb_incidences := qb_incidences b; qb_incidence_index := qb_incidence_index b;
  qb_relation_incidences := qb_relation_incidences b ++ [he_ids rows];
  qb_source_incidences := qb_source_incidences b ++ [he_source_ids rows];
  qb_target_incidences := qb_target_incidences b ++ [he_target_ids rows];
  qb_source_vertices := qb_source_vertices b ++ [he_sources rows];
  qb_target_vertices := qb_target_vertices b ++ [he_targets rows]
|}.

(** One incidence of the loop of [push_relation]. *)
Definition push_participant (st : HypergraphProjectionBuilder * HyperedgeRows) (incidence : IncidenceRecord)
    : res DbError (HypergraphProjectionBuilder * HyperedgeRows) :=
  '(local, b) ← push_incidence st.1 incidence;
  '(vertex, index, elements) ← intern_element (qb_element_index b) (qb_elements b) (inc_element incidence);
  let b := with_elements b index elements in
  Ok (b, push_row (bool_decide (inc_role incidence ∈ hp_source_roles (qb_definition b)))
           (bool_decide (inc_role incidence ∈ hp_target_roles (qb_definition b))) local vertex st.2).

Definition hyper_push_relation `{StateView V} (state : V) (b : HypergraphProjectionBuilder) (relation : RelationRecord)
    : res DbError HypergraphProjectionBuilder :=
  hyperedge ← projection_relation_id (zlen (qb_relations b));
  let b := with_relation b (rel_id relation) hyperedge in
  '(b, rows) ← for_each push_participant (state_relation_incidences state (rel_id relation)) (b, no_rows);
  if decide (he_sources rows = [] ∨ he_targets rows = [])
  then Err (invalid_projection "selected hyperedge lacks source or target participants")
  else Ok (with_rows b rows).

Definition build_element_incidences (element_count : nat) (incidences : list IncidenceRecord) (element_index : gmap Z Z)
    : res DbError (list (list Z)) :=
  for_each (λ rows (p : nat * IncidenceRecord),
    local ← projection_incidence_id (Z.of_nat p.1);
    element ← ok_or (invalid_projection "incidence element not projected") (element_index !! inc_element p.2);
    row ← vget rows (local_index element);
    vset rows (local_index element) (row ++ [local])) (imap (λ i r, (i, r)) incidences) (replicate element_count []).

(** The repeats of a side dropped, the first occurrence kept. *)
Definition unique_vertices {E} (vertices locals : list Z) : res E (list Z) :=
  '(_, out) ← for_each (λ (st : gset Z * list Z) local,
      if decide (local ∈ st.1) then Ok st
      else v ← vget vertices (local_index local); Ok ({[local]} ∪ st.1, st.2 ++ [v])) locals (∅, []);
  Ok out.

Definition unique_sorted (elements : list Z) : list Z := set_iter (list_to_set elements : gset Z).

Definition DirectedVertexArrays : Type := list (list Z) * list (list Z) * list (list Z) * list (list Z).

(** One vertex of the collection loop. *)
Definition push_vertex_rows (frozen : FrozenHyperTopology) (st : DirectedVertexArrays) (vertex : Z) : res DbError DirectedVertexArrays :=
  let '(outgoing, incoming, successors, predecessors) := st in
  out ← frozen_outgoing_hyperedges W32 W32 W32 frozen vertex;
  in_ ← frozen_incoming_hyperedges W32 W32 W32 frozen vertex;
  succ ← frozen_element_successors W32 W32 W32 frozen vertex;
  pred ← frozen_element_predecessors W32 W32 W32 frozen vertex;
  Ok (outgoing ++ [out], incoming ++ [in_], successors ++ [unique_sorted succ], predecessors ++ [unique_sorted pred]).

Definition build_directed_vertex_arrays (element_count : nat) (source_vertices target_vertices : list (list Z))
    : res DbError DirectedVertexArrays :=
  '(builder, vertices) ← for_each (λ (st : HypergraphBuilder * list Z) (_ : nat),
      '(vertex, builder) ← map_err (λ _, id_overflow FamilyElement) (add_vertex W32 st.1);
      Ok (builder, st.2 ++ [vertex])) (seq 0 element_count) (HypergraphBuilder_new, []);
  builder ← for_each (λ builder (side : list Z * list Z),
      sources ← unique_vertices vertices side.1;
      targets ← unique_vertices vertices side.2;
      '(_, builder) ← map_err (λ _, invalid_projection "hyperedge participants are not directed-unique")
        (add_hyperedge W32 W32 builder sources targets);
      Ok builder) (zip source_vertices target_vertices) builder;
  frozen ← map_err (λ _, id_overflow FamilyIncidence) (hyper_freeze W32 W32 W32 builder);
  for_each (push_vertex_rows frozen) vertices ([], [], [], []).

Definition hyper_finish (b : HypergraphProjectionBuilder) : res DbError HypergraphProjectionView :=
  element_incidences ← build_element_incidences (List.length (qb_elements b)) (qb_incidences b) (qb_element_index b);
  '(outgoing, incoming, successors, predecessors) ←
    build_directed_vertex_arrays (List.length (qb_elements b)) (qb_source_vertices b) (qb_target_vertices b);
  Ok {| hv_definition := qb_definition b; hv_elements := qb_elements b; hv_element_index := qb_element_index b;
        hv_relations := qb_relations b; hv_relation_index := qb_relation_index b; hv_incidences := qb_incidences b;
        hv_incidence_index := qb_incidence_index b; hv_relation_incidences := qb_relation_incidences b;
        hv_element_incidences := element_incidences; hv_source_incidences := qb_source_incidences b;
        hv_target_incidences := qb_target_incidences b; hv_source_vertices := qb_source_vertices b;
        hv_target_vertices := qb_target_vertices b; hv_outgoing_hyperedges := outgoing;
        hv_incoming_hyperedges := incoming; hv_successors := successors; hv_predecessors := predecessors |}.

(** [HypergraphProjection::from_state]. *)
Definition hyper_from_state `{StateView V} (state : V) (definition : HypergraphProjectionDefinition)
    : res DbError HypergraphProjectionView :=
  if decide (hp_source_roles definition = ∅ ∨ hp_target_roles definition = ∅)
  then Err (invalid_projection "hypergraph projection requires non-empty source and target roles")
  else
    relations ← state_relations state;
    b ← for_each (λ b relation,
        if relation_selected relation (hp_relation_types (qb_definition b)) then hyper_push_relation state b relation
        else Ok b) relations (HypergraphProjectionBuilder_new definition);
    hyper_finish b.

(** [HypergraphProjection::subjects]: sorted. *)
Definition hyper_subjects (p : HypergraphProjectionView) : list PropertySubject :=
  merge_sort key_le ((SElement <$> hv_elements p) ++ (SRelation <$> hv_relations p) ++ ((λ r, SIncidence (inc_id r)) <$> hv_incidences p)).

(** *** The capabilities of the view *)

Definition hv_element_count (p : HypergraphProjectionView) : Z := zlen (hv_elements p).
Definition hv_relation_count (p : HypergraphProjectionView) : Z := zlen (hv_relations p).
Definition hv_incidence_count (p : HypergraphProjectionView) : Z := zlen (hv_incidences p).

(** An id is unsigned. *)
Definition hv_contains_element (p : HypergraphProjectionView) (element : Z) : bool :=
  bool_decide (0 ≤ element) && bool_decide (local_index element < List.length (hv_elements p))%nat.
Definition hv_contains_relation (p : HypergraphProjectionView) (relation : Z) : bool :=
  bool_decide (0 ≤ relation) && bool_decide (local_relation_index relation < List.length (hv_relations p))%nat.
Definition hv_contains_incidence (p : HypergraphProjectionView) (incidence : Z) : bool :=
  bool_decide (0 ≤ incidence) && bool_decide (local_incidence_index incidence < List.length (hv_incidences p))%nat.

Definition hv_canonical_element_id {E} (p : HypergraphProjectionView) (element : Z) : res E Z :=
  vget (hv_elements p) (local_index element).
Definition hv_local_element_id (p : HypergraphProjectionView) (canonical : Z) : option Z := hv_element_index p !! canonical.
Definition hv_canonical_relation_id {E} (p : HypergraphProjectionView) (relation : Z) : res E Z :=
  vget (hv_relations p) (local_relation_index relation).
Definition hv_local_relation_id (p : HypergraphProjectionView) (canonical : Z) : option Z := hv_relation_index p !! canonical.
Definition hv_canonical_incidence_id {E} (p : HypergraphProjectionView) (incidence : Z) : res E Z :=
  r ← vget (hv_incidences p) (local_incidence_index incidence); Ok (inc_id r).
Definition hv_local_incidence_id (p : HypergraphProjectionView) (canonical : Z) : option Z := hv_incidence_index p !! canonical.

Definition hv_incidences_of_relation {E} (p : HypergraphProjectionView) (relation : Z) : res E (list Z) :=
  vget (hv_relation_incidences p) (local_relation_index relation).
Definition hv_incidences_of_element {E} (p : HypergraphProjectionView) (element : Z) : res E (list Z) :=
  vget (hv_element_incidences p) (local_index element).
Definition hv_relation_incidence_count {E} (p : HypergraphProjectionView) (relation : Z) : res E Z :=
  ids ← hv_incidences_of_relation p relation; Ok (zlen ids).
Definition hv_element_incidence_count {E} (p : HypergraphProjectionView) (element : Z) : res E Z :=
  ids ← hv_incidences_of_element p element; Ok (zlen ids).

(** [index[&canonical]] panics on an absent key. *)
Definition hv_incidence_element {E} (p : HypergraphProjectionView) (incidence : Z) : res E Z :=
  r ← vget (hv_incidences p) (local_incidence_index incidence); or_panic (hv_element_index p !! inc_element r).
Definition hv_incidence_relation {E} (p : HypergraphProjectionView) (incidence : Z) : res E Z :=
  r ← vget (hv_incidences p) (local_incidence_index incidence); or_panic (hv_relation_index p !! inc_relation r).
Definition hv_incidence_role {E} (p : HypergraphProjectionView) (incidence : Z) : res E Z :=
  r ← vget (hv_incidences p) (local_incidence_index incidence); Ok (inc_role r).

(** The iterators, drained. *)
Definition hv_hyperedge_participants {E} (p : HypergraphProjectionView) (hyperedge : Z) : res E (list Z) :=
  ids ← hv_incidences_of_relation p hyperedge; mapM (hv_incidence_element p) ids.
Definition hv_incident_hyperedges {E} (p : HypergraphProjectionView) (vertex : Z) : res E (list Z) :=
  ids ← hv_incidences_of_element p vertex; mapM (hv_incidence_relation p) ids.

Definition hv_source_participants {E} (p : HypergraphProjectionView) (hyperedge : Z) : res E (list Z) :=
  vget (hv_source_vertices p) (local_relation_index hyperedge).
Definition hv_target_participants {E} (p : HypergraphProjectionView) (hyperedge : Z) : res E (list Z) :=
  vget (hv_target_vertices p) (local_relation_index hyperedge).
Definition hv_incidences_of_sources {E} (p : HypergraphProjectionView) (hyperedge : Z) : res E (list Z) :=
  vget (hv_source_incidences p) (local_relation_index hyperedge).
Definition hv_incidences_of_targets {E} (p : HypergraphProjectionView) (hyperedge : Z) : res E (list Z) :=
  vget (hv_target_incidences p) (local_relation_index hyperedge).
Definition hv_outgoing {E} (p : HypergraphProjectionView) (vertex : Z) : res E (list Z) :=
  vget (hv_outgoing_hyperedges p) (local_index vertex).
Definition hv_incoming {E} (p : HypergraphProjectionView) (vertex : Z) : res E (list Z) :=
  vget (hv_incoming_hyperedges p) (local_index vertex).
Definition hv_element_successors {E} (p : HypergraphProjectionView) (element : Z) : res E (list Z) :=
  vget (hv_successors p) (local_index element).
Definition hv_element_predecessors {E} (p : HypergraphProjectionView) (element : Z) : res E (list Z) :=
  vget (hv_predecessors p) (local_index element).

End hypergraph_projection.
