(* ===== verification/ProjectionFacts.v ===== *)
(** * ProjectionFacts: the graph projection is exact

    Interning gives every end point one local id, in order of first appearance;
    a graph projection succeeds exactly when every selected relation is binary in
    the configured roles and the ids fit, and then lists the selected relations
    as edges, grouped by source and by target; the view satisfies the contract
    the algorithms assume. *)

From Stdlib Require Import String.
From stdpp Require Import base gmap sets list strings sorting.
From S2P Require Import Prelude Ordered Layout DbError DbWire DbState Overlay Merge Topology CsrBuild CsrBuildFacts CsrFreeze.
From S2P Require Import Projection.

Local Open Scope Z_scope.

(** ** First occurrences *)

Section first_occurrences.
Context {A : Type} `{EqDecision A}.

Definition intern (l : list A) (x : A) : list A := if decide (x ∈ l) then l else l ++ [x].
Definition first_occurrences (l : list A) : list A := foldl intern [] l.

Lemma intern_prefix l x : l `prefix_of` intern l x.
Proof. unfold intern. case_decide; [done|by apply prefix_app_r]. Qed.

Lemma intern_NoDup l x : NoDup l → NoDup (intern l x).
Proof. intros Hl. unfold intern. case_decide; [done|]. apply NoDup_app. split_and!; [done|set_solver|apply NoDup_singleton]. Qed.

Lemma elem_of_intern l x y : y ∈ intern l x ↔ y ∈ l ∨ y = x.
Proof. unfold intern. case_decide; set_solver. Qed.

Lemma foldl_intern_prefix l k : k `prefix_of` foldl intern k l.
Proof. revert k. induction l as [|x l IH]; intros k; [done|]. cbn. etrans; [apply intern_prefix|apply IH]. Qed.

Lemma first_occurrences_app l k : first_occurrences (l ++ k) = foldl intern (first_occurrences l) k.
Proof. apply foldl_app. Qed.

Lemma first_occurrences_prefix l k : first_occurrences l `prefix_of` first_occurrences (l ++ k).
Proof. rewrite first_occurrences_app. apply foldl_intern_prefix. Qed.

Lemma first_occurrences_spec l : NoDup (first_occurrences l) ∧ ∀ x, x ∈ first_occurrences l ↔ x ∈ l.
Proof.
  induction l as [|x l IH] using rev_ind; [split; [constructor|done]|]. destruct IH as [Hnd Hin].
  rewrite first_occurrences_app. cbn. split; [by apply intern_NoDup|]. intros y. rewrite elem_of_intern, Hin. set_solver.
Qed.

Lemma first_occurrences_length l : (length (first_occurrences l) ≤ length l)%nat.
Proof.
  destruct (first_occurrences_spec l) as [Hnd Hin]. apply submseteq_length, NoDup_submseteq; [done|]. intros x. by rewrite Hin.
Qed.
End first_occurrences.

(** The end points in the order they are interned. *)
Definition end_points (ends : list (Z * Z)) : list Z := e ← ends; [e.1; e.2].

Lemma end_points_app l k : end_points (l ++ k) = end_points l ++ end_points k.
Proof. apply bind_app. Qed.

Lemma length_end_points l : length (end_points l) = (2 * length l)%nat.
Proof. induction l as [|e l IH]; [done|]. change (end_points (e :: l)) with ([e.1; e.2] ++ end_points l). rewrite length_app, IH. cbn. lia. Qed.

Lemma elem_of_end_points l x : x ∈ end_points l ↔ ∃ e, e ∈ l ∧ (x = e.1 ∨ x = e.2).
Proof. unfold end_points. rewrite list_elem_of_bind. set_solver. Qed.

(** ** The role slots of a relation *)

Section endpoints.
Context `{StateView V} (state : V).

(** The incidences of a relation in a role. *)
Definition playing (relation role : Z) : list IncidenceRecord :=
  filter (λ i, inc_role i = role) (state_relation_incidences state relation).

(** The end points of a relation with one incidence in each role. *)
Definition binary_ends (d : GraphProjectionDefinition) (r : RelationRecord) : option (Z * Z) :=
  match playing (rel_id r) (gp_source_role d), playing (rel_id r) (gp_target_role d) with
  | [i], [j] => Some (inc_element i, inc_element j)
  | _, _ => None
  end.

(** A slot after a run of incidences: [None] when it was filled twice. *)
Definition slot_after (slot : option Z) (l : list IncidenceRecord) (role : Z) : option (option Z) :=
  match slot, filter (λ i, inc_role i = role) l with
  | x, [] => Some x
  | None, [i] => Some (Some (inc_element i))
  | _, _ => None
  end.

Lemma slot_after_nil slot role : slot_after slot [] role = Some slot.
Proof. by destruct slot. Qed.

Lemma update_endpoint_after slot i l role name :
  match update_endpoint slot i role name with
  | Ok slot' => slot_after slot (i :: l) role = slot_after slot' l role
  | Err e => (∃ m, e = invalid_projection m) ∧ slot_after slot (i :: l) role = None
  | Panic | NoFuel => False
  end.
Proof.
  unfold update_endpoint, slot_after. rewrite filter_cons. repeat case_decide; try done.
  destruct slot as [x|]; [split; [by eexists|done]|]. by destruct (filter _ l).
Qed.

Lemma endpoints_loop sr tr l slots :
  match for_each (λ (slots : option Z * option Z) incidence,
      source ← update_endpoint slots.1 incidence sr "source";
      target ← update_endpoint slots.2 incidence tr "target";
      Ok (source, target)) l slots with
  | Ok slots' => slot_after slots.1 l sr = Some slots'.1 ∧ slot_after slots.2 l tr = Some slots'.2
  | Err e => (∃ m, e = invalid_projection m) ∧ (slot_after slots.1 l sr = None ∨ slot_after slots.2 l tr = None)
  | Panic | NoFuel => False
  end.
Proof.
  revert slots. induction l as [|i l IH]; intros [s t]; cbn [for_each].
  - cbn [fst snd]. by rewrite !slot_after_nil.
  - pose proof (update_endpoint_after s i l sr "source") as Hs. pose proof (update_endpoint_after t i l tr "target") as Ht. cbn [fst snd].
    destruct (update_endpoint s i sr _) as [s'|e| |]; cbn [mbind res_bind]; [|by destruct Hs; auto|done..].
    destruct (update_endpoint t i tr _) as [t'|e| |]; cbn [mbind res_bind]; [|by destruct Ht; auto|done..].
    rewrite Hs, Ht. apply (IH (s', t')).
Qed.

Lemma graph_endpoints_spec d r :
  match binary_ends d r with
  | Some e => graph_endpoints state (rel_id r) (gp_source_role d) (gp_target_role d) = Ok e
  | None => ∃ m, graph_endpoints state (rel_id r) (gp_source_role d) (gp_target_role d) = Err (invalid_projection m)
  end.
Proof.
  unfold graph_endpoints, binary_ends, playing.
  pose proof (endpoints_loop (gp_source_role d) (gp_target_role d) (state_relation_incidences state (rel_id r)) (None, None)) as Hl.
  destruct (for_each _ _ _) as [[s t]|e| |]; cbn [mbind res_bind]; cbn [fst snd] in Hl; [| |done..].
  - destruct Hl as [Hs Ht]. unfold slot_after in Hs, Ht.
    destruct (filter _ _) as [|i [|]]; simplify_eq; cbn; [by eexists|].
    destruct (filter (λ i, inc_role i = gp_target_role d) _) as [|j [|]]; simplify_eq; [by eexists|done].
  - destruct Hl as [(m & ->) Hl]. unfold slot_after in Hl.
    destruct (filter (λ i, inc_role i = gp_source_role d) _) as [|i [|]]; [by eexists| |by eexists].
    destruct (filter (λ i, inc_role i = gp_target_role d) _) as [|j [|]]; [by eexists| |by eexists]. by destruct Hl.
Qed.
End endpoints.

(** ** Interning *)

(** [index] is the inverse of the list. *)
Definition inverse_index (index : gmap Z Z) (l : list Z) : Prop :=
  ∀ c i, index !! c = Some i ↔ 0 ≤ i ∧ l !! Z.to_nat i = Some c.

Lemma inverse_index_elem index l c : inverse_index index l → is_Some (index !! c) ↔ c ∈ l.
Proof.
  intros Hi. rewrite list_elem_of_lookup. split.
  - intros [i [_ ?]%Hi]. by eexists.
  - intros [i Hl]. exists (Z.of_nat i). apply Hi. rewrite Nat2Z.id. split; [lia|done].
Qed.

Lemma inverse_index_empty : inverse_index ∅ [].
Proof. intros c i. rewrite lookup_empty, lookup_nil. naive_solver. Qed.

Lemma inverse_index_push index l c :
  inverse_index index l → c ∉ l → inverse_index (<[c := zlen l]> index) (l ++ [c]).
Proof.
  intros Hi Hc x i. unfold zlen. destruct (decide (x = c)) as [->|Hne].
  - rewrite lookup_insert_eq. split.
    + intros [= <-]. split; [lia|]. rewrite Nat2Z.id. by apply list_lookup_middle.
    + intros [Hi0 Hl]. f_equal. apply lookup_snoc_Some in Hl as [[_ Hl]|[Hl _]]; [|lia].
      exfalso. apply Hc. by eapply list_elem_of_lookup_2.
  - rewrite lookup_insert_ne by done. rewrite (Hi x i), lookup_snoc_Some. split; [|naive_solver].
    intros [? Hl]. split; [done|]. left. split; [by eapply lookup_lt_Some|done].
Qed.

Section projection_facts.
Context `{!Target}.

(** How many local ids there are. *)
Definition local_ids : Z := 2 ^ 32.

Lemma intern_element_spec index l c :
  inverse_index index l → zlen l ≤ local_ids →
  (zlen (intern l c) ≤ local_ids ∧ ∃ local index', intern_element index l c = Ok (local, index', intern l c) ∧
     inverse_index index' (intern l c) ∧ 0 ≤ local ∧ intern l c !! Z.to_nat local = Some c) ∨
  (local_ids < zlen (intern l c) ∧ intern_element index l c = Err (id_overflow FamilyElement)).
Proof.
  intros Hi Hl. unfold intern_element, intern. destruct (index !! c) as [local|] eqn:Hc.
  - apply Hi in Hc as [H0 Hc]. rewrite decide_True by by eapply list_elem_of_lookup_2. left. split; [done|]. by exists local, index.
  - assert (c ∉ l) as Hn by (intros Hin; apply (inverse_index_elem _ _ _ Hi) in Hin as [? ?]; congruence).
    rewrite decide_False by done. unfold projection_element_id, from_usize. cbn [width_max]. unfold local_ids, u32_max in *.
    rewrite zlen_app. change (zlen [c]) with 1. destruct (decide (zlen l ≤ 2 ^ 32 - 1)) as [Hf|Hf].
    + rewrite try_into_fits by done. cbn [ok_or mbind res_bind]. left. split; [lia|]. do 2 eexists. split; [done|].
      split; [by apply inverse_index_push|]. split; [apply zlen_nonneg|]. unfold zlen. rewrite Nat2Z.id. by apply list_lookup_middle.
    + assert (try_into (2 ^ 32 - 1) (zlen l) = None) as -> by (apply try_into_None; lia). right. split; [lia|done].
Qed.

(** ** The builder loop *)

Section builder.
Context `{StateView V} (state : V) (d : GraphProjectionDefinition).

Definition selected_relations (rs : list RelationRecord) : list RelationRecord :=
  filter (λ r, relation_selected r (gp_relation_types d) = true) rs.

(** The canonical end points of the relations. *)
Definition ends_of (rs : list RelationRecord) : list (Z * Z) := omap (binary_ends state d) rs.

Lemma ends_of_cons r rs :
  ends_of (r :: rs) = match binary_ends state d r with Some e => e :: ends_of rs | None => ends_of rs end.
Proof using Type. done. Qed.

(** The local edge of a canonical pair. *)
Definition local_edge (elements : list Z) (e l : Z * Z) : Prop :=
  0 ≤ l.1 ∧ elements !! Z.to_nat l.1 = Some e.1 ∧ 0 ≤ l.2 ∧ elements !! Z.to_nat l.2 = Some e.2.

(** The builder after the relations [sel] with end points [ends]. *)
Record ProjectionInv (b : GraphProjectionBuilder) (sel : list RelationRecord) (ends : list (Z * Z)) : Prop := {
  pi_definition : pb_definition b = d;
  pi_elements : pb_elements b = first_occurrences (end_points ends);
  pi_element_index : inverse_index (pb_element_index b) (pb_elements b);
  pi_relations : pb_relations b = rel_id <$> sel;
  pi_relation_index : inverse_index (pb_relation_index b) (pb_relations b);
  pi_endpoints : Forall2 (local_edge (pb_elements b)) ends (pb_endpoints b);
  pi_element_ids : zlen (pb_elements b) ≤ local_ids;
  pi_relation_ids : zlen (pb_relations b) ≤ local_ids
}.

Lemma ProjectionInv_new : ProjectionInv (GraphProjectionBuilder_new d) [] [].
Proof using Type. split; cbn; try done; apply inverse_index_empty. Qed.

Lemma local_edge_prefix l k e x : l `prefix_of` k → local_edge l e x → local_edge k e x.
Proof using Type. intros Hp (? & ? & ? & ?). split_and!; try done; by eapply prefix_lookup_Some. Qed.

Lemma push_relation_spec b sel ends r :
  ProjectionInv b sel ends → rel_id r ∉ rel_id <$> sel →
  match binary_ends state d r with
  | None => ∃ m, graph_push_relation state b r = Err (invalid_projection m)
  | Some e =>
      (zlen (first_occurrences (end_points (ends ++ [e]))) ≤ local_ids ∧ zlen (sel ++ [r]) ≤ local_ids ∧
        ∃ b', graph_push_relation state b r = Ok b' ∧ ProjectionInv b' (sel ++ [r]) (ends ++ [e])) ∨
      ((local_ids < zlen (first_occurrences (end_points (ends ++ [e]))) ∨ local_ids < zlen (sel ++ [r])) ∧
        graph_push_relation state b r = Err (id_overflow FamilyElement))
  end.
Proof using Type.
  intros [Hd He Hei Hr Hri Hen Hle Hlr] Hfresh. unfold graph_push_relation. rewrite Hd.
  pose proof (graph_endpoints_spec state d r) as Hs. destruct (binary_ends state d r) as [[s t]|]; [|destruct Hs as [m ->]; by exists m].
  rewrite Hs. cbn [mbind res_bind]. clear Hs.
  assert (first_occurrences (end_points (ends ++ [(s, t)])) = intern (intern (pb_elements b) s) t) as Hfo.
  { rewrite end_points_app, first_occurrences_app, <-He. done. }
  assert (zlen (intern (pb_elements b) s) ≤ zlen (intern (intern (pb_elements b) s) t)) as Hmono.
  { unfold zlen. apply inj_le, prefix_length, intern_prefix. }
  rewrite Hfo. destruct (intern_element_spec _ _ s Hei Hle) as [(Hc1 & l1 & ix1 & -> & Hi1 & H01 & Hl1)|(Hov & ->)];
    cbn [mbind res_bind]; [|right; split; [lia|done]].
  destruct (intern_element_spec _ _ t Hi1 Hc1) as [(Hc2 & l2 & ix2 & -> & Hi2 & H02 & Hl2)|(Hov & ->)];
    cbn [mbind res_bind]; [|right; split; [by left|done]].
  rewrite zlen_app. change (zlen [r]) with 1.
  assert (zlen sel = zlen (pb_relations b)) as -> by (rewrite Hr; unfold zlen; by rewrite length_fmap).
  unfold projection_relation_id, from_usize. cbn [width_max]. unfold local_ids, u32_max in *.
  destruct (decide (zlen (pb_relations b) + 1 ≤ 2 ^ 32)) as [Hf|Hf].
  - rewrite try_into_fits by lia. cbn [ok_or mbind res_bind]. left. split; [done|]. split; [done|]. eexists. split; [done|].
    split; cbn; try done.
    + by rewrite fmap_app, <-Hr.
    + apply inverse_index_push; [done|]. by rewrite Hr.
    + apply Forall2_app.
      * eapply Forall2_impl; [exact Hen|]. intros e l. apply local_edge_prefix. etrans; apply intern_prefix.
      * repeat constructor; cbn; try done. eapply prefix_lookup_Some; [exact Hl1|apply intern_prefix].
    + rewrite zlen_app. change (zlen [rel_id r]) with 1. unfold local_ids; lia.
  - assert (try_into (2 ^ 32 - 1) (zlen (pb_relations b)) = None) as -> by (apply try_into_None; lia).
    right. split; [right; lia|done].
Qed.

(** The whole loop over the visible relations. *)
Lemma push_all_spec rs b sel ends :
  ProjectionInv b sel ends → NoDup (rel_id <$> (sel ++ rs)) →
  let good := selected_relations rs in
  let all := first_occurrences (end_points (ends ++ ends_of good)) in
  match for_each (λ b relation,
      if relation_selected relation (gp_relation_types (pb_definition b)) then graph_push_relation state b relation
      else Ok b) rs b with
  | Ok b' => ProjectionInv b' (sel ++ good) (ends ++ ends_of good) ∧ Forall (λ r, is_Some (binary_ends state d r)) good
  | Err e => ((∃ m, e = invalid_projection m) ∧ ¬ Forall (λ r, is_Some (binary_ends state d r)) good) ∨
      (e = id_overflow FamilyElement ∧ (local_ids < zlen all ∨ local_ids < zlen (sel ++ good)))
  | Panic | NoFuel => False
  end.
Proof using Type.
  cbn zeta. revert b sel ends. induction rs as [|r rs IH]; intros b sel ends Hinv Hnd.
  { cbn. rewrite !app_nil_r. done. }
  cbn [for_each]. unfold selected_relations. rewrite filter_cons, (pi_definition _ _ _ Hinv). fold (selected_relations rs).
  assert (NoDup (rel_id <$> sel ++ rs)) as Hnd'.
  { rewrite fmap_app in *. rewrite fmap_cons, <-Permutation_middle in Hnd. by apply NoDup_cons in Hnd as [_ ?]. }
  assert (rel_id r ∉ rel_id <$> sel) as Hfresh.
  { rewrite fmap_app, fmap_cons, <-Permutation_middle in Hnd. apply NoDup_cons in Hnd as [Hn _]. set_solver. }
  destruct (relation_selected r (gp_relation_types d)) eqn:Hsel.
  2:{ rewrite decide_False by done. cbn [mbind res_bind]. by apply IH. }
  rewrite decide_True by done. pose proof (push_relation_spec b sel ends r Hinv Hfresh) as Hp.
  rewrite ends_of_cons.
  destruct (binary_ends state d r) as [e|] eqn:Her.
  2:{ destruct Hp as [m ->]. cbn [mbind res_bind]. left. split; [by eexists|].
      intros Hall. apply Forall_cons in Hall as [[? Hx] _]. congruence. }
  destruct Hp as [(_ & _ & b' & -> & Hinv')|(Hov & ->)]; cbn [mbind res_bind].
  - rewrite !(cons_middle _ sel), !(cons_middle _ ends), !app_assoc. specialize (IH b' (sel ++ [r]) (ends ++ [e]) Hinv').
    rewrite <-!app_assoc in IH. specialize (IH Hnd). rewrite !app_assoc in IH.
    destruct (for_each _ rs b') as [b2|e2| |]; [|destruct IH as [[Hm Hbad]|IH]|done..].
    + destruct IH as [Hb2 Hall]. split; [done|]. constructor; [by eexists|done].
    + left. split; [done|]. by intros [_ Hall]%Forall_cons.
    + by right.
  - right. split; [done|]. rewrite !(cons_middle _ sel), !(cons_middle _ ends), !app_assoc, !(zlen_app (sel ++ [r])), (end_points_app (ends ++ [e])).
    pose proof (zlen_nonneg (selected_relations rs)).
    assert (zlen (first_occurrences (end_points (ends ++ [e]))) ≤
      zlen (first_occurrences (end_points (ends ++ [e]) ++ end_points (ends_of (selected_relations rs))))) as Hm.
    { unfold zlen. apply inj_le, prefix_length, first_occurrences_prefix. }
    lia.
Qed.

End builder.

(** ** Freezing the edges *)

Lemma local_index_fits id : 0 ≤ id ≤ usize_max → local_index id = Z.to_nat id.
Proof using Type.
  intros Hid. unfold local_index, slot_or_max, to_usize. by rewrite try_into_fits by lia.
Qed.

Lemma mapM_Ok {E A} (l : list A) : mapM (M := res E) (λ x, Ok x) l = Ok l.
Proof using Type. induction l as [|x l IH]; [done|]. cbn. by rewrite IH. Qed.

Lemma grouped_buckets (n : nat) (sources : list Z) (f : nat → Z) :
  Forall (λ s, 0 ≤ s < Z.of_nat n) sources → zlen sources ≤ usize_max →
  grouped (tab (S n) (λ i, Z.of_nat (start_of n sources i))) (f <$> concat (buckets n sources)) n (λ raw, Ok raw) =
    Ok (tab n (λ x, f <$> bucket sources x)).
Proof using Type.
  intros Hs Hm. unfold grouped.
  assert (∀ k, (k ≤ n)%nat → for_each (λ rows node,
      start ← (o ← vget (tab (S n) (λ i, Z.of_nat (start_of n sources i))) node; ok_or (id_overflow FamilyRelation) (to_usize W32 o));
      end_ ← (o ← vget (tab (S n) (λ i, Z.of_nat (start_of n sources i))) (S node); ok_or (id_overflow FamilyRelation) (to_usize W32 o));
      slice ← ok_or (invalid_projection "csr offset range out of bounds") (get_range (f <$> concat (buckets n sources)) start end_);
      row ← mapM (λ raw, Ok raw) slice;
      Ok (rows ++ [row])) (seq 0 k) [] = Ok (tab k (λ x, f <$> bucket sources x))) as Hk; [|by apply Hk].
  induction k as [|k IH]; intros Hk; [done|]. rewrite seq_S, for_each_app, IH by lia. cbn [mbind res_bind for_each].
  assert (∀ x, (x ≤ n)%nat → Z.of_nat (start_of n sources x) ≤ zlen sources) as Hle.
  { intros x Hx. unfold zlen. rewrite <-(start_total n sources Hs). apply inj_le. by apply start_mono. }
  rewrite !tab_vget by lia. cbn [mbind res_bind]. unfold to_usize.
  rewrite !try_into_fits by (etrans; [apply Hle; lia|done]). cbn [ok_or mbind res_bind]. unfold get_range. rewrite decide_True.
  - cbn [ok_or mbind res_bind]. rewrite mapM_Ok. cbn [mbind res_bind]. rewrite <-Nat2Z.inj_sub by (apply start_mono; lia).
    rewrite !Nat2Z.id, bucket_slice by lia. unfold tab. by rewrite seq_S, fmap_app.
  - split; [apply inj_le, start_mono; lia|]. unfold zlen. rewrite length_fmap, length_concat_buckets by done. apply Hle. lia.
Qed.

Lemma add_nodes (l : list Z) :
  zlen l ≤ local_ids → zlen l ≤ usize_max →
  for_each (λ (st : GraphBuilder * list Z) (_ : Z),
      '(node, builder) ← map_err (λ _, id_overflow FamilyElement) (add_node W32 st.1);
      Ok (builder, st.2 ++ [node])) l (GraphBuilder_new, []) =
    Ok ({| gb_node_count := zlen l; gb_sources := []; gb_targets := [] |}, Z.of_nat <$> seq 0 (length l)).
Proof using Type.
  induction l as [|x l IH] using rev_ind; [done|]. rewrite zlen_app. change (zlen [x]) with 1. intros Hl Hm.
  rewrite for_each_app, IH by lia. cbn [mbind res_bind for_each]. unfold add_node, next_dense_index, from_usize. cbn [gb_node_count fst snd width_max].
  unfold local_ids, u32_max in *. rewrite try_into_fits, checked_add_fits by lia. cbn. do 2 f_equal.
  rewrite length_app. cbn. rewrite Nat.add_1_r, seq_S, fmap_app. done.
Qed.

Lemma add_edges (n : nat) (l : list (Z * Z)) :
  Forall (λ e, (0 ≤ e.1 < Z.of_nat n) ∧ (0 ≤ e.2 < Z.of_nat n)) l → Z.of_nat n ≤ usize_max → zlen l ≤ local_ids →
  for_each (λ builder (e : Z * Z),
      source ← vget (Z.of_nat <$> seq 0 n) (local_index e.1);
      target ← vget (Z.of_nat <$> seq 0 n) (local_index e.2);
      '(_, builder) ← map_err (λ _, id_overflow FamilyRelation) (add_edge W32 W32 builder source target);
      Ok builder) l {| gb_node_count := Z.of_nat n; gb_sources := []; gb_targets := [] |} =
    Ok {| gb_node_count := Z.of_nat n; gb_sources := l.*1; gb_targets := l.*2 |}.
Proof using Type.
  intros Hl Hn. induction l as [|[s t] l IH] using rev_ind; [done|]. apply Forall_app in Hl as [Hl Hst].
  apply Forall_singleton in Hst as [Hs Ht]. cbn [fst snd] in Hs, Ht. rewrite zlen_app. change (zlen [(s, t)]) with 1. intros Hm.
  rewrite for_each_app, IH by (done || lia). cbn [mbind res_bind for_each fst snd].
  assert (∀ E v, 0 ≤ v < Z.of_nat n → vget (E:=E) (Z.of_nat <$> seq 0 n) (local_index v) = Ok v) as Hget.
  { intros E v Hv. rewrite local_index_fits by lia. apply vget_Ok. rewrite list_lookup_fmap, lookup_seq_lt by lia. cbn. f_equal. lia. }
  rewrite !Hget by done. cbn [mbind res_bind]. unfold add_edge, ensure_node, id_to_slot, to_usize. cbn [gb_node_count gb_sources gb_targets].
  rewrite !try_into_fits by lia. cbn [ok_or mbind res_bind]. rewrite !decide_True by lia. cbn [map_err mbind res_bind].
  unfold from_usize. cbn [width_max]. rewrite try_into_fits.
  - cbn. by rewrite !fmap_app.
  - unfold zlen in *. rewrite length_fmap. unfold local_ids, u32_max in *. lia.
Qed.

(** The rows of the view: by source for the forward graph, by target for its transpose. *)
Definition graph_rows (n : nat) (keys : list Z) (f : nat → Z) : list (list Z) := tab n (λ x, f <$> bucket keys x).
Definition nth_id (l : list Z) (i : nat) : Z := default 0 (l !! i).

Lemma graph_finish_spec b :
  let n := length (pb_elements b) in let es := pb_endpoints b in
  Forall (λ e, (0 ≤ e.1 < Z.of_nat n) ∧ (0 ≤ e.2 < Z.of_nat n)) es → zlen (pb_elements b) ≤ local_ids → zlen es ≤ local_ids →
  Z.of_nat n + 1 ≤ usize_max → zlen es ≤ usize_max →
  (zlen es < local_ids ∧ graph_finish b = Ok {|
    gv_definition := pb_definition b; gv_elements := pb_elements b; gv_element_index := pb_element_index b;
    gv_relations := pb_relations b; gv_relation_index := pb_relation_index b; gv_endpoints := es;
    gv_out_edges := graph_rows n es.*1 Z.of_nat; gv_in_edges := graph_rows n es.*2 Z.of_nat;
    gv_successors := graph_rows n es.*1 (nth_id es.*2); gv_predecessors := graph_rows n es.*2 (nth_id es.*1) |}) ∨
  (zlen es = local_ids ∧ graph_finish b = Err (id_overflow FamilyRelation)).
Proof using Type.
  cbn zeta. intros Hes Hlen Hel Hn Hm. unfold graph_finish.
  rewrite add_nodes by (done || (unfold zlen in *; lia)). cbn [mbind res_bind]. change (zlen (pb_elements b)) with (Z.of_nat (length (pb_elements b))).
  rewrite add_edges by (done || lia). cbn [mbind res_bind]. unfold freeze. cbn [gb_node_count gb_sources gb_targets].
  set (n := length (pb_elements b)) in *. set (es := pb_endpoints b) in *.
  assert (∀ v, 0 ≤ v < Z.of_nat n → fits W32 v) as Hfits.
  { intros v Hv. unfold fits, zlen in *. cbn [width_max]. unfold local_ids, u32_max in *. fold n in Hlen. lia. }
  assert (EdgesOk W32 n es.*1 es.*2) as Hok.
  { split; [| |by rewrite !length_fmap|done|unfold zlen in *; by rewrite length_fmap].
    all: apply Forall_fmap; eapply Forall_impl; [exact Hes|]; intros e [? ?]; split; [done|by apply Hfits]. }
  pose proof (EdgesOk_swap _ _ _ _ Hok) as Hok'.
  assert (zlen es.*1 = zlen es ∧ zlen es.*2 = zlen es) as [Hz1 Hz2] by (unfold zlen; by rewrite !length_fmap).
  assert (fits W32 (zlen es) ↔ zlen es < local_ids) as Hiff.
  { pose proof (zlen_nonneg es). unfold fits. cbn [width_max]. unfold local_ids, u32_max. lia. }
  destruct (freeze_cases W32 W32 n _ _ Hok) as [[Hf ->]|[Hnf [v ->]]]; rewrite Hz1 in *; cbn [map_err mbind res_bind].
  2:{ right. split; [|done]. rewrite Hiff in Hnf. lia. }
  left. split; [by apply Hiff|]. unfold transpose. cbn [frozen_of ft_node_count ft_edge_targets ft_sources].
  destruct (freeze_cases W32 W32 n _ _ Hok') as [[Hf' ->]|[Hnf _]]; [|by rewrite Hz2 in Hnf]. cbn [map_err mbind res_bind].
  unfold grouped_elements, grouped_relations. cbn [frozen_of ft_offsets ft_targets ft_edge_ids ft_node_count].
  rewrite !grouped_buckets by (first [apply (sources_range W32 n _ _ Hok)|apply (sources_range W32 n _ _ Hok')|lia]).
  cbn [mbind res_bind]. done.
Qed.

(** ** The view against the canonical edges *)

(** The local id of a canonical element. *)
Definition local_of (p : GraphProjectionView) (c x : Z) : Prop := gv_local_element_id p c = Some x.

(** [p] materializes the relations with ids [ids] and end points [ends]. *)
Record GraphProjected (ids : list Z) (ends : list (Z * Z)) (p : GraphProjectionView) : Prop := {
  gpd_relations : gv_relations p = ids;
  gpd_edge_count : length ends = length ids;
  gpd_elements : gv_elements p = first_occurrences (end_points ends);
  gpd_bound : zlen (gv_elements p) < usize_max ∧ zlen ids ≤ usize_max;
  gpd_local_elements c x : local_of p c x ↔ 0 ≤ x ∧ gv_elements p !! Z.to_nat x = Some c;
  gpd_local_relations c x : gv_local_relation_id p c = Some x ↔ 0 ≤ x ∧ ids !! Z.to_nat x = Some c;
  gpd_ends i e : ends !! i = Some e → ∃ s t, gv_source (E:=DbError) p (Z.of_nat i) = Ok s ∧
    gv_target (E:=DbError) p (Z.of_nat i) = Ok t ∧ local_of p e.1 s ∧ local_of p e.2 t;
  gpd_out c x : local_of p c x → let out := positions ends.*1 c (length ends) in
    gv_outgoing_edges (E:=DbError) p x = Ok (Z.of_nat <$> out) ∧
    ∃ row, gv_element_successors (E:=DbError) p x = Ok row ∧ Forall2 (λ i y, local_of p (nth_id ends.*2 i) y) out row;
  gpd_in c x : local_of p c x → let in_ := positions ends.*2 c (length ends) in
    gv_incoming_edges (E:=DbError) p x = Ok (Z.of_nat <$> in_) ∧
    ∃ row, gv_element_predecessors (E:=DbError) p x = Ok row ∧ Forall2 (λ i y, local_of p (nth_id ends.*1 i) y) in_ row
}.

Section rows.
Context (elements : list Z) (index : gmap Z Z) (ends es : list (Z * Z)).
Hypothesis Hnd : NoDup elements.
Hypothesis Hindex : inverse_index index elements.
Hypothesis Hes : Forall2 (local_edge elements) ends es.

Lemma edge_ids i e l : ends !! i = Some e → es !! i = Some l → index !! e.1 = Some l.1 ∧ index !! e.2 = Some l.2.
Proof using Hes Hindex.
  intros He Hl. destruct (Forall2_lookup_lr _ _ _ _ _ _ Hes He Hl) as (? & ? & ? & ?). split; by apply Hindex.
Qed.

Lemma side_ids (side : Z * Z → Z) i e l :
  side = fst ∨ side = snd → ends !! i = Some e → es !! i = Some l → index !! side e = Some (side l).
Proof using Hes Hindex. intros [-> | ->] He Hl; by destruct (edge_ids i e l He Hl). Qed.

(** A side of the edges names the same positions by canonical and by local id. *)
Lemma side_positions (side : Z * Z → Z) c x :
  side = fst ∨ side = snd → index !! c = Some x →
  positions (side <$> es) x (length (side <$> es)) = positions (side <$> ends) c (length ends).
Proof using Hes Hindex Hnd.
  intros Hside Hc. rewrite length_fmap, <-(Forall2_length _ _ _ Hes). unfold positions. apply list_filter_iff. intros i.
  rewrite !list_lookup_fmap. destruct (ends !! i) as [e|] eqn:He.
  - destruct (Forall2_lookup_l _ _ _ _ _ Hes He) as (l & Hl & _). rewrite Hl. cbn. pose proof (side_ids side i e l Hside He Hl) as Hi.
    apply Hindex in Hc as [Hx0 Hcx]. pose proof Hi as [Hl0 Hel]%Hindex. split; intros [= Heq]; f_equal.
    + rewrite Heq in Hel. congruence.
    + rewrite Heq in Hi. apply Hindex in Hi as [_ Hi]. rewrite Heq in Hel.
      apply Z2Nat.inj; [done..|]. by eapply NoDup_lookup.
  - assert (es !! i = None) as ->; [|done]. apply lookup_ge_None. rewrite <-(Forall2_length _ _ _ Hes). by apply lookup_ge_None.
Qed.

(** The other side of the edges at those positions. *)
Lemma side_row (side other : Z * Z → Z) c :
  other = fst ∨ other = snd →
  Forall2 (λ i y, index !! nth_id (other <$> ends) i = Some y) (positions (side <$> ends) c (length ends))
    (nth_id (other <$> es) <$> positions (side <$> ends) c (length ends)).
Proof using Hes Hindex.
  intros Ho. apply Forall2_fmap_r, Forall_Forall2_diag, Forall_forall. intros i [Hi _]%elem_of_positions.
  rewrite list_lookup_fmap in Hi. destruct (ends !! i) as [e|] eqn:He; [|done].
  destruct (Forall2_lookup_l _ _ _ _ _ Hes He) as (l & Hl & _). cbn [compose]. unfold compose, nth_id. rewrite !list_lookup_fmap, He, Hl. cbn.
  by eapply side_ids.
Qed.
End rows.

Lemma row_at (n : nat) (keys : list Z) f x : 0 ≤ x < Z.of_nat n → Z.of_nat n ≤ usize_max →
  vget (E:=DbError) (graph_rows n keys f) (local_index x) = Ok (f <$> positions keys x (length keys)).
Proof using Type.
  intros Hx Hn. rewrite local_index_fits by lia. unfold graph_rows. rewrite tab_vget by lia. unfold bucket. by rewrite Z2Nat.id by lia.
Qed.

(** The frozen builder is the projection of what it was fed. *)
Lemma projected b sel ends d p :
  ProjectionInv d b sel ends → length ends = length sel →
  let n := length (pb_elements b) in let es := pb_endpoints b in Z.of_nat n < usize_max → zlen sel ≤ usize_max →
  p = {| gv_definition := pb_definition b; gv_elements := pb_elements b; gv_element_index := pb_element_index b;
    gv_relations := pb_relations b; gv_relation_index := pb_relation_index b; gv_endpoints := es;
    gv_out_edges := graph_rows n es.*1 Z.of_nat; gv_in_edges := graph_rows n es.*2 Z.of_nat;
    gv_successors := graph_rows n es.*1 (nth_id es.*2); gv_predecessors := graph_rows n es.*2 (nth_id es.*1) |} →
  GraphProjected (rel_id <$> sel) ends p.
Proof using Type.
  cbn zeta. intros [Hd He Hei Hr Hri Hen Hle Hlr] Hlen Hn Hm ->.
  destruct (first_occurrences_spec (end_points ends)) as [Hnd _]. rewrite <-He in Hnd.
  assert (∀ c x, pb_element_index b !! c = Some x → 0 ≤ x < Z.of_nat (length (pb_elements b))) as Hbound.
  { intros c x [Hx Hl%lookup_lt_Some]%Hei. lia. }
  split; cbn [gv_relations gv_elements]; try done.
  - by rewrite length_fmap.
  - unfold zlen in *. by rewrite length_fmap.
  - intros c x. rewrite <-Hr. apply Hri.
  - intros i e Hi. destruct (Forall2_lookup_l _ _ _ _ _ Hen Hi) as (l & Hl & _).
    destruct (edge_ids _ _ _ _ Hei Hen i e l Hi Hl) as [H1 H2]. exists l.1, l.2. unfold gv_source, gv_target. cbn [gv_endpoints].
    assert (vget (E:=DbError) (pb_endpoints b) (local_relation_index (Z.of_nat i)) = Ok l) as ->; [|done].
    pose proof (lookup_lt_Some _ _ _ Hi). unfold zlen in *.
    change (local_relation_index (Z.of_nat i)) with (local_index (Z.of_nat i)). rewrite local_index_fits by lia.
    rewrite Nat2Z.id. by apply vget_Ok.
  - intros c x Hc. cbn zeta. pose proof (Hbound c x Hc).
    unfold gv_outgoing_edges, gv_element_successors. cbn [gv_out_edges gv_successors]. rewrite !row_at by lia.
    rewrite (side_positions _ _ _ _ Hnd Hei Hen fst c x) by auto. split; [done|]. eexists. split; [done|].
    apply (side_row _ _ _ _ Hei Hen fst snd); auto.
  - intros c x Hc. cbn zeta. pose proof (Hbound c x Hc).
    unfold gv_incoming_edges, gv_element_predecessors. cbn [gv_in_edges gv_predecessors]. rewrite !row_at by lia.
    rewrite (side_positions _ _ _ _ Hnd Hei Hen snd c x) by auto. split; [done|]. eexists. split; [done|].
    apply (side_row _ _ _ _ Hei Hen snd fst); auto.
Qed.

(** ** The projection of a state *)

Section projection.
Context `{StateView V} (state : V) (d : GraphProjectionDefinition) (rs : list RelationRecord).
Hypothesis Hrs : state_relations state = Ok rs.
Hypothesis Hids : NoDup (rel_id <$> rs).
Hypothesis Hmem : 2 * zlen rs < usize_max.

Lemma selected_length : (length (selected_relations d rs) ≤ length rs)%nat.
Proof using Type. apply length_filter. Qed.

Lemma ends_length sel : Forall (λ r, is_Some (binary_ends state d r)) sel → length (ends_of state d sel) = length sel.
Proof using Type.
  induction 1 as [|r sel [e He] _ IH]; [done|]. rewrite ends_of_cons, He. cbn. by rewrite IH.
Qed.

Lemma ends_length_le sel : (length (ends_of state d sel) ≤ length sel)%nat.
Proof using Type. induction sel as [|r sel IH]; [done|]. rewrite ends_of_cons. destruct (binary_ends _ _ _); cbn; lia. Qed.

(** The ids of the selected relations and of their end points fit. *)
Definition graph_ids_fit : Prop :=
  zlen (first_occurrences (end_points (ends_of state d (selected_relations d rs)))) ≤ local_ids ∧
  zlen (selected_relations d rs) < local_ids.

Lemma graph_from_state_cases :
  let sel := selected_relations d rs in let ends := ends_of state d sel in
  match graph_from_state state d with
  | Ok p => Forall (λ r, is_Some (binary_ends state d r)) sel ∧ graph_ids_fit ∧
      gv_definition p = d ∧ GraphProjected (rel_id <$> sel) ends p
  | Err e => ((∃ m, e = invalid_projection m) ∧ ¬ Forall (λ r, is_Some (binary_ends state d r)) sel) ∨
      ((∃ family, e = id_overflow family) ∧ ¬ graph_ids_fit)
  | Panic | NoFuel => False
  end.
Proof using Hids Hmem Hrs.
  cbn zeta. unfold graph_from_state. rewrite Hrs. cbn [mbind res_bind].
  pose proof (push_all_spec state d rs _ [] [] (ProjectionInv_new d) Hids) as Hl. cbn zeta in Hl. rewrite !app_nil_l in Hl.
  destruct (for_each _ rs _) as [b|e| |]; cbn [mbind res_bind]; [| |done..].
  2:{ destruct Hl as [?|[-> Hov]]; [by left|right]. split; [by eexists|]. unfold graph_ids_fit. lia. }
  destruct Hl as [Hinv Hall]. pose proof (ends_length _ Hall) as Hlen. pose proof Hinv as [Hd He Hei Hr Hri Hen Hle Hlr].
  pose proof selected_length as Hsl. pose proof (Forall2_length _ _ _ Hen) as Hel.
  pose proof (first_occurrences_length (end_points (ends_of state d (selected_relations d rs)))) as Hfl.
  rewrite length_end_points, <-He in Hfl.
  destruct (graph_finish_spec b) as [[Hlt ->]|[Heq ->]]; try done.
  - clear -Hen. induction Hen as [|e l ends es (H1 & H2%lookup_lt_Some & H3 & H4%lookup_lt_Some) _ IH]; [done|].
    constructor; [lia|done].
  - unfold zlen in *. rewrite Hr, length_fmap in Hlr. lia.
  - unfold zlen in *. lia.
  - unfold zlen in *. lia.
  - split; [done|]. split; [|split; [done|]].
    + split; [by rewrite <-He|]. unfold zlen in *. lia.
    + eapply projected; [exact Hinv|done| | |done]; unfold zlen in *; lia.
  - right. split; [by eexists|]. intros [_ Hf]. unfold zlen in *. lia.
Qed.


End projection.

(** ** The contract of the algorithms *)

Section laws.
Context (ids : list Z) (ends : list (Z * Z)) (p : GraphProjectionView).
Hypothesis Hp : GraphProjected ids ends p.

Lemma gv_contains_spec x : gv_contains_element p x = true ↔ ∃ c, local_of p c x.
Proof using Hp.
  destruct (gpd_bound _ _ _ Hp) as [Hb _]. unfold gv_contains_element. rewrite andb_true_iff, !bool_decide_eq_true. split.
  - intros [Hx Hi]. destruct (decide (x ≤ usize_max)) as [Hm|Hm].
    + rewrite local_index_fits in Hi by lia. destruct (lookup_lt_is_Some_2 _ _ Hi) as [c Hc]. exists c. by apply (gpd_local_elements _ _ _ Hp).
    + exfalso. unfold local_index, slot_or_max, to_usize in Hi. assert (try_into usize_max x = None) as Hn by (apply try_into_None; lia).
      rewrite Hn in Hi. cbn in Hi. unfold zlen in Hb. lia.
  - intros [c [Hx Hc]%(gpd_local_elements _ _ _ Hp)]. split; [done|]. apply lookup_lt_Some in Hc.
    unfold zlen in Hb. rewrite local_index_fits by lia. done.
Qed.

Lemma local_of_index c x : local_of p c x → local_index x = Z.to_nat x ∧ gv_canonical_element_id (E:=DbError) p x = Ok c.
Proof using Hp.
  intros [Hx Hc]%(gpd_local_elements _ _ _ Hp). pose proof (lookup_lt_Some _ _ _ Hc).
  destruct (gpd_bound _ _ _ Hp) as [Hb _]. unfold zlen in Hb.
  unfold gv_canonical_element_id. rewrite local_index_fits by lia. split; [done|]. by apply vget_Ok.
Qed.

Lemma gv_laws : TopologyLaws (Id := Z) p.
Proof using Hp.
  split.
  - intros x [_ Hx]%andb_true_iff. by apply bool_decide_eq_true in Hx.
  - intros x y [c Hx]%gv_contains_spec [c' Hy]%gv_contains_spec. cbn [element_index gv_dense].
    destruct (local_of_index c x Hx) as [-> _]. destruct (local_of_index c' y Hy) as [-> _].
    apply (gpd_local_elements _ _ _ Hp) in Hx, Hy. lia.
  - intros x y [c Hx]%gv_contains_spec Hy. apply gv_contains_spec.
    destruct (gpd_out _ _ _ Hp c x Hx) as (_ & row & Hr & Hrow). unfold element_successors, gv_succ in Hy. rewrite Hr in Hy.
    apply list_elem_of_lookup in Hy as [k Hk]. destruct (Forall2_lookup_r _ _ _ _ _ Hrow Hk) as (i & _ & Hi). by eexists.
  - intros x y [c Hx]%gv_contains_spec Hy. apply gv_contains_spec.
    destruct (gpd_in _ _ _ Hp c x Hx) as (_ & row & Hr & Hrow). unfold element_predecessors, gv_pred in Hy. rewrite Hr in Hy.
    apply list_elem_of_lookup in Hy as [k Hk]. destruct (Forall2_lookup_r _ _ _ _ _ Hrow Hk) as (i & _ & Hi). by eexists.
Qed.

(** Successors and predecessors, in canonical terms. *)
Lemma successor_edge x y c : local_of p c x →
  y ∈ element_successors p x ↔ ∃ i e, ends !! i = Some e ∧ e.1 = c ∧ local_of p e.2 y.
Proof using Hp.
  intros Hx. destruct (gpd_out _ _ _ Hp c x Hx) as (_ & row & Hr & Hrow). unfold element_successors, gv_succ. rewrite Hr. cbn [row_or_nil].
  rewrite list_elem_of_lookup. split.
  - intros [k Hk]. destruct (Forall2_lookup_r _ _ _ _ _ Hrow Hk) as (i & Hi & Hy).
    apply list_elem_of_lookup_2, elem_of_positions in Hi as [Hi _]. rewrite list_lookup_fmap in Hi.
    destruct (ends !! i) as [e|] eqn:He; [|done]. injection Hi as Hi. exists i, e. split; [done|]. split; [done|].
    unfold nth_id in Hy. by rewrite list_lookup_fmap, He in Hy.
  - intros (i & e & He & Hc & Hy). assert (i ∈ positions ends.*1 c (length ends)) as Hi.
    { apply elem_of_positions. rewrite list_lookup_fmap, He. split; [cbn; by rewrite Hc|by eapply lookup_lt_Some]. }
    apply list_elem_of_lookup in Hi as [k Hk]. destruct (Forall2_lookup_l _ _ _ _ _ Hrow Hk) as (y' & Hy' & Hl).
    unfold nth_id in Hl. rewrite list_lookup_fmap, He in Hl. cbn in Hl. exists k. unfold local_of in *. congruence.
Qed.

Lemma predecessor_edge x y c : local_of p c x →
  y ∈ element_predecessors p x ↔ ∃ i e, ends !! i = Some e ∧ e.2 = c ∧ local_of p e.1 y.
Proof using Hp.
  intros Hx. destruct (gpd_in _ _ _ Hp c x Hx) as (_ & row & Hr & Hrow). unfold element_predecessors, gv_pred. rewrite Hr. cbn [row_or_nil].
  rewrite list_elem_of_lookup. split.
  - intros [k Hk]. destruct (Forall2_lookup_r _ _ _ _ _ Hrow Hk) as (i & Hi & Hy).
    apply list_elem_of_lookup_2, elem_of_positions in Hi as [Hi _]. rewrite list_lookup_fmap in Hi.
    destruct (ends !! i) as [e|] eqn:He; [|done]. injection Hi as Hi. exists i, e. split; [done|]. split; [done|].
    unfold nth_id in Hy. by rewrite list_lookup_fmap, He in Hy.
  - intros (i & e & He & Hc & Hy). assert (i ∈ positions ends.*2 c (length ends)) as Hi.
    { apply elem_of_positions. rewrite list_lookup_fmap, He. split; [cbn; by rewrite Hc|by eapply lookup_lt_Some]. }
    apply list_elem_of_lookup in Hi as [k Hk]. destruct (Forall2_lookup_l _ _ _ _ _ Hrow Hk) as (y' & Hy' & Hl).
    unfold nth_id in Hl. rewrite list_lookup_fmap, He in Hl. cbn in Hl. exists k. unfold local_of in *. congruence.
Qed.
End laws.

End projection_facts.

(** ** A concrete state *)

(** A state given by its records. *)
Record record_state := { rs_relations : list RelationRecord; rs_incidences : list IncidenceRecord }.
#[export] Instance record_state_view : StateView record_state := {|
  state_relations s := Ok (rs_relations s);
  state_relation_incidences s relation := filter (λ i, inc_relation i = relation) (rs_incidences s)
|}.

Definition demo_relation (id : Z) : RelationRecord := {| rel_id := id; rel_type := Some 1; rel_labels := ∅ |}.
Definition demo_incidence (id relation element role : Z) : IncidenceRecord :=
  {| inc_id := id; inc_relation := relation; inc_element := element; inc_role := role |}.

(** Relations 10: 7 → 5, 11: 5 → 9, 12: 7 → 5 (parallel). *)
Definition demo_state : record_state := {|
  rs_relations := demo_relation <$> [10; 11; 12];
  rs_incidences := [demo_incidence 1 10 7 0; demo_incidence 2 10 5 1; demo_incidence 3 11 5 0; demo_incidence 4 11 9 1;
    demo_incidence 5 12 7 0; demo_incidence 6 12 5 1]
|}.
Definition demo_graph_definition : GraphProjectionDefinition :=
  {| gp_name := []; gp_relation_types := {[1]}; gp_source_role := 0; gp_target_role := 1 |}.

