(* ===== verification/Traversal.v ===== *)
(** * Traversal: bounded walks of a graph projection

    Models [crates/oxgraph-db/src/traversal.rs]: the walk of a materialized graph
    projection by one of the three bounded searches, with the visitor that
    records the nodes and the pass that collects the edges between them.

    The walk of a graph projection, stated over canonical ids: its nodes are a
    prefix of the elements within the depth bound in order of hop distance, and
    its edges are exactly the projected relations between discovered elements. *)

From Stdlib Require Import String.
From stdpp Require Import base gmap sets list strings sorting lexico.
From S2P Require Import Prelude Ordered DbError DbWire DbState Layout Topology BfsSpec Bfs BfsFacts BfsBounded CsrBuildFacts Projection ProjectionFacts.

Local Open Scope Z_scope.

Inductive Direction := DirOutgoing | DirIncoming | DirBoth.

Record Walk := {
  walk_max_depth : Z;
  walk_direction : Direction;
  walk_limit : Z;
  walk_include_start : bool
}.

Record TraversedNode := { tn_element : Z; tn_depth : Z }.
Record TraversedEdge := { te_relation : Z; te_source : Z; te_target : Z }.
Record Subgraph := { sg_nodes : list TraversedNode; sg_edges : list TraversedEdge }.

Definition empty_subgraph : Subgraph := {| sg_nodes := []; sg_edges := [] |}.

#[export] Instance traversed_edge_eq_dec : EqDecision TraversedEdge.
Proof. solve_decision. Defined.

(** The derived order: the fields in declaration order. *)
Definition edge_key (e : TraversedEdge) : Z * (Z * Z) := (te_relation e, (te_source e, te_target e)).

Lemma edge_key_inj a b : edge_key a = edge_key b → a = b.
Proof. destruct a, b. unfold edge_key. cbn. congruence. Qed.

#[export] Instance edge_order : KeyOrder TraversedEdge := derived_order edge_key edge_key_inj.

Section walk.
Context `{!Target}.

Definition Walk_default : Walk := {|
  walk_max_depth := 1; walk_direction := DirOutgoing; walk_limit := usize_max; walk_include_start := false
|}.

Section graph.
Context (graph : GraphProjectionView).

(** The state the visitor closure captures: the nodes and the discovered
    elements, or the panic of a visit, which the search does not outlive. *)
Definition WalkState : Type := res DbError (list TraversedNode * gmap Z Z).

Definition visit_node (st : list TraversedNode * gmap Z Z) (element depth : Z) : WalkState :=
  canonical ← gv_canonical_element_id graph element;
  Ok (st.1 ++ [{| tn_element := canonical; tn_depth := slot_or_max W32 depth |}], <[canonical := element]> st.2).

(** It always answers [Continue]. *)
Definition walk_visitor : BfsVisitor WalkState Z := λ st element depth, (false, '(nodes, discovered) ← st; visit_node (nodes, discovered) element depth).

Definition local_seeds (seeds : list Z) : res DbError (list Z) :=
  mapM (λ seed, ok_or (unknown FamilyElement seed) (gv_local_element_id graph seed)) seeds.

(** One edge of the collection loop. *)
Definition collect_edge (discovered : gmap Z Z) (st : gset Z * list TraversedEdge) (edge : Z)
    : res DbError (gset Z * list TraversedEdge) :=
  let '(seen, edges) := st in
  source ← (s ← gv_source graph edge; gv_canonical_element_id graph s);
  target ← (t ← gv_target graph edge; gv_canonical_element_id graph t);
  if decide (discovered !! target = None) then Ok st
  else
    relation ← gv_canonical_relation_id graph edge;
    if decide (relation ∈ seen) then Ok st
    else Ok ({[relation]} ∪ seen, edges ++ [{| te_relation := relation; te_source := source; te_target := target |}]).

Definition collect_internal_edges (discovered : gmap Z Z) : res DbError (list TraversedEdge) :=
  '(_, edges) ← for_each (λ st (entry : Z * Z), out ← gv_outgoing_edges graph entry.2; for_each (collect_edge discovered) out st)
    (map_iter discovered) (∅, []);
  Ok (merge_sort key_le edges).

(** The bounds of the search; the fuel covers every element (a walk leaves no
    element queued twice). *)
Definition walk_bounds (walk : Walk) : BfsBounds := {|
  max_depth := Some (default u32_max (try_into u32_max (walk_max_depth walk)));
  result_limit := walk_limit walk;
  include_seeds := walk_include_start walk
|}.

Definition walk_search (dir : Direction) (fuel : nat) (seeds : list Z) (bounds : BfsBounds) (scratch : BfsEpochScratch Z)
    (visitor : WalkState) : res BfsError (BoundedRun WalkState Z) :=
  match dir with
  | DirOutgoing => breadth_first_search_bounded (BfsVisitor0 := walk_visitor) fuel graph seeds bounds scratch visitor
  | DirIncoming => reverse_breadth_first_search_bounded (BfsVisitor0 := walk_visitor) fuel graph seeds bounds scratch visitor
  | DirBoth => breadth_first_search_bounded_both (BfsVisitor0 := walk_visitor) fuel graph seeds bounds scratch visitor
  end.

Definition walk_graph_projection (seeds : list Z) (walk : Walk) : res DbError Subgraph :=
  if decide (seeds = [] ∨ walk_limit walk = 0) then Ok empty_subgraph
  else
    locals ← local_seeds seeds;
    let bound := element_bound graph in
    let scratch := BfsEpochScratch_new (replicate bound 0) (replicate bound 0) in
    canonicals ← mapM (λ local, c ← gv_canonical_element_id graph local; Ok (c, local)) locals;
    let visitor : WalkState := Ok ([], list_to_map (reverse canonicals)) in
    r ← map_err (λ _, traversal "bounded traversal failed") (walk_search (walk_direction walk) (bound + 2) locals (walk_bounds walk) scratch visitor);
    '(nodes, discovered) ← br_visitor r;
    edges ← collect_internal_edges discovered;
    Ok {| sg_nodes := nodes; sg_edges := edges |}.

End graph.
End walk.

(** ** A walk is a cut breadth-first order *)

(** The canonical elements one hop away in a direction. *)
Definition neighbours (ends : list (Z * Z)) (dir : Direction) (c : Z) : list Z :=
  let out := snd <$> filter (λ e, e.1 = c) ends in
  let in_ := fst <$> filter (λ e, e.2 = c) ends in
  match dir with DirOutgoing => out | DirIncoming => in_ | DirBoth => out ++ in_ end.

Lemma mapM_res_Forall2 {E A B} (f : A → res E B) l k : Forall2 (λ x y, f x = Ok y) l k → mapM f l = Ok k.
Proof. induction 1 as [|x y l k Hx _ IH]; [done|]. cbn. by rewrite Hx, IH. Qed.

Lemma sublist_sorted {A} (R : relation A) l k : l `sublist_of` k → StronglySorted R k → StronglySorted R l.
Proof.
  induction 1 as [|x l k Hs IH|x l k Hs IH]; [done|..]; intros [Hx Hk]%StronglySorted_cons; [|by apply IH].
  constructor; [by apply IH|]. rewrite Forall_forall in Hx |- *. intros y Hy. apply Hx. by eapply sublist_subseteq.
Qed.

Section walk_facts.
Context `{!Target} (ids : list Z) (ends : list (Z * Z)) (p : GraphProjectionView).
Hypothesis Hp : GraphProjected ids ends p.

(** *** Local and canonical ids *)

Lemma local_of_inj c x y : local_of p c x → local_of p c y → x = y.
Proof using Type. unfold local_of. congruence. Qed.

Lemma canonical_inj c c' x : local_of p c x → local_of p c' x → c = c'.
Proof using Hp. intros [_ H1]%(gpd_local_elements _ _ _ Hp) [_ H2]%(gpd_local_elements _ _ _ Hp). congruence. Qed.

Lemma end_local i e : ends !! i = Some e → (∃ x, local_of p e.1 x) ∧ ∃ y, local_of p e.2 y.
Proof using Hp. intros (s & t & _ & _ & Hs & Ht)%(gpd_ends _ _ _ Hp). eauto. Qed.

Lemma has_local c : (∃ x, local_of p c x) ↔ c ∈ end_points ends.
Proof using Hp.
  destruct (first_occurrences_spec (end_points ends)) as [_ Hin]. rewrite <-Hin, <-(gpd_elements _ _ _ Hp), list_elem_of_lookup. split.
  - intros (x & [_ Hx]%(gpd_local_elements _ _ _ Hp)). by eexists.
  - intros [i Hi]. exists (Z.of_nat i). apply (gpd_local_elements _ _ _ Hp). rewrite Nat2Z.id. split; [lia|done].
Qed.

(** *** Directions *)

Definition loops_of (dir : Direction) : list (Z → list Z) :=
  match dir with
  | DirOutgoing => [element_successors p]
  | DirIncoming => [element_predecessors p]
  | DirBoth => [element_successors p; element_predecessors p]
  end.

Lemma loops_side dir f : f ∈ loops_of dir → f = element_successors p ∨ f = element_predecessors p.
Proof using Type. clear Hp ids ends. destruct dir; set_solver. Qed.

Lemma hop_out c y x : local_of p c x → y ∈ element_successors p x ↔ ∃ c', local_of p c' y ∧ c' ∈ snd <$> filter (λ e, e.1 = c) ends.
Proof using Hp.
  intros Hx. rewrite (successor_edge _ _ _ Hp _ _ _ Hx). setoid_rewrite list_elem_of_fmap. setoid_rewrite list_elem_of_filter.
  setoid_rewrite list_elem_of_lookup. naive_solver.
Qed.
Lemma hop_in c y x : local_of p c x → y ∈ element_predecessors p x ↔ ∃ c', local_of p c' y ∧ c' ∈ fst <$> filter (λ e, e.2 = c) ends.
Proof using Hp.
  intros Hx. rewrite (predecessor_edge _ _ _ Hp _ _ _ Hx). setoid_rewrite list_elem_of_fmap. setoid_rewrite list_elem_of_filter.
  setoid_rewrite list_elem_of_lookup. naive_solver.
Qed.

Lemma hop dir c x y : local_of p c x →
  y ∈ successors_of (loops_of dir) x ↔ ∃ c', local_of p c' y ∧ c' ∈ neighbours ends dir c.
Proof using Hp.
  intros Hx. unfold successors_of, neighbours. destruct dir; cbn [loops_of mbind list_bind]; rewrite ?app_nil_r.
  - by apply hop_out.
  - by apply hop_in.
  - rewrite elem_of_app, (hop_out c), (hop_in c) by done. setoid_rewrite elem_of_app. naive_solver.
Qed.

Lemma neighbours_local dir c c' : c' ∈ neighbours ends dir c → ∃ y, local_of p c' y.
Proof using Hp.
  assert (c' ∈ snd <$> filter (λ e, e.1 = c) ends → ∃ y, local_of p c' y) as Ho.
  { intros ([s t] & -> & [_ [i Hi]%list_elem_of_lookup]%list_elem_of_filter)%list_elem_of_fmap. by destruct (end_local i _ Hi). }
  assert (c' ∈ fst <$> filter (λ e, e.2 = c) ends → ∃ y, local_of p c' y) as Hin.
  { intros ([s t] & -> & [_ [i Hi]%list_elem_of_lookup]%list_elem_of_filter)%list_elem_of_fmap. by destruct (end_local i _ Hi). }
  unfold neighbours. destruct dir; [done|done|]. intros [?|?]%elem_of_app; auto.
Qed.

(** Walks over local ids are walks over canonical ids. *)
Lemma walk_canonical dir s x n y : local_of p s x →
  walk (successors_of (loops_of dir)) x n y ↔ ∃ c, local_of p c y ∧ walk (neighbours ends dir) s n c.
Proof using Hp.
  intros Hs. split.
  - induction 1 as [|n y z Hw (c & Hc & IH) Hz]; [exists s; split; [done|constructor]|].
    apply (hop dir c) in Hz as (c' & Hc' & Hn); [|done]. exists c'. split; [done|]. by eapply walk_snoc.
  - intros (c & Hc & Hw). revert y Hc. induction Hw as [|n c c' Hw IH Hn]; intros y Hy.
    { rewrite (local_of_inj _ _ _ Hy Hs). constructor. }
    assert (∃ z, local_of p c z) as [z Hz].
    { destruct n as [|n]; [apply walk_0_inv in Hw as ->; by eexists|].
      apply walk_S_inv in Hw as (b & _ & Hb). by eapply neighbours_local. }
    eapply walk_snoc; [by apply IH|]. apply (hop dir c); [done|]. by exists c'.
Qed.

Lemma distance_canonical dir seeds xs c y d : Forall2 (local_of p) seeds xs → local_of p c y →
  distance (successors_of (loops_of dir)) xs y d ↔ distance (neighbours ends dir) seeds c d.
Proof using Hp.
  intros Hs Hc. unfold distance. assert (∀ n, (∃ x, x ∈ xs ∧ walk (successors_of (loops_of dir)) x n y) ↔
    ∃ s, s ∈ seeds ∧ walk (neighbours ends dir) s n c) as Hw.
  { intros n. split.
    - intros (x & [i Hx]%list_elem_of_lookup & Hw). destruct (Forall2_lookup_r _ _ _ _ _ Hs Hx) as (s & Hi & Hl).
      pose proof (proj1 (walk_canonical dir s x n y Hl) Hw) as (c' & Hc' & Hw'). exists s. split; [by eapply list_elem_of_lookup_2|].
      by rewrite (canonical_inj _ _ _ Hc Hc').
    - intros (s & [i Hi]%list_elem_of_lookup & Hw). destruct (Forall2_lookup_l _ _ _ _ _ Hs Hi) as (x & Hx & Hl).
      exists x. split; [by eapply list_elem_of_lookup_2|]. apply (walk_canonical dir s x n y Hl). by exists c. }
  rewrite Hw. split; intros [He Hmin]; (split; [done|]).
  - intros s n Hin Hws. destruct (proj2 (Hw n)) as (x & Hx & Hwx); [by exists s|]. eauto.
  - intros x n Hin Hwx. destruct (proj1 (Hw n)) as (s & Hx & Hws); [by exists x|]. eauto.
Qed.

(** *** The visitor *)

Definition node_of (q : Z * nat) (n : TraversedNode) : Prop := local_of p (tn_element n) q.1 ∧ tn_depth n = Z.of_nat q.2.

(** A map that takes discovered canonical elements to their local ids. *)
Definition discovered_ok (D : gmap Z Z) (cs : list Z) : Prop := ∀ c x, D !! c = Some x ↔ c ∈ cs ∧ local_of p c x.

Lemma discovered_insert D cs c x : discovered_ok D cs → local_of p c x → discovered_ok (<[c := x]> D) (cs ++ [c]).
Proof using Type.
  clear Hp. intros HD Hx c' x'. rewrite elem_of_app, list_elem_of_singleton. destruct (decide (c' = c)) as [->|Hne].
  - rewrite lookup_insert_eq. split; [intros [= <-]; auto|]. intros [_ Hl]. f_equal. by eapply local_of_inj.
  - rewrite lookup_insert_ne by done. rewrite (HD c' x'). naive_solver.
Qed.

(** Feeding the visitor the search order, up to the limit. *)
Lemma feed_nodes limit l order nodes D cs count :
  Forall2 node_of l order → Forall (λ q, Z.of_nat q.2 ≤ usize_max) l → discovered_ok D cs → count < limit →
  ∃ stop count' D', let new := take (Z.to_nat (limit - count)) order in
    feed (BfsVisitor0 := walk_visitor p) limit l (Ok (nodes, D)) count = (stop, Ok (nodes ++ new, D'), count') ∧
    discovered_ok D' (cs ++ (tn_element <$> new)).
Proof using Hp.
  intros Hl. revert nodes D cs count. induction Hl as [|[x d] n l order [Hx Hd] Hl IH]; intros nodes D cs count Hsmall HD Hcount.
  { exists false, count, D. cbn zeta. rewrite take_nil, !app_nil_r. done. }
  apply Forall_cons in Hsmall as [Hs Hsmall]. cbn [fst snd] in *. cbn [feed]. 
  assert (visit_element (BfsVisitor := walk_visitor p) (Ok (nodes, D)) x (Z.of_nat d) = (false, visit_node p (nodes, D) x (Z.of_nat d))) as -> by done.
  unfold visit_node. destruct (local_of_index _ _ _ Hp _ _ Hx) as [_ ->]. cbn [mbind res_bind fst snd].
  assert (slot_or_max W32 (Z.of_nat d) = tn_depth n) as ->.
  { rewrite Hd. unfold slot_or_max, to_usize. by rewrite try_into_fits by done. }
  replace {| tn_element := tn_element n; tn_depth := tn_depth n |} with n by by destruct n.
  pose proof (discovered_insert _ _ _ _ HD Hx) as HD'. cbn zeta.
  replace (Z.to_nat (limit - count)) with (S (Z.to_nat (limit - (count + 1)))) by lia. cbn [take]. rewrite fmap_cons.
  case_bool_decide as Hlast.
  - replace (Z.to_nat (limit - (count + 1))) with 0%nat by lia. cbn [take fmap list_fmap]. by do 3 eexists.
  - destruct (IH (nodes ++ [n]) _ _ (count + 1) Hsmall HD' ltac:(lia)) as (stop & count' & D' & Hf & HD2). cbn zeta in *.
    exists stop, count', D'. rewrite Hf, <-app_assoc. split; [done|]. by rewrite <-app_assoc in HD2.
Qed.

(** *** The search order in canonical terms *)

Section order.
Context (dir : Direction) (seeds xs : list Z) (bd : BfsBounds).
Hypothesis Hseeds : Forall2 (local_of p) seeds xs.
Hypothesis Hsize : zlen (gv_elements p) ≤ u32_max.

#[local] Instance p_laws : TopologyLaws (Id := Z) p := gv_laws ids ends p Hp.

Notation order := (bounded_order p bd (loops_of dir) xs).

Lemma seeds_visible : Forall (visible p) xs.
Proof using Hp Hseeds.
  apply Forall_forall. intros x [i Hx]%list_elem_of_lookup. destruct (Forall2_lookup_r _ _ _ _ _ Hseeds Hx) as (s & _ & Hs).
  apply (gv_contains_spec _ _ _ Hp). by exists s.
Qed.

Lemma loops_visible x y : visible p x → y ∈ successors_of (loops_of dir) x → visible p y.
Proof using Hp. apply (successors_of_visible p (TopologyLaws0 := p_laws)), loops_side. Qed.

Lemma order_inv : LayersInv (successors_of (loops_of dir)) (cut bd) xs order (length order).
Proof using Hp Hseeds.
  apply (bounded_order_inv p (TopologyLaws0 := p_laws)); [|apply seeds_visible].
  apply loops_visible.
Qed.

Lemma order_length : (length order ≤ length (gv_elements p))%nat.
Proof using Hp Hseeds.
  apply (discovered_length p (TopologyLaws0 := p_laws) bd (loops_of dir) xs) with (h := length order); [|apply seeds_visible|apply order_inv].
  apply loops_visible.
Qed.

Lemma order_local x d : (x, d) ∈ order → (∃ c, local_of p c x) ∧ (d < length (gv_elements p))%nat.
Proof using Hp Hseeds.
  intros Hx. split.
  - apply (gv_contains_spec _ _ _ Hp). change (visible p x). eapply (discovered_visible p bd (loops_of dir) xs); [|apply seeds_visible|apply order_inv|exact Hx].
    apply loops_visible.
  - pose proof order_length. apply list_elem_of_lookup in Hx as [i Hi]. pose proof (li_small _ _ _ _ _ order_inv i x d Hi).
    apply lookup_lt_Some in Hi. lia.
Qed.

(** The emissions, as nodes. *)
Lemma order_nodes : ∃ nodes, Forall2 node_of (emissions bd order) nodes.
Proof using Hp Hseeds.
  assert (∀ q, q ∈ emissions bd order → q ∈ order) as Hsub.
  { intros q. unfold emissions. destruct (include_seeds bd); [done|]. by intros [_ ?]%list_elem_of_filter. }
  induction (emissions bd order) as [|[x d] l IH]; [by exists []|].
  destruct IH as [nodes Hn]; [intros q Hq; apply Hsub; by right|].
  destruct (order_local x d) as [[c Hc] _]; [apply Hsub; by left|].
  exists ({| tn_element := c; tn_depth := Z.of_nat d |} :: nodes). by constructor.
Qed.

(** The emissions are the elements within the depth bound, by distance. *)
Definition within_walk (n : TraversedNode) : Prop :=
  ∃ d, tn_depth n = Z.of_nat d ∧ distance (neighbours ends dir) seeds (tn_element n) d ∧
    match max_depth bd with Some m => Z.of_nat d ≤ m | None => True end ∧ (include_seeds bd = true ∨ d ≠ 0%nat).

Lemma elem_of_emissions (q : Z * nat) : q ∈ emissions bd order ↔ q ∈ order ∧ (include_seeds bd = true ∨ q.2 ≠ 0%nat).
Proof using Type. clear. unfold emissions. destruct (include_seeds bd); [naive_solver|]. rewrite list_elem_of_filter. naive_solver. Qed.

Lemma order_exact nodes : (∀ m, max_depth bd = Some m → 0 ≤ m) → Forall2 node_of (emissions bd order) nodes →
  NoDup (tn_element <$> nodes) ∧ StronglySorted (λ a b, tn_depth a ≤ tn_depth b) nodes ∧ ∀ n, n ∈ nodes ↔ within_walk n.
Proof using Hp Hseeds.
  intros Hm Hn. destruct (bounded_order_exact p (TopologyLaws0 := p_laws) bd (loops_of dir) xs (loops_side dir) seeds_visible Hm) as (Hnd & Hex & Hso).
  assert (emissions bd order `sublist_of` order) as Hsub.
  { unfold emissions. destruct (include_seeds bd); [done|]. apply sublist_filter. }
  pose proof (sublist_NoDup _ _ Hnd (fmap_sublist fst _ _ Hsub)) as Hnd'. split_and!.
  - apply NoDup_alt. intros i j c Hi Hj. rewrite list_lookup_fmap in Hi, Hj.
    destruct (nodes !! i) as [a|] eqn:Ha; [|done]. destruct (nodes !! j) as [a'|] eqn:Ha'; [|done]. injection Hi as Hi. injection Hj as Hj.
    destruct (Forall2_lookup_r _ _ _ _ _ Hn Ha) as (q & Hq & Hl & _). destruct (Forall2_lookup_r _ _ _ _ _ Hn Ha') as (q' & Hq' & Hl' & _).
    rewrite Hi in Hl. rewrite Hj in Hl'. eapply NoDup_lookup; [exact Hnd'|by rewrite list_lookup_fmap, Hq|].
    rewrite list_lookup_fmap, Hq'. cbn. f_equal. by eapply local_of_inj.
  - assert (StronglySorted (λ a b : Z * nat, (a.2 ≤ b.2)%nat) (emissions bd order)) as Hs.
    { eapply sublist_sorted; [exact Hsub|]. apply StronglySorted_lookup. intros i j [x d] [y e]. apply Hso. }
    rewrite StronglySorted_lookup. rewrite StronglySorted_lookup in Hs. intros i j a b Hij Ha Hb.
    destruct (Forall2_lookup_r _ _ _ _ _ Hn Ha) as (q & Hq & _ & ->). destruct (Forall2_lookup_r _ _ _ _ _ Hn Hb) as (q' & Hq' & _ & ->).
    apply inj_le. by eapply Hs.
  - assert (∀ x d c, local_of p c x → (x, d) ∈ emissions bd order ↔ distance (neighbours ends dir) seeds c d ∧
      match max_depth bd with Some m => Z.of_nat d ≤ m | None => True end ∧ (include_seeds bd = true ∨ d ≠ 0%nat)) as Hem.
    { intros x d c Hc. rewrite elem_of_emissions, Hex, (distance_canonical dir seeds xs c) by done. naive_solver. }
    intros n. unfold within_walk. split.
    + intros [i Hi]%list_elem_of_lookup. destruct (Forall2_lookup_r _ _ _ _ _ Hn Hi) as ([x d] & Hq & Hl & Hd).
      exists d. split; [done|]. apply (Hem x d _ Hl). by eapply list_elem_of_lookup_2.
    + intros (d & Hd & Hdist & Hrest). assert (∃ x, local_of p (tn_element n) x) as [x Hx].
      { destruct Hdist as [(s & Hs & Hw) _]. destruct d as [|d].
        - apply walk_0_inv in Hw as ->. apply list_elem_of_lookup in Hs as [i Hi].
          destruct (Forall2_lookup_l _ _ _ _ _ Hseeds Hi) as (x & _ & Hx). by exists x.
        - apply walk_S_inv in Hw as (b & _ & Hb). by eapply neighbours_local. }
      pose proof (proj2 (Hem x d _ Hx) (conj Hdist Hrest)) as [i Hi]%list_elem_of_lookup.
      destruct (Forall2_lookup_l _ _ _ _ _ Hn Hi) as (n' & Hn' & Hl & Hd'). cbn [fst snd] in Hl, Hd'.
      assert (n' = n) as ->; [|by eapply list_elem_of_lookup_2]. destruct n', n. cbn in *. f_equal; [|congruence].
      by eapply canonical_inj.
Qed.

End order.
(** *** The edges *)

Definition edge_at (i : nat) (e : TraversedEdge) : Prop :=
  ids !! i = Some (te_relation e) ∧ ends !! i = Some (te_source e, te_target e).

Lemma ids_inj i j r : ids !! i = Some r → ids !! j = Some r → i = j.
Proof using Hp.
  intros Hi Hj. assert (∀ k, ids !! k = Some r → gv_local_relation_id p r = Some (Z.of_nat k)) as Hk.
  { intros k Hk. apply (gpd_local_relations _ _ _ Hp). rewrite Nat2Z.id. split; [lia|done]. }
  pose proof (Hk i Hi) as H1. rewrite (Hk j Hj) in H1. injection H1 as H1. lia.
Qed.

Lemma edge_at_unique i j e e' : edge_at i e → edge_at j e' → te_relation e = te_relation e' → e = e'.
Proof using Hp.
  intros [Hr He] [Hr' He'] Heq. rewrite Heq in Hr. rewrite (ids_inj _ _ _ Hr Hr'), He' in He. destruct e, e'. cbn in *. congruence.
Qed.

Lemma edge_at_lt i : (i < length ends)%nat → ∃ e, edge_at i e.
Proof using Hp.
  intros Hi. destruct (lookup_lt_is_Some_2 ends i Hi) as [[s t] He].
  destruct (lookup_lt_is_Some_2 ids i) as [r Hr]; [by rewrite <-(gpd_edge_count _ _ _ Hp)|].
  by exists {| te_relation := r; te_source := s; te_target := t |}.
Qed.

Section edges.
Context (D : gmap Z Z) (cs : list Z).
Hypothesis HD : discovered_ok D cs.

Lemma collect_edge_spec i e seen edges : edge_at i e →
  collect_edge p D (seen, edges) (Z.of_nat i) =
    Ok (if decide (te_target e ∈ cs ∧ te_relation e ∉ seen) then ({[te_relation e]} ∪ seen, edges ++ [e]) else (seen, edges)).
Proof using HD Hp.
  intros [Hr He]. unfold collect_edge. destruct (gpd_ends _ _ _ Hp i _ He) as (s & t & -> & -> & Hs & Ht). cbn [mbind res_bind fst snd] in *.
  destruct (local_of_index _ _ _ Hp _ _ Hs) as [_ ->]. destruct (local_of_index _ _ _ Hp _ _ Ht) as [_ ->]. cbn [mbind res_bind].
  assert (D !! te_target e = None ↔ te_target e ∉ cs) as Hnone.
  { rewrite eq_None_not_Some. split; [|by intros Hn [x [? _]%HD]]. intros Hn Hin. apply Hn. exists t. by apply HD. }
  destruct (decide (te_target e ∈ cs)) as [Hin|Hout].
  2:{ rewrite decide_True by by apply Hnone. rewrite decide_False; [done|]. by intros [? _]. }
  rewrite decide_False by (rewrite Hnone; auto).
  assert (gv_canonical_relation_id (E:=DbError) p (Z.of_nat i) = Ok (te_relation e)) as ->.
  { unfold gv_canonical_relation_id. change local_relation_index with local_index. destruct (gpd_bound _ _ _ Hp) as [_ Hb].
    pose proof (lookup_lt_Some _ _ _ Hr). unfold zlen in Hb. rewrite local_index_fits, Nat2Z.id by lia.
    apply vget_Ok. by rewrite (gpd_relations _ _ _ Hp). }
  cbn [mbind res_bind]. case_decide as Hseen; [by rewrite decide_False by tauto|]. rewrite decide_True by done. by destruct e.
Qed.

(** The collection after the edges [done]. *)
Record Collected (visited : list nat) (st : gset Z * list TraversedEdge) : Prop := {
  co_seen : ∀ r, r ∈ st.1 ↔ r ∈ te_relation <$> st.2;
  co_unique : NoDup (te_relation <$> st.2);
  co_edges : ∀ e, e ∈ st.2 ↔ (∃ i, i ∈ visited ∧ edge_at i e) ∧ te_target e ∈ cs
}.

Lemma collect_step visited st i : Collected visited st → (i < length ends)%nat →
  ∃ st', collect_edge p D st (Z.of_nat i) = Ok st' ∧ Collected (visited ++ [i]) st'.
Proof using HD Hp.
  destruct st as [seen edges]. intros [Hs Hu He] Hi. cbn [fst snd] in *. destruct (edge_at_lt i Hi) as [e Hei].
  rewrite (collect_edge_spec i e _ _ Hei). eexists. split; [done|].
  assert (∀ e', (∃ j, j ∈ visited ++ [i] ∧ edge_at j e') ↔ (∃ j, j ∈ visited ∧ edge_at j e') ∨ e' = e) as Hv.
  { intros e'. setoid_rewrite elem_of_app. setoid_rewrite list_elem_of_singleton. split.
    - intros (j & [?| ->] & Hj); [left; by exists j|right]. apply (edge_at_unique i i e' e Hj Hei).
      destruct Hj as [Hj _], Hei as [Hi' _]. congruence.
    - intros [(j & ? & ?)| ->]; [exists j; auto|exists i; auto]. }
  case_decide as Hc; (split; cbn [fst snd]; [| |intros e'; rewrite Hv]).
  - intros r. rewrite elem_of_union, elem_of_singleton, fmap_app, elem_of_app, (Hs r). cbn. set_solver.
  - rewrite fmap_app. apply NoDup_app. destruct Hc as [_ Hn]. rewrite Hs in Hn. split_and!; [done| |apply NoDup_singleton]. set_solver.
  - rewrite elem_of_app, list_elem_of_singleton, (He e'). naive_solver.
  - done.
  - done.
  - rewrite (He e'). split; [naive_solver|]. intros [[?| ->] Ht]; [done|]. split; [|done].
    destruct (decide (te_relation e ∈ seen)) as [Hin|Hn]; [|tauto]. apply Hs, list_elem_of_fmap in Hin as (e2 & Heq & He2).
    apply He in He2 as [(j & Hj & Hje) _]. exists j. split; [done|]. by rewrite (edge_at_unique _ _ _ _ Hei Hje Heq).
Qed.

Lemma collect_row visited st l : Collected visited st → Forall (λ i, (i < length ends)%nat) l →
  ∃ st', for_each (collect_edge p D) (Z.of_nat <$> l) st = Ok st' ∧ Collected (visited ++ l) st'.
Proof using HD Hp.
  revert visited st. induction l as [|i l IH]; intros visited st Hst Hl.
  { exists st. by rewrite app_nil_r. }
  apply Forall_cons in Hl as [Hi Hl]. destruct (collect_step _ _ _ Hst Hi) as (st1 & Hs1 & Hst1).
  destruct (IH _ _ Hst1 Hl) as (st2 & Hs2 & Hst2). exists st2. rewrite fmap_cons. cbn [for_each]. rewrite Hs1. cbn [mbind res_bind].
  split; [done|]. by rewrite <-app_assoc in Hst2.
Qed.

Lemma collect_all visited st entries : Collected visited st → Forall (λ q : Z * Z, local_of p q.1 q.2) entries →
  ∃ st', for_each (λ st (entry : Z * Z), out ← gv_outgoing_edges p entry.2; for_each (collect_edge p D) out st) entries st = Ok st' ∧
    Collected (visited ++ (entries ≫= λ q, positions ends.*1 q.1 (length ends))) st'.
Proof using HD Hp.
  revert visited st. induction entries as [|[c x] entries IH]; intros visited st Hst Hl.
  { exists st. by rewrite app_nil_r. }
  apply Forall_cons in Hl as [Hx Hl]. cbn [fst snd] in Hx. cbn [for_each fst snd]. destruct (gpd_out _ _ _ Hp c x Hx) as [-> _]. cbn [mbind res_bind].
  destruct (collect_row visited st (positions ends.*1 c (length ends)) Hst) as (st1 & -> & Hst1).
  { apply Forall_forall. by intros i [_ ?]%elem_of_positions. }
  cbn [mbind res_bind]. destruct (IH _ _ Hst1 Hl) as (st2 & Hs2 & Hst2). exists st2. split; [exact Hs2|].
  cbn [mbind list_bind fst]. by rewrite app_assoc.
Qed.

Lemma collect_spec : ∃ edges, collect_internal_edges p D = Ok edges ∧ StronglySorted Z.lt (te_relation <$> edges) ∧
  ∀ e, e ∈ edges ↔ (∃ i, edge_at i e) ∧ te_source e ∈ cs ∧ te_target e ∈ cs.
Proof using HD Hp.
  destruct (collect_all [] (∅, []) (map_iter D)) as ([seen edges] & Hrun & [_ Hu He]).
  - split; cbn; [set_solver|constructor|]. intros e. split; [by intros ?%not_elem_of_nil|]. intros [(i & ?%not_elem_of_nil & _) _]. done.
  - apply Forall_forall. intros [c x] Hin%elem_of_map_iter. by apply HD in Hin as [_ ?].
  - cbn [fst snd] in *. unfold collect_internal_edges. rewrite Hrun. cbn [mbind res_bind]. eexists. split; [done|].
    assert (∀ e, e ∈ merge_sort key_le edges ↔ e ∈ edges) as Hperm by (intros e; by rewrite merge_sort_Permutation). split.
    + assert (NoDup (te_relation <$> merge_sort key_le edges)) as Hnd by by rewrite merge_sort_Permutation.
      pose proof (StronglySorted_merge_sort key_le edges) as Hs. rewrite StronglySorted_lookup in Hs. apply StronglySorted_lookup.
      intros i j r r' Hij Hi Hj. pose proof (NoDup_lookup _ i j r Hnd Hi) as Hneq. rewrite list_lookup_fmap in Hi, Hj.
      destruct (merge_sort key_le edges !! i) as [a|] eqn:Ha; [|done]. destruct (merge_sort key_le edges !! j) as [b|] eqn:Hb; [|done].
      injection Hi as <-. injection Hj as <-. pose proof (Hs i j a b Hij Ha Hb) as Hle.
      assert (te_relation a ≠ te_relation b) as Hne by (intros Heq; rewrite list_lookup_fmap, Hb, Heq in Hneq; specialize (Hneq eq_refl); lia).
      apply derived_le_lt in Hle as [->|Hle]; [done|]. unfold lexico, edge_key in Hle. cbn in Hle. destruct Hle as [Hlt|[? _]]; [exact Hlt|done].
    + intros e. rewrite Hperm, (He e). split.
      * intros [(i & (q & Hq & Hin)%list_elem_of_bind & Hei) Ht]. destruct q as [c x]. cbn [fst] in *.
        apply elem_of_map_iter, HD in Hin as [Hc _]. apply elem_of_positions in Hq as [Hq _]. destruct Hei as [Hr Hee].
        rewrite list_lookup_fmap, Hee in Hq. cbn in Hq. injection Hq as ->. split; [exists i; by split|done].
      * intros [(i & Hr & Hee) [Hs Ht]]. split; [|done]. exists i. split; [|by split].
        destruct (end_local i _ Hee) as [[x Hx] _]. cbn [fst] in Hx. apply list_elem_of_bind. exists (te_source e, x). cbn [fst]. split.
        -- apply elem_of_positions. rewrite list_lookup_fmap, Hee. split; [done|by eapply lookup_lt_Some].
        -- apply elem_of_map_iter, HD. by split.
Qed.

End edges.
(** *** The whole walk *)

Lemma local_seeds_cases seeds :
  (∃ xs, local_seeds p seeds = Ok xs ∧ Forall2 (local_of p) seeds xs) ∨
  (∃ pre s post, seeds = pre ++ s :: post ∧ Forall (λ c, c ∈ end_points ends) pre ∧ s ∉ end_points ends ∧
    local_seeds p seeds = Err (unknown FamilyElement s)).
Proof using Hp.
  unfold local_seeds. induction seeds as [|s seeds IH]; [left; by exists []|]. cbn [mapM].
  destruct (gv_local_element_id p s) as [x|] eqn:Hx; cbn [ok_or mbind res_bind].
  - assert (s ∈ end_points ends) as Hs by (apply has_local; by exists x).
    destruct IH as [(xs & -> & Hxs)|(pre & s' & post & -> & Hpre & Hs' & ->)]; cbn [mbind res_bind].
    + left. exists (x :: xs). split; [done|]. by constructor.
    + right. exists (s :: pre), s', post. split; [done|]. split; [by constructor|done].
  - right. exists [], s, seeds. split; [done|]. split; [constructor|]. split; [|done].
    rewrite <-has_local. intros [x Hl]. unfold local_of in Hl. congruence.
Qed.

Lemma seed_map seeds xs : Forall2 (local_of p) seeds xs →
  mapM (λ local, c ← gv_canonical_element_id p local; Ok (c, local)) xs = Ok (E:=DbError) (zip seeds xs) ∧
  discovered_ok (list_to_map (reverse (zip seeds xs))) seeds.
Proof using Hp.
  intros Hs. split.
  - apply mapM_res_Forall2. induction Hs as [|s x seeds xs Hx _ IH]; constructor; [|done].
    by destruct (local_of_index _ _ _ Hp _ _ Hx) as [_ ->].
  - assert (∀ c x, (c, x) ∈ reverse (zip seeds xs) ↔ c ∈ seeds ∧ local_of p c x) as Hin.
    { intros c x. rewrite elem_of_reverse. clear -Hs. induction Hs as [|s y seeds xs Hy _ IH]; cbn [zip zip_with].
      - rewrite !elem_of_nil. tauto.
      - rewrite !elem_of_cons, IH. split; [intros [Heq|]; [injection Heq as -> ->; auto|naive_solver]|].
        intros [[->|] Hl]; [left|naive_solver]. f_equal. by eapply local_of_inj. }
    intros c x. rewrite <-Hin. split; [apply elem_of_list_to_map_2|]. intros Hc. apply elem_of_list_to_map_1'; [|done].
    intros y Hy. apply Hin in Hc as [_ Hx], Hy as [_ Hy]. by eapply local_of_inj.
Qed.

(** The elements a walk may report, with their distance from the seeds. *)
Definition in_walk (walk : Walk) (seeds : list Z) (n : TraversedNode) : Prop :=
  ∃ d, tn_depth n = Z.of_nat d ∧ distance (neighbours ends (walk_direction walk)) seeds (tn_element n) d ∧
    Z.of_nat d ≤ walk_max_depth walk ∧ (walk_include_start walk = true ∨ d ≠ 0%nat).

(** A depth bound that saturates does not bound the walk. *)
Lemma within_in_walk walk seeds xs n :
  Forall2 (local_of p) seeds xs → zlen (gv_elements p) ≤ u32_max →
  within_walk (walk_direction walk) seeds (walk_bounds walk) n ↔ in_walk walk seeds n.
Proof using Hp.
  intros Hs Hsize. unfold within_walk, in_walk, walk_bounds. cbn [max_depth include_seeds].
  assert (∀ d, distance (neighbours ends (walk_direction walk)) seeds (tn_element n) d → Z.of_nat d ≤ u32_max) as Hd.
  { intros d Hdist. set (free := {| max_depth := None; result_limit := 0; include_seeds := true |}).
    destruct (order_nodes (walk_direction walk) seeds xs free Hs) as [nodes Hn].
    destruct (order_exact (walk_direction walk) seeds xs free Hs nodes ltac:(done) Hn) as (_ & _ & Hex).
    assert ({| tn_element := tn_element n; tn_depth := Z.of_nat d |} ∈ nodes) as [i Hi]%list_elem_of_lookup.
    { apply Hex. exists d. cbn. auto. }
    destruct (Forall2_lookup_r _ _ _ _ _ Hn Hi) as ([x e] & Hq & _ & He). cbn in He.
    apply list_elem_of_lookup_2, elem_of_emissions in Hq as [Hq _].
    destruct (order_local (walk_direction walk) seeds xs free Hs x e Hq) as [_ Hlt]. unfold zlen in Hsize. lia. }
  assert (default u32_max (try_into u32_max (walk_max_depth walk)) = Z.min (walk_max_depth walk) u32_max) as ->.
  { unfold try_into. destruct (Z.leb_spec (walk_max_depth walk) u32_max); cbn; lia. }
  split; intros (d & H1 & H2 & H3 & H4); exists d; (split_and!; [done|done| |done]).
  - lia.
  - specialize (Hd d H2). lia.
Qed.

(** What a walk answers. *)
Definition walk_answer (seeds : list Z) (walk : Walk) (sg : Subgraph) : Prop :=
  (∃ order, NoDup (tn_element <$> order) ∧ StronglySorted (λ a b, tn_depth a ≤ tn_depth b) order ∧
    (∀ n, n ∈ order ↔ in_walk walk seeds n) ∧ sg_nodes sg = take (Z.to_nat (walk_limit walk)) order) ∧
  StronglySorted Z.lt (te_relation <$> sg_edges sg) ∧
  let discovered := seeds ++ (tn_element <$> sg_nodes sg) in
  ∀ e, e ∈ sg_edges sg ↔ (∃ i, edge_at i e) ∧ te_source e ∈ discovered ∧ te_target e ∈ discovered.

Lemma search_outcome dir seeds xs walk v0 : Forall2 (local_of p) seeds xs → zlen (gv_elements p) ≤ u32_max →
  ∃ stop r, walk_search p dir (element_bound p + 2) xs (walk_bounds walk)
      (BfsEpochScratch_new (replicate (element_bound p) 0) (replicate (element_bound p) 0)) v0 = Ok r ∧
    feed (BfsVisitor0 := walk_visitor p) (walk_limit walk)
      (emissions (walk_bounds walk) (bounded_order p (walk_bounds walk) (loops_of dir) xs)) v0 0 = (stop, br_visitor r, emitted r).
Proof using Hp.
  intros Hs Hsize. pose proof (bounded_search_outcome (BfsVisitor0 := walk_visitor p) p (TopologyLaws0 := p_laws) (walk_bounds walk) v0
    (loops_of dir) xs (loops_visible dir) (seeds_visible seeds xs Hs) Hsize (element_bound p + 2)
    (BfsEpochScratch_new (replicate (element_bound p) 0) (replicate (element_bound p) 0))) as Ho.
  destruct dir; apply Ho; cbn; rewrite ?length_replicate; try lia.
  all: split; [split; vm_compute; discriminate|]; apply Forall_replicate; cbn; lia.
Qed.

Lemma walk_graph_cases seeds walk :
  zlen (gv_elements p) ≤ u32_max → 0 ≤ walk_max_depth walk → 0 ≤ walk_limit walk →
  seeds ≠ [] → walk_limit walk ≠ 0 →
  (Forall (λ c, c ∈ end_points ends) seeds ∧ ∃ sg, walk_graph_projection p seeds walk = Ok sg ∧ walk_answer seeds walk sg) ∨
  (∃ pre s post, seeds = pre ++ s :: post ∧ Forall (λ c, c ∈ end_points ends) pre ∧ s ∉ end_points ends ∧
    walk_graph_projection p seeds walk = Err (unknown FamilyElement s)).
Proof using Hp.
  intros Hsize Hmd Hlim Hne Hnz. unfold walk_graph_projection. rewrite decide_False by tauto.
  destruct (local_seeds_cases seeds) as [(xs & -> & Hxs)|(pre & s & post & Heq & Hpre & Hs & ->)]; cbn [mbind res_bind];
    [|right; by exists pre, s, post].
  left. split.
  { apply Forall_forall. intros c [i Hi]%list_elem_of_lookup. apply has_local.
    destruct (Forall2_lookup_l _ _ _ _ _ Hxs Hi) as (x & _ & Hx). by exists x. }
  destruct (seed_map seeds xs Hxs) as [-> HD]. cbn [mbind res_bind]. cbv zeta.
  destruct (search_outcome (walk_direction walk) seeds xs walk (Ok ([], list_to_map (reverse (zip seeds xs)))) Hxs Hsize) as (stop & r & Hr & Hfeed).
  destruct (order_nodes (walk_direction walk) seeds xs (walk_bounds walk) Hxs) as [nodes Hn].
  destruct (order_exact (walk_direction walk) seeds xs (walk_bounds walk) Hxs nodes) as (Hnd & Hso & Hex); [|done|].
  { intros m [= <-]. unfold try_into. destruct (Z.leb_spec (walk_max_depth walk) u32_max); cbn; [lia|vm_compute; discriminate]. }
  destruct (feed_nodes (walk_limit walk) _ nodes [] (list_to_map (reverse (zip seeds xs))) seeds 0 Hn) as (stop' & count & D & Hf & HD'); [|exact HD|lia|].
  { apply Forall_forall. intros [x d] [Hq _]%elem_of_emissions. destruct (order_local _ _ _ _ Hxs _ _ Hq) as [_ Hlt].
    destruct (gpd_bound _ _ _ Hp) as [Hb _]. unfold zlen in Hb. cbn. lia. }
  cbn zeta in Hf, HD'. rewrite Hf in Hfeed. injection Hfeed as _ Hv _. rewrite Z.sub_0_r, app_nil_l in *.
  destruct (collect_spec D _ HD') as (edges & Hcol & Hsort & Hedges).
  exists {| sg_nodes := take (Z.to_nat (walk_limit walk)) nodes; sg_edges := edges |}. split.
  - rewrite Hr. cbn [map_err mbind res_bind]. unfold WalkState in Hv; rewrite <-Hv; cbn [mbind res_bind]; by rewrite Hcol.
  - split; [|split; [exact Hsort|exact Hedges]]. exists nodes. split_and!; try done.
    intros n. rewrite (Hex n). by eapply within_in_walk.
Qed.

(** A walk of a projection never panics and its search always ends. With no
    seed or a limit of zero it is empty; a seed outside the projection is
    refused, the first such seed named. Otherwise its nodes are the first [limit]
    of the elements whose hop distance from the seeds, along the projected
    relations in the chosen direction, is within the depth bound (the seeds only
    when asked for), each once and with that distance, nearest first; and its
    edges are exactly the projected relations both of whose end points are seeds
    or reported nodes, in ascending relation order. *)
Theorem walk_exact seeds walk :
  zlen (gv_elements p) ≤ u32_max → 0 ≤ walk_max_depth walk → 0 ≤ walk_limit walk →
  ((seeds = [] ∨ walk_limit walk = 0) → walk_graph_projection p seeds walk = Ok empty_subgraph) ∧
  (seeds ≠ [] → walk_limit walk ≠ 0 →
    (Forall (λ c, c ∈ end_points ends) seeds ∧ ∃ sg, walk_graph_projection p seeds walk = Ok sg ∧ walk_answer seeds walk sg) ∨
    (∃ pre s post, seeds = pre ++ s :: post ∧ Forall (λ c, c ∈ end_points ends) pre ∧ s ∉ end_points ends ∧
      walk_graph_projection p seeds walk = Err (unknown FamilyElement s))).
Proof using Hp.
  intros Hsize Hmd Hlim. split; [|by apply walk_graph_cases]. intros He. unfold walk_graph_projection. by rewrite decide_True.
Qed.

End walk_facts.

(** ** A concrete walk *)

Definition demo_walk : Walk := {| walk_max_depth := 1; walk_direction := DirOutgoing; walk_limit := 10; walk_include_start := false |}.

Lemma walk_exact_witness :
  match graph_from_state (H := target64) demo_state demo_graph_definition with
  | Ok p => ∃ sg, walk_graph_projection (H := target64) p [7] demo_walk = Ok sg ∧
      sg_nodes sg = [{| tn_element := 5; tn_depth := 1 |}] ∧ te_relation <$> sg_edges sg = [10; 12] ∧
      walk_answer [10; 11; 12] [(7, 5); (5, 9); (7, 5)] [7] demo_walk sg
  | _ => False
  end.
Proof.
  assert (match graph_from_state (H := target64) demo_state demo_graph_definition with
    | Ok p => match walk_graph_projection (H := target64) p [7] demo_walk with
              | Ok sg => zlen (gv_elements p) = 3 ∧ sg_nodes sg = [{| tn_element := 5; tn_depth := 1 |}] ∧ te_relation <$> sg_edges sg = [10; 12]
              | _ => False end
    | _ => False end) as Hrun by (vm_compute; done).
  pose proof (graph_from_state_cases (H := target64) demo_state demo_graph_definition (rs_relations demo_state) eq_refl) as Hg.
  cbn zeta in Hg. destruct (graph_from_state demo_state demo_graph_definition) as [p| | |]; [|done..].
  destruct Hg as (_ & _ & _ & Hp).
  { cbn. repeat (constructor; [set_solver|]). constructor. }
  { vm_compute. reflexivity. }
  destruct (walk_graph_projection p [7] demo_walk) as [sg| | |] eqn:Hw; [|done..]. destruct Hrun as (Hz & Hn & He).
  exists sg. split; [done|]. split; [done|]. split; [done|].
  destruct (walk_exact (H := target64) _ _ p Hp [7] demo_walk) as [_ Hcase]; [rewrite Hz; vm_compute; discriminate|done..|].
  destruct Hcase as [(_ & sg' & Hw' & Ha)|(pre & s & post & _ & _ & _ & Hw')]; [done..| |]; rewrite Hw in Hw'; [|done].
  by injection Hw' as <-.
Defined.
