(* ===== verification/HyperProjectionFacts.v ===== *)
(** * HyperProjectionFacts: the hypergraph projection is exact

    A hypergraph projection succeeds exactly when every selected relation has a
    participant on each side and the ids fit; it then lists the selected relations
    with all their incidences, its participant rows, and the directed adjacency of
    its vertices, frozen through the bipartite builder. *)

From Stdlib Require Import String.
From stdpp Require Import base gmap sets list strings sorting.
From S2P Require Import Prelude Ordered Layout DbError DbWire DbState Overlay Merge Topology CsrBuildFacts Bcsr BcsrFacts BcsrBuild.
From S2P Require Import BcsrBuildFacts BcsrFreeze Projection ProjectionFacts.

Local Open Scope Z_scope.

Section hyper_projection.
Context `{!Target} `{StateView V} (state : V) (d : HypergraphProjectionDefinition).

(** ** What is projected *)

Definition hyper_selected (rs : list RelationRecord) : list RelationRecord :=
  filter (λ r, relation_selected r (hp_relation_types d) = true) rs.

Definition incidences_of (r : RelationRecord) : list IncidenceRecord := state_relation_incidences state (rel_id r).
Definition in_roles (roles : gset Z) (l : list IncidenceRecord) : list IncidenceRecord := filter (λ i, inc_role i ∈ roles) l.
Definition source_side (r : RelationRecord) : list IncidenceRecord := in_roles (hp_source_roles d) (incidences_of r).
Definition target_side (r : RelationRecord) : list IncidenceRecord := in_roles (hp_target_roles d) (incidences_of r).
Definition directed (r : RelationRecord) : Prop := source_side r ≠ [] ∧ target_side r ≠ [].
Definition all_incidences_of (sel : list RelationRecord) : list IncidenceRecord := sel ≫= incidences_of.

#[export] Instance directed_dec r : Decision (directed r).
Proof. unfold directed. apply _. Defined.

(** A local id names the record at its position. *)
Definition local_at {A} (l : list A) (x : A) (i : Z) : Prop := 0 ≤ i ∧ l !! Z.to_nat i = Some x.

Lemma local_at_prefix {A} (l k : list A) x i : l `prefix_of` k → local_at l x i → local_at k x i.
Proof using Type. intros Hp [? ?]. split; [done|]. by eapply prefix_lookup_Some. Qed.

Lemma local_at_mono {A} (l k : list A) xs is_ : l `prefix_of` k → Forall2 (local_at l) xs is_ → Forall2 (local_at k) xs is_.
Proof using Type. intros Hp Hx. eapply Forall2_impl; [exact Hx|]. intros x i. by apply local_at_prefix. Qed.

(** ** One relation *)

(** The builder's stores after the incidences [I]. *)
Record Stored (b : HypergraphProjectionBuilder) (I : list IncidenceRecord) : Prop := {
  st_definition : qb_definition b = d;
  st_elements : qb_elements b = first_occurrences (inc_element <$> I);
  st_element_index : inverse_index (qb_element_index b) (qb_elements b);
  st_incidences : qb_incidences b = I;
  st_incidence_index : inverse_index (qb_incidence_index b) (inc_id <$> I);
  st_element_ids : zlen (qb_elements b) ≤ local_ids;
  st_incidence_ids : zlen I ≤ local_ids
}.

(** The rows of a relation after its incidences [pre]. *)
Record RowsOf (I : list IncidenceRecord) (E : list Z) (pre : list IncidenceRecord) (rows : HyperedgeRows) : Prop := {
  ro_ids : Forall2 (local_at I) pre (he_ids rows);
  ro_source_ids : Forall2 (local_at I) (in_roles (hp_source_roles d) pre) (he_source_ids rows);
  ro_target_ids : Forall2 (local_at I) (in_roles (hp_target_roles d) pre) (he_target_ids rows);
  ro_sources : Forall2 (local_at E) (inc_element <$> in_roles (hp_source_roles d) pre) (he_sources rows);
  ro_targets : Forall2 (local_at E) (inc_element <$> in_roles (hp_target_roles d) pre) (he_targets rows)
}.

Lemma RowsOf_mono I I' E E' pre rows : I `prefix_of` I' → E `prefix_of` E' → RowsOf I E pre rows → RowsOf I' E' pre rows.
Proof using Type. intros HI HE [? ? ? ? ?]. split; by (eapply local_at_mono; [|eassumption]). Qed.

(** What the incidences do not touch. *)
Definition same_relations (b b' : HypergraphProjectionBuilder) : Prop :=
  qb_relations b' = qb_relations b ∧ qb_relation_index b' = qb_relation_index b ∧
  qb_relation_incidences b' = qb_relation_incidences b ∧ qb_source_incidences b' = qb_source_incidences b ∧
  qb_target_incidences b' = qb_target_incidences b ∧ qb_source_vertices b' = qb_source_vertices b ∧
  qb_target_vertices b' = qb_target_vertices b.

Lemma in_roles_snoc roles l i : in_roles roles (l ++ [i]) = in_roles roles l ++ (if bool_decide (inc_role i ∈ roles) then [i] else []).
Proof using Type. unfold in_roles. rewrite filter_app, filter_cons, filter_nil. by case_bool_decide; [rewrite decide_True|rewrite decide_False]. Qed.

Lemma RowsOf_push I E pre rows i local vertex : RowsOf I E pre rows → local_at I i local → local_at E (inc_element i) vertex →
  RowsOf I E (pre ++ [i]) (push_row (bool_decide (inc_role i ∈ hp_source_roles d)) (bool_decide (inc_role i ∈ hp_target_roles d)) local vertex rows).
Proof using Type.
  intros [? ? ? ? ?] Hl Hv. split; cbn [push_row he_ids he_source_ids he_target_ids he_sources he_targets]; rewrite ?in_roles_snoc.
  - apply Forall2_app; [done|]. by constructor.
  - case_bool_decide; rewrite ?app_nil_r; [|done]. apply Forall2_app; [done|]. by constructor.
  - case_bool_decide; rewrite ?app_nil_r; [|done]. apply Forall2_app; [done|]. by constructor.
  - case_bool_decide; rewrite ?app_nil_r; [|done]. rewrite fmap_app. apply Forall2_app; [done|]. by constructor.
  - case_bool_decide; rewrite ?app_nil_r; [|done]. rewrite fmap_app. apply Forall2_app; [done|]. by constructor.
Qed.

(** The incidences and their elements fit local ids. *)
Definition incidences_fit (I : list IncidenceRecord) : Prop :=
  zlen I ≤ local_ids ∧ zlen (first_occurrences (inc_element <$> I)) ≤ local_ids.

Lemma incidences_fit_prefix I J : incidences_fit (I ++ J) → incidences_fit I.
Proof using Type.
  intros [HI HE]. rewrite zlen_app in HI. pose proof (zlen_nonneg J). split; [lia|]. rewrite fmap_app in HE.
  etrans; [|exact HE]. unfold zlen. apply inj_le, prefix_length, first_occurrences_prefix.
Qed.

Lemma push_incidence_spec b I i : Stored b I → inc_id i ∉ inc_id <$> I →
  push_incidence b i = (local ← projection_incidence_id (zlen I);
    Ok (local, {| qb_definition := qb_definition b; qb_elements := qb_elements b; qb_element_index := qb_element_index b;
      qb_relations := qb_relations b; qb_relation_index := qb_relation_index b; qb_incidences := I ++ [i];
      qb_incidence_index := <[inc_id i := local]> (qb_incidence_index b); qb_relation_incidences := qb_relation_incidences b;
      qb_source_incidences := qb_source_incidences b; qb_target_incidences := qb_target_incidences b;
      qb_source_vertices := qb_source_vertices b; qb_target_vertices := qb_target_vertices b |})).
Proof using Type.
  intros [Hd He Hei Hi Hii _ _] Hn. unfold push_incidence. destruct (qb_incidence_index b !! inc_id i) as [x|] eqn:Hx.
  - exfalso. apply Hn. apply (inverse_index_elem _ _ _ Hii). by eexists.
  - by rewrite Hi.
Qed.

Lemma push_participant_spec b rows I pre i :
  Stored b I → RowsOf I (qb_elements b) pre rows → inc_id i ∉ inc_id <$> I →
  (incidences_fit (I ++ [i]) ∧ ∃ b' rows', push_participant (b, rows) i = Ok (b', rows') ∧ Stored b' (I ++ [i]) ∧
     RowsOf (I ++ [i]) (qb_elements b') (pre ++ [i]) rows' ∧ same_relations b b') ∨
  (¬ incidences_fit (I ++ [i]) ∧ push_participant (b, rows) i = Err (id_overflow FamilyElement)).
Proof using Type.
  intros Hst Hrows Hn. unfold push_participant. cbn [fst snd]. rewrite (push_incidence_spec _ _ _ Hst Hn).
  destruct Hst as [Hd He Hei Hi Hii Hle Hli].
  assert (first_occurrences (inc_element <$> I ++ [i]) = intern (qb_elements b) (inc_element i)) as Hfo.
  { by rewrite fmap_app, first_occurrences_app, <-He. }
  unfold incidences_fit, projection_incidence_id, from_usize in *. cbn [width_max]. unfold local_ids, u32_max in *. rewrite zlen_app, Hfo.
  change (zlen [i]) with 1. destruct (decide (zlen I + 1 ≤ 2 ^ 32)) as [Hf|Hf].
  2:{ assert (try_into (2 ^ 32 - 1) (zlen I) = None) as -> by (apply try_into_None; lia). right. split; [lia|done]. }
  rewrite try_into_fits by lia. cbn [ok_or mbind res_bind qb_element_index qb_elements].
  destruct (intern_element_spec (qb_element_index b) (qb_elements b) (inc_element i) Hei Hle) as [(Hc & v & ix & -> & Hix & Hv0 & Hv)|(Hov & ->)];
    unfold local_ids in *; cbn [mbind res_bind]; [left|right; split; [lia|done]].
  split; [done|]. do 2 eexists. split; [done|]. split; [|split; [|done]].
  - split; cbn [with_elements qb_definition qb_elements qb_element_index qb_incidences qb_incidence_index]; try done.
    + rewrite fmap_app. replace (zlen I) with (zlen (inc_id <$> I)) by (unfold zlen; by rewrite length_fmap). by apply inverse_index_push.
    + rewrite zlen_app. change (zlen [i]) with 1. unfold local_ids. lia.
  - cbn [with_elements qb_elements qb_definition]. rewrite Hd. apply RowsOf_push; [| |by split].
    + eapply RowsOf_mono; [| |exact Hrows]; [by apply prefix_app_r|apply intern_prefix].
    + split; [apply zlen_nonneg|]. unfold zlen. rewrite Nat2Z.id. by apply list_lookup_middle.
Qed.

Lemma push_participants_spec l : ∀ b rows I pre,
  Stored b I → RowsOf I (qb_elements b) pre rows → NoDup (inc_id <$> I ++ l) →
  (incidences_fit (I ++ l) ∧ ∃ b' rows', for_each push_participant l (b, rows) = Ok (b', rows') ∧ Stored b' (I ++ l) ∧
     RowsOf (I ++ l) (qb_elements b') (pre ++ l) rows' ∧ same_relations b b') ∨
  (¬ incidences_fit (I ++ l) ∧ for_each push_participant l (b, rows) = Err (id_overflow FamilyElement)).
Proof using Type.
  induction l as [|i l IH]; intros b rows I pre Hst Hrows Hnd.
  { rewrite !app_nil_r. left. split; [|by exists b, rows]. destruct Hst. unfold incidences_fit. by rewrite <-st_elements0. }
  assert (inc_id i ∉ inc_id <$> I) as Hn.
  { rewrite fmap_app, fmap_cons, <-Permutation_middle in Hnd. apply NoDup_cons in Hnd as [Hn _]. set_solver. }
  cbn [for_each]. rewrite (cons_middle i I l), (cons_middle i pre l), !app_assoc.
  destruct (push_participant_spec b rows I pre i Hst Hrows Hn) as [(Hf & b' & rows' & -> & Hst' & Hrows' & Hsame)|(Hnf & ->)]; cbn [mbind res_bind].
  - destruct (IH b' rows' (I ++ [i]) (pre ++ [i]) Hst' Hrows') as [(Hf2 & b2 & rows2 & -> & Hst2 & Hrows2 & Hsame2)|(Hnf & ->)].
    + by rewrite <-app_assoc.
    + left. split; [done|]. exists b2, rows2. split; [done|]. split; [done|]. split; [done|].
      unfold same_relations in *. destruct_and!. split_and!; congruence.
    + by right.
  - right. split; [|done]. intros Hf. apply Hnf. by eapply incidences_fit_prefix.
Qed.

(** ** The relations *)

(** The builder after the relations [sel]. *)
Record Pushed (b : HypergraphProjectionBuilder) (sel : list RelationRecord) : Prop := {
  pu_stored : Stored b (all_incidences_of sel);
  pu_relations : qb_relations b = rel_id <$> sel;
  pu_relation_index : inverse_index (qb_relation_index b) (rel_id <$> sel);
  pu_relation_ids : zlen sel ≤ local_ids;
  pu_ids : Forall2 (λ r row, Forall2 (local_at (qb_incidences b)) (incidences_of r) row) sel (qb_relation_incidences b);
  pu_source_ids : Forall2 (λ r row, Forall2 (local_at (qb_incidences b)) (source_side r) row) sel (qb_source_incidences b);
  pu_target_ids : Forall2 (λ r row, Forall2 (local_at (qb_incidences b)) (target_side r) row) sel (qb_target_incidences b);
  pu_sources : Forall2 (λ r row, Forall2 (local_at (qb_elements b)) (inc_element <$> source_side r) row) sel (qb_source_vertices b);
  pu_targets : Forall2 (λ r row, Forall2 (local_at (qb_elements b)) (inc_element <$> target_side r) row) sel (qb_target_vertices b);
  pu_directed : Forall directed sel
}.

Lemma Pushed_new : Pushed (HypergraphProjectionBuilder_new d) [].
Proof using Type. split; [split|..]; try apply inverse_index_empty; try constructor; done. Qed.

Definition relations_fit (sel : list RelationRecord) : Prop :=
  incidences_fit (all_incidences_of sel) ∧ zlen sel ≤ local_ids.

Lemma all_incidences_app sel k : all_incidences_of (sel ++ k) = all_incidences_of sel ++ all_incidences_of k.
Proof using Type. apply bind_app. Qed.

Lemma all_incidences_snoc sel r : all_incidences_of (sel ++ [r]) = all_incidences_of sel ++ incidences_of r.
Proof using Type. rewrite all_incidences_app. cbn. by rewrite app_nil_r. Qed.

Lemma relations_fit_prefix sel k : relations_fit (sel ++ k) → relations_fit sel.
Proof using Type.
  unfold relations_fit. rewrite all_incidences_app, zlen_app. pose proof (zlen_nonneg k).
  intros [Hi Hz]. split; [by eapply incidences_fit_prefix|lia].
Qed.

Lemma rows_mono {A B} (l k : list A) (f : B → list A) sel rows : l `prefix_of` k →
  Forall2 (λ r row, Forall2 (local_at l) (f r) row) sel rows → Forall2 (λ r row, Forall2 (local_at k) (f r) row) sel rows.
Proof using Type. intros Hp Hr. eapply Forall2_impl; [exact Hr|]. cbn. intros r row. by apply local_at_mono. Qed.

(** The sides are empty exactly when their rows are. *)
Lemma rows_directed I E r rows : RowsOf I E (incidences_of r) rows → (he_sources rows = [] ∨ he_targets rows = []) ↔ ¬ directed r.
Proof using Type.
  intros [_ _ _ Hs Ht]. apply Forall2_length in Hs, Ht. rewrite length_fmap in Hs, Ht. unfold directed.
  rewrite <-!length_zero_iff_nil, <-Hs, <-Ht, !length_zero_iff_nil. fold (source_side r) (target_side r).
  destruct (source_side r), (target_side r); naive_solver.
Qed.

Lemma hyper_push_relation_spec b sel r :
  Pushed b sel → rel_id r ∉ rel_id <$> sel → NoDup (inc_id <$> all_incidences_of (sel ++ [r])) →
  (relations_fit (sel ++ [r]) ∧ directed r ∧ ∃ b', hyper_push_relation state b r = Ok b' ∧ Pushed b' (sel ++ [r])) ∨
  (¬ directed r ∧ ∃ m, hyper_push_relation state b r = Err (invalid_projection m)) ∨
  (¬ relations_fit (sel ++ [r]) ∧ hyper_push_relation state b r = Err (id_overflow FamilyElement)).
Proof using Type.
  intros [Hst Hr Hri Hrl Hi Hsi Hti Hs Ht Hdir] Hn Hnd. unfold hyper_push_relation, relations_fit. rewrite all_incidences_snoc in *.
  assert (zlen (qb_relations b) = zlen sel) as -> by (rewrite Hr; unfold zlen; by rewrite length_fmap).
  rewrite zlen_app. change (zlen [r]) with 1. unfold projection_relation_id, from_usize. cbn [width_max]. unfold local_ids, u32_max in *.
  destruct (decide (zlen sel + 1 ≤ 2 ^ 32)) as [Hf|Hf].
  2:{ assert (try_into (2 ^ 32 - 1) (zlen sel) = None) as -> by (apply try_into_None; lia). right. right. split; [lia|done]. }
  rewrite try_into_fits by lia. cbn [ok_or mbind res_bind]. set (b0 := with_relation b (rel_id r) (zlen sel)).
  assert (Stored b0 (all_incidences_of sel)) as Hst0 by (destruct Hst; by split).
  destruct (push_participants_spec (incidences_of r) b0 no_rows (all_incidences_of sel) [] Hst0 ltac:(split; constructor) Hnd)
    as [(Hif & b1 & rows & Hrun & Hst1 & Hrows & Hsame)|(Hnf & Hrun)]; fold (incidences_of r); rewrite Hrun; cbn [mbind res_bind].
  2:{ right. right. split; [by intros [? _]|done]. }
  rewrite app_nil_l in Hrows. pose proof (rows_directed _ _ _ _ Hrows) as Hemp. case_decide as He.
  { right. left. split; [by apply Hemp|by eexists]. }
  left. split; [done|]. assert (directed r) as Hdr by (apply dec_stable; tauto). split; [done|]. eexists. split; [done|].
  destruct Hsame as (E1 & E2 & E3 & E4 & E5 & E6 & E7). destruct Hrows as [Q1 Q2 Q3 Q4 Q5].
  assert (qb_incidences b `prefix_of` qb_incidences b1) as HpI.
  { rewrite (st_incidences _ _ Hst), (st_incidences _ _ Hst1). by apply prefix_app_r. }
  assert (qb_elements b `prefix_of` qb_elements b1) as HpE.
  { rewrite (st_elements _ _ Hst), (st_elements _ _ Hst1), fmap_app. apply first_occurrences_prefix. }
  rewrite <-(st_incidences _ _ Hst1) in Q1, Q2, Q3.
  split; cbn [with_rows qb_relations qb_relation_index qb_relation_incidences qb_source_incidences qb_target_incidences
    qb_source_vertices qb_target_vertices qb_incidences qb_elements]; rewrite ?E1, ?E2, ?E3, ?E4, ?E5, ?E6, ?E7; cbn [b0 with_relation
    qb_relations qb_relation_index qb_relation_incidences qb_source_incidences qb_target_incidences qb_source_vertices qb_target_vertices].
  - rewrite all_incidences_snoc. destruct Hst1. by split.
  - by rewrite Hr, fmap_app.
  - rewrite fmap_app. replace (zlen sel) with (zlen (rel_id <$> sel)) by (unfold zlen; by rewrite length_fmap). by apply inverse_index_push.
  - rewrite zlen_app. change (zlen [r]) with 1. unfold local_ids. lia.
  - apply Forall2_app; [by eapply rows_mono|]. by constructor.
  - apply Forall2_app; [by eapply rows_mono|]. by constructor.
  - apply Forall2_app; [by eapply rows_mono|]. by constructor.
  - apply Forall2_app; [by eapply (rows_mono _ _ (λ r, inc_element <$> source_side r))|]. by constructor.
  - apply Forall2_app; [by eapply (rows_mono _ _ (λ r, inc_element <$> target_side r))|]. by constructor.
  - apply Forall_app. split; [done|]. by constructor.
Qed.

Lemma hyper_push_all rs : ∀ b sel, Pushed b sel → NoDup (rel_id <$> sel ++ rs) →
  NoDup (inc_id <$> all_incidences_of (sel ++ hyper_selected rs)) →
  let good := hyper_selected rs in
  match for_each (λ b relation,
      if relation_selected relation (hp_relation_types (qb_definition b)) then hyper_push_relation state b relation
      else Ok b) rs b with
  | Ok b' => Pushed b' (sel ++ good) ∧ relations_fit (sel ++ good)
  | Err e => ((∃ m, e = invalid_projection m) ∧ ¬ Forall directed good) ∨ (e = id_overflow FamilyElement ∧ ¬ relations_fit (sel ++ good))
  | Panic | NoFuel => False
  end.
Proof using Type.
  cbn zeta. induction rs as [|r rs IH]; intros b sel Hb Hnd Hni.
  { cbn. rewrite app_nil_r. split; [done|]. destruct Hb as [[]]. split; [|done]. split; [done|]. by rewrite <-st_elements0. }
  cbn [for_each]. unfold hyper_selected in *. rewrite filter_cons in *. fold (hyper_selected rs) in *.
  rewrite (st_definition _ _ (pu_stored _ _ Hb)).
  assert (NoDup (rel_id <$> sel ++ rs) ∧ rel_id r ∉ rel_id <$> sel) as [Hnd' Hfresh].
  { rewrite fmap_app, fmap_cons, <-Permutation_middle in Hnd. apply NoDup_cons in Hnd as [Hn ?]. rewrite fmap_app. split; [done|set_solver]. }
  destruct (relation_selected r (hp_relation_types d)) eqn:Hsel.
  2:{ rewrite decide_False in * by done. cbn [mbind res_bind]. by apply IH. }
  rewrite decide_True in * by done. rewrite (cons_middle r sel), app_assoc in Hnd, Hni |- *.
  assert (NoDup (inc_id <$> all_incidences_of (sel ++ [r]))) as Hni1.
  { rewrite all_incidences_app, fmap_app in Hni. by apply NoDup_app in Hni as [? _]. }
  destruct (hyper_push_relation_spec b sel r Hb Hfresh Hni1) as [(Hf & Hdr & b' & -> & Hb')|[(Hnd2 & m & ->)|(Hnf & ->)]]; cbn [mbind res_bind].
  - specialize (IH b' (sel ++ [r]) Hb' Hnd Hni). destruct (for_each _ rs b') as [b2|e| |]; [done| |done..].
    destruct IH as [[Hm Hbad]|IH]; [left|by right]. split; [done|]. by intros [_ ?]%Forall_cons.
  - left. split; [by eexists|]. by intros [? _]%Forall_cons.
  - right. split; [done|]. intros Hf. apply Hnf. by eapply relations_fit_prefix.
Qed.

(** ** The element rows *)

Lemma tab_lookup_row (n : nat) (E : list Z) (c e : Z) x : NoDup E → (x < length E)%nat → E !! Z.to_nat e = Some c →
  nth_id E x = c ↔ x = Z.to_nat e.
Proof using Type.
  intros Hnd Hx He. destruct (lookup_lt_is_Some_2 E x Hx) as [c' Hc]. unfold nth_id. rewrite Hc. cbn. split.
  - intros ->. by eapply NoDup_lookup.
  - intros ->. congruence.
Qed.

Lemma element_rows_pass I E index : inverse_index index E → E = first_occurrences (inc_element <$> I) →
  zlen E ≤ usize_max → zlen I ≤ local_ids →
  build_element_incidences (length E) I index =
    Ok (tab (length E) (λ x, Z.of_nat <$> positions (inc_element <$> I) (nth_id E x) (length I))).
Proof using Type.
  intros Hix HE Hm Hl. destruct (first_occurrences_spec (inc_element <$> I)) as [Hnd Hin]. rewrite <-HE in Hnd, Hin.
  unfold build_element_incidences.
  assert (∀ pre post, I = pre ++ post → for_each (λ rows (p : nat * IncidenceRecord),
      local ← projection_incidence_id (Z.of_nat p.1);
      element ← ok_or (invalid_projection "incidence element not projected") (index !! inc_element p.2);
      row ← vget rows (local_index element);
      vset rows (local_index element) (row ++ [local])) (imap (λ i r, (i, r)) pre) (replicate (length E) []) =
      Ok (tab (length E) (λ x, Z.of_nat <$> positions (inc_element <$> pre) (nth_id E x) (length pre)))) as Hpre.
  2:{ apply (Hpre I []). by rewrite app_nil_r. }
  induction pre as [|i pre IH] using rev_ind; intros post Heq.
  { cbn [imap for_each]. f_equal. unfold tab. cbn. rewrite <-(length_seq (length E) 0) at 1. generalize (seq 0 (length E)). clear.
    intros l. by induction l as [|x l IH]; [done|cbn; f_equal]. }
  rewrite imap_app, for_each_app, (IH (i :: post)) by (by rewrite <-app_assoc in Heq). cbn [mbind res_bind imap for_each fst snd].
  rewrite Nat.add_0_r. unfold projection_incidence_id, from_usize. cbn [width_max].
  assert (zlen pre < zlen I) as Hlt by (rewrite Heq; unfold zlen; rewrite !length_app; cbn; lia).
  unfold local_ids, u32_max, zlen in *. rewrite try_into_fits by lia. cbn [ok_or mbind res_bind].
  assert (inc_element i ∈ E) as [e He]%(inverse_index_elem _ _ _ Hix).
  { apply Hin. rewrite Heq, !fmap_app. cbn. set_solver. }
  rewrite He. cbn [ok_or mbind res_bind]. apply Hix in He as [He0 He]. pose proof (lookup_lt_Some _ _ _ He) as Hlt'.
  rewrite local_index_fits by lia. rewrite tab_vget by done. cbn [mbind res_bind]. rewrite tab_vset by done. cbn [mbind res_bind]. f_equal.
  apply tab_ext. intros x Hx. rewrite length_app, Nat.add_1_r, positions_S, (fmap_app inc_element), positions_app by by rewrite length_fmap.
  rewrite lookup_app_r, length_fmap, Nat.sub_diag by (rewrite length_fmap; lia). cbn [lookup list_lookup fmap list_fmap].
  pose proof (tab_lookup_row (length E) E (inc_element i) e x Hnd Hx He) as Hiff.
  destruct (decide (x = Z.to_nat e)) as [Hxe|Hxe].
  - rewrite decide_True by (f_equal; symmetry; by apply Hiff). rewrite fmap_app. by rewrite <-Hxe.
  - rewrite decide_False by (intros [= Heq2]; apply Hxe, Hiff; by rewrite Heq2). by rewrite app_nil_r.
Qed.

(** ** The directed arrays *)

Lemma unique_vertices_spec {E} (n : nat) locals : Z.of_nat n ≤ usize_max → Forall (λ v, 0 ≤ v < Z.of_nat n) locals →
  unique_vertices (E:=E) (Z.of_nat <$> seq 0 n) locals = Ok (first_occurrences locals).
Proof using Type.
  intros Hn Hl. unfold unique_vertices.
  assert (∃ seen, for_each (λ (st : gset Z * list Z) local,
      if decide (local ∈ st.1) then Ok st
      else v ← vget (Z.of_nat <$> seq 0 n) (local_index local); Ok ({[local]} ∪ st.1, st.2 ++ [v])) locals (∅, []) =
      Ok (E:=E) (seen, first_occurrences locals) ∧ ∀ x, x ∈ seen ↔ x ∈ locals) as (seen & -> & _); [|done].
  induction locals as [|v l IH] using rev_ind; [exists ∅; split; [done|set_solver]|].
  apply Forall_app in Hl as [Hl Hv]. rewrite Forall_singleton in Hv. destruct (IH Hl) as (seen & Hrun & Hseen).
  rewrite for_each_app, Hrun. cbn [mbind res_bind for_each fst snd]. rewrite first_occurrences_app. cbn [foldl]. unfold intern.
  destruct (first_occurrences_spec l) as [_ Hin]. destruct (decide (v ∈ l)) as [Hvl|Hvl].
  - rewrite decide_True by by apply Hseen. cbn [mbind res_bind]. rewrite decide_True by by apply Hin. exists seen. split; [done|set_solver].
  - rewrite decide_False by by rewrite Hseen. rewrite decide_False by by rewrite Hin. rewrite local_index_fits by lia.
    assert (vget (E:=E) (Z.of_nat <$> seq 0 n) (Z.to_nat v) = Ok v) as ->.
    { apply vget_Ok. rewrite list_lookup_fmap, lookup_seq_lt by lia. cbn. f_equal. lia. }
    cbn [mbind res_bind]. exists ({[v]} ∪ seen). split; [done|set_solver].
Qed.

Lemma unique_sorted_spec l : StronglySorted Z.lt (unique_sorted l) ∧ ∀ x, x ∈ unique_sorted l ↔ x ∈ l.
Proof using Type.
  unfold unique_sorted. split.
  - pose proof (set_iter_ascending (list_to_set l : gset Z)) as Hs. rewrite StronglySorted_lookup. rewrite StronglySorted_lookup in Hs.
    intros i j x y Hij Hx Hy. destruct (Hs i j x y Hij Hx Hy) as [Hle Hne]. cbn in Hle. lia.
  - intros x. by rewrite elem_of_set_iter, elem_of_list_to_set.
Qed.

Lemma add_vertices (n : nat) : Z.of_nat n ≤ local_ids → Z.of_nat n ≤ usize_max →
  let b := {| hb_vertex_count := Z.of_nat n; hb_hyperedges := [] |} in
  for_each (λ (st : HypergraphBuilder * list Z) (_ : nat),
      '(vertex, builder) ← map_err (λ _, id_overflow FamilyElement) (add_vertex W32 st.1);
      Ok (builder, st.2 ++ [vertex])) (seq 0 n) (HypergraphBuilder_new, []) = Ok (b, Z.of_nat <$> seq 0 n) ∧ hyper_reach W32 W32 b.
Proof using Type.
  cbn zeta. induction n as [|n IH]; [split; [done|constructor]|]. intros Hn Hm. destruct IH as [Hrun Hreach]; [lia..|].
  assert (add_vertex W32 {| hb_vertex_count := Z.of_nat n; hb_hyperedges := [] |} =
    Ok (Z.of_nat n, {| hb_vertex_count := Z.of_nat (S n); hb_hyperedges := [] |})) as Hadd.
  { unfold add_vertex, from_usize. cbn [hb_vertex_count hb_hyperedges width_max]. unfold local_ids, u32_max in *.
    rewrite try_into_fits, checked_add_fits by lia. cbn. do 3 f_equal. lia. }
  split; [|by eapply hyper_reach_vertex].
  rewrite seq_S, for_each_app, Hrun. cbn [mbind res_bind for_each fst snd]. rewrite Hadd. cbn [map_err mbind res_bind]. by rewrite fmap_app.
Qed.

(** The hyperedges the builder is given. *)
Definition unique_record (side : list Z * list Z) : HyperedgeRecord :=
  {| hr_sources := first_occurrences side.1; hr_targets := first_occurrences side.2 |}.

Lemma add_hyperedges (n : nat) (sides : list (list Z * list Z)) :
  Z.of_nat n ≤ local_ids → Z.of_nat n ≤ usize_max → zlen sides ≤ local_ids → zlen sides ≤ usize_max →
  Forall (λ s, Forall (λ v, 0 ≤ v < Z.of_nat n) s.1 ∧ Forall (λ v, 0 ≤ v < Z.of_nat n) s.2) sides →
  let b := {| hb_vertex_count := Z.of_nat n; hb_hyperedges := unique_record <$> sides |} in
  for_each (λ builder (side : list Z * list Z),
      sources ← unique_vertices (Z.of_nat <$> seq 0 n) side.1;
      targets ← unique_vertices (Z.of_nat <$> seq 0 n) side.2;
      '(_, builder) ← map_err (λ _, invalid_projection "hyperedge participants are not directed-unique")
        (add_hyperedge W32 W32 builder sources targets);
      Ok builder) sides {| hb_vertex_count := Z.of_nat n; hb_hyperedges := [] |} = Ok b ∧ hyper_reach W32 W32 b.
Proof using Type.
  cbn zeta. intros Hn Hm. destruct (add_vertices n Hn Hm) as [_ Hnew].
  induction sides as [|[s t] sides IH] using rev_ind; [done|]. rewrite zlen_app. change (zlen [(s, t)]) with 1. intros Hl Hlm Hin.
  apply Forall_app in Hin as [Hin Hst]. rewrite Forall_singleton in Hst. cbn [fst snd] in Hst. destruct Hst as [Hs Ht].
  destruct IH as [Hrun Hreach]; [lia|lia|done|]. rewrite for_each_app, Hrun. cbn [mbind res_bind for_each fst snd].
  rewrite !unique_vertices_spec by done. cbn [mbind res_bind]. set (b := {| hb_vertex_count := Z.of_nat n; hb_hyperedges := unique_record <$> sides |}) in *.
  assert (∀ l, Forall (λ v, 0 ≤ v < Z.of_nat n) l → Forall (λ v, 0 ≤ v < Z.of_nat n) (first_occurrences l) ∧ NoDup (first_occurrences l)) as Hfo.
  { intros l Hl'. destruct (first_occurrences_spec l) as [? Hi]. split; [|done]. rewrite Forall_forall in *. intros v Hv. by apply Hl', Hi. }
  destruct (Hfo s Hs) as [Hs' Hsd]. destruct (Hfo t Ht) as [Ht' Htd].
  assert (∀ l, Forall (λ v, 0 ≤ v < Z.of_nat n) l → Forall (fits W32) l) as Hfit.
  { intros l Hl'. eapply Forall_impl; [exact Hl'|]. intros v ?. unfold fits. cbn [width_max]. unfold local_ids, u32_max in *. cbn beta in *. lia. }
  assert (zlen (hb_hyperedges b) = zlen sides) as Hz by (unfold b; cbn [hb_hyperedges]; unfold zlen; by rewrite length_fmap).
  assert (add_hyperedge W32 W32 b (first_occurrences s) (first_occurrences t) = Ok (zlen sides,
    {| hb_vertex_count := Z.of_nat n; hb_hyperedges := unique_record <$> sides ++ [(s, t)] |})) as Hadd.
  { rewrite add_hyperedge_guards, Hz. pose proof (zlen_nonneg sides).
    destruct (guards_cases W32 W32 (hb_vertex_count b) (zlen sides) (first_occurrences s) (first_occurrences t)) as [[-> _]|(e & _ & _ & Hno)];
      [unfold b; cbn; lia|lia|by apply Hfit|by apply Hfit| |].
    - cbn [mbind res_bind]. unfold b. cbn. by rewrite fmap_app.
    - exfalso. apply Hno. split; [|split; [done|split; [done|]]].
      + apply Forall_app. unfold b. cbn [hb_vertex_count]. split; eapply Forall_impl; try eassumption; cbn; lia.
      + unfold fits. cbn [width_max]. unfold local_ids, u32_max in *. lia. }
  rewrite Hadd. cbn [map_err mbind res_bind]. split; [done|]. eapply hyper_reach_hyperedge; [exact Hreach| | |exact Hadd|lia]; by apply Hfit.
Qed.

Section arrays.
Context (n : nat) (ss ts : list (list Z)).
Hypothesis Hss : Forall (Forall (λ v, 0 ≤ v < Z.of_nat n)) ss.
Hypothesis Hts : Forall (Forall (λ v, 0 ≤ v < Z.of_nat n)) ts.
Hypothesis Hlen : length ts = length ss.
Hypothesis Hids : Z.of_nat n ≤ local_ids ∧ zlen ss ≤ local_ids.
Hypothesis Hmem : in_memory (Z.of_nat n) (first_occurrences <$> ss) (first_occurrences <$> ts).

(** The participants of every side fit the incidence offsets. *)
Definition sides_fit : Prop :=
  zlen (concat (first_occurrences <$> ss)) ≤ u32_max ∧ zlen (concat (first_occurrences <$> ts)) ≤ u32_max.

(** Row [v] of the four arrays. *)
Record DirectedRow (arrays : DirectedVertexArrays) (v : nat) : Prop := {
  dr_out : ∃ row, arrays.1.1.1 !! v = Some row ∧ StronglySorted Z.lt row ∧
    ∀ h, h ∈ row ↔ ∃ i s, h = Z.of_nat i ∧ ss !! i = Some s ∧ Z.of_nat v ∈ s;
  dr_in : ∃ row, arrays.1.1.2 !! v = Some row ∧ StronglySorted Z.lt row ∧
    ∀ h, h ∈ row ↔ ∃ i t, h = Z.of_nat i ∧ ts !! i = Some t ∧ Z.of_nat v ∈ t;
  dr_succ : ∃ row, arrays.1.2 !! v = Some row ∧ StronglySorted Z.lt row ∧
    ∀ y, y ∈ row ↔ ∃ i s t, ss !! i = Some s ∧ ts !! i = Some t ∧ Z.of_nat v ∈ s ∧ y ∈ t;
  dr_pred : ∃ row, arrays.2 !! v = Some row ∧ StronglySorted Z.lt row ∧
    ∀ y, y ∈ row ↔ ∃ i s t, ss !! i = Some s ∧ ts !! i = Some t ∧ Z.of_nat v ∈ t ∧ y ∈ s
}.

Notation b := {| hb_vertex_count := Z.of_nat n; hb_hyperedges := unique_record <$> zip ss ts |}.

Lemma builder_sides : sources_of b = first_occurrences <$> ss ∧ targets_of b = first_occurrences <$> ts.
Proof using Hlen.
  unfold sources_of, targets_of. cbn [hb_hyperedges]. rewrite <-!list_fmap_compose. split.
  - rewrite <-(fst_zip ss ts) at 2 by lia. by rewrite <-list_fmap_compose.
  - rewrite <-(snd_zip ss ts) at 2 by lia. by rewrite <-list_fmap_compose.
Qed.

(** The accessors of the frozen builder. *)
Lemma frozen_vertex_rows : hyper_reach W32 W32 b → sides_fit →
  ∃ t s, hyper_freeze W32 W32 W32 b = Ok t ∧ s = topology_sections W32 W32 W32 t ∧
    (∀ v, (v < n)%nat →
      frozen_outgoing_hyperedges (E:=DbError) W32 W32 W32 t (Z.of_nat v) = Ok (outs s v) ∧
      frozen_incoming_hyperedges (E:=DbError) W32 W32 W32 t (Z.of_nat v) = Ok (ins s v) ∧
      frozen_element_successors (E:=DbError) W32 W32 W32 t (Z.of_nat v) = Ok (h ← outs s v; tails s (Z.to_nat h)) ∧
      frozen_element_predecessors (E:=DbError) W32 W32 W32 t (Z.of_nat v) = Ok (h ← ins s v; heads s (Z.to_nat h)) ∧
      StronglySorted Z.lt (outs s v) ∧ StronglySorted Z.lt (ins s v) ∧
      (∀ h, h ∈ outs s v ↔ ∃ i l, h = Z.of_nat i ∧ ss !! i = Some l ∧ Z.of_nat v ∈ l) ∧
      (∀ h, h ∈ ins s v ↔ ∃ i l, h = Z.of_nat i ∧ ts !! i = Some l ∧ Z.of_nat v ∈ l)) ∧
    (∀ i l l', ss !! i = Some l → ts !! i = Some l' → (∀ y, y ∈ heads s i ↔ y ∈ l) ∧ (∀ y, y ∈ tails s i ↔ y ∈ l')).
Proof using Hlen Hids Hmem.
  intros Hreach [Hfs Hft]. destruct builder_sides as [Esrc Etgt]. pose proof (hyper_inv _ _ b Hreach) as Hinv. cbn [hb_vertex_count] in Hinv.
  assert (∀ l : list (list Z), zlen (concat l) ≤ u32_max → fits W32 (zlen (concat l))) as Hfits.
  { intros l Hl. split; [apply zlen_nonneg|exact Hl]. }
  destruct (hyper_freeze_cases W32 W32 W32 b Hreach) as [(Hf1 & Hf2 & Hrun)|(Hno & _)]; rewrite ?Esrc, ?Etgt in *; cbn [hb_vertex_count] in *;
    [done| |exfalso; apply Hno; split; by apply Hfits].
  eexists _, _. split; [exact Hrun|]. split; [done|]. set (s := topology_sections _ _ _ _).
  destruct (frozen_rows W32 W32 W32 _ _ _ Hinv Hmem s (native_holds W32 W32 W32 _ _ _ Hinv Hmem Hf1 Hf2)) as (Hok & Hv & He & Hrows & Hcols).
  assert (hyper_as_view W32 W32 W32 (built_topology (Z.of_nat n) (first_occurrences <$> ss) (first_occurrences <$> ts)) = view_of s) as Hview.
  { apply view_of_validated, Hok. }
  assert (∀ (rows : list (list Z)) v h, (∃ i l, h = Z.of_nat i ∧ (first_occurrences <$> rows) !! i = Some l ∧ v ∈ l) ↔
    ∃ i l, h = Z.of_nat i ∧ rows !! i = Some l ∧ v ∈ l) as Hfo.
  { intros rows v h. setoid_rewrite list_lookup_fmap. split.
    - intros (i & l & -> & Hl & Hin). destruct (rows !! i) as [l'|] eqn:Hr; [|done]. injection Hl as <-. exists i, l'.
      split_and!; [done..|]. by apply first_occurrences_spec.
    - intros (i & l & -> & Hl & Hin). exists i, (first_occurrences l). rewrite Hl. split_and!; [done..|]. by apply first_occurrences_spec. }
  split.
  - intros v Hvn. destruct (vertex_rows_Ok s (proj1 Hok) (E:=DbError) v) as (H1 & H2 & H3 & H4).
    { cbn [word_width native_word]. unfold fits. cbn [width_max]. unfold local_ids, u32_max in *. lia. }
    { rewrite Hv. lia. }
    unfold frozen_outgoing_hyperedges, frozen_incoming_hyperedges, frozen_element_successors, frozen_element_predecessors. rewrite Hview.
    destruct (Hcols v) as (Ho & Hi & Hoe & Hie); [lia|]. split_and!; try done; intros h; rewrite ?Hoe, ?Hie; apply Hfo.
  - intros i l l' Hl Hl'. destruct (Hrows i (first_occurrences l) (first_occurrences l')) as [-> ->]; [by rewrite list_lookup_fmap, Hl|by rewrite list_lookup_fmap, Hl'|].
    split; intros y; rewrite sort_by_key_perm; apply first_occurrences_spec.
Qed.

Lemma collect_rows (f g h k : nat → list Z) (t : FrozenHyperTopology) :
  (∀ v, (v < n)%nat →
      frozen_outgoing_hyperedges (E:=DbError) W32 W32 W32 t (Z.of_nat v) = Ok (f v) ∧
      frozen_incoming_hyperedges (E:=DbError) W32 W32 W32 t (Z.of_nat v) = Ok (g v) ∧
      frozen_element_successors (E:=DbError) W32 W32 W32 t (Z.of_nat v) = Ok (h v) ∧
      frozen_element_predecessors (E:=DbError) W32 W32 W32 t (Z.of_nat v) = Ok (k v)) →
  for_each (push_vertex_rows t) (Z.of_nat <$> seq 0 n) ([], [], [], []) =
  Ok (tab n f, tab n g, tab n (λ v, unique_sorted (h v)), tab n (λ v, unique_sorted (k v))).
Proof using Type.
  clear. intros Hrows. induction n as [|m IH]; [done|]. rewrite seq_S, fmap_app, for_each_app, IH by (intros v Hv; apply Hrows; lia).
  cbn [mbind res_bind fmap list_fmap for_each]. unfold push_vertex_rows. destruct (Hrows m) as (H1 & H2 & H3 & H4); [lia|]. rewrite Nat.add_0_l, H1, H2, H3, H4. cbn [mbind res_bind].
  unfold tab. by rewrite !seq_S, !fmap_app.
Qed.

Lemma directed_arrays :
  (sides_fit ∧ ∃ arrays, build_directed_vertex_arrays n ss ts = Ok arrays ∧ ∀ v, (v < n)%nat → DirectedRow arrays v) ∨
  (¬ sides_fit ∧ build_directed_vertex_arrays n ss ts = Err (id_overflow FamilyIncidence)).
Proof using All.
  destruct Hmem as (Hn & Hs & _). destruct Hids as [Hni Hsi]. unfold zlen in Hs. rewrite length_fmap in Hs. fold (zlen ss) in Hs.
  unfold build_directed_vertex_arrays. destruct (add_vertices n) as [-> _]; [lia..|]. cbn [mbind res_bind].
  assert (zlen (zip ss ts) = zlen ss) as Hz by (unfold zlen; rewrite length_zip_with; lia).
  destruct (add_hyperedges n (zip ss ts)) as [-> Hreach]; [lia..| |].
  { apply Forall_forall. intros [l l'] [i Hi]%list_elem_of_lookup. apply lookup_zip_with_Some in Hi as (l1 & l2 & [= -> ->] & H1 & H2).
    rewrite Forall_lookup in Hss, Hts. cbn. eauto. }
  cbn [mbind res_bind]. destruct (decide sides_fit) as [Hfit|Hno].
  - left. split; [done|]. destruct (frozen_vertex_rows Hreach Hfit) as (t & s & -> & _ & Hrows & Hends). cbn [map_err mbind res_bind].
    rewrite (collect_rows (outs s) (ins s) (λ v, h ← outs s v; tails s (Z.to_nat h)) (λ v, h ← ins s v; heads s (Z.to_nat h))).
    2:{ intros v Hv. destruct (Hrows v Hv) as (? & ? & ? & ? & _). done. }
    eexists. split; [done|]. intros v Hv. destruct (Hrows v Hv) as (_ & _ & _ & _ & Ho & Hi & Hoe & Hie).
    split; cbn [fst snd]; rewrite tab_lookup by done; eexists; (split; [done|]).
    + done.
    + done.
    + match goal with |- context [unique_sorted ?l] => destruct (unique_sorted_spec l) as [Hsort Hel] end. split; [done|].
      intros y. rewrite Hel, list_elem_of_bind. split.
      * intros (h & Hy & (i & l & -> & Hl & Hvl)%Hoe). destruct (lookup_lt_is_Some_2 ts i) as [l' Hl']; [rewrite Hlen; by eapply lookup_lt_Some|].
        exists i, l, l'. split_and!; [done..|]. rewrite Nat2Z.id in Hy. by apply (Hends i l l').
      * intros (i & l & l' & Hl & Hl' & Hvl & Hy). exists (Z.of_nat i). rewrite Nat2Z.id. split; [by apply (Hends i l l')|]. apply Hoe. by exists i, l.
    + match goal with |- context [unique_sorted ?l] => destruct (unique_sorted_spec l) as [Hsort Hel] end. split; [done|].
      intros y. rewrite Hel, list_elem_of_bind. split.
      * intros (h & Hy & (i & l' & -> & Hl' & Hvl)%Hie). destruct (lookup_lt_is_Some_2 ss i) as [l Hl]; [rewrite <-Hlen; by eapply lookup_lt_Some|].
        exists i, l, l'. split_and!; [done..|]. rewrite Nat2Z.id in Hy. by apply (Hends i l l').
      * intros (i & l & l' & Hl & Hl' & Hvl & Hy). exists (Z.of_nat i). rewrite Nat2Z.id. split; [by apply (Hends i l l')|]. apply Hie. by exists i, l'.
  - right. split; [done|]. destruct builder_sides as [Esrc Etgt].
    destruct (hyper_freeze_cases W32 W32 W32 b Hreach) as [(Hf1 & Hf2 & _)|(_ & v & -> & _)]; rewrite ?Esrc, ?Etgt in *; [done| |done].
    exfalso. apply Hno. destruct Hf1 as [_ ?], Hf2 as [_ ?]. done.
Qed.

End arrays.

(** ** The view *)

Lemma local_at_inj (E : list Z) c x y : NoDup E → local_at E c x → local_at E c y → x = y.
Proof using Type. intros Hnd [Hx0 Hx] [Hy0 Hy]. apply Z2Nat.inj; [done..|]. by eapply NoDup_lookup. Qed.

Lemma local_at_fun (E : list Z) c c' x : local_at E c x → local_at E c' x → c = c'.
Proof using Type. intros [_ Hx] [_ Hy]. congruence. Qed.

Lemma local_rows_elem (E : list Z) cs xs c x : NoDup E → Forall2 (local_at E) cs xs → local_at E c x → x ∈ xs ↔ c ∈ cs.
Proof using Type.
  intros Hnd Hl Hc. rewrite !list_elem_of_lookup. split; intros [i Hi].
  - destruct (Forall2_lookup_r _ _ _ _ _ Hl Hi) as (c' & Hc' & Hx). exists i. by rewrite (local_at_fun _ _ _ _ Hc Hx).
  - destruct (Forall2_lookup_l _ _ _ _ _ Hl Hi) as (x' & Hx' & Hx). exists i. by rewrite (local_at_inj _ _ _ _ Hnd Hc Hx).
Qed.

Lemma first_occurrences_local (E : list Z) cs xs : NoDup E → Forall2 (local_at E) cs xs →
  Forall2 (local_at E) (first_occurrences cs) (first_occurrences xs).
Proof using Type.
  intros Hnd. revert xs. induction cs as [|c cs IH] using rev_ind; intros xs Hl.
  { apply Forall2_nil_inv_l in Hl as ->. constructor. }
  apply Forall2_app_inv_l in Hl as (xs1 & xs2 & Hl1 & Hl2 & ->). apply Forall2_cons_inv_l in Hl2 as (x & xs3 & Hx & Hnil & ->).
  apply Forall2_nil_inv_l in Hnil as ->. rewrite !first_occurrences_app. cbn [foldl]. unfold intern. specialize (IH _ Hl1).
  pose proof (local_rows_elem E cs xs1 c x Hnd Hl1 Hx) as Hiff.
  destruct (first_occurrences_spec cs) as [_ Hc]. destruct (first_occurrences_spec xs1) as [_ Hx1]. destruct (decide (c ∈ cs)) as [Hin|Hout].
  - rewrite !decide_True by (by rewrite ?Hc, ?Hx1, ?Hiff). done.
  - rewrite !decide_False by (by rewrite ?Hc, ?Hx1, ?Hiff). apply Forall2_app; [done|]. by constructor.
Qed.

(** The distinct participants of a side fit the incidence offsets. *)
Definition participants_fit (sel : list RelationRecord) : Prop :=
  zlen (concat ((λ r, first_occurrences (inc_element <$> source_side r)) <$> sel)) ≤ u32_max ∧
  zlen (concat ((λ r, first_occurrences (inc_element <$> target_side r)) <$> sel)) ≤ u32_max.

Lemma side_total (E : list Z) (f : RelationRecord → list Z) sel rows : NoDup E →
  Forall2 (λ r row, Forall2 (local_at E) (f r) row) sel rows →
  length (concat ((λ r, first_occurrences (f r)) <$> sel)) = length (concat (first_occurrences <$> rows)).
Proof using Type.
  intros Hnd. induction 1 as [|r row sel rows Hr _ IH]; [done|]. rewrite !fmap_cons. cbn [concat]. rewrite !length_app, IH. f_equal.
  by apply (Forall2_length (local_at E)), first_occurrences_local.
Qed.

(** [p] materializes the relations [sel]. *)
Record HyperProjected (sel : list RelationRecord) (p : HypergraphProjectionView) : Prop := {
  hpd_relations : hv_relations p = rel_id <$> sel;
  hpd_incidences : hv_incidences p = all_incidences_of sel;
  hpd_elements : hv_elements p = first_occurrences (inc_element <$> all_incidences_of sel);
  hpd_local_elements c x : hv_local_element_id p c = Some x ↔ local_at (hv_elements p) c x;
  hpd_local_relations c x : hv_local_relation_id p c = Some x ↔ local_at (rel_id <$> sel) c x;
  hpd_local_incidences c x : hv_local_incidence_id p c = Some x ↔ local_at (inc_id <$> all_incidences_of sel) c x;
  hpd_incidence_rows k r : sel !! k = Some r → ∃ ids sids tids,
    hv_incidences_of_relation (E:=DbError) p (Z.of_nat k) = Ok ids ∧ Forall2 (local_at (hv_incidences p)) (incidences_of r) ids ∧
    hv_incidences_of_sources (E:=DbError) p (Z.of_nat k) = Ok sids ∧ Forall2 (local_at (hv_incidences p)) (source_side r) sids ∧
    hv_incidences_of_targets (E:=DbError) p (Z.of_nat k) = Ok tids ∧ Forall2 (local_at (hv_incidences p)) (target_side r) tids;
  hpd_participants k r : sel !! k = Some r → ∃ ss ts,
    hv_source_participants (E:=DbError) p (Z.of_nat k) = Ok ss ∧ Forall2 (local_at (hv_elements p)) (inc_element <$> source_side r) ss ∧
    hv_target_participants (E:=DbError) p (Z.of_nat k) = Ok ts ∧ Forall2 (local_at (hv_elements p)) (inc_element <$> target_side r) ts;
  hpd_element_rows c x : local_at (hv_elements p) c x → hv_incidences_of_element (E:=DbError) p x =
    Ok (Z.of_nat <$> positions (inc_element <$> hv_incidences p) c (length (hv_incidences p)));
  hpd_incidence j i : hv_incidences p !! j = Some i → ∃ x k,
    hv_incidence_element (E:=DbError) p (Z.of_nat j) = Ok x ∧ local_at (hv_elements p) (inc_element i) x ∧
    hv_incidence_relation (E:=DbError) p (Z.of_nat j) = Ok k ∧ local_at (rel_id <$> sel) (inc_relation i) k ∧
    hv_incidence_role (E:=DbError) p (Z.of_nat j) = Ok (inc_role i);
  hpd_vertex c x : local_at (hv_elements p) c x → ∃ out in_ succ pred,
    hv_outgoing (E:=DbError) p x = Ok out ∧ hv_incoming (E:=DbError) p x = Ok in_ ∧
    hv_element_successors (E:=DbError) p x = Ok succ ∧ hv_element_predecessors (E:=DbError) p x = Ok pred ∧
    Forall (StronglySorted Z.lt) [out; in_; succ; pred] ∧
    (∀ h, h ∈ out ↔ ∃ k r, h = Z.of_nat k ∧ sel !! k = Some r ∧ c ∈ inc_element <$> source_side r) ∧
    (∀ h, h ∈ in_ ↔ ∃ k r, h = Z.of_nat k ∧ sel !! k = Some r ∧ c ∈ inc_element <$> target_side r) ∧
    (∀ c' y, local_at (hv_elements p) c' y → y ∈ succ ↔
      ∃ r, r ∈ sel ∧ c ∈ inc_element <$> source_side r ∧ c' ∈ inc_element <$> target_side r) ∧
    (∀ c' y, local_at (hv_elements p) c' y → y ∈ pred ↔
      ∃ r, r ∈ sel ∧ c ∈ inc_element <$> target_side r ∧ c' ∈ inc_element <$> source_side r)
}.

Hypothesis Hattached : ∀ r i, i ∈ incidences_of r → inc_relation i = rel_id r.

Section finish.
Context (b : HypergraphProjectionBuilder) (sel : list RelationRecord).
Hypothesis Hb : Pushed b sel.
Hypothesis Hmem : 2 * zlen (all_incidences_of sel) < usize_max.

Lemma elements_NoDup : NoDup (qb_elements b).
Proof using Hb. rewrite (st_elements _ _ (pu_stored _ _ Hb)). apply first_occurrences_spec. Qed.

Lemma row_range (f : RelationRecord → list Z) rows :
  Forall2 (λ r row, Forall2 (local_at (qb_elements b)) (f r) row) sel rows →
  Forall (Forall (λ v, 0 ≤ v < Z.of_nat (length (qb_elements b)))) rows.
Proof using Type.
  intros Hr. apply Forall_forall. intros row [k Hk]%list_elem_of_lookup. destruct (Forall2_lookup_r _ _ _ _ _ Hr Hk) as (r & _ & Hrow).
  apply Forall_forall. intros v [i Hi]%list_elem_of_lookup. destruct (Forall2_lookup_r _ _ _ _ _ Hrow Hi) as (c & _ & H0' & Hv%lookup_lt_Some). lia.
Qed.

(** Every relation has an incidence, and every side at most its incidences. *)
Lemma sel_bounds : zlen sel ≤ zlen (all_incidences_of sel) ∧ zlen (qb_elements b) ≤ zlen (all_incidences_of sel).
Proof using Hb.
  split.
  - pose proof (pu_directed _ _ Hb) as Hd. clear -Hd. induction Hd as [|r sel [Hs _] _ IH]; [done|].
    change (all_incidences_of (r :: sel)) with (incidences_of r ++ all_incidences_of sel). rewrite zlen_app.
    assert (1 ≤ zlen (incidences_of r)); [|unfold zlen in *; cbn [length] in *; lia].
    unfold source_side in Hs. destruct (incidences_of r); [done|]. unfold zlen. cbn. lia.
  - rewrite (st_elements _ _ (pu_stored _ _ Hb)). unfold zlen. pose proof (first_occurrences_length (inc_element <$> all_incidences_of sel)) as Hl.
    rewrite length_fmap in Hl. lia.
Qed.

Lemma side_length (f : RelationRecord → list IncidenceRecord) rows : (∀ r, (length (f r) ≤ length (incidences_of r))%nat) →
  Forall2 (λ r row, Forall2 (local_at (qb_elements b)) (inc_element <$> f r) row) sel rows →
  zlen (concat (first_occurrences <$> rows)) ≤ zlen (all_incidences_of sel).
Proof using Type.
  intros Hf Hr. unfold zlen. apply inj_le. clear Hb Hmem. induction Hr as [|r row sel rows Hrow _ IH]; [done|].
  change (all_incidences_of (r :: sel)) with (incidences_of r ++ all_incidences_of sel). rewrite fmap_cons. cbn [concat]. rewrite !length_app.
  pose proof (first_occurrences_length row). apply Forall2_length in Hrow. rewrite length_fmap in Hrow. specialize (Hf r). lia.
Qed.

Notation n := (length (qb_elements b)).
Notation rows x := (tab n (λ x, Z.of_nat <$> positions (inc_element <$> qb_incidences b) (nth_id (qb_elements b) x) (length (qb_incidences b)))).

Definition view_with (arrays : DirectedVertexArrays) : HypergraphProjectionView := {|
  hv_definition := qb_definition b; hv_elements := qb_elements b; hv_element_index := qb_element_index b;
  hv_relations := qb_relations b; hv_relation_index := qb_relation_index b; hv_incidences := qb_incidences b;
  hv_incidence_index := qb_incidence_index b; hv_relation_incidences := qb_relation_incidences b;
  hv_element_incidences := tab n (λ x, Z.of_nat <$> positions (inc_element <$> qb_incidences b) (nth_id (qb_elements b) x) (length (qb_incidences b)));
  hv_source_incidences := qb_source_incidences b; hv_target_incidences := qb_target_incidences b;
  hv_source_vertices := qb_source_vertices b; hv_target_vertices := qb_target_vertices b;
  hv_outgoing_hyperedges := arrays.1.1.1; hv_incoming_hyperedges := arrays.1.1.2;
  hv_successors := arrays.1.2; hv_predecessors := arrays.2
|}.

Lemma hyper_finish_cases :
  (participants_fit sel ∧ ∃ arrays, hyper_finish b = Ok (view_with arrays) ∧
    ∀ v, (v < n)%nat → DirectedRow (qb_source_vertices b) (qb_target_vertices b) arrays v) ∨
  (¬ participants_fit sel ∧ hyper_finish b = Err (id_overflow FamilyIncidence)).
Proof using Hb Hmem.
  destruct sel_bounds as [Hb1 Hb2]. pose proof (zlen_nonneg (all_incidences_of sel)) as Hpos. pose proof Hb as [Hst Hr Hri Hrl Hi Hsi Hti Hs Ht Hdir]. pose proof Hst as [Hd He Hei HI Hii Hle Hli].
  unfold hyper_finish. rewrite element_rows_pass; [|done|by rewrite HI|lia|by rewrite HI]. cbn [mbind res_bind].
  pose proof (Forall2_length _ _ _ Hs) as Hls. pose proof (Forall2_length _ _ _ Ht) as Hlt.
  pose proof (side_length source_side _ (λ r, length_filter _ (incidences_of r)) Hs) as Hms.
  pose proof (side_length target_side _ (λ r, length_filter _ (incidences_of r)) Ht) as Hmt.
  assert (participants_fit sel ↔ sides_fit (qb_source_vertices b) (qb_target_vertices b)) as Hiff.
  { unfold participants_fit, sides_fit, zlen. by rewrite (side_total _ _ _ _ elements_NoDup Hs), (side_total _ _ _ _ elements_NoDup Ht). }
  destruct (directed_arrays n (qb_source_vertices b) (qb_target_vertices b)) as [(Hfit & arrays & -> & Hrows)|(Hno & ->)].
  - by apply (row_range (λ r, inc_element <$> source_side r)).
  - by apply (row_range (λ r, inc_element <$> target_side r)).
  - lia.
  - unfold zlen in *. lia.
  - split; [|split]; [unfold zlen in *; lia|unfold zlen in *; rewrite length_fmap; lia|lia].
  - left. split; [by apply Hiff|]. exists arrays. destruct arrays as [[[o i] s] t]. done.
  - right. split; [by rewrite Hiff|done].
Qed.

Lemma local_slot (l : list Z) c x : local_at l c x → zlen l ≤ usize_max → local_index x = Z.to_nat x ∧ (Z.to_nat x < length l)%nat.
Proof using Type. intros [Hx Hl%lookup_lt_Some] Hm. unfold zlen in Hm. rewrite local_index_fits by lia. done. Qed.

Lemma vget_row {A} (rows : list A) (P : RelationRecord → A → Prop) k r : Forall2 P sel rows → sel !! k = Some r → zlen sel ≤ usize_max →
  ∃ row, vget (E:=DbError) rows (local_relation_index (Z.of_nat k)) = Ok row ∧ P r row.
Proof using Type.
  intros Hp Hk Hm. destruct (Forall2_lookup_l _ _ _ _ _ Hp Hk) as (row & Hrow & HP). exists row. split; [|done].
  pose proof (lookup_lt_Some _ _ _ Hk). unfold zlen in Hm. change local_relation_index with local_index.
  rewrite local_index_fits, Nat2Z.id by lia. by apply vget_Ok.
Qed.

Lemma hyper_projected arrays :
  (∀ v, (v < n)%nat → DirectedRow (qb_source_vertices b) (qb_target_vertices b) arrays v) → HyperProjected sel (view_with arrays).
Proof using Hattached Hb Hmem.
  intros Harr. destruct sel_bounds as [Hb1 Hb2]. pose proof (zlen_nonneg (all_incidences_of sel)) as Hpos. pose proof elements_NoDup as Hnd.
  pose proof Hb as [Hst Hr Hri Hrl Hi Hsi Hti Hs Ht Hdir]. pose proof Hst as [Hd He Hei HI Hii Hle Hli].
  assert (zlen sel ≤ usize_max ∧ zlen (qb_elements b) ≤ usize_max) as [Hm1 Hm2] by lia.
  split; cbn [view_with hv_relations hv_incidences hv_elements]; try done.
  - intros k r Hk. destruct (vget_row _ _ k r Hi Hk Hm1) as (ids & Hids & Hi1).
    destruct (vget_row _ _ k r Hsi Hk Hm1) as (sids & Hsids & Hs1). destruct (vget_row _ _ k r Hti Hk Hm1) as (tids & Htids & Ht1).
    by exists ids, sids, tids.
  - intros k r Hk. destruct (vget_row _ _ k r Hs Hk Hm1) as (ss & Hss & Hs1). destruct (vget_row _ _ k r Ht Hk Hm1) as (ts & Hts & Ht1).
    by exists ss, ts.
  - intros c x Hc. destruct (local_slot _ _ _ Hc Hm2) as [Hx Hlt]. unfold hv_incidences_of_element. cbn [view_with hv_element_incidences].
    rewrite Hx, tab_vget by done. do 3 f_equal. destruct Hc as [_ Hc]. unfold nth_id. by rewrite Hc.
  - intros j i Hj. unfold hv_incidence_element, hv_incidence_relation, hv_incidence_role. cbn [view_with hv_incidences hv_element_index hv_relation_index].
    assert (vget (E:=DbError) (qb_incidences b) (local_incidence_index (Z.of_nat j)) = Ok i) as ->.
    { pose proof (lookup_lt_Some _ _ _ Hj) as Hlt. rewrite HI in Hlt. unfold zlen in Hmem. change local_incidence_index with local_index.
      rewrite local_index_fits, Nat2Z.id by lia. by apply vget_Ok. }
    cbn [mbind res_bind]. apply list_elem_of_lookup_2 in Hj. rewrite HI in Hj.
    assert (inc_element i ∈ qb_elements b) as [x Hx]%(inverse_index_elem _ _ _ Hei).
    { rewrite He. apply first_occurrences_spec. by apply list_elem_of_fmap_2. }
    assert (inc_relation i ∈ rel_id <$> sel) as [k Hk]%(inverse_index_elem _ _ _ Hri).
    { apply list_elem_of_bind in Hj as (r & Hin & Hrs). rewrite (Hattached r i Hin). by apply list_elem_of_fmap_2. }
    exists x, k. rewrite Hx, Hk. split_and!; [done|by apply Hei|done|by apply Hri|done].
  - intros c x Hc. destruct (local_slot _ _ _ Hc Hm2) as [Hx Hlt]. destruct (Harr _ Hlt) as [(out & Ho & Hos & Hoe) (in_ & Hin & Hins & Hine)
      (succ & Hsu & Hsus & Hsue) (pred & Hpr & Hprs & Hpre)]. exists out, in_, succ, pred.
    unfold hv_outgoing, hv_incoming, hv_element_successors, hv_element_predecessors.
    cbn [view_with hv_outgoing_hyperedges hv_incoming_hyperedges hv_successors hv_predecessors]. rewrite Hx, !vget_Ok.
    assert (Z.of_nat (Z.to_nat x) = x) as Hxx by (destruct Hc; lia). rewrite Hxx in *.
    assert (∀ (f : RelationRecord → list IncidenceRecord) rows, Forall2 (λ r row, Forall2 (local_at (qb_elements b)) (inc_element <$> f r) row) sel rows →
      ∀ i l, rows !! i = Some l → ∃ r, sel !! i = Some r ∧ ∀ c' y, local_at (qb_elements b) c' y → y ∈ l ↔ c' ∈ inc_element <$> f r) as Hfwd.
    { intros f rows Hf i l Hl. destruct (Forall2_lookup_r _ _ _ _ _ Hf Hl) as (r & Hsel & Hrow). exists r. split; [done|].
      intros c' y. by apply local_rows_elem. }
    assert (∀ i r, sel !! i = Some r → is_Some (qb_source_vertices b !! i) ∧ is_Some (qb_target_vertices b !! i)) as Hex.
    { intros i r Hsel. destruct (Forall2_lookup_l _ _ _ _ _ Hs Hsel) as (? & ? & _). destruct (Forall2_lookup_l _ _ _ _ _ Ht Hsel) as (? & ? & _). eauto. }
    split_and!; [done..|by repeat constructor| | | |].
    + intros h. rewrite Hoe. split.
      * intros (i & l & -> & Hl & Hv). destruct (Hfwd _ _ Hs i l Hl) as (r & Hsel & Hr'). exists i, r. split_and!; [done..|]. by apply (Hr' c x).
      * intros (i & r & -> & Hsel & Hv). destruct (Hex i r Hsel) as [[l Hl] _]. exists i, l. split_and!; [done..|].
        destruct (Hfwd _ _ Hs i l Hl) as (r' & Hsel' & Hr'). simplify_eq. by apply (Hr' c x).
    + intros h. rewrite Hine. split.
      * intros (i & l & -> & Hl & Hv). destruct (Hfwd _ _ Ht i l Hl) as (r & Hsel & Hr'). exists i, r. split_and!; [done..|]. by apply (Hr' c x).
      * intros (i & r & -> & Hsel & Hv). destruct (Hex i r Hsel) as [_ [l Hl]]. exists i, l. split_and!; [done..|].
        destruct (Hfwd _ _ Ht i l Hl) as (r' & Hsel' & Hr'). simplify_eq. by apply (Hr' c x).
    + intros c' y Hy. rewrite Hsue. split.
      * intros (i & l & l' & Hl & Hl' & Hv & Hyl). destruct (Hfwd _ _ Hs i l Hl) as (r & Hsel & Hr'). destruct (Hfwd _ _ Ht i l' Hl') as (r2 & Hsel2 & Hr2).
        assert (r2 = r) as -> by congruence. exists r. split; [by eapply list_elem_of_lookup_2|]. split; [by apply (Hr' c x)|by apply (Hr2 c' y)].
      * intros (r & [i Hsel]%list_elem_of_lookup & Hv & Hyl). destruct (Hex i r Hsel) as [[l Hl] [l' Hl']]. exists i, l, l'.
        destruct (Hfwd _ _ Hs i l Hl) as (r1 & Hsel1 & Hr1). destruct (Hfwd _ _ Ht i l' Hl') as (r2 & Hsel2 & Hr2). simplify_eq.
        split_and!; [done..|by apply (Hr1 c x)|by apply (Hr2 c' y)].
    + intros c' y Hy. rewrite Hpre. split.
      * intros (i & l & l' & Hl & Hl' & Hv & Hyl). destruct (Hfwd _ _ Hs i l Hl) as (r & Hsel & Hr'). destruct (Hfwd _ _ Ht i l' Hl') as (r2 & Hsel2 & Hr2).
        assert (r2 = r) as -> by congruence. exists r. split; [by eapply list_elem_of_lookup_2|]. split; [by apply (Hr2 c x)|by apply (Hr' c' y)].
      * intros (r & [i Hsel]%list_elem_of_lookup & Hv & Hyl). destruct (Hex i r Hsel) as [[l Hl] [l' Hl']]. exists i, l, l'.
        destruct (Hfwd _ _ Hs i l Hl) as (r1 & Hsel1 & Hr1). destruct (Hfwd _ _ Ht i l' Hl') as (r2 & Hsel2 & Hr2). simplify_eq.
        split_and!; [done..|by apply (Hr2 c x)|by apply (Hr1 c' y)].
Qed.

End finish.

(** ** The projection of a state *)

Section projection.
Context (rs : list RelationRecord).
Hypothesis Hrs : state_relations state = Ok rs.
Hypothesis Hids : NoDup (rel_id <$> rs).
Hypothesis Hincs : NoDup (inc_id <$> all_incidences_of (hyper_selected rs)).
Hypothesis Hmem : 2 * zlen (all_incidences_of (hyper_selected rs)) < usize_max.

Lemma hyper_from_state_cases :
  let sel := hyper_selected rs in
  match hyper_from_state state d with
  | Ok p => hp_source_roles d ≠ ∅ ∧ hp_target_roles d ≠ ∅ ∧ Forall directed sel ∧ relations_fit sel ∧ participants_fit sel ∧
      hv_definition p = d ∧ HyperProjected sel p
  | Err e => ((∃ m, e = invalid_projection m) ∧ (hp_source_roles d = ∅ ∨ hp_target_roles d = ∅ ∨ ¬ Forall directed sel)) ∨
      ((∃ family, e = id_overflow family) ∧ ¬ (relations_fit sel ∧ participants_fit sel))
  | Panic | NoFuel => False
  end.
Proof using All.
  cbn zeta. unfold hyper_from_state. case_decide as Hroles.
  { left. split; [by eexists|]. tauto. }
  rewrite Hrs. cbn [mbind res_bind].
  pose proof (hyper_push_all rs _ [] Pushed_new Hids Hincs) as Hl. cbn zeta in Hl. rewrite !app_nil_l in Hl.
  destruct (for_each _ rs _) as [b|e| |]; cbn [mbind res_bind]; [| |done..].
  2:{ destruct Hl as [[Hm Hbad]|[-> Hov]]; [left|right]; (split; [by (done || eexists)|tauto]). }
  destruct Hl as [Hb Hfit]. destruct (hyper_finish_cases b _ Hb Hmem) as [(Hpf & arrays & -> & Harr)|(Hno & ->)].
  - split_and!; [tauto|tauto|apply Hb|done|done|apply Hb|]. by apply hyper_projected.
  - right. split; [by eexists|tauto].
Qed.

(** C31. A hypergraph projection of a state never panics. It succeeds exactly when
    both role sets are inhabited, every relation of the selected types has a
    participant on each side and the local ids fit; a missing side or an empty
    role set is [InvalidProjection], exhausted ids are an overflow. The view then
    holds the selected relations with all their incidences in the order of the
    state, its local ids lead to the canonical ids and back, every relation lists
    its incidences and participants by side, every element its incidences, and
    the adjacency arrays list, ascending and once each, exactly the hyperedges an
    element is a source or a target of and the elements one directed hop away. *)
Theorem hyper_projection_exact :
  let sel := hyper_selected rs in
  match hyper_from_state state d with
  | Ok p => hp_source_roles d ≠ ∅ ∧ hp_target_roles d ≠ ∅ ∧ Forall directed sel ∧ relations_fit sel ∧ participants_fit sel ∧
      hv_definition p = d ∧ HyperProjected sel p
  | Err e => ((∃ m, e = invalid_projection m) ∧ (hp_source_roles d = ∅ ∨ hp_target_roles d = ∅ ∨ ¬ Forall directed sel)) ∨
      ((∃ family, e = id_overflow family) ∧ ¬ (relations_fit sel ∧ participants_fit sel))
  | Panic | NoFuel => False
  end.
Proof using All. exact hyper_from_state_cases. Qed.

End projection.
End hyper_projection.

(** ** A concrete projection *)

(** Relation 20: {7, 7} → {5}; relation 21: {5} → {9, 7}. *)
Definition demo_hyper_state : record_state := {|
  rs_relations := demo_relation <$> [20; 21];
  rs_incidences := [demo_incidence 1 20 7 0; demo_incidence 2 20 7 0; demo_incidence 3 20 5 1; demo_incidence 4 21 5 0;
    demo_incidence 5 21 9 1; demo_incidence 6 21 7 1]
|}.
Definition demo_hyper_definition : HypergraphProjectionDefinition :=
  {| hp_name := []; hp_relation_types := ∅; hp_source_roles := {[0]}; hp_target_roles := {[1]} |}.

Lemma hyper_projection_exact_witness :
  match hyper_from_state (H := target64) demo_hyper_state demo_hyper_definition with
  | Ok p => HyperProjected demo_hyper_state demo_hyper_definition (H := target64) (rs_relations demo_hyper_state) p ∧ hv_elements p = [7; 5; 9] ∧
      hv_source_vertices p = [[0; 0]; [1]] ∧ hv_successors p = [[1]; [0; 2]; []] ∧ hv_outgoing_hyperedges p = [[0]; [1]; []]
  | _ => False
  end.
Proof.
  assert (match hyper_from_state (H := target64) demo_hyper_state demo_hyper_definition with
    | Ok p => hv_elements p = [7; 5; 9] ∧ hv_source_vertices p = [[0; 0]; [1]] ∧ hv_successors p = [[1]; [0; 2]; []] ∧
        hv_outgoing_hyperedges p = [[0]; [1]; []]
    | _ => False end) as Hrun by (vm_compute; done).
  pose proof (hyper_projection_exact (H := target64) demo_hyper_state demo_hyper_definition) as Hh.
  cbn zeta in Hh. destruct (hyper_from_state demo_hyper_state demo_hyper_definition) as [p| | |]; [|done..].
  split; [|exact Hrun]. destruct (Hh (λ r i Hi, proj1 (proj1 (list_elem_of_filter _ _ _) Hi)) (rs_relations demo_hyper_state) eq_refl) as (_ & _ & _ & _ & _ & _ & Hp).
  - cbn. repeat (constructor; [set_solver|]). constructor.
  - apply (bool_decide_eq_true_1 (NoDup (inc_id <$> rs_incidences demo_hyper_state))). vm_compute. reflexivity.
  - vm_compute. reflexivity.
  - exact Hp.
Defined.
