(* ===== verification/Query.v ===== *)
(** * Query: the OxQL query language

    Models [crates/oxgraph-db/src/query.rs] and the value tokens of
    [crates/oxgraph-db/src/value.rs]: splitting a query into tokens, the
    recursive-descent parser with its cursor, the binding of names against the
    catalog, the physical plans and their execution over a state. Text is its
    UTF-8 bytes. The recursion of the predicate parser takes fuel. The plan
    explanations ([explain]) are not modelled. *)

From Stdlib Require Import String.
From stdpp Require Import base gmap sets list strings.
From S2P Require Import Prelude Bytes Ordered Layout DbError DbWire DbState OverlayIndex Overlay Merge Projection Traversal.

Local Open Scope Z_scope.

(** ** Text *)

Definition text_of (s : string) : list byte := list_byte_of_string s.
Definition message (prefix : string) (name : list byte) : string := (prefix ++ string_of_list_byte name)%string.

(** The characters of the Unicode [White_Space] property, encoded. *)
Definition WHITE_SPACE : list (list byte) :=
  [ [Byte.x09]; [Byte.x0a]; [Byte.x0b]; [Byte.x0c]; [Byte.x0d]; [Byte.x20]; [Byte.xc2; Byte.x85]; [Byte.xc2; Byte.xa0];
    [Byte.xe1; Byte.x9a; Byte.x80]; [Byte.xe2; Byte.x80; Byte.x80]; [Byte.xe2; Byte.x80; Byte.x81];
    [Byte.xe2; Byte.x80; Byte.x82]; [Byte.xe2; Byte.x80; Byte.x83]; [Byte.xe2; Byte.x80; Byte.x84];
    [Byte.xe2; Byte.x80; Byte.x85]; [Byte.xe2; Byte.x80; Byte.x86]; [Byte.xe2; Byte.x80; Byte.x87];
    [Byte.xe2; Byte.x80; Byte.x88]; [Byte.xe2; Byte.x80; Byte.x89]; [Byte.xe2; Byte.x80; Byte.x8a];
    [Byte.xe2; Byte.x80; Byte.xa8]; [Byte.xe2; Byte.x80; Byte.xa9]; [Byte.xe2; Byte.x80; Byte.xaf];
    [Byte.xe2; Byte.x81; Byte.x9f]; [Byte.xe3; Byte.x80; Byte.x80] ].

(** The length of the character of [chars] the text starts with, or 0. *)
Definition leading (chars : list (list byte)) (text : list byte) : nat :=
  match filter (λ c, c `prefix_of` text) chars with c :: _ => List.length c | [] => 0 end.

(** [trim_start]; [skip] bytes of a white-space character are left to pass. *)
Fixpoint trim_leading (chars : list (list byte)) (skip : nat) (text : list byte) : list byte :=
  match text, skip with
  | [], _ => []
  | _ :: rest, S skip => trim_leading chars skip rest
  | _ :: rest, O =>
      match leading chars text with
      | S skip => trim_leading chars skip rest
      | O => text
      end
  end.

(** [str::trim]. *)
Definition trim (text : list byte) : list byte :=
  reverse (trim_leading (reverse <$> WHITE_SPACE) 0 (reverse (trim_leading WHITE_SPACE 0 text))).

Definition flush (token : list byte) : list (list byte) := if decide (token = []) then [] else [token].

(** [str::split_whitespace]: [token] is the token under way. *)
Fixpoint split_tokens (skip : nat) (token text : list byte) : list (list byte) :=
  match text, skip with
  | [], _ => flush token
  | _ :: rest, S skip => split_tokens skip token rest
  | b :: rest, O =>
      match leading WHITE_SPACE text with
      | S skip => flush token ++ split_tokens skip [] rest
      | O => split_tokens 0 (token ++ [b]) rest
      end
  end.

Definition split_whitespace (text : list byte) : list (list byte) := split_tokens 0 [] text.

(** [to_ascii_uppercase]. *)
Definition upper_byte (b : byte) : byte :=
  if decide (97 ≤ byte_val b ≤ 122) then byte_of (byte_val b - 32) else b.
Definition to_ascii_uppercase (text : list byte) : list byte := upper_byte <$> text.

(** [from_str] of an integer of the range [min, max]: digits after a sign. *)
Definition digit_of (b : byte) : option Z :=
  if decide (48 ≤ byte_val b ≤ 57) then Some (byte_val b - 48) else None.

Fixpoint parse_digits (min max sign acc : Z) (text : list byte) : option Z :=
  match text with
  | [] => Some acc
  | b :: rest =>
      digit ← digit_of b;
      let next := acc * 10 + sign * digit in
      if decide (min ≤ next ≤ max) then parse_digits min max sign next rest else None
  end.

Definition parse_integer (min max : Z) (text : list byte) : option Z :=
  match text with
  | [] => None
  | [Byte.x2b] | [Byte.x2d] => None
  | Byte.x2b :: rest => parse_digits min max 1 0 rest
  | Byte.x2d :: rest => if decide (min < 0) then parse_digits min max (-1) 0 rest else None
  | _ => parse_digits min max 1 0 text
  end.

Definition strip_prefix (c : byte) (text : list byte) : option (list byte) :=
  match text with b :: rest => if decide (b = c) then Some rest else None | [] => None end.
Definition strip_suffix (c : byte) (text : list byte) : option (list byte) :=
  reverse <$> strip_prefix c (reverse text).

(** One single- or double-quoted token; the error is the token. *)
Definition parse_quoted (token : list byte) : res (list byte) (list byte) :=
  let single := text ← strip_prefix Byte.x27 token; strip_suffix Byte.x27 text in
  let double := text ← strip_prefix Byte.x22 token; strip_suffix Byte.x22 text in
  match single with
  | Some value => Ok value
  | None => match double with Some value => Ok value | None => Err token end
  end.

Definition i64_min : Z := - 2 ^ 63.

Definition parse_value_token (token : list byte) : res (list byte) PropertyValue :=
  let trimmed := trim token in
  if decide (trimmed = text_of "true") then Ok (PBoolean true)
  else if decide (trimmed = text_of "false") then Ok (PBoolean false)
  else match parse_integer i64_min (2 ^ 63 - 1) trimmed with
       | Some value => Ok (PInteger value)
       | None => value ← parse_quoted trimmed; Ok (PText value)
       end.

(** ** Operators and predicates *)

Inductive CompareOp := OpEq | OpLt | OpLe | OpGt | OpGe.
#[export] Instance compare_op_eq_dec : EqDecision CompareOp.
Proof. solve_decision. Defined.

Definition value_cmp (a b : PropertyValue) : comparison :=
  if decide (a = b) then Eq else if decide (key_lt a b) then Lt else Gt.

Definition op_matches (op : CompareOp) (ordering : comparison) : bool :=
  match op, ordering with
  | OpEq, Eq | OpLt, Lt | OpLe, (Lt | Eq) | OpGt, Gt | OpGe, (Gt | Eq) => true
  | _, _ => false
  end.

Definition spelling (op : CompareOp) : list byte :=
  match op with
  | OpEq => text_of "=" | OpLt => text_of "<" | OpLe => text_of "<=" | OpGt => text_of ">" | OpGe => text_of ">="
  end.

Inductive LogicalPredicate :=
  | LCompare (key : list byte) (op : CompareOp) (value : list byte)
  | LAnd (left right : LogicalPredicate)
  | LOr (left right : LogicalPredicate).

Inductive BoundPredicate :=
  | BCompare (key : list byte) (key_id : Z) (op : CompareOp) (value : PropertyValue)
  | BAnd (left right : BoundPredicate)
  | BOr (left right : BoundPredicate).

Inductive LogicalOp :=
  | LElementScan | LRelationScan | LIncidenceScan | LCatalogScan
  | LElementLabelScan (label : list byte)
  | LRelationTypeScan (relation_type : list byte)
  | LElementPropertyEqual (key value : list byte)
  | LGraphWalk (projection element : list byte) (options : Walk)
  | LElementWhere (predicate : LogicalPredicate).

Inductive QueryPlan :=
  | PElementScan | PRelationScan | PIncidenceScan
  | PElementLabelScan (label : list byte) (label_id : Z)
  | PElementPropertyEqual (key : list byte) (key_id : Z) (value : PropertyValue)
  | PElementFilter (predicate : BoundPredicate)
  | PRelationTypeScan (relation_type : list byte) (relation_type_id : Z)
  | PGraphWalk (projection element : Z) (options : Walk)
  | PCatalogScan.

Inductive QueryValue :=
  | QElement (id : Z) | QRelation (id : Z) | QIncidence (record : IncidenceRecord) | QSubject (subject : PropertySubject)
  | QProperty (value : PropertyValue) | QText (text : list byte) | QProjection (id : Z).

Definition QueryRow : Type := list QueryValue.
Definition QueryResult : Type := list QueryRow.
Definition row_single (value : QueryValue) : QueryRow := [value].

Record PreparedQuery := { pq_text : list byte; pq_plan : QueryPlan }.

(** ** Parsing *)

Definition parse_compare_op (token : list byte) : res DbError CompareOp :=
  if decide (token = text_of "=") then Ok OpEq
  else if decide (token = text_of "<") then Ok OpLt
  else if decide (token = text_of "<=") then Ok OpLe
  else if decide (token = text_of ">") then Ok OpGt
  else if decide (token = text_of ">=") then Ok OpGe
  else Err (unsupported "comparison operator must be =, <, <=, >, or >=").

Section predicates.
Context (tokens upper : list (list byte)).

(** A predicate, and the cursor after it. *)
Definition parse_comparison (cursor : nat) : res DbError (LogicalPredicate * nat) :=
  key ← ok_or (unsupported "expected property key in WHERE predicate") (tokens !! cursor);
  operator ← ok_or (unsupported "expected comparison operator in WHERE predicate") (tokens !! (cursor + 1)%nat);
  value ← ok_or (unsupported "expected value in WHERE predicate") (tokens !! (cursor + 2)%nat);
  op ← parse_compare_op operator;
  Ok (LCompare key op value, (cursor + 3)%nat).

(** [upper.get(cursor) == Some(keyword)]. *)
Definition at_keyword (keyword : string) (cursor : nat) : bool := bool_decide (upper !! cursor = Some (text_of keyword)).

(** [parse_predicate_or] parses a conjunction and enters its loop, [or_loop];
    [parse_predicate_and] likewise. *)
Fixpoint parse_predicate_or (fuel cursor : nat) : res DbError (LogicalPredicate * nat) :=
  match fuel with
  | O => NoFuel
  | S fuel => '(lhs, cursor) ← parse_predicate_and fuel cursor; or_loop fuel lhs cursor
  end
with or_loop (fuel : nat) (lhs : LogicalPredicate) (cursor : nat) : res DbError (LogicalPredicate * nat) :=
  match fuel with
  | O => NoFuel
  | S fuel =>
      if at_keyword "OR" cursor then
        '(rhs, cursor) ← parse_predicate_and fuel (cursor + 1); or_loop fuel (LOr lhs rhs) cursor
      else Ok (lhs, cursor)
  end
with parse_predicate_and (fuel cursor : nat) : res DbError (LogicalPredicate * nat) :=
  match fuel with
  | O => NoFuel
  | S fuel => '(lhs, cursor) ← parse_predicate_factor fuel cursor; and_loop fuel lhs cursor
  end
with and_loop (fuel : nat) (lhs : LogicalPredicate) (cursor : nat) : res DbError (LogicalPredicate * nat) :=
  match fuel with
  | O => NoFuel
  | S fuel =>
      if at_keyword "AND" cursor then
        '(rhs, cursor) ← parse_predicate_factor fuel (cursor + 1); and_loop fuel (LAnd lhs rhs) cursor
      else Ok (lhs, cursor)
  end
with parse_predicate_factor (fuel cursor : nat) : res DbError (LogicalPredicate * nat) :=
  match fuel with
  | O => NoFuel
  | S fuel =>
      if decide (tokens !! cursor = Some (text_of "(")) then
        '(inner, cursor) ← parse_predicate_or fuel (cursor + 1);
        if decide (tokens !! cursor ≠ Some (text_of ")")) then
          Err (unsupported "unbalanced parentheses in WHERE predicate")
        else Ok (inner, (cursor + 1)%nat)
      else parse_comparison cursor
  end.

(** Every call of the recursion that consumes no token goes down one of the
    three levels. *)
Definition predicate_fuel : nat := 4 * List.length tokens + 4.

Definition parse_element_where : res DbError LogicalOp :=
  '(predicate, cursor) ← parse_predicate_or predicate_fuel 0;
  if decide (cursor ≠ List.length tokens) then Err (unsupported "trailing tokens after WHERE predicate")
  else match predicate with
       | LCompare key OpEq value => Ok (LElementPropertyEqual key value)
       | predicate => Ok (LElementWhere predicate)
       end.

End predicates.

Definition parse_walk_direction (direction : list byte) : res DbError Direction :=
  if decide (direction = text_of "OUTGOING") then Ok DirOutgoing
  else if decide (direction = text_of "INCOMING") then Ok DirIncoming
  else if decide (direction = text_of "BOTH") then Ok DirBoth
  else Err (unsupported "walk direction must be outgoing, incoming, or both").

Definition with_direction (options : Walk) (direction : Direction) : Walk := {|
  walk_max_depth := walk_max_depth options; walk_direction := direction; walk_limit := walk_limit options;
  walk_include_start := walk_include_start options |}.
Definition with_limit (options : Walk) (limit : Z) : Walk := {|
  walk_max_depth := walk_max_depth options; walk_direction := walk_direction options; walk_limit := limit;
  walk_include_start := walk_include_start options |}.
Definition with_max_depth (options : Walk) (depth : Z) : Walk := {|
  walk_max_depth := depth; walk_direction := walk_direction options; walk_limit := walk_limit options;
  walk_include_start := walk_include_start options |}.

Section parsing.
Context `{!Target}.

(** The loop over the option clauses, two tokens at a time. *)
Fixpoint walk_options (fuel : nat) (tokens upper : list (list byte)) (index : nat) (options : Walk)
    (saw_direction saw_limit : bool) : res DbError Walk :=
  match fuel with
  | O => NoFuel
  | S fuel =>
      if decide (List.length tokens ≤ index)%nat then Ok options
      else
        value ← ok_or (unsupported "walk option requires a value") (tokens !! (index + 1)%nat);
        option ← vget upper index;
        if decide (option = text_of "DIRECTION") then
          if saw_direction then Err (unsupported "walk direction specified twice")
          else
            spelled ← vget upper (index + 1)%nat;
            direction ← parse_walk_direction spelled;
            walk_options fuel tokens upper (index + 2) (with_direction options direction) true saw_limit
        else if decide (option = text_of "LIMIT") then
          if saw_limit then Err (unsupported "walk limit specified twice")
          else
            limit ← ok_or (unsupported "walk limit must be an integer") (parse_integer 0 usize_max value);
            walk_options fuel tokens upper (index + 2) (with_limit options limit) saw_direction true
        else Err (unsupported "unsupported walk option")
  end.

Definition parse_graph_walk (tokens upper : list (list byte)) : res DbError LogicalOp :=
  depth ← vget tokens 6;
  max_depth ← ok_or (unsupported "walk depth must be an integer") (parse_integer 0 usize_max depth);
  options ← walk_options (S (List.length tokens)) tokens upper 7 (with_max_depth Walk_default max_depth) false false;
  projection ← vget tokens 1;
  element ← vget tokens 4;
  Ok (LGraphWalk projection element options).

(** A slice pattern: the words a token must be, [None] for any. *)
Definition slot_matches (slot : option string) (token : list byte) : bool :=
  match slot with Some word => bool_decide (token = text_of word) | None => true end.

Fixpoint matches (pattern : list (option string)) (upper : list (list byte)) : bool :=
  match pattern, upper with
  | [], [] => true
  | slot :: pattern, token :: upper => slot_matches slot token && matches pattern upper
  | _, _ => false
  end.

(** The same with [..] at its end. *)
Fixpoint matches_front (pattern : list (option string)) (upper : list (list byte)) : bool :=
  match pattern, upper with
  | [], _ => true
  | slot :: pattern, token :: upper => slot_matches slot token && matches_front pattern upper
  | _, [] => false
  end.

Definition parse_oxql (query : list byte) : res DbError LogicalOp :=
  let tokens := split_whitespace query in
  let upper := to_ascii_uppercase <$> tokens in
  if matches_front [Some "MATCH"; Some "ELEMENTS"; Some "WHERE"] upper then
    parse_element_where (drop 3 tokens) (drop 3 upper)
  else if matches [Some "CATALOG"] upper then Ok LCatalogScan
  else if matches [Some "MATCH"; Some "ELEMENTS"] upper then Ok LElementScan
  else if matches [Some "MATCH"; Some "RELATIONS"] upper then Ok LRelationScan
  else if matches [Some "MATCH"; Some "INCIDENCES"] upper then Ok LIncidenceScan
  else if matches [Some "MATCH"; Some "ELEMENTS"; Some "HAS"; Some "LABEL"; None] upper then
    label ← vget tokens 4; Ok (LElementLabelScan label)
  else if matches [Some "MATCH"; Some "RELATIONS"; Some "TYPE"; None] upper then
    relation_type ← vget tokens 3; Ok (LRelationTypeScan relation_type)
  else if matches [Some "GRAPH"; None; Some "NEIGHBORS"; None] upper then
    projection ← vget tokens 1;
    element ← vget tokens 3;
    Ok (LGraphWalk projection element Walk_default)
  else if matches_front [Some "GRAPH"; None; Some "WALK"; Some "FROM"; None; Some "DEPTH"; None] upper then
    parse_graph_walk tokens upper
  else Err (unsupported "unsupported OxQL profile query").

(** ** Binding *)

Section states.
Context `{OverlayLayer L} (state : LayeredState L).

(** The key and the value of a comparison with an element property. *)
Definition bind_comparison (key value : list byte) : res DbError (Z * PropertyValue) :=
  key_id ← ok_or (unsupported (message "unknown property key " key)) (property_key_names (view_catalog state) !! key);
  value ← map_err (λ token, unsupported (message "" token)) (parse_value_token value);
  _ ← validate_lookup_value_for_family state key_id FamElement value;
  Ok (key_id, value).

Fixpoint bind_predicate (predicate : LogicalPredicate) : res DbError BoundPredicate :=
  match predicate with
  | LCompare key op value => '(key_id, value) ← bind_comparison key value; Ok (BCompare key key_id op value)
  | LAnd lhs rhs => l ← bind_predicate lhs; r ← bind_predicate rhs; Ok (BAnd l r)
  | LOr lhs rhs => l ← bind_predicate lhs; r ← bind_predicate rhs; Ok (BOr l r)
  end.

Definition lower_graph_walk (projection element : list byte) (options : Walk) : res DbError QueryPlan :=
  projection ← ok_or (unsupported (message "unknown projection " projection))
                 (projection_names (view_catalog state) !! projection);
  entry ← ok_or (unknown FamilyProjection projection) (projections (view_catalog state) !! projection);
  match projection_definition entry with
  | HypergraphProjection _ => Err (invalid_projection "projection is not a graph")
  | GraphProjection _ =>
      raw ← ok_or (unsupported "element id must be an integer") (parse_integer 0 u64_max element);
      Ok (PGraphWalk projection raw options)
  end.

Definition bind_and_lower (op : LogicalOp) : res DbError QueryPlan :=
  match op with
  | LElementScan => Ok PElementScan
  | LRelationScan => Ok PRelationScan
  | LIncidenceScan => Ok PIncidenceScan
  | LCatalogScan => Ok PCatalogScan
  | LElementLabelScan label =>
      label_id ← ok_or (unsupported (message "unknown label " label)) (label_names (view_catalog state) !! label);
      Ok (PElementLabelScan label label_id)
  | LRelationTypeScan relation_type =>
      relation_type_id ← ok_or (unsupported (message "unknown relation type " relation_type))
                           (relation_type_names (view_catalog state) !! relation_type);
      Ok (PRelationTypeScan relation_type relation_type_id)
  | LElementPropertyEqual key value =>
      '(key_id, value) ← bind_comparison key value; Ok (PElementPropertyEqual key key_id value)
  | LGraphWalk projection element options => lower_graph_walk projection element options
  | LElementWhere predicate => predicate ← bind_predicate predicate; Ok (PElementFilter predicate)
  end.

Definition prepare (query : list byte) : res DbError PreparedQuery :=
  let trimmed := trim query in
  if decide (trimmed = []) then Err (Query QueryEmpty)
  else
    logical ← parse_oxql trimmed;
    plan ← bind_and_lower logical;
    Ok {| pq_text := trimmed; pq_plan := plan |}.

(** ** Execution *)

Fixpoint evaluate (predicate : BoundPredicate) (element : Z) : bool :=
  match predicate with
  | BCompare _ key_id op value =>
      match view_property state (SElement element) key_id with
      | Some actual => op_matches op (value_cmp actual value)
      | None => false
      end
  | BAnd lhs rhs => evaluate lhs element && evaluate rhs element
  | BOr lhs rhs => evaluate lhs element || evaluate rhs element
  end.

Definition scan_elements : res DbError QueryResult :=
  '(rs : list ElementRecord) ← view_elements state; Ok ((λ r, row_single (QElement (el_id r))) <$> rs).
Definition scan_relations : res DbError QueryResult :=
  '(rs : list RelationRecord) ← view_relations state; Ok ((λ r, row_single (QRelation (rel_id r))) <$> rs).
Definition scan_incidences : res DbError QueryResult :=
  '(rs : list IncidenceRecord) ← view_incidences state; Ok ((λ r, row_single (QIncidence r)) <$> rs).

Definition scan_elements_with_label (label : Z) : QueryResult :=
  (λ id, row_single (QElement id)) <$> view_elements_with_label state label.
Definition scan_relations_with_type (relation_type : Z) : QueryResult :=
  (λ id, row_single (QRelation id)) <$> view_relations_with_type state relation_type.

Definition element_row (subject : PropertySubject) : option QueryRow :=
  match subject with SElement id => Some (row_single (QElement id)) | SRelation _ | SIncidence _ => None end.

Definition scan_elements_with_property (key : Z) (value : PropertyValue) : res DbError QueryResult :=
  '(subjects : list PropertySubject) ← typed_property_equal_for_family state key FamElement value;
  Ok (omap element_row subjects).

Definition filter_elements (predicate : BoundPredicate) : res DbError QueryResult :=
  '(rs : list ElementRecord) ← view_elements state;
  Ok ((λ r, row_single (QElement (el_id r))) <$> filter (λ r, evaluate predicate (el_id r) = true) rs).

Definition scan_catalog : QueryResult :=
  (λ entry, [QProjection (projection_id entry); QText (projection_name (projection_definition entry))]) <$>
    (snd <$> map_iter (projections (view_catalog state))).

(** [graph_projection], also [Reader::graph_projection]. *)
Definition graph_projection (projection : Z) : res DbError GraphProjectionView :=
  entry ← ok_or (unknown FamilyProjection projection) (projections (view_catalog state) !! projection);
  match projection_definition entry with
  | GraphProjection definition => graph_from_state state definition
  | HypergraphProjection _ => Err (invalid_projection "projection is not a graph")
  end.

Definition execute_graph_walk (projection element : Z) (options : Walk) : res DbError QueryResult :=
  graph ← graph_projection projection;
  subgraph ← walk_graph_projection graph [element] options;
  Ok ((λ node, row_single (QElement (tn_element node))) <$> sg_nodes subgraph).

Definition execute (plan : QueryPlan) : res DbError QueryResult :=
  match plan with
  | PElementScan => scan_elements
  | PRelationScan => scan_relations
  | PIncidenceScan => scan_incidences
  | PElementLabelScan _ label_id => Ok (scan_elements_with_label label_id)
  | PElementPropertyEqual _ key_id value => scan_elements_with_property key_id value
  | PElementFilter predicate => filter_elements predicate
  | PRelationTypeScan _ relation_type_id => Ok (scan_relations_with_type relation_type_id)
  | PGraphWalk projection element options => execute_graph_walk projection element options
  | PCatalogScan => Ok scan_catalog
  end.

End states.
End parsing.
