(* ===== verification/QueryFacts.v ===== *)
(** * QueryFacts: the predicate parser and its grammar

    [derives]: the grammar of [WHERE] predicates over tokens, with the
    precedence and the associativity of the comments of
    [crates/oxgraph-db/src/query.rs]. Theorems: the recursive-descent parser
    accepts exactly this grammar and always ends, and a rendered query is
    parsed back. *)

From Stdlib Require Import String.
From stdpp Require Import base gmap sets list strings.
From S2P Require Import Prelude Bytes Ordered Layout DbError DbWire DbState OverlayIndex Overlay Merge Projection Traversal Query.

Local Open Scope Z_scope.

(** ** The grammar *)

Inductive Level := LevelOr | LevelAnd | LevelFactor.

Definition is_keyword (word : string) (token : list byte) : Prop := to_ascii_uppercase token = text_of word.

Inductive derives : Level → list (list byte) → LogicalPredicate → Prop :=
  | derives_or_and ts p : derives LevelAnd ts p → derives LevelOr ts p
  | derives_or l k r p q :
      derives LevelOr l p → is_keyword "OR" k → derives LevelAnd r q → derives LevelOr (l ++ k :: r) (LOr p q)
  | derives_and_factor ts p : derives LevelFactor ts p → derives LevelAnd ts p
  | derives_and l k r p q :
      derives LevelAnd l p → is_keyword "AND" k → derives LevelFactor r q → derives LevelAnd (l ++ k :: r) (LAnd p q)
  | derives_group ts p : derives LevelOr ts p → derives LevelFactor (text_of "(" :: ts ++ [text_of ")"]) p
  | derives_compare key op value :
      key ≠ text_of "(" → derives LevelFactor [key; spelling op; value] (LCompare key op value).

(** The operation of a predicate: a lone equality goes to the index. *)
Definition where_op (p : LogicalPredicate) : LogicalOp :=
  match p with LCompare key OpEq value => LElementPropertyEqual key value | p => LElementWhere p end.

Lemma derives_long lv ts p : derives lv ts p → (3 ≤ length ts)%nat.
Proof. induction 1; cbn [length] in *; rewrite ?length_app; cbn [length]; lia. Qed.

Lemma parse_compare_op_spec token :
  match parse_compare_op token with
  | Ok op => token = spelling op
  | Err e => (∃ m, e = unsupported m) ∧ ∀ op, token ≠ spelling op
  | Panic | NoFuel => False
  end.
Proof.
  unfold parse_compare_op. repeat case_decide; try done. split; [by eexists|]. by intros [].
Qed.

Lemma parse_compare_op_spelling op : parse_compare_op (spelling op) = Ok op.
Proof. by destruct op. Qed.

(** An answer: a result or an [Unsupported] error. *)
Definition answered {A} (r : res DbError A) : Prop :=
  match r with Ok _ => True | Err e => ∃ m, e = unsupported m | Panic | NoFuel => False end.

Section parser.
Context (tokens : list (list byte)).
Notation upper := (to_ascii_uppercase <$> tokens).
Notation "'por'" := (parse_predicate_or tokens upper).
Notation "'pand'" := (parse_predicate_and tokens upper).
Notation "'pfactor'" := (parse_predicate_factor tokens upper).

(** The parser went over [ts], which derives its predicate. *)
Definition consumed (lv : Level) (c : nat) (p : LogicalPredicate) (c' : nat) : Prop :=
  ∃ ts, drop c tokens = ts ++ drop c' tokens ∧ c' = (c + length ts)%nat ∧ derives lv ts p.

Lemma consumed_length lv c p c' : consumed lv c p c' → (c + 3 ≤ c' ≤ length tokens)%nat.
Proof.
  intros (ts & Hd & -> & Ht). apply derives_long in Ht. split; [lia|].
  apply (f_equal length) in Hd. rewrite length_app, !length_drop in Hd. lia.
Qed.

Lemma at_keyword_spec word c :
  at_keyword upper word c = true ↔ ∃ k, tokens !! c = Some k ∧ is_keyword word k.
Proof. unfold at_keyword. rewrite bool_decide_eq_true, list_lookup_fmap, fmap_Some. unfold is_keyword. naive_solver. Qed.

Lemma drop_at c k : tokens !! c = Some k → drop c tokens = k :: drop (c + 1) tokens.
Proof. intros Hk. rewrite Nat.add_1_r. by apply drop_S. Qed.

(** A predicate over a longer stretch: a keyword and the right operand. *)
Lemma consumed_or c p c1 q c2 k :
  consumed LevelOr c p c1 → tokens !! c1 = Some k → is_keyword "OR" k → consumed LevelAnd (c1 + 1) q c2 →
  consumed LevelOr c (LOr p q) c2.
Proof.
  intros (l & Hl & -> & Hp) Hk Hkw (r & Hr & -> & Hq). exists (l ++ k :: r). split_and!.
  - rewrite Hl, (drop_at _ _ Hk), Hr. by rewrite <-app_assoc.
  - rewrite length_app. cbn. lia.
  - by constructor.
Qed.

Lemma consumed_and c p c1 q c2 k :
  consumed LevelAnd c p c1 → tokens !! c1 = Some k → is_keyword "AND" k → consumed LevelFactor (c1 + 1) q c2 →
  consumed LevelAnd c (LAnd p q) c2.
Proof.
  intros (l & Hl & -> & Hp) Hk Hkw (r & Hr & -> & Hq). exists (l ++ k :: r). split_and!.
  - rewrite Hl, (drop_at _ _ Hk), Hr. by rewrite <-app_assoc.
  - rewrite length_app. cbn. lia.
  - by constructor.
Qed.

Lemma consumed_group c p c1 :
  tokens !! c = Some (text_of "(") → consumed LevelOr (c + 1) p c1 → tokens !! c1 = Some (text_of ")") →
  consumed LevelFactor c p (c1 + 1).
Proof.
  intros Hc (ts & Hd & -> & Hp) Hk. exists (text_of "(" :: ts ++ [text_of ")"]). split_and!.
  - rewrite (drop_at _ _ Hc), Hd, (drop_at _ _ Hk). cbn. by rewrite <-app_assoc.
  - cbn. rewrite length_app. cbn. lia.
  - by constructor.
Qed.

Lemma parse_comparison_spec c :
  tokens !! c ≠ Some (text_of "(") →
  match parse_comparison tokens c with
  | Ok (p, c') => consumed LevelFactor c p c'
  | Err e => ∃ m, e = unsupported m
  | Panic | NoFuel => False
  end.
Proof.
  intros Hc. unfold parse_comparison. destruct (tokens !! c) as [key|] eqn:H0; cbn [ok_or mbind res_bind]; [|by eexists].
  destruct (tokens !! (c + 1)%nat) as [operator|] eqn:H1; cbn [ok_or mbind res_bind]; [|by eexists].
  destruct (tokens !! (c + 2)%nat) as [value|] eqn:H2; cbn [ok_or mbind res_bind]; [|by eexists].
  pose proof (parse_compare_op_spec operator) as Hop. destruct (parse_compare_op operator) as [op|e| |]; [|apply Hop|done..].
  cbn [mbind res_bind]. exists [key; operator; value]. split_and!.
  - rewrite (drop_at _ _ H0), (drop_at _ _ H1). replace (c + 1 + 1)%nat with (c + 2)%nat by lia.
    rewrite (drop_at _ _ H2). by replace (c + 2 + 1)%nat with (c + 3)%nat by lia.
  - done.
  - subst operator. constructor. congruence.
Qed.

(** *** The equations of the mutual recursion *)

Notation orl := (or_loop tokens upper).
Notation andl := (and_loop tokens upper).

Lemma por_step fuel c : por (S fuel) c = '(lhs, c) ← pand fuel c; orl fuel lhs c.
Proof. done. Qed.
Lemma orl_step fuel p c :
  orl (S fuel) p c = if at_keyword upper "OR" c then '(rhs, c) ← pand fuel (c + 1)%nat; orl fuel (LOr p rhs) c else Ok (p, c).
Proof. done. Qed.
Lemma pand_step fuel c : pand (S fuel) c = '(lhs, c) ← pfactor fuel c; andl fuel lhs c.
Proof. done. Qed.
Lemma andl_step fuel p c :
  andl (S fuel) p c = if at_keyword upper "AND" c then '(rhs, c) ← pfactor fuel (c + 1)%nat; andl fuel (LAnd p rhs) c else Ok (p, c).
Proof. done. Qed.
Lemma pfactor_step fuel c :
  pfactor (S fuel) c =
    if decide (tokens !! c = Some (text_of "(")) then
      '(inner, c) ← por fuel (c + 1)%nat;
      if decide (tokens !! c ≠ Some (text_of ")")) then Err (unsupported "unbalanced parentheses in WHERE predicate")
      else Ok (inner, (c + 1)%nat)
    else parse_comparison tokens c.
Proof. done. Qed.

(** *** Soundness and termination *)

(** What the five functions do with a given fuel, enough or not. *)
Definition parsed (lv : Level) (c : nat) (enough : Prop) (r : res DbError (LogicalPredicate * nat)) : Prop :=
  match r with
  | Ok (p, c') => consumed lv c p c'
  | Err e => ∃ m, e = unsupported m
  | Panic => False
  | NoFuel => ¬ enough
  end.

Lemma parser_sound fuel :
  (∀ c, parsed LevelOr c (4 * (length tokens - c) + 4 ≤ fuel)%nat (por fuel c)) ∧
  (∀ c0 c p, consumed LevelOr c0 p c → parsed LevelOr c0 (4 * (length tokens - c) + 1 ≤ fuel)%nat (orl fuel p c)) ∧
  (∀ c, parsed LevelAnd c (4 * (length tokens - c) + 3 ≤ fuel)%nat (pand fuel c)) ∧
  (∀ c0 c p, consumed LevelAnd c0 p c → parsed LevelAnd c0 (4 * (length tokens - c) + 1 ≤ fuel)%nat (andl fuel p c)) ∧
  (∀ c, parsed LevelFactor c (4 * (length tokens - c) + 2 ≤ fuel)%nat (pfactor fuel c)).
Proof.
  induction fuel as [|fuel (IHor & IHol & IHand & IHal & IHf)].
  { split_and!; intros; unfold parsed; cbn; lia. }
  split_and!.
  - intros c. rewrite por_step. specialize (IHand c). destruct (pand fuel c) as [[p c1]|e| |]; cbn [mbind res_bind]; unfold parsed in *; [|done|done|lia].
    assert (consumed LevelOr c p c1) as Hc1.
    { destruct IHand as (ts & ? & ? & ?). exists ts. split_and!; [done..|by constructor]. }
    pose proof (consumed_length _ _ _ _ Hc1). specialize (IHol c c1 p Hc1). destruct (or_loop _ _ _ _ _) as [[]| | |]; unfold parsed in *; [done..|lia].
  - intros c0 c p Hc. pose proof (consumed_length _ _ _ _ Hc) as Hl. rewrite orl_step. destruct (at_keyword upper "OR" c) eqn:Hk; [|done].
    apply at_keyword_spec in Hk as (k & Hk & Hkw). pose proof (lookup_lt_Some _ _ _ Hk) as Hlt.
    specialize (IHand (c + 1)%nat). destruct (pand fuel (c + 1)) as [[q c1]|e| |]; cbn [mbind res_bind]; unfold parsed in *; [|done|done|lia].
    pose proof (consumed_or _ _ _ _ _ _ Hc Hk Hkw IHand) as Hq. pose proof (consumed_length _ _ _ _ IHand).
    specialize (IHol c0 c1 _ Hq). destruct (or_loop _ _ _ _ _) as [[]| | |]; unfold parsed in *; [done..|lia].
  - intros c. rewrite pand_step. specialize (IHf c). destruct (pfactor fuel c) as [[p c1]|e| |]; cbn [mbind res_bind]; unfold parsed in *; [|done|done|lia].
    assert (consumed LevelAnd c p c1) as Hc1.
    { destruct IHf as (ts & ? & ? & ?). exists ts. split_and!; [done..|by constructor]. }
    pose proof (consumed_length _ _ _ _ Hc1). specialize (IHal c c1 p Hc1). destruct (and_loop _ _ _ _ _) as [[]| | |]; unfold parsed in *; [done..|lia].
  - intros c0 c p Hc. pose proof (consumed_length _ _ _ _ Hc) as Hl. rewrite andl_step. destruct (at_keyword upper "AND" c) eqn:Hk; [|done].
    apply at_keyword_spec in Hk as (k & Hk & Hkw). pose proof (lookup_lt_Some _ _ _ Hk) as Hlt.
    specialize (IHf (c + 1)%nat). destruct (pfactor fuel (c + 1)) as [[q c1]|e| |]; cbn [mbind res_bind]; unfold parsed in *; [|done|done|lia].
    pose proof (consumed_and _ _ _ _ _ _ Hc Hk Hkw IHf) as Hq. pose proof (consumed_length _ _ _ _ IHf).
    specialize (IHal c0 c1 _ Hq). destruct (and_loop _ _ _ _ _) as [[]| | |]; unfold parsed in *; [done..|lia].
  - intros c. rewrite pfactor_step. case_decide as Hc.
    + pose proof (lookup_lt_Some _ _ _ Hc) as Hlt. specialize (IHor (c + 1)%nat).
      destruct (por fuel (c + 1)) as [[p c1]|e| |]; cbn [mbind res_bind]; unfold parsed in *; [|done|done|lia].
      case_decide as Hk; [by eexists|]. by apply consumed_group.
    + pose proof (parse_comparison_spec c Hc) as Hp. destruct (parse_comparison tokens c) as [[]| | |]; done.
Qed.

(** *** Completeness *)

(** More fuel does not change an answer. *)
Lemma parser_mono fuel : ∀ fuel', (fuel ≤ fuel')%nat →
  (∀ c, por fuel c ≠ NoFuel → por fuel' c = por fuel c) ∧
  (∀ p c, orl fuel p c ≠ NoFuel → orl fuel' p c = orl fuel p c) ∧
  (∀ c, pand fuel c ≠ NoFuel → pand fuel' c = pand fuel c) ∧
  (∀ p c, andl fuel p c ≠ NoFuel → andl fuel' p c = andl fuel p c) ∧
  (∀ c, pfactor fuel c ≠ NoFuel → pfactor fuel' c = pfactor fuel c).
Proof.
  induction fuel as [|fuel IH]; intros fuel' Hle; [done|].
  destruct fuel' as [|fuel']; [lia|]. destruct (IH fuel' ltac:(lia)) as (IHor & IHol & IHand & IHal & IHf). clear IH.
  split_and!; intros *; rewrite ?por_step, ?orl_step, ?pand_step, ?andl_step, ?pfactor_step.
  - specialize (IHand c). intros H. destruct (pand fuel c) as [[]| | |]; try (by rewrite IHand); try done.
    rewrite IHand by done. by apply IHol.
  - destruct (at_keyword _ _ _); [|done]. specialize (IHand (c + 1)%nat). intros H.
    destruct (pand fuel (c + 1)) as [[]| | |]; try (by rewrite IHand); try done. rewrite IHand by done. by apply IHol.
  - specialize (IHf c). intros H. destruct (pfactor fuel c) as [[]| | |]; try (by rewrite IHf); try done.
    rewrite IHf by done. by apply IHal.
  - destruct (at_keyword _ _ _); [|done]. specialize (IHf (c + 1)%nat). intros H.
    destruct (pfactor fuel (c + 1)) as [[]| | |]; try (by rewrite IHf); try done. rewrite IHf by done. by apply IHal.
  - case_decide; [|done]. specialize (IHor (c + 1)%nat). intros H'.
    destruct (por fuel (c + 1)) as [[]| | |]; try (by rewrite IHor); done.
Qed.

(** The result of a function at enough fuel. *)
Definition runs_to {A} (f : nat → res DbError A) (r : A) : Prop := ∃ fuel, ∀ fuel', (fuel ≤ fuel')%nat → f fuel' = Ok r.

Lemma runs_to_step {A B} (f : nat → res DbError A) (g : A → nat → res DbError B) (h : nat → res DbError B) a b :
  (∀ fuel, h (S fuel) = f fuel ≫= λ x, g x fuel) → runs_to f a → runs_to (g a) b → runs_to h b.
Proof.
  intros Hh [n Hn] [m Hm]. exists (S (n + m)). intros [|fuel'] Hle; [lia|]. rewrite Hh, Hn by lia. cbn. apply Hm. lia.
Qed.

Lemma runs_to_now {A} (h : nat → res DbError A) a : (∀ fuel, h (S fuel) = Ok a) → runs_to h a.
Proof. intros Hh. exists 1%nat. intros [|fuel'] Hle; [lia|]. apply Hh. Qed.

Definition no_keyword (word : string) (c : nat) : Prop := ∀ k, tokens !! c = Some k → ¬ is_keyword word k.

Lemma not_at_keyword word c : no_keyword word c → at_keyword upper word c = false.
Proof.
  intros Hn. apply not_true_is_false. intros (k & Hk & Hkw)%at_keyword_spec. by apply (Hn k).
Qed.

Lemma drop_lookup c ts rest i : drop c tokens = ts ++ rest → (i < length ts)%nat → tokens !! (c + i)%nat = ts !! i.
Proof. intros Hd Hi. by rewrite <-lookup_drop, Hd, lookup_app_l. Qed.
Lemma drop_after c ts rest : drop c tokens = ts ++ rest → drop (c + length ts) tokens = rest.
Proof. intros Hd. by rewrite <-drop_drop, Hd, drop_app_length. Qed.
Lemma drop_head c k rest : drop c tokens = k :: rest → tokens !! c = Some k.
Proof. intros Hd. pose proof (lookup_drop tokens c 0) as Hl. rewrite Hd, Nat.add_0_r in Hl. by symmetry. Qed.

(** The operands and the keyword of a stretch. *)
Lemma split_at c l k r rest : drop c tokens = (l ++ k :: r) ++ rest →
  drop c tokens = l ++ (k :: r ++ rest) ∧ tokens !! (c + length l)%nat = Some k ∧
  drop (c + length l + 1) tokens = r ++ rest ∧ (c + length (l ++ k :: r))%nat = (c + length l + 1 + length r)%nat.
Proof.
  intros Hd. assert (drop c tokens = l ++ (k :: r ++ rest)) as Hl by (by rewrite Hd, <-app_assoc).
  pose proof (drop_after _ _ _ Hl) as Hk. pose proof (drop_head _ _ _ Hk) as Hat.
  rewrite (drop_at _ _ Hat) in Hk. injection Hk as Hr. split_and!; [done..|]. rewrite length_app. cbn. lia.
Qed.

(** The way a derivation is parsed: a factor at once, the others as the loop
    entered with the predicate. *)
Definition goes (lv : Level) (c c' : nat) (p : LogicalPredicate) : Prop :=
  match lv with
  | LevelFactor => runs_to (λ fuel, pfactor fuel c) (p, c')
  | LevelAnd => ∀ x, runs_to (λ fuel, andl fuel p c') x → runs_to (λ fuel, pand fuel c) x
  | LevelOr => no_keyword "AND" c' → ∀ x, runs_to (λ fuel, orl fuel p c') x → runs_to (λ fuel, por fuel c) x
  end.

Lemma and_ends c c' p : goes LevelAnd c c' p → no_keyword "AND" c' → runs_to (λ fuel, pand fuel c) (p, c').
Proof. intros Hg Hn. apply Hg, runs_to_now. intros fuel. by rewrite andl_step, not_at_keyword. Qed.

Lemma or_ends c c' p : goes LevelOr c c' p → no_keyword "AND" c' → no_keyword "OR" c' → runs_to (λ fuel, por fuel c) (p, c').
Proof. intros Hg Hn Hn'. apply Hg; [done|]. apply runs_to_now. intros fuel. by rewrite orl_step, not_at_keyword. Qed.

Lemma run_or c p c' x : runs_to (λ fuel, pand fuel c) (p, c') → runs_to (λ fuel, orl fuel p c') x → runs_to (λ fuel, por fuel c) x.
Proof. apply (runs_to_step _ (λ y fuel, orl fuel y.1 y.2)). intros fuel. rewrite por_step. by destruct (pand fuel c) as [[]| | |]. Qed.

Lemma run_and c p c' x : runs_to (λ fuel, pfactor fuel c) (p, c') → runs_to (λ fuel, andl fuel p c') x → runs_to (λ fuel, pand fuel c) x.
Proof. apply (runs_to_step _ (λ y fuel, andl fuel y.1 y.2)). intros fuel. rewrite pand_step. by destruct (pfactor fuel c) as [[]| | |]. Qed.

Lemma run_orl p c k q c' x : tokens !! c = Some k → is_keyword "OR" k →
  runs_to (λ fuel, pand fuel (c + 1)%nat) (q, c') → runs_to (λ fuel, orl fuel (LOr p q) c') x → runs_to (λ fuel, orl fuel p c) x.
Proof.
  intros Hk Hkw. apply (runs_to_step _ (λ y fuel, orl fuel (LOr p y.1) y.2)). intros fuel.
  rewrite orl_step, (proj2 (at_keyword_spec _ _)) by eauto. by destruct (pand fuel _) as [[]| | |].
Qed.

Lemma run_andl p c k q c' x : tokens !! c = Some k → is_keyword "AND" k →
  runs_to (λ fuel, pfactor fuel (c + 1)%nat) (q, c') → runs_to (λ fuel, andl fuel (LAnd p q) c') x → runs_to (λ fuel, andl fuel p c) x.
Proof.
  intros Hk Hkw. apply (runs_to_step _ (λ y fuel, andl fuel (LAnd p y.1) y.2)). intros fuel.
  rewrite andl_step, (proj2 (at_keyword_spec _ _)) by eauto. by destruct (pfactor fuel _) as [[]| | |].
Qed.

Lemma keyword_apart k : is_keyword "OR" k → ¬ is_keyword "AND" k.
Proof. unfold is_keyword. intros ->. done. Qed.

Lemma paren_no_keyword c word : tokens !! c = Some (text_of ")") → word = "OR"%string ∨ word = "AND"%string → no_keyword word c.
Proof. intros Hc Hw k. rewrite Hc. intros [= <-]. by destruct Hw as [-> | ->]. Qed.

Lemma parser_complete lv ts p : derives lv ts p → ∀ c rest, drop c tokens = ts ++ rest → goes lv c (c + length ts) p.
Proof.
  induction 1 as [ts p _ IH|l k r p q _ IHl Hk _ IHr|ts p _ IH|l k r p q _ IHl Hk _ IHr|ts p _ IH|key op value Hkey];
    intros c rest Hd; cbn [goes] in *.
  - intros Hn x Hx. eapply run_or; [|exact Hx]. apply and_ends; [exact (IH c rest Hd)|exact Hn].
  - intros Hn x Hx. destruct (split_at _ _ _ _ _ Hd) as (Hl & Hat & Hr & He). rewrite He in *.
    apply (IHl c _ Hl); [intros k'; rewrite Hat; intros [= <-]; by apply keyword_apart|].
    eapply run_orl; [done..| |exact Hx]. apply and_ends; [exact (IHr _ _ Hr)|exact Hn].
  - intros x Hx. eapply run_and; [by eapply IH|exact Hx].
  - intros x Hx. destruct (split_at _ _ _ _ _ Hd) as (Hl & Hat & Hr & He). rewrite He in *.
    apply (IHl c _ Hl). eapply run_andl; [done..|by eapply IHr|exact Hx].
  - assert (drop c tokens = text_of "(" :: (ts ++ text_of ")" :: rest)) as Hd' by (rewrite Hd; cbn; by rewrite <-app_assoc).
    pose proof (drop_head _ _ _ Hd') as Hat. rewrite (drop_at _ _ Hat) in Hd'. injection Hd' as Hts.
    pose proof (drop_head _ _ _ (drop_after _ _ _ Hts)) as Hclose.
    eapply runs_to_step with (f := λ fuel, por fuel (c + 1)%nat) (g := λ x (_ : nat), if decide (tokens !! x.2 ≠ Some (text_of ")"))
        then Err (unsupported "unbalanced parentheses in WHERE predicate") else Ok (x.1, (x.2 + 1)%nat)).
    + intros fuel. rewrite pfactor_step. rewrite decide_True by done. by destruct (por fuel (c + 1)) as [[]| | |].
    + apply or_ends; [exact (IH _ _ Hts)|apply paren_no_keyword; auto..].
    + exists 0%nat. intros fuel' _. cbn [fst snd]. rewrite decide_False by (intros Hn; by apply Hn).
      f_equal. f_equal. cbn. rewrite length_app. cbn. lia.
  - pose proof (drop_lookup c _ rest 0 Hd ltac:(cbn; lia)) as H0. pose proof (drop_lookup c _ rest 1 Hd ltac:(cbn; lia)) as H1.
    pose proof (drop_lookup c _ rest 2 Hd ltac:(cbn; lia)) as H2. rewrite Nat.add_0_r in H0. apply runs_to_now. intros fuel.
    rewrite pfactor_step, decide_False by (rewrite H0; by intros [= ->]). unfold parse_comparison. rewrite H0, H1, H2.
    cbn [lookup list_lookup ok_or mbind res_bind]. by rewrite parse_compare_op_spelling.
Qed.

(** The whole clause. *)
Lemma parse_element_where_cases :
  match parse_element_where tokens upper with
  | Ok op => ∃ p, (∀ p', derives LevelOr tokens p' ↔ p' = p) ∧ op = where_op p
  | Err e => (∃ m, e = unsupported m) ∧ ∀ p, ¬ derives LevelOr tokens p
  | Panic | NoFuel => False
  end.
Proof.
  unfold parse_element_where. destruct (parser_sound (predicate_fuel tokens)) as (Hs & _). specialize (Hs 0%nat).
  assert (∀ p, derives LevelOr tokens p → por (predicate_fuel tokens) 0 = Ok (p, length tokens)) as Hcomplete.
  { intros p Hp. pose proof (parser_complete _ _ _ Hp 0%nat [] (eq_sym (app_nil_r tokens))) as Hg. cbn [Nat.add] in Hg.
    assert (∀ word, no_keyword word (length tokens)) as Hn by (intros word k; by rewrite lookup_ge_None_2).
    destruct (or_ends _ _ _ Hg (Hn _) (Hn _)) as [n Hr].
    destruct (parser_mono (predicate_fuel tokens) (n + predicate_fuel tokens) ltac:(lia)) as (Hm & _).
    rewrite <-Hm; [apply Hr; lia|]. intros Hnf. rewrite Hnf in Hs. apply Hs. unfold predicate_fuel. lia. }
  destruct (por _ 0) as [[p c]|e| |] eqn:Hrun; cbn [parsed mbind res_bind] in *.
  - case_decide as Hc.
    + split; [by eexists|]. intros p' Hp'. by specialize (Hcomplete p' Hp') as [= -> ->].
    + assert (c = length tokens) as -> by (destruct (decide (c = length tokens)); done). destruct Hs as (ts & Hd & _ & Hp).
      rewrite drop_0, drop_ge, app_nil_r in Hd by done. subst ts.
      assert (∀ p', derives LevelOr tokens p' ↔ p' = p) as Hu.
      { intros p'. split; [|by intros ->]. intros Hp'. by specialize (Hcomplete p' Hp') as [= ->]. }
      by destruct p as [? []| |]; eexists.
  - split; [done|]. intros p' Hp'. by specialize (Hcomplete p' Hp').
  - done.
  - apply Hs. unfold predicate_fuel. lia.
Qed.

End parser.

(** C32. The parser of [WHERE] predicates and its grammar. On any tokens it ends
    and never reads out of bounds. It accepts exactly the token lists the grammar
    derives: [OR] loosest, then [AND], both to the left, keywords in any case,
    comparisons of a key, an operator and any value, parentheses around a
    predicate. The predicate derived is then the only one, and becomes an index
    lookup if it is a lone equality. Anything else is refused as unsupported. *)
Theorem where_clause_parsed tokens :
  match parse_element_where tokens (to_ascii_uppercase <$> tokens) with
  | Ok op => ∃ p, (∀ p', derives LevelOr tokens p' ↔ p' = p) ∧ op = where_op p
  | Err e => (∃ m, e = unsupported m) ∧ ∀ p, ¬ derives LevelOr tokens p
  | Panic | NoFuel => False
  end.
Proof. apply parse_element_where_cases. Qed.

(** ** Every text has an answer *)

Lemma matches_length pattern upper : matches pattern upper = true → length upper = length pattern.
Proof.
  revert upper. induction pattern as [|slot pattern IH]; intros [|token upper]; cbn; try done.
  intros [_ Hm]%andb_true_iff. f_equal. by apply IH.
Qed.

Lemma matches_front_length pattern upper : matches_front pattern upper = true → (length pattern ≤ length upper)%nat.
Proof.
  revert upper. induction pattern as [|slot pattern IH]; intros [|token upper]; cbn; try done; try (intros; lia).
  intros [_ Hm]%andb_true_iff. apply IH in Hm. lia.
Qed.

Lemma vget_in {E A} (l : list A) i : (i < length l)%nat → ∃ x, vget (E:=E) l i = Ok x.
Proof. intros Hi. destruct (lookup_lt_is_Some_2 l i Hi) as [x Hx]. exists x. unfold vget. by rewrite Hx. Qed.

Lemma answered_bind {A B} (m : res DbError A) (f : A → res DbError B) :
  answered m → (∀ a, m = Ok a → answered (f a)) → answered (m ≫= f).
Proof. destruct m; cbn; try done. intros _ Hf. by apply Hf. Qed.

Lemma answered_ok_or {A} message (o : option A) : answered (ok_or (unsupported message) o).
Proof. destruct o; cbn; [done|by eexists]. Qed.

Lemma answered_vget {A B} (l : list A) i (f : A → res DbError B) :
  (i < length l)%nat → (∀ x, answered (f x)) → answered (x ← vget l i; f x).
Proof. intros Hi Hf. destruct (vget_in (E:=DbError) l i Hi) as [x ->]. apply Hf. Qed.

Section answers.
Context `{!Target}.

Lemma walk_options_answered fuel tokens upper index options sd sl :
  length upper = length tokens → (length tokens - index < fuel)%nat → answered (walk_options fuel tokens upper index options sd sl).
Proof.
  intros Hlen. revert index options sd sl. induction fuel as [|fuel IH]; intros index options sd sl Hf; [lia|].
  cbn [walk_options]. case_decide as Hi; [done|]. apply answered_bind; [apply answered_ok_or|]. intros value Hv.
  assert (index + 1 < length tokens)%nat as Hi1.
  { destruct (tokens !! (index + 1)%nat) eqn:Hl; [by apply lookup_lt_Some in Hl|done]. }
  apply answered_vget; [lia|]. intros option. case_decide; [|case_decide].
  - destruct sd; [by eexists|]. apply answered_vget; [lia|]. intros spelled. apply answered_bind.
    + unfold parse_walk_direction. repeat case_decide; cbn; [done..|by eexists].
    + intros direction _. apply IH. lia.
  - destruct sl; [by eexists|]. apply answered_bind; [apply answered_ok_or|]. intros limit _. apply IH. lia.
  - by eexists.
Qed.

Lemma parse_oxql_answered query : answered (parse_oxql query).
Proof.
  unfold parse_oxql. set (tokens := split_whitespace query). set (upper := to_ascii_uppercase <$> tokens).
  assert (length upper = length tokens) as Hlen by apply length_fmap. cbn zeta.
  destruct (matches_front [Some "MATCH"; _; _] upper).
  { pose proof (parse_element_where_cases (drop 3 tokens)) as Hc. rewrite fmap_drop in Hc. fold upper in Hc.
    destruct (parse_element_where _ _); [done|apply Hc|done..]. }
  do 4 (destruct (matches _ upper); [done|]).
  destruct (matches _ upper) eqn:Hm; [|clear Hm; destruct (matches _ upper) eqn:Hm;
    [|clear Hm; destruct (matches _ upper) eqn:Hm; [|clear Hm; destruct (matches_front _ upper) eqn:Hm; [|by eexists]]]].
  - apply matches_length in Hm. cbn in Hm. by apply answered_vget; [lia|].
  - apply matches_length in Hm. cbn in Hm. by apply answered_vget; [lia|].
  - apply matches_length in Hm. cbn in Hm. apply answered_vget; [lia|]. intros ?. by apply answered_vget; [lia|].
  - apply matches_front_length in Hm. cbn in Hm. unfold parse_graph_walk. apply answered_vget; [lia|]. intros depth.
    apply answered_bind; [apply answered_ok_or|]. intros max_depth _.
    apply answered_bind; [apply walk_options_answered; [done|lia]|]. intros options _.
    apply answered_vget; [lia|]. intros ?. by apply answered_vget; [lia|].
Qed.

End answers.

(** ** Words *)

Definition spaceless (text : list byte) : Prop := ∀ i, (i < length text)%nat → leading WHITE_SPACE (drop i text) = 0%nat.
(** A token: no white space, not empty. *)
Definition word (text : list byte) : Prop := text ≠ [] ∧ spaceless text.

Fixpoint unwords (words : list (list byte)) : list byte :=
  match words with
  | [] => []
  | [w] => w
  | w :: words => w ++ Byte.x20 :: unwords words
  end.

Lemma white_space_chars : Forall (λ c, c ≠ [] ∧ Byte.x20 ∉ tail c) WHITE_SPACE.
Proof. apply (bool_decide_unpack _). by vm_compute. Qed.

Lemma leading_0 text : leading WHITE_SPACE text = 0%nat ↔ ∀ c, c ∈ WHITE_SPACE → ¬ c `prefix_of` text.
Proof.
  unfold leading. pose proof white_space_chars as Hc. rewrite Forall_forall in Hc. split.
  - intros Hl c Hin Hp. assert (c ∈ filter (λ c, c `prefix_of` text) WHITE_SPACE) as Hf by (by apply list_elem_of_filter).
    destruct (filter _ _) as [|c' cs] eqn:He; [by apply not_elem_of_nil in Hf|].
    assert (c' ∈ filter (λ c, c `prefix_of` text) WHITE_SPACE) as [_ Hc']%list_elem_of_filter by (rewrite He; by left).
    destruct (Hc c' Hc') as [Hn _]. by destruct c'.
  - intros Hn. destruct (filter _ _) as [|c' cs] eqn:He; [done|].
    assert (c' ∈ filter (λ c, c `prefix_of` text) WHITE_SPACE) as [Hp Hin]%list_elem_of_filter by (rewrite He; by left).
    by destruct (Hn c' Hin).
Qed.

Lemma leading_before_space u rest : u ≠ [] → leading WHITE_SPACE u = 0%nat → leading WHITE_SPACE (u ++ Byte.x20 :: rest) = 0%nat.
Proof.
  intros Hu. rewrite !leading_0. intros Hn c Hin [k Hk]. pose proof white_space_chars as Hc. rewrite Forall_forall in Hc.
  destruct (Hc c Hin) as [_ Hs]. apply app_eq_inv in Hk as [(k' & -> & _)|(k' & -> & Hk)].
  - apply (Hn c Hin). by eexists.
  - destruct k' as [|b k']; [apply (Hn (u ++ []) Hin); by rewrite app_nil_r|]. injection Hk as <- _.
    apply Hs. destruct u; [done|]. cbn. apply elem_of_app. right. by left.
Qed.

Lemma leading_space rest : leading WHITE_SPACE (Byte.x20 :: rest) = 1%nat.
Proof. reflexivity. Qed.

Lemma spaceless_tail b u : spaceless (b :: u) → spaceless u.
Proof. intros Hs i Hi. apply (Hs (S i)). cbn. lia. Qed.

Lemma split_word u token rest : spaceless u →
  split_tokens 0 token (u ++ Byte.x20 :: rest) = flush (token ++ u) ++ split_tokens 0 [] rest ∧
  split_tokens 0 token u = flush (token ++ u).
Proof.
  revert token. induction u as [|b u IH]; intros token Hs; cbn [app split_tokens].
  - rewrite leading_space, app_nil_r. done.
  - pose proof (Hs 0%nat ltac:(cbn; lia)) as H0. rewrite drop_0 in H0.
    pose proof (leading_before_space (b :: u) rest ltac:(done) H0) as H1. cbn [app] in H1. rewrite H0, H1.
    destruct (IH (token ++ [b]) (spaceless_tail _ _ Hs)) as [-> ->]. by rewrite <-app_assoc.
Qed.

Lemma split_unwords words : Forall word words → split_whitespace (unwords words) = words.
Proof.
  unfold split_whitespace. induction 1 as [|w ws [Hw Hs] Hws IH]; [done|]. destruct ws as [|w' ws].
  - cbn [unwords]. rewrite (proj2 (split_word w [] [] Hs)). cbn. unfold flush. by rewrite decide_False.
  - change (unwords (w :: w' :: ws)) with (w ++ Byte.x20 :: unwords (w' :: ws)).
    rewrite (proj1 (split_word w [] _ Hs)), IH. cbn [app]. unfold flush. by rewrite decide_False.
Qed.

(** ** Rendering *)

Definition parens (tokens : list (list byte)) : list (list byte) := text_of "(" :: tokens ++ [text_of ")"].

(** The tokens of a predicate, with the parentheses its place needs. *)
Fixpoint render (lv : Level) (p : LogicalPredicate) : list (list byte) :=
  match p with
  | LCompare key op value => [key; spelling op; value]
  | LAnd lhs rhs =>
      let tokens := render LevelAnd lhs ++ text_of "AND" :: render LevelFactor rhs in
      match lv with LevelFactor => parens tokens | _ => tokens end
  | LOr lhs rhs =>
      let tokens := render LevelOr lhs ++ text_of "OR" :: render LevelAnd rhs in
      match lv with LevelOr => tokens | _ => parens tokens end
  end.

Fixpoint leaves_wf (p : LogicalPredicate) : Prop :=
  match p with
  | LCompare key _ value => word key ∧ key ≠ text_of "(" ∧ word value
  | LAnd lhs rhs | LOr lhs rhs => leaves_wf lhs ∧ leaves_wf rhs
  end.

Lemma derives_factor_any lv ts p : derives LevelFactor ts p → derives lv ts p.
Proof. destruct lv; eauto using derives. Qed.

Lemma render_derives p : leaves_wf p → ∀ lv, derives lv (render lv p) p.
Proof.
  induction p as [key op value|l IHl r IHr|l IHl r IHr]; cbn [leaves_wf render].
  - intros (_ & Hkey & _) lv. apply derives_factor_any. by constructor.
  - intros [Hl Hr] lv.
    assert (derives LevelAnd (render LevelAnd l ++ text_of "AND" :: render LevelFactor r) (LAnd l r)) as Hd by (constructor; auto; done).
    destruct lv; [by constructor|done|]. apply derives_group. by constructor.
  - intros [Hl Hr] lv.
    assert (derives LevelOr (render LevelOr l ++ text_of "OR" :: render LevelAnd r) (LOr l r)) as Hd by (constructor; auto; done).
    destruct lv; [done|apply derives_factor_any|]; by apply derives_group.
Qed.

(** A word without white space, by evaluation. *)
Definition wordb (text : list byte) : bool :=
  bool_decide (text ≠ []) && forallb (λ i, bool_decide (leading WHITE_SPACE (drop i text) = 0%nat)) (seq 0 (length text)).

Lemma wordb_word text : wordb text = true → word text.
Proof.
  unfold wordb. rewrite andb_true_iff, bool_decide_eq_true, forallb_forall. intros [Hn Hs]. split; [done|].
  intros i Hi. specialize (Hs i ltac:(apply in_seq; lia)). by apply bool_decide_eq_true in Hs.
Qed.

Lemma render_words p : leaves_wf p → ∀ lv, Forall word (render lv p).
Proof.
  assert (word (text_of "(") ∧ word (text_of ")") ∧ word (text_of "AND") ∧ word (text_of "OR")) as (Ho & Hc & Ha & Hr')
    by (split_and!; by apply wordb_word).
  induction p as [key op value|l IHl r IHr|l IHl r IHr]; cbn [leaves_wf render].
  - intros (Hk & _ & Hv) lv. repeat constructor; [apply Hk|apply Hk|by destruct op; apply wordb_word|by destruct op; apply wordb_word|apply Hv|apply Hv].
  - intros [Hl Hr] lv. destruct lv; unfold parens; repeat (apply Forall_app_2 || apply Forall_cons_2 || apply Forall_nil_2); auto.
  - intros [Hl Hr] lv. destruct lv; unfold parens; repeat (apply Forall_app_2 || apply Forall_cons_2 || apply Forall_nil_2); auto.
Qed.

(** Rendering and parsing a [WHERE] query are inverse: the text of any
    predicate, with the parentheses its operators need, is parsed to that
    predicate, or to the index lookup of a lone equality, provided its keys and
    values are single tokens and no key is an opening parenthesis. *)
Theorem where_query_roundtrip `{!Target} p : leaves_wf p →
  parse_oxql (unwords ([text_of "MATCH"; text_of "ELEMENTS"; text_of "WHERE"] ++ render LevelOr p)) = Ok (where_op p).
Proof.
  intros Hp. unfold parse_oxql. rewrite split_unwords.
  - set (tokens := render LevelOr p). cbn zeta. cbn [app fmap list_fmap drop].
    assert (∀ l, matches_front [Some "MATCH"; Some "ELEMENTS"; Some "WHERE"]
      (to_ascii_uppercase (text_of "MATCH") :: to_ascii_uppercase (text_of "ELEMENTS") ::
       to_ascii_uppercase (text_of "WHERE") :: l) = true) as -> by (intros l; reflexivity).
    pose proof (parse_element_where_cases tokens) as Hc. pose proof (render_derives p Hp LevelOr) as Hd.
    destruct (parse_element_where _ _) as [op|e| |]; [|by destruct Hc as [_ Hc]; destruct (Hc p)|done..].
    destruct Hc as (p' & Hu & ->). by apply Hu in Hd as ->.
  - apply Forall_app_2; [|by apply render_words]. repeat (apply Forall_cons_2; [by apply wordb_word|]). apply Forall_nil_2.
Qed.
Lemma where_query_roundtrip_witness :
  let a := LCompare (text_of "age") OpGe (text_of "18") in let b := LCompare (text_of "name") OpEq (text_of "'bo'") in
  let p := LAnd (LOr a b) (LCompare (text_of "or") OpLt (text_of ")")) in
  unwords ([text_of "MATCH"; text_of "ELEMENTS"; text_of "WHERE"] ++ render LevelOr p) =
    text_of "MATCH ELEMENTS WHERE ( age >= 18 OR name = 'bo' ) AND or < )" ∧
  parse_oxql (H := target64) (text_of "MATCH ELEMENTS WHERE ( age >= 18 OR name = 'bo' ) AND or < )") = Ok (LElementWhere p).
Proof.
  cbn zeta. split; [reflexivity|]. apply (where_query_roundtrip (H := target64)
    (LAnd (LOr (LCompare (text_of "age") OpGe (text_of "18")) (LCompare (text_of "name") OpEq (text_of "'bo'")))
       (LCompare (text_of "or") OpLt (text_of ")")))).
  cbn [leaves_wf]. split_and!; (by apply wordb_word) || done.
Defined.
