(* ===== verification/QueryExec.v ===== *)
(** * QueryExec: the rows of a query

    [ViewWf]: the view of a state of integrity whose index is coherent, which
    every published state is, and what its lookups then contain. [op_rows]: the
    rows a query denotes, by its names and predicates alone. Theorem: preparing a
    text and executing the plan on a published state gives these rows. *)

From Stdlib Require Import String.
From stdpp Require Import base gmap sets list strings sorting.
From S2P Require Import Prelude Bytes Ordered Layout DbError DbWire DbState OverlayIndex Overlay OverlayReplay Merge MergeFacts IndexFacts DbWriter Store WriterRefines StoreFacts WriterFacts Projection Traversal Query QueryFacts.

Local Open Scope Z_scope.

(** ** Views of integrity *)

Section views.
Context `{OverlayLayer L} (v : LayeredState L).

Definition view_store : Store := {|
  st_elements := all_elements v; st_relations := all_relations v; st_incidences := all_incidences v;
  st_properties := all_properties v; st_catalog := view_catalog v; st_next := view_next_ids v
|}.

Record ViewWf : Prop := { vw_coherent : Coherent v; vw_store : StoreWf view_store }.

Context (Hv : ViewWf).
Notation Hco := (vw_coherent Hv).

Lemma elements_run : view_elements v = Ok (snd <$> map_iter (all_elements v)).
Proof using Hv. apply view_elements_run, Hco. Qed.
Lemma relations_run : view_relations v = Ok (snd <$> map_iter (all_relations v)).
Proof using Hv. apply view_relations_run, Hco. Qed.
Lemma incidences_run : view_incidences v = Ok (snd <$> map_iter (all_incidences v)).
Proof using Hv. apply view_incidences_run, Hco. Qed.

Lemma elem_of_labelled l e : e ∈ view_elements_with_label v l ↔ ∃ r, view_element v e = Some r ∧ l ∈ el_labels r.
Proof using Hv. unfold view_elements_with_label, elements_with_label. rewrite elem_of_merge_posting. apply (coherent_labels _ Hco). Qed.

Lemma elem_of_typed t q : q ∈ view_relations_with_type v t ↔ ∃ r, view_relation v q = Some r ∧ rel_type r = Some t.
Proof using Hv. unfold view_relations_with_type, relations_with_type. rewrite elem_of_merge_posting. apply (coherent_types _ Hco). Qed.

Lemma elem_of_scan_incidences (f : IncidenceRecord → Z) k i :
  i ∈ filter (λ r, f r = k) (snd <$> map_iter (all_incidences v)) ↔ view_incidence v (inc_id i) = Some i ∧ f i = k.
Proof using Hv.
  destruct (coherent_maps v Hco) as (_ & _ & Hm). rewrite (elem_of_scan_records _ Hm), view_incidence_lookup. naive_solver.
Qed.

Lemma elem_of_element_incidences e i : i ∈ view_element_incidences v e ↔ view_incidence v (inc_id i) = Some i ∧ inc_element i = e.
Proof using Hv.
  pose proof (index_element_incidences v Hco e) as Hs. unfold element_incidences_scan in Hs.
  rewrite incidences_run, bind_Ok in Hs. injection Hs as <-. apply elem_of_scan_incidences.
Qed.

Lemma elem_of_relation_incidences q i : i ∈ view_relation_incidences v q ↔ view_incidence v (inc_id i) = Some i ∧ inc_relation i = q.
Proof using Hv.
  pose proof (index_relation_incidences v Hco q) as Hs. unfold relation_incidences_scan in Hs.
  rewrite incidences_run, bind_Ok in Hs. injection Hs as <-. apply elem_of_scan_incidences.
Qed.

Lemma elem_of_view_equal key x s : s ∈ view_property_equal v key x ↔ view_property v s key = Some x.
Proof using Hv. unfold view_property_equal, property_equal. rewrite elem_of_merge_posting. apply (coherent_values _ Hco). Qed.

Lemma elem_of_view_range key min max s :
  s ∈ view_property_range v key min max ↔ ∃ x, view_property v s key = Some x ∧ key_le min x ∧ key_le x max.
Proof using Hv.
  pose proof (index_property_range v Hco key min max) as Hs. unfold property_range_scan in Hs.
  rewrite view_properties_run, bind_Ok in Hs. injection Hs as <-.
  rewrite (elem_of_scan_subjects v Hco key) by (by intros t [? _]). cbn [fst snd].
  setoid_rewrite (coherent_values _ Hco). naive_solver.
Qed.

(** A property belongs to a visible subject. *)
Lemma property_visible s key x : view_property v s key = Some x →
  store_has view_store s ∧ typed_for (view_catalog v) s key x.
Proof using Hv. rewrite view_property_lookup. apply (wf_property _ (vw_store Hv)). Qed.

Lemma element_property_visible e key x : view_property v (SElement e) key = Some x → is_Some (view_element v e).
Proof using Hv. rewrite view_element_lookup. by intros [? _]%property_visible. Qed.

End views.

Lemma published_view base next catalog o : Opened base next catalog → published base next catalog o → ViewWf (layered base o).
Proof.
  intros Ho Hp. split; [by apply (published_coherent base next catalog)|].
  exact (proj2 (published_sound base next catalog o Ho Hp)).
Qed.

(** ** What a query denotes *)

Definition compare_holds (op : CompareOp) (actual literal : PropertyValue) : Prop :=
  match op with
  | OpEq => actual = literal
  | OpLt => key_lt actual literal
  | OpLe => key_le actual literal
  | OpGt => key_lt literal actual
  | OpGe => key_le literal actual
  end.

Lemma op_matches_spec op a x : op_matches op (value_cmp a x) = true ↔ compare_holds op a x.
Proof.
  unfold value_cmp. destruct (decide (a = x)) as [->|Hn].
  - destruct op; unfold op_matches, compare_holds; split; intros Hl; try done; by apply key_lt_irrefl in Hl.
  - destruct (key_lt_cases a x) as [Hl|[?|Hl]]; [|done|].
    + rewrite decide_True by done. pose proof (proj2 (key_nlt x a) (proj1 Hl)) as Hnl.
      destruct op; unfold op_matches, compare_holds; split; try done; try (by intros; apply Hl); intros Hc; exfalso;
        solve [by apply Hn|by apply Hnl|apply Hn, (anti_symm key_le); [apply Hl|done]].
    + pose proof (proj2 (key_nlt a x) (proj1 Hl)) as Hnl. rewrite decide_False by done.
      destruct op; unfold op_matches, compare_holds; split; try done; try (by intros; apply Hl); intros Hc; exfalso;
        solve [by apply Hn|by apply Hnl|apply Hn, (anti_symm key_le); [done|apply Hl]].
Qed.

Section denotation.
Context `{!Target} `{OverlayLayer L} (c : Catalog) (v : LayeredState L).

(** A predicate of a query about an element: names mean what the catalog [c]
    says, values are those visible in [v], and a missing property satisfies no
    comparison. *)
Fixpoint satisfies (p : LogicalPredicate) (e : Z) : Prop :=
  match p with
  | LCompare key op value =>
      ∃ id literal actual, property_key_names c !! key = Some id ∧ parse_value_token value = Ok literal ∧
        view_property v (SElement e) id = Some actual ∧ compare_holds op actual literal
  | LAnd lhs rhs => satisfies lhs e ∧ satisfies rhs e
  | LOr lhs rhs => satisfies lhs e ∨ satisfies rhs e
  end.

(** One row for each id of [P], in ascending order. *)
Definition id_rows (value : Z → QueryValue) (P : Z → Prop) (rows : QueryResult) : Prop :=
  ∃ ids, StronglySorted Z.lt ids ∧ (∀ id, id ∈ ids ↔ P id) ∧ rows = (λ id, row_single (value id)) <$> ids.

Definition visible_element (e : Z) : Prop := is_Some (view_element v e).

Definition op_rows (op : LogicalOp) (rows : QueryResult) : Prop :=
  match op with
  | LElementScan => id_rows QElement visible_element rows
  | LRelationScan => id_rows QRelation (λ q, is_Some (view_relation v q)) rows
  | LIncidenceScan => ∃ rs, StronglySorted (λ a b, inc_id a < inc_id b) rs ∧
      (∀ i, i ∈ rs ↔ view_incidence v (inc_id i) = Some i) ∧ rows = (λ i, row_single (QIncidence i)) <$> rs
  | LCatalogScan => rows = (λ e, [QProjection (projection_id e); QText (projection_name (projection_definition e))]) <$>
      (snd <$> map_iter (projections (view_catalog v)))
  | LElementLabelScan label => ∃ l, label_names c !! label = Some l ∧
      id_rows QElement (λ e, ∃ r, view_element v e = Some r ∧ l ∈ el_labels r) rows
  | LRelationTypeScan relation_type => ∃ t, relation_type_names c !! relation_type = Some t ∧
      id_rows QRelation (λ q, ∃ r, view_relation v q = Some r ∧ rel_type r = Some t) rows
  | LElementPropertyEqual key value => id_rows QElement (λ e, visible_element e ∧ satisfies (LCompare key OpEq value) e) rows
  | LElementWhere p => id_rows QElement (λ e, visible_element e ∧ satisfies p e) rows
  | LGraphWalk projection element options => ∃ id seed graph sg,
      projection_names c !! projection = Some id ∧ parse_integer 0 u64_max element = Some seed ∧
      graph_projection v id = Ok graph ∧ walk_graph_projection graph [seed] options = Ok sg ∧
      rows = (λ node, row_single (QElement (tn_element node))) <$> sg_nodes sg
  end.

Definition is_walk (op : LogicalOp) : bool := match op with LGraphWalk _ _ _ => true | _ => false end.

(** What a bound comparison says of the catalog. *)
Definition comparison_bound (key value : list byte) (id : Z) (literal : PropertyValue) : Prop :=
  property_key_names c !! key = Some id ∧ parse_value_token value = Ok literal ∧
  ∃ d, property_keys c !! id = Some d ∧ key_family d = FamElement ∧ key_type d = value_type literal.

End denotation.

Section binding.
Context `{!Target} `{OverlayLayer L} (v : LayeredState L).

Lemma validate_family_spec key fam value :
  match validate_lookup_value_for_family v key fam value with
  | Ok _ => ∃ d, property_keys (view_catalog v) !! key = Some d ∧ key_family d = fam ∧ key_type d = value_type value
  | Err _ => ∀ d, property_keys (view_catalog v) !! key = Some d → ¬ (key_family d = fam ∧ key_type d = value_type value)
  | Panic | NoFuel => False
  end.
Proof.
  unfold validate_lookup_value_for_family. destruct (property_keys (view_catalog v) !! key) as [d|]; cbn; [|done].
  repeat case_decide; naive_solver.
Qed.

Lemma bind_comparison_Ok key value id literal :
  bind_comparison v key value = Ok (id, literal) → comparison_bound (view_catalog v) key value id literal.
Proof.
  unfold bind_comparison. destruct (property_key_names _ !! key) as [id'|] eqn:Hid; cbn [ok_or mbind res_bind]; [|done].
  destruct (parse_value_token value) as [x| | |] eqn:Hx; cbn [map_err mbind res_bind]; [|done..].
  pose proof (validate_family_spec id' FamElement x) as Hval. destruct (validate_lookup_value_for_family _ _ _ _); [|done..].
  cbn [mbind res_bind]. intros [= -> ->]. done.
Qed.

(** A bound predicate evaluates, in any state, to what the query says. *)
Lemma evaluate_bound `{OverlayLayer L'} (v' : LayeredState L') p b :
  bind_predicate v p = Ok b → ∀ e, evaluate v' b e = true ↔ satisfies (view_catalog v) v' p e.
Proof.
  revert b. induction p as [key op value|l IHl r IHr|l IHl r IHr]; intros b; cbn [bind_predicate satisfies].
  - destruct (bind_comparison v key value) as [[id x]| | |] eqn:Hb; cbn [mbind res_bind]; [|done..]. intros [= <-] e.
    destruct (bind_comparison_Ok _ _ _ _ Hb) as (Hid & Hx & _). cbn [evaluate].
    destruct (view_property v' (SElement e) id) as [a|] eqn:Ha.
    + rewrite op_matches_spec. split; [by intros; exists id, x, a|]. intros (id' & x' & a' & ? & Hx' & ? & ?).
      rewrite Hx in Hx'. injection Hx' as <-. by simplify_eq.
    + split; [done|]. intros (id' & x' & a' & ? & _ & ? & _). by simplify_eq.
  - destruct (bind_predicate v l) as [bl| | |]; cbn [mbind res_bind]; [|done..].
    destruct (bind_predicate v r) as [br| | |]; cbn [mbind res_bind]; [|done..]. intros [= <-] e.
    cbn [evaluate]. rewrite andb_true_iff. by rewrite (IHl bl), (IHr br).
  - destruct (bind_predicate v l) as [bl| | |]; cbn [mbind res_bind]; [|done..].
    destruct (bind_predicate v r) as [br| | |]; cbn [mbind res_bind]; [|done..]. intros [= <-] e.
    cbn [evaluate]. rewrite orb_true_iff. by rewrite (IHl bl), (IHr br).
Qed.

End binding.

(** ** The rows of a plan *)

Lemma key_lt_Z (a b : Z) : key_lt a b ↔ a < b.
Proof. unfold key_lt. cbn. lia. Qed.

Lemma StronglySorted_impl {A} (R R' : relation A) l : (∀ a b, R a b → R' a b) → StronglySorted R l → StronglySorted R' l.
Proof. intros HR. induction 1 as [|a l _ IH Ha]; constructor; [done|]. eapply Forall_impl; [done|]. intros b. apply HR. Qed.

Lemma ascending_Z (l : list Z) : StronglySorted key_lt l → StronglySorted Z.lt l.
Proof. apply StronglySorted_impl. intros a b. apply key_lt_Z. Qed.

Lemma element_key_lt a b : key_lt (SElement a) (SElement b) ↔ a < b.
Proof.
  unfold subject_order. rewrite derived_lt. split; [intros [[=]|[_ ?]]; done|by right].
Qed.

Lemma id_rows_records {R} `{Keyed R Z} (f : Z → QueryValue) (m : gmap Z R) (Q : R → Prop) `{!∀ r, Decision (Q r)} :
  keyed_records m →
  id_rows f (λ id, ∃ r, m !! id = Some r ∧ Q r) ((λ r, row_single (f (record_id r))) <$> filter Q (snd <$> map_iter m)).
Proof.
  intros Hm. exists (record_id <$> filter Q (snd <$> map_iter m)). split_and!.
  - apply ascending_Z, (scan_ids_ascending _ Hm Q).
  - intros id. apply (elem_of_scan_ids _ Hm Q).
  - by rewrite <-list_fmap_compose.
Qed.

Lemma values_ascending {R} `{Keyed R Z} (m : gmap Z R) : keyed_records m → StronglySorted Z.lt (record_id <$> (snd <$> map_iter m)).
Proof.
  intros Hm. apply ascending_Z. induction (map_iter_values m Hm) as [|r l _ IH Hr]; cbn; constructor; [done|].
  apply Forall_fmap. exact Hr.
Qed.

Lemma ascending_NoDup (l : list Z) : StronglySorted Z.lt l → NoDup l.
Proof. induction 1 as [|a l _ IH Ha]; constructor; [|done]. rewrite Forall_forall in Ha. intros Hin. specialize (Ha a Hin). lia. Qed.

Lemma id_rows_all {R} `{Keyed R Z} (f : Z → QueryValue) (m : gmap Z R) :
  keyed_records m → id_rows f (λ id, is_Some (m !! id)) ((λ r, row_single (f (record_id r))) <$> (snd <$> map_iter m)).
Proof.
  intros Hm. exists (record_id <$> (snd <$> map_iter m)).
  split_and!; [by apply values_ascending| |exact (list_fmap_compose record_id (λ id, row_single (f id)) _)].
  intros id. rewrite list_elem_of_fmap. setoid_rewrite (elem_of_values _ _ Hm). split.
  - intros (r & -> & Hr). by eexists.
  - intros [r Hr]. exists r. by rewrite (Hm _ _ Hr).
Qed.

Lemma id_rows_proper (f : Z → QueryValue) (P Q : Z → Prop) rows : (∀ id, P id ↔ Q id) → id_rows f P rows → id_rows f Q rows.
Proof. intros HPQ (ids & Hs & Hin & Hr). exists ids. split_and!; [done| |done]. intros id. by rewrite Hin. Qed.

Section rows.
Context `{!Target} `{OverlayLayer L} `{OverlayLayer L'} (v : LayeredState L) (v' : LayeredState L').
Context (Hv' : ViewWf v') (Hkeys : property_keys (view_catalog v) ⊆ property_keys (view_catalog v')).

(** The index lookup of a lone equality gives the rows of the filter. *)
Lemma equal_rows key value id literal :
  comparison_bound (view_catalog v) key value id literal →
  ∃ rows, scan_elements_with_property v' id literal = Ok rows ∧
    id_rows QElement (λ e, visible_element v' e ∧ satisfies (view_catalog v) v' (LCompare key OpEq value) e) rows.
Proof using Hv' Hkeys.
  intros (Hid & Hx & d & Hd & Hfam & Htype). unfold scan_elements_with_property, typed_property_equal_for_family.
  pose proof (lookup_weaken _ _ _ _ Hd Hkeys) as Hd'.
  pose proof (validate_family_spec v' id FamElement literal) as Hval.
  destruct (validate_lookup_value_for_family v' id FamElement literal) as [u|e| |]; [|by destruct (Hval d Hd')|done..].
  cbn [mbind res_bind]. set (subjects := view_property_equal v' id literal). eexists. split; [reflexivity|].
  exists (omap (λ s, match s with SElement e => Some e | _ => None end) subjects). split_and!.
  - assert (StronglySorted key_lt subjects) as Hs by apply set_iter_ascending.
    eapply StronglySorted_impl; [|apply (omap_ascending _ (λ s, s) SElement); [|exact Hs]].
    + intros a b. cbn. apply element_key_lt.
    + intros [] b _; [|done..]. by intros [= ->].
  - intros e. rewrite list_elem_of_omap. cbn [satisfies]. unfold subjects. setoid_rewrite (elem_of_view_equal v' Hv').
    split.
    + intros (s & Hs & He). destruct s; [|done..]. injection He as ->. split; [by apply (element_property_visible v' Hv' _ _ _ Hs)|].
      exists id, literal, literal. done.
    + intros (_ & id' & x & a & Hid' & Hx' & Ha & Hc). rewrite Hx in Hx'. injection Hx' as <-. simplify_eq.
      cbn in Hc. subst a. by exists (SElement e).
  - subst subjects. induction (view_property_equal v' id literal) as [|[] l IH]; cbn; [done|by rewrite IH|done..].
Qed.

Lemma plan_rows op plan : bind_and_lower v op = Ok plan →
  (∀ rows, execute v' plan = Ok rows → op_rows (view_catalog v) v' op rows) ∧
  (is_walk op = false → ∃ rows, execute v' plan = Ok rows).
Proof using Hv' Hkeys.
  assert (∀ (R : QueryResult → Prop) rows, R rows →
    (∀ rows', @Ok DbError _ rows = Ok rows' → R rows') ∧ (is_walk op = false → ∃ rows', @Ok DbError _ rows = Ok rows')) as Hdone.
  { intros R rows Hr. split; [by intros ? [= <-]|by eexists]. }
  destruct (coherent_maps v' (vw_coherent _ Hv')) as (Me & Mr & Mi).
  destruct op as [| | | |label|type|key value|projection element options|p]; cbn [bind_and_lower op_rows].
  - intros [= <-]. cbn [execute]. unfold scan_elements. rewrite (elements_run v' Hv'), bind_Ok. apply Hdone.
    eapply id_rows_proper, (id_rows_all QElement), Me. intros e. unfold visible_element. by rewrite view_element_lookup.
  - intros [= <-]. cbn [execute]. unfold scan_relations. rewrite (relations_run v' Hv'), bind_Ok. apply Hdone.
    eapply id_rows_proper, (id_rows_all QRelation), Mr. intros e. by rewrite view_relation_lookup.
  - intros [= <-]. cbn [execute]. unfold scan_incidences. rewrite (incidences_run v' Hv'), bind_Ok. apply Hdone.
    eexists. split_and!; [| |reflexivity].
    + eapply StronglySorted_impl; [|by apply map_iter_values]. intros a b. apply key_lt_Z.
    + intros i. rewrite (elem_of_values _ _ Mi). by rewrite view_incidence_lookup.
  - intros [= <-]. by apply Hdone.
  - destruct (label_names _ !! label) as [l|] eqn:Hl; cbn [ok_or mbind res_bind]; [|done]. intros [= <-]. cbn [execute].
    apply Hdone. exists l. split; [done|]. eexists. split_and!; [apply ascending_Z, set_iter_ascending| |reflexivity].
    intros e. apply (elem_of_labelled v' Hv').
  - destruct (relation_type_names _ !! type) as [t|] eqn:Ht; cbn [ok_or mbind res_bind]; [|done]. intros [= <-]. cbn [execute].
    apply Hdone. exists t. split; [done|]. eexists. split_and!; [apply ascending_Z, set_iter_ascending| |reflexivity].
    intros e. apply (elem_of_typed v' Hv').
  - destruct (bind_comparison v key value) as [[id x]| | |] eqn:Hb; cbn [mbind res_bind]; [|done..]. intros [= <-].
    cbn [execute]. destruct (equal_rows _ _ _ _ (bind_comparison_Ok _ _ _ _ _ Hb)) as (rows & -> & Hrows). by apply Hdone.
  - unfold lower_graph_walk. destruct (projection_names _ !! projection) as [id|] eqn:Hid; cbn [ok_or mbind res_bind]; [|done].
    destruct (projections _ !! id) as [entry|]; cbn [ok_or mbind res_bind]; [|done].
    destruct (projection_definition entry); [|done].
    destruct (parse_integer 0 u64_max element) as [seed|] eqn:Hseed; cbn [ok_or mbind res_bind]; [|done]. intros [= <-].
    split; [|done]. intros rows. cbn [execute]. unfold execute_graph_walk.
    destruct (graph_projection v' id) as [g| | |] eqn:Hg; cbn [mbind res_bind]; [|done..].
    destruct (walk_graph_projection g [seed] options) as [sg| | |] eqn:Hw; cbn [mbind res_bind]; [|done..]. intros [= <-].
    by exists id, seed, g, sg.
  - destruct (bind_predicate v p) as [b| | |] eqn:Hb; cbn [mbind res_bind]; [|done..]. intros [= <-]. cbn [execute].
    unfold filter_elements. rewrite (elements_run v' Hv'), bind_Ok. apply Hdone.
    eapply id_rows_proper, (id_rows_records QElement _ (λ r, evaluate v' b (el_id r) = true)), Me.
    intros e. unfold visible_element, is_Some. setoid_rewrite view_element_lookup. rewrite <-(evaluate_bound v v' p b Hb). split.
    + intros (r & Hr & He). rewrite (Me _ _ Hr : el_id r = e) in He. by split; [exists r|].
    + intros [[r Hr] He]. exists r. by rewrite (Me _ _ Hr : el_id r = e).
Qed.

End rows.

Lemma bind_predicate_returns `{OverlayLayer L} (v : LayeredState L) p : returns (bind_predicate v p).
Proof.
  assert (∀ key value, returns (bind_comparison v key value)) as Hc.
  { intros key value. unfold bind_comparison. apply returns_bind; [apply returns_ok_or|]. intros id _. apply returns_bind.
    - apply returns_map_err. unfold parse_value_token. repeat case_decide; [done..|]. destruct (parse_integer _ _ _); [done|].
      apply returns_bind; [|done]. unfold parse_quoted. by repeat destruct (_ ≫= _).
    - intros x _. apply returns_bind; [|done]. unfold validate_lookup_value_for_family.
      apply returns_bind; [apply returns_ok_or|]. intros d _. by repeat case_decide. }
  induction p as [key op value|l IHl r IHr|l IHl r IHr]; cbn [bind_predicate].
  - apply returns_bind; [apply Hc|]. by intros [].
  - apply returns_bind; [done|]. intros bl _. apply returns_bind; [done|]. done.
  - apply returns_bind; [done|]. intros bl _. apply returns_bind; [done|]. done.
Qed.

Lemma bind_and_lower_returns `{!Target} `{OverlayLayer L} (v : LayeredState L) op : returns (bind_and_lower v op).
Proof.
  pose proof (bind_predicate_returns v) as Hp. destruct op as [| | | |label|type|key value|projection element options|p]; cbn [bind_and_lower]; try done.
  - apply returns_bind; [apply returns_ok_or|done].
  - apply returns_bind; [apply returns_ok_or|done].
  - specialize (Hp (LCompare key OpEq value)). cbn [bind_predicate] in Hp. destruct (bind_comparison v key value) as [[]| | |]; done.
  - unfold lower_graph_walk. apply returns_bind; [apply returns_ok_or|]. intros id _. apply returns_bind; [apply returns_ok_or|].
    intros entry _. destruct (projection_definition entry); [|done]. apply returns_bind; [apply returns_ok_or|done].
  - apply returns_bind; [apply Hp|done].
Qed.

(** C33. OxQL queries on published states. Preparing any text ends with a plan or
    an error. Executing a plan on the state it was prepared on, or on any later
    one whose catalog has kept its property keys, gives exactly the rows the text
    denotes: all elements, relations or incidences, the elements with a label, the
    relations of a type, or the elements whose visible properties satisfy the
    predicate, each once and in ascending order, whether a plan scans, filters or
    asks an index; and only a walk can fail. *)
Theorem query_rows_exact `{!Target} base next catalog o o' query :
  Opened base next catalog → published base next catalog o → published base next catalog o' →
  property_keys (o_catalog o) ⊆ property_keys (o_catalog o') →
  match prepare (layered base o) query with
  | Ok pq => ∃ op, parse_oxql (trim query) = Ok op ∧
      (∀ rows, execute (layered base o') (pq_plan pq) = Ok rows → op_rows (o_catalog o) (layered base o') op rows) ∧
      (is_walk op = false → ∃ rows, execute (layered base o') (pq_plan pq) = Ok rows)
  | Err _ => True
  | Panic | NoFuel => False
  end.
Proof.
  intros Ho Hp Hp' Hkeys. pose proof (published_view _ _ _ _ Ho Hp') as Hv'. unfold prepare. case_decide; [done|].
  pose proof (parse_oxql_answered (trim query)) as Ha. destruct (parse_oxql (trim query)) as [op|e| |]; [|done..].
  cbn [mbind res_bind]. pose proof (bind_and_lower_returns (layered base o) op) as Hb.
  destruct (bind_and_lower (layered base o) op) as [plan|e| |] eqn:Hplan; [|done..]. cbn [mbind res_bind pq_plan].
  exists op. split; [done|]. exact (plan_rows (layered base o) (layered base o') Hv' Hkeys op plan Hplan).
Qed.

(** Both elements of the sample have the text property [k]. *)
Lemma query_rows_exact_witness :
  match prepare (H := target64) (layered sample_base sample_overlay) (text_of " match elements where k = 'x' or k > 'x' ") with
  | Ok pq => execute (H := target64) (layered sample_base sample_overlay) (pq_plan pq) = Ok [[QElement 1]; [QElement 2]] ∧
      ∃ op, is_walk op = false ∧ op_rows (H := target64) (o_catalog sample_overlay) (layered sample_base sample_overlay) op
        [[QElement 1]; [QElement 2]]
  | _ => False
  end.
Proof.
  pose proof (query_rows_exact (H := target64) _ _ _ _ _ (text_of " match elements where k = 'x' or k > 'x' ")
    sample_opened sample_published sample_published (reflexivity _)) as Hq.
  assert (match prepare (H := target64) (layered sample_base sample_overlay) (text_of " match elements where k = 'x' or k > 'x' ") with
    | Ok pq => execute (H := target64) (layered sample_base sample_overlay) (pq_plan pq) = Ok [[QElement 1]; [QElement 2]]
    | _ => False end) as Hrun by (clear Hq; vm_compute; done).
  assert (match parse_oxql (H := target64) (trim (text_of " match elements where k = 'x' or k > 'x' ")) with
    | Ok op => is_walk op = false | _ => False end) as Hop by (clear Hq Hrun; vm_compute; done).
  destruct (prepare _ _) as [pq| | |]; [|done..]. split; [exact Hrun|]. destruct Hq as (op & Hparse & Hrows & _).
  rewrite Hparse in Hop. exists op. split; [exact Hop|]. by apply Hrows.
Defined.
