(* ===== verification/Reader.v ===== *)
(** * Reader: read transactions

    Models [crates/oxgraph-db/src/database/reader.rs], the owned views of
    [crates/oxgraph-db/src/read.rs] and the read side of the handle
    ([Db::reader], [pin], [bind], [catalog_summary] of [database/mod.rs]). A
    reader pins a snapshot: the base's records and a published overlay. The
    PageRank methods, which compute in [f64], are not modelled. *)

From Stdlib Require Import String.
From stdpp Require Import base gmap sets list strings.
From S2P Require Import Prelude Bytes Ordered Layout DbError DbWire DbState OverlayIndex Overlay Merge DbWriter Database Topology Algo Projection Traversal Query.

Local Open Scope Z_scope.

(** ** Owned views ([read.rs]) *)

(** The [Properties] of one subject. *)
Definition PropertyBag : Type := gmap Z PropertyValue.

Definition from_pairs (pairs : list (Z * PropertyValue)) : PropertyBag :=
  foldl (λ (m : gmap Z PropertyValue) p, <[p.1 := p.2]> m) ∅ pairs.

Section views.
Context `{!Target}.

(** [PropertyValue::as_*]: what [Readable] reads a value as. *)
Definition as_text (v : PropertyValue) : option (list byte) := match v with PText s => Some s | PBoolean _ | PInteger _ => None end.
Definition as_int (v : PropertyValue) : option Z := match v with PInteger z => Some z | PBoolean _ | PText _ => None end.
Definition as_count (v : PropertyValue) : option Z :=
  match v with
  | PInteger z => if decide (0 ≤ z) then try_into usize_max z else None
  | PBoolean _ | PText _ => None
  end.
Definition as_bool (v : PropertyValue) : option bool := match v with PBoolean b => Some b | PInteger _ | PText _ => None end.
End views.

(** [Properties::get] and [require]; [read] is the [Readable] implementation. *)
Definition properties_get {A} (read : PropertyValue → option A) (bag : PropertyBag) (key : Z) : option A :=
  value ← bag !! key; read value.
Definition properties_require {A} (read : PropertyValue → option A) (bag : PropertyBag) (key : Z) : res DbError A :=
  ok_or (Query (MissingProperty key)) (properties_get read bag key).
Definition properties_value (bag : PropertyBag) (key : Z) : option PropertyValue := bag !! key.
Definition properties_len (bag : PropertyBag) : Z := Z.of_nat (size bag).
Definition properties_iter (bag : PropertyBag) : list (Z * PropertyValue) := map_iter bag.

Record Element := { e_id : Z; e_labels : list Z; e_properties : PropertyBag }.
Record Relation := { r_id : Z; r_relation_type : option Z; r_labels : list Z; r_properties : PropertyBag }.

(** [labels.binary_search(&label).is_ok()]. *)
Definition label_search (labels : list Z) (label : Z) : bool :=
  bool_decide (is_Some (binary_search (List.length labels) (λ i, Z.compare (default 0 (labels !! i)) label))).
Definition element_has (e : Element) (label : Z) : bool := label_search (e_labels e) label.
Definition relation_has (r : Relation) (label : Z) : bool := label_search (r_labels r) label.

(** ** The reader *)

(** [Snapshot]. *)
Record Snapshot := { sn_generation : Z; sn_lsn : Z; sn_view : LayeredState Overlay }.
Record ReadPin := { visible_commit_seq : Z; pin_generation : Z }.
Record Reader := { rd_snapshot : Snapshot }.

Inductive IndexProbe :=
  | ProbeAll
  | ProbeEqual (value : PropertyValue)
  | ProbeRange (min max : PropertyValue)
  | ProbeComposite (values : list PropertyValue).

(** [Db::reader] and [Db::pin]: the handle's current snapshot. *)
Definition current_snapshot (bf : BaseFile) (db : Db) : Snapshot := {|
  sn_generation := db_generation db; sn_lsn := db_commit_seq db; sn_view := layered (bf_records bf) (db_overlay db) |}.
Definition db_reader (bf : BaseFile) (db : Db) : Reader := {| rd_snapshot := current_snapshot bf db |}.

Definition snapshot_pin (s : Snapshot) : ReadPin := {| visible_commit_seq := sn_lsn s; pin_generation := sn_generation s |}.
Definition db_pin (bf : BaseFile) (db : Db) : ReadPin := snapshot_pin (current_snapshot bf db).

Definition follow_direction (direction : Direction) (from to : Z) : bool :=
  match direction with
  | DirOutgoing => bool_decide (from < to)
  | DirIncoming => bool_decide (to < from)
  | DirBoth => true
  end.

Section reader.
Context (r : Reader).
Notation view := (sn_view (rd_snapshot r)).

Definition reader_pin : ReadPin := snapshot_pin (rd_snapshot r).
Definition reader_catalog : Catalog := view_catalog view.
Definition reader_element_count : res DbError Z := Merge.element_count view.
Definition reader_relation_count : res DbError Z := Merge.relation_count view.
Definition reader_incidence_count : res DbError Z := Merge.incidence_count view.
Definition reader_element_ids : res DbError (list Z) := '(rs : list ElementRecord) ← view_elements view; Ok (el_id <$> rs).
Definition reader_relation_ids : res DbError (list Z) := '(rs : list RelationRecord) ← view_relations view; Ok (rel_id <$> rs).
Definition reader_contains_element (id : Z) : bool := Merge.contains_element view id.
Definition reader_contains_relation (id : Z) : bool := Merge.contains_relation view id.
Definition reader_contains_incidence (id : Z) : bool := Merge.contains_incidence view id.

Definition reader_element (id : Z) : option Element :=
  record ← view_element view id;
  Some {| e_id := id; e_labels := set_iter (el_labels record);
          e_properties := from_pairs (view_subject_properties view (SElement id)) |}.

Definition reader_relation (id : Z) : option Relation :=
  record ← view_relation view id;
  Some {| r_id := id; r_relation_type := rel_type record; r_labels := set_iter (rel_labels record);
          r_properties := from_pairs (view_subject_properties view (SRelation id)) |}.

Definition reader_incidence (id : Z) : option IncidenceRecord := view_incidence view id.
Definition reader_element_incidences (id : Z) : list IncidenceRecord := view_element_incidences view id.
Definition reader_relation_incidences (relation : Z) : list IncidenceRecord := view_relation_incidences view relation.

Definition endpoints (relation : Z) : option (Z * Z) :=
  match view_relation_incidences view relation with
  | first :: second :: _ => Some (inc_element first, inc_element second)
  | _ => None
  end.

(** What one incidence of the element adds. *)
Definition extend_neighbors (element relation_type : Z) (direction : Direction) (found : gset Z) (incidence : IncidenceRecord)
    : gset Z :=
  let matches_type := bool_decide ((view_relation view (inc_relation incidence) ≫= rel_type) = Some relation_type) in
  if negb matches_type then found
  else
    let others := filter (λ other, follow_direction direction (inc_id incidence) (inc_id other) = true)
                    (filter (λ other, inc_element other ≠ element) (view_relation_incidences view (inc_relation incidence))) in
    foldl (λ found other, {[inc_element other]} ∪ found) found others.

Definition neighbors (element relation_type : Z) (direction : Direction) : list Z :=
  set_iter (foldl (extend_neighbors element relation_type direction) ∅ (view_element_incidences view element)).

(** [property] and [value] (a [Cow] is its value) and [text]. *)
Definition reader_property (subject : PropertySubject) (key : Z) : option PropertyValue := view_property view subject key.
Definition reader_text (subject : PropertySubject) (key : Z) : option (list byte) :=
  value ← view_property view subject key; match value with PText text => Some text | _ => None end.

Definition lookup_property_equal (key : Z) (value : PropertyValue) : res DbError (list PropertySubject) :=
  typed_property_equal view key value.
Definition lookup_property_range (key : Z) (min max : PropertyValue) : res DbError (list PropertySubject) :=
  typed_property_range view key min max.

(** Also what [GraphProjection] and [HypergraphProjection] need of the target. *)
Section target.
Context `{!Target}.

Definition projection_index_subjects (projection : Z) : res DbError (list PropertySubject) :=
  entry ← ok_or (unknown FamilyProjection projection) (projections (view_catalog view) !! projection);
  match projection_definition entry with
  | GraphProjection definition => p ← graph_from_state view definition; Ok (graph_subjects p)
  | HypergraphProjection definition => p ← hyper_from_state view definition; Ok (hyper_subjects p)
  end.

Definition reader_lookup (index : Z) (probe : IndexProbe) : res DbError (list PropertySubject) :=
  entry ← ok_or (unknown FamilyIndex index) (indexes (view_catalog view) !! index);
  match index_definition entry, probe with
  | IndexLabel label, ProbeAll => Ok (SElement <$> view_elements_with_label view label)
  | IndexLabel _, _ => Err (unsupported "label index expects all lookup")
  | IndexRelationType relation_type, ProbeAll => Ok (SRelation <$> view_relations_with_type view relation_type)
  | IndexRelationType _, _ => Err (unsupported "relation type index expects all lookup")
  | IndexPropertyEquality key, ProbeEqual value => typed_property_equal view key value
  | IndexPropertyEquality _, _ => Err (unsupported "property equality index expects equality lookup")
  | IndexPropertyRange key, ProbeRange min max => typed_property_range view key min max
  | IndexPropertyRange _, _ => Err (unsupported "property range index expects range lookup")
  | IndexCompositeEquality keys, ProbeComposite values => typed_property_composite_equal view keys values
  | IndexCompositeEquality _, _ => Err (unsupported "composite equality index expects composite equality lookup")
  | IndexProjection projection, ProbeAll => projection_index_subjects projection
  | IndexProjection _, _ => Err (unsupported "projection index expects all lookup")
  end.

Definition element_by_key (index : Z) (value : Assign) : res DbError (option Element) :=
  value ← into_value value;
  subjects ← reader_lookup index (ProbeEqual value);
  Ok (first_element subjects ≫= reader_element).

Definition reader_count (index : Z) : res DbError Z :=
  '(subjects : list PropertySubject) ← reader_lookup index ProbeAll; Ok (zlen subjects).

(** [graph_projection] is [Query.graph_projection] of the view. *)
Definition reader_graph_projection (id : Z) : res DbError GraphProjectionView := graph_projection view id.
Definition graph_projection_by_name (name : list byte) : res DbError GraphProjectionView :=
  id ← ok_or (unsupported (message "unknown projection " name)) (projection_names (view_catalog view) !! name);
  graph_projection view id.
Definition hypergraph_projection (id : Z) : res DbError HypergraphProjectionView :=
  entry ← ok_or (unknown FamilyProjection id) (projections (view_catalog view) !! id);
  match projection_definition entry with
  | HypergraphProjection definition => hyper_from_state view definition
  | GraphProjection _ => Err (invalid_projection "projection is not a hypergraph")
  end.

Definition reader_walk (projection : Z) (seeds : list Z) (options : Walk) : res DbError Subgraph :=
  if decide (seeds = [] ∨ walk_limit options = 0) then Ok empty_subgraph
  else graph ← graph_projection view projection; walk_graph_projection graph seeds options.

(** The fuel is more than the elements of the projection. *)
Definition longest_path (projection : Z) (elements : list Z) : res DbError (list Z) :=
  if decide (elements = []) then Ok []
  else
    graph ← graph_projection view projection;
    let locals := omap (gv_local_element_id graph) elements in
    path ← map_err (λ _, traversal "longest path found a cycle") (longest_path_dag (S (element_bound graph)) graph locals);
    mapM (gv_canonical_element_id graph) path.

Definition reader_run (query : PreparedQuery) : res DbError QueryResult := execute view (pq_plan query).

End target.
End reader.

(** ** The handle *)

(** [Db::prepare]. *)
Definition db_prepare `{!Target} (bf : BaseFile) (db : Db) (query : list byte) : res DbError PreparedQuery :=
  prepare (sn_view (current_snapshot bf db)) query.

Record CatalogSummary := {
  role_count : Z; label_count : Z; relation_type_count : Z; property_key_count : Z; projection_count : Z; index_count : Z
}.
Definition catalog_summary (c : Catalog) : CatalogSummary := {|
  role_count := zlen (map_iter (roles c)); label_count := zlen (map_iter (labels c));
  relation_type_count := zlen (map_iter (relation_types c)); property_key_count := zlen (map_iter (property_keys c));
  projection_count := zlen (map_iter (projections c)); index_count := zlen (map_iter (indexes c))
|}.

(** [Db::bind]. *)
Section bind.
Context (c : Catalog).

Definition bind_names (find : list byte → option Z) (kind : string) (put : Bound → list byte → Z → Bound)
    (names : list (list byte)) (b : Bound) : res DbError Bound :=
  for_each (λ b name, id ← ok_or (unknown_name kind name) (find name); Ok (put b name id)) names b.

Definition bind_schema_key (b : Bound) (k : list byte * PropertyFamily * PropertyType) : res DbError Bound :=
  id ← ok_or (unknown_name "property key" k.1.1) (property_key_names c !! k.1.1);
  Ok (bind_key b k.1.1 (id, k.2)).

Definition bind_schema_index (b : Bound) (p : list byte * list byte) : res DbError Bound :=
  '(_, type) ← ok_or (unknown_name "property key" p.2) (bd_keys b !! p.2);
  id ← ok_or (unknown_name "index" p.1) (index_names c !! p.1);
  Ok (bind_equality_index b p.1 (id, type)).

Definition bind_schema (schema : Schema) : res DbError Bound :=
  b ← bind_names (λ name, role_names c !! name) "role" bind_role (sc_roles schema) empty_bound;
  b ← bind_names (λ name, label_names c !! name) "label" bind_label (sc_labels schema) b;
  b ← bind_names (λ name, relation_type_names c !! name) "relation type" bind_relation_type (sc_relation_types schema) b;
  b ← for_each bind_schema_key (sc_keys schema) b;
  b ← for_each bind_schema_index (sc_equality_indexes schema) b;
  b ← bind_names (λ name, projection_names c !! name) "projection" bind_projection (gs_name <$> sc_graph_projections schema) b;
  bind_names (λ name, projection_names c !! name) "projection" bind_projection (hs_name <$> sc_hypergraph_projections schema) b.

End bind.

Definition db_bind (bf : BaseFile) (db : Db) (schema : Schema) : res DbError Bound :=
  bind_schema (view_catalog (sn_view (current_snapshot bf db))) schema.
