(* ===== verification/ReaderFacts.v ===== *)
(** * ReaderFacts: what a reader of a published state sees

    Theorems about the methods of [Reader] on published states: the lookups
    by an index of any kind, [element_by_key] and [count] return exactly the
    matching subjects or the error that says why not, the neighbors of an element
    are its far ends, the owned views agree with the single reads, and the walks
    and longest paths of a cataloged projection are those of the visible
    relations.

    [Reader::walk] and [Reader::longest_path] compose the catalog, the
    materialization of a graph projection and a traversal of it. The theorems
    state their answers by the visible relations alone. *)

From Stdlib Require Import String.
From stdpp Require Import base gmap sets list strings sorting.
From S2P Require Import Prelude Bytes Ordered DbError DbWire DbState OverlayIndex Overlay OverlayReplay Merge MergeFacts IndexFacts DbWriter Store WriterRefines StoreFacts WriterFacts Layout Database Topology BfsSpec Algo AlgoFacts.
From S2P Require Import ToposortFacts Projection ProjectionFacts HyperProjectionFacts Traversal Query QueryFacts QueryExec Reader.

Local Open Scope Z_scope.

(** ** Index lookups *)

Lemma key_ascending_NoDup {A} `{KeyOrder A} (l : list A) : StronglySorted key_lt l → NoDup l.
Proof.
  induction 1 as [|a l _ IH Ha]; constructor; [|done]. rewrite Forall_forall in Ha. intros Hin. by destruct (key_lt_irrefl a), (Ha a Hin).
Qed.

Section lookups.
Context `{!Target} `{OverlayLayer L} (v : LayeredState L) (Hv : ViewWf v).

(** *** What an index finds *)

Notation visible := (snd <$> map_iter (all_relations v)).

(** The key has the type of the value. *)
Definition typed_value (c : Catalog) (key : Z) (x : PropertyValue) : Prop :=
  ∃ d, property_keys c !! key = Some d ∧ key_type d = value_type x.

(** The projection exists on the view: its relations have the shape it asks for
    and its local ids fit. *)
Definition projects (d : ProjectionDefinition) : Prop :=
  match d with
  | GraphProjection g => Forall (λ q, is_Some (binary_ends v g q)) (selected_relations g visible) ∧ graph_ids_fit v g visible
  | HypergraphProjection h =>
      (hp_source_roles h ≠ ∅ ∧ hp_target_roles h ≠ ∅ ∧ Forall (directed v h) (hyper_selected h visible)) ∧
      relations_fit v (hyper_selected h visible) ∧ participants_fit v h (hyper_selected h visible)
  end.

(** The subjects of a projection: the selected relations and their end points;
    for a hypergraph, all their incidences and the elements of these. *)
Definition projected_subject (d : ProjectionDefinition) (s : PropertySubject) : Prop :=
  match d with
  | GraphProjection g => ∃ q e, q ∈ selected_relations g visible ∧ binary_ends v g q = Some e ∧
      (s = SRelation (rel_id q) ∨ s = SElement e.1 ∨ s = SElement e.2)
  | HypergraphProjection h => ∃ q, q ∈ hyper_selected h visible ∧
      (s = SRelation (rel_id q) ∨ ∃ i, i ∈ view_relation_incidences v (rel_id q) ∧ (s = SIncidence (inc_id i) ∨ s = SElement (inc_element i)))
  end.

(** The probes an index of a definition answers. *)
Definition probe_fits (definition : IndexDefinition) (probe : IndexProbe) : Prop :=
  match definition, probe with
  | IndexLabel _, ProbeAll | IndexRelationType _, ProbeAll => True
  | IndexPropertyEquality key, ProbeEqual x => typed_value (view_catalog v) key x
  | IndexPropertyRange key, ProbeRange min max => typed_value (view_catalog v) key min ∧ typed_value (view_catalog v) key max
  | IndexCompositeEquality keys, ProbeComposite xs => Forall2 (typed_value (view_catalog v)) keys xs
  | IndexProjection p, ProbeAll => ∃ entry, projections (view_catalog v) !! p = Some entry ∧ projects (projection_definition entry)
  | _, _ => False
  end.

(** The subjects the index is meant to find. *)
Definition probed (definition : IndexDefinition) (probe : IndexProbe) (s : PropertySubject) : Prop :=
  match definition, probe with
  | IndexLabel label, ProbeAll => ∃ e r, s = SElement e ∧ view_element v e = Some r ∧ label ∈ el_labels r
  | IndexRelationType t, ProbeAll => ∃ q r, s = SRelation q ∧ view_relation v q = Some r ∧ rel_type r = Some t
  | IndexPropertyEquality key, ProbeEqual x => view_property v s key = Some x
  | IndexPropertyRange key, ProbeRange min max => ∃ x, view_property v s key = Some x ∧ key_le min x ∧ key_le x max
  | IndexCompositeEquality keys, ProbeComposite xs => Forall2 (λ key x, view_property v s key = Some x) keys xs
  | IndexProjection p, ProbeAll => ∃ entry, projections (view_catalog v) !! p = Some entry ∧ projected_subject (projection_definition entry) s
  | _, _ => False
  end.

(** *** How an index refuses a probe *)

(** The shape of probe each kind of index takes, and what it says to any other. *)
Definition shape_fits (definition : IndexDefinition) (probe : IndexProbe) : Prop :=
  match definition, probe with
  | (IndexLabel _ | IndexRelationType _ | IndexProjection _), ProbeAll | IndexPropertyEquality _, ProbeEqual _
  | IndexPropertyRange _, ProbeRange _ _ | IndexCompositeEquality _, ProbeComposite _ => True
  | _, _ => False
  end.
Definition shape_expected (definition : IndexDefinition) : string :=
  match definition with
  | IndexLabel _ => "label index expects all lookup"
  | IndexRelationType _ => "relation type index expects all lookup"
  | IndexPropertyEquality _ => "property equality index expects equality lookup"
  | IndexPropertyRange _ => "property range index expects range lookup"
  | IndexCompositeEquality _ => "composite equality index expects composite equality lookup"
  | IndexProjection _ => "projection index expects all lookup"
  end.

(** The value has another type than its key: the expected type is named first. *)
Definition mistyped (key : Z) (x : PropertyValue) (e : DbError) : Prop :=
  ∃ d, property_keys (view_catalog v) !! key = Some d ∧ key_type d ≠ value_type x ∧
    e = Query (PropertyTypeMismatch (key_type d) (value_type x)).

(** Materializing the projection fails: its shape is wrong, or the ids run out. *)
Definition unprojected (d : ProjectionDefinition) (e : DbError) : Prop :=
  match d with
  | GraphProjection g =>
      ((∃ m, e = invalid_projection m) ∧ ¬ Forall (λ q, is_Some (binary_ends v g q)) (selected_relations g visible)) ∨
      ((∃ family, e = id_overflow family) ∧ ¬ graph_ids_fit v g visible)
  | HypergraphProjection h =>
      ((∃ m, e = invalid_projection m) ∧
        (hp_source_roles h = ∅ ∨ hp_target_roles h = ∅ ∨ ¬ Forall (directed v h) (hyper_selected h visible))) ∨
      ((∃ family, e = id_overflow family) ∧
        ¬ (relations_fit v (hyper_selected h visible) ∧ participants_fit v h (hyper_selected h visible)))
  end.

(** The error is the one that materializing the projection ends with. *)
Definition materialize_fails (d : ProjectionDefinition) (e : DbError) : Prop :=
  match d with
  | GraphProjection g => graph_from_state v g = Err e
  | HypergraphProjection h => hyper_from_state v h = Err e
  end.

(** The error of a probe: a wrong shape first; then the lower bound of a range
    before the upper one, and the first mistyped value of a tuple. *)
Inductive probe_refused : IndexDefinition → IndexProbe → DbError → Prop :=
  | refused_shape definition probe :
      ¬ shape_fits definition probe → probe_refused definition probe (unsupported (shape_expected definition))
  | refused_equal key x e : mistyped key x e → probe_refused (IndexPropertyEquality key) (ProbeEqual x) e
  | refused_min key min max e : mistyped key min e → probe_refused (IndexPropertyRange key) (ProbeRange min max) e
  | refused_max key min max e :
      typed_value (view_catalog v) key min → mistyped key max e → probe_refused (IndexPropertyRange key) (ProbeRange min max) e
  | refused_arity keys xs : length keys ≠ length xs →
      probe_refused (IndexCompositeEquality keys) (ProbeComposite xs) (unsupported "composite equality tuple arity mismatch")
  | refused_tuple keys xs key x keys' xs' e :
      Forall2 (typed_value (view_catalog v)) keys xs → mistyped key x e → length keys' = length xs' →
      probe_refused (IndexCompositeEquality (keys ++ key :: keys')) (ProbeComposite (xs ++ x :: xs')) e
  | refused_projection p entry e : projections (view_catalog v) !! p = Some entry →
      materialize_fails (projection_definition entry) e → unprojected (projection_definition entry) e → probe_refused (IndexProjection p) ProbeAll e.

Lemma mistyped_not_typed key x e : mistyped key x e → ¬ typed_value (view_catalog v) key x.
Proof using Type. intros (d & Hd & Hn & _) (d' & Hd' & ?). congruence. Qed.

Lemma unprojected_not_projects d e : unprojected d e → ¬ projects d.
Proof using Type. destruct d; cbn; tauto. Qed.

(** A refused probe is not one the index answers. *)
Lemma refused_not_fits definition probe e : probe_refused definition probe e → ¬ probe_fits definition probe.
Proof using Type.
  destruct 1 as [definition probe Hs|key x e Hx|key min max e Hx|key min max e _ Hx|keys xs Hl|keys xs key x keys' xs' e Hp Hx Hl|p entry e He _ Hu].
  - by destruct definition, probe.
  - by apply mistyped_not_typed in Hx.
  - apply mistyped_not_typed in Hx. cbn. tauto.
  - apply mistyped_not_typed in Hx. cbn. tauto.
  - by intros ?%Forall2_length.
  - apply mistyped_not_typed in Hx. intros Hf. apply Forall2_app_inv in Hf as [_ Hf]; [|by apply Forall2_length in Hp].
    by apply Forall2_cons in Hf as [? _].
  - intros (entry' & He' & Hp). simplify_eq. by destruct (unprojected_not_projects _ _ Hu).
Qed.

Lemma validate_spec key x : is_Some (property_keys (view_catalog v) !! key) →
  match validate_lookup_value v key x with
  | Ok _ => typed_value (view_catalog v) key x
  | Err e => mistyped key x e
  | Panic | NoFuel => False
  end.
Proof using Type.
  intros [d Hd]. unfold validate_lookup_value, typed_value. rewrite Hd. cbn [ok_or mbind res_bind]. case_decide as Ht.
  - by exists d.
  - exists d. split; [done|]. destruct (decide (key_type d = value_type x)) as [?|?]; [done|by destruct Ht].
Qed.

Lemma validate_all keys : ∀ xs, length keys = length xs → (∀ key, key ∈ keys → is_Some (property_keys (view_catalog v) !! key)) →
  match for_each (λ (_ : ()) p, validate_lookup_value v p.1 p.2) (zip keys xs) () with
  | Ok _ => Forall2 (typed_value (view_catalog v)) keys xs
  | Err e => probe_refused (IndexCompositeEquality keys) (ProbeComposite xs) e
  | Panic | NoFuel => False
  end.
Proof using Type.
  induction keys as [|key keys IH]; intros [|x xs]; [constructor|done..|]. intros [= Hl] Hk. cbn [zip zip_with for_each fst snd].
  pose proof (validate_spec key x (Hk key ltac:(by left))) as Hx.
  destruct (validate_lookup_value v key x) as [[]|e| |]; [|by apply (refused_tuple [] [])|done..].
  cbn [mbind res_bind]. specialize (IH xs Hl ltac:(intros k Hin; apply Hk; by right)). unfold zip in IH.
  destruct (for_each _ _ _) as [?|e| |]; [by constructor| |done..].
  inversion IH as [? ? Hs| | | |? ? Hn|ks ys k y ks' ys' ? Hf Hy Hl'|]; subst; [by destruct Hs|done|].
  by apply (refused_tuple (key :: ks) (x :: ys)); [constructor|..].
Qed.

Lemma probed_label label s : s ∈ SElement <$> view_elements_with_label v label ↔ probed (IndexLabel label) ProbeAll s.
Proof using Hv. cbn. rewrite list_elem_of_fmap. setoid_rewrite (elem_of_labelled v Hv). naive_solver. Qed.

Lemma probed_type t s : s ∈ SRelation <$> view_relations_with_type v t ↔ probed (IndexRelationType t) ProbeAll s.
Proof using Hv. cbn. rewrite list_elem_of_fmap. setoid_rewrite (elem_of_typed v Hv). naive_solver. Qed.

Lemma composite_zip keys xs s : length keys = length xs →
  Forall (λ q, view_property v s q.1 = Some q.2) (zip keys xs) ↔ Forall2 (λ key x, view_property v s key = Some x) keys xs.
Proof using Type.
  revert xs. induction keys as [|key keys IH]; intros [|x xs]; [by split; constructor|done..|]. intros [= Hl]. cbn [zip zip_with].
  rewrite Forall_cons, Forall2_cons. cbn [fst snd]. by rewrite <-IH.
Qed.

Lemma probed_composite keys xs s : keys ≠ [] → length keys = length xs →
  s ∈ property_composite_equal (layer_index (ls_overlay v)) (base_index (ls_base v)) (zip keys xs) ↔
  probed (IndexCompositeEquality keys) (ProbeComposite xs) s.
Proof using Hv.
  intros Hk Hl. rewrite (elem_of_composite v) by (by destruct keys, xs). cbn. rewrite <-composite_zip by done.
  apply Forall_iff. intros q. apply (coherent_values _ (vw_coherent _ Hv)).
Qed.

(** ** The subjects of a projection *)

(** What materializing the projection needs of the memory. *)
Definition projection_in_memory (d : ProjectionDefinition) : Prop :=
  match d with
  | GraphProjection _ => 2 * zlen visible < usize_max
  | HypergraphProjection h => 2 * zlen (all_incidences_of v (hyper_selected h visible)) < usize_max
  end.

Lemma sorted_subjects (l : list PropertySubject) : NoDup l →
  StronglySorted key_lt (merge_sort key_le l) ∧ ∀ s, s ∈ merge_sort key_le l ↔ s ∈ l.
Proof using Type.
  intros Hl. split; [|intros s; by rewrite merge_sort_Permutation].
  apply (sorted_ascending id); [apply (StronglySorted_merge_sort key_le)|]. by rewrite list_fmap_id, merge_sort_Permutation.
Qed.

Lemma visible_ids : NoDup (rel_id <$> visible).
Proof using Hv.
  destruct (coherent_maps v (vw_coherent _ Hv)) as (_ & Mr & _). apply ascending_NoDup, (values_ascending _ Mr).
Qed.

Lemma selected_ids (P : RelationRecord → Prop) `{!∀ q, Decision (P q)} : NoDup (rel_id <$> filter P visible).
Proof using Hv. eapply sublist_NoDup; [apply visible_ids|]. apply fmap_sublist, sublist_filter. Qed.

(** No incidence is listed twice by distinct relations. *)
Lemma incidence_ids (rs : list RelationRecord) : NoDup (rel_id <$> rs) → NoDup (inc_id <$> all_incidences_of v rs).
Proof using Hv.
  intros Hrs. apply NoDup_fmap_2_strong.
  - intros i j (q & Hi & _)%list_elem_of_bind (q' & Hj & _)%list_elem_of_bind He.
    apply (elem_of_relation_incidences v Hv) in Hi as [Hi _], Hj as [Hj _]. congruence.
  - apply NoDup_bind; [| |by apply NoDup_fmap_1 in Hrs].
    + intros q q' i Hq Hq' Hi Hi'. apply (elem_of_relation_incidences v Hv) in Hi as [_ Hi], Hi' as [_ Hi'].
      apply list_elem_of_lookup in Hq as [j Hj], Hq' as [j' Hj']. assert (j = j') as ->; [|congruence].
      eapply NoDup_lookup; [exact Hrs| |]; rewrite list_lookup_fmap, ?Hj, ?Hj'; [done|]. cbn. congruence.
    + intros q _. pose proof (index_relation_incidences v (vw_coherent _ Hv) (rel_id q)) as Hs. unfold relation_incidences_scan in Hs.
      rewrite (incidences_run v Hv), bind_Ok in Hs. injection Hs as Hs. unfold incidences_of. cbn. rewrite <-Hs. apply NoDup_filter.
      destruct (coherent_maps v (vw_coherent _ Hv)) as (_ & _ & Mi). eapply NoDup_fmap_1, ascending_NoDup, (values_ascending _ Mi).
Qed.

Lemma elem_of_ends g sel c : c ∈ end_points (ends_of v g sel) ↔ ∃ q e, q ∈ sel ∧ binary_ends v g q = Some e ∧ (c = e.1 ∨ c = e.2).
Proof using Type.
  clear Hv. unfold end_points, ends_of. rewrite list_elem_of_bind. setoid_rewrite list_elem_of_omap. split.
  - intros (e & Hc & q & Hq & He). exists q, e. split_and!; [done..|]. set_solver.
  - intros (q & e & Hq & He & Hc). exists e. split; [set_solver|]. by exists q.
Qed.

Lemma graph_index_subjects g : projection_in_memory (GraphProjection g) →
  match (p ← graph_from_state v g; Ok (graph_subjects p)) with
  | Ok l => projects (GraphProjection g) ∧ StronglySorted key_lt l ∧ ∀ s, s ∈ l ↔ projected_subject (GraphProjection g) s
  | Err e => materialize_fails (GraphProjection g) e ∧ unprojected (GraphProjection g) e
  | Panic | NoFuel => False
  end.
Proof using Hv.
  intros Hm. pose proof (graph_from_state_cases v g visible (relations_run _ Hv) visible_ids Hm) as Hcases. cbn zeta in Hcases.
  destruct (graph_from_state v g) as [p|e| |] eqn:Hrun; cbn [mbind res_bind]; [|by split|done..].
  destruct Hcases as (Hall & Hfit & _ & Hp). split; [done|]. unfold graph_subjects.
  rewrite (gpd_relations _ _ _ Hp), (gpd_elements _ _ _ Hp). set (sel := selected_relations g visible) in *.
  destruct (first_occurrences_spec (end_points (ends_of v g sel))) as [Hnd Hin].
  destruct (sorted_subjects ((SElement <$> first_occurrences (end_points (ends_of v g sel))) ++ (SRelation <$> (rel_id <$> sel))))
    as [Hs Hel]; [|split; [done|]].
  - apply NoDup_app. split_and!; [by apply NoDup_fmap_2; [congruence|]| |apply NoDup_fmap_2; [congruence|apply selected_ids]].
    intros s (c & -> & _)%list_elem_of_fmap (q & [=] & _)%list_elem_of_fmap.
  - intros s. rewrite Hel, elem_of_app, !list_elem_of_fmap. setoid_rewrite Hin. setoid_rewrite elem_of_ends.
    setoid_rewrite list_elem_of_fmap. cbn. fold sel. rewrite Forall_forall in Hall. split.
    + intros [(c & -> & q & e & Hq & He & Hc)|(c & -> & q & -> & Hq)]; [exists q, e; naive_solver|].
      destruct (Hall q Hq) as [e He]. exists q, e. naive_solver.
    + intros (q & e & Hq & He & [-> |[-> | ->]]); naive_solver.
Qed.

Lemma hyper_index_subjects h : projection_in_memory (HypergraphProjection h) →
  match (p ← hyper_from_state v h; Ok (hyper_subjects p)) with
  | Ok l => projects (HypergraphProjection h) ∧ StronglySorted key_lt l ∧ ∀ s, s ∈ l ↔ projected_subject (HypergraphProjection h) s
  | Err e => materialize_fails (HypergraphProjection h) e ∧ unprojected (HypergraphProjection h) e
  | Panic | NoFuel => False
  end.
Proof using Hv.
  intros Hm. set (sel := hyper_selected h visible).
  assert (∀ q i, i ∈ incidences_of v q → inc_relation i = rel_id q) as Hat
    by (intros q i [_ Hi]%(elem_of_relation_incidences v Hv); done).
  pose proof (hyper_from_state_cases v h Hat visible (relations_run _ Hv) visible_ids (incidence_ids sel (selected_ids _)) Hm) as Hcases.
  cbn zeta in Hcases. destruct (hyper_from_state v h) as [p|e| |] eqn:Hrun; cbn [mbind res_bind]; [|by split|done..].
  destruct Hcases as (H1 & H2 & H3 & H4 & H5 & _ & Hp). split; [done|]. unfold hyper_subjects.
  rewrite (hpd_relations _ _ _ _ Hp), (hpd_elements _ _ _ _ Hp), (hpd_incidences _ _ _ _ Hp). fold sel.
  set (I := all_incidences_of v sel). destruct (first_occurrences_spec (inc_element <$> I)) as [Hnd Hin].
  pose proof (incidence_ids sel (selected_ids _)) as Hids. fold I in Hids.
  destruct (sorted_subjects ((SElement <$> first_occurrences (inc_element <$> I)) ++ (SRelation <$> (rel_id <$> sel)) ++
    ((λ i, SIncidence (inc_id i)) <$> I))) as [Hs Hel]; [|split; [done|]].
  - rewrite (list_fmap_compose inc_id SIncidence), !NoDup_app. split_and!; [by apply NoDup_fmap_2; [congruence|]|..].
    + intros s (c & -> & _)%list_elem_of_fmap [(q & [=] & _)%list_elem_of_fmap|(q & [=] & _)%list_elem_of_fmap]%elem_of_app.
    + apply NoDup_fmap_2; [congruence|apply selected_ids].
    + intros s (c & -> & _)%list_elem_of_fmap (q & [=] & _)%list_elem_of_fmap.
    + by apply NoDup_fmap_2; [congruence|].
  - intros s. rewrite Hel, !elem_of_app, !list_elem_of_fmap. setoid_rewrite Hin. setoid_rewrite list_elem_of_fmap.
    unfold I, all_incidences_of. setoid_rewrite list_elem_of_bind. cbn. fold sel. unfold incidences_of. cbn. naive_solver.
Qed.

Lemma fmap_ascending (f : Z → PropertySubject) l :
  (∀ a b, a < b → key_lt (f a) (f b)) → StronglySorted key_lt l → StronglySorted key_lt (f <$> l).
Proof using Type.
  intros Hf. induction 1 as [|a l _ IH Ha]; cbn; constructor; [done|]. apply Forall_fmap. eapply Forall_impl; [exact Ha|].
  intros b Hab. by apply Hf, key_lt_Z.
Qed.

Lemma subject_key_lt a b : (a < b → key_lt (SElement a) (SElement b)) ∧ (a < b → key_lt (SRelation a) (SRelation b)).
Proof using Type. unfold subject_order. rewrite !derived_lt. split; by right. Qed.

(** A lookup answers a probe with exactly the subjects meant, once each and in
    order, or refuses it; it never panics. *)
Definition answers (definition : IndexDefinition) (probe : IndexProbe) (result : res DbError (list PropertySubject)) : Prop :=
  match result with
  | Ok l => probe_fits definition probe ∧ StronglySorted key_lt l ∧ ∀ s, s ∈ l ↔ probed definition probe s
  | Err e => probe_refused definition probe e
  | Panic | NoFuel => False
  end.

Lemma equal_answers key x : is_Some (property_keys (view_catalog v) !! key) →
  answers (IndexPropertyEquality key) (ProbeEqual x) (typed_property_equal v key x).
Proof using Hv.
  intros Hk. unfold typed_property_equal. pose proof (validate_spec key x Hk) as Hval.
  destruct (validate_lookup_value v key x); cbn [mbind res_bind answers]; [|by apply refused_equal|done..].
  split_and!; [done|apply set_iter_ascending|intros s; apply (elem_of_view_equal _ Hv)].
Qed.

Lemma range_answers key min max : is_Some (property_keys (view_catalog v) !! key) →
  answers (IndexPropertyRange key) (ProbeRange min max) (typed_property_range v key min max).
Proof using Hv.
  intros Hk. unfold typed_property_range. pose proof (validate_spec key min Hk) as Hmin. pose proof (validate_spec key max Hk) as Hmax.
  destruct (validate_lookup_value v key min); cbn [mbind res_bind answers]; [|by apply refused_min|done..].
  destruct (validate_lookup_value v key max); cbn [mbind res_bind]; [|by apply refused_max|done..].
  case_decide as Hlt; (split; [done|split]).
  - constructor.
  - intros s. split; [by intros ?%not_elem_of_nil|]. intros (x & _ & Hx & Hx'). exfalso.
    apply (proj2 (key_nlt max min)); [by etrans|done].
  - unfold view_property_range, property_range. case_decide; [constructor|apply set_iter_ascending].
  - intros s. apply (elem_of_view_range _ Hv).
Qed.

Lemma composite_answers keys xs : keys ≠ [] → (∀ key, key ∈ keys → is_Some (property_keys (view_catalog v) !! key)) →
  answers (IndexCompositeEquality keys) (ProbeComposite xs) (typed_property_composite_equal v keys xs).
Proof using Hv.
  intros Hne Hk. unfold typed_property_composite_equal. case_decide as Hl; [by apply refused_arity|].
  assert (length keys = length xs) as Hl' by lia. pose proof (validate_all keys xs Hl' Hk) as Hval.
  destruct (for_each _ _ _); cbn [mbind res_bind answers]; [|done..]. split_and!; [done| |intros s; by apply probed_composite].
  unfold property_composite_equal. destruct (merge_sort _ _); [constructor|apply set_iter_ascending].
Qed.

Lemma projection_answers p entry : projections (view_catalog v) !! p = Some entry → projection_in_memory (projection_definition entry) →
  answers (IndexProjection p) ProbeAll
    match projection_definition entry with
    | GraphProjection definition => p ← graph_from_state v definition; Ok (graph_subjects p)
    | HypergraphProjection definition => p ← hyper_from_state v definition; Ok (hyper_subjects p)
    end.
Proof using Hv.
  intros He Hm.
  assert (match match projection_definition entry with
      | GraphProjection definition => p ← graph_from_state v definition; Ok (graph_subjects p)
      | HypergraphProjection definition => p ← hyper_from_state v definition; Ok (hyper_subjects p)
      end with
    | Ok l => projects (projection_definition entry) ∧ StronglySorted key_lt l ∧ ∀ s, s ∈ l ↔ projected_subject (projection_definition entry) s
    | Err e => materialize_fails (projection_definition entry) e ∧ unprojected (projection_definition entry) e
    | Panic | NoFuel => False
    end) as Hcases.
  { destruct (projection_definition entry) as [g|h]; [by apply graph_index_subjects|by apply hyper_index_subjects]. }
  destruct (match projection_definition entry with GraphProjection _ => _ | HypergraphProjection _ => _ end) as [l|e| |];
    cbn [answers]; [|by destruct Hcases; eapply refused_projection|done..].
  destruct Hcases as (Hp & Hs & Hl). split_and!; [by exists entry|done|]. intros s. rewrite Hl. cbn. rewrite He. naive_solver.
Qed.

End lookups.

(** ** Readers of published states *)

Definition reads_published (base : BaseRecords) (next : NextIds) (catalog : Catalog) (r : Reader) : Prop :=
  ∃ o, published base next catalog o ∧ sn_view (rd_snapshot r) = layered base o.

Lemma reader_view_wf base next catalog r :
  Opened base next catalog → reads_published base next catalog r → ViewWf (sn_view (rd_snapshot r)).
Proof. intros Ho (o & Hp & ->). by eapply published_view. Qed.

(** ** Owned views *)

Lemma from_pairs_iter (m : gmap Z PropertyValue) : from_pairs (map_iter m) = m.
Proof.
  unfold from_pairs. apply map_eq. intros k. rewrite (foldl_entries _ (λ p, Some p.2)).
  - destruct (m !! k); [done|apply lookup_empty].
  - intros m' p k1. destruct (decide (k1 = p.1)) as [->|]; [apply lookup_insert_eq|by apply lookup_insert_ne].
Qed.

Lemma subject_properties_lookup `{OverlayLayer L} (v : LayeredState L) s k :
  from_pairs (view_subject_properties v s) !! k = view_property v s k.
Proof.
  unfold view_subject_properties. rewrite from_pairs_iter. unfold view_property.
  set (bps := default (∅ : gmap Z PropertyValue) (base_properties (ls_base v) !! s)).
  assert (bps !! k = base_property (ls_base v) s k) as Hb by apply base_property_default.
  destruct (layer_properties (ls_overlay v) !! s) as [keys|]; cbn [mbind option_bind foldl]; [|done].
  unfold PropertyBag, SubjectDelta in *. rewrite (foldl_entries _ snd), <-Hb; [by destruct (keys !! k) as [[]|]|].
  intros m [k1 e] k2. unfold override_property. cbn. destruct e as [x|], (decide (k2 = k1)) as [->|];
    rewrite ?lookup_insert_eq, ?lookup_insert_ne, ?lookup_delete_eq, ?lookup_delete_ne; done.
Qed.

Lemma label_search_spec (X : gset Z) label : label_search (set_iter X) label = true ↔ label ∈ X.
Proof.
  unfold label_search. rewrite bool_decide_eq_true. set (l := set_iter X).
  assert (∀ a b, (a < b)%nat → (b < length l)%nat → default 0 (l !! a) < default 0 (l !! b)) as Hmono.
  { intros a b Hab Hb. destruct (lookup_lt_is_Some_2 l a ltac:(lia)) as [x Hx]. destruct (lookup_lt_is_Some_2 l b Hb) as [y Hy].
    rewrite Hx, Hy. cbn. pose proof (proj1 (StronglySorted_lookup _ _) (ascending_Z _ (set_iter_ascending X))) as Hs.
    by apply (Hs a b). }
  rewrite <-elem_of_set_iter. fold l. rewrite list_elem_of_lookup. split.
  - intros [j Hj]. apply (binary_search_spec _ _ _ Hmono) in Hj as [Hl Hj]. exists j.
    destruct (lookup_lt_is_Some_2 l j Hl) as [x Hx]. rewrite Hx in Hj |- *. cbn in Hj. congruence.
  - intros [j Hj]. exists j. apply (binary_search_spec _ _ _ Hmono). split; [by eapply lookup_lt_Some|]. by rewrite Hj.
Qed.

(** ** The neighbors *)

Lemma extend_neighbors_spec r e t dir X i n :
  n ∈ extend_neighbors r e t dir X i ↔ n ∈ X ∨
    (view_relation (sn_view (rd_snapshot r)) (inc_relation i) ≫= rel_type) = Some t ∧ n ≠ e ∧
    ∃ j, j ∈ view_relation_incidences (sn_view (rd_snapshot r)) (inc_relation i) ∧ inc_element j = n ∧
      follow_direction dir (inc_id i) (inc_id j) = true.
Proof.
  unfold extend_neighbors. case_bool_decide as Ht; cbn [negb]; [|naive_solver].
  set (others := filter _ (filter _ _)).
  assert (∀ l X, n ∈ foldl (λ found other, {[inc_element other]} ∪ found) X l ↔ n ∈ X ∨ ∃ j, j ∈ l ∧ inc_element j = n) as ->.
  { intros l. induction l as [|j l IH]; intros Y; cbn [foldl]; [set_solver|]. rewrite IH. set_solver. }
  subst others. setoid_rewrite list_elem_of_filter. setoid_rewrite list_elem_of_filter. naive_solver.
Qed.

Section readers.
Context (base : BaseRecords) (next : NextIds) (catalog : Catalog) (r : Reader).
Context (Hopen : Opened base next catalog) (Hread : reads_published base next catalog r).
Notation view := (sn_view (rd_snapshot r)).

(** ** Lookups through a reader *)

(** Materializing the projection of a projection index fits in memory. *)
Definition index_in_memory `{!Target} (index : Z) : Prop :=
  ∀ entry p projection, indexes (reader_catalog r) !! index = Some entry → index_definition entry = IndexProjection p →
    projections (reader_catalog r) !! p = Some projection → projection_in_memory view (projection_definition projection).

(** The error of a lookup by an index. *)
Definition lookup_refused `{!Target} (index : Z) (probe : IndexProbe) (e : DbError) : Prop :=
  match indexes (reader_catalog r) !! index with
  | None => e = unknown FamilyIndex index
  | Some entry => probe_refused view (index_definition entry) probe e ∧ ¬ probe_fits view (index_definition entry) probe
  end.

(** The value a caller assigns; an unsigned one may exceed the signed range. *)
Definition assigned (value : Assign) (x : PropertyValue) : Prop :=
  match value with
  | AssignText text => x = PText text
  | AssignI64 z => x = PInteger z
  | AssignU64 z | AssignUsize z => x = PInteger z ∧ z ≤ i64_max
  | AssignBool b => x = PBoolean b
  end.

(** The smallest visible element whose property has the value, if there is one. *)
Definition first_holder (key : Z) (x : PropertyValue) (found : option Element) : Prop :=
  match found with
  | Some e => reader_element r (e_id e) = Some e ∧ reader_property r (SElement (e_id e)) key = Some x ∧
      ∀ id, reader_property r (SElement id) key = Some x → e_id e ≤ id
  | None => ∀ id, reader_property r (SElement id) key ≠ Some x
  end.

Lemma reader_answers `{!Target} index probe entry : indexes (reader_catalog r) !! index = Some entry → index_in_memory index →
  answers view (index_definition entry) probe (reader_lookup r index probe).
Proof using Hopen Hread.
  intros He Hm. pose proof (reader_view_wf _ _ _ _ Hopen Hread) as Hv. specialize (Hm entry). unfold reader_lookup. unfold reader_catalog in He, Hm.
  rewrite He. cbn [ok_or mbind res_bind]. pose proof (wf_index_refs _ _ (wf_catalog _ (vw_store _ Hv)) index entry He) as Hrefs.
  destruct (index_definition entry) as [label|t|key|key|keys|p], probe as [|x|min max|xs];
    try (match goal with |- answers _ ?d ?q (Err _) => by apply (refused_shape view d q); intros [] end).
  - split_and!; [done|apply fmap_ascending; [apply subject_key_lt|apply set_iter_ascending]|apply (probed_label _ Hv)].
  - split_and!; [done|apply fmap_ascending; [apply subject_key_lt|apply set_iter_ascending]|apply (probed_type _ Hv)].
  - by apply (equal_answers _ Hv).
  - by apply (range_answers _ Hv).
  - by apply (composite_answers _ Hv); apply Hrefs.
  - unfold projection_index_subjects. destruct Hrefs as [projection Hp].
    change (projections (view_catalog view) !! p = Some projection) in Hp. rewrite Hp. cbn [ok_or mbind res_bind].
    by apply (projection_answers _ Hv); [|apply (Hm p)].
Qed.

Lemma lookup_cases `{!Target} index probe : index_in_memory index →
  match reader_lookup r index probe with
  | Ok l => ∃ entry, indexes (reader_catalog r) !! index = Some entry ∧ probe_fits view (index_definition entry) probe ∧
      StronglySorted key_lt l ∧ ∀ s, s ∈ l ↔ probed view (index_definition entry) probe s
  | Err e => lookup_refused index probe e
  | Panic | NoFuel => False
  end.
Proof using Hopen Hread.
  intros Hm. unfold lookup_refused. destruct (indexes (reader_catalog r) !! index) as [entry|] eqn:He.
  - pose proof (reader_answers index probe entry He Hm) as Ha. destruct (reader_lookup r index probe) as [l|e| |]; [|split; [done|]|done..].
    + by exists entry.
    + by apply refused_not_fits in Ha.
  - unfold reader_lookup. unfold reader_catalog in He. by rewrite He.
Qed.

(** The first element of an ascending list of subjects. *)
Lemma first_element_spec l : StronglySorted key_lt l →
  match first_element l with
  | Some id => SElement id ∈ l ∧ ∀ id', SElement id' ∈ l → id ≤ id'
  | None => ∀ id, SElement id ∉ l
  end.
Proof using Type.
  induction 1 as [|s l _ IH Hs]; [by intros id ?%not_elem_of_nil|]. rewrite Forall_forall in Hs. unfold first_element in *.
  destruct s as [id|q|i]; cbn [omap list_omap head].
  - split; [by left|]. intros id' [[= ->]|Hin]%elem_of_cons; [lia|]. specialize (Hs _ Hin). revert Hs. unfold subject_order. rewrite derived_lt.
    intros [Hlt|[_ Hlt]]; [by apply Z.lt_irrefl in Hlt|by apply Z.lt_le_incl].
  - destruct (head _) as [id|].
    + destruct IH as [Hin Hle]. split; [by right|]. intros id' [[=]|?]%elem_of_cons. by apply Hle.
    + intros id [[=]|?]%elem_of_cons. by apply (IH id).
  - destruct (head _) as [id|].
    + destruct IH as [Hin Hle]. split; [by right|]. intros id' [[=]|?]%elem_of_cons. by apply Hle.
    + intros id [[=]|?]%elem_of_cons. by apply (IH id).
Qed.

Lemma into_value_cases value :
  match into_value value with
  | Ok x => assigned value x
  | Err e => e = Query DbError.ValueOutOfRange ∧ ∃ z, (value = AssignU64 z ∨ value = AssignUsize z) ∧ i64_max < z
  | Panic | NoFuel => False
  end.
Proof using Type.
  destruct value as [t|z|z|z|b]; cbn; try done; unfold value_try_from; case_decide; try done; (split; [done|]); exists z; split; auto; lia.
Qed.

Lemma first_holder_found key x l : StronglySorted key_lt l → (∀ s, s ∈ l ↔ view_property view s key = Some x) →
  first_holder key x (first_element l ≫= reader_element r).
Proof using Hopen Hread.
  intros Hs Hl. pose proof (reader_view_wf _ _ _ _ Hopen Hread) as Hv. pose proof (first_element_spec l Hs) as Hf.
  destruct (first_element l) as [id|]; cbn [mbind option_bind].
  - destruct Hf as [Hin Hle]. apply Hl in Hin. destruct (element_property_visible _ Hv _ _ _ Hin) as [record Hr].
    assert (∃ e, reader_element r id = Some e ∧ e_id e = id) as (e & He & <-) by (unfold reader_element; rewrite Hr; by eexists).
    rewrite He. split_and!; [done|done|]. intros id' Hid. apply Hle. by apply Hl.
  - intros id Hid. apply (Hf id). by apply Hl.
Qed.

(** C34. The index lookups of a reader on a published state, for every kind of
    index. [lookup] answers a probe of the shape and types of the index with exactly
    the subjects whose visible labels, type or properties match, or the members of
    the projection, each once and in subject order. Any other probe is refused with
    the error that names the shape expected, the first value of another type, or
    why the projection cannot be materialized; an unknown index is refused as such.
    [element_by_key] gives the view of the smallest visible element that holds
    the value under the key of an equality index, none when there is none, refuses a
    value out of range before anything else, and passes on the error of the lookup.
    [count] is the number of the members of a membership index. *)
Theorem index_lookup_exact `{!Target} index : index_in_memory index →
  (∀ probe,
    match reader_lookup r index probe with
    | Ok l => ∃ entry, indexes (reader_catalog r) !! index = Some entry ∧ probe_fits view (index_definition entry) probe ∧
        StronglySorted key_lt l ∧ ∀ s, s ∈ l ↔ probed view (index_definition entry) probe s
    | Err e => lookup_refused index probe e
    | Panic | NoFuel => False
    end) ∧
  (∀ value,
    match element_by_key r index value with
    | Ok found => ∃ entry key x, indexes (reader_catalog r) !! index = Some entry ∧ index_definition entry = IndexPropertyEquality key ∧
        assigned value x ∧ typed_value (reader_catalog r) key x ∧ first_holder key x found
    | Err e => (e = Query DbError.ValueOutOfRange ∧ ∃ z, (value = AssignU64 z ∨ value = AssignUsize z) ∧ i64_max < z) ∨
        (∃ x, assigned value x ∧ lookup_refused index (ProbeEqual x) e)
    | Panic | NoFuel => False
    end) ∧
  match reader_count r index with
  | Ok n => ∃ entry l, indexes (reader_catalog r) !! index = Some entry ∧ probe_fits view (index_definition entry) ProbeAll ∧
      n = zlen l ∧ NoDup l ∧ ∀ s, s ∈ l ↔ probed view (index_definition entry) ProbeAll s
  | Err e => lookup_refused index ProbeAll e
  | Panic | NoFuel => False
  end.
Proof using Hopen Hread.
  intros Hm. pose proof (λ probe, lookup_cases index probe Hm) as Hl. split_and!; [done| |].
  - intros value. unfold element_by_key. pose proof (into_value_cases value) as Hx.
    destruct (into_value value) as [x|e| |]; cbn [mbind res_bind]; [|by left|done..]. specialize (Hl (ProbeEqual x)).
    destruct (reader_lookup r index (ProbeEqual x)) as [l|e| |]; cbn [mbind res_bind]; [|right; by exists x|done..].
    destruct Hl as (entry & He & Hfit & Hs & Hin). destruct (index_definition entry) as [| |key| | |] eqn:Hd; try done.
    exists entry, key, x. split_and!; [done..|]. by apply (first_holder_found _ _ l).
  - unfold reader_count. specialize (Hl ProbeAll). destruct (reader_lookup r index ProbeAll) as [l|e| |]; cbn [mbind res_bind]; [|done..].
    destruct Hl as (entry & He & Hfit & Hs & Hin). exists entry, l. split_and!; [done..|by apply key_ascending_NoDup|done].
Qed.

(** C35. [Reader::neighbors] on a published state: the ascending list of the other
    elements that share a visible relation of the type with the element, from an
    incidence of the element to a later one ([Outgoing]), to an earlier one
    ([Incoming]) or to any ([Both]); so one element is an outgoing neighbor of
    another exactly when that one is an incoming neighbor of it. *)
Theorem neighbors_exact e t dir :
  StronglySorted Z.lt (neighbors r e t dir) ∧
  (∀ n, n ∈ neighbors r e t dir ↔ n ≠ e ∧ ∃ i j q,
     reader_incidence r (inc_id i) = Some i ∧ reader_incidence r (inc_id j) = Some j ∧
     inc_element i = e ∧ inc_element j = n ∧ inc_relation i = q ∧ inc_relation j = q ∧
     (view_relation view q ≫= rel_type) = Some t ∧
     match dir with DirOutgoing => inc_id i < inc_id j | DirIncoming => inc_id j < inc_id i | DirBoth => True end) ∧
  (∀ n, n ∈ neighbors r e t DirOutgoing ↔ e ∈ neighbors r n t DirIncoming).
Proof using Hopen Hread.
  pose proof (reader_view_wf _ _ _ _ Hopen Hread) as Hv.
  assert (∀ e dir n, n ∈ neighbors r e t dir ↔ n ≠ e ∧ ∃ i j q,
     reader_incidence r (inc_id i) = Some i ∧ reader_incidence r (inc_id j) = Some j ∧
     inc_element i = e ∧ inc_element j = n ∧ inc_relation i = q ∧ inc_relation j = q ∧
     (view_relation view q ≫= rel_type) = Some t ∧
     match dir with DirOutgoing => inc_id i < inc_id j | DirIncoming => inc_id j < inc_id i | DirBoth => True end) as Hspec.
  { clear e dir. intros e dir n. unfold neighbors. rewrite elem_of_set_iter.
    assert (∀ l X, n ∈ foldl (extend_neighbors r e t dir) X l ↔ n ∈ X ∨ ∃ i, i ∈ l ∧ n ∈ extend_neighbors r e t dir ∅ i) as ->.
    { intros l. induction l as [|i l IH]; intros X; cbn [foldl]; [set_solver|]. rewrite IH, extend_neighbors_spec.
      setoid_rewrite extend_neighbors_spec. set_solver. }
    setoid_rewrite extend_neighbors_spec. setoid_rewrite (elem_of_element_incidences view Hv).
    setoid_rewrite (elem_of_relation_incidences view Hv). unfold reader_incidence. split.
    - intros [?%not_elem_of_empty|(i & [Hi Hie] & [?%not_elem_of_empty|(Ht & Hn & j & [Hj Hjq] & Hjn & Hdir)])]; [done..|].
      split; [done|]. exists i, j, (inc_relation i). split_and!; try done. destruct dir; [by apply bool_decide_eq_true in Hdir..|done].
    - intros (Hn & i & j & q & Hi & Hj & Hie & Hjn & <- & Hjq & Ht & Hdir). right. exists i. split; [done|]. right.
      split_and!; [done..|]. exists j. split_and!; [done..|]. destruct dir; [by apply bool_decide_eq_true..|done]. }
  split_and!; [apply ascending_Z, set_iter_ascending|apply Hspec|]. intros n. rewrite !Hspec.
  split; intros (Hn & i & j & q & ? & ? & ? & ? & ? & ? & ? & ?); (split; [done|]); exists j, i, q; split_and!; done.
Qed.

(** The owned views of a published state agree with the single reads: there
    is a view exactly of a visible element or relation; its labels are the
    record's, found by binary search; its property bag holds, for every key, what
    reading the property gives. *)
Theorem owned_views_agree id :
  (match reader_element r id with
   | None => view_element view id = None
   | Some e => ∃ record, view_element view id = Some record ∧ e_id e = id ∧
       (∀ label, element_has e label = true ↔ label ∈ el_labels record) ∧
       (∀ key, properties_value (e_properties e) key = reader_property r (SElement id) key)
   end) ∧
  match reader_relation r id with
  | None => view_relation view id = None
  | Some q => ∃ record, view_relation view id = Some record ∧ r_id q = id ∧ r_relation_type q = rel_type record ∧
      (∀ label, relation_has q label = true ↔ label ∈ rel_labels record) ∧
      (∀ key, properties_value (r_properties q) key = reader_property r (SRelation id) key)
  end.
Proof.
  unfold reader_element, reader_relation. split.
  - destruct (view_element view id) as [record|]; cbn [mbind option_bind]; [|done]. exists record.
    split_and!; [done..|intros; apply label_search_spec|intros; apply subject_properties_lookup].
  - destruct (view_relation view id) as [record|]; cbn [mbind option_bind]; [|done]. exists record.
    split_and!; [done..|intros; apply label_search_spec|intros; apply subject_properties_lookup].
Qed.

End readers.

(** ** A small graph

    Two relations of type 1 over the sample's elements: 1 to 2, and 2 to 3; a
    graph projection of them, a hypergraph projection, and an index of each. *)

Definition graph_calls : list WriterCall :=
  [WriterRegisterRole [Byte.x73]; WriterRegisterRole [Byte.x74]; WriterRegisterRelationType [Byte.x65];
   WriterCreateElement; WriterCreateRelation; WriterCreateIncidence 2 1 1; WriterCreateIncidence 2 2 2; WriterSetRelationType 2 1;
   WriterCreateRelation; WriterCreateIncidence 3 2 1; WriterCreateIncidence 3 3 2; WriterSetRelationType 3 1;
   WriterDefineProjection (GraphProjection
     {| gp_name := [Byte.x67]; gp_relation_types := {[1]}; gp_source_role := 1; gp_target_role := 2 |});
   WriterDefineProjection (HypergraphProjection
     {| hp_name := [Byte.x68]; hp_relation_types := {[1]}; hp_source_roles := {[1]}; hp_target_roles := {[2]} |});
   WriterDefineIndex [Byte.x67] (IndexProjection 1); WriterDefineIndex [Byte.x68] (IndexProjection 2)].
Definition graph_overlay : Overlay := freeze_overlay (run_writer sample_base (from_overlay sample_overlay) graph_calls).1.
Definition demo_reader : Reader :=
  {| rd_snapshot := {| sn_generation := 0; sn_lsn := 0; sn_view := layered sample_base graph_overlay |} |}.

Lemma demo_reads : reads_published sample_base sample_next sample_catalog demo_reader.
Proof. exists graph_overlay. split; [apply published_commit, sample_published|done]. Qed.

(** What the projections of the small graph need fits in memory. *)
Lemma demo_memory_fits : Forall (λ i,
  match indexes (reader_catalog demo_reader) !! i with
  | Some e =>
      match index_definition e with
      | IndexProjection p =>
          match projections (reader_catalog demo_reader) !! p with
          | Some d => projection_in_memory (H := target64) (sn_view (rd_snapshot demo_reader)) (projection_definition d)
          | None => False
          end
      | _ => True
      end
  | None => False
  end) [1; 2; 3].
Proof. apply Forall_cons_2; [|apply Forall_cons_2; [|apply Forall_cons_2; [|apply Forall_nil_2]]]; vm_compute; done. Qed.

Lemma demo_index_memory index : index ∈ [1; 2; 3] → index_in_memory (H := target64) demo_reader index.
Proof.
  intros Hi entry p projection He Hd Hp. pose proof (proj1 (Forall_forall _ _) demo_memory_fits index Hi) as Hall.
  cbv beta in Hall. rewrite He, Hd, Hp in Hall. exact Hall.
Qed.

(** Both kinds of projection index, the equality index and three refusals. *)
Lemma index_lookup_exact_witness :
  (∃ e, element_by_key (H := target64) demo_reader 1 (AssignText [Byte.x79]) = Ok (Some e) ∧ e_id e = 2 ∧
    ∃ key, first_holder demo_reader key (PText [Byte.x79]) (Some e)) ∧
  reader_lookup (H := target64) demo_reader 2 ProbeAll = Ok [SElement 1; SElement 2; SElement 3; SRelation 2; SRelation 3] ∧
  reader_count (H := target64) demo_reader 3 = Ok 9 ∧
  (∃ entry l, indexes (reader_catalog demo_reader) !! 3 = Some entry ∧ length l = 9%nat ∧ NoDup l ∧
    ∀ s, s ∈ l ↔ probed (sn_view (rd_snapshot demo_reader)) (index_definition entry) ProbeAll s) ∧
  lookup_refused (H := target64) demo_reader 1 ProbeAll (unsupported "property equality index expects equality lookup") ∧
  lookup_refused (H := target64) demo_reader 1 (ProbeEqual (PInteger 3)) (Query (PropertyTypeMismatch TypeText TypeInteger)) ∧
  lookup_refused (H := target64) demo_reader 9 ProbeAll (unknown FamilyIndex 9).
Proof.
  destruct (index_lookup_exact _ _ _ _ sample_opened demo_reads (H := target64) 1 (demo_index_memory 1 ltac:(left))) as (Hl & He & _).
  destruct (index_lookup_exact _ _ _ _ sample_opened demo_reads (H := target64) 3 (demo_index_memory 3 ltac:(do 2 right; left))) as (_ & _ & Hc).
  assert (reader_count (H := target64) demo_reader 3 = Ok 9) as Hrun3 by (vm_compute; reflexivity).
  split; [|split; [vm_compute; reflexivity|split; [exact Hrun3|split; [|split; [|split; [|vm_compute; reflexivity]]]]]].
  - specialize (He (AssignText [Byte.x79])).
    assert (match element_by_key (H := target64) demo_reader 1 (AssignText [Byte.x79]) with Ok (Some e) => e_id e = 2 | _ => False end) as Hrun
      by (vm_compute; reflexivity).
    destruct (element_by_key demo_reader 1 (AssignText [Byte.x79])) as [[e|]| | |]; [|destruct Hrun..].
    destruct He as (entry & key & x & _ & _ & -> & _ & Hf). exists e. split; [reflexivity|]. split; [exact Hrun|]. by exists key.
  - rewrite Hrun3 in Hc. destruct Hc as (entry & l & Hentry & _ & Hn & Hnd & Hin). exists entry, l. split; [exact Hentry|].
    split; [|by split]. unfold zlen in Hn. lia.
  - specialize (Hl ProbeAll). assert (reader_lookup (H := target64) demo_reader 1 ProbeAll =
      Err (unsupported "property equality index expects equality lookup")) as Hrun by (vm_compute; reflexivity).
    by rewrite Hrun in Hl.
  - specialize (Hl (ProbeEqual (PInteger 3))). assert (reader_lookup (H := target64) demo_reader 1 (ProbeEqual (PInteger 3)) =
      Err (Query (PropertyTypeMismatch TypeText TypeInteger))) as Hrun by (vm_compute; reflexivity).
    by rewrite Hrun in Hl.
Defined.

Lemma neighbors_exact_witness :
  neighbors demo_reader 2 1 DirOutgoing = [3] ∧ neighbors demo_reader 2 1 DirBoth = [1; 3] ∧
  2 ∈ neighbors demo_reader 3 1 DirIncoming.
Proof.
  assert (neighbors demo_reader 2 1 DirOutgoing = [3]) as Hn by (vm_compute; reflexivity).
  split; [exact Hn|]. split; [vm_compute; reflexivity|].
  apply (neighbors_exact _ _ _ _ sample_opened demo_reads 2 1 DirOutgoing). rewrite Hn. by left.
Defined.

(** ** Walks and longest paths *)

(** ** Paths over canonical ids *)

Section chains.
Context `{!Target} (ids : list Z) (ends : list (Z * Z)) (p : GraphProjectionView) (elements : list Z).
Hypothesis Hp : GraphProjected ids ends p.

(** The hops between the elements, and the elements of the projection. *)
Definition hops (c : Z) : list Z := filter (λ c', c' ∈ elements) (neighbours ends DirOutgoing c).
Definition present : list Z := filter (λ c, c ∈ end_points ends) elements.

(** [path] visits elements once each, along hops, and no walk has more hops. *)
Definition longest_chain (path : list Z) : Prop :=
  NoDup path ∧ (∀ c, c ∈ path → c ∈ present) ∧
  (∀ i a b, path !! i = Some a → path !! S i = Some b → b ∈ hops a) ∧
  (∀ c n c', c ∈ present → walk hops c n c' → (n < length path)%nat).

Definition locals : list Z := omap (gv_local_element_id p) elements.

Lemma elem_of_locals x : x ∈ locals ↔ ∃ c, c ∈ elements ∧ local_of p c x.
Proof using Type. unfold locals, local_of. by rewrite list_elem_of_omap. Qed.

Lemma elem_of_present c : c ∈ present ↔ c ∈ elements ∧ ∃ x, local_of p c x.
Proof using Hp. unfold present. rewrite list_elem_of_filter, (has_local _ _ _ Hp). tauto. Qed.

Lemma local_hop c x y : local_of p c x → y ∈ induced p locals x ↔ ∃ c', local_of p c' y ∧ c' ∈ hops c.
Proof using Hp.
  intros Hx. rewrite elem_of_induced, elem_of_locals, (hop_out _ _ _ Hp _ _ _ Hx). unfold hops.
  setoid_rewrite list_elem_of_filter. split.
  - intros ((c1 & Hc1 & Hy1) & c' & Hy & Hn). rewrite (canonical_inj _ _ _ Hp _ _ _ Hy1 Hy) in *. by exists c'.
  - intros (c' & Hy & Hc' & Hn). split; by exists c'.
Qed.

Lemma hops_local c c' : c' ∈ hops c → ∃ y, local_of p c' y.
Proof using Hp. unfold hops. intros [_ Hn]%list_elem_of_filter. by eapply neighbours_local. Qed.

Lemma local_walk c x n y : local_of p c x → walk (induced p locals) x n y ↔ ∃ c', local_of p c' y ∧ walk hops c n c'.
Proof using Hp.
  intros Hx. split.
  - induction 1 as [|n y z Hw (c' & Hc & IH) Hz]; [exists c; split; [done|constructor]|].
    apply (local_hop c') in Hz as (c2 & Hc2 & Hn); [|done]. exists c2. split; [done|]. by eapply walk_snoc.
  - intros (c' & Hc & Hw). revert y Hc. induction Hw as [|n b c' Hw IH Hn]; intros y Hy.
    { rewrite (local_of_inj _ _ _ _ Hy Hx). constructor. }
    assert (∃ z, local_of p b z) as [z Hz].
    { destruct n as [|n]; [apply walk_0_inv in Hw as ->; by eexists|].
      apply walk_S_inv in Hw as (a & _ & Hb). by eapply hops_local. }
    eapply walk_snoc; [by apply IH|]. apply (local_hop b); [done|]. by exists c'.
Qed.

Lemma local_cyclic : cyclic (induced p locals) locals ↔ cyclic hops present.
Proof using Hp.
  unfold cyclic. split.
  - intros (x & n & (c & Hc & Hx)%elem_of_locals & (c' & Hc' & Hw)%(local_walk c)); [|done].
    rewrite (canonical_inj _ _ _ Hp _ _ _ Hc' Hx) in Hw. exists c, n. split; [|done]. apply elem_of_present. eauto.
  - intros (c & n & [Hc [x Hx]]%elem_of_present & Hw). exists x, n. split; [apply elem_of_locals; eauto|].
    apply (local_walk c); [done|]. eauto.
Qed.

Lemma chain_canonical path cs :
  LongestChain p locals path → Forall2 (local_of p) cs path → longest_chain cs.
Proof using Hp.
  intros [Hnd Hel Hedge Hmax] Hf. split_and!.
  - apply NoDup_alt. intros i j c Hi Hj. destruct (Forall2_lookup_l _ _ _ _ _ Hf Hi) as (x & Hxi & Hx).
    destruct (Forall2_lookup_l _ _ _ _ _ Hf Hj) as (y & Hyj & Hy). rewrite (local_of_inj _ _ _ _ Hx Hy) in Hxi.
    by eapply NoDup_lookup.
  - intros c [i Hi]%list_elem_of_lookup. destruct (Forall2_lookup_l _ _ _ _ _ Hf Hi) as (x & Hxi & Hx).
    apply list_elem_of_lookup_2, Hel, elem_of_locals in Hxi as (c' & Hc' & Hx').
    rewrite (canonical_inj _ _ _ Hp _ _ _ Hx' Hx) in Hc'. apply elem_of_present. eauto.
  - intros i a b Ha Hb. destruct (Forall2_lookup_l _ _ _ _ _ Hf Ha) as (x & Hxi & Hx).
    destruct (Forall2_lookup_l _ _ _ _ _ Hf Hb) as (y & Hyi & Hy). pose proof (Hedge i x y Hxi Hyi) as Hxy.
    apply (local_hop a) in Hxy as (c' & Hc' & Hin); [|done]. by rewrite (canonical_inj _ _ _ Hp _ _ _ Hy Hc').
  - intros c n c' [Hc [x Hx]]%elem_of_present Hw. rewrite (Forall2_length _ _ _ Hf).
    assert (∃ y, local_of p c' y) as [y Hy].
    { destruct n as [|n]; [apply walk_0_inv in Hw as <-; by eexists|]. apply walk_S_inv in Hw as (a & _ & Hb). by eapply hops_local. }
    apply (Hmax x n y); [apply elem_of_locals; eauto|]. apply (local_walk c); [done|]. eauto.
Qed.

End chains.

(** ** The projections of a published state *)

Section readers.
Context `{!Target} (base : BaseRecords) (next : NextIds) (catalog : Catalog) (r : Reader).
Context (Hopen : Opened base next catalog) (Hread : reads_published base next catalog r).
Notation view := (sn_view (rd_snapshot r)).

(** The visible relations a definition selects, and their end points. *)
Definition visible_relations : list RelationRecord := snd <$> map_iter (all_relations view).
Definition selected (d : GraphProjectionDefinition) : list RelationRecord := selected_relations d visible_relations.
Definition edges (d : GraphProjectionDefinition) : list (Z * Z) := ends_of view d (selected d).
(** Every selected relation has one incidence in each role. *)
Definition all_binary (d : GraphProjectionDefinition) : Prop := Forall (λ q, is_Some (binary_ends view d q)) (selected d).

(** The relations fit in memory and in 32-bit local ids. *)
Definition relations_in_memory : Prop := 2 * zlen visible_relations < usize_max ∧ 2 * zlen visible_relations ≤ u32_max.

Lemma first_occurrences_le (l : list Z) : (length (first_occurrences l) ≤ length l)%nat.
Proof using Type.
  destruct (first_occurrences_spec l) as [Hnd Hin]. apply submseteq_length, NoDup_submseteq; [done|]. intros x. apply Hin.
Qed.

Lemma ends_of_length (d : GraphProjectionDefinition) rs : (length (ends_of view d rs) ≤ length rs)%nat.
Proof using Type. induction rs as [|q rs IH]; [done|]. rewrite ends_of_cons. destruct (binary_ends view d q); cbn [length]; lia. Qed.

Lemma end_points_few d : relations_in_memory → zlen (first_occurrences (end_points (edges d))) ≤ u32_max ∧
  zlen (selected d) ≤ zlen visible_relations.
Proof using Type.
  intros [_ Hm]. pose proof (first_occurrences_le (end_points (edges d))) as H1. rewrite length_end_points in H1.
  pose proof (ends_of_length d (selected d)) as H2. fold (edges d) in H2.
  assert (length (selected d) ≤ length visible_relations)%nat as H3 by apply length_filter.
  unfold zlen in *. lia.
Qed.

(** A registered graph projection, materialized from a published state. *)
Lemma graph_projection_cases id entry d :
  projections (reader_catalog r) !! id = Some entry → projection_definition entry = GraphProjection d → relations_in_memory →
  (all_binary d ∧ ∃ p, graph_projection view id = Ok p ∧ GraphProjected (rel_id <$> selected d) (edges d) p ∧
     zlen (gv_elements p) ≤ u32_max) ∨
  (¬ all_binary d ∧ ∃ m, graph_projection view id = Err (invalid_projection m)).
Proof using Hopen Hread.
  intros He Hd Hm. pose proof (reader_view_wf _ _ _ _ Hopen Hread) as Hv. unfold graph_projection. unfold reader_catalog in He.
  rewrite He. cbn [ok_or mbind res_bind]. rewrite Hd. destruct (end_points_few d Hm) as [Hfew Hsel].
  assert (NoDup (rel_id <$> visible_relations)) as Hids.
  { destruct (coherent_maps view (vw_coherent _ Hv)) as (_ & Mr & _). apply ascending_NoDup, (values_ascending _ Mr). }
  pose proof (graph_from_state_cases view d visible_relations (relations_run _ Hv) Hids (proj1 Hm)) as Hcases. cbn zeta in Hcases.
  destruct (graph_from_state view d) as [p|e| |]; [| |done..].
  - left. destruct Hcases as (Hall & _ & _ & Hp). split; [done|]. exists p. split_and!; [done|done|].
    by rewrite (gpd_elements _ _ _ Hp).
  - right. destruct Hcases as [[[m ->] Hn]|[_ Hn]]; [by split; [|exists m]|].
    destruct Hn. unfold graph_ids_fit. fold (selected d). fold (edges d). destruct Hm. unfold local_ids, u32_max in *. lia.
Qed.



(** [Reader::longest_path] on a published state of a registered graph
    projection, for a non-empty list of elements: an invalid projection is refused
    as such; if the visible selected relations among the elements have a cycle, that
    is reported; otherwise the answer is a longest chain of the elements along these
    relations, each at most once, elements outside the projection left aside. *)
Theorem reader_longest_path_exact id entry d elements :
  projections (reader_catalog r) !! id = Some entry → projection_definition entry = GraphProjection d → relations_in_memory →
  elements ≠ [] →
  match longest_path r id elements with
  | Ok path => all_binary d ∧ ¬ cyclic (hops (edges d) elements) (present (edges d) elements) ∧ longest_chain (edges d) elements path
  | Err e => (¬ all_binary d ∧ ∃ m, e = invalid_projection m) ∨
      (all_binary d ∧ cyclic (hops (edges d) elements) (present (edges d) elements) ∧ e = traversal "longest path found a cycle")
  | Panic | NoFuel => False
  end.
Proof using Hopen Hread.
  intros He Hd Hm Hne. unfold longest_path. rewrite decide_False by done.
  destruct (graph_projection_cases id entry d He Hd Hm) as [(Hall & p & -> & Hp & Hsize)|(Hn & m & ->)]; cbn [mbind res_bind];
    [|left; split; [done|by exists m]].
  fold (locals p elements). cbv zeta.
  assert (Forall (λ x, contains_element p x = true) (locals p elements)) as Hvis.
  { apply Forall_forall. intros x (c & _ & Hx)%elem_of_locals. apply (gv_contains_spec _ _ _ Hp). by exists c. }
  destruct (longest_path_cases p (TopologyLaws0 := gv_laws _ _ _ Hp) (S (element_bound p)) (locals p elements) Hvis ltac:(lia)) as [Hok Herr].
  pose proof (local_cyclic _ _ _ elements Hp) as Hcyc.
  destruct (topological_sort_cases p (TopologyLaws0 := gv_laws _ _ _ Hp) (S (element_bound p)) (locals p elements) Hvis ltac:(lia))
    as [(order & _ & Ho)|[_ Hc]]; [|rewrite (Herr Hc); cbn [map_err mbind res_bind]; right; by split_and!; [|apply Hcyc|]].
  pose proof (forward_acyclic p _ _ (topo_nodup _ _ _ Ho) (topo_forward _ _ _ Ho)) as Hac.
  assert (¬ cyclic (induced p (locals p elements)) (locals p elements)) as Hac' by exact Hac. clear Hac.
  destruct (Hok Hac') as (path & -> & Hchain). cbn [map_err mbind res_bind].
  assert (∃ cs, Forall2 (local_of p) cs path) as [cs Hcs].
  { pose proof (chain_elements _ _ _ Hchain) as Hel. clear -Hel. induction path as [|x path IH]; [by exists []|].
    destruct IH as [cs Hcs]; [intros y Hy; apply Hel; by right|].
    destruct (proj1 (elem_of_locals _ _ x) (Hel x ltac:(by left))) as (c & _ & Hc). exists (c :: cs). by constructor. }
  assert (mapM (gv_canonical_element_id (E:=DbError) p) path = Ok cs) as ->.
  { apply mapM_res_Forall2. clear -Hcs Hp. induction Hcs as [|c x cs path Hx _ IH]; constructor; [|done].
    by destruct (local_of_index _ _ _ Hp _ _ Hx). }
  split_and!; [done|by rewrite <-Hcyc|]. by eapply chain_canonical.
Qed.


End readers.

(** ** The small graph *)

Definition chain_walk : Walk := {| walk_max_depth := 2; walk_direction := DirOutgoing; walk_limit := 1; walk_include_start := false |}.

(** The materialized projection 1 of the small graph has a definition. *)
Lemma demo_projection_entry :
  ∃ entry d, projections (reader_catalog demo_reader) !! 1 = Some entry ∧ projection_definition entry = GraphProjection d.
Proof.
  assert (match projections (reader_catalog demo_reader) !! 1 with
    | Some e => match projection_definition e with GraphProjection _ => True | _ => False end | None => False end) as He
    by (vm_compute; done).
  destruct (projections _ !! 1) as [e|]; [|done]. exists e. destruct (projection_definition e) as [d|]; [|done]. by exists d.
Qed.

Lemma demo_memory : relations_in_memory (H := target64) demo_reader.
Proof. unfold relations_in_memory. assert (zlen (visible_relations demo_reader) = 3) as -> by (vm_compute; reflexivity). done. Qed.


Lemma reader_longest_path_exact_witness :
  ∃ d, longest_path (H := target64) demo_reader 1 [3; 7; 1; 2] = Ok [1; 2; 3] ∧
    longest_chain (edges demo_reader d) [3; 7; 1; 2] [1; 2; 3].
Proof.
  destruct demo_projection_entry as (entry & d & He & Hd). exists d.
  assert (longest_path (H := target64) demo_reader 1 [3; 7; 1; 2] = Ok [1; 2; 3]) as Hrun by (vm_compute; reflexivity).
  split; [exact Hrun|].
  pose proof (reader_longest_path_exact (H := target64) _ _ _ _ sample_opened demo_reads 1 entry d [3; 7; 1; 2] He Hd demo_memory ltac:(done)) as Hl.
  rewrite Hrun in Hl. apply Hl.
Defined.
