(* ===== verification/BaseWire.v ===== *)
(** * BaseWire: the fixed-size records of the base file

    Models the base-file part of [crates/oxgraph-db/src/wire.rs]: the section
    kinds and the [repr(C)] records a base file is made of. The records
    are instances of the codec of [Bytes]. *)

From stdpp Require Import base gmap sets list.
From S2P Require Import Prelude Bytes DbWire.

Local Open Scope Z_scope.

(** ** Section kinds *)

Definition OXGDB_SECTION_VERSION : Z := 1.
Definition MAX_BASE_SECTION_KINDS : Z := 22.

Definition SECTION_DB_HEADER : Z := 0x0300.
Definition SECTION_CATALOG_ROLES : Z := 0x0301.
Definition SECTION_CATALOG_LABELS : Z := 0x0302.
Definition SECTION_CATALOG_RELATION_TYPES : Z := 0x0303.
Definition SECTION_CATALOG_PROPERTY_KEYS : Z := 0x0304.
Definition SECTION_CATALOG_PROJECTIONS : Z := 0x0305.
Definition SECTION_CATALOG_INDEXES : Z := 0x0306.
Definition SECTION_CATALOG_DEFS : Z := 0x0307.
Definition SECTION_ELEMENT_RECORDS : Z := 0x0308.
Definition SECTION_ELEMENT_LABELS : Z := 0x0309.
Definition SECTION_RELATION_RECORDS : Z := 0x030A.
Definition SECTION_RELATION_LABELS : Z := 0x030B.
Definition SECTION_INCIDENCE_RECORDS : Z := 0x030C.
Definition SECTION_PROPERTY_RECORDS : Z := 0x030D.
Definition SECTION_PROPERTY_TEXT : Z := 0x030E.
Definition SECTION_INDEX_LABEL_POSTINGS : Z := 0x030F.
Definition SECTION_INDEX_RELATION_TYPE_POSTINGS : Z := 0x0310.
Definition SECTION_INDEX_ELEMENT_INCIDENCES : Z := 0x0311.
Definition SECTION_INDEX_RELATION_INCIDENCES : Z := 0x0312.
Definition SECTION_INDEX_EQUALITY : Z := 0x0313.
Definition SECTION_INDEX_EQUALITY_TEXT : Z := 0x0314.
Definition SECTION_STRING_TABLE : Z := 0x0315.

(** ** The records *)

Record DbHeaderRecord := {
  hr_format_version : Z; hr_flags : Z; hr_commit_seq : Z; hr_transaction_id : Z; hr_checkpoint_generation : Z;
  hr_next_element : Z; hr_next_relation : Z; hr_next_incidence : Z; hr_next_role : Z; hr_next_label : Z;
  hr_next_relation_type : Z; hr_next_property_key : Z; hr_next_projection : Z; hr_next_index : Z
}.
#[export] Program Instance wire_header : WireRecord DbHeaderRecord := {|
  wire_widths := [4; 4; 8; 8; 8; 8; 8; 8; 8; 8; 8; 8; 8; 8]%nat;
  wire_fields r := [hr_format_version r; hr_flags r; hr_commit_seq r; hr_transaction_id r; hr_checkpoint_generation r;
    hr_next_element r; hr_next_relation r; hr_next_incidence r; hr_next_role r; hr_next_label r;
    hr_next_relation_type r; hr_next_property_key r; hr_next_projection r; hr_next_index r];
  wire_of_fields l := let at_ i := default 0 (l !! i) in {|
    hr_format_version := at_ 0%nat; hr_flags := at_ 1%nat; hr_commit_seq := at_ 2%nat; hr_transaction_id := at_ 3%nat;
    hr_checkpoint_generation := at_ 4%nat; hr_next_element := at_ 5%nat; hr_next_relation := at_ 6%nat;
    hr_next_incidence := at_ 7%nat; hr_next_role := at_ 8%nat; hr_next_label := at_ 9%nat;
    hr_next_relation_type := at_ 10%nat; hr_next_property_key := at_ 11%nat; hr_next_projection := at_ 12%nat;
    hr_next_index := at_ 13%nat |}
|}.
Solve All Obligations with first [by intros []|cbn; lia].

Record NamedWire := { nw_id : Z; nw_name_off : Z; nw_name_len : Z }.
#[export] Program Instance wire_named : WireRecord NamedWire := {|
  wire_widths := [8; 4; 4]%nat; wire_fields r := [nw_id r; nw_name_off r; nw_name_len r];
  wire_of_fields l := let at_ i := default 0 (l !! i) in
    {| nw_id := at_ 0%nat; nw_name_off := at_ 1%nat; nw_name_len := at_ 2%nat |}
|}.
Solve All Obligations with first [by intros []|cbn; lia].

Record PropertyKeyWire := { kw_id : Z; kw_name_off : Z; kw_name_len : Z; kw_family : Z; kw_value_type : Z }.
#[export] Program Instance wire_property_key : WireRecord PropertyKeyWire := {|
  wire_widths := [8; 4; 4; 4; 4]%nat;
  wire_fields r := [kw_id r; kw_name_off r; kw_name_len r; kw_family r; kw_value_type r];
  wire_of_fields l := let at_ i := default 0 (l !! i) in
    {| kw_id := at_ 0%nat; kw_name_off := at_ 1%nat; kw_name_len := at_ 2%nat; kw_family := at_ 3%nat; kw_value_type := at_ 4%nat |}
|}.
Solve All Obligations with first [by intros []|cbn; lia].

Record DefWire := { df_id : Z; df_name_off : Z; df_name_len : Z; df_kind : Z; df_payload_off : Z; df_payload_len : Z }.
#[export] Program Instance wire_def : WireRecord DefWire := {|
  wire_widths := [8; 4; 4; 4; 4; 4]%nat;
  wire_fields r := [df_id r; df_name_off r; df_name_len r; df_kind r; df_payload_off r; df_payload_len r];
  wire_of_fields l := let at_ i := default 0 (l !! i) in
    {| df_id := at_ 0%nat; df_name_off := at_ 1%nat; df_name_len := at_ 2%nat; df_kind := at_ 3%nat;
       df_payload_off := at_ 4%nat; df_payload_len := at_ 5%nat |}
|}.
Solve All Obligations with first [by intros []|cbn; lia].

Record ElementWire := { ew_id : Z; ew_label_off : Z; ew_label_len : Z }.
#[export] Program Instance wire_element : WireRecord ElementWire := {|
  wire_widths := [8; 4; 4]%nat; wire_fields r := [ew_id r; ew_label_off r; ew_label_len r];
  wire_of_fields l := let at_ i := default 0 (l !! i) in
    {| ew_id := at_ 0%nat; ew_label_off := at_ 1%nat; ew_label_len := at_ 2%nat |}
|}.
Solve All Obligations with first [by intros []|cbn; lia].

Record RelationWire := { rw_id : Z; rw_relation_type : Z; rw_label_off : Z; rw_label_len : Z }.
#[export] Program Instance wire_relation : WireRecord RelationWire := {|
  wire_widths := [8; 8; 4; 4]%nat; wire_fields r := [rw_id r; rw_relation_type r; rw_label_off r; rw_label_len r];
  wire_of_fields l := let at_ i := default 0 (l !! i) in
    {| rw_id := at_ 0%nat; rw_relation_type := at_ 1%nat; rw_label_off := at_ 2%nat; rw_label_len := at_ 3%nat |}
|}.
Solve All Obligations with first [by intros []|cbn; lia].

Record IncidenceWire := { iw_id : Z; iw_relation : Z; iw_element : Z; iw_role : Z }.
#[export] Program Instance wire_incidence : WireRecord IncidenceWire := {|
  wire_widths := [8; 8; 8; 8]%nat; wire_fields r := [iw_id r; iw_relation r; iw_element r; iw_role r];
  wire_of_fields l := let at_ i := default 0 (l !! i) in
    {| iw_id := at_ 0%nat; iw_relation := at_ 1%nat; iw_element := at_ 2%nat; iw_role := at_ 3%nat |}
|}.
Solve All Obligations with first [by intros []|cbn; lia].

Record PropertyWire := {
  pw_subject_kind : Z; pw_value_tag : Z; pw_subject_id : Z; pw_key : Z; pw_scalar : Z; pw_text_off : Z; pw_text_len : Z
}.
#[export] Program Instance wire_property : WireRecord PropertyWire := {|
  wire_widths := [4; 4; 8; 8; 8; 4; 4]%nat;
  wire_fields r := [pw_subject_kind r; pw_value_tag r; pw_subject_id r; pw_key r; pw_scalar r; pw_text_off r; pw_text_len r];
  wire_of_fields l := let at_ i := default 0 (l !! i) in
    {| pw_subject_kind := at_ 0%nat; pw_value_tag := at_ 1%nat; pw_subject_id := at_ 2%nat; pw_key := at_ 3%nat;
       pw_scalar := at_ 4%nat; pw_text_off := at_ 5%nat; pw_text_len := at_ 6%nat |}
|}.
Solve All Obligations with first [by intros []|cbn; lia].

Record PostingDirEntry := { pe_key : Z; pe_members_off : Z; pe_members_len : Z }.
#[export] Program Instance wire_posting : WireRecord PostingDirEntry := {|
  wire_widths := [8; 8; 8]%nat; wire_fields r := [pe_key r; pe_members_off r; pe_members_len r];
  wire_of_fields l := let at_ i := default 0 (l !! i) in
    {| pe_key := at_ 0%nat; pe_members_off := at_ 1%nat; pe_members_len := at_ 2%nat |}
|}.
Solve All Obligations with first [by intros []|cbn; lia].

Record EqualityDirEntry := {
  qe_key_id : Z; qe_value_tag : Z; qe_reserved : Z; qe_value_scalar : Z; qe_text_off : Z; qe_text_len : Z;
  qe_members_off : Z; qe_members_len : Z
}.
#[export] Program Instance wire_equality : WireRecord EqualityDirEntry := {|
  wire_widths := [8; 4; 4; 8; 8; 8; 8; 8]%nat;
  wire_fields r := [qe_key_id r; qe_value_tag r; qe_reserved r; qe_value_scalar r; qe_text_off r; qe_text_len r;
    qe_members_off r; qe_members_len r];
  wire_of_fields l := let at_ i := default 0 (l !! i) in
    {| qe_key_id := at_ 0%nat; qe_value_tag := at_ 1%nat; qe_reserved := at_ 2%nat; qe_value_scalar := at_ 3%nat;
       qe_text_off := at_ 4%nat; qe_text_len := at_ 5%nat; qe_members_off := at_ 6%nat; qe_members_len := at_ 7%nat |}
|}.
Solve All Obligations with first [by intros []|cbn; lia].
