(* ===== verification/BaseFile.v ===== *)
(** * BaseFile: writing a base file

    Models the encoding half of [crates/oxgraph-db/src/freeze.rs]: a merged state
    is written as the typed sections of one container, records in ascending id
    order, names, labels, texts and definition bodies as runs of shared tables,
    the derived postings as directory and pool. A wrapped error keeps no text. *)

From Stdlib Require Import String.
From stdpp Require Import base gmap sets list strings sorting.
From S2P Require Import Prelude Bytes Ordered Layout Snapshot SnapshotWrite DbError DbWire DbState OverlayIndex Overlay Merge BaseWire.

Local Open Scope Z_scope.

Record FreezeStamps := { fs_commit_seq : Z; fs_transaction_id : Z; fs_generation : Z }.

(** The message of an error made from the text of another one. *)
Definition wrapped : string := "".
Definition store_result {A} (r : res PlanError A) : res DbError A := map_err (λ _, invalid_store wrapped) r.

Definition checked_u32 (value : Z) : res DbError Z := ok_or (invalid_store "store offset exceeds u32") (try_into u32_max value).

(** A run appended to a table, with its offset and length. *)
Definition append_run {A} (table run : list A) : res DbError (list A * (Z * Z)) :=
  offset ← checked_u32 (zlen table);
  len ← checked_u32 (zlen run);
  Ok (table ++ run, (offset, len)).

(** [StringTable::intern]; the table is its bytes. *)
Definition intern (strings name : list byte) : res DbError (list byte * (Z * Z)) := append_run strings name.

(** A loop that pushes one record for every item, through a table. *)
Definition push_each {A B S} (f : S → A → res DbError (S * B)) (l : list A) (s : S) : res DbError (S * list B) :=
  for_each (λ (st : S * list B) a, '(s, b) ← f st.1 a; Ok (s, st.2 ++ [b])) l (s, []).

Section freeze.
Context `{!Target} (ck : Checksum32).

(** ** Sections *)

Definition add_typed {T} `{WireRecord T} (w : SnapshotWriter) (kind : Z) (records : list T) : res DbError SnapshotWriter :=
  match records with
  | [] => Ok w
  | _ => store_result (section_typed w kind OXGDB_SECTION_VERSION 1 (wire_bytes <$> records))
  end.

Definition add_blob (w : SnapshotWriter) (kind : Z) (blob : list byte) : res DbError SnapshotWriter :=
  match blob with
  | [] => Ok w
  | _ =>
      store_result (sink ← begin_section w kind OXGDB_SECTION_VERSION 0;
                    sink ← write sink blob;
                    sink_end sink)
  end.

(** A record section streamed through a sink, skipped when there is no record. *)
Definition stream_section {A B S} `{WireRecord B} (w : SnapshotWriter) (kind : Z) (step : S → A → res DbError (S * B))
    (items : list A) (s : S) : res DbError (SnapshotWriter * S) :=
  match items with
  | [] => Ok (w, s)
  | _ =>
      sink ← store_result (begin_section w kind OXGDB_SECTION_VERSION 0);
      '(sink, s) ← for_each (λ (st : SectionSink * S) a,
          '(s, record) ← step st.2 a;
          sink ← store_result (write_typed st.1 [wire_bytes record]);
          Ok (sink, s)) items (sink, s);
      w ← store_result (sink_end sink);
      Ok (w, s)
  end.

Definition add_framed_section {T} `{WireRecord T} (w : SnapshotWriter) (kind : Z) (dir : list T) (pool : list Z)
    : res DbError SnapshotWriter :=
  let dir_bytes := records_bytes dir in
  let pool_bytes := records_bytes pool in
  store_result
    (sink ← begin_section w kind OXGDB_SECTION_VERSION 3;
     sink ← write sink (le_bytes 8 (zlen dir_bytes));
     sink ← write sink (le_bytes 8 (zlen pool_bytes));
     sink ← write sink dir_bytes;
     sink ← write sink pool_bytes;
     sink_end sink).

(** ** The header and the catalog *)

Definition header_record (next : NextIds) (stamps : FreezeStamps) : DbHeaderRecord := {|
  hr_format_version := OXGDB_FORMAT_VERSION; hr_flags := 0; hr_commit_seq := fs_commit_seq stamps;
  hr_transaction_id := fs_transaction_id stamps; hr_checkpoint_generation := fs_generation stamps;
  hr_next_element := next_element next; hr_next_relation := next_relation next; hr_next_incidence := next_incidence next;
  hr_next_role := next_role next; hr_next_label := next_label next; hr_next_relation_type := next_relation_type next;
  hr_next_property_key := next_property_key next; hr_next_projection := next_projection next; hr_next_index := next_index next
|}.

Definition encode_header (w : SnapshotWriter) (next : NextIds) (stamps : FreezeStamps) : res DbError SnapshotWriter :=
  add_typed w SECTION_DB_HEADER [header_record next stamps].

Definition named_wire (strings : list byte) (id : Z) (name : list byte) : res DbError (list byte * NamedWire) :=
  '(strings, (off, len)) ← intern strings name;
  Ok (strings, {| nw_id := id; nw_name_off := off; nw_name_len := len |}).

Definition property_key_wire (strings : list byte) (d : PropertyKeyDefinition) : res DbError (list byte * PropertyKeyWire) :=
  '(strings, (off, len)) ← intern strings (key_name d);
  Ok (strings, {| kw_id := key_id d; kw_name_off := off; kw_name_len := len;
                  kw_family := property_family_tag (key_family d); kw_value_type := property_type_tag (key_type d) |}).

Definition def_wire (strings : list byte) (id : Z) (name : list byte) (body : Z * (Z * Z)) : res DbError (list byte * DefWire) :=
  '(strings, (off, len)) ← intern strings name;
  Ok (strings, {| df_id := id; df_name_off := off; df_name_len := len; df_kind := body.1;
                  df_payload_off := body.2.1; df_payload_len := body.2.2 |}).

(** The run, and the kind, offset and length of the body in it. *)
Definition encode_body (defs : list Z) (body : Z * list Z) : res DbError (list Z * (Z * (Z * Z))) :=
  '(defs, place) ← append_run defs body.2;
  Ok (defs, (body.1, place)).
Definition encode_projection_def (definition : ProjectionDefinition) (defs : list Z) : res DbError (list Z * (Z * (Z * Z))) :=
  encode_body defs (encode_projection_body definition).
Definition encode_index_def (definition : IndexDefinition) (defs : list Z) : res DbError (list Z * (Z * (Z * Z))) :=
  encode_body defs (encode_index_body definition).

(** The string table and the definition run together. *)
Definition projection_wire (st : list byte * list Z) (entry : ProjectionEntry) : res DbError ((list byte * list Z) * DefWire) :=
  '(defs, body) ← encode_projection_def (projection_definition entry) st.2;
  '(strings, record) ← def_wire st.1 (projection_id entry) (projection_name (projection_definition entry)) body;
  Ok ((strings, defs), record).
Definition index_wire (st : list byte * list Z) (entry : IndexEntry) : res DbError ((list byte * list Z) * DefWire) :=
  '(defs, body) ← encode_index_def (index_definition entry) st.2;
  '(strings, record) ← def_wire st.1 (index_id entry) (index_name entry) body;
  Ok ((strings, defs), record).

Definition catalog_values {D} (defs : gmap Z D) : list D := snd <$> map_iter defs.

Definition encode_catalog (w : SnapshotWriter) (c : Catalog) (strings : list byte)
    : res DbError (SnapshotWriter * list byte) :=
  '(strings, role_wires) ← push_each (λ s d, named_wire s (role_id d) (role_name d)) (catalog_values (roles c)) strings;
  '(strings, label_wires) ← push_each (λ s d, named_wire s (label_id d) (label_name d)) (catalog_values (labels c)) strings;
  '(strings, type_wires) ← push_each (λ s d, named_wire s (relation_type_id d) (relation_type_name d))
                             (catalog_values (relation_types c)) strings;
  w ← add_typed w SECTION_CATALOG_ROLES role_wires;
  w ← add_typed w SECTION_CATALOG_LABELS label_wires;
  w ← add_typed w SECTION_CATALOG_RELATION_TYPES type_wires;
  '(strings, key_wires) ← push_each property_key_wire (catalog_values (property_keys c)) strings;
  w ← add_typed w SECTION_CATALOG_PROPERTY_KEYS key_wires;
  '(st, projection_wires) ← push_each projection_wire (catalog_values (projections c)) (strings, []);
  '(st, index_wires) ← push_each index_wire (catalog_values (indexes c)) st;
  w ← add_typed w SECTION_CATALOG_PROJECTIONS projection_wires;
  w ← add_typed w SECTION_CATALOG_INDEXES index_wires;
  w ← add_typed w SECTION_CATALOG_DEFS st.2;
  Ok (w, st.1).

(** ** Topology and properties *)

Definition element_wire (run : list Z) (r : ElementRecord) : res DbError (list Z * ElementWire) :=
  '(run, (off, len)) ← append_run run (set_iter (el_labels r));
  Ok (run, {| ew_id := el_id r; ew_label_off := off; ew_label_len := len |}).
Definition relation_wire (run : list Z) (r : RelationRecord) : res DbError (list Z * RelationWire) :=
  '(run, (off, len)) ← append_run run (set_iter (rel_labels r));
  Ok (run, {| rw_id := rel_id r; rw_relation_type := encode_relation_type (rel_type r); rw_label_off := off; rw_label_len := len |}).
Definition incidence_wire (r : IncidenceRecord) : IncidenceWire :=
  {| iw_id := inc_id r; iw_relation := inc_relation r; iw_element := inc_element r; iw_role := inc_role r |}.

Definition encode_topology `{OverlayLayer L} (w : SnapshotWriter) (v : LayeredState L) : res DbError SnapshotWriter :=
  els ← view_elements v;
  '(w, element_labels) ← stream_section w SECTION_ELEMENT_RECORDS element_wire els [];
  w ← add_typed w SECTION_ELEMENT_LABELS element_labels;
  rels ← view_relations v;
  '(w, relation_labels) ← stream_section w SECTION_RELATION_RECORDS relation_wire rels [];
  w ← add_typed w SECTION_RELATION_LABELS relation_labels;
  incs ← view_incidences v;
  '(w, _) ← stream_section w SECTION_INCIDENCE_RECORDS (λ s r, Ok (s, incidence_wire r)) incs ();
  Ok w.

(** The scalar, and the text's offset and length. *)
Definition value_wire (text : list byte) (value : PropertyValue) : res DbError (list byte * (Z * (Z * Z))) :=
  match value with
  | PBoolean flag => Ok (text, (if flag then 1 else 0, (0, 0)))
  | PInteger number => Ok (text, (cast_unsigned number, (0, 0)))
  | PText string => '(text, place) ← append_run text string; Ok (text, (0, place))
  end.

Definition property_wire (text : list byte) (t : PropertyTriple) : res DbError (list byte * PropertyWire) :=
  let subject := encode_subject t.1.1 in
  '(text, (scalar, (off, len))) ← value_wire text t.2;
  Ok (text, {| pw_subject_kind := subject.1; pw_value_tag := property_type_tag (value_type t.2); pw_subject_id := subject.2;
               pw_key := t.1.2; pw_scalar := scalar; pw_text_off := off; pw_text_len := len |}).

Definition encode_properties `{OverlayLayer L} (w : SnapshotWriter) (v : LayeredState L) : res DbError SnapshotWriter :=
  ps ← view_properties v;
  '(w, text) ← stream_section w SECTION_PROPERTY_RECORDS property_wire ps [];
  add_blob w SECTION_PROPERTY_TEXT text.

(** ** The postings *)

(** [OwnedBaseIndex::from_state]. *)
Definition from_state `{OverlayLayer L} (v : LayeredState L) : res DbError OwnedBaseIndex :=
  els ← view_elements v;
  rels ← view_relations v;
  ps ← view_properties v;
  incs ← view_incidences v;
  Ok {| label_members := postings_of (label_pairs els);
        relation_type_members := postings_of (type_pairs rels);
        property_equality := postings_of (equality_pairs ps);
        base_element_incidences := postings_of (incidence_pairs inc_element incs);
        base_relation_incidences := postings_of (incidence_pairs inc_relation incs) |}.

Definition push_posting (st : list PostingDirEntry * list Z) (p : Z * gset Z) : list PostingDirEntry * list Z :=
  let members := set_iter p.2 in
  (st.1 ++ [{| pe_key := p.1; pe_members_off := zlen st.2; pe_members_len := zlen members |}], st.2 ++ members).

Definition encode_simple_posting (w : SnapshotWriter) (kind : Z) (map : gmap Z (gset Z)) : res DbError SnapshotWriter :=
  match map_iter map with
  | [] => Ok w
  | postings =>
      let '(dir, pool) := foldl push_posting ([], []) postings in
      add_framed_section w kind dir pool
  end.

(** The scalar and the text of a posting's value: the text pool only grows. *)
Definition posting_value (text : list byte) (value : PropertyValue) : list byte * (Z * (Z * Z)) :=
  match value with
  | PBoolean flag => (text, (if flag then 1 else 0, (0, 0)))
  | PInteger number => (text, (cast_unsigned number, (0, 0)))
  | PText string => (text ++ string, (0, (zlen text, zlen string)))
  end.

Definition subject_words (s : PropertySubject) : list Z := [(encode_subject s).1; (encode_subject s).2].

Record EqualityPools := { ep_dir : list EqualityDirEntry; ep_pool : list Z; ep_text : list byte }.

Definition push_equality (st : EqualityPools) (p : EqualityKey * gset PropertySubject) : EqualityPools :=
  let '((key, value), subjects) := p in
  let '(text, (scalar, (off, len))) := posting_value (ep_text st) value in
  let run := set_iter subjects ≫= subject_words in
  {| ep_dir := ep_dir st ++ [{| qe_key_id := key; qe_value_tag := property_type_tag (value_type value); qe_reserved := 0;
                                qe_value_scalar := scalar; qe_text_off := off; qe_text_len := len;
                                qe_members_off := zlen (ep_pool st); qe_members_len := zlen run |}];
     ep_pool := ep_pool st ++ run; ep_text := text |}.

Definition encode_equality_posting (w : SnapshotWriter) (map : gmap EqualityKey (gset PropertySubject))
    : res DbError SnapshotWriter :=
  match map_iter map with
  | [] => Ok w
  | postings =>
      let pools := foldl push_equality {| ep_dir := []; ep_pool := []; ep_text := [] |} postings in
      w ← add_framed_section w SECTION_INDEX_EQUALITY (ep_dir pools) (ep_pool pools);
      add_blob w SECTION_INDEX_EQUALITY_TEXT (ep_text pools)
  end.

Definition encode_index `{OverlayLayer L} (w : SnapshotWriter) (v : LayeredState L) : res DbError SnapshotWriter :=
  index ← from_state v;
  w ← encode_simple_posting w SECTION_INDEX_LABEL_POSTINGS (label_members index);
  w ← encode_simple_posting w SECTION_INDEX_RELATION_TYPE_POSTINGS (relation_type_members index);
  w ← encode_simple_posting w SECTION_INDEX_ELEMENT_INCIDENCES (base_element_incidences index);
  w ← encode_simple_posting w SECTION_INDEX_RELATION_INCIDENCES (base_relation_incidences index);
  encode_equality_posting w (property_equality index).

Definition freeze_view `{OverlayLayer L} (v : LayeredState L) (stamps : FreezeStamps) : res DbError (list byte) :=
  w ← store_result (SnapshotWriter_new MAX_BASE_SECTION_KINDS ck);
  w ← encode_header w (view_next_ids v) stamps;
  '(w, strings) ← encode_catalog w (view_catalog v) [];
  w ← encode_topology w v;
  w ← encode_properties w v;
  w ← encode_index w v;
  w ← add_blob w SECTION_STRING_TABLE strings;
  store_result (finish w).

End freeze.
