(* ===== verification/BorrowedIndex.v ===== *)
(** * BorrowedIndex: postings read out of a base file

    Models the borrowed half of [crates/oxgraph-db/src/index.rs]: the postings of
    a base generation as sorted directories over flat pools, validated when they
    are bound and searched by bisection, next to the owned postings they were
    written from ([BaseIndex] is either). *)

From Stdlib Require Import String.
From stdpp Require Import base gmap sets list strings sorting.
From S2P Require Import Prelude Bytes Ordered Layout DbError DbWire DbState OverlayIndex BaseWire Search.

Local Open Scope Z_scope.

Record BorrowedBaseIndex := {
  label_dir : list PostingDirEntry; label_pool : list Z;
  relation_type_dir : list PostingDirEntry; relation_type_pool : list Z;
  equality_dir : list EqualityDirEntry; equality_pool : list Z; equality_text : list byte;
  element_incidence_dir : list PostingDirEntry; element_incidence_pool : list Z;
  relation_incidence_dir : list PostingDirEntry; relation_incidence_pool : list Z
}.

Inductive BaseIndex :=
  | OwnedIndex (owned : OwnedBaseIndex)
  | BorrowedIndex (borrowed : BorrowedBaseIndex).

(** A posting of either form, and its members in ascending order. *)
Inductive Posting :=
  | PostingOwned (members : gset Z)
  | PostingBorrowed (run : list Z).
Definition posting_iter (p : Posting) : list Z :=
  match p with PostingOwned members => set_iter members | PostingBorrowed run => run end.

(** [Ord::cmp]. *)
Definition key_cmp `{KeyOrder K} (a b : K) : comparison :=
  if decide (a = b) then Eq else if decide (key_lt a b) then Lt else Gt.

(** [chunks_exact(2)]. *)
Fixpoint word_pairs (run : list Z) : list (Z * Z) :=
  match run with a :: b :: rest => (a, b) :: word_pairs rest | _ => [] end.

(** [slice.partition_point(pred)]: the bisection whose comparison never matches. *)
Definition partition_point {E A} (pred : A → bool) (l : list A) : res E nat :=
  found ← binary_search_by (λ x, Ok (if pred x then Lt else Gt)) l;
  Ok (match found with inl i => i | inr i => i end).

Definition decode_pair (p : Z * Z) : option PropertySubject := kind ← try_into u32_max p.1; decode_subject kind p.2.

Section target.
Context `{!Target}.

Definition slice_pool {A} (pool : list A) (offset len : Z) : option (list A) :=
  start ← try_into usize_max offset;
  length ← try_into usize_max len;
  end_ ← checked_add usize_max start length;
  get_range pool start end_.

Definition equality_entry_key (entry : EqualityDirEntry) (text : list byte) : res DbError EqualityKey :=
  type ← ok_or (invalid_store "equality index value tag out of range") (property_type_from_tag (qe_value_tag entry));
  value ← match type with
          | TypeBoolean => Ok (PBoolean (bool_decide (qe_value_scalar entry ≠ 0)))
          | TypeInteger => Ok (PInteger (cast_signed (qe_value_scalar entry)))
          | TypeText =>
              start ← ok_or (invalid_store "equality index text offset overflow") (try_into usize_max (qe_text_off entry));
              len ← ok_or (invalid_store "equality index text length overflow") (try_into usize_max (qe_text_len entry));
              end_ ← ok_or (invalid_store "equality index text slice overflow") (checked_add usize_max start len);
              bytes ← ok_or (invalid_store "equality index text out of bounds") (get_range text start end_);
              if utf8_valid bytes then Ok (PText bytes) else Err (invalid_store "equality index text is not UTF-8")
          end;
  Ok (qe_key_id entry, value).

(** ** Binding *)

Definition validate_simple_dir (dir : list PostingDirEntry) (pool : list Z) (label : string) : res DbError () :=
  for_each (λ _ entry,
    _ ← ok_or (invalid_store (label ++ " posting run out of bounds")%string)
          (slice_pool pool (pe_members_off entry) (pe_members_len entry));
    Ok ()) dir ().

Definition validate_pair (p : Z * Z) : res DbError () :=
  kind ← ok_or (invalid_store "equality subject kind overflow") (try_into u32_max p.1);
  _ ← ok_or (invalid_store "equality subject kind out of range") (decode_subject kind p.2);
  Ok ().

Definition validate_equality_dir (dir : list EqualityDirEntry) (pool : list Z) (text : list byte) : res DbError () :=
  for_each (λ _ entry,
    _ ← equality_entry_key entry text;
    run ← ok_or (invalid_store "equality posting run out of bounds")
            (slice_pool pool (qe_members_off entry) (qe_members_len entry));
    if decide (zlen run mod 2 ≠ 0)
    then Err (invalid_store "equality posting subject run is not a whole number of (kind, id) pairs")
    else for_each (λ _ p, validate_pair p) (word_pairs run) ()) dir ().

(** [BorrowedBaseIndex::from_sections]: the index, if its five directories are valid. *)
Definition from_sections (ix : BorrowedBaseIndex) : res DbError BorrowedBaseIndex :=
  _ ← validate_simple_dir (label_dir ix) (label_pool ix) "label";
  _ ← validate_simple_dir (relation_type_dir ix) (relation_type_pool ix) "relation-type";
  _ ← validate_simple_dir (element_incidence_dir ix) (element_incidence_pool ix) "element-incidence";
  _ ← validate_simple_dir (relation_incidence_dir ix) (relation_incidence_pool ix) "relation-incidence";
  _ ← validate_equality_dir (equality_dir ix) (equality_pool ix) (equality_text ix);
  Ok ix.

(** ** Lookups *)

Definition simple_lookup (dir : list PostingDirEntry) (pool : list Z) (key : Z) : res DbError (option (list Z)) :=
  found ← binary_search_by (λ entry, Ok (pe_key entry ?= key)) dir;
  match found with
  | inl index => Ok (entry ← dir !! index; slice_pool pool (pe_members_off entry) (pe_members_len entry))
  | inr _ => Ok None
  end.

Definition base_posting (owned : OwnedBaseIndex → gmap Z (gset Z)) (dir : BorrowedBaseIndex → list PostingDirEntry)
    (pool : BorrowedBaseIndex → list Z) (ix : BaseIndex) (key : Z) : res DbError (option Posting) :=
  match ix with
  | OwnedIndex o => Ok (PostingOwned <$> owned o !! key)
  | BorrowedIndex b => '(run : option (list Z)) ← simple_lookup (dir b) (pool b) key; Ok (PostingBorrowed <$> run)
  end.
Definition label_posting : BaseIndex → Z → res DbError (option Posting) :=
  base_posting label_members label_dir label_pool.
Definition relation_type_posting : BaseIndex → Z → res DbError (option Posting) :=
  base_posting relation_type_members relation_type_dir relation_type_pool.
Definition element_incidence_posting : BaseIndex → Z → res DbError (option Posting) :=
  base_posting base_element_incidences element_incidence_dir element_incidence_pool.
Definition relation_incidence_posting : BaseIndex → Z → res DbError (option Posting) :=
  base_posting base_relation_incidences relation_incidence_dir relation_incidence_pool.

Definition decode_subjects (b : BorrowedBaseIndex) (entry : EqualityDirEntry) : list PropertySubject :=
  omap decode_pair (word_pairs (default [] (slice_pool (equality_pool b) (qe_members_off entry) (qe_members_len entry)))).

Definition equality_subjects (ix : BaseIndex) (key : Z) (value : PropertyValue) : res DbError (option (list PropertySubject)) :=
  match ix with
  | OwnedIndex o => Ok (set_iter <$> property_equality o !! (key, value))
  | BorrowedIndex b =>
      found ← binary_search_by (λ entry,
          Ok (match equality_entry_key entry (equality_text b) with
              | Ok candidate => key_cmp candidate (key, value)
              | _ => Lt
              end)) (equality_dir b);
      match found with
      | inl index => Ok (entry ← equality_dir b !! index; Some (decode_subjects b entry))
      | inr _ => Ok None
      end
  end.

Definition key_lower_bound (b : BorrowedBaseIndex) (key : Z) : res DbError nat :=
  partition_point (λ entry, bool_decide (qe_key_id entry < key)) (equality_dir b).

(** The directory from an entry on, up to the first one of another key or above
    [max]; [None] sets no bound. *)
Fixpoint scan_postings (b : BorrowedBaseIndex) (key : Z) (bounds : option (PropertyValue * PropertyValue))
    (entries : list EqualityDirEntry) : list (EqualityKey * list PropertySubject) :=
  match entries with
  | [] => []
  | entry :: rest =>
      if decide (qe_key_id entry ≠ key) then [] else
      match equality_entry_key entry (equality_text b) with
      | Ok (entry_key, value) =>
          match bounds with
          | Some (min, max) =>
              if decide (key_lt value min) then scan_postings b key bounds rest
              else if decide (key_lt max value) then []
              else ((entry_key, value), decode_subjects b entry) :: scan_postings b key bounds rest
          | None => ((entry_key, value), decode_subjects b entry) :: scan_postings b key bounds rest
          end
      | _ => scan_postings b key bounds rest
      end
  end.

Definition borrowed_range_postings (b : BorrowedBaseIndex) (key : Z) (min max : PropertyValue)
    : res DbError (list (EqualityKey * list PropertySubject)) :=
  '(start : nat) ← key_lower_bound b key;
  Ok (scan_postings b key (Some (min, max)) (drop start (equality_dir b))).

Definition borrowed_key_postings (b : BorrowedBaseIndex) (key : Z) : res DbError (list (PropertyValue * list PropertySubject)) :=
  '(start : nat) ← key_lower_bound b key;
  Ok ((λ p, (p.1.2, p.2)) <$> scan_postings b key None (drop start (equality_dir b))).

(** [BaseIndex::range_postings] and [key_postings]; the owned arms are those of
    [OverlayIndex]. *)
Definition base_range_postings (ix : BaseIndex) (key : Z) (min max : PropertyValue)
    : res DbError (list (EqualityKey * list PropertySubject)) :=
  if decide (key_lt max min) then Ok [] else
  match ix with
  | OwnedIndex o => Ok ((λ p, (p.1, set_iter p.2)) <$> range_postings o key min max)
  | BorrowedIndex b => borrowed_range_postings b key min max
  end.
Definition base_key_postings (ix : BaseIndex) (key : Z) : res DbError (list (PropertyValue * list PropertySubject)) :=
  match ix with
  | OwnedIndex o => Ok ((λ p, (p.1, set_iter p.2)) <$> key_postings o key)
  | BorrowedIndex b => borrowed_key_postings b key
  end.

(** ** The owned form of borrowed postings *)

Definition materialize_simple (dir : list PostingDirEntry) (pool : list Z) : gmap Z (gset Z) :=
  foldl (λ map entry,
    <[pe_key entry := list_to_set (default [] (slice_pool pool (pe_members_off entry) (pe_members_len entry)))]> map) ∅ dir.

Definition materialize_equality (b : BorrowedBaseIndex) : gmap EqualityKey (gset PropertySubject) :=
  foldl (λ map entry,
    match equality_entry_key entry (equality_text b) with
    | Ok key => <[key := list_to_set (decode_subjects b entry)]> map
    | _ => map
    end) ∅ (equality_dir b).

Definition to_owned_snapshot (b : BorrowedBaseIndex) : OwnedBaseIndex := {|
  label_members := materialize_simple (label_dir b) (label_pool b);
  relation_type_members := materialize_simple (relation_type_dir b) (relation_type_pool b);
  property_equality := materialize_equality b;
  base_element_incidences := materialize_simple (element_incidence_dir b) (element_incidence_pool b);
  base_relation_incidences := materialize_simple (relation_incidence_dir b) (relation_incidence_pool b)
|}.

End target.
