(* ===== verification/BaseView.v ===== *)
(** * BaseView: opening a base file

    Models what reads a base file back: the bind funnels and [decode_catalog] of
    [crates/oxgraph-db/src/freeze.rs], the attached view of [backing.rs] and
    [BaseRecords::open] of [overlay/frozen.rs]. A file is its bytes, placed at an
    address. A wrapped error keeps no text.

    The records of a generation hold the postings in their owned form: what the
    borrowed ones materialize to ([to_owned_snapshot]); [BorrowedFacts] shows that
    every lookup of a written index is the same in both forms. *)

From Stdlib Require Import String.
From stdpp Require Import base gmap sets list strings sorting.
From S2P Require Import Prelude Bytes Ordered Layout Snapshot SnapshotWrite DbError DbWire DbState OverlayIndex Overlay BaseWire BaseFile BorrowedIndex.

Local Open Scope Z_scope.

Record DbHeader := {
  dh_format_version : Z; dh_commit_seq : Z; dh_transaction_id : Z; dh_checkpoint_generation : Z; dh_next : NextIds
}.

(** [NextIds::from_header] is [dh_next]: the header's nine allocators. *)
Definition header_of_record (r : DbHeaderRecord) : DbHeader := {|
  dh_format_version := hr_format_version r; dh_commit_seq := hr_commit_seq r; dh_transaction_id := hr_transaction_id r;
  dh_checkpoint_generation := hr_checkpoint_generation r;
  dh_next := {| next_element := hr_next_element r; next_relation := hr_next_relation r; next_incidence := hr_next_incidence r;
                next_role := hr_next_role r; next_label := hr_next_label r; next_relation_type := hr_next_relation_type r;
                next_property_key := hr_next_property_key r; next_projection := hr_next_projection r; next_index := hr_next_index r |}
|}.

Record BaseView := {
  bv_elements : list ElementWire; bv_relations : list RelationWire; bv_incidences : list IncidenceWire;
  bv_element_labels : list Z; bv_relation_labels : list Z;
  bv_properties : list PropertyWire; bv_property_text : list byte;
  bv_index : BorrowedBaseIndex; bv_catalog : Catalog; bv_header : DbHeader
}.

Definition storage_text {E A} (r : res E A) : res StorageError A := map_err (λ _, InvalidStore wrapped) r.

Section view.
Context `{!Target} (ck : Checksum32).

(** A [u32] as a [usize]. *)
Definition usize_of (value : Z) : Z := value mod 2 ^ usize_bits.

(** [label_slice], [property_text] and the slices of [read_str] and [def_body]:
    [len] items from [offset] on. *)
Definition run_slice {A} (table : list A) (offset len : Z) : option (list A) :=
  end_ ← checked_add usize_max (usize_of offset) (usize_of len);
  get_range table (usize_of offset) end_.

(** ** The bind funnels *)

Definition typed_records (T : Type) `{WireRecord T} (s : Snapshot) (kind : Z) : res StorageError (list T) :=
  found ← (section s kind : res StorageError (option Section_));
  match found with
  | None => Ok []
  | Some sec =>
      '(_ : ()) ← storage_text (verify sec ck);
      '(records : list (list byte)) ← storage_text (try_as_slice sec (wire_size T) 1);
      Ok (wire_of_bytes <$> records)
  end.

Definition raw_blob (s : Snapshot) (kind : Z) : res StorageError (list byte) :=
  found ← (section s kind : res StorageError (option Section_));
  match found with
  | None => Ok []
  | Some sec => '(_ : ()) ← storage_text (verify sec ck); Ok (payload sec)
  end.

Definition POSTING_FRAME_PREFIX_LEN : Z := 16.

Definition split_posting_section (bytes : list byte) : res StorageError (list byte * list byte) :=
  if decide (bytes = []) then Ok ([], []) else
  prefix ← ok_or (InvalidStore "posting section is missing its frame prefix") (get_range bytes 0 POSTING_FRAME_PREFIX_LEN);
  dir_len ← ok_or (InvalidStore "posting section directory length overflow") (try_into usize_max (le_val (take 8 prefix)));
  pool_len ← ok_or (InvalidStore "posting section pool length overflow") (try_into usize_max (le_val (drop 8 prefix)));
  let dir_start := POSTING_FRAME_PREFIX_LEN in
  dir_end ← ok_or (InvalidStore "posting section directory overflow") (checked_add usize_max dir_start dir_len);
  pool_end ← ok_or (InvalidStore "posting section pool overflow") (checked_add usize_max dir_end pool_len);
  dir ← ok_or (InvalidStore "posting section directory out of bounds") (get_range bytes dir_start dir_end);
  pool ← ok_or (InvalidStore "posting section pool out of bounds") (get_range bytes dir_end pool_end);
  Ok (dir, pool).

(** [<[T]>::ref_from_bytes]: the size is positive and the alignment one. *)
Definition ref_from_bytes (T : Type) `{WireRecord T} (message : string) (bytes : list byte) : res StorageError (list T) :=
  if decide (length bytes mod wire_size T ≠ 0)%nat then Err (InvalidStore message)
  else Ok (wire_of_bytes <$> chunks (wire_size T) (length bytes / wire_size T) bytes).

Definition posting_slices (T : Type) `{WireRecord T} (s : Snapshot) (kind : Z) : res StorageError (list T * list Z) :=
  found ← (section s kind : res StorageError (option Section_));
  match found with
  | None => Ok ([], [])
  | Some sec =>
      '(_ : ()) ← storage_text (verify sec ck);
      '((dir_bytes, pool_bytes) : list byte * list byte) ← split_posting_section (payload sec);
      dir ← ref_from_bytes T "posting directory is not a whole array" dir_bytes;
      pool ← ref_from_bytes Z "posting value pool is not a whole array" pool_bytes;
      Ok (dir, pool)
  end.

(** ** The catalog *)

Definition read_str (table : list byte) (offset len : Z) : res DbError (list byte) :=
  end_ ← ok_or (invalid_store "string slice overflow") (checked_add usize_max (usize_of offset) (usize_of len));
  bytes ← ok_or (invalid_store "string slice out of bounds") (get_range table (usize_of offset) end_);
  if utf8_valid bytes then Ok bytes else Err (invalid_store "non-UTF-8 string in store").

Definition def_body (record : DefWire) (defs : list Z) : res DbError (list Z) :=
  end_ ← ok_or (invalid_store "definition body overflow")
           (checked_add usize_max (usize_of (df_payload_off record)) (usize_of (df_payload_len record)));
  ok_or (invalid_store "definition body out of bounds") (get_range defs (usize_of (df_payload_off record)) end_).

Definition decode_projection_def (record : DefWire) (name : list byte) (defs : list Z) : res DbError ProjectionDefinition :=
  body ← def_body record defs;
  map_err invalid_store (decode_projection_body (df_kind record) name body).
Definition decode_index_def (record : DefWire) (defs : list Z) : res DbError IndexDefinition :=
  body ← def_body record defs;
  map_err invalid_store (decode_index_body (df_kind record) body).

(** The loops over the records of one section. *)
Definition decode_named (insert : Catalog → Z → list byte → res CatalogError Catalog) (table : list byte)
    (records : list NamedWire) (c : Catalog) : res DbError Catalog :=
  for_each (λ c record,
    name ← read_str table (nw_name_off record) (nw_name_len record);
    map_err Catalog_ (insert c (nw_id record) name)) records c.

Definition decode_property_key (table : list byte) (c : Catalog) (record : PropertyKeyWire) : res DbError Catalog :=
  name ← read_str table (kw_name_off record) (kw_name_len record);
  fam ← ok_or (invalid_store "unknown property family tag") (property_family_from_tag (kw_family record));
  type ← ok_or (invalid_store "unknown property type tag") (property_type_from_tag (kw_value_type record));
  map_err Catalog_ (insert_property_key c {| key_id := kw_id record; key_name := name; key_family := fam; key_type := type |}).

Definition decode_projection (table : list byte) (defs : list Z) (c : Catalog) (record : DefWire) : res DbError Catalog :=
  name ← read_str table (df_name_off record) (df_name_len record);
  definition ← decode_projection_def record name defs;
  map_err Catalog_ (insert_projection c (df_id record) definition).

Definition decode_index (table : list byte) (defs : list Z) (c : Catalog) (record : DefWire) : res DbError Catalog :=
  name ← read_str table (df_name_off record) (df_name_len record);
  definition ← decode_index_def record defs;
  map_err Catalog_ (insert_index c (df_id record) name definition).

Definition decode_catalog (s : Snapshot) (table : list byte) (defs : list Z) : res DbError Catalog :=
  rs ← map_err Storage (typed_records NamedWire s SECTION_CATALOG_ROLES);
  c ← decode_named insert_role table rs empty_catalog;
  rs ← map_err Storage (typed_records NamedWire s SECTION_CATALOG_LABELS);
  c ← decode_named insert_label table rs c;
  rs ← map_err Storage (typed_records NamedWire s SECTION_CATALOG_RELATION_TYPES);
  c ← decode_named insert_relation_type table rs c;
  rs ← map_err Storage (typed_records PropertyKeyWire s SECTION_CATALOG_PROPERTY_KEYS);
  c ← for_each (decode_property_key table) rs c;
  rs ← map_err Storage (typed_records DefWire s SECTION_CATALOG_PROJECTIONS);
  c ← for_each (decode_projection table defs) rs c;
  rs ← map_err Storage (typed_records DefWire s SECTION_CATALOG_INDEXES);
  for_each (decode_index table defs) rs c.

(** ** The attached view *)

Definition property_sort_key (r : PropertyWire) : Z * Z * Z := (pw_subject_kind r, pw_subject_id r, pw_key r).

(** The order of the tuples. *)
Definition sort_key_le (a b : Z * Z * Z) : Prop :=
  a.1.1 < b.1.1 ∨ a.1.1 = b.1.1 ∧ (a.1.2 < b.1.2 ∨ a.1.2 = b.1.2 ∧ a.2 ≤ b.2).
#[export] Instance sort_key_le_dec a b : Decision (sort_key_le a b).
Proof. unfold sort_key_le. apply _. Defined.

(** [windows(2).all(..)]. *)
Fixpoint properties_ordered (records : list PropertyWire) : bool :=
  match records with
  | a :: (b :: _) as rest => bool_decide (sort_key_le (property_sort_key a) (property_sort_key b)) && properties_ordered rest
  | _ => true
  end.

Definition verify_properties_sorted (records : list PropertyWire) : res StorageError () :=
  if properties_ordered records then Ok ()
  else Err (InvalidStore "base property records are not sorted by (subject_kind, subject_id, key)").

Definition attach_index (s : Snapshot) : res StorageError BorrowedBaseIndex :=
  '(ld, lp) ← posting_slices PostingDirEntry s SECTION_INDEX_LABEL_POSTINGS;
  '(td, tp) ← posting_slices PostingDirEntry s SECTION_INDEX_RELATION_TYPE_POSTINGS;
  '(ed, ep) ← posting_slices PostingDirEntry s SECTION_INDEX_ELEMENT_INCIDENCES;
  '(rd, rp) ← posting_slices PostingDirEntry s SECTION_INDEX_RELATION_INCIDENCES;
  '(qd, qp) ← posting_slices EqualityDirEntry s SECTION_INDEX_EQUALITY;
  text ← raw_blob s SECTION_INDEX_EQUALITY_TEXT;
  storage_text (from_sections {|
    label_dir := ld; label_pool := lp; relation_type_dir := td; relation_type_pool := tp;
    equality_dir := qd; equality_pool := qp; equality_text := text;
    element_incidence_dir := ed; element_incidence_pool := ep;
    relation_incidence_dir := rd; relation_incidence_pool := rp |}).

Definition attach_view (bytes : list byte) (addr : Z) : res StorageError BaseView :=
  s ← storage_text (open_checked bytes addr ck);
  headers ← typed_records DbHeaderRecord s SECTION_DB_HEADER;
  header ← ok_or (InvalidStore "base is missing the header section") (head headers);
  if decide (hr_format_version header ≠ OXGDB_FORMAT_VERSION)
  then Err (UnsupportedFormat (hr_format_version header) OXGDB_FORMAT_VERSION) else
  table ← raw_blob s SECTION_STRING_TABLE;
  defs ← typed_records Z s SECTION_CATALOG_DEFS;
  catalog ← storage_text (decode_catalog s table defs);
  properties ← typed_records PropertyWire s SECTION_PROPERTY_RECORDS;
  _ ← verify_properties_sorted properties;
  index ← attach_index s;
  elements ← typed_records ElementWire s SECTION_ELEMENT_RECORDS;
  relations ← typed_records RelationWire s SECTION_RELATION_RECORDS;
  incidences ← typed_records IncidenceWire s SECTION_INCIDENCE_RECORDS;
  element_labels ← typed_records Z s SECTION_ELEMENT_LABELS;
  relation_labels ← typed_records Z s SECTION_RELATION_LABELS;
  text ← raw_blob s SECTION_PROPERTY_TEXT;
  Ok {| bv_elements := elements; bv_relations := relations; bv_incidences := incidences;
        bv_element_labels := element_labels; bv_relation_labels := relation_labels;
        bv_properties := properties; bv_property_text := text; bv_index := index; bv_catalog := catalog;
        bv_header := header_of_record header |}.

(** ** The records of a generation *)

Definition decode_labels (run : option (list Z)) : res DbError (gset Z) :=
  run ← ok_or (invalid_store "base label run out of bounds") run; Ok (list_to_set run).

Definition decode_element (v : BaseView) (map : gmap Z ElementRecord) (r : ElementWire) : res DbError (gmap Z ElementRecord) :=
  labels ← decode_labels (run_slice (bv_element_labels v) (ew_label_off r) (ew_label_len r));
  Ok (<[ew_id r := {| el_id := ew_id r; el_labels := labels |}]> map).
Definition decode_relation (v : BaseView) (map : gmap Z RelationRecord) (r : RelationWire) : res DbError (gmap Z RelationRecord) :=
  labels ← decode_labels (run_slice (bv_relation_labels v) (rw_label_off r) (rw_label_len r));
  Ok (<[rw_id r := {| rel_id := rw_id r; rel_type := decode_relation_type (rw_relation_type r); rel_labels := labels |}]> map).
Definition decode_incidence (map : gmap Z IncidenceRecord) (r : IncidenceWire) : gmap Z IncidenceRecord :=
  <[iw_id r := {| inc_id := iw_id r; inc_relation := iw_relation r; inc_element := iw_element r; inc_role := iw_role r |}]> map.

Definition decode_property_value (v : BaseView) (r : PropertyWire) : res DbError PropertyValue :=
  type ← ok_or (invalid_store "base property value tag out of range") (property_type_from_tag (pw_value_tag r));
  match type with
  | TypeBoolean => Ok (PBoolean (bool_decide (pw_scalar r ≠ 0)))
  | TypeInteger => Ok (PInteger (cast_signed (pw_scalar r)))
  | TypeText =>
      bytes ← ok_or (invalid_store "base property text out of bounds")
                (run_slice (bv_property_text v) (pw_text_off r) (pw_text_len r));
      if utf8_valid bytes then Ok (PText bytes) else Err (invalid_store "base property text is not UTF-8")
  end.

Definition decode_property (v : BaseView) (map : Properties) (r : PropertyWire) : res DbError Properties :=
  subject ← ok_or (invalid_store "base property subject kind out of range") (decode_subject (pw_subject_kind r) (pw_subject_id r));
  value ← decode_property_value v r;
  Ok (<[subject := <[pw_key r := value]> (default ∅ (map !! subject))]> map).

(** [BaseRecords::open]. *)
Definition open_records (v : BaseView) : res DbError BaseRecords :=
  els ← for_each (decode_element v) (bv_elements v) ∅;
  rels ← for_each (decode_relation v) (bv_relations v) ∅;
  let incs := foldl decode_incidence ∅ (bv_incidences v) in
  props ← for_each (decode_property v) (bv_properties v) ∅;
  Ok {| base_elements := els; base_relations := rels; base_incidences := incs; base_properties := props;
        base_index := to_owned_snapshot (bv_index v) |}.

End view.
