(* ===== verification/BaseFileFacts.v ===== *)
(** * BaseFileFacts: what a base file holds

    Writing half: the freeze of a view is one container whose sections are the
    columns of [BaseContents], each skipped when it is empty
    ([freeze_writes]); a container of such sections is written within its size,
    opens anywhere, and gives every column back ([columns_read]). *)

From Stdlib Require Import String.
From stdpp Require Import base gmap sets list strings sorting.
From S2P Require Import Prelude Bytes Ordered Layout Crc Snapshot SnapshotFacts SnapshotWrite SnapshotWriteFacts SnapshotTyped DbError DbWire DbState OverlayIndex Overlay Merge BaseWire BaseFile BorrowedIndex BaseView.

Local Open Scope Z_scope.

(** ** Loops that push *)

Section push_each.
Context {A B S : Type} (f : S → A → res DbError (S * B)).

Lemma push_each_from l s acc :
  for_each (λ (st : S * list B) a, '(s, b) ← f st.1 a; Ok (s, st.2 ++ [b])) l (s, acc) =
    ('(s, bs) ← push_each f l s; Ok (s, acc ++ bs)).
Proof.
  unfold push_each. assert (∀ l s acc pre,
    for_each (λ (st : S * list B) a, '(s, b) ← f st.1 a; Ok (s, st.2 ++ [b])) l (s, pre ++ acc) =
    ('(s, bs) ← for_each (λ (st : S * list B) a, '(s, b) ← f st.1 a; Ok (s, st.2 ++ [b])) l (s, acc);
     Ok (s, pre ++ bs))) as Hg.
  { clear. intros l. induction l as [|a l IH]; intros s acc pre; [done|]. cbn [for_each fst snd].
    destruct (f s a) as [[s1 b]|e| |]; [|done..]. rewrite !bind_Ok, <-app_assoc. apply IH. }
  rewrite <-(app_nil_r acc) at 1. apply Hg.
Qed.

Lemma push_each_cons a l s :
  push_each f (a :: l) s = ('(s, b) ← f s a; '(s, bs) ← push_each f l s; Ok (s, b :: bs)).
Proof.
  unfold push_each at 1. cbn [for_each fst snd]. destruct (f s a) as [[s1 b]|e| |]; [|done..]. rewrite !bind_Ok.
  apply (push_each_from l s1 [b]).
Qed.

(** A step whose state is known: while the final state fits every step succeeds,
    and what a record refers to stays where it is. *)
Lemma push_each_Ok (next : S → A → S) (fits : S → Prop) (holds : S → A → B → Prop) l s :
  (∀ s a, fits (next s a) → fits s) →
  (∀ s a, a ∈ l → fits (next s a) → ∃ b, f s a = Ok (next s a, b) ∧ holds (next s a) a b) →
  (∀ s a b a', holds s a b → holds (next s a') a b) →
  fits (foldl next s l) →
  ∃ bs, push_each f l s = Ok (foldl next s l, bs) ∧ Forall2 (holds (foldl next s l)) l bs.
Proof.
  intros Hdown Hstep Hstay. assert (∀ l s, fits (foldl next s l) → fits s) as Hdowns.
  { intros k. induction k as [|a k IH]; intros s0; [done|]. intros Hf%IH. by eapply Hdown. }
  assert (∀ l s a b, holds s a b → holds (foldl next s l) a b) as Hstays.
  { intros k. induction k as [|a' k IH]; intros s0 a b Hb; [done|]. by apply IH, Hstay. }
  revert s. induction l as [|a l IH]; intros s Hfits; cbn [foldl] in *; [by exists []|].
  destruct (Hstep s a) as (b & Hb & Hh); [by left|by eapply Hdowns|].
  destruct (IH ltac:(intros; apply Hstep; [by right|done]) _ Hfits) as (bs & Hbs & Hall).
  exists (b :: bs). split; [|by constructor; [apply Hstays|]].
  by rewrite push_each_cons, Hb, bind_Ok, Hbs.
Qed.

End push_each.

(** A run of a table, and its place there; the place of a run stays as the table
    grows. *)
Section runs.
Context `{!Target} {A : Type}.

Definition placed (table run : list A) (place : Z * Z) : Prop :=
  is_uint 32 place.1 ∧ is_uint 32 place.2 ∧ ∃ pre post, table = pre ++ run ++ post ∧ place = (zlen pre, zlen run).

Lemma placed_grow table run place more : placed table run place → placed (table ++ more) run place.
Proof.
  intros (Ho & Hl & pre & post & -> & Hp). split_and!; [done..|]. exists pre, (post ++ more). split; [|done].
  by rewrite <-!app_assoc.
Qed.

Lemma append_run_Ok (table run : list A) :
  zlen (table ++ run) ≤ u32_max →
  append_run table run = Ok (table ++ run, (zlen table, zlen run)) ∧ placed (table ++ run) run (zlen table, zlen run).
Proof.
  rewrite zlen_app. intros Hfit. pose proof (zlen_nonneg table). pose proof (zlen_nonneg run). unfold u32_max in *.
  unfold append_run, checked_u32, u32_max. rewrite !try_into_fits by lia. split; [done|].
  unfold placed, is_uint. cbn [fst snd]. split_and!; [lia..|]. exists table, []. by rewrite app_nil_r.
Qed.

(** A place is read where [u32] offsets and their sums are in range. *)
Lemma placed_read (table run : list A) place :
  zlen table ≤ usize_max → placed table run place → run_slice table place.1 place.2 = Some run.
Proof.
  intros Hfit (Ho & Hl & pre & post & -> & ->). cbn [fst snd] in *. rewrite !zlen_app in Hfit.
  pose proof (zlen_nonneg pre). pose proof (zlen_nonneg run). pose proof (zlen_nonneg post).
  unfold run_slice, usize_of. unfold usize_max in *. rewrite !Z.mod_small by lia.
  rewrite checked_add_fits by (unfold usize_max; lia). cbn [mbind option_bind]. apply get_range_middle.
Qed.

End runs.

(** ** One section *)

Definition base_section (kind align : Z) (payload : list byte) : PendingSection := {|
  p_kind := kind; p_version := OXGDB_SECTION_VERSION; p_alignment_log2 := align; p_payload := payload
|}.

Lemma store_result_bind {A B} (m : res PlanError A) (f : A → res PlanError B) :
  store_result (m ≫= f) = (a ← store_result m; store_result (f a)).
Proof. by destruct m. Qed.

Section sections.
Context `{!Target} (ck : Checksum32) {Hck : Checksum32Laws ck}.

(** A section is written, or skipped when it is empty. *)
Definition write_column (w : SnapshotWriter) (p : PendingSection) : res DbError SnapshotWriter :=
  match p_payload p with [] => Ok w | _ => store_result (write_pending w p) end.

Lemma write_checksum s bs s' : write s bs = Ok s' → w_checksum (writer s') = w_checksum (writer s).
Proof. unfold write, vec_extend. case_decide; [|done]. cbn. by intros [= <-]. Qed.

Lemma write_twice s a b : w_checksum (writer s) = ck → (s ← write s a; write s b) = write s (a ++ b).
Proof using Hck.
  intros Hs. unfold write, vec_extend. rewrite zlen_app. pose proof (zlen_nonneg b). repeat case_decide; try done;
    cbn [mbind res_bind mret res_ret writer buf w_entries max_sections w_checksum start s_kind s_version s_crc s_alignment_log2].
  - rewrite zlen_app, decide_True by lia. cbn. by rewrite <-app_assoc, Hs, ck_app.
  - rewrite zlen_app, decide_False by lia. done.
  - lia.
Qed.

(** Streaming in pieces is one write. *)
Lemma write_run c cs s : w_checksum (writer s) = ck → for_each write (c :: cs) s = write s (concat (c :: cs)).
Proof using Hck.
  revert c s. induction cs as [|d cs IH]; intros c s Hs.
  - cbn. rewrite app_nil_r. by destruct (write s c).
  - change (for_each write (c :: d :: cs) s) with (s ← write s c; for_each write (d :: cs) s).
    change (concat (c :: d :: cs)) with (c ++ concat (d :: cs)). rewrite <-write_twice by done.
    destruct (write s c) as [s1|e| |] eqn:Hc; [|done..]. rewrite !bind_Ok. apply IH. by rewrite (write_checksum _ _ _ Hc).
Qed.

Lemma begin_checksum w k v a s : begin_section w k v a = Ok s → w_checksum (writer s) = w_checksum w.
Proof.
  unfold begin_section. case_decide; [done|]. case_decide; [done|].
  by intros (? & _ & (al & _ & (b & _ & [= <-])%bind_Ok_inv)%bind_Ok_inv)%bind_Ok_inv.
Qed.

Lemma write_pending_checksum w p w' : write_pending w p = Ok w' → w_checksum w' = w_checksum w.
Proof.
  unfold write_pending, section_bytes.
  intros (s & Hs%begin_checksum & (s' & Hw%write_checksum & He)%bind_Ok_inv)%bind_Ok_inv. revert He. unfold sink_end.
  intros (? & _ & (? & _ & [= <-])%bind_Ok_inv)%bind_Ok_inv. cbn. congruence.
Qed.

Lemma write_column_checksum w p w' : write_column w p = Ok w' → w_checksum w' = w_checksum w.
Proof using.
  unfold write_column. case_match; [by intros [= ->]|]. by intros ?%map_err_Ok%write_pending_checksum.
Qed.
Lemma write_columns_checksum l w w' : for_each write_column l w = Ok w' → w_checksum w' = w_checksum w.
Proof using.
  revert w. induction l as [|p l IH]; intros w; cbn [for_each]; [by intros [= ->]|].
  intros (w1 & Hp%write_column_checksum & ->%IH)%bind_Ok_inv. done.
Qed.

(** ** The encoders write columns *)

Lemma add_typed_column {T} `{WireRecord T} w kind (rs : list T) :
  add_typed w kind rs = write_column w (base_section kind 0 (records_bytes rs)).
Proof using.
  unfold add_typed, write_column. cbn [p_payload base_section]. pose proof (length_records_bytes rs) as Hl.
  destruct rs as [|r rs]; [done|]. pose proof (wire_not_empty (T := T)).
  destruct (records_bytes (r :: rs)) eqn:He; [cbn in Hl; unfold wire_size in Hl; lia|]. by rewrite <-He.
Qed.

Lemma add_blob_column w kind blob : add_blob w kind blob = write_column w (base_section kind 0 blob).
Proof using. by destruct blob. Qed.

(** The payload of a posting section. *)
Definition framed_bytes {T} `{WireRecord T} (dir : list T) (pool : list Z) : list byte :=
  match dir with
  | [] => []
  | _ => le_bytes 8 (zlen (records_bytes dir)) ++ le_bytes 8 (zlen (records_bytes pool)) ++ records_bytes dir ++ records_bytes pool
  end.

Lemma add_framed_column {T} `{WireRecord T} w kind (dir : list T) (pool : list Z) :
  w_checksum w = ck → dir ≠ [] →
  add_framed_section w kind dir pool = write_column w (base_section kind 3 (framed_bytes dir pool)).
Proof using Hck.
  intros Hw Hdir. unfold add_framed_section, write_column. cbn [p_payload base_section].
  destruct (framed_bytes dir pool) as [|b0 bs] eqn:Hf; [by destruct dir|]. rewrite <-Hf. f_equal.
  unfold write_pending, section_bytes. cbn [p_kind p_version p_alignment_log2 p_payload base_section].
  destruct (begin_section w kind OXGDB_SECTION_VERSION 3) as [s|e| |] eqn:Hs; [|done..]. rewrite !bind_Ok.
  apply begin_checksum in Hs. destruct dir as [|d dir]; [done|]. unfold framed_bytes. set (rs := d :: dir).
  replace (le_bytes 8 _ ++ _) with (concat [le_bytes 8 (zlen (records_bytes rs)); le_bytes 8 (zlen (records_bytes pool));
    records_bytes rs; records_bytes pool]) by (cbn [concat]; by rewrite app_nil_r).
  rewrite <-write_run by congruence. cbn [for_each].
  do 4 (destruct (write _ _) as [?|e| |]; [|done..]; rewrite !bind_Ok). done.
Qed.

(** A streamed record section, once its loop is known to succeed. *)
Lemma stream_column {A B S} `{WireRecord B} w kind (step : S → A → res DbError (S * B)) items s s' rs :
  w_checksum w = ck → push_each step items s = Ok (s', rs) →
  stream_section w kind step items s = (w ← write_column w (base_section kind 0 (records_bytes rs)); Ok (w, s')).
Proof using Hck.
  intros Hw Hp. destruct items as [|a0 items0].
  { cbn in Hp. injection Hp as <- <-. done. }
  unfold stream_section. set (items := a0 :: items0) in *. rewrite <-add_typed_column.
  assert (∃ r rs', rs = r :: rs') as (r & rs' & Hrs).
  { revert Hp. unfold items. rewrite push_each_cons. intros ([s1 b] & _ & ([s2 bs] & _ & [= _ <-])%bind_Ok_inv)%bind_Ok_inv. eauto. }
  assert (∀ items sink s s' rs, push_each step items s = Ok (s', rs) →
    for_each (λ (st : SectionSink * S) a, '(s, record) ← step st.2 a;
      sink ← store_result (write_typed st.1 [wire_bytes record]); Ok (sink, s)) items (sink, s) =
    (sink ← store_result (for_each write (wire_bytes <$> rs) sink); Ok (sink, s'))) as Hloop.
  { clear. intros items. induction items as [|a items IH]; intros sink s s' rs; [by intros [= <- <-]|].
    rewrite push_each_cons. intros ([s1 b] & Hs & ([s2 bs] & Hp & [= <- <-])%bind_Ok_inv)%bind_Ok_inv.
    cbn [for_each fst snd fmap list_fmap]. rewrite Hs, bind_Ok, store_result_bind.
    replace (write_typed sink [wire_bytes b]) with (write sink (wire_bytes b))
      by (unfold write_typed; cbn [concat]; by rewrite app_nil_r).
    destruct (write sink (wire_bytes b)) as [sink'|e| |]; [|done..].
    cbn [store_result map_err]. rewrite !bind_Ok. by apply IH. }
  unfold add_typed. rewrite Hrs, <-Hrs. unfold section_typed. cbn [Z.log2]. rewrite try_into_fits by done.
  cbn [ok_or]. rewrite bind_Ok, store_result_bind.
  destruct (begin_section w kind OXGDB_SECTION_VERSION 0) as [sink|e| |] eqn:Hb; [|done..].
  cbn [store_result map_err]. rewrite !bind_Ok, (Hloop _ _ _ _ _ Hp). unfold write_typed. rewrite Hrs. cbn [fmap list_fmap].
  rewrite write_run by (by rewrite (begin_checksum _ _ _ _ _ Hb)). fold (store_result (A := SnapshotWriter)).
  destruct (write _ _) as [sink'|e| |]; [|done..]. cbn [map_err store_result]. rewrite !bind_Ok.
  by destruct (sink_end sink').
Qed.

(** A sequence of columns is the sequence of the non-empty ones. *)
Definition filled (p : PendingSection) : Prop := p_payload p ≠ [].
#[export] Instance filled_dec p : Decision (filled p).
Proof. unfold filled. apply _. Defined.

Lemma write_columns_filled l w : for_each write_column l w = store_result (for_each write_pending (filter filled l) w).
Proof using.
  revert w. induction l as [|p l IH]; intros w; [done|]. cbn [for_each]. rewrite filter_cons.
  destruct (p_payload p) eqn:Hp.
  - rewrite decide_False by (intros Hn; by apply Hn). assert (write_column w p = Ok w) as -> by (unfold write_column; by rewrite Hp). rewrite bind_Ok. apply IH.
  - rewrite decide_True by (unfold filled; by rewrite Hp). assert (write_column w p = store_result (write_pending w p)) as -> by (unfold write_column; by rewrite Hp).
    cbn [for_each]. rewrite store_result_bind. destruct (write_pending w p); [|done..]. apply IH.
Qed.

End sections.

(** ** The columns of a base file *)

Record BaseContents := {
  bc_header : DbHeaderRecord;
  bc_roles : list NamedWire; bc_labels : list NamedWire; bc_relation_types : list NamedWire;
  bc_property_keys : list PropertyKeyWire; bc_projections : list DefWire; bc_indexes : list DefWire; bc_defs : list Z;
  bc_elements : list ElementWire; bc_element_labels : list Z;
  bc_relations : list RelationWire; bc_relation_labels : list Z; bc_incidences : list IncidenceWire;
  bc_properties : list PropertyWire; bc_text : list byte;
  bc_index : BorrowedBaseIndex; bc_strings : list byte
}.

Definition topology_columns (c : BaseContents) : list PendingSection :=
  [base_section SECTION_ELEMENT_RECORDS 0 (records_bytes (bc_elements c));
   base_section SECTION_ELEMENT_LABELS 0 (records_bytes (bc_element_labels c));
   base_section SECTION_RELATION_RECORDS 0 (records_bytes (bc_relations c));
   base_section SECTION_RELATION_LABELS 0 (records_bytes (bc_relation_labels c));
   base_section SECTION_INCIDENCE_RECORDS 0 (records_bytes (bc_incidences c))].
Definition catalog_columns (c : BaseContents) : list PendingSection :=
  [base_section SECTION_CATALOG_ROLES 0 (records_bytes (bc_roles c));
   base_section SECTION_CATALOG_LABELS 0 (records_bytes (bc_labels c));
   base_section SECTION_CATALOG_RELATION_TYPES 0 (records_bytes (bc_relation_types c));
   base_section SECTION_CATALOG_PROPERTY_KEYS 0 (records_bytes (bc_property_keys c));
   base_section SECTION_CATALOG_PROJECTIONS 0 (records_bytes (bc_projections c));
   base_section SECTION_CATALOG_INDEXES 0 (records_bytes (bc_indexes c));
   base_section SECTION_CATALOG_DEFS 0 (records_bytes (bc_defs c))].
Definition property_columns (c : BaseContents) : list PendingSection :=
  [base_section SECTION_PROPERTY_RECORDS 0 (records_bytes (bc_properties c));
   base_section SECTION_PROPERTY_TEXT 0 (bc_text c)].
Definition index_columns (ix : BorrowedBaseIndex) : list PendingSection :=
  [base_section SECTION_INDEX_LABEL_POSTINGS 3 (framed_bytes (label_dir ix) (label_pool ix));
   base_section SECTION_INDEX_RELATION_TYPE_POSTINGS 3 (framed_bytes (relation_type_dir ix) (relation_type_pool ix));
   base_section SECTION_INDEX_ELEMENT_INCIDENCES 3 (framed_bytes (element_incidence_dir ix) (element_incidence_pool ix));
   base_section SECTION_INDEX_RELATION_INCIDENCES 3 (framed_bytes (relation_incidence_dir ix) (relation_incidence_pool ix));
   base_section SECTION_INDEX_EQUALITY 3 (framed_bytes (equality_dir ix) (equality_pool ix));
   base_section SECTION_INDEX_EQUALITY_TEXT 0 (equality_text ix)].
Definition columns (c : BaseContents) : list PendingSection :=
  base_section SECTION_DB_HEADER 0 (records_bytes [bc_header c]) :: catalog_columns c ++ topology_columns c ++
  property_columns c ++ index_columns (bc_index c) ++ [base_section SECTION_STRING_TABLE 0 (bc_strings c)].

Lemma columns_catalog c p : p ∈ catalog_columns c → p ∈ columns c.
Proof. intros Hp. right. apply elem_of_app. by left. Qed.
Lemma columns_index c p : p ∈ index_columns (bc_index c) → p ∈ columns c.
Proof. intros Hp. right. do 3 (apply elem_of_app; right). apply elem_of_app. by left. Qed.

(** The postings as directories and pools. *)
Definition simple_columns (m : gmap Z (gset Z)) : list PostingDirEntry * list Z := foldl push_posting ([], []) (map_iter m).
Definition equality_columns (m : gmap EqualityKey (gset PropertySubject)) : EqualityPools :=
  foldl push_equality {| ep_dir := []; ep_pool := []; ep_text := [] |} (map_iter m).
Definition index_contents (ix : OwnedBaseIndex) : BorrowedBaseIndex :=
  let l := simple_columns (label_members ix) in
  let t := simple_columns (relation_type_members ix) in
  let e := simple_columns (base_element_incidences ix) in
  let r := simple_columns (base_relation_incidences ix) in
  let q := equality_columns (property_equality ix) in {|
    label_dir := l.1; label_pool := l.2; relation_type_dir := t.1; relation_type_pool := t.2;
    equality_dir := ep_dir q; equality_pool := ep_pool q; equality_text := ep_text q;
    element_incidence_dir := e.1; element_incidence_pool := e.2;
    relation_incidence_dir := r.1; relation_incidence_pool := r.2 |}.

(** What the encoding loops of a freeze make of a catalog, of the records and of
    the derived postings. *)
Record Frozen (c : Catalog) (els : list ElementRecord) (rels : list RelationRecord) (incs : list IncidenceRecord)
    (ps : list PropertyTriple) (next : NextIds) (stamps : FreezeStamps) (b : BaseContents) : Prop := {
  fz_header : bc_header b = header_record next stamps;
  fz_catalog : ∃ s1 s2 s3 s4 st,
    push_each (λ s d, named_wire s (role_id d) (role_name d)) (catalog_values (roles c)) [] = Ok (s1, bc_roles b) ∧
    push_each (λ s d, named_wire s (label_id d) (label_name d)) (catalog_values (labels c)) s1 = Ok (s2, bc_labels b) ∧
    push_each (λ s d, named_wire s (relation_type_id d) (relation_type_name d)) (catalog_values (relation_types c)) s2 =
      Ok (s3, bc_relation_types b) ∧
    push_each property_key_wire (catalog_values (property_keys c)) s3 = Ok (s4, bc_property_keys b) ∧
    push_each projection_wire (catalog_values (projections c)) (s4, []) = Ok (st, bc_projections b) ∧
    push_each index_wire (catalog_values (indexes c)) st = Ok ((bc_strings b, bc_defs b), bc_indexes b);
  fz_elements : push_each element_wire els [] = Ok (bc_element_labels b, bc_elements b);
  fz_relations : push_each relation_wire rels [] = Ok (bc_relation_labels b, bc_relations b);
  fz_incidences : bc_incidences b = incidence_wire <$> incs;
  fz_properties : push_each property_wire ps [] = Ok (bc_text b, bc_properties b);
  fz_index : bc_index b = index_contents {|
    label_members := postings_of (label_pairs els); relation_type_members := postings_of (type_pairs rels);
    property_equality := postings_of (equality_pairs ps);
    base_element_incidences := postings_of (incidence_pairs inc_element incs);
    base_relation_incidences := postings_of (incidence_pairs inc_relation incs) |}
}.

Section freezing.
Context `{!Target} (ck : Checksum32) {Hck : Checksum32Laws ck}.

Lemma push_each_pure {A B S} (g : A → B) (l : list A) (s : S) :
  push_each (λ s a, Ok (s, g a)) l s = Ok (s, g <$> l).
Proof. induction l as [|a l IH]; [done|]. by rewrite push_each_cons, bind_Ok, IH. Qed.

Lemma encode_catalog_columns w c b :
  (∃ s1 s2 s3 s4 st,
    push_each (λ s d, named_wire s (role_id d) (role_name d)) (catalog_values (roles c)) [] = Ok (s1, bc_roles b) ∧
    push_each (λ s d, named_wire s (label_id d) (label_name d)) (catalog_values (labels c)) s1 = Ok (s2, bc_labels b) ∧
    push_each (λ s d, named_wire s (relation_type_id d) (relation_type_name d)) (catalog_values (relation_types c)) s2 =
      Ok (s3, bc_relation_types b) ∧
    push_each property_key_wire (catalog_values (property_keys c)) s3 = Ok (s4, bc_property_keys b) ∧
    push_each projection_wire (catalog_values (projections c)) (s4, []) = Ok (st, bc_projections b) ∧
    push_each index_wire (catalog_values (indexes c)) st = Ok ((bc_strings b, bc_defs b), bc_indexes b)) →
  encode_catalog w c [] = (w ← for_each write_column (catalog_columns b) w; Ok (w, bc_strings b)).
Proof using.
  intros (s1 & s2 & s3 & s4 & st & H1 & H2 & H3 & H4 & H5 & H6). unfold encode_catalog.
  rewrite H1, bind_Ok, H2, bind_Ok, H3, bind_Ok, !add_typed_column. unfold catalog_columns. cbn [for_each].
  do 3 (destruct (write_column _ _); [|done..]; rewrite !bind_Ok, ?add_typed_column).
  rewrite H4, bind_Ok, add_typed_column. destruct (write_column _ _); [|done..]. rewrite !bind_Ok, H5, bind_Ok, H6, bind_Ok.
  rewrite !add_typed_column. do 3 (destruct (write_column _ _); [|done..]; rewrite !bind_Ok, ?add_typed_column). done.
Qed.

(** The next column, with the checksum it leaves in the writer. *)
Ltac next_column Hw :=
  let Hc := fresh in
  match goal with |- context [write_column ?w ?p] =>
    destruct (write_column w p) eqn:Hc; [|done..]; rewrite ?bind_Ok; apply write_column_checksum in Hc; rewrite Hw in Hc;
    clear Hw; rename Hc into Hw
  end.

Lemma encode_topology_columns `{OverlayLayer L} w (v : LayeredState L) els rels incs b :
  w_checksum w = ck → view_elements v = Ok els → view_relations v = Ok rels → view_incidences v = Ok incs →
  push_each element_wire els [] = Ok (bc_element_labels b, bc_elements b) →
  push_each relation_wire rels [] = Ok (bc_relation_labels b, bc_relations b) →
  bc_incidences b = incidence_wire <$> incs →
  encode_topology w v = for_each write_column (topology_columns b) w.
Proof using Hck.
  intros Hw He Hr Hi Hpe Hpr Hpi. unfold encode_topology, topology_columns. cbn [for_each].
  rewrite He, bind_Ok, (stream_column ck _ _ _ _ _ _ _ Hw Hpe). next_column Hw.
  rewrite add_typed_column. next_column Hw. rewrite Hr, bind_Ok, (stream_column ck _ _ _ _ _ _ _ Hw Hpr). next_column Hw.
  rewrite add_typed_column. next_column Hw.
  rewrite Hi, bind_Ok, (stream_column ck _ _ _ _ _ _ _ Hw (push_each_pure incidence_wire incs ())), <-Hpi. next_column Hw. done.
Qed.

Lemma encode_properties_columns `{OverlayLayer L} w (v : LayeredState L) ps b :
  w_checksum w = ck → view_properties v = Ok ps → push_each property_wire ps [] = Ok (bc_text b, bc_properties b) →
  encode_properties w v = for_each write_column (property_columns b) w.
Proof using Hck.
  intros Hw Hp Hps. unfold encode_properties, property_columns. cbn [for_each].
  rewrite Hp, bind_Ok, (stream_column ck _ _ _ _ _ _ _ Hw Hps). next_column Hw. rewrite add_blob_column.
  by destruct (write_column _ _).
Qed.

Lemma simple_columns_empty l st : st.1 ≠ [] ∨ l ≠ [] → (foldl push_posting st l).1 ≠ [].
Proof using.
  revert st. induction l as [|p l IH]; intros st; cbn [foldl]; [by intros [?|?]|]. intros _. apply IH. left.
  cbn. by destruct st.1.
Qed.
Lemma equality_columns_empty l st : ep_dir st ≠ [] ∨ l ≠ [] → ep_dir (foldl push_equality st l) ≠ [].
Proof using.
  revert st. induction l as [|[[k x] S] l IH]; intros st; cbn [foldl]; [by intros [?|?]|]. intros _. apply IH. left.
  unfold push_equality. destruct (posting_value _ _) as [text [scalar [off len]]]. cbn. by destruct (ep_dir st).
Qed.

Lemma encode_simple_column w kind m :
  w_checksum w = ck →
  encode_simple_posting w kind m = write_column w (base_section kind 3 (framed_bytes (simple_columns m).1 (simple_columns m).2)).
Proof using Hck.
  intros Hw. unfold encode_simple_posting, simple_columns. destruct (map_iter m) as [|p l]; [done|].
  pose proof (simple_columns_empty (p :: l) ([], []) ltac:(by right)) as Hne.
  destruct (foldl push_posting _ _) as [dir pool]. by apply (add_framed_column ck).
Qed.

Lemma encode_equality_columns w m :
  w_checksum w = ck →
  encode_equality_posting w m = for_each write_column
    [base_section SECTION_INDEX_EQUALITY 3 (framed_bytes (ep_dir (equality_columns m)) (ep_pool (equality_columns m)));
     base_section SECTION_INDEX_EQUALITY_TEXT 0 (ep_text (equality_columns m))] w.
Proof using Hck.
  intros Hw. unfold encode_equality_posting, equality_columns. destruct (map_iter m) as [|p l]; [done|].
  pose proof (equality_columns_empty (p :: l) {| ep_dir := []; ep_pool := []; ep_text := [] |} ltac:(by right)) as Hne.
  cbv zeta. rewrite (add_framed_column ck) by done. cbn [for_each]. next_column Hw. rewrite add_blob_column.
  by destruct (write_column _ _).
Qed.

Lemma encode_index_columns `{OverlayLayer L} w (v : LayeredState L) ix :
  w_checksum w = ck → from_state v = Ok ix → encode_index w v = for_each write_column (index_columns (index_contents ix)) w.
Proof using Hck.
  intros Hw Hix. unfold encode_index, index_columns, index_contents. cbv zeta.
  cbn [for_each label_dir label_pool relation_type_dir relation_type_pool equality_dir equality_pool equality_text
    element_incidence_dir element_incidence_pool relation_incidence_dir relation_incidence_pool].
  rewrite Hix, bind_Ok. do 4 (rewrite encode_simple_column by done; next_column Hw).
  by rewrite encode_equality_columns by done.
Qed.

(** A freeze writes the columns. *)
Lemma freeze_writes `{OverlayLayer L} (v : LayeredState L) els rels incs ps stamps b :
  view_elements v = Ok els → view_relations v = Ok rels → view_incidences v = Ok incs → view_properties v = Ok ps →
  Frozen (view_catalog v) els rels incs ps (view_next_ids v) stamps b →
  freeze_view ck v stamps = store_result
    (w ← SnapshotWriter_new MAX_BASE_SECTION_KINDS ck; w ← for_each write_pending (filter filled (columns b)) w; finish w).
Proof using Hck.
  intros He Hr Hi Hp [Hhd Hcat Hel Hrel Hinc Hps Hix]. unfold freeze_view. rewrite store_result_bind.
  destruct (SnapshotWriter_new _ _) as [w|e| |] eqn:Hnew; [|done..]. cbn [store_result map_err]. rewrite !bind_Ok.
  assert (w_checksum w = ck) as Hw by (apply with_payload_capacity_inv in Hnew as (_ & ? & _); [done|by unfold MAX_BASE_SECTION_KINDS]).
  fold (store_result (A := list byte)). rewrite store_result_bind, <-write_columns_filled. unfold columns.
  unfold encode_header. rewrite add_typed_column, <-Hhd. cbn [for_each]. next_column Hw.
  rewrite (encode_catalog_columns _ _ _ Hcat), !for_each_app.
  destruct (for_each _ (catalog_columns b) _) as [w1| | |] eqn:H1; [|done..]. rewrite !bind_Ok.
  apply write_columns_checksum in H1. rewrite Hw in H1. clear Hw.
  rewrite (encode_topology_columns _ _ _ _ _ _ H1 He Hr Hi Hel Hrel Hinc), for_each_app.
  destruct (for_each _ (topology_columns b) _) as [w2| | |] eqn:H2; [|done..]. rewrite !bind_Ok.
  apply write_columns_checksum in H2. rewrite H1 in H2. clear H1.
  rewrite (encode_properties_columns _ _ _ _ H2 Hp Hps), for_each_app.
  destruct (for_each _ (property_columns b) _) as [w3| | |] eqn:H3; [|done..]. rewrite !bind_Ok.
  apply write_columns_checksum in H3. rewrite H2 in H3. clear H2.
  erewrite encode_index_columns; [|done|unfold from_state; by rewrite He, bind_Ok, Hr, bind_Ok, Hp, bind_Ok, Hi, bind_Ok].
  rewrite <-Hix, for_each_app. destruct (for_each _ (index_columns _) _) as [w4| | |]; [|done..]. rewrite !bind_Ok.
  rewrite add_blob_column. cbn [for_each]. by destruct (write_column _ _).
Qed.

End freezing.

(** ** The columns of a file are read back *)

Section reading.
Context `{!Target} (ck : Checksum32) {Hck : Checksum32Laws ck}.

(** A column is found under its kind, whole and with a matching checksum, unless
    it is empty and no section has its kind. *)
Definition column_in (s : Snapshot) (p : PendingSection) : Prop :=
  match p_payload p with
  | [] => ∀ E, section (E := E) s (p_kind p) = Ok None
  | bytes => ∃ sec, (∀ E, section (E := E) s (p_kind p) = Ok (Some sec)) ∧ payload sec = bytes ∧ verify sec ck = Ok ()
  end.

Lemma sorted_filter {A} (R : A → A → Prop) (P : A → Prop) `{!∀ x, Decision (P x)} l :
  StronglySorted R l → StronglySorted R (filter P l).
Proof.
  induction 1 as [|x l Hl IH Hx]; [constructor|]. rewrite filter_cons. case_decide; [|done]. constructor; [done|].
  rewrite Forall_forall in *. intros y [_ Hy]%list_elem_of_filter. by apply Hx.
Qed.

Lemma concat_filled l : concat (p_payload <$> filter filled l) = concat (p_payload <$> l).
Proof.
  induction l as [|p l IH]; [done|]. rewrite filter_cons. case_decide as Hp; cbn [fmap list_fmap concat].
  - by rewrite IH.
  - rewrite IH. unfold filled in Hp. destruct (p_payload p); [done|]. by destruct Hp.
Qed.

Lemma columns_sorted b : StronglySorted (λ p q, p_kind p < p_kind q) (columns b).
Proof. repeat (constructor; [|repeat (constructor; [vm_compute; reflexivity|]); constructor]). constructor. Qed.

Lemma columns_wf b : Forall (λ p, pending_wf p ∧ p_alignment_log2 p ≤ 3) (columns b).
Proof. repeat (constructor; [split; [constructor; vm_compute; (done || split; congruence)|vm_compute; congruence]|]). constructor. Qed.

(** Bytes of a file: the header, the table, the columns and their padding. *)
Definition file_room (b : BaseContents) : Z :=
  Z.of_nat HEADER_SIZE + MAX_BASE_SECTION_KINDS * (Z.of_nat SECTION_ENTRY_SIZE + 7) + zlen (concat (p_payload <$> columns b)).

Lemma columns_file b :
  file_room b ≤ isize_max →
  ∃ bytes, (w ← SnapshotWriter_new MAX_BASE_SECTION_KINDS ck; w ← for_each write_pending (filter filled (columns b)) w; finish w)
      = Ok bytes ∧ zlen bytes ≤ isize_max ∧
    ∀ addr, open_checked bytes addr ck = Ok (opened bytes addr) ∧ SnapshotOk (opened bytes addr) ∧
      ∀ p, p ∈ columns b → column_in (opened bytes addr) p.
Proof using Hck.
  intros Hroom. unfold file_room in Hroom. pose proof (zlen_nonneg (concat (p_payload <$> columns b))).
  set (secs := filter filled (columns b)).
  assert (StronglySorted (λ p q, p_kind p < p_kind q) secs) as Hsort by apply sorted_filter, columns_sorted.
  assert (zlen secs ≤ MAX_BASE_SECTION_KINDS) as Hcount.
  { unfold zlen, secs, MAX_BASE_SECTION_KINDS. pose proof (length_filter filled (columns b)) as Hl. cbn [columns] in *.
    change 22 with (Z.of_nat (length (columns b))). apply Nat2Z.inj_le. exact Hl. }
  assert (SnapshotWriter_new MAX_BASE_SECTION_KINDS ck = Ok (fresh_writer MAX_BASE_SECTION_KINDS ck)) as Hnew.
  { apply SnapshotWriter_new_Ok; unfold MAX_SECTION_COUNT, MAX_BASE_SECTION_KINDS in *; lia. }
  rewrite Hnew, bind_Ok.
  destruct (with_payload_capacity_inv MAX_BASE_SECTION_KINDS 0 ck _ ltac:(done) Hnew) as (Hw0 & _).
  destruct (write_sections 3 secs (fresh_writer MAX_BASE_SECTION_KINDS ck) []) as (w & -> & Hw & Hc & Hh).
  - done.
  - done.
  - done.
  - apply Forall_forall. intros p [_ Hp]%list_elem_of_filter. by apply (proj1 (Forall_forall _ _) (columns_wf b)).
  - cbn [w_entries fresh_writer last fmap option_fmap option_map option_list app].
    by apply (StronglySorted_fmap p_kind (λ p q, p_kind p < p_kind q)).
  - cbn [w_entries max_sections fresh_writer]. exact Hcount.
  - unfold secs at 1. rewrite concat_filled. cbn [buf fresh_writer].
    replace (zlen (replicate _ _)) with (Z.of_nat HEADER_SIZE + MAX_BASE_SECTION_KINDS * Z.of_nat SECTION_ENTRY_SIZE)
      by (unfold zlen; rewrite length_replicate; done).
    change (2 ^ 3 - 1) with 7. lia.
  - constructor.
  - rewrite bind_Ok. cbn [w_checksum fresh_writer app] in Hc. rewrite (finish_Ok w) by (done || by rewrite Hc).
    exists (finished w). split; [done|]. destruct (finish_opens w 0 Hw ltac:(by rewrite Hc)) as (_ & Hlen & _).
    pose proof (wi_buf _ Hw). split; [lia|]. clear Hlen. intros addr.
    destruct (finish_opens w addr Hw ltac:(by rewrite Hc)) as (Hopen & Hlen & Hent & _ & Hfld). rewrite Hc in Hopen.
    split; [done|]. pose proof Hopen as Hop. apply bind_Ok_inv in Hop as (s0 & Hop & Hcase). cbv zeta in Hcase.
    case_decide; [done|]. apply Ok_inj in Hcase as ->.
    assert (SnapshotOk (opened (finished w) addr)) as Hok.
    { eapply open_SnapshotOk; [|exact Hop]. rewrite Hlen. pose proof isize_usize_max. lia. }
    split; [done|]. intros p Hp. unfold column_in. destruct (p_payload p) as [|b0 bs] eqn:Hpay.
    + intros E. destruct (section_cases (E:=E) _ (p_kind p) Hok) as [(e & He & Hk & _)|[_ ->]]; [|done].
      rewrite Hent in He. apply list_elem_of_lookup in He as [i Hi].
      destruct (Forall2_lookup_l _ _ _ _ _ Hh Hi) as (q & Hq & Hkq & _).
      apply list_elem_of_lookup_2, list_elem_of_filter in Hq as [Hqf Hq].
      assert (q = p) as ->; [|unfold filled in Hqf; by rewrite Hpay in Hqf]. clear -Hp Hq Hk Hkq. rewrite Hkq in Hk.
      apply list_elem_of_lookup in Hp as [i Hi], Hq as [j Hj]. pose proof (columns_sorted b) as Hs.
      rewrite StronglySorted_lookup in Hs. destruct (Nat.lt_trichotomy i j) as [Hl|[->|Hl]]; [|congruence|].
      * specialize (Hs _ _ _ _ Hl Hi Hj). lia.
      * specialize (Hs _ _ _ _ Hl Hj Hi). lia.
    + assert (p ∈ secs) as [i Hi]%list_elem_of_lookup by (apply list_elem_of_filter; split; [unfold filled; by rewrite Hpay|done]).
      destruct (Forall2_lookup_r _ _ _ _ _ Hh Hi) as (e & He & Hk & _ & _ & Hf).
      assert (e ∈ w_entries w) as Hew by by eapply list_elem_of_lookup_2.
      exists (entry_section (finished w) addr e).
      assert (payload (entry_section (finished w) addr e) = b0 :: bs) as Hpl by (cbn [payload entry_section]; rewrite Hfld by done; congruence).
      split; [|split; [done|]].
      * intros E. destruct (section_cases (E:=E) _ (p_kind p) Hok) as [(e' & He' & Hk' & Hs')|[Hno _]].
        2:{ destruct (Hno e); [by rewrite Hent|done]. }
        rewrite Hs'. cbn [sn_bytes sn_addr opened]. do 3 f_equal.
        apply list_elem_of_lookup in He' as [j Hj]. rewrite <-Hent in He.
        assert (j = i) as ->; [|congruence]. eapply SnapshotOk_kind_unique; [done..|]. congruence.
      * unfold verify. rewrite Hpl. cbn [sec_crc32c entry_section]. rewrite decide_True; [done|].
        rewrite (rc_crc _ _ _ _ (proj1 (Forall_forall _ _) (wi_recorded _ Hw) e Hew)), Hc, Hf. by rewrite Hpay.
Qed.

End reading.
