(* ===== verification/BaseViewFacts.v ===== *)
(** * BaseViewFacts: what opening a base file returns

    Every column of a written file is read back as it was written; the catalog,
    the records and the postings are rebuilt from the columns.

    Attaching to any bytes, opening the records of what was attached and looking
    up its borrowed postings return: they succeed or refuse with an error, and
    never panic or loop. *)

From Stdlib Require Import String.
From stdpp Require Import base gmap sets list strings sorting.
From S2P Require Import Prelude Bytes Ordered DbError DbWire DbState OverlayIndex Overlay Merge MergeFacts Store StoreFacts Layout Crc Snapshot SnapshotFacts SnapshotWrite SnapshotWriteFacts SnapshotTyped Search BaseWire BaseFile BorrowedIndex.
From S2P Require Import BaseView BaseFileFacts.

Local Open Scope Z_scope.

(** ** Columns *)

Section columns.
Context `{!Target} (ck : Checksum32).

Lemma storage_text_Ok {E A} (r : res E A) a : r = Ok a → storage_text r = Ok a.
Proof. by intros ->. Qed.

Lemma records_nil {T} `{WireRecord T} (rs : list T) : records_bytes rs = [] → rs = [].
Proof.
  intros He. pose proof (length_records_bytes rs) as Hl. rewrite He in Hl. pose proof (wire_not_empty (T := T)).
  unfold wire_size in Hl. destruct rs; [done|]. cbn in Hl. lia.
Qed.

Lemma records_slice {T} `{WireRecord T} (rs : list T) sec :
  Forall wire_fits rs → payload sec = records_bytes rs →
  ∃ cs, try_as_slice sec (wire_size T) 1 = Ok cs ∧ wire_of_bytes (T := T) <$> cs = rs.
Proof.
  intros Hf Hp. unfold try_as_slice. rewrite Hp, length_records_bytes.
  assert (wire_size T ≠ 0)%nat as Hpos by (pose proof (wire_not_empty (T := T)); unfold wire_size; lia).
  rewrite decide_False by done. rewrite Nat.mul_comm, Nat.Div0.mod_mul, Nat.div_mul by done.
  rewrite decide_False by lia. rewrite Z.mod_1_r, decide_False by lia. eexists. split; [done|].
  rewrite <-(app_nil_r (records_bytes rs)). exact (records_codec rs [] Hf).
Qed.

Lemma typed_column {T} `{WireRecord T} s kind a (rs : list T) :
  Forall wire_fits rs → column_in ck s (base_section kind a (records_bytes rs)) → typed_records ck T s kind = Ok rs.
Proof.
  intros Hf. unfold column_in, typed_records. cbn [p_payload p_kind base_section].
  destruct (records_bytes rs) as [|b0 bs] eqn:He.
  - intros Hs. rewrite Hs, bind_Ok. by rewrite (records_nil rs He).
  - intros (sec & Hs & Hp & Hv). rewrite Hs, bind_Ok, (storage_text_Ok _ _ Hv), bind_Ok. rewrite <-He in Hp.
    destruct (records_slice rs sec Hf Hp) as (cs & Hcs & Hrs). rewrite (storage_text_Ok _ _ Hcs), bind_Ok. by rewrite Hrs.
Qed.

Lemma blob_column s kind a blob : column_in ck s (base_section kind a blob) → raw_blob ck s kind = Ok blob.
Proof.
  unfold column_in, raw_blob. cbn [p_payload p_kind base_section]. destruct blob as [|b0 bs].
  - intros Hs. by rewrite Hs.
  - intros (sec & Hs & Hp & Hv). by rewrite Hs, bind_Ok, (storage_text_Ok _ _ Hv), bind_Ok, Hp.
Qed.

Lemma ref_from_records {T} `{WireRecord T} message (rs : list T) :
  Forall wire_fits rs → ref_from_bytes T message (records_bytes rs) = Ok rs.
Proof.
  intros Hf. unfold ref_from_bytes. rewrite length_records_bytes.
  assert (wire_size T ≠ 0)%nat as Hpos by (pose proof (wire_not_empty (T := T)); unfold wire_size; lia).
  rewrite Nat.mul_comm, Nat.Div0.mod_mul, Nat.div_mul, decide_False by (done || lia). f_equal.
  rewrite <-(app_nil_r (records_bytes rs)). by apply records_codec.
Qed.

Lemma split_framed {T} `{WireRecord T} (dir : list T) (pool : list Z) :
  (dir = [] → pool = []) → zlen (framed_bytes dir pool) ≤ usize_max →
  split_posting_section (framed_bytes dir pool) = Ok (records_bytes dir, records_bytes pool).
Proof.
  intros Hnil Hfit. unfold framed_bytes in *. destruct dir as [|d dir]; [by rewrite Hnil|].
  set (ds := records_bytes (d :: dir)) in *. set (pl := records_bytes pool) in *.
  pose proof usize_max_bounds. pose proof (zlen_nonneg ds). pose proof (zlen_nonneg pl). rewrite !zlen_app in Hfit.
  assert (zlen (le_bytes 8 (zlen ds)) = 8 ∧ zlen (le_bytes 8 (zlen pl)) = 8) as [H8 H8'] by (unfold zlen; by rewrite !length_le_bytes).
  unfold split_posting_section. case_decide as Hn; [by apply (f_equal length) in Hn; rewrite length_app, length_le_bytes in Hn|].
  set (prefix := le_bytes 8 (zlen ds) ++ le_bytes 8 (zlen pl)).
  assert (zlen prefix = 16) as Hpre by (unfold prefix; rewrite zlen_app; lia).
  replace (le_bytes 8 _ ++ _) with (prefix ++ ds ++ pl) by (unfold prefix; by rewrite <-app_assoc).
  assert (get_range (prefix ++ ds ++ pl) 0 POSTING_FRAME_PREFIX_LEN = Some prefix) as ->.
  { pose proof (get_range_middle [] prefix (ds ++ pl)) as Hg. change (zlen []) with 0 in Hg. rewrite Hpre in Hg. exact Hg. }
  cbn [ok_or]. rewrite bind_Ok. assert (take 8 prefix = le_bytes 8 (zlen ds)) as -> by (by apply take_app_length'; rewrite length_le_bytes).
  rewrite le_field by (change (8 * Z.of_nat 8) with 64; unfold is_uint; lia). rewrite (try_into_fits _ (zlen ds)) by lia. cbn [ok_or]. rewrite bind_Ok.
  assert (drop 8 prefix = le_bytes 8 (zlen pl)) as -> by (by apply drop_app_length'; rewrite length_le_bytes).
  rewrite le_field by (change (8 * Z.of_nat 8) with 64; unfold is_uint; lia).
  rewrite (try_into_fits _ (zlen pl)) by lia. cbn [ok_or]. rewrite bind_Ok. cbv zeta. unfold POSTING_FRAME_PREFIX_LEN.
  rewrite (checked_add_fits _ 16 (zlen ds)) by lia. cbn [ok_or]. rewrite !bind_Ok. rewrite checked_add_fits by lia. cbn [ok_or]. rewrite bind_Ok.
  assert (get_range (prefix ++ ds ++ pl) 16 (16 + zlen ds) = Some ds) as -> by (rewrite <-Hpre; apply get_range_middle).
  cbn [ok_or]. rewrite bind_Ok.
  assert (get_range (prefix ++ ds ++ pl) (16 + zlen ds) (16 + zlen ds + zlen pl) = Some pl) as ->.
  { pose proof (get_range_middle (prefix ++ ds) pl []) as Hg. rewrite zlen_app, Hpre, app_nil_r, <-app_assoc in Hg. exact Hg. }
  done.
Qed.

Lemma posting_column {T} `{WireRecord T} s kind a (dir : list T) (pool : list Z) :
  Forall wire_fits dir → Forall wire_fits pool → (dir = [] → pool = []) → zlen (framed_bytes dir pool) ≤ usize_max →
  column_in ck s (base_section kind a (framed_bytes dir pool)) → posting_slices ck T s kind = Ok (dir, pool).
Proof.
  intros Hd Hp Hnil Hfit. unfold column_in, posting_slices. cbn [p_payload p_kind base_section].
  destruct (framed_bytes dir pool) as [|b0 bs] eqn:He.
  - intros Hs. rewrite Hs, bind_Ok. destruct dir; [by rewrite Hnil|done].
  - intros (sec & Hs & Hpay & Hv). rewrite Hs, bind_Ok, (storage_text_Ok _ _ Hv), bind_Ok, Hpay, <-He.
    rewrite split_framed by (done || by rewrite He). cbn [mbind res_bind]. by rewrite !ref_from_records by done.
Qed.

End columns.

(** ** Tables of runs *)

Section tables.
Context `{!Target}.

Lemma foldl_append {A R} (run : A → list R) l s : foldl (λ s a, s ++ run a) s l = s ++ concat (run <$> l).
Proof.
  revert s. induction l as [|a l IH]; intros s; cbn [foldl fmap list_fmap concat]; [by rewrite app_nil_r|].
  by rewrite IH, <-app_assoc.
Qed.

(** A loop whose step appends one run and makes a record of its place. *)
Lemma push_runs {A B R} (f : list R → A → res DbError (list R * B)) (run : A → list R) (mk : A → Z * Z → B) l s :
  (∀ s a, f s a = ('(s, place) ← append_run s (run a); Ok (s, mk a place))) →
  zlen (s ++ concat (run <$> l)) ≤ u32_max →
  ∃ bs, push_each f l s = Ok (s ++ concat (run <$> l), bs) ∧
    Forall2 (λ a b, ∃ place, b = mk a place ∧ placed (s ++ concat (run <$> l)) (run a) place) l bs.
Proof.
  intros Hf Hfit. destruct (push_each_Ok f (λ s a, s ++ run a) (λ s, zlen s ≤ u32_max)
    (λ s a b, ∃ place, b = mk a place ∧ placed s (run a) place) l s) as (bs & Hbs & Hall).
  - intros s0 a. rewrite zlen_app. pose proof (zlen_nonneg (run a)). lia.
  - intros s0 a _ Ha. destruct (append_run_Ok s0 (run a) Ha) as [He Hp]. eexists. split; [by rewrite Hf, He, bind_Ok|]. eauto.
  - intros s0 a b a' (place & -> & Hp). exists place. split; [done|]. by apply placed_grow.
  - by rewrite foldl_append.
  - rewrite foldl_append in Hbs, Hall. eauto.
Qed.

(** The same records over a table that went on growing. *)
Lemma placed_all_grow {A B R} (run : A → list R) (mk : A → Z * Z → B) l bs table more :
  Forall2 (λ a b, ∃ place, b = mk a place ∧ placed table (run a) place) l bs →
  Forall2 (λ a b, ∃ place, b = mk a place ∧ placed (table ++ more) (run a) place) l bs.
Proof.
  intros Hall. eapply Forall2_impl; [exact Hall|]. intros a b (place & -> & Hp). exists place. split; [done|]. by apply placed_grow.
Qed.

Lemma read_str_placed table name place :
  zlen table ≤ usize_max → utf8_valid name = true → placed table name place →
  read_str table place.1 place.2 = Ok name.
Proof.
  intros Hfit Hu Hp. pose proof (placed_read _ _ _ Hfit Hp) as Hr. unfold run_slice in Hr. unfold read_str.
  apply bind_Some in Hr as (e & -> & Hr). cbn [ok_or]. rewrite bind_Ok, Hr. cbn [ok_or]. by rewrite bind_Ok, Hu.
Qed.

Lemma def_body_placed defs body r :
  zlen defs ≤ usize_max → placed defs body (df_payload_off r, df_payload_len r) → def_body r defs = Ok body.
Proof.
  intros Hfit Hp. pose proof (placed_read _ _ _ Hfit Hp) as Hr. unfold run_slice in Hr. cbn [fst snd] in Hr. unfold def_body.
  apply bind_Some in Hr as (e & -> & Hr). cbn [ok_or]. by rewrite bind_Ok, Hr.
Qed.

End tables.

(** ** Rebuilding one family of the catalog *)

Section family.
Context {D B : Type} (id_of : D → Z) (name_of : D → list byte).
Context (get_defs : Catalog → gmap Z D) (get_names : Catalog → gmap (list byte) Z).
Context (put : Catalog → gmap Z D → gmap (list byte) Z → Catalog).
Hypothesis get_put_defs : ∀ c m n, get_defs (put c m n) = m.
Hypothesis get_put_names : ∀ c m n, get_names (put c m n) = n.
Hypothesis put_put : ∀ c m n m' n', put (put c m n) m' n' = put c m' n'.

(** What the definitions seen so far amount to. *)
Definition rebuilt (pre : list D) (m : gmap Z D) (n : gmap (list byte) Z) : Prop :=
  (∀ id d, m !! id = Some d ↔ d ∈ pre ∧ id_of d = id) ∧
  (∀ name id, n !! name = Some id ↔ ∃ d, d ∈ pre ∧ name_of d = name ∧ id_of d = id).

Definition insert_entry (c : Catalog) (d : D) : res CatalogError Catalog :=
  names ← insert_named (get_names c) (name_of d) (id_of d);
  Ok (put c (<[id_of d := d]> (get_defs c)) names).

Lemma rebuild_step c pre d m n :
  rebuilt pre m n → (∀ d', d' ∈ pre → id_of d' ≠ id_of d ∧ name_of d' ≠ name_of d) →
  insert_entry (put c m n) d = Ok (put c (<[id_of d := d]> m) (<[name_of d := id_of d]> n)) ∧
  rebuilt (pre ++ [d]) (<[id_of d := d]> m) (<[name_of d := id_of d]> n).
Proof using get_put_defs get_put_names put_put.
  intros [Hm Hn] Hnew. unfold insert_entry, insert_named. rewrite get_put_defs, get_put_names, decide_False.
  2:{ intros [id (d' & Hd' & Hname & _)%Hn]. by destruct (Hnew d' Hd'). }
  rewrite bind_Ok, put_put. split; [done|]. split.
  - intros id d'. rewrite lookup_insert_Some, elem_of_app, list_elem_of_singleton, Hm. split.
    + intros [[<- <-]|[Hne [Hd' Hid]]]; [by split; [right|]|by split; [left|]].
    + intros [[Hd'| ->] <-]; [|by left]. right. split; [by apply not_eq_sym, Hnew|done].
  - intros name id. rewrite lookup_insert_Some, Hn. setoid_rewrite elem_of_app. setoid_rewrite list_elem_of_singleton. split.
    + intros [[<- <-]|[Hne (d' & ? & ? & ?)]]; [exists d; by split; [right|]|exists d'; by split; [left|]].
    + intros (d' & [Hd'| ->] & <- & <-); [|by left]. right. split; [by apply not_eq_sym, Hnew|eauto].
Qed.

Lemma rebuild_family defs names next (R : D → B → Prop) (f : Catalog → B → res DbError Catalog) bs c :
  NamedWf defs names id_of name_of next → Forall2 R (snd <$> map_iter defs) bs →
  (∀ c d b, d ∈ snd <$> map_iter defs → R d b → f c b = map_err Catalog_ (insert_entry c d)) →
  for_each f bs (put c ∅ ∅) = Ok (put c defs names).
Proof using get_put_defs get_put_names put_put.
  intros [Hd Hn] Hall Hf.
  assert (StronglySorted (λ a b, key_lt (id_of a) (id_of b)) (snd <$> map_iter defs)) as Hs
    by exact (map_iter_values (H0 := id_of) defs (λ id d Hid, proj1 (Hd id d Hid))).
  assert (∀ pre ds bs m n, snd <$> map_iter defs = pre ++ ds → Forall2 R ds bs → rebuilt pre m n →
    ∃ m' n', for_each f bs (put c m n) = Ok (put c m' n') ∧ rebuilt (pre ++ ds) m' n') as Hgo.
  { intros pre ds. revert pre. induction ds as [|d ds IH]; intros pre bs0 m n Heq Hr Hreb.
    - apply Forall2_nil_inv_l in Hr as ->. exists m, n. by rewrite app_nil_r.
    - apply Forall2_cons_inv_l in Hr as (b & bs1 & Hb & Hr & ->).
      destruct (rebuild_step c pre d m n Hreb) as [Hins Hreb'].
      { intros d' Hd'. rewrite Heq in Hs. apply StronglySorted_app in Hs as (Hlt & _ & _).
        destruct (Hlt d' d Hd' ltac:(by left)) as [_ Hne]. split; [done|]. intros Hname.
        assert (∀ x, x ∈ pre ++ d :: ds → names !! name_of x = Some (id_of x)) as Hnm.
        { intros x. rewrite <-Heq. intros ([k y] & -> & Hin%elem_of_map_iter)%list_elem_of_fmap. cbn.
          destruct (Hd _ _ Hin) as (-> & _ & ?). done. }
        pose proof (Hnm d' ltac:(apply elem_of_app; by left)) as H1.
        pose proof (Hnm d ltac:(apply elem_of_app; right; by left)) as H2. rewrite Hname, H2 in H1. injection H1 as H1. by apply Hne. }
      cbn [for_each]. rewrite (Hf _ d b) by (done || rewrite Heq; apply elem_of_app; right; by left).
      rewrite Hins. cbn [map_err]. rewrite bind_Ok.
      destruct (IH (pre ++ [d]) bs1 _ _ ltac:(by rewrite <-app_assoc) Hr Hreb') as (m' & n' & Hrun & Hreb2).
      exists m', n'. by rewrite <-app_assoc in Hreb2. }
  destruct (Hgo [] _ bs ∅ ∅ eq_refl Hall) as (m' & n' & -> & [Hm Hnn]).
  { split; [intros id d|intros name id]; rewrite lookup_empty; split; try done.
    - by intros [?%not_elem_of_nil _].
    - by intros (d & ?%not_elem_of_nil & _). }
  cbn [app] in Hm, Hnn.
  assert (∀ d, d ∈ snd <$> map_iter defs ↔ defs !! id_of d = Some d) as Hin.
  { intros d. rewrite list_elem_of_fmap. split.
    - intros ([k y] & -> & Hy%elem_of_map_iter). cbn. by destruct (Hd _ _ Hy) as (-> & _).
    - intros Hy. exists (id_of d, d). split; [done|]. by apply elem_of_map_iter. }
  do 2 f_equal.
  - apply map_eq. intros id. apply option_eq. intros d. rewrite Hm, Hin. split; [by intros [? <-]|].
    intros Hy. destruct (Hd _ _ Hy) as (<- & _). done.
  - apply map_eq. intros name. apply option_eq. intros id. rewrite Hnn. setoid_rewrite Hin. split.
    + intros (d & Hy & <- & <-). by destruct (Hd _ _ Hy) as (_ & _ & ?).
    + intros (d & Hy & <-)%Hn. destruct (Hd _ _ Hy) as (<- & _). eauto.
Qed.

End family.

(** ** The catalog *)

Definition values_of {D} (defs : gmap Z D) : list D := snd <$> map_iter defs.

Definition catalog_names (c : Catalog) : list byte :=
  concat (role_name <$> values_of (roles c)) ++ concat (label_name <$> values_of (labels c)) ++
  concat (relation_type_name <$> values_of (relation_types c)) ++ concat (key_name <$> values_of (property_keys c)) ++
  concat ((λ p, projection_name (projection_definition p)) <$> values_of (projections c)) ++
  concat (index_name <$> values_of (indexes c)).
Definition catalog_defs (c : Catalog) : list Z :=
  concat ((λ p, (encode_projection_body (projection_definition p)).2) <$> values_of (projections c)) ++
  concat ((λ i, (encode_index_body (index_definition i)).2) <$> values_of (indexes c)).

(** Ids are [u64] values and names are strings. *)
Definition named_typed {D} (name_of : D → list byte) (defs : gmap Z D) : Prop :=
  ∀ id d, defs !! id = Some d → is_uint 64 id ∧ utf8_valid (name_of d) = true.
Record CatalogTyped (c : Catalog) : Prop := {
  ct_roles : named_typed role_name (roles c);
  ct_labels : named_typed label_name (labels c);
  ct_types : named_typed relation_type_name (relation_types c);
  ct_keys : named_typed key_name (property_keys c);
  ct_projections : named_typed (λ p, projection_name (projection_definition p)) (projections c);
  ct_indexes : named_typed index_name (indexes c);
  ct_defs : Forall (is_uint 64) (catalog_defs c)
}.

Definition mk_named (id : Z) (place : Z * Z) : NamedWire := {| nw_id := id; nw_name_off := place.1; nw_name_len := place.2 |}.
Definition mk_key (d : PropertyKeyDefinition) (place : Z * Z) : PropertyKeyWire := {|
  kw_id := key_id d; kw_name_off := place.1; kw_name_len := place.2;
  kw_family := property_family_tag (key_family d); kw_value_type := property_type_tag (key_type d) |}.
Definition mk_def (id : Z) (place : Z * Z) (k : Z) (body : Z * Z) : DefWire := {|
  df_id := id; df_name_off := place.1; df_name_len := place.2; df_kind := k; df_payload_off := body.1; df_payload_len := body.2 |}.

Section catalog.
Context `{!Target} (ck : Checksum32).

(** The loop over projection or index definitions, through both tables. *)
Lemma push_defs {A} (f : list byte * list Z → A → res DbError ((list byte * list Z) * DefWire))
    (id : A → Z) (name : A → list byte) (body : A → Z * list Z) l st :
  (∀ st a, f st a = ('(defs, place) ← encode_body st.2 (body a);
                     '(strings, record) ← def_wire st.1 (id a) (name a) place; Ok ((strings, defs), record))) →
  zlen (st.1 ++ concat (name <$> l)) ≤ u32_max → zlen (st.2 ++ concat ((λ a, (body a).2) <$> l)) ≤ u32_max →
  ∃ bs, push_each f l st = Ok ((st.1 ++ concat (name <$> l), st.2 ++ concat ((λ a, (body a).2) <$> l)), bs) ∧
    Forall2 (λ a b, ∃ np bp, b = mk_def (id a) np (body a).1 bp ∧ placed (st.1 ++ concat (name <$> l)) (name a) np ∧
      placed (st.2 ++ concat ((λ a, (body a).2) <$> l)) (body a).2 bp) l bs.
Proof.
  intros Hf Hn Hb.
  assert (∀ st, foldl (λ (s : list byte * list Z) a, (s.1 ++ name a, s.2 ++ (body a).2)) st l =
    (st.1 ++ concat (name <$> l), st.2 ++ concat ((λ a, (body a).2) <$> l))) as Hfold.
  { clear. induction l as [|a l IH]; intros [s d]; cbn [foldl fmap list_fmap concat fst snd]; [by rewrite !app_nil_r|].
    rewrite IH. cbn [fst snd]. by rewrite <-!app_assoc. }
  destruct (push_each_Ok f (λ (s : list byte * list Z) a, (s.1 ++ name a, s.2 ++ (body a).2))
    (λ s, zlen s.1 ≤ u32_max ∧ zlen s.2 ≤ u32_max)
    (λ s a b, ∃ np bp, b = mk_def (id a) np (body a).1 bp ∧ placed s.1 (name a) np ∧ placed s.2 (body a).2 bp) l st)
    as (bs & Hbs & Hall).
  - intros s a. cbn [fst snd]. rewrite !zlen_app. pose proof (zlen_nonneg (name a)). pose proof (zlen_nonneg (body a).2). lia.
  - intros s a _ [Ha1 Ha2]. cbn [fst snd] in *. destruct (append_run_Ok _ _ Ha1) as [He1 Hp1].
    destruct (append_run_Ok _ _ Ha2) as [He2 Hp2]. exists (mk_def (id a) (zlen s.1, zlen (name a)) (body a).1 (zlen s.2, zlen (body a).2)).
    split; [|eauto]. rewrite Hf. unfold encode_body. rewrite He2. cbn [mbind res_bind]. unfold def_wire, intern. rewrite He1. done.
  - intros s a b a' (np & bp & -> & H1 & H2). exists np, bp. split_and!; [done|by apply placed_grow..].
  - rewrite Hfold. done.
  - rewrite Hfold in Hbs, Hall. eauto.
Qed.

Lemma values_typed {D} (name_of : D → list byte) (id_of : D → Z) names next (defs : gmap Z D) d :
  NamedWf defs names id_of name_of next → named_typed name_of defs → d ∈ values_of defs →
  is_uint 64 (id_of d) ∧ utf8_valid (name_of d) = true.
Proof.
  intros [Hd _] Ht ([id y] & -> & Hy%elem_of_map_iter)%list_elem_of_fmap. cbn. destruct (Hd _ _ Hy) as (-> & _). by apply Ht.
Qed.

(** The records of the catalog's columns over their final tables. *)
Record CatalogFrozen (c : Catalog) (b : BaseContents) : Prop := {
  cz_strings : bc_strings b = catalog_names c;
  cz_defs : bc_defs b = catalog_defs c;
  cz_roles : Forall2 (λ d w, ∃ p, w = mk_named (role_id d) p ∧ placed (catalog_names c) (role_name d) p)
    (values_of (roles c)) (bc_roles b);
  cz_labels : Forall2 (λ d w, ∃ p, w = mk_named (label_id d) p ∧ placed (catalog_names c) (label_name d) p)
    (values_of (labels c)) (bc_labels b);
  cz_types : Forall2 (λ d w, ∃ p, w = mk_named (relation_type_id d) p ∧ placed (catalog_names c) (relation_type_name d) p)
    (values_of (relation_types c)) (bc_relation_types b);
  cz_keys : Forall2 (λ d w, ∃ p, w = mk_key d p ∧ placed (catalog_names c) (key_name d) p)
    (values_of (property_keys c)) (bc_property_keys b);
  cz_projections : Forall2 (λ e w, ∃ np bp,
      w = mk_def (projection_id e) np (encode_projection_body (projection_definition e)).1 bp ∧
      placed (catalog_names c) (projection_name (projection_definition e)) np ∧
      placed (catalog_defs c) (encode_projection_body (projection_definition e)).2 bp)
    (values_of (projections c)) (bc_projections b);
  cz_indexes : Forall2 (λ e w, ∃ np bp,
      w = mk_def (index_id e) np (encode_index_body (index_definition e)).1 bp ∧
      placed (catalog_names c) (index_name e) np ∧ placed (catalog_defs c) (encode_index_body (index_definition e)).2 bp)
    (values_of (indexes c)) (bc_indexes b)
}.

Lemma catalog_frozen c hd els ll rels rl incs ps text ix :
  zlen (catalog_names c) ≤ u32_max → zlen (catalog_defs c) ≤ u32_max →
  ∃ b, bc_header b = hd ∧ bc_elements b = els ∧ bc_element_labels b = ll ∧ bc_relations b = rels ∧ bc_relation_labels b = rl ∧
    bc_incidences b = incs ∧ bc_properties b = ps ∧ bc_text b = text ∧ bc_index b = ix ∧ CatalogFrozen c b ∧
    ∃ s1 s2 s3 s4 st,
    push_each (λ s d, named_wire s (role_id d) (role_name d)) (catalog_values (roles c)) [] = Ok (s1, bc_roles b) ∧
    push_each (λ s d, named_wire s (label_id d) (label_name d)) (catalog_values (labels c)) s1 = Ok (s2, bc_labels b) ∧
    push_each (λ s d, named_wire s (relation_type_id d) (relation_type_name d)) (catalog_values (relation_types c)) s2 =
      Ok (s3, bc_relation_types b) ∧
    push_each property_key_wire (catalog_values (property_keys c)) s3 = Ok (s4, bc_property_keys b) ∧
    push_each projection_wire (catalog_values (projections c)) (s4, []) = Ok (st, bc_projections b) ∧
    push_each index_wire (catalog_values (indexes c)) st = Ok ((bc_strings b, bc_defs b), bc_indexes b).
Proof.
  intros Hn Hd. change (@catalog_values) with (@values_of).
  set (n1 := concat (role_name <$> values_of (roles c))). set (n2 := concat (label_name <$> values_of (labels c))).
  set (n3 := concat (relation_type_name <$> values_of (relation_types c))).
  set (n4 := concat (key_name <$> values_of (property_keys c))).
  set (n5 := concat ((λ p, projection_name (projection_definition p)) <$> values_of (projections c))).
  set (n6 := concat (index_name <$> values_of (indexes c))).
  set (d1 := concat ((λ p, (encode_projection_body (projection_definition p)).2) <$> values_of (projections c))).
  set (d2 := concat ((λ i, (encode_index_body (index_definition i)).2) <$> values_of (indexes c))).
  assert (catalog_names c = (((([] ++ n1) ++ n2) ++ n3) ++ n4) ++ n5 ++ n6) as Hnames by (unfold catalog_names; by rewrite <-!app_assoc).
  assert (catalog_defs c = ([] ++ d1) ++ d2) as Hdefs by done.
  pose proof (zlen_nonneg n2). pose proof (zlen_nonneg n3). pose proof (zlen_nonneg n4). pose proof (zlen_nonneg n5).
  pose proof (zlen_nonneg n6). pose proof (zlen_nonneg d2).
  rewrite Hnames, !zlen_app in Hn. rewrite Hdefs, !zlen_app in Hd.
  destruct (push_runs (λ s d, named_wire s (role_id d) (role_name d)) role_name (λ d p, mk_named (role_id d) p) (values_of (roles c)) [])
    as (w1 & E1 & F1); [intros; unfold named_wire, intern; by destruct (append_run _ _) as [[? []]| | |]|fold n1 n2 n3 n4 n5 n6 d1 d2; rewrite !zlen_app; lia|].
  destruct (push_runs (λ s d, named_wire s (label_id d) (label_name d)) label_name (λ d p, mk_named (label_id d) p) (values_of (labels c)) ([] ++ n1))
    as (w2 & E2 & F2); [intros; unfold named_wire, intern; by destruct (append_run _ _) as [[? []]| | |]|fold n1 n2 n3 n4 n5 n6 d1 d2; rewrite !zlen_app; lia|].
  destruct (push_runs (λ s d, named_wire s (relation_type_id d) (relation_type_name d)) relation_type_name
    (λ d p, mk_named (relation_type_id d) p) (values_of (relation_types c)) (([] ++ n1) ++ n2))
    as (w3 & E3 & F3); [intros; unfold named_wire, intern; by destruct (append_run _ _) as [[? []]| | |]|fold n1 n2 n3 n4 n5 n6 d1 d2; rewrite !zlen_app; lia|].
  destruct (push_runs property_key_wire key_name mk_key (values_of (property_keys c)) ((([] ++ n1) ++ n2) ++ n3))
    as (w4 & E4 & F4); [intros; unfold property_key_wire, intern; by destruct (append_run _ _) as [[? []]| | |]|fold n1 n2 n3 n4 n5 n6 d1 d2; rewrite !zlen_app; lia|].
  destruct (push_defs projection_wire projection_id (λ p, projection_name (projection_definition p))
    (λ p, encode_projection_body (projection_definition p)) (values_of (projections c)) (((([] ++ n1) ++ n2) ++ n3) ++ n4, []))
    as (w5 & E5 & F5); [done|cbn [fst]; fold n1 n2 n3 n4 n5 n6 d1 d2; rewrite !zlen_app; lia|cbn [snd]; fold d1; rewrite zlen_app; change (zlen (@nil Z)) with 0; change (zlen (@nil Z)) with 0 in Hd; lia|].
  destruct (push_defs index_wire index_id index_name (λ i, encode_index_body (index_definition i)) (values_of (indexes c))
    ((((([] ++ n1) ++ n2) ++ n3) ++ n4) ++ n5, [] ++ d1))
    as (w6 & E6 & F6); [done|cbn [fst]; fold n1 n2 n3 n4 n5 n6 d1 d2; rewrite !zlen_app; lia|cbn [snd]; fold n1 n2 n3 n4 n5 n6 d1 d2; rewrite !zlen_app; lia|].
  cbn [fst snd] in E5, F5, E6, F6. fold n1 in E1, F1. fold n2 in E2, F2. fold n3 in E3, F3. fold n4 in E4, F4.
  fold n5 in E5, F5. fold n6 in E6, F6. fold d1 in E5, F5. fold d2 in E6, F6.
  exists {| bc_header := hd; bc_roles := w1; bc_labels := w2; bc_relation_types := w3; bc_property_keys := w4; bc_projections := w5;
    bc_indexes := w6; bc_defs := catalog_defs c; bc_elements := els; bc_element_labels := ll; bc_relations := rels;
    bc_relation_labels := rl; bc_incidences := incs; bc_properties := ps; bc_text := text; bc_index := ix;
    bc_strings := catalog_names c |}.
  do 9 (split; [done|]). split.
  - split; cbn; [done|done| | | | | | ].
    + replace (catalog_names c) with (([] ++ n1) ++ (n2 ++ n3 ++ n4 ++ n5 ++ n6)) by done. by apply placed_all_grow.
    + replace (catalog_names c) with ((([] ++ n1) ++ n2) ++ (n3 ++ n4 ++ n5 ++ n6)) by ((rewrite Hnames; by rewrite <-!app_assoc)).
      by apply placed_all_grow.
    + replace (catalog_names c) with (((([] ++ n1) ++ n2) ++ n3) ++ (n4 ++ n5 ++ n6)) by ((rewrite Hnames; by rewrite <-!app_assoc)).
      by apply placed_all_grow.
    + rewrite Hnames. by apply placed_all_grow.
    + rewrite Hnames, Hdefs. eapply Forall2_impl; [exact F5|]. intros e w (np & bp & -> & H1' & H2'). exists np, bp.
      split; [done|]. split; [|by apply placed_grow]. rewrite app_assoc. by apply placed_grow.
    + rewrite Hnames, Hdefs, app_assoc. exact F6.
  - exists ([] ++ n1), (([] ++ n1) ++ n2), ((([] ++ n1) ++ n2) ++ n3), (((([] ++ n1) ++ n2) ++ n3) ++ n4),
      ((((([] ++ n1) ++ n2) ++ n3) ++ n4) ++ n5, [] ++ d1).
    split_and!; try done. cbn [bc_strings bc_defs bc_indexes]. by rewrite Hnames, Hdefs, app_assoc.
Qed.
(** The catalog with one family replaced. *)
Definition put_roles (c : Catalog) (m : gmap Z RoleDefinition) (n : gmap (list byte) Z) : Catalog := {|
  roles := m; role_names := n; labels := labels c; label_names := label_names c;
  relation_types := relation_types c; relation_type_names := relation_type_names c; property_keys := property_keys c; property_key_names := property_key_names c;
  projections := projections c; projection_names := projection_names c; indexes := indexes c; index_names := index_names c |}.
Definition put_labels (c : Catalog) (m : gmap Z LabelDefinition) (n : gmap (list byte) Z) : Catalog := {|
  roles := roles c; role_names := role_names c; labels := m; label_names := n;
  relation_types := relation_types c; relation_type_names := relation_type_names c; property_keys := property_keys c; property_key_names := property_key_names c;
  projections := projections c; projection_names := projection_names c; indexes := indexes c; index_names := index_names c |}.
Definition put_relation_types (c : Catalog) (m : gmap Z RelationTypeDefinition) (n : gmap (list byte) Z) : Catalog := {|
  roles := roles c; role_names := role_names c; labels := labels c; label_names := label_names c;
  relation_types := m; relation_type_names := n; property_keys := property_keys c; property_key_names := property_key_names c;
  projections := projections c; projection_names := projection_names c; indexes := indexes c; index_names := index_names c |}.
Definition put_property_keys (c : Catalog) (m : gmap Z PropertyKeyDefinition) (n : gmap (list byte) Z) : Catalog := {|
  roles := roles c; role_names := role_names c; labels := labels c; label_names := label_names c;
  relation_types := relation_types c; relation_type_names := relation_type_names c; property_keys := m; property_key_names := n;
  projections := projections c; projection_names := projection_names c; indexes := indexes c; index_names := index_names c |}.
Definition put_projections (c : Catalog) (m : gmap Z ProjectionEntry) (n : gmap (list byte) Z) : Catalog := {|
  roles := roles c; role_names := role_names c; labels := labels c; label_names := label_names c;
  relation_types := relation_types c; relation_type_names := relation_type_names c; property_keys := property_keys c; property_key_names := property_key_names c;
  projections := m; projection_names := n; indexes := indexes c; index_names := index_names c |}.
Definition put_indexes (c : Catalog) (m : gmap Z IndexEntry) (n : gmap (list byte) Z) : Catalog := {|
  roles := roles c; role_names := role_names c; labels := labels c; label_names := label_names c;
  relation_types := relation_types c; relation_type_names := relation_type_names c; property_keys := property_keys c; property_key_names := property_key_names c;
  projections := projections c; projection_names := projection_names c; indexes := m; index_names := n |}.

Lemma placed_le {A} (table run : list A) place : placed table run place → zlen run ≤ zlen table.
Proof.
  intros (_ & _ & pre & post & -> & _). rewrite !zlen_app. pose proof (zlen_nonneg pre). pose proof (zlen_nonneg post). lia.
Qed.

(** Records whose ids are [u64] values fit their words. *)
Lemma named_fits {D} (id_of : D → Z) (name_of : D → list byte) table l bs :
  (∀ d, d ∈ l → is_uint 64 (id_of d)) →
  Forall2 (λ d w, ∃ p, w = mk_named (id_of d) p ∧ placed table (name_of d) p) l bs → Forall wire_fits bs.
Proof.
  intros Hid Hall. apply Forall_forall. intros w [i Hi]%list_elem_of_lookup.
  destruct (Forall2_lookup_r _ _ _ _ _ Hall Hi) as (d & Hd & p & -> & H1 & H2 & _).
  apply list_elem_of_lookup_2, Hid in Hd. fit_row.
Qed.

Lemma defs_fit {D} (id_of : D → Z) (name_of : D → list byte) (body : D → Z * list Z) names defs l bs :
  (∀ d, d ∈ l → is_uint 64 (id_of d)) → (∀ d, is_uint 32 (body d).1) →
  Forall2 (λ d w, ∃ np bp, w = mk_def (id_of d) np (body d).1 bp ∧ placed names (name_of d) np ∧ placed defs (body d).2 bp) l bs →
  Forall wire_fits bs.
Proof.
  intros Hid Hk Hall. apply Forall_forall. intros w [i Hi]%list_elem_of_lookup.
  destruct (Forall2_lookup_r _ _ _ _ _ Hall Hi) as (d & Hd & np & bp & -> & (H1 & H2 & _) & H3 & H4 & _).
  apply list_elem_of_lookup_2, Hid in Hd. specialize (Hk d). fit_row.
Qed.

Lemma uint_in_order a b v : is_uint a v → a ≤ b → is_uint b v.
Proof. intros [H1 H2] Hab. split; [done|]. eapply Z.lt_le_trans; [exact H2|]. apply Z.pow_le_mono_r; lia. Qed.

Lemma catalog_decoded c next b s :
  CatalogWf c next → CatalogTyped c → CatalogFrozen c b →
  zlen (catalog_names c) ≤ usize_max → zlen (catalog_defs c) ≤ usize_max →
  (∀ p, p ∈ catalog_columns b → column_in ck s p) →
  decode_catalog ck s (bc_strings b) (bc_defs b) = Ok c.
Proof.
  intros [W1 W2 W3 W4 W5 W6 _ _] [T1 T2 T3 T4 T5 T6 _] [-> -> F1 F2 F3 F4 F5 F6] Hn Hd Hcol. unfold decode_catalog.
  assert (∀ {T} `{WireRecord T} kind rs, Forall wire_fits rs → base_section kind 0 (records_bytes rs) ∈ catalog_columns b →
    map_err Storage (typed_records ck T s kind) = Ok rs) as Hread.
  { intros T HT kind rs Hf Hin. by rewrite (typed_column ck s kind 0 rs Hf (Hcol _ Hin)). }
  assert (∀ d, is_uint 32 (encode_projection_body (projection_definition d)).1) as Hk5 by (intros [? []]; by split).
  assert (∀ d, is_uint 32 (encode_index_body (index_definition d)).1) as Hk6 by (intros [? ? []]; by split).
  pose proof (named_fits role_id role_name _ _ _ (λ d Hd, proj1 (values_typed _ _ _ _ _ d W1 T1 Hd)) F1) as B1.
  pose proof (named_fits label_id label_name _ _ _ (λ d Hd, proj1 (values_typed _ _ _ _ _ d W2 T2 Hd)) F2) as B2.
  pose proof (named_fits relation_type_id relation_type_name _ _ _ (λ d Hd, proj1 (values_typed _ _ _ _ _ d W3 T3 Hd)) F3) as B3.
  assert (Forall wire_fits (bc_property_keys b)) as B4.
  { apply Forall_forall. intros w [i Hi]%list_elem_of_lookup.
    destruct (Forall2_lookup_r _ _ _ _ _ F4 Hi) as (d & Hd1%list_elem_of_lookup_2 & p & -> & P1 & P2 & _).
    pose proof (proj1 (values_typed _ _ _ _ _ d W4 T4 Hd1)) as Hid.
    assert (is_uint 32 (property_family_tag (key_family d))) by (by destruct (key_family d)).
    assert (is_uint 32 (property_type_tag (key_type d))) by (by destruct (key_type d)). fit_row. }
  pose proof (defs_fit projection_id (λ p, projection_name (projection_definition p)) (λ p, encode_projection_body (projection_definition p))
    _ _ _ _ (λ d Hd, proj1 (values_typed _ _ _ _ _ d W5 T5 Hd)) Hk5 F5) as B5.
  pose proof (defs_fit index_id index_name (λ i, encode_index_body (index_definition i))
    _ _ _ _ (λ d Hd, proj1 (values_typed _ _ _ _ _ d W6 T6 Hd)) Hk6 F6) as B6.
  assert (∀ {D} (name_of : D → list byte) (id_of : D → Z) names nx defs d p, NamedWf defs names id_of name_of nx → named_typed name_of defs →
    d ∈ values_of defs → placed (catalog_names c) (name_of d) p → read_str (catalog_names c) p.1 p.2 = Ok (name_of d)) as Hstr.
  { intros D name_of id_of names nx defs d p HW HT Hdin Hp. apply read_str_placed; [done| |done]. by eapply values_typed. }
  rewrite (Hread _ _ SECTION_CATALOG_ROLES _ B1), bind_Ok by set_solver. unfold decode_named.
  change empty_catalog with (put_roles empty_catalog ∅ ∅).
  rewrite (rebuild_family role_id role_name roles role_names put_roles ltac:(done) ltac:(done) ltac:(done) _ _ _ _ _ _ _ W1 F1), bind_Ok.
  2:{ intros c0 d w Hdin (p & -> & Hp). cbn. rewrite (Hstr _ _ _ _ _ _ _ _ W1 T1 Hdin Hp). by destruct d. }
  rewrite (Hread _ _ SECTION_CATALOG_LABELS _ B2), bind_Ok by set_solver.
  match goal with |- context [for_each _ _ ?c0] => change c0 with (put_labels c0 ∅ ∅) end.
  rewrite (rebuild_family label_id label_name labels label_names put_labels ltac:(done) ltac:(done) ltac:(done) _ _ _ _ _ _ _ W2 F2), bind_Ok.
  2:{ intros c0 d w Hdin (p & -> & Hp). cbn. rewrite (Hstr _ _ _ _ _ _ _ _ W2 T2 Hdin Hp). by destruct d. }
  rewrite (Hread _ _ SECTION_CATALOG_RELATION_TYPES _ B3), bind_Ok by set_solver.
  match goal with |- context [for_each _ _ ?c0] => change c0 with (put_relation_types c0 ∅ ∅) end.
  rewrite (rebuild_family relation_type_id relation_type_name relation_types relation_type_names put_relation_types ltac:(done) ltac:(done) ltac:(done) _ _ _ _ _ _ _ W3 F3), bind_Ok.
  2:{ intros c0 d w Hdin (p & -> & Hp). cbn. rewrite (Hstr _ _ _ _ _ _ _ _ W3 T3 Hdin Hp). by destruct d. }
  rewrite (Hread _ _ SECTION_CATALOG_PROPERTY_KEYS _ B4), bind_Ok by set_solver.
  match goal with |- context [for_each _ _ ?c0] => change c0 with (put_property_keys c0 ∅ ∅) end.
  rewrite (rebuild_family key_id key_name property_keys property_key_names put_property_keys ltac:(done) ltac:(done) ltac:(done) _ _ _ _ _ _ _ W4 F4), bind_Ok.
  2:{ intros c0 d w Hdin (p & -> & Hp). unfold decode_property_key. cbn [kw_name_off kw_name_len kw_id kw_family kw_value_type mk_key].
    rewrite (Hstr _ _ _ _ _ _ _ _ W4 T4 Hdin Hp), bind_Ok, family_tag_codec, type_tag_codec. by destruct d. }
  rewrite (Hread _ _ SECTION_CATALOG_PROJECTIONS _ B5), bind_Ok by set_solver.
  match goal with |- context [for_each _ _ ?c0] => change c0 with (put_projections c0 ∅ ∅) end.
  rewrite (rebuild_family projection_id (λ p, projection_name (projection_definition p)) projections projection_names put_projections ltac:(done) ltac:(done) ltac:(done) _ _ _ _ _ _ _ W5 F5), bind_Ok.
  2:{ intros c0 d w Hdin (np & bp & -> & Hp & Hbp). unfold decode_projection, decode_projection_def.
    pose proof (placed_le _ _ _ Hbp). cbn [df_name_off df_name_len df_id df_kind mk_def].
    rewrite (Hstr _ _ _ _ _ _ _ _ W5 T5 Hdin Hp), bind_Ok. erewrite def_body_placed by (done || by destruct bp).
    rewrite bind_Ok, projection_body_codec by (unfold body_fits; lia). by destruct d. }
  rewrite (Hread _ _ SECTION_CATALOG_INDEXES _ B6), bind_Ok by set_solver.
  match goal with |- context [for_each _ _ ?c0] => change c0 with (put_indexes c0 ∅ ∅) end.
  rewrite (rebuild_family index_id index_name indexes index_names put_indexes ltac:(done) ltac:(done) ltac:(done) _ _ _ _ _ _ _ W6 F6).
  2:{ intros c0 d w Hdin (np & bp & -> & Hp & Hbp). unfold decode_index, decode_index_def.
    cbn [df_name_off df_name_len df_id df_kind mk_def].
    rewrite (Hstr _ _ _ _ _ _ _ _ W6 T6 Hdin Hp), bind_Ok. erewrite def_body_placed by (done || by destruct bp).
    rewrite bind_Ok, index_body_codec. by destruct d. }
  by destruct c.
Qed.
End catalog.

(** ** Opening arbitrary bytes *)

(** A search with a comparison that does not panic. *)
Lemma returns_search {E A} (f : A → comparison) (l : list A) : ∃ r, binary_search_by (E := E) (λ x, Ok (f x)) l = Ok r.
Proof.
  assert (∀ fuel base size, (0 < size)%nat → (size ≤ S fuel)%nat → (base + size ≤ length l)%nat →
    ∃ b, bisect (E := E) (λ x, Ok (f x)) fuel l base size = Ok b ∧ (b < length l)%nat) as Hb.
  { induction fuel as [|fuel IH]; intros base size Hpos Hf Hin.
    { exists base. cbn [bisect]. rewrite decide_True by lia. split; [done|lia]. }
    destruct (decide (size ≤ 1)%nat) as [Hs|Hs].
    { exists base. cbn [bisect]. rewrite decide_True by lia. split; [done|lia]. }
    cbn [bisect]. rewrite decide_False by lia.
    pose proof (Nat.div_lt size 2 ltac:(lia) ltac:(lia)). assert (0 < size / 2)%nat by (apply Nat.div_str_pos; lia).
    assert (2 * (size / 2) ≤ size)%nat by (apply Nat.Div0.mul_div_le).
    destruct (lookup_lt_is_Some_2 l (base + size / 2)) as [x Hx]; [lia|]. unfold vget. rewrite Hx. cbn [or_panic mbind res_bind].
    destruct (f x); apply IH; lia. }
  destruct l as [|a l']; [by eexists|]. unfold binary_search_by. remember (a :: l') as l.
  destruct (Hb (length l) 0%nat (length l)) as (b & -> & Hlt); [by subst; cbn; lia|lia|lia|].
  destruct (lookup_lt_is_Some_2 l b Hlt) as [x Hx]. rewrite bind_Ok. unfold vget. rewrite Hx. cbn. by eexists.
Qed.

Section safety.
Context `{!Target} (ck : Checksum32).

Create HintDb total.
#[local] Hint Resolve returns_Ok returns_Err returns_ok_or returns_map_err : total.

(** Peel the steps of a computation; each must return. *)
Ltac peel := repeat (apply returns_bind; [by auto with total|intros ? _]).

Lemma returns_storage {E A} (r : res E A) : returns r → returns (storage_text r).
Proof. apply returns_map_err. Qed.
#[local] Hint Resolve returns_storage : total.

Lemma returns_verify s : returns (verify s ck).
Proof. unfold verify. by case_decide. Qed.
Lemma returns_try_as_slice s n a : returns (try_as_slice s n a).
Proof. unfold try_as_slice. by repeat case_decide. Qed.
#[local] Hint Resolve returns_verify returns_try_as_slice : total.

Lemma returns_section {E} s k : SnapshotOk s → returns (section (E := E) s k).
Proof. intros Hs. by destruct (section_cases (E := E) s k Hs) as [(e & _ & _ & ->)|[_ ->]]. Qed.

Lemma returns_typed_records {T} `{WireRecord T} s k : SnapshotOk s → returns (typed_records ck T s k).
Proof.
  intros Hs. unfold typed_records. apply returns_bind; [by apply returns_section|]. intros [sec|] _; [|done]. peel. done.
Qed.
Lemma returns_raw_blob s k : SnapshotOk s → returns (raw_blob ck s k).
Proof. intros Hs. unfold raw_blob. apply returns_bind; [by apply returns_section|]. intros [sec|] _; [|done]. peel. done. Qed.

Lemma returns_split bytes : returns (split_posting_section bytes).
Proof. unfold split_posting_section. case_decide; [done|]. peel. done. Qed.
Lemma returns_ref_from_bytes {T} `{WireRecord T} message bytes : returns (ref_from_bytes T message bytes).
Proof. unfold ref_from_bytes. by case_decide. Qed.
#[local] Hint Resolve returns_split returns_ref_from_bytes : total.

Lemma returns_posting_slices {T} `{WireRecord T} s k : SnapshotOk s → returns (posting_slices ck T s k).
Proof.
  intros Hs. unfold posting_slices. apply returns_bind; [by apply returns_section|]. intros [sec|] _; [|done].
  apply returns_bind; [by auto with total|]. intros _ _. apply returns_bind; [by auto with total|]. intros [dir pool] _. peel. done.
Qed.

(** ** The catalog and the postings of a bind *)

Lemma returns_read_str table off len : returns (read_str table off len).
Proof. unfold read_str. peel. by case_match. Qed.
Lemma returns_insert_named names name id : returns (insert_named names name id).
Proof. unfold insert_named. by case_decide. Qed.
Lemma returns_def_body r defs : returns (def_body r defs).
Proof. unfold def_body. peel. by auto with total. Qed.
#[local] Hint Resolve returns_read_str returns_insert_named returns_def_body returns_decode_projection returns_decode_index : total.

Lemma returns_insert_family c id name :
  returns (insert_role c id name) ∧ returns (insert_label c id name) ∧ returns (insert_relation_type c id name).
Proof. split_and!; (apply returns_bind; [by auto with total|done]). Qed.

Lemma returns_decode_named insert table records c :
  (∀ c id name, returns (insert c id name)) → returns (decode_named insert table records c).
Proof.
  intros Hi. apply returns_for_each. intros c' r _. apply returns_bind; [by auto with total|]. intros name _.
  apply returns_map_err, Hi.
Qed.

Lemma returns_catalog s table defs : SnapshotOk s → returns (decode_catalog ck s table defs).
Proof.
  intros Hs. unfold decode_catalog.
  assert (∀ T `{WireRecord T} k, returns (map_err Storage (typed_records ck T s k))) as Hr
    by (intros; by apply returns_map_err, returns_typed_records).
  do 3 (apply returns_bind; [apply Hr|]; intros ? _; apply returns_bind; [apply returns_decode_named; intros; apply returns_insert_family|];
    intros ? _).
  apply returns_bind; [apply Hr|]. intros ? _. apply returns_bind.
  { apply returns_for_each. intros c r _. unfold decode_property_key. peel. apply returns_map_err, returns_bind; [by auto with total|done]. }
  intros ? _. apply returns_bind; [apply Hr|]. intros ? _. apply returns_bind.
  { apply returns_for_each. intros c r _. unfold decode_projection, decode_projection_def. apply returns_bind; [by auto with total|].
    intros ? _. apply returns_bind; [apply returns_bind; [by auto with total|intros; by auto with total]|]. intros ? _.
    apply returns_map_err, returns_bind; [by auto with total|done]. }
  intros ? _. apply returns_bind; [apply Hr|]. intros ? _.
  apply returns_for_each. intros c r _. unfold decode_index, decode_index_def. apply returns_bind; [by auto with total|].
  intros ? _. apply returns_bind; [apply returns_bind; [by auto with total|intros; by auto with total]|]. intros ? _.
  apply returns_map_err, returns_bind; [by auto with total|done].
Qed.

Lemma returns_entry_key e text : returns (equality_entry_key e text).
Proof.
  unfold equality_entry_key. apply returns_bind; [by auto with total|]. intros ty _. apply returns_bind; [|done].
  destruct ty; try done. peel. by case_match.
Qed.
#[local] Hint Resolve returns_entry_key : total.

Lemma returns_from_sections ix : returns (from_sections ix).
Proof.
  unfold from_sections. do 4 (apply returns_bind; [apply returns_for_each; intros; peel; done|]; intros ? _).
  apply returns_bind; [|done]. apply returns_for_each. intros _ e _. peel. case_decide; [done|].
  apply returns_for_each. intros _ p _. unfold validate_pair. peel. done.
Qed.

Lemma returns_attach_index s : SnapshotOk s → returns (attach_index ck s).
Proof.
  intros Hs. unfold attach_index. do 5 (apply returns_bind; [by apply returns_posting_slices|]; intros [? ?] _).
  apply returns_bind; [by apply returns_raw_blob|]. intros ? _. apply returns_storage, returns_from_sections.
Qed.

(** ** The records and the lookups of an attached view *)

Lemma returns_decode_labels run : returns (decode_labels run).
Proof. unfold decode_labels. peel. done. Qed.
Lemma returns_decode_value v r : returns (decode_property_value v r).
Proof.
  unfold decode_property_value. apply returns_bind; [by auto with total|]. intros ty _. destruct ty; try done. peel. by case_match.
Qed.
#[local] Hint Resolve returns_decode_labels returns_decode_value : total.

Lemma returns_open_records v : returns (open_records v).
Proof.
  unfold open_records. apply returns_bind; [apply returns_for_each; intros; unfold decode_element; peel; done|]. intros ? _.
  apply returns_bind; [apply returns_for_each; intros; unfold decode_relation; peel; done|]. intros ? _.
  cbv zeta. apply returns_bind; [apply returns_for_each; intros; unfold decode_property; peel; done|done].
Qed.

Lemma simple_lookup_total dir pool key : ∃ r, simple_lookup dir pool key = Ok r.
Proof.
  unfold simple_lookup. destruct (returns_search (E := DbError) (λ e, pe_key e ?= key) dir) as [r ->]. rewrite bind_Ok.
  destruct r; by eexists.
Qed.
Lemma base_posting_total owned dir pool ix key : ∃ r, base_posting owned dir pool ix key = Ok r.
Proof.
  destruct ix as [o|b]; cbn [base_posting]; [by eexists|]. destruct (simple_lookup_total (dir b) (pool b) key) as [r ->]. by eexists.
Qed.
Lemma lower_bound_total b key : ∃ n, key_lower_bound b key = Ok n.
Proof.
  unfold key_lower_bound, partition_point.
  destruct (returns_search (E := DbError) (λ e, if bool_decide (qe_key_id e < key) then Lt else Gt) (equality_dir b)) as [r ->]. by eexists.
Qed.

Lemma returns_open_checked bytes addr : returns (open_checked bytes addr ck).
Proof. unfold open_checked. apply returns_bind; [apply returns_open|]. intros s _. cbv zeta. by case_decide. Qed.

Lemma attach_valid s ix : attach_index ck s = Ok ix → from_sections ix = Ok ix.
Proof.
  unfold attach_index. do 5 (intros ([? ?] & _ & H')%bind_Ok_inv; revert H'). intros (text & _ & Hf%map_err_Ok)%bind_Ok_inv.
  pose proof Hf as Hf'. unfold from_sections in Hf'. do 5 (apply bind_Ok_inv in Hf' as (? & _ & Hf')). by apply Ok_inj in Hf' as <-.
Qed.

Lemma open_checked_ok bytes addr s : zlen bytes ≤ usize_max → open_checked bytes addr ck = Ok s → SnapshotOk s.
Proof.
  intros Hb. unfold open_checked. intros (s' & Ho & Hc)%bind_Ok_inv. cbv zeta in Hc. case_decide; [done|]. apply Ok_inj in Hc as <-.
  by eapply open_SnapshotOk.
Qed.

Lemma returns_attach_view bytes addr : zlen bytes ≤ usize_max → returns (attach_view ck bytes addr).
Proof.
  intros Hb. unfold attach_view. apply returns_bind; [apply returns_storage, returns_open_checked|]. intros s Hs%map_err_Ok.
  apply (open_checked_ok _ _ _ Hb) in Hs.
  apply returns_bind; [by apply returns_typed_records|]. intros ? _. apply returns_bind; [by auto with total|]. intros ? _.
  case_decide; [done|]. apply returns_bind; [by apply returns_raw_blob|]. intros ? _.
  apply returns_bind; [by apply returns_typed_records|]. intros ? _. apply returns_bind; [by apply returns_storage, returns_catalog|]. intros ? _.
  apply returns_bind; [by apply returns_typed_records|]. intros ? _.
  apply returns_bind; [unfold verify_properties_sorted; by case_match|]. intros ? _.
  apply returns_bind; [by apply returns_attach_index|]. intros ? _.
  do 5 (apply returns_bind; [by apply returns_typed_records|]; intros ? _). apply returns_bind; [by apply returns_raw_blob|done].
Qed.

Lemma attach_view_checked bytes addr view :
  attach_view ck bytes addr = Ok view → from_sections (bv_index view) = Ok (bv_index view) ∧
    properties_ordered (bv_properties view) = true ∧ dh_format_version (bv_header view) = OXGDB_FORMAT_VERSION.
Proof.
  unfold attach_view. intros (s & _ & (hs & _ & (h & _ & Hr)%bind_Ok_inv)%bind_Ok_inv)%bind_Ok_inv. case_decide as Hv; [done|].
  apply bind_Ok_inv in Hr as (? & _ & (? & _ & (? & _ & (ps & _ & ([] & Hps & (ix & Hix & Hr)%bind_Ok_inv)%bind_Ok_inv)%bind_Ok_inv)%bind_Ok_inv)%bind_Ok_inv).
  do 6 (apply bind_Ok_inv in Hr as (? & _ & Hr)). apply Ok_inj in Hr as <-. cbn [bv_index bv_properties bv_header].
  split; [by eapply attach_valid|]. split; [|by destruct (decide (hr_format_version h = OXGDB_FORMAT_VERSION))].
  revert Hps. unfold verify_properties_sorted. by destruct (properties_ordered ps).
Qed.

End safety.

(** C25. Opening a base file is total. Whatever the bytes (of a length a slice can
    have) and wherever they lie, attaching returns a view or an error; a view it
    returns has the supported format version, property records in order and
    postings that passed validation, opening its records returns, and every
    lookup and scan of its borrowed postings answers, for any key. *)
Theorem attach_total `{!Target} (ck : Checksum32) bytes addr :
  zlen bytes ≤ usize_max →
  returns (attach_view ck bytes addr) ∧
  ∀ view, attach_view ck bytes addr = Ok view →
    dh_format_version (bv_header view) = OXGDB_FORMAT_VERSION ∧ properties_ordered (bv_properties view) = true ∧
    from_sections (bv_index view) = Ok (bv_index view) ∧ returns (open_records view) ∧
    let ix := BorrowedIndex (bv_index view) in
    ∀ key, (∃ p, label_posting ix key = Ok p) ∧ (∃ p, relation_type_posting ix key = Ok p) ∧
      (∃ p, element_incidence_posting ix key = Ok p) ∧ (∃ p, relation_incidence_posting ix key = Ok p) ∧
      (∀ value, ∃ p, equality_subjects ix key value = Ok p) ∧
      (∀ min max, ∃ l, base_range_postings ix key min max = Ok l) ∧ ∃ l, base_key_postings ix key = Ok l.
Proof.
  intros Hb. split; [by apply returns_attach_view|]. intros view Hview. destruct (attach_view_checked ck _ _ _ Hview) as (H1 & H2 & H3).
  split_and!; [done..|apply returns_open_records|]. intros ix key. split_and!; try apply base_posting_total.
  - intros value. unfold equality_subjects, ix.
    destruct (returns_search (E := DbError) (λ e, match equality_entry_key e (equality_text (bv_index view)) with
      | Ok candidate => key_cmp candidate (key, value) | _ => Lt end) (equality_dir (bv_index view))) as [r ->].
    rewrite bind_Ok. destruct r; by eexists.
  - intros min max. unfold base_range_postings, ix. case_decide; [by eexists|]. unfold borrowed_range_postings.
    destruct (lower_bound_total (bv_index view) key) as [n ->]. by eexists.
  - unfold base_key_postings, borrowed_key_postings, ix. destruct (lower_bound_total (bv_index view) key) as [n ->]. by eexists.
Qed.

(** A truncated file is refused. *)
Lemma attach_total_witness :
  zlen [Byte.x4f; Byte.x58] ≤ @usize_max target64 ∧
  returns (@attach_view target64 crc32c_append [Byte.x4f; Byte.x58] 0) ∧
  @attach_view target64 crc32c_append [Byte.x4f; Byte.x58] 0 = Err (InvalidStore wrapped).
Proof.
  split; [vm_compute; discriminate|]. split; [apply (@attach_total target64 crc32c_append); vm_compute; discriminate|].
  vm_compute. reflexivity.
Defined.
