(* ===== verification/BorrowedFacts.v ===== *)
(** * BorrowedFacts: written postings against the owned ones

    The directories and pools a freeze writes for an owned index: they pass the
    validation of a bind, materialize to the index they were written from, and
    every lookup finds in them by bisection what it finds in the owned maps. *)

From Stdlib Require Import String.
From stdpp Require Import base gmap sets list strings sorting.
From S2P Require Import Prelude Bytes Ordered Layout DbError DbWire DbState OverlayIndex IndexFacts BaseWire BaseFile Search BorrowedIndex BaseFileFacts.

Local Open Scope Z_scope.

Section borrowed.
Context `{!Target}.

(** A run of a pool at 64-bit coordinates. *)
Definition pooled {A} (pool run : list A) (off len : Z) : Prop :=
  ∃ pre post, pool = pre ++ run ++ post ∧ off = zlen pre ∧ len = zlen run.

Lemma pooled_grow {A} (pool run more : list A) off len : pooled pool run off len → pooled (pool ++ more) run off len.
Proof. intros (pre & post & -> & -> & ->). exists pre, (post ++ more). by rewrite <-!app_assoc. Qed.

Lemma pooled_last {A} (pool run : list A) : pooled (pool ++ run) run (zlen pool) (zlen run).
Proof. exists pool, []. by rewrite app_nil_r. Qed.

Lemma pooled_slice {A} (pool run : list A) off len :
  zlen pool ≤ usize_max → pooled pool run off len → slice_pool pool off len = Some run.
Proof.
  intros Hfit (pre & post & -> & -> & ->). rewrite !zlen_app in Hfit.
  pose proof (zlen_nonneg pre). pose proof (zlen_nonneg run). pose proof (zlen_nonneg post).
  unfold slice_pool. rewrite !try_into_fits by lia. cbn [mbind option_bind].
  rewrite checked_add_fits by lia. cbn [mbind option_bind]. apply get_range_middle.
Qed.

(** A place in a pool of [u64] coordinates is in their range. *)
Lemma pooled_u64 {A} (pool run : list A) off len :
  zlen pool ≤ usize_max → pooled pool run off len → is_uint 64 off ∧ is_uint 64 len.
Proof.
  intros Hfit (pre & post & -> & -> & ->). rewrite !zlen_app in Hfit. pose proof usize_max_bounds.
  pose proof (zlen_nonneg pre). pose proof (zlen_nonneg run). pose proof (zlen_nonneg post). unfold is_uint. lia.
Qed.

(** ** Directories of id postings *)

Definition posting_held (pool : list Z) (p : Z * gset Z) (e : PostingDirEntry) : Prop :=
  pe_key e = p.1 ∧ pooled pool (set_iter p.2) (pe_members_off e) (pe_members_len e).

Lemma push_postings_held l done_ st :
  Forall2 (posting_held st.2) done_ st.1 →
  Forall2 (posting_held (foldl push_posting st l).2) (done_ ++ l) (foldl push_posting st l).1.
Proof.
  revert done_ st. induction l as [|p l IH]; intros done_ st Hst; cbn [foldl]; [by rewrite app_nil_r|].
  rewrite cons_middle, app_assoc. apply IH. unfold push_posting. cbn [fst snd]. apply Forall2_app.
  - eapply Forall2_impl; [exact Hst|]. intros q e [? ?]. split; [done|]. by apply pooled_grow.
  - constructor; [|constructor]. split; [done|]. apply pooled_last.
Qed.

Lemma simple_held m : Forall2 (posting_held (simple_columns m).2) (map_iter m) (simple_columns m).1.
Proof. by apply (push_postings_held _ [] ([], [])). Qed.

Lemma simple_pool m : (simple_columns m).2 = map_iter m ≫= (λ p, set_iter p.2).
Proof.
  unfold simple_columns. assert (∀ l st, (foldl push_posting st l).2 = st.2 ++ (l ≫= λ p, set_iter p.2)) as Hg; [|apply Hg].
  intros l. induction l as [|p l IH]; intros st; cbn [foldl]; [cbn; by rewrite app_nil_r|]. by rewrite IH, bind_cons, app_assoc.
Qed.

Lemma simple_dir_nil m : (simple_columns m).1 = [] → (simple_columns m).2 = [].
Proof.
  intros Hd. pose proof (simple_held m) as Hh. rewrite Hd in Hh. apply Forall2_nil_inv_r in Hh. rewrite simple_pool. by rewrite Hh.
Qed.

Section simple.
Context (m : gmap Z (gset Z)) (dir : list PostingDirEntry) (pool : list Z).
Hypothesis Hheld : Forall2 (posting_held pool) (map_iter m) dir.
Hypothesis Hfit : zlen pool ≤ usize_max.

Lemma simple_dir_ascending : ascending pe_key dir.
Proof using Hheld.
  intros i j x y Hij Hx Hy. destruct (Forall2_lookup_r _ _ _ _ _ Hheld Hx) as (p & Hp & -> & _).
  destruct (Forall2_lookup_r _ _ _ _ _ Hheld Hy) as (q & Hq & -> & _).
  pose proof (map_iter_ascending m) as Hs. rewrite StronglySorted_lookup in Hs. destruct (Hs _ _ _ _ Hij Hp Hq) as [Hle Hne].
  cbn in Hle. lia.
Qed.

Lemma simple_lookup_owned key : simple_lookup dir pool key = Ok (set_iter <$> m !! key).
Proof using Hheld Hfit.
  unfold simple_lookup. destruct (binary_search_by_spec (E := DbError) pe_key key dir simple_dir_ascending)
    as [(i & e & -> & He & Hk)|(p & -> & Hno)]; rewrite bind_Ok.
  - rewrite He. cbn [mbind option_bind]. destruct (Forall2_lookup_r _ _ _ _ _ Hheld He) as ([k S] & Hp & Hk' & Hrun).
    cbn [fst snd] in *. rewrite (pooled_slice _ _ _ _ Hfit Hrun). apply list_elem_of_lookup_2, elem_of_map_iter in Hp.
    assert (k = key) as -> by congruence. by rewrite Hp.
  - destruct (m !! key) as [S|] eqn:HS; [|done]. apply elem_of_map_iter, list_elem_of_lookup in HS as [i Hi].
    destruct (Forall2_lookup_l _ _ _ _ _ Hheld Hi) as (e & He & Hk & _). by destruct (Hno _ _ He).
Qed.

Lemma simple_validated label : validate_simple_dir dir pool label = Ok ().
Proof using Hheld Hfit.
  unfold validate_simple_dir. revert Hheld. generalize (map_iter m). intros l Hl. induction Hl as [|p e l es [_ Hrun] _ IH]; [done|].
  cbn [for_each]. rewrite (pooled_slice _ _ _ _ Hfit Hrun). cbn [ok_or]. by rewrite !bind_Ok.
Qed.

Lemma simple_materialized : materialize_simple dir pool = m.
Proof using Hheld Hfit.
  unfold materialize_simple.
  assert (∀ l es acc, Forall2 (posting_held pool) l es →
    foldl (λ map entry, <[pe_key entry := list_to_set (default [] (slice_pool pool (pe_members_off entry) (pe_members_len entry)))]> map)
      acc es = foldl (λ (acc : gmap Z (gset Z)) p, <[p.1 := p.2]> acc) acc l) as Hg.
  { intros l es acc Hl. revert acc. induction Hl as [|p e l es [Hk Hrun] _ IH]; intros acc; [done|]. cbn [foldl].
    rewrite (pooled_slice _ _ _ _ Hfit Hrun), Hk. change (default [] (Some (set_iter p.2))) with (set_iter p.2).
    rewrite list_to_set_iter. apply IH. }
  rewrite (Hg _ _ _ Hheld). apply map_eq. intros k. rewrite (foldl_entries _ (λ p, Some p.2)); [by destruct (m !! k); rewrite ?lookup_empty|].
  intros acc p k'. rewrite lookup_insert. by repeat case_decide; congruence.
Qed.

End simple.

(** ** The directory of equality postings *)

Notation EqualityPosting := (EqualityKey * gset PropertySubject)%type.

Definition equality_held (pool : list Z) (text : list byte) (p : EqualityPosting) (e : EqualityDirEntry) : Prop :=
  qe_key_id e = p.1.1 ∧ qe_value_tag e = property_type_tag (value_type p.1.2) ∧ qe_reserved e = 0 ∧
  match p.1.2 with
  | PBoolean flag => qe_value_scalar e = (if flag then 1 else 0) ∧ qe_text_off e = 0 ∧ qe_text_len e = 0
  | PInteger number => qe_value_scalar e = cast_unsigned number ∧ qe_text_off e = 0 ∧ qe_text_len e = 0
  | PText string => qe_value_scalar e = 0 ∧ pooled text string (qe_text_off e) (qe_text_len e)
  end ∧
  pooled pool (set_iter p.2 ≫= subject_words) (qe_members_off e) (qe_members_len e).

Lemma equality_held_grow pool text p e more more' :
  equality_held pool text p e → equality_held (pool ++ more) (text ++ more') p e.
Proof.
  intros (? & ? & ? & Hv & Hr). split_and!; [done..| |by apply pooled_grow].
  destruct p.1.2; [done..|]. destruct Hv. split; [done|by apply pooled_grow].
Qed.

Lemma push_equality_held l done_ st :
  Forall2 (equality_held (ep_pool st) (ep_text st)) done_ (ep_dir st) →
  let st' := foldl push_equality st l in Forall2 (equality_held (ep_pool st') (ep_text st')) (done_ ++ l) (ep_dir st').
Proof.
  cbv zeta. revert done_ st. induction l as [|p l IH]; intros done_ st Hst; cbn [foldl]; [by rewrite app_nil_r|].
  rewrite cons_middle, app_assoc. apply IH. destruct p as [[key value] S]. unfold push_equality.
  assert (∃ more, (posting_value (ep_text st) value).1 = ep_text st ++ more) as [more Hmore].
  { destruct value; cbn; [exists []; by rewrite app_nil_r..|by eexists]. }
  assert (equality_held (ep_pool st ++ (set_iter S ≫= subject_words)) (ep_text st ++ more) ((key, value), S)
    {| qe_key_id := key; qe_value_tag := property_type_tag (value_type value); qe_reserved := 0;
       qe_value_scalar := (posting_value (ep_text st) value).2.1; qe_text_off := (posting_value (ep_text st) value).2.2.1;
       qe_text_len := (posting_value (ep_text st) value).2.2.2; qe_members_off := zlen (ep_pool st);
       qe_members_len := zlen (set_iter S ≫= subject_words) |}) as Hnew.
  { split_and!; [done..| |apply pooled_last]. destruct value; cbn; [done..|]. cbn in Hmore. rewrite <-Hmore. split; [done|apply pooled_last]. }
  destruct (posting_value (ep_text st) value) as [text [scalar [off len]]] eqn:Hpv. cbn [fst snd] in *. subst text.
  cbn [ep_dir ep_pool ep_text]. apply Forall2_app; [|by constructor].
  eapply Forall2_impl; [exact Hst|]. intros q e. apply equality_held_grow.
Qed.

Lemma equality_columns_held m :
  Forall2 (equality_held (ep_pool (equality_columns m)) (ep_text (equality_columns m))) (map_iter m) (ep_dir (equality_columns m)).
Proof. by apply (push_equality_held _ [] {| ep_dir := []; ep_pool := []; ep_text := [] |}). Qed.

Lemma equality_pool_runs m : ep_pool (equality_columns m) = map_iter m ≫= (λ p, set_iter p.2 ≫= subject_words).
Proof.
  unfold equality_columns.
  assert (∀ l st, ep_pool (foldl push_equality st l) = ep_pool st ++ (l ≫= λ p, set_iter p.2 ≫= subject_words)) as Hg; [|apply Hg].
  intros l. induction l as [|[[k x] S] l IH]; intros st; cbn [foldl]; [cbn; by rewrite app_nil_r|].
  rewrite IH, bind_cons, app_assoc. f_equal. unfold push_equality. by destruct (posting_value _ _) as [? [? []]].
Qed.

Lemma equality_dir_nil m : ep_dir (equality_columns m) = [] → ep_pool (equality_columns m) = [].
Proof.
  intros Hd. pose proof (equality_columns_held m) as Hh. rewrite Hd in Hh. apply Forall2_nil_inv_r in Hh. rewrite equality_pool_runs. by rewrite Hh.
Qed.

Lemma word_pairs_subjects (l : list PropertySubject) : word_pairs (l ≫= subject_words) = encode_subject <$> l.
Proof. induction l as [|s l IH]; [done|]. rewrite bind_cons. cbn. by rewrite IH, <-surjective_pairing. Qed.

Lemma decode_pair_subject s : decode_pair (encode_subject s) = Some s.
Proof. unfold decode_pair. rewrite try_into_fits by (unfold u32_max; by destruct s). apply subject_codec. Qed.

Lemma decode_pairs_subjects (l : list PropertySubject) : omap decode_pair (encode_subject <$> l) = l.
Proof. induction l as [|s l IH]; [done|]. cbn [fmap list_fmap omap list_omap]. by rewrite decode_pair_subject, IH. Qed.

Section equality.
Context (m : gmap EqualityKey (gset PropertySubject)) (b : BorrowedBaseIndex).
Hypothesis Hheld : Forall2 (equality_held (equality_pool b) (equality_text b)) (map_iter m) (equality_dir b).
Hypothesis Hpool : zlen (equality_pool b) ≤ usize_max.
Hypothesis Htext : zlen (equality_text b) ≤ usize_max.
Hypothesis Hvalues : ∀ k S, m !! k = Some S → value_wf k.2.

Lemma held_key p e : p ∈ map_iter m → equality_held (equality_pool b) (equality_text b) p e →
  equality_entry_key e (equality_text b) = Ok p.1.
Proof using Htext Hvalues.
  destruct p as [[k value] S]. intros Hwf%elem_of_map_iter%Hvalues (Hk & Ht & _ & Hv & _). cbn [fst snd] in *.
  unfold equality_entry_key. rewrite Ht, type_tag_codec. cbn [ok_or]. rewrite bind_Ok, Hk. destruct value as [flag|z|string]; cbn [value_type].
  - destruct Hv as [-> _]. by destruct flag.
  - destruct Hv as [-> _]. cbn [mbind res_bind]. by rewrite cast_roundtrip.
  - destruct Hv as [_ Hp]. pose proof (pooled_slice _ _ _ _ Htext Hp) as Hs. unfold slice_pool in Hs.
    apply bind_Some in Hs as (st & Hst & (ln & Hln & (e' & He' & Hg)%bind_Some)%bind_Some).
    rewrite Hst, Hln. cbn [ok_or mbind res_bind]. rewrite He'. cbn [ok_or mbind res_bind]. rewrite Hg. cbn [ok_or mbind res_bind].
    cbn [value_wf] in Hwf. by rewrite Hwf.
Qed.

Lemma held_subjects p e : equality_held (equality_pool b) (equality_text b) p e → decode_subjects b e = set_iter p.2.
Proof using Hpool.
  intros (_ & _ & _ & _ & Hr). unfold decode_subjects. rewrite (pooled_slice _ _ _ _ Hpool Hr).
  change (default [] (Some ?l)) with l. by rewrite word_pairs_subjects, decode_pairs_subjects.
Qed.

(** *** Validation and the owned form *)

Lemma subject_pairs_valid l : for_each (λ _ p, validate_pair p) (encode_subject <$> l) () = Ok ().
Proof using.
  assert (∀ x, validate_pair (encode_subject x) = Ok ()) as Hx.
  { intros x. unfold validate_pair. rewrite try_into_fits by (unfold u32_max; by destruct x). cbn [ok_or].
    by rewrite bind_Ok, subject_codec. }
  induction l as [|x l IH]; [done|]. cbn [fmap list_fmap for_each]. by rewrite Hx, bind_Ok.
Qed.

Lemma equality_validated : validate_equality_dir (equality_dir b) (equality_pool b) (equality_text b) = Ok ().
Proof using Hheld Hpool Htext Hvalues.
  unfold validate_equality_dir.
  assert (∀ l es, (∀ p, p ∈ l → p ∈ map_iter m) → Forall2 (equality_held (equality_pool b) (equality_text b)) l es →
    for_each (λ _ entry, _ ← equality_entry_key entry (equality_text b);
      run ← ok_or (invalid_store "equality posting run out of bounds")
              (slice_pool (equality_pool b) (qe_members_off entry) (qe_members_len entry));
      if decide (zlen run mod 2 ≠ 0)
      then Err (invalid_store "equality posting subject run is not a whole number of (kind, id) pairs")
      else for_each (λ _ p, validate_pair p) (word_pairs run) ()) es () = Ok ()) as Hg; [|by apply (Hg _ _ (λ _ H, H))].
  intros l es Hin Hl. induction Hl as [|p e l es Hp _ IH]; [done|]. cbn [for_each].
  rewrite (held_key p e) by (done || apply Hin; by left). rewrite bind_Ok. destruct Hp as (_ & _ & _ & _ & Hr).
  rewrite (pooled_slice _ _ _ _ Hpool Hr). cbn [ok_or]. rewrite bind_Ok.
  assert (zlen (set_iter p.2 ≫= subject_words) = 2 * zlen (set_iter p.2)) as Hlen.
  { unfold zlen. generalize (set_iter p.2). intros k. induction k as [|x k IHk]; [done|]. rewrite bind_cons, length_app. cbn. lia. }
  rewrite Hlen, Z.mul_comm, Z.mod_mul, decide_False by (done || lia). rewrite word_pairs_subjects, subject_pairs_valid, bind_Ok.
  apply IH. intros q Hq. apply Hin. by right.
Qed.

Lemma equality_materialized : materialize_equality b = m.
Proof using Hheld Hpool Htext Hvalues.
  unfold materialize_equality.
  assert (∀ l es acc, (∀ p, p ∈ l → p ∈ map_iter m) → Forall2 (equality_held (equality_pool b) (equality_text b)) l es →
    foldl (λ map entry, match equality_entry_key entry (equality_text b) with
      | Ok key => <[key := list_to_set (decode_subjects b entry)]> map | _ => map end) acc es =
    foldl (λ (acc : gmap EqualityKey (gset PropertySubject)) p, <[p.1 := p.2]> acc) acc l) as Hg.
  { intros l es acc Hin Hl. revert acc. induction Hl as [|p e l es Hp _ IH]; intros acc; [done|]. cbn [foldl].
    rewrite (held_key p e) by (done || apply Hin; by left). rewrite (held_subjects p e Hp), list_to_set_iter.
    apply IH. intros q Hq. apply Hin. by right. }
  rewrite (Hg _ _ _ (λ _ H, H) Hheld). apply map_eq. intros k. rewrite (foldl_entries _ (λ p, Some p.2)); [by destruct (m !! k); rewrite ?lookup_empty|].
  intros acc p k'. rewrite lookup_insert. by repeat case_decide; congruence.
Qed.

(** *** Point lookups *)

Lemma held_at i e : equality_dir b !! i = Some e →
  ∃ p, map_iter m !! i = Some p ∧ equality_entry_key e (equality_text b) = Ok p.1 ∧ decode_subjects b e = set_iter p.2 ∧ qe_key_id e = p.1.1.
Proof using Hheld Hpool Htext Hvalues.
  intros He. destruct (Forall2_lookup_r _ _ _ _ _ Hheld He) as (p & Hp & Hh). exists p.
  split_and!; [done|apply (held_key p e); [by eapply list_elem_of_lookup_2|done]|by apply held_subjects|apply Hh].
Qed.

Lemma key_cmp_eq (x y : EqualityKey) : key_cmp x y = Eq ↔ x = y.
Proof using. unfold key_cmp. repeat case_decide; done. Qed.
Lemma key_cmp_lt (x y : EqualityKey) : key_cmp x y = Lt ↔ key_lt x y.
Proof using. unfold key_cmp. repeat case_decide; subst; split; try done. by intros ?%key_lt_irrefl. Qed.
Lemma key_cmp_gt (x y : EqualityKey) : key_cmp x y = Gt ↔ key_lt y x.
Proof using.
  unfold key_cmp. repeat case_decide; subst; split; try done; intros Hl.
  - by apply key_lt_irrefl in Hl.
  - destruct (key_lt_irrefl x). by eapply key_lt_trans.
  - by destruct (key_lt_cases x y) as [?|[?|?]].
Qed.

Definition slot_key (i : nat) : option EqualityKey := fst <$> map_iter m !! i.

Lemma slot_keys_ascending i j x y : (i < j)%nat → slot_key i = Some x → slot_key j = Some y → key_lt x y.
Proof using.
  intros Hij (p & Hp & ->)%fmap_Some (q & Hq & ->)%fmap_Some. pose proof (map_iter_ascending m) as Hs.
  rewrite StronglySorted_lookup in Hs. by apply (Hs i j).
Qed.

Lemma slot_some i : (i < length (equality_dir b))%nat → ∃ x, slot_key i = Some x.
Proof using Hheld.
  rewrite <-(Forall2_length _ _ _ Hheld). intros [p Hp]%lookup_lt_is_Some_2. exists p.1. unfold slot_key. by rewrite Hp.
Qed.

Lemma equality_subjects_owned key value :
  equality_subjects (BorrowedIndex b) key value = Ok (set_iter <$> m !! (key, value)).
Proof using Hheld Hpool Htext Hvalues.
  unfold equality_subjects.
  set (cls i := match slot_key i with Some x => key_cmp x (key, value) | None => Gt end).
  destruct (binary_search_by_cut (E := DbError) (λ entry, Ok (match equality_entry_key entry (equality_text b) with
    | Ok candidate => key_cmp candidate (key, value) | _ => Lt end)) (equality_dir b) cls) as (r & -> & Hr).
  - intros i e He. destruct (held_at i e He) as (p & Hp & -> & _). unfold cls, slot_key. by rewrite Hp.
  - intros i j [Hij Hj]. destruct (slot_some j Hj) as [y Hy], (slot_some i ltac:(lia)) as [x Hx]. unfold cls. rewrite Hx, Hy, !key_cmp_lt.
    intros Hl. destruct (decide (i = j)) as [->|]; [congruence|]. eapply key_lt_trans; [|exact Hl]. eapply (slot_keys_ascending i j); (done || lia).
  - intros i j [Hij Hj]. destruct (slot_some j Hj) as [y Hy], (slot_some i ltac:(lia)) as [x Hx]. unfold cls. rewrite Hx, Hy, !key_cmp_gt.
    intros Hl. destruct (decide (i = j)) as [->|]; [congruence|]. eapply key_lt_trans; [exact Hl|]. eapply (slot_keys_ascending i j); (done || lia).
  - rewrite bind_Ok. destruct r as [i|p]; f_equal.
    + destruct Hr as [Hi Hc]. destruct (lookup_lt_is_Some_2 _ _ Hi) as [e He]. rewrite He. cbn [mbind option_bind].
      destruct (held_at i e He) as (q & Hq & _ & -> & _). unfold cls, slot_key in Hc. rewrite Hq in Hc. cbn in Hc.
      apply key_cmp_eq in Hc. apply list_elem_of_lookup_2 in Hq. destruct q as [k S]. cbn in *. subst k.
      apply elem_of_map_iter in Hq. by rewrite Hq.
    + destruct (m !! (key, value)) as [S|] eqn:HS; [|done]. apply elem_of_map_iter, list_elem_of_lookup in HS as [i Hi].
      destruct Hr as (_ & Hlo & Hhi). assert (cls i = Eq) as Hc by (unfold cls, slot_key; rewrite Hi; by apply key_cmp_eq).
      assert (i < length (equality_dir b))%nat by (rewrite <-(Forall2_length _ _ _ Hheld); by eapply lookup_lt_Some).
      destruct (decide (i < p)%nat); [rewrite Hlo in Hc by done|rewrite Hhi in Hc by lia]; done.
Qed.

(** *** Scans *)

Definition in_scan (key : Z) (bounds : option (PropertyValue * PropertyValue)) (p : EqualityPosting) : Prop :=
  p.1.1 = key ∧ match bounds with Some (min, max) => key_le min p.1.2 ∧ key_le p.1.2 max | None => True end.
#[local] Instance in_scan_dec key bounds p : Decision (in_scan key bounds p).
Proof. unfold in_scan. destruct bounds as [[]|]; apply _. Defined.

Lemma filter_none {A} (P : A → Prop) `{!∀ x, Decision (P x)} l : (∀ x, x ∈ l → ¬ P x) → filter P l = [].
Proof using.
  induction l as [|x l IH]; intros Hn; [done|]. rewrite filter_cons, decide_False by (apply Hn; by left).
  apply IH. intros y Hy. apply Hn. by right.
Qed.

Lemma scan_filter key bounds l es :
  (∀ p, p ∈ l → p ∈ map_iter m) → Forall2 (equality_held (equality_pool b) (equality_text b)) l es →
  StronglySorted (λ p q, key_lt p.1 q.1) l → (∀ p, p ∈ l → key ≤ p.1.1) →
  scan_postings b key bounds es = (λ p, (p.1, set_iter p.2)) <$> filter (in_scan key bounds) l.
Proof using Hpool Htext Hvalues.
  intros Hin Hl. induction Hl as [|p e l es Hp Hl IH]; intros Hs Hlow; [done|].
  apply StronglySorted_inv in Hs as [Hs Hgt]. rewrite Forall_forall in Hgt. cbn [scan_postings].
  assert (qe_key_id e = p.1.1) as Hk by apply Hp. rewrite Hk.
  assert (scan_postings b key bounds es = (λ p, (p.1, set_iter p.2)) <$> filter (in_scan key bounds) l) as Hrest.
  { apply IH; [intros q Hq; apply Hin; by right|done|intros q Hq; apply Hlow; by right]. }
  case_decide as Hne.
  { rewrite filter_none; [done|]. intros q Hq [Hqk _]. pose proof (Hlow p ltac:(by left)).
    apply elem_of_cons in Hq as [->|Hq]; [done|]. pose proof (Hgt q Hq) as [Hle _]. destruct p as [[kp vp] Sp], q as [[kq vq] Sq].
    cbn [fst snd] in *. rewrite equality_key_le in Hle. lia. }
  assert (p.1.1 = key) as Hkey by (by destruct (decide (p.1.1 = key))).
  rewrite (held_key p e) by (done || apply Hin; by left). destruct p as [[kp vp] Sp]. cbn [fst snd] in *. subst kp.
  rewrite filter_cons, Hrest, (held_subjects _ _ Hp). cbn [snd]. destruct bounds as [[min max]|].
  - case_decide as Hmin.
    { rewrite decide_False; [done|]. intros [_ [Hle _]]. cbn [fst snd] in Hle. by apply key_nlt in Hle. }
    apply key_nlt in Hmin. case_decide as Hmax.
    + rewrite decide_False by (intros [_ [_ Hle]]; cbn [fst snd] in Hle; by apply key_nlt in Hle). rewrite filter_none; [done|].
      intros q Hq [Hqk [_ Hle]]. destruct (Hgt q Hq) as [Hpq _]. destruct q as [[kq vq] Sq]. cbn [fst snd] in *. subst kq.
      apply equality_key_le in Hpq as [?|[_ Hpq]]; [lia|]. apply key_nlt in Hle. destruct Hle.
      destruct Hmax as [H1 H2]. split; [by etrans|]. intros ->. apply H2. by apply (anti_symm key_le).
    + apply key_nlt in Hmax. by rewrite decide_True.
  - by rewrite decide_True.
Qed.

(** The walk from the lower bound of a key passes over nothing of it. *)
Lemma scan_from_lower_bound key bounds :
  ('(start : nat) ← key_lower_bound b key; Ok (scan_postings b key bounds (drop start (equality_dir b)))) =
  Ok (E := DbError) ((λ p, (p.1, set_iter p.2)) <$> filter (in_scan key bounds) (map_iter m)).
Proof using Hheld Hpool Htext Hvalues.
  unfold key_lower_bound, partition_point.
  set (cls i := match slot_key i with Some x => if decide (x.1 < key) then Lt else Gt | None => Gt end).
  assert (∀ i j x y, (i ≤ j)%nat → slot_key i = Some x → slot_key j = Some y → x.1 ≤ y.1) as Hmono.
  { intros i j [kx vx] [ky vy] Hij Hx Hy. cbn. destruct (decide (i = j)) as [->|]; [rewrite Hx in Hy; by injection Hy as -> _|].
    destruct (slot_keys_ascending i j (kx, vx) (ky, vy)) as [Hle _]; [lia|done..|]. apply equality_key_le in Hle. lia. }
  destruct (binary_search_by_cut (E := DbError) (λ entry, Ok (if bool_decide (qe_key_id entry < key) then Lt else Gt)) (equality_dir b) cls)
    as (r & -> & Hr).
  - intros i e He. destruct (held_at i e He) as (p & Hp & _ & _ & ->). unfold cls, slot_key. rewrite Hp. cbn.
    by repeat case_decide; repeat case_bool_decide.
  - intros i j [Hij Hj]. destruct (slot_some j Hj) as [y Hy], (slot_some i ltac:(lia)) as [x Hx]. unfold cls. rewrite Hx, Hy.
    pose proof (Hmono i j x y Hij Hx Hy). by repeat case_decide; try done; lia.
  - intros i j [Hij Hj]. destruct (slot_some j Hj) as [y Hy], (slot_some i ltac:(lia)) as [x Hx]. unfold cls. rewrite Hx, Hy.
    pose proof (Hmono i j x y Hij Hx Hy). by repeat case_decide; try done; lia.
  - rewrite !bind_Ok. destruct r as [i|n].
    { destruct Hr as [_ Hc]. unfold cls in Hc. repeat case_match; done. }
    destruct Hr as (Hn & Hlo & Hhi). f_equal. rewrite <-(take_drop n (map_iter m)) at 1. rewrite filter_app.
    rewrite (filter_none _ (take n (map_iter m))); cbn [app].
    + apply scan_filter.
      * intros p Hp. rewrite <-(take_drop n (map_iter m)). apply elem_of_app. by right.
      * by apply Forall2_drop.
      * pose proof (map_iter_ascending m) as Hs. rewrite <-(take_drop n (map_iter m)) in Hs. by apply StronglySorted_app in Hs as (_ & _ & ?).
      * intros p [i Hi]%list_elem_of_lookup. rewrite lookup_drop in Hi. pose proof (lookup_lt_Some _ _ _ Hi) as Hlt.
        rewrite (Forall2_length _ _ _ Hheld) in Hlt. specialize (Hhi (n + i)%nat ltac:(lia)). unfold cls, slot_key in Hhi.
        rewrite Hi in Hhi. cbn in Hhi. case_decide; [done|lia].
    + intros p [i Hi]%list_elem_of_lookup [Hk _]. apply lookup_take_Some in Hi as [Hi Hlt]. specialize (Hlo i Hlt). unfold cls, slot_key in Hlo.
      rewrite Hi in Hlo. cbn in Hlo. case_decide; [lia|done].
Qed.

Lemma range_postings_owned o key min max :
  property_equality o = m →
  base_range_postings (BorrowedIndex b) key min max = base_range_postings (OwnedIndex o) key min max.
Proof using Hheld Hpool Htext Hvalues.
  intros Ho. unfold base_range_postings, range_postings. rewrite Ho. case_decide as Hmm; [done|].
  unfold borrowed_range_postings. rewrite scan_from_lower_bound. do 2 f_equal. unfold range_between. apply list_filter_iff.
  intros [[k v] S]. unfold in_scan. cbn [fst snd]. rewrite !equality_key_le. apply key_nlt in Hmm. split; [naive_solver|].
  intros [[?|[-> ?]] [?|[? ?]]]; try lia; done.
Qed.

Lemma key_postings_owned o key :
  property_equality o = m → base_key_postings (BorrowedIndex b) key = base_key_postings (OwnedIndex o) key.
Proof using Hheld Hpool Htext Hvalues.
  intros Ho. unfold base_key_postings, borrowed_key_postings, key_postings. rewrite Ho.
  pose proof (scan_from_lower_bound key None) as Hs. apply bind_Ok_inv in Hs as (start & -> & Hs). apply Ok_inj in Hs. rewrite bind_Ok, Hs.
  f_equal. rewrite <-!list_fmap_compose.
  assert (filter (in_scan key None) (map_iter m) = take_while (λ p, p.1.1 = key) (range_from (m) (key, PBoolean false))) as ->; [|done].
  apply (ascending_unique fst).
  - apply sorted_filter, map_iter_ascending.
  - assert (∀ (Q : EqualityPosting → Prop) `{!∀ x, Decision (Q x)} l, StronglySorted (λ p q : EqualityPosting, key_lt p.1 q.1) l →
      StronglySorted (λ p q : EqualityPosting, key_lt p.1 q.1) (take_while Q l)) as Htw; [|apply Htw, sorted_filter, map_iter_ascending].
    intros Q HQ l. induction 1 as [|x l Hl IH Hx]; [constructor|]. cbn. case_decide; [|constructor]. constructor; [done|].
    rewrite Forall_forall in *. intros y Hy. apply Hx. clear -Hy. induction l as [|z l IH]; [done|]. cbn in Hy.
    case_decide; [|by apply not_elem_of_nil in Hy]. apply elem_of_cons in Hy as [->|Hy]; [by left|right; by apply IH].
  - intros p. rewrite list_elem_of_filter, elem_of_key_entries. unfold in_scan. destruct p as [k S]. rewrite elem_of_map_iter. naive_solver.
Qed.
End equality.
End borrowed.

(** ** A written index *)

(** The pools are no longer than a slice can be, and the indexed values are values. *)
Record PostingsFit `{Target} (ix : OwnedBaseIndex) : Prop := {
  pf_labels : zlen (simple_columns (label_members ix)).2 ≤ usize_max;
  pf_types : zlen (simple_columns (relation_type_members ix)).2 ≤ usize_max;
  pf_elements : zlen (simple_columns (base_element_incidences ix)).2 ≤ usize_max;
  pf_relations : zlen (simple_columns (base_relation_incidences ix)).2 ≤ usize_max;
  pf_equality : zlen (ep_pool (equality_columns (property_equality ix))) ≤ usize_max;
  pf_text : zlen (ep_text (equality_columns (property_equality ix))) ≤ usize_max;
  pf_values k S : property_equality ix !! k = Some S → value_wf k.2
}.

(** What a lookup lists. *)
Definition members (r : res DbError (option Posting)) : res DbError (option (list Z)) :=
  '(p : option Posting) ← r; Ok (posting_iter <$> p).

Section written.
Context `{!Target} (ix : OwnedBaseIndex) (Hfit : PostingsFit ix).

Lemma written_valid : from_sections (index_contents ix) = Ok (index_contents ix).
Proof using Hfit.
  destruct Hfit. unfold from_sections. cbn [index_contents label_dir label_pool relation_type_dir relation_type_pool
    element_incidence_dir element_incidence_pool relation_incidence_dir relation_incidence_pool].
  do 4 (erewrite simple_validated by (apply simple_held || done); rewrite bind_Ok).
  by erewrite equality_validated by (apply equality_columns_held || done).
Qed.

Lemma written_owned : to_owned_snapshot (index_contents ix) = ix.
Proof using Hfit.
  destruct Hfit. unfold to_owned_snapshot. cbn [index_contents label_dir label_pool relation_type_dir relation_type_pool
    element_incidence_dir element_incidence_pool relation_incidence_dir relation_incidence_pool].
  do 4 (erewrite simple_materialized by (apply simple_held || done)).
  erewrite equality_materialized by (apply equality_columns_held || done). by destruct ix.
Qed.

Lemma written_posting owned dir pool key :
  dir (index_contents ix) = (simple_columns (owned ix)).1 → pool (index_contents ix) = (simple_columns (owned ix)).2 →
  zlen (simple_columns (owned ix)).2 ≤ usize_max →
  members (base_posting owned dir pool (BorrowedIndex (index_contents ix)) key) =
  members (base_posting owned dir pool (OwnedIndex ix) key).
Proof using.
  intros Hd Hp Hl. unfold members, base_posting. rewrite Hd, Hp, (simple_lookup_owned _ _ _ (simple_held (owned ix)) Hl), !bind_Ok.
  by destruct (owned ix !! key).
Qed.

End written.

(** C23. Borrowed postings answer like owned ones. Whatever index a freeze writes,
    its directories and pools pass the validation of a bind and materialize to
    the index itself; and the five lookups and the two scans of [BaseIndex],
    by bisection and a walk over the borrowed form, return the members, in the
    same order, that the owned maps hold: in particular no lookup panics. *)
Theorem borrowed_answers_as_owned `{Target} ix :
  PostingsFit ix →
  let b := index_contents ix in
  let same (posting : BaseIndex → Z → res DbError (option Posting)) := ∀ key,
    members (posting (BorrowedIndex b) key) = members (posting (OwnedIndex ix) key) in
  from_sections b = Ok b ∧ to_owned_snapshot b = ix ∧
  same label_posting ∧ same relation_type_posting ∧ same element_incidence_posting ∧ same relation_incidence_posting ∧
  (∀ key value, equality_subjects (BorrowedIndex b) key value = equality_subjects (OwnedIndex ix) key value) ∧
  (∀ key min max, base_range_postings (BorrowedIndex b) key min max = base_range_postings (OwnedIndex ix) key min max) ∧
  ∀ key, base_key_postings (BorrowedIndex b) key = base_key_postings (OwnedIndex ix) key.
Proof.
  intros Hfit b same. pose proof Hfit as [].
  split; [by apply written_valid|]. split; [by apply written_owned|].
  do 4 (split; [intros key; by apply (written_posting ix)|]). split_and!; intros.
  - erewrite equality_subjects_owned by (apply equality_columns_held || done). done.
  - by eapply range_postings_owned; [apply equality_columns_held|..].
  - by eapply key_postings_owned; [apply equality_columns_held|..].
Qed.

Definition demo_postings : OwnedBaseIndex := {|
  label_members := {[1 := {[7; 3]}; 4 := {[3]}]}; relation_type_members := {[2 := {[9]}]};
  property_equality := {[(5, PText [Byte.x61]) := {[SElement 3]}; (5, PInteger (-2)) := {[SElement 7; SRelation 9]}]};
  base_element_incidences := ∅; base_relation_incidences := ∅ |}.

Lemma demo_postings_fit : @PostingsFit target64 demo_postings.
Proof.
  split; [vm_compute; discriminate..|]. intros k S Hk. cbn [property_equality demo_postings] in Hk.
  rewrite insert_empty, lookup_insert_Some, lookup_singleton_Some in Hk || rewrite lookup_insert_Some, lookup_singleton_Some in Hk.
  destruct Hk as [[<- _]|[_ [<- _]]]; vm_compute; [reflexivity|split; [discriminate|reflexivity]].
Qed.

Lemma borrowed_answers_as_owned_witness :
  let b := index_contents demo_postings in
  label_pool b = [3; 7; 3] ∧ equality_pool b = [0; 7; 1; 9; 0; 3] ∧
  @base_range_postings target64 (BorrowedIndex b) 5 (PInteger (-9)) (PInteger 9) =
    @base_range_postings target64 (OwnedIndex demo_postings) 5 (PInteger (-9)) (PInteger 9).
Proof.
  split; [vm_compute; reflexivity|]. split; [vm_compute; reflexivity|].
  exact (proj1 (proj2 (proj2 (proj2 (proj2 (proj2 (proj2 (proj2 (@borrowed_answers_as_owned target64 demo_postings demo_postings_fit)))))))) 5 _ _).
Defined.
