(* ===== verification/BaseRoundTrip.v ===== *)
(** * BaseRoundTrip: a frozen store reopens

    The state of a published view, frozen into a base file and opened from it at
    any address, is the same store: the same records, properties, catalog and
    allocators, over postings rebuilt in full, ready for the next transactions. *)

From Stdlib Require Import String.
From stdpp Require Import base gmap sets list strings sorting.
From S2P Require Import Prelude Bytes Ordered Layout Crc Snapshot SnapshotFacts SnapshotWrite SnapshotWriteFacts DbError DbWire DbState OverlayIndex Overlay OverlayReplay Merge MergeFacts IndexFacts DbWriter Store WriterRefines StoreFacts WriterFacts BaseWire BaseFile Search BorrowedIndex BaseView BaseFileFacts BaseViewFacts BorrowedFacts.

Local Open Scope Z_scope.

(** ** Rebuilding a map from its records *)

Lemma foldl_ext_in {A B} (f g : B → A → B) b l : (∀ b a, a ∈ l → f b a = g b a) → foldl f b l = foldl g b l.
Proof.
  revert b. induction l as [|a l IH]; intros b H; [done|]. cbn. rewrite H by by left. apply IH. intros; apply H. by right.
Qed.

Lemma foldl_map_iter `{KeyOrder K, !Countable K} {V} (m : gmap K V) : foldl (λ acc p, <[p.1 := p.2]> acc) ∅ (map_iter m) = m.
Proof.
  apply map_eq. intros k. rewrite (foldl_entries _ (λ p, Some p.2)); [by destruct (m !! k); rewrite ?lookup_empty|].
  intros acc p k'. rewrite lookup_insert. by repeat case_decide; congruence.
Qed.

Lemma for_each_pure {A B S} (f : S → B → res DbError S) (g : S → A → S) (R : A → B → Prop) l bs s :
  Forall2 R l bs → (∀ s a b, a ∈ l → R a b → f s b = Ok (g s a)) → for_each f bs s = Ok (foldl g s l).
Proof.
  intros Hall. revert s. induction Hall as [|a b l bs Hab _ IH]; intros s Hf; [done|]. cbn [for_each foldl].
  rewrite (Hf s a b) by (done || by left). rewrite bind_Ok. apply IH. intros; apply Hf; [by right|done].
Qed.

Lemma rebuild_map {R B} (id : R → Z) (m : gmap Z R) (Q : R → B → Prop) (f : gmap Z R → B → res DbError (gmap Z R)) bs :
  (∀ k r, m !! k = Some r → id r = k) → Forall2 Q (snd <$> map_iter m) bs →
  (∀ acc r w, r ∈ snd <$> map_iter m → Q r w → f acc w = Ok (<[id r := r]> acc)) → for_each f bs ∅ = Ok m.
Proof.
  intros Hid Hall Hf. rewrite (for_each_pure f (λ acc r, <[id r := r]> acc) Q _ _ _ Hall Hf). f_equal.
  rewrite <-(foldl_map_iter m) at 2. rewrite foldl_fmap. apply foldl_ext_in. intros acc [k r] Hin%elem_of_map_iter. cbn.
  by rewrite (Hid _ _ Hin).
Qed.

(** Grouping the rows of a property map gives the nested map back. *)
Lemma grouped_flat (P : gmap (PropertySubject * Z) PropertyValue) : flat (foldl group_property ∅ (map_iter P)) = P.
Proof.
  rewrite <-(foldl_map_iter P) at 2.
  assert (∀ l (g : Properties) acc, flat g = acc → flat (foldl group_property g l) = foldl (λ acc p, <[p.1 := p.2]> acc) acc l) as Hg.
  { intros l. induction l as [|[[s k] x] l IH]; intros g acc He; [done|]. cbn [foldl]. apply IH. subst acc.
    apply map_eq. intros [s' k']. rewrite lookup_flat. unfold group_property. cbn [fst snd]. rewrite lookup_insert.
    case_decide as Hs; [subst s'|].
    - cbn [mbind option_bind]. rewrite lookup_insert. case_decide as Hk; [subst k'; by rewrite lookup_insert_eq|].
      rewrite lookup_insert_ne by congruence. rewrite lookup_flat. by destruct (g !! s).
    - rewrite lookup_insert_ne by congruence. by rewrite lookup_flat. }
  apply Hg. apply map_eq. intros [s k]. by rewrite lookup_flat, !lookup_empty.
Qed.

(** ** Values of their types *)

Record StoreTyped (st : Store) : Prop := {
  ty_next : words_wf (next_words (st_next st));
  ty_element id r : st_elements st !! id = Some r → is_uint 64 id ∧ ∀ l, l ∈ el_labels r → is_uint 64 l;
  ty_relation id r : st_relations st !! id = Some r →
    is_uint 64 id ∧ (∀ t, rel_type r = Some t → is_uint 64 t ∧ t ≠ RELATION_TYPE_NONE) ∧ ∀ l, l ∈ rel_labels r → is_uint 64 l;
  ty_incidence id x : st_incidences st !! id = Some x → words_wf [inc_id x; inc_relation x; inc_element x; inc_role x];
  ty_property s k value : st_properties st !! (s, k) = Some value → words_wf [subject_id s; k] ∧ value_wf value;
  ty_catalog : CatalogTyped (st_catalog st)
}.

(** What a freeze derives of a store: the runs of its tables and its postings. *)
Definition element_runs (st : Store) : list Z := concat ((λ r, set_iter (el_labels r)) <$> values_of (st_elements st)).
Definition relation_runs (st : Store) : list Z := concat ((λ r, set_iter (rel_labels r)) <$> values_of (st_relations st)).
Definition text_run (t : PropertyTriple) : list byte := match t.2 with PText s => s | _ => [] end.
Definition text_runs (st : Store) : list byte := concat (text_run <$> map_iter (st_properties st)).
Definition store_index (st : Store) : OwnedBaseIndex := {|
  label_members := postings_of (label_pairs (values_of (st_elements st)));
  relation_type_members := postings_of (type_pairs (values_of (st_relations st)));
  property_equality := postings_of (equality_pairs (map_iter (st_properties st)));
  base_element_incidences := postings_of (incidence_pairs inc_element (values_of (st_incidences st)));
  base_relation_incidences := postings_of (incidence_pairs inc_relation (values_of (st_incidences st)))
|}.

(** Bytes of the columns. *)
Definition catalog_bytes (c : Catalog) : Z :=
  16 * (Z.of_nat (size (roles c)) + Z.of_nat (size (labels c)) + Z.of_nat (size (relation_types c))) +
  24 * Z.of_nat (size (property_keys c)) + 28 * (Z.of_nat (size (projections c)) + Z.of_nat (size (indexes c))) +
  8 * zlen (catalog_defs c) + zlen (catalog_names c).
Definition record_bytes (st : Store) : Z :=
  16 * Z.of_nat (size (st_elements st)) + 8 * zlen (element_runs st) + 24 * Z.of_nat (size (st_relations st)) +
  8 * zlen (relation_runs st) + 32 * Z.of_nat (size (st_incidences st)) + 40 * Z.of_nat (size (st_properties st)) +
  zlen (text_runs st).
Definition posting_bytes (ix : OwnedBaseIndex) : Z := zlen (concat (p_payload <$> index_columns (index_contents ix))).

(** The tables of a store are in the reach of their offsets, and the file in that
    of memory: its header, its table of sections, its columns and their padding. *)
Record FreezeFits `{Target} (st : Store) : Prop := {
  ff_names : zlen (catalog_names (st_catalog st)) ≤ u32_max;
  ff_defs : zlen (catalog_defs (st_catalog st)) ≤ u32_max;
  ff_element_labels : zlen (element_runs st) ≤ u32_max;
  ff_relation_labels : zlen (relation_runs st) ≤ u32_max;
  ff_text : zlen (text_runs st) ≤ u32_max;
  ff_file : 32 + 22 * (32 + 7) + 104 + catalog_bytes (st_catalog st) + record_bytes st + posting_bytes (store_index st) ≤ isize_max
}.

Section records.
Context `{!Target} (st : Store).
Hypothesis Hwf : StoreWf st.
Hypothesis Hty : StoreTyped st.
Hypothesis Hfit : FreezeFits st.

Lemma tables_usize {A} (table : list A) : zlen table ≤ catalog_bytes (st_catalog st) + record_bytes st → zlen table ≤ usize_max.
Proof using Hfit.
  intros Hle. pose proof (ff_file _ Hfit) as Hf. pose proof isize_usize_max. unfold posting_bytes in Hf.
  match type of Hf with _ + zlen ?l ≤ _ => pose proof (zlen_nonneg l) end. lia.
Qed.

Lemma record_bytes_tables :
  0 ≤ zlen (element_runs st) ∧ 0 ≤ zlen (relation_runs st) ∧ 0 ≤ zlen (text_runs st) ∧
  0 ≤ zlen (catalog_names (st_catalog st)) ∧ 0 ≤ zlen (catalog_defs (st_catalog st)).
Proof using. split_and!; apply zlen_nonneg. Qed.

Lemma length_values {D} (m : gmap Z D) : length (values_of m) = size m.
Proof using. unfold values_of, map_iter. by rewrite length_fmap, merge_sort_Permutation, length_map_to_list. Qed.

Lemma elem_of_values_of {D} (m : gmap Z D) d : d ∈ values_of m → ∃ k, m !! k = Some d.
Proof using. intros ([k d'] & -> & Hin%elem_of_map_iter)%list_elem_of_fmap. eauto. Qed.

Lemma elements_frozen :
  ∃ bs, push_each element_wire (values_of (st_elements st)) [] = Ok (element_runs st, bs) ∧ Forall wire_fits bs ∧
    length bs = size (st_elements st) ∧
    ∀ v, bv_element_labels v = element_runs st → for_each (decode_element v) bs ∅ = Ok (st_elements st).
Proof using Hwf Hty Hfit.
  assert (zlen (element_runs st) ≤ usize_max) as Hus.
  { apply tables_usize. pose proof record_bytes_tables. unfold catalog_bytes, record_bytes. lia. }
  destruct (push_runs element_wire (λ r, set_iter (el_labels r)) (λ r p, {| ew_id := el_id r; ew_label_off := p.1; ew_label_len := p.2 |})
    (values_of (st_elements st)) []) as (bs & Hbs & Hall);
    [intros; unfold element_wire; by destruct (append_run _ _) as [[? []]| | |]|apply (ff_element_labels _ Hfit)|].
  change ([] ++ _) with (element_runs st) in Hbs, Hall. exists bs. split; [done|]. split; [|split].
  - apply Forall_forall. intros w [i Hi]%list_elem_of_lookup.
    destruct (Forall2_lookup_r _ _ _ _ _ Hall Hi) as (r & Hr%list_elem_of_lookup_2%elem_of_values_of & p & -> & P1 & P2 & _).
    destruct Hr as [k Hk]. pose proof (proj1 (ty_element _ Hty _ _ Hk)) as Hid. rewrite <-(proj1 (wf_element _ Hwf _ _ Hk)) in Hid. fit_row.
  - by rewrite <-(Forall2_length _ _ _ Hall), length_values.
  - intros v Hv. apply (rebuild_map el_id (st_elements st) _ _ _ (λ k r Hk, proj1 (wf_element _ Hwf k r Hk)) Hall).
    intros acc r w _ (p & -> & Hp). unfold decode_element. cbn [ew_id ew_label_off ew_label_len]. rewrite Hv, (placed_read _ _ _ Hus Hp).
    unfold decode_labels. cbn [ok_or mbind res_bind]. rewrite list_to_set_iter. by destruct r.
Qed.

Lemma relations_frozen :
  ∃ bs, push_each relation_wire (values_of (st_relations st)) [] = Ok (relation_runs st, bs) ∧ Forall wire_fits bs ∧
    length bs = size (st_relations st) ∧
    ∀ v, bv_relation_labels v = relation_runs st → for_each (decode_relation v) bs ∅ = Ok (st_relations st).
Proof using Hwf Hty Hfit.
  assert (zlen (relation_runs st) ≤ usize_max) as Hus.
  { apply tables_usize. pose proof record_bytes_tables. unfold catalog_bytes, record_bytes. lia. }
  destruct (push_runs relation_wire (λ r, set_iter (rel_labels r)) (λ r p, {| rw_id := rel_id r;
      rw_relation_type := encode_relation_type (rel_type r); rw_label_off := p.1; rw_label_len := p.2 |})
    (values_of (st_relations st)) []) as (bs & Hbs & Hall);
    [intros; unfold relation_wire; by destruct (append_run _ _) as [[? []]| | |]|apply (ff_relation_labels _ Hfit)|].
  change ([] ++ _) with (relation_runs st) in Hbs, Hall. exists bs. split; [done|]. split; [|split].
  - apply Forall_forall. intros w [i Hi]%list_elem_of_lookup.
    destruct (Forall2_lookup_r _ _ _ _ _ Hall Hi) as (r & Hr%list_elem_of_lookup_2%elem_of_values_of & p & -> & P1 & P2 & _).
    destruct Hr as [k Hk]. destruct (ty_relation _ Hty _ _ Hk) as (Hid & Ht & _). rewrite <-(proj1 (wf_relation _ Hwf _ _ Hk)) in Hid.
    assert (is_uint 64 (encode_relation_type (rel_type r))) by (destruct (rel_type r) as [t|]; [by apply Ht|done]). fit_row.
  - by rewrite <-(Forall2_length _ _ _ Hall), length_values.
  - intros v Hv. apply (rebuild_map rel_id (st_relations st) _ _ _ (λ k r Hk, proj1 (wf_relation _ Hwf k r Hk)) Hall).
    intros acc r w [k Hk]%elem_of_values_of (p & -> & Hp). destruct (ty_relation _ Hty _ _ Hk) as (_ & Ht & _).
    unfold decode_relation. cbn [rw_id rw_label_off rw_label_len rw_relation_type]. rewrite Hv, (placed_read _ _ _ Hus Hp).
    unfold decode_labels. cbn [ok_or mbind res_bind]. rewrite list_to_set_iter.
    assert (decode_relation_type (encode_relation_type (rel_type r)) = rel_type r) as ->.
    { unfold decode_relation_type, encode_relation_type. destruct (rel_type r) as [t|]; [|done]. cbn.
      rewrite decide_False; [done|]. by apply Ht. }
    by destruct r.
Qed.

Lemma incidences_frozen :
  Forall wire_fits (incidence_wire <$> values_of (st_incidences st)) ∧
  foldl decode_incidence ∅ (incidence_wire <$> values_of (st_incidences st)) = st_incidences st.
Proof using Hwf Hty.
  split.
  - apply Forall_fmap, Forall_forall. intros r [k Hk]%elem_of_values_of. pose proof (ty_incidence _ Hty _ _ Hk) as Hr.
    unfold words_wf in Hr. rewrite !Forall_cons in Hr. destruct Hr as (? & ? & ? & ? & _). cbn. fit_row.
  - rewrite <-(foldl_map_iter (st_incidences st)) at 2. unfold values_of. rewrite !foldl_fmap. apply foldl_ext_in.
    intros acc [k r] Hk%elem_of_map_iter. unfold decode_incidence. cbn. rewrite (proj1 (wf_incidence _ Hwf _ _ Hk)). f_equal.
    destruct (wf_incidence _ Hwf _ _ Hk) as [<- _]. by destruct r.
Qed.

(** *** Properties *)

Definition property_held (text : list byte) (t : PropertyTriple) (w : PropertyWire) : Prop :=
  pw_subject_kind w = (encode_subject t.1.1).1 ∧ pw_subject_id w = (encode_subject t.1.1).2 ∧ pw_key w = t.1.2 ∧
  pw_value_tag w = property_type_tag (value_type t.2) ∧
  match t.2 with
  | PBoolean flag => pw_scalar w = (if flag then 1 else 0) ∧ pw_text_off w = 0 ∧ pw_text_len w = 0
  | PInteger number => pw_scalar w = cast_unsigned number ∧ pw_text_off w = 0 ∧ pw_text_len w = 0
  | PText string => pw_scalar w = 0 ∧ placed text string (pw_text_off w, pw_text_len w)
  end.

Lemma push_properties l :
  zlen (concat (text_run <$> l)) ≤ u32_max →
  ∃ bs, push_each property_wire l [] = Ok (concat (text_run <$> l), bs) ∧
    Forall2 (property_held (concat (text_run <$> l))) l bs.
Proof using.
  intros Hfits. destruct (push_each_Ok property_wire (λ s t, s ++ text_run t) (λ s, zlen s ≤ u32_max) property_held l [])
    as (bs & Hbs & Hall).
  - intros s t. rewrite zlen_app. pose proof (zlen_nonneg (text_run t)). lia.
  - intros s [[subj k] value] _ Hs. unfold property_wire, text_run in *. cbn [fst snd] in *.
    destruct value as [flag|z|string]; cbn [value_wire].
    1-2: rewrite app_nil_r; cbn; eexists; (split; [done|]); by split_and!.
    destruct (append_run_Ok s string Hs) as [He Hp]. rewrite He. cbn. eexists. split; [done|]. by split_and!.
  - intros s t w t' (? & ? & ? & ? & Hv). split_and!; [done..|]. destruct t.2; [done..|]. destruct Hv. split; [done|by apply placed_grow].
  - by rewrite foldl_append.
  - rewrite foldl_append in Hbs, Hall. eauto.
Qed.

Lemma held_sort_key text t w : property_held text t w → property_sort_key w = (encode_subject t.1.1, t.1.2).
Proof using. intros (H1 & H2 & H3 & _). unfold property_sort_key. rewrite H1, H2, H3. by destruct t.1.1. Qed.

Lemma pair_sort_key (s s' : PropertySubject) (k k' : Z) :
  key_lt (s, k) (s', k') → sort_key_le (encode_subject s, k) (encode_subject s', k').
Proof using.
  rewrite pair_lt. unfold subject_order. rewrite derived_lt. unfold sort_key_le. cbn [fst snd].
  destruct (encode_subject s) as [a b] eqn:Hs, (encode_subject s') as [c d] eqn:Hs'. cbn [fst snd]. intros [[Hl|[He Hl]]|[He Hl]].
  - left. exact Hl.
  - right. split; [exact He|]. left. exact Hl.
  - right. subst s'. rewrite Hs in Hs'. injection Hs' as <- <-. split; [done|]. right. split; [done|]. lia.
Qed.

Lemma held_ordered text l bs :
  StronglySorted (λ p q : PropertyTriple, key_lt p.1 q.1) l → Forall2 (property_held text) l bs → properties_ordered bs = true.
Proof using.
  intros Hs Hall. induction Hall as [|t w l bs Hw Hall IH]; [done|]. apply StronglySorted_inv in Hs as [Hs Hgt].
  destruct Hall as [|t' w' l bs Hw' Hall]; [done|]. cbn [properties_ordered] in *. rewrite IH by done.
  rewrite (held_sort_key _ _ _ Hw), (held_sort_key _ _ _ Hw'). rewrite bool_decide_eq_true_2; [done|].
  apply Forall_cons in Hgt as [Hlt _]. destruct t as [[s k] x], t' as [[s' k'] x']. by apply pair_sort_key.
Qed.

Lemma properties_frozen :
  ∃ bs, push_each property_wire (map_iter (st_properties st)) [] = Ok (text_runs st, bs) ∧ Forall wire_fits bs ∧
    length bs = size (st_properties st) ∧ verify_properties_sorted bs = Ok () ∧
    ∀ v, bv_property_text v = text_runs st →
      for_each (decode_property v) bs ∅ = Ok (foldl group_property ∅ (map_iter (st_properties st))).
Proof using Hty Hfit.
  assert (zlen (text_runs st) ≤ usize_max) as Hus.
  { apply tables_usize. pose proof record_bytes_tables. unfold catalog_bytes, record_bytes. lia. }
  destruct (push_properties (map_iter (st_properties st)) (ff_text _ Hfit)) as (bs & Hbs & Hall).
  fold (text_runs st) in Hbs, Hall. exists bs.
  split; [done|]. split; [|split; [|split]].
  - apply Forall_forall. intros w [i Hi]%list_elem_of_lookup.
    destruct (Forall2_lookup_r _ _ _ _ _ Hall Hi) as ([[s k] x] & Ht%list_elem_of_lookup_2%elem_of_map_iter & H1 & H2 & H3 & H4 & H5).
    destruct (ty_property _ Hty _ _ _ Ht) as [Hid Hx]. unfold words_wf in Hid. rewrite !Forall_cons in Hid. destruct Hid as (Hid & Hk & _).
    cbn [fst snd] in *. destruct w as [sk vt si pk sc to tl]. cbn in *. subst sk si pk vt.
    assert (is_uint 32 (encode_subject s).1) by (by destruct s). fold (subject_id s).
    assert (is_uint 32 (property_type_tag (value_type x))) by (by destruct x).
    assert (is_uint 64 sc ∧ is_uint 32 to ∧ is_uint 32 tl) as (? & ? & ?); [|fit_row].
    destruct x as [flag|z|string].
    + destruct H5 as (-> & -> & ->). by destruct flag.
    + destruct H5 as (-> & -> & ->). split; [apply cast_unsigned_u64|done].
    + destruct H5 as (-> & P1 & P2 & _). done.
  - rewrite <-(Forall2_length _ _ _ Hall). unfold map_iter. by rewrite merge_sort_Permutation, length_map_to_list.
  - unfold verify_properties_sorted. by rewrite (held_ordered _ _ _ (map_iter_ascending (st_properties st)) Hall).
  - intros v Hv. apply (for_each_pure _ group_property _ _ _ _ Hall).
    intros acc [[s k] x] w Ht%elem_of_map_iter (H1 & H2 & H3 & H4 & H5). destruct (ty_property _ Hty _ _ _ Ht) as [_ Hx].
    cbn [fst snd] in *. unfold decode_property. rewrite H1, H2, subject_codec. cbn [ok_or]. rewrite bind_Ok.
    assert (decode_property_value v w = Ok x) as ->.
    { unfold decode_property_value. rewrite H4, type_tag_codec. cbn [ok_or]. rewrite bind_Ok. destruct x as [flag|z|string]; cbn [value_type].
      - destruct H5 as [-> _]. by destruct flag.
      - destruct H5 as [-> _]. cbn [value_wf] in Hx. by rewrite cast_roundtrip.
      - destruct H5 as [_ Hp]. pose proof (placed_read _ _ _ Hus Hp) as Hr. cbn [fst snd] in Hr. rewrite Hv, Hr. cbn [ok_or].
        rewrite bind_Ok. cbn [value_wf] in Hx. by rewrite Hx. }
    rewrite bind_Ok, H3. done.
Qed.

End records.

(** ** The postings of a store *)

Section postings.
Context `{!Target}.

Lemma postings_of_pairs `{Countable K, Countable M} (pairs : list (K * M)) k S :
  postings_of pairs !! k = Some S → (∃ x, (k, x) ∈ pairs) ∧ ∀ x, x ∈ S → (k, x) ∈ pairs.
Proof using.
  intros HS. split.
  - revert HS. unfold postings_of.
    assert (∀ m, is_Some (foldl (λ m p, add_posting m p.1 p.2) m pairs !! k) → (∃ x, (k, x) ∈ pairs) ∨ is_Some (m !! k)) as Hg.
    { induction pairs as [|[k' x'] pairs IH]; intros m; cbn [foldl]; [by right|]. intros [[x Hx]|Hm]%IH; [left; exists x; by right|].
      unfold add_posting in Hm. cbn [fst snd] in Hm. destruct (decide (k' = k)) as [->|]; [left; exists x'; by left|].
      right. by rewrite lookup_insert_ne in Hm. }
    intros HS. destruct (Hg ∅) as [?|[? Hx]]; [by eexists|done|by rewrite lookup_empty in Hx].
  - intros x Hx. apply elem_of_postings_of. unfold posting. by rewrite HS.
Qed.

Lemma u64_fits (w : Z) : is_uint 64 w → wire_fits w.
Proof using. intros Hw. fit_row. Qed.

Lemma simple_fits m :
  (∀ k S, m !! k = Some S → is_uint 64 k ∧ ∀ x, x ∈ S → is_uint 64 x) → zlen (simple_columns m).2 ≤ usize_max →
  Forall wire_fits (simple_columns m).1 ∧ Forall wire_fits (simple_columns m).2.
Proof using.
  intros Hm Hfit. split; apply Forall_forall.
  - intros e [i Hi]%list_elem_of_lookup. destruct (Forall2_lookup_r _ _ _ _ _ (simple_held m) Hi) as ([k S] & Hp & Hk & Hr).
    apply list_elem_of_lookup_2, elem_of_map_iter, Hm in Hp as [Hp _]. cbn [fst snd] in *. rewrite <-Hk in Hp.
    destruct (pooled_u64 _ _ _ _ Hfit Hr). destruct e. cbn in *. fit_row.
  - intros x. rewrite simple_pool. intros ([k S] & Hx & Hp%elem_of_map_iter)%list_elem_of_bind. cbn in Hx. apply elem_of_set_iter in Hx.
    by eapply u64_fits, Hm.
Qed.

Lemma equality_fits m :
  (∀ k S, m !! k = Some S → is_uint 64 k.1 ∧ ∀ s, s ∈ S → is_uint 64 (subject_id s)) →
  zlen (ep_pool (equality_columns m)) ≤ usize_max → zlen (ep_text (equality_columns m)) ≤ usize_max →
  Forall wire_fits (ep_dir (equality_columns m)) ∧ Forall wire_fits (ep_pool (equality_columns m)).
Proof using.
  intros Hm Hp Ht. split; apply Forall_forall.
  - intros e [i Hi]%list_elem_of_lookup.
    destruct (Forall2_lookup_r _ _ _ _ _ (equality_columns_held m) Hi) as ([[k x] S] & Hin & Hk & Htag & Hres & Hv & Hr).
    apply list_elem_of_lookup_2, elem_of_map_iter, Hm in Hin as [Hin _]. destruct (pooled_u64 _ _ _ _ Hp Hr).
    destruct e as [ek et er es eo el mo ml]. cbn in *. subst ek et er.
    assert (is_uint 32 (property_type_tag (value_type x))) by (by destruct x). assert (is_uint 32 0) by done.
    assert (is_uint 64 es ∧ is_uint 64 eo ∧ is_uint 64 el) as (? & ? & ?); [|fit_row].
    destruct x as [flag|z|string].
    + destruct Hv as (-> & -> & ->). by destruct flag.
    + destruct Hv as (-> & -> & ->). split; [apply cast_unsigned_u64|done].
    + destruct Hv as (-> & Hs). split; [done|]. by apply (pooled_u64 _ _ _ _ Ht Hs).
  - intros w. rewrite equality_pool_runs. intros ([k S] & Hx & Hin%elem_of_map_iter)%list_elem_of_bind.
    cbn in Hx. apply list_elem_of_bind in Hx as (s & Hw & Hs%elem_of_set_iter). apply u64_fits.
    pose proof (proj2 (Hm _ _ Hin) s Hs) as Hid. unfold subject_words in Hw. rewrite !elem_of_cons in Hw.
    destruct Hw as [->|[->|Hw]]; [by destruct s|exact Hid|by apply not_elem_of_nil in Hw].
Qed.

Lemma framed_length {T} `{WireRecord T} (dir : list T) (pool : list Z) :
  (dir = [] → pool = []) → 8 * zlen pool ≤ zlen (framed_bytes dir pool).
Proof using.
  intros Hnil. unfold framed_bytes. destruct dir as [|d dir]; [by rewrite Hnil|].
  rewrite !zlen_app. pose proof (length_records_bytes pool) as Hl. change (wire_size Z) with 8%nat in Hl.
  match goal with |- _ ≤ zlen ?a + (zlen ?b + (zlen ?c + _)) => pose proof (zlen_nonneg a); pose proof (zlen_nonneg b); pose proof (zlen_nonneg c) end.
  assert (zlen (records_bytes pool) = 8 * zlen pool) by (unfold zlen; rewrite Hl; lia). lia.
Qed.

(** Every column of the postings is within their size. *)
Lemma posting_column_le ix p : p ∈ index_columns (index_contents ix) → zlen (p_payload p) ≤ posting_bytes ix.
Proof using.
  unfold posting_bytes. generalize (index_columns (index_contents ix)). intros l. induction l as [|q l IH]; [by intros ?%not_elem_of_nil|].
  cbn [fmap list_fmap concat]. rewrite zlen_app. pose proof (zlen_nonneg (p_payload q)). pose proof (zlen_nonneg (concat (p_payload <$> l))).
  intros [->|Hq%IH]%elem_of_cons; lia.
Qed.

Lemma store_postings_fit st : StoreTyped st → FreezeFits st → PostingsFit (store_index st).
Proof using.
  intros Hty Hfit. pose proof (ff_file _ Hfit) as Hf. pose proof isize_usize_max. pose proof (record_bytes_tables st).
  unfold catalog_bytes, record_bytes in Hf. assert (posting_bytes (store_index st) ≤ usize_max) as Hpb by lia. clear Hf.
  assert (∀ p, p ∈ index_columns (index_contents (store_index st)) → zlen (p_payload p) ≤ usize_max) as Hcol.
  { intros p Hp%posting_column_le. lia. }
  assert (∀ m, zlen (framed_bytes (simple_columns m).1 (simple_columns m).2) ≤ usize_max → zlen (simple_columns m).2 ≤ usize_max) as Hs.
  { intros m Hm. pose proof (framed_length _ _ (simple_dir_nil m)). pose proof (zlen_nonneg (simple_columns m).2). lia. }
  split.
  - apply Hs, (Hcol (base_section SECTION_INDEX_LABEL_POSTINGS 3 _)). set_solver.
  - apply Hs, (Hcol (base_section SECTION_INDEX_RELATION_TYPE_POSTINGS 3 _)). set_solver.
  - apply Hs, (Hcol (base_section SECTION_INDEX_ELEMENT_INCIDENCES 3 _)). set_solver.
  - apply Hs, (Hcol (base_section SECTION_INDEX_RELATION_INCIDENCES 3 _)). set_solver.
  - set (m := property_equality (store_index st)).
    assert (zlen (framed_bytes (ep_dir (equality_columns m)) (ep_pool (equality_columns m))) ≤ usize_max) as Hm
      by (apply (Hcol (base_section SECTION_INDEX_EQUALITY 3 _)); set_solver).
    pose proof (framed_length _ _ (equality_dir_nil m)). pose proof (zlen_nonneg (ep_pool (equality_columns m))). lia.
  - apply (Hcol (base_section SECTION_INDEX_EQUALITY_TEXT 0 _)). set_solver.
  - intros [k x] S HS. cbn. apply postings_of_pairs in HS as [[s Hin] _]. unfold equality_pairs in Hin.
    apply list_elem_of_fmap in Hin as ([[s' k'] x'] & [= -> -> ->] & Hin%elem_of_map_iter). by apply (ty_property _ Hty) in Hin as [_ ?].
Qed.

End postings.

(** ** The freeze of a store and its reopening *)

(** A given section is among the columns. *)
Ltac in_columns := repeat first [by left|right].

Lemma Forall_u64 ws : Forall (is_uint 64) ws → Forall wire_fits ws.
Proof. intros Hw. eapply Forall_impl; [exact Hw|]. intros w. apply u64_fits. Qed.

Lemma zlen_records {T} `{WireRecord T} (rs : list T) : zlen (records_bytes rs) = Z.of_nat (wire_size T) * zlen rs.
Proof. unfold zlen. rewrite length_records_bytes. lia. Qed.

(** The bytes of the columns, by their records. *)
Lemma columns_bytes b :
  zlen (concat (p_payload <$> columns b)) =
    104 + (16 * zlen (bc_roles b) + 16 * zlen (bc_labels b) + 16 * zlen (bc_relation_types b) + 24 * zlen (bc_property_keys b) +
           28 * zlen (bc_projections b) + 28 * zlen (bc_indexes b) + 8 * zlen (bc_defs b)) +
    (16 * zlen (bc_elements b) + 8 * zlen (bc_element_labels b) + 24 * zlen (bc_relations b) + 8 * zlen (bc_relation_labels b) +
     32 * zlen (bc_incidences b)) + (40 * zlen (bc_properties b) + zlen (bc_text b)) +
    zlen (concat (p_payload <$> index_columns (bc_index b))) + zlen (bc_strings b).
Proof.
  unfold columns. rewrite fmap_cons, !fmap_app. cbn [concat]. rewrite !concat_app, !zlen_app.
  unfold catalog_columns, topology_columns, property_columns. cbn [fmap list_fmap concat p_payload base_section].
  rewrite !zlen_app, !zlen_records. change (zlen []) with 0. change (zlen [_]) with 1.
  change (Z.of_nat (wire_size DbHeaderRecord)) with 104. change (Z.of_nat (wire_size NamedWire)) with 16.
  change (Z.of_nat (wire_size PropertyKeyWire)) with 24. change (Z.of_nat (wire_size DefWire)) with 28.
  change (Z.of_nat (wire_size Z)) with 8. change (Z.of_nat (wire_size ElementWire)) with 16.
  change (Z.of_nat (wire_size RelationWire)) with 24. change (Z.of_nat (wire_size IncidenceWire)) with 32.
  change (Z.of_nat (wire_size PropertyWire)) with 40. lia.
Qed.

Section store.
Context `{!Target} (ck : Checksum32) {Hck : Checksum32Laws ck} (st : Store) (stamps : FreezeStamps).
Hypothesis Hwf : StoreWf st.
Hypothesis Hty : StoreTyped st.
Hypothesis Hfit : FreezeFits st.
Hypothesis Hstamps : words_wf [fs_commit_seq stamps; fs_transaction_id stamps; fs_generation stamps].

Lemma header_fits : wire_fits (header_record (st_next st) stamps).
Proof using Hty Hstamps.
  pose proof (ty_next _ Hty) as Hn. unfold words_wf, next_words in *. rewrite !Forall_cons in Hn. rewrite !Forall_cons in Hstamps.
  destruct Hn as (?&?&?&?&?&?&?&?&?&_), Hstamps as (?&?&?&_). assert (is_uint 32 OXGDB_FORMAT_VERSION) by done.
  assert (is_uint 32 0) by done. unfold header_record. fit_row.
Qed.

Lemma element_member k x : (k, x) ∈ label_pairs (values_of (st_elements st)) → is_uint 64 k ∧ is_uint 64 x.
Proof using Hwf Hty.
  unfold label_pairs. intros (r & (l & [= -> ->] & Hl%elem_of_set_iter)%list_elem_of_fmap & [id Hr]%elem_of_values_of)%list_elem_of_bind.
  destruct (ty_element _ Hty _ _ Hr) as [Hid Hls]. split; [by apply Hls|]. by rewrite (proj1 (wf_element _ Hwf _ _ Hr)).
Qed.
Lemma type_member k x : (k, x) ∈ type_pairs (values_of (st_relations st)) → is_uint 64 k ∧ is_uint 64 x.
Proof using Hwf Hty.
  unfold type_pairs. intros (r & Hin & [id Hr]%elem_of_values_of)%list_elem_of_bind.
  destruct (ty_relation _ Hty _ _ Hr) as (Hid & Ht & _), (wf_relation _ Hwf _ _ Hr) as (He & _).
  destruct (rel_type r) as [t|]; [|by apply not_elem_of_nil in Hin]. apply list_elem_of_singleton in Hin as [= -> ->].
  rewrite He. split; [by apply Ht|done].
Qed.
Lemma incidence_member key k x :
  (∀ r, key r = inc_element r) ∨ (∀ r, key r = inc_relation r) →
  (k, x) ∈ incidence_pairs key (values_of (st_incidences st)) → is_uint 64 k ∧ is_uint 64 x.
Proof using Hty.
  unfold incidence_pairs. intros Hkey (r & [= -> ->] & [id Hr]%elem_of_values_of)%list_elem_of_fmap.
  pose proof (ty_incidence _ Hty _ _ Hr) as Hw. unfold words_wf in Hw. rewrite !Forall_cons in Hw. destruct Hw as (?&?&?&?&_).
  destruct Hkey as [Hkey|Hkey]; rewrite Hkey; done.
Qed.

Lemma members_typed pairs k S :
  (∀ k x, (k, x) ∈ pairs → is_uint 64 k ∧ is_uint 64 x) → postings_of (K := Z) (M := Z) pairs !! k = Some S →
  is_uint 64 k ∧ ∀ x, x ∈ S → is_uint 64 x.
Proof using. intros Hp [[x Hx] Hall]%postings_of_pairs. split; [exact (proj1 (Hp _ _ Hx))|]. intros y Hy. exact (proj2 (Hp _ _ (Hall _ Hy))). Qed.

Lemma attach_index_read s :
  (∀ p, p ∈ index_columns (index_contents (store_index st)) → column_in ck s p) →
  attach_index ck s = Ok (index_contents (store_index st)).
Proof using Hwf Hty Hfit.
  clear Hstamps stamps Hck. intros Hcol. pose proof (store_postings_fit st Hty Hfit) as Hpf. pose proof Hpf as [].
  assert (∀ p, p ∈ index_columns (index_contents (store_index st)) → zlen (p_payload p) ≤ usize_max) as Hle.
  { intros p Hp%posting_column_le. pose proof (ff_file _ Hfit) as Hf. pose proof isize_usize_max. pose proof (record_bytes_tables st).
    unfold catalog_bytes, record_bytes in Hf. lia. }
  unfold attach_index. cbn [store_index label_members relation_type_members base_element_incidences base_relation_incidences property_equality] in *.
  assert (∀ kind m, (∀ k S, m !! k = Some S → is_uint 64 k ∧ ∀ x, x ∈ S → is_uint 64 x) → zlen (simple_columns m).2 ≤ usize_max →
    base_section kind 3 (framed_bytes (simple_columns m).1 (simple_columns m).2) ∈ index_columns (index_contents (store_index st)) →
    posting_slices ck PostingDirEntry s kind = Ok ((simple_columns m).1, (simple_columns m).2)) as Hread.
  { intros kind m Hm Hl Hin. destruct (simple_fits m Hm Hl) as [Hd Hp].
    apply (posting_column ck s kind 3); [done|done|apply simple_dir_nil|by apply (Hle _ Hin)|by apply Hcol]. }
  erewrite (Hread SECTION_INDEX_LABEL_POSTINGS); [|intros k S; apply members_typed, element_member|done|set_solver]. rewrite bind_Ok.
  erewrite (Hread SECTION_INDEX_RELATION_TYPE_POSTINGS); [|intros k S; apply members_typed, type_member|done|set_solver]. rewrite bind_Ok.
  erewrite (Hread SECTION_INDEX_ELEMENT_INCIDENCES);
    [|intros k S; apply members_typed; intros ? ?; apply incidence_member; by left|done|set_solver]. rewrite bind_Ok.
  erewrite (Hread SECTION_INDEX_RELATION_INCIDENCES);
    [|intros k S; apply members_typed; intros ? ?; apply incidence_member; by right|done|set_solver]. rewrite bind_Ok.
  set (m := postings_of (equality_pairs (map_iter (st_properties st)))) in *.
  assert (base_section SECTION_INDEX_EQUALITY 3 (framed_bytes (ep_dir (equality_columns m)) (ep_pool (equality_columns m)))
    ∈ index_columns (index_contents (store_index st))) as Heq by set_solver.
  destruct (equality_fits m) as [Hd Hp]; [|done..|].
  { intros [k x] S [[s0 Hs0] Hall]%postings_of_pairs. unfold equality_pairs in *.
    assert (∀ s1, ((k, x), s1) ∈ (λ '(s, k, v), ((k, v), s)) <$> map_iter (st_properties st) → is_uint 64 k ∧ is_uint 64 (subject_id s1)) as Hu.
    { intros s1 ([[s' k'] x'] & [= -> -> ->] & Hin%elem_of_map_iter)%list_elem_of_fmap. destruct (ty_property _ Hty _ _ _ Hin) as [Hw _].
      unfold words_wf in Hw. rewrite !Forall_cons in Hw. by destruct Hw as (? & ? & _). }
    split; [exact (proj1 (Hu _ Hs0))|]. intros s1 Hs1. exact (proj2 (Hu _ (Hall _ Hs1))). }
  rewrite (posting_column ck s SECTION_INDEX_EQUALITY 3 _ _ Hd Hp (equality_dir_nil m) (Hle _ Heq) (Hcol _ Heq)), bind_Ok.
  rewrite (blob_column ck s SECTION_INDEX_EQUALITY_TEXT 0 (ep_text (equality_columns m))) by (apply Hcol; set_solver). rewrite bind_Ok.
  apply storage_text_Ok. exact (written_valid (store_index st) Hpf).
Qed.


(** The records a reopened file holds. *)
Definition store_records : BaseRecords := {|
  base_elements := st_elements st; base_relations := st_relations st; base_incidences := st_incidences st;
  base_properties := foldl group_property ∅ (map_iter (st_properties st)); base_index := store_index st
|}.

Lemma merged_nothing `{Countable K} {R} (records : gmap K R) : merged ∅ records = records.
Proof using. apply map_eq. intros k. by rewrite lookup_merged, lookup_empty. Qed.

Lemma store_of_records : store_of store_records (new_overlay (st_next st) (st_catalog st)) = st.
Proof using.
  transitivity {| st_elements := st_elements st; st_relations := st_relations st; st_incidences := st_incidences st;
    st_properties := st_properties st; st_catalog := st_catalog st; st_next := st_next st |}; [|clear; by destruct st].
  unfold store_of. assert (flat (∅ : gmap PropertySubject SubjectDelta) = ∅) as Hflat by (apply map_eq; intros [s k]; by rewrite lookup_flat, !lookup_empty).
  f_equal; [exact (merged_nothing _)|exact (merged_nothing _)|exact (merged_nothing _)|]. unfold all_properties. cbn [ls_base ls_overlay layer_properties write_overlay_layer w_properties new_overlay].
  rewrite Hflat, merged_nothing. apply grouped_flat.
Qed.

Lemma store_records_opened : Opened store_records (st_next st) (st_catalog st).
Proof using Hwf.
  split; [|by rewrite store_of_records]. unfold base_indexed, from_records. cbn [store_records base_index base_elements base_relations
    base_incidences base_properties]. change (property_rows ?m) with (flat_rows m). by rewrite flat_rows_iter, grouped_flat.
Qed.

Lemma element_runs_u64 : Forall (is_uint 64) (element_runs st).
Proof using Hty.
  unfold element_runs. apply Forall_concat, Forall_fmap, Forall_forall. intros r [id Hr]%elem_of_values_of. cbn.
  apply Forall_forall. intros l Hl%elem_of_set_iter. by apply (ty_element _ Hty _ _ Hr).
Qed.
Lemma relation_runs_u64 : Forall (is_uint 64) (relation_runs st).
Proof using Hty.
  unfold relation_runs. apply Forall_concat, Forall_fmap, Forall_forall. intros r [id Hr]%elem_of_values_of. cbn.
  apply Forall_forall. intros l Hl%elem_of_set_iter. by apply (ty_relation _ Hty _ _ Hr).
Qed.

(** The contents of the frozen file: they have the size that was planned, and
    whatever container holds them attaches and opens as the store. *)
Lemma store_frozen :
  ∃ b, Frozen (st_catalog st) (values_of (st_elements st)) (values_of (st_relations st)) (values_of (st_incidences st))
      (map_iter (st_properties st)) (st_next st) stamps b ∧ file_room b ≤ isize_max ∧
    ∀ bytes addr s, open_checked bytes addr ck = Ok s → (∀ p, p ∈ columns b → column_in ck s p) →
      ∃ bv, attach_view ck bytes addr = Ok bv ∧ open_records bv = Ok store_records ∧ bv_catalog bv = st_catalog st ∧
        bv_header bv = header_of_record (header_record (st_next st) stamps).
Proof using Hwf Hty Hfit Hstamps.
  destruct (elements_frozen st Hwf Hty Hfit) as (els & E1 & E2 & E3 & E4).
  destruct (relations_frozen st Hwf Hty Hfit) as (rels & R1 & R2 & R3 & R4).
  destruct (incidences_frozen st Hwf Hty) as [I1 I2].
  destruct (properties_frozen st Hty Hfit) as (ps & P1 & P2 & P3 & P4 & P5).
  destruct (catalog_frozen (st_catalog st) (header_record (st_next st) stamps) els (element_runs st) rels (relation_runs st)
    (incidence_wire <$> values_of (st_incidences st)) ps (text_runs st) (index_contents (store_index st))
    (ff_names _ Hfit) (ff_defs _ Hfit)) as (b & Hhd & Hels & Hel & Hrels & Hrl & Hinc & Hps & Htext & Hix & Hcat & Hpush).
  exists b. split; [|split].
  - split; [exact Hhd|exact Hpush|by rewrite Hel, Hels|by rewrite Hrl, Hrels|exact Hinc|by rewrite Htext, Hps|exact Hix].
  - unfold file_room. rewrite columns_bytes, Hels, Hel, Hrels, Hrl, Hinc, Hps, Htext, Hix, (cz_strings _ _ Hcat), (cz_defs _ _ Hcat).
    pose proof (ff_file _ Hfit) as Hf. unfold catalog_bytes, record_bytes, posting_bytes in Hf.
    unfold zlen at 1 2 3 4 5 6 8 10 12 13.
    rewrite <-(Forall2_length _ _ _ (cz_roles _ _ Hcat)), <-(Forall2_length _ _ _ (cz_labels _ _ Hcat)),
      <-(Forall2_length _ _ _ (cz_types _ _ Hcat)), <-(Forall2_length _ _ _ (cz_keys _ _ Hcat)),
      <-(Forall2_length _ _ _ (cz_projections _ _ Hcat)), <-(Forall2_length _ _ _ (cz_indexes _ _ Hcat)), !length_values, E3, R3, P3.
    rewrite length_fmap, length_values. unfold HEADER_SIZE, SECTION_ENTRY_SIZE, MAX_BASE_SECTION_KINDS. lia.
  - intros bytes addr s Hopen Hcol.
    assert (∀ kind T (HT : WireRecord T) (rs : list T), Forall wire_fits rs → base_section kind 0 (records_bytes rs) ∈ columns b →
      typed_records ck T s kind = Ok rs) as Hread.
    { intros kind T HT rs Hf Hin. by apply (typed_column ck s kind 0), Hcol. }
    assert (∀ kind blob, base_section kind 0 blob ∈ columns b → raw_blob ck s kind = Ok blob) as Hblob.
    { intros kind blob Hin. by apply (blob_column ck s kind 0), Hcol. }
    assert (zlen (catalog_names (st_catalog st)) ≤ usize_max ∧ zlen (catalog_defs (st_catalog st)) ≤ usize_max) as [Hus1 Hus2].
    { pose proof (record_bytes_tables st). split; apply (tables_usize st Hfit); unfold catalog_bytes, record_bytes; lia. }
    eexists. split; [|split; [|split]].
    + unfold attach_view. rewrite (storage_text_Ok _ _ Hopen), bind_Ok.
      rewrite (Hread SECTION_DB_HEADER _ _ [bc_header b]); [|constructor; [rewrite Hhd; apply header_fits|constructor]|by left]. rewrite bind_Ok.
      cbn [head ok_or]. rewrite bind_Ok, Hhd, decide_False by (cbn; congruence).
      rewrite (Hblob SECTION_STRING_TABLE (bc_strings b)) by in_columns. rewrite bind_Ok.
      rewrite (Hread SECTION_CATALOG_DEFS _ _ (bc_defs b)) by (in_columns || (rewrite (cz_defs _ _ Hcat); apply Forall_u64, (ct_defs _ (ty_catalog _ Hty)))).
      rewrite bind_Ok, (storage_text_Ok _ (st_catalog st)), bind_Ok.
      2:{ eapply catalog_decoded; [apply (wf_catalog _ Hwf)|apply (ty_catalog _ Hty)|done|done|done|intros p Hp; by apply Hcol, columns_catalog]. }
      rewrite (Hread SECTION_PROPERTY_RECORDS _ _ ps) by (done || rewrite <-Hps; in_columns). rewrite bind_Ok, P4, bind_Ok.
      rewrite attach_index_read, bind_Ok by (intros p Hp; apply Hcol, columns_index; by rewrite Hix).
      rewrite (Hread SECTION_ELEMENT_RECORDS _ _ els) by (done || rewrite <-Hels; in_columns). rewrite bind_Ok.
      rewrite (Hread SECTION_RELATION_RECORDS _ _ rels) by (done || rewrite <-Hrels; in_columns). rewrite bind_Ok.
      rewrite (Hread SECTION_INCIDENCE_RECORDS _ _ (incidence_wire <$> values_of (st_incidences st))) by (done || rewrite <-Hinc; in_columns).
      rewrite bind_Ok.
      rewrite (Hread SECTION_ELEMENT_LABELS _ _ (element_runs st)) by (apply Forall_u64, element_runs_u64 || (rewrite <-Hel; in_columns)).
      rewrite bind_Ok.
      rewrite (Hread SECTION_RELATION_LABELS _ _ (relation_runs st)) by (apply Forall_u64, relation_runs_u64 || (rewrite <-Hrl; in_columns)).
      rewrite bind_Ok, (Hblob SECTION_PROPERTY_TEXT (text_runs st)) by (rewrite <-Htext; in_columns). rewrite bind_Ok. reflexivity.
    + unfold open_records. cbn [bv_elements bv_relations bv_incidences bv_properties bv_index].
      rewrite E4, bind_Ok, R4, bind_Ok, P5, bind_Ok, I2 by done.
      rewrite (written_owned (store_index st) (store_postings_fit st Hty Hfit)). done.
    + done.
    + done.
Qed.

End store.

(** The file of a published view, and what is read from it. *)
Lemma published_file `{!Target} (ck : Checksum32) `{!Checksum32Laws ck} base next catalog o stamps :
  Opened base next catalog → published base next catalog o →
  let st := store_of base (from_overlay o) in
  StoreTyped st → FreezeFits st →
  words_wf [fs_commit_seq stamps; fs_transaction_id stamps; fs_generation stamps] →
  ∃ bytes, freeze_view ck (layered base o) stamps = Ok bytes ∧ zlen bytes ≤ isize_max ∧
    ∀ addr, ∃ view, attach_view ck bytes addr = Ok view ∧ open_records view = Ok (store_records st) ∧
      bv_catalog view = o_catalog o ∧ bv_header view = header_of_record (header_record (o_next o) stamps).
Proof.
  intros Ho Hp st Hty Hfit Hs. pose proof (coherent_keyed _ (published_coherent base next catalog o Ho Hp)) as Hk.
  destruct (published_sound base next catalog o Ho Hp) as [_ Hwf]. fold st in Hwf.
  destruct (store_frozen ck st stamps Hwf Hty Hfit Hs) as (b & Hfz & Hroom & Hread).
  destruct (columns_file ck b Hroom) as (bytes & Hb & Hlen & Hopen). exists bytes.
  split; [|split; [done|]].
  - rewrite (freeze_writes ck (layered base o) (values_of (st_elements st)) (values_of (st_relations st))
      (values_of (st_incidences st)) (map_iter (st_properties st)) stamps b); [by rewrite Hb| | | | |exact Hfz].
    + exact (view_elements_run (layered base o) Hk).
    + exact (view_relations_run (layered base o) Hk).
    + exact (view_incidences_run (layered base o) Hk).
    + exact (view_properties_run (layered base o)).
  - intros addr. destruct (Hopen addr) as (Ha & _ & Hcol). destruct (Hread bytes addr _ Ha Hcol) as (bv & H1 & H2 & H3 & H4).
    exists bv. done.
Qed.

(** C24. A checkpoint loses nothing. The view of any published state whose tables
    fit their 32-bit offsets and whose file fits memory freezes, and its bytes
    open at any address: the container, the catalog, the property order and the
    postings are accepted, the header gives the stamps and the allocators back,
    the records decode, and they are the base of a well-formed store, its
    posting index rebuilt in full, that is the very store that was frozen. *)
Theorem freeze_reopens `{!Target} (ck : Checksum32) `{!Checksum32Laws ck} base next catalog o stamps :
  Opened base next catalog → published base next catalog o →
  let st := store_of base (from_overlay o) in
  StoreTyped st → FreezeFits st →
  words_wf [fs_commit_seq stamps; fs_transaction_id stamps; fs_generation stamps] →
  ∃ bytes, freeze_view ck (layered base o) stamps = Ok bytes ∧ zlen bytes ≤ isize_max ∧
    ∀ addr, ∃ view base', attach_view ck bytes addr = Ok view ∧ open_records view = Ok base' ∧
      bv_catalog view = o_catalog o ∧
      bv_header view = {| dh_format_version := OXGDB_FORMAT_VERSION; dh_commit_seq := fs_commit_seq stamps;
        dh_transaction_id := fs_transaction_id stamps; dh_checkpoint_generation := fs_generation stamps; dh_next := o_next o |} ∧
      Opened base' (o_next o) (o_catalog o) ∧
      store_of base' (new_overlay (o_next o) (o_catalog o)) = st.
Proof.
  intros Ho Hp st Hty Hfit Hs. destruct (published_sound base next catalog o Ho Hp) as [_ Hwf]. fold st in Hwf.
  destruct (published_file ck base next catalog o stamps Ho Hp Hty Hfit Hs) as (bytes & Hb & Hlen & Hopen).
  exists bytes. split_and!; [done|done|]. intros addr. destruct (Hopen addr) as (bv & H1 & H2 & H3 & H4).
  exists bv, (store_records st). split_and!; [done|done|done| |exact (store_records_opened st Hwf)|exact (store_of_records st)].
  rewrite H4. unfold header_of_record. cbn. by destruct (o_next o).
Qed.

(** *** A small file *)

Definition sample_stamps : FreezeStamps := {| fs_commit_seq := 7; fs_transaction_id := 9; fs_generation := 2 |}.
Definition sample_open : Overlay := freeze_overlay (new_overlay sample_next sample_catalog).

Lemma named_typed_empty {D} (name_of : D → list byte) : named_typed name_of ∅.
Proof. intros id d. by rewrite lookup_empty. Qed.

Lemma sample_typed : StoreTyped (store_of sample_base (from_overlay sample_open)).
Proof.
  change (from_overlay sample_open) with (new_overlay sample_next sample_catalog). rewrite sample_store.
  split; cbn [st_elements st_relations st_incidences st_properties st_catalog st_next].
  - repeat (apply Forall_cons_2; [done|]). apply Forall_nil_2.
  - intros id r [-> ->]%lookup_one. split; [done|]. cbn [el_labels]. intros l Hl%elem_of_singleton. by subst l.
  - intros id r. by rewrite lookup_empty.
  - intros id r. by rewrite lookup_empty.
  - intros s k value [[= -> ->] ->]%lookup_one. split; [|reflexivity]. repeat (apply Forall_cons_2; [done|]). apply Forall_nil_2.
  - split; try apply named_typed_empty; [intros id d [-> ->]%lookup_one; by split|intros id d [-> ->]%lookup_one; by split|].
    assert (catalog_defs sample_catalog = []) as -> by (vm_compute; reflexivity). apply Forall_nil_2.
Qed.

Lemma sample_fits : @FreezeFits target64 (store_of sample_base (from_overlay sample_open)).
Proof.
  change (from_overlay sample_open) with (new_overlay sample_next sample_catalog). rewrite sample_store.
  split; vm_compute; discriminate.
Qed.

Lemma freeze_reopens_witness :
  ∃ bytes view base', @freeze_view target64 crc32c_append _ _ (layered sample_base sample_open) sample_stamps = Ok bytes ∧
    @attach_view target64 crc32c_append bytes 4096 = Ok view ∧ @open_records target64 view = Ok base' ∧
    dh_checkpoint_generation (bv_header view) = 2 ∧
    st_properties (store_of base' (new_overlay sample_next sample_catalog)) !! (SElement 1, 1) = Some (PText [Byte.x78]).
Proof.
  assert (words_wf [7; 9; 2]) as Hs by (repeat (apply Forall_cons_2; [done|]); apply Forall_nil_2).
  destruct (@freeze_reopens target64 crc32c_append crc32c_laws sample_base sample_next sample_catalog sample_open sample_stamps
    sample_opened (published_open _ _ _) sample_typed sample_fits Hs) as (bytes & Hf & _ & Hopen).
  destruct (Hopen 4096) as (view & base' & Ha & Hr & _ & Hh & _ & Hst).
  exists bytes, view, base'. split; [exact Hf|]. split; [exact Ha|]. split; [exact Hr|].
  split; [rewrite Hh; reflexivity|]. change (o_next sample_open) with sample_next in Hst.
  change (o_catalog sample_open) with sample_catalog in Hst. rewrite Hst.
  change (from_overlay sample_open) with (new_overlay sample_next sample_catalog). rewrite sample_store. reflexivity.
Defined.
