(* ===== verification/Files.v ===== *)
(** * Files: the file system calls of a store

    Models [crates/oxgraph-db/src/storage.rs], [lock.rs] and the file helpers of
    [database/open.rs] and [wal.rs] on an explicit file system: the files of the
    store's directory by name, and whether this process holds the writer lock.

    Every call asks the environment for its outcome. A call that reports a failure
    may have taken effect all the same (a rename before the error of its sync), a
    failed write leaves a prefix of its bytes, and a process that dies at a call
    leaves the files of an environment in which that call and all later ones fail
    without effect. What a call has done stays done: the syncs are calls that may
    fail, without an effect of their own.

    Triples for the methods of [Files]: from any directory that satisfies [P], the
    call succeeds in [Q], or fails in [R], and does not panic, whatever the outcomes
    of its calls. The publication of a file keeps every property of the directory
    that does not depend on the names it writes, up to its rename. *)

From Stdlib Require Import String Ascii.
From stdpp Require Import base gmap sets list strings pretty.
From S2P Require Import Prelude Bytes DbError DbWire DbState DbWriter Layout Snapshot SnapshotWriteFacts Wal WalRecovery.

Local Open Scope Z_scope.
Local Open Scope string_scope.

(** ** The environment *)

Inductive IoOutcome :=
  | IoDone
  | IoFailed (applied : bool) (written : nat)
  | IoBusy.

Record FileSystem := {
  fs_files : gmap string (list byte);
  fs_locked : bool;
  fs_calls : nat
}.

Definition with_files (s : FileSystem) (files : gmap string (list byte)) : FileSystem :=
  {| fs_files := files; fs_locked := fs_locked s; fs_calls := fs_calls s |}.
Definition with_locked (s : FileSystem) (locked : bool) : FileSystem :=
  {| fs_files := fs_files s; fs_locked := locked; fs_calls := fs_calls s |}.
Definition called (s : FileSystem) : FileSystem :=
  {| fs_files := fs_files s; fs_locked := fs_locked s; fs_calls := S (fs_calls s) |}.

Definition io_error (operation : string) : DbError := Storage (Io operation).

(** ** File names *)

Definition LOCK_FILE : string := "store.lock".
Definition SUPERBLOCK_FILE : string := "super.oxgdb".
Definition SUPERBLOCK_TEMP_FILE : string := "super.oxgdb.tmp".
Definition base_file (generation : Z) : string := "base-" +:+ pretty generation +:+ ".oxgdb".
Definition delta_file (generation : Z) : string := "delta-" +:+ pretty generation +:+ ".log".

Section files.
Context (io : nat → IoOutcome).

(** ** Calls *)

(** A call with its outcome, and the usual one: done with its effect, or failed. *)
Definition fs_step {A} (f : IoOutcome → FileSystem → FileSystem * res DbError A) : Tr FileSystem A := λ s,
  f (io (fs_calls s)) (called s).

Definition fs_call (operation : string) (effect : gmap string (list byte) → gmap string (list byte)) : Tr FileSystem () :=
  fs_step (λ o s,
    match o with
    | IoDone => (with_files s (effect (fs_files s)), Ok ())
    | IoFailed applied _ => (if applied then with_files s (effect (fs_files s)) else s, Err (io_error operation))
    | IoBusy => (s, Err (io_error operation))
    end).

(** [File::create], [write_all], [set_len], [rename], [remove_file] and the calls
    that change no file. *)
Definition fs_create (operation path : string) : Tr FileSystem () := fs_call operation (<[path := []]>).
Definition fs_write (operation path : string) (bytes : list byte) : Tr FileSystem () := fs_step (λ o s,
  let append n := with_files s (alter (λ file : list byte, (file ++ take n bytes)%list) path (fs_files s)) in
  match o with
  | IoDone => (append (length bytes), Ok ())
  | IoFailed _ written => (append written, Err (io_error operation))
  | IoBusy => (s, Err (io_error operation))
  end).
Definition fs_rename (operation from to : string) : Tr FileSystem () := fs_call operation (λ files,
  match files !! from with Some bytes => <[to := bytes]> (delete from files) | None => files end).
Definition fs_remove (operation path : string) : Tr FileSystem () := fs_call operation (delete path).
Definition fs_truncate (operation path : string) (len : Z) : Tr FileSystem () :=
  fs_call operation (alter (take (Z.to_nat len)) path).
Definition fs_touch (operation : string) : Tr FileSystem () := fs_call operation id.

(** Opening or reading a file: its bytes, [None] if there is none. *)
Definition fs_read (operation path : string) : Tr FileSystem (option (list byte)) :=
  _ ← fs_touch operation; tr_read (λ s, Ok (fs_files s !! path)).

(** [let _ = call]. *)
Definition ignored (m : Tr FileSystem ()) : Tr FileSystem () := λ s, ((m s).1, Ok ()).

(** ** [storage.rs] *)

Definition sync_directory : Tr FileSystem () :=
  _ ← fs_touch "open database directory"; fs_touch "sync database directory".

Definition atomic_write (temp_path final_path : string) (bytes : list byte) : Tr FileSystem () :=
  _ ← fs_touch "create database directory";
  _ ← fs_create "create temp file" temp_path;
  _ ← fs_write "write temp file" temp_path bytes;
  _ ← fs_touch "flush temp file";
  _ ← fs_touch "sync temp file";
  _ ← fs_rename "publish file" temp_path final_path;
  sync_directory.

(** ** [lock.rs] *)

(** A second lock of this process finds the file locked too. *)
Definition try_lock : Tr FileSystem () := fs_step (λ o s,
  if fs_locked s then (s, Err (DbError.Txn WriterLockHeld)) else
  match o with
  | IoDone => (with_locked s true, Ok ())
  | IoFailed _ _ => (s, Err (io_error "acquire writer lock"))
  | IoBusy => (s, Err (DbError.Txn WriterLockHeld))
  end).

Definition acquire : Tr FileSystem () :=
  _ ← fs_touch "create database directory";
  _ ← fs_call "open writer lock" (λ files, <[LOCK_FILE := default [] (files !! LOCK_FILE)]> files);
  try_lock.

(** The lock is dropped when [m] is left, however it is left. *)
Definition unlocking {A} (m : Tr FileSystem A) : Tr FileSystem A := λ s,
  let '(s, r) := m s in (with_locked s false, r).
Definition with_lock {A} (m : Tr FileSystem A) : Tr FileSystem A := _ ← acquire; unlocking m.

(** ** The log files ([open.rs]) *)

(** A file whose metadata cannot be read counts as empty. *)
Definition file_len (path : string) : Tr FileSystem Z := fs_step (λ o s,
  (s, Ok (match o with IoDone => zlen (default [] (fs_files s !! path)) | _ => 0 end))).

Definition read_log (path : string) : Tr FileSystem (list byte) :=
  file ← fs_read "read delta-log" path; mret (default [] file).

(** A length in memory fits a [u64]. *)
Definition truncate_log (path : string) (len : Z) : Tr FileSystem () :=
  file ← fs_read "open delta-log for truncate" path;
  _ ← tr_read (λ _, ok_or (io_error "open delta-log for truncate") file);
  _ ← fs_truncate "truncate delta-log" path len;
  fs_touch "sync truncated delta-log".

Definition create_empty_log (generation : Z) : Tr FileSystem () :=
  _ ← fs_create "create delta-log" (delta_file generation);
  _ ← fs_touch "sync delta-log";
  sync_directory.

Definition open_log_for_append (generation : Z) : Tr FileSystem () :=
  fs_call "open delta-log for append" (λ files, <[delta_file generation := default [] (files !! delta_file generation)]> files).

(** [wal::append_commit] on the opened log: a failure truncates it back, as far as
    that works. *)
Definition on_error {A} (m : Tr FileSystem A) (cleanup : Tr FileSystem ()) : Tr FileSystem A := λ s,
  match m s with (s, Ok a) => (s, Ok a) | (s, r) => ((cleanup s).1, r) end.

Definition rollback_log (path : string) (eof : Z) : Tr FileSystem () :=
  _ ← ignored (fs_truncate "truncate delta-log" path eof); ignored (fs_touch "sync delta-log").

Definition append_to_log (generation : Z) (frame : list byte) : Tr FileSystem () :=
  let path := delta_file generation in
  file ← fs_read "seek delta-log end" path;
  let rollback := rollback_log path (zlen (default [] file)) in
  _ ← on_error (fs_write "append delta-log record" path frame) rollback;
  on_error (fs_touch "sync delta-log") rollback.

(** ** The superblock file ([wal.rs], [open.rs]) *)

Context `{!Target} (ck : Checksum32).

Definition read_superblock_file : Tr FileSystem SuperblockRecord :=
  file ← fs_read "open superblock" SUPERBLOCK_FILE;
  bytes ← tr_read (λ _, ok_or (Storage NotFound) file);
  _ ← fs_touch "read superblock";
  tr_read (λ _, map_err Storage (read_superblock ck (Some bytes))).

Definition publish_superblock (sb : SuperblockRecord) : Tr FileSystem () :=
  _ ← fs_touch "create database directory";
  bytes ← tr_read (λ _, map_err Storage (write_superblock ck sb));
  _ ← fs_create "create superblock" SUPERBLOCK_TEMP_FILE;
  _ ← fs_write "write superblock" SUPERBLOCK_TEMP_FILE bytes;
  _ ← fs_touch "flush superblock";
  _ ← fs_touch "sync superblock";
  _ ← fs_rename "publish superblock" SUPERBLOCK_TEMP_FILE SUPERBLOCK_FILE;
  sync_directory.

Definition superblock_record (generation checkpoint_lsn commit_seq transaction_id : Z) : SuperblockRecord := {|
  sb_magic := SUPERBLOCK_MAGIC; sb_base_generation := generation; sb_checkpoint_lsn := checkpoint_lsn;
  sb_log_byte_offset := 0; sb_commit_seq := commit_seq; sb_transaction_id := transaction_id;
  sb_format_version := OXGDB_FORMAT_VERSION; sb_flags := 0; sb_crc32c := 0; sb_pad := 0
|}.

Definition write_superblock_file (generation checkpoint_lsn commit_seq transaction_id : Z) : Tr FileSystem () :=
  publish_superblock (superblock_record generation checkpoint_lsn commit_seq transaction_id).

End files.

(** ** What the calls keep *)

Notation directory := (gmap string (list byte)).

(** ** File names *)

Fixpoint last_char (s : string) : option ascii :=
  match s with
  | EmptyString => None
  | String c s => match last_char s with None => Some c | Some d => Some d end
  end.

Lemma last_char_app s t c : last_char t = Some c → last_char (s +:+ t) = Some c.
Proof. intros Ht. induction s as [|d s IH]; [done|]. change (String d s +:+ t) with (String d (s +:+ t)). cbn [last_char]. by rewrite IH. Qed.

Lemma length_string_app s t : String.length (s +:+ t) = (String.length s + String.length t)%nat.
Proof. induction s as [|c s IH]; [done|]. change (String c s +:+ t) with (String c (s +:+ t)). cbn [String.length]. by rewrite IH. Qed.

Lemma app_tail_inj s s' t : s +:+ t = s' +:+ t → s = s'.
Proof.
  revert s'. induction s as [|c s IH]; intros [|c' s'] Heq; [done| | |].
  - apply (f_equal String.length) in Heq. rewrite !length_string_app in Heq. cbn in Heq. lia.
  - apply (f_equal String.length) in Heq. rewrite !length_string_app in Heq. cbn in Heq. lia.
  - injection Heq as -> Heq. f_equal. by apply IH.
Qed.

Lemma base_file_inj g g' : base_file g = base_file g' → g = g'.
Proof. unfold base_file. intros Heq%(inj _)%app_tail_inj. by apply (inj pretty). Qed.
Lemma delta_file_inj g g' : delta_file g = delta_file g' → g = g'.
Proof. unfold delta_file. intros Heq%(inj _)%app_tail_inj. by apply (inj pretty). Qed.

Lemma temp_not_base s g : s +:+ ".tmp" ≠ base_file g.
Proof.
  intros Heq%(f_equal last_char). unfold base_file in Heq.
  rewrite (last_char_app s ".tmp" "p"%char eq_refl) in Heq.
  change ("base-" +:+ pretty g +:+ ".oxgdb") with ("base-" +:+ (pretty g +:+ ".oxgdb")) in Heq.
  rewrite (last_char_app "base-" _ "b"%char) in Heq; [done|]. by apply last_char_app.
Qed.

(** Distinct names: [names] decides them by their first characters, or by the lemmas above. *)
Ltac names :=
  first [ done
        | discriminate
        | by apply temp_not_base
        | intros Heq; by apply temp_not_base in Heq
        | intros Heq; symmetry in Heq; by apply temp_not_base in Heq
        | intros Heq%base_file_inj; lia
        | intros Heq%delta_file_inj; lia ].

(** ** Triples *)

Definition triple {S A} (P : S → Prop) (m : Tr S A) (Q : A → S → Prop) (R : DbError → S → Prop) : Prop :=
  ∀ s, P s → match m s with (s', Ok a) => Q a s' | (s', Err e) => R e s' | _ => False end.

Section triples.
Context {S : Type}.
Implicit Types P : S → Prop.

Lemma triple_ret {A} P (a : A) R : triple P (mret a) (λ b s, P s ∧ b = a) R.
Proof. intros s Hs. cbn. done. Qed.

Lemma triple_bind {A B} P (m : Tr S A) (f : A → Tr S B) Q Q' R :
  triple P m Q R → (∀ a, triple (Q a) (f a) Q' R) → triple P (m ≫= f) Q' R.
Proof.
  intros Hm Hf s Hs. unfold mbind, tr_bind. specialize (Hm s Hs). destruct (m s) as [s' [a|e| |]]; try done.
  by apply Hf.
Qed.

Lemma triple_mono {A} P P' (m : Tr S A) Q Q' R R' :
  (∀ s, P' s → P s) → (∀ a s, Q a s → Q' a s) → (∀ e s, R e s → R' e s) → triple P m Q R → triple P' m Q' R'.
Proof.
  intros HP HQ HR Hm s Hs. specialize (Hm s (HP s Hs)). destruct (m s) as [s' [a|e| |]]; auto.
Qed.

Lemma triple_read {A} P (f : S → res DbError A) a R : (∀ s, P s → f s = Ok a) → triple P (tr_read f) (λ b s, P s ∧ b = a) R.
Proof. intros Hf s Hs. cbn. by rewrite (Hf s Hs). Qed.

Lemma triple_reads {A} P (f : S → res DbError A) (Q : A → Prop) R :
  (∀ s, P s → ∃ a, f s = Ok a ∧ Q a) → triple P (tr_read f) (λ a s, P s ∧ Q a) R.
Proof. intros Hf s Hs. cbn. by destruct (Hf s Hs) as (a & -> & ?). Qed.

Lemma triple_pre {A} P (Hyp : Prop) (m : Tr S A) Q R : (Hyp → triple P m Q R) → triple (λ s, P s ∧ Hyp) m Q R.
Proof. intros Hm s [Hs H]. by apply Hm. Qed.

Lemma triple_know {A} P (Hyp : Prop) (m : Tr S A) Q R : (∀ s, P s → Hyp) → (Hyp → triple P m Q R) → triple P m Q R.
Proof. intros HP Hm s Hs. by apply (Hm (HP s Hs)). Qed.

End triples.

(** ** Calls *)

Section calls.
Context (io : nat → IoOutcome).

(** Some call fails. *)
Definition Faulty : Prop := ∃ k, io k ≠ IoDone.

(** The directory satisfies [I] and this process holds the lock or not. *)
Definition at_ (l : bool) (I : directory → Prop) (s : FileSystem) : Prop := fs_locked s = l ∧ I (fs_files s).

(** The error of a call: nothing but the environment is to blame. *)
Definition io_failed (l : bool) (I : directory → Prop) (e : DbError) (s : FileSystem) : Prop := at_ l I s ∧ Faulty.

(** A property that does not depend on the file [p]. *)
Definition ignores (I : directory → Prop) (p : string) : Prop :=
  ∀ (files files' : directory), (∀ q, q ≠ p → files' !! q = files !! q) → I files → I files'.

Lemma ignores_insert I p x files : ignores I p → I files → I (<[p := x]> files).
Proof. intros Hp. apply Hp. intros q Hq. by rewrite lookup_insert_ne. Qed.
Lemma ignores_delete I p files : ignores I p → I files → I (delete p files).
Proof. intros Hp. apply Hp. intros q Hq. by rewrite lookup_delete_ne. Qed.
Lemma ignores_alter I p f files : ignores I p → I files → I (alter f p files).
Proof. intros Hp. apply Hp. intros q Hq. by rewrite lookup_alter_ne. Qed.

Lemma call_spec l P Q operation effect :
  (∀ files, P files → Q (effect files)) →
  triple (at_ l P) (fs_call io operation effect) (λ _, at_ l Q) (io_failed l (λ files, P files ∨ Q files)).
Proof.
  intros He s [Hl Hs]. unfold fs_call, fs_step. destruct (io (fs_calls s)) as [|applied written|] eqn:Hio.
  - split; [done|]. by apply He.
  - assert (Faulty) as Hf by (exists (fs_calls s); by rewrite Hio).
    destruct applied; (split; [split; [done|]|done]); [right; by apply He|by left].
  - split; [split; [done|by left]|]. exists (fs_calls s). by rewrite Hio.
Qed.

Lemma call_keeps l I operation effect :
  (∀ files, I files → I (effect files)) →
  triple (at_ l I) (fs_call io operation effect) (λ _, at_ l I) (io_failed l I).
Proof.
  intros He. eapply triple_mono; [| | |by apply (call_spec l I I)]; [done|done|]. intros e s [[? []] ?]; done.
Qed.

Lemma touch_keeps l I operation : triple (at_ l I) (fs_touch io operation) (λ _, at_ l I) (io_failed l I).
Proof. by apply call_keeps. Qed.

Lemma sync_directory_keeps l I : triple (at_ l I) (sync_directory io) (λ _, at_ l I) (io_failed l I).
Proof. eapply triple_bind; [apply (touch_keeps l I)|]. intros []. apply touch_keeps. Qed.

(** A call that keeps the directory's property, then the rest. *)
Lemma keeps_then {A} l I (m : Tr FileSystem ()) (k : Tr FileSystem A) Q R :
  triple (at_ l I) m (λ _, at_ l I) (io_failed l I) → (∀ e s, io_failed l I e s → R e s) →
  triple (at_ l I) k Q R → triple (at_ l I) (_ ← m; k) Q R.
Proof.
  intros Hm HR Hk. apply (triple_bind _ _ _ (λ _, at_ l I)); [|intros _; exact Hk]. eapply triple_mono; [| |exact HR|exact Hm]; done.
Qed.

(** A new file filled by one write: of a call that fails, only the file depends. *)
Lemma write_new_spec l I operation p bytes :
  ignores I p →
  triple (at_ l (λ files, I files ∧ files !! p = Some [])) (fs_write io operation p bytes)
    (λ _, at_ l (λ files, I files ∧ files !! p = Some bytes)) (io_failed l I).
Proof.
  intros Hp s (Hl & Hs & Hnew). unfold fs_write, fs_step. destruct (io (fs_calls s)) as [|applied written|] eqn:Hio.
  - split; [done|]. cbn [fs_files with_files called]. split; [by apply ignores_alter|].
    rewrite lookup_alter_eq, Hnew. cbn. by rewrite firstn_all.
  - split; [|exists (fs_calls s); by rewrite Hio]. split; [done|]. by apply ignores_alter.
  - split; [|exists (fs_calls s); by rewrite Hio]. done.
Qed.

(** Creating a temporary file, filling it and renaming it over [p]. The property
    [I] holds up to the rename, [J] from it on. *)
Lemma publish_spec l I J temp p create write flush sync publish bytes :
  temp ≠ p → ignores I temp → (∀ files, I files → J (<[p := bytes]> files)) →
  triple (at_ l I)
    (_ ← fs_create io create temp; _ ← fs_write io write temp bytes; _ ← fs_touch io flush; _ ← fs_touch io sync;
     _ ← fs_rename io publish temp p; sync_directory io)
    (λ _, at_ l J) (io_failed l (λ files, I files ∨ J files)).
Proof.
  intros Hne Ht HJ. set (E := io_failed l (λ files, I files ∨ J files)).
  assert (∀ e s, io_failed l I e s → E e s) as HE by (intros e s [[? ?] ?]; split; [split; [done|by left]|done]).
  eapply (triple_bind _ _ _ (λ _, at_ l (λ files, I files ∧ files !! temp = Some []))).
  { eapply triple_mono; [| | |apply (call_spec l I (λ files, I files ∧ files !! temp = Some []))]; [done|done| |].
    - intros e s [[? [?|[? _]]] ?]; apply HE; by repeat split.
    - intros files Hf. split; [by apply ignores_insert|by apply lookup_insert_eq]. }
  intros _. eapply (triple_bind _ _ _ (λ _, at_ l (λ files, I files ∧ files !! temp = Some bytes))).
  { eapply triple_mono; [| | |by apply write_new_spec]; done. }
  assert (∀ e s, io_failed l (λ files, I files ∧ files !! temp = Some bytes) e s → E e s) as HE'
    by (intros e s [[? [? _]] ?]; apply HE; by repeat split).
  intros _. apply keeps_then; [apply touch_keeps|exact HE'|]. apply keeps_then; [apply touch_keeps|exact HE'|].
  eapply (triple_bind _ _ _ (λ _, at_ l J)).
  { eapply triple_mono; [| | |apply (call_spec l (λ files, I files ∧ files !! temp = Some bytes) J)]; [done|done| |].
    - intros e s [[? [[? ?]|?]] ?]; split; (split; [done|]) || done; [by left|by right].
    - intros files [Hf ->]. apply HJ. by apply ignores_delete. }
  intros _. eapply triple_mono; [| | |apply sync_directory_keeps]; [done|done|].
  intros e s [[? ?] ?]. split; [split; [done|by right]|done].
Qed.

Lemma atomic_write_spec l I J temp p bytes :
  temp ≠ p → ignores I temp → (∀ files, I files → J (<[p := bytes]> files)) →
  triple (at_ l I) (atomic_write io temp p bytes) (λ _, at_ l J) (io_failed l (λ files, I files ∨ J files)).
Proof.
  intros Hne Ht HJ. apply keeps_then; [apply touch_keeps| |by apply publish_spec].
  intros e s [[? ?] ?]. split; [split; [done|by left]|done].
Qed.

Lemma create_empty_log_spec l I J g :
  (∀ files, I files → J (<[delta_file g := []]> files)) →
  triple (at_ l I) (create_empty_log io g) (λ _, at_ l J) (io_failed l (λ files, I files ∨ J files)).
Proof.
  intros HJ. assert (∀ e s, io_failed l J e s → io_failed l (λ files, I files ∨ J files) e s) as HE
    by (intros e s [[? ?] ?]; split; [split; [done|by right]|done]).
  apply (triple_bind _ _ _ (λ _, at_ l J)); [by apply call_spec|]. intros []. apply keeps_then; [apply touch_keeps|exact HE|].
  eapply triple_mono; [| |exact HE|apply sync_directory_keeps]; done.
Qed.

(** A call whose failure is ignored. *)
Lemma ignored_keeps l I (m : Tr FileSystem ()) R :
  triple (at_ l I) m (λ _, at_ l I) (io_failed l I) → triple (at_ l I) (ignored m) (λ _, at_ l I) R.
Proof.
  intros Hm s Hs. specialize (Hm s Hs). unfold ignored. destruct (m s) as [s' [a|e| |]]; cbn; try done. by destruct Hm.
Qed.

Lemma remove_keeps l I operation p : ignores I p → triple (at_ l I) (fs_remove io operation p) (λ _, at_ l I) (io_failed l I).
Proof. intros Hp. apply call_keeps. intros files. by apply ignores_delete. Qed.

(** Reading gives the file. *)
Lemma read_spec l I operation p :
  triple (at_ l I) (fs_read io operation p) (λ file s, at_ l I s ∧ file = fs_files s !! p) (io_failed l I).
Proof.
  apply keeps_then; [apply touch_keeps|done|]. by intros s Hs.
Qed.

(** ** The lock *)

Lemma acquire_spec I :
  ignores I LOCK_FILE → triple (at_ false I) (acquire io) (λ _, at_ true I) (io_failed false I).
Proof.
  intros Hi. apply keeps_then; [apply touch_keeps|done|]. apply keeps_then; [|done|].
  { apply call_keeps. intros files. by apply ignores_insert. }
  intros s [Hl Hs]. unfold try_lock, fs_step. cbn [called fs_locked]. rewrite Hl.
  destruct (io (fs_calls s)) as [|applied written|] eqn:Hio; [by split| |];
    (split; [by split|exists (fs_calls s); by rewrite Hio]).
Qed.

Lemma unlocking_spec {A} I (m : Tr FileSystem A) (Q : A → directory → Prop) J :
  triple (at_ true I) m (λ a, at_ true (Q a)) (λ e, at_ true J) →
  triple (at_ true I) (unlocking m) (λ a, at_ false (Q a)) (λ e, at_ false J).
Proof.
  intros Hm s Hs. specialize (Hm s Hs). unfold unlocking. destruct (m s) as [s' [a|e| |]]; try done.
  all: destruct Hm as [_ Hm]; by split.
Qed.

End calls.
