(* ===== verification/Checkpoint.v ===== *)
(** * Checkpoint: a store in its directory

    Models the lifecycle of a store on the file system of [Files]: [create] and
    [open] ([database/open.rs]), write transactions through the log file, the
    checkpoint that folds base and overlay into the next generation, its policy and
    [validate] ([database/maintenance.rs], [mod.rs], [writer.rs]). A mapped file is
    placed at an address the environment chooses.

    A handle is changed by what succeeds: [Session] is the directory with the one
    handle on it. *)

From Stdlib Require Import String.
From stdpp Require Import base gmap sets list strings.
From S2P Require Import Prelude Bytes Layout Snapshot SnapshotWrite DbError DbWire DbState OverlayIndex Overlay Merge DbWriter Wal Database Files BaseFile BorrowedIndex BaseView.

Local Open Scope Z_scope.

(** ** The policy *)

Inductive CheckpointPolicy :=
  | Manual
  | SizeRatio (factor : Z).

Definition DEFAULT_FACTOR : Z := 4.
Definition MIN_BASE_BYTES : Z := 4 * 1024.
Definition default_policy : CheckpointPolicy := SizeRatio DEFAULT_FACTOR.

Definition should_checkpoint (policy : CheckpointPolicy) (log_bytes base_bytes : Z) : bool :=
  match policy with
  | Manual => false
  | SizeRatio factor =>
      let floor := if decide (base_bytes < MIN_BASE_BYTES) then MIN_BASE_BYTES else base_bytes in
      bool_decide (saturating_mul u64_max floor factor < log_bytes)
  end.

(** ** Handles *)

(** [Db] with the records of its base. *)
Record Handle := {
  hd_db : Db;
  hd_base : BaseRecords;
  hd_policy : CheckpointPolicy
}.

Definition with_db (h : Handle) (db : Db) : Handle := {| hd_db := db; hd_base := hd_base h; hd_policy := hd_policy h |}.
Definition set_checkpoint_policy (h : Handle) (policy : CheckpointPolicy) : Handle :=
  {| hd_db := hd_db h; hd_base := hd_base h; hd_policy := policy |}.

(** The merged view of the current snapshot. *)
Definition handle_view (h : Handle) : LayeredState Overlay := layered (hd_base h) (db_overlay (hd_db h)).

Definition open_handle (generation : Z) (records : BaseRecords) (r : Recovery) : Handle := {|
  hd_db := {| db_generation := generation; db_overlay := freeze_overlay (with_next (rv_write r) (rv_next r));
              db_commit_seq := rv_commit_seq r; db_transaction_id := rv_txn r |};
  hd_base := records;
  hd_policy := default_policy
|}.

(** Base-0: an empty base under an empty overlay. *)
Definition empty_records : BaseRecords := {|
  base_elements := ∅; base_relations := ∅; base_incidences := ∅; base_properties := ∅; base_index := empty_base_index
|}.
Definition empty_view : LayeredState Overlay :=
  layered empty_records (freeze_overlay (new_overlay INITIAL empty_catalog)).

Record Session := { se_fs : FileSystem; se_handle : Handle }.

Definition on_files {A} (m : Tr FileSystem A) : Tr Session A := λ s,
  let '(fs, r) := m (se_fs s) in ({| se_fs := fs; se_handle := se_handle s |}, r).
Definition set_handle (h : Handle) : Tr Session () := tr_do (λ s, {| se_fs := se_fs s; se_handle := h |}).

Section lifecycle.
Context `{!Target} (ck : Checksum32) (io : nat → IoOutcome) (place : nat → Z).

(** ** Opening *)

(** [open_backing] and [Base::open]. *)
Definition open_backing (path : string) : Tr FileSystem (list byte) :=
  file ← fs_read io "open base file" path;
  bytes ← tr_read (λ _, ok_or (Storage NotFound) file);
  _ ← fs_touch io "mmap base file";
  mret bytes.

Definition open_base (generation : Z) : Tr FileSystem BaseView :=
  bytes ← open_backing (base_file generation);
  tr_read (λ s, map_err Storage (attach_view ck bytes (place (fs_calls s)))).

Definition recover (sb : SuperblockRecord) (records : BaseRecords) (view : BaseView) (outcome : ReplayOutcome) : res DbError Recovery :=
  for_each (recover_frame records) (ro_frames outcome)
    (recover_start sb {| bf_records := records; bf_next := dh_next (bv_header view); bf_catalog := bv_catalog view |}).

Definition open_store : Tr FileSystem Handle :=
  sb ← read_superblock_file io ck;
  let generation := sb_base_generation sb in
  view ← open_base generation;
  records ← tr_read (λ _, open_records view);
  log ← read_log io (delta_file generation);
  outcome ← tr_read (λ _, map_err Storage (replay ck generation log));
  _ ← (if decide (ro_valid_len outcome < zlen log) then truncate_log io (delta_file generation) (ro_valid_len outcome)
       else mret ());
  r ← tr_read (λ _, recover sb records view outcome);
  mret (open_handle generation records r).

(** The three files of a generation in the order that makes the superblock the last:
    what [create] and a checkpoint write. *)
Definition publish_generation (generation : Z) (base_bytes : list byte) (commit_seq transaction_id : Z) : Tr FileSystem () :=
  _ ← atomic_write io (base_file generation +:+ ".tmp") (base_file generation) base_bytes;
  _ ← create_empty_log io generation;
  write_superblock_file io ck generation commit_seq commit_seq transaction_id.

(** [Path::exists] answers no when it cannot look. *)
Definition exists_file (path : string) : Tr FileSystem bool := fs_step io (λ o s,
  (s, Ok (match o with IoDone => bool_decide (is_Some (fs_files s !! path)) | _ => false end))).

Definition create_store : Tr FileSystem Handle :=
  existing ← exists_file SUPERBLOCK_FILE;
  _ ← tr_read (λ _ : FileSystem, if (existing : bool) then Err (Storage AlreadyExists) else Ok ());
  bytes ← tr_read (λ _, freeze_view ck empty_view {| fs_commit_seq := 0; fs_transaction_id := 0; fs_generation := 0 |});
  _ ← publish_generation 0 bytes 0 0;
  open_store.

(** ** Checkpoints *)

(** What the checkpoint publishes, under the lock; the handle over the new
    generation keeps the caller's policy. *)
Definition fold_generation (h : Handle) : Tr FileSystem Handle :=
  let db := hd_db h in
  next_generation ← tr_read (λ _,
    ok_or (invalid_store "checkpoint generation overflow") (checked_add u64_max (db_generation db) 1));
  bytes ← tr_read (λ _, freeze_view ck (handle_view h)
    {| fs_commit_seq := db_commit_seq db; fs_transaction_id := db_transaction_id db; fs_generation := next_generation |});
  _ ← publish_generation next_generation bytes (db_commit_seq db) (db_transaction_id db);
  reopened ← open_store;
  _ ← ignored (fs_remove io "remove base file" (base_file (db_generation db)));
  _ ← ignored (fs_remove io "remove delta-log" (delta_file (db_generation db)));
  _ ← ignored (sync_directory io);
  mret (set_checkpoint_policy reopened (hd_policy h)).

Definition checkpoint : Tr Session () :=
  h ← tr_read (λ s, Ok (se_handle s));
  folded ← on_files (with_lock io (fold_generation h));
  set_handle folded.

(** [compact]. *)
Definition compact : Tr Session () := checkpoint.

Definition maybe_auto_checkpoint : Tr Session () :=
  h ← tr_read (λ s, Ok (se_handle s));
  log_bytes ← on_files (file_len io (delta_file (db_generation (hd_db h))));
  base_bytes ← on_files (file_len io (base_file (db_generation (hd_db h))));
  if should_checkpoint (hd_policy h) log_bytes base_bytes then checkpoint else mret ().

(** ** Validation *)

(** Every section of the container, then the sections the store binds. *)
Definition validate_store (h : Handle) : Tr FileSystem () :=
  _ ← read_superblock_file io ck;
  bytes ← open_backing (base_file (db_generation (hd_db h)));
  tr_read (λ s, map_err Storage (
    snapshot ← storage_text (open_checked bytes (place (fs_calls s)) ck);
    _ ← storage_text (verify_all snapshot ck);
    _ ← attach_view ck bytes (place (fs_calls s));
    Ok ())).

Definition validate_path : Tr FileSystem () := _ ← open_store; mret ().

(** ** Write transactions *)

(** [begin_write] under the lock: the transaction id is spent on the handle. *)
Definition start_write : Tr Session Writer :=
  h ← tr_read (λ s, Ok (se_handle s));
  begun ← tr_read (λ _, begin_write (hd_db h));
  _ ← set_handle (with_db h begun.1);
  mret begun.2.

(** [commit] of a changed delta, up to the release of the lock. *)
Definition publish_commit (wr : Writer) : Tr Session Z :=
  h ← tr_read (λ s, Ok (se_handle s));
  let db := hd_db h in
  record ← tr_read (λ _, commit_frame ck db wr);
  _ ← on_files (open_log_for_append io (db_generation db));
  _ ← on_files (append_to_log io (db_generation db) record.2);
  _ ← set_handle (with_db h {| db_generation := db_generation db; db_overlay := freeze_overlay (wr_delta wr);
                               db_commit_seq := record.1; db_transaction_id := wr_transaction_id wr |});
  mret record.1.

(** The transaction under the lock: its sequence number, and whether it changed anything. *)
Definition locked_write (f : WriteOverlay → WriteOverlay * res DbError ()) : Tr Session (Z * bool) :=
  wr ← start_write;
  let '(delta, value) := f (wr_delta wr) in
  _ ← tr_read (λ _, value);
  let wr := {| wr_parent_seq := wr_parent_seq wr; wr_delta := delta; wr_transaction_id := wr_transaction_id wr |} in
  if overlay_is_empty delta then mret (wr_parent_seq wr, false)
  else lsn ← publish_commit wr; mret (lsn, true).

Definition unlocking_session {A} (m : Tr Session A) : Tr Session A := λ s,
  let '(s, r) := m s in ({| se_fs := with_locked (se_fs s) false; se_handle := se_handle s |}, r).

(** [Db::write]. *)
Definition store_write (f : WriteOverlay → WriteOverlay * res DbError ()) : Tr Session Z :=
  _ ← on_files (acquire io);
  written ← unlocking_session (locked_write f);
  _ ← (if (written.2 : bool) then maybe_auto_checkpoint else mret ());
  mret written.1.

End lifecycle.
