(* ===== verification/CheckpointFacts.v ===== *)
(** * CheckpointFacts: what a directory holds

    [Holds]: the directory holds the state of a handle, that is, its superblock names
    a generation whose base file decodes to the handle's base and whose log replays
    to its overlay, possibly with a torn tail. Opening such a directory gives the
    state, and a checkpoint, wherever it fails or the process dies, leaves a
    directory that holds it. *)

From Stdlib Require Import String.
From stdpp Require Import base gmap sets list strings sorting pretty.
From S2P Require Import Prelude Bytes Ordered Layout Crc Snapshot SnapshotFacts SnapshotWrite SnapshotWriteFacts DbError DbWire DbState OverlayIndex Overlay OverlayReplay Merge DbWriter Store WriterRefines StoreFacts WriterFacts.
From S2P Require Import Wal WalRecovery Database BaseFile BorrowedIndex BaseView BaseViewFacts BaseRoundTrip Files Checkpoint.

Local Open Scope Z_scope.

Definition handle_store (h : Handle) : Store := store_of (hd_base h) (from_overlay (db_overlay (hd_db h))).

Section disk.
Context `{!Target} (ck : Checksum32) `{!Checksum32Laws ck}.

(** A base file that opens at any address. *)
Definition base_opens (bytes : list byte) (bf : BaseFile) : Prop :=
  ∀ addr, ∃ view, attach_view ck bytes addr = Ok view ∧ open_records view = Ok (bf_records bf) ∧
    bv_catalog view = bf_catalog bf ∧ dh_next (bv_header view) = bf_next bf.

(** The three files of a generation: superblock, base, and a log of the commits [cs] with a torn tail. *)
Record OnDisk (sb : SuperblockRecord) (bf : BaseFile) (cs : list CommitFrame) (tail : list byte) (files : directory) : Prop := {
  od_super : ∃ bytes, files !! SUPERBLOCK_FILE = Some bytes ∧ read_superblock ck (Some bytes) = Ok sb;
  od_base : ∃ bytes, files !! base_file (sb_base_generation sb) = Some bytes ∧ base_opens bytes bf;
  od_log : default [] (files !! delta_file (sb_base_generation sb)) = log_of ck cs ++ tail;
  od_tail : stops ck (sb_base_generation sb) tail
}.

(** The files that matter. *)
Lemma on_disk_ignores sb bf cs tail p :
  p ≠ SUPERBLOCK_FILE → p ≠ base_file (sb_base_generation sb) → p ≠ delta_file (sb_base_generation sb) →
  ignores (OnDisk sb bf cs tail) p.
Proof. intros H1 H2 H3 files files' Heq [Hs Hb Hl Ht]. split; [by rewrite Heq|by rewrite Heq|by rewrite Heq|done]. Qed.

(** What recovery makes of the commits is a handle of the same state. *)
Lemma recovered_inv sb bf db cs :
  superblock_wf sb → DbInv sb bf db cs →
  ∃ r, for_each (recover_frame (bf_records bf)) cs (recover_start sb bf) = Ok r ∧
    let h := open_handle (sb_base_generation sb) (bf_records bf) r in
    DbInv sb bf (hd_db h) cs ∧ same_state (hd_db h) db.
Proof.
  intros Hsb [Hlog Hg Hn Hseq Htxn Hlsn (r & Hr & Hw & Hnx & Hs & Ht)]. exists r. split; [done|].
  assert (freeze_overlay (with_next (rv_write r) (rv_next r)) = db_overlay db) as Ho by (rewrite Hw, Hnx; by destruct (db_overlay db)).
  cbn. split; [|by split_and!]. constructor; cbn [db_generation db_overlay db_commit_seq db_transaction_id open_handle hd_db]; try done.
  - by rewrite Ho.
  - by rewrite Hs.
  - unfold is_uint in *. lia.
  - by rewrite Hs.
  - exists r. rewrite Ho. split_and!; try done; lia.
Qed.

Section opening.
Context (io : nat → IoOutcome) (place : nat → Z) (l : bool) (sb : SuperblockRecord) (bf : BaseFile).

Lemma read_superblock_spec (I : directory → Prop) :
  (∀ files, I files → ∃ bytes, files !! SUPERBLOCK_FILE = Some bytes ∧ read_superblock ck (Some bytes) = Ok sb) →
  triple (at_ l I) (read_superblock_file io ck) (λ r s, at_ l I s ∧ r = sb) (io_failed io l I).
Proof.
  intros HI. eapply triple_bind; [apply read_spec|]. intros file s [[Hl Hs] ->].
  destruct (HI _ Hs) as (bytes & Hf & Hr). rewrite Hf. unfold mbind at 1, tr_bind at 1. cbn [tr_read ok_or].
  pose proof (touch_keeps io l I "read superblock" s (conj Hl Hs)) as Ht. unfold mbind, tr_bind.
  destruct (fs_touch io "read superblock" s) as [s' [[]|e| |]]; try done. cbn [tr_read]. by rewrite Hr.
Qed.

Lemma open_base_spec (I : directory → Prop) :
  (∀ files, I files → ∃ bytes, files !! base_file (sb_base_generation sb) = Some bytes ∧ base_opens bytes bf) →
  triple (at_ l I) (open_base ck io place (sb_base_generation sb))
    (λ view s, at_ l I s ∧ open_records view = Ok (bf_records bf) ∧ bv_catalog view = bf_catalog bf ∧
       dh_next (bv_header view) = bf_next bf) (io_failed io l I).
Proof.
  intros HI. unfold open_base, open_backing.
  apply (triple_bind _ _ _ (λ bytes s, at_ l I s ∧ base_opens bytes bf)).
  - eapply triple_bind; [apply read_spec|]. intros file s [[Hl Hs] ->]. destruct (HI _ Hs) as (bytes & Hf & Hb).
    rewrite Hf. unfold mbind at 1, tr_bind at 1. cbn [tr_read ok_or].
    pose proof (touch_keeps io l I "mmap base file" s (conj Hl Hs)) as Ht. unfold mbind, tr_bind.
    destruct (fs_touch io "mmap base file" s) as [s' [[]|e| |]]; try done.
  - intros bytes s [Hs Hb]. cbn [tr_read]. destruct (Hb (place (fs_calls s))) as (view & -> & H1 & H2 & H3). done.
Qed.

Lemma read_log_spec (I : directory → Prop) log :
  (∀ files, I files → default [] (files !! delta_file (sb_base_generation sb)) = log) →
  triple (at_ l I) (read_log io (delta_file (sb_base_generation sb))) (λ r s, at_ l I s ∧ r = log) (io_failed io l I).
Proof.
  intros HI. eapply triple_bind; [apply read_spec|]. intros file s [[Hl Hs] ->]. cbn. by rewrite (HI _ Hs).
Qed.

(** Cutting the log after its commits. *)
Lemma truncate_log_spec cs tail :
  0 < zlen tail →
  triple (at_ l (OnDisk sb bf cs tail)) (truncate_log io (delta_file (sb_base_generation sb)) (zlen (log_of ck cs)))
    (λ _, at_ l (OnDisk sb bf cs [])) (io_failed io l (λ files, OnDisk sb bf cs tail files ∨ OnDisk sb bf cs [] files)).
Proof.
  intros Ht. assert (∀ tail' e s, (tail' = tail ∨ tail' = []) → io_failed io l (OnDisk sb bf cs tail') e s →
    io_failed io l (λ files, OnDisk sb bf cs tail files ∨ OnDisk sb bf cs [] files) e s) as HE
    by (intros tail' e s [->| ->] [[? ?] ?]; (split; [split; [done|]|done]); [by left|by right]).
  unfold truncate_log. eapply (triple_bind _ _ _ (λ file s, at_ l (OnDisk sb bf cs tail) s ∧ is_Some file)).
  { intros s Hs. pose proof (read_spec io l _ "open delta-log for truncate" (delta_file (sb_base_generation sb)) s Hs) as Hr.
    destruct (fs_read _ _ _ s) as [s' [file|e| |]]; try done; [|by apply (HE tail); [left|]].
    destruct Hr as [Hs' ->]. split; [done|]. pose proof (od_log _ _ _ _ _ (proj2 Hs')) as Hlog.
    destruct (fs_files s' !! delta_file _); [done|]. cbn in Hlog. symmetry in Hlog. apply app_eq_nil in Hlog as [_ ->]. done. }
  intros file. apply triple_pre. intros [bytes ->]. cbn [ok_or].
  eapply (triple_bind _ _ _ (λ _, at_ l (OnDisk sb bf cs tail))); [by intros s Hs|]. intros _.
  eapply (triple_bind _ _ _ (λ _, at_ l (OnDisk sb bf cs []))).
  - apply call_spec. intros files [Hs Hb Hl _]. split.
    + by rewrite lookup_alter_ne.
    + by rewrite lookup_alter_ne.
    + rewrite lookup_alter_eq, app_nil_r. destruct (files !! delta_file _) as [log|]; cbn in Hl |- *.
      * subst log. unfold zlen. by rewrite Nat2Z.id, take_app_length.
      * symmetry in Hl. by apply app_eq_nil in Hl as [-> _].
    + by left.
  - intros []. eapply triple_mono; [| | |apply touch_keeps]; [done|done|]. intros e s He. by apply (HE []); [right|].
Qed.

(** Opening a directory of a generation, however its calls turn out. *)
Lemma open_spec db cs tail :
  superblock_wf sb → DbInv sb bf db cs →
  triple (at_ l (OnDisk sb bf cs tail)) (open_store ck io place)
    (λ h s, at_ l (OnDisk sb bf cs []) s ∧ hd_base h = bf_records bf ∧ hd_policy h = default_policy ∧
       DbInv sb bf (hd_db h) cs ∧ same_state (hd_db h) db)
    (io_failed io l (λ files, ∃ tail', OnDisk sb bf cs tail' files)).
Proof.
  intros Hsb Hinv. assert (∀ tail' e s, io_failed io l (OnDisk sb bf cs tail') e s →
    io_failed io l (λ files, ∃ tail', OnDisk sb bf cs tail' files) e s) as HE by (intros tail' e s [[? ?] ?]; split; [split; [done|eauto]|done]).
  assert (∀ A (m : Tr FileSystem A) Q, triple (at_ l (OnDisk sb bf cs tail)) m Q (io_failed io l (OnDisk sb bf cs tail)) →
    triple (at_ l (OnDisk sb bf cs tail)) m Q (io_failed io l (λ files, ∃ tail', OnDisk sb bf cs tail' files))) as Hup
    by (intros A m Q Hm; eapply triple_mono; [| | |exact Hm]; [done|done|exact (HE tail)]).
  apply (triple_know _ (stops ck (sb_base_generation sb) tail)); [intros s Hs; apply (od_tail _ _ _ _ _ (proj2 Hs))|intros Htail].
  unfold open_store. eapply triple_bind; [apply Hup, read_superblock_spec; by intros files [] |]. intros sb'. apply triple_pre. intros ->.
  eapply triple_bind; [apply Hup, open_base_spec; by intros files [] |]. intros view. apply triple_pre. intros (Hrec & Hcat & Hnext).
  rewrite Hrec. eapply (triple_bind _ _ _ (λ records s, at_ l (OnDisk sb bf cs tail) s ∧ records = bf_records bf)); [by intros s Hs|].
  intros records. apply triple_pre. intros ->.
  eapply triple_bind; [apply Hup, (read_log_spec _ (log_of ck cs ++ tail)); by intros files [] |]. intros log. apply triple_pre. intros ->.
  rewrite (replay_commits ck _ cs tail (di_log _ _ _ _ Hinv) Htail). cbn [map_err].
  eapply (triple_bind _ _ _ (λ o s, at_ l (OnDisk sb bf cs tail) s ∧ o = outcome_of ck cs)); [by intros s Hs|].
  intros o. apply triple_pre. intros ->. cbn [outcome_of ro_valid_len].
  destruct (recovered_inv sb bf db cs Hsb Hinv) as (r & Hr & Hi & Hsame).
  eapply (triple_bind _ _ _ (λ _, at_ l (OnDisk sb bf cs []))).
  - rewrite zlen_app. destruct tail as [|b tail].
    + rewrite decide_False by (change (zlen (@nil byte)) with 0; lia). by intros s Hs.
    + assert (0 < zlen (b :: tail)) as Hpos by (unfold zlen; cbn [length]; lia). rewrite decide_True by lia.
      eapply triple_mono; [| | |by apply (truncate_log_spec cs (b :: tail))]; [done|done|].
      intros e s [[? [?|?]] ?]; (split; [split; [done|eauto]|done]).
  - intros _ s Hs. unfold mbind, tr_bind. cbn [tr_read].
    assert (recover sb (bf_records bf) view (outcome_of ck cs) = Ok r) as ->; [|by split_and!].
    unfold recover. cbn [outcome_of ro_frames]. rewrite Hcat, Hnext. destruct bf. exact Hr.
Qed.
End opening.

(** ** States on disk *)

(** The handle [h] is what recovery makes of the commits [cs] over the base [bf], and
    a published, typed state of a store of integrity. *)
Record Held (h : Handle) (sb : SuperblockRecord) (bf : BaseFile) (cs : list CommitFrame) : Prop := {
  he_super : superblock_wf sb;
  he_next : next_wf (bf_next bf);
  he_base : hd_base h = bf_records bf;
  he_db : DbInv sb bf (hd_db h) cs;
  he_opened : Opened (bf_records bf) (bf_next bf) (bf_catalog bf);
  he_published : published (bf_records bf) (bf_next bf) (bf_catalog bf) (db_overlay (hd_db h));
  he_typed : StoreTyped (handle_store h)
}.

Definition Holds (tail : list byte) (h : Handle) (files : directory) : Prop :=
  ∃ sb bf cs, Held h sb bf cs ∧ OnDisk sb bf cs tail files.
Definition Recoverable (h : Handle) (files : directory) : Prop := ∃ tail, Holds tail h files.

(** [h'] is [h] opened anew. *)
Definition reopened (h' h : Handle) : Prop :=
  same_state (hd_db h') (hd_db h) ∧ hd_base h' = hd_base h ∧ hd_policy h' = default_policy.

Lemma reopened_store h' h : reopened h' h → handle_store h' = handle_store h ∧ db_commit_seq (hd_db h') = db_commit_seq (hd_db h).
Proof. intros ((_ & Ho & Hs) & Hb & _). unfold handle_store. by rewrite Ho, Hb. Qed.

Lemma holds_ignores tail h p :
  p ≠ SUPERBLOCK_FILE → p ≠ base_file (db_generation (hd_db h)) → p ≠ delta_file (db_generation (hd_db h)) →
  ignores (Holds tail h) p.
Proof.
  intros H1 H2 H3 files files' Heq (sb & bf & cs & Hh & Hd). exists sb, bf, cs. split; [done|].
  rewrite (di_generation _ _ _ _ (he_db _ _ _ _ Hh)) in H2, H3. by apply (on_disk_ignores sb bf cs tail p H1 H2 H3 files).
Qed.

Lemma open_held io place l h sb bf cs tail :
  Held h sb bf cs →
  triple (at_ l (OnDisk sb bf cs tail)) (open_store ck io place)
    (λ h' s, at_ l (OnDisk sb bf cs []) s ∧ Held h' sb bf cs ∧ reopened h' h)
    (io_failed io l (λ files, ∃ tail', OnDisk sb bf cs tail' files)).
Proof.
  intros [Hsb Hn Hb Hdb Ho Hp Hty]. eapply triple_mono; [| | |exact (open_spec io place l sb bf (hd_db h) cs tail Hsb Hdb)]; [done| |done].
  intros h' s (Hd & Hb' & Hpol & Hdb' & Hsame). pose proof Hsame as (_ & Hov & _). split; [done|].
  split; [|by rewrite <-Hb in Hb'; split_and!]. constructor; try done; [by rewrite Hov|].
  unfold handle_store. by rewrite Hov, Hb', <-Hb.
Qed.

Lemma reopen_spec io place l h :
  triple (at_ l (Recoverable h)) (open_store ck io place)
    (λ h' s, at_ l (Holds [] h') s ∧ reopened h' h) (io_failed io l (Recoverable h)).
Proof.
  intros s [Hl (tail & sb & bf & cs & Hh & Hd)]. pose proof (open_held io place l h sb bf cs tail Hh s (conj Hl Hd)) as Hopen.
  destruct (open_store ck io place s) as [s' [h'|e| |]]; try done.
  - destruct Hopen as ([Hl' Hd'] & Hh' & Hre). split; [|done]. split; [done|]. by exists sb, bf, cs.
  - destruct Hopen as [[Hl' (tail' & Hd')] Hf]. split; [|done]. split; [done|]. by exists tail', sb, bf, cs.
Qed.

Lemma holds_policy tail h p files : Holds tail h files → Holds tail (set_checkpoint_policy h p) files.
Proof. intros (sb & bf & cs & [] & Hd). exists sb, bf, cs. split; [|done]. by constructor. Qed.

(** ** Publishing a generation *)

Definition published_superblock (generation commit_seq transaction_id : Z) : SuperblockRecord :=
  let r := superblock_record generation commit_seq commit_seq transaction_id in set_superblock_crc r (ck 0 (superblock_prefix r)).

Section publish.
Context (io : nat → IoOutcome) (g1 seq txn : Z) (bytes : list byte) (bf1 : BaseFile).
Context (Hg : is_uint 64 g1) (Hseq : is_uint 64 seq) (Htxn : is_uint 64 txn) (Hopens : base_opens bytes bf1).

Lemma superblock_record_current : superblock_current (superblock_record g1 seq seq txn).
Proof using Hg Hseq Htxn. split; [|by split_and!]. by constructor. Qed.

Lemma published_superblock_wf : superblock_wf (published_superblock g1 seq txn).
Proof using Hg Hseq Htxn Checksum32Laws0.
  apply set_superblock_crc_wf; [apply superblock_record_current|]. apply ck_u32. split; lia.
Qed.

(** From a directory with [I], whose property depends on none of the files written:
    a failure leaves [I], or the published generation. *)
Lemma publish_generation_spec l (I : directory → Prop) :
  ignores I (base_file g1 +:+ ".tmp") → ignores I (base_file g1) → ignores I (delta_file g1) → ignores I SUPERBLOCK_TEMP_FILE →
  let J := OnDisk (published_superblock g1 seq txn) bf1 [] [] in
  triple (at_ l I) (publish_generation ck io g1 bytes seq txn) (λ _, at_ l J) (io_failed io l (λ files, I files ∨ J files)).
Proof using Hg Hseq Htxn Hopens Checksum32Laws0.
  intros I1 I2 I3 I4 J. pose proof (write_superblock_Ok ck _ (proj1 superblock_record_current)) as Hw.
  set (sbb := superblock_bytes _) in Hw.
  set (D1 (files : directory) := I files ∧ files !! base_file g1 = Some bytes).
  set (D2 (files : directory) := D1 files ∧ files !! delta_file g1 = Some []).
  set (R := io_failed io l (λ files, I files ∨ J files)).
  assert (∀ files, D2 files → J (<[SUPERBLOCK_FILE := sbb]> files)) as HJ.
  { intros files [[_ Hbase] Hlog]. split; cbn [published_superblock set_superblock_crc superblock_record sb_base_generation].
    - exists sbb. split; [by apply lookup_insert_eq|]. apply superblock_published; [done|].
      exists sbb, (superblock_record g1 seq seq txn). split_and!; [done|exact superblock_record_current|exact Hw|done].
    - exists bytes. split; [|done]. by rewrite lookup_insert_ne.
    - rewrite lookup_insert_ne by done. by rewrite Hlog.
    - by left. }
  apply (triple_bind _ _ _ (λ _, at_ l D1)).
  { eapply triple_mono; [| | |apply (atomic_write_spec io l I D1)]; [done|done| | |done|].
    - intros e s [[? Hd] ?]. split; [split; [done|left; by destruct Hd as [|[]]]|done].
    - names.
    - intros files Hd. split; [|by apply lookup_insert_eq]. by apply ignores_insert. }
  intros []. apply (triple_bind _ _ _ (λ _, at_ l D2)).
  { eapply triple_mono; [| | |apply (create_empty_log_spec io l D1 D2)]; [done|done| |].
    - intros e s [[? Hd] ?]. split; [split; [done|left; by destruct Hd as [[]|[[]]]]|done].
    - intros files [Hd Hb]. split; [|by apply lookup_insert_eq]. split; [by apply ignores_insert|]. by rewrite lookup_insert_ne. }
  intros []. unfold write_superblock_file, publish_superblock. apply (keeps_then io); [apply touch_keeps| |].
  { intros e s [[? [[? _] _]] ?]. split; [split; [done|by left]|done]. }
  rewrite Hw. cbn [map_err]. eapply (triple_bind _ _ _ (λ b s, at_ l D2 s ∧ b = sbb)); [by intros s Hs|].
  intros b. apply triple_pre. intros ->.
  eapply triple_mono; [| | |apply (publish_spec io l D2 J)]; [done|done| |discriminate| |exact HJ].
  - intros e s [[? Hd] ?]. split; [split; [done|]|done]. destruct Hd as [[[? _] _]|?]; [by left|by right].
  - intros files files' Heq [[Hd Hb] Hlog]. split; [split; [|rewrite Heq; [done|names]]|rewrite Heq; [done|names]].
    by apply (I4 files).
Qed.

End publish.

(** The handle a new generation opens to. *)
Definition first_handle (sb : SuperblockRecord) (bf : BaseFile) : Handle :=
  open_handle (sb_base_generation sb) (bf_records bf) (recover_start sb bf).

Lemma first_held sb bf :
  superblock_wf sb → next_wf (bf_next bf) → Opened (bf_records bf) (bf_next bf) (bf_catalog bf) →
  StoreTyped (handle_store (first_handle sb bf)) → Held (first_handle sb bf) sb bf [].
Proof.
  intros Hsb Hn Ho Hty. constructor; try done.
  - exact (proj2 (start_inv ck sb bf Hsb Hn (hd_db (first_handle sb bf)) [] eq_refl)).
  - exact (published_open _ _ _).
Qed.

(** ** Folding a generation *)

(** [h'] is the state of [h] on the next generation. *)
Definition folded (h' h : Handle) : Prop :=
  handle_store h' = handle_store h ∧ db_commit_seq (hd_db h') = db_commit_seq (hd_db h) ∧
  db_generation (hd_db h') = db_generation (hd_db h) + 1.

Section fold.
Context (io : nat → IoOutcome) (place : nat → Z).
Context (h : Handle) (sb : SuperblockRecord) (bf : BaseFile) (cs : list CommitFrame) (Hh : Held h sb bf cs).
Context (Hfit : FreezeFits (handle_store h)) (Hgen : db_generation (hd_db h) < u64_max).

Let db := hd_db h.
Let g := db_generation db.
Let sb1 : SuperblockRecord := published_superblock (g + 1) (db_commit_seq db) (db_transaction_id db).
Let bf1 : BaseFile :=
  {| bf_records := store_records (handle_store h); bf_next := o_next (db_overlay db); bf_catalog := o_catalog (db_overlay db) |}.
Let h1 : Handle := first_handle sb1 bf1.

Lemma fold_words : is_uint 64 (g + 1) ∧ is_uint 64 (db_commit_seq db) ∧ is_uint 64 (db_transaction_id db).
Proof using Hh Hgen.
  pose proof (sw_generation _ (he_super _ _ _ _ Hh)) as [Hg0 _]. rewrite <-(di_generation _ _ _ _ (he_db _ _ _ _ Hh)) in Hg0.
  split_and!; [unfold g, db, is_uint, u64_max in *; lia|apply (di_seq _ _ _ _ (he_db _ _ _ _ Hh))|apply (di_txn _ _ _ _ (he_db _ _ _ _ Hh))].
Qed.

Lemma fold_superblock_wf : superblock_wf sb1.
Proof using Hh Hgen Checksum32Laws0. destruct fold_words as (? & ? & ?). by apply published_superblock_wf. Qed.

Lemma fold_store : handle_store h1 = handle_store h.
Proof using. exact (store_of_records (handle_store h)). Qed.

Lemma fold_held : Held h1 sb1 bf1 [].
Proof using Hh Hgen Checksum32Laws0.
  pose proof fold_superblock_wf as Hsb. pose proof (di_next _ _ _ _ (he_db _ _ _ _ Hh)) as Hn.
  destruct (published_sound _ _ _ _ (he_opened _ _ _ _ Hh) (he_published _ _ _ _ Hh)) as [_ Hwf].
  rewrite <-(he_base _ _ _ _ Hh) in Hwf. apply first_held; [done|done|exact (store_records_opened (handle_store h) Hwf)|].
  change (first_handle sb1 bf1) with h1. rewrite fold_store. apply (he_typed _ _ _ _ Hh).
Qed.

Lemma fold_folded : folded h1 h.
Proof using. split_and!; [exact fold_store|done|done]. Qed.

Lemma fold_file :
  ∃ bytes, freeze_view ck (handle_view h)
    {| fs_commit_seq := db_commit_seq db; fs_transaction_id := db_transaction_id db; fs_generation := g + 1 |} = Ok bytes ∧
    base_opens bytes bf1.
Proof using Hh Hgen Hfit Checksum32Laws0.
  pose proof Hh as [Hsb Hn Hb Hdb Ho Hp Hty]. rewrite <-Hb in Ho, Hp.
  destruct (published_file ck (hd_base h) _ _ _
    {| fs_commit_seq := db_commit_seq db; fs_transaction_id := db_transaction_id db; fs_generation := g + 1 |} Ho Hp Hty Hfit)
    as (bytes & Hf & _ & Hopen).
  - destruct fold_words as (? & ? & ?). apply Forall_cons_2; [done|]. apply Forall_cons_2; [done|]. by apply Forall_singleton.
  - exists bytes. split; [exact Hf|]. intros addr. destruct (Hopen addr) as (view & H1 & H2 & H3 & H4). exists view.
    split; [exact H1|]. split; [exact H2|]. split; [exact H3|]. rewrite H4. cbn. unfold db. by destruct (o_next (db_overlay (hd_db h))).
Qed.

Let D0 : directory → Prop := OnDisk sb bf cs [].

Lemma old_ignores p : p ≠ SUPERBLOCK_FILE → p ≠ base_file g → p ≠ delta_file g → ignores D0 p.
Proof using Hh. unfold g, db. rewrite (di_generation _ _ _ _ (he_db _ _ _ _ Hh)). apply on_disk_ignores. Qed.

(** A failure leaves the old state, or the new one. *)
Definition old_or_new (files : directory) : Prop := ∃ h', Recoverable h' files ∧ (h' = h ∨ folded h' h).

Lemma old_kept files : D0 files → old_or_new files.
Proof using Hh. intros Hd. exists h. split; [|by left]. exists [], sb, bf, cs. by split. Qed.

Lemma new_kept files : Recoverable h1 files → old_or_new files.
Proof using. intros Hr. exists h1. split; [done|right; exact fold_folded]. Qed.

Lemma fold_publish bytes l :
  base_opens bytes bf1 →
  triple (at_ l D0) (publish_generation ck io (g + 1) bytes (db_commit_seq db) (db_transaction_id db))
    (λ _, at_ l (OnDisk sb1 bf1 [] [])) (io_failed io l old_or_new).
Proof using Hh Hgen Checksum32Laws0.
  intros Hopens. destruct fold_words as (? & ? & ?).
  eapply triple_mono; [| | |apply (publish_generation_spec io (g + 1) _ _ bytes bf1)]; [done|done| |done..| | | |];
    [|apply old_ignores; names..].
  intros e s [[? [Hd|Hd]] ?]; (split; [split; [done|]|done]); [by apply old_kept|]. apply new_kept. exists [], sb1, bf1, [].
  split; [exact fold_held|done].
Qed.

Lemma fold_spec l :
  triple (at_ l D0) (fold_generation ck io place h)
    (λ h' s, at_ l (λ files, Holds [] h' files ∧ default [] (files !! delta_file (g + 1)) = []) s ∧ folded h' h ∧
       hd_policy h' = hd_policy h)
    (io_failed io l old_or_new).
Proof using Hh Hgen Hfit Checksum32Laws0.
  destruct fold_file as (bytes & Hfz & Hopens). pose proof (fold_publish bytes l Hopens) as Hpub.
  unfold fold_generation. fold db g. rewrite (checked_add_fits u64_max g 1) by (unfold g, db; lia).
  cbn [ok_or]. eapply (triple_bind _ _ _ (λ n s, at_ l D0 s ∧ n = g + 1)); [by intros s Hs|]. intros n. apply triple_pre. intros ->.
  rewrite Hfz. eapply (triple_bind _ _ _ (λ b s, at_ l D0 s ∧ b = bytes)); [by intros s Hs|]. intros b. apply triple_pre. intros ->.
  eapply triple_bind; [exact Hpub|]. intros [].
  apply (triple_bind _ _ _ (λ h' s, at_ l (OnDisk sb1 bf1 [] []) s ∧ Held h' sb1 bf1 [] ∧ reopened h' h1)).
  { eapply triple_mono; [| | |apply (open_held io place l h1 sb1 bf1 [] [] fold_held)]; [done|done|].
    intros e s [[? [tail Hd]] ?]. split; [split; [done|]|done]. apply new_kept. exists tail, sb1, bf1, []. split; [exact fold_held|done]. }
  intros h'. apply triple_pre. intros [Hh' Hre].
  assert (∀ p, p = base_file g ∨ p = delta_file g → ignores (OnDisk sb1 bf1 [] []) p) as Hold.
  { intros p [->| ->]; apply on_disk_ignores; change (sb_base_generation sb1) with (g + 1); names. }
  do 2 (apply (triple_bind _ _ _ (λ _, at_ l (OnDisk sb1 bf1 [] [])));
    [apply (ignored_keeps io), remove_keeps, Hold; first [by left|by right]|intros []]).
  apply (triple_bind _ _ _ (λ _, at_ l (OnDisk sb1 bf1 [] []))); [apply (ignored_keeps io), sync_directory_keeps|intros []].
  intros s [Hl Hd]. cbn. destruct (reopened_store _ _ Hre) as [Hst Hsq]. destruct fold_folded as (H1 & H2 & H3).
  split; [|split; [|done]].
  - split; [done|]. split; [apply holds_policy; by exists sb1, bf1, []|exact (od_log _ _ _ _ _ Hd)].
  - split_and!; [by rewrite <-H1, <-Hst|by rewrite <-H2, <-Hsq|]. rewrite <-H3. apply Hre.
Qed.

End fold.
End disk.
