(* ===== verification/CheckpointSafety.v ===== *)
(** * CheckpointSafety: checkpoints and creation, whatever fails

    A checkpoint succeeds on a working file system, and wherever it fails or the
    process dies the directory opens to the same state; creating a store likewise.
    A handle whose checkpoint failed after the superblock was published is stale:
    what it commits from then on is acknowledged and lost. *)

From Stdlib Require Import String.
From stdpp Require Import base gmap sets list strings sorting pretty.
From S2P Require Import Prelude Bytes Ordered Layout Crc Snapshot SnapshotFacts SnapshotWrite SnapshotWriteFacts DbError DbWire DbState OverlayIndex Overlay OverlayReplay Merge DbWriter Store WriterRefines StoreFacts WriterFacts.
From S2P Require Import Wal WalRecovery Database BaseFile BorrowedIndex BaseView BaseViewFacts BaseRoundTrip Files Checkpoint CheckpointFacts.

Local Open Scope Z_scope.

(** ** Sessions *)

(** The session's files satisfy [P], and its handle is [h]. *)
Definition with_handle (h : Handle) (P : FileSystem → Prop) (s : Session) : Prop := P (se_fs s) ∧ se_handle s = h.

Lemma on_files_spec {A} h P (m : Tr FileSystem A) Q R :
  triple P m Q R →
  triple (with_handle h P) (on_files m) (λ a, with_handle h (Q a)) (λ e, with_handle h (R e)).
Proof.
  intros Hm s [Hs Hh]. specialize (Hm (se_fs s) Hs). unfold on_files. destruct (m (se_fs s)) as [fs [a|e| |]]; done.
Qed.

Lemma get_handle_spec h P R : triple (with_handle h P) (tr_read (λ s, Ok (se_handle s))) (λ h' s, with_handle h P s ∧ h' = h) R.
Proof. intros s [Hs Hh]. done. Qed.

Lemma set_handle_spec h h' P R : triple (with_handle h P) (set_handle h') (λ _, with_handle h' P) R.
Proof. intros s [Hs Hh]. done. Qed.

(** A new process in the directory: it holds no lock. *)
Definition process (files : directory) : FileSystem := {| fs_files := files; fs_locked := false; fs_calls := 0 |}.

(** An environment in which no call fails. *)
Definition working (io : nat → IoOutcome) : Prop := ∀ n, io n = IoDone.

Lemma working_not_faulty io : working io → ¬ Faulty io.
Proof. intros Hw [k Hk]. by apply Hk. Qed.

Section safety.
Context `{!Target} (ck : Checksum32) `{!Checksum32Laws ck}.

(** A directory that holds a state opens to it when nothing fails. *)
Lemma reopen_works io place h files :
  working io → Recoverable ck h files →
  ∃ fs h', open_store ck io place (process files) = (fs, Ok h') ∧ reopened h' h ∧ Holds ck [] h' (fs_files fs) ∧ fs_locked fs = false.
Proof.
  intros Hw Hr. pose proof (reopen_spec ck io place false h (process files) (conj eq_refl Hr)) as Hopen.
  destruct (open_store ck io place (process files)) as [fs [h'|e| |]]; [|by destruct (working_not_faulty io Hw); apply Hopen|done..].
  destruct Hopen as [[Hl Hd] Hre]. by exists fs, h'.
Qed.

(** ** Checkpoints *)

Lemma lock_ignored tail h : ignores (Holds ck tail h) LOCK_FILE.
Proof. apply holds_ignores; names. Qed.

Definition emptied (h : Handle) (files : directory) : Prop := default [] (files !! delta_file (db_generation (hd_db h))) = [].

Lemma checkpoint_spec io place h :
  FreezeFits (handle_store h) → db_generation (hd_db h) < u64_max →
  triple (with_handle h (at_ false (Holds ck [] h))) (checkpoint ck io place)
    (λ _ s, ∃ h', with_handle h' (at_ false (λ files, Holds ck [] h' files ∧ emptied h' files)) s ∧ folded h' h ∧ hd_policy h' = hd_policy h)
    (λ e, with_handle h (io_failed io false (old_or_new ck h) e)).
Proof.
  intros Hfit Hgen. unfold checkpoint. eapply triple_bind; [apply get_handle_spec|]. intros h0. apply triple_pre. intros ->.
  set (Q h' files := (Holds ck [] h' files ∧ emptied h' files) ∧ folded h' h ∧ hd_policy h' = hd_policy h).
  set (J files := old_or_new ck h files ∧ Faulty io).
  assert (triple (at_ false (Holds ck [] h)) (with_lock io (fold_generation ck io place h)) (λ h', at_ false (Q h')) (λ e, at_ false J)) as Hfold.
  { unfold with_lock. eapply triple_bind.
    - eapply triple_mono; [| | |apply (acquire_spec io (Holds ck [] h)), lock_ignored]; [done|done|].
      intros e s [[? ?] ?]. split; [done|]. split; [|done]. exists h. split; [by exists []|by left].
    - intros []. apply unlocking_spec. intros s [Hl (sb & bf & cs & Hh & Hd)].
      pose proof (fold_spec ck io place h sb bf cs Hh Hfit Hgen true s (conj Hl Hd)) as Hf.
      destruct (fold_generation ck io place h s) as [s' [h'|e| |]]; try done.
      + destruct Hf as ([Hl' [Hd' Hlog]] & Hfo & Hp). split; [done|]. split; [|done]. split; [done|].
        unfold emptied. destruct Hfo as (_ & _ & ->). done.
      + destruct Hf as [[Hl' Hd'] Hio]. split; [done|]. by split. }
  eapply triple_bind.
  - eapply triple_mono; [| | |exact (on_files_spec h _ _ _ _ Hfold)]; [done|done|].
    intros e s [[Hl [Hd Hio]] Hh]. split; [|done]. split; [|done]. by split.
  - intros h' s [[Hl [Hd [Hfo Hp]]] Hh]. exists h'. split; [|done]. by split.
Qed.

(** C26. A checkpoint survives everything. On a session whose directory holds its
    handle's state, with the state in the reach of the base file's offsets, a
    checkpoint ends in one of two ways, the lock released: it succeeds, and the
    handle is the same state on the next generation with an empty log; or some call
    failed, and the handle is as before. However its calls turned out (in
    particular if the process died at any of them, that is, no later call had an
    effect), opening the directory afterwards gives the same state and commit
    sequence; without a failing call the checkpoint succeeds. *)
Theorem checkpoint_survives io place s :
  let h := se_handle s in
  fs_locked (se_fs s) = false → Holds ck [] h (fs_files (se_fs s)) →
  FreezeFits (handle_store h) → db_generation (hd_db h) < u64_max →
  let '(s', r) := checkpoint ck io place s in
  fs_locked (se_fs s') = false ∧
  match r with
  | Ok _ =>
      folded (se_handle s') h ∧ hd_policy (se_handle s') = hd_policy h ∧
      Holds ck [] (se_handle s') (fs_files (se_fs s')) ∧ emptied (se_handle s') (fs_files (se_fs s'))
  | Err _ => se_handle s' = h ∧ ¬ working io
  | _ => False
  end ∧
  ∀ io' place', working io' → ∃ fs h', open_store ck io' place' (process (fs_files (se_fs s'))) = (fs, Ok h') ∧
    handle_store h' = handle_store h ∧ db_commit_seq (hd_db h') = db_commit_seq (hd_db h) ∧ Holds ck [] h' (fs_files fs).
Proof.
  intros h Hl Hd Hfit Hgen. pose proof (checkpoint_spec io place h Hfit Hgen s (conj (conj Hl Hd) eq_refl)) as Hc.
  assert (∀ files, old_or_new ck h files → ∀ io' place', working io' → ∃ fs h',
    open_store ck io' place' (process files) = (fs, Ok h') ∧ handle_store h' = handle_store h ∧
    db_commit_seq (hd_db h') = db_commit_seq (hd_db h) ∧ Holds ck [] h' (fs_files fs)) as Hre.
  { intros files (h1 & Hr & Hc1) io' place' Hw. destruct (reopen_works io' place' h1 files Hw Hr) as (fs & h' & Ho & Hre & Hd' & _).
    destruct (reopened_store _ _ Hre) as [H1 H2]. exists fs, h'. split_and!; [done|rewrite H1|rewrite H2|done];
      (destruct Hc1 as [->|(? & ? & ?)]; done). }
  destruct (checkpoint ck io place s) as [s' [[]|e| |]]; try done.
  - destruct Hc as (h' & ([Hl' [Hd' He]] & Hh') & Hfo & Hp). subst h'. split; [done|]. split; [by split_and!|].
    apply Hre. exists (se_handle s'). split; [by exists []|by right].
  - destruct Hc as ([[Hl' Hd'] Hio] & Hh'). split; [done|]. split; [split; [done|]|by apply Hre].
    intros Hw. by apply (working_not_faulty io Hw).
Qed.

(** ** A failed checkpoint and its handle *)

(** The generation the directory's superblock names. *)
Definition names_generation (files : directory) (g : Z) : Prop :=
  ∃ sb, read_superblock ck (files !! SUPERBLOCK_FILE) = Ok sb ∧ sb_base_generation sb = g.

Lemma holds_generation tail h files g :
  Holds ck tail h files → names_generation files g → db_generation (hd_db h) = g.
Proof.
  intros (sb & bf & cs & Hh & Hd) (sb' & Hr & <-). destruct (od_super _ _ _ _ _ _ Hd) as (bytes & Hf & Hr'). rewrite Hf, Hr' in Hr.
  injection Hr as <-. apply (di_generation _ _ _ _ (he_db _ _ _ _ Hh)).
Qed.

(** What every step keeps, whatever its result. *)
Definition always {S A} (I : S → Prop) (m : Tr S A) : Prop := ∀ s, I s → I (m s).1.

Lemma always_bind {S A B} (I : S → Prop) (m : Tr S A) (f : A → Tr S B) :
  always I m → (∀ a, always I (f a)) → always I (m ≫= f).
Proof.
  intros Hm Hf s Hs. unfold mbind, tr_bind. specialize (Hm s Hs). destruct (m s) as [s' [a|e| |]]; try done. by apply Hf.
Qed.
Lemma always_read {S A} (I : S → Prop) (f : S → res DbError A) : always I (tr_read f).
Proof. by intros s Hs. Qed.
Lemma always_ret {S A} (I : S → Prop) (a : A) : always I (mret a).
Proof. by intros s Hs. Qed.

Definition files_keep (I : directory → Prop) (s : FileSystem) : Prop := I (fs_files s).

Lemma always_call io I operation effect :
  (∀ files, I files → I (effect files)) → always (files_keep I) (fs_call io operation effect).
Proof. intros He s Hs. unfold fs_call, fs_step. destruct (io _) as [|[] written|]; cbn; by try apply He. Qed.
Lemma always_touch io I operation : always (files_keep I) (fs_touch io operation).
Proof. by apply always_call. Qed.

Lemma always_on_error {A} I (m : Tr FileSystem A) cleanup :
  always (files_keep I) m → always (files_keep I) cleanup → always (files_keep I) (on_error m cleanup).
Proof.
  intros Hm Hc s Hs. specialize (Hm s Hs). unfold on_error. destruct (m s) as [s' [a|e| |]]; [done|by apply Hc..].
Qed.
Lemma always_ignored I (m : Tr FileSystem ()) : always (files_keep I) m → always (files_keep I) (ignored m).
Proof. intros Hm s Hs. by apply Hm. Qed.

Lemma always_acquire io I : ignores I LOCK_FILE → always (files_keep I) (acquire io).
Proof.
  intros Hi. apply always_bind; [apply always_touch|]. intros []. apply always_bind.
  - apply always_call. intros files. by apply ignores_insert.
  - intros [] s Hs. unfold try_lock, fs_step. cbn [called fs_locked]. destruct (fs_locked s); [done|]. by destruct (io _).
Qed.

Lemma always_append io I g frame : ignores I (delta_file g) → always (files_keep I) (append_to_log io g frame).
Proof.
  intros Hi. assert (∀ eof, always (files_keep I) (rollback_log io (delta_file g) eof)) as Hrb.
  { intros eof. apply always_bind; [|intros []]; apply always_ignored; [|apply always_touch]. apply always_call. intros files.
    by apply ignores_alter. }
  apply always_bind; [apply always_bind; [apply always_touch|intros []; apply always_read]|]. intros file.
  apply always_bind; [|intros []; by apply always_on_error; [apply always_touch|]]. apply always_on_error; [|done].
  intros s Hs. unfold fs_write, fs_step. destruct (io _); cbn; by try apply ignores_alter.
Qed.

(** A transaction of a handle that never folds touches its own log and the lock. *)
Definition stale_session (I : directory → Prop) (g : Z) (s : Session) : Prop :=
  I (fs_files (se_fs s)) ∧ db_generation (hd_db (se_handle s)) = g ∧ hd_policy (se_handle s) = Manual.

Lemma always_files {A} I g (m : Tr FileSystem A) : always (files_keep I) m → always (stale_session I g) (on_files m).
Proof. intros Hm s (Hs & Hg & Hp). specialize (Hm (se_fs s) Hs). unfold on_files. destruct (m (se_fs s)) as [fs r]. done. Qed.

Lemma read_handle {A} (k : Handle → Tr Session A) s : (h ← tr_read (λ s, Ok (se_handle s)); k h) s = k (se_handle s) s.
Proof. done. Qed.

Lemma begin_write_generation db db' wr : begin_write db = Ok (db', wr) → db_generation db' = db_generation db.
Proof. unfold begin_write. intros (txn & _ & [= <- _])%bind_Ok_inv. done. Qed.

Lemma always_write io place I g f :
  ignores I LOCK_FILE → ignores I (delta_file g) → always (stale_session I g) (store_write ck io place f).
Proof.
  intros Hlock Hlog. apply always_bind; [by apply always_files, always_acquire|]. intros [].
  assert (always (stale_session I g) (locked_write ck io f)) as Hw.
  { apply always_bind.
    - intros s (Hs & Hg & Hp). unfold start_write, mbind, tr_bind. cbn [tr_read].
      destruct (begin_write (hd_db (se_handle s))) as [[db wr]|e| |] eqn:Hb; [|done..]. cbn.
      split_and!; [done| |done]. cbn. by rewrite (begin_write_generation _ _ _ Hb).
    - intros wr. destruct (f (wr_delta wr)) as [delta value]. apply always_bind; [apply always_read|intros []].
      destruct (overlay_is_empty delta); [apply always_ret|]. apply always_bind; [|intros lsn; apply always_ret].
      intros s Hs. pose proof Hs as (Hf & Hg & Hp). unfold publish_commit. unfold mbind at 1, tr_bind at 1. cbn [tr_read].
      rewrite Hg. apply (always_bind (stale_session I g)); [apply always_read| |exact Hs]. intros record. apply always_bind.
      + apply always_files, always_call. intros files. by apply ignores_insert.
      + intros []. apply always_bind; [by apply always_files, always_append|]. intros [].
        apply always_bind; [|intros []; apply always_ret]. intros s' (Hf' & Hg' & Hp'). done. }
  apply always_bind.
  - intros s Hs. specialize (Hw s Hs). unfold unlocking_session. by destruct (locked_write ck io f s) as [s' r].
  - intros [lsn dirty]. apply always_bind; [|intros []; apply always_ret]. destruct dirty; [|apply always_ret].
    intros s Hs. unfold maybe_auto_checkpoint. cbn [snd]. rewrite read_handle. destruct (se_handle s) as [db base pol] eqn:Hh.
    assert (pol = Manual) as -> by (destruct Hs as (_ & _ & Hp); by rewrite Hh in Hp). revert s Hh Hs. cbn [hd_policy should_checkpoint hd_db].
    intros s _. revert s. change (always (stale_session I g) (_ ← on_files (file_len io (delta_file (db_generation db)));
      _ ← on_files (file_len io (base_file (db_generation db))); mret ())).
    do 2 (apply always_bind; [apply always_files; by intros fs Hfs|intros ?]). apply always_ret.
Qed.

(** What a write that succeeds has done to the handle. *)
Lemma tr_bind_inv {S A B} (m : Tr S A) (f : A → Tr S B) s s' b :
  (m ≫= f) s = (s', Ok b) → ∃ s1 a, m s = (s1, Ok a) ∧ f a s1 = (s', Ok b).
Proof. unfold mbind, tr_bind. destruct (m s) as [s1 [a|e| |]]; try done. eauto. Qed.

Lemma on_files_inv {A} (m : Tr FileSystem A) s s' a : on_files m s = (s', Ok a) → se_handle s' = se_handle s.
Proof. unfold on_files. destruct (m (se_fs s)) as [fs r]. by intros [= <- _]. Qed.

Lemma commit_frame_inv db wr lsn frame :
  commit_frame ck db wr = Ok (lsn, frame) →
  lsn = wr_parent_seq wr + 1 ∧ lsn ≤ u64_max ∧
  encode_commit ck lsn (wr_transaction_id wr) (db_generation db) (take_frame (wr_delta wr)).1.1 (take_frame (wr_delta wr)).1.2 = Ok frame.
Proof.
  unfold commit_frame. destruct (checked_next (wr_parent_seq wr)) as [n|] eqn:Hn; [|done]. apply checked_add_Some in Hn as [Hn ->].
  cbn [ok_or mbind res_bind]. destruct (take_frame (wr_delta wr)) as [[ops blob] w]. cbn [fst snd].
  destruct (encode_commit _ _ _ _ _ _) as [r|e| |] eqn:He; try done. cbn [map_err mbind res_bind]. by intros [= <- <-].
Qed.

Lemma locked_write_inv io f s s' lsn dirty :
  locked_write ck io f s = (s', Ok (lsn, dirty)) →
  let db := hd_db (se_handle s) in
  ∃ delta, f (from_overlay (db_overlay db)) = (delta, Ok ()) ∧ dirty = negb (overlay_is_empty delta) ∧
    hd_base (se_handle s') = hd_base (se_handle s) ∧ hd_policy (se_handle s') = hd_policy (se_handle s) ∧
    hd_db (se_handle s') = {| db_generation := db_generation db;
      db_overlay := if dirty then freeze_overlay delta else db_overlay db;
      db_commit_seq := lsn; db_transaction_id := db_transaction_id db + 1 |} ∧
    lsn = if dirty then db_commit_seq db + 1 else db_commit_seq db.
Proof.
  intros Hw db. apply tr_bind_inv in Hw as (s1 & wr & Hstart & Hw). unfold start_write in Hstart.
  unfold mbind at 1, tr_bind at 1 in Hstart. cbn [tr_read] in Hstart. fold db in Hstart.
  unfold begin_write in Hstart. destruct (checked_next (db_transaction_id db)) as [txn|] eqn:Ht; [|done].
  apply checked_add_Some in Ht as [_ ->]. injection Hstart as <- <-. cbn [wr_delta] in Hw.
  destruct (f _) as [delta value] eqn:Hf in Hw. unfold mbind at 1, tr_bind at 1 in Hw. cbn [tr_read] in Hw.
  destruct value as [[]|e| |]; try done. exists delta. split; [done|].
  destruct (overlay_is_empty delta) eqn:He.
  { injection Hw as <- <- <-. by split_and!. }
  apply tr_bind_inv in Hw as (s2 & lsn' & Hp & [= <- <- <-]). unfold publish_commit in Hp.
  unfold mbind at 1, tr_bind at 1 in Hp. cbn [tr_read] in Hp. apply tr_bind_inv in Hp as (s3 & [lsn0 frame] & Hc & Hp).
  injection Hc as <- Hc. apply commit_frame_inv in Hc as (-> & _ & _). cbn [wr_parent_seq fst snd] in Hp.
  apply tr_bind_inv in Hp as (s4 & [] & H4%on_files_inv & Hp). apply tr_bind_inv in Hp as (s5 & [] & H5%on_files_inv & Hp).
  injection Hp as <- <-. by split_and!.
Qed.

Lemma auto_manual_inv io place s s' :
  hd_policy (se_handle s) = Manual → maybe_auto_checkpoint ck io place s = (s', Ok ()) → se_handle s' = se_handle s.
Proof.
  intros Hp. unfold maybe_auto_checkpoint. rewrite read_handle, Hp. cbn [should_checkpoint]. intros Ha.
  apply tr_bind_inv in Ha as (s1 & n1 & H1%on_files_inv & Ha). apply tr_bind_inv in Ha as (s2 & n2 & H2%on_files_inv & Ha).
  injection Ha as <-. congruence.
Qed.

Lemma store_write_manual io place f s s' lsn :
  hd_policy (se_handle s) = Manual → store_write ck io place f s = (s', Ok lsn) →
  ∃ fs s1 dirty, locked_write ck io f {| se_fs := fs; se_handle := se_handle s |} = (s1, Ok (lsn, dirty)) ∧ se_handle s' = se_handle s1.
Proof.
  intros Hp Hw. apply tr_bind_inv in Hw as (s1 & [] & Ha & Hw). pose proof (on_files_inv _ _ _ _ Ha) as H1.
  apply tr_bind_inv in Hw as (s2 & [lsn' dirty] & Hl & Hw). unfold unlocking_session in Hl.
  destruct (locked_write ck io f s1) as [s3 r] eqn:H3. injection Hl as <- ->. destruct s1 as [fs1 h1]. cbn in H1. subst h1.
  exists fs1, s3, dirty. apply tr_bind_inv in Hw as (s4 & [] & Hm & [= <- <-]). split; [done|]. cbn [snd] in Hm. destruct dirty.
  - apply auto_manual_inv in Hm; [done|]. cbn [se_handle]. destruct (locked_write_inv _ _ _ _ _ _ H3) as (_ & _ & _ & _ & -> & _). done.
  - by injection Hm as <-.
Qed.

(** C27. A handle that survives its failed checkpoint loses commits. Let a
    checkpoint fail after the superblock was published: the rename took effect, and
    the sync after it, or a call of the reopening, reported an error. The handle is
    left on the old generation. Any transaction on it that changes something and
    succeeds (no fold intervening) returns the next commit sequence and shows in the
    handle, and is lost: its record went to the old log, and the directory opens to
    the state before it. *)
Theorem failed_checkpoint_loses_commits io place s s' e io2 place2 f s2 lsn :
  let h := se_handle s in
  fs_locked (se_fs s) = false → Holds ck [] h (fs_files (se_fs s)) →
  FreezeFits (handle_store h) → db_generation (hd_db h) < u64_max → hd_policy h = Manual →
  checkpoint ck io place s = (s', Err e) →
  names_generation (fs_files (se_fs s')) (db_generation (hd_db h) + 1) →
  let delta := (f (from_overlay (db_overlay (hd_db h)))).1 in
  overlay_is_empty delta = false →
  store_write ck io2 place2 f s' = (s2, Ok lsn) →
  lsn = db_commit_seq (hd_db h) + 1 ∧ db_overlay (hd_db (se_handle s2)) = freeze_overlay delta ∧
  ∀ io3 place3, working io3 → ∃ fs h', open_store ck io3 place3 (process (fs_files (se_fs s2))) = (fs, Ok h') ∧
    handle_store h' = handle_store h ∧ db_commit_seq (hd_db h') = db_commit_seq (hd_db h).
Proof.
  intros h Hl Hd Hfit Hgen Hman Hc Hname delta Hdirty Hw.
  pose proof (checkpoint_spec io place h Hfit Hgen s (conj (conj Hl Hd) eq_refl)) as Hspec. rewrite Hc in Hspec.
  destruct Hspec as ([[Hl' (h1 & [tail Hd1] & Hc1)] _] & Hh'). pose proof (holds_generation _ _ _ _ Hd1 Hname) as Hg1.
  assert (folded h1 h) as (Hst & Hsq & _). { destruct Hc1 as [->|?]; [lia|done]. }
  assert (stale_session (Holds ck tail h1) (db_generation (hd_db h)) s2) as (Hd2 & _ & _).
  { pose proof (always_write io2 place2 (Holds ck tail h1) (db_generation (hd_db h)) f) as Hal. specialize (Hal (lock_ignored _ _)).
    assert (ignores (Holds ck tail h1) (delta_file (db_generation (hd_db h)))) as Hlog by (apply holds_ignores; rewrite ?Hg1; names).
    specialize (Hal Hlog s'). rewrite Hw in Hal. apply Hal. split_and!; [done|by rewrite Hh'|by rewrite Hh']. }
  rewrite <-Hh' in Hman. destruct (store_write_manual _ _ _ _ _ _ Hman Hw) as (fs & s1 & dirty & Hlw & Hh2).
  destruct (locked_write_inv _ _ _ _ _ _ Hlw) as (delta' & Hf & -> & _ & _ & Hdb & Hlsn). cbn [se_handle] in Hf, Hdb, Hlsn.
  rewrite Hh' in Hf, Hdb, Hlsn. assert (delta' = delta) as -> by (unfold delta; by rewrite Hf). rewrite Hdirty in Hdb, Hlsn. cbn [negb] in Hdb, Hlsn.
  split; [done|]. split; [by rewrite Hh2, Hdb|]. intros io3 place3 Hio3.
  destruct (reopen_works io3 place3 h1 _ Hio3 (ex_intro _ tail Hd2)) as (fs3 & h3 & Ho & Hre & _).
  destruct (reopened_store _ _ Hre) as [H1 H2]. exists fs3, h3. split_and!; [done|by rewrite H1|by rewrite H2].
Qed.

(** ** Creation *)

Definition empty_store : Store := {|
  st_elements := ∅; st_relations := ∅; st_incidences := ∅; st_properties := ∅; st_catalog := empty_catalog; st_next := INITIAL |}.

Lemma empty_records_store : store_of empty_records (new_overlay INITIAL empty_catalog) = empty_store.
Proof using. unfold store_of, empty_store. f_equal; apply (bool_decide_unpack _); by vm_compute. Qed.

Lemma empty_records_opened : Opened empty_records INITIAL empty_catalog.
Proof using.
  split; [reflexivity|]. rewrite empty_records_store. split; cbn [empty_store st_elements st_relations st_incidences st_properties st_catalog st_next].
  - intros id r. by rewrite lookup_empty.
  - intros id r. by rewrite lookup_empty.
  - intros id r. by rewrite lookup_empty.
  - intros s k value. by rewrite lookup_empty.
  - split; try apply named_empty; cbn; intros ? ?; by rewrite lookup_empty.
  - split_and!; intros id [r Hr]; cbn in Hr; by rewrite lookup_empty in Hr.
Qed.

Lemma initial_next_wf : next_wf INITIAL.
Proof using. unfold next_wf, words_wf. cbn. repeat (apply Forall_cons_2; [done|]). apply Forall_nil_2. Qed.

Lemma empty_store_typed : StoreTyped empty_store.
Proof using.
  split; cbn [empty_store st_elements st_relations st_incidences st_properties st_catalog st_next]; try (intros ? ?; by rewrite lookup_empty).
  - exact initial_next_wf.
  - split; try (intros ? ?; cbn; by rewrite lookup_empty). change (catalog_defs empty_catalog) with (@nil Z). apply Forall_nil_2.
Qed.

Lemma empty_store_fits : FreezeFits empty_store.
Proof using.
  pose proof isize_usize_max as [Hi _].
  assert (catalog_bytes empty_catalog + record_bytes empty_store + posting_bytes (store_index empty_store) = 0) as Hz by by vm_compute.
  split; [by vm_compute..|]. cbn [empty_store st_catalog] in *. lia.
Qed.

(** The state [create] opens: the empty store on generation 0. *)
Definition created (h : Handle) : Prop :=
  handle_store h = empty_store ∧ db_commit_seq (hd_db h) = 0 ∧ db_generation (hd_db h) = 0 ∧ hd_policy h = default_policy.

Let create_file : BaseFile := {| bf_records := store_records empty_store; bf_next := INITIAL; bf_catalog := empty_catalog |}.
Let create_handle : Handle := first_handle (published_superblock ck 0 0 0) create_file.

Lemma create_bytes :
  ∃ bytes, freeze_view ck empty_view {| fs_commit_seq := 0; fs_transaction_id := 0; fs_generation := 0 |} = Ok bytes ∧
    base_opens ck bytes create_file.
Proof using Checksum32Laws0.
  pose proof empty_store_typed as Hty. pose proof empty_store_fits as Hfit. rewrite <-empty_records_store in Hty, Hfit.
  destruct (published_file ck empty_records INITIAL empty_catalog (freeze_overlay (new_overlay INITIAL empty_catalog))
    {| fs_commit_seq := 0; fs_transaction_id := 0; fs_generation := 0 |} empty_records_opened (published_open _ _ _) Hty Hfit)
    as (bytes & Hf & _ & Hopen); [by repeat constructor|].
  exists bytes. split; [exact Hf|]. intros addr. destruct (Hopen addr) as (view & H1 & H2 & H3 & H4). exists view.
  split; [exact H1|]. split; [|split; [exact H3|by rewrite H4]].
  etransitivity; [exact H2|]. do 2 f_equal.
Qed.

Lemma create_store_eq : handle_store create_handle = empty_store.
Proof using. exact (store_of_records empty_store). Qed.

Lemma create_held : Held create_handle (published_superblock ck 0 0 0) create_file [].
Proof using Checksum32Laws0.
  apply (first_held ck).
  - by apply published_superblock_wf.
  - exact initial_next_wf.
  - apply (store_records_opened empty_store). rewrite <-empty_records_store. apply empty_records_opened.
  - change (first_handle _ _) with create_handle. rewrite create_store_eq. exact empty_store_typed.
Qed.

(** From the check on, the directory keeps [I] until the superblock is there. *)
Lemma create_rest io place (I : directory → Prop) :
  ignores I (base_file 0 +:+ ".tmp") → ignores I (base_file 0) → ignores I (delta_file 0) → ignores I SUPERBLOCK_TEMP_FILE →
  triple (at_ false I)
    (bytes ← tr_read (λ _, freeze_view ck empty_view {| fs_commit_seq := 0; fs_transaction_id := 0; fs_generation := 0 |});
     _ ← publish_generation ck io 0 bytes 0 0;
     open_store ck io place)
    (λ h s, at_ false (Holds ck [] h) s ∧ created h)
    (io_failed io false (λ files, I files ∨ ∃ h, created h ∧ Recoverable ck h files)).
Proof using Checksum32Laws0.
  intros I1 I2 I3 I4. destruct create_bytes as (bytes & Hfz & Hopens). rewrite Hfz.
  eapply (triple_bind _ _ _ (λ b s, at_ false I s ∧ b = bytes)); [by intros s Hs|]. intros b. apply triple_pre. intros ->.
  assert (∀ h, reopened h create_handle → created h) as Hcr.
  { intros h Hre. destruct (reopened_store _ _ Hre) as [H1 H2]. destruct Hre as ((Hg & _) & _ & Hp). rewrite create_store_eq in H1.
    by split_and!. }
  assert (∀ files tail, OnDisk ck (published_superblock ck 0 0 0) create_file [] tail files → ∃ h, created h ∧ Recoverable ck h files) as Hrec.
  { intros files tail Hd. exists create_handle. split; [by split_and!; [exact create_store_eq|..]|].
    exists tail, (published_superblock ck 0 0 0), create_file, []. split; [exact create_held|done]. }
  eapply triple_bind.
  - eapply triple_mono; [| | |apply (publish_generation_spec ck io 0 0 0 bytes create_file)]; try done.
    intros e s [[? [?|?]] ?]; (split; [split; [done|]|done]); [by left|right; by apply (Hrec _ [])].
  - intros []. eapply triple_mono; [| | |apply (open_held ck io place false create_handle _ _ _ [] create_held)]; [done| |].
    + intros h s ([? ?] & Hh & Hre). split; [|by apply Hcr]. split; [done|]. by exists (published_superblock ck 0 0 0), create_file, [].
    + intros e s [[? [tail ?]] ?]. split; [split; [done|right; by apply (Hrec _ tail)]|done].
Qed.

(** C28. Creating a store is atomic. In a directory without a superblock [create]
    either opens the empty store of generation 0, or some call failed; then the
    directory still has no superblock (and [create] may be tried again), or it opens
    to the empty store. Nothing between. In a directory with a superblock it
    changes nothing and answers [AlreadyExists], if the superblock can be examined;
    if it cannot, the directory counts as new, and a [create] that succeeds has
    replaced whatever store was there. *)
Theorem create_exact io place s :
  fs_locked s = false →
  let '(s', r) := create_store ck io place s in
  match r with
  | Ok h => created h ∧ Holds ck [] h (fs_files s') ∧ (io (fs_calls s) = IoDone → fs_files s !! SUPERBLOCK_FILE = None)
  | Err e =>
      (e = Storage AlreadyExists ∧ is_Some (fs_files s !! SUPERBLOCK_FILE) ∧ io (fs_calls s) = IoDone ∧ fs_files s' = fs_files s) ∨
      ¬ working io ∧
      (fs_files s' !! SUPERBLOCK_FILE = fs_files s !! SUPERBLOCK_FILE ∨
       ∀ io' place', working io' → ∃ fs h, open_store ck io' place' (process (fs_files s')) = (fs, Ok h) ∧ created h)
  | _ => False
  end.
Proof using Checksum32Laws0.
  intros Hl. set (I (files : directory) := files !! SUPERBLOCK_FILE = fs_files s !! SUPERBLOCK_FILE).
  assert (∀ p, p ≠ SUPERBLOCK_FILE → ignores I p) as HI by (intros p Hp files files' Heq Hf; unfold I; rewrite Heq; done).
  pose proof (create_rest io place I ltac:(apply HI; names) ltac:(apply HI; names) ltac:(apply HI; names) ltac:(apply HI; names)
    (called s) (conj Hl eq_refl)) as Hrest.
  unfold create_store. match type of Hrest with match ?m (called s) with _ => _ end => set (rest := m) in * end. clearbody rest.
  set (seen := match io (fs_calls s) with IoDone => bool_decide (is_Some (fs_files s !! SUPERBLOCK_FILE)) | _ => false end).
  assert ((existing ← exists_file io SUPERBLOCK_FILE;
           _ ← tr_read (λ _ : FileSystem, if (existing : bool) then Err (Storage AlreadyExists) else Ok ()); rest) s =
    if seen then (called s, Err (Storage AlreadyExists)) else rest (called s)) as ->.
  { unfold seen, exists_file, fs_step, mbind, tr_bind. cbn [tr_read fs_files called]. by destruct (io (fs_calls s)); [case_bool_decide|..]. }
  assert (seen = true → io (fs_calls s) = IoDone ∧ is_Some (fs_files s !! SUPERBLOCK_FILE)) as Hyes
    by (unfold seen; destruct (io (fs_calls s)); [|done..]; by intros Hb%bool_decide_eq_true).
  assert (seen = false → io (fs_calls s) = IoDone → fs_files s !! SUPERBLOCK_FILE = None) as Hno.
  { unfold seen. intros Hb Hio. rewrite Hio in Hb. apply bool_decide_eq_false in Hb. by apply eq_None_not_Some. }
  destruct seen; [left; destruct (Hyes eq_refl); by split_and!|]. specialize (Hno eq_refl).
  destruct (rest (called s)) as [s' [h|e| |]]; try done.
  - destruct Hrest as [[_ Hd] Hcr]. by split_and!.
  - destruct Hrest as [[_ Hd] Hf]. right. split; [intros Hw; by apply (working_not_faulty io Hw)|].
    destruct Hd as [Hd|(h & Hcr & Hr)]; [by left|right].
    intros io' place' Hw. destruct (reopen_works io' place' h _ Hw Hr) as (fs & h' & Ho' & Hre & _). exists fs, h'. split; [done|].
    destruct (reopened_store _ _ Hre) as [H1 H2]. destruct Hre as ((Hg & _) & _ & Hp). destruct Hcr as (C1 & C2 & C3 & C4).
    split_and!; congruence.
Qed.

End safety.

(** ** A small directory *)

Definition io_working (n : nat) : IoOutcome := IoDone.
(** Only the [k]-th call fails; it has its effect all the same. *)
Definition io_fails_at (k n : nat) : IoOutcome := if decide (n = k) then IoFailed true 0 else IoDone.
Definition at_zero (n : nat) : Z := 0.

Lemma io_working_works : working io_working.
Proof. done. Qed.

Definition demo_created : FileSystem * res DbError Handle := create_store (H := target64) crc32c_append io_working at_zero (process ∅).
Definition demo_handle : Handle :=
  match demo_created with (_, Ok h) => set_checkpoint_policy h Manual | _ => {| hd_db := demo_db0; hd_base := empty_records; hd_policy := Manual |} end.
Definition demo_session : Session := {| se_fs := demo_created.1; se_handle := demo_handle |}.

Lemma demo_session_holds :
  fs_locked (se_fs demo_session) = false ∧ Holds (H := target64) crc32c_append [] demo_handle (fs_files (se_fs demo_session)) ∧
  handle_store demo_handle = empty_store ∧ db_generation (hd_db demo_handle) = 0 ∧ db_commit_seq (hd_db demo_handle) = 0.
Proof.
  pose proof (create_rest (H := target64) crc32c_append io_working at_zero (λ _, True)
    ltac:(by intros ???) ltac:(by intros ???) ltac:(by intros ???) ltac:(by intros ???) (called (process ∅)) (conj eq_refl I)) as Hc.
  unfold demo_session, demo_handle. cbn [se_fs].
  match type of Hc with match ?m with _ => _ end => assert (demo_created = m) as -> by reflexivity; destruct m as [s [h|e| |]] end; try done.
  - destruct Hc as [[Hl Hd] (C1 & C2 & C3 & C4)]. split_and!; [done|by apply holds_policy|done..].
  - destruct Hc as [_ Hf]. by destruct (working_not_faulty io_working io_working_works).
Qed.

Lemma demo_session_fits : FreezeFits (H := target64) (handle_store demo_handle).
Proof. destruct demo_session_holds as (_ & _ & -> & _). apply empty_store_fits. Qed.

(** The rename of the superblock happens and reports an error. *)
Lemma checkpoint_survives_witness :
  let '(s', r) := checkpoint (H := target64) crc32c_append (io_fails_at 46) at_zero demo_session in
  r = Err (io_error "publish superblock") ∧ se_handle s' = demo_handle ∧
  ∃ fs h', open_store (H := target64) crc32c_append io_working at_zero (process (fs_files (se_fs s'))) = (fs, Ok h') ∧
    handle_store h' = empty_store ∧ db_generation (hd_db h') = 1.
Proof.
  destruct demo_session_holds as (Hl & Hd & Hst & Hg & Hsq).
  assert (db_generation (hd_db (se_handle demo_session)) < u64_max) as Hmax by (change (se_handle demo_session) with demo_handle; by rewrite Hg).
  pose proof (checkpoint_survives (H := target64) crc32c_append (io_fails_at 46) at_zero demo_session Hl Hd demo_session_fits Hmax) as Hc.
  destruct (checkpoint (H := target64) crc32c_append (io_fails_at 46) at_zero demo_session) as [s' r] eqn:Hrun.
  assert (r = Err (io_error "publish superblock")) as ->.
  { apply (f_equal snd) in Hrun. cbn [snd] in Hrun. rewrite <-Hrun. vm_compute. reflexivity. }
  destruct Hc as (_ & [Hh _] & Hre). destruct (Hre io_working at_zero io_working_works) as (fs & h' & Ho & Hst' & _).
  split; [reflexivity|]. split; [exact Hh|]. exists fs, h'. split; [exact Ho|]. split; [rewrite Hst'; exact Hst|].
  apply (f_equal fst) in Hrun. cbn [fst] in Hrun. rewrite <-Hrun in Ho.
  apply (f_equal (λ p, match p.2 with Ok h => db_generation (hd_db h) | _ => 0 end)) in Ho. cbn [snd] in Ho. rewrite <-Ho. vm_compute. reflexivity.
Defined.

(** The sync of the directory fails after the rename, and the handle then creates an element. *)
Definition demo_element (w : WriteOverlay) : WriteOverlay * res DbError () := ((create_element w).1, Ok ()).

Lemma failed_checkpoint_loses_commits_witness :
  let '(s', r) := checkpoint (H := target64) crc32c_append (io_fails_at 48) at_zero demo_session in
  let '(s2, lsn) := store_write (H := target64) crc32c_append io_working at_zero demo_element s' in
  r = Err (io_error "sync database directory") ∧ lsn = Ok 1 ∧
  ∃ fs h', open_store (H := target64) crc32c_append io_working at_zero (process (fs_files (se_fs s2))) = (fs, Ok h') ∧
    handle_store h' = empty_store ∧ db_commit_seq (hd_db h') = 0.
Proof.
  destruct demo_session_holds as (Hl & Hd & Hst & Hg & Hsq).
  destruct (checkpoint (H := target64) crc32c_append (io_fails_at 48) at_zero demo_session) as [s' r] eqn:Hc.
  destruct (store_write (H := target64) crc32c_append io_working at_zero demo_element s') as [s2 lsn] eqn:Hw.
  assert (r = Err (io_error "sync database directory")) as ->.
  { apply (f_equal snd) in Hc. cbn [snd] in Hc. rewrite <-Hc. vm_compute. reflexivity. }
  assert (s' = (checkpoint (H := target64) crc32c_append (io_fails_at 48) at_zero demo_session).1) as Hs' by (rewrite Hc; reflexivity).
  assert (lsn = Ok 1) as ->.
  { apply (f_equal snd) in Hw. cbn [snd] in Hw. rewrite <-Hw, Hs'. vm_compute. reflexivity. }
  destruct (failed_checkpoint_loses_commits (H := target64) crc32c_append (io_fails_at 48) at_zero demo_session s'
    (io_error "sync database directory") io_working at_zero demo_element s2 1 Hl Hd demo_session_fits) as (_ & _ & Hre).
  - change (db_generation (hd_db demo_handle) < u64_max). rewrite Hg. done.
  - vm_compute. reflexivity.
  - exact Hc.
  - change (names_generation crc32c_append (fs_files (se_fs s')) (db_generation (hd_db demo_handle) + 1)). rewrite Hg, Hs'.
    eexists. split; [vm_compute; reflexivity|]. vm_compute. reflexivity.
  - vm_compute. reflexivity.
  - exact Hw.
  - destruct (Hre io_working at_zero io_working_works) as (fs & h' & Ho & H1 & H2). split; [reflexivity|]. split; [reflexivity|].
    exists fs, h'. split; [exact Ho|]. split; [rewrite H1; exact Hst|rewrite H2; exact Hsq].
Defined.

(** A creation that fails in its last step. *)
Lemma create_exact_witness :
  let '(s', r) := create_store (H := target64) crc32c_append (io_fails_at 18) at_zero (process ∅) in
  r = Err (io_error "publish superblock") ∧
  ∃ fs h, open_store (H := target64) crc32c_append io_working at_zero (process (fs_files s')) = (fs, Ok h) ∧ created h.
Proof.
  pose proof (create_exact (H := target64) crc32c_append (io_fails_at 18) at_zero (process ∅) eq_refl) as Hc.
  destruct (create_store (H := target64) crc32c_append (io_fails_at 18) at_zero (process ∅)) as [s' r] eqn:Hrun.
  assert (r = Err (io_error "publish superblock")) as ->.
  { apply (f_equal snd) in Hrun. cbn [snd] in Hrun. rewrite <-Hrun. vm_compute. reflexivity. }
  split; [reflexivity|]. destruct Hc as [(Hc & _)|(_ & [Hc|Hre])].
  - discriminate Hc.
  - exfalso. apply (f_equal fst) in Hrun. cbn [fst] in Hrun. rewrite <-Hrun in Hc.
    apply (f_equal (λ o : option (list byte), match o with Some _ => true | None => false end)) in Hc. vm_compute in Hc. discriminate Hc.
  - exact (Hre io_working at_zero io_working_works).
Defined.
