(* ===== verification/PgCatalog.v ===== *)
(** * PgCatalog: registration, errors and configuration of the PostgreSQL engine

    Models [crates/oxgraph-postgres/src/]: the error surface ([error.rs]), the
    registration model of source tables and edges with its validation and the
    scan query of an edge ([catalog.rs]), roles ([role.rs]), the configuration
    ([config.rs]) and search predicates ([search.rs]).

    A [u32], [u64] or [i64] is a [Z]; text is its UTF-8 bytes as a [string], and a
    test for an ASCII character holds of no byte of a longer encoding. *)

From Stdlib Require Import String Ascii.
From stdpp Require Import base list strings.
From S2P Require Import Prelude Layout Snapshot SnapshotWrite Csr CsrBuild.

Local Open Scope Z_scope.

(** ** Errors *)

Inductive CatalogError :=
  | EmptyCatalog
  | DuplicateTableId (id : Z)
  | DuplicateEdgeId (id : Z)
  | DuplicateTableName (schema name : string)
  | MissingTable (id : Z)
  | InvalidSqlIdent
  | InvalidPrimaryKey
  | PrimaryKeyOutOfRange
  | InvalidTableId
  | InvalidEdgeId.

Inductive BuildError :=
  | Plan (error : PlanError)
  | Graph (error : GraphBuildError)
  | MissingSnapshotBytes
  | EmptyEdges
  | NodeCountOverflow
  | EdgeCountOverflow
  | EdgeCountMismatch
  | MissingNodeKey
  | MissingCsrSection (kind : Z)
  | MissingMetadataSection
  | MalformedMetadata
  | MissingReverseIndex
  | TopologyNodeCountMismatch
  | TopologyEdgeCountMismatch
  | MetadataNodeCountMismatch
  | MetadataEdgeCountMismatch
  | Spi (message : string).

Inductive QueryError :=
  | SeedOutOfBounds (seed node_count : Z)
  | LimitZero
  | NodeIndexOverflow
  | InternalInvariant (message : string).

Inductive SyncError :=
  | NonMonotonicSequence (sequence previous : Z)
  | InvalidActionType (action_type : Z)
  | InvalidActionArgs (action_type : Z)
  | UnknownNodeKey (key : Z).

Inductive ConfigError :=
  | ZeroTraverseLimit
  | ZeroSearchLimit
  | MaintenanceDisabled.

Inductive GraphRole := RoleReader | RoleAdmin.

Inductive PostgresGraphError :=
  | PgSnapshot (error : SnapshotError)
  | ForwardSnapshot (error : CsrSnapshotError)
  | InboundSnapshot (error : CscSnapshotError)
  | NotLoaded
  | PgBuild (error : BuildError)
  | PgCatalog (error : CatalogError)
  | PgQuery (error : QueryError)
  | PgSync (error : SyncError)
  | PgConfig (error : ConfigError)
  | AccessDenied (required actual : GraphRole).

(** The [From] conversions of the error, for [?]. *)
Definition from_plan (e : PlanError) : PostgresGraphError := PgBuild (Plan e).
Definition from_graph (e : GraphBuildError) : PostgresGraphError := PgBuild (Graph e).

(** ** Roles *)

Definition satisfies (actual required : GraphRole) : res PostgresGraphError () :=
  match actual, required with
  | RoleAdmin, _ | RoleReader, RoleReader => Ok ()
  | RoleReader, RoleAdmin => Err (AccessDenied required actual)
  end.

(** ** Configuration *)

Inductive QueryFreshness := BaseOnly | OverlayAware.
#[export] Instance QueryFreshness_eq_dec : EqDecision QueryFreshness.
Proof. solve_decision. Defined.

Record Config := {
  traverse_limit : Z;
  search_limit : Z;
  query_freshness : QueryFreshness;
  maintenance_enabled : bool
}.

Definition default_config : Config := {|
  traverse_limit := 10000; search_limit := 10000; query_freshness := OverlayAware; maintenance_enabled := true
|}.

Definition validate_config (c : Config) : res PostgresGraphError () :=
  if decide (traverse_limit c = 0) then Err (PgConfig ZeroTraverseLimit) else
  if decide (search_limit c = 0) then Err (PgConfig ZeroSearchLimit) else Ok ().

(** ** Search predicates *)

Inductive SearchPredicate :=
  | NodeId (expected : Z)
  | NodeIdRange (start end_ : Z).

Definition matches (p : SearchPredicate) (node : Z) : bool :=
  match p with
  | NodeId expected => bool_decide (node = expected)
  | NodeIdRange start end_ => bool_decide (start ≤ node ≤ end_)
  end.

(** ** Node keys *)

(** [NodeKey::registered]: the key is the 64-bit word of both parts. *)
Definition registered (table primary_key : Z) : Z := Z.lor (Z.shiftl table 32) primary_key.
Definition table_id (key : Z) : Z := Z.shiftr key 32 mod 2 ^ 32.
Definition primary_key (key : Z) : Z := Z.land key 0xFFFFFFFF.

(** From an [i64] or [i32] column. *)
Definition validate_primary_key (value : Z) : res CatalogError Z :=
  if decide (value < 0) then Err InvalidPrimaryKey else
  if decide (u32_max < value) then Err PrimaryKeyOutOfRange else Ok value.
Definition table_id_from_i32 (value : Z) : res CatalogError Z :=
  if decide (value < 0) then Err InvalidTableId else Ok value.
Definition edge_id_from_i32 (value : Z) : res CatalogError Z :=
  if decide (value < 0) then Err InvalidEdgeId else Ok value.

(** ** The catalog *)

Record FilterColumn := { fc_table : Z; fc_column : string }.

Record RegisteredTable := { rt_id : Z; rt_schema : string; rt_name : string; rt_primary_key_column : string }.

Record RegisteredEdge := {
  re_id : Z;
  re_source_table : Z;
  re_target_table : Z;
  re_source_column : string;
  re_target_column : string;
  re_schema : string;
  re_name : string
}.

Record Catalog := {
  tables : list RegisteredTable;
  edges : list RegisteredEdge;
  filter_columns : list FilterColumn
}.

Definition new_catalog : Catalog := {| tables := []; edges := []; filter_columns := [] |}.

Definition validate_for_build (c : Catalog) : res CatalogError () :=
  match tables c with [] => Err EmptyCatalog | _ => Ok () end.

Definition add_table (c : Catalog) (table : RegisteredTable) : res CatalogError Catalog :=
  if existsb (λ existing, bool_decide (rt_id existing = rt_id table)) (tables c)
  then Err (DuplicateTableId (rt_id table)) else
  if existsb (λ existing, bool_decide (rt_schema existing = rt_schema table ∧ rt_name existing = rt_name table)) (tables c)
  then Err (DuplicateTableName (rt_schema table) (rt_name table)) else
  Ok {| tables := tables c ++ [table]; edges := edges c; filter_columns := filter_columns c |}.

Definition has_table (c : Catalog) (id : Z) : bool := existsb (λ table, bool_decide (rt_id table = id)) (tables c).

Definition register_edge (c : Catalog) (edge : RegisteredEdge) : res CatalogError Catalog :=
  if existsb (λ existing, bool_decide (re_id existing = re_id edge)) (edges c)
  then Err (DuplicateEdgeId (re_id edge)) else
  if negb (has_table c (re_source_table edge)) then Err (MissingTable (re_source_table edge)) else
  if negb (has_table c (re_target_table edge)) then Err (MissingTable (re_target_table edge)) else
  Ok {| tables := tables c; edges := edges c ++ [edge]; filter_columns := filter_columns c |}.

Definition add_filter_column (c : Catalog) (column : FilterColumn) : res CatalogError Catalog :=
  if negb (has_table c (fc_table column)) then Err (MissingTable (fc_table column)) else
  Ok {| tables := tables c; edges := edges c; filter_columns := filter_columns c ++ [column] |}.

Definition table (c : Catalog) (id : Z) : option RegisteredTable :=
  head (filter (λ t, rt_id t = id) (tables c)).

Definition from_registration_rows (ts : list RegisteredTable) (es : list RegisteredEdge) (cs : list FilterColumn)
    : res CatalogError Catalog :=
  c ← for_each add_table ts new_catalog;
  c ← for_each register_edge es c;
  for_each add_filter_column cs c.

(** ** SQL *)

Definition is_ascii_alphabetic (ch : ascii) : bool :=
  let n := N_of_ascii ch in
  bool_decide ((65 ≤ n ≤ 90)%N ∨ (97 ≤ n ≤ 122)%N).
Definition is_ascii_alphanumeric (ch : ascii) : bool :=
  is_ascii_alphabetic ch || bool_decide (48 ≤ N_of_ascii ch ≤ 57)%N.
Definition is_underscore (ch : ascii) : bool := bool_decide (ch = "_"%char).

Fixpoint all_chars (p : ascii → bool) (s : string) : bool :=
  match s with EmptyString => true | String ch s => p ch && all_chars p s end.

Definition validate_sql_ident (ident : string) : res CatalogError () :=
  match ident with
  | EmptyString => Err InvalidSqlIdent
  | String first chars =>
      if negb (is_ascii_alphabetic first) && negb (is_underscore first) then Err InvalidSqlIdent else
      if negb (all_chars (λ ch, is_ascii_alphanumeric ch || is_underscore ch) chars)
      then Err InvalidSqlIdent else Ok ()
  end.

(** An identifier between double quotes, and a qualified one. *)
Definition QUOTE : ascii := ascii_of_nat 34.
Definition quoted (ident : string) : string := String QUOTE (ident +:+ String QUOTE EmptyString).
Definition qualified (schema name : string) : string := quoted schema +:+ "." +:+ quoted name.

Definition edge_scan_sql (edge : RegisteredEdge) (catalog : Catalog) : res CatalogError string :=
  _ ← validate_sql_ident (re_schema edge);
  _ ← validate_sql_ident (re_name edge);
  _ ← validate_sql_ident (re_source_column edge);
  _ ← validate_sql_ident (re_target_column edge);
  source ← ok_or (MissingTable (re_source_table edge)) (table catalog (re_source_table edge));
  target ← ok_or (MissingTable (re_target_table edge)) (table catalog (re_target_table edge));
  _ ← validate_sql_ident (rt_schema source);
  _ ← validate_sql_ident (rt_name source);
  _ ← validate_sql_ident (rt_schema target);
  _ ← validate_sql_ident (rt_name target);
  _ ← validate_sql_ident (rt_primary_key_column source);
  _ ← validate_sql_ident (rt_primary_key_column target);
  if decide (re_source_table edge = re_target_table edge) then
    Ok ("SELECT " +:+ quoted (re_source_column edge) +:+ "::bigint, " +:+ quoted (re_target_column edge) +:+
        "::bigint FROM " +:+ qualified (re_schema edge) (re_name edge))
  else
    Ok ("SELECT src." +:+ quoted (rt_primary_key_column source) +:+ "::bigint, tgt." +:+
        quoted (rt_primary_key_column target) +:+ "::bigint FROM " +:+
        qualified (re_schema edge) (re_name edge) +:+ " e JOIN " +:+
        qualified (rt_schema source) (rt_name source) +:+ " src ON e." +:+
        quoted (re_source_column edge) +:+ " = src." +:+ quoted (rt_primary_key_column source) +:+ " JOIN " +:+
        qualified (rt_schema target) (rt_name target) +:+ " tgt ON e." +:+
        quoted (re_target_column edge) +:+ " = tgt." +:+ quoted (rt_primary_key_column target)).


(** ** Keys and identifiers *)

Lemma registered_sum table pk : 0 ≤ table → 0 ≤ pk ≤ u32_max → registered table pk = table * 2 ^ 32 + pk.
Proof.
  intros Ht Hp. assert (Z.land (Z.shiftl table 32) pk = 0) as Hand.
  { apply Z.bits_inj'. intros n Hn. rewrite Z.land_spec, Z.shiftl_spec, Z.bits_0 by lia.
    destruct (decide (n < 32)); [by rewrite Z.testbit_neg_r by lia|].
    rewrite <-(Z.mod_small pk (2 ^ 32)) by (unfold u32_max in Hp; lia).
    rewrite Z.mod_pow2_bits_high by lia. apply andb_false_r. }
  unfold registered. rewrite <-Z.lxor_lor, <-Z.add_nocarry_lxor by done. by rewrite Z.shiftl_mul_pow2.
Qed.

(** The key of a row holds its table and primary key, and fits its word. *)
Lemma registered_parts table pk :
  0 ≤ table ≤ u32_max → 0 ≤ pk ≤ u32_max →
  0 ≤ registered table pk ≤ u64_max ∧ table_id (registered table pk) = table ∧ primary_key (registered table pk) = pk.
Proof.
  intros Ht Hp. rewrite registered_sum by lia. unfold table_id, primary_key. unfold u32_max, u64_max in *. split; [lia|].
  change 0xFFFFFFFF with (Z.ones 32). rewrite Z.land_ones, Z.shiftr_div_pow2 by lia. split.
  - rewrite Z.div_add_l, (Z.div_small pk) by lia. rewrite Z.mod_small; lia.
  - rewrite Z.add_comm, Z.mod_add by lia. apply Z.mod_small. lia.
Qed.

(** A scan query is built of identifiers without quotes only. *)
Definition plain (s : string) : Prop := all_chars (λ ch, is_ascii_alphanumeric ch || is_underscore ch) s = true.

Lemma validate_sql_ident_plain ident : validate_sql_ident ident = Ok () → ident ≠ EmptyString ∧ plain ident.
Proof.
  destruct ident as [|first chars]; [done|]. cbn [validate_sql_ident]. intros H. split; [done|].
  destruct (negb _ && negb _) eqn:Hf; [done|]. destruct (negb (all_chars _ _)) eqn:Hr; [done|].
  apply negb_false_iff in Hr. unfold plain. cbn [all_chars]. rewrite Hr, andb_true_r.
  apply andb_false_iff in Hf as [Hf%negb_false_iff|Hf%negb_false_iff].
  - unfold is_ascii_alphanumeric. by rewrite Hf.
  - by rewrite Hf, orb_true_r.
Qed.

Lemma table_registered c id t : table c id = Some t → t ∈ tables c ∧ rt_id t = id.
Proof.
  unfold table. intros H. assert (t ∈ filter (λ t, rt_id t = id) (tables c)) as Hin.
  { destruct (filter _ _) as [|u l]; [done|]. injection H as ->. by left. }
  apply list_elem_of_filter in Hin. tauto.
Qed.
