(* ===== verification/PgOverlay.v ===== *)
(** * PgOverlay: overlay buffers and the replay of the sync log

    Models [crates/oxgraph-postgres/src/overlay.rs] and [sync.rs]: the edges and
    tombstones a loaded engine lays over its immutable base, the adjacency indexes
    kept next to the edge list, the persisted sync rows with their decoding and
    resolution to dense ids, and the replay of resolved rows. The dense
    assignment of node keys is that of [build.rs]. *)

From Stdlib Require Import String.
From stdpp Require Import base gmap sets list strings.
From S2P Require Import Prelude Ordered PgCatalog.

Local Open Scope Z_scope.

(** ** The overlay *)

Record OverlayEdge := { oe_source : Z; oe_target : Z }.
#[export] Instance OverlayEdge_eq_dec : EqDecision OverlayEdge.
Proof. solve_decision. Defined.

Record OverlayState := {
  added_edges : list OverlayEdge;
  by_source : gmap Z (list Z);
  by_target : gmap Z (list Z);
  tombstoned_edges : gset Z;
  tombstoned_nodes : gset Z
}.

Definition default_overlay : OverlayState :=
  {| added_edges := []; by_source := ∅; by_target := ∅; tombstoned_edges := ∅; tombstoned_nodes := ∅ |}.

(** [entry(key).or_default().push(value)]. *)
Definition push_entry (m : gmap Z (list Z)) (key value : Z) : gmap Z (list Z) :=
  <[key := default [] (m !! key) ++ [value]]> m.

(** Both adjacency indexes with one more edge. *)
Definition index_edge (indexes : gmap Z (list Z) * gmap Z (list Z)) (edge : OverlayEdge)
    : gmap Z (list Z) * gmap Z (list Z) :=
  (push_entry indexes.1 (oe_source edge) (oe_target edge), push_entry indexes.2 (oe_target edge) (oe_source edge)).

Definition push_edge (o : OverlayState) (edge : OverlayEdge) : OverlayState :=
  let indexes := index_edge (by_source o, by_target o) edge in
  {| added_edges := added_edges o ++ [edge]; by_source := indexes.1; by_target := indexes.2;
     tombstoned_edges := tombstoned_edges o; tombstoned_nodes := tombstoned_nodes o |}.

Definition from_edges (edges : list OverlayEdge) : OverlayState := foldl push_edge default_overlay edges.

Definition rebuild_indexes (o : OverlayState) : OverlayState :=
  let indexes := foldl index_edge (∅, ∅) (added_edges o) in
  {| added_edges := added_edges o; by_source := indexes.1; by_target := indexes.2;
     tombstoned_edges := tombstoned_edges o; tombstoned_nodes := tombstoned_nodes o |}.

Definition remove_edge (o : OverlayState) (source target : Z) : OverlayState :=
  rebuild_indexes {| added_edges := filter (λ edge, oe_source edge ≠ source ∨ oe_target edge ≠ target) (added_edges o);
    by_source := by_source o; by_target := by_target o;
    tombstoned_edges := tombstoned_edges o; tombstoned_nodes := tombstoned_nodes o |}.

Definition tombstone_edge (o : OverlayState) (edge_id : Z) : OverlayState :=
  {| added_edges := added_edges o; by_source := by_source o; by_target := by_target o;
     tombstoned_edges := {[edge_id]} ∪ tombstoned_edges o; tombstoned_nodes := tombstoned_nodes o |}.
Definition tombstone_node (o : OverlayState) (node_id : Z) : OverlayState :=
  {| added_edges := added_edges o; by_source := by_source o; by_target := by_target o;
     tombstoned_edges := tombstoned_edges o; tombstoned_nodes := {[node_id]} ∪ tombstoned_nodes o |}.

(** [clear] empties all five buffers. *)
Definition clear_overlay (o : OverlayState) : OverlayState := default_overlay.

Definition overlay_edge_count (o : OverlayState) : Z := zlen (added_edges o).
Definition tombstoned_edge_count (o : OverlayState) : Z := Z.of_nat (size (tombstoned_edges o)).
Definition tombstoned_node_count (o : OverlayState) : Z := Z.of_nat (size (tombstoned_nodes o)).
Definition has_edge_tombstones (o : OverlayState) : bool := bool_decide (tombstoned_edges o ≠ ∅).
Definition has_node_tombstones (o : OverlayState) : bool := bool_decide (tombstoned_nodes o ≠ ∅).
Definition edge_visible (o : OverlayState) (edge_id : Z) : bool := bool_decide (edge_id ∉ tombstoned_edges o).
Definition overlay_node_visible (o : OverlayState) (node_id : Z) : bool := bool_decide (node_id ∉ tombstoned_nodes o).
Definition overlay_targets (o : OverlayState) (source : Z) : list Z := default [] (by_source o !! source).
Definition overlay_sources (o : OverlayState) (target : Z) : list Z := default [] (by_target o !! target).

(** ** Sync actions *)

Inductive SyncAction :=
  | InsertEdge (source target : Z)
  | RemoveOverlayEdge (source target : Z)
  | DeleteEdge (edge_id : Z)
  | DeleteNode (node_id : Z)
  | TruncateOverlays.

Definition apply_to (action : SyncAction) (o : OverlayState) : OverlayState :=
  match action with
  | InsertEdge source target => push_edge o {| oe_source := source; oe_target := target |}
  | RemoveOverlayEdge source target => remove_edge o source target
  | DeleteEdge edge_id => tombstone_edge o edge_id
  | DeleteNode node_id => tombstone_node o node_id
  | TruncateOverlays => clear_overlay o
  end.

(** [SyncActionWire]: keyed actions hold node keys. *)
Inductive SyncActionWire :=
  | WireInsertEdge (source target : Z)
  | WireRemoveOverlayEdge (source target : Z)
  | WireDeleteEdge (edge_id : Z)
  | WireDeleteNode (node_id : Z)
  | WireTruncateOverlays.

Inductive SyncActionCodec := CodecInsertEdge | CodecDeleteEdge | CodecDeleteNode | CodecTruncateOverlays | CodecRemoveOverlayEdge.

Definition carries_node_keys (c : SyncActionCodec) : bool :=
  match c with CodecInsertEdge | CodecRemoveOverlayEdge => true | _ => false end.

Definition codec_try_from (value : Z) : res SyncError SyncActionCodec :=
  if decide (value = 1) then Ok CodecInsertEdge else
  if decide (value = 2) then Ok CodecDeleteEdge else
  if decide (value = 3) then Ok CodecDeleteNode else
  if decide (value = 4) then Ok CodecTruncateOverlays else
  if decide (value = 5) then Ok CodecRemoveOverlayEdge else Err (InvalidActionType value).

Definition decode_node_key (value : option Z) (action_type : Z) : res SyncError Z :=
  value ← ok_or (InvalidActionArgs action_type) value;
  if decide (value < 0) then Err (InvalidActionArgs action_type) else Ok value.

(** [u32::try_from] of an [i64] argument. *)
Definition decode_dense (value : option Z) (action_type : Z) : res SyncError Z :=
  value ← ok_or (InvalidActionArgs action_type) value;
  if decide (0 ≤ value ≤ u32_max) then Ok value else Err (InvalidActionArgs action_type).

Definition decode_wire (action_type : Z) (arg0 arg1 : option Z) : res SyncError SyncActionWire :=
  codec ← codec_try_from action_type;
  match codec with
  | CodecInsertEdge =>
      source ← decode_node_key arg0 action_type; target ← decode_node_key arg1 action_type;
      Ok (WireInsertEdge source target)
  | CodecDeleteEdge => edge_id ← decode_dense arg0 action_type; Ok (WireDeleteEdge edge_id)
  | CodecDeleteNode => node_id ← decode_dense arg0 action_type; Ok (WireDeleteNode node_id)
  | CodecTruncateOverlays => Ok WireTruncateOverlays
  | CodecRemoveOverlayEdge =>
      source ← decode_node_key arg0 action_type; target ← decode_node_key arg1 action_type;
      Ok (WireRemoveOverlayEdge source target)
  end.

Definition lookup_dense (key : Z) (node_map : gmap Z Z) : res SyncError Z :=
  ok_or (UnknownNodeKey key) (node_map !! key).

Definition resolve_sync_action (action : SyncActionWire) (node_map : gmap Z Z) : res SyncError SyncAction :=
  match action with
  | WireInsertEdge source target =>
      s ← lookup_dense source node_map; t ← lookup_dense target node_map; Ok (InsertEdge s t)
  | WireRemoveOverlayEdge source target =>
      s ← lookup_dense source node_map; t ← lookup_dense target node_map; Ok (RemoveOverlayEdge s t)
  | WireDeleteEdge edge_id => Ok (DeleteEdge edge_id)
  | WireDeleteNode node_id => Ok (DeleteNode node_id)
  | WireTruncateOverlays => Ok TruncateOverlays
  end.

Definition decode (action_type : Z) (arg0 arg1 : option Z) (node_map : gmap Z Z) : res SyncError SyncAction :=
  wire ← decode_wire action_type arg0 arg1; resolve_sync_action wire node_map.

(** ** Dense node ids ([build.rs]) *)

Record EdgeRow := { er_source : Z; er_target : Z }.

Definition edge_row_from_scan (edge : RegisteredEdge) (source_pk target_pk : Z) : EdgeRow :=
  {| er_source := registered (re_source_table edge) source_pk; er_target := registered (re_target_table edge) target_pk |}.

Definition distinct_node_keys (rows : list EdgeRow) : gset Z :=
  foldl (λ keys row, {[er_target row]} ∪ ({[er_source row]} ∪ keys)) ∅ rows.

Definition dense_node_map_from_keys (keys : gset Z) : res BuildError (gmap Z Z) :=
  for_each (λ m p, dense ← ok_or NodeCountOverflow (try_into u32_max p.1); Ok (<[p.2 := dense]> m))
    (imap (λ index key, (Z.of_nat index, key)) (set_iter keys)) ∅.

Definition dense_node_map_from_edges (rows : list EdgeRow) : res BuildError (gmap Z Z) :=
  dense_node_map_from_keys (distinct_node_keys rows).

(** ** Resolution and replay of sync rows *)

(** [RawSyncRow]: sequence, action type and arguments. *)
Record RawSyncRow := { raw_sequence : Z; raw_action_type : Z; raw_arg0 : option Z; raw_arg1 : option Z }.

Record SyncRow := { sr_sequence : Z; sr_action : SyncAction }.

Definition node_key_from_i64 (value : option Z) : option Z :=
  value ← value; if decide (value < 0) then None else Some value.

(** [keys.insert] of a key that is present. *)
Definition insert_key (keys : gset Z) (key : option Z) : gset Z :=
  match key with Some key => {[key]} ∪ keys | None => keys end.

Definition raw_keys (keys : gset Z) (row : RawSyncRow) : gset Z :=
  match codec_try_from (raw_action_type row) with
  | Ok codec =>
      if carries_node_keys codec
      then insert_key (insert_key keys (node_key_from_i64 (raw_arg0 row))) (node_key_from_i64 (raw_arg1 row))
      else keys
  | _ => keys
  end.

Definition dense_node_map_for_sync_resolution (rows : list EdgeRow) (raw_rows : list RawSyncRow)
    : res PostgresGraphError (gmap Z Z) :=
  map_err PgBuild (dense_node_map_from_keys (foldl raw_keys (distinct_node_keys rows) raw_rows)).

Definition resolve_sync_rows (rows : list EdgeRow) (raw_rows : list RawSyncRow) : res PostgresGraphError (list SyncRow) :=
  node_map ← dense_node_map_for_sync_resolution rows raw_rows;
  for_each (λ out row,
    action ← map_err PgSync (decode (raw_action_type row) (raw_arg0 row) (raw_arg1 row) node_map);
    Ok (out ++ [{| sr_sequence := raw_sequence row; sr_action := action |}])) raw_rows [].

(** [SyncRow::apply_in_order]: the rows before a failing one stay applied. *)
Fixpoint apply_rows (rows : list SyncRow) (o : OverlayState) (last : option Z) (applied : Z)
    : OverlayState * res PostgresGraphError Z :=
  match rows with
  | [] => (o, Ok applied)
  | row :: rows =>
      match last with
      | Some previous =>
          if decide (sr_sequence row ≤ previous)
          then (o, Err (PgSync (NonMonotonicSequence (sr_sequence row) previous)))
          else apply_rows rows (apply_to (sr_action row) o) (Some (sr_sequence row)) (applied + 1)
      | None => apply_rows rows (apply_to (sr_action row) o) (Some (sr_sequence row)) (applied + 1)
      end
  end.

Definition apply_in_order (rows : list SyncRow) (o : OverlayState) : OverlayState * res PostgresGraphError Z :=
  apply_rows rows o None 0.
