(* ===== verification/PgOverlayFacts.v ===== *)
(** * PgOverlayFacts: sync replay and dense node ids

    The adjacency indexes of an overlay always agree with its edge list; replaying
    sync rows gives the state their actions describe, up to the first row out of
    order; a dense assignment gives a key its rank, so the ids that sync rows
    resolve to move away from those of the artifact when smaller keys come or go. *)

From Stdlib Require Import String.
From stdpp Require Import base gmap sets list strings.
From S2P Require Import Prelude Ordered PgCatalog PgOverlay.

Local Open Scope Z_scope.

(** ** The adjacency indexes *)

(** Overlay targets of a source and sources of a target, read off the edge list. *)
Definition targets_from (es : list OverlayEdge) (s : Z) : list Z := oe_target <$> filter (λ e, oe_source e = s) es.
Definition sources_into (es : list OverlayEdge) (t : Z) : list Z := oe_source <$> filter (λ e, oe_target e = t) es.

Definition Indexed (o : OverlayState) : Prop :=
  (∀ s, overlay_targets o s = targets_from (added_edges o) s) ∧
  (∀ t, overlay_sources o t = sources_into (added_edges o) t).

Lemma push_entry_lookup m key value k :
  default [] (push_entry m key value !! k) = default [] (m !! k) ++ (if decide (key = k) then [value] else []).
Proof.
  unfold push_entry. case_decide as Hk.
  - subst k. by rewrite lookup_insert_eq.
  - by rewrite lookup_insert_ne, app_nil_r.
Qed.

Lemma targets_from_app es es' s : targets_from (es ++ es') s = targets_from es s ++ targets_from es' s.
Proof. unfold targets_from. by rewrite filter_app, fmap_app. Qed.
Lemma sources_into_app es es' t : sources_into (es ++ es') t = sources_into es t ++ sources_into es' t.
Proof. unfold sources_into. by rewrite filter_app, fmap_app. Qed.

Lemma index_edge_step ix es e :
  (∀ s, default [] (ix.1 !! s) = targets_from es s) → (∀ t, default [] (ix.2 !! t) = sources_into es t) →
  (∀ s, default [] ((index_edge ix e).1 !! s) = targets_from (es ++ [e]) s) ∧
  (∀ t, default [] ((index_edge ix e).2 !! t) = sources_into (es ++ [e]) t).
Proof.
  intros H1 H2. unfold index_edge. cbn [fst snd]. split; intros k.
  - rewrite push_entry_lookup, H1, targets_from_app. f_equal. unfold targets_from. rewrite filter_cons, filter_nil. by case_decide.
  - rewrite push_entry_lookup, H2, sources_into_app. f_equal. unfold sources_into. rewrite filter_cons, filter_nil. by case_decide.
Qed.

Lemma rebuilt_indexes es :
  (∀ s, default [] ((foldl index_edge (∅, ∅) es).1 !! s) = targets_from es s) ∧
  (∀ t, default [] ((foldl index_edge (∅, ∅) es).2 !! t) = sources_into es t).
Proof.
  induction es as [|e es [IH1 IH2]] using rev_ind.
  - split; intros k; cbn; by rewrite lookup_empty.
  - rewrite foldl_snoc. by apply index_edge_step.
Qed.

Lemma default_indexed : Indexed default_overlay.
Proof. split; intros k; unfold overlay_targets, overlay_sources; cbn; by rewrite lookup_empty. Qed.

Lemma push_edge_indexed o e : Indexed o → Indexed (push_edge o e).
Proof. intros [H1 H2]. apply (index_edge_step (by_source o, by_target o)); done. Qed.

Lemma rebuild_indexed o : Indexed (rebuild_indexes o).
Proof. apply rebuilt_indexes. Qed.

Lemma apply_to_indexed a o : Indexed o → Indexed (apply_to a o).
Proof.
  intros Ho. destruct a; cbn [apply_to].
  - by apply push_edge_indexed.
  - apply rebuild_indexed.
  - done.
  - done.
  - apply default_indexed.
Qed.

(** ** What an overlay stands for *)

Record OverlayModel := { om_edges : list (Z * Z); om_hidden_edges : gset Z; om_hidden_nodes : gset Z }.

Definition model_of (o : OverlayState) : OverlayModel := {|
  om_edges := (λ e, (oe_source e, oe_target e)) <$> added_edges o;
  om_hidden_edges := tombstoned_edges o; om_hidden_nodes := tombstoned_nodes o |}.

(** Each action as what it means. *)
Definition model_step (m : OverlayModel) (a : SyncAction) : OverlayModel :=
  match a with
  | InsertEdge s t => {| om_edges := om_edges m ++ [(s, t)]; om_hidden_edges := om_hidden_edges m; om_hidden_nodes := om_hidden_nodes m |}
  | RemoveOverlayEdge s t => {| om_edges := filter (λ e, e ≠ (s, t)) (om_edges m);
      om_hidden_edges := om_hidden_edges m; om_hidden_nodes := om_hidden_nodes m |}
  | DeleteEdge e => {| om_edges := om_edges m; om_hidden_edges := om_hidden_edges m ∪ {[e]}; om_hidden_nodes := om_hidden_nodes m |}
  | DeleteNode n => {| om_edges := om_edges m; om_hidden_edges := om_hidden_edges m; om_hidden_nodes := om_hidden_nodes m ∪ {[n]} |}
  | TruncateOverlays => {| om_edges := []; om_hidden_edges := ∅; om_hidden_nodes := ∅ |}
  end.

Lemma apply_to_model a o : model_of (apply_to a o) = model_step (model_of o) a.
Proof.
  destruct a; cbn [apply_to]; unfold model_of; cbn [model_step om_edges om_hidden_edges om_hidden_nodes].
  - cbn [push_edge added_edges tombstoned_edges tombstoned_nodes]. by rewrite fmap_app.
  - f_equal. cbn [remove_edge rebuild_indexes added_edges]. induction (added_edges o) as [|[s t] es IH]; [done|].
    cbn [fmap list_fmap]. rewrite !filter_cons. cbn [oe_source oe_target].
    destruct (decide (s = source ∧ t = target)) as [[-> ->]|Hne].
    + do 2 rewrite decide_False by tauto. exact IH.
    + rewrite decide_True by (destruct (decide (s = source)); tauto). rewrite decide_True by (intros [= -> ->]; tauto).
      cbn [fmap list_fmap]. by rewrite IH.
  - cbn [tombstone_edge added_edges tombstoned_edges tombstoned_nodes]. f_equal. apply union_comm_L.
  - cbn [tombstone_node added_edges tombstoned_edges tombstoned_nodes]. f_equal. apply union_comm_L.
  - done.
Qed.

(** The rows up to the first one that does not exceed its predecessor. *)
Fixpoint ascending_prefix (last : option Z) (rows : list SyncRow) : nat :=
  match rows with
  | [] => 0
  | row :: rows =>
      match last with
      | Some previous => if decide (sr_sequence row ≤ previous) then 0 else S (ascending_prefix (Some (sr_sequence row)) rows)
      | None => S (ascending_prefix (Some (sr_sequence row)) rows)
      end
  end.

Lemma ascending_prefix_le last rows : (ascending_prefix last rows ≤ length rows)%nat.
Proof.
  revert last. induction rows as [|row rows IH]; intros last; cbn; [lia|]. specialize (IH (Some (sr_sequence row))).
  destruct last; [case_decide|]; lia.
Qed.

Lemma apply_rows_spec rows : ∀ o last applied,
  let n := ascending_prefix last rows in
  let '(o', r) := apply_rows rows o last applied in
  model_of o' = foldl model_step (model_of o) (sr_action <$> take n rows) ∧ (Indexed o → Indexed o') ∧
  r = match rows !! n with
      | None => Ok (applied + zlen rows)
      | Some row => Err (PgSync (NonMonotonicSequence (sr_sequence row)
          (default 0 (match n with O => last | S n => sr_sequence <$> rows !! n end))))
      end.
Proof.
  induction rows as [|row rows IH]; intros o last applied.
  - cbn. split; [done|]. split; [done|]. f_equal. unfold zlen. cbn. lia.
  - assert (∀ last', last' = Some (sr_sequence row) →
      let n := S (ascending_prefix last' rows) in
      let '(o', r) := apply_rows rows (apply_to (sr_action row) o) last' (applied + 1) in
      model_of o' = foldl model_step (model_of o) (sr_action <$> take n (row :: rows)) ∧ (Indexed o → Indexed o') ∧
      r = match (row :: rows) !! n with
          | None => Ok (applied + zlen (row :: rows))
          | Some row' => Err (PgSync (NonMonotonicSequence (sr_sequence row') (default 0 (sr_sequence <$> (row :: rows) !! ascending_prefix last' rows))))
          end) as Hstep.
    { intros last' ->. specialize (IH (apply_to (sr_action row) o) (Some (sr_sequence row)) (applied + 1)). cbv zeta in *.
      destruct (apply_rows rows _ _ _) as [o' r]. destruct IH as (H1 & H2 & ->).
      cbn [take fmap list_fmap foldl]. rewrite apply_to_model in H1. split; [done|]. split.
      - intros Ho. by apply H2, apply_to_indexed.
      - change ((row :: rows) !! S (ascending_prefix (Some (sr_sequence row)) rows)) with (rows !! ascending_prefix (Some (sr_sequence row)) rows).
        destruct (rows !! _) as [row'|] eqn:Hr.
        + do 3 f_equal. by destruct (ascending_prefix (Some (sr_sequence row)) rows).
        + f_equal. unfold zlen. cbn [length]. lia. }
    cbn [apply_rows ascending_prefix]. destruct last as [previous|]; [|by apply Hstep].
    case_decide; [|by apply Hstep]. cbn. done.
Qed.

Lemma ascending_prefix_sorted rows : ∀ last,
  let n := ascending_prefix last rows in
  (∀ previous row, last = Some previous → rows !! 0%nat = Some row → (0 < n)%nat → previous < sr_sequence row) ∧
  (∀ i a b, (S i < n)%nat → rows !! i = Some a → rows !! S i = Some b → sr_sequence a < sr_sequence b) ∧
  ∀ row, rows !! n = Some row → ∃ previous,
    match n with O => last | S n => sr_sequence <$> rows !! n end = Some previous ∧ sr_sequence row ≤ previous.
Proof.
  induction rows as [|row rows IH]; intros last; [by cbn; split_and!; intros; (lia || done)|].
  destruct (IH (Some (sr_sequence row))) as (H1 & H2 & H3). clear IH.
  assert (let n := S (ascending_prefix (Some (sr_sequence row)) rows) in
    (∀ i a b, (S i < n)%nat → (row :: rows) !! i = Some a → (row :: rows) !! S i = Some b → sr_sequence a < sr_sequence b) ∧
    ∀ row', (row :: rows) !! n = Some row' → ∃ previous,
      match n with O => last | S n => sr_sequence <$> (row :: rows) !! n end = Some previous ∧ sr_sequence row' ≤ previous) as [Ha Hb].
  { cbv zeta. split.
    - intros [|i] a b Hi Hia Hib.
      + injection Hia as <-. apply (H1 _ _ eq_refl Hib). lia.
      + apply (H2 i a b); [lia|done..].
    - intros row' Hr. destruct (H3 row' Hr) as (p & Hp & Hle). exists p. split; [|done].
      by destruct (ascending_prefix _ rows). }
  cbn [ascending_prefix]. destruct last as [previous|].
  - case_decide as Hle.
    + split_and!; [lia|lia|]. intros r [= <-]. by exists previous.
    + split_and!; [|done|done]. intros p r [= <-] [= <-] _. lia.
  - by split_and!.
Qed.

(** C39. Sync replay. Rows apply in the order given: the overlay ends as the model
    their actions describe, applied to a strictly ascending prefix of the rows,
    and its adjacency indexes agree with its edges. The prefix is all of them, or
    it stops before the first row whose sequence does not exceed that of the row
    before it, which is what the error names: the rows up to there stay applied. *)
Theorem sync_replay_exact rows o :
  Indexed o →
  let '(o', r) := apply_in_order rows o in
  Indexed o' ∧ ∃ n : nat,
    model_of o' = foldl model_step (model_of o) (sr_action <$> take n rows) ∧
    (∀ i a b, (S i < n)%nat → rows !! i = Some a → rows !! S i = Some b → sr_sequence a < sr_sequence b) ∧
    ((n = length rows ∧ r = Ok (zlen rows)) ∨
     ∃ m row previous, n = S m ∧ rows !! m = Some previous ∧ rows !! n = Some row ∧
       sr_sequence row ≤ sr_sequence previous ∧
       r = Err (PgSync (NonMonotonicSequence (sr_sequence row) (sr_sequence previous)))).
Proof.
  intros Ho. pose proof (apply_rows_spec rows o None 0) as Hspec. unfold apply_in_order.
  destruct (apply_rows rows o None 0) as [o' r]. destruct Hspec as (Hm & Hi & Hr). split; [by apply Hi|].
  exists (ascending_prefix None rows). destruct (ascending_prefix_sorted rows None) as (_ & Hs & Hstop).
  split; [done|]. split; [done|]. pose proof (ascending_prefix_le None rows) as Hle.
  destruct (rows !! ascending_prefix None rows) as [row|] eqn:Hrow.
  - right. destruct (Hstop row eq_refl) as (p & Hp & Hple). subst r.
    destruct (ascending_prefix None rows) as [|m]; [done|]. destruct (rows !! m) as [previous|] eqn:Hprev; [|done].
    injection Hp as <-. by exists m, row, previous.
  - left. apply lookup_ge_None in Hrow. split; [lia|]. by rewrite Hr.
Qed.

Definition demo_sync_rows : list SyncRow := [
  {| sr_sequence := 1; sr_action := InsertEdge 0 2 |}; {| sr_sequence := 2; sr_action := InsertEdge 1 2 |};
  {| sr_sequence := 4; sr_action := RemoveOverlayEdge 0 2 |}; {| sr_sequence := 4; sr_action := DeleteNode 1 |} ].

Lemma sync_replay_exact_witness :
  let '(o, r) := apply_in_order demo_sync_rows default_overlay in
  Indexed o ∧ om_edges (model_of o) = [(1, 2)] ∧ r = Err (PgSync (NonMonotonicSequence 4 4)).
Proof.
  pose proof (sync_replay_exact demo_sync_rows default_overlay default_indexed) as [H _].
  split; [exact H|]. split; vm_compute; reflexivity.
Defined.

(** ** Dense ids *)

(** How many keys are smaller. *)
Definition rank (keys : gset Z) (k : Z) : nat := size (filter (λ x, x < k) keys).

Lemma set_iter_rank (keys : gset Z) i k : set_iter keys !! i = Some k ↔ k ∈ keys ∧ i = rank keys k.
Proof.
  pose proof (proj1 (StronglySorted_lookup _ _) (set_iter_ascending keys)) as Hs.
  assert (∀ j x, set_iter keys !! j = Some x → j = rank keys x) as Hrank.
  { intros j x Hj. unfold rank. assert (filter (λ y, y < x) keys = list_to_set (take j (set_iter keys))) as ->.
    - apply set_eq. intros y. rewrite elem_of_filter, elem_of_list_to_set, elem_of_take. split.
      + intros [Hlt Hy]. apply elem_of_set_iter, list_elem_of_lookup in Hy as [m Hm]. exists m. split; [done|].
        destruct (decide (m < j)%nat); [done|]. exfalso. destruct (decide (m = j)) as [->|]; [simplify_eq; lia|].
        destruct (Hs j m x y) as [? ?]; [lia|done..|]. cbn in *. lia.
      + intros (m & Hm & Hlt). split; [|by eapply elem_of_set_iter, list_elem_of_lookup_2].
        destruct (Hs m j y x) as [Hle Hne]; [done..|]. cbn in Hle. lia.
    - rewrite size_list_to_set.
      + rewrite length_take. apply lookup_lt_Some in Hj. lia.
      + eapply sublist_NoDup; [|apply sublist_take]. apply NoDup_set_iter. }
  split.
  - intros Hi. split; [by eapply elem_of_set_iter, list_elem_of_lookup_2|by apply Hrank].
  - intros [Hk ->]. apply elem_of_set_iter, list_elem_of_lookup in Hk as [j Hj]. by rewrite <-(Hrank j k Hj).
Qed.

Lemma dense_loop (l : list Z) : NoDup l →
  let run := for_each (λ m p, dense ← ok_or NodeCountOverflow (try_into u32_max p.1); Ok (<[p.2 := dense]> m))
    (imap (λ index key, (Z.of_nat index, key)) l) (∅ : gmap Z Z) in
  if decide (zlen l ≤ u32_max + 1)
  then ∃ m, run = Ok m ∧ ∀ k z, m !! k = Some z ↔ ∃ i, l !! i = Some k ∧ z = Z.of_nat i
  else run = Err NodeCountOverflow.
Proof.
  induction l as [|k l IH] using rev_ind; intros Hnd; cbv zeta.
  { rewrite decide_True by (vm_compute; congruence). exists ∅. split; [done|]. intros k z. rewrite lookup_empty.
    split; [done|]. intros (i & Hi & _). by rewrite lookup_nil in Hi. }
  apply NoDup_app in Hnd as (Hnd & Hk & _). specialize (IH Hnd). cbv zeta in IH.
  rewrite imap_app, for_each_app. cbn [imap for_each]. rewrite zlen_app. change (zlen [k]) with 1.
  destruct (decide (zlen l ≤ u32_max + 1)) as [Hl|Hl].
  - destruct IH as (m & -> & Hm). cbn [mbind res_bind fst snd]. rewrite Nat.add_0_r. fold (zlen l). unfold try_into.
    destruct (Z.leb_spec (zlen l) u32_max) as [Hle|Hle]; cbn [ok_or mbind res_bind].
    + rewrite decide_True by lia. exists (<[k := zlen l]> m). split; [done|]. intros k' z. rewrite lookup_insert_Some, Hm.
      setoid_rewrite lookup_snoc_Some. split.
      * intros [[<- <-]|[Hne (i & Hi & ->)]]; [exists (length l); split; [by right|done]|].
        exists i. split; [left; split; [by eapply lookup_lt_Some|done]|done].
      * intros (i & [[Hi Hik]|[-> <-]] & ->); [|by left]. right. split; [|by exists i].
        intros ->. apply (Hk k'); [by eapply list_elem_of_lookup_2|set_solver].
    + by rewrite decide_False by lia.
  - rewrite IH. by rewrite decide_False by lia.
Qed.

(** The dense assignment numbers the keys by rank. *)
Lemma dense_map_spec keys :
  if decide (Z.of_nat (size keys) ≤ u32_max + 1)
  then ∃ m, dense_node_map_from_keys keys = Ok m ∧ size m = size keys ∧
    ∀ k z, m !! k = Some z ↔ k ∈ keys ∧ z = Z.of_nat (rank keys k)
  else dense_node_map_from_keys keys = Err NodeCountOverflow.
Proof.
  assert (zlen (set_iter keys) = Z.of_nat (size keys)) as Hlen by (unfold zlen; by rewrite length_set_iter).
  pose proof (dense_loop (set_iter keys) (NoDup_set_iter keys)) as H. cbv zeta in H. rewrite Hlen in H. unfold dense_node_map_from_keys.
  case_decide; [|done]. destruct H as (m & -> & Hm).
  assert (∀ k z, m !! k = Some z ↔ k ∈ keys ∧ z = Z.of_nat (rank keys k)) as Hspec.
  { intros k z. rewrite Hm. setoid_rewrite set_iter_rank. naive_solver. }
  exists m. split; [done|]. split; [|done]. rewrite <-(size_dom (D := gset Z)). f_equal. apply set_eq. intros k.
  rewrite elem_of_dom. split; [by intros [z [? _]%Hspec]|]. intros Hk. eexists. by apply Hspec.
Qed.

Lemma rank_difference (X Y : gset Z) k :
  Z.of_nat (rank Y k) - Z.of_nat (rank X k) = Z.of_nat (rank (Y ∖ X) k) - Z.of_nat (rank (X ∖ Y) k).
Proof.
  assert (∀ A B : gset Z, rank A k = (rank (A ∖ B) k + rank (A ∩ B) k)%nat) as Hsplit.
  { intros A B. unfold rank. rewrite <-size_union by set_solver. f_equal. set_unfold. intros x.
    destruct (decide (x ∈ B)); naive_solver. }
  assert (X ∩ Y = Y ∩ X) as Hc by set_solver. pose proof (Hsplit Y X) as H1. pose proof (Hsplit X Y) as H2.
  rewrite Hc in H2. lia.
Qed.

(** C40. The ids of replayed sync rows drift from the artifact. An artifact built
    from edge rows numbers a node key by its rank among the keys of those rows;
    a sync row resolves a key by its rank among the keys of the rows scanned now
    and of the log. For a key that has an id in both, the ids differ by the
    smaller keys that came since less the smaller keys that went: a single new
    smaller key makes every later row address the wrong node of the artifact. *)
Theorem sync_ids_shift rows now_rows raw before after :
  dense_node_map_from_edges rows = Ok before →
  dense_node_map_for_sync_resolution now_rows raw = Ok after →
  let known := distinct_node_keys rows in
  let current := foldl raw_keys (distinct_node_keys now_rows) raw in
  (∀ k, is_Some (before !! k) ↔ k ∈ known) ∧ (∀ k, is_Some (after !! k) ↔ k ∈ current) ∧
  ∀ k i j, before !! k = Some i → after !! k = Some j →
    j - i = Z.of_nat (rank (current ∖ known) k) - Z.of_nat (rank (known ∖ current) k).
Proof.
  intros Hb Ha known current. apply map_err_Ok in Ha. unfold dense_node_map_from_edges in Hb.
  pose proof (dense_map_spec known) as H1. fold known in Hb. rewrite Hb in H1. case_decide; [|done].
  pose proof (dense_map_spec current) as H2. fold current in Ha. rewrite Ha in H2. case_decide; [|done].
  destruct H1 as (m1 & [= <-] & _ & H1), H2 as (m2 & [= <-] & _ & H2). split_and!.
  - intros k. split; [by intros [z [? _]%H1]|]. intros Hk. eexists. by apply H1.
  - intros k. split; [by intros [z [? _]%H2]|]. intros Hk. eexists. by apply H2.
  - intros k i j [_ ->]%H1 [_ ->]%H2. apply rank_difference.
Qed.

(** Edges 10 → 20 and 30 → 40 are in the artifact; an edge 15 → 40 arrives. *)
Definition demo_rows : list EdgeRow := [{| er_source := 10; er_target := 20 |}; {| er_source := 30; er_target := 40 |}].
Definition demo_now : list EdgeRow := demo_rows ++ [{| er_source := 15; er_target := 40 |}].
Definition demo_log : list RawSyncRow :=
  [{| raw_sequence := 1; raw_action_type := 1; raw_arg0 := Some 15; raw_arg1 := Some 40 |}].

Lemma sync_ids_shift_witness :
  ∃ before after, dense_node_map_from_edges demo_rows = Ok before ∧
    dense_node_map_for_sync_resolution demo_now demo_log = Ok after ∧
    before !! 40 = Some 3 ∧ after !! 40 = Some 4 ∧
    4 - 3 = Z.of_nat (rank (foldl raw_keys (distinct_node_keys demo_now) demo_log ∖ distinct_node_keys demo_rows) 40) -
      Z.of_nat (rank (distinct_node_keys demo_rows ∖ foldl raw_keys (distinct_node_keys demo_now) demo_log) 40) ∧
    resolve_sync_rows demo_now demo_log = Ok [{| sr_sequence := 1; sr_action := InsertEdge 1 4 |}] ∧
    before !! 20 = Some 1.
Proof.
  set (b := match dense_node_map_from_edges demo_rows with Ok m => m | _ => ∅ end).
  set (a := match dense_node_map_for_sync_resolution demo_now demo_log with Ok m => m | _ => ∅ end).
  assert (dense_node_map_from_edges demo_rows = Ok b) as Hb by (vm_compute; reflexivity).
  assert (dense_node_map_for_sync_resolution demo_now demo_log = Ok a) as Ha by (vm_compute; reflexivity).
  assert (b !! 40 = Some 3) as H3 by (vm_compute; reflexivity).
  assert (a !! 40 = Some 4) as H4 by (vm_compute; reflexivity).
  exists b, a. split; [exact Hb|]. split; [exact Ha|]. split; [exact H3|]. split; [exact H4|].
  split; [exact (proj2 (proj2 (sync_ids_shift demo_rows demo_now demo_log b a Hb Ha)) 40 3 4 H3 H4)|].
  split; vm_compute; reflexivity.
Defined.
