(* ===== verification/PgBuild.v ===== *)
(** * PgBuild: artifacts of the PostgreSQL engine

    Models [crates/oxgraph-postgres/src/artifact/] (the metadata section and the
    assembly of the Postgres-owned sections) and [build.rs], [rebuild.rs]: edge
    rows become a snapshot file with the forward adjacency, the inbound adjacency
    of its transpose and the metadata. *)

From stdpp Require Import base gmap sets list.
From S2P Require Import Prelude Bytes Layout Crc Snapshot SnapshotWrite Csr CsrBuild.
From S2P Require Import PgCatalog PgOverlay.

Local Open Scope Z_scope.

(** ** Metadata *)

Definition SNAPSHOT_KIND_PG_CATALOG : Z := 0x0200.
Definition SNAPSHOT_KIND_PG_INBOUND_OFFSETS_BASE : Z := 0x0204.
Definition SNAPSHOT_KIND_PG_INBOUND_TARGETS_BASE : Z := 0x0208.
Definition SNAPSHOT_KIND_PG_INBOUND_OFFSETS_U32 : Z := Z.lor SNAPSHOT_KIND_PG_INBOUND_OFFSETS_BASE (WIDTH_CODE S32).
Definition SNAPSHOT_KIND_PG_INBOUND_TARGETS_U32 : Z := Z.lor SNAPSHOT_KIND_PG_INBOUND_TARGETS_BASE (WIDTH_CODE S32).
Definition SNAPSHOT_KIND_PG_METADATA : Z := 0x020C.

Record PostgresMetadata := {
  pm_version : Z;
  pm_flags : Z;
  pm_built_at_unix : Z;
  pm_node_count : Z;
  pm_edge_count : Z
}.

#[export, refine] Instance metadata_wire : WireRecord PostgresMetadata := {|
  wire_widths := [4; 4; 8; 4; 4]%nat;
  wire_fields m := [pm_version m; pm_flags m; pm_built_at_unix m; pm_node_count m; pm_edge_count m];
  wire_of_fields l := match l with
    | [a; b; c; d; e] => {| pm_version := a; pm_flags := b; pm_built_at_unix := c; pm_node_count := d; pm_edge_count := e |}
    | _ => {| pm_version := 0; pm_flags := 0; pm_built_at_unix := 0; pm_node_count := 0; pm_edge_count := 0 |}
    end
|}.
Proof. all: [> done | by intros [] | cbn; lia]. Defined.

Definition METADATA_VERSION : Z := 1.
Definition FLAG_READ_ONLY : Z := 1.
Definition FLAG_HAS_REVERSE_INDEX : Z := 2.

Definition new_metadata (node_count edge_count built_at_unix : Z) (read_only : bool) : PostgresMetadata := {|
  pm_version := METADATA_VERSION;
  pm_flags := if read_only then Z.lor 0 FLAG_READ_ONLY else 0;
  pm_built_at_unix := built_at_unix;
  pm_node_count := node_count;
  pm_edge_count := edge_count
|}.

Definition with_reverse_index (m : PostgresMetadata) : PostgresMetadata := {|
  pm_version := pm_version m;
  pm_flags := Z.lor (pm_flags m) FLAG_HAS_REVERSE_INDEX;
  pm_built_at_unix := pm_built_at_unix m;
  pm_node_count := pm_node_count m;
  pm_edge_count := pm_edge_count m
|}.

Definition is_read_only (m : PostgresMetadata) : bool := bool_decide (Z.land (pm_flags m) FLAG_READ_ONLY ≠ 0).
Definition has_reverse_index (m : PostgresMetadata) : bool := bool_decide (Z.land (pm_flags m) FLAG_HAS_REVERSE_INDEX ≠ 0).

Section artifact.
Context `{!Target}.

Definition read_metadata (s : Snapshot) : res PostgresGraphError PostgresMetadata :=
  found ← section s SNAPSHOT_KIND_PG_METADATA;
  sec ← ok_or (PgBuild MissingMetadataSection) found;
  if decide (length (payload sec) = wire_size PostgresMetadata) then Ok (wire_of_bytes (payload sec))
  else Err (PgBuild MalformedMetadata).

Definition validate_snapshot_bytes (bytes : list byte) (addr : Z) : res PostgresGraphError (list byte) :=
  _ ← map_err PgSnapshot (open bytes addr); Ok bytes.

(** ** Assembly of the Postgres-owned sections *)

Definition is_postgres_owned_kind (kind : Z) : bool := bool_decide (0x0200 ≤ kind < 0x0300).

(** [trailing_zeros] of a declared alignment, a power of two. *)
Definition alignment_log2_from_section (sec : Section_) : Z :=
  if decide (declared_alignment sec ≤ 1) then 0 else Z.log2 (declared_alignment sec).

Definition copy_section (w : SnapshotWriter) (dest_kind : Z) (sec : Section_) : res PostgresGraphError SnapshotWriter :=
  map_err from_plan (section_bytes w dest_kind (sec_version sec) (alignment_log2_from_section sec) (payload sec)).

Definition copy_csr_section (s : Snapshot) (source_kind dest_kind : Z) (w : SnapshotWriter)
    : res PostgresGraphError SnapshotWriter :=
  found ← section s source_kind;
  sec ← ok_or (PgBuild (MissingCsrSection source_kind)) found;
  copy_section w dest_kind sec.

Definition write_postgres_metadata_section (w : SnapshotWriter) (m : PostgresMetadata) : res PlanError SnapshotWriter :=
  section_typed w SNAPSHOT_KIND_PG_METADATA METADATA_VERSION 1 [wire_bytes m].

(** The two inputs lie at their own addresses. *)
Definition attach_postgres_sections (forward_bytes : list byte) (forward_addr : Z)
    (inbound_bytes : option (list byte * Z)) (m : PostgresMetadata) : res PostgresGraphError (list byte) :=
  forward ← map_err PgSnapshot (open forward_bytes forward_addr);
  inbound ← match inbound_bytes with
    | Some (bytes, addr) => s ← map_err PgSnapshot (open bytes addr); Ok (Some s)
    | None => Ok None
    end;
  all ← sections forward;
  let kept := filter (λ sec, is_postgres_owned_kind (sec_kind sec) = false) all in
  let inbound_count := match (inbound : option Snapshot) with Some _ => 2 | None => 0 end in
  w ← map_err from_plan (SnapshotWriter_new (zlen kept + inbound_count + 1) crc32c_append);
  w ← for_each (λ w sec, copy_section w (sec_kind sec) sec) kept w;
  w ← match inbound with
    | Some s =>
        w ← copy_csr_section s (OFFSETS_KIND S32) SNAPSHOT_KIND_PG_INBOUND_OFFSETS_U32 w;
        copy_csr_section s (TARGETS_KIND S32) SNAPSHOT_KIND_PG_INBOUND_TARGETS_U32 w
    | None => Ok w
    end;
  w ← map_err from_plan (write_postgres_metadata_section w m);
  map_err from_plan (finish w).

Definition attach_metadata (base_bytes : list byte) (addr : Z) (m : PostgresMetadata) : res PostgresGraphError (list byte) :=
  attach_postgres_sections base_bytes addr None m.

(** ** Building from edges *)

(** [for _ in 0..count { builder.add_node()?; }]. *)
Definition add_nodes (count : nat) (b : GraphBuilder) : res GraphBuildError GraphBuilder :=
  for_each (λ b _, '(_, b) ← add_node W32 b; Ok b) (replicate count ()) b.

Definition add_row (m : gmap Z Z) (b : GraphBuilder) (row : EdgeRow) : res PostgresGraphError GraphBuilder :=
  source ← ok_or (PgBuild MissingNodeKey) (m !! er_source row);
  target ← ok_or (PgBuild MissingNodeKey) (m !! er_target row);
  '(_, b) ← map_err from_graph (add_edge W32 W32 b source target);
  Ok b.

(** What both builds do with their finished builder; [forward_addr] and
    [inbound_addr] are where the exports lie. *)
Definition export_dual (b : GraphBuilder) (node_count built_at_unix forward_addr inbound_addr : Z)
    : res PostgresGraphError (list byte) :=
  frozen ← map_err from_graph (freeze W32 W32 b);
  node_count ← ok_or (PgBuild NodeCountOverflow) (try_into u32_max node_count);
  edge_count ← ok_or (PgBuild EdgeCountOverflow) (try_into u32_max (zlen (ft_edge_ids frozen)));
  inbound_frozen ← map_err from_graph (transpose W32 W32 frozen);
  forward_bytes ← map_err from_graph (export_csr_snapshot S32 S32 frozen);
  inbound_bytes ← map_err from_graph (export_csr_snapshot S32 S32 inbound_frozen);
  attach_postgres_sections forward_bytes forward_addr (Some (inbound_bytes, inbound_addr))
    (with_reverse_index (new_metadata node_count edge_count built_at_unix true)).

Definition from_edge_rows (rows : list EdgeRow) (built_at_unix forward_addr inbound_addr : Z)
    : res PostgresGraphError (list byte) :=
  if decide (length rows = 0%nat) then Err (PgBuild EmptyEdges) else
  key_to_dense ← map_err PgBuild (dense_node_map_from_keys (distinct_node_keys rows));
  let key_count := size key_to_dense in
  b ← map_err from_graph (add_nodes key_count GraphBuilder_new);
  b ← for_each (add_row key_to_dense) rows b;
  export_dual b (Z.of_nat key_count) built_at_unix forward_addr inbound_addr.

Definition from_dense_u32_edges_with_node_count (node_count : Z) (edges : list (Z * Z))
    (built_at_unix forward_addr inbound_addr : Z) : res PostgresGraphError (list byte) :=
  if decide (node_count = 0) then Err (PgBuild EmptyEdges) else
  if existsb (λ e, bool_decide (node_count ≤ e.1 ∨ node_count ≤ e.2)) edges then Err (PgBuild MissingNodeKey) else
  b ← map_err from_graph (add_nodes (Z.to_nat node_count) GraphBuilder_new);
  b ← for_each (λ b e, '(_, b) ← map_err from_graph (add_edge W32 W32 b e.1 e.2); Ok b) edges b;
  export_dual b node_count built_at_unix forward_addr inbound_addr.

Definition from_dense_u32_edges (edges : list (Z * Z)) (built_at_unix forward_addr inbound_addr : Z)
    : res PostgresGraphError (list byte) :=
  if decide (length edges = 0%nat) then Err (PgBuild EmptyEdges) else
  let max_index := foldl (λ m e, Z.max (Z.max m e.1) e.2) 0 edges in
  node_count ← ok_or (PgBuild NodeCountOverflow) (checked_add u32_max max_index 1);
  from_dense_u32_edges_with_node_count node_count edges built_at_unix forward_addr inbound_addr.

Record BuildEstimate := { be_node_count : Z; be_edge_count : Z }.
Definition estimate_build (rows : list EdgeRow) : BuildEstimate :=
  {| be_node_count := Z.of_nat (size (distinct_node_keys rows)); be_edge_count := zlen rows |}.

(** [SnapshotRebuild::from_catalog_and_edges]. *)
Definition from_catalog_and_edges (catalog : Catalog) (rows : list EdgeRow) (built_at_unix forward_addr inbound_addr : Z)
    : res PostgresGraphError (list byte) :=
  _ ← map_err PgCatalog (validate_for_build catalog);
  from_edge_rows rows built_at_unix forward_addr inbound_addr.

End artifact.
