(* ===== verification/PgTopology.v ===== *)
(** * PgTopology: the two adjacency views of an engine under an overlay

    Models [crates/oxgraph-postgres/src/topology.rs]: opening the forward and the
    inbound view of an artifact, the node-unique rows derived from them, and the
    overlay views that a traversal expands: base neighbors with edge tombstones
    filtered, overlay neighbors chained after them, tombstoned nodes dropped. An
    iterator is the list it yields.

    Node and edge ids are [u32] values ([Z], never negative). *)

From stdpp Require Import base gmap sets list.
From S2P Require Import Prelude Bytes Ordered Layout Snapshot Topology Csr.
From S2P Require Import PgCatalog PgOverlay PgBuild.

Local Open Scope Z_scope.

Section topology.
Context `{!Target}.

(** ** The views of an artifact *)

Record GraphTopology := {
  forward : CsrGraph (le_word S32) (le_word S32);
  inbound : CscSnapshotGraph S32 S32
}.

Definition INBOUND_SECTION_VERSION : Z := SNAPSHOT_CSR_SECTION_VERSION.

Definition open_topology (s : Snapshot) : res PostgresGraphError GraphTopology :=
  m ← read_metadata s;
  if negb (has_reverse_index m) then Err (PgBuild MissingReverseIndex) else
  fwd ← map_err ForwardSnapshot (from_snapshot S32 S32 s);
  inb ← map_err InboundSnapshot (csc_from_snapshot_with_kinds s SNAPSHOT_KIND_PG_INBOUND_OFFSETS_U32
    SNAPSHOT_KIND_PG_INBOUND_TARGETS_U32 INBOUND_SECTION_VERSION);
  if decide (node_bound fwd ≠ csc_node_count inb) then Err (PgBuild TopologyNodeCountMismatch) else
  if decide (zlen (targets fwd) ≠ csc_relation_count inb) then Err (PgBuild TopologyEdgeCountMismatch) else
  if decide (try_into u32_max (node_bound fwd) ≠ Some (pm_node_count m)) then Err (PgBuild MetadataNodeCountMismatch) else
  if decide (try_into u32_max (zlen (targets fwd)) ≠ Some (pm_edge_count m)) then Err (PgBuild MetadataEdgeCountMismatch) else
  Ok {| forward := fwd; inbound := inb |}.

(** [ForwardCsr] and [InboundCsc]. *)
Definition forward_node_count (t : GraphTopology) : Z := node_bound (forward t).
Definition inbound_node_count (t : GraphTopology) : Z := csc_node_count (inbound t).
Definition successors {E} (t : GraphTopology) (source : Z) : res E (list Z) := csr_element_successors (forward t) source.

Definition view_node_visible (count : Z) (o : OverlayState) (node : Z) : bool :=
  bool_decide (node < count) && (negb (has_node_tombstones o) || overlay_node_visible o node).

Inductive TraversalDirection := DirOut | DirIn.

Definition node_visible (t : GraphTopology) (node : Z) (d : TraversalDirection) (o : OverlayState) : bool :=
  match d with
  | DirOut => view_node_visible (forward_node_count t) o node
  | DirIn => view_node_visible (inbound_node_count t) o node
  end.

(** ** Node-unique rows *)

Record UniqueAdjacency := {
  outgoing_offsets : list Z;
  outgoing_targets : list Z;
  incoming_offsets : list Z;
  incoming_sources : list Z
}.

Definition default_unique : UniqueAdjacency :=
  {| outgoing_offsets := []; outgoing_targets := []; incoming_offsets := []; incoming_sources := [] |}.

(** Rows sorted and deduplicated, one after the other. *)
Definition build_unique_rows {E} (count : Z) (neighbors : Z → res E (list Z)) : res E (list Z * list Z) :=
  match try_into u32_max count with
  | None => Ok ([0], [])
  | Some bound =>
      for_each (λ (st : list Z * list Z) node,
        row ← neighbors node;
        let targets := st.2 ++ sorted_dedup row in
        Ok (st.1 ++ [zlen targets], targets)) (seqZ 0 bound) ([0], [])
  end.

Definition from_topology {E} (t : GraphTopology) : res E UniqueAdjacency :=
  let count := forward_node_count t in
  out ← build_unique_rows count (successors t);
  inc ← build_unique_rows count (predecessors (inbound t));
  Ok {| outgoing_offsets := out.1; outgoing_targets := out.2; incoming_offsets := inc.1; incoming_sources := inc.2 |}.

Definition unique_row {E} (offsets targets : list Z) (node : Z) : res E (list Z) :=
  match offsets !! Z.to_nat node, offsets !! Z.to_nat (saturating_add usize_max node 1) with
  | Some start, Some end_ => vslice targets (Z.to_nat start) (Z.to_nat end_)
  | _, _ => Ok []
  end.

Definition outgoing {E} (u : UniqueAdjacency) (source : Z) : res E (list Z) :=
  unique_row (outgoing_offsets u) (outgoing_targets u) source.
Definition incoming {E} (u : UniqueAdjacency) (target : Z) : res E (list Z) :=
  unique_row (incoming_offsets u) (incoming_sources u) target.

(** ** Overlay views *)

Record OverlayViewFlags := { use_unique : bool; merge_overlay : bool; check_nodes : bool }.

(** [OverlayOutView] and [OverlayInView] hold the same parts: both views, the
    overlay, the unique rows, the flags and the node bound. *)
Record OverlayView := {
  ov_topology : GraphTopology;
  ov_overlay : OverlayState;
  ov_unique : UniqueAdjacency;
  ov_flags : OverlayViewFlags;
  ov_node_count : Z
}.

Definition ov_node_visible (v : OverlayView) (node : Z) : bool :=
  negb (check_nodes (ov_flags v)) || overlay_node_visible (ov_overlay v) node.

(** The [admit] of both iterators, against the bound as a [u32]. *)
Definition admits (v : OverlayView) (node : Z) : bool :=
  bool_decide (node < default u32_max (try_into u32_max (ov_node_count v))) && ov_node_visible v node.

(** The edge ids of a row of the forward view. *)
Definition row_edges {E} (g : CsrGraph (le_word S32) (le_word S32)) (node : Z) : res E (list Z) :=
  r ← outgoing_edges g node;
  out_edges_collect (OW := le_word S32) (S (Z.to_nat (er_end r - er_start r))) r.

(** [OutBaseSource::Parallel], drained. *)
Definition parallel_targets {E} (v : OverlayView) (node : Z) : res E (list Z) :=
  let g := forward (ov_topology v) in
  es ← row_edges g node;
  for_each (λ acc edge,
    if has_edge_tombstones (ov_overlay v) && negb (edge_visible (ov_overlay v) edge) then Ok acc else
    target ← csr_target g edge; Ok (acc ++ [target])) es [].

(** The loop of [has_visible_forward_edge]. *)
Fixpoint visible_edge_to {E} (g : CsrGraph (le_word S32) (le_word S32)) (o : OverlayState) (target : Z) (es : list Z) : res E bool :=
  match es with
  | [] => Ok false
  | edge :: es =>
      t ← csr_target g edge;
      if bool_decide (t = target) && edge_visible o edge then Ok true else visible_edge_to g o target es
  end.

Definition has_visible_forward_edge {E} (g : CsrGraph (le_word S32) (le_word S32)) (o : OverlayState) (source target : Z) : res E bool :=
  es ← row_edges g source; visible_edge_to g o target es.

(** [InBaseSource::Parallel], drained. *)
Definition parallel_sources {E} (v : OverlayView) (node : Z) : res E (list Z) :=
  preds ← predecessors (inbound (ov_topology v)) node;
  for_each (λ acc pred,
    if has_edge_tombstones (ov_overlay v) then
      visible ← has_visible_forward_edge (forward (ov_topology v)) (ov_overlay v) pred node;
      Ok (if (visible : bool) then acc ++ [pred] else acc)
    else Ok (acc ++ [pred])) preds [].

(** The drained [OverlayOutSuccessors] and [OverlayInPredecessors]. *)
Definition out_neighbors {E} (v : OverlayView) (node : Z) : res E (list Z) :=
  base ← (if use_unique (ov_flags v) then outgoing (ov_unique v) node else parallel_targets v node);
  let overlay_row := if merge_overlay (ov_flags v) then overlay_targets (ov_overlay v) node else [] in
  Ok (filter (λ x, admits v x = true) base ++ filter (λ x, admits v x = true) overlay_row).

Definition in_neighbors {E} (v : OverlayView) (node : Z) : res E (list Z) :=
  base ← (if use_unique (ov_flags v) then incoming (ov_unique v) node else parallel_sources v node);
  let overlay_row := if merge_overlay (ov_flags v) then overlay_sources (ov_overlay v) node else [] in
  Ok (filter (λ x, admits v x = true) base ++ filter (λ x, admits v x = true) overlay_row).

(** The traits; the lists above say where the code panics. *)
#[export] Instance overlay_view_dense : DenseElementIndex OverlayView Z :=
  {| element_bound v := Z.to_nat (ov_node_count v); element_index _ x := Z.to_nat x |}.
#[export] Instance overlay_view_contains : ContainsElement OverlayView Z :=
  λ v x, bool_decide (0 ≤ x < ov_node_count v) && ov_node_visible v x.
#[export] Instance overlay_view_successors : ElementSuccessors OverlayView Z := λ v x, ok_or_else [] (out_neighbors v x).
#[export] Instance overlay_view_predecessors : ElementPredecessors OverlayView Z := λ v x, ok_or_else [] (in_neighbors v x).

End topology.
