(* ===== verification/PgTopologyFacts.v ===== *)
(** * PgTopologyFacts: what the views of an engine expand

    On a topology whose views passed validation, the rows of the forward view are
    ranges of edge slots; the node-unique rows hold the members of the rows they
    were built from; and the neighbors an overlay view yields are the visible
    targets of live edges, in either direction. *)

From stdpp Require Import base gmap sets list.
From S2P Require Import Prelude Bytes Ordered Layout Snapshot Topology Csr CsrFacts.
From S2P Require Import PgCatalog PgOverlay PgOverlayFacts PgBuild PgTopology.

Local Open Scope Z_scope.

(** ** Rows as ranges of slots *)

Section rows.
Context `{!Target}.
Notation Graph := (CsrGraph (le_word S32) (le_word S32)).

Definition offset_at (g : Graph) (i : nat) : Z := default 0 (word_get <$> offsets g !! i).

(** The edge ids of a row, and the targets of ids and rows. *)
Definition row_slots (g : Graph) (x : Z) : list Z :=
  seqZ (offset_at g (Z.to_nat x)) (offset_at g (S (Z.to_nat x)) - offset_at g (Z.to_nat x)).
Definition slot_target (g : Graph) (e : Z) : Z := default 0 (word_get <$> targets g !! Z.to_nat e).
Definition row_targets (g : Graph) (x : Z) : list Z := slot_target g <$> row_slots g x.

Lemma slot_targets_slice (g : Graph) a k :
  (a + k ≤ length (targets g))%nat →
  slot_target g <$> seqZ (Z.of_nat a) (Z.of_nat k) = id_slice (take k (drop a (targets g))).
Proof.
  intros Hle. apply list_eq. intros i. unfold id_slice. rewrite !list_lookup_fmap.
  destruct (decide (i < k)%nat) as [Hi|Hi].
  - rewrite lookup_seqZ_lt by lia. rewrite lookup_take_lt, lookup_drop by lia. cbn [fmap option_fmap option_map].
    destruct (lookup_lt_is_Some_2 (targets g) (a + i)) as [w Hw]; [lia|]. rewrite Hw. unfold slot_target.
    replace (Z.to_nat (Z.of_nat a + Z.of_nat i)) with (a + i)%nat by lia. by rewrite Hw.
  - rewrite lookup_seqZ_ge by lia. by rewrite lookup_take_ge by lia.
Qed.

Section view.
Context (g : Graph) (Hok : CsrOk g) (Hfit : node_bound g ≤ u32_max).

Lemma u32_node x : 0 ≤ x < node_bound g → fits (word_width (le_word S32)) x.
Proof using Hfit. intros Hx. split; [lia|]. change (x ≤ u32_max). lia. Qed.

Lemma slot_range x :
  0 ≤ x < node_bound g →
  ∃ a k, offset_at g (Z.to_nat x) = Z.of_nat a ∧ offset_at g (S (Z.to_nat x)) = Z.of_nat (a + k) ∧
    (a + k ≤ length (targets g))%nat ∧ row_slots g x = seqZ (Z.of_nat a) (Z.of_nat k) ∧
    row_targets g x = id_slice (take k (drop a (targets g))) ∧
    (∀ E, outgoing_edges (E:=E) g x = Ok {| er_start := Z.of_nat a; er_end := Z.of_nat a + Z.of_nat k |}) ∧
    ∀ E, csr_element_successors (E:=E) g x = Ok (row_targets g x).
Proof using Hok Hfit.
  intros Hx. destruct (csr_rows g Hok) as [rows Hrows]. pose proof (rows_count _ _ Hrows) as Hcount. unfold zlen in Hcount.
  destruct (lookup_lt_is_Some_2 rows (Z.to_nat x)) as [r Hr]; [lia|].
  destruct (rows_cut _ _ Hrows _ _ Hr) as (wa & wb & Ha & Hb & Hab & Hbl & Heq).
  exists (Z.to_nat (word_get wa)), (Z.to_nat (word_get wb - word_get wa)). unfold zlen in Hbl.
  assert (offset_at g (Z.to_nat x) = word_get wa) as Hoa by (unfold offset_at; by rewrite Ha).
  assert (offset_at g (S (Z.to_nat x)) = word_get wb) as Hob by (unfold offset_at; by rewrite Hb).
  assert (row_slots g x = seqZ (Z.of_nat (Z.to_nat (word_get wa))) (Z.of_nat (Z.to_nat (word_get wb - word_get wa)))) as Hslots
    by (unfold row_slots; rewrite Hoa, Hob; f_equal; lia).
  assert (row_targets g x = r) as Hrt.
  { unfold row_targets. rewrite Hslots, slot_targets_slice by lia. done. }
  split; [lia|]. split; [lia|]. split; [lia|]. split; [done|]. split; [by rewrite Hrt|]. split; intros E.
  - unfold outgoing_edges, checked_node_slot. rewrite (try_node_slot_Some g Hok) by (done || by apply u32_node).
    cbn [or_panic mbind res_bind]. unfold outgoing_range, vget. cbn [ns_slot]. rewrite Ha. cbn [or_panic mbind res_bind].
    unfold checked_offset_slot. rewrite (csr_read g Hok _ wa Ha). cbn [or_panic mbind res_bind].
    replace (Z.to_nat (x + 1)) with (S (Z.to_nat x)) by lia. rewrite Hb. cbn [or_panic mbind res_bind].
    rewrite (csr_read g Hok _ wb Hb). cbn [or_panic mbind res_bind]. do 2 f_equal; lia.
  - rewrite Hrt. apply (csr_successors_Ok g Hok rows); [done|by apply u32_node|lia|done].
Qed.

Lemma row_successors {E} x : 0 ≤ x < node_bound g → csr_element_successors (E:=E) g x = Ok (row_targets g x).
Proof using Hok Hfit. intros Hx. by destruct (slot_range x Hx) as (a & k & _ & _ & _ & _ & _ & _ & Hs). Qed.

Lemma row_slots_bound x e : 0 ≤ x < node_bound g → e ∈ row_slots g x → 0 ≤ e < zlen (targets g).
Proof using Hok Hfit.
  intros Hx He. destruct (slot_range x Hx) as (a & k & _ & _ & Hle & Hs & _). rewrite Hs in He.
  apply elem_of_seqZ in He. unfold zlen. lia.
Qed.

Lemma slot_target_bound e : 0 ≤ e < zlen (targets g) → 0 ≤ slot_target g e < node_bound g.
Proof using Hok.
  intros He. unfold zlen in He. destruct (lookup_lt_is_Some_2 (targets g) (Z.to_nat e)) as [w Hw]; [lia|].
  unfold slot_target. rewrite Hw. cbn [fmap option_fmap option_map default id]. split; [apply word_get_fits|].
  pose proof (csr_targets _ Hok) as Ht. rewrite Forall_lookup in Ht. exact (Ht _ w Hw).
Qed.

Lemma row_targets_bound x y : 0 ≤ x < node_bound g → y ∈ row_targets g x → 0 ≤ y < node_bound g.
Proof using Hok Hfit.
  intros Hx (e & -> & He)%list_elem_of_fmap. apply slot_target_bound. by eapply row_slots_bound.
Qed.

Context (Hedges : zlen (targets g) ≤ u32_max).

Lemma row_edges_Ok {E} x : 0 ≤ x < node_bound g → row_edges (E:=E) g x = Ok (row_slots g x).
Proof using Hok Hfit Hedges.
  intros Hx. destruct (slot_range x Hx) as (a & k & _ & _ & Hle & Hs & _ & Hr & _). unfold row_edges.
  rewrite Hr. cbn [mbind res_bind er_start er_end]. rewrite Hs. replace (Z.of_nat a + Z.of_nat k - Z.of_nat a) with (Z.of_nat k) by lia.
  rewrite Nat2Z.id. apply (out_edges_Ok g Hok); [lia|unfold zlen; lia|].
  intros v Hv. split; [lia|]. change (v ≤ u32_max). lia.
Qed.

Lemma slot_target_Ok {E} e : 0 ≤ e < zlen (targets g) → csr_target (E:=E) g e = Ok (slot_target g e).
Proof using Hok Hedges.
  intros He. unfold zlen in He, Hedges. destruct (lookup_lt_is_Some_2 (targets g) (Z.to_nat e)) as [w Hw]; [lia|].
  replace e with (Z.of_nat (Z.to_nat e)) at 1 by lia.
  destruct (target_at (E:=E) g Hok (Z.to_nat e) w) as [-> _]; [|done|by unfold slot_target; rewrite Hw].
  split; [lia|]. change (Z.of_nat (Z.to_nat e) ≤ u32_max). lia.
Qed.

End view.
End rows.

(** ** Node-unique rows *)

Section unique.
Context `{!Target}.

(** Rows of any neighbor function that returns on every node. *)
Definition unique_rows (f : Z → list Z) (k : nat) : list (list Z) := (λ i, sorted_dedup (f (Z.of_nat i))) <$> seq 0 k.

Lemma unique_rows_S f k : unique_rows f (S k) = unique_rows f k ++ [sorted_dedup (f (Z.of_nat k))].
Proof. unfold unique_rows. by rewrite seq_S, fmap_app. Qed.

Lemma length_unique_rows f k : length (unique_rows f k) = k.
Proof. unfold unique_rows. by rewrite length_fmap, length_seq. Qed.

Lemma take_unique_rows f k i : (i ≤ k)%nat → take i (unique_rows f k) = unique_rows f i.
Proof. intros Hi. unfold unique_rows. rewrite <-fmap_take, take_seq. by replace (i `min` k)%nat with i by lia. Qed.

Definition row_starts (f : Z → list Z) (k : nat) : list Z := (λ i, zlen (concat (unique_rows f i))) <$> seq 0 (S k).

Lemma build_unique_rows_Ok {E} f neighbors count :
  0 ≤ count ≤ u32_max → (∀ x, 0 ≤ x < count → neighbors x = Ok (f x)) →
  build_unique_rows (E:=E) count neighbors =
    Ok (row_starts f (Z.to_nat count), concat (unique_rows f (Z.to_nat count))).
Proof.
  intros Hc Hn. unfold build_unique_rows. rewrite try_into_fits by lia.
  assert (∀ k, Z.of_nat k ≤ count → for_each (λ (st : list Z * list Z) node, row ← neighbors node;
      let targets := st.2 ++ sorted_dedup row in Ok (st.1 ++ [zlen targets], targets))
      (seqZ 0 (Z.of_nat k)) ([0], []) = Ok (E:=E) (row_starts f k, concat (unique_rows f k))) as Hk.
  { induction k as [|k IH]; intros Hk; [done|].
    rewrite Nat2Z.inj_succ, <-Z.add_1_r, seqZ_app by lia. rewrite for_each_app, IH by lia.
    cbn [mbind res_bind]. rewrite Z.add_0_l. change (seqZ (Z.of_nat k) 1) with [Z.of_nat k]. cbn [for_each].
    rewrite Hn by lia. cbn [mbind res_bind fst snd].
    replace (concat (unique_rows f k) ++ sorted_dedup (f (Z.of_nat k))) with (concat (unique_rows f (S k)))
      by (rewrite unique_rows_S, concat_app; cbn [concat]; by rewrite app_nil_r).
    unfold row_starts at 2. rewrite seq_S, fmap_app. done. }
  specialize (Hk (Z.to_nat count) ltac:(lia)). rewrite Z2Nat.id in Hk by lia. exact Hk.
Qed.

Lemma unique_row_Ok {E} f count x :
  0 ≤ x < count → count + 1 ≤ usize_max →
  unique_row (E:=E) (row_starts f (Z.to_nat count)) (concat (unique_rows f (Z.to_nat count))) x = Ok (sorted_dedup (f x)).
Proof.
  intros Hx Hc. set (n := Z.to_nat count). set (i := Z.to_nat x). unfold unique_row.
  assert (∀ j, (j ≤ n)%nat → row_starts f n !! j = Some (zlen (concat (unique_rows f j)))) as Hst.
  { intros j Hj. unfold row_starts. rewrite list_lookup_fmap, lookup_seq_lt by lia. done. }
  rewrite (Hst (Z.to_nat x)) by lia.
  replace (Z.to_nat (saturating_add usize_max x 1)) with (S i) by (unfold saturating_add; lia). rewrite Hst by lia.
  assert (unique_rows f n !! i = Some (sorted_dedup (f x))) as Hi.
  { unfold unique_rows. rewrite list_lookup_fmap, lookup_seq_lt by lia. cbn. by replace (Z.of_nat i) with x by lia. }
  fold i. unfold vslice, zlen. rewrite !Nat2Z.id. rewrite unique_rows_S, concat_app. cbn [concat]. rewrite app_nil_r, length_app.
  replace (Z.of_nat i) with x by lia. rewrite decide_True.
  - f_equal. replace (length (concat (unique_rows f i)) + length (sorted_dedup (f x)) - length (concat (unique_rows f i)))%nat
      with (length (sorted_dedup (f x))) by lia.
    rewrite <-(take_unique_rows f n i) by lia. by apply concat_row.
  - split; [lia|]. rewrite <-(take_drop_middle _ _ _ Hi). rewrite concat_app. cbn [concat]. rewrite !length_app.
    rewrite take_unique_rows by lia. lia.
Qed.

End unique.

(** ** Live edges *)

Section live.
Context `{!Target}.

(** What opening an artifact checks of its views, [n] the node count. *)
Record TopologyOk (t : GraphTopology) (n : Z) : Prop := {
  to_forward : CsrOk (forward t);
  to_inbound : CsrOk (csc_inner (inbound t));
  to_nodes : node_bound (forward t) = n;
  to_inbound_nodes : csc_node_count (inbound t) = n;
  to_edges : zlen (targets (forward t)) ≤ u32_max;
  to_fits : n ≤ u32_max
}.

(** The inbound rows hold the sources of the forward edges. Nothing checks this
    when an artifact is opened; the builder makes it so. *)
Definition Transposed (t : GraphTopology) (n : Z) : Prop :=
  ∀ x y, 0 ≤ x < n → 0 ≤ y < n → x ∈ row_targets (csc_inner (inbound t)) y ↔ y ∈ row_targets (forward t) x.

(** Targets of a row's edges that carry no tombstone. *)
Definition visible_targets (t : GraphTopology) (o : OverlayState) (x : Z) : list Z :=
  slot_target (forward t) <$> filter (λ e, e ∉ tombstoned_edges o) (row_slots (forward t) x).

(** Where a query can go from [x] in one hop along an edge: base edges without
    a tombstone and, when it merges the overlay, overlay edges. *)
Definition live_targets (t : GraphTopology) (o : OverlayState) (merge : bool) (x : Z) : list Z :=
  visible_targets t o x ++ (if merge then targets_from (added_edges o) x else []).

(** Against edges: the inbound row, of which tombstones leave the sources that
    still have an edge, and the overlay. *)
Definition live_sources (t : GraphTopology) (o : OverlayState) (merge : bool) (y : Z) : list Z :=
  let preds := row_targets (csc_inner (inbound t)) y in
  (if has_edge_tombstones o then filter (λ p, y ∈ visible_targets t o p) preds else preds) ++
  (if merge then sources_into (added_edges o) y else []).

(** Overlay edges have [u32] ends. *)
Definition OverlayOk (o : OverlayState) : Prop :=
  Indexed o ∧ Forall (λ e, 0 ≤ oe_source e ∧ 0 ≤ oe_target e) (added_edges o).

Lemma filter_same {A} (P Q : A → Prop) `{!∀ x, Decision (P x), !∀ x, Decision (Q x)} (l : list A) :
  (∀ x, x ∈ l → P x ↔ Q x) → filter P l = filter Q l.
Proof.
  induction l as [|x l IH]; intros Hl; [done|]. rewrite !filter_cons, IH by set_solver.
  specialize (Hl x ltac:(set_solver)). case_decide; case_decide; tauto.
Qed.

Lemma filter_all {A} (P : A → Prop) `{!∀ x, Decision (P x)} (l : list A) : (∀ x, x ∈ l → P x) → filter P l = l.
Proof.
  induction l as [|x l IH]; intros Hl; [done|]. rewrite filter_cons_True by (apply Hl; set_solver).
  f_equal. apply IH. set_solver.
Qed.

Lemma has_no_tombstones o e : has_edge_tombstones o = false → e ∉ tombstoned_edges o.
Proof. unfold has_edge_tombstones. intros Ho%bool_decide_eq_false. apply dec_stable in Ho. rewrite Ho. set_solver. Qed.

Lemma no_edge_tombstones t o x : has_edge_tombstones o = false → visible_targets t o x = row_targets (forward t) x.
Proof.
  intros Ho. unfold visible_targets, row_targets. f_equal. apply filter_all.
  intros e _. by apply has_no_tombstones.
Qed.

Lemma sources_targets es x y : x ∈ sources_into es y ↔ y ∈ targets_from es x.
Proof.
  unfold sources_into, targets_from. split; intros (e & -> & [<- He]%list_elem_of_filter)%list_elem_of_fmap.
  - apply list_elem_of_fmap. exists e. split; [done|]. by apply list_elem_of_filter.
  - apply list_elem_of_fmap. exists e. split; [done|]. by apply list_elem_of_filter.
Qed.

Section topology.
Context (t : GraphTopology) (n : Z) (Ht : TopologyOk t n).

Lemma forward_bound : node_bound (forward t) ≤ u32_max.
Proof using Ht. rewrite (to_nodes _ _ Ht). apply Ht. Qed.
Lemma inbound_bound : node_bound (csc_inner (inbound t)) ≤ u32_max.
Proof using Ht. change (csc_node_count (inbound t) ≤ u32_max). rewrite (to_inbound_nodes _ _ Ht). apply Ht. Qed.

Lemma forward_node x : 0 ≤ x < n → 0 ≤ x < node_bound (forward t).
Proof using Ht. by rewrite (to_nodes _ _ Ht). Qed.
Lemma inbound_node x : 0 ≤ x < n → 0 ≤ x < node_bound (csc_inner (inbound t)).
Proof using Ht. intros Hx. change (0 ≤ x < csc_node_count (inbound t)). by rewrite (to_inbound_nodes _ _ Ht). Qed.

Lemma successors_row {E} x : 0 ≤ x < n → successors (E:=E) t x = Ok (row_targets (forward t) x).
Proof using Ht. intros Hx. apply row_successors; [apply Ht|apply forward_bound|by apply forward_node]. Qed.
Lemma predecessors_row {E} x : 0 ≤ x < n → predecessors (E:=E) (inbound t) x = Ok (row_targets (csc_inner (inbound t)) x).
Proof using Ht. intros Hx. apply row_successors; [apply Ht|apply inbound_bound|by apply inbound_node]. Qed.

Lemma inbound_row_bound x y : 0 ≤ x < n → y ∈ row_targets (csc_inner (inbound t)) x → 0 ≤ y < n.
Proof using Ht.
  intros Hx Hy. rewrite <-(to_inbound_nodes _ _ Ht). eapply row_targets_bound; [apply Ht|apply inbound_bound|by apply inbound_node|done].
Qed.

Lemma visible_targets_row o x y : y ∈ visible_targets t o x → y ∈ row_targets (forward t) x.
Proof using Type.
  intros (e & -> & [_ He]%list_elem_of_filter)%list_elem_of_fmap. unfold row_targets. by apply list_elem_of_fmap_2.
Qed.

Lemma visible_targets_bound o x y : 0 ≤ x < n → y ∈ visible_targets t o x → 0 ≤ y < n.
Proof using Ht.
  intros Hx Hy%visible_targets_row. rewrite <-(to_nodes _ _ Ht).
  eapply row_targets_bound; [apply Ht|apply forward_bound|by apply forward_node|done].
Qed.

(** On an artifact whose views are transposes of each other, going against
    edges is going along them backwards. *)
Lemma live_sources_transposed o merge x y :
  Transposed t n → 0 ≤ x < n → 0 ≤ y < n → x ∈ live_sources t o merge y ↔ y ∈ live_targets t o merge x.
Proof using Ht.
  intros Htr Hx Hy. unfold live_sources, live_targets. rewrite !elem_of_app.
  assert (x ∈ (if merge then sources_into (added_edges o) y else []) ↔ y ∈ (if merge then targets_from (added_edges o) x else [])) as ->
    by (destruct merge; [apply sources_targets|by rewrite !elem_of_nil]).
  assert (x ∈ (if has_edge_tombstones o then filter (λ p, y ∈ visible_targets t o p) (row_targets (csc_inner (inbound t)) y)
    else row_targets (csc_inner (inbound t)) y) ↔ y ∈ visible_targets t o x) as ->; [|done].
  destruct (has_edge_tombstones o) eqn:Ho; [|rewrite no_edge_tombstones by done; by apply Htr].
  rewrite list_elem_of_filter, (Htr x y Hx Hy). split; [tauto|]. intros Hv. split; [done|]. by eapply visible_targets_row.
Qed.

Lemma row_slot_target {E} x e : 0 ≤ x < n → e ∈ row_slots (forward t) x → csr_target (E:=E) (forward t) e = Ok (slot_target (forward t) e).
Proof using Ht.
  intros Hx He. apply slot_target_Ok; [apply Ht|apply Ht|].
  eapply row_slots_bound; [apply Ht|apply forward_bound|by apply forward_node|done].
Qed.

Lemma from_topology_Ok {E} : 0 ≤ n → from_topology (E:=E) t = Ok {|
    outgoing_offsets := row_starts (row_targets (forward t)) (Z.to_nat n);
    outgoing_targets := concat (unique_rows (row_targets (forward t)) (Z.to_nat n));
    incoming_offsets := row_starts (row_targets (csc_inner (inbound t))) (Z.to_nat n);
    incoming_sources := concat (unique_rows (row_targets (csc_inner (inbound t))) (Z.to_nat n)) |}.
Proof using Ht.
  intros Hn. unfold from_topology, forward_node_count. rewrite (to_nodes _ _ Ht). pose proof (to_fits _ _ Ht).
  rewrite (build_unique_rows_Ok (row_targets (forward t)) (successors t)) by (lia || intros x; apply successors_row). cbn [mbind res_bind].
  rewrite (build_unique_rows_Ok (row_targets (csc_inner (inbound t))) (predecessors (inbound t))) by (lia || intros x; apply predecessors_row).
  done.
Qed.

End topology.

(** ** Overlay views *)

(** A view as a session makes it: the unique rows are the topology's when they
    are used, and only without edge tombstones. *)
Record ViewOk (v : OverlayView) (n : Z) : Prop := {
  vo_topology : TopologyOk (ov_topology v) n;
  vo_count : ov_node_count v = n;
  vo_overlay : OverlayOk (ov_overlay v);
  vo_unique : use_unique (ov_flags v) = true → has_edge_tombstones (ov_overlay v) = false ∧
    Ok (E:=Empty_set) (ov_unique v) = from_topology (ov_topology v);
  vo_check : check_nodes (ov_flags v) = has_node_tombstones (ov_overlay v)
}.

Lemma ov_node_visible_alive v n x : ViewOk v n → ov_node_visible v x = bool_decide (x ∉ tombstoned_nodes (ov_overlay v)).
Proof.
  intros Hv. unfold ov_node_visible. rewrite (vo_check _ _ Hv). unfold has_node_tombstones, overlay_node_visible.
  destruct (bool_decide_reflect (tombstoned_nodes (ov_overlay v) ≠ ∅)) as [Hne|Hne]; [done|].
  apply dec_stable in Hne. rewrite Hne. symmetry. apply bool_decide_eq_true. set_solver.
Qed.

(** The nodes an answer may show. *)
Definition alive (n : Z) (o : OverlayState) (x : Z) : Prop := 0 ≤ x < n ∧ x ∉ tombstoned_nodes o.
#[export] Instance alive_dec n o x : Decision (alive n o x).
Proof. unfold alive. apply _. Defined.

Section view.
Context (v : OverlayView) (n : Z) (Hv : ViewOk v n).
Let t := ov_topology v.
Let o := ov_overlay v.

Lemma view_contains x : contains_element v x = true ↔ alive n o x.
Proof using Hv.
  unfold contains_element, overlay_view_contains, alive. rewrite (vo_count _ _ Hv), (ov_node_visible_alive _ _ _ Hv).
  rewrite andb_true_iff, !bool_decide_eq_true. done.
Qed.

Lemma view_admits x : 0 ≤ x → 0 ≤ n → admits v x = true ↔ alive n o x.
Proof using Hv.
  intros Hx Hn. unfold admits, alive. rewrite (vo_count _ _ Hv), (ov_node_visible_alive _ _ _ Hv).
  pose proof (to_fits _ _ (vo_topology _ _ Hv)). rewrite try_into_fits by lia. cbn [default id].
  rewrite andb_true_iff, !bool_decide_eq_true. unfold o. intuition lia.
Qed.

Lemma parallel_targets_Ok {E} x : 0 ≤ x < n → parallel_targets (E:=E) v x = Ok (visible_targets t o x).
Proof using Hv.
  intros Hx. pose proof (vo_topology _ _ Hv) as Ht. unfold parallel_targets.
  rewrite row_edges_Ok; [|apply Ht|by apply (forward_bound _ n)|apply Ht|by apply (forward_node _ n)].
  cbn [mbind res_bind]. unfold visible_targets. fold t o.
  assert (∀ e, e ∈ row_slots (forward t) x → csr_target (E:=E) (forward t) e = Ok (slot_target (forward t) e)) as Hslot
    by (intros e; by apply (row_slot_target _ n)).
  assert (∀ es acc, (∀ e, e ∈ es → csr_target (E:=E) (forward t) e = Ok (slot_target (forward t) e)) →
    for_each (λ acc edge, if has_edge_tombstones o && negb (edge_visible o edge) then Ok acc else
      target ← csr_target (forward t) edge; Ok (acc ++ [target])) es acc =
    Ok (E:=E) (acc ++ (slot_target (forward t) <$> filter (λ e, e ∉ tombstoned_edges o) es))) as Hloop; [|by rewrite Hloop].
  induction es as [|e es IH]; intros acc Hes; cbn [for_each]; [by rewrite filter_nil, app_nil_r|].
  assert (has_edge_tombstones o && negb (edge_visible o e) = bool_decide (e ∈ tombstoned_edges o)) as ->.
  { unfold edge_visible. destruct (has_edge_tombstones o) eqn:Hh.
    - cbn. by destruct (bool_decide_reflect (e ∉ tombstoned_edges o)), (bool_decide_reflect (e ∈ tombstoned_edges o)).
    - cbn. symmetry. apply bool_decide_eq_false. by apply has_no_tombstones. }
  rewrite filter_cons. case_bool_decide as He.
  - rewrite decide_False by tauto. cbn [mbind res_bind]. apply IH. set_solver.
  - rewrite decide_True by done. rewrite Hes by set_solver. cbn [mbind res_bind]. rewrite IH by set_solver.
    by rewrite <-app_assoc.
Qed.

Lemma visible_edge_to_Ok {E} x y : 0 ≤ x < n →
  has_visible_forward_edge (E:=E) (forward t) o x y = Ok (bool_decide (y ∈ visible_targets t o x)).
Proof using Hv.
  intros Hx. pose proof (vo_topology _ _ Hv) as Ht. unfold has_visible_forward_edge.
  rewrite row_edges_Ok; [|apply Ht|by apply (forward_bound _ n)|apply Ht|by apply (forward_node _ n)].
  cbn [mbind res_bind]. unfold visible_targets.
  assert (∀ e, e ∈ row_slots (forward t) x → csr_target (E:=E) (forward t) e = Ok (slot_target (forward t) e)) as Hslot
    by (intros e; by apply (row_slot_target _ n)).
  revert Hslot. generalize (row_slots (forward t) x). induction l as [|e es IH]; intros Hes; cbn [visible_edge_to].
  { by rewrite filter_nil. }
  rewrite Hes by set_solver. cbn [mbind res_bind]. rewrite filter_cons. unfold edge_visible at 1.
  destruct (decide (e ∉ tombstoned_edges o)) as [He|He].
  - rewrite (bool_decide_eq_true_2 (e ∉ _)) by done. rewrite andb_true_r. cbn [fmap list_fmap].
    destruct (bool_decide_reflect (slot_target (forward t) e = y)) as [Hy|Hy]; cbn [andb].
    + f_equal. symmetry. apply bool_decide_eq_true. rewrite Hy. apply elem_of_cons. by left.
    + rewrite IH by set_solver. f_equal. apply bool_decide_ext. rewrite elem_of_cons. intuition congruence.
  - rewrite (bool_decide_eq_false_2 (e ∉ _)) by done. rewrite andb_false_r. apply IH. set_solver.
Qed.

Lemma parallel_sources_Ok {E} y : 0 ≤ y < n →
  let preds := row_targets (csc_inner (inbound t)) y in
  parallel_sources (E:=E) v y =
    Ok (if has_edge_tombstones o then filter (λ p, y ∈ visible_targets t o p) preds else preds).
Proof using Hv.
  intros Hy preds. pose proof (vo_topology _ _ Hv) as Ht. unfold parallel_sources.
  rewrite (predecessors_row _ n) by done. cbn [mbind res_bind]. fold t o preds.
  assert (∀ p, p ∈ preds → 0 ≤ p < n) as Hb by (intros p; by apply (inbound_row_bound t n Ht)).
  destruct (has_edge_tombstones o).
  - assert (∀ ps acc, (∀ p, p ∈ ps → 0 ≤ p < n) → for_each (λ acc pred,
        visible ← has_visible_forward_edge (forward t) o pred y;
        Ok (if (visible : bool) then acc ++ [pred] else acc)) ps acc =
      Ok (E:=E) (acc ++ filter (λ p, y ∈ visible_targets t o p) ps)) as Hloop; [|by rewrite Hloop].
    induction ps as [|p ps IH]; intros acc Hps; cbn [for_each]; [by rewrite filter_nil, app_nil_r|].
    rewrite visible_edge_to_Ok by (apply Hps; set_solver). cbn [mbind res_bind]. rewrite IH by set_solver.
    rewrite filter_cons. case_bool_decide; [rewrite decide_True by done|by rewrite decide_False by done].
    by rewrite <-app_assoc.
  - assert (∀ ps acc, for_each (λ (acc : list Z) (pred : Z), Ok (acc ++ [pred])) ps acc = Ok (E:=E) (acc ++ ps)) as Hloop; [|by rewrite Hloop].
    induction ps as [|p ps IH]; intros acc; cbn [for_each]; [by rewrite app_nil_r|]. cbn [mbind res_bind].
    by rewrite IH, <-app_assoc.
Qed.

Lemma out_base_Ok x : 0 ≤ x < n → ∃ l,
  (∀ E, (if use_unique (ov_flags v) then outgoing (E:=E) (ov_unique v) x else parallel_targets v x) = Ok l) ∧
  ∀ y, y ∈ l ↔ y ∈ visible_targets t o x.
Proof using Hv.
  intros Hx. pose proof (vo_topology _ _ Hv) as Ht. destruct (use_unique (ov_flags v)) eqn:Hu.
  - destruct (vo_unique _ _ Hv Hu) as [Hno Hq]. rewrite (from_topology_Ok _ n Ht) in Hq by lia. injection Hq as Hq.
    exists (sorted_dedup (row_targets (forward t) x)). split.
    + intros E. unfold outgoing. rewrite Hq. cbn [outgoing_offsets outgoing_targets]. apply unique_row_Ok; [done|].
      rewrite <-(to_nodes _ _ Ht). apply (csr_fits _ (to_forward _ _ Ht)).
    + intros y. by rewrite elem_of_sorted_dedup, no_edge_tombstones.
  - eexists. split; [intros E; by apply parallel_targets_Ok|done].
Qed.

Lemma in_base_Ok y : 0 ≤ y < n → ∃ l,
  (∀ E, (if use_unique (ov_flags v) then incoming (E:=E) (ov_unique v) y else parallel_sources v y) = Ok l) ∧
  (∀ x, x ∈ l → 0 ≤ x < n) ∧ (∀ x, x ∈ l ↔ x ∈ live_sources t o false y).
Proof using Hv.
  intros Hy. pose proof (vo_topology _ _ Hv) as Ht. unfold live_sources. setoid_rewrite app_nil_r.
  assert (∀ x, x ∈ row_targets (csc_inner (inbound t)) y → 0 ≤ x < n) as Hb by (intros x; by apply (inbound_row_bound t n Ht)).
  destruct (use_unique (ov_flags v)) eqn:Hu.
  - destruct (vo_unique _ _ Hv Hu) as [Hno Hq]. rewrite (from_topology_Ok _ n Ht) in Hq by lia. injection Hq as Hq.
    fold o in Hno. rewrite Hno.
    exists (sorted_dedup (row_targets (csc_inner (inbound t)) y)). split_and!.
    + intros E. unfold incoming. rewrite Hq. cbn [incoming_offsets incoming_sources]. apply unique_row_Ok; [done|].
      rewrite <-(to_nodes _ _ Ht). apply (csr_fits _ (to_forward _ _ Ht)).
    + intros x. rewrite elem_of_sorted_dedup. apply Hb.
    + intros x. apply elem_of_sorted_dedup.
  - eexists. split; [intros E; by apply parallel_sources_Ok|]. split; [|done]. intros x.
    destruct (has_edge_tombstones o); [intros [_ Hx]%list_elem_of_filter|intros Hx]; by apply Hb.
Qed.

Lemma overlay_row_nonneg x : Forall (λ y, 0 ≤ y) (targets_from (added_edges o) x) ∧ Forall (λ y, 0 ≤ y) (sources_into (added_edges o) x).
Proof using Hv.
  pose proof (vo_overlay _ _ Hv) as [_ Hnn]. rewrite Forall_forall in Hnn.
  split; apply Forall_forall; intros y (e & -> & [_ He]%list_elem_of_filter)%list_elem_of_fmap; by apply Hnn.
Qed.

(** The drained iterators hold the live neighbors. *)
Lemma out_neighbors_Ok x : alive n o x → ∃ l, (∀ E, out_neighbors (E:=E) v x = Ok l) ∧
  ∀ y, y ∈ l ↔ alive n o y ∧ y ∈ live_targets t o (merge_overlay (ov_flags v)) x.
Proof using Hv.
  intros [Hx _]. pose proof (vo_topology _ _ Hv) as Ht. destruct (out_base_Ok x Hx) as (base & Hbase & Hmem).
  pose proof (vo_overlay _ _ Hv) as [[Hidx _] _]. destruct (overlay_row_nonneg x) as [Hnn _].
  eexists. split; [intros E; unfold out_neighbors; by rewrite Hbase|]. intros y. unfold live_targets.
  rewrite !elem_of_app, !list_elem_of_filter. fold o. destruct (merge_overlay (ov_flags v)).
  - rewrite Hidx. rewrite Forall_forall in Hnn. split.
    + intros [[Ha Hy]|[Ha Hy]].
      * apply view_admits in Ha; [|by apply (visible_targets_bound t n Ht o x y Hx), Hmem|lia]. split; [done|]. left. by apply Hmem.
      * apply view_admits in Ha; [|by apply Hnn|lia]. split; [done|]. by right.
    + intros [Ha [Hy|Hy]]; [left|right]; (split; [apply view_admits; [apply Ha|lia|done]|]); [by apply Hmem|done].
  - split.
    + intros [[Ha Hy]|[_ Hy]]; [|by apply not_elem_of_nil in Hy].
      apply view_admits in Ha; [|by apply (visible_targets_bound t n Ht o x y Hx), Hmem|lia]. split; [done|]. left. by apply Hmem.
    + intros [Ha [Hy|Hy]]; [|by apply not_elem_of_nil in Hy]. left. split; [apply view_admits; [apply Ha|lia|done]|by apply Hmem].
Qed.

Lemma in_neighbors_Ok y : alive n o y → ∃ l, (∀ E, in_neighbors (E:=E) v y = Ok l) ∧
  ∀ x, x ∈ l ↔ alive n o x ∧ x ∈ live_sources t o (merge_overlay (ov_flags v)) y.
Proof using Hv.
  intros [Hy _]. pose proof (vo_topology _ _ Hv) as Ht. destruct (in_base_Ok y Hy) as (base & Hbase & Hb & Hmem).
  pose proof (vo_overlay _ _ Hv) as [[_ Hidx] _]. destruct (overlay_row_nonneg y) as [_ Hnn]. rewrite Forall_forall in Hnn.
  unfold live_sources in Hmem. rewrite app_nil_r in Hmem.
  assert (∀ x (l : list Z), (x ∈ l → 0 ≤ x) → x ∈ filter (λ x, admits v x = true) l ↔ alive n o x ∧ x ∈ l) as Hadm.
  { intros x l Hx. rewrite list_elem_of_filter. split; intros [Ha Hin]; (split; [|done]).
    - by apply view_admits in Ha; [|by apply Hx|lia].
    - apply view_admits; [by apply Hx|lia|done]. }
  eexists. split; [intros E; unfold in_neighbors; by rewrite Hbase|]. fold o. intros x. unfold live_sources.
  rewrite !elem_of_app, Hadm by (intros ?%Hb; lia). rewrite Hmem. destruct (merge_overlay (ov_flags v)).
  - rewrite Hidx, Hadm by apply Hnn. tauto.
  - rewrite filter_nil, elem_of_nil. tauto.
Qed.

Lemma view_laws : 0 ≤ n → TopologyLaws (Id := Z) v.
Proof using Hv.
  intros Hn. split; cbn [element_index element_bound overlay_view_dense]; rewrite ?(vo_count _ _ Hv).
  - intros x [Hx _]%view_contains. lia.
  - intros x y [Hx _]%view_contains [Hy _]%view_contains He. lia.
  - intros x y Hx%view_contains Hy. destruct (out_neighbors_Ok x Hx) as (l & Hl & Hmem).
    unfold element_successors, overlay_view_successors in Hy. rewrite Hl in Hy. apply view_contains. by apply Hmem.
  - intros x y Hx%view_contains Hy. destruct (in_neighbors_Ok x Hx) as (l & Hl & Hmem).
    unfold element_predecessors, overlay_view_predecessors in Hy. rewrite Hl in Hy. apply view_contains. by apply Hmem.
Qed.

End view.
End live.
