(* ===== verification/PgEngine.v ===== *)
(** * PgEngine: the active engine

    Models [crates/oxgraph-postgres/src/engine.rs], [builder.rs] and
    [traverse/]: an engine opened from artifact bytes, its overlay, sync
    replay and rebuilds, bounded traversals in both directions with the scratch
    buffers and the node-unique rows kept between queries, search and status.

    A method on [&mut self] returns the engine it leaves, next to its outcome. *)

From Stdlib Require Import String.
From stdpp Require Import base gmap sets list strings.
From S2P Require Import Prelude Bytes Layout Snapshot Topology BfsSpec Bfs BfsBounded Csr.
From S2P Require Import PgCatalog PgOverlay PgBuild PgTopology.

Local Open Scope Z_scope.

(** ** Scratch, limits and sessions *)

Record TraverseScratch := { ts_marks : list Z; ts_queue : list Z }.

Definition resize_for_nodes (s : TraverseScratch) (count : Z) : TraverseScratch :=
  {| ts_marks := resize (Z.to_nat count) 0 (ts_marks s); ts_queue := resize (Z.to_nat count) 0 (ts_queue s) |}.
Definition reset_after_snapshot (count : Z) : TraverseScratch := resize_for_nodes {| ts_marks := []; ts_queue := [] |} count.

(** [NonZeroUsize] and [Option<NonZeroU32>]. *)
Record TraverseLimits := { tl_result_limit : Z; tl_max_depth : option Z }.

Definition capped_by (l : TraverseLimits) (c : Config) : res PostgresGraphError TraverseLimits :=
  let capped := Z.min (tl_result_limit l) (traverse_limit c) in
  if decide (capped = 0) then Err (PgQuery LimitZero)
  else Ok {| tl_result_limit := capped; tl_max_depth := tl_max_depth l |}.

Inductive TraverseMode := Collect | Count.
#[export] Instance TraverseMode_eq_dec : EqDecision TraverseMode.
Proof. solve_decision. Defined.

Record TraverseProfile := { pf_direction : TraversalDirection; pf_use_unique : bool; pf_merge_overlay : bool }.

Definition resolve_profile (d : TraversalDirection) (f : QueryFreshness) (o : OverlayState) : TraverseProfile := {|
  pf_direction := d;
  pf_use_unique := bool_decide (f = BaseOnly) && negb (has_edge_tombstones o);
  pf_merge_overlay := bool_decide (f = OverlayAware) && bool_decide (0 < overlay_edge_count o)
|}.

Record TraverseSession := {
  se_node_count : Z;
  se_profile : TraverseProfile;
  se_mode : TraverseMode;
  se_result_limit : Z;
  se_max_depth : option Z;
  se_seeds : list Z;
  se_check_nodes : bool
}.

Inductive KernelOutcome := Nodes (nodes : list Z) | Counted (count : Z).

Record OutcomeVisitor := { ov_nodes : list Z; ov_count : Z; ov_collect : bool }.

(** [observe] never breaks. *)
#[export] Instance observe : BfsVisitor OutcomeVisitor Z := λ v node _,
  (false, {| ov_nodes := if ov_collect v then ov_nodes v ++ [node] else ov_nodes v;
             ov_count := ov_count v + 1; ov_collect := ov_collect v |}).

Definition finish_visitor (v : OutcomeVisitor) (m : TraverseMode) : KernelOutcome :=
  match m with Collect => Nodes (ov_nodes v) | Count => Counted (ov_count v) end.

Section engine.
Context `{!Target}.

(** ** Engines *)

Record Engine := {
  en_backing : list byte;
  en_metadata : PostgresMetadata;
  en_topology : GraphTopology;
  en_overlay : OverlayState;
  en_config : Config;
  en_scratch : TraverseScratch;
  en_unique : UniqueAdjacency;
  en_unique_built : bool
}.

Definition with_overlay (e : Engine) (o : OverlayState) : Engine := {|
  en_backing := en_backing e; en_metadata := en_metadata e; en_topology := en_topology e; en_overlay := o;
  en_config := en_config e; en_scratch := en_scratch e; en_unique := en_unique e; en_unique_built := en_unique_built e |}.
Definition with_config (e : Engine) (c : Config) : Engine := {|
  en_backing := en_backing e; en_metadata := en_metadata e; en_topology := en_topology e; en_overlay := en_overlay e;
  en_config := c; en_scratch := en_scratch e; en_unique := en_unique e; en_unique_built := en_unique_built e |}.
Definition with_scratch (e : Engine) (s : TraverseScratch) : Engine := {|
  en_backing := en_backing e; en_metadata := en_metadata e; en_topology := en_topology e; en_overlay := en_overlay e;
  en_config := en_config e; en_scratch := s; en_unique := en_unique e; en_unique_built := en_unique_built e |}.
Definition with_unique (e : Engine) (u : UniqueAdjacency) : Engine := {|
  en_backing := en_backing e; en_metadata := en_metadata e; en_topology := en_topology e; en_overlay := en_overlay e;
  en_config := en_config e; en_scratch := en_scratch e; en_unique := u; en_unique_built := true |}.

(** [EngineBuilder::build]; the owned bytes lie at [addr]. The snapshot is opened
    once for the metadata and once more for the views. *)
Definition build_engine (backing : option (list byte)) (o : OverlayState) (c : Config) (addr : Z) : res PostgresGraphError Engine :=
  bytes ← ok_or (PgBuild MissingSnapshotBytes) backing;
  _ ← validate_config c;
  s ← map_err PgSnapshot (open bytes addr);
  m ← read_metadata s;
  s ← map_err PgSnapshot (open bytes addr);
  t ← open_topology s;
  Ok {| en_backing := bytes; en_metadata := m; en_topology := t; en_overlay := o; en_config := c;
        en_scratch := resize_for_nodes {| ts_marks := []; ts_queue := [] |} (pm_node_count m);
        en_unique := default_unique; en_unique_built := false |}.

Definition from_snapshot_bytes (bytes : list byte) (addr : Z) : res PostgresGraphError Engine :=
  build_engine (Some bytes) default_overlay default_config addr.

Definition engine_node_count (e : Engine) : Z := pm_node_count (en_metadata e).

Definition set_config (e : Engine) (c : Config) : Engine * res PostgresGraphError () :=
  match validate_config c with
  | Ok _ => (with_config e c, Ok ())
  | r => (e, r)
  end.

(** The new engine's overlay, unique rows and scratch are those of a fresh load. *)
Definition replace_snapshot_bytes (e : Engine) (bytes : list byte) (addr : Z) : Engine * res PostgresGraphError () :=
  match build_engine (Some bytes) default_overlay (en_config e) addr with
  | Ok fresh =>
      ({| en_backing := en_backing fresh; en_metadata := en_metadata fresh; en_topology := en_topology fresh;
          en_overlay := clear_overlay (en_overlay e); en_config := en_config e;
          en_scratch := reset_after_snapshot (engine_node_count fresh);
          en_unique := default_unique; en_unique_built := false |}, Ok ())
  | Err err => (e, Err err)
  | Panic => (e, Panic)
  | NoFuel => (e, NoFuel)
  end.

(** The bytes of the rebuild lie at [addr], its two exports at theirs. *)
Definition rebuild_from_catalog (e : Engine) (catalog : Catalog) (rows : list EdgeRow)
    (built_at_unix forward_addr inbound_addr addr : Z) : Engine * res PostgresGraphError () :=
  if negb (maintenance_enabled (en_config e)) then (e, Err (PgConfig MaintenanceDisabled)) else
  match from_catalog_and_edges catalog rows built_at_unix forward_addr inbound_addr with
  | Ok bytes => replace_snapshot_bytes e bytes addr
  | Err err => (e, Err err)
  | Panic => (e, Panic)
  | NoFuel => (e, NoFuel)
  end.

Definition apply_sync_rows (e : Engine) (rows : list SyncRow) : Engine * res PostgresGraphError Z :=
  let '(o, r) := apply_in_order rows (en_overlay e) in (with_overlay e o, r).

(** ** Traversals *)

Definition seed_visible (e : Engine) (d : TraversalDirection) (seed : Z) : bool :=
  node_visible (en_topology e) seed d (en_overlay e).

Definition open_session (e : Engine) (seeds : list Z) (l : TraverseLimits) (d : TraversalDirection) (m : TraverseMode)
    : res PostgresGraphError TraverseSession :=
  let count := engine_node_count e in
  let session seeds := {|
    se_node_count := count; se_profile := resolve_profile d (query_freshness (en_config e)) (en_overlay e);
    se_mode := m; se_result_limit := tl_result_limit l; se_max_depth := tl_max_depth l; se_seeds := seeds;
    se_check_nodes := has_node_tombstones (en_overlay e) |} in
  match seeds with
  | [] => Ok (session [])
  | _ =>
      match head (filter (λ seed, count ≤ seed) seeds) with
      | Some seed => Err (PgQuery (SeedOutOfBounds seed count))
      | None => Ok (session (filter (λ seed, seed_visible e d seed = true) seeds))
      end
  end.

(** [traverse_workspace_mut]: the unique rows are built once per snapshot. *)
Definition traverse_workspace {E} (e : Engine) (needs_unique : bool) : res E Engine :=
  if needs_unique && negb (en_unique_built e) then u ← from_topology (en_topology e); Ok (with_unique e u)
  else Ok e.

Definition session_view (e : Engine) (s : TraverseSession) : OverlayView := {|
  ov_topology := en_topology e; ov_overlay := en_overlay e; ov_unique := en_unique e;
  ov_flags := {| use_unique := pf_use_unique (se_profile s); merge_overlay := pf_merge_overlay (se_profile s);
                 check_nodes := se_check_nodes s |};
  ov_node_count := se_node_count s |}.

(** The search of one query. The fuel covers every node. *)
Definition kernel_search (v : OverlayView) (d : TraversalDirection) (seeds : list Z) (b : BfsBounds) (s : TraverseScratch)
    (visitor : OutcomeVisitor) : res BfsError (BoundedRun OutcomeVisitor Z) :=
  let scratch := BfsEpochScratch_new (ts_marks s) (ts_queue s) in
  let fuel := (element_bound v + 2)%nat in
  match d with
  | DirOut => breadth_first_search_bounded fuel v seeds b scratch visitor
  | DirIn => reverse_breadth_first_search_bounded fuel v seeds b scratch visitor
  end.

Definition run_bfs_multi (e : Engine) (s : TraverseSession) : Engine * res PostgresGraphError KernelOutcome :=
  match se_seeds s with
  | [] => (e, Ok (match se_mode s with Collect => Nodes [] | Count => Counted 0 end))
  | _ =>
      let b := {| max_depth := se_max_depth s; result_limit := se_result_limit s; include_seeds := true |} in
      let visitor := {| ov_nodes := []; ov_count := 0; ov_collect := bool_decide (se_mode s = Collect) |} in
      match traverse_workspace e (pf_use_unique (se_profile s)) with
      | Ok e =>
          match kernel_search (session_view e s) (pf_direction (se_profile s)) (se_seeds s) b (en_scratch e) visitor with
          | Ok r => (with_scratch e {| ts_marks := br_marks r; ts_queue := br_queue r |}, Ok (finish_visitor (br_visitor r) (se_mode s)))
          | Err _ => (e, Err (PgQuery (InternalInvariant "bounded BFS rejected engine scratch")))
          | Panic => (e, Panic)
          | NoFuel => (e, NoFuel)
          end
      | Err err => (e, Err err)
      | Panic => (e, Panic)
      | NoFuel => (e, NoFuel)
      end
  end.

Definition traverse_core (e : Engine) (seeds : list Z) (l : TraverseLimits) (d : TraversalDirection) (m : TraverseMode)
    : Engine * res PostgresGraphError KernelOutcome :=
  match open_session e seeds l d m with
  | Ok s => run_bfs_multi e s
  | Err err => (e, Err err)
  | Panic => (e, Panic)
  | NoFuel => (e, NoFuel)
  end.

(** The kernel run of a query with its limits, and the outcome it must have. *)
Definition limited {A} (e : Engine) (seeds : list Z) (l : TraverseLimits) (d : TraversalDirection) (m : TraverseMode)
    (expect : KernelOutcome → res PostgresGraphError A) : Engine * res PostgresGraphError A :=
  match capped_by l (en_config e) with
  | Ok l => let '(e, r) := traverse_core e seeds l d m in (e, o ← r; expect o)
  | Err err => (e, Err err)
  | Panic => (e, Panic)
  | NoFuel => (e, NoFuel)
  end.

Definition traverse_from_seeds (e : Engine) (seeds : list Z) (l : TraverseLimits) (d : TraversalDirection)
    : Engine * res PostgresGraphError (list Z) :=
  limited e seeds l d Collect (λ o, match o with
    | Nodes nodes => Ok nodes
    | Counted _ => Err (PgQuery (InternalInvariant "expected nodes from collect traversal"))
    end).
Definition traverse (e : Engine) (seed : Z) := traverse_from_seeds e [seed].

Definition visited_count (e : Engine) (seed : Z) (l : TraverseLimits) (d : TraversalDirection)
    : Engine * res PostgresGraphError Z :=
  limited e [seed] l d Count (λ o, match o with
    | Counted count => Ok count
    | Nodes _ => Err (PgQuery (InternalInvariant "expected count from count-only traversal"))
    end).

(** ** Search *)

(** The loop of [search]: it stops at the limit. *)
Fixpoint search_loop (e : Engine) (p : SearchPredicate) (limit : Z) (nodes found : list Z) : res PostgresGraphError (list Z) :=
  match nodes with
  | [] => Ok found
  | node :: nodes =>
      node ← ok_or (PgQuery NodeIndexOverflow) (try_into u32_max node);
      if negb (node_visible (en_topology e) node DirOut (en_overlay e)) || negb (matches p node)
      then search_loop e p limit nodes found
      else if decide (limit ≤ zlen (found ++ [node])) then Ok (found ++ [node])
      else search_loop e p limit nodes (found ++ [node])
  end.

Definition search (e : Engine) (p : SearchPredicate) (limit : Z) : res PostgresGraphError (list Z) :=
  let effective_limit := Z.min limit (search_limit (en_config e)) in
  if decide (effective_limit = 0) then Err (PgQuery LimitZero) else
  search_loop e p effective_limit (seqZ 0 (forward_node_count (en_topology e))) [].

(** ** Status *)

Record EngineStatus := {
  st_node_count : Z;
  st_edge_count : Z;
  st_read_only : bool;
  st_overlay_edge_count : Z;
  st_tombstoned_edges : Z
}.

Definition stats (e : Engine) : EngineStatus := {|
  st_node_count := pm_node_count (en_metadata e);
  st_edge_count := pm_edge_count (en_metadata e);
  st_read_only := is_read_only (en_metadata e);
  st_overlay_edge_count := overlay_edge_count (en_overlay e);
  st_tombstoned_edges := tombstoned_edge_count (en_overlay e)
|}.

Record SyncHealth := { sh_overlay_edges : Z; sh_tombstoned_edges : Z; sh_tombstoned_nodes : Z }.

Definition sync_health (e : Engine) : SyncHealth := {|
  sh_overlay_edges := st_overlay_edge_count (stats e);
  sh_tombstoned_edges := st_tombstoned_edges (stats e);
  sh_tombstoned_nodes := tombstoned_node_count (en_overlay e)
|}.

End engine.
