(* ===== verification/PgEngineFacts.v ===== *)
(** * PgEngineFacts: what the engine answers

    Every engine that a builder, a rebuild, sync rows and queries can leave keeps
    the engine invariant; a traversal of such an engine lists the nodes within
    the depth bound in breadth first order over the live edges, up to its limit,
    and counting visits as many; a search lists the visible matching nodes. *)

From Stdlib Require Import String.
From stdpp Require Import base gmap sets list strings.
From S2P Require Import Prelude Bytes Ordered Layout Snapshot SnapshotFacts SnapshotTyped Topology BfsSpec Bfs BfsFacts BfsBounded Csr CsrFacts CsrFreeze.
From S2P Require Import PgCatalog PgOverlay PgOverlayFacts PgBuild PgTopology PgTopologyFacts PgEngine.

Local Open Scope Z_scope.

(** ** The bounded search keeps the size of its scratch *)

Section lengths.
Context {G Id V : Type} `{!EqDecision Id} `{!DenseElementIndex G Id} `{!ContainsElement G Id}.
Context `{!ElementSuccessors G Id} `{!ElementPredecessors G Id} `{!BfsVisitor V Id}.
Implicit Types r : BoundedRun V Id.

Definition same_size r r' : Prop := length (br_marks r') = length (br_marks r) ∧ length (br_queue r') = length (br_queue r).

Lemma same_size_trans r1 r2 r3 : same_size r1 r2 → same_size r2 r3 → same_size r1 r3.
Proof. unfold same_size. intuition congruence. Qed.

Lemma emit_size r x d : same_size r (emit r x d).2.
Proof. unfold emit. destruct (visit_element _ _ _) as [[] v]; done. Qed.

Lemma queued_size r i x marks queue tail :
  vset (E:=BfsError) (br_marks r) i (br_epoch r) = Ok marks → vset (E:=BfsError) (br_queue r) tail x = Ok queue →
  same_size r (with_queued r marks queue (S (br_tail r))).
Proof.
  unfold vset. intros Hm Hq. repeat case_decide; try done. injection Hm as <-. injection Hq as <-.
  split; cbn [br_marks br_queue with_queued]; by rewrite length_insert.
Qed.

Lemma discover_size r x i d stop r' : discover r x i d = Ok (stop, r') → same_size r r'.
Proof.
  unfold discover. case_decide; [done|]. intros (m & _ & Hk)%bind_Ok_inv. case_decide; [by injection Hk as <- <-|].
  apply bind_Ok_inv in Hk as (marks & Hm & Hk). apply bind_Ok_inv in Hk as (queue & Hq & Hk).
  pose proof (queued_size r i x marks queue _ Hm Hq) as Hs. injection Hk as Hk. eapply same_size_trans; [exact Hs|].
  match type of Hk with ?e = _ => replace r' with e.2 by (by rewrite Hk) end. apply emit_size.
Qed.

Lemma discover_all_size g l r d stop r' : discover_all g r l d = Ok (stop, r') → same_size r r'.
Proof.
  revert r. induction l as [|x l IH]; intros r; cbn [discover_all]; [by intros [= <- <-]|].
  intros (next & _ & Hk)%bind_Ok_inv. apply bind_Ok_inv in Hk as ([b r1] & Hd%discover_size & Hk).
  eapply same_size_trans; [exact Hd|]. destruct b; [by injection Hk as <- <-|by apply IH].
Qed.

Lemma expansion_size g loops r x d stop r' : expansion_loops g loops r x d = Ok (stop, r') → same_size r r'.
Proof.
  unfold expansion_loops. revert stop r'. induction loops as [|f loops IH] using rev_ind; intros stop r'.
  { by intros [= <- <-]. }
  rewrite foldl_app. cbn [foldl]. intros ([b r1] & H1 & Hk)%bind_Ok_inv. eapply same_size_trans; [by eapply IH|].
  destruct b; [by injection Hk as <- <-|by eapply discover_all_size].
Qed.

Lemma pop_run_size r o r' : pop_run r = Ok (o, r') → same_size r r'.
Proof.
  unfold pop_run. case_decide; [by intros [= <- <-]|]. cbv zeta. intros (x & _ & Hk)%bind_Ok_inv. injection Hk as <- <-.
  by destruct (decide (br_head r = wave_end r)).
Qed.

Lemma drive_size fuel g b loops r r' : drive fuel g b loops r = Ok r' → same_size r r'.
Proof.
  revert r. induction fuel as [|fuel IH]; intros r; [done|]. cbn [drive].
  intros ([o r1] & Hp%pop_run_size & Hk)%bind_Ok_inv. eapply same_size_trans; [exact Hp|].
  destruct o as [[x d]|]; [|by injection Hk as <-]. destruct (negb _); [by apply IH|].
  apply bind_Ok_inv in Hk as ([s r2] & He%expansion_size & Hk). eapply same_size_trans; [exact He|].
  destruct s; [by injection Hk as <-|by apply IH].
Qed.

Lemma seed_run_size g seeds r stop r' : seed_run g r seeds = Ok (stop, r') → same_size r r'.
Proof.
  revert r. induction seeds as [|x seeds IH]; intros r; cbn [seed_run]; [by intros [= <- <-]|].
  destruct (negb _); [done|]. cbv zeta. case_decide; [done|]. intros (m & _ & Hk)%bind_Ok_inv. case_decide; [by apply IH|].
  apply bind_Ok_inv in Hk as (marks & Hm & Hk). apply bind_Ok_inv in Hk as (queue & Hq & Hk).
  eapply same_size_trans; [by eapply queued_size|].
  destruct (include_seeds _); [|by apply IH]. destruct (emit _ x 0) as [b r1] eqn:He.
  eapply same_size_trans; [apply (emit_size _ x 0)|]. rewrite He. destruct b; [by injection Hk as <- <-|by apply IH].
Qed.

Lemma bounded_search_size fuel g loops seeds b scratch v r :
  bounded_search fuel g loops seeds b scratch v = Ok r →
  length (br_marks r) = length (es_marks scratch) ∧ length (br_queue r) = length (es_queue scratch).
Proof.
  unfold bounded_search, start_run. case_decide; [done|]. case_decide; [done|].
  unfold bounded_parts. destruct (advance (es_epoch scratch) (es_marks scratch)) as [[e c] marks] eqn:Ha.
  assert (length marks = length (es_marks scratch)) as Hl.
  { unfold advance in Ha. case_decide; injection Ha as _ _ <-; [apply length_replicate|done]. }
  intros ([stop r1] & H1 & Hk)%bind_Ok_inv. apply bind_Ok_inv in H1 as ([stop' r0] & Hs%seed_run_size & H1).
  injection H1 as <- <-. destruct Hs as [Hm Hq]. cbn [br_marks br_queue es_marks es_queue] in Hm, Hq.
  rewrite <-Hl. destruct stop'; [injection Hk as <-; done|]. apply drive_size in Hk as [Hm' Hq'].
  cbn [br_marks br_queue with_wave] in Hm', Hq'. by rewrite Hm', Hq'.
Qed.

End lengths.

(** ** Walks over the same neighbors *)

Section walks.
Context {Id : Type} (f g : Id → list Id) (P : Id → Prop).
Hypothesis Hsame : ∀ a b, P a → b ∈ f a ↔ b ∈ g a.
Hypothesis Hclosed : ∀ a b, P a → b ∈ f a → P b.

Lemma walk_same x n y : P x → walk f x n y ↔ walk g x n y.
Proof using All.
  intros Hx. assert (∀ m z, walk g x m z → walk f x m z ∧ P z) as Hback.
  { induction 1 as [|m z z' _ [Hw Hz] Hz']; [split; [constructor|done]|]. apply Hsame in Hz'; [|done].
    split; [by eapply walk_snoc|by eapply Hclosed]. }
  split; [|intros Hw; by apply Hback]. induction 1 as [|m z z' Hw IH Hz']; [constructor|].
  eapply walk_snoc; [exact IH|]. apply Hsame; [by eapply walk_preserves|done].
Qed.

Lemma distance_same seeds y d : Forall P seeds → distance f seeds y d ↔ distance g seeds y d.
Proof using All.
  intros Hs. rewrite Forall_forall in Hs. unfold distance. split; intros [(s & Hin & Hw) Hmin]; (split;
    [exists s; split; [done|]; by apply walk_same; [apply Hs|]|]); intros s' m Hin' Hw'; apply (Hmin s' m Hin');
    by apply walk_same; [apply Hs|].
Qed.
End walks.

(** ** What the outcome visitor sees *)

Lemma feed_observe limit l v c :
  0 ≤ c < limit →
  (feed limit l v c).1.2 = {|
    ov_nodes := if ov_collect v then ov_nodes v ++ take (Z.to_nat (limit - c)) l.*1 else ov_nodes v;
    ov_count := ov_count v + Z.min (limit - c) (zlen l);
    ov_collect := ov_collect v |}.
Proof.
  revert v c. induction l as [|[x d] l IH]; intros v c Hc; cbn [feed].
  { cbn [fst snd fmap list_fmap]. rewrite take_nil, app_nil_r. replace (Z.min _ _) with 0 by (unfold zlen; cbn; lia).
    rewrite Z.add_0_r. by destruct v as [? ? []]. }
  unfold visit_element, observe. cbn [fmap list_fmap fst]. unfold zlen in *. cbn [length].
  replace (Z.to_nat (limit - c)) with (S (Z.to_nat (limit - (c + 1)))) by lia. cbn [take].
  case_bool_decide as Hl.
  - cbn [fst snd ov_nodes ov_count ov_collect]. replace (Z.to_nat (limit - (c + 1))) with 0%nat by lia. rewrite take_0.
    f_equal. lia.
  - rewrite IH by lia. cbn [ov_nodes ov_count ov_collect]. f_equal; [|lia].
    destruct (ov_collect v); [|done]. by rewrite <-app_assoc.
Qed.

(** ** The engine invariant *)

Section engine.
Context `{!Target}.

Record EngineOk (e : Engine) (n : Z) : Prop := {
  eo_count : engine_node_count e = n;
  eo_nonneg : 0 ≤ n;
  eo_topology : TopologyOk (en_topology e) n;
  eo_overlay : OverlayOk (en_overlay e);
  eo_config : 1 ≤ traverse_limit (en_config e) ∧ 1 ≤ search_limit (en_config e);
  eo_scratch : length (ts_marks (en_scratch e)) = Z.to_nat n ∧ length (ts_queue (en_scratch e)) = Z.to_nat n;
  eo_unique : en_unique_built e = true → Ok (E:=Empty_set) (en_unique e) = from_topology (en_topology e)
}.

(** ** Traversals over live edges *)

Definition merges (c : Config) : bool := bool_decide (query_freshness c = OverlayAware).

(** One hop from [x] to [y]: along a live edge, or against one. *)
Definition one_hop (t : GraphTopology) (o : OverlayState) (c : Config) (d : TraversalDirection) (x y : Z) : Prop :=
  match d with DirOut => y ∈ live_targets t o (merges c) x | DirIn => y ∈ live_sources t o (merges c) x end.
#[export] Instance one_hop_dec t o c d x y : Decision (one_hop t o c d x y).
Proof. unfold one_hop; destruct d; apply _. Defined.

Definition hops (t : GraphTopology) (n : Z) (o : OverlayState) (c : Config) (d : TraversalDirection) (x : Z) : list Z :=
  filter (λ y, alive n o y ∧ one_hop t o c d x y) (seqZ 0 n).

(** [order] lists the nodes within the depth bound once each, nearest first. *)
Definition search_order (hop : Z → list Z) (seeds : list Z) (max_depth : option Z) (order : list (Z * nat)) : Prop :=
  NoDup order.*1 ∧
  (∀ x k, (x, k) ∈ order ↔ distance hop seeds x k ∧ match max_depth with Some m => Z.of_nat k ≤ m | None => True end) ∧
  ∀ i j x y k k', (i < j)%nat → order !! i = Some (x, k) → order !! j = Some (y, k') → (k ≤ k')%nat.

(** A query leaves everything but scratch and the unique rows in place. *)
Definition same_engine (e e' : Engine) : Prop :=
  en_backing e' = en_backing e ∧ en_metadata e' = en_metadata e ∧ en_topology e' = en_topology e ∧
  en_overlay e' = en_overlay e ∧ en_config e' = en_config e.

Lemma same_engine_refl e : same_engine e e.
Proof. by split_and!. Qed.

Lemma workspace_Ok {E} e n needs :
  EngineOk e n → ∃ e', traverse_workspace (E:=E) e needs = Ok e' ∧ EngineOk e' n ∧ same_engine e e' ∧
    en_scratch e' = en_scratch e ∧ (needs = true → en_unique_built e' = true).
Proof.
  intros He. unfold traverse_workspace. destruct needs, (en_unique_built e) eqn:Hb; cbn [andb negb];
    try (exists e; split; [done|]; split; [done|]; by split).
  pose proof (from_topology_Ok (E:=E) _ _ (eo_topology _ _ He) (eo_nonneg _ _ He)) as Hu.
  pose proof (from_topology_Ok (E:=Empty_set) _ _ (eo_topology _ _ He) (eo_nonneg _ _ He)) as Hu'.
  rewrite Hu. cbn [mbind res_bind]. eexists. split; [done|]. destruct He. split; [constructor; done|]. by split_and!.
Qed.

Lemma live_targets_profile t o c d x :
  let merge := pf_merge_overlay (resolve_profile d (query_freshness c) o) in
  live_targets t o merge x = live_targets t o (merges c) x ∧ live_sources t o merge x = live_sources t o (merges c) x.
Proof.
  unfold live_targets, live_sources, merges. cbn [pf_merge_overlay resolve_profile]. destruct (bool_decide_reflect (query_freshness c = OverlayAware)); [|done].
  cbn [andb]. case_bool_decide as Hc; [done|]. unfold overlay_edge_count, zlen in Hc.
  destruct (added_edges o); [by split|]. cbn in Hc. lia.
Qed.

Section query.
Context (e : Engine) (n : Z) (He : EngineOk e n).
Context (d : TraversalDirection).
Let o := en_overlay e.
Let hop := hops (en_topology e) n o (en_config e) d.

(** A session's view of the engine, once its unique rows are there. *)
Lemma session_view_ok s e' :
  EngineOk e' n → same_engine e e' → (pf_use_unique (se_profile s) = true → en_unique_built e' = true) →
  se_node_count s = n → se_profile s = resolve_profile d (query_freshness (en_config e)) o →
  se_check_nodes s = has_node_tombstones o → ViewOk (session_view e' s) n.
Proof using He.
  intros He' (_ & _ & Ht & Ho & Hc) Hu Hn Hp Hck. constructor; cbn [ov_topology ov_overlay ov_unique ov_flags ov_node_count use_unique check_nodes session_view].
  - apply He'.
  - done.
  - apply He'.
  - intros Huse. specialize (Hu Huse). split; [|by apply He'].
    rewrite Hp in Huse. cbn [pf_use_unique resolve_profile] in Huse. apply andb_true_iff in Huse as [_ Hno].
    apply negb_true_iff in Hno. by rewrite Ho.
  - by rewrite Ho.
Qed.

Lemma view_hops s e' x :
  ViewOk (session_view e' s) n → same_engine e e' → se_profile s = resolve_profile d (query_freshness (en_config e)) o →
  alive n o x → ∀ y,
    y ∈ successors_of [match d with DirOut => element_successors (session_view e' s) | DirIn => element_predecessors (session_view e' s) end] x ↔ y ∈ hop x.
Proof using He.
  intros Hv (_ & _ & Ht & Ho & _) Hp Hx y.
  pose proof (λ a, live_targets_profile (en_topology e) o (en_config e) d a) as Hmerge. cbv zeta in Hmerge. rewrite <-Hp in Hmerge.
  unfold successors_of. cbn [mbind list_bind]. rewrite app_nil_r.
  unfold hop, hops. rewrite list_elem_of_filter, elem_of_seqZ.
  assert (alive n (ov_overlay (session_view e' s)) x) as Hx' by (cbn [ov_overlay session_view]; by rewrite Ho).
  destruct (Hmerge x) as [Hout Hin]. destruct d.
  - destruct (out_neighbors_Ok _ n Hv x Hx') as (l & Hl & Hmem).
    unfold element_successors, overlay_view_successors. rewrite Hl. cbn [ok_or_else]. rewrite Hmem.
    cbn [ov_overlay ov_topology ov_flags merge_overlay session_view]. rewrite Ho, Ht. fold o. rewrite Hout.
    unfold one_hop, alive. intuition lia.
  - destruct (in_neighbors_Ok _ n Hv x Hx') as (l & Hl & Hmem).
    unfold element_predecessors, overlay_view_predecessors. rewrite Hl. cbn [ok_or_else]. rewrite Hmem.
    cbn [ov_overlay ov_topology ov_flags merge_overlay session_view]. rewrite Ho, Ht. fold o. rewrite Hin.
    unfold one_hop, alive. intuition lia.
Qed.

Lemma empty_search_order (f : Z → list Z) depth : search_order f [] depth [].
Proof using Type.
  split_and!; [constructor| |by intros []]. intros x k. split; [by intros ?%not_elem_of_nil|].
  intros [[(s & Hs & _) _] _]. by apply not_elem_of_nil in Hs.
Qed.

Lemma kernel_exact s e' seeds visitor :
  ViewOk (session_view e' s) n → EngineOk e' n → same_engine e e' → se_profile s = resolve_profile d (query_freshness (en_config e)) o →
  Forall (alive n o) seeds → 1 ≤ se_result_limit s → (∀ m, se_max_depth s = Some m → 0 ≤ m) → ov_count visitor = 0 → ov_nodes visitor = [] →
  let b := {| max_depth := se_max_depth s; result_limit := se_result_limit s; include_seeds := true |} in
  ∃ order r, kernel_search (session_view e' s) d seeds b (en_scratch e') visitor = Ok r ∧
    search_order hop seeds (se_max_depth s) order ∧
    length (br_marks r) = Z.to_nat n ∧ length (br_queue r) = Z.to_nat n ∧
    br_visitor r = {| ov_nodes := if ov_collect visitor then take (Z.to_nat (se_result_limit s)) order.*1 else [];
      ov_count := Z.min (se_result_limit s) (zlen order); ov_collect := ov_collect visitor |}.
Proof using He.
  intros Hv He' Hsame Hp Hseeds Hlim Hdep Hc0 Hn0 b. set (v := session_view e' s).
  pose proof (view_laws v n Hv (eo_nonneg _ _ He)) as Hlaws.
  set (f := match d with DirOut => element_successors v | DirIn => element_predecessors v end).
  assert (kernel_search v d seeds b (en_scratch e') visitor =
    bounded_search (element_bound v + 2) v [f] seeds b (BfsEpochScratch_new (ts_marks (en_scratch e')) (ts_queue (en_scratch e'))) visitor)
    as Hk by (unfold kernel_search, f; by destruct d).
  assert (element_bound v = Z.to_nat n) as Hb by (change (Z.to_nat (ov_node_count v) = Z.to_nat n); f_equal; apply (vo_count _ _ Hv)).
  destruct (eo_scratch _ _ He') as [Hm Hq].
  assert (Forall (visible v) seeds) as Hsv.
  { eapply Forall_impl; [exact Hseeds|]. intros x Hx. apply (view_contains v n Hv). cbn [ov_overlay session_view v]. destruct Hsame as (_ & _ & _ & Hov & _). rewrite Hov. exact Hx. }
  assert (∀ g, g ∈ [f] → g = element_successors v ∨ g = element_predecessors v) as Hf.
  { intros g ->%list_elem_of_singleton. unfold f. destruct d; tauto. }
  destruct (bounded_search_outcome v b visitor [f] seeds) with (fuel := (element_bound v + 2)%nat)
    (scratch := BfsEpochScratch_new (ts_marks (en_scratch e')) (ts_queue (en_scratch e'))) as (stop & r & Hr & Hfed).
  - intros x y. apply (successors_of_visible v [f] x y Hf).
  - done.
  - rewrite Hb, Z2Nat.id by apply He. apply (to_fits _ _ (eo_topology _ _ He)).
  - constructor; [cbn; unfold u32_max; lia|]. apply Forall_replicate. cbn. lia.
  - cbn [es_marks BfsEpochScratch_new]. rewrite length_replicate. lia.
  - cbn [es_queue BfsEpochScratch_new]. lia.
  - lia.
  - exists (bounded_order v b [f] seeds), r. rewrite Hk. split; [done|].
    destruct (bounded_order_exact v b [f] seeds Hf Hsv Hdep) as (Hnd & Hmem & Hmono). split; [|split_and!].
    + split; [done|]. split; [|exact Hmono]. intros x k. rewrite Hmem. cbn [max_depth b].
      rewrite (distance_same _ hop (alive n o)); [done| | |done].
      * intros y z Hy. by apply view_hops.
      * intros y z Hy Hz. apply (view_hops s e' y Hv Hsame Hp Hy) in Hz. unfold hop, hops in Hz.
        apply list_elem_of_filter in Hz. tauto.
    + apply bounded_search_size in Hr as [-> _]. cbn [es_marks BfsEpochScratch_new]. by rewrite length_replicate.
    + apply bounded_search_size in Hr as [_ ->]. done.
    + unfold fed, emissions in Hfed. cbn [include_seeds result_limit b] in Hfed.
      pose proof (feed_observe (se_result_limit s) (bounded_order v b [f] seeds) visitor 0 ltac:(lia)) as Ho.
      rewrite Hfed in Ho. cbn [fst snd] in Ho. rewrite Ho, Hn0, Hc0, Z.sub_0_r. done.
Qed.

Lemma seed_visible_alive seed : 0 ≤ seed < n → seed_visible e d seed = true ↔ alive n o seed.
Proof using He.
  intros Hs. pose proof (eo_topology _ _ He) as Ht. unfold seed_visible, node_visible.
  assert (∀ c, c = n → view_node_visible c o seed = true ↔ alive n o seed) as Hview.
  { intros c ->. unfold view_node_visible, alive, has_node_tombstones, overlay_node_visible.
    rewrite andb_true_iff, orb_true_iff, negb_true_iff, bool_decide_eq_false, !bool_decide_eq_true.
    destruct (decide (tombstoned_nodes o = ∅)) as [Hno|Hno]; [rewrite Hno; set_solver|tauto]. }
  destruct d; apply Hview; [apply (to_nodes _ _ Ht)|apply (to_inbound_nodes _ _ Ht)].
Qed.

Definition alive_seeds (seeds : list Z) : list Z := filter (alive n o) seeds.

Lemma open_session_Ok seeds l m :
  Forall (λ x, 0 ≤ x) seeds →
  open_session e seeds l d m =
    match head (filter (λ seed, n ≤ seed) seeds) with
    | Some seed => Err (PgQuery (SeedOutOfBounds seed n))
    | None => Ok {| se_node_count := n; se_profile := resolve_profile d (query_freshness (en_config e)) o; se_mode := m;
        se_result_limit := tl_result_limit l; se_max_depth := tl_max_depth l; se_seeds := alive_seeds seeds;
        se_check_nodes := has_node_tombstones o |}
    end.
Proof using He.
  intros Hnn. unfold open_session. rewrite (eo_count _ _ He). destruct seeds as [|seed0 seeds0]; [done|].
  set (seeds := seed0 :: seeds0) in *. destruct (head (filter (λ seed, n ≤ seed) seeds)) as [seed|] eqn:Hh; [done|].
  repeat f_equal. unfold alive_seeds. apply filter_same. intros x Hx. apply seed_visible_alive.
  rewrite Forall_forall in Hnn. split; [by apply Hnn|]. apply Z.nle_gt. intros Hle.
  assert (x ∈ filter (λ seed, n ≤ seed) seeds) as Hin by (apply list_elem_of_filter; done).
  destruct (filter _ _); [by apply not_elem_of_nil in Hin|done].
Qed.

Lemma traverse_core_exact seeds l m :
  Forall (λ x, 0 ≤ x) seeds → 1 ≤ tl_result_limit l → (∀ k, tl_max_depth l = Some k → 0 ≤ k) →
  ∃ e' r, traverse_core e seeds l d m = (e', r) ∧ EngineOk e' n ∧ same_engine e e' ∧
    match head (filter (λ seed, n ≤ seed) seeds) with
    | Some seed => r = Err (PgQuery (SeedOutOfBounds seed n))
    | None => ∃ order, search_order hop (alive_seeds seeds) (tl_max_depth l) order ∧
        r = Ok (match m with
          | Collect => Nodes (take (Z.to_nat (tl_result_limit l)) order.*1)
          | Count => Counted (Z.min (tl_result_limit l) (zlen order)) end)
    end.
Proof using He.
  intros Hnn Hlim Hdep. unfold traverse_core. rewrite open_session_Ok by done.
  destruct (head (filter (λ seed, n ≤ seed) seeds)) as [seed|]; [by exists e; eexists; split_and!|].
  unfold run_bfs_multi. cbn [se_seeds se_profile se_mode pf_use_unique pf_direction se_max_depth se_result_limit].
  destruct (alive_seeds seeds) as [|x xs] eqn:Hseeds.
  { exists e. eexists. split; [done|]. split; [done|]. split; [apply same_engine_refl|]. exists [].
    split; [apply empty_search_order|]. destruct m; [cbn [fmap list_fmap]; by rewrite take_nil|]. do 2 f_equal. unfold zlen. cbn. lia. }
  rewrite <-Hseeds.
  match goal with |- context [session_view _ ?s] => set (s0 := s) end.
  destruct (workspace_Ok (E:=PostgresGraphError) e n (pf_use_unique (se_profile s0)) He) as (e1 & Hw & He1 & Hs1 & Hsc & Hub).
  change (pf_use_unique (resolve_profile d (query_freshness (en_config e)) o)) with (pf_use_unique (se_profile s0)). rewrite Hw.
  assert (ViewOk (session_view e1 s0) n) as Hv by by apply session_view_ok.
  destruct (kernel_exact s0 e1 (alive_seeds seeds) {| ov_nodes := []; ov_count := 0; ov_collect := bool_decide (m = Collect) |})
    as (order & r & Hk & Hord & Hm & Hq & Hvis); try done.
  { apply Forall_forall. intros y Hy. unfold alive_seeds in Hy. by apply list_elem_of_filter in Hy as [? _]. }
  change (se_max_depth s0) with (tl_max_depth l) in *. change (se_result_limit s0) with (tl_result_limit l) in *.
  change (pf_direction (resolve_profile d (query_freshness (en_config e)) o)) with d. rewrite Hk.
  eexists _, _. split; [done|]. split; [|split].
  - destruct He1. constructor; try done.
  - exact Hs1.
  - exists order. split; [done|]. rewrite Hvis. destruct m; done.
Qed.

End query.


(** ** Opening *)

Lemma read_metadata_returns s : SnapshotOk s → returns (read_metadata s).
Proof.
  intros Hs. unfold read_metadata. destruct (section_cases (E:=PostgresGraphError) s SNAPSHOT_KIND_PG_METADATA Hs)
    as [(e & _ & _ & ->)|[_ ->]]; cbn [mbind res_bind ok_or]; [|done]. by case_decide.
Qed.

Lemma open_topology_ok s m :
  SnapshotOk s → zlen (sn_bytes s) ≤ usize_max → read_metadata s = Ok m →
  returns (open_topology s) ∧ ∀ t, open_topology s = Ok t → TopologyOk t (pm_node_count m).
Proof.
  intros Hs Hus Hm. unfold open_topology. rewrite Hm. cbn [mbind res_bind].
  destruct (negb (has_reverse_index m)); [done|]. unfold from_snapshot, csc_from_snapshot_with_kinds.
  destruct (bind_view_safe S32 S32 s (OFFSETS_KIND S32) (TARGETS_KIND S32) SNAPSHOT_CSR_SECTION_VERSION Hs Hus) as [Hr1 Hg1].
  destruct (from_snapshot_with_kinds S32 S32 s (OFFSETS_KIND S32) _ _) as [fwd| | |] eqn:Hf; try done.
  cbn [map_err mbind res_bind].
  destruct (bind_view_safe S32 S32 s SNAPSHOT_KIND_PG_INBOUND_OFFSETS_U32 SNAPSHOT_KIND_PG_INBOUND_TARGETS_U32
    INBOUND_SECTION_VERSION Hs Hus) as [Hr2 Hg2].
  destruct (from_snapshot_with_kinds S32 S32 s SNAPSHOT_KIND_PG_INBOUND_OFFSETS_U32 _ _) as [inb| | |] eqn:Hi; try done.
  cbn [map_err mbind res_bind]. do 4 (case_decide; [done|]). split; [done|]. intros t [= <-].
  destruct (Hg1 fwd eq_refl) as (Hok1 & _), (Hg2 inb eq_refl) as (Hok2 & _).
  repeat match goal with Hn : ¬ (_ ≠ _) |- _ => apply dec_stable in Hn end.
  match goal with Hn : try_into _ (node_bound fwd) = _, Hz : try_into _ (zlen _) = _ |- _ =>
    apply try_into_Some in Hn as [? ?]; apply try_into_Some in Hz as [? ?] end.
  constructor; cbn [forward inbound]; done || lia.
Qed.

Definition ConfigOk (c : Config) : Prop := 0 ≤ traverse_limit c ∧ 0 ≤ search_limit c.

Lemma build_engine_ok bytes o c addr :
  zlen bytes ≤ usize_max → OverlayOk o → ConfigOk c →
  returns (build_engine (Some bytes) o c addr) ∧
  ∀ e, build_engine (Some bytes) o c addr = Ok e → EngineOk e (engine_node_count e) ∧ en_overlay e = o ∧ en_config e = c.
Proof.
  intros Hus Ho Hc. unfold build_engine. cbn [ok_or mbind res_bind].
  destruct (validate_config c) as [[]| | |] eqn:Hv; try (unfold validate_config in Hv; repeat case_decide; done).
  cbn [mbind res_bind]. pose proof (returns_open bytes addr) as Hr.
  destruct (open bytes addr) as [s| | |] eqn:Hopen; try done. cbn [map_err mbind res_bind].
  pose proof (open_SnapshotOk _ _ _ Hus Hopen) as Hs.
  assert (zlen (sn_bytes s) ≤ usize_max) as Hsn by by apply open_exact_lemma in Hopen as [_ ->].
  pose proof (read_metadata_returns s Hs) as Hrm. destruct (read_metadata s) as [m| | |] eqn:Hm; try done.
  cbn [mbind res_bind]. destruct (open_topology_ok s m Hs Hsn Hm) as [Hrt Ht].
  destruct (open_topology s) as [t| | |]; try done. split; [done|]. intros e [= <-]. split; [|done].
  specialize (Ht t eq_refl). cbn [engine_node_count en_metadata].
  pose proof (csr_bound _ (to_forward _ _ Ht)) as [_ Hb]. rewrite (to_nodes _ _ Ht) in Hb.
  constructor; cbn [en_metadata engine_node_count en_topology en_overlay en_config en_scratch en_unique en_unique_built]; try done.
  - destruct Hc. unfold validate_config in Hv. repeat case_decide; try done. lia.
  - unfold resize_for_nodes. cbn [ts_marks ts_queue]. by rewrite !length_resize.
Qed.

(** ** The operations keep the invariant *)

(** The ids of an action are [u32] values. *)
Definition ActionOk (a : SyncAction) : Prop :=
  match a with InsertEdge source target => 0 ≤ source ∧ 0 ≤ target | _ => True end.

Lemma apply_to_ok a o : OverlayOk o → ActionOk a → OverlayOk (apply_to a o).
Proof.
  intros [Hi Hf] Ha. split; [by apply apply_to_indexed|]. destruct a; cbn [apply_to]; try done.
  - unfold push_edge. cbn [added_edges]. apply Forall_app. split; [done|]. by constructor.
  - unfold remove_edge, rebuild_indexes. cbn [added_edges]. apply Forall_forall. intros e [_ He]%list_elem_of_filter.
    rewrite Forall_forall in Hf. by apply Hf.
Qed.

Lemma apply_rows_ok rows : ∀ o last applied,
  OverlayOk o → Forall (λ r, ActionOk (sr_action r)) rows → OverlayOk (apply_rows rows o last applied).1.
Proof.
  induction rows as [|r rows IH]; intros o last applied Ho Hr; cbn [apply_rows]; [done|].
  apply Forall_cons in Hr as [Ha Hr]. pose proof (apply_to_ok _ o Ho Ha).
  destruct last; [case_decide; [done|]|]; by apply IH.
Qed.

(** The engines a session can hold: built from any bytes that open, then any
    operations, failed ones included. *)
Inductive engine_reach : Engine → Prop :=
  | reach_build bytes o c addr e :
      zlen bytes ≤ usize_max → OverlayOk o → ConfigOk c → build_engine (Some bytes) o c addr = Ok e → engine_reach e
  | reach_config e c : engine_reach e → ConfigOk c → engine_reach (set_config e c).1
  | reach_replace e bytes addr :
      engine_reach e → zlen bytes ≤ usize_max → engine_reach (replace_snapshot_bytes e bytes addr).1
  | reach_rebuild e catalog rows at_ forward_addr inbound_addr addr :
      engine_reach e →
      (∀ bytes, from_catalog_and_edges catalog rows at_ forward_addr inbound_addr = Ok bytes → zlen bytes ≤ usize_max) →
      engine_reach (rebuild_from_catalog e catalog rows at_ forward_addr inbound_addr addr).1
  | reach_sync e rows :
      engine_reach e → Forall (λ r, ActionOk (sr_action r)) rows → engine_reach (apply_sync_rows e rows).1
  | reach_traverse e seeds l d m :
      engine_reach e → Forall (λ x, 0 ≤ x) seeds → 1 ≤ tl_result_limit l → (∀ k, tl_max_depth l = Some k → 0 ≤ k) →
      engine_reach (traverse_core e seeds l d m).1.

Lemma clear_ok o : OverlayOk (clear_overlay o).
Proof. split; [apply default_indexed|constructor]. Qed.

Lemma config_ok e n : EngineOk e n → ConfigOk (en_config e).
Proof. intros He. destruct (eo_config _ _ He). unfold ConfigOk. lia. Qed.

Lemma replace_ok e n bytes addr :
  EngineOk e n → zlen bytes ≤ usize_max → ∃ n', EngineOk (replace_snapshot_bytes e bytes addr).1 n'.
Proof.
  intros He Hb. unfold replace_snapshot_bytes.
  assert (OverlayOk default_overlay) as Hdef by apply (clear_ok default_overlay).
  destruct (build_engine_ok bytes default_overlay (en_config e) addr Hb Hdef (config_ok _ _ He)) as [_ Hbuilt].
  destruct (build_engine _ _ _ _) as [fresh| | |]; [|by exists n..]. destruct (Hbuilt fresh eq_refl) as (Hf & _ & _).
  exists (engine_node_count fresh). destruct Hf as [H1 H2 H3 H4 H5 H6 H7]. constructor; cbn [fst]; try done.
  - by apply He.
  - unfold reset_after_snapshot, resize_for_nodes. cbn [en_scratch ts_marks ts_queue]. by rewrite !length_resize.
Qed.

Lemma engine_reach_ok e : engine_reach e → ∃ n, EngineOk e n.
Proof.
  induction 1 as [bytes o c addr e Hb Ho Hc He|e c _ [n He] Hc|e bytes addr _ [n He] Hb|e cat rows at_ fa ia addr _ [n He] Hb|
    e rows _ [n He] Hr|e seeds l d m _ [n He] Hs Hl Hd].
  - destruct (build_engine_ok bytes o c addr Hb Ho Hc) as [_ Hbuilt]. exists (engine_node_count e). by apply Hbuilt.
  - exists n. unfold set_config, validate_config. destruct Hc. do 2 (case_decide; [done|]). destruct He. constructor; try done.
    cbn [fst en_config with_config]. lia.
  - by eapply replace_ok.
  - unfold rebuild_from_catalog. destruct (negb _); [by exists n|].
    destruct (from_catalog_and_edges _ _ _ _ _) as [bytes| | |]; [|by exists n..]. eapply replace_ok; [done|by apply Hb].
  - exists n. unfold apply_sync_rows, apply_in_order. pose proof (apply_rows_ok rows (en_overlay e) None 0 (eo_overlay _ _ He) Hr) as Ho.
    destruct (apply_rows rows (en_overlay e) None 0) as [o r]. destruct He. constructor; done.
  - exists n. destruct (traverse_core_exact e n He d seeds l m Hs Hl Hd) as (e' & r & -> & Hok & _). exact Hok.
Qed.

(** ** The theorems *)

Lemma limited_exact {A} e n seeds l d m (expect : KernelOutcome → res PostgresGraphError A) :
  EngineOk e n → Forall (λ x, 0 ≤ x) seeds → 1 ≤ tl_result_limit l → (∀ k, tl_max_depth l = Some k → 0 ≤ k) →
  let cap := Z.min (tl_result_limit l) (traverse_limit (en_config e)) in
  ∃ e' r, limited e seeds l d m expect = (e', o ← r; expect o) ∧ EngineOk e' n ∧ same_engine e e' ∧
    match head (filter (λ seed, n ≤ seed) seeds) with
    | Some seed => r = Err (PgQuery (SeedOutOfBounds seed n))
    | None => ∃ order, search_order (hops (en_topology e) n (en_overlay e) (en_config e) d)
          (alive_seeds e n seeds) (tl_max_depth l) order ∧
        r = Ok (match m with Collect => Nodes (take (Z.to_nat cap) order.*1) | Count => Counted (Z.min cap (zlen order)) end)
    end.
Proof.
  intros He Hs Hl Hd cap. unfold limited, capped_by. destruct (eo_config _ _ He) as [Hc _].
  rewrite decide_False by lia. fold cap.
  destruct (traverse_core_exact e n He d seeds {| tl_result_limit := cap; tl_max_depth := tl_max_depth l |} m Hs) as (e' & r & -> & Hres);
    [cbn; lia|done|]. by exists e', r.
Qed.

(** C37. A traversal of any engine that operations can leave does not change what
    the engine answers from. A seed that is no node is refused, the first such
    seed named. Otherwise the answer is the search order cut at the smaller of
    the two limits: the visible nodes within the depth bound of a visible seed,
    each once, nearest first, over hops along the live edges (base edges without
    tombstone and, when the configuration asks for it, overlay edges; against
    them for the inbound direction); and a count query counts that order. On an
    artifact whose two views are transposes, an inbound hop is an outbound hop
    backwards. *)
Theorem traverse_exact e seeds seed l d :
  engine_reach e → Forall (λ x, 0 ≤ x) (seed :: seeds) → 1 ≤ tl_result_limit l →
  (∀ k, tl_max_depth l = Some k → 0 ≤ k) →
  let n := engine_node_count e in
  let hop := hops (en_topology e) n (en_overlay e) (en_config e) in
  let cap := Z.min (tl_result_limit l) (traverse_limit (en_config e)) in
  let answer {A} (seeds : list Z) (r : Engine * res PostgresGraphError A) (out : list (Z * nat) → A) :=
    engine_reach r.1 ∧ same_engine e r.1 ∧
    match head (filter (λ seed, n ≤ seed) seeds) with
    | Some seed => r.2 = Err (PgQuery (SeedOutOfBounds seed n))
    | None => ∃ order, r.2 = Ok (out order) ∧ search_order (hop d) (alive_seeds e n seeds) (tl_max_depth l) order
    end in
  answer seeds (traverse_from_seeds e seeds l d) (λ order, take (Z.to_nat cap) order.*1) ∧
  answer [seed] (visited_count e seed l d) (λ order, Z.min cap (zlen order)) ∧
  (Transposed (en_topology e) n → ∀ x y, alive n (en_overlay e) x → alive n (en_overlay e) y →
    y ∈ hop DirIn x ↔ x ∈ hop DirOut y).
Proof.
  intros Hreach [Hs0 Hs]%Forall_cons Hl Hd n hop cap answer. destruct (engine_reach_ok e Hreach) as [n' He].
  assert (n' = n) as -> by (symmetry; apply He).
  assert (∀ A seeds m (expect : KernelOutcome → res PostgresGraphError A), Forall (λ x, 0 ≤ x) seeds →
    engine_reach (limited e seeds l d m expect).1) as Hr.
  { intros A sds m expect Hsd. unfold limited, capped_by. destruct (eo_config _ _ He) as [Hc _]. rewrite decide_False by lia.
    pose proof (reach_traverse e sds {| tl_result_limit := Z.min (tl_result_limit l) (traverse_limit (en_config e));
      tl_max_depth := tl_max_depth l |} d m Hreach Hsd ltac:(cbn; lia) Hd) as Hr. by destruct (traverse_core _ _ _ _ _). }
  split; [|split].
  - split; [by apply Hr|]. unfold traverse_from_seeds.
    match goal with |- context [limited e seeds l d Collect ?f] =>
      destruct (limited_exact e n seeds l d Collect f He Hs Hl Hd) as (e' & r & -> & _ & Hsame & Hres) end.
    split; [exact Hsame|]. cbn [snd]. destruct (head _); [by rewrite Hres|]. destruct Hres as (order & Ho & ->). by exists order.
  - assert (Forall (λ x, 0 ≤ x) [seed]) as Hs1 by by constructor. split; [by apply Hr|]. unfold visited_count.
    match goal with |- context [limited e _ l d Count ?f] =>
      destruct (limited_exact e n [seed] l d Count f He Hs1 Hl Hd) as (e' & r & -> & _ & Hsame & Hres) end.
    split; [exact Hsame|]. cbn [snd]. destruct (head _); [by rewrite Hres|]. destruct Hres as (order & Ho & ->). by exists order.
  - intros Htr x y [Hx Hxa] [Hy Hya]. unfold hop, hops. rewrite !list_elem_of_filter, !elem_of_seqZ. unfold one_hop.
    rewrite (live_sources_transposed _ _ (eo_topology _ _ He)) by done. unfold alive. intuition lia.
Qed.

Lemma search_loop_exact e n p limit nodes found :
  EngineOk e n → Forall (λ x, 0 ≤ x < n) nodes → zlen found < limit →
  search_loop e p limit nodes found =
    Ok (take (Z.to_nat limit) (found ++ filter (λ x, alive n (en_overlay e) x ∧ matches p x = true) nodes)).
Proof.
  intros He Hn. revert found. induction Hn as [|x nodes Hx Hn IH]; intros found Hf; cbn [search_loop].
  { rewrite filter_nil, app_nil_r, take_ge by (unfold zlen in Hf; lia). done. }
  pose proof (to_fits _ _ (eo_topology _ _ He)) as Hu. rewrite try_into_fits by lia. cbn [ok_or mbind res_bind].
  pose proof (seed_visible_alive e n He DirOut x Hx) as Hv. unfold seed_visible in Hv. rewrite filter_cons.
  destruct (node_visible (en_topology e) x DirOut (en_overlay e)), (matches p x) eqn:Hm; cbn [negb orb].
  - destruct (decide (alive n (en_overlay e) x ∧ true = true)) as [_|[]]; [|split; [by apply Hv|done]]. case_decide as Hlim.
    + f_equal. rewrite zlen_app in Hlim. change (zlen [x]) with 1 in Hlim. rewrite (cons_middle x found (filter _ _)), app_assoc, take_app_le.
      * rewrite take_ge; [done|]. rewrite length_app. unfold zlen in Hf, Hlim. cbn. lia.
      * rewrite length_app. unfold zlen in Hf, Hlim. cbn. lia.
    + rewrite IH by lia. by rewrite <-app_assoc.
  - rewrite decide_False by (intros [_ ?]; done). by apply IH.
  - rewrite decide_False; [by apply IH|]. intros [Ha _]. by apply Hv in Ha.
  - rewrite decide_False by (intros [_ ?]; done). by apply IH.
Qed.

(** A search lists the nodes that carry no tombstone and match, in id order,
    up to the smaller of the two limits; a limit of zero is refused. *)
Theorem search_exact e p limit :
  engine_reach e → 0 ≤ limit →
  let n := engine_node_count e in
  search e p limit =
    if decide (limit = 0) then Err (PgQuery LimitZero) else
    Ok (take (Z.to_nat (Z.min limit (search_limit (en_config e))))
      (filter (λ x, alive n (en_overlay e) x ∧ matches p x = true) (seqZ 0 n))).
Proof.
  intros Hreach Hl n. destruct (engine_reach_ok e Hreach) as [n' He]. assert (n' = n) as -> by (symmetry; apply He).
  destruct (eo_config _ _ He) as [_ Hc]. unfold search. case_decide as Hz; case_decide as Hz'; try lia; [done|].
  unfold forward_node_count. rewrite (to_nodes _ _ (eo_topology _ _ He)).
  rewrite (search_loop_exact e n); [done|done| |unfold zlen; cbn; lia]. apply Forall_forall. intros x. rewrite elem_of_seqZ. lia.
Qed.

End engine.

(** ** A small engine *)

Section demo.

Definition demo_bytes : list byte := Eval vm_compute in
  match from_dense_u32_edges_with_node_count (H := target64) 4 [(0, 1); (1, 2); (0, 2); (2, 3)] 0 0 0 with Ok b => b | _ => [] end.

Definition demo_sync : list SyncRow :=
  [{| sr_sequence := 1; sr_action := InsertEdge 3 0 |}; {| sr_sequence := 2; sr_action := DeleteEdge 3 |};
   {| sr_sequence := 5; sr_action := DeleteNode 1 |}].

Definition demo_limits : TraverseLimits := {| tl_result_limit := 2; tl_max_depth := None |}.

Definition demo_build : res PostgresGraphError (Engine (H := target64)) :=
  build_engine (Some demo_bytes) default_overlay default_config 64.

Lemma demo_engine_reach e : demo_build = Ok e → engine_reach (apply_sync_rows e demo_sync).1.
Proof.
  intros He. apply reach_sync; [|repeat constructor; vm_compute; discriminate].
  apply (reach_build demo_bytes default_overlay default_config 64); [vm_compute; discriminate|apply (clear_ok default_overlay)| |exact He].
  split; vm_compute; discriminate.
Qed.

Lemma demo_node_count e : demo_build = Ok e →
  engine_node_count (apply_sync_rows e demo_sync).1 = 4 ∧ en_config (apply_sync_rows e demo_sync).1 = default_config.
Proof.
  assert ((e ← demo_build; let e := (apply_sync_rows e demo_sync).1 in Ok (engine_node_count e, en_config e)) =
    Ok (E:=PostgresGraphError) (4, default_config)) as Hn by (vm_compute; reflexivity).
  intros He. rewrite He in Hn. apply Ok_inj in Hn. split; [exact (f_equal fst Hn)|exact (f_equal snd Hn)].
Qed.

Lemma demo_builds : ∃ e, demo_build = Ok e.
Proof.
  assert ((_ ← demo_build; Ok ()) = Ok (E:=PostgresGraphError) ()) as Hd by (vm_compute; reflexivity).
  apply bind_Ok_inv in Hd as (e & He & _). by exists e.
Qed.

(** Against the edges from node 3, whose edge 3 from node 2 is deleted: nothing
    but node 3 itself. *)
Example demo_inbound : (e ← demo_build; (traverse_from_seeds (apply_sync_rows e demo_sync).1 [3] demo_limits DirIn).2) = Ok [3].
Proof. vm_compute. reflexivity. Qed.
Example demo_outbound : (e ← demo_build; (traverse_from_seeds (apply_sync_rows e demo_sync).1 [3] demo_limits DirOut).2) = Ok [3; 0].
Proof. vm_compute. reflexivity. Qed.

Lemma traverse_exact_witness :
  ∃ e, engine_reach (H := target64) e ∧ engine_node_count e = 4 ∧
    ∃ order, (traverse_from_seeds e [3] demo_limits DirOut).2 = Ok (take 2 order.*1) ∧
      search_order (hops (en_topology e) 4 (en_overlay e) (en_config e) DirOut) (alive_seeds e 4 [3]) None order.
Proof.
  destruct demo_builds as [e He]. pose proof (demo_engine_reach e He) as Hr. destruct (demo_node_count e He) as [Hn Hc]. eexists. split; [exact Hr|]. split; [exact Hn|].
  destruct (traverse_exact (H := target64) _ [3] 0 demo_limits DirOut Hr) as [(_ & _ & Hm) _];
    [repeat constructor; vm_compute; discriminate|vm_compute; discriminate|discriminate|].
  rewrite Hn, Hc in Hm. rewrite Hc. change (head (filter (λ seed, 4 ≤ seed) [3])) with (@None Z) in Hm. exact Hm.
Defined.

Lemma search_exact_witness :
  ∃ e, engine_reach (H := target64) e ∧ engine_node_count e = 4 ∧
    search e (NodeIdRange 1 3) 5 =
      Ok (take 5 (filter (λ x, alive 4 (en_overlay e) x ∧ matches (NodeIdRange 1 3) x = true) [0; 1; 2; 3])).
Proof.
  destruct demo_builds as [e He]. pose proof (demo_engine_reach e He) as Hr. destruct (demo_node_count e He) as [Hn Hc]. eexists. split; [exact Hr|]. split; [exact Hn|].
  rewrite (search_exact (H := target64) _ (NodeIdRange 1 3) 5 Hr) by discriminate. rewrite Hn.
  rewrite decide_False by discriminate.
  rewrite Hc. reflexivity.
Defined.

End demo.
