(* ===== verification/PgBuildFacts.v ===== *)
(** * PgBuildFacts: the artifact of a set of edge rows

    Building from rows succeeds whenever the counts fit and the file fits in
    memory; the artifact opens anywhere into an engine with a node per distinct
    key, in key order, a base edge per row and an inbound view that is the
    transpose of the forward view. *)

From stdpp Require Import base gmap sets list.
From S2P Require Import Prelude Bytes Ordered Layout Crc Snapshot SnapshotFacts SnapshotWrite SnapshotWriteFacts SnapshotTyped.
From S2P Require Import Csr CsrFacts CsrBuild CsrBuildFacts CsrFreeze.
From S2P Require Import PgCatalog PgOverlay PgOverlayFacts PgBuild PgTopology PgTopologyFacts PgEngine PgEngineFacts.

Local Open Scope Z_scope.

Section build.
Context `{!Target}.

(** ** Artifacts of two frozen graphs *)

Notation VERSION := SNAPSHOT_CSR_SECTION_VERSION.

Definition artifact_sections (t t' : FrozenTopology) (m : PostgresMetadata) : list PendingSection :=
  [widths_section S32 (OFFSETS_KIND S32) VERSION (ft_offsets t); widths_section S32 (TARGETS_KIND S32) VERSION (ft_targets t);
   widths_section S32 SNAPSHOT_KIND_PG_INBOUND_OFFSETS_U32 VERSION (ft_offsets t');
   widths_section S32 SNAPSHOT_KIND_PG_INBOUND_TARGETS_U32 VERSION (ft_targets t');
   {| p_kind := SNAPSHOT_KIND_PG_METADATA; p_version := METADATA_VERSION; p_alignment_log2 := 0; p_payload := wire_bytes m |}].

(** The bytes of the artifact: header, five table entries, four arrays of
    32-bit words and the metadata. *)
Definition artifact_size (t t' : FrozenTopology) : Z :=
  Z.of_nat HEADER_SIZE + 5 * Z.of_nat SECTION_ENTRY_SIZE +
  4 * (zlen (ft_offsets t) + zlen (ft_targets t) + zlen (ft_offsets t') + zlen (ft_targets t')) +
  Z.of_nat (wire_size PostgresMetadata).

Lemma opened_open bytes addr ck s : open_checked bytes addr ck = Ok s → open bytes addr = Ok s.
Proof.
  intros (s0 & Ho & Hc)%bind_Ok_inv. cbv zeta in Hc. case_decide; [done|]. by apply Ok_inj in Hc as ->.
Qed.

Lemma copy_shown w k v p :
  section_shows v p → p_alignment_log2 p = 0 →
  copy_section w k v = map_err from_plan (write_pending w
    {| p_kind := k; p_version := p_version p; p_alignment_log2 := 0; p_payload := p_payload p |}).
Proof.
  intros (_ & Hv & Hp & Ha) H0. unfold copy_section, write_pending, alignment_log2_from_section, declared_alignment.
  cbn [p_kind p_version p_alignment_log2 p_payload]. rewrite Ha, H0, Hv, Hp. done.
Qed.

Lemma copy_csr_shown s secs k v dest w p :
  SnapshotOk s → Forall2 (entry_holds (sn_bytes s)) (entries s) secs → p ∈ secs → p_kind p = k → p_alignment_log2 p = 0 → p_version p = v →
  copy_csr_section s k dest w = map_err from_plan (write_pending w
    {| p_kind := dest; p_version := v; p_alignment_log2 := 0; p_payload := p_payload p |}).
Proof.
  intros Hs Hh Hp <- H0 <-. unfold copy_csr_section.
  destruct (holds_section (E:=PostgresGraphError) s secs Hs Hh p Hp) as (sec & -> & Hshow). cbn [mbind res_bind ok_or].
  by apply copy_shown.
Qed.

(** Attaching two exports writes the sections above, in order. *)
Lemma attach_writes bytes addr bytes' addr' t t' m s s' :
  open bytes addr = Ok s → SnapshotOk s → Forall2 (entry_holds (sn_bytes s)) (entries s) (csr_sections S32 S32 t) →
  open bytes' addr' = Ok s' → SnapshotOk s' → Forall2 (entry_holds (sn_bytes s')) (entries s') (csr_sections S32 S32 t') →
  attach_postgres_sections bytes addr (Some (bytes', addr')) m =
    map_err from_plan (w ← SnapshotWriter_new 5 crc32c_append; w ← for_each write_pending (artifact_sections t t' m) w; finish w).
Proof.
  intros Ho Hs Hh Ho' Hs' Hh'. unfold attach_postgres_sections. rewrite Ho, Ho'. cbn [map_err mbind res_bind].
  destruct (holds_sections (E:=PostgresGraphError) s _ Hs Hh) as (vs & -> & Hshow). cbn [mbind res_bind].
  unfold csr_sections in Hshow. apply Forall2_cons_inv_r in Hshow as (v1 & vs1 & H1 & Hshow & ->).
  apply Forall2_cons_inv_r in Hshow as (v2 & vs2 & H2 & Hshow & ->). apply Forall2_nil_inv_r in Hshow as ->.
  assert (sec_kind v1 = OFFSETS_KIND S32) as Hk1 by apply H1. assert (sec_kind v2 = TARGETS_KIND S32) as Hk2 by apply H2.
  rewrite filter_cons_True by (rewrite Hk1; vm_compute; done). rewrite filter_cons_True by (rewrite Hk2; vm_compute; done).
  rewrite filter_nil. change (zlen [v1; v2] + 2 + 1) with 5.
  destruct (SnapshotWriter_new 5 crc32c_append) as [w0| | |]; try done. cbn [map_err mbind res_bind for_each artifact_sections].
  rewrite (copy_shown _ _ _ _ H1), Hk1 by done. cbn [p_version p_payload widths_section].
  fold (widths_section S32 (OFFSETS_KIND S32) VERSION (ft_offsets t)).
  destruct (write_pending w0 _) as [w1| | |]; try done. cbn [map_err mbind res_bind].
  rewrite (copy_shown _ _ _ _ H2), Hk2 by done. cbn [p_version p_payload widths_section].
  fold (widths_section S32 (TARGETS_KIND S32) VERSION (ft_targets t)).
  destruct (write_pending w1 _) as [w2| | |]; try done. cbn [map_err mbind res_bind].
  rewrite (copy_csr_shown s' _ (OFFSETS_KIND S32) VERSION SNAPSHOT_KIND_PG_INBOUND_OFFSETS_U32 w2 _ Hs' Hh'
    (list_elem_of_here _ _) eq_refl eq_refl eq_refl). cbn [p_payload widths_section].
  fold (widths_section S32 SNAPSHOT_KIND_PG_INBOUND_OFFSETS_U32 VERSION (ft_offsets t')).
  destruct (write_pending w2 _) as [w3| | |]; try done. cbn [map_err mbind res_bind].
  rewrite (copy_csr_shown s' _ (TARGETS_KIND S32) VERSION SNAPSHOT_KIND_PG_INBOUND_TARGETS_U32 w3 _ Hs' Hh'
    (list_elem_of_further _ _ _ (list_elem_of_here _ _)) eq_refl eq_refl eq_refl). cbn [p_payload widths_section].
  fold (widths_section S32 SNAPSHOT_KIND_PG_INBOUND_TARGETS_U32 VERSION (ft_targets t')).
  destruct (write_pending w3 _) as [w4| | |]; try done. cbn [map_err mbind res_bind].
  unfold write_postgres_metadata_section.
  assert (section_typed w4 SNAPSHOT_KIND_PG_METADATA METADATA_VERSION 1 [wire_bytes m] =
    write_pending w4 {| p_kind := SNAPSHOT_KIND_PG_METADATA; p_version := METADATA_VERSION; p_alignment_log2 := 0; p_payload := wire_bytes m |}) as ->.
  { unfold section_typed, write_pending, section_bytes, write_typed. cbn [concat]. by rewrite app_nil_r. }
  destruct (write_pending w4 _) as [w5| | |]; done.
Qed.

Lemma artifact_run t t' m :
  artifact_size t t' ≤ isize_max →
  ∃ bytes, map_err from_plan (w ← SnapshotWriter_new 5 crc32c_append; w ← for_each write_pending (artifact_sections t t' m) w; finish w) = Ok bytes ∧
    zlen bytes ≤ isize_max ∧
    ∀ addr, open bytes addr = Ok (opened bytes addr) ∧ SnapshotOk (opened bytes addr) ∧
      Forall2 (entry_holds bytes) (entries (opened bytes addr)) (artifact_sections t t' m).
Proof.
  intros Hsize. unfold artifact_size in Hsize.
  destruct (plain_file (artifact_sections t t' m) crc32c_append) as (w0 & w & bytes & Hnew & Hrun & Hfin & Hlen & Hopen).
  - apply crc32c_laws.
  - repeat constructor; vm_compute; congruence.
  - repeat constructor; vm_compute; congruence.
  - vm_compute. congruence.
  - change (zlen (artifact_sections t t' m)) with 5. unfold artifact_sections. cbn [fmap list_fmap concat].
    rewrite app_nil_r, !zlen_app, !zlen_widths. cbn [p_payload]. unfold zlen at 5. rewrite length_wire_bytes.
    change (Z.of_nat (swidth_size S32)) with 4. lia.
  - exists bytes. change (zlen (artifact_sections t t' m)) with 5 in Hnew. rewrite Hnew. cbn [mbind res_bind].
    rewrite Hrun. cbn [mbind res_bind]. rewrite Hfin. split; [done|]. split; [done|].
    intros addr. destruct (Hopen addr) as (Ho & Hs & Hh). split; [by eapply opened_open|]. by split.
Qed.

(** ** The engine of an artifact *)

(** Targets of the edges out of [x], sources of the edges into [y], in edge order. *)
Definition edges_out (edges : list (Z * Z)) (x : Z) : list Z := (filter (λ p, p.1 = x) edges).*2.
Definition edges_in (edges : list (Z * Z)) (y : Z) : list Z := (filter (λ p, p.2 = y) edges).*1.

Lemma bucket_edges {A} (f g : A → Z) (l : list A) x :
  target_of (g <$> l) <$> bucket (f <$> l) x = g <$> filter (λ a, f a = Z.of_nat x) l.
Proof.
  unfold bucket. induction l as [|a l IH] using rev_ind; [done|].
  rewrite !fmap_app, length_app. cbn [fmap list_fmap length]. rewrite Nat.add_1_r, positions_S, positions_app by done.
  rewrite lookup_app_r, Nat.sub_diag by done. cbn [lookup list_lookup]. rewrite filter_app, !fmap_app, filter_cons, filter_nil. f_equal.
  - rewrite <-IH. rewrite length_fmap. apply list_fmap_ext. intros j i Hi. unfold target_of.
    apply list_elem_of_lookup_2, elem_of_positions in Hi as [_ Hi]. by rewrite lookup_app_l by (by rewrite length_fmap in *).
  - rewrite !length_fmap. destruct (decide (f a = Z.of_nat x)) as [Hx|Hx].
    + rewrite decide_True by by f_equal. cbn [fmap list_fmap]. unfold target_of.
      rewrite lookup_app_r by (by rewrite length_fmap). by rewrite length_fmap, Nat.sub_diag.
    + by rewrite decide_False by (by intros [=]).
Qed.

(** What an artifact holds. *)
Record Holds (e : Engine) (n : Z) (edges : list (Z * Z)) (at_ : Z) : Prop := {
  ho_metadata : en_metadata e = with_reverse_index (new_metadata n (zlen edges) at_ true);
  ho_forward x : 0 ≤ x < n → row_targets (forward (en_topology e)) x = edges_out edges x;
  ho_inbound y : 0 ≤ y < n → row_targets (csc_inner (inbound (en_topology e))) y = edges_in edges y
}.

Lemma holds_transposed e n edges at_ : Holds e n edges at_ → Transposed (en_topology e) n.
Proof.
  intros [_ Hf Hi] x y Hx Hy. rewrite Hf, Hi by done. unfold edges_out, edges_in.
  split; intros (p & -> & [Hk Hin]%list_elem_of_filter)%list_elem_of_fmap; apply list_elem_of_fmap; exists p;
    (split; [done|]); by apply list_elem_of_filter.
Qed.

Definition InRange (n : Z) (edges : list (Z * Z)) : Prop := Forall (λ p, 0 ≤ p.1 < n ∧ 0 ≤ p.2 < n) edges.

(** The bytes of an artifact of [n] nodes and [m] edges. *)
Definition artifact_bytes (n m : Z) : Z :=
  Z.of_nat HEADER_SIZE + 5 * Z.of_nat SECTION_ENTRY_SIZE + 8 * (n + 1 + m) + Z.of_nat (wire_size PostgresMetadata).

Definition frozen_edges (n : Z) (edges : list (Z * Z)) := frozen_of (Z.to_nat n) edges.*1 edges.*2.
Definition frozen_back (n : Z) (edges : list (Z * Z)) := frozen_of (Z.to_nat n) edges.*2 edges.*1.

Section edges.
Context (n : Z) (edges : list (Z * Z)) (at_ : Z).
Hypothesis Hn : 0 ≤ n ≤ u32_max.
Hypothesis Hm : zlen edges ≤ u32_max.
Hypothesis Hr : InRange n edges.
Hypothesis Hat : is_uint 64 at_.
Hypothesis Hsize : artifact_bytes n (zlen edges) ≤ isize_max.
Let m := with_reverse_index (new_metadata n (zlen edges) at_ true).

Lemma edges_ok : EdgesOk W32 (Z.to_nat n) edges.*1 edges.*2.
Proof using Hn Hm Hr Hsize.
  pose proof isize_usize_max. pose proof (zlen_nonneg edges). unfold artifact_bytes, HEADER_SIZE, SECTION_ENTRY_SIZE in Hsize.
  assert (∀ v, 0 ≤ v < n → fits W32 v) as Hf by (intros v Hv; split; [lia|]; change (v ≤ u32_max); lia).
  unfold InRange in Hr. rewrite Forall_forall in Hr. split.
  - apply Forall_fmap, Forall_forall. intros p Hp. destruct (Hr p Hp). cbn. split; [lia|by apply Hf].
  - apply Forall_fmap, Forall_forall. intros p Hp. destruct (Hr p Hp). cbn. split; [lia|by apply Hf].
  - by rewrite !length_fmap.
  - lia.
  - unfold zlen in *. rewrite length_fmap. lia.
Qed.

Lemma edges_fit : fits W32 (zlen edges.*1) ∧ fits W32 (zlen edges.*2).
Proof using Hm.
  pose proof (zlen_nonneg edges). unfold zlen in *. rewrite !length_fmap. split; (split; [lia|]; change (Z.of_nat (length edges) ≤ u32_max); lia).
Qed.

Lemma frozen_lengths t : (t = frozen_edges n edges ∨ t = frozen_back n edges) →
  zlen (ft_offsets t) = n + 1 ∧ zlen (ft_targets t) = zlen edges ∧ zlen (ft_edge_ids t) = zlen edges.
Proof using Hn Hm Hr Hsize.
  assert (∀ src tgt, EdgesOk W32 (Z.to_nat n) src tgt → zlen src = zlen edges →
    let t := frozen_of (Z.to_nat n) src tgt in
    zlen (ft_offsets t) = n + 1 ∧ zlen (ft_targets t) = zlen edges ∧ zlen (ft_edge_ids t) = zlen edges) as Hlen.
  { intros src tgt Hok Hl. cbv zeta. unfold zlen in *. cbn [ft_offsets ft_targets ft_edge_ids frozen_of].
    rewrite length_tab, !length_fmap, (length_concat_buckets _ _ (sources_range W32 _ _ _ Hok)). lia. }
  pose proof edges_ok as Hok. intros [-> | ->]; apply Hlen; [done| |by apply EdgesOk_swap|]; unfold zlen; by rewrite length_fmap.
Qed.

Lemma metadata_fits : wire_fits m.
Proof using Hn Hm Hat.
  pose proof (zlen_nonneg edges). unfold wire_fits, m. cbn [wire_widths wire_fields metadata_wire].
  unfold with_reverse_index, new_metadata. cbn [pm_version pm_flags pm_built_at_unix pm_node_count pm_edge_count].
  assert (∀ v, 0 ≤ v ≤ u32_max → is_uint (8 * Z.of_nat 4) v) as H32.
  { intros v Hv. change (8 * Z.of_nat 4) with 32. unfold is_uint, u32_max in *. lia. }
  unfold fields_fit. apply Forall2_cons_2; [apply H32; vm_compute; split; discriminate|].
  apply Forall2_cons_2; [apply H32; vm_compute; split; discriminate|]. apply Forall2_cons_2; [exact Hat|].
  apply Forall2_cons_2; [by apply H32|]. apply Forall2_cons_2; [apply H32; lia|constructor].
Qed.

Lemma opened_engine bytes addr o c :
  validate_config c = Ok () →
  open bytes addr = Ok (opened bytes addr) → SnapshotOk (opened bytes addr) →
  Forall2 (entry_holds bytes) (entries (opened bytes addr)) (artifact_sections (frozen_edges n edges) (frozen_back n edges) m) →
  ∃ e, build_engine (Some bytes) o c addr = Ok e ∧ Holds e n edges at_.
Proof using Hn Hm Hr Hat Hsize.
  intros Hc Hopen Hs Hh. set (s := opened bytes addr) in *. pose proof edges_ok as Hok. destruct edges_fit as [Hf1 Hf2].
  assert (∀ v, 0 ≤ v ≤ n → fits S32 v) as Hfit by (intros v Hv; split; [lia|]; change (v ≤ u32_max); lia).
  assert (read_metadata s = Ok m) as Hmeta.
  { unfold read_metadata. destruct (holds_section (E:=PostgresGraphError) s _ Hs Hh
      {| p_kind := SNAPSHOT_KIND_PG_METADATA; p_version := METADATA_VERSION; p_alignment_log2 := 0; p_payload := wire_bytes m |})
      as (v & Hv & _ & _ & Hp & _); [set_solver|]. cbn [p_kind p_payload] in *. rewrite Hv. cbn [mbind res_bind ok_or].
    rewrite Hp, length_wire_bytes, decide_True by done. by rewrite (wire_codec _ metadata_fits). }
  pose proof (λ sw k v values, holds_typed s _ Hs Hh sw k v values) as Hty. unfold artifact_sections in Hty.
  destruct (frozen_sections_view S32 S32 (Z.to_nat n) edges.*1 edges.*2 s (OFFSETS_KIND S32) (TARGETS_KIND S32) VERSION Hok Hf1)
    as [(_ & g1 & Hg1 & Hok1 & Hc1 & Hl1 & Hs1)|[Hbad _]]; [| | | |destruct Hbad; apply Hfit; lia].
  { intros x Hx. apply Hfit. lia. } { apply Hty. set_solver. } { apply Hty. set_solver. }
  destruct (frozen_sections_view S32 S32 (Z.to_nat n) edges.*2 edges.*1 s SNAPSHOT_KIND_PG_INBOUND_OFFSETS_U32
    SNAPSHOT_KIND_PG_INBOUND_TARGETS_U32 VERSION (EdgesOk_swap _ _ _ _ Hok) Hf2)
    as [(_ & g2 & Hg2 & Hok2 & Hc2 & Hl2 & Hs2)|[Hbad _]]; [| | | |destruct Hbad; apply Hfit; lia].
  { intros x Hx. apply Hfit. lia. } { apply Hty. set_solver. } { apply Hty. set_solver. }
  destruct (csr_bound _ Hok1) as [Hb1 _], (csr_bound _ Hok2) as [Hb2 _].
  assert (zlen edges.*1 = zlen edges ∧ zlen edges.*2 = zlen edges) as [He1 He2] by (unfold zlen; by rewrite !length_fmap).
  assert (open_topology s = Ok {| forward := g1; inbound := Build_CscSnapshotGraph g2 |}) as Htop.
  { unfold open_topology. rewrite Hmeta. cbn [mbind res_bind]. change (has_reverse_index m) with true. cbn [negb].
    unfold from_snapshot. rewrite Hg1. cbn [map_err mbind res_bind]. unfold csc_from_snapshot_with_kinds, INBOUND_SECTION_VERSION.
    rewrite Hg2. cbn [map_err mbind res_bind]. unfold csc_node_count, csc_relation_count. cbn [csc_inner].
    rewrite decide_False by (intros Hne; apply Hne; lia). rewrite decide_False by (intros Hne; apply Hne; lia).
    rewrite !try_into_fits by lia.
    rewrite decide_False by (intros Hne; apply Hne; f_equal; change (pm_node_count m) with n; lia).
    rewrite decide_False by (intros Hne; apply Hne; f_equal; change (pm_edge_count m) with (zlen edges); lia). done. }
  unfold build_engine. cbn [ok_or mbind res_bind]. rewrite Hc, Hopen. cbn [map_err mbind res_bind]. fold s. rewrite Hmeta.
  cbn [mbind res_bind]. rewrite Htop. cbn [mbind res_bind]. eexists. split; [done|].
  assert (∀ g src tgt x, CsrOk g → node_count g = Z.of_nat (Z.to_nat n) → 0 ≤ x < n →
    (∀ E x, (x < Z.to_nat n)%nat → csr_element_successors (E:=E) g (Z.of_nat x) = Ok (target_of tgt <$> bucket src x)) →
    row_targets g x = target_of tgt <$> bucket src (Z.to_nat x)) as Hrow.
  { intros g src tgt x Hokg Hcg Hx Hsg. destruct (csr_bound _ Hokg) as [Hbg _].
    specialize (Hsg Empty_set (Z.to_nat x) ltac:(lia)). rewrite Z2Nat.id in Hsg by lia.
    rewrite row_successors in Hsg by (done || lia). by apply Ok_inj in Hsg. }
  constructor; cbn [en_metadata en_topology forward inbound csc_inner]; [done| |].
  - intros x Hx. rewrite (Hrow g1 _ _ x Hok1 Hc1 Hx Hs1), bucket_edges. unfold edges_out. by rewrite Z2Nat.id by lia.
  - intros x Hx. rewrite (Hrow g2 _ _ x Hok2 Hc2 Hx Hs2), bucket_edges. unfold edges_in. by rewrite Z2Nat.id by lia.
Qed.

(** Freezing, exporting both ways and attaching. *)
Lemma export_dual_exact forward_addr inbound_addr :
  ∃ bytes, export_dual {| gb_node_count := n; gb_sources := edges.*1; gb_targets := edges.*2 |} n at_ forward_addr inbound_addr = Ok bytes ∧
    zlen bytes ≤ isize_max ∧
    ∀ addr o c, validate_config c = Ok () → ∃ e, build_engine (Some bytes) o c addr = Ok e ∧ Holds e n edges at_.
Proof using Hn Hm Hr Hat Hsize.
  pose proof edges_ok as Hok. pose proof (EdgesOk_swap _ _ _ _ Hok) as Hok'. destruct edges_fit as [Hf1 Hf2].
  destruct (frozen_lengths _ (or_introl eq_refl)) as (Ho1 & Ht1 & Hi1). destruct (frozen_lengths _ (or_intror eq_refl)) as (Ho2 & Ht2 & _).
  pose proof (zlen_nonneg edges) as Hnn. unfold artifact_bytes in Hsize.
  unfold export_dual, freeze, transpose. cbn [gb_node_count gb_sources gb_targets].
  destruct (freeze_cases W32 W32 _ _ _ Hok) as [[_ Hfr]|[Hbad _]]; [|done]. rewrite Z2Nat.id in Hfr by lia. rewrite Hfr.
  fold (frozen_edges n edges). cbn [map_err mbind res_bind]. rewrite Hi1, !try_into_fits by lia. cbn [ok_or mbind res_bind].
  cbn [ft_node_count ft_edge_targets ft_sources frozen_edges frozen_of].
  destruct (freeze_cases W32 W32 _ _ _ Hok') as [[_ Hfr']|[Hbad _]]; [|done]. rewrite Hfr'.
  fold (frozen_back n edges). cbn [map_err mbind res_bind].
  destruct (csr_export_run S32 S32 (frozen_edges n edges)) as (b1 & Hb1 & Hopen1).
  { unfold csr_file_size. rewrite Ho1, Ht1. change (Z.of_nat (swidth_size S32)) with 4. unfold SECTION_ENTRY_SIZE in *. lia. }
  destruct (csr_export_run S32 S32 (frozen_back n edges)) as (b2 & Hb2 & Hopen2).
  { unfold csr_file_size. rewrite Ho2, Ht2. change (Z.of_nat (swidth_size S32)) with 4. unfold SECTION_ENTRY_SIZE in *. lia. }
  change (frozen_of (Z.to_nat n) edges.*1 edges.*2) with (frozen_edges n edges).
  change export_csr_snapshot with export_topology_snapshot. rewrite Hb1. cbn [map_err mbind res_bind]. rewrite Hb2. cbn [map_err mbind res_bind].
  destruct (Hopen1 forward_addr) as (Hop1 & Hs1 & Hh1). destruct (Hopen2 inbound_addr) as (Hop2 & Hs2 & Hh2).
  rewrite (attach_writes b1 forward_addr b2 inbound_addr _ _ _ _ _ (opened_open _ _ _ _ Hop1) Hs1 Hh1 (opened_open _ _ _ _ Hop2) Hs2 Hh2).
  destruct (artifact_run (frozen_edges n edges) (frozen_back n edges) m) as (bytes & Hrun & Hlen & Hopen).
  { unfold artifact_size. rewrite Ho1, Ht1, Ho2, Ht2. lia. }
  exists bytes. split; [exact Hrun|]. split; [exact Hlen|]. intros addr o c Hc. destruct (Hopen addr) as (Hop & Hs & Hh).
  by apply opened_engine.
Qed.

End edges.

(** ** The builder's loops *)

Lemma add_nodes_Ok k :
  Z.of_nat k ≤ u32_max → Z.of_nat k ≤ usize_max →
  add_nodes k GraphBuilder_new = Ok {| gb_node_count := Z.of_nat k; gb_sources := []; gb_targets := [] |}.
Proof.
  unfold add_nodes. induction k as [|k IH]; intros Hu Hs; [done|].
  rewrite <-Nat.add_1_r, replicate_add, for_each_app, IH by lia. cbn [mbind res_bind replicate for_each].
  unfold add_node, next_dense_index. cbn [gb_node_count gb_sources gb_targets].
  assert (from_usize W32 (Z.of_nat k) = Some (Z.of_nat k)) as ->.
  { apply from_usize_Some; [lia|]. split; [done|]. split; [lia|]. change (Z.of_nat k ≤ u32_max). lia. }
  cbn [ok_or mbind res_bind]. rewrite checked_add_fits by lia. cbn [ok_or mbind res_bind mret res_ret]. do 2 f_equal. lia.
Qed.

Lemma add_edge_Ok n src tgt a b :
  n ≤ u32_max → n ≤ usize_max → 0 ≤ a < n → 0 ≤ b < n → zlen src ≤ u32_max →
  zlen src ≤ usize_max →
  ∃ id, add_edge W32 W32 {| gb_node_count := n; gb_sources := src; gb_targets := tgt |} a b =
    Ok (id, {| gb_node_count := n; gb_sources := src ++ [a]; gb_targets := tgt ++ [b] |}).
Proof.
  intros Hn Hn' Ha Hb Hs Hs'. pose proof (zlen_nonneg src).
  assert (∀ v, 0 ≤ v < n → ensure_node W32 v n = Ok v) as Hens.
  { intros v Hv. unfold ensure_node, id_to_slot. assert (to_usize W32 v = Some v) as ->.
    { apply to_usize_Some; [split; [lia|]; change (v ≤ u32_max); lia|split; [done|lia]]. }
    cbn [ok_or map_err mbind res_bind]. by rewrite decide_True by lia. }
  unfold add_edge. cbn [gb_node_count gb_sources gb_targets]. rewrite !Hens by done. cbn [mbind res_bind].
  assert (from_usize W32 (zlen src) = Some (zlen src)) as ->.
  { apply from_usize_Some; [lia|]. split; [done|]. split; [lia|]. change (zlen src ≤ u32_max). lia. }
  by eexists.
Qed.

(** A loop that adds the edge of each item. *)
Lemma add_edges_Ok {A} (f : GraphBuilder → A → res PostgresGraphError GraphBuilder) (edge : A → Z * Z) n l :
  n ≤ u32_max → n ≤ usize_max → zlen l ≤ u32_max → zlen l ≤ usize_max →
  InRange n (edge <$> l) →
  (∀ b a, a ∈ l → f b a = ('(_, b) ← map_err from_graph (add_edge W32 W32 b (edge a).1 (edge a).2); Ok b)) →
  for_each f l {| gb_node_count := n; gb_sources := []; gb_targets := [] |} =
    Ok {| gb_node_count := n; gb_sources := (edge <$> l).*1; gb_targets := (edge <$> l).*2 |}.
Proof.
  intros Hn Hn'. induction l as [|a l IH] using rev_ind; intros Hl Hl' Hr Hf; [done|].
  rewrite zlen_app in Hl, Hl'. change (zlen [a]) with 1 in Hl, Hl'.
  rewrite fmap_app in Hr |- *. apply Forall_app in Hr as [Hr [Ha _]%Forall_cons].
  rewrite for_each_app, IH; [|lia|lia|done|intros b x Hx; apply Hf; set_solver]. cbn [mbind res_bind for_each].
  rewrite Hf by set_solver.
  destruct (add_edge_Ok n (edge <$> l).*1 (edge <$> l).*2 (edge a).1 (edge a).2) as (id & ->);
    try (unfold zlen in *; rewrite ?length_fmap; lia).
  cbn [map_err mbind res_bind]. by rewrite !fmap_app.
Qed.

Lemma distinct_keys_ends rows row : row ∈ rows → er_source row ∈ distinct_node_keys rows ∧ er_target row ∈ distinct_node_keys rows.
Proof.
  unfold distinct_node_keys. induction rows as [|r rows IH] using rev_ind; [by intros ?%not_elem_of_nil|].
  rewrite foldl_snoc. intros [Hin| ->%list_elem_of_singleton]%elem_of_app; [|set_solver].
  specialize (IH Hin). set_solver.
Qed.

Lemma rank_bound (keys : gset Z) k : k ∈ keys → (rank keys k < size keys)%nat.
Proof.
  intros Hk. rewrite <-length_set_iter. apply (lookup_lt_Some _ _ k). by apply set_iter_rank.
Qed.

(** The edge of a row: the ranks of its keys. *)
Definition row_edge (keys : gset Z) (r : EdgeRow) : Z * Z := (Z.of_nat (rank keys (er_source r)), Z.of_nat (rank keys (er_target r))).

(** The artifact [bytes] opens anywhere into an engine over [n] nodes and
    [edges], whose two views are transposes of each other. *)
Definition opens_as (bytes : list byte) (n : Z) (edges : list (Z * Z)) (at_ : Z) : Prop :=
  zlen bytes ≤ usize_max ∧ ∀ addr o c, validate_config c = Ok () →
    ∃ e, build_engine (Some bytes) o c addr = Ok e ∧ Holds e n edges at_ ∧ Transposed (en_topology e) n.

Lemma export_dual_opens n edges at_ forward_addr inbound_addr :
  0 ≤ n ≤ u32_max → zlen edges ≤ u32_max → InRange n edges → is_uint 64 at_ → artifact_bytes n (zlen edges) ≤ isize_max →
  ∃ bytes, export_dual {| gb_node_count := n; gb_sources := edges.*1; gb_targets := edges.*2 |} n at_ forward_addr inbound_addr = Ok bytes ∧
    opens_as bytes n edges at_.
Proof.
  intros Hn Hm Hr Hat Hsize. destruct (export_dual_exact n edges at_ Hn Hm Hr Hat Hsize forward_addr inbound_addr) as (bytes & Hrun & Hlen & He).
  exists bytes. split; [done|]. split; [pose proof isize_usize_max; lia|]. intros addr o c Hc.
  destruct (He addr o c Hc) as (e & Hb & Hh). exists e. split; [done|]. split; [done|]. by eapply holds_transposed.
Qed.

(** C38. Building from edge rows refuses an empty set; otherwise, whenever node
    and edge counts are [u32] values and the file fits in memory, it succeeds,
    and the file opens at any address into an engine with one node per distinct
    key, numbered by rank, and one base edge per row between the ranks of its
    keys: the forward row of a node lists the targets of its rows in row order,
    the inbound row the sources, the two views are transposes, and the metadata
    holds the counts, the build time and the reverse-index flag. *)
Theorem build_rows_exact rows at_ forward_addr inbound_addr :
  let keys := distinct_node_keys rows in
  let n := Z.of_nat (size keys) in
  n ≤ u32_max → zlen rows ≤ u32_max → is_uint 64 at_ → artifact_bytes n (zlen rows) ≤ isize_max →
  (rows = [] ∧ from_edge_rows rows at_ forward_addr inbound_addr = Err (PgBuild EmptyEdges)) ∨
  (rows ≠ [] ∧ ∃ bytes, from_edge_rows rows at_ forward_addr inbound_addr = Ok bytes ∧
    opens_as bytes n (row_edge keys <$> rows) at_).
Proof.
  intros keys n Hn Hm Hat Hsize. destruct (decide (rows = [])) as [->|Hne]; [by left|]. right. split; [done|].
  pose proof isize_usize_max as Hius. pose proof (zlen_nonneg rows) as Hnn.
  assert (zlen (row_edge keys <$> rows) = zlen rows) as Hlen by (unfold zlen; by rewrite length_fmap).
  assert (InRange n (row_edge keys <$> rows)) as Hr.
  { apply Forall_fmap, Forall_forall. intros r Hin. destruct (distinct_keys_ends rows r Hin) as [H1 H2].
    pose proof (rank_bound keys _ H1). pose proof (rank_bound keys _ H2). unfold row_edge. cbn. lia. }
  assert (n + zlen rows ≤ usize_max) as Hfit by (unfold artifact_bytes, HEADER_SIZE, SECTION_ENTRY_SIZE in Hsize; lia).
  unfold from_edge_rows. rewrite decide_False by (by destruct rows). fold keys.
  pose proof (dense_map_spec keys) as Hdense. rewrite decide_True in Hdense by lia. destruct Hdense as (dm & -> & Hds & Hdm).
  cbn [map_err mbind res_bind]. rewrite Hds, add_nodes_Ok by lia. cbn [map_err mbind res_bind]. fold n.
  assert (∀ b r, r ∈ rows → add_row dm b r =
    ('(_, b) ← map_err from_graph (add_edge W32 W32 b (row_edge keys r).1 (row_edge keys r).2); Ok b)) as Hadd.
  { intros b r Hin. destruct (distinct_keys_ends rows r Hin) as [H1 H2]. unfold add_row.
    by rewrite (proj2 (Hdm _ _) (conj H1 eq_refl)), (proj2 (Hdm _ _) (conj H2 eq_refl)). }
  rewrite (add_edges_Ok (add_row dm) (row_edge keys) n rows) by (lia || done).
  cbn [mbind res_bind]. apply export_dual_opens; rewrite ?Hlen; (done || lia).
Qed.

(** The same of dense edges: a node count of zero and ids out of range are
    refused. *)
Theorem build_dense_exact n edges at_ forward_addr inbound_addr :
  0 ≤ n ≤ u32_max → Forall (λ p, 0 ≤ p.1 ∧ 0 ≤ p.2) edges → zlen edges ≤ u32_max → is_uint 64 at_ →
  artifact_bytes n (zlen edges) ≤ isize_max →
  let run := from_dense_u32_edges_with_node_count n edges at_ forward_addr inbound_addr in
  (n = 0 ∧ run = Err (PgBuild EmptyEdges)) ∨
  (n ≠ 0 ∧ ¬ InRange n edges ∧ run = Err (PgBuild MissingNodeKey)) ∨
  (n ≠ 0 ∧ InRange n edges ∧ ∃ bytes, run = Ok bytes ∧ opens_as bytes n edges at_).
Proof.
  intros Hn Hnn Hm Hat Hsize run. unfold run, from_dense_u32_edges_with_node_count.
  destruct (decide (n = 0)) as [->|Hne]; [by left|]. right. pose proof isize_usize_max. pose proof (zlen_nonneg edges).
  rewrite Forall_forall in Hnn.
  destruct (existsb (λ e, bool_decide (n ≤ e.1 ∨ n ≤ e.2)) edges) eqn:Hex.
  - left. split; [done|]. split; [|done]. apply existsb_exists in Hex as (p & Hp%list_elem_of_In & Hb%bool_decide_eq_true).
    unfold InRange. rewrite Forall_forall. intros Hr. specialize (Hr p Hp). lia.
  - assert (InRange n edges) as Hr.
    { apply Forall_forall. intros p Hp. specialize (Hnn p Hp).
      assert (¬ (n ≤ p.1 ∨ n ≤ p.2)) as Hno; [|lia]. intros Hbad. apply not_true_iff_false in Hex. apply Hex, existsb_exists.
      exists p. split; [by apply list_elem_of_In|by apply bool_decide_eq_true]. }
    right. split; [done|]. split; [done|]. assert (n + zlen edges ≤ usize_max) as Hfit by (unfold artifact_bytes, HEADER_SIZE, SECTION_ENTRY_SIZE in Hsize; lia).
    rewrite add_nodes_Ok by lia. cbn [map_err mbind res_bind]. rewrite Z2Nat.id by lia.
    assert ((λ e : Z * Z, e) <$> edges = edges) as Hid by apply list_fmap_id.
    rewrite (add_edges_Ok _ (λ e, e) n edges) by (rewrite ?Hid; lia || done). rewrite Hid. cbn [mbind res_bind].
    by apply export_dual_opens.
Qed.

End build.

(** ** Three rows *)

Section demo.

Definition demo_edge_rows : list EdgeRow :=
  [{| er_source := 70; er_target := 20 |}; {| er_source := 20; er_target := 31 |}; {| er_source := 70; er_target := 31 |}].

Lemma build_rows_exact_witness :
  ∃ bytes, from_edge_rows (H := target64) demo_edge_rows 1700000000 0 64 = Ok bytes ∧
    opens_as (H := target64) bytes 3 [(2, 0); (0, 1); (2, 1)] 1700000000.
Proof.
  destruct (build_rows_exact (H := target64) demo_edge_rows 1700000000 0 64) as [[Hne _]|(_ & bytes & Hb & Ho)].
  - vm_compute. discriminate.
  - vm_compute. discriminate.
  - vm_compute. split; [discriminate|reflexivity].
  - vm_compute. discriminate.
  - discriminate Hne.
  - exists bytes. split; [exact Hb|].
    assert (Z.of_nat (size (distinct_node_keys demo_edge_rows)) = 3) as Hn by (vm_compute; reflexivity).
    assert (row_edge (distinct_node_keys demo_edge_rows) <$> demo_edge_rows = [(2, 0); (0, 1); (2, 1)]) as He by (vm_compute; reflexivity).
    rewrite Hn, He in Ho. exact Ho.
Defined.

End demo.
